(* ===== verification/_CoqProject ===== *)
-Q . S2P
Prelude.v
RustFloat.v
TimeCore.v
WatermarkGen.v
WatermarkTrack.v
PartitionedWm.v
KeyedWm.v
AlignmentGroup.v
StateStore.v
WindowCore.v
WindowAgg.v
TumblingOp.v
Retraction.v
SortKeys.v
TopK.v
PartitionedTopK.v
LagLead.v
TableCache.v
TableStore.v
Wal.v
PerCoreWal.v
CheckpointRecovery.v
DagTopology.v
DagNames.v
DagBuilder.v
Multicast.v
ChangelogBuffers.v
MvRegistry.v
MvDag.v
SortOps.v
DagWatermark.v
Barriers.v
DagExec.v
RingBuffer.v
StateChangelog.v
Channel.v
SlidingOp.v
SessionOp.v
RustStr.v
PgDecoder.v
PgChangelog.v
PgSource.v
