(* ===== verification/Prelude.v ===== *)
(** * LaminarDB: a verification of the streaming core

    LaminarDB is a streaming SQL database written in Rust. Events carry an event
    time; sources emit watermarks ("no event before this time will come"), the
    watermarks of several sources, partitions or keys are combined, a dag of
    operators passes events and watermarks on, and window operators keep per-window
    state that they emit and discard when the watermark passes the end of a window.
    State survives crashes through write-ahead logs, checkpoints and aligned
    barriers; threads exchange records through lock-free queues. This library models
    these parts and proves that they do what they promise; where they do not, a
    theorem shows what happens instead.

    ** Parts of the program and where they are modelled

    Sources are under src/crates/laminar-core/src/ unless another crate is named.

    - [Prelude] (this file): Rust's [i64], [u64], durations and byte encodings,
      minimum and maximum of lists, the "minimum over the active entries" loop
      that four components share, runs of state machines that emit, interleavings
      of threads and their refinement of a sequential specification, tactics.

    Event time.
    - [TimeCore], time/mod.rs: [Watermark], [TimerRegistration] with its inverted
      order, [TimerService] (register, poll, cancel, clear). [BinaryHeap] is a
      list with [peek] returning a greatest element.
    - [WatermarkGen], time/watermark.rs: the trait [WatermarkGenerator] as a
      class, its laws [GeneratorLaws], and the bounded, ascending, periodic,
      punctuated, source-provided and processing-time generators and the metered
      wrapper.
    - [WatermarkTrack], time/watermark.rs: [WatermarkTracker], the combined
      watermark of several sources with idle detection.
    - [PartitionedWm], time/partitioned_watermark.rs: the per-partition tracker
      with its incrementally maintained metrics, the per-core state and the global
      collector.
    - [KeyedWm], time/keyed_watermark.rs: per-key watermarks, the key limit and
      its eviction policies, batches, late-event accounting.
    - [AlignmentGroup], time/alignment_group.rs: alignment groups (pausing a
      source that runs ahead of the others) and their coordinator.

    State and windows.
    - [StateStore], state/mod.rs and state/ahash_store.rs: the [StateStore] trait
      as a class with its laws, the ordered and the hashed in-memory store, typed
      access, snapshots.
    - [WindowCore], operator/window.rs and operator/sliding_window.rs: late-data
      and close metrics, [EmitStrategy], [WindowId] and its 16-byte key, changelog
      records, the tumbling and the sliding window assigner.
    - [WindowAgg], operator/window.rs: the [Accumulator] and [Aggregator] traits
      as classes with laws, COUNT, SUM, MIN, MAX, FIRST_VALUE and LAST_VALUE.
    - [TumblingOp], operator/window.rs, operator/mod.rs, dag/executor.rs: the
      tumbling window operator ([process], [on_timer], [checkpoint], [restore])
      over any aggregator, state store and watermark generator, and the loop of
      the executor that advances a node's watermark and fires its timers.
    - [SlidingOp], operator/sliding_window.rs: the sliding window operator over the
      same interfaces.
    - [SessionOp], operator/session_window.rs: session metadata, the per-key index
      of sessions with its cache, merging, and the session window operator over the
      same interfaces.

    Durability.
    - [Wal], laminar-storage/src/wal.rs: the record format, append, sync, repair,
      reading. A file is its bytes and the length that is synced; a crash keeps any
      prefix that contains the synced one.
    - [PerCoreWal], laminar-storage/src/per_core_wal/: entries, writer, reader,
      manager, merging of the segments of all cores.
    - [CheckpointRecovery], laminar-storage/src/incremental/ and
      per_core_wal/{coordinator,recovery}.rs: checkpoints on disk, retention, replay
      and recovery.

    The dataflow graph.
    - [DagTopology], dag/topology.rs, dag/routing.rs, dag/error.rs: building a graph,
      the checks and Kahn's algorithm of [finalize], derived fields, routing table.
    - [DagWatermark], dag/watermark.rs: propagation of watermarks through a graph.
    - [Barriers], checkpoint/barrier.rs, dag/checkpoint.rs, dag/recovery/mod.rs: the
      command word of a barrier injector under interleaving, the aligner, the
      checkpoint coordinator, checkpoint results.
    - [DagExec], dag/executor.rs: the executor over arbitrary operators.

    Queues between threads.
    - [RingBuffer], alloc/spsc.rs, streaming/ring_buffer.rs: the single-producer,
      single-consumer ring, as sequential operations and as the atomic accesses of
      two threads, and the slot claiming for several producers.
    - [Channel], streaming/{channel,config,error}.rs: producer and consumer handles,
      the switch from one to several producers, backpressure.

    Sorting and top-k operators, laminar-core/src/operator/.
    - [SortKeys], topk.rs: the memory-comparable encodings and [extract_sort_key]; a
      record batch is what the class [ArrowBatch] reads of it.
    - [TopK], topk.rs: the bounded sorted buffer, its ranks, emission strategies and
      checkpoint; the slice search is the class [BinarySearch] with its laws.
    - [PartitionedTopK], partitioned_topk.rs: one buffer per partition key under a cap
      on the partitions; [MapOrder] is the iteration order of the hash map.
    - [SortOps], watermark_sort.rs and window_sort.rs: buffering until the watermark
      or the end of the window, forced flushes, top-N within a window.
    - [LagLead], lag_lead.rs: LAG, LEAD, FIRST_VALUE, LAST_VALUE and NTH_VALUE per
      partition; [RustFloat] has the conversions to [f64] it and the cache use.

    Graphs and rings.
    - [DagNames], graphs known by the names of their nodes, which the builder and the
      conversion of views share; [DagBuilder], dag/builder.rs.
    - [Multicast], dag/multicast.rs: the ring with a reference count per slot, one
      writer and many readers, interleaved.
    - [StateChangelog], laminar-storage/src/incremental/changelog.rs and
      changelog_drainer.rs: the ring of state mutations, related step by step to
      [RingBuffer], and the drainer behind it.

    Changelogs.
    - [Retraction], operator/changelog.rs: the trait of retractable accumulators as the
      record [Retractable] with the laws [RetractableLaws], its nine implementations,
      corrections of late results, Debezium envelopes.
    - [ChangelogBuffers], operator/changelog.rs and dag/changelog.rs: references to
      changed rows, their reusable buffer, a buffer for every node of a dag.

    Reference tables.
    - [TableCache], operator/table_cache.rs: the LRU cache, a doubly linked list
      threaded through a slab, and the xor filter, whose crate is the class
      [XorFilter].
    - [TableStore], laminar-db/src/table_{store,backend,cache_mode}.rs: tables by
      primary key, read through filter, cache and backend.

    Materialized views, laminar-core/src/mv/.
    - [MvRegistry], registry.rs and error.rs: registration with its checks,
      unregistration, cascades, dependency chains and the topological order; [StrOrder]
      is the order the code sorts names by.
    - [MvDag], [StreamingDag::from_mv_registry] of dag/topology.rs: the graph a
      registry is compiled to.

    Change data capture, laminar-connectors/src/cdc/postgres/.
    - [RustStr]: Rust strings as the connectors use them: UTF-8, hexadecimal formats,
      [u32::from_str_radix], [split_once].
    - [PgDecoder], lsn.rs, decoder.rs: positions in the log and their text, the cursor
      over a message's bytes, the decoder; [pgoutput] is the protocol's format as a
      relation, and grammars with their readers connect the two.
    - [PgChangelog], schema.rs, types.rs, changelog.rs: the relation cache, the JSON of
      a row, the columns of a batch.
    - [PgSource], source.rs, metrics.rs, config.rs and checkpoint.rs of the connectors
      crate, and the source task's loop of
      laminar-db/src/pipeline/streaming_coordinator.rs: transactions, polling,
      checkpoint and restore. The reader task is its queue of payloads.

    The components meet in interfaces: the operators use a generator through
    [GeneratorLaws], a store through [StateStoreLaws], an aggregate through
    [AccumulatorLaws] and [AggregatorLaws], serialisation through [ArchiveLaws], and
    the timer service through the specification of polling; the implementations are
    instances of these classes. The concurrent components share the notion of a
    labelled run of interleaved steps that refines a sequential specification.

    ** How the code is represented

    A function that mutates [self] returns the new state with its result. Names
    follow the source: [T_f] is the method [f] of the type [T] ([Sliding_f] for the
    sliding operator), except in
    [TumblingOp] and for the helpers of [SessionOp], where the methods of the one
    operator keep their plain names. [i64] and [u64] are [Z] with saturating
    operations where the code saturates and wrap-around where it uses [+] and [-]
    (release builds do not check for overflow). A hash map is a [gmap]; where the
    code's result could depend on its iteration order, the order is a parameter
    with the hypothesis that it lists the map's entries. Every reading of a clock is
    an argument. Errors are sums or options; [None] in place of a result stands for
    a panic, or for undefined behaviour of an uninitialised read, where a comment
    says so. Threads interleave at the atomic accesses under sequential consistency;
    a call that blocks takes the list of what the other threads do meanwhile.

    Loops are structural recursions, or take fuel: [poll_loop] gets one more than
    the number of timers and removes a timer per round; [sliding_loop] gets
    [size / slide + 2], one round per window that can contain an event and one to
    leave; the repair and read loops of the logs get one more than the number of
    bytes of the file, and every round consumes a record of at least a header;
    [kahn_loop] gets the number of nodes; the drains of queues and rings get the
    number of their entries. All of them are proved to return.

    Not modelled, and parameters here: rkyv serialisation (class [Archive], whose
    law is that deserialising undoes serialising), checksums, Arrow batches
    ([int64_column] reads a column, [make_batch] builds the output row), hash
    functions.

    ** What the theorems show

    - Watermarks: every generator that promises it emits strictly increasing
      watermarks, wrappers included; the bounded generator is "maximum seen minus
      bound"; the trackers refine "maximum of the old value and the minimum over
      the active inputs", their metrics are exact in every reachable state, the
      per-core vectors stay aligned, the global collector is the minimum over the
      cores; per-key watermarks are independent, the key limit holds under every
      eviction order, and a batch is equivalent to single updates.
    - Alignment: a source is paused exactly when it leads by more than the allowed
      drift and resumes exactly when the others caught up; one pass of the check
      in any order resumes only sources within the drift and leaves no resumable source
      paused; some source always runs; the
      coordinator's two maps agree.
    - Timers: polling terminates and fires exactly the due timers in order;
      identifiers stay distinct; cancelling removes one timer.
    - State: the hashed store is observably the ordered one, byte counts are
      exact, prefix scans return exactly the keys with the prefix (carry and
      overflow of the successor included), snapshots restore.
    - Windows: both assigners return exactly the windows that contain an event;
      partial aggregates merge to the aggregate of the whole; end to end, a
      tumbling-window node driven by any interleaving of events and watermarks
      emits, input by input, what a reference semantics emits: every window is closed
      at most once, with the aggregate of exactly the accepted events, by the first
      watermark that reaches its end plus lateness; so does a
      sliding-window node, whose changelog is balanced: one row per window; a
      session-window node partitions the accepted events into sessions whose bounds
      are exactly the union of their events' gap intervals, and keeps doing so over
      a crash and restart.
    - Durability: after a crash at any byte the logs keep exactly the whole records,
      at least the synced ones; merging per-core segments returns every entry, and each
      core's in the order of its appends when its epochs and clock never went back;
      recovery is the last checkpoint plus exactly the entries behind it; retention
      keeps the newest checkpoints.
    - The graph: [finalize] accepts exactly the well-formed acyclic graphs and orders
      them topologically; routing lists the edges; every node's watermark is the
      minimum over its inputs; barriers are delivered once and cut every input at its
      barrier; a pass over the graph loses, duplicates and reorders
      nothing and empties every queue.
    - Queues: every interleaving of producers, each handle used by one thread at a
      time, and consumer is a run of a bounded FIFO queue, and calls return.
    - Sorting and top-k: encoded keys compare as the rows do, column by column, with
      nulls on the documented side in ascending columns; after
      any run a top-k buffer holds, in order, k least rows of what was processed, and
      the emitted changes add up to it; partitions do not influence each other; the
      watermark sort emits every event that is not late exactly once and in order.
    - Analytic functions: on one column every function gives each row the value of
      the right row of its partition, from bounded histories and queues.
    - Graphs and rings: [build] decides whether a description is a graph and returns
      that graph; every interleaving of the multicast buffer is a run of a log that
      each consumer reads from its start, without races; the changelog ring is a FIFO
      queue, and the drainer loses only the oldest entries, at its limit.
    - Changelogs: taking a value back is never having added it, for every retractable
      aggregate; a correction takes back exactly the result emitted last; the buffers
      are bounded queues.
    - Reference tables: the linked list is the list of entries ordered by last use,
      and reading through the caches is reading the map of the rows last stored, up
      to keys younger than the filter.
    - Materialized views: after any sequence of operations the indices of the registry
      agree with its views, the graph is acyclic and the order topological; a
      registration succeeds exactly under its stated conditions; a cascade removes
      exactly the transitive dependents; the compiled graph has exactly the registry's
      dependencies as its edges.
    - Change data capture: the decoder accepts exactly the messages of the protocol and
      notices every truncation; the JSON of a row reads back as the row; repeated
      polling delivers exactly the rows of committed transactions in commit order, and
      on an ordered stream a checkpoint never confirms an undelivered row, both as long
      as no poll fails and nothing is dropped at the cap.
    - What the code does instead: a periodic wrapper that never ticks,
      source-provided watermarks that regress, a rebalance that unpublishes the
      combined watermark, a rejected batch that corrupts the key counts, windows
      before the epoch that are never closed, changelogs of the tumbling and the
      session operator that keep old rows, restored tumbling windows without timers,
      timers fired ahead of a slow input, a per-core checkpoint that drops the state
      and a reopened log whose writes lose against older ones, a log poisoned by an
      oversized entry, claimed ring slots that wedge, a shared clone of a producer
      that loses an item, a replication slot that is advanced with every batch, a failed
      poll that loses the payloads behind the error, nulls that change sides
      under a descending key, a top-k with the on-watermark strategy that never emits,
      restored sort operators that have forgotten their rows, LAG beside LEAD, which
      is the LAG of another row, retractions that reorder the values
      of one timestamp, a completed checkpoint that discards the events buffered since
      the alignment, a graph builder that compares no schemas.

    ** What is left

    Next: the partition assignment of a cluster, the join operators, the reader task of
    the PostgreSQL source and the MySQL source.
    Left out for good: SQL parsing and planning
    (DataFusion's syntax trees), connectors' network code, the HTTP server,
    bindings, and floating-point aggregates. *)


From Stdlib Require Export ZArith Lia Sorted.
From stdpp Require Export sorting gmap strings option.
From stdpp Require Export list.

Declare Scope laminar_scope.
Delimit Scope laminar_scope with lam.
#[global] Open Scope Z_scope.
#[global] Open Scope laminar_scope.

Create HintDb laminar.

(** ** Machine integers *)

(** Rust's [i64] and [u64]/[usize] (64-bit target) are values of [Z] kept
    inside their range; the operations below are the ones the sources use.
    Plain [+=] and [-] on counters are the wrapping operations of the release
    profile. *)
Abbreviation i64_MIN := (-9223372036854775808)%Z.
Abbreviation i64_MAX := 9223372036854775807%Z.
Abbreviation u64_MOD := 18446744073709551616%Z.

Definition is_i64 (z : Z) : Prop := i64_MIN <= z <= i64_MAX.
Definition is_u64 (z : Z) : Prop := 0 <= z < u64_MOD.

Definition clamp_i64 (z : Z) : Z := Z.max i64_MIN (Z.min i64_MAX z).
Definition sat_add (a b : Z) : Z := clamp_i64 (a + b).
Definition sat_sub (a b : Z) : Z := clamp_i64 (a - b).

Definition wrap_u64 (z : Z) : Z := z mod u64_MOD.
Definition wrap_i64 (z : Z) : Z := (z + 9223372036854775808) mod u64_MOD - 9223372036854775808.

Definition u64_add (a b : Z) : Z := wrap_u64 (a + b).
Definition u64_sub (a b : Z) : Z := wrap_u64 (a - b).
Definition u64_sat_sub (a b : Z) : Z := Z.max 0 (a - b).

Definition i64_add (a b : Z) : Z := wrap_i64 (a + b).
Definition i64_sub (a b : Z) : Z := wrap_i64 (a - b).
Definition i64_mul (a b : Z) : Z := wrap_i64 (a * b).

Definition is_u8 (b : Z) : Prop := 0 <= b < 256.

Notation "a ⊞ b" := (sat_add a b) (at level 50, left associativity) : laminar_scope.
Notation "a ⊟ b" := (sat_sub a b) (at level 50, left associativity) : laminar_scope.

(** Wall-clock readings ([std::time::Instant]) and [std::time::Duration] are
    nanosecond counts. [Instant::elapsed] saturates at zero. *)
Abbreviation Instant := Z (only parsing).
Abbreviation Duration := Z (only parsing).
Definition elapsed (now since : Instant) : Duration := Z.max 0 (now - since).
Definition from_millis (ms : Z) : Duration := ms * 1000000.
Definition from_secs (s : Z) : Duration := s * 1000000000.
Definition as_millis (d : Duration) : Z := d / 1000000.

(** ** Tactics *)

Ltac unfold_ints :=
  unfold sat_add, sat_sub, clamp_i64, u64_add, u64_sub, u64_sat_sub, wrap_u64,
    is_i64, is_u64, elapsed, from_millis, from_secs in *.

(** Arithmetic on machine integers. *)
Ltac int_lia := unfold_ints; lia.

(** Replace the boolean comparisons of the code by the propositions they decide,
    splitting the goal on each. *)
Ltac zcase_goal :=
  match goal with
  | |- context [?a <? ?b] => destruct (Z.ltb_spec a b)
  | |- context [?a <=? ?b] => destruct (Z.leb_spec a b)
  | |- context [?a =? ?b] => destruct (Z.eqb_spec a b)
  | |- context [?a >? ?b] => rewrite (Z.gtb_ltb a b)
  | |- context [?a >=? ?b] => rewrite (Z.geb_leb a b)
  end.
Ltac zcase_hyp :=
  match goal with
  | H : context [?a <? ?b] |- _ => destruct (Z.ltb_spec a b)
  | H : context [?a <=? ?b] |- _ => destruct (Z.leb_spec a b)
  | H : context [?a =? ?b] |- _ => destruct (Z.eqb_spec a b)
  | H : context [?a >? ?b] |- _ => rewrite (Z.gtb_ltb a b) in H
  | H : context [?a >=? ?b] |- _ => rewrite (Z.geb_leb a b) in H
  end.
Ltac zcase := repeat (first [zcase_goal | zcase_hyp]; simpl in *).

(** Split on every [if]/[match] scrutinee left in the goal or a hypothesis. *)
Ltac cases := repeat (case_match; simplify_eq/=).

(** ** Machine-integer lemmas *)

Lemma sat_sub_i64 a b : is_i64 (a ⊟ b).
Proof. int_lia. Qed.
Lemma sat_add_i64 a b : is_i64 (a ⊞ b).
Proof. int_lia. Qed.
Lemma sat_sub_mono a a' b : a <= a' → a ⊟ b <= a' ⊟ b.
Proof. int_lia. Qed.
Lemma sat_sub_exact a b : is_i64 (a - b) → a ⊟ b = a - b.
Proof. int_lia. Qed.
Lemma sat_add_exact a b : is_i64 (a + b) → a ⊞ b = a + b.
Proof. int_lia. Qed.
Lemma sat_sub_le a b : is_i64 a → 0 <= b → a ⊟ b <= a.
Proof. int_lia. Qed.
Lemma wrap_u64_small z : is_u64 z → wrap_u64 z = z.
Proof. intros. unfold wrap_u64. apply Z.mod_small. int_lia. Qed.
Lemma wrap_u64_range z : is_u64 (wrap_u64 z).
Proof. unfold wrap_u64, is_u64. apply Z.mod_pos_bound. lia. Qed.
Lemma wrap_i64_range z : is_i64 (wrap_i64 z).
Proof.
  unfold wrap_i64, is_i64.
  pose proof (Z.mod_pos_bound (z + 9223372036854775808) u64_MOD). lia.
Qed.
Lemma wrap_i64_small z : is_i64 z → wrap_i64 z = z.
Proof. intros [? ?]. unfold wrap_i64. rewrite Z.mod_small; lia. Qed.

Lemma i64_add_exact a b : is_i64 (a + b) → i64_add a b = a + b.
Proof. apply wrap_i64_small. Qed.
Lemma i64_sub_exact a b : is_i64 (a - b) → i64_sub a b = a - b.
Proof. apply wrap_i64_small. Qed.
Lemma i64_mul_exact a b : is_i64 (a * b) → i64_mul a b = a * b.
Proof. apply wrap_i64_small. Qed.
Lemma wrap_i64_mod z : wrap_i64 (z mod u64_MOD) = wrap_i64 z.
Proof. unfold wrap_i64. by rewrite Z.add_mod_idemp_l. Qed.
Lemma wrap_i64_congr a b : a mod u64_MOD = b mod u64_MOD → wrap_i64 a = wrap_i64 b.
Proof. intros H. by rewrite <- wrap_i64_mod, H, wrap_i64_mod. Qed.
Lemma wrap_i64_add_l a b : wrap_i64 (wrap_i64 a + b) = wrap_i64 (a + b).
Proof.
  apply wrap_i64_congr. unfold wrap_i64.
  replace ((a + 9223372036854775808) mod u64_MOD - 9223372036854775808 + b)
    with ((a + 9223372036854775808) mod u64_MOD + (b - 9223372036854775808)) by lia.
  rewrite Z.add_mod_idemp_l by done. f_equal. lia.
Qed.
Lemma wrap_i64_add_r a b : wrap_i64 (a + wrap_i64 b) = wrap_i64 (a + b).
Proof. rewrite Z.add_comm, wrap_i64_add_l. f_equal. lia. Qed.

#[export] Hint Resolve sat_sub_i64 sat_add_i64 wrap_u64_range wrap_i64_range : laminar.

(** ** Bytes

    A byte string is a list of [Z] in [0, 255]. [to_be n z] are the [n]
    big-endian bytes of [z] in two's complement ([to_be_bytes]). *)

Fixpoint to_be (n : nat) (z : Z) : list Z :=
  match n with
  | O => []
  | S n' => (z / 256 ^ Z.of_nat n') mod 256 :: to_be n' z
  end.

Definition from_be (l : list Z) : Z := foldl (λ acc b, acc * 256 + b) 0 l.

Definition i64_to_be_bytes (z : Z) : list Z := to_be 8 z.
Definition i64_from_be_bytes (l : list Z) : Z := wrap_i64 (from_be l).

(** [str::as_bytes] of a string of the model. *)
Definition string_bytes (s : string) : list Z :=
  (λ a, Z.of_nat (Ascii.nat_of_ascii a)) <$> String.list_ascii_of_string s.

Lemma to_be_length n z : length (to_be n z) = n.
Proof. induction n; simpl; congruence. Qed.

Lemma to_be_u8 n z : Forall is_u8 (to_be n z).
Proof. induction n; simpl; constructor; [apply Z.mod_pos_bound; lia|done]. Qed.

Lemma from_be_acc l : ∀ a, foldl (λ acc b, acc * 256 + b) a l = a * 256 ^ Z.of_nat (length l) + from_be l.
Proof.
  unfold from_be. induction l as [|b l IH]; intros a; [simpl; lia|].
  cbn [foldl length]. rewrite IH, (IH (0 * 256 + b)), Nat2Z.inj_succ, Z.pow_succ_r by lia. lia.
Qed.

Lemma from_be_cons b l : from_be (b :: l) = b * 256 ^ Z.of_nat (length l) + from_be l.
Proof. unfold from_be at 1. simpl. apply from_be_acc. Qed.

Lemma from_to_be n z : from_be (to_be n z) = z mod 256 ^ Z.of_nat n.
Proof.
  induction n as [|n IH]; [by rewrite Z.mod_1_r|]. cbn [to_be].
  rewrite from_be_cons, to_be_length, IH, Nat2Z.inj_succ, Z.pow_succ_r by lia.
  rewrite (Z.mul_comm 256), Z.rem_mul_r by lia. lia.
Qed.

Lemma from_be_range l : Forall is_u8 l → 0 <= from_be l < 256 ^ Z.of_nat (length l).
Proof.
  induction 1 as [|b l Hb Hl IH]; [done|].
  rewrite from_be_cons. cbn [length]. rewrite Nat2Z.inj_succ, Z.pow_succ_r by lia.
  unfold is_u8 in Hb. nia.
Qed.

Lemma to_be_mod n z : to_be n (z mod 256 ^ Z.of_nat n) = to_be n z.
Proof.
  assert (H : ∀ m, (m <= n)%nat → to_be m (z mod 256 ^ Z.of_nat n) = to_be m z).
  { induction m as [|m IH]; intros Hm; [done|]. cbn [to_be]. rewrite IH by lia. f_equal.
    replace (Z.of_nat n) with (Z.of_nat m + (Z.of_nat n - Z.of_nat m)) by lia.
    rewrite Z.pow_add_r by lia. rewrite Z.rem_mul_r by lia.
    rewrite (Z.add_comm (z mod _)), (Z.mul_comm (256 ^ Z.of_nat m)), Z.div_add_l by lia.
    rewrite (Z.div_small (z mod _)) by (apply Z.mod_pos_bound; lia). rewrite Z.add_0_r.
    replace (256 ^ (Z.of_nat n - Z.of_nat m)) with (256 * 256 ^ (Z.of_nat n - Z.of_nat m - 1))
      by (rewrite <- Z.pow_succ_r by lia; f_equal; lia).
    rewrite Z.rem_mul_r by lia. rewrite (Z.mul_comm 256 (_ mod _)), Z.mod_add by lia.
    apply Z.mod_mod. lia. }
  by apply H.
Qed.

Lemma to_from_be l : Forall is_u8 l → to_be (length l) (from_be l) = l.
Proof.
  induction 1 as [|b l Hb Hl IH]; [done|]. cbn [length to_be].
  pose proof (from_be_range l Hl) as Hr. rewrite from_be_cons. f_equal.
  - rewrite Z.div_add_l by lia. rewrite (Z.div_small (from_be l)) by lia.
    rewrite Z.add_0_r. apply Z.mod_small, Hb.
  - rewrite <- to_be_mod. rewrite Z.add_comm, Z.mod_add by lia. by rewrite to_be_mod.
Qed.

Lemma i64_be_roundtrip z : is_i64 z → i64_from_be_bytes (i64_to_be_bytes z) = z.
Proof.
  intros Hz. unfold i64_from_be_bytes, i64_to_be_bytes. rewrite from_to_be.
  change (256 ^ Z.of_nat 8) with u64_MOD. rewrite wrap_i64_mod. by apply wrap_i64_small.
Qed.

Lemma i64_be_inj a b : is_i64 a → is_i64 b → i64_to_be_bytes a = i64_to_be_bytes b → a = b.
Proof. intros Ha Hb H. by rewrite <- (i64_be_roundtrip a), H, i64_be_roundtrip. Qed.

(** [to_le_bytes] and [from_le_bytes]: the same bytes, least significant first. *)
Definition to_le (n : nat) (z : Z) : list Z := reverse (to_be n z).
Definition from_le (l : list Z) : Z := from_be (reverse l).

Lemma to_le_length n z : length (to_le n z) = n.
Proof. unfold to_le. by rewrite length_reverse, to_be_length. Qed.
Lemma to_le_u8 n z : Forall is_u8 (to_le n z).
Proof. apply Forall_reverse, to_be_u8. Qed.
Lemma from_to_le n z : 0 <= z < 256 ^ Z.of_nat n → from_le (to_le n z) = z.
Proof.
  intros Hz. unfold from_le, to_le. rewrite reverse_involutive, from_to_be. by apply Z.mod_small.
Qed.
Lemma to_from_le l : Forall is_u8 l → to_le (length l) (from_le l) = l.
Proof.
  intros Hl. unfold from_le, to_le. rewrite <- (length_reverse l).
  rewrite to_from_be by (by apply Forall_reverse). apply reverse_involutive.
Qed.
Lemma from_le_range l : Forall is_u8 l → 0 <= from_le l < 256 ^ Z.of_nat (length l).
Proof.
  intros Hl. unfold from_le. rewrite <- (length_reverse l).
  by apply from_be_range, Forall_reverse.
Qed.

(** The length of a vector as a [usize]. *)
Abbreviation zlen l := (Z.of_nat (length l)).

(** ** Minimum and maximum of a list ([Iterator::min], [Iterator::max]) *)

Fixpoint list_min (l : list Z) : option Z :=
  match l with
  | [] => None
  | x :: l => Some (match list_min l with Some m => Z.min x m | None => x end)
  end.

Fixpoint list_max (l : list Z) : option Z :=
  match l with
  | [] => None
  | x :: l => Some (match list_max l with Some m => Z.max x m | None => x end)
  end.

Lemma list_min_Some l m :
  list_min l = Some m ↔ m ∈ l ∧ (∀ x, x ∈ l → m <= x).
Proof.
  revert m. induction l as [|x l IH]; intros m; simpl.
  { split; [done | intros [[]%not_elem_of_nil _]]. }
  destruct (list_min l) as [k|] eqn:E.
  - destruct (proj1 (IH k) eq_refl) as [Hk Hle]. split.
    + intros [= <-]. split.
      * destruct (Z.min_spec x k) as [[_ ->]|[_ ->]]; set_solver.
      * intros y [->|Hy]%elem_of_cons; [lia|]. specialize (Hle _ Hy). lia.
    + intros [Hm Hall]. f_equal.
      assert (m <= x) by (apply Hall; set_solver).
      assert (m <= k) by (apply Hall; set_solver).
      apply elem_of_cons in Hm as [->|Hm]; [lia|]. specialize (Hle _ Hm). lia.
  - destruct l as [|y l]; [|by destruct (list_min l)]. split.
    + intros [= <-]. split; [set_solver|]. intros y ->%list_elem_of_singleton. lia.
    + intros [->%list_elem_of_singleton _]. done.
Qed.

Lemma list_max_Some l m :
  list_max l = Some m ↔ m ∈ l ∧ (∀ x, x ∈ l → x <= m).
Proof.
  revert m. induction l as [|x l IH]; intros m; simpl.
  { split; [done | intros [[]%not_elem_of_nil _]]. }
  destruct (list_max l) as [k|] eqn:E.
  - destruct (proj1 (IH k) eq_refl) as [Hk Hle]. split.
    + intros [= <-]. split.
      * destruct (Z.max_spec x k) as [[_ ->]|[_ ->]]; set_solver.
      * intros y [->|Hy]%elem_of_cons; [lia|]. specialize (Hle _ Hy). lia.
    + intros [Hm Hall]. f_equal.
      assert (x <= m) by (apply Hall; set_solver).
      assert (k <= m) by (apply Hall; set_solver).
      apply elem_of_cons in Hm as [->|Hm]; [lia|]. specialize (Hle _ Hm). lia.
  - destruct l as [|y l]; [|by destruct (list_max l)]. split.
    + intros [= <-]. split; [set_solver|]. intros y ->%list_elem_of_singleton. lia.
    + intros [->%list_elem_of_singleton _]. done.
Qed.

Lemma list_min_None l : list_min l = None ↔ l = [].
Proof. destruct l; simpl; split; done. Qed.
Lemma list_max_None l : list_max l = None ↔ l = [].
Proof. destruct l; simpl; split; done. Qed.

Lemma list_min_perm l l' : l ≡ₚ l' → list_min l = list_min l'.
Proof.
  intros Hp. destruct (list_min l) as [m|] eqn:E.
  - symmetry. apply list_min_Some. apply list_min_Some in E as [? Hle].
    split; [by rewrite <- Hp | intros x; rewrite <- Hp; apply Hle].
  - apply list_min_None in E as ->. apply Permutation_nil_l in Hp as <-. done.
Qed.
Lemma list_max_perm l l' : l ≡ₚ l' → list_max l = list_max l'.
Proof.
  intros Hp. destruct (list_max l) as [m|] eqn:E.
  - symmetry. apply list_max_Some. apply list_max_Some in E as [? Hle].
    split; [by rewrite <- Hp | intros x; rewrite <- Hp; apply Hle].
  - apply list_max_None in E as ->. apply Permutation_nil_l in Hp as <-. done.
Qed.

Lemma list_min_snoc xs x :
  list_min (xs ++ [x]) = Some (match list_min xs with None => x | Some m => Z.min m x end).
Proof.
  induction xs as [|y xs IH]; [done|]. cbn [app list_min]. rewrite IH.
  destruct (list_min xs); f_equal; lia.
Qed.
Lemma list_max_snoc xs x :
  list_max (xs ++ [x]) = Some (match list_max xs with None => x | Some m => Z.max m x end).
Proof.
  induction xs as [|y xs IH]; [done|]. cbn [app list_max]. rewrite IH.
  destruct (list_max xs); f_equal; lia.
Qed.

Lemma list_min_app xs ys :
  list_min (xs ++ ys) = match list_min ys with
                        | None => list_min xs
                        | Some m => Some (match list_min xs with None => m | Some x => Z.min x m end)
                        end.
Proof.
  induction xs as [|x xs IH]; cbn [app list_min]; [by destruct (list_min ys)|].
  rewrite IH. destruct (list_min ys), (list_min xs); f_equal; lia.
Qed.
Lemma list_max_app xs ys :
  list_max (xs ++ ys) = match list_max ys with
                        | None => list_max xs
                        | Some m => Some (match list_max xs with None => m | Some x => Z.max x m end)
                        end.
Proof.
  induction xs as [|x xs IH]; cbn [app list_max]; [by destruct (list_max ys)|].
  rewrite IH. destruct (list_max ys), (list_max xs); f_equal; lia.
Qed.

#[export] Instance list_min_Proper : Proper ((≡ₚ) ==> (=)) list_min.
Proof. intros ???; by apply list_min_perm. Qed.
#[export] Instance list_max_Proper : Proper ((≡ₚ) ==> (=)) list_max.
Proof. intros ???; by apply list_max_perm. Qed.

(** ** The "minimum over the active entries" loop

    Four components compute a combined watermark with the same loop: start at
    [i64::MAX], take the minimum over the entries that are not idle, and when
    every entry is idle fall back to the maximum over all entries. [entries]
    lists each entry's idle flag and watermark. *)
Fixpoint active_min_loop (entries : list (bool * Z)) (min : Z) (has_active : bool) : Z * bool :=
  match entries with
  | [] => (min, has_active)
  | (idle, wm) :: rest =>
      if idle then active_min_loop rest min has_active
      else active_min_loop rest (Z.min min wm) true
  end.

(** Watermarks of the entries that are not idle. *)
Definition actives (entries : list (bool * Z)) : list Z :=
  snd <$> filter (λ e, e.1 = false) entries.

Lemma elem_of_actives w entries : w ∈ actives entries ↔ (false, w) ∈ entries.
Proof.
  unfold actives. rewrite list_elem_of_fmap. split.
  - intros ([b w'] & -> & [Hb ?]%list_elem_of_filter). simpl in *. by subst.
  - intros H. exists (false, w). split; [done|]. by apply list_elem_of_filter.
Qed.

Lemma actives_cons idle w entries :
  actives ((idle, w) :: entries) = (if idle then [] else [w]) ++ actives entries.
Proof.
  unfold actives. destruct idle.
  - by rewrite filter_cons_False.
  - by rewrite filter_cons_True.
Qed.

Lemma active_min_loop_spec entries min has_active :
  active_min_loop entries min has_active =
    (match list_min (actives entries) with Some m => Z.min min m | None => min end,
     has_active || negb (bool_decide (actives entries = []))).
Proof.
  revert min has_active. induction entries as [|[b w] rest IH]; intros m h; simpl.
  { by rewrite orb_false_r. }
  rewrite actives_cons. destruct b; simpl; rewrite IH; [done|]. f_equal.
  - destruct (list_min _); lia.
  - by rewrite orb_true_r.
Qed.

(** What the loop promises: with some active entry, the greatest lower bound of
    the active watermarks; otherwise the maximum of all watermarks, and
    [i64::MIN] when there is none. *)
Definition combined_spec (entries : list (bool * Z)) : Z :=
  match list_min (actives entries) with
  | Some m => m
  | None => default i64_MIN (list_max (snd <$> entries))
  end.

Lemma combined_spec_perm e e' : e ≡ₚ e' → combined_spec e = combined_spec e'.
Proof.
  intros Hp. unfold combined_spec, actives.
  rewrite (list_min_perm _ _ (fmap_Permutation _ _ _ (filter_Permutation _ _ _ Hp))).
  by rewrite (list_max_perm _ _ (fmap_Permutation snd _ _ Hp)).
Qed.

Lemma combined_spec_lower_bound entries w :
  (false, w) ∈ entries → combined_spec entries <= w.
Proof.
  intros Hin%elem_of_actives. unfold combined_spec.
  destruct (list_min (actives entries)) as [m|] eqn:E.
  - by apply list_min_Some in E as [_ Hle]; apply Hle.
  - apply list_min_None in E. rewrite E in Hin. by apply not_elem_of_nil in Hin.
Qed.

(** ** Runs of a state machine that may emit at each step *)

Fixpoint run {St In Out} (step : St → In → St * option Out) (s : St) (ins : list In)
    : St * list Out :=
  match ins with
  | [] => (s, [])
  | i :: rest =>
      let r := run step (step s i).1 rest in
      (r.1, option_list (step s i).2 ++ r.2)
  end.

(** A machine whose emissions are exactly the advances of a level: every
    emission is strictly above the current level and becomes the new level, and
    the level never falls. *)
Class Advancing {St In Out} (step : St → In → St * option Out)
    (val : Out → Z) (level : St → Z) (inv : St → Prop) : Prop := {
  adv_inv s i : inv s → inv (step s i).1;
  adv_emit s i o : inv s → (step s i).2 = Some o → level s < val o ∧ level (step s i).1 = val o;
  adv_quiet s i : inv s → (step s i).2 = None → level s <= level (step s i).1;
}.

Lemma run_advancing {St In Out} (step : St → In → St * option Out) val level inv
    `{!Advancing step val level inv} s ins :
  inv s →
  inv (run step s ins).1 ∧
  level s <= level (run step s ins).1 ∧
  StronglySorted Z.lt (val <$> (run step s ins).2) ∧
  Forall (λ o, level s < val o <= level (run step s ins).1) (run step s ins).2.
Proof.
  revert s. induction ins as [|i rest IH]; intros s Hs; simpl.
  { split_and!; [done|lia|constructor|constructor]. }
  destruct (IH (step s i).1) as (Hi & Hl & Hsort & Hall); [by apply adv_inv|].
  destruct (step s i).2 as [o|] eqn:E; simpl.
  - destruct (adv_emit s i o Hs E) as [Hlt Heq]. rewrite Heq in *.
    split_and!; [done|lia| |].
    + constructor; [done|]. apply Forall_fmap.
      eapply Forall_impl; [exact Hall|]. simpl. lia.
    + constructor; [lia|]. eapply Forall_impl; [exact Hall|]. simpl. lia.
  - pose proof (adv_quiet s i Hs E). split_and!; [done|lia|done|].
    eapply Forall_impl; [exact Hall|]. simpl. lia.
Qed.

(** ** More on the combined watermark *)

(** Watermarks strictly below the sentinel [i64::MAX]. *)
Definition is_wm (z : Z) : Prop := i64_MIN <= z < i64_MAX.

Lemma combined_spec_range entries :
  Forall (λ e, is_wm e.2) entries → is_wm (combined_spec entries).
Proof.
  intros Hall. unfold combined_spec.
  destruct (list_min (actives entries)) as [m|] eqn:E.
  - apply list_min_Some in E as [Hin%elem_of_actives _].
    rewrite Forall_forall in Hall. by apply (Hall (false, m)).
  - destruct (list_max (snd <$> entries)) as [m|] eqn:E'; [|unfold is_wm; simpl; lia].
    apply list_max_Some in E' as [(e & -> & Hin)%list_elem_of_fmap _].
    rewrite Forall_forall in Hall. by apply Hall.
Qed.

(** The loop followed by the all-idle fallback computes the specification. *)
Lemma active_min_combined entries :
  Forall (λ e, e.2 <= i64_MAX) entries →
  (let '(min, has_active) := active_min_loop entries i64_MAX false in
   if has_active then min else default i64_MIN (list_max (snd <$> entries))) =
  combined_spec entries.
Proof.
  intros Hall. rewrite active_min_loop_spec. simpl. unfold combined_spec.
  destruct (list_min (actives entries)) as [m|] eqn:E.
  - pose proof E as [Hin%elem_of_actives _]%list_min_Some.
    rewrite Forall_forall in Hall. specialize (Hall _ Hin). simpl in Hall.
    rewrite bool_decide_eq_false_2; [simpl; lia|]. intros Hn. by rewrite Hn in E.
  - apply list_min_None in E. by rewrite bool_decide_eq_true_2.
Qed.

(** Activating an entry can only lower the combined watermark. *)
Lemma combined_spec_activate w rest :
  combined_spec ((false, w) :: rest) <= combined_spec ((true, w) :: rest).
Proof.
  unfold combined_spec. rewrite !actives_cons, !fmap_cons. cbn [app list_min list_max snd].
  destruct (list_min (actives rest)) as [m|]; [lia|].
  destruct (list_max (snd <$> rest)); simpl; lia.
Qed.

(** ** Lists as arrays *)

Lemma StronglySorted_reverse {A} (R : relation A) (l : list A) :
  StronglySorted R l → StronglySorted (flip R) (reverse l).
Proof.
  induction 1 as [|x l Hl IH Hall]; [constructor|]. rewrite reverse_cons.
  apply StronglySorted_app_2; [|done|by repeat constructor].
  intros y z Hy Hz. apply list_elem_of_singleton in Hz as ->. rewrite elem_of_reverse in Hy.
  rewrite Forall_forall in Hall. exact (Hall _ Hy).
Qed.

Lemma list_insert_perm {A} (l : list A) i x y :
  l !! i = Some x → ∃ rest, l ≡ₚ x :: rest ∧ <[i:=y]> l ≡ₚ y :: rest.
Proof.
  intros Hi. exists (take i l ++ drop (S i) l). split.
  - rewrite <- (take_drop_middle l i x Hi) at 1. by rewrite Permutation_middle.
  - rewrite insert_take_drop by (by eapply lookup_lt_Some). by rewrite Permutation_middle.
Qed.

(** [Vec::swap_remove]: the last element takes the removed one's place. *)
Definition swap_remove {A} (idx : nat) (l : list A) : list A :=
  match last l with
  | Some x => take (length l - 1) (<[idx := x]> l)
  | None => []
  end.
(** It takes out one element, whatever the order it leaves. *)
Lemma swap_remove_perm {A} idx (l : list A) x :
  l !! idx = Some x → l ≡ₚ x :: swap_remove idx l.
Proof.
  intros Hx. unfold swap_remove. pose proof (lookup_lt_Some _ _ _ Hx) as Hlt.
  destruct (last l) as [y|] eqn:E; [|by apply last_None in E as ->].
  apply last_Some in E as [l' ->]. rewrite length_app in *. simpl in *.
  replace (length l' + 1 - 1)%nat with (length l') by lia.
  destruct (decide (idx = length l')) as [->|Hne].
  - rewrite lookup_app_r in Hx by lia. rewrite Nat.sub_diag in Hx. simplify_eq/=.
    rewrite insert_app_r_alt by lia. rewrite take_app_length. apply Permutation_app_comm.
  - rewrite insert_app_l by lia. rewrite take_app_le by (rewrite length_insert; lia).
    rewrite take_ge by (rewrite length_insert; lia).
    rewrite lookup_app_l in Hx by lia. destruct (list_insert_perm l' idx x y Hx) as (rest & Hp & ->).
    rewrite Hp. simpl. constructor. rewrite Permutation_app_comm. done.
Qed.

Lemma zip_insert_l {A B} (l : list A) (k : list B) i x y :
  l !! i = Some x → k !! i = Some y → ∀ x', zip (<[i:=x']> l) k = <[i:=(x', y)]> (zip l k).
Proof.
  revert k i. induction l as [|a l IH]; intros [|b k] [|i] Hl Hk x'; simplify_eq/=; [done|].
  f_equal. by apply IH.
Qed.

Lemma zip_insert_r {A B} (l : list A) (k : list B) i x y :
  l !! i = Some x → k !! i = Some y → ∀ y', zip l (<[i:=y']> k) = <[i:=(x, y')]> (zip l k).
Proof.
  revert k i. induction l as [|a l IH]; intros [|b k] [|i] Hl Hk y'; simplify_eq/=; [done|].
  f_equal. by apply IH.
Qed.

Lemma filter_absent {A K} `{EqDecision K} (f : A → K) (k : K) (l : list A) :
  k ∉ f <$> l → filter (λ x, f x ≠ k) l = l.
Proof.
  intros Hni. induction l as [|x l IH]; [done|]. simpl in Hni.
  rewrite filter_cons_True by set_solver. f_equal. apply IH. set_solver.
Qed.

Lemma nodup_of_sorted {X Y} (R : relation X) (f : X → Y) (l : list X) :
  StronglySorted R l → (∀ a b, a ∈ l → b ∈ l → R a b → f a ≠ f b) → NoDup (f <$> l).
Proof.
  induction 1 as [|x l Hs IH Hx]; intros Hf; [constructor|]. rewrite fmap_cons. constructor.
  - intros (y & Hy & Hin)%list_elem_of_fmap. rewrite Forall_forall in Hx.
    apply (Hf x y); [left|by right|by apply Hx|done].
  - apply IH. intros a b Ha Hb. apply Hf; by right.
Qed.

Lemma filter_all {A} (P : A → Prop) `{∀ x, Decision (P x)} (l : list A) :
  Forall P l → filter P l = l.
Proof. induction 1; [done|]. rewrite filter_cons_True by done. by f_equal. Qed.
Lemma filter_none {A} (P : A → Prop) `{∀ x, Decision (P x)} (l : list A) :
  Forall (λ x, ¬ P x) l → filter P l = [].
Proof. induction 1; [done|]. by rewrite filter_cons_False. Qed.
Lemma filter_ext_in {A} (P Q : A → Prop) `{∀ x, Decision (P x)} `{∀ x, Decision (Q x)} (l : list A) :
  (∀ x, x ∈ l → P x ↔ Q x) → filter P l = filter Q l.
Proof.
  induction l as [|x l IH]; intros Hl; [done|]. rewrite !filter_cons, IH by set_solver.
  rewrite (decide_ext (P x) (Q x)); [done|]. apply Hl. left.
Qed.

(** ** Sorted lists *)

(** A sorted list that permutes a strictly sorted one is that list. *)
Lemma sorted_perm_unique {A} (le lt : relation A) (l k : list A) :
  (∀ a b, lt a b → ¬ le b a) → StronglySorted le l → StronglySorted lt k → l ≡ₚ k → l = k.
Proof.
  intros Hlt Hl. revert k. induction Hl as [|x l Hl IH Hx]; intros k Hk Hp.
  { by apply Permutation_nil_l in Hp. }
  destruct Hk as [|y k Hk Hy]; [by apply Permutation_nil_r in Hp|].
  assert (x = y) as <-.
  { assert (Hin : x ∈ y :: k) by (rewrite <- Hp; by left).
    assert (Hin' : y ∈ x :: l) by (rewrite Hp; by left).
    apply elem_of_cons in Hin as [|Hin]; [done|]. apply elem_of_cons in Hin' as [|Hin']; [done|].
    rewrite Forall_forall in Hx, Hy. by destruct (Hlt _ _ (Hy _ Hin) (Hx _ Hin')). }
  f_equal. apply IH; [done|]. by apply Permutation_cons_inv in Hp.
Qed.

Lemma StronglySorted_filter {A} (R : relation A) (P : A → Prop) `{∀ x, Decision (P x)} (l : list A) :
  StronglySorted R l → StronglySorted R (filter P l).
Proof.
  induction 1 as [|x l Hl IH Hx]; [constructor|]. rewrite filter_cons. case_decide; [|done].
  constructor; [done|]. rewrite Forall_forall in *. intros y [_ Hy]%list_elem_of_filter. auto.
Qed.

(** ** Interleavings

    A step of a system of threads either is internal or shows an event; [ltrace]
    are the finite runs with the events in order. A specification is a partial
    function on an abstract state: [None] is an event it does not allow. *)

Section Traces.
Context {S E : Type} (step : S → option E → S → Prop).

Inductive ltrace : S → list E → S → Prop :=
  | steps_refl s : ltrace s [] s
  | steps_tau s s' s'' tr : ltrace s tr s' → step s' None s'' → ltrace s tr s''
  | steps_event s s' s'' tr e : ltrace s tr s' → step s' (Some e) s'' → ltrace s (tr ++ [e]) s''.

Definition spec_run {A} (spec : A → E → option A) (a : A) (tr : list E) : option A :=
  foldl (λ oa e, oa ≫= λ a, spec a e) (Some a) tr.

Lemma spec_run_snoc {A} (spec : A → E → option A) a tr e :
  spec_run spec a (tr ++ [e]) = spec_run spec a tr ≫= λ a', spec a' e.
Proof. unfold spec_run. by rewrite foldl_app. Qed.

(** Forward simulation. *)
Definition simulates {A} (spec : A → E → option A) (R : A → S → Prop) : Prop :=
  ∀ a s o s', R a s → step s o s' →
    match o with
    | None => R a s'
    | Some e => ∃ a', spec a e = Some a' ∧ R a' s'
    end.

Lemma ltrace_refines {A} (spec : A → E → option A) (R : A → S → Prop) a s tr s' :
  simulates spec R → R a s → ltrace s tr s' → ∃ a', spec_run spec a tr = Some a' ∧ R a' s'.
Proof.
  intros Hsim HR Htr. induction Htr as [s|s s1 s2 tr Htr IH Hst|s s1 s2 tr e Htr IH Hst].
  - by exists a.
  - destruct (IH HR) as (a' & ? & HR'). exists a'. split; [done|]. by apply (Hsim _ _ _ _ HR' Hst).
  - destruct (IH HR) as (a' & Ha & HR'). destruct (Hsim _ _ _ _ HR' Hst) as (a'' & Hs & HR'').
    exists a''. by rewrite spec_run_snoc, Ha.
Qed.

Lemma ltrace_tau_l s s1 tr s' : step s None s1 → ltrace s1 tr s' → ltrace s tr s'.
Proof.
  intros Hst Htr. induction Htr as [s1|s1 s2 s3 tr Htr IH Hst'|s1 s2 s3 tr e Htr IH Hst'].
  - eapply steps_tau; [apply steps_refl|done].
  - eapply steps_tau; [by apply IH|done].
  - eapply steps_event; [by apply IH|done].
Qed.
Lemma ltrace_event_l s s1 e tr s' : step s (Some e) s1 → ltrace s1 tr s' → ltrace s (e :: tr) s'.
Proof.
  intros Hst Htr. induction Htr as [s1|s1 s2 s3 tr Htr IH Hst'|s1 s2 s3 tr e' Htr IH Hst'].
  - apply (steps_event _ s _ [] e); [apply steps_refl|done].
  - eapply steps_tau; [by apply IH|done].
  - apply (steps_event _ s2 _ (e :: tr) e'); [by apply IH|done].
Qed.
End Traces.
