(* ===== verification/RustFloat.v ===== *)
(** * Rust's [f64]

    The conversions and the division the modelled code uses, on the specification
    floats of the Standard Library at the format of [f64] (53 bits, exponent 1024),
    and the bit pattern of a float. An [f64] that is only stored and compared by
    its bits is its pattern, a [Z] in the range of [u64]. *)

From Stdlib Require Import SpecFloat.
From S2P Require Import Prelude.

(** [n as f64] for an integer [n]: round to nearest, ties to even. *)
Definition f64_of_int (n : Z) : spec_float := binary_normalize 53 1024 n 0 false.
Definition f64_div (x y : spec_float) : spec_float := SFdiv 53 1024 x y.
Definition f64_zero : spec_float := S754_zero false.

(** [f64::NAN.to_bits()]. *)
Definition f64_NAN : Z := 9221120237041090560.

(** [f64::to_bits]. *)
Definition f64_to_bits (x : spec_float) : Z :=
  let sign (s : bool) := if s then 9223372036854775808 else 0 in
  match x with
  | S754_zero s => sign s
  | S754_infinity s => sign s + Z.shiftl 2047 52
  | S754_nan => f64_NAN
  | S754_finite s m e =>
      if Z.pos m <? 4503599627370496 then sign s + Z.pos m
      else sign s + Z.shiftl (e + 1075) 52 + (Z.pos m - 4503599627370496)
  end.

(** [n as f64] as its bits. *)
Definition int_as_f64 (n : Z) : Z := f64_to_bits (f64_of_int n).

Example f64_one : int_as_f64 1 = 4607182418800017408.
Proof. reflexivity. Qed.
Example f64_minus_150 : int_as_f64 (-150) = 13862853709232340992.
Proof. vm_compute. reflexivity. Qed.
Example f64_ties_to_even : int_as_f64 9007199254740993 = int_as_f64 9007199254740992.
Proof. vm_compute. reflexivity. Qed.
