(* ===== verification/TimeCore.v ===== *)
(** * Watermark values and the timer service

    Models [crates/laminar-core/src/time/mod.rs]: the [Watermark] newtype, the
    [TimerRegistration] ordering and the [TimerService] operations. The
    standard library's [BinaryHeap] is a list together with the operations the
    code uses: [push], [peek] and [pop] (a greatest element in the order of
    [TimerRegistration::cmp]), [retain], [len] and [clear]. *)

From S2P Require Import Prelude.

(** ** Watermark *)

Record Watermark := mkWatermark { wm_ts : Z }.

#[export] Instance Watermark_eq_dec : EqDecision Watermark.
Proof. solve_decision. Defined.

Definition Watermark_new (timestamp : Z) : Watermark := mkWatermark timestamp.
Definition Watermark_timestamp (w : Watermark) : Z := wm_ts w.
Definition Watermark_is_late (w : Watermark) (event_time : Z) : bool := event_time <? wm_ts w.
Definition Watermark_min (a b : Watermark) : Watermark := mkWatermark (Z.min (wm_ts a) (wm_ts b)).
Definition Watermark_max (a b : Watermark) : Watermark := mkWatermark (Z.max (wm_ts a) (wm_ts b)).
Definition Watermark_default : Watermark := mkWatermark i64_MIN.

(** The form in which every tracker publishes its combined watermark. *)
Definition publish (w : Z) : option Watermark :=
  if w =? i64_MIN then None else Some (Watermark_new w).

(** ** Timer registrations *)

Record TimerRegistration := mkTimer {
  t_id : Z;
  t_timestamp : Z;
  t_key : option (list Z);
  t_operator_index : option Z;
}.

#[export] Instance TimerRegistration_eq_dec : EqDecision TimerRegistration.
Proof. solve_decision. Defined.

(** Reversed on purpose: the earliest timer is the greatest element. *)
Definition TimerRegistration_cmp (self other : TimerRegistration) : comparison :=
  match Z.compare (t_timestamp other) (t_timestamp self) with
  | Eq => Z.compare (t_id other) (t_id self)
  | ord => ord
  end.

(** The order in which timers are meant to fire. *)
Definition fires_before (a b : TimerRegistration) : Prop :=
  t_timestamp a < t_timestamp b ∨ (t_timestamp a = t_timestamp b ∧ t_id a <= t_id b).

(** ** The heap *)

Abbreviation heap := (list TimerRegistration) (only parsing).

Fixpoint heap_peek (h : heap) : option TimerRegistration :=
  match h with
  | [] => None
  | x :: h' =>
      match heap_peek h' with
      | None => Some x
      | Some m => match TimerRegistration_cmp x m with Lt => Some m | _ => Some x end
      end
  end.

Fixpoint heap_remove (t : TimerRegistration) (h : heap) : heap :=
  match h with
  | [] => []
  | x :: h' => if decide (x = t) then h' else x :: heap_remove t h'
  end.

Definition heap_pop (h : heap) : heap :=
  match heap_peek h with Some t => heap_remove t h | None => h end.

(** ** The timer service *)

Record TimerService := mkTimerService {
  timers : heap;
  next_timer_id : Z;
}.

Definition TimerService_new : TimerService := mkTimerService [] 0.

Definition TimerService_register_timer (s : TimerService) (timestamp : Z)
    (key : option (list Z)) (operator_index : option Z) : TimerService * Z :=
  let id := next_timer_id s in
  (mkTimerService (mkTimer id timestamp key operator_index :: timers s) (u64_add (next_timer_id s) 1),
   id).

(** The [while let Some(timer) = self.timers.peek()] loop; [None] only when the
    fuel runs out. *)
Fixpoint poll_loop (fuel : nat) (h fired : heap) (current_time : Z)
    : option (heap * heap) :=
  match fuel with
  | O => None
  | S fuel =>
      match heap_peek h with
      | Some timer =>
          if t_timestamp timer <=? current_time
          then poll_loop fuel (heap_pop h) (fired ++ [timer]) current_time
          else Some (h, fired)
      | None => Some (h, fired)
      end
  end.

Definition TimerService_poll_timers (s : TimerService) (current_time : Z)
    : option (TimerService * list TimerRegistration) :=
  '(h, fired) ← poll_loop (S (length (timers s))) (timers s) [] current_time;
  Some (mkTimerService h (next_timer_id s), fired).

Definition TimerService_cancel_timer (s : TimerService) (id : Z) : TimerService * bool :=
  let count_before := length (timers s) in
  let kept := filter (λ t, t_id t ≠ id) (timers s) in
  (mkTimerService kept (next_timer_id s), bool_decide (length kept < count_before)%nat).

Definition TimerService_pending_count (s : TimerService) : nat := length (timers s).
Definition TimerService_next_timer_timestamp (s : TimerService) : option Z :=
  t_timestamp <$> heap_peek (timers s).
Definition TimerService_clear (s : TimerService) : TimerService :=
  mkTimerService [] (next_timer_id s).

(** ** The heap operations *)

Lemma cmp_not_Lt a b : TimerRegistration_cmp a b ≠ Lt ↔ fires_before a b.
Proof.
  unfold TimerRegistration_cmp, fires_before.
  destruct (Z.compare_spec (t_timestamp b) (t_timestamp a));
    [destruct (Z.compare_spec (t_id b) (t_id a))|..]; split; intros; try done; lia.
Qed.

Lemma fires_before_refl a : fires_before a a.
Proof. right. lia. Qed.

Lemma fires_before_total a b : fires_before a b ∨ fires_before b a.
Proof. unfold fires_before. lia. Qed.

#[export] Instance fires_before_trans : Transitive fires_before.
Proof. intros a b c. unfold fires_before. lia. Qed.

Lemma heap_peek_Some h t :
  heap_peek h = Some t → t ∈ h ∧ Forall (fires_before t) h.
Proof.
  revert t. induction h as [|x h IH]; intros t; simpl; [done|].
  destruct (heap_peek h) as [m|] eqn:E.
  - destruct (IH m eq_refl) as [Hm Hall].
    assert (Hc := cmp_not_Lt x m).
    destruct (TimerRegistration_cmp x m); intros [= <-].
    2: { split; [set_solver|]. constructor; [|done].
         destruct (fires_before_total m x) as [?|Hf]; [done|]. by apply Hc in Hf. }
    all: assert (Hxm : fires_before x m) by (apply Hc; done).
    all: split; [set_solver|]; constructor; [apply fires_before_refl|].
    all: eapply Forall_impl; [exact Hall|]; intros y ?; by transitivity m.
  - destruct h as [|y h].
    + intros [= <-]. split; [set_solver|]. constructor; [apply fires_before_refl|constructor].
    + simpl in E. by destruct (heap_peek h) as [z|]; [destruct (TimerRegistration_cmp y z)|].
Qed.

Lemma heap_peek_None h : heap_peek h = None → h = [].
Proof.
  destruct h as [|x h]; [done|]. simpl.
  by destruct (heap_peek h) as [m|]; [destruct (TimerRegistration_cmp x m)|].
Qed.

Lemma heap_remove_perm t h : t ∈ h → h ≡ₚ t :: heap_remove t h.
Proof.
  induction h as [|x h IH]; intros Ht; [by apply not_elem_of_nil in Ht|]. simpl.
  case_decide as Hx; [by subst|].
  apply elem_of_cons in Ht as [->|Ht]; [done|].
  etrans; [constructor; by apply IH | constructor].
Qed.

Lemma heap_pop_perm h t : heap_peek h = Some t → h ≡ₚ t :: heap_pop h.
Proof.
  intros E. unfold heap_pop. rewrite E.
  apply heap_remove_perm. by apply heap_peek_Some.
Qed.

(** ** Polling *)

Lemma poll_loop_total fuel h fired now :
  (length h < fuel)%nat →
  ∃ rest more, poll_loop fuel h fired now = Some (rest, fired ++ more) ∧
    more ++ rest ≡ₚ h ∧
    Forall (λ t, t_timestamp t <= now) more ∧
    Forall (λ t, now < t_timestamp t) rest ∧
    StronglySorted fires_before more.
Proof.
  revert h fired. induction fuel as [|fuel IH]; intros h fired Hlen; [lia|]. simpl.
  destruct (heap_peek h) as [t|] eqn:E.
  2: { apply heap_peek_None in E as ->. exists [], []. rewrite app_nil_r.
       split_and!; constructor. }
  destruct (heap_peek_Some _ _ E) as [Hin Hmin]. pose proof (heap_pop_perm _ _ E) as Hperm.
  destruct (Z.leb_spec (t_timestamp t) now) as [Hle|Hgt].
  - destruct (IH (heap_pop h) (fired ++ [t])) as (rest & more & -> & Hp & Hf & Hr & Hs).
    { apply Permutation_length in Hperm. simpl in Hperm. lia. }
    exists rest, (t :: more). rewrite <- app_assoc. split_and!; simpl.
    + done.
    + by rewrite Hp, <- Hperm.
    + by constructor.
    + done.
    + constructor; [done|]. rewrite Hperm, <- Hp in Hmin.
      by apply Forall_cons_1 in Hmin as [_ [? _]%Forall_app].
  - exists h, []. rewrite app_nil_r. split_and!; [done|done|constructor| |constructor].
    eapply Forall_impl; [exact Hmin|]. intros y. unfold fires_before. lia.
Qed.

(** [C40]: polling always returns; it fires exactly the pending timers whose
    timestamp is at most the given time, in (timestamp, id) order, and keeps
    exactly the others. *)
Theorem poll_timers_fires_exactly_due s now :
  ∃ s' fired, TimerService_poll_timers s now = Some (s', fired) ∧
    fired ++ timers s' ≡ₚ timers s ∧
    Forall (λ t, t_timestamp t <= now) fired ∧
    Forall (λ t, now < t_timestamp t) (timers s') ∧
    StronglySorted fires_before fired ∧
    next_timer_id s' = next_timer_id s.
Proof.
  destruct (poll_loop_total (S (length (timers s))) (timers s) [] now)
    as (rest & more & E & Hp & Hf & Hr & Hs); [lia|].
  exists (mkTimerService rest (next_timer_id s)), more.
  unfold TimerService_poll_timers. rewrite E. done.
Qed.

(** ** Identifiers *)

(** Every pending timer was registered earlier, and no two share an id. *)
Definition timer_ids_ok (s : TimerService) : Prop :=
  NoDup (t_id <$> timers s) ∧ Forall (λ t, 0 <= t_id t < next_timer_id s) (timers s) ∧
  0 <= next_timer_id s.

Inductive timer_op :=
| OpRegister (timestamp : Z) (key : option (list Z)) (operator_index : option Z)
| OpPoll (current_time : Z)
| OpCancel (id : Z)
| OpClear.

Definition timer_step (s : TimerService) (op : timer_op) : TimerService :=
  match op with
  | OpRegister ts k oi => (TimerService_register_timer s ts k oi).1
  | OpPoll now => default s (fst <$> TimerService_poll_timers s now)
  | OpCancel id => (TimerService_cancel_timer s id).1
  | OpClear => TimerService_clear s
  end.

Lemma timer_ids_ok_sublist s s' :
  timer_ids_ok s → next_timer_id s' = next_timer_id s →
  (∃ dropped, dropped ++ timers s' ≡ₚ timers s) → timer_ids_ok s'.
Proof.
  intros (Hnd & Hall & Hpos) Hid [d Hp]. unfold timer_ids_ok. rewrite Hid.
  rewrite <- Hp in Hnd, Hall. rewrite fmap_app in Hnd.
  apply NoDup_app in Hnd as (_ & _ & ?). apply Forall_app in Hall as [_ ?]. done.
Qed.

Lemma filter_complement {A} (P : A → Prop) `{!∀ x, Decision (P x)} (l : list A) :
  filter (λ x, ¬ P x) l ++ filter P l ≡ₚ l.
Proof.
  induction l as [|x l IH]; [done|].
  destruct (decide (P x)).
  - rewrite filter_cons_False, filter_cons_True by naive_solver.
    rewrite <- Permutation_middle. by constructor.
  - rewrite filter_cons_True, filter_cons_False by naive_solver. by constructor.
Qed.

Lemma timer_step_ids_ok s op :
  timer_ids_ok s → next_timer_id s + 1 < u64_MOD → timer_ids_ok (timer_step s op).
Proof.
  intros Hok Hlt. destruct op as [ts k oi|now|id|]; simpl.
  - destruct Hok as (Hnd & Hall & Hpos). unfold timer_ids_ok. simpl.
    unfold u64_add. rewrite wrap_u64_small by int_lia. split_and!; [| |lia].
    + constructor; [|done]. intros Hin. apply list_elem_of_fmap in Hin as (t & Heq & Ht).
      rewrite Forall_forall in Hall. apply Hall in Ht. lia.
    + constructor; [simpl; lia|]. eapply Forall_impl; [exact Hall|]. simpl. lia.
  - unfold TimerService_poll_timers.
    destruct (poll_loop_total (S (length (timers s))) (timers s) [] now)
      as (rest & f & -> & Hp & _); [lia|].
    simpl. eapply timer_ids_ok_sublist; [exact Hok|done|eauto].
  - eapply timer_ids_ok_sublist; [exact Hok|done|]. simpl. eexists.
    apply (filter_complement (λ t, t_id t ≠ id)).
  - eapply timer_ids_ok_sublist; [exact Hok|done|]. exists (timers s). by rewrite app_nil_r.
Qed.

Definition timer_run (ops : list timer_op) : TimerService := foldl timer_step TimerService_new ops.

Lemma timer_step_next_id s op :
  0 <= next_timer_id s → next_timer_id s + 1 < u64_MOD →
  next_timer_id s <= next_timer_id (timer_step s op) <= next_timer_id s + 1.
Proof.
  intros Hpos Hlt. destruct op as [ts k oi|now|id|]; simpl; try lia.
  - unfold u64_add. rewrite wrap_u64_small; int_lia.
  - unfold TimerService_poll_timers. destruct (poll_loop _ _ _ _) as [[h f]|]; simpl; lia.
Qed.

Lemma timer_run_ids ops s :
  timer_ids_ok s → next_timer_id s + Z.of_nat (length ops) < u64_MOD →
  timer_ids_ok (foldl timer_step s ops) ∧
  next_timer_id (foldl timer_step s ops) <= next_timer_id s + Z.of_nat (length ops).
Proof.
  revert s. induction ops as [|op ops IH]; intros s Hok Hlt; simpl in *; [split; [done|lia]|].
  assert (0 <= next_timer_id s) by apply Hok.
  pose proof (timer_step_next_id s op ltac:(lia) ltac:(lia)).
  destruct (IH (timer_step s op)) as [? ?]; [by apply timer_step_ids_ok; [|lia]|lia|].
  split; [done|lia].
Qed.

(** Whatever sequence of register, poll, cancel and clear is executed on
    a fresh service (fewer than 2^64 of them), pending timers have pairwise
    distinct ids, all handed out by an earlier registration. *)
Theorem timer_ids_distinct ops :
  Z.of_nat (length ops) < u64_MOD → timer_ids_ok (timer_run ops).
Proof.
  intros Hlen. apply (timer_run_ids ops TimerService_new); [|simpl; lia].
  split_and!; simpl; [constructor|constructor|lia].
Qed.

Lemma timer_ids_distinct_witness :
  timer_ids_ok (timer_run [OpRegister 100 None None; OpRegister 50 (Some [1; 2; 3]) None;
                           OpPoll 75; OpCancel 0]).
Proof. apply timer_ids_distinct. reflexivity. Defined.

Lemma filter_id_length (l : list TimerRegistration) id :
  NoDup (t_id <$> l) → id ∈ t_id <$> l →
  length l = S (length (filter (λ t, t_id t ≠ id) l)).
Proof.
  induction l as [|x l IH]; simpl; [by intros _ ?%not_elem_of_nil|].
  intros [Hx Hnd]%NoDup_cons Hin. destruct (decide (t_id x = id)) as [<-|Hne].
  - rewrite filter_cons_False by naive_solver. by rewrite (filter_absent t_id).
  - rewrite filter_cons_True by done. simpl. f_equal. apply IH; [done|set_solver].
Qed.

(** On a service with distinct ids, cancelling returns [true] exactly
    when a pending timer has the id, then removes that timer and no other, so
    the pending count falls by exactly one. *)
Theorem cancel_timer_removes_one s id :
  timer_ids_ok s →
  let '(s', found) := TimerService_cancel_timer s id in
  (found = true ↔ id ∈ t_id <$> timers s) ∧
  (∀ t, t ∈ timers s' ↔ t ∈ timers s ∧ t_id t ≠ id) ∧
  TimerService_pending_count s =
    ((if found then 1 else 0) + TimerService_pending_count s')%nat.
Proof.
  intros (Hnd & _ & _). unfold TimerService_cancel_timer, TimerService_pending_count. simpl.
  split_and!.
  - rewrite bool_decide_eq_true. split.
    + intros Hlt. destruct (decide (id ∈ t_id <$> timers s)) as [?|Hni]; [done|].
      rewrite (filter_absent t_id) in Hlt by done. lia.
    + intros Hin. rewrite (filter_id_length _ _ Hnd Hin). lia.
  - intros t. rewrite list_elem_of_filter. naive_solver.
  - case_bool_decide as Hlt.
    + destruct (decide (id ∈ t_id <$> timers s)) as [Hin|Hni].
      * by rewrite (filter_id_length _ _ Hnd Hin).
      * rewrite (filter_absent t_id) in Hlt by done. lia.
    + destruct (decide (id ∈ t_id <$> timers s)) as [Hin|Hni].
      * rewrite (filter_id_length _ _ Hnd Hin) in Hlt. lia.
      * by rewrite (filter_absent t_id).
Qed.

Lemma cancel_timer_removes_one_witness :
  let s := timer_run [OpRegister 100 None None; OpRegister 50 None None] in
  timer_ids_ok s ∧ (TimerService_cancel_timer s 1).2 = true ∧
  TimerService_pending_count s = S (TimerService_pending_count (TimerService_cancel_timer s 1).1).
Proof.
  intros s.
  assert (Hok : timer_ids_ok s).
  { split_and!; refine (bool_decide_unpack _ _); vm_compute; exact I. }
  destruct (cancel_timer_removes_one s 1 Hok) as (_ & _ & Hc).
  split; [exact Hok|]. split; [reflexivity|]. exact Hc.
Defined.
