(* ===== verification/WatermarkGen.v ===== *)
(** * Watermark generators

    Models [crates/laminar-core/src/time/watermark.rs]: the [WatermarkGenerator]
    trait as a class, its seven implementations, and the metrics wrapper. A
    call receives the clock readings it makes ([Clock]); [SystemTime] is the
    option returned by [duration_since(UNIX_EPOCH)]. *)

From S2P Require Import Prelude TimeCore.

Record Clock := mkClock {
  clk_elapsed_at : Instant;        (* the reading made by [Instant::elapsed] *)
  clk_now : Instant;               (* [Instant::now] *)
  clk_since_epoch : option Duration;
}.

(** ** The trait *)

Class WatermarkGenerator (G : Type) := {
  on_event : Clock → G → Z → G * option Watermark;
  on_periodic : Clock → G → G * option Watermark;
  current_watermark : G → Z;
  advance_watermark : Clock → G → Z → G * option Watermark;
}.

(** What a generator promises its clients: an emission caused by an event or by
    an external advance is strictly above the current watermark and becomes the
    current watermark; a periodic emission publishes the current watermark; and
    the current watermark never falls. [inv] is the implementation's own
    invariant. *)
Class GeneratorLaws (G : Type) `{!WatermarkGenerator G} (inv : G → Prop) : Prop := {
  law_event_inv c g ts : inv g → inv (on_event c g ts).1;
  law_periodic_inv c g : inv g → inv (on_periodic c g).1;
  law_advance_inv c g ts : inv g → inv (advance_watermark c g ts).1;
  law_event_emit c g ts w : inv g → (on_event c g ts).2 = Some w →
    current_watermark g < wm_ts w ∧ current_watermark (on_event c g ts).1 = wm_ts w;
  law_event_quiet c g ts : inv g → (on_event c g ts).2 = None →
    current_watermark g <= current_watermark (on_event c g ts).1;
  law_advance_emit c g ts w : inv g → (advance_watermark c g ts).2 = Some w →
    current_watermark g < wm_ts w ∧ current_watermark (advance_watermark c g ts).1 = wm_ts w;
  law_advance_quiet c g ts : inv g → (advance_watermark c g ts).2 = None →
    current_watermark g <= current_watermark (advance_watermark c g ts).1;
  law_periodic_emit c g w : inv g → (on_periodic c g).2 = Some w →
    current_watermark g <= wm_ts w ∧ current_watermark (on_periodic c g).1 = wm_ts w;
  law_periodic_quiet c g : inv g → (on_periodic c g).2 = None →
    current_watermark g <= current_watermark (on_periodic c g).1;
}.

(** The watermark of a generator never goes back. *)
Lemma on_event_mono {G} `{!WatermarkGenerator G} {ginv : G → Prop} `{!GeneratorLaws G ginv} c g ts :
  ginv g → current_watermark g <= current_watermark (on_event c g ts).1.
Proof.
  intros Hg. destruct (on_event c g ts).2 as [w|] eqn:E.
  - destruct (law_event_emit c g ts w Hg E). lia.
  - by apply law_event_quiet.
Qed.
Lemma advance_mono {G} `{!WatermarkGenerator G} {ginv : G → Prop} `{!GeneratorLaws G ginv} c g ts :
  ginv g → current_watermark g <= current_watermark (advance_watermark c g ts).1.
Proof.
  intros Hg. destruct (advance_watermark c g ts).2 as [w|] eqn:E.
  - destruct (law_advance_emit c g ts w Hg E). lia.
  - by apply law_advance_quiet.
Qed.

(** ** Driving a generator *)

Inductive gen_op :=
| GEvent (c : Clock) (timestamp : Z)
| GPeriodic (c : Clock)
| GAdvance (c : Clock) (timestamp : Z).

Definition gen_step {G} `{!WatermarkGenerator G} (g : G) (op : gen_op) : G * option Watermark :=
  match op with
  | GEvent c ts => on_event c g ts
  | GPeriodic c => on_periodic c g
  | GAdvance c ts => advance_watermark c g ts
  end.

(** The timestamp an operation carries is an [i64]. *)
Definition gen_op_i64 (op : gen_op) : Prop :=
  match op with GEvent _ ts | GAdvance _ ts => is_i64 ts | GPeriodic _ => True end.

(** ** [BoundedOutOfOrdernessGenerator] *)

Record BoundedOutOfOrdernessGenerator := mkBounded {
  bo_max_out_of_orderness : Z;
  bo_current_max_timestamp : Z;
  bo_current_watermark : Z;
}.

Definition Bounded_new (max_out_of_orderness : Z) : BoundedOutOfOrdernessGenerator :=
  mkBounded max_out_of_orderness i64_MIN i64_MIN.

Definition Bounded_from_duration (d : Duration) : BoundedOutOfOrdernessGenerator :=
  Bounded_new (wrap_i64 (as_millis d)).

Definition Bounded_on_event (g : BoundedOutOfOrdernessGenerator) (timestamp : Z)
    : BoundedOutOfOrdernessGenerator * option Watermark :=
  let d := bo_max_out_of_orderness g in
  if timestamp >? bo_current_max_timestamp g then
    let new_watermark := timestamp ⊟ d in
    if new_watermark >? bo_current_watermark g
    then (mkBounded d timestamp new_watermark, Some (Watermark_new new_watermark))
    else (mkBounded d timestamp (bo_current_watermark g), None)
  else (g, None).

Definition Bounded_advance_watermark (g : BoundedOutOfOrdernessGenerator) (timestamp : Z)
    : BoundedOutOfOrdernessGenerator * option Watermark :=
  let d := bo_max_out_of_orderness g in
  if timestamp >? bo_current_watermark g then
    let min_max := timestamp ⊞ d in
    let new_max := if min_max >? bo_current_max_timestamp g then min_max
                   else bo_current_max_timestamp g in
    (mkBounded d new_max timestamp, Some (Watermark_new timestamp))
  else (g, None).

#[export] Instance Bounded_generator : WatermarkGenerator BoundedOutOfOrdernessGenerator := {
  on_event _ := Bounded_on_event;
  on_periodic _ g := (g, None);
  current_watermark := bo_current_watermark;
  advance_watermark _ := Bounded_advance_watermark;
}.

(** ** [AscendingTimestampsGenerator] *)

Record AscendingTimestampsGenerator := mkAscending { as_current_watermark : Z }.

Definition Ascending_new : AscendingTimestampsGenerator := mkAscending i64_MIN.

(** [#[derive(Default)]]: the watermark field is [0], not [i64::MIN]. *)
Definition Ascending_default : AscendingTimestampsGenerator := mkAscending 0.

Definition Ascending_on_event (g : AscendingTimestampsGenerator) (timestamp : Z)
    : AscendingTimestampsGenerator * option Watermark :=
  if timestamp >? as_current_watermark g
  then (mkAscending timestamp, Some (Watermark_new timestamp)) else (g, None).

Definition Ascending_advance_watermark (g : AscendingTimestampsGenerator) (timestamp : Z)
    : AscendingTimestampsGenerator * option Watermark :=
  if timestamp >? as_current_watermark g
  then (mkAscending timestamp, Some (Watermark_new timestamp)) else (g, None).

#[export] Instance Ascending_generator : WatermarkGenerator AscendingTimestampsGenerator := {
  on_event _ := Ascending_on_event;
  on_periodic _ g := (g, None);
  current_watermark := as_current_watermark;
  advance_watermark _ := Ascending_advance_watermark;
}.

(** ** [PeriodicGenerator<G>] *)

Record PeriodicGenerator (G : Type) := mkPeriodic {
  pe_inner : G;
  pe_period : Duration;
  pe_last_emit_time : Instant;
  pe_last_emitted_watermark : Z;
}.
Arguments mkPeriodic {G} _ _ _ _.
Arguments pe_inner {G} _.
Arguments pe_period {G} _.
Arguments pe_last_emit_time {G} _.
Arguments pe_last_emitted_watermark {G} _.

Definition Periodic_new {G} (c : Clock) (inner : G) (period : Duration) : PeriodicGenerator G :=
  mkPeriodic inner period (clk_now c) i64_MIN.

Definition Periodic_on_event {G} `{!WatermarkGenerator G} (c : Clock) (g : PeriodicGenerator G)
    (timestamp : Z) : PeriodicGenerator G * option Watermark :=
  let '(inner, wm) := on_event c (pe_inner g) timestamp in
  match wm with
  | Some w => (mkPeriodic inner (pe_period g) (clk_now c) (Watermark_timestamp w), wm)
  | None => (mkPeriodic inner (pe_period g) (pe_last_emit_time g) (pe_last_emitted_watermark g), wm)
  end.

Definition Periodic_on_periodic {G} `{!WatermarkGenerator G} (c : Clock) (g : PeriodicGenerator G)
    : PeriodicGenerator G * option Watermark :=
  if elapsed (clk_elapsed_at c) (pe_last_emit_time g) >=? pe_period g then
    let current := current_watermark (pe_inner g) in
    if current >? pe_last_emitted_watermark g
    then (mkPeriodic (pe_inner g) (pe_period g) (clk_now c) current, Some (Watermark_new current))
    else (mkPeriodic (pe_inner g) (pe_period g) (clk_now c) (pe_last_emitted_watermark g), None)
  else (g, None).

Definition Periodic_advance_watermark {G} `{!WatermarkGenerator G} (c : Clock)
    (g : PeriodicGenerator G) (timestamp : Z) : PeriodicGenerator G * option Watermark :=
  let '(inner, wm) := advance_watermark c (pe_inner g) timestamp in
  match wm with
  | Some w => (mkPeriodic inner (pe_period g) (clk_now c) (Watermark_timestamp w), wm)
  | None => (mkPeriodic inner (pe_period g) (pe_last_emit_time g) (pe_last_emitted_watermark g), wm)
  end.

#[export] Instance Periodic_generator {G} `{!WatermarkGenerator G}
    : WatermarkGenerator (PeriodicGenerator G) := {
  on_event := Periodic_on_event;
  on_periodic := Periodic_on_periodic;
  current_watermark g := current_watermark (pe_inner g);
  advance_watermark := Periodic_advance_watermark;
}.

(** ** [PunctuatedGenerator<F>] *)

Record PunctuatedGenerator := mkPunctuated {
  pu_predicate : Z → option Watermark;
  pu_current_watermark : Z;
}.

Definition Punctuated_new (predicate : Z → option Watermark) : PunctuatedGenerator :=
  mkPunctuated predicate i64_MIN.

Definition Punctuated_on_event (g : PunctuatedGenerator) (timestamp : Z)
    : PunctuatedGenerator * option Watermark :=
  match pu_predicate g timestamp with
  | Some wm =>
      if Watermark_timestamp wm >? pu_current_watermark g
      then (mkPunctuated (pu_predicate g) (Watermark_timestamp wm), Some wm) else (g, None)
  | None => (g, None)
  end.

Definition Punctuated_advance_watermark (g : PunctuatedGenerator) (timestamp : Z)
    : PunctuatedGenerator * option Watermark :=
  if timestamp >? pu_current_watermark g
  then (mkPunctuated (pu_predicate g) timestamp, Some (Watermark_new timestamp)) else (g, None).

#[export] Instance Punctuated_generator : WatermarkGenerator PunctuatedGenerator := {
  on_event _ := Punctuated_on_event;
  on_periodic _ g := (g, None);
  current_watermark := pu_current_watermark;
  advance_watermark _ := Punctuated_advance_watermark;
}.

(** ** [SourceProvidedGenerator] *)

Record SourceProvidedGenerator := mkSourceProvided {
  sp_source_watermark : Z;
  sp_fallback : BoundedOutOfOrdernessGenerator;
  sp_prefer_source : bool;
}.

Definition SourceProvided_new (fallback_lateness : Z) (prefer_source : bool)
    : SourceProvidedGenerator :=
  mkSourceProvided i64_MIN (Bounded_new fallback_lateness) prefer_source.

Definition SourceProvided_on_source_watermark (g : SourceProvidedGenerator) (watermark : Z)
    : SourceProvidedGenerator * option Watermark :=
  if watermark >? sp_source_watermark g then
    let g' := mkSourceProvided watermark (sp_fallback g) (sp_prefer_source g) in
    if sp_prefer_source g || (watermark >? bo_current_watermark (sp_fallback g))
    then (g', Some (Watermark_new watermark)) else (g', None)
  else (g, None).

Definition SourceProvided_on_event (g : SourceProvidedGenerator) (timestamp : Z)
    : SourceProvidedGenerator * option Watermark :=
  let '(fallback, fallback_wm) := Bounded_on_event (sp_fallback g) timestamp in
  let g' := mkSourceProvided (sp_source_watermark g) fallback (sp_prefer_source g) in
  if sp_prefer_source g && (sp_source_watermark g >? i64_MIN) then (g', None)
  else (g', fallback_wm).

Definition SourceProvided_current_watermark (g : SourceProvidedGenerator) : Z :=
  if sp_prefer_source g && (sp_source_watermark g >? i64_MIN) then sp_source_watermark g
  else Z.max (bo_current_watermark (sp_fallback g)) (sp_source_watermark g).

#[export] Instance SourceProvided_generator : WatermarkGenerator SourceProvidedGenerator := {
  on_event _ := SourceProvided_on_event;
  on_periodic _ g := (g, None);
  current_watermark := SourceProvided_current_watermark;
  advance_watermark _ := SourceProvided_on_source_watermark;
}.

(** ** [ProcessingTimeGenerator] *)

Record ProcessingTimeGenerator := mkProcessingTime { pt_current_watermark : Z }.

Definition ProcessingTime_new : ProcessingTimeGenerator := mkProcessingTime i64_MIN.

Definition ProcessingTime_now_millis (c : Clock) : Z :=
  wrap_i64 (as_millis (default 0 (clk_since_epoch c))).

Definition ProcessingTime_on_periodic (c : Clock) (g : ProcessingTimeGenerator)
    : ProcessingTimeGenerator * option Watermark :=
  let now := ProcessingTime_now_millis c in
  if now >? pt_current_watermark g
  then (mkProcessingTime now, Some (Watermark_new now)) else (g, None).

Definition ProcessingTime_advance_watermark (g : ProcessingTimeGenerator) (timestamp : Z)
    : ProcessingTimeGenerator * option Watermark :=
  if timestamp >? pt_current_watermark g
  then (mkProcessingTime timestamp, Some (Watermark_new timestamp)) else (g, None).

#[export] Instance ProcessingTime_generator : WatermarkGenerator ProcessingTimeGenerator := {
  on_event _ g _ := (g, None);
  on_periodic := ProcessingTime_on_periodic;
  current_watermark := pt_current_watermark;
  advance_watermark _ := ProcessingTime_advance_watermark;
}.

(** ** [WatermarkMetrics] and [MeteredGenerator<G>] *)

Record WatermarkMetrics := mkWatermarkMetrics {
  wmm_current_watermark : Z;
  wmm_max_event_timestamp : Z;
  wmm_watermarks_emitted : Z;
  wmm_late_events : Z;
}.

Definition WatermarkMetrics_new : WatermarkMetrics := mkWatermarkMetrics 0 0 0 0.

Definition WatermarkMetrics_lag (m : WatermarkMetrics) : Z :=
  wmm_max_event_timestamp m ⊟ wmm_current_watermark m.

Record MeteredGenerator (G : Type) := mkMetered { me_inner : G; me_metrics : WatermarkMetrics }.
Arguments mkMetered {G} _ _.
Arguments me_inner {G} _.
Arguments me_metrics {G} _.

Definition Metered_new {G} (inner : G) : MeteredGenerator G := mkMetered inner WatermarkMetrics_new.

Definition Metered_record_late_event {G} (g : MeteredGenerator G) : MeteredGenerator G :=
  let m := me_metrics g in
  mkMetered (me_inner g)
    (mkWatermarkMetrics (wmm_current_watermark m) (wmm_max_event_timestamp m)
       (wmm_watermarks_emitted m) (u64_add (wmm_late_events m) 1)).

(** The [if let Some(ref w) = wm] block shared by the three methods. *)
Definition Metered_record_emission (m : WatermarkMetrics) (wm : option Watermark) : WatermarkMetrics :=
  match wm with
  | Some w => mkWatermarkMetrics (Watermark_timestamp w) (wmm_max_event_timestamp m)
                (u64_add (wmm_watermarks_emitted m) 1) (wmm_late_events m)
  | None => m
  end.

Definition Metered_on_event {G} `{!WatermarkGenerator G} (c : Clock) (g : MeteredGenerator G)
    (timestamp : Z) : MeteredGenerator G * option Watermark :=
  let m := me_metrics g in
  let m := if timestamp >? wmm_max_event_timestamp m
           then mkWatermarkMetrics (wmm_current_watermark m) timestamp
                  (wmm_watermarks_emitted m) (wmm_late_events m)
           else m in
  let '(inner, wm) := on_event c (me_inner g) timestamp in
  (mkMetered inner (Metered_record_emission m wm), wm).

Definition Metered_on_periodic {G} `{!WatermarkGenerator G} (c : Clock) (g : MeteredGenerator G)
    : MeteredGenerator G * option Watermark :=
  let '(inner, wm) := on_periodic c (me_inner g) in
  (mkMetered inner (Metered_record_emission (me_metrics g) wm), wm).

Definition Metered_advance_watermark {G} `{!WatermarkGenerator G} (c : Clock)
    (g : MeteredGenerator G) (timestamp : Z) : MeteredGenerator G * option Watermark :=
  let '(inner, wm) := advance_watermark c (me_inner g) timestamp in
  (mkMetered inner (Metered_record_emission (me_metrics g) wm), wm).

#[export] Instance Metered_generator {G} `{!WatermarkGenerator G}
    : WatermarkGenerator (MeteredGenerator G) := {
  on_event := Metered_on_event;
  on_periodic := Metered_on_periodic;
  current_watermark g := current_watermark (me_inner g);
  advance_watermark := Metered_advance_watermark;
}.

(** ** The laws of the base generators *)

(** Case analysis on a generator step, closing the arithmetic. *)
Ltac gen_solve :=
  intros; simpl in *;
  unfold Bounded_on_event, Bounded_advance_watermark, Ascending_on_event,
    Ascending_advance_watermark, Punctuated_on_event, Punctuated_advance_watermark,
    ProcessingTime_on_periodic, ProcessingTime_advance_watermark, Watermark_new,
    Watermark_timestamp in *;
  repeat case_match; simplify_eq/=; try done; try lia.

(** The comment in [advance_watermark]: [current_max_timestamp >=
    current_watermark + max_out_of_orderness], once a watermark was produced. *)
Definition bounded_inv (g : BoundedOutOfOrdernessGenerator) : Prop :=
  is_i64 (bo_current_watermark g) ∧ is_i64 (bo_current_max_timestamp g) ∧
  (bo_current_watermark g = i64_MIN ∨
   bo_current_watermark g ⊞ bo_max_out_of_orderness g <= bo_current_max_timestamp g).

#[export] Instance Bounded_laws : GeneratorLaws BoundedOutOfOrdernessGenerator (λ _, True).
Proof. split; gen_solve. Qed.

#[export] Instance Ascending_laws : GeneratorLaws AscendingTimestampsGenerator (λ _, True).
Proof. split; gen_solve. Qed.

#[export] Instance Punctuated_laws : GeneratorLaws PunctuatedGenerator (λ _, True).
Proof. split; gen_solve. Qed.

#[export] Instance ProcessingTime_laws : GeneratorLaws ProcessingTimeGenerator (λ _, True).
Proof. split; gen_solve. Qed.

(** ** Emission order, from the laws *)

(** A lawful generator whose periodic emissions are strict advances emits a
    strictly increasing sequence. *)
Lemma laws_advancing {G} `{!WatermarkGenerator G} (inv : G → Prop) `{!GeneratorLaws G inv} :
  (∀ c g w, inv g → (on_periodic c g).2 = Some w → current_watermark g < wm_ts w) →
  Advancing (gen_step (G:=G)) wm_ts current_watermark inv.
Proof.
  intros Hstrict. split; intros g [c ts|c|c ts]; simpl; intros.
  - by apply law_event_inv.
  - by apply law_periodic_inv.
  - by apply law_advance_inv.
  - by eapply law_event_emit.
  - split; [by eapply Hstrict|]. by eapply law_periodic_emit.
  - by eapply law_advance_emit.
  - by eapply law_event_quiet.
  - by eapply law_periodic_quiet.
  - by eapply law_advance_quiet.
Qed.

#[export] Instance Bounded_advancing :
  Advancing (gen_step (G:=BoundedOutOfOrdernessGenerator)) wm_ts current_watermark (λ _, True).
Proof. apply (laws_advancing (λ _, True)). gen_solve. Qed.

#[export] Instance ProcessingTime_advancing :
  Advancing (gen_step (G:=ProcessingTimeGenerator)) wm_ts current_watermark (λ _, True).
Proof. apply (laws_advancing (λ _, True)). gen_solve. Qed.

Section wrappers.
Context {G : Type} `{!WatermarkGenerator G}.

(** The periodic wrapper remembers the last emission; it never exceeds the
    inner watermark. *)
Definition periodic_inv (inv : G → Prop) (g : PeriodicGenerator G) : Prop :=
  inv (pe_inner g) ∧ pe_last_emitted_watermark g <= current_watermark (pe_inner g).

(** One call of the inner generator, with what the laws say about it. *)
Lemma inner_event inv `{!GeneratorLaws G inv} c g ts :
  inv g → inv (on_event c g ts).1 ∧
  (match (on_event c g ts).2 with
   | Some w => current_watermark g < wm_ts w ∧ current_watermark (on_event c g ts).1 = wm_ts w
   | None => current_watermark g <= current_watermark (on_event c g ts).1 end).
Proof.
  intros Hg. split; [by apply law_event_inv|]. case_match.
  - by eapply law_event_emit.
  - by eapply law_event_quiet.
Qed.

Lemma inner_advance inv `{!GeneratorLaws G inv} c g ts :
  inv g → inv (advance_watermark c g ts).1 ∧
  (match (advance_watermark c g ts).2 with
   | Some w => current_watermark g < wm_ts w ∧
               current_watermark (advance_watermark c g ts).1 = wm_ts w
   | None => current_watermark g <= current_watermark (advance_watermark c g ts).1 end).
Proof.
  intros Hg. split; [by apply law_advance_inv|]. case_match.
  - by eapply law_advance_emit.
  - by eapply law_advance_quiet.
Qed.

Ltac periodic_solve :=
  intros; unfold periodic_inv in *; simpl in *;
  unfold Periodic_on_event, Periodic_on_periodic, Periodic_advance_watermark,
    Watermark_timestamp, Watermark_new in *;
  destruct_and?;
  repeat match goal with
  | Hi : ?inv (pe_inner ?g) |- context [on_event ?c (pe_inner ?g) ?ts] =>
      pose proof (inner_event inv c (pe_inner g) ts Hi); destruct (on_event c (pe_inner g) ts)
  | Hi : ?inv (pe_inner ?g), E : context [on_event ?c (pe_inner ?g) ?ts] |- _ =>
      pose proof (inner_event inv c (pe_inner g) ts Hi); destruct (on_event c (pe_inner g) ts)
  | Hi : ?inv (pe_inner ?g) |- context [advance_watermark ?c (pe_inner ?g) ?ts] =>
      pose proof (inner_advance inv c (pe_inner g) ts Hi);
      destruct (advance_watermark c (pe_inner g) ts)
  | Hi : ?inv (pe_inner ?g), E : context [advance_watermark ?c (pe_inner ?g) ?ts] |- _ =>
      pose proof (inner_advance inv c (pe_inner g) ts Hi);
      destruct (advance_watermark c (pe_inner g) ts)
  end;
  repeat case_match; simplify_eq/=; destruct_and?; split_and?; done || lia.

Lemma Periodic_laws inv `{!GeneratorLaws G inv} :
  GeneratorLaws (PeriodicGenerator G) (periodic_inv inv).
Proof. split; periodic_solve. Qed.

Lemma Periodic_advancing inv `{!GeneratorLaws G inv} :
  Advancing (gen_step (G:=PeriodicGenerator G)) wm_ts pe_last_emitted_watermark (periodic_inv inv).
Proof. split; intros g [c ts|c|c ts]; periodic_solve. Qed.

(** Metering changes no emission. *)
Lemma Metered_step (g : MeteredGenerator G) op :
  me_inner (gen_step g op).1 = (gen_step (me_inner g) op).1 ∧
  (gen_step g op).2 = (gen_step (me_inner g) op).2.
Proof.
  destruct op; simpl; unfold Metered_on_event, Metered_on_periodic, Metered_advance_watermark;
    case_match; done.
Qed.

Lemma Metered_run (g : MeteredGenerator G) ops :
  me_inner (run gen_step g ops).1 = (run gen_step (me_inner g) ops).1 ∧
  (run gen_step g ops).2 = (run gen_step (me_inner g) ops).2.
Proof.
  revert g. induction ops as [|op ops IH]; intros g; simpl; [done|].
  destruct (Metered_step g op) as [Hs ->]. destruct (IH (gen_step g op).1) as [-> ->].
  by rewrite Hs.
Qed.

Lemma Metered_step_metrics (g : MeteredGenerator G) op :
  wmm_watermarks_emitted (me_metrics (gen_step g op).1) =
    (match (gen_step g op).2 with
     | Some _ => u64_add (wmm_watermarks_emitted (me_metrics g)) 1
     | None => wmm_watermarks_emitted (me_metrics g) end) ∧
  wmm_current_watermark (me_metrics (gen_step g op).1) =
    (match (gen_step g op).2 with
     | Some w => wm_ts w
     | None => wmm_current_watermark (me_metrics g) end).
Proof.
  destruct op; simpl; unfold Metered_on_event, Metered_on_periodic, Metered_advance_watermark;
    repeat case_match; simplify_eq/=; done.
Qed.
End wrappers.

(** ** Properties *)

Lemma periodic_run_increasing {G} `{!WatermarkGenerator G} inv `{!GeneratorLaws G inv} c g p ops :
  inv g → i64_MIN <= current_watermark g →
  StronglySorted Z.lt (wm_ts <$> (run gen_step (Periodic_new c g p) ops).2).
Proof.
  intros Hg Hmin. pose proof (Periodic_advancing inv) as Hadv.
  by apply (run_advancing gen_step wm_ts pe_last_emitted_watermark (periodic_inv inv)
              (Periodic_new c g p) ops).
Qed.

Lemma metered_run_metrics {G} `{!WatermarkGenerator G} (g : MeteredGenerator G) ops :
  let r := run gen_step g ops in
  wmm_watermarks_emitted (me_metrics r.1) =
    foldl (λ n _, u64_add n 1) (wmm_watermarks_emitted (me_metrics g)) r.2 ∧
  wmm_current_watermark (me_metrics r.1) =
    foldl (λ _ w, wm_ts w) (wmm_current_watermark (me_metrics g)) r.2.
Proof.
  revert g. induction ops as [|op ops IH]; intros g; simpl; [done|].
  destruct (Metered_step_metrics g op) as [Hn Hc].
  destruct (IH (gen_step g op).1) as [-> ->]. rewrite foldl_app, foldl_app, Hn, Hc.
  by destruct (gen_step g op).2.
Qed.

(** For every lawful inner generator and every interleaving of events,
    periodic ticks and external advances, the metered periodic wrapper emits a
    strictly increasing sequence of watermarks; its metrics count exactly those
    emissions (modulo 2^64) and hold the last one. *)
Theorem metered_periodic_emissions_increase {G} `{!WatermarkGenerator G} (inv : G → Prop)
    `{!GeneratorLaws G inv} c g p ops :
  inv g → i64_MIN <= current_watermark g →
  let r := run gen_step (Metered_new (Periodic_new c g p)) ops in
  StronglySorted Z.lt (wm_ts <$> r.2) ∧
  wmm_watermarks_emitted (me_metrics r.1) = foldl (λ n _, u64_add n 1) 0 r.2 ∧
  wmm_current_watermark (me_metrics r.1) = foldl (λ _ w, wm_ts w) 0 r.2.
Proof.
  intros Hg Hmin r. split; [|apply metered_run_metrics].
  destruct (Metered_run (Metered_new (Periodic_new c g p)) ops) as [_ Hr].
  unfold r. rewrite Hr. by apply (periodic_run_increasing inv).
Qed.

Lemma metered_periodic_emissions_increase_witness :
  let c := mkClock 0 0 None in
  let ops := [GEvent c 1000; GEvent c 800; GPeriodic c; GAdvance c 2000; GEvent c 2500] in
  let r := run gen_step (Metered_new (Periodic_new c (Bounded_new 100) 500)) ops in
  StronglySorted Z.lt (wm_ts <$> r.2) ∧ wm_ts <$> r.2 = [900; 2000; 2400].
Proof.
  intros c ops r. split; [|reflexivity].
  apply (metered_periodic_emissions_increase (λ _ : BoundedOutOfOrdernessGenerator, True)
           c (Bounded_new 100) 500 ops); [exact I|].
  vm_compute. intros H. discriminate H.
Defined.

(** *** Bounded out-of-orderness *)

Lemma bounded_events_state d evs g :
  0 <= d → Forall is_i64 evs → is_i64 (bo_current_max_timestamp g) →
  bo_max_out_of_orderness g = d →
  bo_current_watermark g = bo_current_max_timestamp g ⊟ d →
  let g' := foldl (λ g ts, (Bounded_on_event g ts).1) g evs in
  bo_max_out_of_orderness g' = d ∧
  bo_current_max_timestamp g' =
    foldl Z.max (bo_current_max_timestamp g) evs ∧
  bo_current_watermark g' = bo_current_max_timestamp g' ⊟ d.
Proof.
  intros Hd. revert g. induction evs as [|ts evs IH]; intros g; simpl; [done|].
  intros [Hts Hevs]%Forall_cons Hmax Hdd Hwm.
  replace (Z.max (bo_current_max_timestamp g) ts)
    with (bo_current_max_timestamp (Bounded_on_event g ts).1).
  2: { unfold Bounded_on_event. repeat case_match; simpl; zcase; lia. }
  apply IH; [done|..]; unfold Bounded_on_event; repeat case_match; simpl in *; zcase;
    rewrite ?Hdd, ?Hwm in *; try done; int_lia.
Qed.

Lemma foldl_max_list_max (l : list Z) : ∀ x, foldl Z.max x l =
  match list_max l with Some m => Z.max x m | None => x end.
Proof.
  induction l as [|y l IH]; intros x; simpl; [done|].
  rewrite IH. destruct (list_max l); lia.
Qed.

(** A bounded generator fed with events only has, at every moment, the
    watermark "largest timestamp seen minus the allowed out-of-orderness"
    (saturating at [i64::MIN]); so an event is late exactly when it is further
    behind the largest seen timestamp than allowed. *)
Theorem bounded_watermark_is_max_minus_delay d evs :
  0 <= d → Forall is_i64 evs →
  let g := foldl (λ g ts, (Bounded_on_event g ts).1) (Bounded_new d) evs in
  bo_current_watermark g = default i64_MIN (list_max evs) ⊟ d ∧
  (∀ m e, list_max evs = Some m → is_i64 (m - d) →
     Watermark_is_late (Watermark_new (bo_current_watermark g)) e = true ↔ e < m - d).
Proof.
  intros Hd Hevs g.
  destruct (bounded_events_state d evs (Bounded_new d)) as (_ & Hmax & Hwm);
    simpl; try done; [int_lia..|]. simpl in Hmax.
  fold g in Hmax, Hwm.
  assert (Hm : bo_current_max_timestamp g = default i64_MIN (list_max evs)).
  { rewrite Hmax, foldl_max_list_max. destruct (list_max evs) as [m|] eqn:E; [|done]. simpl.
    apply list_max_Some in E as [Hin _]. rewrite Forall_forall in Hevs.
    apply Hevs in Hin. int_lia. }
  rewrite Hwm, Hm. split; [done|]. intros m e -> Hi. simpl.
  unfold Watermark_is_late, Watermark_new. simpl. rewrite sat_sub_exact by done.
  by rewrite Z.ltb_lt.
Qed.

Lemma bounded_watermark_is_max_minus_delay_witness :
  bo_current_watermark
    (foldl (λ g ts, (Bounded_on_event g ts).1) (Bounded_new 100) [1000; 800; 1200]) = 1100.
Proof.
  destruct (bounded_watermark_is_max_minus_delay 100 [1000; 800; 1200]) as [H _].
  - vm_compute. intros E. discriminate E.
  - repeat constructor; vm_compute; intros E; discriminate E.
  - exact H.
Defined.

Lemma bounded_step_inv g op :
  gen_op_i64 op → bounded_inv g → bounded_inv (gen_step g op).1.
Proof.
  intros Hop (Hw & Hm & Hinv). destruct op as [c ts|c|c ts]; simpl in *; [| done |].
  all: unfold bounded_inv, Bounded_on_event, Bounded_advance_watermark; repeat case_match;
       simpl in *; zcase; int_lia.
Qed.

(** After any run of events, ticks and external advances, a bounded
    generator that has produced a watermark satisfies the invariant its code
    relies on: the largest timestamp is at least the watermark plus the
    out-of-orderness bound (saturating). *)
Theorem bounded_invariant_reachable d ops :
  Forall gen_op_i64 ops →
  bounded_inv (run gen_step (Bounded_new d) ops).1.
Proof.
  intros Hops. assert (Hg : bounded_inv (Bounded_new d)) by (unfold bounded_inv; simpl; int_lia).
  revert Hg. generalize (Bounded_new d). induction Hops as [|op ops Hop _ IH]; intros g Hg; simpl.
  - done.
  - apply IH. by apply bounded_step_inv.
Qed.

Lemma bounded_invariant_reachable_witness :
  let c := mkClock 0 0 None in
  bounded_inv (run gen_step (Bounded_new 100) [GAdvance c 5000; GEvent c 4900]).1.
Proof.
  intros c. apply bounded_invariant_reachable.
  repeat constructor; vm_compute; intros F; discriminate F.
Defined.

(** *** Periodic re-emission *)

(** With a bounded inner generator the last emission is always the inner
    watermark, so there is never anything left to publish on a tick. *)
Lemma periodic_bounded_sync (g : PeriodicGenerator BoundedOutOfOrdernessGenerator) op :
  pe_last_emitted_watermark g = bo_current_watermark (pe_inner g) →
  pe_last_emitted_watermark (gen_step g op).1 =
    bo_current_watermark (pe_inner (gen_step g op).1).
Proof.
  intros Hg. destruct op as [c ts|c|c ts]; simpl;
    unfold Periodic_on_event, Periodic_on_periodic, Periodic_advance_watermark; simpl;
    unfold Bounded_on_event, Bounded_advance_watermark; repeat case_match; simplify_eq/=; done.
Qed.

(** A periodic generator around a bounded generator never emits from
    [on_periodic], whatever happened before and however much wall-clock time
    has passed. *)
Theorem periodic_over_bounded_never_ticks c d p ops c' :
  (on_periodic c' (run gen_step (Periodic_new c (Bounded_new d) p) ops).1).2 = None.
Proof.
  assert (H : ∀ g : PeriodicGenerator BoundedOutOfOrdernessGenerator,
    pe_last_emitted_watermark g = bo_current_watermark (pe_inner g) →
    pe_last_emitted_watermark (run gen_step g ops).1 =
      bo_current_watermark (pe_inner (run gen_step g ops).1)).
  { induction ops as [|op ops IH]; intros g Hg; simpl; [done|].
    apply IH. by apply periodic_bounded_sync. }
  specialize (H (Periodic_new c (Bounded_new d) p) eq_refl). revert H.
  generalize (run gen_step (Periodic_new c (Bounded_new d) p) ops).1 as g. intros g Hg.
  simpl. unfold Periodic_on_periodic. simpl. rewrite Hg. rewrite Z.gtb_ltb, Z.ltb_irrefl.
  by case_match.
Qed.

(** *** Source-provided watermarks *)

(** With [prefer_source = false], whatever events and source watermarks
    arrive, the current watermark of a source-provided generator never falls,
    and each explicit source watermark is emitted exactly when it is above it. *)
Theorem source_provided_current_monotone d ops w g :
  g = (run gen_step (SourceProvided_new d false) ops).1 →
  SourceProvided_current_watermark g <=
    SourceProvided_current_watermark (SourceProvided_on_source_watermark g w).1 ∧
  SourceProvided_current_watermark g <=
    SourceProvided_current_watermark (SourceProvided_on_event g w).1 ∧
  ((SourceProvided_on_source_watermark g w).2 = Some (Watermark_new w) ↔
     SourceProvided_current_watermark g < w).
Proof.
  intros Hg. assert (Hp : sp_prefer_source g = false).
  { subst. assert (H : ∀ g, sp_prefer_source g = false →
      sp_prefer_source (run gen_step g ops).1 = false).
    { induction ops as [|op ops IH]; intros g Hg; simpl; [done|]. apply IH.
      destruct op; simpl; unfold SourceProvided_on_event, SourceProvided_on_source_watermark;
        repeat case_match; simplify_eq/=; done. }
    by apply H. }
  clear Hg. destruct g as [src fb []]; [done|].
  unfold SourceProvided_current_watermark, SourceProvided_on_source_watermark,
    SourceProvided_on_event, Bounded_on_event. simpl. split_and!.
  - zcase; lia.
  - repeat case_match; simplify_eq/=; zcase; lia.
  - zcase; split; intros; try done; lia.
Qed.

Lemma source_provided_current_monotone_witness :
  let c := mkClock 0 0 None in
  let g := (run gen_step (SourceProvided_new 100 false) [GEvent c 1000; GAdvance c 5000]).1 in
  (SourceProvided_on_source_watermark g 6000).2 = Some (Watermark_new 6000).
Proof.
  intros c g.
  apply (source_provided_current_monotone 100 [GEvent c 1000; GAdvance c 5000] 6000 g eq_refl).
  reflexivity.
Defined.

(** The emitted sequence of a source-provided generator can go backwards:
    for every lateness bound [d >= 0] there is a run with [prefer_source = false]
    whose second emission is below its first, and a run with
    [prefer_source = true] whose second emission and whose current watermark
    are below the first. *)
Theorem source_provided_can_regress c d :
  0 <= d <= 1000000 →
  let r1 := run gen_step (SourceProvided_new d false) [GAdvance c 5000; GEvent c 1000] in
  let r2 := run gen_step (SourceProvided_new d true) [GEvent c 5000; GAdvance c (- 2000000)] in
  wm_ts <$> r1.2 = [5000; 1000 - d] ∧
  wm_ts <$> r2.2 = [5000 - d; - 2000000] ∧
  SourceProvided_current_watermark r2.1 < 5000 - d.
Proof.
  intros Hd. simpl. unfold SourceProvided_on_source_watermark, SourceProvided_on_event,
    Bounded_on_event. simpl.
  assert (H1 : 1000 ⊟ d = 1000 - d) by int_lia. assert (H2 : 5000 ⊟ d = 5000 - d) by int_lia.
  rewrite H1, H2. zcase; try lia.
  unfold SourceProvided_current_watermark. simpl. split_and!; try done. lia.
Qed.

Lemma source_provided_can_regress_witness :
  let c := mkClock 0 0 None in
  wm_ts <$> (run gen_step (SourceProvided_new 0 false) [GAdvance c 5000; GEvent c 1000]).2
    = [5000; 1000].
Proof.
  intros c. apply (source_provided_can_regress c 0). vm_compute. split; intros F; discriminate F.
Defined.
