(* ===== verification/WatermarkTrack.v ===== *)
(** * Multi-source watermark tracking

    Models [WatermarkTracker] of [crates/laminar-core/src/time/watermark.rs]:
    one watermark and one idle flag per source, and a combined watermark that
    is the minimum over the active sources (the maximum over all of them when
    none is active) and never goes back. *)

From S2P Require Import Prelude TimeCore.

Record WatermarkTracker := mkTracker {
  wt_source_watermarks : list Z;
  wt_combined_watermark : Z;
  wt_idle_sources : list bool;
  wt_last_activity : list Instant;
  wt_idle_timeout : Duration;
}.

Definition WatermarkTracker_with_idle_timeout (now : Instant) (num_sources : nat)
    (idle_timeout : Duration) : WatermarkTracker :=
  mkTracker (replicate num_sources i64_MIN) i64_MIN (replicate num_sources false)
    (replicate num_sources now) idle_timeout.

Definition WatermarkTracker_new (now : Instant) (num_sources : nat) : WatermarkTracker :=
  mkTracker (replicate num_sources i64_MIN) i64_MIN (replicate num_sources false)
    (replicate num_sources now) (from_secs 30).

(** Idle flag and watermark of each source, in source order. *)
Definition wt_entries (t : WatermarkTracker) : list (bool * Z) :=
  zip (wt_idle_sources t) (wt_source_watermarks t).

Definition WatermarkTracker_update_combined (t : WatermarkTracker)
    : WatermarkTracker * option Watermark :=
  let '(min, has_active) := active_min_loop (wt_entries t) i64_MAX false in
  let min_watermark := if has_active then min
                       else default i64_MIN (list_max (wt_source_watermarks t)) in
  if (min_watermark >? wt_combined_watermark t) && negb (min_watermark =? i64_MAX)
  then (mkTracker (wt_source_watermarks t) min_watermark (wt_idle_sources t)
          (wt_last_activity t) (wt_idle_timeout t),
        Some (Watermark_new min_watermark))
  else (t, None).

Definition WatermarkTracker_update_source (now : Instant) (t : WatermarkTracker)
    (source_id : nat) (watermark : Z) : WatermarkTracker * option Watermark :=
  match wt_source_watermarks t !! source_id with
  | None => (t, None)
  | Some old =>
      let t := mkTracker (wt_source_watermarks t) (wt_combined_watermark t)
                 (<[source_id := false]> (wt_idle_sources t))
                 (<[source_id := now]> (wt_last_activity t)) (wt_idle_timeout t) in
      if watermark >? old then
        WatermarkTracker_update_combined
          (mkTracker (<[source_id := watermark]> (wt_source_watermarks t))
             (wt_combined_watermark t) (wt_idle_sources t) (wt_last_activity t) (wt_idle_timeout t))
      else (t, None)
  end.

Definition WatermarkTracker_mark_idle (t : WatermarkTracker) (source_id : nat)
    : WatermarkTracker * option Watermark :=
  if bool_decide (length (wt_idle_sources t) <= source_id)%nat then (t, None)
  else
    WatermarkTracker_update_combined
      (mkTracker (wt_source_watermarks t) (wt_combined_watermark t)
         (<[source_id := true]> (wt_idle_sources t)) (wt_last_activity t) (wt_idle_timeout t)).

(** The marking loop of [check_idle_sources]; [clk i] is the clock reading made
    when source [i] is examined. *)
Definition WatermarkTracker_idle_scan (clk : nat → Instant) (timeout : Duration)
    (idle : list bool) (last_activity : list Instant) : list bool :=
  imap (λ i p, p.1 || (elapsed (clk i) p.2 >=? timeout)) (zip idle last_activity).

Definition WatermarkTracker_check_idle_sources (clk : nat → Instant) (t : WatermarkTracker)
    : WatermarkTracker * option Watermark :=
  let idle' := WatermarkTracker_idle_scan clk (wt_idle_timeout t) (wt_idle_sources t)
                 (wt_last_activity t) in
  let any_marked := negb (bool_decide (idle' = wt_idle_sources t)) in
  let t' := mkTracker (wt_source_watermarks t) (wt_combined_watermark t) idle'
              (wt_last_activity t) (wt_idle_timeout t) in
  if any_marked then WatermarkTracker_update_combined t' else (t', None).

Definition WatermarkTracker_current_watermark (t : WatermarkTracker) : option Watermark :=
  publish (wt_combined_watermark t).
Definition WatermarkTracker_source_watermark (t : WatermarkTracker) (source_id : nat) : option Z :=
  wt_source_watermarks t !! source_id.
Definition WatermarkTracker_is_idle (t : WatermarkTracker) (source_id : nat) : bool :=
  default false (wt_idle_sources t !! source_id).
Definition WatermarkTracker_num_sources (t : WatermarkTracker) : nat :=
  length (wt_source_watermarks t).
Definition WatermarkTracker_active_source_count (t : WatermarkTracker) : nat :=
  length (filter (λ b, b = false) (wt_idle_sources t)).

(** ** Invariant *)

Definition tracker_inv (t : WatermarkTracker) : Prop :=
  length (wt_idle_sources t) = length (wt_source_watermarks t) ∧
  length (wt_last_activity t) = length (wt_source_watermarks t) ∧
  Forall is_wm (wt_source_watermarks t) ∧ is_wm (wt_combined_watermark t) ∧
  combined_spec (wt_entries t) <= wt_combined_watermark t.

Inductive tracker_op :=
| TUpdate (now : Instant) (source_id : nat) (watermark : Z)
| TMarkIdle (source_id : nat)
| TCheckIdle (clk : nat → Instant).

Definition tracker_step (t : WatermarkTracker) (op : tracker_op) : WatermarkTracker * option Watermark :=
  match op with
  | TUpdate now i w => WatermarkTracker_update_source now t i w
  | TMarkIdle i => WatermarkTracker_mark_idle t i
  | TCheckIdle clk => WatermarkTracker_check_idle_sources clk t
  end.

(** Watermarks reported by sources stay below the sentinel. *)
Definition tracker_op_ok (op : tracker_op) : Prop :=
  match op with TUpdate _ _ w => is_wm w | _ => True end.

(** ** One step *)

Lemma wt_entries_snd t :
  length (wt_idle_sources t) = length (wt_source_watermarks t) →
  snd <$> wt_entries t = wt_source_watermarks t.
Proof. intros. unfold wt_entries. apply snd_zip. lia. Qed.

Lemma wt_entries_wm t :
  length (wt_idle_sources t) = length (wt_source_watermarks t) →
  Forall is_wm (wt_source_watermarks t) → Forall (λ e, is_wm e.2) (wt_entries t).
Proof. intros Hlen Hall. rewrite <- (wt_entries_snd t Hlen) in Hall. by rewrite Forall_fmap in Hall. Qed.

Lemma update_combined_spec t :
  length (wt_idle_sources t) = length (wt_source_watermarks t) →
  Forall is_wm (wt_source_watermarks t) →
  WatermarkTracker_update_combined t =
    (if wt_combined_watermark t <? combined_spec (wt_entries t)
     then (mkTracker (wt_source_watermarks t) (combined_spec (wt_entries t)) (wt_idle_sources t)
             (wt_last_activity t) (wt_idle_timeout t),
           Some (Watermark_new (combined_spec (wt_entries t))))
     else (t, None)).
Proof.
  intros Hlen Hall. unfold WatermarkTracker_update_combined.
  pose proof (wt_entries_snd t Hlen) as Hsnd. pose proof (wt_entries_wm t Hlen Hall) as Hent.
  pose proof (active_min_combined (wt_entries t)) as Hc.
  rewrite Hsnd in Hc. destruct (active_min_loop _ _ _) as [m h].
  rewrite Hc by (eapply Forall_impl; [exact Hent|]; unfold is_wm; lia).
  pose proof (combined_spec_range _ Hent). unfold is_wm in *.
  rewrite Z.gtb_ltb. destruct (Z.eqb_spec (combined_spec (wt_entries t)) i64_MAX); [lia|].
  by rewrite andb_true_r.
Qed.

Lemma update_combined_step t :
  length (wt_idle_sources t) = length (wt_source_watermarks t) →
  length (wt_last_activity t) = length (wt_source_watermarks t) →
  Forall is_wm (wt_source_watermarks t) → is_wm (wt_combined_watermark t) →
  let '(t', o) := WatermarkTracker_update_combined t in
  tracker_inv t' ∧ wt_entries t' = wt_entries t ∧
  wt_combined_watermark t' = Z.max (wt_combined_watermark t) (combined_spec (wt_entries t)) ∧
  o = (if wt_combined_watermark t <? wt_combined_watermark t'
       then Some (Watermark_new (wt_combined_watermark t')) else None).
Proof.
  intros Hlen Hact Hall Hc. rewrite update_combined_spec by done.
  pose proof (wt_entries_wm t Hlen Hall) as Hent.
  pose proof (combined_spec_range _ Hent).
  destruct (Z.ltb_spec (wt_combined_watermark t) (combined_spec (wt_entries t))) as [Hlt|Hge];
    unfold tracker_inv; simpl; unfold wt_entries in *; simpl.
  - split_and!; try done; try lia. by destruct (Z.ltb_spec (wt_combined_watermark t)
      (combined_spec (zip (wt_idle_sources t) (wt_source_watermarks t)))); [|lia].
  - split_and!; try done; try lia. by rewrite Z.ltb_irrefl.
Qed.

(** The abstract tracker: per-source entries and the running maximum of the
    combined watermark of each state passed through. *)
Definition abs_entries_step (t : WatermarkTracker) (op : tracker_op) : list (bool * Z) :=
  match op with
  | TUpdate _ i w =>
      match wt_source_watermarks t !! i with
      | Some old => <[i := (false, Z.max old w)]> (wt_entries t)
      | None => wt_entries t
      end
  | TMarkIdle i =>
      match wt_source_watermarks t !! i with
      | Some old => <[i := (true, old)]> (wt_entries t)
      | None => wt_entries t
      end
  | TCheckIdle clk =>
      zip (WatermarkTracker_idle_scan clk (wt_idle_timeout t) (wt_idle_sources t)
             (wt_last_activity t)) (wt_source_watermarks t)
  end.

Lemma idle_at (t : WatermarkTracker) i w :
  length (wt_idle_sources t) = length (wt_source_watermarks t) →
  wt_source_watermarks t !! i = Some w → ∃ b, wt_idle_sources t !! i = Some b.
Proof.
  intros Hlen Hi%lookup_lt_Some. apply lookup_lt_is_Some. lia.
Qed.

Lemma wt_entries_update t i (b : bool) w old idle act tmo c :
  length (wt_idle_sources t) = length (wt_source_watermarks t) →
  wt_source_watermarks t !! i = Some old → idle = <[i := b]> (wt_idle_sources t) →
  wt_entries (mkTracker (<[i := w]> (wt_source_watermarks t)) c idle act tmo) =
    <[i := (b, w)]> (wt_entries t).
Proof.
  intros Hlen Hi ->. destruct (idle_at t i old Hlen Hi) as [b' Hb]. unfold wt_entries. simpl.
  rewrite (zip_insert_r _ _ _ b old); [|by rewrite list_lookup_insert_eq by
    (eapply lookup_lt_Some; eauto)|done].
  rewrite (zip_insert_l _ _ _ b' old) by done. by rewrite list_insert_insert_eq.
Qed.

Lemma idle_scan_length clk tmo idle act :
  length idle = length act → length (WatermarkTracker_idle_scan clk tmo idle act) = length idle.
Proof.
  intros. unfold WatermarkTracker_idle_scan. rewrite length_imap, length_zip_with. lia.
Qed.

(** What every operation guarantees about the state it leaves and the value it
    returns. *)
Definition step_ok (t : WatermarkTracker) (entries' : list (bool * Z))
    (r : WatermarkTracker * option Watermark) : Prop :=
  tracker_inv r.1 ∧ wt_entries r.1 = entries' ∧
  wt_combined_watermark r.1 = Z.max (wt_combined_watermark t) (combined_spec entries') ∧
  r.2 = (if wt_combined_watermark t <? wt_combined_watermark r.1
         then Some (Watermark_new (wt_combined_watermark r.1)) else None).

Lemma step_ok_combine t t1 entries' :
  length (wt_idle_sources t1) = length (wt_source_watermarks t1) →
  length (wt_last_activity t1) = length (wt_source_watermarks t1) →
  Forall is_wm (wt_source_watermarks t1) → is_wm (wt_combined_watermark t) →
  wt_combined_watermark t1 = wt_combined_watermark t → wt_entries t1 = entries' →
  step_ok t entries' (WatermarkTracker_update_combined t1).
Proof.
  intros Hl Ha Hall Hc Heq <-. rewrite <- Heq in Hc.
  pose proof (update_combined_step t1 Hl Ha Hall Hc) as H'.
  destruct (WatermarkTracker_update_combined t1). unfold step_ok. by rewrite <- Heq.
Qed.

Lemma step_ok_quiet t t1 entries' :
  tracker_inv t1 → wt_combined_watermark t1 = wt_combined_watermark t →
  wt_entries t1 = entries' → step_ok t entries' (t1, None).
Proof.
  intros Hinv Heq <-. unfold step_ok. simpl. rewrite Heq, Z.ltb_irrefl.
  destruct Hinv as (? & ? & ? & ? & Hle). split_and!; try done. rewrite Heq in Hle. lia.
Qed.

Lemma update_source_ok now t i w :
  tracker_inv t → is_wm w →
  step_ok t (abs_entries_step t (TUpdate now i w)) (WatermarkTracker_update_source now t i w).
Proof.
  intros Hinv Hw. pose proof Hinv as (Hl & Ha & Hall & Hc & Hle).
  unfold WatermarkTracker_update_source. simpl.
  destruct (wt_source_watermarks t !! i) as [old|] eqn:Hi; [|by apply step_ok_quiet].
  rewrite Z.gtb_ltb. destruct (Z.ltb_spec old w) as [Hlt|Hge].
  - apply step_ok_combine; simpl; rewrite ?length_insert; try done.
    + by apply Forall_insert.
    + rewrite (wt_entries_update t i false w old) by done. by rewrite Z.max_r by lia.
  - assert (Hent : wt_entries (mkTracker (wt_source_watermarks t) (wt_combined_watermark t)
        (<[i:=false]> (wt_idle_sources t)) (<[i:=now]> (wt_last_activity t)) (wt_idle_timeout t)) =
        <[i := (false, Z.max old w)]> (wt_entries t)).
    { rewrite Z.max_l by lia. rewrite <- (wt_entries_update t i false old old
        (<[i:=false]> (wt_idle_sources t)) (<[i:=now]> (wt_last_activity t)) (wt_idle_timeout t)
        (wt_combined_watermark t)) by done. by rewrite (list_insert_id (wt_source_watermarks t) i old Hi). }
    apply step_ok_quiet; [|done|done].
    unfold tracker_inv. rewrite Hent. simpl. rewrite !length_insert. split_and!; try done.
    destruct (idle_at t i old Hl Hi) as [b Hb].
    assert (Hbi : wt_entries t !! i = Some (b, old)).
    { unfold wt_entries. by rewrite lookup_zip_with, Hb, Hi. }
    destruct (list_insert_perm _ _ _ (false, old) Hbi) as (rest & Hp & Hp').
    rewrite Z.max_l by lia. rewrite (combined_spec_perm _ _ Hp').
    rewrite (combined_spec_perm _ _ Hp) in Hle.
    destruct b; [|done]. pose proof (combined_spec_activate old rest). lia.
Qed.

Lemma mark_idle_ok t i :
  tracker_inv t → step_ok t (abs_entries_step t (TMarkIdle i)) (WatermarkTracker_mark_idle t i).
Proof.
  intros Hinv. pose proof Hinv as (Hl & Ha & Hall & Hc & Hle).
  unfold WatermarkTracker_mark_idle. simpl. case_bool_decide as Hlen.
  - rewrite lookup_ge_None_2 by lia. by apply step_ok_quiet.
  - destruct (lookup_lt_is_Some_2 (wt_source_watermarks t) i ltac:(lia)) as [old Hi]. rewrite Hi.
    apply step_ok_combine; simpl; rewrite ?length_insert; try done.
    rewrite <- (wt_entries_update t i true old old (<[i:=true]> (wt_idle_sources t))
      (wt_last_activity t) (wt_idle_timeout t) (wt_combined_watermark t)) by done.
    by rewrite (list_insert_id (wt_source_watermarks t) i old Hi).
Qed.

Lemma check_idle_ok clk t :
  tracker_inv t →
  step_ok t (abs_entries_step t (TCheckIdle clk)) (WatermarkTracker_check_idle_sources clk t).
Proof.
  intros Hinv. pose proof Hinv as (Hl & Ha & Hall & Hc & Hle).
  unfold WatermarkTracker_check_idle_sources. case_bool_decide as Hsame; simpl.
  - rewrite Hsame. apply step_ok_quiet; [|done|done].
    unfold tracker_inv. simpl. by unfold wt_entries in *.
  - apply step_ok_combine; simpl; try done. by rewrite idle_scan_length by lia.
Qed.

Lemma tracker_step_ok t op :
  tracker_inv t → tracker_op_ok op → step_ok t (abs_entries_step t op) (tracker_step t op).
Proof.
  intros Hinv Hop. destruct op; simpl in *;
    eauto using update_source_ok, mark_idle_ok, check_idle_ok.
Qed.

Lemma tracker_new_inv now n tmo :
  tracker_inv (WatermarkTracker_with_idle_timeout now n tmo).
Proof.
  unfold tracker_inv, wt_entries. simpl. rewrite !length_replicate. split_and!; try done.
  - apply Forall_replicate. unfold is_wm. lia.
  - destruct (decide (n = 0%nat)) as [->|Hn]; [done|].
    apply combined_spec_lower_bound. apply list_elem_of_lookup. exists 0%nat.
    rewrite lookup_zip_with. destruct n; [done|]. done.
Qed.

(** Runs in which every reported watermark is below the sentinel. *)
Definition tracker_ops_ok (ops : list tracker_op) : Prop := Forall tracker_op_ok ops.

(** [C34]: the combined watermark implements its specification on every run:
    after any sequence of source updates, idle marks and idle checks, one more
    operation leaves the per-source entries the operation calls for, a combined
    watermark equal to the larger of the old one and the minimum over the active
    sources (maximum over all when none is active), and returns it exactly when
    it advanced. *)
Theorem tracker_refines_running_min now n tmo ops op :
  tracker_ops_ok ops → tracker_op_ok op →
  let t := (run tracker_step (WatermarkTracker_with_idle_timeout now n tmo) ops).1 in
  step_ok t (abs_entries_step t op) (tracker_step t op).
Proof.
  intros Hops Hop t. apply tracker_step_ok; [|done].
  unfold t. clear t. pose proof (tracker_new_inv now n tmo) as Hinv. revert Hinv.
  generalize (WatermarkTracker_with_idle_timeout now n tmo).
  induction Hops as [|o ops Ho _ IH]; intros t Hinv; simpl; [done|].
  apply IH. by apply (tracker_step_ok t o).
Qed.

Lemma tracker_refines_running_min_witness :
  let ops := [TUpdate 0 0%nat 1000; TUpdate 0 1%nat 2000; TUpdate 0 2%nat 500] in
  let t := (run tracker_step (WatermarkTracker_new 0 3) ops).1 in
  step_ok t (abs_entries_step t (TMarkIdle 2)) (tracker_step t (TMarkIdle 2)) ∧
  WatermarkTracker_current_watermark t = Some (Watermark_new 500) ∧
  (tracker_step t (TMarkIdle 2)).2 = Some (Watermark_new 1000).
Proof.
  intros ops t. split; [|split; reflexivity].
  apply (tracker_refines_running_min 0 3 (from_secs 30) ops (TMarkIdle 2)).
  - repeat constructor; vm_compute; intros F; discriminate F.
  - exact I.
Defined.

Lemma tracker_step_level t op :
  match (tracker_step t op).2 with
  | Some w => wt_combined_watermark t < wm_ts w ∧
              wt_combined_watermark (tracker_step t op).1 = wm_ts w
  | None => wt_combined_watermark (tracker_step t op).1 = wt_combined_watermark t
  end.
Proof.
  assert (H : ∀ t1, wt_combined_watermark t1 = wt_combined_watermark t →
    match (WatermarkTracker_update_combined t1).2 with
    | Some w => wt_combined_watermark t < wm_ts w ∧
                wt_combined_watermark (WatermarkTracker_update_combined t1).1 = wm_ts w
    | None => wt_combined_watermark (WatermarkTracker_update_combined t1).1 = wt_combined_watermark t
    end).
  { intros t1 <-. unfold WatermarkTracker_update_combined.
    destruct (active_min_loop _ _ _) as [m h].
    generalize (if h then m else default i64_MIN (list_max (wt_source_watermarks t1))) as k.
    intros k. destruct ((k >? _) && _) eqn:E; simpl; [|done].
    apply andb_true_iff in E as [E _]. rewrite Z.gtb_ltb, Z.ltb_lt in E. done. }
  destruct op as [now i w|i|clk]; simpl.
  - unfold WatermarkTracker_update_source. destruct (wt_source_watermarks t !! i); [|done].
    destruct (w >? z); [by apply H|done].
  - unfold WatermarkTracker_mark_idle. case_bool_decide; [done|by apply H].
  - unfold WatermarkTracker_check_idle_sources. case_bool_decide; simpl; [done|by apply H].
Qed.

#[export] Instance tracker_advancing :
  Advancing tracker_step wm_ts wt_combined_watermark (λ _, True).
Proof.
  split; intros t op; pose proof (tracker_step_level t op) as H; intros; [done|..];
    destruct (tracker_step t op); simplify_eq/=; [done|lia].
Qed.

(** On every run, whatever is reported and whichever sources go idle,
    the tracker emits a strictly increasing sequence, and the published combined
    watermark is the last emission ([None] before the first). *)
Theorem tracker_emissions_increase now n ops :
  let r := run tracker_step (WatermarkTracker_new now n) ops in
  StronglySorted Z.lt (wm_ts <$> r.2) ∧
  WatermarkTracker_current_watermark r.1 = last r.2.
Proof.
  intros r. split.
  { by apply (run_advancing tracker_step wm_ts wt_combined_watermark (λ _, True)). }
  assert (H : ∀ ops t, i64_MIN <= wt_combined_watermark t →
    WatermarkTracker_current_watermark (run tracker_step t ops).1 =
      from_option Some (WatermarkTracker_current_watermark t) (last (run tracker_step t ops).2)).
  { clear. induction ops as [|op ops IH]; intros t Ht; simpl; [done|].
    pose proof (tracker_step_level t op) as Hl. rewrite IH by (destruct (tracker_step t op).2; lia).
    destruct (tracker_step t op) as [t' [w|]]; simpl in *.
    - destruct (last (run tracker_step t' ops).2) as [w'|] eqn:E.
      + rewrite last_cons, E. done.
      + rewrite last_cons, E. simpl. destruct Hl as [Hlt Hc].
        unfold WatermarkTracker_current_watermark, publish. rewrite Hc.
        destruct (Z.eqb_spec (wm_ts w) i64_MIN); [lia|]. by destruct w.
    - unfold WatermarkTracker_current_watermark. by rewrite Hl. }
  unfold r. rewrite H by (simpl; lia). simpl. by destruct (last _).
Qed.
