(* ===== verification/PartitionedWm.v ===== *)
(** * Per-partition watermark tracking

    Models [crates/laminar-core/src/time/partitioned_watermark.rs]:
    [PartitionedWatermarkTracker] (one watermark per Kafka partition, with
    rebalancing, idleness and metrics), [CoreWatermarkState] (the partitions of
    one core, kept in parallel vectors) and [GlobalWatermarkCollector] (the
    minimum over cores). [FxHashMap] is a [gmap]; every iteration in this file
    folds a commutative operation, so its order does not matter. *)

From S2P Require Import Prelude TimeCore.

(** ** Data *)

Record PartitionId := mkPartitionId { pid_source_id : nat; pid_partition : nat }.

#[export] Instance PartitionId_eq_dec : EqDecision PartitionId.
Proof. solve_decision. Defined.
#[export] Instance PartitionId_countable : Countable PartitionId.
Proof.
  refine (inj_countable' (λ p, (pid_source_id p, pid_partition p))
            (λ q, mkPartitionId q.1 q.2) _). by intros [].
Defined.

Record PartitionWatermarkState := mkPartitionState {
  pw_watermark : Z;
  pw_last_event_time : Z;
  pw_last_activity : Instant;
  pw_is_idle : bool;
  pw_assigned_core : option nat;
}.

Definition PartitionWatermarkState_new (now : Instant) : PartitionWatermarkState :=
  mkPartitionState i64_MIN i64_MIN now false None.
Definition PartitionWatermarkState_with_core (now : Instant) (core_id : nat)
    : PartitionWatermarkState :=
  mkPartitionState i64_MIN i64_MIN now false (Some core_id).

Record PartitionedWatermarkMetrics := mkPartitionedMetrics {
  pm_total_partitions : Z;
  pm_active_partitions : Z;
  pm_idle_partitions : Z;
  pm_watermark_advances : Z;
  pm_rebalances : Z;
}.

Definition PartitionedWatermarkMetrics_new : PartitionedWatermarkMetrics :=
  mkPartitionedMetrics 0 0 0 0 0.

Inductive WatermarkError :=
| UnknownPartition (p : PartitionId)
| SourceNotFound (source_id : nat)
| InvalidPartition (source_id partition max_partition : nat)
| PartitionExists (p : PartitionId).

Record PartitionedWatermarkTracker := mkPartitionedTracker {
  pt_partitions : gmap PartitionId PartitionWatermarkState;
  pt_source_partition_counts : list nat;
  pt_combined_watermark : Z;
  pt_idle_timeout : Duration;
  pt_metrics : PartitionedWatermarkMetrics;
}.

Definition PartitionedWatermarkTracker_with_idle_timeout (idle_timeout : Duration)
    : PartitionedWatermarkTracker :=
  mkPartitionedTracker ∅ [] i64_MIN idle_timeout PartitionedWatermarkMetrics_new.
Definition PartitionedWatermarkTracker_new : PartitionedWatermarkTracker :=
  mkPartitionedTracker ∅ [] i64_MIN (from_secs 30) PartitionedWatermarkMetrics_new.

(** Field updates. *)
Definition with_partitions (ps : gmap PartitionId PartitionWatermarkState)
    (t : PartitionedWatermarkTracker) : PartitionedWatermarkTracker :=
  mkPartitionedTracker ps (pt_source_partition_counts t) (pt_combined_watermark t)
    (pt_idle_timeout t) (pt_metrics t).
Definition with_counts (cs : list nat) (t : PartitionedWatermarkTracker)
    : PartitionedWatermarkTracker :=
  mkPartitionedTracker (pt_partitions t) cs (pt_combined_watermark t) (pt_idle_timeout t)
    (pt_metrics t).
Definition with_combined (w : Z) (t : PartitionedWatermarkTracker) : PartitionedWatermarkTracker :=
  mkPartitionedTracker (pt_partitions t) (pt_source_partition_counts t) w (pt_idle_timeout t)
    (pt_metrics t).
Definition with_metrics (m : PartitionedWatermarkMetrics) (t : PartitionedWatermarkTracker)
    : PartitionedWatermarkTracker :=
  mkPartitionedTracker (pt_partitions t) (pt_source_partition_counts t) (pt_combined_watermark t)
    (pt_idle_timeout t) m.

Definition count_idle (ps : gmap PartitionId PartitionWatermarkState) : nat :=
  length (filter (λ kv, pw_is_idle kv.2 = true) (map_to_list ps)).

(** ** Private helpers of the tracker *)

Definition PartitionedWatermarkTracker_update_metrics (t : PartitionedWatermarkTracker)
    : PartitionedWatermarkTracker :=
  let total := Z.of_nat (size (pt_partitions t)) in
  let idle := Z.of_nat (count_idle (pt_partitions t)) in
  with_metrics (mkPartitionedMetrics total (u64_sub total idle) idle
                  (pm_watermark_advances (pt_metrics t)) (pm_rebalances (pt_metrics t))) t.

(** Idle flag and watermark of each partition. *)
Definition pt_entries (ps : gmap PartitionId PartitionWatermarkState) : list (bool * Z) :=
  (λ kv, (pw_is_idle kv.2, pw_watermark kv.2)) <$> map_to_list ps.

Definition PartitionedWatermarkTracker_calculate_combined (t : PartitionedWatermarkTracker) : Z :=
  let '(min_watermark, has_active) := active_min_loop (pt_entries (pt_partitions t)) i64_MAX false in
  if has_active then min_watermark
  else default i64_MIN (list_max (snd <$> pt_entries (pt_partitions t))).

Definition PartitionedWatermarkTracker_try_advance_combined (t : PartitionedWatermarkTracker)
    : PartitionedWatermarkTracker * option Watermark :=
  let new_combined := PartitionedWatermarkTracker_calculate_combined t in
  if (new_combined >? pt_combined_watermark t) && negb (new_combined =? i64_MAX) then
    let m := pt_metrics t in
    (with_metrics (mkPartitionedMetrics (pm_total_partitions m) (pm_active_partitions m)
                     (pm_idle_partitions m) (u64_add (pm_watermark_advances m) 1) (pm_rebalances m))
       (with_combined new_combined t),
     Some (Watermark_new new_combined))
  else (t, None).

Definition PartitionedWatermarkTracker_recalculate_combined (t : PartitionedWatermarkTracker)
    : PartitionedWatermarkTracker :=
  let new_combined := PartitionedWatermarkTracker_calculate_combined t in
  if new_combined =? i64_MAX then t else with_combined new_combined t.

(** [while counts.len() <= source_id { counts.push(0) }]. *)
Definition expand_counts (counts : list nat) (source_id : nat) : list nat :=
  counts ++ replicate (S source_id - length counts) 0%nat.

Definition bump_rebalances (t : PartitionedWatermarkTracker) : PartitionedWatermarkTracker :=
  let m := pt_metrics t in
  with_metrics (mkPartitionedMetrics (pm_total_partitions m) (pm_active_partitions m)
                  (pm_idle_partitions m) (pm_watermark_advances m)
                  (u64_add (pm_rebalances m) 1)) t.

(** [active += 1; idle = idle.saturating_sub(1)] and its mirror image. *)
Definition metrics_activate (m : PartitionedWatermarkMetrics) : PartitionedWatermarkMetrics :=
  mkPartitionedMetrics (pm_total_partitions m) (u64_add (pm_active_partitions m) 1)
    (u64_sat_sub (pm_idle_partitions m) 1) (pm_watermark_advances m) (pm_rebalances m).
Definition metrics_deactivate (m : PartitionedWatermarkMetrics) : PartitionedWatermarkMetrics :=
  mkPartitionedMetrics (pm_total_partitions m) (u64_sat_sub (pm_active_partitions m) 1)
    (u64_add (pm_idle_partitions m) 1) (pm_watermark_advances m) (pm_rebalances m).

(** ** Operations *)

(** [clk i] is the reading made when partition [i] is created; [partition as u32]
    wraps. *)
Definition PartitionedWatermarkTracker_register_source (clk : nat → Instant)
    (t : PartitionedWatermarkTracker) (source_id num_partitions : nat)
    : PartitionedWatermarkTracker :=
  let counts := <[source_id := num_partitions]>
                  (expand_counts (pt_source_partition_counts t) source_id) in
  let ps := foldl (λ ps i,
              let pid := mkPartitionId source_id (Z.to_nat (Z.of_nat i mod 4294967296)) in
              match ps !! pid with
              | Some _ => ps
              | None => <[pid := PartitionWatermarkState_new (clk i)]> ps
              end) (pt_partitions t) (seq 0 num_partitions) in
  PartitionedWatermarkTracker_update_metrics (with_partitions ps (with_counts counts t)).

Definition PartitionedWatermarkTracker_add_partition (now : Instant)
    (t : PartitionedWatermarkTracker) (p : PartitionId)
    : PartitionedWatermarkTracker * (unit + WatermarkError) :=
  match pt_partitions t !! p with
  | Some _ => (t, inr (PartitionExists p))
  | None =>
      let counts := expand_counts (pt_source_partition_counts t) (pid_source_id p) in
      let current_count := counts !!! pid_source_id p in
      let counts := if bool_decide (current_count <= pid_partition p)%nat
                    then <[pid_source_id p := S (pid_partition p)]> counts else counts in
      let ps := <[p := PartitionWatermarkState_new now]> (pt_partitions t) in
      (PartitionedWatermarkTracker_update_metrics
         (bump_rebalances (with_partitions ps (with_counts counts t))), inl ())
  end.

Definition PartitionedWatermarkTracker_remove_partition (t : PartitionedWatermarkTracker)
    (p : PartitionId) : PartitionedWatermarkTracker * option PartitionWatermarkState :=
  match pt_partitions t !! p with
  | None => (t, None)
  | Some state =>
      (PartitionedWatermarkTracker_recalculate_combined
         (PartitionedWatermarkTracker_update_metrics
            (bump_rebalances (with_partitions (delete p (pt_partitions t)) t))), Some state)
  end.

Definition PartitionedWatermarkTracker_update_partition (now : Instant)
    (t : PartitionedWatermarkTracker) (p : PartitionId) (watermark : Z)
    : PartitionedWatermarkTracker * option Watermark :=
  match pt_partitions t !! p with
  | None => (t, None)
  | Some s =>
      let m := if pw_is_idle s then metrics_activate (pt_metrics t) else pt_metrics t in
      let advances := watermark >? pw_watermark s in
      let s' := if advances
                then mkPartitionState watermark watermark now false (pw_assigned_core s)
                else mkPartitionState (pw_watermark s) (pw_last_event_time s) now false
                       (pw_assigned_core s) in
      let t' := with_metrics m (with_partitions (<[p := s']> (pt_partitions t)) t) in
      if advances then PartitionedWatermarkTracker_try_advance_combined t' else (t', None)
  end.

Definition PartitionedWatermarkTracker_update_partition_from_event (now : Instant)
    (t : PartitionedWatermarkTracker) (p : PartitionId) (event_time max_lateness : Z)
    : PartitionedWatermarkTracker * option Watermark :=
  PartitionedWatermarkTracker_update_partition now t p (event_time ⊟ max_lateness).

Definition set_idle (b : bool) (s : PartitionWatermarkState) : PartitionWatermarkState :=
  mkPartitionState (pw_watermark s) (pw_last_event_time s) (pw_last_activity s) b
    (pw_assigned_core s).

Definition PartitionedWatermarkTracker_mark_partition_idle (t : PartitionedWatermarkTracker)
    (p : PartitionId) : PartitionedWatermarkTracker * option Watermark :=
  match pt_partitions t !! p with
  | None => (t, None)
  | Some s =>
      if pw_is_idle s then (t, None)
      else PartitionedWatermarkTracker_try_advance_combined
             (with_metrics (metrics_deactivate (pt_metrics t))
                (with_partitions (<[p := set_idle true s]> (pt_partitions t)) t))
  end.

Definition PartitionedWatermarkTracker_mark_partition_active (now : Instant)
    (t : PartitionedWatermarkTracker) (p : PartitionId) : PartitionedWatermarkTracker :=
  match pt_partitions t !! p with
  | None => t
  | Some s =>
      if pw_is_idle s then
        with_metrics (metrics_activate (pt_metrics t))
          (with_partitions
             (<[p := mkPartitionState (pw_watermark s) (pw_last_event_time s) now false
                       (pw_assigned_core s)]> (pt_partitions t)) t)
      else t
  end.

(** The marking loop; [clk p] is the reading made when [p] is examined. *)
Definition idle_scan (clk : PartitionId → Instant) (timeout : Duration)
    (ps : gmap PartitionId PartitionWatermarkState) : gmap PartitionId PartitionWatermarkState :=
  map_imap (λ p s, Some (if negb (pw_is_idle s) && (elapsed (clk p) (pw_last_activity s) >=? timeout)
                         then set_idle true s else s)) ps.

Definition PartitionedWatermarkTracker_check_idle_partitions (clk : PartitionId → Instant)
    (t : PartitionedWatermarkTracker) : PartitionedWatermarkTracker * option Watermark :=
  let any_marked := negb (bool_decide (
    map_Forall (λ p s, negb (pw_is_idle s) &&
                  (elapsed (clk p) (pw_last_activity s) >=? pt_idle_timeout t) = false)
      (pt_partitions t))) in
  let t' := with_partitions (idle_scan clk (pt_idle_timeout t) (pt_partitions t)) t in
  if any_marked
  then PartitionedWatermarkTracker_try_advance_combined
         (PartitionedWatermarkTracker_update_metrics t')
  else (t', None).

(** ** Queries *)

Definition PartitionedWatermarkTracker_current_watermark (t : PartitionedWatermarkTracker)
    : option Watermark := publish (pt_combined_watermark t).
Definition PartitionedWatermarkTracker_partition_watermark (t : PartitionedWatermarkTracker)
    (p : PartitionId) : option Z := pw_watermark <$> pt_partitions t !! p.

Definition PartitionedWatermarkTracker_source_watermark (t : PartitionedWatermarkTracker)
    (source_id : nat) : option Z :=
  let own := filter (λ kv, pid_source_id kv.1 = source_id) (pt_partitions t) in
  let '(min_watermark, found) := active_min_loop (pt_entries own) i64_MAX false in
  if found && negb (min_watermark =? i64_MAX) then Some min_watermark else None.

Definition PartitionedWatermarkTracker_is_partition_idle (t : PartitionedWatermarkTracker)
    (p : PartitionId) : bool := from_option pw_is_idle false (pt_partitions t !! p).
Definition PartitionedWatermarkTracker_active_partition_count (t : PartitionedWatermarkTracker)
    (source_id : nat) : nat :=
  size (filter (λ kv, pid_source_id kv.1 = source_id ∧ pw_is_idle kv.2 = false) (pt_partitions t)).
Definition PartitionedWatermarkTracker_partition_count (t : PartitionedWatermarkTracker)
    (source_id : nat) : nat := default 0%nat (pt_source_partition_counts t !! source_id).

Definition PartitionedWatermarkTracker_assign_partition_to_core (t : PartitionedWatermarkTracker)
    (p : PartitionId) (core_id : nat) : PartitionedWatermarkTracker :=
  match pt_partitions t !! p with
  | Some s => with_partitions
      (<[p := mkPartitionState (pw_watermark s) (pw_last_event_time s) (pw_last_activity s)
                (pw_is_idle s) (Some core_id)]> (pt_partitions t)) t
  | None => t
  end.
Definition PartitionedWatermarkTracker_partition_core (t : PartitionedWatermarkTracker)
    (p : PartitionId) : option nat := s ← pt_partitions t !! p; pw_assigned_core s.
Definition PartitionedWatermarkTracker_partitions_for_core (t : PartitionedWatermarkTracker)
    (core_id : nat) : list PartitionId :=
  fst <$> map_to_list (filter (λ kv, pw_assigned_core kv.2 = Some core_id) (pt_partitions t)).

(** ** Per-core state *)

Record CoreWatermarkState := mkCoreState {
  cw_assigned_partitions : list PartitionId;
  cw_partition_watermarks : list Z;
  cw_local_watermark : Z;
  cw_idle_status : list bool;
  cw_core_id : nat;
}.

Definition CoreWatermarkState_new (core_id : nat) : CoreWatermarkState :=
  mkCoreState [] [] i64_MIN [] core_id.
Definition CoreWatermarkState_with_partitions (core_id : nat) (ps : list PartitionId)
    : CoreWatermarkState :=
  mkCoreState ps (replicate (length ps) i64_MIN) i64_MIN (replicate (length ps) false) core_id.

(** [iter().position(|p| *p == partition)]. *)
Fixpoint position (p : PartitionId) (l : list PartitionId) : option nat :=
  match l with
  | [] => None
  | q :: l => if decide (q = p) then Some 0%nat else S <$> position p l
  end.

Definition CoreWatermarkState_calculate_local (c : CoreWatermarkState) : Z :=
  let '(min, has_active) :=
    active_min_loop (zip (cw_idle_status c) (cw_partition_watermarks c)) i64_MAX false in
  if negb has_active then default i64_MIN (list_max (cw_partition_watermarks c))
  else if min =? i64_MAX then i64_MIN else min.

Definition CoreWatermarkState_recalculate_local (c : CoreWatermarkState) : CoreWatermarkState :=
  mkCoreState (cw_assigned_partitions c) (cw_partition_watermarks c)
    (CoreWatermarkState_calculate_local c) (cw_idle_status c) (cw_core_id c).

(** [if new_local > self.local_watermark { ... }], shared by the two updates. *)
Definition core_try_advance (c : CoreWatermarkState) : CoreWatermarkState * option Z :=
  let new_local := CoreWatermarkState_calculate_local c in
  if new_local >? cw_local_watermark c
  then (mkCoreState (cw_assigned_partitions c) (cw_partition_watermarks c) new_local
          (cw_idle_status c) (cw_core_id c), Some new_local)
  else (c, None).

Definition CoreWatermarkState_assign_partition (c : CoreWatermarkState) (p : PartitionId)
    : CoreWatermarkState :=
  if bool_decide (p ∈ cw_assigned_partitions c) then c
  else mkCoreState (cw_assigned_partitions c ++ [p]) (cw_partition_watermarks c ++ [i64_MIN])
         (cw_local_watermark c) (cw_idle_status c ++ [false]) (cw_core_id c).

Definition CoreWatermarkState_remove_partition (c : CoreWatermarkState) (p : PartitionId)
    : CoreWatermarkState * bool :=
  match position p (cw_assigned_partitions c) with
  | Some idx =>
      (CoreWatermarkState_recalculate_local
         (mkCoreState (swap_remove idx (cw_assigned_partitions c))
            (swap_remove idx (cw_partition_watermarks c)) (cw_local_watermark c)
            (swap_remove idx (cw_idle_status c)) (cw_core_id c)), true)
  | None => (c, false)
  end.

Definition CoreWatermarkState_update_partition (c : CoreWatermarkState) (p : PartitionId)
    (watermark : Z) : CoreWatermarkState * option Z :=
  match position p (cw_assigned_partitions c) with
  | Some idx =>
      if watermark >? cw_partition_watermarks c !!! idx then
        core_try_advance
          (mkCoreState (cw_assigned_partitions c)
             (<[idx := watermark]> (cw_partition_watermarks c)) (cw_local_watermark c)
             (<[idx := false]> (cw_idle_status c)) (cw_core_id c))
      else (c, None)
  | None => (c, None)
  end.

Definition CoreWatermarkState_mark_idle (c : CoreWatermarkState) (p : PartitionId)
    : CoreWatermarkState * option Z :=
  match position p (cw_assigned_partitions c) with
  | Some idx =>
      if (cw_idle_status c !!! idx : bool) then (c, None)
      else core_try_advance
             (mkCoreState (cw_assigned_partitions c) (cw_partition_watermarks c)
                (cw_local_watermark c) (<[idx := true]> (cw_idle_status c)) (cw_core_id c))
  | None => (c, None)
  end.

(** ** The collector *)

Record GlobalWatermarkCollector := mkCollector {
  gc_core_watermarks : list Z;
  gc_global_watermark : Z;
}.

Definition GlobalWatermarkCollector_new (num_cores : nat) : GlobalWatermarkCollector :=
  mkCollector (replicate num_cores i64_MIN) i64_MIN.

Definition GlobalWatermarkCollector_update_core (g : GlobalWatermarkCollector) (core_id : nat)
    (watermark : Z) : GlobalWatermarkCollector * option Watermark :=
  if bool_decide (core_id < length (gc_core_watermarks g))%nat then
    let cores := <[core_id := watermark]> (gc_core_watermarks g) in
    let new_global := default i64_MIN (list_min cores) in
    if (new_global >? gc_global_watermark g) && negb (new_global =? i64_MIN)
    then (mkCollector cores new_global, Some (Watermark_new new_global))
    else (mkCollector cores (gc_global_watermark g), None)
  else (g, None).

Definition GlobalWatermarkCollector_global_watermark (g : GlobalWatermarkCollector)
    : option Watermark := publish (gc_global_watermark g).
Definition GlobalWatermarkCollector_core_watermark (g : GlobalWatermarkCollector) (core_id : nat)
    : option Z := gc_core_watermarks g !! core_id.

(** ** Invariant of the partitioned tracker *)

(** The metrics count exactly the partitions held. *)
Definition metrics_exact (m : PartitionedWatermarkMetrics)
    (ps : gmap PartitionId PartitionWatermarkState) : Prop :=
  pm_total_partitions m = Z.of_nat (size ps) ∧
  pm_idle_partitions m = Z.of_nat (count_idle ps) ∧
  pm_active_partitions m = Z.of_nat (size ps) - Z.of_nat (count_idle ps).

Definition partitions_ok (ps : gmap PartitionId PartitionWatermarkState) : Prop :=
  Z.of_nat (size ps) < u64_MOD ∧ Forall (λ e, is_wm e.2) (pt_entries ps).

Definition pt_inv (t : PartitionedWatermarkTracker) : Prop :=
  metrics_exact (pt_metrics t) (pt_partitions t) ∧ partitions_ok (pt_partitions t) ∧
  is_wm (pt_combined_watermark t) ∧
  combined_spec (pt_entries (pt_partitions t)) <= pt_combined_watermark t.

Lemma map_to_list_insert_delete (ps : gmap PartitionId PartitionWatermarkState) p (s' : PartitionWatermarkState) :
  map_to_list (<[p := s']> ps) ≡ₚ (p, s') :: map_to_list (delete p ps).
Proof. rewrite <- insert_delete_eq. apply map_to_list_insert. apply lookup_delete_eq. Qed.

Lemma map_to_list_lookup_delete (ps : gmap PartitionId PartitionWatermarkState) p (s : PartitionWatermarkState) :
  ps !! p = Some s → map_to_list ps ≡ₚ (p, s) :: map_to_list (delete p ps).
Proof. intros Hp. symmetry. by apply map_to_list_delete. Qed.

Lemma pt_entries_insert ps p s' :
  pt_entries (<[p := s']> ps) ≡ₚ (pw_is_idle s', pw_watermark s') :: pt_entries (delete p ps).
Proof. unfold pt_entries. by rewrite map_to_list_insert_delete. Qed.

Lemma pt_entries_lookup ps p s :
  ps !! p = Some s → pt_entries ps ≡ₚ (pw_is_idle s, pw_watermark s) :: pt_entries (delete p ps).
Proof. intros Hp. unfold pt_entries. by rewrite (map_to_list_lookup_delete _ _ _ Hp). Qed.

Lemma filter_length_cons {A} (P : A → Prop) `{!∀ x, Decision (P x)} x l :
  length (filter P (x :: l)) = ((if decide (P x) then 1 else 0) + length (filter P l))%nat.
Proof. rewrite filter_cons. by case_decide. Qed.

Lemma count_idle_insert ps p s' :
  count_idle (<[p := s']> ps) = ((if pw_is_idle s' then 1 else 0) + count_idle (delete p ps))%nat.
Proof.
  unfold count_idle. rewrite map_to_list_insert_delete, filter_length_cons. simpl.
  by destruct (pw_is_idle s').
Qed.

Lemma count_idle_lookup ps p s :
  ps !! p = Some s →
  count_idle ps = ((if pw_is_idle s then 1 else 0) + count_idle (delete p ps))%nat.
Proof.
  intros Hp. unfold count_idle at 1. rewrite (map_to_list_lookup_delete _ _ _ Hp).
  rewrite filter_length_cons. simpl. by destruct (pw_is_idle s).
Qed.

Lemma count_idle_le_size ps : (count_idle ps <= size ps)%nat.
Proof.
  unfold count_idle. rewrite <- length_map_to_list. apply length_filter.
Qed.

Lemma partition_wm ps p s : partitions_ok ps → ps !! p = Some s → is_wm (pw_watermark s).
Proof.
  intros [_ Hall] Hp. rewrite (pt_entries_lookup _ _ _ Hp) in Hall. by inversion Hall.
Qed.

Lemma calculate_combined_spec t :
  partitions_ok (pt_partitions t) →
  PartitionedWatermarkTracker_calculate_combined t = combined_spec (pt_entries (pt_partitions t)) ∧
  is_wm (combined_spec (pt_entries (pt_partitions t))).
Proof.
  intros [_ Hall]. split; [|by apply combined_spec_range].
  apply active_min_combined. eapply Forall_impl; [exact Hall|]. unfold is_wm. lia.
Qed.

(** What an operation that may advance the combined watermark guarantees. *)
Definition advance_ok (t : PartitionedWatermarkTracker)
    (r : PartitionedWatermarkTracker * option Watermark) : Prop :=
  pt_inv r.1 ∧
  pt_combined_watermark r.1 =
    Z.max (pt_combined_watermark t) (combined_spec (pt_entries (pt_partitions r.1))) ∧
  r.2 = (if pt_combined_watermark t <? pt_combined_watermark r.1
         then Some (Watermark_new (pt_combined_watermark r.1)) else None).

Lemma try_advance_ok t t1 :
  metrics_exact (pt_metrics t1) (pt_partitions t1) → partitions_ok (pt_partitions t1) →
  is_wm (pt_combined_watermark t) → pt_combined_watermark t1 = pt_combined_watermark t →
  advance_ok t (PartitionedWatermarkTracker_try_advance_combined t1) ∧
  pt_partitions (PartitionedWatermarkTracker_try_advance_combined t1).1 = pt_partitions t1.
Proof.
  intros Hm Hok Hc Heq. destruct (calculate_combined_spec t1 Hok) as [Hcs Hwm].
  unfold PartitionedWatermarkTracker_try_advance_combined. rewrite Hcs, Heq.
  destruct (Z.eqb_spec (combined_spec (pt_entries (pt_partitions t1))) i64_MAX).
  { unfold is_wm in Hwm. lia. }
  rewrite andb_true_r, Z.gtb_ltb. unfold advance_ok, pt_inv.
  destruct (Z.ltb_spec (pt_combined_watermark t) (combined_spec (pt_entries (pt_partitions t1))))
    as [Hlt|Hge]; simpl; rewrite ?Heq.
  - split; [|done]. split_and!; try done; try lia.
    by destruct (Z.ltb_spec (pt_combined_watermark t)
      (combined_spec (pt_entries (pt_partitions t1)))); [|lia].
  - split; [|done]. rewrite Z.ltb_irrefl. split_and!; try done; lia.
Qed.

Lemma quiet_ok t t1 :
  metrics_exact (pt_metrics t1) (pt_partitions t1) → partitions_ok (pt_partitions t1) →
  is_wm (pt_combined_watermark t) → pt_combined_watermark t1 = pt_combined_watermark t →
  combined_spec (pt_entries (pt_partitions t1)) <= pt_combined_watermark t →
  advance_ok t (t1, None).
Proof.
  intros Hm Hok Hc Heq Hle. unfold advance_ok, pt_inv. simpl. rewrite Heq, Z.ltb_irrefl.
  split_and!; try done; lia.
Qed.

Lemma update_metrics_exact t :
  Z.of_nat (size (pt_partitions t)) < u64_MOD →
  metrics_exact (pt_metrics (PartitionedWatermarkTracker_update_metrics t)) (pt_partitions t).
Proof.
  intros Hsz. pose proof (count_idle_le_size (pt_partitions t)). unfold metrics_exact. simpl.
  split_and!; [done|done|]. unfold u64_sub. apply wrap_u64_small. int_lia.
Qed.

Lemma partitions_ok_insert ps p s s' :
  ps !! p = Some s → partitions_ok ps → is_wm (pw_watermark s') → partitions_ok (<[p := s']> ps).
Proof.
  intros Hp [Hsz Hall] Hw. split.
  - rewrite map_size_insert_Some; eauto.
  - rewrite pt_entries_insert. rewrite (pt_entries_lookup _ _ _ Hp) in Hall.
    inversion Hall; subst. by constructor.
Qed.

(** Replacing the state of a held partition keeps the metrics exact when they
    are adjusted by the change of its idle flag. *)
Lemma metrics_exact_insert m ps p s s' :
  ps !! p = Some s → Z.of_nat (size ps) < u64_MOD → metrics_exact m ps →
  metrics_exact (match pw_is_idle s, pw_is_idle s' with
                 | true, false => metrics_activate m
                 | false, true => metrics_deactivate m
                 | _, _ => m end) (<[p := s']> ps).
Proof.
  intros Hp Hsz (Ht & Hi & Ha). pose proof (count_idle_lookup ps p s Hp) as Hcl.
  pose proof (count_idle_insert ps p s') as Hci. pose proof (count_idle_le_size ps).
  assert (Hs' : size (<[p := s']> ps) = size ps) by (apply map_size_insert_Some; eauto).
  pose proof (count_idle_le_size (<[p := s']> ps)). unfold metrics_exact. rewrite Hs'.
  destruct (pw_is_idle s), (pw_is_idle s'); simpl; rewrite ?Ht, ?Hi, ?Ha; unfold u64_add, u64_sat_sub;
    rewrite ?wrap_u64_small by int_lia; split_and!; lia.
Qed.

(** ** Every operation preserves the invariant *)

Inductive pt_op :=
| PRegister (clk : nat → Instant) (source_id num_partitions : nat)
| PAdd (now : Instant) (p : PartitionId)
| PRemove (p : PartitionId)
| PUpdate (now : Instant) (p : PartitionId) (watermark : Z)
| PMarkIdle (p : PartitionId)
| PMarkActive (now : Instant) (p : PartitionId)
| PCheckIdle (clk : PartitionId → Instant)
| PAssignCore (p : PartitionId) (core_id : nat).

Definition pt_step (t : PartitionedWatermarkTracker) (op : pt_op)
    : PartitionedWatermarkTracker * option Watermark :=
  match op with
  | PRegister clk s n => (PartitionedWatermarkTracker_register_source clk t s n, None)
  | PAdd now p => ((PartitionedWatermarkTracker_add_partition now t p).1, None)
  | PRemove p => ((PartitionedWatermarkTracker_remove_partition t p).1, None)
  | PUpdate now p w => PartitionedWatermarkTracker_update_partition now t p w
  | PMarkIdle p => PartitionedWatermarkTracker_mark_partition_idle t p
  | PMarkActive now p => (PartitionedWatermarkTracker_mark_partition_active now t p, None)
  | PCheckIdle clk => PartitionedWatermarkTracker_check_idle_partitions clk t
  | PAssignCore p c => (PartitionedWatermarkTracker_assign_partition_to_core t p c, None)
  end.

(** Reported watermarks are below the sentinel, and the map fits in memory. *)
Definition pt_op_ok (t : PartitionedWatermarkTracker) (op : pt_op) : Prop :=
  (match op with PUpdate _ _ w => is_wm w | _ => True end) ∧
  Z.of_nat (size (pt_partitions (pt_step t op).1)) < u64_MOD.

Lemma is_wm_min : is_wm i64_MIN.
Proof. unfold is_wm. lia. Qed.

(** Inserting a fresh partition keeps the watermarks in range and can only
    lower the combined watermark. *)
Lemma fresh_partition_entries ps p now c :
  ps !! p = None → i64_MIN <= c →
  Forall (λ e, is_wm e.2) (pt_entries ps) → combined_spec (pt_entries ps) <= c →
  let ps' := <[p := PartitionWatermarkState_new now]> ps in
  Forall (λ e, is_wm e.2) (pt_entries ps') ∧ combined_spec (pt_entries ps') <= c.
Proof.
  intros Hp Hc Hall Hle ps'. pose proof (pt_entries_insert ps p (PartitionWatermarkState_new now)) as He.
  rewrite delete_id in He by done. simpl in He. split.
  - unfold ps'. rewrite He. constructor; [apply is_wm_min|done].
  - etrans; [|exact Hc]. apply combined_spec_lower_bound. unfold ps'. rewrite He. set_solver.
Qed.

Lemma register_fold_entries (clk : nat → Instant) src ids ps c :
  i64_MIN <= c →
  Forall (λ e, is_wm e.2) (pt_entries ps) → combined_spec (pt_entries ps) <= c →
  let ps' := foldl (λ ps i,
      let pid := mkPartitionId src (Z.to_nat (Z.of_nat i mod 4294967296)) in
      match ps !! pid with
      | Some _ => ps
      | None => <[pid := PartitionWatermarkState_new (clk i)]> ps
      end) ps ids in
  Forall (λ e, is_wm e.2) (pt_entries ps') ∧ combined_spec (pt_entries ps') <= c.
Proof.
  intros Hc. revert ps. induction ids as [|i ids IH]; intros ps Hall Hle; cbn [foldl]; [done|].
  apply IH; simpl; case_match; try done; by eapply fresh_partition_entries.
Qed.

Lemma metrics_then_quiet t t1 :
  Z.of_nat (size (pt_partitions t1)) < u64_MOD → is_wm (pt_combined_watermark t) →
  pt_combined_watermark t1 = pt_combined_watermark t →
  Forall (λ e, is_wm e.2) (pt_entries (pt_partitions t1)) →
  combined_spec (pt_entries (pt_partitions t1)) <= pt_combined_watermark t →
  advance_ok t (PartitionedWatermarkTracker_update_metrics t1, None).
Proof.
  intros Hsz Hc Heq Hall Hle. apply quiet_ok; try done. exact (update_metrics_exact t1 Hsz).
Qed.

Lemma update_partition_ok now t p w :
  pt_inv t → is_wm w →
  advance_ok t (PartitionedWatermarkTracker_update_partition now t p w).
Proof.
  intros (Hm & Hok & Hc & Hle) Hw. unfold PartitionedWatermarkTracker_update_partition.
  destruct (pt_partitions t !! p) as [s|] eqn:Hp; [|by apply quiet_ok].
  pose proof (partition_wm _ _ _ Hok Hp) as Hs.
  assert (Hmx : ∀ s', pw_is_idle s' = false →
    metrics_exact (if pw_is_idle s then metrics_activate (pt_metrics t) else pt_metrics t)
      (<[p := s']> (pt_partitions t))).
  { intros s' Hs'. pose proof (metrics_exact_insert _ _ _ _ s' Hp (proj1 Hok) Hm) as H'.
    rewrite Hs' in H'. by destruct (pw_is_idle s). }
  rewrite Z.gtb_ltb. destruct (Z.ltb_spec (pw_watermark s) w).
  - apply try_advance_ok; simpl; try done; [by apply Hmx|]. by eapply partitions_ok_insert.
  - apply quiet_ok; simpl; try done; [by apply Hmx|by eapply partitions_ok_insert|].
    rewrite (combined_spec_perm _ _ (pt_entries_insert _ _ _)). simpl.
    rewrite (combined_spec_perm _ _ (pt_entries_lookup _ _ _ Hp)) in Hle.
    pose proof (combined_spec_activate (pw_watermark s) (pt_entries (delete p (pt_partitions t)))).
    destruct (pw_is_idle s); lia.
Qed.

Lemma mark_partition_idle_ok t p :
  pt_inv t → advance_ok t (PartitionedWatermarkTracker_mark_partition_idle t p).
Proof.
  intros (Hm & Hok & Hc & Hle). unfold PartitionedWatermarkTracker_mark_partition_idle.
  destruct (pt_partitions t !! p) as [s|] eqn:Hp; [|by apply quiet_ok].
  pose proof (partition_wm _ _ _ Hok Hp) as Hs.
  pose proof (metrics_exact_insert _ _ _ _ (set_idle true s) Hp (proj1 Hok) Hm) as Hmx.
  simpl in Hmx. destruct (pw_is_idle s) eqn:Hi; [by apply quiet_ok|].
  apply try_advance_ok; simpl; try done. by eapply partitions_ok_insert.
Qed.

Lemma mark_partition_active_ok now t p :
  pt_inv t → advance_ok t (PartitionedWatermarkTracker_mark_partition_active now t p, None).
Proof.
  intros (Hm & Hok & Hc & Hle). unfold PartitionedWatermarkTracker_mark_partition_active.
  destruct (pt_partitions t !! p) as [s|] eqn:Hp; [|by apply quiet_ok].
  destruct (pw_is_idle s) eqn:Hi; [|by apply quiet_ok].
  pose proof (partition_wm _ _ _ Hok Hp) as Hs.
  apply quiet_ok; simpl; try done.
  - pose proof (metrics_exact_insert _ _ _ _ (mkPartitionState (pw_watermark s)
      (pw_last_event_time s) now false (pw_assigned_core s)) Hp (proj1 Hok) Hm) as H'.
    by rewrite Hi in H'.
  - by eapply partitions_ok_insert.
  - rewrite (combined_spec_perm _ _ (pt_entries_insert _ _ _)). simpl.
    rewrite (combined_spec_perm _ _ (pt_entries_lookup _ _ _ Hp)), Hi in Hle.
    pose proof (combined_spec_activate (pw_watermark s) (pt_entries (delete p (pt_partitions t)))).
    lia.
Qed.

Lemma entries_wm_map ps :
  Forall (λ e, is_wm e.2) (pt_entries ps) ↔ map_Forall (λ _ s, is_wm (pw_watermark s)) ps.
Proof.
  unfold pt_entries. rewrite Forall_fmap, map_Forall_to_list.
  split; intros H; (eapply Forall_impl; [exact H|]); by intros [].
Qed.

Lemma idle_scan_lookup clk tmo ps p s' :
  idle_scan clk tmo ps !! p = Some s' →
  ∃ s, ps !! p = Some s ∧ pw_watermark s' = pw_watermark s.
Proof.
  unfold idle_scan. rewrite map_lookup_imap. destruct (ps !! p) as [s|]; simpl; [|done].
  intros [= <-]. exists s. split; [done|]. by case_match.
Qed.

Lemma idle_scan_size clk tmo ps : size (idle_scan clk tmo ps) = size ps.
Proof.
  rewrite <- !(size_dom (D:=gset PartitionId)). f_equal. apply set_eq. intros p. rewrite !elem_of_dom.
  unfold idle_scan. rewrite map_lookup_imap. by destruct (ps !! p); simpl; split; intros [? ?].
Qed.

Lemma idle_scan_id clk tmo ps :
  map_Forall (λ p s, negb (pw_is_idle s) && (elapsed (clk p) (pw_last_activity s) >=? tmo) = false) ps →
  idle_scan clk tmo ps = ps.
Proof.
  intros Hall. apply map_eq. intros p. unfold idle_scan. rewrite map_lookup_imap.
  destruct (ps !! p) as [s|] eqn:Hp; simpl; [|done]. by rewrite (Hall p s Hp).
Qed.

Lemma check_idle_partitions_ok clk t :
  pt_inv t → advance_ok t (PartitionedWatermarkTracker_check_idle_partitions clk t).
Proof.
  intros (Hm & Hok & Hc & Hle). unfold PartitionedWatermarkTracker_check_idle_partitions.
  assert (Hok' : partitions_ok (idle_scan clk (pt_idle_timeout t) (pt_partitions t))).
  { split; [rewrite idle_scan_size; apply Hok|]. apply entries_wm_map.
    intros p s' (s & Hp & ->)%idle_scan_lookup. by eapply partition_wm. }
  case_bool_decide as Hall; simpl.
  - rewrite idle_scan_id by done. by apply quiet_ok.
  - apply try_advance_ok; simpl; try done.
    exact (update_metrics_exact (with_partitions (idle_scan clk (pt_idle_timeout t)
             (pt_partitions t)) t) (proj1 Hok')).
Qed.

Lemma register_source_ok clk t src n :
  pt_inv t →
  Z.of_nat (size (pt_partitions (PartitionedWatermarkTracker_register_source clk t src n))) < u64_MOD →
  advance_ok t (PartitionedWatermarkTracker_register_source clk t src n, None).
Proof.
  intros (Hm & Hok & Hc & Hle) Hsz. unfold PartitionedWatermarkTracker_register_source in *.
  destruct (register_fold_entries clk src (seq 0 n) (pt_partitions t) (pt_combined_watermark t))
    as [Hall' Hle']; [apply Hc|apply Hok|done|].
  by apply metrics_then_quiet.
Qed.

Lemma add_partition_ok now t p :
  pt_inv t →
  Z.of_nat (size (pt_partitions (PartitionedWatermarkTracker_add_partition now t p).1)) < u64_MOD →
  advance_ok t ((PartitionedWatermarkTracker_add_partition now t p).1, None).
Proof.
  intros (Hm & Hok & Hc & Hle) Hsz. unfold PartitionedWatermarkTracker_add_partition in *.
  destruct (pt_partitions t !! p) as [s|] eqn:Hp; [by apply quiet_ok|]. simpl in *.
  destruct (fresh_partition_entries (pt_partitions t) p now (pt_combined_watermark t) Hp)
    as [Hall' Hle']; [apply Hc|apply Hok|done|].
  by apply metrics_then_quiet.
Qed.

Lemma assign_core_ok t p core :
  pt_inv t → advance_ok t (PartitionedWatermarkTracker_assign_partition_to_core t p core, None).
Proof.
  intros (Hm & Hok & Hc & Hle). unfold PartitionedWatermarkTracker_assign_partition_to_core.
  destruct (pt_partitions t !! p) as [s|] eqn:Hp; [|by apply quiet_ok].
  apply quiet_ok; simpl; try done.
  - pose proof (metrics_exact_insert _ _ _ _ (mkPartitionState (pw_watermark s)
      (pw_last_event_time s) (pw_last_activity s) (pw_is_idle s) (Some core))
      Hp (proj1 Hok) Hm) as H'. simpl in H'. by destruct (pw_is_idle s).
  - eapply partitions_ok_insert; [done|done|]. exact (partition_wm _ _ _ Hok Hp).
  - rewrite (combined_spec_perm _ _ (pt_entries_insert _ _ _)). simpl.
    by rewrite (combined_spec_perm _ _ (pt_entries_lookup _ _ _ Hp)) in Hle.
Qed.

(** Removal recomputes the combined watermark from the partitions left. *)
Lemma remove_partition_ok t p :
  pt_inv t →
  let r := PartitionedWatermarkTracker_remove_partition t p in
  pt_inv r.1 ∧ r.2 = pt_partitions t !! p ∧
  (is_Some (pt_partitions t !! p) →
   pt_partitions r.1 = delete p (pt_partitions t) ∧
   pt_combined_watermark r.1 = combined_spec (pt_entries (delete p (pt_partitions t)))).
Proof.
  intros (Hm & Hok & Hc & Hle). unfold PartitionedWatermarkTracker_remove_partition.
  destruct (pt_partitions t !! p) as [s|] eqn:Hp; simpl.
  2: { split_and!; try done. }
  assert (Hok' : partitions_ok (delete p (pt_partitions t))).
  { destruct Hok as [Hsz Hall]. split.
    - rewrite map_size_delete_Some by eauto. lia.
    - rewrite (pt_entries_lookup _ _ _ Hp) in Hall. by inversion Hall. }
  set (t1 := PartitionedWatermarkTracker_update_metrics _).
  assert (Hps : pt_partitions t1 = delete p (pt_partitions t)) by done.
  assert (Hmx : metrics_exact (pt_metrics t1) (pt_partitions t1)).
  { exact (update_metrics_exact
             (bump_rebalances (with_partitions (delete p (pt_partitions t)) t)) (proj1 Hok')). }
  clearbody t1. rewrite <- Hps in *.
  destruct (calculate_combined_spec t1 Hok') as [Hcs Hwm].
  unfold PartitionedWatermarkTracker_recalculate_combined. rewrite Hcs.
  destruct (Z.eqb_spec (combined_spec (pt_entries (pt_partitions t1))) i64_MAX).
  { unfold is_wm in Hwm. lia. }
  unfold pt_inv. simpl. split_and!; try done.
Qed.

Lemma pt_step_inv t op : pt_inv t → pt_op_ok t op → pt_inv (pt_step t op).1.
Proof.
  intros Hinv [Hop Hsz]. destruct op; simpl in *.
  - by apply register_source_ok.
  - by apply add_partition_ok.
  - by apply remove_partition_ok.
  - by apply update_partition_ok.
  - by apply mark_partition_idle_ok.
  - by apply (mark_partition_active_ok now t p).
  - by apply check_idle_partitions_ok.
  - by apply assign_core_ok.
Qed.

(** ** Properties of the tracker *)

(** States reachable from a fresh tracker by operations whose watermarks are
    below the sentinel. *)
Inductive pt_reachable : PartitionedWatermarkTracker → Prop :=
| pt_reach_new tmo : pt_reachable (PartitionedWatermarkTracker_with_idle_timeout tmo)
| pt_reach_step t op : pt_reachable t → pt_op_ok t op → pt_reachable (pt_step t op).1.

Lemma pt_reachable_inv t : pt_reachable t → pt_inv t.
Proof.
  induction 1 as [tmo|t op _ IH Hop].
  - unfold pt_inv, metrics_exact, partitions_ok, count_idle, pt_entries. simpl.
    rewrite map_to_list_empty. split_and!; try done; try constructor; done.
  - by apply pt_step_inv.
Qed.

(** In every reachable state of the partitioned tracker the metrics count
    exactly the partitions held (total, idle, active), although most operations
    adjust them incrementally, and the combined watermark is never below the
    minimum over the active partitions. *)
Theorem partitioned_metrics_exact t :
  pt_reachable t →
  metrics_exact (pt_metrics t) (pt_partitions t) ∧
  combined_spec (pt_entries (pt_partitions t)) <= pt_combined_watermark t.
Proof. intros Ht. by destruct (pt_reachable_inv t Ht) as (? & ? & ? & ?). Qed.

Lemma partitioned_metrics_exact_witness :
  let t := (run pt_step PartitionedWatermarkTracker_new
              [PRegister (λ _, 0) 0 2; PUpdate 0 (mkPartitionId 0 0) 5000;
               PMarkIdle (mkPartitionId 0 1)]).1 in
  metrics_exact (pt_metrics t) (pt_partitions t) ∧
  PartitionedWatermarkTracker_current_watermark t = Some (Watermark_new 5000).
Proof.
  intros t. split; [|vm_compute; reflexivity].
  apply (partitioned_metrics_exact t).
  do 3 (apply pt_reach_step; [|split; [vm_compute; try split; done|vm_compute; reflexivity]]).
  apply (pt_reach_new (from_secs 30)).
Defined.

(** In every reachable state, every operation other than a removal
    leaves the combined watermark at the larger of its old value and the
    minimum over the active partitions (the maximum over all of them when all
    are idle), and returns it exactly when it advanced. *)
Theorem partitioned_combined_is_running_min t op :
  pt_reachable t → pt_op_ok t op → (∀ p, op ≠ PRemove p) →
  advance_ok t (pt_step t op).
Proof.
  intros Ht%pt_reachable_inv [Hop Hsz] Hnr. destruct op; simpl in *.
  - by apply register_source_ok.
  - by apply add_partition_ok.
  - by destruct (Hnr p).
  - by apply update_partition_ok.
  - by apply mark_partition_idle_ok.
  - by apply mark_partition_active_ok.
  - by apply check_idle_partitions_ok.
  - by apply assign_core_ok.
Qed.

Lemma partitioned_combined_is_running_min_witness :
  let t := PartitionedWatermarkTracker_register_source (λ _, 0) PartitionedWatermarkTracker_new 0 1 in
  advance_ok t (pt_step t (PUpdate 0 (mkPartitionId 0 0) 5000)) ∧
  (pt_step t (PUpdate 0 (mkPartitionId 0 0) 5000)).2 = Some (Watermark_new 5000).
Proof.
  intros t. split; [|vm_compute; reflexivity].
  apply partitioned_combined_is_running_min.
  - apply (pt_reach_step PartitionedWatermarkTracker_new (PRegister (λ _, 0) 0 1)).
    + apply (pt_reach_new (from_secs 30)).
    + split; [exact I|vm_compute; reflexivity].
  - split; [vm_compute; split; done|vm_compute; reflexivity].
  - intros p E. discriminate E.
Defined.

(** A rebalance can take the published watermark back: in every reachable
    state, adding a new partition and then removing any other one unpublishes
    the combined watermark (it becomes [None]), whatever it was before. *)
Theorem rebalance_unpublishes_watermark t now p q s :
  pt_reachable t → pt_partitions t !! p = Some s → pt_partitions t !! q = None →
  Z.of_nat (size (pt_partitions t)) + 1 < u64_MOD →
  let t1 := (PartitionedWatermarkTracker_add_partition now t q).1 in
  PartitionedWatermarkTracker_current_watermark
    (PartitionedWatermarkTracker_remove_partition t1 p).1 = None.
Proof.
  intros Ht%pt_reachable_inv Hp Hq Hsz t1.
  assert (Hps : pt_partitions t1 = <[q := PartitionWatermarkState_new now]> (pt_partitions t)).
  { unfold t1, PartitionedWatermarkTracker_add_partition. by rewrite Hq. }
  assert (Hinv : pt_inv t1).
  { apply add_partition_ok; [done|]. fold t1. rewrite Hps, map_size_insert_None by done. lia. }
  assert (Hpq : q ≠ p) by congruence.
  destruct (remove_partition_ok t1 p Hinv) as (_ & _ & Hc).
  destruct Hc as [_ Hc]; [rewrite Hps, lookup_insert_ne by done; eauto|].
  unfold PartitionedWatermarkTracker_current_watermark. rewrite Hc, Hps.
  rewrite delete_insert_ne by done.
  assert (Hle : combined_spec (pt_entries (<[q := PartitionWatermarkState_new now]>
                  (delete p (pt_partitions t)))) <= i64_MIN).
  { apply combined_spec_lower_bound. rewrite pt_entries_insert. set_solver. }
  assert (Hge : is_wm (combined_spec (pt_entries (<[q := PartitionWatermarkState_new now]>
                  (delete p (pt_partitions t)))))).
  { apply combined_spec_range. apply entries_wm_map. intros k s' [[<- <-]|[_ Hk]]%lookup_insert_Some.
    - apply is_wm_min.
    - apply lookup_delete_Some in Hk as [_ Hk]. eapply partition_wm; [apply Ht|done]. }
  unfold is_wm in Hge. unfold publish.
  by destruct (Z.eqb_spec (combined_spec (pt_entries (<[q := PartitionWatermarkState_new now]>
                  (delete p (pt_partitions t))))) i64_MIN); [|lia].
Qed.

Lemma rebalance_unpublishes_watermark_witness :
  let p0 := mkPartitionId 0 0 in let p1 := mkPartitionId 0 1 in
  let t := (pt_step (PartitionedWatermarkTracker_register_source (λ _, 0)
                       PartitionedWatermarkTracker_new 0 1) (PUpdate 0 p0 5000)).1 in
  PartitionedWatermarkTracker_current_watermark t = Some (Watermark_new 5000) ∧
  PartitionedWatermarkTracker_current_watermark
    (PartitionedWatermarkTracker_remove_partition
       (PartitionedWatermarkTracker_add_partition 0 t p1).1 p0).1 = None.
Proof.
  intros p0 p1 t. split; [vm_compute; reflexivity|].
  apply (rebalance_unpublishes_watermark t 0 p0 p1
           (mkPartitionState 5000 5000 0 false None)); try (vm_compute; reflexivity).
  apply pt_reach_step; [|split; [vm_compute; split; done|vm_compute; reflexivity]].
  apply (pt_reach_step PartitionedWatermarkTracker_new (PRegister (λ _, 0) 0 1)).
  - apply (pt_reach_new (from_secs 30)).
  - split; [exact I|vm_compute; reflexivity].
Defined.

(** ** Per-core state: the parallel vectors stay aligned *)

(** One row per assigned partition: id, idle flag, watermark. *)
Definition core_rows (c : CoreWatermarkState) : list (PartitionId * (bool * Z)) :=
  zip (cw_assigned_partitions c) (zip (cw_idle_status c) (cw_partition_watermarks c)).

Definition core_inv (c : CoreWatermarkState) : Prop :=
  length (cw_partition_watermarks c) = length (cw_assigned_partitions c) ∧
  length (cw_idle_status c) = length (cw_assigned_partitions c) ∧
  NoDup (cw_assigned_partitions c) ∧ Forall is_wm (cw_partition_watermarks c).

Lemma swap_remove_zip {A B} idx (l : list A) (k : list B) :
  length l = length k → swap_remove idx (zip l k) = zip (swap_remove idx l) (swap_remove idx k).
Proof.
  intros Hlen. unfold swap_remove. rewrite !last_lookup, length_zip_with, <- Hlen, Nat.min_id.
  rewrite lookup_zip_with.
  destruct (l !! Nat.pred (length l)) as [x|] eqn:Hx; simpl; [|done].
  assert (is_Some (k !! Nat.pred (length l))) as [y Hy].
  { apply lookup_lt_is_Some. apply lookup_lt_Some in Hx. lia. }
  rewrite Hy. simpl. by rewrite insert_zip_with, zip_with_take.
Qed.

Lemma swap_remove_length {A} idx (l : list A) :
  length (swap_remove idx l) = (length l - 1)%nat.
Proof.
  unfold swap_remove. destruct (last l) as [x|] eqn:E.
  - rewrite length_take, length_insert. lia.
  - by apply last_None in E as ->.
Qed.

Lemma position_Some p l idx :
  position p l = Some idx → l !! idx = Some p.
Proof.
  revert idx. induction l as [|q l IH]; intros idx; simpl; [done|].
  case_decide as Hq; [intros [= <-]; by subst|].
  destruct (position p l) as [i|]; simpl; [|done]. intros [= <-]. by apply IH.
Qed.

Lemma position_None p l : position p l = None → p ∉ l.
Proof.
  induction l as [|q l IH]; simpl; [set_solver|].
  case_decide; [done|]. destruct (position p l); [done|]. set_solver.
Qed.

Lemma core_rows_fst c : core_inv c → fst <$> core_rows c = cw_assigned_partitions c.
Proof.
  intros (H1 & H2 & _). unfold core_rows. apply fst_zip. rewrite length_zip_with. lia.
Qed.

Lemma core_rows_snd c :
  core_inv c → snd <$> core_rows c = zip (cw_idle_status c) (cw_partition_watermarks c).
Proof.
  intros (H1 & H2 & _). unfold core_rows. apply snd_zip. rewrite length_zip_with. lia.
Qed.

Lemma calculate_local_spec c :
  core_inv c → CoreWatermarkState_calculate_local c = combined_spec (snd <$> core_rows c).
Proof.
  intros Hc. rewrite core_rows_snd by done. destruct Hc as (H1 & H2 & _ & Hall).
  unfold CoreWatermarkState_calculate_local.
  set (es := zip (cw_idle_status c) (cw_partition_watermarks c)).
  assert (Hsnd : snd <$> es = cw_partition_watermarks c) by (apply snd_zip; lia).
  assert (Hes : Forall (λ e, is_wm e.2) es).
  { rewrite <- Hsnd in Hall. by rewrite Forall_fmap in Hall. }
  pose proof (active_min_combined es) as Hm. rewrite Hsnd in Hm.
  pose proof (combined_spec_range es Hes) as Hr.
  destruct (active_min_loop es i64_MAX false) as [m []]; simpl in *;
    specialize (Hm ltac:(eapply Forall_impl; [exact Hes|]; unfold is_wm; lia)); [|done].
  destruct (Z.eqb_spec m i64_MAX); [|done]. unfold is_wm in Hr. lia.
Qed.

Lemma core_remove_vectors c p idx :
  core_inv c → cw_assigned_partitions c !! idx = Some p →
  let c' := mkCoreState (swap_remove idx (cw_assigned_partitions c))
              (swap_remove idx (cw_partition_watermarks c)) (cw_local_watermark c)
              (swap_remove idx (cw_idle_status c)) (cw_core_id c) in
  core_inv c' ∧ p ∉ cw_assigned_partitions c' ∧ core_rows c' = swap_remove idx (core_rows c).
Proof.
  intros (H1 & H2 & Hnd & Hall) Hpos c'. pose proof (lookup_lt_Some _ _ _ Hpos).
  rewrite (swap_remove_perm _ _ _ Hpos) in Hnd. apply NoDup_cons in Hnd as [Hni Hnd].
  split_and!; [|done|].
  - unfold core_inv. simpl. rewrite !swap_remove_length. split_and!; try done; try lia.
    assert (is_Some (cw_partition_watermarks c !! idx)) as [w Hw]
      by (apply lookup_lt_is_Some; lia).
    rewrite (swap_remove_perm _ _ _ Hw) in Hall. by inversion Hall.
  - unfold core_rows. simpl. rewrite !swap_remove_zip; try done; rewrite ?length_zip_with; lia.
Qed.

Lemma core_rows_remove c p idx :
  core_inv c → cw_assigned_partitions c !! idx = Some p →
  p ∉ fst <$> swap_remove idx (core_rows c) →
  swap_remove idx (core_rows c) ≡ₚ filter (λ row, row.1 ≠ p) (core_rows c).
Proof.
  intros Hc Hpos Hni. pose proof (core_rows_fst c Hc) as Hf.
  assert (is_Some (core_rows c !! idx)) as [row Hrow].
  { apply lookup_lt_is_Some. rewrite <- (length_fmap fst), Hf. by eapply lookup_lt_Some. }
  apply (f_equal (λ l, l !! idx)) in Hf. rewrite list_lookup_fmap, Hrow, Hpos in Hf.
  injection Hf as Hf. rewrite (swap_remove_perm _ _ _ Hrow) at 2.
  rewrite filter_cons_False by naive_solver. by rewrite (filter_absent fst).
Qed.

(** Removing a partition from a core drops exactly that partition's row
    from the three parallel vectors ([swap_remove] keeps them aligned) and sets
    the local watermark to the minimum over the active rows left; the result
    tells whether the partition was assigned. *)
Theorem core_remove_partition_aligned c p :
  core_inv c →
  let r := CoreWatermarkState_remove_partition c p in
  core_inv r.1 ∧ r.2 = bool_decide (p ∈ cw_assigned_partitions c) ∧
  core_rows r.1 ≡ₚ filter (λ row, row.1 ≠ p) (core_rows c) ∧
  (r.2 = true → cw_local_watermark r.1 = combined_spec (snd <$> core_rows r.1)).
Proof.
  intros Hc. unfold CoreWatermarkState_remove_partition.
  destruct (position p (cw_assigned_partitions c)) as [idx|] eqn:Hpos; simpl.
  - apply position_Some in Hpos. set (c' := mkCoreState _ _ _ _ _).
    destruct (core_remove_vectors c p idx Hc Hpos) as (Hc' & Hni & Hrows). fold c' in Hc', Hni, Hrows.
    split_and!; [done| | |intros _; exact (calculate_local_spec c' Hc')].
    + rewrite bool_decide_eq_true_2; [done|]. by eapply list_elem_of_lookup_2.
    + change (core_rows c' ≡ₚ filter (λ row, row.1 ≠ p) (core_rows c)).
      rewrite <- (core_rows_fst c' Hc'), Hrows in Hni. rewrite Hrows. by apply core_rows_remove.
  - apply position_None in Hpos. split_and!; [done| | |done].
    + by rewrite bool_decide_eq_false_2.
    + by rewrite (filter_absent fst) by (by rewrite core_rows_fst).
Qed.

Lemma core_remove_partition_aligned_witness :
  let p i := mkPartitionId 0 i in
  let c := mkCoreState [p 0%nat; p 1%nat; p 2%nat] [100; 50; 300] 50 [false; false; true] 0 in
  (CoreWatermarkState_remove_partition c (p 1%nat)).2 = true ∧
  cw_local_watermark (CoreWatermarkState_remove_partition c (p 1%nat)).1 = 100.
Proof.
  intros p c.
  assert (Hc : core_inv c).
  { split_and!; refine (bool_decide_unpack _ _); vm_compute; exact I. }
  destruct (core_remove_partition_aligned c (p 1%nat) Hc) as (_ & Hb & _ & Hl).
  split; [exact Hb|]. exact (Hl Hb).
Defined.

(** ** The collector *)

(** If the collector's global watermark is the minimum over the cores (as
    in a fresh collector), a report that does not lower the core's watermark
    keeps it the minimum, never lowers it, and returns it exactly when it
    changed. *)
Theorem collector_is_min_over_cores g core w old :
  gc_core_watermarks g !! core = Some old → old <= w →
  Forall is_i64 (gc_core_watermarks g) → is_i64 w →
  list_min (gc_core_watermarks g) = Some (gc_global_watermark g) →
  let r := GlobalWatermarkCollector_update_core g core w in
  list_min (gc_core_watermarks r.1) = Some (gc_global_watermark r.1) ∧
  gc_global_watermark g <= gc_global_watermark r.1 ∧
  r.2 = (if gc_global_watermark g <? gc_global_watermark r.1
         then Some (Watermark_new (gc_global_watermark r.1)) else None).
Proof.
  intros Hold Hle Hall Hw Hmin. unfold GlobalWatermarkCollector_update_core.
  pose proof (lookup_lt_Some _ _ _ Hold). rewrite bool_decide_eq_true_2 by done.
  destruct (list_min (<[core := w]> (gc_core_watermarks g))) as [m|] eqn:Hm; simpl.
  2: { apply list_min_None in Hm. apply (f_equal length) in Hm. rewrite length_insert in Hm.
       simpl in Hm. lia. }
  assert (Hmono : gc_global_watermark g <= m).
  { apply list_min_Some in Hm as [Hin _]. apply list_min_Some in Hmin as [_ Hlb].
    apply list_elem_of_lookup in Hin as [i Hi].
    destruct (decide (i = core)) as [->|Hne].
    - rewrite list_lookup_insert_eq in Hi by done. simplify_eq.
      pose proof (Hlb old ltac:(by eapply list_elem_of_lookup_2)). lia.
    - rewrite list_lookup_insert_ne in Hi by done. apply Hlb. by eapply list_elem_of_lookup_2. }
  assert (Hg : is_i64 (gc_global_watermark g)).
  { apply list_min_Some in Hmin as [Hin _]. rewrite Forall_forall in Hall. by apply Hall. }
  rewrite Z.gtb_ltb. destruct (Z.ltb_spec (gc_global_watermark g) m) as [Hlt|Hge].
  - destruct (Z.eqb_spec m i64_MIN); [unfold is_i64 in Hg; lia|]. simpl.
    split_and!; [done|lia|]. by destruct (Z.ltb_spec (gc_global_watermark g) m); [|lia].
  - simpl. assert (m = gc_global_watermark g) as -> by lia. rewrite Z.ltb_irrefl.
    split_and!; [done|lia|done].
Qed.

Lemma collector_is_min_over_cores_witness :
  let g := mkCollector [5000; 3000] 3000 in
  (GlobalWatermarkCollector_update_core g 1 4000).2 = Some (Watermark_new 4000).
Proof.
  intros g.
  refine (proj2 (proj2 (collector_is_min_over_cores g 1 4000 3000 eq_refl _ _ _ eq_refl))).
  - vm_compute. intros F. discriminate F.
  - repeat constructor; vm_compute; intros F; discriminate F.
  - vm_compute. split; intros F; discriminate F.
Defined.
