(* ===== verification/KeyedWm.v ===== *)
(** * Per-key watermark tracking

    Models [crates/laminar-core/src/time/keyed_watermark.rs]. The map is an
    [FxHashMap]: where the order of its iteration can be observed (the ties of
    [min_by_key] in the two evictions) it is a parameter [iter], of which only
    "lists every entry once" is assumed. *)

From S2P Require Import Prelude TimeCore.

(** ** Key state *)

Record KeyWatermarkState := mkKeyState {
  ks_max_event_time : Z;
  ks_watermark : Z;
  ks_last_activity : Instant;
  ks_is_idle : bool;
}.

Definition KeyWatermarkState_new (now : Instant) : KeyWatermarkState :=
  mkKeyState i64_MIN i64_MIN now false.

Definition KeyWatermarkState_update (s : KeyWatermarkState) (event_time bounded_delay : Z)
    (now : Instant) : KeyWatermarkState * bool :=
  if event_time >? ks_max_event_time s then
    let new_watermark := event_time ⊟ bounded_delay in
    if new_watermark >? ks_watermark s
    then (mkKeyState event_time new_watermark now false, true)
    else (mkKeyState event_time (ks_watermark s) now false, false)
  else (mkKeyState (ks_max_event_time s) (ks_watermark s) now false, false).

Definition KeyWatermarkState_is_late (s : KeyWatermarkState) (event_time : Z) : bool :=
  event_time <? ks_watermark s.

(** ** Configuration, errors, metrics *)

Inductive KeyEvictionPolicy := LeastRecentlyActive | LowestWatermark | RejectNew.

Record KeyedWatermarkConfig := mkKeyedConfig {
  kc_bounded_delay : Duration;
  kc_idle_timeout : Duration;
  kc_max_keys : option nat;
  kc_eviction_policy : KeyEvictionPolicy;
}.

Definition KeyedWatermarkConfig_default : KeyedWatermarkConfig :=
  mkKeyedConfig (from_secs 5) (from_secs 60) None LeastRecentlyActive.
Definition KeyedWatermarkConfig_with_bounded_delay (d : Duration) : KeyedWatermarkConfig :=
  mkKeyedConfig d (kc_idle_timeout KeyedWatermarkConfig_default)
    (kc_max_keys KeyedWatermarkConfig_default) (kc_eviction_policy KeyedWatermarkConfig_default).
Definition KeyedWatermarkConfig_with_idle_timeout (c : KeyedWatermarkConfig) (timeout : Duration)
    : KeyedWatermarkConfig :=
  mkKeyedConfig (kc_bounded_delay c) timeout (kc_max_keys c) (kc_eviction_policy c).
Definition KeyedWatermarkConfig_with_max_keys (c : KeyedWatermarkConfig) (max_keys : nat)
    : KeyedWatermarkConfig :=
  mkKeyedConfig (kc_bounded_delay c) (kc_idle_timeout c) (Some max_keys) (kc_eviction_policy c).
Definition KeyedWatermarkConfig_with_eviction_policy (c : KeyedWatermarkConfig)
    (policy : KeyEvictionPolicy) : KeyedWatermarkConfig :=
  mkKeyedConfig (kc_bounded_delay c) (kc_idle_timeout c) (kc_max_keys c) policy.

Inductive KeyedWatermarkError := MaxKeysReached (max_keys : nat).

Record KeyedWatermarkMetrics := mkKeyedMetrics {
  km_total_keys : Z;
  km_active_keys : Z;
  km_idle_keys : Z;
  km_evicted_keys : Z;
  km_global_advances : Z;
  km_key_advances : Z;
}.
Definition KeyedWatermarkMetrics_new : KeyedWatermarkMetrics := mkKeyedMetrics 0 0 0 0 0 0.

(** [Iterator::min_by_key]: the first entry with the least key. *)
Fixpoint min_by_key {A} (f : A → Z) (l : list A) : option A :=
  match l with
  | [] => None
  | x :: l' =>
      match min_by_key f l' with
      | None => Some x
      | Some y => if f y <? f x then Some y else Some x
      end
  end.

Section keyed.
Context {K : Type} `{Countable K}.
Context (iter : gmap K KeyWatermarkState → list (K * KeyWatermarkState)).

Record KeyedWatermarkTracker := mkKeyed {
  kt_key_states : gmap K KeyWatermarkState;
  kt_global_watermark : Z;
  kt_config : KeyedWatermarkConfig;
  kt_bounded_delay_ms : Z;
  kt_metrics : KeyedWatermarkMetrics;
}.

Definition KeyedWatermarkTracker_new (config : KeyedWatermarkConfig) : KeyedWatermarkTracker :=
  mkKeyed ∅ i64_MIN config (wrap_i64 (as_millis (kc_bounded_delay config)))
    KeyedWatermarkMetrics_new.
Definition KeyedWatermarkTracker_with_defaults : KeyedWatermarkTracker :=
  KeyedWatermarkTracker_new KeyedWatermarkConfig_default.

(** Field updates. *)
Definition kt_set_states (ks : gmap K KeyWatermarkState) (t : KeyedWatermarkTracker)
    : KeyedWatermarkTracker :=
  mkKeyed ks (kt_global_watermark t) (kt_config t) (kt_bounded_delay_ms t) (kt_metrics t).
Definition kt_set_global (g : Z) (t : KeyedWatermarkTracker) : KeyedWatermarkTracker :=
  mkKeyed (kt_key_states t) g (kt_config t) (kt_bounded_delay_ms t) (kt_metrics t).
Definition kt_set_metrics (m : KeyedWatermarkMetrics) (t : KeyedWatermarkTracker)
    : KeyedWatermarkTracker :=
  mkKeyed (kt_key_states t) (kt_global_watermark t) (kt_config t) (kt_bounded_delay_ms t) m.
Definition km_set_total (n : Z) (m : KeyedWatermarkMetrics) : KeyedWatermarkMetrics :=
  mkKeyedMetrics n (km_active_keys m) (km_idle_keys m) (km_evicted_keys m) (km_global_advances m)
    (km_key_advances m).
Definition km_incr_key_advances (m : KeyedWatermarkMetrics) : KeyedWatermarkMetrics :=
  mkKeyedMetrics (km_total_keys m) (km_active_keys m) (km_idle_keys m) (km_evicted_keys m)
    (km_global_advances m) (u64_add (km_key_advances m) 1).

Definition kt_len (t : KeyedWatermarkTracker) : nat := size (kt_key_states t).
Definition KeyedWatermarkTracker_bounded_delay_ms (t : KeyedWatermarkTracker) : Z :=
  kt_bounded_delay_ms t.

(** Idle flag and watermark of each key. *)
Definition kt_entries (ks : gmap K KeyWatermarkState) : list (bool * Z) :=
  (λ kv, (ks_is_idle kv.2, ks_watermark kv.2)) <$> map_to_list ks.

Definition key_count_idle (ks : gmap K KeyWatermarkState) : nat :=
  length (filter (λ kv, ks_is_idle kv.2 = true) (map_to_list ks)).

(** ** Private helpers *)

Definition KeyedWatermarkTracker_calculate_global (t : KeyedWatermarkTracker) : Z :=
  let '(min_watermark, has_active) := active_min_loop (kt_entries (kt_key_states t)) i64_MAX false in
  if has_active then min_watermark
  else default i64_MIN (list_max (snd <$> kt_entries (kt_key_states t))).

Definition KeyedWatermarkTracker_try_advance_global (t : KeyedWatermarkTracker)
    : KeyedWatermarkTracker * option Watermark :=
  let new_global := KeyedWatermarkTracker_calculate_global t in
  if negb (new_global =? i64_MAX) && negb (new_global =? i64_MIN)
       && negb (new_global =? kt_global_watermark t) then
    let old_global := kt_global_watermark t in
    let m := kt_metrics t in
    let m := if new_global >? old_global
             then mkKeyedMetrics (km_total_keys m) (km_active_keys m) (km_idle_keys m)
                    (km_evicted_keys m) (u64_add (km_global_advances m) 1) (km_key_advances m)
             else m in
    (kt_set_metrics m (kt_set_global new_global t), Some (Watermark_new new_global))
  else (t, None).

Definition KeyedWatermarkTracker_update_metrics_counts (t : KeyedWatermarkTracker)
    : KeyedWatermarkTracker :=
  let m := kt_metrics t in
  let idle := Z.of_nat (key_count_idle (kt_key_states t)) in
  kt_set_metrics (mkKeyedMetrics (km_total_keys m) (u64_sub (km_total_keys m) idle) idle
                    (km_evicted_keys m) (km_global_advances m) (km_key_advances m)) t.

(** The two evictions differ in the field they minimise. *)
Definition evict_min (f : KeyWatermarkState → Z) (t : KeyedWatermarkTracker)
    : KeyedWatermarkTracker :=
  match min_by_key (λ kv, f kv.2) (iter (kt_key_states t)) with
  | Some (key_to_evict, _) =>
      let m := kt_metrics t in
      kt_set_metrics (mkKeyedMetrics (km_total_keys m) (km_active_keys m) (km_idle_keys m)
                        (u64_add (km_evicted_keys m) 1) (km_global_advances m) (km_key_advances m))
        (kt_set_states (delete key_to_evict (kt_key_states t)) t)
  | None => t
  end.
Definition KeyedWatermarkTracker_evict_least_recently_active := evict_min ks_last_activity.
Definition KeyedWatermarkTracker_evict_lowest_watermark := evict_min ks_watermark.

(** The [max_keys] check made before a new key is inserted. *)
Definition make_room (t : KeyedWatermarkTracker) : KeyedWatermarkTracker + KeyedWatermarkError :=
  match kc_max_keys (kt_config t) with
  | Some max_keys =>
      if bool_decide (max_keys <= kt_len t)%nat then
        match kc_eviction_policy (kt_config t) with
        | RejectNew => inr (MaxKeysReached max_keys)
        | LeastRecentlyActive => inl (KeyedWatermarkTracker_evict_least_recently_active t)
        | LowestWatermark => inl (KeyedWatermarkTracker_evict_lowest_watermark t)
        end
      else inl t
  | None => inl t
  end.

(** [get_mut(key).expect(..)] followed by [state.update]; counts an advance. *)
Definition update_key (now : Instant) (t : KeyedWatermarkTracker) (key : K) (event_time : Z)
    : KeyedWatermarkTracker :=
  match kt_key_states t !! key with
  | Some s =>
      let '(s', advanced) := KeyWatermarkState_update s event_time (kt_bounded_delay_ms t) now in
      let t' := kt_set_states (<[key := s']> (kt_key_states t)) t in
      if advanced then kt_set_metrics (km_incr_key_advances (kt_metrics t')) t' else t'
  | None => t
  end.

(** ** Operations *)

(** The second half of [update]: the key is present. *)
Definition finish_update (now : Instant) (t : KeyedWatermarkTracker) (key : K) (event_time : Z)
    : KeyedWatermarkTracker * option Watermark :=
  KeyedWatermarkTracker_try_advance_global
    (KeyedWatermarkTracker_update_metrics_counts (update_key now t key event_time)).

Definition KeyedWatermarkTracker_update (now : Instant) (t : KeyedWatermarkTracker) (key : K)
    (event_time : Z) : KeyedWatermarkTracker * (option Watermark + KeyedWatermarkError) :=
  let ready :=
    match kt_key_states t !! key with
    | Some _ => inl t
    | None =>
        match make_room t with
        | inr e => inr e
        | inl t1 =>
            let t2 := kt_set_states (<[key := KeyWatermarkState_new now]> (kt_key_states t1)) t1 in
            inl (kt_set_metrics (km_set_total (Z.of_nat (kt_len t2)) (kt_metrics t2)) t2)
        end
    end in
  match ready with
  | inr e => (t, inr e)
  | inl t3 => let '(t4, wm) := finish_update now t3 key event_time in (t4, inl wm)
  end.

(** The loop of [update_batch]; on an error the state reached so far remains. *)
Fixpoint batch_loop (now : Instant) (t : KeyedWatermarkTracker) (events : list (K * Z))
    : KeyedWatermarkTracker * option KeyedWatermarkError :=
  match events with
  | [] => (t, None)
  | (key, event_time) :: rest =>
      match kt_key_states t !! key with
      | Some _ => batch_loop now (update_key now t key event_time) rest
      | None =>
          match make_room t with
          | inr e => (t, Some e)
          | inl t1 =>
              let t2 := kt_set_states (<[key := KeyWatermarkState_new now]> (kt_key_states t1)) t1 in
              batch_loop now (update_key now t2 key event_time) rest
          end
      end
  end.

Definition KeyedWatermarkTracker_update_batch (now : Instant) (t : KeyedWatermarkTracker)
    (events : list (K * Z)) : KeyedWatermarkTracker * (option Watermark + KeyedWatermarkError) :=
  match batch_loop now t events with
  | (t1, Some e) => (t1, inr e)
  | (t1, None) =>
      let t2 := kt_set_metrics (km_set_total (Z.of_nat (kt_len t1)) (kt_metrics t1)) t1 in
      let '(t3, wm) :=
        KeyedWatermarkTracker_try_advance_global (KeyedWatermarkTracker_update_metrics_counts t2) in
      (t3, inl wm)
  end.

Definition KeyedWatermarkTracker_mark_idle (t : KeyedWatermarkTracker) (key : K)
    : KeyedWatermarkTracker * option Watermark :=
  match kt_key_states t !! key with
  | Some s =>
      if ks_is_idle s then (t, None)
      else KeyedWatermarkTracker_try_advance_global
             (KeyedWatermarkTracker_update_metrics_counts
                (kt_set_states (<[key := mkKeyState (ks_max_event_time s) (ks_watermark s)
                                          (ks_last_activity s) true]> (kt_key_states t)) t))
  | None => (t, None)
  end.

Definition KeyedWatermarkTracker_mark_active (now : Instant) (t : KeyedWatermarkTracker) (key : K)
    : KeyedWatermarkTracker :=
  match kt_key_states t !! key with
  | Some s =>
      if ks_is_idle s then
        KeyedWatermarkTracker_update_metrics_counts
          (kt_set_states (<[key := mkKeyState (ks_max_event_time s) (ks_watermark s) now false]>
                            (kt_key_states t)) t)
      else t
  | None => t
  end.

Definition key_expired (clk : K → Instant) (timeout : Duration) (k : K) (s : KeyWatermarkState) : bool :=
  negb (ks_is_idle s) && (elapsed (clk k) (ks_last_activity s) >=? timeout).

Definition KeyedWatermarkTracker_check_idle_keys (clk : K → Instant) (t : KeyedWatermarkTracker)
    : KeyedWatermarkTracker * option Watermark :=
  let timeout := kc_idle_timeout (kt_config t) in
  let any_marked := negb (bool_decide (
    map_Forall (λ k s, key_expired clk timeout k s = false) (kt_key_states t))) in
  let t' := kt_set_states
              (map_imap (λ k s, Some (if key_expired clk timeout k s
                                      then mkKeyState (ks_max_event_time s) (ks_watermark s)
                                             (ks_last_activity s) true
                                      else s)) (kt_key_states t)) t in
  if any_marked
  then KeyedWatermarkTracker_try_advance_global (KeyedWatermarkTracker_update_metrics_counts t')
  else (t', None).

Definition KeyedWatermarkTracker_recalculate_global (t : KeyedWatermarkTracker)
    : KeyedWatermarkTracker * option Watermark :=
  let new_global := KeyedWatermarkTracker_calculate_global t in
  if negb (new_global =? i64_MAX) && negb (new_global =? i64_MIN)
  then (kt_set_global new_global t, Some (Watermark_new new_global)) else (t, None).

Definition KeyedWatermarkTracker_remove_key (t : KeyedWatermarkTracker) (key : K)
    : KeyedWatermarkTracker * option KeyWatermarkState :=
  match kt_key_states t !! key with
  | None => (t, None)
  | Some s =>
      let t1 := kt_set_states (delete key (kt_key_states t)) t in
      let t2 := KeyedWatermarkTracker_update_metrics_counts
                  (kt_set_metrics (km_set_total (Z.of_nat (kt_len t1)) (kt_metrics t1)) t1) in
      let new_global := KeyedWatermarkTracker_calculate_global t2 in
      (if (new_global >? kt_global_watermark t2) && negb (new_global =? i64_MAX)
       then kt_set_global new_global t2 else t2, Some s)
  end.

Definition KeyedWatermarkTracker_clear (t : KeyedWatermarkTracker) : KeyedWatermarkTracker :=
  mkKeyed ∅ i64_MIN (kt_config t) (kt_bounded_delay_ms t) KeyedWatermarkMetrics_new.

(** ** Queries *)

Definition KeyedWatermarkTracker_watermark_for_key (t : KeyedWatermarkTracker) (key : K) : option Z :=
  ks_watermark <$> kt_key_states t !! key.
Definition KeyedWatermarkTracker_global_watermark (t : KeyedWatermarkTracker) : option Watermark :=
  publish (kt_global_watermark t).
Definition KeyedWatermarkTracker_is_late (t : KeyedWatermarkTracker) (key : K) (event_time : Z) : bool :=
  from_option (λ s, KeyWatermarkState_is_late s event_time) false (kt_key_states t !! key).
Definition KeyedWatermarkTracker_is_late_global (t : KeyedWatermarkTracker) (event_time : Z) : bool :=
  event_time <? kt_global_watermark t.
Definition KeyedWatermarkTracker_active_key_count (t : KeyedWatermarkTracker) : nat :=
  length (filter (λ kv, ks_is_idle kv.2 = false) (map_to_list (kt_key_states t))).

(** ** Late-event accounting *)

Record KeyedWatermarkTrackerWithLateHandling := mkLate {
  lt_tracker : KeyedWatermarkTracker;
  lt_late_events_per_key : gmap K Z;
  lt_total_late_events : Z;
}.

Definition LateHandling_new (config : KeyedWatermarkConfig) : KeyedWatermarkTrackerWithLateHandling :=
  mkLate (KeyedWatermarkTracker_new config) ∅ 0.

Definition LateHandling_update_with_late_check (now : Instant)
    (l : KeyedWatermarkTrackerWithLateHandling) (key : K) (event_time : Z)
    : KeyedWatermarkTrackerWithLateHandling * ((option Watermark * bool) + KeyedWatermarkError) :=
  let is_late := KeyedWatermarkTracker_is_late (lt_tracker l) key event_time in
  let '(per_key, total) :=
    if is_late
    then (<[key := u64_add (default 0 (lt_late_events_per_key l !! key)) 1]>
            (lt_late_events_per_key l), u64_add (lt_total_late_events l) 1)
    else (lt_late_events_per_key l, lt_total_late_events l) in
  let '(tracker, r) := KeyedWatermarkTracker_update now (lt_tracker l) key event_time in
  (mkLate tracker per_key total,
   match r with inl wm => inl (wm, is_late) | inr e => inr e end).

Definition LateHandling_late_events_for_key (l : KeyedWatermarkTrackerWithLateHandling) (key : K) : Z :=
  default 0 (lt_late_events_per_key l !! key).

(** ** Lemmas *)

Context (iter_perm : ∀ m, iter m ≡ₚ map_to_list m).

Lemma min_by_key_Some {A} (f : A → Z) l x :
  min_by_key f l = Some x → x ∈ l ∧ ∀ y, y ∈ l → f x <= f y.
Proof.
  revert x. induction l as [|a l IH]; intros x; simpl; [done|].
  destruct (min_by_key f l) as [b|] eqn:E.
  - destruct (IH b eq_refl) as [Hb Hmin]. destruct (Z.ltb_spec (f b) (f a)); intros [= <-].
    + split; [set_solver|]. intros y [->|Hy]%elem_of_cons; [lia|by apply Hmin].
    + split; [set_solver|]. intros y [->|Hy]%elem_of_cons; [lia|]. specialize (Hmin _ Hy). lia.
  - destruct l as [|b l]; [|simpl in E; by destruct (min_by_key f l); [case_match|]].
    intros [= <-]. split; [set_solver|]. intros y ->%list_elem_of_singleton. lia.
Qed.

Lemma min_by_key_None {A} (f : A → Z) l : min_by_key f l = None → l = [].
Proof.
  destruct l as [|a l]; [done|]. simpl. by destruct (min_by_key f l); [case_match|].
Qed.

Lemma evict_min_states f t :
  (kt_key_states t = ∅ ∧ evict_min f t = t) ∨
  (∃ k s, kt_key_states t !! k = Some s ∧
     (∀ k' s', kt_key_states t !! k' = Some s' → f s <= f s') ∧
     kt_key_states (evict_min f t) = delete k (kt_key_states t)).
Proof.
  unfold evict_min.
  destruct (min_by_key _ (iter (kt_key_states t))) as [[k s]|] eqn:E; [right|left].
  - apply min_by_key_Some in E as [Hin Hmin]. rewrite iter_perm in Hin.
    apply elem_of_map_to_list in Hin. exists k, s. split_and!; [done| |done].
    intros k' s' Hk'. apply (Hmin (k', s')). rewrite iter_perm. by apply elem_of_map_to_list.
  - apply min_by_key_None in E. pose proof (iter_perm (kt_key_states t)) as Hp. rewrite E in Hp.
    apply Permutation_nil_l in Hp. symmetry in Hp. by apply map_to_list_empty_iff in Hp.
Qed.

Lemma evict_min_config f t : kt_config (evict_min f t) = kt_config t ∧
  kt_bounded_delay_ms (evict_min f t) = kt_bounded_delay_ms t ∧
  kt_global_watermark (evict_min f t) = kt_global_watermark t.
Proof. unfold evict_min. by destruct (min_by_key _ _) as [[k s]|]. Qed.

Lemma try_advance_global_fields t :
  kt_key_states (KeyedWatermarkTracker_try_advance_global t).1 = kt_key_states t ∧
  kt_config (KeyedWatermarkTracker_try_advance_global t).1 = kt_config t ∧
  kt_bounded_delay_ms (KeyedWatermarkTracker_try_advance_global t).1 = kt_bounded_delay_ms t ∧
  km_total_keys (kt_metrics (KeyedWatermarkTracker_try_advance_global t).1) =
    km_total_keys (kt_metrics t) ∧
  km_idle_keys (kt_metrics (KeyedWatermarkTracker_try_advance_global t).1) =
    km_idle_keys (kt_metrics t) ∧
  km_active_keys (kt_metrics (KeyedWatermarkTracker_try_advance_global t).1) =
    km_active_keys (kt_metrics t).
Proof.
  unfold KeyedWatermarkTracker_try_advance_global.
  destruct (negb _ && negb _ && negb _); simpl; [|done]. by destruct (_ >? _).
Qed.

Lemma update_key_fields now t k e :
  dom (kt_key_states (update_key now t k e)) = dom (kt_key_states t) ∧
  kt_config (update_key now t k e) = kt_config t ∧
  kt_bounded_delay_ms (update_key now t k e) = kt_bounded_delay_ms t ∧
  km_total_keys (kt_metrics (update_key now t k e)) = km_total_keys (kt_metrics t).
Proof.
  unfold update_key. destruct (kt_key_states t !! k) as [s|] eqn:Hk; [|done].
  destruct (KeyWatermarkState_update _ _ _ _) as [s' []]; simpl;
    (split; [|done]); apply dom_insert_lookup_L; eauto.
Qed.

(** *** Bound on the number of keys *)

Inductive keyed_op :=
| KUpdate (now : Instant) (key : K) (event_time : Z)
| KBatch (now : Instant) (events : list (K * Z))
| KMarkIdle (key : K)
| KMarkActive (now : Instant) (key : K)
| KCheckIdle (clk : K → Instant)
| KRecalculate
| KRemove (key : K)
| KClear.

Definition keyed_step (t : KeyedWatermarkTracker) (op : keyed_op) : KeyedWatermarkTracker :=
  match op with
  | KUpdate now k e => (KeyedWatermarkTracker_update now t k e).1
  | KBatch now es => (KeyedWatermarkTracker_update_batch now t es).1
  | KMarkIdle k => (KeyedWatermarkTracker_mark_idle t k).1
  | KMarkActive now k => KeyedWatermarkTracker_mark_active now t k
  | KCheckIdle clk => (KeyedWatermarkTracker_check_idle_keys clk t).1
  | KRecalculate => (KeyedWatermarkTracker_recalculate_global t).1
  | KRemove k => (KeyedWatermarkTracker_remove_key t k).1
  | KClear => KeyedWatermarkTracker_clear t
  end.

(** At most [max_keys] keys, except that a limit of zero still admits one. *)
Definition key_bound (cfg : KeyedWatermarkConfig) (t : KeyedWatermarkTracker) : Prop :=
  kt_config t = cfg ∧
  match kc_max_keys cfg with
  | Some n => (kt_len t <= Nat.max 1 n)%nat
  | None => True
  end.

Lemma key_bound_dom cfg t t' :
  kt_config t' = kt_config t → (size (kt_key_states t') <= size (kt_key_states t))%nat →
  key_bound cfg t → key_bound cfg t'.
Proof.
  unfold key_bound, kt_len. intros -> ? [? ?]. split; [done|]. destruct (kc_max_keys cfg); [lia|done].
Qed.

Lemma size_dom_eq (a b : gmap K KeyWatermarkState) : dom a = dom b → size a = size b.
Proof. intros Hd. rewrite <- !(size_dom (D:=gset K)). by rewrite Hd. Qed.

Lemma update_key_bound cfg now t k e : key_bound cfg t → key_bound cfg (update_key now t k e).
Proof.
  destruct (update_key_fields now t k e) as (Hd & Hc & _).
  apply key_bound_dom; [done|]. by rewrite (size_dom_eq _ _ Hd).
Qed.

(** Making room leaves space for one more key. *)
Lemma make_room_space cfg t t1 k s :
  key_bound cfg t → make_room t = inl t1 →
  kt_config t1 = kt_config t ∧ kt_bounded_delay_ms t1 = kt_bounded_delay_ms t ∧
  kt_global_watermark t1 = kt_global_watermark t ∧
  key_bound cfg (kt_set_states (<[k := s]> (kt_key_states t1)) t1).
Proof.
  unfold make_room, key_bound. intros [<- Hb] Hr.
  assert (Hins : ∀ m : gmap K KeyWatermarkState, (size (<[k:=s]> m) <= S (size m))%nat).
  { intros m. destruct (m !! k) eqn:Hk.
    - rewrite map_size_insert_Some by eauto. lia.
    - by rewrite map_size_insert_None. }
  destruct (kc_max_keys (kt_config t)) as [n|] eqn:Hn; [|by simplify_eq/=].
  case_bool_decide as Hfull.
  2: { simplify_eq/=. split_and!; try done. unfold kt_len in *. simpl.
       specialize (Hins (kt_key_states t1)). lia. }
  assert (Hev : ∀ f, t1 = evict_min f t →
    (size (kt_key_states t1) <= Nat.pred (size (kt_key_states t)))%nat).
  { intros f ->. destruct (evict_min_states f t) as [[He ->]|(k' & s' & Hk' & _ & ->)].
    - rewrite He, map_size_empty. lia.
    - rewrite map_size_delete_Some by eauto. lia. }
  destruct (kc_eviction_policy (kt_config t)); simplify_eq/=;
    [destruct (evict_min_config ks_last_activity t) as (Hc & Hd & Hg);
     specialize (Hev ks_last_activity eq_refl)
    |destruct (evict_min_config ks_watermark t) as (Hc & Hd & Hg);
     specialize (Hev ks_watermark eq_refl)].
  all: unfold KeyedWatermarkTracker_evict_least_recently_active,
         KeyedWatermarkTracker_evict_lowest_watermark in *.
  all: rewrite ?Hn; split_and!; try done; unfold kt_len in *; simpl.
  all: (etrans; [apply Hins|]; lia).
Qed.

Lemma finish_update_fields now t k e s :
  kt_key_states t !! k = Some s →
  let t' := (finish_update now t k e).1 in
  kt_config t' = kt_config t ∧ kt_bounded_delay_ms t' = kt_bounded_delay_ms t ∧
  kt_key_states t' =
    <[k := (KeyWatermarkState_update s e (kt_bounded_delay_ms t) now).1]> (kt_key_states t).
Proof.
  intros Hs. unfold finish_update.
  destruct (try_advance_global_fields (KeyedWatermarkTracker_update_metrics_counts
    (update_key now t k e))) as (Hst & Hc & Hd & _). simpl. rewrite Hst, Hc, Hd.
  unfold update_key. rewrite Hs. by destruct (KeyWatermarkState_update _ _ _ _) as [s' []].
Qed.

Lemma update_cases now t k e :
  (∃ s, kt_key_states t !! k = Some s ∧
     KeyedWatermarkTracker_update now t k e =
       ((finish_update now t k e).1, inl (finish_update now t k e).2)) ∨
  (kt_key_states t !! k = None ∧ ∃ err, make_room t = inr err ∧
     KeyedWatermarkTracker_update now t k e = (t, inr err)) ∨
  (kt_key_states t !! k = None ∧ ∃ t1, make_room t = inl t1 ∧
     let t2 := kt_set_states (<[k := KeyWatermarkState_new now]> (kt_key_states t1)) t1 in
     let t3 := kt_set_metrics (km_set_total (Z.of_nat (kt_len t2)) (kt_metrics t2)) t2 in
     KeyedWatermarkTracker_update now t k e =
       ((finish_update now t3 k e).1, inl (finish_update now t3 k e).2)).
Proof.
  unfold KeyedWatermarkTracker_update. destruct (kt_key_states t !! k) as [s|].
  - left. exists s. split; [done|]. by destruct (finish_update now t k e).
  - right. destruct (make_room t) as [t1|err]; [right|left]; (split; [done|]); eexists;
      (split; [done|]); simpl; [|done]. by destruct (finish_update _ _ _ _).
Qed.

Lemma update_bound cfg now t k e :
  key_bound cfg t → key_bound cfg (KeyedWatermarkTracker_update now t k e).1.
Proof.
  intros Hb.
  assert (Hfin : ∀ t3 s, kt_key_states t3 !! k = Some s → key_bound cfg t3 →
                 key_bound cfg (finish_update now t3 k e).1).
  { intros t3 s Hs H3. destruct (finish_update_fields now t3 k e s Hs) as (Hc & _ & Hst).
    apply (key_bound_dom cfg t3); [done| |done]. rewrite Hst, map_size_insert_Some by eauto. lia. }
  destruct (update_cases now t k e) as [(s & Hs & ->)|[(Hk & err & _ & ->)|(Hk & t1 & Hr & ->)]];
    simpl; [by eapply Hfin|done|].
  eapply Hfin; [by apply lookup_insert_eq|].
  by apply (make_room_space cfg t t1 k (KeyWatermarkState_new now) Hb Hr).
Qed.

Lemma batch_loop_bound cfg now evs t : key_bound cfg t → key_bound cfg (batch_loop now t evs).1.
Proof.
  revert t. induction evs as [|[k e] evs IH]; intros t Hb; simpl; [done|].
  destruct (kt_key_states t !! k); [apply IH; by apply update_key_bound|].
  destruct (make_room t) as [t1|err] eqn:Hr; [|done]. apply IH, update_key_bound.
  by apply (make_room_space cfg t t1 k (KeyWatermarkState_new now) Hb Hr).
Qed.

Lemma map_imap_total_size (f : K → KeyWatermarkState → KeyWatermarkState) m :
  size (map_imap (λ k s, Some (f k s)) m) = size m.
Proof.
  apply size_dom_eq. apply set_eq. intros k. rewrite !elem_of_dom, map_lookup_imap.
  by destruct (m !! k); simpl; split; intros [? ?].
Qed.

Lemma keyed_step_bound cfg t op : key_bound cfg t → key_bound cfg (keyed_step t op).
Proof.
  intros Hb. destruct op as [now k e|now es|k|now k|clk| |k|]; simpl.
  - by apply update_bound.
  - unfold KeyedWatermarkTracker_update_batch. pose proof (batch_loop_bound cfg now es t Hb) as Hl.
    destruct (batch_loop now t es) as [t1 [err|]]; simpl in *; [done|].
    destruct (try_advance_global_fields (KeyedWatermarkTracker_update_metrics_counts
      (kt_set_metrics (km_set_total (Z.of_nat (kt_len t1)) (kt_metrics t1)) t1))) as (Hs & Hc & _).
    destruct (KeyedWatermarkTracker_try_advance_global _); simpl in *.
    apply (key_bound_dom cfg t1); [done|by rewrite Hs|done].
  - unfold KeyedWatermarkTracker_mark_idle. destruct (kt_key_states t !! k) as [s|] eqn:Hk; [|done].
    destruct (ks_is_idle s); [done|]. destruct (try_advance_global_fields
      (KeyedWatermarkTracker_update_metrics_counts (kt_set_states (<[k:=mkKeyState
        (ks_max_event_time s) (ks_watermark s) (ks_last_activity s) true]> (kt_key_states t)) t)))
      as (Hs & Hc & _).
    apply (key_bound_dom cfg t); [done| |done]. rewrite Hs. simpl.
    rewrite map_size_insert_Some by eauto. lia.
  - unfold KeyedWatermarkTracker_mark_active.
    destruct (kt_key_states t !! k) as [s|] eqn:Hk; [|done]. destruct (ks_is_idle s); [|done].
    apply (key_bound_dom cfg t); [done| |done]. simpl. rewrite map_size_insert_Some by eauto. lia.
  - unfold KeyedWatermarkTracker_check_idle_keys. case_bool_decide; simpl.
    + apply (key_bound_dom cfg t); [done| |done]. simpl. by rewrite map_imap_total_size.
    + match goal with |- key_bound cfg (KeyedWatermarkTracker_try_advance_global ?x).1 =>
        destruct (try_advance_global_fields x) as (Hs & Hc & _) end.
      apply (key_bound_dom cfg t); [done| |done]. rewrite Hs. simpl. by rewrite map_imap_total_size.
  - unfold KeyedWatermarkTracker_recalculate_global. by destruct (_ && _).
  - unfold KeyedWatermarkTracker_remove_key. destruct (kt_key_states t !! k) as [s|] eqn:Hk; [|done].
    simpl. apply (key_bound_dom cfg t); [by destruct (_ && _)| |done].
    destruct (_ && _); simpl; rewrite map_size_delete_Some by eauto; lia.
  - unfold key_bound, kt_len in *. simpl. rewrite map_size_empty. split; [apply Hb|].
    by destruct (kc_max_keys cfg); [lia|].
Qed.

(** *** Per-key watermarks *)

Lemma update_unbounded_lookup now t k e k' :
  kc_max_keys (kt_config t) = None →
  let t' := (KeyedWatermarkTracker_update now t k e).1 in
  kt_config t' = kt_config t ∧ kt_bounded_delay_ms t' = kt_bounded_delay_ms t ∧
  kt_key_states t' !! k' =
    (if decide (k = k')
     then Some (KeyWatermarkState_update (default (KeyWatermarkState_new now) (kt_key_states t !! k))
                  e (kt_bounded_delay_ms t) now).1
     else kt_key_states t !! k').
Proof.
  intros Hn. assert (Hr : make_room t = inl t) by (unfold make_room; by rewrite Hn).
  destruct (update_cases now t k e) as [(s & Hs & ->)|[(Hk & err & Hr' & _)|(Hk & t1 & Hr' & ->)]];
    [..|congruence|].
  - destruct (finish_update_fields now t k e s Hs) as (Hc & Hd & Hst). simpl.
    rewrite Hc, Hd, Hst, Hs. split_and!; try done. by rewrite lookup_insert.
  - rewrite Hr in Hr'. simplify_eq. set (t3 := kt_set_metrics _ _).
    destruct (finish_update_fields now t3 k e (KeyWatermarkState_new now)) as (Hc & Hd & Hst);
      [by apply lookup_insert_eq|].
    cbn [fst]. rewrite Hc, Hd, Hst, Hk. split_and!; try done. rewrite lookup_insert. case_decide; [done|].
    simpl. by rewrite lookup_insert_ne.
Qed.

Definition keyed_events (cfg : KeyedWatermarkConfig) (evs : list (Instant * K * Z))
    : KeyedWatermarkTracker :=
  foldl (λ t '(now, k, e), (KeyedWatermarkTracker_update now t k e).1)
    (KeyedWatermarkTracker_new cfg) evs.

(** The event times recorded for one key. *)
Definition times_of (k : K) (evs : list (Instant * K * Z)) : list Z :=
  snd <$> filter (λ ev, ev.1.2 = k) evs.

Lemma keyed_events_state cfg evs k :
  let d := wrap_i64 (as_millis (kc_bounded_delay cfg)) in
  kc_max_keys cfg = None → 0 <= d → Forall (λ ev, is_i64 ev.2) evs →
  kt_config (keyed_events cfg evs) = cfg ∧ kt_bounded_delay_ms (keyed_events cfg evs) = d ∧
  match kt_key_states (keyed_events cfg evs) !! k with
  | Some s => list_max (times_of k evs) = Some (ks_max_event_time s) ∧
              ks_watermark s = ks_max_event_time s ⊟ d ∧ is_i64 (ks_max_event_time s)
  | None => times_of k evs = []
  end.
Proof.
  intros d Hn Hd. induction evs as [|[[now k0] e] evs IH] using rev_ind; [done|].
  intros [Hall He]%Forall_app. inversion He as [|? ? He' _]; subst. simpl in He'.
  destruct (IH Hall) as (Hc & Hdd & Hst).
  unfold keyed_events in *. rewrite foldl_snoc. cbn [foldl].
  set (t := foldl _ _ evs) in *. rewrite <- Hc in Hn.
  destruct (update_unbounded_lookup now t k0 e k Hn) as (Hc' & Hdd' & Hl).
  rewrite Hc', Hdd', Hl, Hc, Hdd. split_and!; try done. clear Hc' Hdd' Hl.
  unfold times_of in *. rewrite filter_app, fmap_app.
  case_decide as Hk.
  - subst k0. rewrite filter_cons_True, filter_nil by done. simpl. rewrite list_max_snoc.
    destruct (kt_key_states t !! k) as [s|]; simpl.
    + destruct Hst as (-> & Hw & Hi). unfold KeyWatermarkState_update. rewrite Hw.
      zcase; simpl; (split; [f_equal; lia|]); int_lia.
    + rewrite Hst. unfold KeyWatermarkState_update. simpl. zcase; simpl; (split; [f_equal|]); int_lia.
  - rewrite filter_cons_False, filter_nil by done. simpl. by rewrite app_nil_r.
Qed.

(** *** The global watermark after an update *)

Definition keyed_ok (t : KeyedWatermarkTracker) : Prop :=
  Forall (λ e, is_wm e.2) (kt_entries (kt_key_states t)).

Lemma calculate_global_spec t :
  keyed_ok t → KeyedWatermarkTracker_calculate_global t = combined_spec (kt_entries (kt_key_states t)).
Proof.
  intros Hok. apply active_min_combined. eapply Forall_impl; [exact Hok|]. unfold is_wm. lia.
Qed.

Lemma try_advance_global_spec t :
  keyed_ok t →
  let spec := combined_spec (kt_entries (kt_key_states t)) in
  let r := KeyedWatermarkTracker_try_advance_global t in
  kt_global_watermark r.1 = (if spec =? i64_MIN then kt_global_watermark t else spec) ∧
  r.2 = (if (spec =? i64_MIN) || (spec =? kt_global_watermark t) then None
         else Some (Watermark_new spec)).
Proof.
  intros Hok spec r. unfold r, KeyedWatermarkTracker_try_advance_global.
  rewrite (calculate_global_spec t Hok). fold spec.
  pose proof (combined_spec_range _ Hok) as Hr. fold spec in Hr. unfold is_wm in Hr.
  destruct (Z.eqb_spec spec i64_MAX); [lia|]. destruct (Z.eqb_spec spec i64_MIN) as [|Hne]; simpl; [done|].
  destruct (Z.eqb_spec spec (kt_global_watermark t)) as [->|]; simpl; done.
Qed.

(** *** Batches and single updates *)

(** [update] event by event, stopping at the first error. *)
Fixpoint update_each (now : Instant) (t : KeyedWatermarkTracker) (events : list (K * Z))
    : KeyedWatermarkTracker * option KeyedWatermarkError :=
  match events with
  | [] => (t, None)
  | (k, e) :: rest =>
      match KeyedWatermarkTracker_update now t k e with
      | (t1, inr err) => (t1, Some err)
      | (t1, inl _) => update_each now t1 rest
      end
  end.

(** Trackers that hold the same keys with the same configuration. *)
Definition same_keys (t t' : KeyedWatermarkTracker) : Prop :=
  kt_key_states t = kt_key_states t' ∧ kt_config t = kt_config t' ∧
  kt_bounded_delay_ms t = kt_bounded_delay_ms t'.

Lemma make_room_same t t' :
  same_keys t t' →
  match make_room t, make_room t' with
  | inl t1, inl t1' => same_keys t1 t1'
  | inr e, inr e' => e = e'
  | _, _ => False
  end.
Proof.
  intros (Hs & Hc & Hd). unfold make_room, kt_len. rewrite Hs, Hc.
  destruct (kc_max_keys (kt_config t')); [|done]. case_bool_decide; [|done].
  destruct (kc_eviction_policy (kt_config t')); [..|done];
    unfold same_keys, KeyedWatermarkTracker_evict_least_recently_active,
      KeyedWatermarkTracker_evict_lowest_watermark, evict_min; rewrite Hs;
    by destruct (min_by_key _ _) as [[??]|]; simpl; rewrite ?Hs.
Qed.

Lemma update_key_same now t t' k e s :
  same_keys t t' → kt_key_states t' !! k = Some s →
  same_keys (update_key now t k e) (finish_update now t' k e).1.
Proof.
  intros (Hs & Hc & Hd) Hk. destruct (finish_update_fields now t' k e s Hk) as (Hc' & Hd' & Hs').
  unfold same_keys. rewrite Hs', Hc', Hd'. unfold update_key. rewrite Hs, Hk, Hd.
  by destruct (KeyWatermarkState_update _ _ _ _) as [s' []].
Qed.

Lemma batch_loop_update_each now evs t t' :
  same_keys t t' →
  same_keys (batch_loop now t evs).1 (update_each now t' evs).1 ∧
  (batch_loop now t evs).2 = (update_each now t' evs).2.
Proof.
  revert t t'. induction evs as [|[k e] evs IH]; intros t t' HR; simpl; [done|].
  pose proof HR as (Hs & Hc & Hd). rewrite Hs.
  destruct (update_cases now t' k e) as [(s & Hk & ->)|[(Hk & err & Hr & ->)|(Hk & t1 & Hr & ->)]];
    rewrite Hk; pose proof (make_room_same t t' HR) as Hm.
  - apply IH. by eapply update_key_same.
  - rewrite Hr in Hm. by destruct (make_room t); subst.
  - rewrite Hr in Hm. destruct (make_room t) as [t2|]; [|done]. apply IH.
    destruct Hm as (Hs2 & Hc2 & Hd2).
    eapply update_key_same; [|by apply lookup_insert_eq].
    unfold same_keys. simpl. by rewrite Hs2, Hc2, Hd2.
Qed.

End keyed.

Arguments KeyedWatermarkTracker K {_ _}.
Arguments KeyedWatermarkTrackerWithLateHandling K {_ _}.

(** ** Properties *)

(** Keys are independent: with no limit on the number of keys, after any
    sequence of events the watermark of a key is its own largest event time
    minus the configured delay (saturating), a key never seen has none, and an
    event is late exactly when it is behind its own key's watermark. *)
Theorem keyed_watermarks_independent {K} `{Countable K} iter (cfg : KeyedWatermarkConfig)
    (evs : list (Instant * K * Z)) k e :
  kc_max_keys cfg = None → 0 <= wrap_i64 (as_millis (kc_bounded_delay cfg)) →
  Forall (λ ev, is_i64 ev.2) evs →
  let t := keyed_events iter cfg evs in
  let d := wrap_i64 (as_millis (kc_bounded_delay cfg)) in
  KeyedWatermarkTracker_watermark_for_key t k = (λ m, m ⊟ d) <$> list_max (times_of k evs) ∧
  KeyedWatermarkTracker_is_late t k e =
    from_option (λ m, e <? m ⊟ d) false (list_max (times_of k evs)).
Proof.
  intros Hn Hd Hall t d. destruct (keyed_events_state iter cfg evs k Hn Hd Hall) as (_ & _ & Hst).
  fold t in Hst. unfold KeyedWatermarkTracker_watermark_for_key, KeyedWatermarkTracker_is_late,
    KeyWatermarkState_is_late.
  destruct (kt_key_states t !! k) as [s|]; simpl.
  - destruct Hst as (-> & Hw & _). simpl. by rewrite Hw.
  - by rewrite Hst.
Qed.

Lemma keyed_watermarks_independent_witness :
  let cfg := KeyedWatermarkConfig_with_bounded_delay (from_secs 5) in
  let evs := [(0, 1%positive, 10000); (0, 1%positive, 15000); (0, 2%positive, 5000)] in
  let t := keyed_events map_to_list cfg evs in
  KeyedWatermarkTracker_watermark_for_key t 1%positive = Some 10000 ∧
  KeyedWatermarkTracker_is_late t 2%positive 3000 = false.
Proof.
  intros cfg evs t.
  assert (Hall : Forall (λ ev : Z * positive * Z, is_i64 ev.2) evs).
  { repeat constructor; vm_compute; intros F; discriminate F. }
  assert (Hd : 0 <= wrap_i64 (as_millis (kc_bounded_delay cfg))).
  { vm_compute. intros F. discriminate F. }
  split.
  - exact (proj1 (keyed_watermarks_independent map_to_list cfg evs 1%positive 0 eq_refl Hd Hall)).
  - exact (proj2 (keyed_watermarks_independent map_to_list cfg evs 2%positive 3000 eq_refl Hd Hall)).
Defined.

(** The configured [max_keys] bounds memory: for every order in which the
    hash map iterates and every sequence of operations, batches included, the
    tracker holds at most [max_keys] keys (one key when the limit is zero). *)
Theorem keyed_max_keys_respected {K} `{Countable K} iter (cfg : KeyedWatermarkConfig) ops n :
  (∀ m : gmap K KeyWatermarkState, iter m ≡ₚ map_to_list m) →
  kc_max_keys cfg = Some n →
  (kt_len (foldl (keyed_step iter) (KeyedWatermarkTracker_new cfg) ops) <= Nat.max 1 n)%nat.
Proof.
  intros Hperm Hn.
  assert (Hb : key_bound cfg (foldl (keyed_step iter) (KeyedWatermarkTracker_new cfg) ops)).
  { assert (H0 : key_bound cfg (KeyedWatermarkTracker_new (K:=K) cfg)).
    { unfold key_bound, kt_len. simpl. rewrite Hn, map_size_empty. split; [done|lia]. }
    revert H0. generalize (KeyedWatermarkTracker_new (K:=K) cfg).
    induction ops as [|op ops IH]; intros t Ht; simpl; [done|].
    apply IH. by apply keyed_step_bound. }
  destruct Hb as [_ Hb]. by rewrite Hn in Hb.
Qed.

Lemma keyed_max_keys_respected_witness :
  let cfg := KeyedWatermarkConfig_with_max_keys KeyedWatermarkConfig_default 2 in
  let ops := [KBatch 0 [(1%positive, 1000); (2%positive, 2000); (3%positive, 3000)];
              KUpdate 1 4%positive 4000] in
  (kt_len (foldl (keyed_step map_to_list) (KeyedWatermarkTracker_new cfg) ops) <= 2)%nat.
Proof.
  intros cfg ops. apply (keyed_max_keys_respected map_to_list cfg ops 2).
  - intros m. reflexivity.
  - reflexivity.
Defined.

(** After a successful update the global watermark is the minimum over
    the active keys (the maximum over all when all are idle) whenever that is a
    proper watermark, even when it lies below the previous one, and the call
    returns it exactly when it changed; an update rejected by [RejectNew] changes
    nothing. *)
Theorem keyed_update_global_is_min {K} `{Countable K} iter now (t : KeyedWatermarkTracker K) k e :
  (∀ m : gmap K KeyWatermarkState, iter m ≡ₚ map_to_list m) →
  let r := KeyedWatermarkTracker_update iter now t k e in
  keyed_ok r.1 →
  match r.2 with
  | inr err => r.1 = t ∧ kt_key_states t !! k = None ∧
      ∃ n, err = MaxKeysReached n ∧ kc_max_keys (kt_config t) = Some n ∧ (n <= kt_len t)%nat ∧
           kc_eviction_policy (kt_config t) = RejectNew
  | inl wm =>
      let spec := combined_spec (kt_entries (kt_key_states r.1)) in
      kt_global_watermark r.1 = (if spec =? i64_MIN then kt_global_watermark t else spec) ∧
      wm = (if (spec =? i64_MIN) || (spec =? kt_global_watermark t) then None
            else Some (Watermark_new spec))
  end.
Proof.
  intros Hperm r Hok. subst r.
  assert (Hfin : ∀ t3 s, kt_key_states t3 !! k = Some s →
    kt_global_watermark t3 = kt_global_watermark t → keyed_ok (finish_update now t3 k e).1 →
    let spec := combined_spec (kt_entries (kt_key_states (finish_update now t3 k e).1)) in
    kt_global_watermark (finish_update now t3 k e).1 =
      (if spec =? i64_MIN then kt_global_watermark t else spec) ∧
    (finish_update now t3 k e).2 = (if (spec =? i64_MIN) || (spec =? kt_global_watermark t) then None
            else Some (Watermark_new spec))).
  { intros t3 s Hs Hg. unfold finish_update.
    set (t4 := KeyedWatermarkTracker_update_metrics_counts (update_key now t3 k e)).
    assert (Hg4 : kt_global_watermark t4 = kt_global_watermark t).
    { rewrite <- Hg. unfold t4, update_key. rewrite Hs. simpl.
      by destruct (KeyWatermarkState_update _ _ _ _) as [s' []]. }
    destruct (try_advance_global_fields t4) as (Hst & _). unfold keyed_ok. rewrite Hst.
    intros Hok4. rewrite <- Hg4. by apply try_advance_global_spec. }
  destruct (update_cases iter now t k e) as [(s & Hs & Hr)|[(Hk & err & Hmr & Hr)|(Hk & t1 & Hmr & Hr)]];
    rewrite Hr in *; cbn [fst snd] in *.
  - by eapply Hfin.
  - split_and!; [done|done|]. revert Hmr. unfold make_room.
    destruct (kc_max_keys (kt_config t)) as [n|]; [|done]. case_bool_decide; [|done].
    destruct (kc_eviction_policy (kt_config t)); [done|done|]. intros [= <-]. eauto.
  - eapply Hfin; [by apply lookup_insert_eq| |done]. simpl.
    revert Hmr. unfold make_room. repeat case_match; intros; simplify_eq; try done;
      by apply evict_min_config.
Qed.

Lemma keyed_update_global_is_min_witness :
  let cfg := KeyedWatermarkConfig_with_bounded_delay (from_secs 5) in
  let t := keyed_events map_to_list cfg [(0, 1%positive, 15000)] in
  let r := KeyedWatermarkTracker_update map_to_list 0 t 2%positive 5000 in
  KeyedWatermarkTracker_global_watermark t = Some (Watermark_new 10000) ∧
  kt_global_watermark r.1 = 0.
Proof.
  intros cfg t r. split; [reflexivity|].
  refine (proj1 (keyed_update_global_is_min map_to_list 0 t 2%positive 5000 _ _)).
  - intros m. reflexivity.
  - refine (bool_decide_unpack _ _). vm_compute. exact I.
Defined.

(** [update_batch] is equivalent to updating event by event: the same
    events are accepted or rejected, with the same error, and it ends with the
    same keys in the same states. *)
Theorem keyed_batch_equivalent {K} `{Countable K} iter now (t : KeyedWatermarkTracker K) events :
  let b := KeyedWatermarkTracker_update_batch iter now t events in
  let s := update_each iter now t events in
  kt_key_states b.1 = kt_key_states s.1 ∧
  (match b.2 with inr e => s.2 = Some e | inl _ => s.2 = None end).
Proof.
  intros b s. unfold b, s, KeyedWatermarkTracker_update_batch.
  destruct (batch_loop_update_each iter now events t t) as [(Hs & _ & _) He]; [done|].
  destruct (batch_loop iter now t events) as [t1 [err|]]; simpl in *; [done|].
  set (t2 := KeyedWatermarkTracker_update_metrics_counts _).
  destruct (try_advance_global_fields t2) as (Hst & _).
  destruct (KeyedWatermarkTracker_try_advance_global t2) as [t3 wm]; simpl in *.
  rewrite Hst. done.
Qed.

Lemma make_room_free {K} `{Countable K} iter (t : KeyedWatermarkTracker K) n :
  kc_max_keys (kt_config t) = Some n → (kt_len t < n)%nat → make_room iter t = inl t.
Proof. intros Hn Hl. unfold make_room. rewrite Hn. by rewrite bool_decide_eq_false_2 by lia. Qed.

Lemma make_room_rejects {K} `{Countable K} iter (t : KeyedWatermarkTracker K) n :
  kc_max_keys (kt_config t) = Some n → kc_eviction_policy (kt_config t) = RejectNew →
  (n <= kt_len t)%nat → make_room iter t = inr (MaxKeysReached n).
Proof. intros Hn Hp Hl. unfold make_room. rewrite Hn, Hp. by rewrite bool_decide_eq_true_2 by lia. Qed.

(** A batch rejected by [RejectNew] leaves the key metrics stale: with a
    limit of one key, a batch that brings two new keys on a fresh tracker returns
    the error with the first key inserted but [total_keys] still zero, and
    marking that key idle then makes [active_keys] wrap around to 2^64 - 1. *)
Theorem keyed_batch_error_corrupts_metrics {K} `{Countable K} iter now cfg (k1 k2 : K) e1 e2 :
  (∀ m : gmap K KeyWatermarkState, iter m ≡ₚ map_to_list m) →
  k1 ≠ k2 → kc_max_keys cfg = Some 1%nat → kc_eviction_policy cfg = RejectNew →
  let r := KeyedWatermarkTracker_update_batch iter now (KeyedWatermarkTracker_new cfg)
             [(k1, e1); (k2, e2)] in
  r.2 = inr (MaxKeysReached 1) ∧ kt_len r.1 = 1%nat ∧ km_total_keys (kt_metrics r.1) = 0 ∧
  km_active_keys (kt_metrics (KeyedWatermarkTracker_mark_idle r.1 k1).1) = u64_MOD - 1.
Proof.
  intros Hperm Hne Hn Hp.
  assert (Hr : KeyedWatermarkTracker_update_batch iter now (KeyedWatermarkTracker_new cfg)
             [(k1, e1); (k2, e2)] =
    (update_key now (kt_set_states {[k1 := KeyWatermarkState_new now]}
       (KeyedWatermarkTracker_new cfg)) k1 e1, inr (MaxKeysReached 1))).
  { unfold KeyedWatermarkTracker_update_batch. cbn [batch_loop].
    change (kt_key_states (KeyedWatermarkTracker_new cfg)) with (∅ : gmap K KeyWatermarkState).
    rewrite lookup_empty.
    rewrite (make_room_free _ (KeyedWatermarkTracker_new cfg) 1); [|done|constructor].
    change (kt_key_states (KeyedWatermarkTracker_new cfg)) with (∅ : gmap K KeyWatermarkState).
    rewrite insert_empty.
    set (t2 := kt_set_states _ _). destruct (update_key_fields now t2 k1 e1) as (Hd & Hc & _).
    assert (Hk2 : kt_key_states (update_key now t2 k1 e1) !! k2 = None).
    { apply (not_elem_of_dom (D:=gset K)). rewrite Hd. unfold t2. simpl. set_solver. }
    rewrite Hk2, (make_room_rejects _ _ 1); [done|by rewrite Hc..|].
    unfold kt_len. rewrite (size_dom_eq _ _ Hd). unfold t2. simpl. by rewrite map_size_singleton. }
  intros r. unfold r. rewrite Hr. cbn [fst snd]. clear r Hr.
  set (t2 := kt_set_states _ _). destruct (update_key_fields now t2 k1 e1) as (Hd & Hc & _ & Ht).
  split_and!; [done| |by rewrite Ht|].
  - unfold kt_len. rewrite (size_dom_eq _ _ Hd). apply map_size_singleton.
  - unfold KeyedWatermarkTracker_mark_idle, update_key. simpl. rewrite lookup_singleton_eq. simpl.
    assert (Hidle : (KeyWatermarkState_update (KeyWatermarkState_new now) e1
      (wrap_i64 (as_millis (kc_bounded_delay cfg))) now).1.(ks_is_idle) = false)
      by (unfold KeyWatermarkState_update; by repeat case_match).
    destruct (KeyWatermarkState_update _ _ _ _) as [s' adv]. simpl in Hidle.
    match goal with |- context [kt_key_states ?t !! k1] => 
      assert (Hks : kt_key_states t = {[k1 := s']}) by (by destruct adv; simpl; rewrite insert_singleton_eq) end.
    rewrite Hks, lookup_singleton_eq, Hidle.
    match goal with |- context [KeyedWatermarkTracker_try_advance_global ?t] =>
      destruct (try_advance_global_fields t) as (_ & _ & _ & _ & _ & ->) end.
    destruct adv; simpl; unfold key_count_idle; rewrite insert_singleton_eq, map_to_list_singleton;
      reflexivity.
Qed.

Lemma keyed_batch_error_corrupts_metrics_witness :
  let cfg := KeyedWatermarkConfig_with_eviction_policy
               (KeyedWatermarkConfig_with_max_keys KeyedWatermarkConfig_default 1) RejectNew in
  let r := KeyedWatermarkTracker_update_batch map_to_list 0 (KeyedWatermarkTracker_new cfg)
             [(1%positive, 100); (2%positive, 200)] in
  km_active_keys (kt_metrics (KeyedWatermarkTracker_mark_idle r.1 1%positive).1) =
    18446744073709551615.
Proof.
  intros cfg r.
  refine (proj2 (proj2 (proj2 (keyed_batch_error_corrupts_metrics map_to_list 0 cfg
            1%positive 2%positive 100 200 _ _ _ _)))).
  - intros m. reflexivity.
  - discriminate.
  - reflexivity.
  - reflexivity.
Defined.
