(* ===== verification/AlignmentGroup.v ===== *)
(** * Watermark alignment groups (crates/laminar-core/src/time/alignment_group.rs)

    A group of sources whose watermarks may drift apart by at most
    [max_drift]: the source that runs ahead is paused (or warned, or has its
    events dropped) until the others catch up, and a coordinator assigns
    sources to groups. The [FxHashMap] of sources is a [gmap]; the order in which
    [check_alignment] visits it is the parameter [iter]. Every reading of the
    clock is an argument: [clk i] is the [i]-th call of [Instant::now] or
    [Instant::elapsed] made by an operation. *)

From S2P Require Import Prelude.

Inductive EnforcementMode := Pause | WarnOnly | DropExcess.
#[export] Instance EnforcementMode_eq_dec : EqDecision EnforcementMode.
Proof. solve_decision. Defined.

Definition EnforcementMode_default : EnforcementMode := Pause.

(** [AlignmentGroupId] is a new-type over [String]. *)
Abbreviation AlignmentGroupId := string (only parsing).

Record AlignmentGroupConfig := mkAlignConfig {
  ac_group_id : AlignmentGroupId;
  ac_max_drift : Duration;
  ac_update_interval : Duration;
  ac_enforcement_mode : EnforcementMode;
}.

Definition AlignmentGroupConfig_new (group_id : AlignmentGroupId) : AlignmentGroupConfig :=
  mkAlignConfig group_id (from_secs 300) (from_secs 1) Pause.
Definition AlignmentGroupConfig_with_max_drift (c : AlignmentGroupConfig) (d : Duration)
    : AlignmentGroupConfig :=
  mkAlignConfig (ac_group_id c) d (ac_update_interval c) (ac_enforcement_mode c).
Definition AlignmentGroupConfig_with_update_interval (c : AlignmentGroupConfig) (d : Duration)
    : AlignmentGroupConfig :=
  mkAlignConfig (ac_group_id c) (ac_max_drift c) d (ac_enforcement_mode c).
Definition AlignmentGroupConfig_with_enforcement_mode (c : AlignmentGroupConfig)
    (m : EnforcementMode) : AlignmentGroupConfig :=
  mkAlignConfig (ac_group_id c) (ac_max_drift c) (ac_update_interval c) m.

Record AlignmentSourceState := mkAlignSource {
  as_source_id : nat;
  as_watermark : Z;
  as_is_paused : bool;
  as_pause_start : option Instant;
  as_total_pause_time : Duration;
  as_events_dropped : Z;
  as_last_activity : Instant;
}.

Definition AlignmentSourceState_new (now : Instant) (source_id : nat) : AlignmentSourceState :=
  mkAlignSource source_id i64_MIN false None 0 0 now.

Definition AlignmentSourceState_pause (now : Instant) (s : AlignmentSourceState)
    : AlignmentSourceState :=
  if as_is_paused s then s
  else mkAlignSource (as_source_id s) (as_watermark s) true (Some now)
         (as_total_pause_time s) (as_events_dropped s) (as_last_activity s).

Definition AlignmentSourceState_resume (now : Instant) (s : AlignmentSourceState)
    : AlignmentSourceState :=
  if as_is_paused s then
    mkAlignSource (as_source_id s) (as_watermark s) false None
      (match as_pause_start s with
       | Some start => as_total_pause_time s + elapsed now start
       | None => as_total_pause_time s
       end) (as_events_dropped s) (as_last_activity s)
  else s.

(** [source.watermark = w; source.last_activity = Instant::now()] *)
Definition as_set_watermark (now : Instant) (w : Z) (s : AlignmentSourceState)
    : AlignmentSourceState :=
  mkAlignSource (as_source_id s) w (as_is_paused s) (as_pause_start s)
    (as_total_pause_time s) (as_events_dropped s) now.
(** [source.events_dropped_while_paused += 1] *)
Definition as_count_drop (s : AlignmentSourceState) : AlignmentSourceState :=
  mkAlignSource (as_source_id s) (as_watermark s) (as_is_paused s) (as_pause_start s)
    (as_total_pause_time s) (u64_add (as_events_dropped s) 1) (as_last_activity s).
(** [source.is_paused = true] *)
Definition as_mark_paused (s : AlignmentSourceState) : AlignmentSourceState :=
  mkAlignSource (as_source_id s) (as_watermark s) true (as_pause_start s)
    (as_total_pause_time s) (as_events_dropped s) (as_last_activity s).

Record AlignmentGroupMetrics := mkAlignMetrics {
  am_pause_events : Z;
  am_resume_events : Z;
  am_total_pause_time : Duration;
  am_max_observed_drift : Duration;
  am_current_drift : Duration;
  am_events_dropped : Z;
  am_warnings_emitted : Z;
}.

Definition AlignmentGroupMetrics_new : AlignmentGroupMetrics := mkAlignMetrics 0 0 0 0 0 0 0.
Definition AlignmentGroupMetrics_reset (_ : AlignmentGroupMetrics) : AlignmentGroupMetrics :=
  AlignmentGroupMetrics_new.

Definition am_incr_pause (m : AlignmentGroupMetrics) : AlignmentGroupMetrics :=
  mkAlignMetrics (u64_add (am_pause_events m) 1) (am_resume_events m) (am_total_pause_time m)
    (am_max_observed_drift m) (am_current_drift m) (am_events_dropped m) (am_warnings_emitted m).
Definition am_incr_resume (m : AlignmentGroupMetrics) : AlignmentGroupMetrics :=
  mkAlignMetrics (am_pause_events m) (u64_add (am_resume_events m) 1) (am_total_pause_time m)
    (am_max_observed_drift m) (am_current_drift m) (am_events_dropped m) (am_warnings_emitted m).
Definition am_incr_dropped (m : AlignmentGroupMetrics) : AlignmentGroupMetrics :=
  mkAlignMetrics (am_pause_events m) (am_resume_events m) (am_total_pause_time m)
    (am_max_observed_drift m) (am_current_drift m) (u64_add (am_events_dropped m) 1)
    (am_warnings_emitted m).
Definition am_incr_warnings (m : AlignmentGroupMetrics) : AlignmentGroupMetrics :=
  mkAlignMetrics (am_pause_events m) (am_resume_events m) (am_total_pause_time m)
    (am_max_observed_drift m) (am_current_drift m) (am_events_dropped m)
    (u64_add (am_warnings_emitted m) 1).
Definition am_observe_drift (d : Duration) (m : AlignmentGroupMetrics) : AlignmentGroupMetrics :=
  mkAlignMetrics (am_pause_events m) (am_resume_events m) (am_total_pause_time m)
    (if am_max_observed_drift m <? d then d else am_max_observed_drift m) d
    (am_events_dropped m) (am_warnings_emitted m).

(** [AlignmentAction]; the prefix keeps [Pause] apart from the enforcement mode. *)
Inductive AlignmentAction :=
  ActContinue | ActPause | ActResume | ActDrop | ActWarn (drift_ms : Z).
#[export] Instance AlignmentAction_eq_dec : EqDecision AlignmentAction.
Proof. solve_decision. Defined.

(** ** The group *)

Record WatermarkAlignmentGroup := mkGroup {
  ag_config : AlignmentGroupConfig;
  ag_sources : gmap nat AlignmentSourceState;
  ag_min_watermark : Z;
  ag_max_watermark : Z;
  ag_last_check : Instant;
  ag_metrics : AlignmentGroupMetrics;
}.

Definition WatermarkAlignmentGroup_new (now : Instant) (config : AlignmentGroupConfig)
    : WatermarkAlignmentGroup :=
  mkGroup config ∅ i64_MIN i64_MIN now AlignmentGroupMetrics_new.

Definition ag_set_sources (m : gmap nat AlignmentSourceState) (g : WatermarkAlignmentGroup)
    : WatermarkAlignmentGroup :=
  mkGroup (ag_config g) m (ag_min_watermark g) (ag_max_watermark g) (ag_last_check g)
    (ag_metrics g).
Definition ag_set_metrics (m : AlignmentGroupMetrics) (g : WatermarkAlignmentGroup)
    : WatermarkAlignmentGroup :=
  mkGroup (ag_config g) (ag_sources g) (ag_min_watermark g) (ag_max_watermark g)
    (ag_last_check g) m.
(** [if let Some(source) = self.sources.get_mut(&id) { f(source) }] *)
Definition ag_alter (f : AlignmentSourceState → AlignmentSourceState) (id : nat)
    (g : WatermarkAlignmentGroup) : WatermarkAlignmentGroup :=
  ag_set_sources (alter f id (ag_sources g)) g.

(** [!s.is_paused && s.watermark != i64::MIN] *)
Definition contributes (s : AlignmentSourceState) : bool :=
  negb (as_is_paused s) && negb (as_watermark s =? i64_MIN).

(** The watermarks of the contributing sources, in map order. *)
Definition active_watermarks (m : gmap nat AlignmentSourceState) : list Z :=
  map (λ p, as_watermark p.2) (filter (λ p, contributes p.2 = true) (map_to_list m)).

Definition WatermarkAlignmentGroup_recalculate_bounds (g : WatermarkAlignmentGroup)
    : WatermarkAlignmentGroup :=
  let ws := active_watermarks (ag_sources g) in
  let '(mn, mx) := match list_min ws, list_max ws with
                   | Some mn, Some mx => (mn, mx)
                   | _, _ => (i64_MIN, i64_MIN)
                   end in
  mkGroup (ag_config g) (ag_sources g) mn mx (ag_last_check g) (ag_metrics g).

Definition WatermarkAlignmentGroup_register_source (now : Instant) (g : WatermarkAlignmentGroup)
    (source_id : nat) : WatermarkAlignmentGroup :=
  match ag_sources g !! source_id with
  | Some _ => g
  | None => ag_set_sources (<[source_id := AlignmentSourceState_new now source_id]> (ag_sources g)) g
  end.

Definition WatermarkAlignmentGroup_unregister_source (g : WatermarkAlignmentGroup)
    (source_id : nat) : WatermarkAlignmentGroup :=
  WatermarkAlignmentGroup_recalculate_bounds (ag_set_sources (delete source_id (ag_sources g)) g).

Definition WatermarkAlignmentGroup_can_resume_with_watermark (g : WatermarkAlignmentGroup)
    (source_id : nat) (watermark : Z) : bool :=
  let min_without_source :=
    default i64_MIN (list_min (active_watermarks (delete source_id (ag_sources g)))) in
  if min_without_source =? i64_MIN then true
  else from_millis (Z.max 0 (watermark ⊟ min_without_source)) <=? ac_max_drift (ag_config g).

Definition WatermarkAlignmentGroup_is_paused (g : WatermarkAlignmentGroup) (source_id : nat) : bool :=
  match ag_sources g !! source_id with Some s => as_is_paused s | None => false end.

Definition WatermarkAlignmentGroup_should_resume (g : WatermarkAlignmentGroup) (source_id : nat)
    : bool :=
  match ag_sources g !! source_id with
  | None => false
  | Some s =>
      if negb (as_is_paused s) then false
      else WatermarkAlignmentGroup_can_resume_with_watermark g source_id (as_watermark s)
  end.

(** The current drift computed by [report_watermark]. *)
Definition group_drift (g : WatermarkAlignmentGroup) : Duration :=
  if (ag_min_watermark g =? i64_MIN) || (ag_max_watermark g =? i64_MIN) then 0
  else from_millis (Z.max 0 (ag_max_watermark g ⊟ ag_min_watermark g)).

(** The tail of [report_watermark], for a source that is not held back: store
    the watermark, recompute the bounds and enforce the drift limit. *)
Definition report_active (clk : nat → Instant) (g : WatermarkAlignmentGroup) (source_id : nat)
    (watermark : Z) : WatermarkAlignmentGroup * AlignmentAction :=
  let g1 := ag_alter (as_set_watermark (clk 1%nat) watermark) source_id g in
  let g2 := WatermarkAlignmentGroup_recalculate_bounds g1 in
  let current_drift := group_drift g2 in
  let g3 := ag_set_metrics (am_observe_drift current_drift (ag_metrics g2)) g2 in
  if (watermark =? ag_max_watermark g3) && (ac_max_drift (ag_config g3) <? current_drift) then
    match ac_enforcement_mode (ag_config g3) with
    | Pause =>
        let g4 := ag_alter (AlignmentSourceState_pause (clk 2%nat)) source_id g3 in
        (ag_set_metrics (am_incr_pause (ag_metrics g4)) g4, ActPause)
    | WarnOnly =>
        (ag_set_metrics (am_incr_warnings (ag_metrics g3)) g3,
         ActWarn (Z.min (as_millis current_drift) i64_MAX))
    | DropExcess =>
        let g4 := ag_alter (λ s, as_count_drop (as_mark_paused s)) source_id g3 in
        (ag_set_metrics (am_incr_dropped (ag_metrics g4)) g4, ActDrop)
    end
  else (g3, ActContinue).

Definition WatermarkAlignmentGroup_report_watermark (clk : nat → Instant)
    (g0 : WatermarkAlignmentGroup) (source_id : nat) (watermark : Z)
    : WatermarkAlignmentGroup * AlignmentAction :=
  let g := WatermarkAlignmentGroup_register_source (clk 0%nat) g0 source_id in
  if WatermarkAlignmentGroup_is_paused g source_id then
    match ac_enforcement_mode (ag_config g) with
    | Pause =>
        if WatermarkAlignmentGroup_can_resume_with_watermark g source_id watermark then
          let g1 := ag_alter (λ s, AlignmentSourceState_resume (clk 2%nat)
                                     (as_set_watermark (clk 1%nat) watermark s)) source_id g in
          let g2 := ag_set_metrics (am_incr_resume (ag_metrics g1)) g1 in
          (WatermarkAlignmentGroup_recalculate_bounds g2, ActResume)
        else (g, ActPause)
    | DropExcess =>
        let g1 := ag_alter as_count_drop source_id g in
        (ag_set_metrics (am_incr_dropped (ag_metrics g1)) g1, ActDrop)
    | WarnOnly => report_active clk g source_id watermark
    end
  else report_active clk g source_id watermark.

(** [paused_source_count] / [active_source_count] *)
Definition WatermarkAlignmentGroup_paused_source_count (g : WatermarkAlignmentGroup) : nat :=
  length (filter (λ p, as_is_paused p.2 = true) (map_to_list (ag_sources g))).
Definition WatermarkAlignmentGroup_active_source_count (g : WatermarkAlignmentGroup) : nat :=
  length (filter (λ p, as_is_paused p.2 = false) (map_to_list (ag_sources g))).

(** The [for] loop of [check_alignment] over the paused sources. *)
Fixpoint resume_loop (rclk : nat → Instant) (g : WatermarkAlignmentGroup) (paused_sources : list nat)
    : WatermarkAlignmentGroup * list (nat * AlignmentAction) :=
  match paused_sources with
  | [] => (g, [])
  | source_id :: rest =>
      if WatermarkAlignmentGroup_should_resume g source_id then
        let g1 := ag_alter (AlignmentSourceState_resume (rclk source_id)) source_id g in
        let g2 := ag_set_metrics (am_incr_resume (ag_metrics g1)) g1 in
        let '(g3, actions) := resume_loop rclk g2 rest in
        (g3, (source_id, ActResume) :: actions)
      else resume_loop rclk g rest
  end.

Section Check.
Context (iter : gmap nat AlignmentSourceState → list (nat * AlignmentSourceState)).

Definition paused_sources (g : WatermarkAlignmentGroup) : list nat :=
  map fst (filter (λ p, as_is_paused p.2 = true) (iter (ag_sources g))).

(** [clk 0] is the reading behind [last_check.elapsed()], [clk 1] the new
    [last_check]; [rclk id] the reading taken when source [id] resumes. *)
Definition WatermarkAlignmentGroup_check_alignment (clk rclk : nat → Instant)
    (g : WatermarkAlignmentGroup) : WatermarkAlignmentGroup * list (nat * AlignmentAction) :=
  if elapsed (clk 0%nat) (ag_last_check g) <? ac_update_interval (ag_config g) then (g, [])
  else
    let g1 := mkGroup (ag_config g) (ag_sources g) (ag_min_watermark g) (ag_max_watermark g)
                (clk 1%nat) (ag_metrics g) in
    let '(g2, actions) := resume_loop rclk g1 (paused_sources g1) in
    (match actions with
     | [] => g2
     | _ => WatermarkAlignmentGroup_recalculate_bounds g2
     end, actions).
End Check.

(** ** The coordinator *)

Inductive AlignmentError :=
| SourceNotInGroup (source_id : nat)
| GroupNotFound (group_id : AlignmentGroupId)
| SourceAlreadyInGroup (source_id : nat) (group_id : AlignmentGroupId).

Record AlignmentGroupCoordinator := mkCoordinator {
  co_groups : gmap string WatermarkAlignmentGroup;
  co_source_groups : gmap nat string;
}.

Definition AlignmentGroupCoordinator_new : AlignmentGroupCoordinator := mkCoordinator ∅ ∅.

Definition AlignmentGroupCoordinator_add_group (now : Instant) (c : AlignmentGroupCoordinator)
    (config : AlignmentGroupConfig) : AlignmentGroupCoordinator :=
  mkCoordinator (<[ac_group_id config := WatermarkAlignmentGroup_new now config]> (co_groups c))
    (co_source_groups c).

Definition AlignmentGroupCoordinator_remove_group (c : AlignmentGroupCoordinator)
    (group_id : AlignmentGroupId) : AlignmentGroupCoordinator * option WatermarkAlignmentGroup :=
  (mkCoordinator (delete group_id (co_groups c))
     (filter (λ p, p.2 ≠ group_id) (co_source_groups c)),
   co_groups c !! group_id).

Definition AlignmentGroupCoordinator_assign_source_to_group (now : Instant)
    (c : AlignmentGroupCoordinator) (source_id : nat) (group_id : AlignmentGroupId)
    : AlignmentGroupCoordinator * (unit + AlignmentError) :=
  match co_source_groups c !! source_id with
  | Some existing_group =>
      if bool_decide (existing_group ≠ group_id)
      then (c, inr (SourceAlreadyInGroup source_id existing_group))
      else (c, inl tt)
  | None =>
      match co_groups c !! group_id with
      | None => (c, inr (GroupNotFound group_id))
      | Some group =>
          (mkCoordinator
             (<[group_id := WatermarkAlignmentGroup_register_source now group source_id]> (co_groups c))
             (<[source_id := group_id]> (co_source_groups c)), inl tt)
      end
  end.

Definition AlignmentGroupCoordinator_unassign_source (c : AlignmentGroupCoordinator)
    (source_id : nat) : AlignmentGroupCoordinator :=
  match co_source_groups c !! source_id with
  | None => c
  | Some group_id =>
      mkCoordinator
        (match co_groups c !! group_id with
         | Some group =>
             <[group_id := WatermarkAlignmentGroup_unregister_source group source_id]> (co_groups c)
         | None => co_groups c
         end) (delete source_id (co_source_groups c))
  end.

Definition AlignmentGroupCoordinator_report_watermark (clk : nat → Instant)
    (c : AlignmentGroupCoordinator) (source_id : nat) (watermark : Z)
    : AlignmentGroupCoordinator * option AlignmentAction :=
  match co_source_groups c !! source_id with
  | None => (c, None)
  | Some group_id =>
      match co_groups c !! group_id with
      | None => (c, None)
      | Some group =>
          let '(group', a) := WatermarkAlignmentGroup_report_watermark clk group source_id watermark in
          (mkCoordinator (<[group_id := group']> (co_groups c)) (co_source_groups c), Some a)
      end
  end.

(** [check_all_alignments]: the groups are visited in the order [giter]; each
    group reads its own clocks. *)
Definition AlignmentGroupCoordinator_check_all_alignments
    (iter : gmap nat AlignmentSourceState → list (nat * AlignmentSourceState))
    (giter : gmap string WatermarkAlignmentGroup → list (string * WatermarkAlignmentGroup))
    (clk rclk : string → nat → Instant) (c : AlignmentGroupCoordinator)
    : AlignmentGroupCoordinator * list (nat * AlignmentAction) :=
  (mkCoordinator
     (map_imap (λ id g,
        Some (WatermarkAlignmentGroup_check_alignment iter (clk id) (rclk id) g).1) (co_groups c))
     (co_source_groups c),
   mjoin (map (λ p, (WatermarkAlignmentGroup_check_alignment iter (clk p.1) (rclk p.1) p.2).2)
            (giter (co_groups c)))).

Definition AlignmentGroupCoordinator_should_resume (c : AlignmentGroupCoordinator)
    (source_id : nat) : bool :=
  match co_source_groups c !! source_id with
  | None => false
  | Some group_id =>
      match co_groups c !! group_id with
      | None => false
      | Some group => WatermarkAlignmentGroup_should_resume group source_id
      end
  end.

Definition AlignmentGroupCoordinator_is_paused (c : AlignmentGroupCoordinator)
    (source_id : nat) : bool :=
  match co_source_groups c !! source_id with
  | None => false
  | Some group_id =>
      match co_groups c !! group_id with
      | None => false
      | Some group => WatermarkAlignmentGroup_is_paused group source_id
      end
  end.

(** ** Lemmas on the contributing sources *)

(** The watermarks of the contributing sources other than [id]. *)
Definition other_watermarks (g : WatermarkAlignmentGroup) (id : nat) : list Z :=
  active_watermarks (delete id (ag_sources g)).

Lemma elem_of_active_watermarks m w :
  w ∈ active_watermarks m ↔
  ∃ id s, m !! id = Some s ∧ contributes s = true ∧ as_watermark s = w.
Proof.
  unfold active_watermarks. rewrite list_elem_of_fmap. split.
  - intros ([id s] & -> & [Hc Hin]%list_elem_of_filter).
    apply elem_of_map_to_list in Hin. naive_solver.
  - intros (id & s & Hl & Hc & <-). exists (id, s). split; [done|].
    apply list_elem_of_filter. split; [done|]. by apply elem_of_map_to_list.
Qed.

Lemma contributes_spec s :
  contributes s = true ↔ as_is_paused s = false ∧ as_watermark s ≠ i64_MIN.
Proof. unfold contributes. destruct (as_is_paused s); zcase; naive_solver. Qed.

Lemma active_watermarks_not_MIN m w : w ∈ active_watermarks m → w ≠ i64_MIN.
Proof. intros (id & s & _ & [_ Hw]%contributes_spec & <-)%elem_of_active_watermarks. done. Qed.

Lemma active_watermarks_split m id s :
  m !! id = Some s →
  active_watermarks m ≡ₚ
    (if contributes s then [as_watermark s] else []) ++ active_watermarks (delete id m).
Proof.
  intros Hl. unfold active_watermarks.
  rewrite <- (insert_delete_id m id s) at 1 by done.
  rewrite map_to_list_insert by apply lookup_delete_eq. rewrite filter_cons. simpl.
  destruct (contributes s); case_decide; done.
Qed.

Lemma active_watermarks_alter m id s f :
  m !! id = Some s →
  active_watermarks (alter f id m) ≡ₚ
    (if contributes (f s) then [as_watermark (f s)] else []) ++ active_watermarks (delete id m).
Proof.
  intros Hl. rewrite (active_watermarks_split _ id (f s)) by (by rewrite lookup_alter_eq, Hl).
  by rewrite delete_alter_eq.
Qed.

(** The bounds as the minimum and the maximum of a list of watermarks. *)
Definition bounds_of (ws : list Z) : Z * Z :=
  (default i64_MIN (list_min ws), default i64_MIN (list_max ws)).

Lemma recalculate_bounds_spec g :
  let g' := WatermarkAlignmentGroup_recalculate_bounds g in
  (ag_min_watermark g', ag_max_watermark g') = bounds_of (active_watermarks (ag_sources g)) ∧
  ag_sources g' = ag_sources g ∧ ag_config g' = ag_config g ∧ ag_metrics g' = ag_metrics g.
Proof.
  unfold WatermarkAlignmentGroup_recalculate_bounds, bounds_of.
  destruct (active_watermarks (ag_sources g)) as [|x l]; [done|]. simpl. done.
Qed.

Lemma registered_lookup now g id :
  ∃ s, ag_sources (WatermarkAlignmentGroup_register_source now g id) !! id = Some s ∧
    as_is_paused s = WatermarkAlignmentGroup_is_paused g id.
Proof.
  unfold WatermarkAlignmentGroup_register_source, WatermarkAlignmentGroup_is_paused.
  destruct (ag_sources g !! id) as [s|] eqn:E; [by exists s|].
  eexists. simpl. by rewrite lookup_insert_eq.
Qed.

Lemma register_others now g id :
  delete id (ag_sources (WatermarkAlignmentGroup_register_source now g id)) =
    delete id (ag_sources g) ∧
  ag_config (WatermarkAlignmentGroup_register_source now g id) = ag_config g.
Proof.
  unfold WatermarkAlignmentGroup_register_source.
  destruct (ag_sources g !! id) eqn:E; [done|]. simpl. by rewrite delete_insert_eq.
Qed.

(** The drift limit is exceeded by [w] of source [id]: no other contributing
    source is ahead of [w], and the slowest of them is further behind than
    allowed. *)
Definition exceeds_drift (g : WatermarkAlignmentGroup) (id : nat) (w : Z) : bool :=
  match list_min (other_watermarks g id), list_max (other_watermarks g id) with
  | Some m, Some M => (M <=? w) && (ac_max_drift (ag_config g) <? from_millis (w ⊟ m))
  | _, _ => false
  end.

Lemma bounds_cons w l :
  list_min (w :: l) = Some (default w (Z.min w <$> list_min l)) ∧
  list_max (w :: l) = Some (default w (Z.max w <$> list_max l)).
Proof. simpl. by destruct (list_min l), (list_max l). Qed.

(** The test of [report_watermark] after the bounds were recomputed over
    [w] and the other contributing sources is [exceeds_drift]. *)
Lemma drift_test g id w ws :
  0 <= ac_max_drift (ag_config g) → is_i64 w →
  Forall is_i64 (other_watermarks g id) →
  ws ≡ₚ (if w =? i64_MIN then [] else [w]) ++ other_watermarks g id →
  let '(mn, mx) := bounds_of ws in
  let d := if (mn =? i64_MIN) || (mx =? i64_MIN) then 0 else from_millis (Z.max 0 (mx ⊟ mn)) in
  (w =? mx) && (ac_max_drift (ag_config g) <? d) = exceeds_drift g id w ∧
  (exceeds_drift g id w = true →
     d = from_millis (w ⊟ default 0 (list_min (other_watermarks g id))) ∧ w <> i64_MIN).
Proof.
  intros Hd Hw Hall Hp. unfold bounds_of.
  rewrite (list_min_perm _ _ Hp), (list_max_perm _ _ Hp). clear Hp ws. unfold exceeds_drift.
  assert (Hne : Forall (λ x, x ≠ i64_MIN) (other_watermarks g id)).
  { apply Forall_forall. intros x. apply active_watermarks_not_MIN. }
  set (l := other_watermarks g id) in *. clearbody l.
  destruct (list_min l) as [m|] eqn:Em; [|apply list_min_None in Em as ->].
  2: { simpl. destruct (Z.eqb_spec w i64_MIN) as [->|]; simpl; (split; [|done]); zcase;
         int_lia || done. }
  destruct (list_max l) as [M|] eqn:EM; [|apply list_max_None in EM as ->; done].
  pose proof Em as [Hm Hmin]%list_min_Some. pose proof EM as [HM Hmax]%list_max_Some.
  rewrite Forall_forall in Hall, Hne.
  pose proof (Hall _ Hm). pose proof (Hall _ HM). pose proof (Hne _ Hm). pose proof (Hne _ HM).
  pose proof (Hmin _ HM). 
  destruct (Z.eqb_spec w i64_MIN) as [->|Hwm];
    cbn [app]; rewrite ?(proj1 (bounds_cons _ _)), ?(proj2 (bounds_cons _ _)), ?Em, ?EM;
    cbn [default fmap option_fmap option_map from_option Datatypes.id].
  - assert (Hx : i64_MIN =? M = false) by (apply Z.eqb_neq; done). rewrite Hx. clear Hx.
    rewrite (proj2 (Z.leb_gt M i64_MIN)) by int_lia. done.
  - split; zcase; simpl in *; try done; int_lia.
Qed.

(** ** Reporting a watermark *)

Lemma alter_Some_insert {A} (f : A → A) (m : gmap nat A) i x :
  m !! i = Some x → alter f i m = <[i := f x]> m.
Proof. intros Hi. rewrite <- (insert_id m i x) at 1 by done. apply alter_insert_eq. Qed.

Lemma report_active_spec clk g id w s :
  ag_sources g !! id = Some s → as_is_paused s = false →
  0 <= ac_max_drift (ag_config g) → is_i64 w → Forall is_i64 (other_watermarks g id) →
  let r := report_active clk g id w in
  let ex := exceeds_drift g id w in
  r.2 = (if ex then match ac_enforcement_mode (ag_config g) with
                    | Pause => ActPause
                    | WarnOnly => ActWarn (w ⊟ default 0 (list_min (other_watermarks g id)))
                    | DropExcess => ActDrop
                    end
         else ActContinue) ∧
  (∃ s', ag_sources r.1 = <[id := s']> (ag_sources g) ∧ as_watermark s' = w ∧
     as_is_paused s' = ex && negb (bool_decide (ac_enforcement_mode (ag_config g) = WarnOnly))) ∧
  ag_config r.1 = ag_config g.
Proof.
  intros Hl Hp Hd Hw Hall r ex. unfold r, report_active.
  set (g1 := ag_alter _ _ _). destruct (recalculate_bounds_spec g1) as (Hb & Hs & Hc & Hm).
  set (g2 := WatermarkAlignmentGroup_recalculate_bounds g1) in *.
  assert (Hperm : active_watermarks (ag_sources g1) ≡ₚ
            (if w =? i64_MIN then [] else [w]) ++ other_watermarks g id).
  { unfold g1. simpl. rewrite (active_watermarks_alter _ _ s) by done.
    unfold contributes. simpl. rewrite Hp. simpl. by destruct (w =? i64_MIN). }
  pose proof (drift_test g id w _ Hd Hw Hall Hperm) as Ht. rewrite <- Hb in Ht.
  fold ex in Ht. change (if (ag_min_watermark g2 =? i64_MIN) || _ then _ else _) with (group_drift g2) in Ht.
  destruct Ht as [Ht Hd2]. cbn [ag_max_watermark ag_config ag_set_metrics].
  rewrite Hc. change (ag_config g1) with (ag_config g). rewrite Ht.
  destruct ex; [destruct (Hd2 eq_refl) as [Hg2 _]|].
  - assert (Hi : is_i64 (w ⊟ default 0 (list_min (other_watermarks g id)))) by apply sat_sub_i64.
    destruct (ac_enforcement_mode (ag_config g)); simpl; (split; [|split; [|done]]);
      try done; rewrite ?Hs; unfold g1; simpl; rewrite ?alter_alter_eq.
    + eexists. split; [by apply alter_Some_insert|]. unfold AlignmentSourceState_pause. simpl. by rewrite Hp.
    + rewrite Hg2. f_equal. unfold as_millis, from_millis. rewrite Z.div_mul by done. int_lia.
    + eexists. split; [by apply alter_Some_insert|]. simpl. by rewrite Hp.
    + eexists. split; [by apply alter_Some_insert|]. done.
  - simpl. split; [done|]. split; [|done]. rewrite Hs. eexists.
    split; [by apply alter_Some_insert|]. simpl. by rewrite Hp.
Qed.

(** Well-formed groups: machine-width watermarks and a non-negative limit
    ([Duration] is unsigned). *)
Definition group_ok (g : WatermarkAlignmentGroup) : Prop :=
  0 <= ac_max_drift (ag_config g) ∧ map_Forall (λ _ s, is_i64 (as_watermark s)) (ag_sources g).

Lemma group_ok_others g id : group_ok g → Forall is_i64 (other_watermarks g id).
Proof.
  intros [_ Hall]. apply Forall_forall. intros w (i & s & Hs & _ & <-)%elem_of_active_watermarks.
  apply lookup_delete_Some in Hs as [_ Hs]. exact (Hall _ _ Hs).
Qed.

(** What registering on first contact leaves to the rest of [report_watermark]. *)
Lemma report_registered now g id w :
  let g' := WatermarkAlignmentGroup_register_source now g id in
  exceeds_drift g' id w = exceeds_drift g id w ∧
  other_watermarks g' id = other_watermarks g id ∧
  (∀ x, WatermarkAlignmentGroup_can_resume_with_watermark g' id x =
        WatermarkAlignmentGroup_can_resume_with_watermark g id x) ∧
  (∀ s, <[id := s]> (ag_sources g') = <[id := s]> (ag_sources g)) ∧
  WatermarkAlignmentGroup_is_paused g' id = WatermarkAlignmentGroup_is_paused g id.
Proof.
  intros g'. destruct (register_others now g id) as [Ho Hc]. fold g' in Ho, Hc.
  assert (Hw : other_watermarks g' id = other_watermarks g id)
    by (unfold other_watermarks; by rewrite Ho).
  split_and!; [|done| | |].
  - unfold exceeds_drift. by rewrite Hw, Hc.
  - intros x. unfold WatermarkAlignmentGroup_can_resume_with_watermark. by rewrite Ho, Hc.
  - intros s. rewrite <- (insert_delete_eq _ _ s), Ho. apply insert_delete_eq.
  - destruct (registered_lookup now g id) as (s & Hs & Hp). fold g' in Hs.
    unfold WatermarkAlignmentGroup_is_paused at 1. by rewrite Hs.
Qed.

(** [report_watermark] on a source that is not held back. *)
Lemma report_unpaused clk g id w :
  group_ok g → is_i64 w → WatermarkAlignmentGroup_is_paused g id = false →
  let r := WatermarkAlignmentGroup_report_watermark clk g id w in
  let ex := exceeds_drift g id w in
  r.2 = (if ex then match ac_enforcement_mode (ag_config g) with
                    | Pause => ActPause
                    | WarnOnly => ActWarn (w ⊟ default 0 (list_min (other_watermarks g id)))
                    | DropExcess => ActDrop
                    end
         else ActContinue) ∧
  (∃ s', ag_sources r.1 = <[id := s']> (ag_sources g) ∧ as_watermark s' = w ∧
     as_is_paused s' = ex && negb (bool_decide (ac_enforcement_mode (ag_config g) = WarnOnly))) ∧
  ag_config r.1 = ag_config g.
Proof.
  intros Hok Hw Hp r ex. unfold r, WatermarkAlignmentGroup_report_watermark.
  destruct (report_registered (clk 0%nat) g id w) as (Hex & Hot & _ & Hins & Hp').
  destruct (registered_lookup (clk 0%nat) g id) as (s & Hs & Hps).
  destruct (register_others (clk 0%nat) g id) as [_ Hc].
  set (g' := WatermarkAlignmentGroup_register_source (clk 0%nat) g id) in *.
  rewrite Hp', Hp. rewrite Hp in Hps.
  destruct (report_active_spec clk g' id w s) as (Ha & (s' & Hs' & Hrest) & Hcc);
    rewrite ?Hc, ?Hot in *; try done; [by apply Hok|by apply group_ok_others|].
  rewrite Hex in *. split_and!; [done| |done]. exists s'. rewrite Hs'. by split; [apply Hins|].
Qed.

(** [report_watermark] on a source held back in [Pause] mode. *)
Lemma report_paused clk g id w :
  ac_enforcement_mode (ag_config g) = Pause → WatermarkAlignmentGroup_is_paused g id = true →
  let r := WatermarkAlignmentGroup_report_watermark clk g id w in
  let ok := WatermarkAlignmentGroup_can_resume_with_watermark g id w in
  (ok = false → r = (g, ActPause)) ∧
  (ok = true → r.2 = ActResume ∧ ag_config r.1 = ag_config g ∧
     ∃ s', ag_sources r.1 = <[id := s']> (ag_sources g) ∧ as_watermark s' = w ∧
       as_is_paused s' = false).
Proof.
  intros Hm Hp r ok. unfold r, ok, WatermarkAlignmentGroup_report_watermark.
  assert (WatermarkAlignmentGroup_register_source (clk 0%nat) g id = g ∧
            ∃ s, ag_sources g !! id = Some s ∧ as_is_paused s = true) as [-> (s & Hs & Hsp)].
  { unfold WatermarkAlignmentGroup_register_source.
    unfold WatermarkAlignmentGroup_is_paused in Hp.
    destruct (ag_sources g !! id) as [s|] eqn:E; [|done]. split; [done|]. by exists s. }
  rewrite Hp, Hm. destruct (WatermarkAlignmentGroup_can_resume_with_watermark g id w);
    (split; [done|]); [|done]. intros _.
  simpl. set (g2 := ag_set_metrics _ _).
  destruct (recalculate_bounds_spec g2) as (_ & -> & -> & _). split_and!; [done..|].
  eexists. split; [by apply alter_Some_insert|].
  unfold AlignmentSourceState_resume. simpl. by rewrite Hsp.
Qed.

Lemma can_resume_iff g id w :
  WatermarkAlignmentGroup_can_resume_with_watermark g id w = true ↔
  ∀ m, list_min (other_watermarks g id) = Some m →
       from_millis (Z.max 0 (w ⊟ m)) <= ac_max_drift (ag_config g).
Proof.
  unfold WatermarkAlignmentGroup_can_resume_with_watermark.
  change (active_watermarks (delete id (ag_sources g))) with (other_watermarks g id).
  destruct (list_min (other_watermarks g id)) as [m|] eqn:E; simpl; [|naive_solver].
  assert (m ≠ i64_MIN).
  { apply list_min_Some in E as [Hm _]. by apply active_watermarks_not_MIN in Hm. }
  rewrite (proj2 (Z.eqb_neq _ _)) by done. rewrite Z.leb_le. naive_solver.
Qed.

(** ** Resuming paused sources *)

(** Resuming one source can only hold the others back more. *)
Lemma resume_keeps_settled g j now id :
  WatermarkAlignmentGroup_should_resume g id = false →
  WatermarkAlignmentGroup_should_resume (ag_alter (AlignmentSourceState_resume now) j g) id = false.
Proof.
  unfold WatermarkAlignmentGroup_should_resume. simpl.
  destruct (decide (j = id)) as [->|Hne].
  { rewrite lookup_alter_eq. destruct (ag_sources g !! id) as [s|]; simpl; [|done].
    unfold AlignmentSourceState_resume at 1. destruct (as_is_paused s) eqn:Hp; simpl; by rewrite ?Hp. }
  rewrite lookup_alter_ne by done. destruct (ag_sources g !! id) as [s|] eqn:Hs; [|done].
  destruct (as_is_paused s) eqn:Hp; simpl; [|done]. intros Hno.
  apply not_true_iff_false. intros Hyes. apply not_true_iff_false in Hno. apply Hno.
  rewrite can_resume_iff in Hyes |- *. intros m Hm. simpl in Hyes.
  set (g' := ag_alter _ j g) in *.
  assert (Hsub : ∀ x, x ∈ other_watermarks g id → x ∈ other_watermarks g' id).
  { intros x (i & t & Hi & Ht & <-)%elem_of_active_watermarks.
    apply elem_of_active_watermarks. apply lookup_delete_Some in Hi as [Hid Hi].
    apply contributes_spec in Ht as [Htp Htw].
    exists i, t. split_and!; [|by apply contributes_spec|done].
    apply lookup_delete_Some. split; [done|]. unfold g'. simpl.
    rewrite lookup_alter. case_decide; [|done]. subst. rewrite Hi. simpl.
    unfold AlignmentSourceState_resume. by rewrite Htp. }
  destruct (list_min (other_watermarks g' id)) as [m'|] eqn:Hm'.
  - specialize (Hyes _ eq_refl). apply list_min_Some in Hm as [Hm _].
    apply list_min_Some in Hm' as [_ Hle]. specialize (Hle _ (Hsub _ Hm)).
    change (ag_config g') with (ag_config g) in Hyes. int_lia.
  - apply list_min_None in Hm'. apply list_min_Some in Hm as [Hm _]. apply Hsub in Hm.
    rewrite Hm' in Hm. by apply not_elem_of_nil in Hm.
Qed.

Lemma should_resume_frame g g' id :
  ag_sources g' = ag_sources g → ag_config g' = ag_config g →
  WatermarkAlignmentGroup_should_resume g' id = WatermarkAlignmentGroup_should_resume g id.
Proof.
  intros Hs Hc. unfold WatermarkAlignmentGroup_should_resume,
    WatermarkAlignmentGroup_can_resume_with_watermark. by rewrite Hs, Hc.
Qed.

Lemma should_resume_paused g id :
  WatermarkAlignmentGroup_should_resume g id = true → WatermarkAlignmentGroup_is_paused g id = true.
Proof.
  unfold WatermarkAlignmentGroup_should_resume, WatermarkAlignmentGroup_is_paused.
  destruct (ag_sources g !! id) as [s|]; [|done]. by destruct (as_is_paused s).
Qed.

Lemma is_paused_resume now j g id :
  WatermarkAlignmentGroup_is_paused (ag_alter (AlignmentSourceState_resume now) j g) id =
    WatermarkAlignmentGroup_is_paused g id && negb (bool_decide (j = id)).
Proof.
  unfold WatermarkAlignmentGroup_is_paused. simpl. rewrite lookup_alter.
  case_decide as Hj.
  - subst. rewrite bool_decide_eq_true_2 by done. destruct (ag_sources g !! id) as [s|]; simpl; [|done].
    unfold AlignmentSourceState_resume. by destruct (as_is_paused s) eqn:E.
  - rewrite bool_decide_eq_false_2 by done. destruct (ag_sources g !! id); simpl; [|done].
    by rewrite andb_true_r.
Qed.

(** The whole loop: every visited source is settled, settled sources stay so,
    and a source is resumed exactly when an action for it is returned. *)
Lemma resume_loop_spec rclk l : ∀ g, NoDup l →
  let r := resume_loop rclk g l in
  (∀ id, id ∈ l ∨ WatermarkAlignmentGroup_should_resume g id = false →
         WatermarkAlignmentGroup_should_resume r.1 id = false) ∧
  (∀ id, WatermarkAlignmentGroup_is_paused r.1 id =
         WatermarkAlignmentGroup_is_paused g id && negb (bool_decide (id ∈ r.2.*1))) ∧
  (∀ id, id ∈ r.2.*1 → WatermarkAlignmentGroup_is_paused g id = true) ∧
  Forall (λ p, p.2 = ActResume) r.2 ∧
  NoDup r.2.*1 ∧ ag_config r.1 = ag_config g.
Proof.
  induction l as [|j l IH]; intros g Hnd; simpl.
  { split_and!; try done; try by constructor.
    - intros id [[]%not_elem_of_nil|]; done.
    - intros id. by rewrite andb_true_r.
    - intros id Hid. by apply not_elem_of_nil in Hid. }
  apply NoDup_cons in Hnd as [Hj Hnd].
  destruct (WatermarkAlignmentGroup_should_resume g j) eqn:Hr.
  - set (g1 := ag_alter (AlignmentSourceState_resume (rclk j)) j g).
    set (g2 := ag_set_metrics _ g1). specialize (IH g2 Hnd). simpl in IH.
    destruct (resume_loop rclk g2 l) as [g3 acts]; simpl in *.
    destruct IH as (Hset & Hp & Hin & Hall & HndA & Hc).
    assert (Hp2 : ∀ id, WatermarkAlignmentGroup_is_paused g2 id =
              WatermarkAlignmentGroup_is_paused g id && negb (bool_decide (j = id)))
      by (intros id; apply is_paused_resume).
    assert (Hjn : j ∉ acts.*1).
    { intros Hjin. apply Hin in Hjin. rewrite Hp2, bool_decide_eq_true_2 in Hjin by done.
      by rewrite andb_false_r in Hjin. }
    assert (Hkeep : ∀ id, WatermarkAlignmentGroup_should_resume g id = false →
              WatermarkAlignmentGroup_should_resume g2 id = false)
      by (intros id; apply (resume_keeps_settled g j)).
    split_and!; [| | | | |done].
    + intros id [[->|Hl]%elem_of_cons|Hs]; [|by apply Hset; left|by apply Hset; right; apply Hkeep].
      apply Hset. right. apply not_true_iff_false. intros Ht%should_resume_paused.
      rewrite Hp2, bool_decide_eq_true_2 in Ht by done. by rewrite andb_false_r in Ht.
    + intros id. rewrite Hp, Hp2, <- andb_assoc, <- negb_orb. do 2 f_equal.
      rewrite <- bool_decide_or. apply bool_decide_ext. rewrite elem_of_cons. naive_solver.
    + intros id [->|Hid]%elem_of_cons; [by apply should_resume_paused|].
      apply Hin in Hid. rewrite Hp2 in Hid. by apply andb_prop in Hid as [? _].
    + by constructor.
    + by constructor.
  - specialize (IH g Hnd). simpl in IH. destruct (resume_loop rclk g l) as [g3 acts]; simpl in *.
    destruct IH as (Hset & Hrest). split; [|done].
    intros id [[->|Hl]%elem_of_cons|Hs]; apply Hset; auto.
Qed.

(** ** Runs of a group *)

(** The operations a group is driven by, each with its clock readings. *)
Inductive align_op :=
| AlRegister (now : Instant) (id : nat)
| AlReport (clk : nat → Instant) (id : nat) (w : Z)
| AlCheck (clk rclk : nat → Instant).

Section Runs.
Context (iter : gmap nat AlignmentSourceState → list (nat * AlignmentSourceState)).
Hypothesis iter_perm : ∀ m, iter m ≡ₚ map_to_list m.

Definition align_step (g : WatermarkAlignmentGroup) (op : align_op) : WatermarkAlignmentGroup :=
  match op with
  | AlRegister now id => WatermarkAlignmentGroup_register_source now g id
  | AlReport clk id w => (WatermarkAlignmentGroup_report_watermark clk g id w).1
  | AlCheck clk rclk => (WatermarkAlignmentGroup_check_alignment iter clk rclk g).1
  end.

(** Sources report proper watermarks: [i64::MIN] means "none yet". *)
Definition align_op_ok (op : align_op) : Prop :=
  match op with AlReport _ _ w => is_i64 w ∧ w ≠ i64_MIN | _ => True end.

(** Some source runs: it is not held back and has a watermark. *)
Definition runs_some (g : WatermarkAlignmentGroup) : Prop :=
  ∃ id s, ag_sources g !! id = Some s ∧ contributes s = true.

(** Nobody is held back unless somebody else runs. *)
Definition progress_ok (g : WatermarkAlignmentGroup) : Prop :=
  ∀ id, WatermarkAlignmentGroup_is_paused g id = true → runs_some g.

Lemma NoDup_paused g : NoDup (paused_sources iter g).
Proof.
  unfold paused_sources. apply NoDup_fmap_fst.
  - intros k x y [_ Hx]%list_elem_of_filter [_ Hy]%list_elem_of_filter.
    rewrite iter_perm in Hx, Hy. apply elem_of_map_to_list in Hx, Hy. congruence.
  - apply NoDup_filter. rewrite iter_perm. apply NoDup_map_to_list.
Qed.

Lemma elem_of_paused_sources g id :
  id ∈ paused_sources iter g ↔ WatermarkAlignmentGroup_is_paused g id = true.
Proof.
  unfold paused_sources, WatermarkAlignmentGroup_is_paused. rewrite list_elem_of_fmap. split.
  - intros ([i s] & -> & [Hp Hin]%list_elem_of_filter). rewrite iter_perm in Hin.
    apply elem_of_map_to_list in Hin. simpl. by rewrite Hin.
  - destruct (ag_sources g !! id) as [s|] eqn:E; [|done]. intros Hp. exists (id, s). split; [done|].
    apply list_elem_of_filter. split; [done|]. rewrite iter_perm. by apply elem_of_map_to_list.
Qed.

Lemma resume_loop_runs rclk l : ∀ g id s, ag_sources g !! id = Some s → contributes s = true →
  ag_sources (resume_loop rclk g l).1 !! id = Some s.
Proof.
  induction l as [|j l IH]; intros g id s Hs Hc; simpl; [done|].
  destruct (WatermarkAlignmentGroup_should_resume g j); [|by apply IH].
  set (g2 := ag_set_metrics _ _). pose proof (IH g2 id s) as IH2.
  destruct (resume_loop rclk g2 l); simpl in *. apply IH2; [|done]. unfold g2. simpl.
  rewrite lookup_alter. case_decide; [|done]. subst. rewrite Hs. simpl.
  apply contributes_spec in Hc as [Hp _]. unfold AlignmentSourceState_resume. by rewrite Hp.
Qed.

Lemma resume_loop_watermarks rclk l : ∀ g,
  as_watermark <$> ag_sources (resume_loop rclk g l).1 = as_watermark <$> ag_sources g.
Proof.
  induction l as [|j l IH]; intros g; simpl; [done|].
  destruct (WatermarkAlignmentGroup_should_resume g j); [|by apply IH].
  set (g2 := ag_set_metrics _ _). specialize (IH g2).
  destruct (resume_loop rclk g2 l); simpl in *. rewrite IH. unfold g2. simpl.
  apply map_eq. intros i. rewrite !lookup_fmap, lookup_alter. case_decide; [|done]. subst.
  destruct (ag_sources g !! i) as [s|]; simpl; [|done].
  unfold AlignmentSourceState_resume. by destruct (as_is_paused s).
Qed.

(** A source is within the drift limit of the sources in [running]: it is ahead of
    none of their watermarks by more than the limit. *)
Definition within_drift (g : WatermarkAlignmentGroup) (running : nat → Prop) (id : nat) : Prop :=
  ∀ s i t, ag_sources g !! id = Some s → ag_sources g !! i = Some t → i ≠ id → running i →
    as_watermark t ≠ i64_MIN →
    from_millis (Z.max 0 (as_watermark s ⊟ as_watermark t)) <= ac_max_drift (ag_config g).

Lemma within_drift_frame g g' (run run' : nat → Prop) id :
  ag_config g' = ag_config g → as_watermark <$> ag_sources g' = as_watermark <$> ag_sources g →
  (∀ i, run i → run' i) → within_drift g' run' id → within_drift g run id.
Proof.
  intros Hc Hw Hrun Hd s i t Hs Ht Hne Hr Hmin.
  assert (Hl : ∀ j x, ag_sources g !! j = Some x →
    ∃ x', ag_sources g' !! j = Some x' ∧ as_watermark x' = as_watermark x).
  { intros j x Hx. pose proof (f_equal (λ m, m !! j) Hw) as Hj. cbv beta in Hj.
    rewrite !lookup_fmap, Hx in Hj. destruct (ag_sources g' !! j) as [x'|]; [|done].
    exists x'. split; [done|]. by injection Hj. }
  destruct (Hl _ _ Hs) as (s' & Hs' & Hws). destruct (Hl _ _ Ht) as (t' & Ht' & Hwt).
  rewrite <- Hc, <- Hws, <- Hwt. apply (Hd s' i t'); auto. congruence.
Qed.

Lemma is_paused_lookup g id s : ag_sources g !! id = Some s →
  WatermarkAlignmentGroup_is_paused g id = as_is_paused s.
Proof. unfold WatermarkAlignmentGroup_is_paused. by intros ->. Qed.

Lemma should_resume_iff g id :
  WatermarkAlignmentGroup_should_resume g id = true ↔
  WatermarkAlignmentGroup_is_paused g id = true ∧
  within_drift g (λ i, WatermarkAlignmentGroup_is_paused g i = false) id.
Proof.
  unfold WatermarkAlignmentGroup_should_resume. destruct (ag_sources g !! id) as [s|] eqn:Hs;
    [|unfold WatermarkAlignmentGroup_is_paused; rewrite Hs; naive_solver].
  rewrite (is_paused_lookup g id s Hs). destruct (as_is_paused s); cbn [negb]; [|naive_solver].
  rewrite can_resume_iff. split.
  - intros Hmin. split; [done|]. intros s' i t Hs' Ht Hne Hrun Hnm.
    assert (Hin : as_watermark t ∈ other_watermarks g id).
    { apply elem_of_active_watermarks. exists i, t. rewrite lookup_delete_ne by done.
      split_and!; [done| |done]. apply contributes_spec. by rewrite (is_paused_lookup g i t Ht) in Hrun. }
    destruct (list_min (other_watermarks g id)) as [m|] eqn:Hm;
      [|apply list_min_None in Hm; rewrite Hm in Hin; by apply elem_of_nil in Hin].
    specialize (Hmin m eq_refl). apply list_min_Some in Hm as [_ Hle]. specialize (Hle _ Hin).
    rewrite Hs in Hs'. injection Hs' as <-. int_lia.
  - intros [_ Hd] m Hm. apply list_min_Some in Hm as [Hin _].
    apply elem_of_active_watermarks in Hin as (i & t & Ht & [Hp Hnm]%contributes_spec & <-).
    apply lookup_delete_Some in Ht as [Hne Ht]. apply (Hd s i t); try done.
    by rewrite (is_paused_lookup g i t Ht).
Qed.

Lemma resume_watermarks now j g :
  as_watermark <$> ag_sources (ag_alter (AlignmentSourceState_resume now) j g) = as_watermark <$> ag_sources g.
Proof.
  simpl. apply map_eq. intros i. rewrite !lookup_fmap, lookup_alter. case_decide; [|done]. subst.
  destruct (ag_sources g !! i) as [s|]; simpl; [|done].
  unfold AlignmentSourceState_resume. by destruct (as_is_paused s).
Qed.

(** Each source the loop resumes is, at its turn, within the drift limit of the
    sources that run by then. *)
Lemma resume_loop_guard rclk l : ∀ g l1 id l2,
  (resume_loop rclk g l).2.*1 = l1 ++ id :: l2 →
  WatermarkAlignmentGroup_is_paused g id = true ∧
  within_drift g (λ i, WatermarkAlignmentGroup_is_paused g i = false ∨ i ∈ l1) id.
Proof.
  induction l as [|j l IH]; intros g l1 id l2; cbn [resume_loop]; [by destruct l1|].
  destruct (WatermarkAlignmentGroup_should_resume g j) eqn:Hr; [|apply IH].
  set (g1 := ag_alter (AlignmentSourceState_resume (rclk j)) j g). set (g2 := ag_set_metrics _ g1).
  specialize (IH g2). destruct (resume_loop rclk g2 l) as [g3 acts]. cbn [snd] in *.
  destruct l1 as [|x l1]; cbn [fmap list_fmap fst app]; intros [= -> Heq].
  { apply should_resume_iff in Hr as [Hp Hd]. split; [done|].
    eapply within_drift_frame; [done|done| |exact Hd]. intros i [?|?%elem_of_nil]; done. }
  destruct (IH l1 id l2 Heq) as [Hp Hd].
  assert (Hp2 : ∀ i, WatermarkAlignmentGroup_is_paused g2 i =
            WatermarkAlignmentGroup_is_paused g i && negb (bool_decide (x = i)))
    by (intros i; apply is_paused_resume).
  rewrite Hp2 in Hp. apply andb_prop in Hp as [Hp _]. split; [done|].
  eapply (within_drift_frame g g2); [done|apply resume_watermarks| |exact Hd].
  intros i [Hi|[->|Hi]%elem_of_cons]; [left|left|by right]; rewrite Hp2.
  - by rewrite Hi.
  - by rewrite bool_decide_eq_true_2, andb_false_r.
Qed.

(** A source paused by [check_alignment]'s loop was paused before. *)
Lemma check_alignment_frame clk rclk g :
  let r := WatermarkAlignmentGroup_check_alignment iter clk rclk g in
  ag_config r.1 = ag_config g ∧
  (∀ id, WatermarkAlignmentGroup_is_paused r.1 id = true →
         WatermarkAlignmentGroup_is_paused g id = true) ∧
  (∀ id s, ag_sources g !! id = Some s → contributes s = true → ag_sources r.1 !! id = Some s) ∧
  as_watermark <$> ag_sources r.1 = as_watermark <$> ag_sources g.
Proof.
  intros r. unfold r, WatermarkAlignmentGroup_check_alignment. case_match; [done|].
  set (g1 := mkGroup _ _ _ _ _ _).
  destruct (resume_loop_spec rclk (paused_sources iter g1) g1 (NoDup_paused g1))
    as (_ & Hp & _ & _ & _ & Hc).
  pose proof (resume_loop_runs rclk (paused_sources iter g1) g1) as Hr.
  pose proof (resume_loop_watermarks rclk (paused_sources iter g1) g1) as Hw.
  destruct (resume_loop rclk g1 (paused_sources iter g1)) as [g2 acts]; simpl in *.
  assert (Hg : ∀ g', ag_sources g' = ag_sources g2 → ag_config g' = ag_config g2 →
    ag_config g' = ag_config g ∧
    (∀ id, WatermarkAlignmentGroup_is_paused g' id = true →
         WatermarkAlignmentGroup_is_paused g id = true) ∧
    (∀ id s, ag_sources g !! id = Some s → contributes s = true → ag_sources g' !! id = Some s) ∧
    as_watermark <$> ag_sources g' = as_watermark <$> ag_sources g).
  { intros g' Hs' Hc'. rewrite Hc', Hs'. split_and!; [done| |done..].
    intros id. unfold WatermarkAlignmentGroup_is_paused at 1. rewrite Hs'. fold (WatermarkAlignmentGroup_is_paused g2 id).
    rewrite Hp. by intros [? _]%andb_prop. }
  destruct acts; apply Hg; try done; by apply recalculate_bounds_spec.
Qed.

Lemma is_paused_insert (g g' : WatermarkAlignmentGroup) id s i :
  ag_sources g' = <[id := s]> (ag_sources g) →
  WatermarkAlignmentGroup_is_paused g' i =
    if decide (id = i) then as_is_paused s else WatermarkAlignmentGroup_is_paused g i.
Proof.
  intros Hs. unfold WatermarkAlignmentGroup_is_paused. rewrite Hs, lookup_insert. by case_decide.
Qed.

(** What a report can do to the reporting source. *)
Lemma report_cases clk g id w :
  group_ok g → is_i64 w →
  let r := WatermarkAlignmentGroup_report_watermark clk g id w in
  ag_config r.1 = ag_config g ∧
  ((∃ s', ag_sources r.1 = <[id := s']> (ag_sources g) ∧ as_watermark s' = w ∧
      (as_is_paused s' = true → exceeds_drift g id w = true)) ∨
   (∃ s s', ag_sources g !! id = Some s ∧ as_is_paused s = true ∧
      ag_sources r.1 = <[id := s']> (ag_sources g) ∧
      (as_watermark s' = w ∨ as_watermark s' = as_watermark s) ∧ as_is_paused s' = true)).
Proof.
  intros Hok Hw r. destruct (WatermarkAlignmentGroup_is_paused g id) eqn:Hp.
  2: { destruct (report_unpaused clk g id w Hok Hw Hp) as (_ & (s' & Hs & Hws & Hps) & Hc).
       split; [done|]. left. exists s'. split_and!; [done..|]. rewrite Hps. by intros [? _]%andb_prop. }
  assert (∃ s, ag_sources g !! id = Some s ∧ as_is_paused s = true) as (s & Hs & Hsp).
  { unfold WatermarkAlignmentGroup_is_paused in Hp. destruct (ag_sources g !! id); naive_solver. }
  destruct (ac_enforcement_mode (ag_config g)) eqn:Hm.
  - destruct (report_paused clk g id w Hm Hp) as [Hno Hyes].
    destruct (WatermarkAlignmentGroup_can_resume_with_watermark g id w).
    + destruct (Hyes eq_refl) as (_ & Hc & s' & H1 & H2 & H3). split; [done|]. left.
      exists s'. rewrite H3. done.
    + unfold r. rewrite (Hno eq_refl). split; [done|]. right. exists s, s.
      rewrite insert_id by done. auto 10.
  - unfold r, WatermarkAlignmentGroup_report_watermark, WatermarkAlignmentGroup_register_source.
    rewrite Hs, Hp, Hm. unfold report_active. set (g1 := ag_alter _ _ _).
    destruct (recalculate_bounds_spec g1) as (_ & Hss & Hc & _).
    set (g2 := WatermarkAlignmentGroup_recalculate_bounds g1) in *.
    cbn [ag_config ag_set_metrics]. rewrite Hc. change (ag_config g1) with (ag_config g). rewrite Hm.
    assert (Hw2 : ag_sources g2 = <[id := as_set_watermark (clk 1%nat) w s]> (ag_sources g))
      by (rewrite Hss; by apply alter_Some_insert).
    split; [by case_match|]. right. exists s, (as_set_watermark (clk 1%nat) w s).
    split_and!; try done; [by case_match|by left].
  - unfold r, WatermarkAlignmentGroup_report_watermark, WatermarkAlignmentGroup_register_source.
    rewrite Hs, Hp, Hm. split; [done|]. right. exists s, (as_count_drop s).
    split_and!; try done; [by apply alter_Some_insert|by right].
Qed.

Lemma exceeds_runs_other g id w :
  exceeds_drift g id w = true →
  ∃ i s, i ≠ id ∧ ag_sources g !! i = Some s ∧ contributes s = true.
Proof.
  unfold exceeds_drift. destruct (list_min (other_watermarks g id)) as [m|] eqn:E; [|done].
  intros _. apply list_min_Some in E as [(i & s & Hi & Hc & _)%elem_of_active_watermarks _].
  apply lookup_delete_Some in Hi as [Hne Hi]. by exists i, s.
Qed.

Lemma align_step_ok g op :
  align_op_ok op → group_ok g → progress_ok g →
  group_ok (align_step g op) ∧ progress_ok (align_step g op) ∧
  ag_config (align_step g op) = ag_config g.
Proof.
  intros Hop Hok Hpr. destruct op as [now id|clk id w|clk rclk]; simpl in *.
  - unfold WatermarkAlignmentGroup_register_source.
    destruct (ag_sources g !! id) eqn:E; [done|]. split_and!; [| |done].
    + destruct Hok as [Hd Hall]. split; [done|]. apply map_Forall_insert_2; [|done]. simpl. int_lia.
    + intros i. rewrite (is_paused_insert g _ id (AlignmentSourceState_new now id) i) by done. case_decide; [done|]. intros Hi.
      destruct (Hpr i Hi) as (j & s & Hj & Hc). exists j, s. split; [|done]. simpl.
      rewrite lookup_insert_ne; [done|]. congruence.
  - destruct Hop as [Hw Hne].
    destruct (report_cases clk g id w Hok Hw) as [Hc Hcase].
    set (g' := (WatermarkAlignmentGroup_report_watermark clk g id w).1) in *.
    destruct Hok as [Hd Hall]. split; [split; [by rewrite Hc|]|split; [|done]].
    + destruct Hcase as [(s' & -> & Hws & _)|(s & s' & Hs & _ & -> & Hws & _)];
        apply map_Forall_insert_2; try done; [by rewrite Hws|].
      destruct Hws as [->| ->]; [done|exact (Hall _ _ Hs)].
    + intros i Hi. destruct Hcase as [(s' & Hs' & Hws & Hex)|(s & s' & Hs & Hsp & Hs' & _ & Hp')].
      * destruct (as_is_paused s') eqn:Hp'.
        -- destruct (exceeds_runs_other g id w (Hex eq_refl)) as (j & t & Hj & Ht & Htc).
           exists j, t. by rewrite Hs', lookup_insert_ne.
        -- exists id, s'. rewrite Hs', lookup_insert_eq. split; [done|].
           apply contributes_spec. by rewrite Hws.
      * assert (Hid : WatermarkAlignmentGroup_is_paused g id = true)
          by (unfold WatermarkAlignmentGroup_is_paused; by rewrite Hs).
        destruct (Hpr id Hid) as (j & t & Hj & Ht). exists j, t. split; [|done]. rewrite Hs'.
        rewrite lookup_insert_ne; [done|]. intros <-. apply contributes_spec in Ht as [? _]. congruence.
  - destruct (check_alignment_frame clk rclk g) as (Hc & Hp & Hk & Hkw).
    set (g' := (WatermarkAlignmentGroup_check_alignment iter clk rclk g).1) in *.
    split_and!; [| |done].
    + split; [rewrite Hc; apply Hok|]. intros i s Hi.
      assert (Hx : (as_watermark <$> ag_sources g') !! i = Some (as_watermark s)) by (by rewrite lookup_fmap, Hi).
      rewrite Hkw, lookup_fmap, fmap_Some in Hx. destruct Hx as (t & Ht & ->). exact (proj2 Hok _ _ Ht).
    + intros i Hi%Hp. destruct (Hpr i Hi) as (j & t & Hj & Ht). exists j, t. auto.
Qed.
End Runs.

(** ** The coordinator's bookkeeping *)

Inductive coord_op :=
| CoAdd (now : Instant) (config : AlignmentGroupConfig)
| CoRemove (id : AlignmentGroupId)
| CoAssign (now : Instant) (source : nat) (id : AlignmentGroupId)
| CoUnassign (source : nat)
| CoReport (clk : nat → Instant) (source : nat) (w : Z)
| CoCheck (clk rclk : string → nat → Instant).

Section CoordRuns.
Context (iter : gmap nat AlignmentSourceState → list (nat * AlignmentSourceState)).
Context (giter : gmap string WatermarkAlignmentGroup → list (string * WatermarkAlignmentGroup)).

Definition coord_step (c : AlignmentGroupCoordinator) (op : coord_op) : AlignmentGroupCoordinator :=
  match op with
  | CoAdd now cfg => AlignmentGroupCoordinator_add_group now c cfg
  | CoRemove id => (AlignmentGroupCoordinator_remove_group c id).1
  | CoAssign now s id => (AlignmentGroupCoordinator_assign_source_to_group now c s id).1
  | CoUnassign s => AlignmentGroupCoordinator_unassign_source c s
  | CoReport clk s w => (AlignmentGroupCoordinator_report_watermark clk c s w).1
  | CoCheck clk rclk =>
      (AlignmentGroupCoordinator_check_all_alignments iter giter clk rclk c).1
  end.

(** [add_group] is called with an id that is not in use: it replaces a group
    of the same id and forgets the sources registered there. *)
Definition coord_op_ok (c : AlignmentGroupCoordinator) (op : coord_op) : Prop :=
  match op with CoAdd _ cfg => co_groups c !! ac_group_id cfg = None | _ => True end.

(** A source is mapped to a group exactly when that group has it registered. *)
Definition membership (c : AlignmentGroupCoordinator) : Prop :=
  ∀ s id, co_source_groups c !! s = Some id ↔
          ∃ g, co_groups c !! id = Some g ∧ s ∈ dom (ag_sources g).

Lemma dom_report clk g id w :
  dom (ag_sources (WatermarkAlignmentGroup_report_watermark clk g id w).1) =
    {[id]} ∪ dom (ag_sources g).
Proof.
  unfold WatermarkAlignmentGroup_report_watermark, report_active,
    WatermarkAlignmentGroup_recalculate_bounds.
  set (g1 := WatermarkAlignmentGroup_register_source _ _ _).
  assert (Hd : dom (ag_sources g1) = {[id]} ∪ dom (ag_sources g)).
  { unfold g1, WatermarkAlignmentGroup_register_source.
    destruct (ag_sources g !! id) eqn:E; simpl.
    - apply elem_of_dom_2 in E. set_solver.
    - by rewrite dom_insert_L. }
  rewrite <- Hd. repeat case_match; simpl; by rewrite ?dom_alter_L.
Qed.

Lemma dom_resume_loop rclk l : ∀ g, dom (ag_sources (resume_loop rclk g l).1) = dom (ag_sources g).
Proof.
  intros g. pose proof (resume_loop_watermarks rclk l g) as H.
  rewrite <- (dom_fmap_L as_watermark), H. apply dom_fmap_L.
Qed.

Lemma dom_check clk rclk g :
  dom (ag_sources (WatermarkAlignmentGroup_check_alignment iter clk rclk g).1) = dom (ag_sources g).
Proof.
  unfold WatermarkAlignmentGroup_check_alignment. case_match; [done|].
  set (g1 := mkGroup _ _ _ _ _ _). pose proof (dom_resume_loop rclk (paused_sources iter g1) g1) as Hd.
  destruct (resume_loop rclk g1 (paused_sources iter g1)) as [g2 acts]. simpl in *.
  destruct acts; simpl; [done|]. by rewrite (proj1 (proj2 (recalculate_bounds_spec g2))).
Qed.

(** Replacing a group by one with the same registered sources, up to one
    source that is mapped (or unmapped) accordingly. *)
Lemma membership_update c sg' id g g' :
  membership c → co_groups c !! id = Some g →
  (∀ s i, sg' !! s = Some i ↔ if decide (i = id) then s ∈ dom (ag_sources g')
                              else co_source_groups c !! s = Some i) →
  membership (mkCoordinator (<[id := g']> (co_groups c)) sg').
Proof.
  intros Hm Hg Hsg s i. simpl. rewrite Hsg. case_decide as Hi.
  - subst. rewrite lookup_insert_eq. naive_solver.
  - rewrite lookup_insert_ne by done. apply Hm.
Qed.

Lemma coord_step_membership c op :
  coord_op_ok c op → membership c → membership (coord_step c op).
Proof.
  intros Hop Hm. destruct op as [now cfg|id|now s id|s|clk s w|clk rclk]; simpl in *.
  - intros s id. simpl. rewrite (Hm s id). destruct (decide (ac_group_id cfg = id)) as [<-|Hne].
    + rewrite lookup_insert_eq, Hop. split; [naive_solver|].
      intros (g & [= <-] & Hs). simpl in Hs. set_solver.
    + by rewrite lookup_insert_ne.
  - intros s i. simpl. rewrite map_lookup_filter_Some, (Hm s i). simpl.
    destruct (decide (i = id)) as [->|Hne].
    + rewrite lookup_delete_eq. naive_solver.
    + rewrite lookup_delete_ne by done. naive_solver.
  - unfold AlignmentGroupCoordinator_assign_source_to_group.
    destruct (co_source_groups c !! s) eqn:Es; [by case_bool_decide|].
    destruct (co_groups c !! id) as [g|] eqn:Eg; [|done]. simpl.
    apply (membership_update c _ id g); [done..|]. intros s' i.
    assert (Hd : dom (ag_sources (WatermarkAlignmentGroup_register_source now g s)) =
                 {[s]} ∪ dom (ag_sources g)).
    { unfold WatermarkAlignmentGroup_register_source.
      destruct (ag_sources g !! s) eqn:E; simpl; [apply elem_of_dom_2 in E; set_solver|].
      by rewrite dom_insert_L. }
    rewrite Hd. destruct (decide (s = s')) as [<-|Hne].
    + rewrite lookup_insert_eq. case_decide; [set_solver|naive_solver].
    + rewrite lookup_insert_ne by done. case_decide as Hi; [|done]. subst.
      rewrite (Hm s' id), Eg. set_solver.
  - unfold AlignmentGroupCoordinator_unassign_source.
    destruct (co_source_groups c !! s) as [id|] eqn:Es; [|done].
    pose proof Es as (g & Hg & Hsg)%Hm. rewrite Hg.
    apply (membership_update c _ id g); [done..|]. intros s' i.
    unfold WatermarkAlignmentGroup_unregister_source.
    rewrite (proj1 (proj2 (recalculate_bounds_spec _))). simpl. rewrite dom_delete_L.
    rewrite lookup_delete_Some, (Hm s' i). case_decide as Hi; [subst; rewrite Hg; set_solver|].
    rewrite <- (Hm s' i). split; [naive_solver|]. intros Hs'. split; [|done]. intros <-. congruence.
  - unfold AlignmentGroupCoordinator_report_watermark.
    destruct (co_source_groups c !! s) as [id|] eqn:Es; [|done].
    pose proof Es as (g & Hg & Hsg)%Hm. rewrite Hg.
    pose proof (dom_report clk g s w) as Hd.
    destruct (WatermarkAlignmentGroup_report_watermark clk g s w) as [g' a]; simpl in *.
    apply (membership_update c _ id g); [done..|]. intros s' i. rewrite Hd.
    case_decide as Hi; [|done]. subst. rewrite (Hm s' id), Hg. set_solver.
  - intros s id. simpl. rewrite (Hm s id), map_lookup_imap.
    destruct (co_groups c !! id) as [g|]; simpl; [|naive_solver]. split.
    + intros (g' & [= <-] & Hs). eexists. split; [done|]. by rewrite dom_check.
    + intros (g' & [= <-] & Hs). exists g. split; [done|]. by rewrite dom_check in Hs.
Qed.

(** Every operation of the run is admissible where it is applied. *)
Fixpoint coord_run_ok (c : AlignmentGroupCoordinator) (ops : list coord_op) : Prop :=
  match ops with
  | [] => True
  | op :: rest => coord_op_ok c op ∧ coord_run_ok (coord_step c op) rest
  end.

Lemma coord_run_membership ops : ∀ c,
  coord_run_ok c ops → membership c → membership (foldl coord_step c ops).
Proof.
  induction ops as [|op ops IH]; intros c; simpl; [done|]. intros [Hop Hops] Hm.
  apply IH; [done|]. by apply coord_step_membership.
Qed.

Lemma membership_new : membership AlignmentGroupCoordinator_new.
Proof. intros s id. simpl. rewrite !lookup_empty. naive_solver. Qed.
End CoordRuns.

(** ** Properties *)

(** What [report_watermark] answers for a source that is not held back:
    it is paused (warned, dropped) exactly when no other contributing source is
    ahead of the reported watermark and the slowest of them is more than
    [max_drift] behind it; otherwise it continues. Either way the new watermark
    is stored, and the source ends up held back exactly when it was paused or
    dropped. *)
Theorem alignment_report_decision clk g id w :
  group_ok g → is_i64 w → WatermarkAlignmentGroup_is_paused g id = false →
  let r := WatermarkAlignmentGroup_report_watermark clk g id w in
  let ex := exceeds_drift g id w in
  r.2 = (if ex then match ac_enforcement_mode (ag_config g) with
                    | Pause => ActPause
                    | WarnOnly => ActWarn (w ⊟ default 0 (list_min (other_watermarks g id)))
                    | DropExcess => ActDrop
                    end
         else ActContinue) ∧
  WatermarkAlignmentGroup_is_paused r.1 id =
    ex && negb (bool_decide (ac_enforcement_mode (ag_config g) = WarnOnly)) ∧
  (∃ s', ag_sources r.1 = <[id := s']> (ag_sources g) ∧ as_watermark s' = w).
Proof.
  intros Hok Hw Hp r ex.
  destruct (report_unpaused clk g id w Hok Hw Hp) as (Ha & (s' & Hs & Hws & Hps) & _).
  split_and!; [done| |by exists s'].
  unfold r. rewrite (is_paused_insert g _ id s' id Hs), decide_True by done. done.
Qed.

Lemma alignment_report_decision_witness :
  let g0 := WatermarkAlignmentGroup_new 0 (AlignmentGroupConfig_new "orders") in
  let g := (WatermarkAlignmentGroup_report_watermark (λ _, 0) g0 1 0).1 in
  let r := WatermarkAlignmentGroup_report_watermark (λ _, 0) g 2 300001 in
  r.2 = ActPause.
Proof.
  intros g0 g r.
  refine (proj1 (alignment_report_decision (λ _, 0) g 2 300001 _ _ _)).
  - split; [done|]. refine (bool_decide_unpack _ _). vm_compute. exact I.
  - done.
  - reflexivity.
Defined.

(** A source held back in [Pause] mode resumes exactly when the reported
    watermark is within [max_drift] of the slowest contributing source (or
    nobody else contributes); otherwise the group is left untouched. *)
Theorem alignment_resume_iff_caught_up clk g id w :
  ac_enforcement_mode (ag_config g) = Pause → WatermarkAlignmentGroup_is_paused g id = true →
  let r := WatermarkAlignmentGroup_report_watermark clk g id w in
  (r.2 = ActResume ↔
     ∀ m, list_min (other_watermarks g id) = Some m →
          from_millis (Z.max 0 (w ⊟ m)) <= ac_max_drift (ag_config g)) ∧
  (r.2 = ActResume → WatermarkAlignmentGroup_is_paused r.1 id = false) ∧
  (r.2 ≠ ActResume → r = (g, ActPause)).
Proof.
  intros Hm Hp r. destruct (report_paused clk g id w Hm Hp) as [Hno Hyes]. fold r in Hno, Hyes.
  rewrite <- can_resume_iff.
  destruct (WatermarkAlignmentGroup_can_resume_with_watermark g id w).
  - destruct (Hyes eq_refl) as (Ha & _ & s' & Hs & _ & Hp'). split_and!; [done| |done].
    intros _. rewrite (is_paused_insert g _ id s' id Hs), decide_True by done. done.
  - rewrite (Hno eq_refl). done.
Qed.

Lemma alignment_resume_iff_caught_up_witness :
  let g0 := WatermarkAlignmentGroup_new 0 (AlignmentGroupConfig_new "orders") in
  let g1 := (WatermarkAlignmentGroup_report_watermark (λ _, 0) g0 1 0).1 in
  let g2 := (WatermarkAlignmentGroup_report_watermark (λ _, 0) g1 2 300001).1 in
  let g3 := (WatermarkAlignmentGroup_report_watermark (λ _, 0) g2 1 1).1 in
  (WatermarkAlignmentGroup_report_watermark (λ _, 0) g3 2 300001).2 = ActResume.
Proof.
  intros g0 g1 g2 g3.
  refine (proj2 (proj1 (alignment_resume_iff_caught_up (λ _, 0) g3 2 300001 _ _)) _);
    [reflexivity|reflexivity|].
  intros m Hm. vm_compute in Hm. injection Hm as <-. vm_compute. discriminate.
Defined.

(** [C37]: once the update interval has passed, [check_alignment] resumes the right
    sources. A paused source is resumed only when, at its turn, it is within the
    drift limit of every source running then, those resumed before it included; a
    paused source it leaves is beyond the limit of some source running in the end,
    although every source is evaluated once only, in the order of a hash map, while
    each resumption adds to the running sources. It reports exactly the sources it
    resumed, each once and as resumed; the others keep their state, and all their
    watermarks. Before the interval has passed it does nothing. *)
Theorem alignment_check_settles iter clk rclk g :
  (∀ m, iter m ≡ₚ map_to_list m) →
  let r := WatermarkAlignmentGroup_check_alignment iter clk rclk g in
  let paused := WatermarkAlignmentGroup_is_paused in
  (elapsed (clk 0%nat) (ag_last_check g) < ac_update_interval (ag_config g) → r = (g, [])) ∧
  (ac_update_interval (ag_config g) <= elapsed (clk 0%nat) (ag_last_check g) →
   (∀ l1 id l2, r.2.*1 = l1 ++ id :: l2 →
      paused g id = true ∧ within_drift g (λ i, paused g i = false ∨ i ∈ l1) id) ∧
   (∀ id, paused g id = true → id ∉ r.2.*1 →
      ¬ within_drift g (λ i, paused g i = false ∨ i ∈ r.2.*1) id) ∧
   (∀ id, paused r.1 id = paused g id && bool_decide (id ∉ r.2.*1)) ∧
   as_watermark <$> ag_sources r.1 = as_watermark <$> ag_sources g ∧
   (∀ id, WatermarkAlignmentGroup_should_resume r.1 id = false) ∧
   NoDup r.2.*1 ∧ Forall (λ p, p.2 = ActResume) r.2).
Proof.
  intros Hperm r paused. destruct (check_alignment_frame iter Hperm clk rclk g) as (Hcf & _ & _ & Hwf).
  fold r in Hcf, Hwf. split.
  { intros Hlt. unfold r, WatermarkAlignmentGroup_check_alignment. by rewrite (proj2 (Z.ltb_lt _ _)). }
  intros Hint.
  assert (Hr : ∃ g1, ag_sources g1 = ag_sources g ∧ ag_config g1 = ag_config g ∧
    (∀ id, paused g1 id = paused g id) ∧
    let l := resume_loop rclk g1 (paused_sources iter g1) in
    r.2 = l.2 ∧ ag_sources r.1 = ag_sources l.1 ∧ ag_config r.1 = ag_config l.1).
  { unfold r, WatermarkAlignmentGroup_check_alignment. rewrite (proj2 (Z.ltb_ge _ _)) by done.
    set (g1 := mkGroup _ _ _ _ _ _). exists g1. split; [done|]. split; [done|]. split; [done|]. cbv zeta.
    destruct (resume_loop rclk g1 (paused_sources iter g1)) as [g2 acts]. cbn [fst snd].
    split; [done|]. destruct acts; [done|]. by split; apply recalculate_bounds_spec. }
  clearbody r. destruct Hr as (g1 & Hs1 & Hc1 & Hp1 & Hacts & Hsr & Hcr).
  pose proof (resume_loop_guard rclk (paused_sources iter g1) g1) as Hguard.
  destruct (resume_loop_spec rclk (paused_sources iter g1) g1 (NoDup_paused iter Hperm g1))
    as (Hset & Hp & _ & Hall & Hnd & _).
  rewrite <- Hacts in Hguard, Hp, Hall, Hnd.
  assert (Hpr : ∀ id, paused r.1 id = paused g id && bool_decide (id ∉ r.2.*1)).
  { intros id. unfold paused at 1, WatermarkAlignmentGroup_is_paused. rewrite Hsr.
    fold (WatermarkAlignmentGroup_is_paused (resume_loop rclk g1 (paused_sources iter g1)).1 id).
    rewrite Hp. change (WatermarkAlignmentGroup_is_paused g1 id) with (paused g1 id). rewrite Hp1.
    f_equal. by rewrite bool_decide_not. }
  assert (Hsettled : ∀ id, WatermarkAlignmentGroup_should_resume r.1 id = false).
  { intros id. rewrite (should_resume_frame _ r.1 id Hsr Hcr). apply Hset.
    destruct (WatermarkAlignmentGroup_is_paused g1 id) eqn:Hi.
    + left. by apply elem_of_paused_sources.
    + right. apply not_true_iff_false. intros Ht%should_resume_paused. congruence. }
  split_and!; try done.
  - intros l1 id l2 Heq. destruct (Hguard l1 id l2 Heq) as [Hpa Hd].
    split; [by rewrite <- Hp1|]. eapply within_drift_frame; [exact Hc1|by rewrite Hs1| |exact Hd].
    intros i. cbv beta. change (WatermarkAlignmentGroup_is_paused g1 i) with (paused g1 i). by rewrite Hp1.
  - intros id Hpa Hni Hd. assert (Hyes : WatermarkAlignmentGroup_should_resume r.1 id = true); [|by rewrite Hsettled in Hyes].
    apply should_resume_iff. split; [by change (paused r.1 id = true); rewrite Hpr, Hpa, bool_decide_eq_true_2|].
    eapply (within_drift_frame r.1 g); [by symmetry|by symmetry| |exact Hd].
    intros i. cbv beta. change (WatermarkAlignmentGroup_is_paused r.1 i) with (paused r.1 i). rewrite Hpr.
    destruct (paused g i); [|by left]. cbn [andb]. rewrite bool_decide_eq_false. intros Hi. right.
    by apply dec_stable.
Qed.

Lemma alignment_check_settles_witness :
  let cfg := AlignmentGroupConfig_new "orders" in
  let g0 := WatermarkAlignmentGroup_new 0 cfg in
  let g1 := (WatermarkAlignmentGroup_report_watermark (λ _, 0) g0 1 0).1 in
  let g2 := (WatermarkAlignmentGroup_report_watermark (λ _, 0) g1 2 300001).1 in
  let g3 := (WatermarkAlignmentGroup_report_watermark (λ _, 0) g2 1 1).1 in
  let r := WatermarkAlignmentGroup_check_alignment map_to_list (λ _, from_secs 2) (λ _, 0) g3 in
  r.2 = [(2%nat, ActResume)] ∧ WatermarkAlignmentGroup_should_resume r.1 2 = false.
Proof.
  intros cfg g0 g1 g2 g3 r. split; [reflexivity|].
  destruct (proj2 (alignment_check_settles map_to_list (λ _, from_secs 2) (λ _, 0) g3 (λ m, Permutation_refl _)))
    as (_ & _ & _ & _ & Hs & _).
  - vm_compute. discriminate.
  - exact (Hs 2%nat).
Defined.

(** Alignment never stalls a whole group: in every state reached from a
    new group by registering sources, reporting watermarks and periodic checks,
    whatever the enforcement mode, some source that has a watermark is running
    whenever any source is held back. *)
Theorem alignment_someone_runs iter now cfg ops :
  (∀ m, iter m ≡ₚ map_to_list m) → 0 <= ac_max_drift cfg → Forall align_op_ok ops →
  let g := foldl (align_step iter) (WatermarkAlignmentGroup_new now cfg) ops in
  ∀ id, WatermarkAlignmentGroup_is_paused g id = true →
  ∃ i s, i ≠ id ∧ ag_sources g !! i = Some s ∧ as_is_paused s = false ∧ as_watermark s ≠ i64_MIN.
Proof.
  intros Hperm Hd Hops g id Hid.
  assert (Hinv : ∀ g0, group_ok g0 → progress_ok g0 → Forall align_op_ok ops →
            progress_ok (foldl (align_step iter) g0 ops)).
  { clear - Hperm. induction ops as [|op ops IH]; intros g0 Hok Hpr Hops; simpl; [done|].
    apply Forall_cons in Hops as [Hop Hops].
    destruct (align_step_ok iter Hperm g0 op Hop Hok Hpr) as (? & ? & _). by apply IH. }
  destruct (Hinv (WatermarkAlignmentGroup_new now cfg)) with (id := id)
    as (i & s & Hs & [Hp Hw]%contributes_spec); [by split; [|apply map_Forall_empty]|done..|].
  exists i, s. split_and!; try done. intros ->.
  unfold WatermarkAlignmentGroup_is_paused, g in Hid. rewrite Hs in Hid. congruence.
Qed.

Lemma alignment_someone_runs_witness :
  let g := foldl (align_step map_to_list)
             (WatermarkAlignmentGroup_new 0 (AlignmentGroupConfig_new "orders"))
             [AlReport (λ _, 0) 1 0; AlReport (λ _, 0) 2 300001] in
  ∃ i s, i ≠ 2%nat ∧ ag_sources g !! i = Some s ∧ as_is_paused s = false ∧ as_watermark s ≠ i64_MIN.
Proof.
  intros g. refine (alignment_someone_runs map_to_list 0 (AlignmentGroupConfig_new "orders")
    [AlReport (λ _, 0) 1 0; AlReport (λ _, 0) 2 300001] _ _ _ 2%nat _).
  - intros m. reflexivity.
  - done.
  - repeat constructor; done.
  - reflexivity.
Defined.

(** The coordinator's two maps agree in every state reached from an empty
    coordinator (adding groups under unused ids): a source is mapped to a group
    exactly when that group exists and has the source registered, so a source is
    in at most one group and every mapped source has a group to report to. *)
Theorem coordinator_membership iter giter ops :
  coord_run_ok iter giter AlignmentGroupCoordinator_new ops →
  let c := foldl (coord_step iter giter) AlignmentGroupCoordinator_new ops in
  (∀ s id, co_source_groups c !! s = Some id ↔
     ∃ g, co_groups c !! id = Some g ∧ s ∈ dom (ag_sources g)) ∧
  (∀ clk s w, (AlignmentGroupCoordinator_report_watermark clk c s w).2 = None ↔
     co_source_groups c !! s = None).
Proof.
  intros Hops c. assert (Hm : membership c) by (apply coord_run_membership; [done|apply membership_new]).
  split; [exact Hm|]. intros clk s w. unfold AlignmentGroupCoordinator_report_watermark.
  destruct (co_source_groups c !! s) as [id|] eqn:E; [|done].
  apply Hm in E as (g & -> & _). by case_match.
Qed.

Lemma coordinator_membership_witness :
  let ops := [CoAdd 0 (AlignmentGroupConfig_new "a"); CoAdd 0 (AlignmentGroupConfig_new "b");
              CoAssign 0 1 "a"; CoAssign 0 1 "b"; CoAssign 0 2 "b"; CoRemove "a"] in
  let c := foldl (coord_step map_to_list map_to_list) AlignmentGroupCoordinator_new ops in
  (AlignmentGroupCoordinator_report_watermark (λ _, 0) c 1 5).2 = None.
Proof.
  intros ops c.
  refine (proj2 (proj2 (coordinator_membership map_to_list map_to_list ops _) (λ _, 0) 1%nat 5) _).
  - repeat split.
  - reflexivity.
Defined.
