(* ===== verification/StateStore.v ===== *)
(** * Operator state stores (crates/laminar-core/src/state/mod.rs, ahash_store.rs)

    The key-value interface operators keep their state behind ([StateStore] is
    the trait, [StateStoreLaws] what its clients rely on), the ordered in-memory
    implementation and the hash map with a sorted key index. Keys and values are
    byte strings, lists of [Z] in [0, 255]. A [BTreeMap] is a finite map whose
    iteration order is the lexicographic order of the keys. *)

From S2P Require Import Prelude.

Abbreviation bytes := (list Z) (only parsing).

(** ** The order of byte strings ([Ord] for [[u8]]) *)

Fixpoint bytes_cmp (a b : bytes) : comparison :=
  match a, b with
  | [], [] => Eq
  | [], _ :: _ => Lt
  | _ :: _, [] => Gt
  | x :: a', y :: b' => match x ?= y with Eq => bytes_cmp a' b' | c => c end
  end.
Definition bytes_lt (a b : bytes) : Prop := bytes_cmp a b = Lt.
Definition bytes_le (a b : bytes) : Prop := bytes_cmp a b ≠ Gt.

#[export] Instance bytes_lt_dec : RelDecision bytes_lt.
Proof. intros a b. unfold bytes_lt. apply _. Defined.
#[export] Instance bytes_le_dec : RelDecision bytes_le.
Proof. intros a b. unfold bytes_le. apply _. Defined.

Lemma bytes_cmp_eq a b : bytes_cmp a b = Eq ↔ a = b.
Proof.
  revert b. induction a as [|x a IH]; intros [|y b]; simpl; try done.
  destruct (Z.compare_spec x y); [rewrite IH; naive_solver|naive_solver lia..].
Qed.
Lemma bytes_cmp_antisym a b : bytes_cmp b a = CompOpp (bytes_cmp a b).
Proof.
  revert b. induction a as [|x a IH]; intros [|y b]; simpl; try done.
  rewrite (Z.compare_antisym x y). destruct (x ?= y); simpl; auto.
Qed.
Lemma bytes_lt_trans a b c : bytes_lt a b → bytes_lt b c → bytes_lt a c.
Proof.
  unfold bytes_lt. revert b c. induction a as [|x a IH]; intros [|y b] [|z c]; simpl; try done.
  destruct (Z.compare_spec x y), (Z.compare_spec y z), (Z.compare_spec x z);
    try done; try lia; subst; eauto.
Qed.
Lemma bytes_le_lt_eq a b : bytes_le a b ↔ bytes_lt a b ∨ a = b.
Proof. unfold bytes_le, bytes_lt. rewrite <- bytes_cmp_eq. destruct (bytes_cmp a b); naive_solver. Qed.
Lemma bytes_nlt_le a b : ¬ bytes_lt a b ↔ bytes_le b a.
Proof.
  unfold bytes_lt, bytes_le. rewrite (bytes_cmp_antisym a b). destruct (bytes_cmp a b); naive_solver.
Qed.

#[export] Instance bytes_le_preorder : PreOrder bytes_le.
Proof.
  split.
  - intros a. apply bytes_le_lt_eq. by right.
  - intros a b c [H1| ->]%bytes_le_lt_eq H2; [|done].
    apply bytes_le_lt_eq in H2 as [H2| ->]; apply bytes_le_lt_eq; [left|by left].
    by eapply bytes_lt_trans.
Qed.
#[export] Instance bytes_le_total : Total bytes_le.
Proof.
  intros a b. unfold bytes_le. rewrite (bytes_cmp_antisym a b).
  destruct (bytes_cmp a b); simpl; auto.
Qed.
#[export] Instance bytes_le_antisymm : AntiSymm (=) bytes_le.
Proof.
  intros a b. unfold bytes_le. rewrite (bytes_cmp_antisym a b). rewrite <- bytes_cmp_eq.
  destruct (bytes_cmp a b); simpl; done.
Qed.

(** ** The smallest string after all strings with a prefix *)

(** The [while let Some(last)] loop, on the reversed buffer. *)
Fixpoint successor_loop (rev : bytes) : option bytes :=
  match rev with
  | [] => None
  | last :: rest => if last <? 255 then Some (reverse (last + 1 :: rest)) else successor_loop rest
  end.

Definition prefix_successor (prefix : bytes) : option bytes :=
  match prefix with [] => None | _ => successor_loop (reverse prefix) end.

(** ** The trait *)

Inductive StateError :=
  StIo (e : string) | StSerialization (e : string) | StDeserialization (e : string)
| StCorruption (e : string).

Record StateSnapshot := mkSnapshot {
  sn_data : list (bytes * bytes);
  sn_timestamp_ns : Z;
  sn_version : Z;
}.

(** [now] is [SystemTime::now()] in nanoseconds since the epoch. *)
Definition StateSnapshot_new (now : Z) (data : list (bytes * bytes)) : StateSnapshot :=
  mkSnapshot data (wrap_u64 (Z.max 0 now)) 1.

Definition pair_bytes (p : bytes * bytes) : Z := Z.of_nat (length p.1 + length p.2).
Definition StateSnapshot_size_bytes (s : StateSnapshot) : Z :=
  wrap_u64 (foldr Z.add 0 (map pair_bytes (sn_data s))).

(** Scans return [None] where the code panics. *)
Class StateStore (S : Type) := {
  ss_get : S → bytes → option bytes;
  ss_get_ref : S → bytes → option bytes;
  ss_put : S → bytes → bytes → S * (unit + StateError);
  ss_delete : S → bytes → S * (unit + StateError);
  ss_prefix_scan : S → bytes → option (list (bytes * bytes));
  ss_range_scan : S → bytes → bytes → option (list (bytes * bytes));
  ss_contains : S → bytes → bool;
  ss_size_bytes : S → Z;
  ss_len : S → nat;
  ss_snapshot : Z → S → option StateSnapshot;
  ss_restore : S → StateSnapshot → S;
  ss_clear : S → S;
}.

Definition ss_is_empty {S} `{StateStore S} (s : S) : bool := (ss_len s =? 0)%nat.

(** [StateStoreExt]: typed access. The (de)serialiser is rkyv's. *)
Class Archive (T : Type) := {
  to_bytes : T → bytes + string;
  from_bytes : bytes → T + string;
}.

(** What the typed interface relies on: serialisation succeeds and is undone by
    deserialisation. *)
Class ArchiveLaws (T : Type) `{Archive T} : Prop := {
  archive_roundtrip (x : T) : ∃ b, to_bytes x = inl b ∧ from_bytes b = inl x;
}.

(** A concrete serialiser for any countable type: the bytes of its code, least
    significant first. It shows that the laws can be met. *)
Definition code_bytes (p : positive) : bytes := to_le (Z.to_nat (Z.log2 (Zpos p) / 8 + 1)) (Zpos p).
Definition countable_archive {T} `{Countable T} : Archive T := {|
  to_bytes x := inl (code_bytes (encode x));
  from_bytes b := match decode (Z.to_pos (from_le b)) with
                  | Some x => inl x
                  | None => inr "invalid archive"
                  end;
|}.

Lemma code_bytes_roundtrip p : from_le (code_bytes p) = Zpos p.
Proof.
  pose proof (Z.log2_nonneg (Zpos p)) as Hl. pose proof (Z.div_pos (Z.log2 (Zpos p)) 8 Hl ltac:(lia)).
  apply from_to_le. split; [lia|]. rewrite Z2Nat.id by lia.
  change 256 with (2 ^ 8). rewrite <- Z.pow_mul_r by lia.
  apply Z.log2_lt_pow2; [lia|]. pose proof (Z.mul_succ_div_gt (Z.log2 (Zpos p)) 8 ltac:(lia)). lia.
Qed.

Lemma code_bytes_nonempty p : code_bytes p ≠ [].
Proof.
  intros H%(f_equal length). unfold code_bytes in H. rewrite to_le_length in H.
  change (length []) with 0%nat in H. pose proof (Z.log2_nonneg (Zpos p)) as Hl.
  pose proof (Z.div_pos (Z.log2 (Zpos p)) 8 Hl ltac:(lia)). lia.
Qed.

Lemma countable_archive_laws {T} `{Countable T} : ArchiveLaws T (H:=countable_archive).
Proof.
  constructor. intros x. eexists. split; [reflexivity|]. unfold from_bytes, countable_archive.
  rewrite code_bytes_roundtrip. cbn [Z.to_pos]. by rewrite decode_encode.
Qed.

Definition get_typed {S T} `{StateStore S, Archive T} (s : S) (key : bytes)
    : option T + StateError :=
  match (match ss_get_ref s key with Some r => Some r | None => ss_get s key end) with
  | None => inl None
  | Some data =>
      match from_bytes data with
      | inl v => inl (Some v)
      | inr e => inr (StSerialization e)
      end
  end.

Definition put_typed {S T} `{StateStore S, Archive T} (s : S) (key : bytes) (value : T)
    : S * (unit + StateError) :=
  match to_bytes value with
  | inl filled => ss_put s key filled
  | inr e => (s, inr (StSerialization e))
  end.

(** ** InMemoryStore *)

(** In-order traversal of a [BTreeMap]. *)
Definition entries (m : gmap bytes bytes) : list (bytes * bytes) :=
  merge_sort (λ p q, bytes_le p.1 q.1) (map_to_list m).

Definition in_range (lo : bytes) (hi : option bytes) (k : bytes) : bool :=
  bool_decide (bytes_le lo k) &&
  match hi with Some h => bool_decide (bytes_lt k h) | None => true end.

(** [BTreeMap::range] with an included lower and an excluded (or no) upper
    bound; it panics when the bounds are out of order. *)
Definition btree_range {A} (key : A → bytes) (l : list A) (lo : bytes) (hi : option bytes)
    : option (list A) :=
  match hi with
  | Some h => if bool_decide (bytes_lt h lo) then None
              else Some (filter (λ x, in_range lo hi (key x) = true) l)
  | None => Some (filter (λ x, in_range lo hi (key x) = true) l)
  end.

Record InMemoryStore := mkInMemory {
  im_data : gmap bytes bytes;
  im_size_bytes : Z;
}.

Definition InMemoryStore_new : InMemoryStore := mkInMemory ∅ 0.

Definition InMemoryStore_put (s : InMemoryStore) (key value : bytes)
    : InMemoryStore * (unit + StateError) :=
  (match im_data s !! key with
   | Some existing =>
       mkInMemory (<[key := value]> (im_data s))
         (u64_add (u64_sub (im_size_bytes s) (Z.of_nat (length existing))) (Z.of_nat (length value)))
   | None =>
       mkInMemory (<[key := value]> (im_data s))
         (u64_add (im_size_bytes s) (Z.of_nat (length key + length value)))
   end, inl tt).

Definition InMemoryStore_delete (s : InMemoryStore) (key : bytes)
    : InMemoryStore * (unit + StateError) :=
  (match im_data s !! key with
   | Some old_value =>
       mkInMemory (delete key (im_data s))
         (u64_sub (im_size_bytes s) (Z.of_nat (length key + length old_value)))
   | None => s
   end, inl tt).

Definition InMemoryStore_prefix_scan (s : InMemoryStore) (prefix : bytes)
    : option (list (bytes * bytes)) :=
  match prefix with
  | [] => Some (entries (im_data s))
  | _ => btree_range fst (entries (im_data s)) prefix (prefix_successor prefix)
  end.

Definition InMemoryStore_range_scan (s : InMemoryStore) (lo hi : bytes)
    : option (list (bytes * bytes)) :=
  btree_range fst (entries (im_data s)) lo (Some hi).

Definition InMemoryStore_snapshot (now : Z) (s : InMemoryStore) : StateSnapshot :=
  StateSnapshot_new now (entries (im_data s)).

(** The insertion loop of [restore]. *)
Definition restore_entry (s : InMemoryStore) (kv : bytes * bytes) : InMemoryStore :=
  mkInMemory (<[kv.1 := kv.2]> (im_data s)) (u64_add (im_size_bytes s) (pair_bytes kv)).
Definition InMemoryStore_clear (_ : InMemoryStore) : InMemoryStore := InMemoryStore_new.
Definition InMemoryStore_restore (s : InMemoryStore) (sn : StateSnapshot) : InMemoryStore :=
  foldl restore_entry (mkInMemory ∅ 0) (sn_data sn).

#[export] Instance InMemoryStore_store : StateStore InMemoryStore := {
  ss_get s k := im_data s !! k;
  ss_get_ref s k := im_data s !! k;
  ss_put := InMemoryStore_put;
  ss_delete := InMemoryStore_delete;
  ss_prefix_scan := InMemoryStore_prefix_scan;
  ss_range_scan := InMemoryStore_range_scan;
  ss_contains s k := bool_decide (is_Some (im_data s !! k));
  ss_size_bytes := im_size_bytes;
  ss_len s := size (im_data s);
  ss_snapshot now s := Some (InMemoryStore_snapshot now s);
  ss_restore := InMemoryStore_restore;
  ss_clear := InMemoryStore_clear;
}.

(** ** AHashMapStore *)

Record AHashMapStore := mkAHash {
  ah_data : gmap bytes bytes;
  ah_index : gset bytes;
  ah_size_bytes : Z;
}.

Definition AHashMapStore_new : AHashMapStore := mkAHash ∅ ∅ 0.

Definition AHashMapStore_put (s : AHashMapStore) (key value : bytes)
    : AHashMapStore * (unit + StateError) :=
  (match ah_data s !! key with
   | Some old_value =>
       mkAHash (<[key := value]> (ah_data s)) (ah_index s)
         (u64_add (u64_sub (ah_size_bytes s) (Z.of_nat (length old_value))) (Z.of_nat (length value)))
   | None =>
       mkAHash (<[key := value]> (ah_data s)) ({[key]} ∪ ah_index s)
         (u64_add (ah_size_bytes s) (Z.of_nat (length key + length value)))
   end, inl tt).

Definition AHashMapStore_delete (s : AHashMapStore) (key : bytes)
    : AHashMapStore * (unit + StateError) :=
  (match ah_data s !! key with
   | Some old_value =>
       mkAHash (delete key (ah_data s)) (ah_index s ∖ {[key]})
         (u64_sub (ah_size_bytes s) (Z.of_nat (length key + length old_value)))
   | None => s
   end, inl tt).

(** In-order traversal of the [BTreeSet] index. *)
Definition index_keys (i : gset bytes) : list bytes := merge_sort bytes_le (elements i).

(** [map(|k| (k, self.data[k]))]: indexing a missing key panics. *)
Definition fetch (s : AHashMapStore) (ks : list bytes) : option (list (bytes * bytes)) :=
  mapM (λ k, pair k <$> ah_data s !! k) ks.

Definition AHashMapStore_prefix_scan (s : AHashMapStore) (prefix : bytes)
    : option (list (bytes * bytes)) :=
  match prefix with
  | [] => fetch s (index_keys (ah_index s))
  | _ => btree_range (λ k, k) (index_keys (ah_index s)) prefix (prefix_successor prefix) ≫= fetch s
  end.

Definition AHashMapStore_range_scan (s : AHashMapStore) (lo hi : bytes)
    : option (list (bytes * bytes)) :=
  btree_range (λ k, k) (index_keys (ah_index s)) lo (Some hi) ≫= fetch s.

Definition AHashMapStore_snapshot (now : Z) (s : AHashMapStore) : option StateSnapshot :=
  StateSnapshot_new now <$> fetch s (index_keys (ah_index s)).

Definition ah_restore_entry (s : AHashMapStore) (kv : bytes * bytes) : AHashMapStore :=
  mkAHash (<[kv.1 := kv.2]> (ah_data s)) ({[kv.1]} ∪ ah_index s)
    (u64_add (ah_size_bytes s) (pair_bytes kv)).
Definition AHashMapStore_clear (_ : AHashMapStore) : AHashMapStore := AHashMapStore_new.
Definition AHashMapStore_restore (s : AHashMapStore) (sn : StateSnapshot) : AHashMapStore :=
  foldl ah_restore_entry (mkAHash ∅ ∅ 0) (sn_data sn).

#[export] Instance AHashMapStore_store : StateStore AHashMapStore := {
  ss_get s k := ah_data s !! k;
  ss_get_ref s k := ah_data s !! k;
  ss_put := AHashMapStore_put;
  ss_delete := AHashMapStore_delete;
  ss_prefix_scan := AHashMapStore_prefix_scan;
  ss_range_scan := AHashMapStore_range_scan;
  ss_contains s k := bool_decide (is_Some (ah_data s !! k));
  ss_size_bytes := ah_size_bytes;
  ss_len s := size (ah_data s);
  ss_snapshot := AHashMapStore_snapshot;
  ss_restore := AHashMapStore_restore;
  ss_clear := AHashMapStore_clear;
}.

(** ** What a client of a store relies on *)

(** The bytes of keys and values a map holds. *)
Definition map_bytes (m : gmap bytes bytes) : Z :=
  foldr Z.add 0 (map pair_bytes (map_to_list m)).

(** A prefix scan as a range of the ordered entries. *)
Definition scan_range (m : gmap bytes bytes) (prefix : bytes) : option (list (bytes * bytes)) :=
  match prefix with
  | [] => Some (entries m)
  | _ => btree_range fst (entries m) prefix (prefix_successor prefix)
  end.

(** A lawful store is a finite map: [sabs] is the map it holds, [sok] its
    representation invariant. *)
Class StateStoreLaws (S : Type) `{StateStore S} (sok : S → Prop)
    (sabs : S → gmap bytes bytes) : Prop := {
  law_get s k : sok s → ss_get s k = sabs s !! k;
  law_get_ref s k : sok s → ss_get_ref s k = None ∨ ss_get_ref s k = sabs s !! k;
  law_put s k v : sok s →
    (ss_put s k v).2 = inl tt ∧ sok (ss_put s k v).1 ∧ sabs (ss_put s k v).1 = <[k := v]> (sabs s);
  law_delete s k : sok s →
    (ss_delete s k).2 = inl tt ∧ sok (ss_delete s k).1 ∧
    sabs (ss_delete s k).1 = delete k (sabs s);
  law_contains s k : sok s → ss_contains s k = bool_decide (is_Some (sabs s !! k));
  law_size s : sok s → ss_size_bytes s = wrap_u64 (map_bytes (sabs s));
  law_len s : sok s → ss_len s = size (sabs s);
  law_prefix_scan s p : sok s → ss_prefix_scan s p = scan_range (sabs s) p;
  law_range_scan s lo hi : sok s →
    ss_range_scan s lo hi = btree_range fst (entries (sabs s)) lo (Some hi);
  law_snapshot now s : sok s →
    ss_snapshot now s = Some (StateSnapshot_new now (entries (sabs s)));
  law_restore s sn : NoDup (sn_data sn).*1 →
    sok (ss_restore s sn) ∧ sabs (ss_restore s sn) = list_to_map (sn_data sn);
  law_clear s : sok (ss_clear s) ∧ sabs (ss_clear s) = ∅;
}.

(** ** Lemmas on byte counts and ordered entries *)

Lemma sum_perm l l' : l ≡ₚ l' → foldr Z.add 0 (map pair_bytes l) = foldr Z.add 0 (map pair_bytes l').
Proof. induction 1; simpl; lia. Qed.

Lemma map_bytes_insert m k v :
  m !! k = None → map_bytes (<[k := v]> m) = pair_bytes (k, v) + map_bytes m.
Proof. intros Hk. unfold map_bytes. by rewrite (sum_perm _ _ (map_to_list_insert m k v Hk)). Qed.

Lemma map_bytes_delete m k v :
  m !! k = Some v → map_bytes m = pair_bytes (k, v) + map_bytes (delete k m).
Proof.
  intros Hk. rewrite <- (insert_delete_id m k v Hk) at 1. apply map_bytes_insert, lookup_delete_eq.
Qed.

Lemma map_bytes_update m k v w :
  m !! k = Some w →
  map_bytes (<[k := v]> m) = map_bytes m - Z.of_nat (length w) + Z.of_nat (length v).
Proof.
  intros Hk. rewrite (map_bytes_delete _ _ _ Hk), <- insert_delete_eq, map_bytes_insert
    by apply lookup_delete_eq. unfold pair_bytes. simpl. lia.
Qed.

Lemma map_bytes_list_to_map l :
  NoDup l.*1 → map_bytes (list_to_map l) = foldr Z.add 0 (map pair_bytes l).
Proof. intros Hnd. unfold map_bytes. by rewrite (sum_perm _ _ (map_to_list_to_map l Hnd)). Qed.

Lemma wrap_u64_add_l a b : wrap_u64 (wrap_u64 a + b) = wrap_u64 (a + b).
Proof. unfold wrap_u64. by rewrite Z.add_mod_idemp_l. Qed.
Lemma wrap_u64_sub_l a b : wrap_u64 (wrap_u64 a - b) = wrap_u64 (a - b).
Proof. unfold wrap_u64. by rewrite Zminus_mod_idemp_l. Qed.

#[export] Instance entry_le_dec : RelDecision (λ p q : bytes * bytes, bytes_le p.1 q.1).
Proof. intros p q. apply _. Defined.

Lemma entries_perm m : entries m ≡ₚ map_to_list m.
Proof. apply merge_sort_Permutation. Qed.
Lemma elem_of_entries m k v : (k, v) ∈ entries m ↔ m !! k = Some v.
Proof. rewrite entries_perm. apply elem_of_map_to_list. Qed.
Lemma NoDup_entries m : NoDup (entries m).*1.
Proof. rewrite entries_perm. apply NoDup_fst_map_to_list. Qed.
Lemma entries_sorted m : StronglySorted bytes_le (entries m).*1.
Proof.
  assert (H : StronglySorted (λ p q : bytes * bytes, bytes_le p.1 q.1) (entries m)).
  { apply StronglySorted_merge_sort.
    - intros p q r ?? . by etrans.
    - intros p q. apply bytes_le_total. }
  induction H as [|p l Hl IH Hall]; simpl; constructor; [done|].
  apply Forall_fmap. eapply Forall_impl; [exact Hall|]. done.
Qed.

Lemma entries_keys m : (entries m).*1 = merge_sort bytes_le (elements (dom m)).
Proof.
  apply (StronglySorted_unique bytes_le).
  - apply entries_sorted.
  - apply StronglySorted_merge_sort; apply _.
  - rewrite merge_sort_Permutation. apply NoDup_Permutation; [apply NoDup_entries|apply NoDup_elements|].
    intros k. rewrite elem_of_elements, elem_of_dom, list_elem_of_fmap. split.
    + intros ([k' v] & -> & Hin%elem_of_entries). by exists v.
    + intros [v Hv]. exists (k, v). split; [done|]. by apply elem_of_entries.
Qed.

Lemma mapM_entries (m : gmap bytes bytes) l :
  Forall (λ p, m !! p.1 = Some p.2) l → mapM (λ k, pair k <$> m !! k) l.*1 = Some l.
Proof.
  intros H. apply mapM_Some. induction H as [|[k v] l Hx Hl IH]; simpl; constructor; [|done].
  simpl in Hx. by rewrite Hx.
Qed.

Lemma Forall_entries m l : (∀ p, p ∈ l → p ∈ entries m) → Forall (λ p, m !! p.1 = Some p.2) l.
Proof.
  intros H. apply Forall_forall. intros [k v] Hin. by apply elem_of_entries, H.
Qed.

Lemma filter_fst (P : bytes → bool) (l : list (bytes * bytes)) :
  (filter (λ p, P p.1 = true) l).*1 = filter (λ k, P k = true) l.*1.
Proof.
  induction l as [|[k v] l IH]; [done|]. rewrite fmap_cons. destruct (P k) eqn:E.
  - rewrite !filter_cons_True by done. rewrite fmap_cons. by f_equal.
  - rewrite !filter_cons_False by (simpl; congruence). done.
Qed.

Lemma btree_range_keys m lo hi s :
  ah_data s = m →
  btree_range (λ k, k) (entries m).*1 lo hi ≫= fetch s = btree_range fst (entries m) lo hi.
Proof.
  intros <-. assert (Hf : fetch s (filter (λ k, in_range lo hi k = true) (entries (ah_data s)).*1) =
    Some (filter (λ p, in_range lo hi p.1 = true) (entries (ah_data s)))).
  { unfold fetch. rewrite <- (filter_fst (in_range lo hi)). apply mapM_entries, Forall_entries.
    intros p [_ Hp]%list_elem_of_filter. done. }
  unfold btree_range. destruct hi; [case_bool_decide; [done|]|]; exact Hf.
Qed.

(** ** Both stores are lawful *)

Definition im_ok (s : InMemoryStore) : Prop := im_size_bytes s = wrap_u64 (map_bytes (im_data s)).

Definition ah_ok (s : AHashMapStore) : Prop :=
  ah_index s = dom (ah_data s) ∧ ah_size_bytes s = wrap_u64 (map_bytes (ah_data s)).

(** The size bookkeeping shared by both stores. *)
Lemma size_put_new m k v n :
  n = wrap_u64 (map_bytes m) → m !! k = None →
  u64_add n (Z.of_nat (length k + length v)) = wrap_u64 (map_bytes (<[k := v]> m)).
Proof.
  intros -> Hk. rewrite map_bytes_insert by done. unfold u64_add. rewrite wrap_u64_add_l.
  f_equal. unfold pair_bytes. simpl. lia.
Qed.
Lemma size_put_old m k v w n :
  n = wrap_u64 (map_bytes m) → m !! k = Some w →
  u64_add (u64_sub n (Z.of_nat (length w))) (Z.of_nat (length v)) =
    wrap_u64 (map_bytes (<[k := v]> m)).
Proof.
  intros -> Hk. rewrite (map_bytes_update _ _ _ _ Hk). unfold u64_add, u64_sub.
  by rewrite wrap_u64_sub_l, wrap_u64_add_l.
Qed.
Lemma size_delete m k w n :
  n = wrap_u64 (map_bytes m) → m !! k = Some w →
  u64_sub n (Z.of_nat (length k + length w)) = wrap_u64 (map_bytes (delete k m)).
Proof.
  intros -> Hk. rewrite (map_bytes_delete _ _ _ Hk). unfold u64_sub. rewrite wrap_u64_sub_l.
  f_equal. unfold pair_bytes. simpl. lia.
Qed.
Lemma size_restore l n :
  n = wrap_u64 0 →
  foldl (λ n kv, u64_add n (pair_bytes kv)) n l = wrap_u64 (foldr Z.add 0 (map pair_bytes l)).
Proof.
  assert (H : ∀ a, foldl (λ n kv, u64_add n (pair_bytes kv)) (wrap_u64 a) l =
            wrap_u64 (a + foldr Z.add 0 (map pair_bytes l))).
  { induction l as [|p l IH]; intros a; simpl; [by rewrite Z.add_0_r|].
    unfold u64_add. rewrite wrap_u64_add_l, IH. f_equal. lia. }
  intros ->. apply H.
Qed.

Lemma foldl_insert_list_to_map (l : list (bytes * bytes)) : ∀ m : gmap bytes bytes,
  NoDup l.*1 → (∀ k, k ∈ l.*1 → m !! k = None) →
  foldl (λ m kv, <[kv.1 := kv.2]> m) m l = list_to_map l ∪ m.
Proof.
  induction l as [|[k v] l IH]; intros m Hnd Hm; simpl; [by rewrite map_empty_union|].
  apply NoDup_cons in Hnd as [Hk Hnd]. rewrite IH; [|done|].
  - apply not_elem_of_list_to_map_1 in Hk.
    rewrite <- insert_union_l. rewrite <- insert_union_r by done. done.
  - intros k' Hk'. rewrite lookup_insert_ne; [|by intros ->]. apply Hm. set_solver.
Qed.

Lemma foldl_insert_empty (l : list (bytes * bytes)) :
  NoDup l.*1 →
  foldl (λ m kv, <[kv.1 := kv.2]> m) (∅ : gmap bytes bytes) l = list_to_map l.
Proof.
  intros Hnd. rewrite foldl_insert_list_to_map; [by rewrite map_union_empty|done|].
  intros; apply lookup_empty.
Qed.

Lemma restore_entries_split l : ∀ m n,
  foldl restore_entry (mkInMemory m n) l =
    mkInMemory (foldl (λ m kv, <[kv.1 := kv.2]> m) m l)
      (foldl (λ n kv, u64_add n (pair_bytes kv)) n l).
Proof. induction l as [|p l IH]; intros m n; simpl; [done|]. unfold restore_entry at 2. apply IH. Qed.

Lemma ah_restore_entries_split l : ∀ m i n,
  foldl ah_restore_entry (mkAHash m i n) l =
    mkAHash (foldl (λ m kv, <[kv.1 := kv.2]> m) m l)
      (foldl (λ i kv, {[kv.1]} ∪ i) i l) (foldl (λ n kv, u64_add n (pair_bytes kv)) n l).
Proof. induction l as [|p l IH]; intros m i n; simpl; [done|]. unfold ah_restore_entry at 2. apply IH. Qed.

Lemma index_restore l : ∀ (m : gmap bytes bytes) i,
  i = dom m → foldl (λ i (kv : bytes * bytes), {[kv.1]} ∪ i) i l =
              dom (foldl (λ m kv, <[kv.1 := kv.2]> m) m l).
Proof.
  induction l as [|p l IH]; intros m i Hi; simpl; [done|]. apply IH. by rewrite dom_insert_L, Hi.
Qed.

#[export] Instance InMemoryStore_laws : StateStoreLaws InMemoryStore im_ok im_data.
Proof.
  split; try done; simpl.
  - intros s k _. by right.
  - intros s k v Hok. unfold InMemoryStore_put. simpl.
    destruct (im_data s !! k) eqn:E; (split_and!; [done| |done]); unfold im_ok; simpl;
      [by apply size_put_old|by apply size_put_new].
  - intros s k Hok. unfold InMemoryStore_delete. simpl.
    destruct (im_data s !! k) eqn:E; (split_and!; [done| |]); unfold im_ok; simpl; try done;
      [by apply size_delete|by rewrite delete_id].
  - intros s sn Hnd. unfold InMemoryStore_restore. rewrite restore_entries_split. unfold im_ok. simpl.
    rewrite foldl_insert_empty by done. split; [|done]. rewrite map_bytes_list_to_map by done. by apply size_restore.
Qed.

#[export] Instance AHashMapStore_laws : StateStoreLaws AHashMapStore ah_ok ah_data.
Proof.
  split; try done; simpl.
  - intros s k _. by right.
  - intros s k v [Hi Hok]. unfold AHashMapStore_put. simpl.
    destruct (ah_data s !! k) eqn:E; (split_and!; [done| |done]); split; simpl;
      [|by apply size_put_old| |by apply size_put_new]; rewrite dom_insert_L, Hi; [|done].
    apply elem_of_dom_2 in E. set_solver.
  - intros s k [Hi Hok]. unfold AHashMapStore_delete. simpl.
    destruct (ah_data s !! k) eqn:E; (split_and!; [done| |]); simpl; try done.
    + split; simpl; [by rewrite dom_delete_L, Hi|by apply size_delete].
    + by rewrite delete_id.
  - intros s [_ Hok]. done.
  - intros s p [Hi _]. unfold AHashMapStore_prefix_scan, scan_range, index_keys.
    rewrite Hi, <- entries_keys. destruct p; [|by apply btree_range_keys].
    unfold fetch. by apply mapM_entries, Forall_entries.
  - intros s lo hi [Hi _]. unfold AHashMapStore_range_scan, index_keys.
    rewrite Hi, <- entries_keys. by apply btree_range_keys.
  - intros now s [Hi _]. unfold AHashMapStore_snapshot, index_keys, fetch.
    rewrite Hi, <- entries_keys, mapM_entries; [done|]. by apply Forall_entries.
  - intros s sn Hnd. unfold AHashMapStore_restore. rewrite ah_restore_entries_split. unfold ah_ok. simpl.
    rewrite (index_restore _ ∅) by done.
    rewrite foldl_insert_empty by done. split; [|done]. split; [done|].
    rewrite map_bytes_list_to_map by done. by apply size_restore.
Qed.

(** ** Prefix scans *)

(** The successor, computed from the front. *)
Fixpoint successor_fwd (p : bytes) : option bytes :=
  match p with
  | [] => None
  | x :: p' => match successor_fwd p' with
               | Some s => Some (x :: s)
               | None => if x <? 255 then Some [x + 1] else None
               end
  end.

Lemma successor_loop_snoc l x :
  successor_loop (l ++ [x]) =
    match successor_loop l with
    | Some s => Some (x :: s)
    | None => if x <? 255 then Some [x + 1] else None
    end.
Proof.
  induction l as [|y l IH]; simpl; [by case_match|]. destruct (y <? 255) eqn:E; [|done].
  by rewrite !reverse_cons, reverse_snoc.
Qed.

Lemma prefix_successor_fwd p : prefix_successor p = successor_fwd p.
Proof.
  assert (H : ∀ p, successor_loop (reverse p) = successor_fwd p).
  { clear p. induction p as [|x p IH]; [done|]. rewrite reverse_cons, successor_loop_snoc, IH. done. }
  destruct p; [done|]. apply H.
Qed.

Lemma bytes_cmp_cons x y a b :
  bytes_cmp (x :: a) (y :: b) = match x ?= y with Eq => bytes_cmp a b | c => c end.
Proof. done. Qed.

(** The range from a prefix to its successor holds exactly the strings that
    start with the prefix. *)
Lemma in_range_prefix p : ∀ k, Forall is_u8 k →
  in_range p (prefix_successor p) k = true ↔ p `prefix_of` k.
Proof.
  rewrite prefix_successor_fwd.
  induction p as [|x p IH]; intros k Hk.
  { unfold in_range. simpl. rewrite bool_decide_eq_true_2; [|by destruct k].
    split; [intros _; apply prefix_nil|done]. }
  destruct Hk as [|y k Hy Hk].
  { unfold in_range. rewrite bool_decide_eq_false_2; [|unfold bytes_le; simpl; naive_solver].
    split; [done|]. intros H. by apply prefix_nil_not in H. }
  specialize (IH k Hk). unfold in_range in *. cbn [successor_fwd].
  destruct (Z.lt_trichotomy y x) as [Hlt|[->|Hgt]].
  - rewrite bool_decide_eq_false_2.
    + split; [done|]. intros Hp%prefix_cons_inv_1. lia.
    + unfold bytes_le. rewrite bytes_cmp_cons, (proj2 (Z.compare_gt_iff x y)) by lia. naive_solver.
  - assert (H1 : bool_decide (bytes_le (x :: p) (x :: k)) = bool_decide (bytes_le p k)).
    { apply bool_decide_ext. unfold bytes_le. by rewrite bytes_cmp_cons, Z.compare_refl. }
    assert (H2 : x :: p `prefix_of` x :: k ↔ p `prefix_of` k).
    { split; [apply prefix_cons_inv_2|apply prefix_cons]. }
    rewrite H1, H2, <- IH. destruct (successor_fwd p) as [s|].
    + assert (H3 : bool_decide (bytes_lt (x :: k) (x :: s)) = bool_decide (bytes_lt k s)).
      { apply bool_decide_ext. unfold bytes_lt. by rewrite bytes_cmp_cons, Z.compare_refl. }
      by rewrite H3.
    + destruct (x <? 255); [|done]. rewrite (bool_decide_eq_true_2 (bytes_lt (x :: k) [x + 1])).
      * done.
      * unfold bytes_lt. rewrite bytes_cmp_cons, (proj2 (Z.compare_lt_iff x (x + 1))) by lia. done.
  - assert (Hno : ∀ s, bool_decide (bytes_lt (y :: k) (x :: s)) = false).
    { intros s. apply bool_decide_eq_false_2. unfold bytes_lt.
      rewrite bytes_cmp_cons, (proj2 (Z.compare_gt_iff y x)) by lia. done. }
    assert (Hnp : ¬ x :: p `prefix_of` y :: k) by (intros Hp%prefix_cons_inv_1; lia).
    destruct (successor_fwd p) as [s|]; [rewrite Hno, andb_false_r; done|].
    destruct (Z.ltb_spec x 255); [|unfold is_u8 in Hy; lia].
    rewrite (bool_decide_eq_false_2 (bytes_lt (y :: k) [x + 1])), andb_false_r; [done|].
    unfold bytes_lt. rewrite bytes_cmp_cons. destruct (Z.compare_spec y (x + 1)); [|lia|done].
    by destruct k.
Qed.

Lemma prefix_successor_gt p s : prefix_successor p = Some s → ¬ bytes_lt s p.
Proof.
  rewrite prefix_successor_fwd. rewrite bytes_nlt_le. revert s.
  induction p as [|x p IH]; intros s; simpl; [done|].
  destruct (successor_fwd p) as [s'|].
  - intros [= <-]. unfold bytes_le. rewrite bytes_cmp_cons, Z.compare_refl. by apply IH.
  - destruct (x <? 255); [|done]. intros [= <-]. unfold bytes_le.
    by rewrite bytes_cmp_cons, (proj2 (Z.compare_lt_iff x (x + 1))) by lia.
Qed.

(** The keys of a map are byte strings. *)
Definition keys_ok (m : gmap bytes bytes) : Prop := map_Forall (λ k _, Forall is_u8 k) m.

Lemma scan_range_spec m p :
  keys_ok m →
  scan_range m p = Some (filter (λ kv, p `prefix_of` kv.1) (entries m)).
Proof.
  intros Hk.
  assert (Hf : filter (λ kv, in_range p (prefix_successor p) kv.1 = true) (entries m) =
               filter (λ kv, p `prefix_of` kv.1) (entries m)).
  { assert (Hall : Forall (λ kv, Forall is_u8 kv.1) (entries m)).
    { apply Forall_forall. intros [k v] Hin%elem_of_entries. exact (Hk _ _ Hin). }
    revert Hall. generalize (entries m). intros l Hall.
    induction Hall as [|[k v] l Hx Hl IH]; [done|]. simpl in Hx.
    pose proof (in_range_prefix p k Hx) as Hp. rewrite !filter_cons. simpl.
    repeat case_decide; [by f_equal|naive_solver..|done]. }
  destruct p as [|x p].
  - simpl. f_equal. symmetry. generalize (entries m). intros l. induction l as [|kv l IH]; [done|].
    rewrite filter_cons_True by apply prefix_nil. by rewrite IH.
  - unfold scan_range, btree_range. rewrite Hf.
    destruct (prefix_successor (x :: p)) as [s|] eqn:E; [|done].
    by rewrite bool_decide_eq_false_2 by (by eapply prefix_successor_gt).
Qed.

(** ** Running a store *)

Inductive store_op :=
| StPut (k v : bytes) | StDelete (k : bytes) | StRestore (sn : StateSnapshot) | StClear.

Definition store_op_ok (op : store_op) : Prop :=
  match op with StRestore sn => NoDup (sn_data sn).*1 | _ => True end.

Definition store_step {S} `{StateStore S} (s : S) (op : store_op) : S :=
  match op with
  | StPut k v => (ss_put s k v).1
  | StDelete k => (ss_delete s k).1
  | StRestore sn => ss_restore s sn
  | StClear => ss_clear s
  end.

(** The map a sequence of operations builds. *)
Definition map_step (m : gmap bytes bytes) (op : store_op) : gmap bytes bytes :=
  match op with
  | StPut k v => <[k := v]> m
  | StDelete k => delete k m
  | StRestore sn => list_to_map (sn_data sn)
  | StClear => ∅
  end.

Lemma store_run {S} `{StateStoreLaws S sok sabs} ops : ∀ s,
  Forall store_op_ok ops → sok s →
  sok (foldl store_step s ops) ∧ sabs (foldl store_step s ops) = foldl map_step (sabs s) ops.
Proof.
  induction ops as [|op ops IH]; intros s Hops Hs; simpl; [done|].
  apply Forall_cons in Hops as [Hop Hops].
  assert (sok (store_step s op) ∧ sabs (store_step s op) = map_step (sabs s) op) as [H1 H2].
  { destruct op as [k v|k|sn|]; simpl.
    - by destruct (law_put s k v Hs) as (_ & ? & ?).
    - by destruct (law_delete s k Hs) as (_ & ? & ?).
    - by apply law_restore.
    - apply law_clear. }
  destruct (IH _ Hops H1) as [H3 H4]. by rewrite H4, H2.
Qed.

(** ** Properties *)

(** The hash store is observably the ordered store: after any sequence of
    puts, deletes, restores and clears on a fresh store, every read, size, scan
    and snapshot of [AHashMapStore] equals that of [InMemoryStore]; in
    particular its sorted index never misses a key, so no scan panics. *)
Theorem ahash_store_equivalent ops :
  Forall store_op_ok ops →
  let a := foldl store_step InMemoryStore_new ops in
  let b := foldl store_step AHashMapStore_new ops in
  (∀ k, ss_get b k = ss_get a k) ∧ (∀ k, ss_contains b k = ss_contains a k) ∧
  ss_len b = ss_len a ∧ ss_size_bytes b = ss_size_bytes a ∧
  (∀ p, ss_prefix_scan b p = ss_prefix_scan a p) ∧
  (∀ lo hi, ss_range_scan b lo hi = ss_range_scan a lo hi) ∧
  (∀ now, ss_snapshot now b = ss_snapshot now a).
Proof.
  intros Hops a b.
  destruct (store_run (S:=InMemoryStore) ops InMemoryStore_new Hops) as [Ha Hma]; [done|].
  destruct (store_run (S:=AHashMapStore) ops AHashMapStore_new Hops) as [Hb Hmb];
    [by split; [simpl; rewrite dom_empty_L|]|].
  fold a in Ha, Hma. fold b in Hb, Hmb. simpl in Hma, Hmb.
  split_and!.
  - intros k. by rewrite (law_get b k Hb), (law_get a k Ha), Hma, Hmb.
  - intros k. by rewrite (law_contains b k Hb), (law_contains a k Ha), Hma, Hmb.
  - by rewrite (law_len b Hb), (law_len a Ha), Hma, Hmb.
  - by rewrite (law_size b Hb), (law_size a Ha), Hma, Hmb.
  - intros p. by rewrite (law_prefix_scan b p Hb), (law_prefix_scan a p Ha), Hma, Hmb.
  - intros lo hi. by rewrite (law_range_scan b lo hi Hb), (law_range_scan a lo hi Ha), Hma, Hmb.
  - intros now. by rewrite (law_snapshot now b Hb), (law_snapshot now a Ha), Hma, Hmb.
Qed.

Lemma ahash_store_equivalent_witness :
  let ops := [StPut [1; 2] [7]; StPut [1] [8; 9]; StPut [1; 2] []; StDelete [1]; StPut [0] [4]] in
  let b := foldl store_step AHashMapStore_new ops in
  ss_size_bytes b = 4 ∧
  ss_prefix_scan b [] = ss_prefix_scan (foldl store_step InMemoryStore_new ops) [].
Proof.
  intros ops b. split; [reflexivity|].
  refine (proj1 (proj2 (proj2 (proj2 (proj2 (ahash_store_equivalent ops _))))) []).
  repeat constructor.
Defined.

(** [C35]: on any lawful store whose keys are byte strings, a prefix scan does
    not panic and returns, in strictly increasing key order, exactly the entries
    whose key starts with the prefix; this includes the empty prefix and
    prefixes ending in [0xFF], whose upper bound [prefix_successor] has to carry
    or to drop. *)
Theorem prefix_scan_exact {S} `{StateStoreLaws S sok sabs} (s : S) p :
  sok s → keys_ok (sabs s) →
  ∃ l, ss_prefix_scan s p = Some l ∧
    (∀ k v, (k, v) ∈ l ↔ ss_get s k = Some v ∧ p `prefix_of` k) ∧
    StronglySorted bytes_lt l.*1.
Proof.
  intros Hs Hk. exists (filter (λ kv, p `prefix_of` kv.1) (entries (sabs s))). split_and!.
  - by rewrite (law_prefix_scan s p Hs), scan_range_spec.
  - intros k v. rewrite list_elem_of_filter, elem_of_entries, (law_get s k Hs). naive_solver.
  - pose proof (entries_sorted (sabs s)) as Hsort. pose proof (NoDup_entries (sabs s)) as Hnd.
    revert Hsort Hnd. generalize (entries (sabs s)). intros l.
    induction l as [|[k v] l IH]; intros Hsort Hnd; [constructor|]. simpl in *.
    apply NoDup_cons in Hnd as [Hkl Hnd].
    apply StronglySorted_inv in Hsort as [Hsort Hall].
    rewrite filter_cons. case_decide; [|by apply IH]. simpl. constructor; [by apply IH|].
    apply Forall_forall. intros k' Hk'. rewrite Forall_forall in Hall.
    assert (Hin : k' ∈ l.*1).
    { apply list_elem_of_fmap in Hk' as (q & -> & [_ Hq]%list_elem_of_filter).
      by apply list_elem_of_fmap_2. }
    destruct (proj1 (bytes_le_lt_eq k k') (Hall _ Hin)) as [|Heq]; [done|]. by rewrite Heq in Hkl.
Qed.

Lemma prefix_scan_exact_witness :
  let s := foldl store_step InMemoryStore_new
             [StPut [255; 255] [1]; StPut [255] [2]; StPut [254; 255] [3]; StPut [255; 255; 0] [4]] in
  ∃ l, ss_prefix_scan s [255; 255] = Some l ∧
    (∀ k v, (k, v) ∈ l ↔ ss_get s k = Some v ∧ [255; 255] `prefix_of` k) ∧
    StronglySorted bytes_lt l.*1.
Proof.
  intros s. refine (prefix_scan_exact s [255; 255] _ _).
  - reflexivity.
  - intros k v Hkv. apply elem_of_map_to_list in Hkv.
    assert (HF : Forall (λ p : bytes * bytes, Forall (λ b, 0 <= b < 256) p.1) (map_to_list (im_data s))).
    { vm_compute. repeat constructor; discriminate. }
    exact (proj1 (Forall_forall _ _) HF _ Hkv).
Defined.

(** A snapshot taken from one lawful store and restored into another
    reproduces the first store's contents and byte count, whatever the second
    one held; the snapshot lists each key once, in key order. *)
Theorem snapshot_restore_roundtrip {S1 S2} `{StateStoreLaws S1 ok1 abs1} `{StateStoreLaws S2 ok2 abs2}
    now (s1 : S1) (s2 : S2) :
  ok1 s1 →
  ∃ sn, ss_snapshot now s1 = Some sn ∧ NoDup (sn_data sn).*1 ∧
    StronglySorted bytes_le (sn_data sn).*1 ∧
    ok2 (ss_restore s2 sn) ∧
    (∀ k, ss_get (ss_restore s2 sn) k = ss_get s1 k) ∧
    ss_size_bytes (ss_restore s2 sn) = ss_size_bytes s1 ∧
    StateSnapshot_size_bytes sn = ss_size_bytes s1.
Proof.
  intros Hs. exists (StateSnapshot_new now (entries (abs1 s1))).
  assert (Hnd : NoDup (entries (abs1 s1)).*1) by apply NoDup_entries.
  destruct (law_restore s2 (StateSnapshot_new now (entries (abs1 s1))) Hnd) as [Hok Habs].
  assert (Hsame : abs2 (ss_restore s2 (StateSnapshot_new now (entries (abs1 s1)))) = abs1 s1).
  { rewrite Habs. simpl. rewrite (list_to_map_proper _ _ Hnd (entries_perm _)).
    apply list_to_map_to_list. }
  split_and!; [by apply law_snapshot|done|apply entries_sorted|done| | |].
  - intros k. by rewrite (law_get _ k Hok), (law_get _ k Hs), Hsame.
  - by rewrite (law_size _ Hok), (law_size _ Hs), Hsame.
  - rewrite (law_size _ Hs). unfold StateSnapshot_size_bytes, map_bytes. simpl.
    by rewrite (sum_perm _ _ (entries_perm _)).
Qed.

Lemma snapshot_restore_roundtrip_witness :
  let s1 := foldl store_step InMemoryStore_new [StPut [1; 2] [7]; StPut [1] [8; 9]] in
  let s2 := foldl store_step AHashMapStore_new [StPut [5] [5]] in
  ∃ sn, ss_snapshot 0 s1 = Some sn ∧ ss_get (ss_restore s2 sn) [1; 2] = Some [7].
Proof.
  intros s1 s2.
  destruct (snapshot_restore_roundtrip (S1:=InMemoryStore) (S2:=AHashMapStore) 0 s1 s2)
    as (sn & Hsn & _ & _ & _ & Hget & _); [reflexivity|].
  exists sn. split; [exact Hsn|]. rewrite Hget. reflexivity.
Defined.
