(* ===== verification/WindowCore.v ===== *)
(** * Windows: identifiers, emission strategies, changelog records, assigners
    (crates/laminar-core/src/operator/window.rs and sliding_window.rs)

    The data every window operator shares: late-data configuration and metrics,
    close metrics, [EmitStrategy], [WindowId] with its 16-byte key encoding,
    changelog records with their Z-set weights, and the tumbling and sliding
    window assigners. Arithmetic is [i64] with the wrap-around of release builds;
    [/] is Rust's truncating division ([Z.quot]). *)

From S2P Require Import Prelude.

(** ** Late data *)

Record LateDataConfig := mkLateDataConfig { ld_side_output : option string }.
Definition LateDataConfig_drop : LateDataConfig := mkLateDataConfig None.
Definition LateDataConfig_with_side_output (name : string) : LateDataConfig :=
  mkLateDataConfig (Some name).
Definition LateDataConfig_should_drop (c : LateDataConfig) : bool :=
  match ld_side_output c with None => true | Some _ => false end.

Record LateDataMetrics := mkLateDataMetrics {
  late_events_total : Z;
  late_events_dropped : Z;
  late_events_side_output : Z;
}.
Definition LateDataMetrics_new : LateDataMetrics := mkLateDataMetrics 0 0 0.
Definition LateDataMetrics_record_dropped (m : LateDataMetrics) : LateDataMetrics :=
  mkLateDataMetrics (u64_add (late_events_total m) 1) (u64_add (late_events_dropped m) 1)
    (late_events_side_output m).
Definition LateDataMetrics_record_side_output (m : LateDataMetrics) : LateDataMetrics :=
  mkLateDataMetrics (u64_add (late_events_total m) 1) (late_events_dropped m)
    (u64_add (late_events_side_output m) 1).
Definition LateDataMetrics_reset (m : LateDataMetrics) : LateDataMetrics := mkLateDataMetrics 0 0 0.

(** ** Close metrics *)

Record WindowCloseMetrics := mkCloseMetrics {
  windows_closed_total : Z;
  close_latency_sum_ms : Z;
  close_latency_max_ms : Z;
}.
Definition WindowCloseMetrics_new : WindowCloseMetrics := mkCloseMetrics 0 0 0.
Definition WindowCloseMetrics_reset (m : WindowCloseMetrics) : WindowCloseMetrics := mkCloseMetrics 0 0 0.
Definition WindowCloseMetrics_avg_close_latency_ms (m : WindowCloseMetrics) : Z :=
  if windows_closed_total m =? 0 then 0
  else close_latency_sum_ms m ÷ Z.min (windows_closed_total m) i64_MAX.
Definition WindowCloseMetrics_record_close (m : WindowCloseMetrics) (window_end processing_time : Z)
    : WindowCloseMetrics :=
  let latency := Z.max 0 (processing_time ⊟ window_end) in
  mkCloseMetrics (u64_add (windows_closed_total m) 1) (i64_add (close_latency_sum_ms m) latency)
    (if close_latency_max_ms m <? latency then latency else close_latency_max_ms m).

(** ** Emission strategies *)

Inductive EmitStrategy :=
| OnWatermark
| PeriodicEmit (interval : Duration)
| OnUpdate
| OnWindowClose
| Changelog
| Final.
#[export] Instance EmitStrategy_eq_dec : EqDecision EmitStrategy.
Proof. solve_decision. Defined.

Definition EmitStrategy_needs_periodic_timer (s : EmitStrategy) : bool :=
  match s with PeriodicEmit _ => true | _ => false end.
Definition EmitStrategy_periodic_interval (s : EmitStrategy) : option Duration :=
  match s with PeriodicEmit d => Some d | _ => None end.
Definition EmitStrategy_emits_on_update (s : EmitStrategy) : bool :=
  match s with OnUpdate => true | _ => false end.
Definition EmitStrategy_emits_intermediate (s : EmitStrategy) : bool :=
  match s with OnUpdate | PeriodicEmit _ => true | _ => false end.
Definition EmitStrategy_requires_changelog (s : EmitStrategy) : bool :=
  match s with Changelog => true | _ => false end.
Definition EmitStrategy_is_append_only_compatible (s : EmitStrategy) : bool :=
  match s with OnWindowClose | Final => true | _ => false end.
Definition EmitStrategy_generates_retractions (s : EmitStrategy) : bool :=
  match s with OnWatermark | OnUpdate | Changelog => true | _ => false end.
Definition EmitStrategy_suppresses_intermediate (s : EmitStrategy) : bool :=
  match s with OnWindowClose | Final => true | _ => false end.
Definition EmitStrategy_drops_late_data (s : EmitStrategy) : bool :=
  match s with Final => true | _ => false end.

(** ** Window identifiers and their keys *)

Record WindowId := mkWindowId { w_start : Z; w_end : Z }.
#[export] Instance WindowId_eq_dec : EqDecision WindowId.
Proof. solve_decision. Defined.
#[export] Instance WindowId_countable : Countable WindowId.
Proof.
  refine (inj_countable' (λ w, (w_start w, w_end w)) (λ p, mkWindowId p.1 p.2) _).
  by intros [].
Defined.

Definition WindowId_new (start end_ : Z) : WindowId := mkWindowId start end_.
Definition WindowId_duration_ms (w : WindowId) : Z := i64_sub (w_end w) (w_start w).
Definition WindowId_to_key_inline (w : WindowId) : list Z :=
  i64_to_be_bytes (w_start w) ++ i64_to_be_bytes (w_end w).
Definition WindowId_to_key (w : WindowId) : list Z := WindowId_to_key_inline w.
Definition WindowId_from_key (key : list Z) : option WindowId :=
  if negb (length key =? 16)%nat then None
  else Some (mkWindowId (i64_from_be_bytes (take 8 key))
                        (i64_from_be_bytes (take 8 (drop 8 key)))).

(** Windows with machine-width bounds. *)
Definition window_ok (w : WindowId) : Prop := is_i64 (w_start w) ∧ is_i64 (w_end w).

(** ** Changelog records *)

Inductive CdcOperation := CdcInsert | CdcDelete | CdcUpdateBefore | CdcUpdateAfter.
#[export] Instance CdcOperation_eq_dec : EqDecision CdcOperation.
Proof. solve_decision. Defined.

Definition CdcOperation_weight (o : CdcOperation) : Z :=
  match o with CdcInsert | CdcUpdateAfter => 1 | CdcDelete | CdcUpdateBefore => -1 end.
Definition CdcOperation_is_insert (o : CdcOperation) : bool :=
  match o with CdcInsert | CdcUpdateAfter => true | _ => false end.
Definition CdcOperation_is_delete (o : CdcOperation) : bool :=
  match o with CdcDelete | CdcUpdateBefore => true | _ => false end.
Definition CdcOperation_debezium_op (o : CdcOperation) : string :=
  match o with CdcInsert => "c" | CdcDelete => "d" | _ => "u" end.
Definition CdcOperation_to_u8 (o : CdcOperation) : Z :=
  match o with CdcInsert => 0 | CdcDelete => 1 | CdcUpdateBefore => 2 | CdcUpdateAfter => 3 end.
Definition CdcOperation_from_u8 (value : Z) : CdcOperation :=
  if value =? 1 then CdcDelete
  else if value =? 2 then CdcUpdateBefore
  else if value =? 3 then CdcUpdateAfter
  else CdcInsert.

(** [Event]; the Arrow batch is opaque here. *)
Record Event {B : Type} := mkEvent { ev_timestamp : Z; ev_data : B }.
Arguments Event : clear implicits.
Arguments mkEvent {B}.

Record ChangelogRecord {B : Type} := mkChangelog {
  cl_operation : CdcOperation;
  cl_weight : Z;
  cl_emit_timestamp : Z;
  cl_event : Event B;
}.
Arguments ChangelogRecord : clear implicits.
Arguments mkChangelog {B}.

Definition ChangelogRecord_insert {B} (e : Event B) (emit_timestamp : Z) : ChangelogRecord B :=
  mkChangelog CdcInsert 1 emit_timestamp e.
Definition ChangelogRecord_delete {B} (e : Event B) (emit_timestamp : Z) : ChangelogRecord B :=
  mkChangelog CdcDelete (-1) emit_timestamp e.
Definition ChangelogRecord_update {B} (old_event new_event : Event B) (emit_timestamp : Z)
    : ChangelogRecord B * ChangelogRecord B :=
  (mkChangelog CdcUpdateBefore (-1) emit_timestamp old_event,
   mkChangelog CdcUpdateAfter 1 emit_timestamp new_event).
Definition ChangelogRecord_new {B} (o : CdcOperation) (e : Event B) (emit_timestamp : Z)
    : ChangelogRecord B :=
  mkChangelog o (CdcOperation_weight o) emit_timestamp e.

(** ** Tumbling windows *)

Class WindowAssigner (A : Type) := {
  assign_windows : A → Z → option (list WindowId);
  max_timestamp : A → Z → Z;
}.

Record TumblingWindowAssigner := mkTumbling { tw_size_ms : Z; tw_offset_ms : Z }.

(** [None]: the [assert!] or [expect] panics. *)
Definition TumblingWindowAssigner_new (size : Duration) : option TumblingWindowAssigner :=
  let size_ms := as_millis size in
  if size_ms <=? i64_MAX then
    if 0 <? size_ms then Some (mkTumbling size_ms 0) else None
  else None.
Definition TumblingWindowAssigner_from_millis (size_ms : Z) : option TumblingWindowAssigner :=
  if 0 <? size_ms then Some (mkTumbling size_ms 0) else None.
Definition TumblingWindowAssigner_with_offset_ms (a : TumblingWindowAssigner) (offset_ms : Z)
    : TumblingWindowAssigner := mkTumbling (tw_size_ms a) offset_ms.

Definition TumblingWindowAssigner_assign (a : TumblingWindowAssigner) (timestamp : Z) : WindowId :=
  let adjusted := i64_sub timestamp (tw_offset_ms a) in
  let window_start :=
    if 0 <=? adjusted then i64_mul (adjusted ÷ tw_size_ms a) (tw_size_ms a)
    else i64_mul (i64_add (i64_sub adjusted (tw_size_ms a)) 1 ÷ tw_size_ms a) (tw_size_ms a) in
  let window_start := i64_add window_start (tw_offset_ms a) in
  let window_end := i64_add window_start (tw_size_ms a) in
  WindowId_new window_start window_end.

#[export] Instance Tumbling_assigner : WindowAssigner TumblingWindowAssigner := {
  assign_windows a t := Some [TumblingWindowAssigner_assign a t];
  max_timestamp _ window_end := i64_sub window_end 1;
}.

(** ** Sliding windows *)

Record SlidingWindowAssigner := mkSliding {
  sw_size_ms : Z;
  sw_slide_ms : Z;
  sw_windows_per_event : Z;
  sw_offset_ms : Z;
}.

Definition SlidingWindowAssigner_from_millis (size_ms slide_ms : Z) : option SlidingWindowAssigner :=
  if 0 <? size_ms then
    if 0 <? slide_ms then
      if slide_ms <=? size_ms then
        let n := i64_sub (i64_add size_ms slide_ms) 1 ÷ slide_ms in
        Some (mkSliding size_ms slide_ms (if 0 <=? n then n else u64_MOD - 1) 0)
      else None
    else None
  else None.

Definition SlidingWindowAssigner_new (size slide : Duration) : option SlidingWindowAssigner :=
  if as_millis size <=? i64_MAX then
    if as_millis slide <=? i64_MAX then
      a ← SlidingWindowAssigner_from_millis (as_millis size) (as_millis slide);
      if 0 <=? i64_sub (i64_add (as_millis size) (as_millis slide)) 1 ÷ as_millis slide
      then Some a else None
    else None
  else None.

Definition SlidingWindowAssigner_with_offset_ms (a : SlidingWindowAssigner) (offset_ms : Z)
    : SlidingWindowAssigner :=
  mkSliding (sw_size_ms a) (sw_slide_ms a) (sw_windows_per_event a) offset_ms.

Definition SlidingWindowAssigner_last_window_start (a : SlidingWindowAssigner) (timestamp : Z) : Z :=
  let adjusted := i64_sub timestamp (sw_offset_ms a) in
  let base :=
    if 0 <=? adjusted then i64_mul (adjusted ÷ sw_slide_ms a) (sw_slide_ms a)
    else i64_mul (((adjusted ⊟ sw_slide_ms a) ⊞ 1) ÷ sw_slide_ms a) (sw_slide_ms a) in
  i64_add base (sw_offset_ms a).

(** The [while] loop of [assign_windows], collecting the windows from the
    latest to the earliest; [None] only when the fuel runs out. *)
Fixpoint sliding_loop (fuel : nat) (a : SlidingWindowAssigner) (timestamp window_start : Z)
    (windows : list WindowId) : option (list WindowId) :=
  match fuel with
  | O => None
  | S fuel =>
      if timestamp <? i64_add window_start (sw_size_ms a) then
        let windows := windows ++ [WindowId_new window_start (i64_add window_start (sw_size_ms a))] in
        let next := window_start ⊟ sw_slide_ms a in
        if next =? window_start then Some windows
        else sliding_loop fuel a timestamp next windows
      else Some windows
  end.

(** The loop runs once per window and once more to leave. *)
Definition SlidingWindowAssigner_assign_windows (a : SlidingWindowAssigner) (timestamp : Z)
    : option (list WindowId) :=
  reverse <$> sliding_loop (Z.to_nat (sw_size_ms a / sw_slide_ms a) + 2) a timestamp
                (SlidingWindowAssigner_last_window_start a timestamp) [].

#[export] Instance Sliding_assigner : WindowAssigner SlidingWindowAssigner := {
  assign_windows := SlidingWindowAssigner_assign_windows;
  max_timestamp _ window_end := i64_sub window_end 1;
}.

(** ** Lemmas: keys *)

Lemma key_inline_length w : length (WindowId_to_key_inline w) = 16%nat.
Proof. unfold WindowId_to_key_inline, i64_to_be_bytes. by rewrite length_app, !to_be_length. Qed.

Lemma from_to_key w : window_ok w → WindowId_from_key (WindowId_to_key w) = Some w.
Proof.
  intros [Hs He]. unfold WindowId_from_key, WindowId_to_key. rewrite key_inline_length. cbn [negb Nat.eqb].
  unfold WindowId_to_key_inline.
  assert (Hl : ∀ z, length (i64_to_be_bytes z) = 8%nat) by (intros; apply to_be_length).
  rewrite take_app_length', drop_app_length', take_ge by (by rewrite Hl). rewrite !i64_be_roundtrip by done. by destruct w.
Qed.

Lemma to_key_inj w w' : window_ok w → window_ok w' → WindowId_to_key w = WindowId_to_key w' → w = w'.
Proof. intros Hw Hw' H. apply from_to_key in Hw, Hw'. congruence. Qed.

(** The first byte of a key: its high bit is the sign of the window start. *)
Lemma key_first_byte w :
  window_ok w →
  ∃ b rest, WindowId_to_key w = b :: rest ∧ is_u8 b ∧ (128 <= b ↔ w_start w < 0).
Proof.
  intros [[H1 H2] _]. unfold WindowId_to_key, WindowId_to_key_inline, i64_to_be_bytes.
  exists ((w_start w / 256 ^ Z.of_nat 7) mod 256), (to_be 7 (w_start w) ++ to_be 8 (w_end w)).
  split; [done|]. split; [apply Z.mod_pos_bound; lia|].
  change (256 ^ Z.of_nat 7) with 72057594037927936.
  set (q := w_start w / 72057594037927936).
  assert (-128 <= q <= 127).
  { unfold q. split; [apply Z.div_le_lower_bound; lia|].
    assert (w_start w / 72057594037927936 < 128); [apply Z.div_lt_upper_bound; lia|lia]. }
  assert (Hq : q < 0 ↔ w_start w < 0).
  { unfold q. split; intros.
    - destruct (Z_lt_le_dec (w_start w) 0); [done|].
      assert (0 <= w_start w / 72057594037927936) by (apply Z.div_pos; lia). lia.
    - apply Z.div_lt_upper_bound; lia. }
  rewrite <- Hq. destruct (Z_lt_le_dec q 0).
  - replace q with ((q + 256) + (-1) * 256) by lia. rewrite Z.mod_add by lia.
    rewrite Z.mod_small by lia. lia.
  - rewrite Z.mod_small by lia. lia.
Qed.

(** ** Lemmas: assigners *)

(** The truncating division of the negative branch is the floor. *)
Lemma quot_floor_neg n d : n < 0 → 0 < d → (n - d + 1) ÷ d = n / d.
Proof.
  intros Hn Hd. pose proof (Z.div_mod n d ltac:(lia)) as Hdm.
  pose proof (Z.mod_pos_bound n d Hd) as Hr.
  replace (n - d + 1) with (- (d * (- (n / d)) + (d - 1 - n mod d))) by lia.
  rewrite Z.quot_opp_l by lia.
  rewrite <- (Z.quot_unique (d * - (n / d) + (d - 1 - n mod d)) d (- (n / d)) (d - 1 - n mod d));
    lia.
Qed.

Lemma quot_floor_pos n d : 0 <= n → 0 < d → n ÷ d = n / d.
Proof. intros. by apply Z.quot_div_nonneg. Qed.

(** The start of the aligned interval of length [d] that holds [t]. *)
Definition aligned_start (d off t : Z) : Z := off + d * ((t - off) / d).

Lemma aligned_start_bounds d off t :
  0 < d → aligned_start d off t <= t < aligned_start d off t + d.
Proof.
  intros Hd. unfold aligned_start. pose proof (Z.div_mod (t - off) d ltac:(lia)).
  pose proof (Z.mod_pos_bound (t - off) d Hd). lia.
Qed.

Lemma aligned_start_unique d off t s :
  0 < d → (d | s - off) → s <= t < s + d → aligned_start d off t = s.
Proof.
  intros Hd [k Hk] Hs. unfold aligned_start.
  rewrite <- (Z.div_unique (t - off) d k (t - s)); lia.
Qed.

(** No intermediate result of [assign] leaves the [i64] range. *)
Definition assign_safe (size slide off t : Z) : Prop :=
  0 < slide <= size ∧ is_i64 off ∧ i64_MIN + slide <= t - off <= i64_MAX ∧
  i64_MIN + size + slide <= t ∧ t + size <= i64_MAX.

Lemma tumbling_assign_aligned a t :
  assign_safe (tw_size_ms a) (tw_size_ms a) (tw_offset_ms a) t →
  TumblingWindowAssigner_assign a t =
    mkWindowId (aligned_start (tw_size_ms a) (tw_offset_ms a) t)
               (aligned_start (tw_size_ms a) (tw_offset_ms a) t + tw_size_ms a).
Proof.
  destruct a as [d off]. simpl. intros (Hd & Hoff & Hadj & Hlo & Hhi).
  pose proof (aligned_start_bounds d off t ltac:(lia)) as Hb. unfold aligned_start in *.
  unfold TumblingWindowAssigner_assign, WindowId_new. cbn [tw_size_ms tw_offset_ms].
  rewrite (i64_sub_exact t off) by (unfold is_i64; lia).
  set (q := (t - off) / d) in *.
  assert (Hbase : (if 0 <=? t - off then i64_mul ((t - off) ÷ d) d
                   else i64_mul (i64_add (i64_sub (t - off) d) 1 ÷ d) d) = d * q).
  { destruct (Z.leb_spec 0 (t - off)).
    - rewrite quot_floor_pos by lia. rewrite i64_mul_exact by (unfold is_i64 in *; fold q; nia).
      fold q. lia.
    - rewrite i64_sub_exact by (unfold is_i64; lia). rewrite i64_add_exact by (unfold is_i64; lia).
      rewrite quot_floor_neg by lia. fold q. rewrite i64_mul_exact by (unfold is_i64 in *; lia). lia. }
  rewrite Hbase. rewrite (i64_add_exact (d * q) off) by (unfold is_i64 in *; lia).
  rewrite i64_add_exact by (unfold is_i64 in *; lia). f_equal; lia.
Qed.

Lemma last_window_start_aligned a t :
  assign_safe (sw_size_ms a) (sw_slide_ms a) (sw_offset_ms a) t →
  SlidingWindowAssigner_last_window_start a t = aligned_start (sw_slide_ms a) (sw_offset_ms a) t.
Proof.
  destruct a as [size d n off]. simpl. intros (Hd & Hoff & Hadj & Hlo & Hhi).
  pose proof (aligned_start_bounds d off t ltac:(lia)) as Hb. unfold aligned_start in *.
  unfold SlidingWindowAssigner_last_window_start. cbn [sw_slide_ms sw_offset_ms].
  rewrite (i64_sub_exact t off) by (unfold is_i64; lia).
  set (q := (t - off) / d) in *.
  assert (Hbase : (if 0 <=? t - off then i64_mul ((t - off) ÷ d) d
                   else i64_mul ((((t - off) ⊟ d) ⊞ 1) ÷ d) d) = d * q).
  { destruct (Z.leb_spec 0 (t - off)).
    - rewrite quot_floor_pos by lia. fold q. rewrite i64_mul_exact by (unfold is_i64 in *; nia). lia.
    - rewrite sat_sub_exact by (unfold is_i64; lia). rewrite sat_add_exact by (unfold is_i64; lia).
      rewrite quot_floor_neg by lia. fold q. rewrite i64_mul_exact by (unfold is_i64 in *; lia). lia. }
  rewrite Hbase. rewrite i64_add_exact by (unfold is_i64 in *; lia). lia.
Qed.

Definition later_start (w w' : WindowId) : Prop := w_start w' < w_start w.

(** The loop, with enough fuel: it collects the windows that start at
    [s], [s - slide], ... and still contain [t]. *)
Lemma sliding_loop_spec a t fuel : ∀ s acc,
  0 < sw_slide_ms a <= sw_size_ms a →
  i64_MIN + sw_size_ms a + sw_slide_ms a <= t → t + sw_size_ms a <= i64_MAX → s <= t →
  t - sw_size_ms a - sw_slide_ms a <= s →
  s + sw_size_ms a - t <= (Z.of_nat fuel - 1) * sw_slide_ms a → (0 < fuel)%nat →
  ∃ ws, sliding_loop fuel a t s acc = Some (acc ++ ws) ∧
    (∀ w, w ∈ ws ↔ ∃ i, 0 <= i ∧ t < s - i * sw_slide_ms a + sw_size_ms a ∧
            w = mkWindowId (s - i * sw_slide_ms a) (s - i * sw_slide_ms a + sw_size_ms a)) ∧
    StronglySorted later_start ws ∧
    s + sw_size_ms a - t <= Z.of_nat (length ws) * sw_slide_ms a ∧
    (ws ≠ [] → Z.of_nat (length ws) * sw_slide_ms a < s + sw_size_ms a - t + sw_slide_ms a).
Proof.
  induction fuel as [|fuel IH]; intros s acc Hd Hlo Hhi Hs Hlow Hfuel Hpos; [lia|].
  simpl. rewrite i64_add_exact by (unfold is_i64; lia).
  destruct (Z.ltb_spec t (s + sw_size_ms a)) as [Hlt|Hge].
  - rewrite sat_sub_exact by (unfold is_i64; lia).
    rewrite (proj2 (Z.eqb_neq (s - sw_slide_ms a) s)) by lia.
    destruct (IH (s - sw_slide_ms a)
        (acc ++ [WindowId_new s (s + sw_size_ms a)])) as (ws & -> & Hin & Hsort & Hl1 & Hl2); try lia.
    exists (WindowId_new s (s + sw_size_ms a) :: ws). split_and!.
    + by rewrite <- app_assoc.
    + intros w. rewrite elem_of_cons, Hin. split.
      * intros [->|(i & Hi & Ht & ->)]; [exists 0|exists (i + 1)]; split_and!;
          unfold WindowId_new; try lia; f_equal; lia.
      * intros (i & Hi & Ht & ->). destruct (Z.eq_dec i 0) as [->|];
          [left; unfold WindowId_new; f_equal; lia|].
        right. exists (i - 1). split_and!; try lia. f_equal; lia.
    + constructor; [done|]. apply Forall_forall. intros w (i & Hi & _ & ->)%Hin.
      unfold later_start. simpl. nia.
    + cbn [length]. lia.
    + intros _. cbn [length]. destruct ws; [simpl in *; lia|].
      specialize (Hl2 ltac:(done)). cbn [length] in *. lia.
  - exists []. rewrite app_nil_r. split_and!; [done| |constructor|simpl; lia|done].
    intros w. split; [by intros ?%not_elem_of_nil|]. intros (i & Hi & Ht & _). nia.
Qed.

(** ** Properties *)

(** The tumbling assigner cuts event time into disjoint intervals of the
    configured size, shifted by the offset, negative timestamps included: the
    window of an event contains it, is aligned, has exactly the configured length,
    and two timestamps share a window exactly when one lies in the other's. *)
Theorem tumbling_partitions_time a t t' :
  assign_safe (tw_size_ms a) (tw_size_ms a) (tw_offset_ms a) t →
  assign_safe (tw_size_ms a) (tw_size_ms a) (tw_offset_ms a) t' →
  let w := TumblingWindowAssigner_assign a t in
  w_start w <= t < w_end w ∧ w_end w - w_start w = tw_size_ms a ∧
  (tw_size_ms a | w_start w - tw_offset_ms a) ∧
  (TumblingWindowAssigner_assign a t' = w ↔ w_start w <= t' < w_end w).
Proof.
  intros Ht Ht' w. unfold w. rewrite !tumbling_assign_aligned by done. simpl.
  set (d := tw_size_ms a). set (off := tw_offset_ms a).
  assert (Hd : 0 < d) by (unfold d; destruct Ht; lia).
  pose proof (aligned_start_bounds d off t Hd). pose proof (aligned_start_bounds d off t' Hd).
  assert (Hdiv : (d | aligned_start d off t - off))
    by (unfold aligned_start; exists ((t - off) / d); lia).
  split_and!; [lia..|done|]. split; [intros [= Heq _]; lia|].
  intros Hin. assert (Heq : aligned_start d off t' = aligned_start d off t)
    by (by apply aligned_start_unique). by rewrite Heq.
Qed.

Lemma tumbling_partitions_time_witness :
  let a := TumblingWindowAssigner_with_offset_ms (mkTumbling 1000 0) 250 in
  TumblingWindowAssigner_assign a (-1) = mkWindowId (-750) 250 ∧
  (TumblingWindowAssigner_assign a 249 = TumblingWindowAssigner_assign a (-1) ↔
     -750 <= 249 < 250).
Proof.
  intros a. split; [reflexivity|].
  refine (proj2 (proj2 (proj2 (tumbling_partitions_time a (-1) 249 _ _))));
    unfold assign_safe, is_i64; simpl; lia.
Defined.

(** The windows of an event. *)
Lemma sliding_assigns_spec size slide off t a0 :
  SlidingWindowAssigner_from_millis size slide = Some a0 → size + slide <= i64_MAX →
  assign_safe size slide off t →
  let a := SlidingWindowAssigner_with_offset_ms a0 off in
  ∃ ws, SlidingWindowAssigner_assign_windows a t = Some ws ∧
    (∀ w, w ∈ ws ↔ (slide | w_start w - off) ∧ w_end w = w_start w + size ∧
                   w_start w <= t < w_end w) ∧
    StronglySorted (λ w w', w_start w < w_start w') ws ∧
    size / slide <= Z.of_nat (length ws) <= sw_windows_per_event a.
Proof.
  intros Ha Hov Hsafe a.
  assert (a = mkSliding size slide (sw_windows_per_event a) off ∧
                sw_windows_per_event a = (size + slide - 1) / slide) as [Hav Hn].
  { unfold a. revert Ha. unfold SlidingWindowAssigner_from_millis.
    destruct Hsafe as (Hd & _). repeat (case_match; [|done]). intros [= <-]. simpl. split; [done|].
    rewrite i64_add_exact, i64_sub_exact by (unfold is_i64; lia).
    rewrite quot_floor_pos by lia.
    rewrite (proj2 (Z.leb_le 0 _)) by (apply Z.div_pos; lia). done. }
  pose proof Hsafe as (Hd & Hoff & _ & Hlo & Hhi).
  assert (Hlast : SlidingWindowAssigner_last_window_start a t = aligned_start slide off t).
  { rewrite Hav. rewrite last_window_start_aligned by done. done. }
  pose proof (aligned_start_bounds slide off t ltac:(lia)) as Hs0.
  set (s0 := aligned_start slide off t) in *.
  assert (sw_size_ms a = size ∧ sw_slide_ms a = slide) as [Hsize Hslide] by (by rewrite Hav).
  pose proof (Z.div_mod size slide ltac:(lia)) as Hdm.
  pose proof (Z.mod_pos_bound size slide ltac:(lia)).
  assert (Hq : 0 < size / slide) by (apply Z.div_str_pos; lia).
  destruct (sliding_loop_spec a t (Z.to_nat (size / slide) + 2) s0 []) as
    (ws & Hloop & Hin & Hsort & Hl1 & Hl2); rewrite ?Hsize, ?Hslide in *; try lia.
  exists (reverse ws). split_and!.
  - unfold SlidingWindowAssigner_assign_windows. rewrite Hlast, Hsize, Hslide, Hloop. done.
  - intros w. rewrite elem_of_reverse, Hin. split.
    + intros (i & Hi & Ht & ->). simpl. split_and!; [|lia|nia|lia].
      exists ((t - off) / slide - i). unfold s0, aligned_start. lia.
    + intros ([k Hk] & He & Hst). destruct w as [ws' we]. simpl in *.
      exists ((t - off) / slide - k). unfold s0, aligned_start in *.
      assert (k <= (t - off) / slide) by (apply Z.div_le_lower_bound; lia).
      split_and!; [lia|lia|]. subst we. f_equal; lia.
  - by apply StronglySorted_reverse in Hsort.
  - rewrite length_reverse. 
    assert (size / slide * slide <= size) by lia. nia.
  - rewrite length_reverse, Hn. apply Z.div_le_lower_bound; [lia|].
    destruct ws; [simpl; lia|]. specialize (Hl2 ltac:(done)). lia.
Qed.

(** The sliding assigner returns, in chronological order, exactly the
    windows of the configured size that start at a multiple of the slide (shifted
    by the offset) and contain the event; the loop terminates, and an event is in
    at least [size / slide] and at most [windows_per_event] windows. *)
Theorem sliding_assigns_all_windows size slide off t a0 :
  SlidingWindowAssigner_from_millis size slide = Some a0 → size + slide <= i64_MAX →
  assign_safe size slide off t →
  let a := SlidingWindowAssigner_with_offset_ms a0 off in
  ∃ ws, SlidingWindowAssigner_assign_windows a t = Some ws ∧
    (∀ w, w ∈ ws ↔ (slide | w_start w - off) ∧ w_end w = w_start w + size ∧
                   w_start w <= t < w_end w) ∧
    StronglySorted (λ w w', w_start w < w_start w') ws ∧
    size / slide <= Z.of_nat (length ws) <= sw_windows_per_event a.
Proof. apply sliding_assigns_spec. Qed.

Lemma sliding_assigns_all_windows_witness :
  let a := SlidingWindowAssigner_with_offset_ms (mkSliding 60 25 3 0) 5 in
  SlidingWindowAssigner_assign_windows a (-1) = Some [mkWindowId (-45) 15; mkWindowId (-20) 40] ∧
  ∃ ws, SlidingWindowAssigner_assign_windows a (-1) = Some ws ∧
    60 / 25 <= Z.of_nat (length ws) <= sw_windows_per_event a.
Proof.
  intros a. split; [reflexivity|].
  destruct (sliding_assigns_all_windows 60 25 5 (-1) (mkSliding 60 25 3 0))
    as (ws & H1 & _ & _ & H2); [reflexivity|lia|unfold assign_safe, is_i64; lia|].
  exists ws. split; [exact H1|exact H2].
Defined.
