(* ===== verification/WindowAgg.v ===== *)
(** * Window aggregation (crates/laminar-core/src/operator/window.rs)

    The [Accumulator] and [Aggregator] traits and the integer implementations:
    COUNT, SUM, MIN, MAX, FIRST_VALUE, LAST_VALUE. [AccumulatorLaws] is what the
    window operators rely on: merging partial aggregates is aggregating the
    concatenated input, and an accumulator is empty exactly before its first
    value. Arrow columns are read through the parameter [int64_column]. *)

From S2P Require Import Prelude WindowCore.

Class Accumulator (A I O : Type) := {
  acc_default : A;
  acc_add : A → I → A;
  acc_merge : A → A → A;
  acc_result : A → O;
  acc_is_empty : A → bool;
}.

(** The accumulator after a sequence of values. *)
Definition acc_of {A I O} `{Accumulator A I O} (xs : list I) : A := foldl acc_add acc_default xs.

Class AccumulatorLaws (A I O : Type) `{Accumulator A I O} : Prop := {
  law_merge (xs ys : list I) : acc_merge (acc_of xs) (acc_of ys) = acc_of (xs ++ ys);
  law_empty (xs : list I) :
    Z.of_nat (length xs) < u64_MOD → acc_is_empty (acc_of xs) = bool_decide (xs = []);
}.

(** ** COUNT *)

Record CountAccumulator := mkCount { ca_count : Z }.
Definition CountAccumulator_add (a : CountAccumulator) (_ : unit) : CountAccumulator :=
  mkCount (u64_add (ca_count a) 1).
Definition CountAccumulator_merge (a b : CountAccumulator) : CountAccumulator :=
  mkCount (u64_add (ca_count a) (ca_count b)).
#[export] Instance CountAccumulator_acc : Accumulator CountAccumulator unit Z := {
  acc_default := mkCount 0;
  acc_add := CountAccumulator_add;
  acc_merge := CountAccumulator_merge;
  acc_result := ca_count;
  acc_is_empty a := ca_count a =? 0;
}.

(** ** SUM *)

Record SumAccumulator := mkSum { su_sum : Z; su_count : Z }.
Definition SumAccumulator_add (a : SumAccumulator) (value : Z) : SumAccumulator :=
  mkSum (i64_add (su_sum a) value) (u64_add (su_count a) 1).
Definition SumAccumulator_merge (a b : SumAccumulator) : SumAccumulator :=
  mkSum (i64_add (su_sum a) (su_sum b)) (u64_add (su_count a) (su_count b)).
#[export] Instance SumAccumulator_acc : Accumulator SumAccumulator Z Z := {
  acc_default := mkSum 0 0;
  acc_add := SumAccumulator_add;
  acc_merge := SumAccumulator_merge;
  acc_result := su_sum;
  acc_is_empty a := su_count a =? 0;
}.

(** ** MIN and MAX *)

Record MinAccumulator := mkMin { mi_min : option Z }.
Definition MinAccumulator_add (a : MinAccumulator) (value : Z) : MinAccumulator :=
  mkMin (Some (match mi_min a with None => value | Some m => Z.min m value end)).
Definition MinAccumulator_merge (a b : MinAccumulator) : MinAccumulator :=
  match mi_min b with Some other_min => MinAccumulator_add a other_min | None => a end.
#[export] Instance MinAccumulator_acc : Accumulator MinAccumulator Z (option Z) := {
  acc_default := mkMin None;
  acc_add := MinAccumulator_add;
  acc_merge := MinAccumulator_merge;
  acc_result := mi_min;
  acc_is_empty a := match mi_min a with None => true | Some _ => false end;
}.

Record MaxAccumulator := mkMax { ma_max : option Z }.
Definition MaxAccumulator_add (a : MaxAccumulator) (value : Z) : MaxAccumulator :=
  mkMax (Some (match ma_max a with None => value | Some m => Z.max m value end)).
Definition MaxAccumulator_merge (a b : MaxAccumulator) : MaxAccumulator :=
  match ma_max b with Some other_max => MaxAccumulator_add a other_max | None => a end.
#[export] Instance MaxAccumulator_acc : Accumulator MaxAccumulator Z (option Z) := {
  acc_default := mkMax None;
  acc_add := MaxAccumulator_add;
  acc_merge := MaxAccumulator_merge;
  acc_result := ma_max;
  acc_is_empty a := match ma_max a with None => true | Some _ => false end;
}.

(** ** FIRST_VALUE and LAST_VALUE: inputs are (value, timestamp) *)

Record FirstValueAccumulator := mkFirst { fv_value : option Z; fv_timestamp : option Z }.
Definition FirstValueAccumulator_add (a : FirstValueAccumulator) (vt : Z * Z)
    : FirstValueAccumulator :=
  match fv_timestamp a with
  | None => mkFirst (Some vt.1) (Some vt.2)
  | Some existing_ts => if vt.2 <? existing_ts then mkFirst (Some vt.1) (Some vt.2) else a
  end.
Definition FirstValueAccumulator_merge (a b : FirstValueAccumulator) : FirstValueAccumulator :=
  match fv_timestamp a, fv_timestamp b with
  | None, Some _ => mkFirst (fv_value b) (fv_timestamp b)
  | Some self_ts, Some other_ts =>
      if other_ts <? self_ts then mkFirst (fv_value b) (fv_timestamp b) else a
  | _, None => a
  end.
#[export] Instance FirstValueAccumulator_acc
    : Accumulator FirstValueAccumulator (Z * Z) (option Z) := {
  acc_default := mkFirst None None;
  acc_add := FirstValueAccumulator_add;
  acc_merge := FirstValueAccumulator_merge;
  acc_result := fv_value;
  acc_is_empty a := match fv_value a with None => true | Some _ => false end;
}.

Record LastValueAccumulator := mkLast { lv_value : option Z; lv_timestamp : option Z }.
Definition LastValueAccumulator_add (a : LastValueAccumulator) (vt : Z * Z) : LastValueAccumulator :=
  match lv_timestamp a with
  | None => mkLast (Some vt.1) (Some vt.2)
  | Some existing_ts =>
      if existing_ts <? vt.2 then mkLast (Some vt.1) (Some vt.2)
      else if vt.2 =? existing_ts then mkLast (Some vt.1) (lv_timestamp a)
      else a
  end.
Definition LastValueAccumulator_merge (a b : LastValueAccumulator) : LastValueAccumulator :=
  match lv_timestamp a, lv_timestamp b with
  | None, Some _ => mkLast (lv_value b) (lv_timestamp b)
  | Some self_ts, Some other_ts =>
      if self_ts <? other_ts then mkLast (lv_value b) (lv_timestamp b)
      else if other_ts =? self_ts then mkLast (lv_value b) (lv_timestamp a)
      else a
  | _, None => a
  end.
#[export] Instance LastValueAccumulator_acc : Accumulator LastValueAccumulator (Z * Z) (option Z) := {
  acc_default := mkLast None None;
  acc_add := LastValueAccumulator_add;
  acc_merge := LastValueAccumulator_merge;
  acc_result := lv_value;
  acc_is_empty a := match lv_value a with None => true | Some _ => false end;
}.

(** ** Aggregators: which values an event contributes *)

Class Aggregator (G B A I : Type) := {
  create_accumulator : G → A;
  extract : G → Event B → option I;
  extract_batch : G → Event B → list I;
}.

(** The default method of the trait. *)
Definition default_extract_batch {B I} (extract : Event B → option I) (e : Event B) : list I :=
  match extract e with Some v => [v] | None => [] end.

Section Aggregators.
(** [int64_column b i]: the values (with nulls) of column [i] of the Arrow batch
    when the batch has that column and it is an [Int64] array. *)
Context {B : Type} (int64_column : B → nat → option (list (option Z))).

(** [array.iter().flatten()] *)
Definition flatten (vs : list (option Z)) : list Z := omap id vs.

Inductive CountAggregator := mkCountAgg.
Record SumAggregator := mkSumAgg { sg_column_index : nat }.
Record MinAggregator := mkMinAgg { mg_column_index : nat }.
Record MaxAggregator := mkMaxAgg { xg_column_index : nat }.
Record FirstValueAggregator := mkFirstAgg { fg_value_column : nat; fg_timestamp_column : nat }.
Record LastValueAggregator := mkLastAgg { lg_value_column : nat; lg_timestamp_column : nat }.

Definition SumAggregator_extract (g : SumAggregator) (e : Event B) : option Z :=
  vs ← int64_column (ev_data e) (sg_column_index g);
  Some (foldl i64_add 0 (flatten vs)).
Definition MinAggregator_extract (g : MinAggregator) (e : Event B) : option Z :=
  vs ← int64_column (ev_data e) (mg_column_index g); list_min (flatten vs).
Definition MaxAggregator_extract (g : MaxAggregator) (e : Event B) : option Z :=
  vs ← int64_column (ev_data e) (xg_column_index g); list_max (flatten vs).
Definition FirstValueAggregator_extract (g : FirstValueAggregator) (e : Event B) : option (Z * Z) :=
  vs ← int64_column (ev_data e) (fg_value_column g);
  value ← head (flatten vs);
  ts ← int64_column (ev_data e) (fg_timestamp_column g);
  timestamp ← head (flatten ts);
  Some (value, timestamp).
Definition LastValueAggregator_extract (g : LastValueAggregator) (e : Event B) : option (Z * Z) :=
  vs ← int64_column (ev_data e) (lg_value_column g);
  value ← head (flatten vs);
  ts ← int64_column (ev_data e) (lg_timestamp_column g);
  timestamp ← head (flatten ts);
  Some (value, timestamp).

#[local] Instance Count_aggregator : Aggregator CountAggregator B CountAccumulator unit := {
  create_accumulator _ := mkCount 0;
  extract _ _ := Some tt;
  extract_batch _ := default_extract_batch (λ _, Some tt);
}.
#[local] Instance Sum_aggregator : Aggregator SumAggregator B SumAccumulator Z := {
  create_accumulator _ := mkSum 0 0;
  extract := SumAggregator_extract;
  extract_batch g := default_extract_batch (SumAggregator_extract g);
}.
#[local] Instance Min_aggregator : Aggregator MinAggregator B MinAccumulator Z := {
  create_accumulator _ := mkMin None;
  extract := MinAggregator_extract;
  extract_batch g := default_extract_batch (MinAggregator_extract g);
}.
#[local] Instance Max_aggregator : Aggregator MaxAggregator B MaxAccumulator Z := {
  create_accumulator _ := mkMax None;
  extract := MaxAggregator_extract;
  extract_batch g := default_extract_batch (MaxAggregator_extract g);
}.
#[local] Instance First_aggregator
    : Aggregator FirstValueAggregator B FirstValueAccumulator (Z * Z) := {
  create_accumulator _ := mkFirst None None;
  extract := FirstValueAggregator_extract;
  extract_batch g := default_extract_batch (FirstValueAggregator_extract g);
}.
#[local] Instance Last_aggregator
    : Aggregator LastValueAggregator B LastValueAccumulator (Z * Z) := {
  create_accumulator _ := mkLast None None;
  extract := LastValueAggregator_extract;
  extract_batch g := default_extract_batch (LastValueAggregator_extract g);
}.
End Aggregators.

(** ** The laws of the accumulators *)

Lemma acc_of_snoc {A I O} `{Accumulator A I O} (xs : list I) x :
  acc_of (xs ++ [x]) = acc_add (acc_of (A:=A) xs) x.
Proof. unfold acc_of. by rewrite foldl_app. Qed.

Lemma count_of xs : acc_of (A:=CountAccumulator) xs = mkCount (wrap_u64 (Z.of_nat (length xs))).
Proof.
  induction xs as [|x xs IH] using rev_ind; [done|]. rewrite acc_of_snoc, IH. simpl.
  unfold CountAccumulator_add, u64_add, wrap_u64. simpl. f_equal.
  rewrite Z.add_mod_idemp_l, length_app by done. f_equal. simpl. lia.
Qed.

Definition sum_list (xs : list Z) : Z := foldr Z.add 0 xs.

Lemma sum_list_app xs ys : sum_list (xs ++ ys) = sum_list xs + sum_list ys.
Proof. unfold sum_list. induction xs; simpl; lia. Qed.

Lemma sum_of xs :
  acc_of (A:=SumAccumulator) xs =
    mkSum (wrap_i64 (sum_list xs)) (wrap_u64 (Z.of_nat (length xs))).
Proof.
  induction xs as [|x xs IH] using rev_ind; [done|]. rewrite acc_of_snoc, IH. simpl.
  unfold SumAccumulator_add, u64_add, i64_add. simpl. f_equal.
  - rewrite wrap_i64_add_l, sum_list_app. simpl. f_equal. lia.
  - unfold wrap_u64. rewrite Z.add_mod_idemp_l, length_app by done. f_equal. simpl. lia.
Qed.

Lemma min_of xs : acc_of (A:=MinAccumulator) xs = mkMin (list_min xs).
Proof.
  induction xs as [|x xs IH] using rev_ind; [done|]. rewrite acc_of_snoc, IH, list_min_snoc. done.
Qed.
Lemma max_of xs : acc_of (A:=MaxAccumulator) xs = mkMax (list_max xs).
Proof.
  induction xs as [|x xs IH] using rev_ind; [done|]. rewrite acc_of_snoc, IH, list_max_snoc. done.
Qed.

(** The reference: the earliest (latest) timestamp, ties resolved by arrival. *)
Definition pick_first (p : option (Z * Z)) (x : Z * Z) : option (Z * Z) :=
  match p with None => Some x | Some y => if x.2 <? y.2 then Some x else Some y end.
Definition pick_last (p : option (Z * Z)) (x : Z * Z) : option (Z * Z) :=
  match p with None => Some x | Some y => if y.2 <=? x.2 then Some x else Some y end.
Definition first_by_ts (xs : list (Z * Z)) : option (Z * Z) := foldl pick_first None xs.
Definition last_by_ts (xs : list (Z * Z)) : option (Z * Z) := foldl pick_last None xs.

Lemma first_of xs :
  acc_of (A:=FirstValueAccumulator) xs = mkFirst (fst <$> first_by_ts xs) (snd <$> first_by_ts xs).
Proof.
  induction xs as [|[v t] xs IH] using rev_ind; [done|]. rewrite acc_of_snoc, IH.
  unfold first_by_ts. rewrite foldl_app. simpl.
  destruct (foldl pick_first None xs) as [[v' t']|]; simpl; [|done].
  unfold FirstValueAccumulator_add. simpl. by destruct (t <? t').
Qed.
Lemma last_of xs :
  acc_of (A:=LastValueAccumulator) xs = mkLast (fst <$> last_by_ts xs) (snd <$> last_by_ts xs).
Proof.
  induction xs as [|[v t] xs IH] using rev_ind; [done|]. rewrite acc_of_snoc, IH.
  unfold last_by_ts. rewrite foldl_app. simpl.
  destruct (foldl pick_last None xs) as [[v' t']|]; simpl; [|done].
  unfold LastValueAccumulator_add. simpl. zcase; try done; try lia. by subst.
Qed.

Lemma pick_first_app ys : ∀ p,
  foldl pick_first p ys = match first_by_ts ys with None => p | Some y => pick_first p y end.
Proof.
  induction ys as [|y ys IH] using rev_ind; intros p; [done|].
  unfold first_by_ts. rewrite !foldl_app. simpl. rewrite IH. fold (first_by_ts ys).
  destruct (first_by_ts ys) as [y'|]; simpl; [|done].
  destruct p as [x|]; simpl; [|by zcase]. repeat (zcase; simpl); try done; lia.
Qed.
Lemma pick_last_app ys : ∀ p,
  foldl pick_last p ys = match last_by_ts ys with None => p | Some y => pick_last p y end.
Proof.
  induction ys as [|y ys IH] using rev_ind; intros p; [done|].
  unfold last_by_ts. rewrite !foldl_app. simpl. rewrite IH. fold (last_by_ts ys).
  destruct (last_by_ts ys) as [y'|]; simpl; [|done].
  destruct p as [x|]; simpl; [|by zcase]. repeat (zcase; simpl); try done; lia.
Qed.

Lemma count_empty {A} (xs : list A) :
  Z.of_nat (length xs) < u64_MOD →
  (wrap_u64 (Z.of_nat (length xs)) =? 0) = bool_decide (xs = []).
Proof.
  intros Hl. rewrite wrap_u64_small by int_lia.
  case_bool_decide as E; [by subst|]. apply Z.eqb_neq. destruct xs; [done|]. simpl. lia.
Qed.

Lemma first_by_ts_None xs : first_by_ts xs = None ↔ xs = [].
Proof.
  destruct xs as [|x xs] using rev_ind; [done|].
  unfold first_by_ts. rewrite foldl_app. simpl. split.
  - destruct (foldl pick_first None xs); simpl; [by case_match|done].
  - by intros [_ ?]%app_nil.
Qed.
Lemma last_by_ts_None xs : last_by_ts xs = None ↔ xs = [].
Proof.
  destruct xs as [|x xs] using rev_ind; [done|].
  unfold last_by_ts. rewrite foldl_app. simpl. split.
  - destruct (foldl pick_last None xs); simpl; [by case_match|done].
  - by intros [_ ?]%app_nil.
Qed.

#[export] Instance CountAccumulator_laws : AccumulatorLaws CountAccumulator unit Z.
Proof.
  split; intros xs; [intros ys|intros Hl]; rewrite !count_of; simpl.
  - unfold CountAccumulator_merge. simpl. f_equal. unfold u64_add, wrap_u64.
    by rewrite <- Z.add_mod, length_app, Nat2Z.inj_add.
  - by apply count_empty.
Qed.
#[export] Instance SumAccumulator_laws : AccumulatorLaws SumAccumulator Z Z.
Proof.
  split; intros xs; [intros ys|intros Hl]; rewrite !sum_of; simpl.
  - unfold SumAccumulator_merge. simpl. f_equal.
    + unfold i64_add. by rewrite wrap_i64_add_l, wrap_i64_add_r, sum_list_app.
    + unfold u64_add, wrap_u64. by rewrite <- Z.add_mod, length_app, Nat2Z.inj_add.
  - by apply count_empty.
Qed.
#[export] Instance MinAccumulator_laws : AccumulatorLaws MinAccumulator Z (option Z).
Proof.
  split; intros xs; [intros ys|intros _]; rewrite !min_of; simpl.
  - rewrite list_min_app. unfold MinAccumulator_merge. simpl. by destruct (list_min ys).
  - destruct (list_min xs) eqn:E; symmetry; [apply bool_decide_eq_false_2|apply bool_decide_eq_true_2].
    + by intros ->.
    + by apply list_min_None.
Qed.
#[export] Instance MaxAccumulator_laws : AccumulatorLaws MaxAccumulator Z (option Z).
Proof.
  split; intros xs; [intros ys|intros _]; rewrite !max_of; simpl.
  - rewrite list_max_app. unfold MaxAccumulator_merge. simpl. by destruct (list_max ys).
  - destruct (list_max xs) eqn:E; symmetry; [apply bool_decide_eq_false_2|apply bool_decide_eq_true_2].
    + by intros ->.
    + by apply list_max_None.
Qed.
#[export] Instance FirstValueAccumulator_laws
  : AccumulatorLaws FirstValueAccumulator (Z * Z) (option Z).
Proof.
  split; intros xs; [intros ys|intros _]; rewrite !first_of; simpl.
  - assert (Hl : first_by_ts (xs ++ ys) = match first_by_ts ys with
                   | None => first_by_ts xs | Some y => pick_first (first_by_ts xs) y end).
    { unfold first_by_ts at 1. rewrite foldl_app. apply pick_first_app. }
    rewrite Hl. unfold FirstValueAccumulator_merge.
    destruct (first_by_ts ys) as [[v t]|], (first_by_ts xs) as [[v' t']|]; simpl; try done.
    by destruct (t <? t').
  - destruct (first_by_ts xs) eqn:E; simpl; symmetry;
      [apply bool_decide_eq_false_2|apply bool_decide_eq_true_2].
    + by intros ->.
    + by apply first_by_ts_None.
Qed.
#[export] Instance LastValueAccumulator_laws
  : AccumulatorLaws LastValueAccumulator (Z * Z) (option Z).
Proof.
  split; intros xs; [intros ys|intros _]; rewrite !last_of; simpl.
  - assert (Hl : last_by_ts (xs ++ ys) = match last_by_ts ys with
                   | None => last_by_ts xs | Some y => pick_last (last_by_ts xs) y end).
    { unfold last_by_ts at 1. rewrite foldl_app. apply pick_last_app. }
    rewrite Hl. unfold LastValueAccumulator_merge.
    destruct (last_by_ts ys) as [[v t]|], (last_by_ts xs) as [[v' t']|]; simpl; try done.
    zcase; try done; try lia. by subst.
  - destruct (last_by_ts xs) eqn:E; simpl; symmetry;
      [apply bool_decide_eq_false_2|apply bool_decide_eq_true_2].
    + by intros ->.
    + by apply last_by_ts_None.
Qed.

Lemma first_by_ts_spec xs v t :
  first_by_ts xs = Some (v, t) →
  ∃ i, xs !! i = Some (v, t) ∧ ∀ j y, xs !! j = Some y → t <= y.2 ∧ ((j < i)%nat → t < y.2).
Proof.
  revert v t. induction xs as [|x xs IH] using rev_ind; intros v t; [done|].
  unfold first_by_ts. rewrite foldl_app. simpl. fold (first_by_ts xs).
  destruct (first_by_ts xs) as [[v' t']|] eqn:E; simpl.
  - destruct (IH v' t' eq_refl) as (i & Hi & Hmin). destruct (Z.ltb_spec x.2 t') as [Hlt|Hge].
    + intros [= ->]. exists (length xs). split; [by rewrite lookup_app_r, Nat.sub_diag|].
      intros j y [Hj|[Hl Hj]]%lookup_app_Some.
      * destruct (Hmin _ _ Hj). simpl in *. split; lia.
      * apply list_lookup_singleton_Some in Hj as [Hj <-]. simpl. split; lia.
    + intros [= <- <-]. exists i. split; [by apply lookup_app_l_Some|].
      intros j y [Hj|[Hl Hj]]%lookup_app_Some; [by apply Hmin in Hj|].
      apply list_lookup_singleton_Some in Hj as [_ <-]. apply lookup_lt_Some in Hi. split; lia.
  - apply first_by_ts_None in E as ->. intros [= ->]. exists 0%nat. split; [done|].
    intros j y Hj. apply list_lookup_singleton_Some in Hj as [-> <-]. simpl. split; lia.
Qed.

Lemma last_by_ts_spec xs v t :
  last_by_ts xs = Some (v, t) →
  ∃ i, xs !! i = Some (v, t) ∧ ∀ j y, xs !! j = Some y → y.2 <= t ∧ ((i < j)%nat → y.2 < t).
Proof.
  revert v t. induction xs as [|x xs IH] using rev_ind; intros v t; [done|].
  unfold last_by_ts. rewrite foldl_app. simpl. fold (last_by_ts xs).
  destruct (last_by_ts xs) as [[v' t']|] eqn:E; simpl.
  - destruct (IH v' t' eq_refl) as (i & Hi & Hmax). destruct (Z.leb_spec t' x.2) as [Hle|Hgt].
    + intros [= ->]. exists (length xs). split; [by rewrite lookup_app_r, Nat.sub_diag|].
      intros j y [Hj|[Hl Hj]]%lookup_app_Some.
      * pose proof (lookup_lt_Some _ _ _ Hj). destruct (Hmax _ _ Hj). simpl in *. split; lia.
      * apply list_lookup_singleton_Some in Hj as [Hj <-]. simpl. split; lia.
    + intros [= <- <-]. exists i. split; [by apply lookup_app_l_Some|].
      intros j y [Hj|[Hl Hj]]%lookup_app_Some; [by apply Hmax in Hj|].
      apply list_lookup_singleton_Some in Hj as [_ <-]. split; lia.
  - apply last_by_ts_None in E as ->. intros [= ->]. exists 0%nat. split; [done|].
    intros j y Hj. apply list_lookup_singleton_Some in Hj as [-> <-]. simpl. split; lia.
Qed.

(** ** Properties *)

(** [C36]: aggregating in parts gives the result over the whole input: for every
    split of the values, merging the two partial accumulators returns COUNT = the
    number of values (modulo 2^64), SUM = their sum (modulo 2^64, signed), MIN and
    MAX the extrema, FIRST_VALUE the value with the earliest timestamp (the first
    arrival among equals) and LAST_VALUE the one with the latest timestamp (the
    last arrival among equals); an aggregate over no value is [None]. *)
Theorem merged_aggregates_correct (us vs : list unit) (xs ys : list Z) (ps qs : list (Z * Z)) :
  acc_result (acc_merge (acc_of (A:=CountAccumulator) us) (acc_of vs)) =
    wrap_u64 (Z.of_nat (length (us ++ vs))) ∧
  acc_result (acc_merge (acc_of (A:=SumAccumulator) xs) (acc_of ys)) = wrap_i64 (sum_list (xs ++ ys)) ∧
  acc_result (acc_merge (acc_of (A:=MinAccumulator) xs) (acc_of ys)) = list_min (xs ++ ys) ∧
  acc_result (acc_merge (acc_of (A:=MaxAccumulator) xs) (acc_of ys)) = list_max (xs ++ ys) ∧
  match acc_result (acc_merge (acc_of (A:=FirstValueAccumulator) ps) (acc_of qs)) with
  | None => ps ++ qs = []
  | Some v => ∃ i t, (ps ++ qs) !! i = Some (v, t) ∧
      ∀ j y, (ps ++ qs) !! j = Some y → t <= y.2 ∧ ((j < i)%nat → t < y.2)
  end ∧
  match acc_result (acc_merge (acc_of (A:=LastValueAccumulator) ps) (acc_of qs)) with
  | None => ps ++ qs = []
  | Some v => ∃ i t, (ps ++ qs) !! i = Some (v, t) ∧
      ∀ j y, (ps ++ qs) !! j = Some y → y.2 <= t ∧ ((i < j)%nat → y.2 < t)
  end.
Proof.
  rewrite !law_merge, count_of, sum_of, min_of, max_of, first_of, last_of. simpl.
  split_and!; [done..| |].
  - destruct (first_by_ts (ps ++ qs)) as [[v t]|] eqn:E; simpl; [|by apply first_by_ts_None].
    apply first_by_ts_spec in E as (i & Hi). by exists i, t.
  - destruct (last_by_ts (ps ++ qs)) as [[v t]|] eqn:E; simpl; [|by apply last_by_ts_None].
    apply last_by_ts_spec in E as (i & Hi). by exists i, t.
Qed.
