(* ===== verification/TumblingOp.v ===== *)
(** * The tumbling window operator (crates/laminar-core/src/operator/window.rs,
    operator/mod.rs, and the timer loop of dag/executor.rs)

    [TumblingWindowOperator] with its [Operator] methods [process], [on_timer],
    [checkpoint] and [restore], and the loop that fires the timers of one node
    ([DagExecutor::fire_timers] for a node whose outputs are collected).

    The operator is generic in the aggregator, the state store and the watermark
    generator, as in the code; the theorems use their laws. Outside the model:
    [RecordBatch::try_new] is the parameter [make_batch] ([None] is its error),
    rkyv the class [Archive]. [process] and [on_timer] thread the operator and
    its [OperatorContext] explicitly. *)

From S2P Require Import Prelude TimeCore WatermarkGen StateStore WindowCore WindowAgg.

(** ** The operator interface (operator/mod.rs) *)

Record OperatorState := mkOperatorState {
  os_operator_id : string;
  os_version : Z;
  os_data : list Z;
}.

Inductive OperatorError :=
| StateAccessFailed (e : string)
| SerializationFailed (e : string)
| ProcessingFailed (e : string)
| ConfigError (e : string).

(** checkpoint/barrier.rs *)
Record CheckpointBarrier := mkBarrier { cb_checkpoint_id : Z; cb_epoch : Z; cb_flags : Z }.

Inductive Output (B : Type) :=
| OutEvent (e : Event B)
| OutWatermark (ts : Z)
| OutLateEvent (e : Event B)
| OutSideOutput (name : string) (e : Event B)
| OutChangelog (r : ChangelogRecord B)
| OutCheckpointComplete (checkpoint_id : Z) (operator_states : list OperatorState)
| OutBarrier (b : CheckpointBarrier).
Arguments OutEvent {B}. Arguments OutWatermark {B}. Arguments OutLateEvent {B}.
Arguments OutSideOutput {B}. Arguments OutChangelog {B}. Arguments OutCheckpointComplete {B}.
Arguments OutBarrier {B}.

Record Timer := mkFired { tm_key : list Z; tm_timestamp : Z }.

Record OperatorContext {S Gen : Type} := mkCtx {
  cx_event_time : Z;
  cx_processing_time : Z;
  cx_timers : TimerService;
  cx_state : S;
  cx_watermark_generator : Gen;
  cx_operator_index : Z;
}.
Arguments OperatorContext : clear implicits.
Arguments mkCtx {S Gen}.

(** [Display] of [StateError]. *)
Definition StateError_to_string (e : StateError) : string :=
  match e with
  | StIo s => ("I/O error: " ++ s)%string
  | StSerialization s => ("Serialization error: " ++ s)%string
  | StDeserialization s => ("Deserialization error: " ++ s)%string
  | StCorruption s => ("Corruption error: " ++ s)%string
  end.

(** The outputs that are result rows. *)
Definition is_row {B} (o : Output B) : bool :=
  match o with OutEvent _ | OutChangelog _ => true | _ => false end.
Definition rows {B} (out : list (Output B)) : list (Output B) := filter (λ o, is_row o = true) out.

(** [b"win:"] *)
Definition WINDOW_STATE_PREFIX : list Z := [119; 105; 110; 58].
Definition state_key (w : WindowId) : list Z := WINDOW_STATE_PREFIX ++ WindowId_to_key_inline w.

(** ** Timer keys: the high bit of the first byte marks periodic timers *)

Definition periodic_timer_key (w : WindowId) : list Z :=
  match WindowId_to_key w with
  | [] => []
  | b :: rest => Z.lor b 128 :: rest
  end.
Definition is_periodic_timer_key (key : list Z) : bool :=
  match key with [] => false | b :: _ => negb (Z.land b 128 =? 0) end.
Definition window_id_from_periodic_key (key : list Z) : option WindowId :=
  if negb (length key =? 16)%nat then None
  else match key with
       | [] => None
       | b :: rest => WindowId_from_key (Z.land b 127 :: rest)
       end.

Section Operator.
Context {Agg B A I O S Gen : Type}.
Context `{!Accumulator A I O} `{!Aggregator Agg B A I}.
Context `{!StateStore S} `{!Archive A} `{!WatermarkGenerator Gen}.
Context `{!Archive (list WindowId)} `{!Archive (list WindowId * list WindowId)}.
(** [RecordBatch::try_new(output_schema, [start, end, result])] *)
Context (make_batch : WindowId → O → option B).

Record TumblingWindowOperator := mkTumblingOp {
  op_assigner : TumblingWindowAssigner;
  op_aggregator : Agg;
  op_allowed_lateness_ms : Z;
  op_registered_windows : gset WindowId;
  op_periodic_timer_windows : gset WindowId;
  op_emit_strategy : EmitStrategy;
  op_late_data_config : LateDataConfig;
  op_late_data_metrics : LateDataMetrics;
  op_window_close_metrics : WindowCloseMetrics;
  op_operator_id : string;
  op_last_emitted : gmap WindowId (Event B);
  op_side_output_arc : option string;
}.
Local Abbreviation Op := TumblingWindowOperator (only parsing).
Local Abbreviation Ctx := (OperatorContext S Gen) (only parsing).

(** [None]: the allowed lateness does not fit in [i64]. *)
Definition TumblingWindowOperator_with_id (assigner : TumblingWindowAssigner) (aggregator : Agg)
    (allowed_lateness : Duration) (operator_id : string) : option Op :=
  if as_millis allowed_lateness <=? i64_MAX then
    Some (mkTumblingOp assigner aggregator (as_millis allowed_lateness) ∅ ∅ OnWatermark
            LateDataConfig_drop LateDataMetrics_new WindowCloseMetrics_new operator_id ∅ None)
  else None.

Definition set_emit_strategy (op : Op) (strategy : EmitStrategy) : Op :=
  mkTumblingOp (op_assigner op) (op_aggregator op) (op_allowed_lateness_ms op)
    (op_registered_windows op) (op_periodic_timer_windows op) strategy (op_late_data_config op)
    (op_late_data_metrics op) (op_window_close_metrics op) (op_operator_id op)
    (op_last_emitted op) (op_side_output_arc op).
Definition set_late_data_config (op : Op) (config : LateDataConfig) : Op :=
  mkTumblingOp (op_assigner op) (op_aggregator op) (op_allowed_lateness_ms op)
    (op_registered_windows op) (op_periodic_timer_windows op) (op_emit_strategy op) config
    (op_late_data_metrics op) (op_window_close_metrics op) (op_operator_id op)
    (op_last_emitted op) (op_side_output_arc op).

(** Field updates. *)
Definition op_set_windows (r p : gset WindowId) (op : Op) : Op :=
  mkTumblingOp (op_assigner op) (op_aggregator op) (op_allowed_lateness_ms op) r p
    (op_emit_strategy op) (op_late_data_config op) (op_late_data_metrics op)
    (op_window_close_metrics op) (op_operator_id op) (op_last_emitted op) (op_side_output_arc op).
Definition op_set_late (m : LateDataMetrics) (arc : option string) (op : Op) : Op :=
  mkTumblingOp (op_assigner op) (op_aggregator op) (op_allowed_lateness_ms op)
    (op_registered_windows op) (op_periodic_timer_windows op) (op_emit_strategy op)
    (op_late_data_config op) m (op_window_close_metrics op) (op_operator_id op)
    (op_last_emitted op) arc.
Definition op_set_close (m : WindowCloseMetrics) (op : Op) : Op :=
  mkTumblingOp (op_assigner op) (op_aggregator op) (op_allowed_lateness_ms op)
    (op_registered_windows op) (op_periodic_timer_windows op) (op_emit_strategy op)
    (op_late_data_config op) (op_late_data_metrics op) m (op_operator_id op)
    (op_last_emitted op) (op_side_output_arc op).
Definition reset_late_data_metrics (op : Op) : Op :=
  op_set_late (LateDataMetrics_reset (op_late_data_metrics op)) (op_side_output_arc op) op.
Definition reset_window_close_metrics (op : Op) : Op :=
  op_set_close (WindowCloseMetrics_reset (op_window_close_metrics op)) op.
Definition active_windows_count (op : Op) : nat := size (op_registered_windows op).
Definition op_set_last (l : gmap WindowId (Event B)) (op : Op) : Op :=
  mkTumblingOp (op_assigner op) (op_aggregator op) (op_allowed_lateness_ms op)
    (op_registered_windows op) (op_periodic_timer_windows op) (op_emit_strategy op)
    (op_late_data_config op) (op_late_data_metrics op) (op_window_close_metrics op)
    (op_operator_id op) l (op_side_output_arc op).
Definition cx_set_timers (t : TimerService) (c : Ctx) : Ctx :=
  mkCtx (cx_event_time c) (cx_processing_time c) t (cx_state c) (cx_watermark_generator c)
    (cx_operator_index c).
Definition cx_set_state (s : S) (c : Ctx) : Ctx :=
  mkCtx (cx_event_time c) (cx_processing_time c) (cx_timers c) s (cx_watermark_generator c)
    (cx_operator_index c).
Definition cx_set_gen (g : Gen) (c : Ctx) : Ctx :=
  mkCtx (cx_event_time c) (cx_processing_time c) (cx_timers c) (cx_state c) g (cx_operator_index c).

(** ** Accumulator state *)

Definition get_accumulator (op : Op) (w : WindowId) (state : S) : A :=
  match get_typed (T:=A) state (state_key w) with
  | inl (Some acc) => acc
  | _ => create_accumulator (op_aggregator op)
  end.

Definition put_accumulator (w : WindowId) (acc : A) (state : S) : S * (unit + OperatorError) :=
  let '(state', r) := put_typed state (state_key w) acc in
  (state', match r with
           | inl _ => inl tt
           | inr e => inr (StateAccessFailed (StateError_to_string e))
           end).

Definition delete_accumulator (w : WindowId) (state : S) : S * (unit + OperatorError) :=
  let '(state', r) := ss_delete state (state_key w) in
  (state', match r with
           | inl _ => inl tt
           | inr e => inr (StateAccessFailed (StateError_to_string e))
           end).

Definition is_late (op : Op) (event_time watermark : Z) : bool :=
  let window_id := TumblingWindowAssigner_assign (op_assigner op) event_time in
  let cleanup_time := i64_add (w_end window_id) (op_allowed_lateness_ms op) in
  cleanup_time <=? watermark.

Definition maybe_register_timer (op : Op) (w : WindowId) (ctx : Ctx) : Op * Ctx :=
  if bool_decide (w ∈ op_registered_windows op) then (op, ctx)
  else
    let trigger_time := i64_add (w_end w) (op_allowed_lateness_ms op) in
    let '(timers', _) := TimerService_register_timer (cx_timers ctx) trigger_time
                           (Some (WindowId_to_key w)) (Some (cx_operator_index ctx)) in
    (op_set_windows ({[w]} ∪ op_registered_windows op) (op_periodic_timer_windows op) op,
     cx_set_timers timers' ctx).

(** The interval fits in [i64] milliseconds (the code panics otherwise). *)
Definition maybe_register_periodic_timer (op : Op) (w : WindowId) (ctx : Ctx) : Op * Ctx :=
  match op_emit_strategy op with
  | PeriodicEmit interval =>
      if bool_decide (w ∈ op_periodic_timer_windows op) then (op, ctx)
      else
        let trigger_time := i64_add (cx_processing_time ctx) (as_millis interval) in
        let '(timers', _) := TimerService_register_timer (cx_timers ctx) trigger_time
                               (Some (periodic_timer_key w)) (Some (cx_operator_index ctx)) in
        (op_set_windows (op_registered_windows op) ({[w]} ∪ op_periodic_timer_windows op) op,
         cx_set_timers timers' ctx)
  | _ => (op, ctx)
  end.

(** The result event of a window. *)
Definition result_event (w : WindowId) (acc : A) : option (Event B) :=
  mkEvent (w_end w) <$> make_batch w (acc_result acc).

Definition create_intermediate_result (op : Op) (w : WindowId) (state : S) : option (Event B) :=
  let acc := get_accumulator op w state in
  if acc_is_empty acc then None else result_event w acc.

Definition handle_periodic_timer (op : Op) (w : WindowId) (ctx : Ctx)
    : Op * Ctx * list (Output B) :=
  if bool_decide (w ∉ op_registered_windows op) then
    (op_set_windows (op_registered_windows op) (op_periodic_timer_windows op ∖ {[w]}) op, ctx, [])
  else
    let output := match create_intermediate_result op w (cx_state ctx) with
                  | Some event => [OutEvent event]
                  | None => []
                  end in
    let ctx' :=
      match op_emit_strategy op with
      | PeriodicEmit interval =>
          let next_trigger := i64_add (cx_processing_time ctx) (as_millis interval) in
          let window_close_time := i64_add (w_end w) (op_allowed_lateness_ms op) in
          if next_trigger <? window_close_time then
            cx_set_timers (TimerService_register_timer (cx_timers ctx) next_trigger
              (Some (periodic_timer_key w)) (Some (cx_operator_index ctx))).1 ctx
          else ctx
      | _ => ctx
      end in
    (op, ctx', output).

(** ** [process] *)

(** An event beyond the allowed lateness. *)
Definition process_late (op : Op) (event : Event B) : Op * list (Output B) :=
  if EmitStrategy_drops_late_data (op_emit_strategy op) then
    (op_set_late (LateDataMetrics_record_dropped (op_late_data_metrics op))
       (op_side_output_arc op) op, [])
  else
    match ld_side_output (op_late_data_config op) with
    | Some side_output_name =>
        let name := default side_output_name (op_side_output_arc op) in
        (op_set_late (LateDataMetrics_record_side_output (op_late_data_metrics op)) (Some name) op,
         [OutSideOutput name event])
    | None =>
        (op_set_late (LateDataMetrics_record_dropped (op_late_data_metrics op))
           (op_side_output_arc op) op, [OutLateEvent event])
    end.

(** Fold the event's values into the window's accumulator; the flag says
    whether state was updated. *)
Definition update_window (op : Op) (w : WindowId) (event : Event B) (ctx : Ctx) : Ctx * bool :=
  match extract_batch (op_aggregator op) event with
  | [] => (ctx, false)
  | values =>
      let acc := foldl acc_add (get_accumulator op w (cx_state ctx)) values in
      let '(state', r) := put_accumulator w acc (cx_state ctx) in
      (cx_set_state state' ctx, match r with inl _ => true | inr _ => false end)
  end.

(** The emissions of [process] after a state update. *)
Definition emit_update (op : Op) (w : WindowId) (ctx : Ctx) : Op * list (Output B) :=
  match op_emit_strategy op with
  | OnUpdate =>
      (op, match create_intermediate_result op w (cx_state ctx) with
           | Some event => [OutEvent event]
           | None => []
           end)
  | Changelog =>
      match create_intermediate_result op w (cx_state ctx) with
      | Some new_event =>
          (op_set_last (<[w := new_event]> (op_last_emitted op)) op,
           match op_last_emitted op !! w with
           | Some old_event => [OutChangelog (ChangelogRecord_delete old_event (cx_processing_time ctx))]
           | None => []
           end ++ [OutChangelog (ChangelogRecord_insert new_event (cx_processing_time ctx))])
      | None => (op, [])
      end
  | _ => (op, [])
  end.

Definition process (clk : Clock) (op : Op) (event : Event B) (ctx : Ctx)
    : Op * Ctx * list (Output B) :=
  let event_time := ev_timestamp event in
  let '(gen', emitted_watermark) := on_event clk (cx_watermark_generator ctx) event_time in
  let ctx := cx_set_gen gen' ctx in
  let current_wm := current_watermark gen' in
  if (i64_MIN <? current_wm) && is_late op event_time current_wm then
    let '(op', output) := process_late op event in (op', ctx, output)
  else
    let window_id := TumblingWindowAssigner_assign (op_assigner op) event_time in
    let '(ctx, state_updated) := update_window op window_id event ctx in
    let '(op, ctx) := maybe_register_timer op window_id ctx in
    let '(op, ctx) :=
      if negb (EmitStrategy_suppresses_intermediate (op_emit_strategy op))
      then maybe_register_periodic_timer op window_id ctx else (op, ctx) in
    let output := match emitted_watermark with Some wm => [OutWatermark (wm_ts wm)] | None => [] end in
    let '(op, emitted) := if state_updated then emit_update op window_id ctx else (op, []) in
    (op, ctx, output ++ emitted).

(** ** [on_timer] *)

(** Remove a window from the operator's maps. *)
Definition forget_window (w : WindowId) (op : Op) : Op :=
  op_set_last (delete w (op_last_emitted op))
    (op_set_windows (op_registered_windows op ∖ {[w]}) (op_periodic_timer_windows op ∖ {[w]}) op).

(** The final timer of a window. *)
Definition close_window (op : Op) (w : WindowId) (ctx : Ctx) : Op * Ctx * list (Output B) :=
  let acc := get_accumulator op w (cx_state ctx) in
  let ctx' := cx_set_state (delete_accumulator w (cx_state ctx)).1 ctx in
  let op' := forget_window w op in
  if acc_is_empty acc then (op', ctx', [])
  else
    match result_event w acc with
    | Some event =>
        (op_set_close (WindowCloseMetrics_record_close (op_window_close_metrics op') (w_end w)
                         (cx_processing_time ctx)) op', ctx',
         match op_emit_strategy op with
         | Changelog => [OutChangelog (ChangelogRecord_insert event (cx_processing_time ctx))]
         | _ => [OutEvent event]
         end)
    | None => (op', ctx', [])
    end.

Definition on_timer (op : Op) (timer : Timer) (ctx : Ctx) : Op * Ctx * list (Output B) :=
  if is_periodic_timer_key (tm_key timer) then
    if EmitStrategy_suppresses_intermediate (op_emit_strategy op) then
      (match window_id_from_periodic_key (tm_key timer) with
       | Some w => op_set_windows (op_registered_windows op) (op_periodic_timer_windows op ∖ {[w]}) op
       | None => op
       end, ctx, [])
    else
      match window_id_from_periodic_key (tm_key timer) with
      | Some w => handle_periodic_timer op w ctx
      | None => (op, ctx, [])
      end
  else
    match WindowId_from_key (tm_key timer) with
    | None => (op, ctx, [])
    | Some w => close_window op w ctx
    end.

(** ** [checkpoint] and [restore]; [witer] is the iteration order of a hash set *)

Definition checkpoint (witer : gset WindowId → list WindowId) (op : Op) : OperatorState :=
  mkOperatorState (op_operator_id op) 1
    (match to_bytes (witer (op_registered_windows op), witer (op_periodic_timer_windows op)) with
     | inl v => v
     | inr _ => []
     end).

Definition restore (op : Op) (state : OperatorState) : Op * (unit + OperatorError) :=
  if bool_decide (os_operator_id state ≠ op_operator_id op) then
    (op, inr (StateAccessFailed ("Operator ID mismatch: expected " ++ op_operator_id op ++
                                 ", got " ++ os_operator_id state)%string))
  else
    match from_bytes (T:=list WindowId * list WindowId) (os_data state) with
    | inl (windows, periodic_windows) =>
        (op_set_windows (list_to_set windows) (list_to_set periodic_windows) op, inl tt)
    | inr _ =>
        match from_bytes (T:=list WindowId) (os_data state) with
        | inl windows => (op_set_windows (list_to_set windows) ∅ op, inl tt)
        | inr e => (op, inr (SerializationFailed e))
        end
    end.

(** ** One node of the executor *)

(** The [for reg in fired] loop of [DagExecutor::fire_timers]. *)
Fixpoint fire_loop (op : Op) (ctx : Ctx) (current_time : Z) (fired : list TimerRegistration)
    : Op * Ctx * list (Output B) :=
  match fired with
  | [] => (op, ctx, [])
  | reg :: rest =>
      let timer := mkFired (default [] (t_key reg)) (t_timestamp reg) in
      let ctx1 := mkCtx (t_timestamp reg) current_time (cx_timers ctx) (cx_state ctx)
                    (cx_watermark_generator ctx) (cx_operator_index ctx) in
      let '(op1, ctx2, out1) := on_timer op timer ctx1 in
      let '(op2, ctx3, out2) := fire_loop op1 ctx2 current_time rest in
      (op2, ctx3, out1 ++ out2)
  end.

(** [fire_timers] for one node. *)
Definition fire_timers (op : Op) (ctx : Ctx) (current_time : Z)
    : option (Op * Ctx * list (Output B)) :=
  '(timers', fired) ← TimerService_poll_timers (cx_timers ctx) current_time;
  Some (fire_loop op (cx_set_timers timers' ctx) current_time fired).

(** [process_watermark] for one node: advance its generator, then fire. *)
Definition node_watermark (clk : Clock) (op : Op) (ctx : Ctx) (watermark : Z)
    : option (Op * Ctx * list (Output B)) :=
  fire_timers op
    (cx_set_gen (advance_watermark clk (cx_watermark_generator ctx) watermark).1 ctx) watermark.
End Operator.

(** ** What the operator's clients rely on *)

(** A fresh accumulator of the aggregator is the empty one. *)
Class AggregatorLaws (Agg B A I O : Type) `{!Accumulator A I O} `{!Aggregator Agg B A I} : Prop := {
  law_create (g : Agg) : create_accumulator (B:=B) (I:=I) g = acc_default (A:=A);
}.

(** Timer keys of windows that start at or after the epoch are not periodic. *)
Lemma land_128 b : is_u8 b → negb (Z.land b 128 =? 0) = (128 <=? b).
Proof.
  intros Hb. unfold is_u8 in Hb.
  assert (Hx : Z.land b 128 = if 128 <=? b then 128 else 0).
  { change 128 with (2 ^ 7). apply Z.bits_inj'. intros n Hn.
    rewrite Z.land_spec, Z.pow2_bits_eqb by lia.
    assert (Hhigh : Z.testbit b 7 = (2 ^ 7 <=? b)).
    { destruct (Z.leb_spec (2 ^ 7) b).
      - rewrite Z.testbit_true by lia.
        rewrite <- (Z.div_unique b (2 ^ 7) 1 (b - 2 ^ 7)); [done|lia|lia].
      - apply Z.bits_above_log2; [lia|]. destruct (Z.eq_dec b 0) as [->|]; [simpl; lia|].
        apply Z.log2_lt_pow2; lia. }
    destruct (Z.eqb_spec 7 n) as [<-|Hne].
    - rewrite andb_true_r, Hhigh. destruct (2 ^ 7 <=? b); reflexivity.
    - rewrite andb_false_r. destruct (2 ^ 7 <=? b); [|by rewrite Z.bits_0].
      rewrite Z.pow2_bits_eqb by lia. symmetry. apply Z.eqb_neq. lia. }
  rewrite Hx. by destruct (128 <=? b).
Qed.

Lemma final_key_not_periodic w :
  window_ok w → 0 <= w_start w → is_periodic_timer_key (WindowId_to_key w) = false.
Proof.
  intros Hw Hs. destruct (key_first_byte w Hw) as (b & rest & -> & Hb & Hsign). simpl.
  rewrite land_128 by done. apply Z.leb_gt. lia.
Qed.

Lemma negative_key_periodic w :
  window_ok w → w_start w < 0 → is_periodic_timer_key (WindowId_to_key w) = true.
Proof.
  intros Hw Hs. destruct (key_first_byte w Hw) as (b & rest & -> & Hb & Hsign). simpl.
  rewrite land_128 by done. apply Z.leb_le. lia.
Qed.

(** Clearing the sign bit of a negative start adds 2^63 to it. *)
Lemma negative_key_decode w :
  window_ok w → w_start w < 0 →
  window_id_from_periodic_key (WindowId_to_key w) =
    Some (mkWindowId (w_start w + 9223372036854775808) (w_end w)).
Proof.
  intros [[Hs1 Hs2] He] Hneg. unfold window_id_from_periodic_key. unfold WindowId_to_key at 1.
  rewrite key_inline_length. cbn [negb Nat.eqb].
  set (b := (w_start w / 256 ^ Z.of_nat 7) mod 256).
  change (WindowId_to_key w) with (b :: to_be 7 (w_start w) ++ to_be 8 (w_end w)).
  cbv beta iota. unfold WindowId_from_key.
  assert (Hlen : length (Z.land b 127 :: to_be 7 (w_start w) ++ to_be 8 (w_end w)) = 16%nat)
    by (cbn [length]; by rewrite length_app, !to_be_length).
  rewrite Hlen. cbn [negb Nat.eqb].
  assert (Ht8 : take 8 (Z.land b 127 :: to_be 7 (w_start w) ++ to_be 8 (w_end w)) =
                Z.land b 127 :: to_be 7 (w_start w)) by reflexivity.
  assert (Hd8 : take 8 (drop 8 (Z.land b 127 :: to_be 7 (w_start w) ++ to_be 8 (w_end w))) =
                i64_to_be_bytes (w_end w)) by reflexivity.
  rewrite Ht8, Hd8, i64_be_roundtrip by done. f_equal. f_equal.
  unfold i64_from_be_bytes. rewrite from_be_cons, from_to_be, to_be_length.
  destruct (key_first_byte w) as (b' & rest' & Hk & Hb & Hsign); [by split|].
  change (WindowId_to_key w) with (b :: to_be 7 (w_start w) ++ to_be 8 (w_end w)) in Hk.
  injection Hk as <- _. unfold is_u8 in Hb.
  change 127 with (Z.ones 7). rewrite Z.land_ones by lia.
  replace (b mod 2 ^ 7) with (b - 128)
    by (replace b with ((b - 128) + 1 * 2 ^ 7) at 2 by lia; rewrite Z.mod_add by lia;
        symmetry; apply Z.mod_small; lia).
  assert (Hfull : b * 256 ^ Z.of_nat 7 + w_start w mod 256 ^ Z.of_nat 7 = w_start w + u64_MOD).
  { transitivity (from_be (to_be 8 (w_start w))).
    - change (to_be 8 (w_start w)) with (b :: to_be 7 (w_start w)).
      by rewrite from_be_cons, from_to_be, to_be_length.
    - rewrite from_to_be. change (256 ^ Z.of_nat 8) with u64_MOD.
      replace (w_start w) with ((w_start w + u64_MOD) + (-1) * u64_MOD) at 1 by lia.
      rewrite Z.mod_add by lia. apply Z.mod_small. lia. }
  rewrite wrap_i64_small; [|unfold is_i64]; lia.
Qed.

Lemma state_key_inj w w' : window_ok w → window_ok w' → state_key w = state_key w' → w = w'.
Proof. intros Hw Hw' H. apply app_inv_head in H. by apply to_key_inj. Qed.

#[local] Arguments WindowId_to_key : simpl never.
#[local] Arguments WindowId_from_key : simpl never.

Section Spec.
Context {Agg B A I O S Gen : Type}.
Context `{!Accumulator A I O} `{!Aggregator Agg B A I} `{!AggregatorLaws Agg B A I O}.
Context `{!StateStore S} {sok : S → Prop} {sabs : S → gmap (list Z) (list Z)}.
Context `{!StateStoreLaws S sok sabs} `{!Archive A} `{!ArchiveLaws A}.
Context `{!WatermarkGenerator Gen}.
Context `{!Archive (list WindowId)} `{!Archive (list WindowId * list WindowId)}.
Context (make_batch : WindowId → O → option B).
Local Abbreviation Op := (TumblingWindowOperator (Agg:=Agg) (B:=B)) (only parsing).
Local Abbreviation Ctx := (OperatorContext S Gen) (only parsing).

(** ** The abstract operator

    The open windows and, for each, the values accepted so far in order. *)
Abbreviation open_windows := (gmap WindowId (list I)) (only parsing).

(** When a window is closed: its end plus the allowed lateness. *)
Definition cleanup_time (op : Op) (w : WindowId) : Z := w_end w + op_allowed_lateness_ms op.

(** An event is late when its window was due at the watermark [wm]. *)
Definition late (op : Op) (e : Event B) (wm : Z) : bool :=
  cleanup_time op (TumblingWindowAssigner_assign (op_assigner op) (ev_timestamp e)) <=? wm.

Definition spec_process (op : Op) (m : open_windows) (e : Event B) (wm : Z) : open_windows :=
  if late op e wm then m
  else
    let w := TumblingWindowAssigner_assign (op_assigner op) (ev_timestamp e) in
    <[w := default [] (m !! w) ++ extract_batch (op_aggregator op) e]> m.

(** What closing a window with the values [xs] emits. *)
Definition final_output (strategy : EmitStrategy) (pt : Z) (w : WindowId) (xs : list I)
    : list (Output B) :=
  let acc : A := acc_of xs in
  if acc_is_empty acc then []
  else match result_event make_batch w acc with
       | Some event =>
           match strategy with
           | Changelog => [OutChangelog (ChangelogRecord_insert event pt)]
           | _ => [OutEvent event]
           end
       | None => []
       end.

(** What a late event becomes: nothing, an entry of the side output, or a late
    event. *)
Definition side_name (op : Op) : option string :=
  (λ n, default n (op_side_output_arc op)) <$> ld_side_output (op_late_data_config op).
Definition late_output (op : Op) (e : Event B) : list (Output B) :=
  if EmitStrategy_drops_late_data (op_emit_strategy op) then []
  else match side_name op with
       | Some name => [OutSideOutput name e]
       | None => [OutLateEvent e]
       end.

(** What accepting the values [vs] shows at once, when they bring the window to
    the values [xs] and [last] are the rows shown for the open windows: a row per
    update with [OnUpdate], the replacement of the row shown before with
    [Changelog], nothing with the other strategies. *)
Definition update_rows (strategy : EmitStrategy) (pt : Z) (w : WindowId) (vs xs : list I)
    (last : gmap WindowId (Event B)) : list (Output B) * gmap WindowId (Event B) :=
  let row := if bool_decide (vs = []) || acc_is_empty (acc_of xs : A) then None
             else result_event make_batch w (acc_of xs : A) in
  match strategy, row with
  | OnUpdate, Some row => ([OutEvent row], last)
  | Changelog, Some row =>
      (match last !! w with
       | Some old => [OutChangelog (ChangelogRecord_delete old pt)]
       | None => []
       end ++ [OutChangelog (ChangelogRecord_insert row pt)], <[w := row]> last)
  | _, _ => ([], last)
  end.

(** Windows the operator can close: representable, not before the epoch, and
    with a representable cleanup time. *)
Definition closable (op : Op) (w : WindowId) : Prop :=
  window_ok w ∧ 0 <= w_start w ∧ 0 <= w_end w + op_allowed_lateness_ms op <= i64_MAX.

Definition conf_of (op : Op) :=
  (op_assigner op, op_aggregator op, op_allowed_lateness_ms op, op_emit_strategy op).

(** The operator holds the abstract windows [m]. *)
Definition repr (op : Op) (s : S) (m : open_windows) : Prop :=
  sok s ∧ op_registered_windows op = dom m ∧
  (∀ w, window_ok w → get_accumulator op w s = acc_of (default [] (m !! w))) ∧
  (∀ w, w ∈ dom m → closable op w).

(** Exactly one final timer is pending per open window. *)
Definition timers_ok (op : Op) (m : open_windows) (ts : list TimerRegistration) : Prop :=
  map (λ t, (t_key t, t_timestamp t)) ts ≡ₚ
  map (λ w, (Some (WindowId_to_key w), w_end w + op_allowed_lateness_ms op)) (elements (dom m)).

Definition not_periodic (op : Op) : Prop := ∀ d, op_emit_strategy op ≠ PeriodicEmit d.

(** ** Typed state *)

Lemma get_accumulator_abs op w s :
  sok s →
  get_accumulator op w s =
    match sabs s !! state_key w with
    | Some b => match from_bytes b with inl acc => acc | inr _ => acc_default end
    | None => acc_default
    end.
Proof.
  intros Hs. unfold get_accumulator, get_typed.
  rewrite (law_get s _ Hs), law_create.
  destruct (law_get_ref s (state_key w) Hs) as [-> | ->];
    destruct (sabs s !! state_key w) as [b|]; try done; by destruct (from_bytes b).
Qed.

Lemma put_accumulator_spec op w acc s :
  sok s → window_ok w →
  ∃ s', put_accumulator w acc s = (s', inl tt) ∧ sok s' ∧
    ∀ w', window_ok w' →
      get_accumulator op w' s' = if decide (w' = w) then acc else get_accumulator op w' s.
Proof.
  intros Hs Hw. unfold put_accumulator, put_typed.
  destruct (archive_roundtrip acc) as (b & Hb & Hrt). rewrite Hb.
  destruct (law_put s (state_key w) b Hs) as (Hr & Hok & Habs).
  destruct (ss_put s (state_key w) b) as [s' r]; simpl in *. subst r.
  exists s'. split_and!; [done..|]. intros w' Hw'.
  rewrite !get_accumulator_abs, Habs by done. case_decide as Hww.
  - subst. by rewrite lookup_insert_eq, Hrt.
  - rewrite lookup_insert_ne; [done|]. intros Hk. by apply Hww, state_key_inj.
Qed.

Lemma delete_accumulator_spec op w s :
  sok s → window_ok w →
  sok (delete_accumulator w s).1 ∧
  ∀ w', window_ok w' →
    get_accumulator op w' (delete_accumulator w s).1 =
      if decide (w' = w) then acc_default else get_accumulator op w' s.
Proof.
  intros Hs Hw. unfold delete_accumulator.
  destruct (law_delete s (state_key w) Hs) as (Hr & Hok & Habs).
  destruct (ss_delete s (state_key w)) as [s' r]; simpl in *.
  split; [done|]. intros w' Hw'. rewrite !get_accumulator_abs, Habs by done. case_decide as Hww.
  - subst. by rewrite lookup_delete_eq.
  - rewrite lookup_delete_ne; [done|]. intros Hk. by apply Hww, state_key_inj.
Qed.

Lemma get_accumulator_conf op op' w s :
  op_aggregator op' = op_aggregator op → get_accumulator op' w s = get_accumulator op w s.
Proof. intros H. unfold get_accumulator. by rewrite H. Qed.

Lemma closable_conf op op' w : conf_of op' = conf_of op → closable op' w → closable op w.
Proof. unfold conf_of, closable. intros [= _ _ -> _]. done. Qed.

(** [repr] looks at the configuration, the registered windows and the state. *)
Lemma repr_frame op op' s m :
  conf_of op' = conf_of op → op_registered_windows op' = op_registered_windows op →
  repr op s m → repr op' s m.
Proof.
  intros Hc Hr (Hs & Hd & Hg & Hcl). assert (Ha : op_aggregator op' = op_aggregator op)
    by (unfold conf_of in Hc; congruence).
  split_and!; [done|congruence| |].
  - intros w Hw. rewrite (get_accumulator_conf op) by done. auto.
  - intros w Hw. eapply closable_conf; [symmetry; exact Hc|auto].
Qed.

(** ** Processing an event *)

Lemma update_window_spec op w e (ctx : Ctx) m :
  repr op (cx_state ctx) m → closable op w →
  let xs := default [] (m !! w) ++ extract_batch (op_aggregator op) e in
  let r := update_window op w e ctx in
  sok (cx_state r.1) ∧
  (∀ w', window_ok w' →
     get_accumulator op w' (cx_state r.1) = acc_of (default [] (<[w := xs]> m !! w'))) ∧
  cx_timers r.1 = cx_timers ctx ∧ cx_watermark_generator r.1 = cx_watermark_generator ctx ∧
  cx_processing_time r.1 = cx_processing_time ctx ∧
  cx_operator_index r.1 = cx_operator_index ctx ∧
  r.2 = negb (bool_decide (extract_batch (op_aggregator op) e = [])).
Proof.
  intros (Hs & Hd & Hg & Hcl) (Hw & _) xs r. unfold r, update_window, xs. clear r xs.
  assert (Hins : ∀ (vs : list I) (w' : WindowId),
            default ([] : list I) (<[w := default [] (m !! w) ++ vs]> m !! w') =
            if decide (w' = w) then default [] (m !! w) ++ vs else default [] (m !! w')).
  { intros vs w'. rewrite lookup_insert. destruct (decide (w = w')), (decide (w' = w)); by subst. }
  destruct (extract_batch (A:=A) (I:=I) (op_aggregator op) e) as [|v vs] eqn:E.
  { simpl. split_and!; try done. intros w' Hw'. rewrite Hins, app_nil_r, Hg by done.
    case_decide; by subst. }
  destruct (put_accumulator_spec op w
              (foldl acc_add (get_accumulator op w (cx_state ctx)) (v :: vs)) (cx_state ctx) Hs Hw)
    as (s' & -> & Hok & Hget). simpl. split_and!; try done.
  intros w' Hw'. rewrite Hget, Hins by done. case_decide; [|by apply Hg].
  rewrite Hg by done. unfold acc_of. by rewrite foldl_app.
Qed.

Lemma timers_ok_insert_old op m w xs ts :
  w ∈ dom m → timers_ok op m ts → timers_ok op (<[w := xs]> m) ts.
Proof.
  intros Hw. unfold timers_ok. rewrite dom_insert_L.
  by replace ({[w]} ∪ dom m) with (dom m) by set_solver.
Qed.

Lemma timers_ok_insert_new op m w xs ts t :
  w ∉ dom m → t_key t = Some (WindowId_to_key w) →
  t_timestamp t = w_end w + op_allowed_lateness_ms op →
  timers_ok op m ts → timers_ok op (<[w := xs]> m) (t :: ts).
Proof.
  intros Hw Hk Ht Hok. unfold timers_ok. rewrite dom_insert_L, elements_union_singleton by done.
  simpl. rewrite Hk, Ht. by constructor.
Qed.

Lemma register_spec op w (ctx : Ctx) (m m' : open_windows) :
  op_registered_windows op = dom m → closable op w → (∃ xs, m' = <[w := xs]> m) →
  timers_ok op m (timers (cx_timers ctx)) →
  let r := maybe_register_timer op w ctx in
  op_registered_windows r.1 = dom m' ∧ conf_of r.1 = conf_of op ∧
  timers_ok op m' (timers (cx_timers r.2)) ∧ cx_state r.2 = cx_state ctx ∧
  cx_watermark_generator r.2 = cx_watermark_generator ctx ∧
  cx_processing_time r.2 = cx_processing_time ctx ∧
  op_last_emitted r.1 = op_last_emitted op ∧ side_name r.1 = side_name op.
Proof.
  intros Hd (_ & _ & Hend) [xs ->] Ht r. unfold r, maybe_register_timer. rewrite Hd.
  case_bool_decide as Hw; simpl.
  - split_and!; try done; [rewrite Hd, dom_insert_L; set_solver|].
    by apply timers_ok_insert_old.
  - split_and!; try done; [by rewrite dom_insert_L|].
    apply timers_ok_insert_new; try done. simpl. apply i64_add_exact. int_lia.
Qed.

(** The emissions of [process] touch neither the configuration nor the windows. *)
Lemma emit_update_frame (upd : bool) op w (ctx : Ctx) :
  let r := if upd then emit_update make_batch op w ctx else (op, []) in
  conf_of r.1 = conf_of op ∧ op_registered_windows r.1 = op_registered_windows op ∧
  side_name r.1 = side_name op.
Proof. unfold emit_update. by repeat case_match. Qed.

Lemma emit_update_rows op w (ctx : Ctx) (vs xs : list I) :
  get_accumulator op w (cx_state ctx) = acc_of xs →
  let r := if negb (bool_decide (vs = [])) then emit_update make_batch op w ctx else (op, []) in
  (r.2, op_last_emitted r.1) =
    update_rows (op_emit_strategy op) (cx_processing_time ctx) w vs xs (op_last_emitted op).
Proof.
  intros Hg. unfold emit_update, update_rows, create_intermediate_result. rewrite Hg.
  case_bool_decide; [by destruct (op_emit_strategy op)|]. cbn [negb orb].
  destruct (acc_is_empty _); [by destruct (op_emit_strategy op)|].
  by destruct (result_event make_batch w _), (op_emit_strategy op).
Qed.

(** The lateness test of [process]. *)
Lemma late_test op e wm :
  closable op (TumblingWindowAssigner_assign (op_assigner op) (ev_timestamp e)) →
  (i64_MIN <? wm) && is_late op (ev_timestamp e) wm = late op e wm.
Proof.
  intros (_ & _ & Hc). unfold is_late, late, cleanup_time. rewrite i64_add_exact by int_lia.
  destruct (Z.leb_spec (w_end (TumblingWindowAssigner_assign (op_assigner op) (ev_timestamp e)) +
    op_allowed_lateness_ms op) wm); [|apply andb_false_r].
  apply andb_true_intro. split; [|done]. apply Z.ltb_lt. lia.
Qed.

Lemma process_late_output op e :
  let r := process_late op e in
  r.2 = late_output op e ∧ conf_of r.1 = conf_of op ∧ side_name r.1 = side_name op ∧
  op_registered_windows r.1 = op_registered_windows op ∧ op_last_emitted r.1 = op_last_emitted op.
Proof.
  unfold process_late, late_output, side_name.
  destruct (EmitStrategy_drops_late_data (op_emit_strategy op)); [done|].
  destruct (ld_side_output (op_late_data_config op)) as [n|] eqn:E; cbn; by rewrite E.
Qed.

(** The outputs of [process] and the rows shown afterwards. *)
Definition event_output (op : Op) (m : open_windows) (last : gmap WindowId (Event B)) (pt : Z)
    (e : Event B) (wm : Z) (emitted : option Watermark)
    : list (Output B) * gmap WindowId (Event B) :=
  if late op e wm then (late_output op e, last)
  else
    let w := TumblingWindowAssigner_assign (op_assigner op) (ev_timestamp e) in
    let vs := extract_batch (op_aggregator op) e in
    let r := update_rows (op_emit_strategy op) pt w vs (default [] (m !! w) ++ vs) last in
    (match emitted with Some wm => [OutWatermark (wm_ts wm)] | None => [] end ++ r.1, r.2).

(** Without periodic emission no periodic timer is registered. *)
Lemma no_periodic_registration op w (ctx : Ctx) :
  not_periodic op →
  (if negb (EmitStrategy_suppresses_intermediate (op_emit_strategy op))
   then maybe_register_periodic_timer op w ctx else (op, ctx)) = (op, ctx).
Proof.
  intros Hnp. unfold maybe_register_periodic_timer.
  destruct (op_emit_strategy op) eqn:Es; try done. by destruct (Hnp interval).
Qed.

Lemma process_refines clk op e (ctx : Ctx) m :
  repr op (cx_state ctx) m → timers_ok op m (timers (cx_timers ctx)) → not_periodic op →
  closable op (TumblingWindowAssigner_assign (op_assigner op) (ev_timestamp e)) →
  let '(op', ctx', out) := process make_batch clk op e ctx in
  let '(gen', em) := on_event clk (cx_watermark_generator ctx) (ev_timestamp e) in
  let m' := spec_process op m e (current_watermark gen') in
  repr op' (cx_state ctx') m' ∧ timers_ok op' m' (timers (cx_timers ctx')) ∧
  conf_of op' = conf_of op ∧ side_name op' = side_name op ∧ cx_watermark_generator ctx' = gen' ∧
  (out, op_last_emitted op') =
    event_output op m (op_last_emitted op) (cx_processing_time ctx) e (current_watermark gen') em.
Proof.
  intros Hr Ht Hnp Hcl. unfold process.
  destruct (on_event clk (cx_watermark_generator ctx) (ev_timestamp e)) as [gen' em].
  rewrite late_test by done. unfold spec_process, event_output.
  destruct (late op e (current_watermark gen')).
  { pose proof (process_late_output op e) as (Ho & Hc & Hsd & Hrg & Hl).
    destruct (process_late op e) as [op1 out1]. cbn [fst snd] in *.
    split_and!; try done; [by eapply repr_frame| |congruence].
    unfold timers_ok in *. by replace (op_allowed_lateness_ms op1) with (op_allowed_lateness_ms op)
      by (unfold conf_of in Hc; congruence). }
  set (w := TumblingWindowAssigner_assign (op_assigner op) (ev_timestamp e)) in *.
  set (ctx0 := cx_set_gen gen' ctx).
  destruct (update_window_spec op w e ctx0 m Hr Hcl) as (Hok & Hget & Htm & Hgen & Hpt & _ & Hupd).
  set (xs := default [] (m !! w) ++ extract_batch (op_aggregator op) e) in *.
  destruct (update_window op w e ctx0) as [ctx1 upd]; cbn [fst snd] in *.
  pose proof Hr as (_ & Hd & _ & Hall).
  destruct (register_spec op w ctx1 m (<[w := xs]> m) Hd Hcl)
    as (Hreg & Hconf & Ht' & Hst & Hg' & Hpt2 & Hl2 & Hsd2);
    [by exists xs|by rewrite Htm|].
  destruct (maybe_register_timer op w ctx1) as [op2 ctx2]; cbn [fst snd] in *.
  assert (Hnp2 : not_periodic op2)
    by (unfold not_periodic; replace (op_emit_strategy op2) with (op_emit_strategy op)
          by (unfold conf_of in Hconf; congruence); done).
  rewrite (no_periodic_registration op2 w ctx2 Hnp2).
  assert (Hr2 : repr op2 (cx_state ctx2) (<[w := xs]> m)).
  { assert (Ha : op_aggregator op2 = op_aggregator op) by (unfold conf_of in Hconf; congruence).
    rewrite Hst. split_and!; [done|done| |].
    - intros w' Hw'. rewrite (get_accumulator_conf op) by done. by apply Hget.
    - intros w' Hw'. apply (closable_conf op2 op2); [done|].
      assert (Hcl' : closable op w').
      { rewrite dom_insert_L in Hw'. apply elem_of_union in Hw' as [->%elem_of_singleton|Hw']; auto. }
      unfold closable in *. unfold conf_of in Hconf. by replace (op_allowed_lateness_ms op2)
        with (op_allowed_lateness_ms op) by congruence. }
  pose proof (emit_update_frame upd op2 w ctx2) as (Hc3 & Hr3 & Hsd3).
  assert (Hacc : get_accumulator op2 w (cx_state ctx2) = acc_of xs).
  { destruct Hr2 as (_ & _ & Hg2 & _). rewrite Hg2 by apply Hcl. by rewrite lookup_insert_eq. }
  pose proof (emit_update_rows op2 w ctx2 (extract_batch (op_aggregator op) e) xs Hacc) as Hrows.
  rewrite <- Hupd, Hl2, Hpt2, Hpt in Hrows.
  replace (op_emit_strategy op2) with (op_emit_strategy op) in Hrows
    by (unfold conf_of in Hconf; congruence).
  change (cx_processing_time ctx0) with (cx_processing_time ctx) in Hrows.
  destruct (if upd then emit_update make_batch op2 w ctx2 else (op2, [])) as [op3 out].
  cbn [fst snd] in Hc3, Hr3, Hsd3, Hrows. rewrite <- Hrows. cbn [fst snd]. split_and!.
  - eapply repr_frame; [exact Hc3|exact Hr3|exact Hr2].
  - unfold timers_ok in *. assert (op_allowed_lateness_ms op3 = op_allowed_lateness_ms op) as ->
      by (unfold conf_of in *; congruence). done.
  - congruence.
  - congruence.
  - rewrite Hg', Hgen. done.
  - done.
Qed.

(** ** Closing windows *)

Lemma close_refines op w (ctx : Ctx) m :
  repr op (cx_state ctx) m → w ∈ dom m →
  let '(op', ctx', out) := close_window make_batch op w ctx in
  repr op' (cx_state ctx') (delete w m) ∧ conf_of op' = conf_of op ∧
  cx_timers ctx' = cx_timers ctx ∧ cx_watermark_generator ctx' = cx_watermark_generator ctx ∧
  cx_processing_time ctx' = cx_processing_time ctx ∧
  op_last_emitted op' = delete w (op_last_emitted op) ∧ side_name op' = side_name op ∧
  out = final_output (op_emit_strategy op) (cx_processing_time ctx) w (default [] (m !! w)).
Proof.
  intros Hr Hw. pose proof Hr as (Hs & Hd & Hg & Hcl). destruct (Hcl w Hw) as (Hwok & _).
  unfold close_window, final_output. rewrite (Hg w Hwok).
  set (s' := (delete_accumulator w (cx_state ctx)).1).
  destruct (delete_accumulator_spec op w (cx_state ctx) Hs Hwok) as [Hs' Hget]. fold s' in Hs', Hget.
  assert (Hrep : ∀ op', conf_of op' = conf_of op →
            op_registered_windows op' = op_registered_windows op ∖ {[w]} → repr op' s' (delete w m)).
  { intros op' Hc Hreg.
    assert (Ha : op_aggregator op' = op_aggregator op) by (unfold conf_of in Hc; congruence).
    split_and!; [done|by rewrite Hreg, Hd, dom_delete_L| |].
    - intros w' Hw'. rewrite (get_accumulator_conf op) by done. rewrite Hget by done.
      case_decide as Hww; [subst; by rewrite lookup_delete_eq|].
      rewrite lookup_delete_ne by done. by apply Hg.
    - intros w' Hw'. rewrite dom_delete_L in Hw'.
      eapply closable_conf; [symmetry; exact Hc|apply Hcl; set_solver]. }
  destruct (acc_is_empty _); [by split_and!; try apply Hrep|].
  destruct (result_event make_batch w _) as [ev|]; [|by split_and!; try apply Hrep].
  split_and!; try done; by apply Hrep.
Qed.

Lemma final_timer_key op w :
  closable op w →
  is_periodic_timer_key (WindowId_to_key w) = false ∧
  WindowId_from_key (WindowId_to_key w) = Some w.
Proof. intros (Hw & Hs & _). split; [by apply final_key_not_periodic|by apply from_to_key]. Qed.

Lemma timers_ok_delete op (m : open_windows) w t ts :
  w ∈ dom m → (∀ w', w' ∈ dom m → window_ok w') → t_key t = Some (WindowId_to_key w) →
  timers_ok op m (t :: ts) →
  t_timestamp t = w_end w + op_allowed_lateness_ms op ∧ timers_ok op (delete w m) ts.
Proof.
  intros Hw Hok Hk Ht. unfold timers_ok in *. simpl in Ht.
  assert (Hts : t_timestamp t = w_end w + op_allowed_lateness_ms op).
  { assert (Hin : (t_key t, t_timestamp t) ∈
      map (λ w, (Some (WindowId_to_key w), w_end w + op_allowed_lateness_ms op)) (elements (dom m))).
    { rewrite <- Ht. by left. }
    apply list_elem_of_fmap in Hin as (w' & Heq & Hw'%elem_of_elements).
    pose proof (f_equal fst Heq) as Hkey. pose proof (f_equal snd Heq) as Htime.
    cbn [fst snd] in Hkey, Htime. rewrite Hk in Hkey. apply (inj Some) in Hkey.
    by apply to_key_inj in Hkey as ->; [|auto..]. }
  split; [done|].
  assert (Hdom : elements (dom m) ≡ₚ w :: elements (dom (delete w m))).
  { rewrite dom_delete_L. rewrite <- elements_union_singleton by set_solver.
    by replace ({[w]} ∪ dom m ∖ {[w]}) with (dom m)
      by (apply set_eq; intros x; destruct (decide (x = w)); set_solver). }
  rewrite Hdom in Ht. simpl in Ht. rewrite Hk, Hts in Ht. by apply Permutation_cons_inv in Ht.
Qed.

(** The windows whose timers are in a list. *)
Definition windows_of (ts : list TimerRegistration) : list WindowId :=
  omap (λ t, t_key t ≫= WindowId_from_key) ts.

Lemma timer_window op (m : open_windows) t ts :
  (∀ w, w ∈ dom m → closable op w) → timers_ok op m (t :: ts) →
  ∃ w, w ∈ dom m ∧ t_key t = Some (WindowId_to_key w).
Proof.
  intros Hcl Ht.
  assert (Hin : (t_key t, t_timestamp t) ∈
      map (λ w, (Some (WindowId_to_key w), w_end w + op_allowed_lateness_ms op)) (elements (dom m))).
  { unfold timers_ok in Ht. rewrite <- Ht. simpl. by left. }
  apply list_elem_of_fmap in Hin as (w & Heq & Hw%elem_of_elements).
  exists w. split; [done|]. exact (f_equal fst Heq).
Qed.

(** Closing the fired windows one after the other. *)
Fixpoint spec_close (strategy : EmitStrategy) (pt : Z) (m : open_windows) (ws : list WindowId)
    : open_windows * list (Output B) :=
  match ws with
  | [] => (m, [])
  | w :: rest =>
      let r := spec_close strategy pt (delete w m) rest in
      (r.1, final_output strategy pt w (default [] (m !! w)) ++ r.2)
  end.

(** The rows shown for the windows other than [ws]. *)
Definition drop_windows (ws : list WindowId) (last : gmap WindowId (Event B)) :=
  filter (λ p, p.1 ∉ ws) last.
Lemma drop_windows_cons w ws last :
  drop_windows (w :: ws) last = drop_windows ws (delete w last).
Proof.
  apply map_eq. intros w'. apply option_eq. intros e. unfold drop_windows.
  rewrite !map_lookup_filter_Some, lookup_delete_Some. cbn [fst]. set_solver.
Qed.
Lemma drop_windows_nil last : drop_windows [] last = last.
Proof.
  apply map_eq. intros w'. apply option_eq. intros e. unfold drop_windows.
  rewrite map_lookup_filter_Some. set_solver.
Qed.

Lemma fire_loop_refines now fired : ∀ op (ctx : Ctx) m,
  repr op (cx_state ctx) m → timers_ok op m (fired ++ timers (cx_timers ctx)) →
  let '(op', ctx', out) := fire_loop make_batch op ctx now fired in
  let r := spec_close (op_emit_strategy op) now m (windows_of fired) in
  repr op' (cx_state ctx') r.1 ∧ timers_ok op' r.1 (timers (cx_timers ctx')) ∧
  conf_of op' = conf_of op ∧ cx_watermark_generator ctx' = cx_watermark_generator ctx ∧
  out = r.2 ∧ (∀ w, w ∈ windows_of fired → w ∈ dom m) ∧ NoDup (windows_of fired) ∧
  Forall (λ t, ∃ w, w ∈ windows_of fired ∧
            t_timestamp t = w_end w + op_allowed_lateness_ms op) fired ∧
  op_last_emitted op' = drop_windows (windows_of fired) (op_last_emitted op) ∧
  side_name op' = side_name op.
Proof.
  induction fired as [|t fired IH]; intros op ctx m Hr Ht; cbn [fire_loop].
  { simpl. rewrite drop_windows_nil.
    split_and!; try done; try by constructor. by intros w ?%not_elem_of_nil. }
  pose proof Hr as (_ & _ & _ & Hcl).
  destruct (timer_window op m t _ Hcl Ht) as (w & Hw & Hk). pose proof (Hcl w Hw) as Hclw.
  destruct (final_timer_key op w Hclw) as [Hnp Hfk].
  destruct (timers_ok_delete op m w t _ Hw (λ w' Hw', proj1 (Hcl w' Hw')) Hk Ht) as [Hts Ht'].
  assert (Hkd : default [] (t_key t) = WindowId_to_key w) by (by rewrite Hk).
  assert (Hwt : t_key t ≫= WindowId_from_key = Some w) by (rewrite Hk; exact Hfk).
  unfold on_timer. cbn [tm_key]. rewrite Hkd, Hnp, Hfk.
  change (windows_of (t :: fired)) with (omap (λ t, t_key t ≫= WindowId_from_key) (t :: fired)).
  cbn [omap list_omap]. rewrite Hwt. fold (windows_of fired). cbn [spec_close].
  set (ctx1 := mkCtx _ _ _ _ _ _).
  pose proof (close_refines op w ctx1 m Hr Hw) as Hclose.
  destruct (close_window make_batch op w ctx1) as [[op1 ctx2] out1].
  destruct Hclose as (Hr1 & Hc1 & Htm & Hgen & _ & Hl & Hsd & ->).
  assert (Hl1 : op_allowed_lateness_ms op1 = op_allowed_lateness_ms op ∧
                op_emit_strategy op1 = op_emit_strategy op) by (unfold conf_of in Hc1; split; congruence).
  destruct Hl1 as [Hl1 He1].
  specialize (IH op1 ctx2 (delete w m) Hr1). rewrite Htm in IH.
  destruct (fire_loop make_batch op1 ctx2 now fired) as [[op2 ctx3] out2].
  destruct IH as (H1 & H2 & H3 & H4 & -> & H6 & H7 & H8 & H9 & H10).
  { unfold timers_ok in *. by rewrite Hl1. }
  rewrite He1 in *.
  assert (Hnot : w ∉ windows_of fired) by (intros Hin%H6; rewrite dom_delete_L in Hin; set_solver).
  split_and!; try done.
  - by rewrite H3.
  - by rewrite H4, Hgen.
  - intros w' [->|Hw']%elem_of_cons; [done|]. apply H6 in Hw'. rewrite dom_delete_L in Hw'. set_solver.
  - by constructor.
  - constructor; [exists w; split; [by left|done]|].
    eapply Forall_impl; [exact H8|]. intros t' (w' & Hw' & Heq). exists w'. rewrite <- Hl1.
    split; [by right|done].
  - by rewrite H9, Hl, drop_windows_cons.
  - congruence.
Qed.
(** ** Firing the timers of a node *)

Lemma timers_ok_elem op (m : open_windows) ts t :
  timers_ok op m ts → t ∈ ts →
  ∃ w, w ∈ dom m ∧ t_key t = Some (WindowId_to_key w) ∧ t_timestamp t = cleanup_time op w.
Proof.
  intros Ht Hin.
  assert (Hm : (t_key t, t_timestamp t) ∈
      map (λ w, (Some (WindowId_to_key w), w_end w + op_allowed_lateness_ms op)) (elements (dom m))).
  { unfold timers_ok in Ht. rewrite <- Ht. by apply list_elem_of_fmap_2 with (f := λ t, (t_key t, t_timestamp t)). }
  apply list_elem_of_fmap in Hm as (w & Heq & Hw%elem_of_elements). exists w.
  split_and!; [done|exact (f_equal fst Heq)|exact (f_equal snd Heq)].
Qed.

Lemma timers_ok_has op (m : open_windows) ts w :
  timers_ok op m ts → w ∈ dom m →
  ∃ t, t ∈ ts ∧ t_key t = Some (WindowId_to_key w) ∧ t_timestamp t = cleanup_time op w.
Proof.
  intros Ht Hw.
  assert (Hm : (Some (WindowId_to_key w), cleanup_time op w) ∈
            map (λ t, (t_key t, t_timestamp t)) ts).
  { unfold timers_ok in Ht. rewrite Ht. apply list_elem_of_fmap. exists w. split; [done|].
    by apply elem_of_elements. }
  apply list_elem_of_fmap in Hm as (t & Heq & Hin). exists t.
  split_and!; [done|symmetry; exact (f_equal fst Heq)|symmetry; exact (f_equal snd Heq)].
Qed.

Lemma elem_of_windows_of op (m : open_windows) fired rest now w :
  (∀ w', w' ∈ dom m → closable op w') → timers_ok op m (fired ++ rest) →
  Forall (λ t, t_timestamp t <= now) fired → Forall (λ t, now < t_timestamp t) rest →
  w ∈ windows_of fired ↔ w ∈ dom m ∧ cleanup_time op w <= now.
Proof.
  intros Hcl Ht Hf Hr. rewrite Forall_forall in Hf. rewrite Forall_forall in Hr.
  unfold windows_of. rewrite list_elem_of_omap. split.
  - intros (t & Hin & Hk). destruct (timers_ok_elem op m _ t Ht) as (w' & Hw' & Hk' & Hts);
      [apply elem_of_app; by left|].
    rewrite Hk' in Hk. simpl in Hk. rewrite (proj2 (final_timer_key op w' (Hcl _ Hw'))) in Hk.
    injection Hk as <-. specialize (Hf _ Hin). split; [done|lia].
  - intros [Hw Hle]. destruct (timers_ok_has op m _ w Ht Hw) as (t & Hin & Hk & Hts).
    exists t. split.
    + apply elem_of_app in Hin as [Hin|Hin]; [done|]. specialize (Hr _ Hin). lia.
    + rewrite Hk. apply (final_timer_key op w (Hcl _ Hw)).
Qed.

Lemma windows_of_sorted op (m : open_windows) fired rest :
  (∀ w', w' ∈ dom m → closable op w') → timers_ok op m (fired ++ rest) →
  StronglySorted fires_before fired →
  StronglySorted (λ w w', cleanup_time op w <= cleanup_time op w') (windows_of fired).
Proof.
  intros Hcl Ht.
  assert (Hall : Forall (λ t, ∃ w, w ∈ dom m ∧ t_key t = Some (WindowId_to_key w) ∧
                                 t_timestamp t = cleanup_time op w) fired).
  { apply Forall_forall. intros t Hin. apply (timers_ok_elem op m _ t Ht), elem_of_app. by left. }
  clear Ht. induction 1 as [|t ts Hts IH Hbefore]; [constructor|].
  apply Forall_cons in Hall as [(w & Hw & Hk & Htime) Hall].
  assert (Hwt : t_key t ≫= WindowId_from_key = Some w)
    by (rewrite Hk; apply (final_timer_key op w (Hcl _ Hw))).
  unfold windows_of. cbn [omap list_omap]. rewrite Hwt. fold (windows_of ts).
  constructor; [by apply IH|]. apply Forall_forall. intros w' Hw'.
  unfold windows_of in Hw'. apply list_elem_of_omap in Hw' as (t' & Hin & Hk').
  rewrite Forall_forall in Hall, Hbefore. destruct (Hall _ Hin) as (w2 & Hw2 & Hk2 & Htime2).
  rewrite Hk2 in Hk'. simpl in Hk'. rewrite (proj2 (final_timer_key op w2 (Hcl _ Hw2))) in Hk'.
  injection Hk' as <-. specialize (Hbefore _ Hin). unfold fires_before in Hbefore. lia.
Qed.

Lemma spec_close_result strategy pt ws : ∀ m : open_windows,
  NoDup ws →
  (∀ w, (spec_close strategy pt m ws).1 !! w = if decide (w ∈ ws) then None else m !! w) ∧
  (spec_close strategy pt m ws).2 =
    mjoin (map (λ w, final_output strategy pt w (default [] (m !! w))) ws).
Proof.
  induction ws as [|w ws IH]; intros m Hnd; cbn [spec_close fst snd].
  { split; [|done]. intros w. case_decide; set_solver. }
  apply NoDup_cons in Hnd as [Hw Hnd]. destruct (IH (delete w m) Hnd) as [H1 H2]. split.
  - intros w'. rewrite H1. destruct (decide (w' = w)) as [->|Hne].
    + rewrite lookup_delete_eq. repeat case_decide; set_solver.
    + rewrite lookup_delete_ne by done. repeat case_decide; set_solver.
  - rewrite H2. cbn [map mjoin list_join]. f_equal. f_equal. apply map_ext_in. intros w' Hw'.
    rewrite lookup_delete_ne; [done|]. intros <-. by apply list_elem_of_In in Hw'.
Qed.

(** The windows that are due at [now], and the ones that stay open. *)
Definition still_open (op : Op) (now : Z) (m : open_windows) : open_windows :=
  filter (λ p, now < cleanup_time op p.1) m.

Lemma spec_close_still_open op strategy now ws (m : open_windows) : NoDup ws →
  (∀ w, w ∈ ws ↔ w ∈ dom m ∧ cleanup_time op w <= now) →
  (spec_close strategy now m ws).1 = still_open op now m.
Proof.
  intros Hnd Hws. destruct (spec_close_result strategy now ws m Hnd) as [Hm _].
  apply map_eq. intros w. rewrite Hm. unfold still_open. case_decide as Hw.
  - apply Hws in Hw as [_ Hle]. symmetry. apply map_lookup_filter_None. right. intros xs _. simpl. lia.
  - destruct (m !! w) as [xs|] eqn:Ew; symmetry.
    + apply map_lookup_filter_Some. split; [done|]. simpl.
      destruct (Z_lt_le_dec now (cleanup_time op w)); [done|]. exfalso. apply Hw, Hws.
      split; [by eapply elem_of_dom_2|done].
    + apply map_lookup_filter_None. by left.
Qed.

Lemma fire_timers_refines op (ctx : Ctx) m now :
  repr op (cx_state ctx) m → timers_ok op m (timers (cx_timers ctx)) →
  ∃ op' ctx' ws,
    fire_timers make_batch op ctx now =
      Some (op', ctx', mjoin (map (λ w, final_output (op_emit_strategy op) now w
                                         (default [] (m !! w))) ws)) ∧
    repr op' (cx_state ctx') (still_open op now m) ∧
    timers_ok op' (still_open op now m) (timers (cx_timers ctx')) ∧
    conf_of op' = conf_of op ∧ cx_watermark_generator ctx' = cx_watermark_generator ctx ∧
    NoDup ws ∧ (∀ w, w ∈ ws ↔ w ∈ dom m ∧ cleanup_time op w <= now) ∧
    StronglySorted (λ w w', cleanup_time op w <= cleanup_time op w') ws ∧
    op_last_emitted op' = drop_windows ws (op_last_emitted op) ∧ side_name op' = side_name op.
Proof.
  intros Hr Ht. pose proof Hr as (_ & _ & _ & Hcl).
  destruct (poll_loop_total (Datatypes.S (length (timers (cx_timers ctx)))) (timers (cx_timers ctx)) [] now)
    as (rest & fired & E & Hp & Hf & Hrest & Hsort); [lia|].
  unfold fire_timers, TimerService_poll_timers. rewrite E. cbn [app mbind option_bind].
  set (ctx1 := cx_set_timers _ ctx).
  assert (Ht1 : timers_ok op m (fired ++ timers (cx_timers ctx1))).
  { unfold timers_ok in *. unfold ctx1. simpl. by rewrite Hp. }
  pose proof (fire_loop_refines now fired op ctx1 m Hr Ht1) as Hfire.
  destruct (fire_loop make_batch op ctx1 now fired) as [[op' ctx'] out].
  destruct Hfire as (H1 & H2 & H3 & H4 & -> & _ & Hnd & _ & Hlast & Hside).
  pose proof (λ w, elem_of_windows_of op m fired rest now w Hcl Ht1 Hf Hrest) as Hws.
  destruct (spec_close_result (op_emit_strategy op) now (windows_of fired) m Hnd) as [_ Hout].
  pose proof (spec_close_still_open op (op_emit_strategy op) now (windows_of fired) m Hnd Hws) as Hstill.
  rewrite Hstill in H1, H2. exists op', ctx', (windows_of fired). rewrite Hout.
  split_and!; try done. by eapply windows_of_sorted.
Qed.
(** ** Runs of a node *)

(** What drives a node: an event with the processing time it arrives at, or a
    watermark. *)
Inductive node_op :=
| NEvent (clk : Clock) (pt : Z) (e : Event B)
| NWatermark (clk : Clock) (ts : Z).

(** The node over a run, with what it emits for each input. *)
Fixpoint node_run (op : Op) (ctx : Ctx) (ops : list node_op)
    : option (Op * Ctx * list (list (Output B))) :=
  match ops with
  | [] => Some (op, ctx, [])
  | NEvent clk pt e :: rest =>
      let ctx0 := mkCtx (ev_timestamp e) pt (cx_timers ctx) (cx_state ctx)
                    (cx_watermark_generator ctx) (cx_operator_index ctx) in
      let '(op1, ctx1, out1) := process make_batch clk op e ctx0 in
      '(op2, ctx2, outs) ← node_run op1 ctx1 rest;
      Some (op2, ctx2, out1 :: outs)
  | NWatermark clk ts :: rest =>
      '(op1, ctx1, out1) ← node_watermark make_batch clk op ctx ts;
      '(op2, ctx2, outs) ← node_run op1 ctx1 rest;
      Some (op2, ctx2, out1 :: outs)
  end.

(** The windows and values of the events that are not late when they arrive. *)
Fixpoint accepted (op : Op) (gen : Gen) (ops : list node_op) : list (WindowId * list I) :=
  match ops with
  | [] => []
  | NEvent clk _ e :: rest =>
      let gen' := (on_event clk gen (ev_timestamp e)).1 in
      (if late op e (current_watermark gen') then []
       else [(TumblingWindowAssigner_assign (op_assigner op) (ev_timestamp e),
              extract_batch (op_aggregator op) e)]) ++ accepted op gen' rest
  | NWatermark clk ts :: rest => accepted op (advance_watermark clk gen ts).1 rest
  end.

(** The values accepted for a window, in arrival order. *)
Definition values_of (w : WindowId) (acc : list (WindowId * list I)) : list I :=
  mjoin (map snd (filter (λ p, p.1 = w) acc)).

Definition node_op_ok (op : Op) (o : node_op) : Prop :=
  match o with
  | NEvent _ _ e => closable op (TumblingWindowAssigner_assign (op_assigner op) (ev_timestamp e))
  | NWatermark _ _ => True
  end.

Lemma accepted_conf op op' gen ops :
  conf_of op' = conf_of op → accepted op' gen ops = accepted op gen ops.
Proof.
  unfold conf_of. intros Hc. assert (op_assigner op' = op_assigner op ∧
    op_aggregator op' = op_aggregator op ∧ op_allowed_lateness_ms op' = op_allowed_lateness_ms op)
    as (Ha & Hg & Hl) by (split_and!; congruence).
  revert gen. induction ops as [|[clk pt e|clk ts] ops IH]; intros gen; simpl; [done| |by rewrite IH].
  rewrite IH. unfold late, cleanup_time. by rewrite Ha, Hg, Hl.
Qed.

Lemma node_op_ok_conf op op' o : conf_of op' = conf_of op → node_op_ok op o → node_op_ok op' o.
Proof.
  destruct o; simpl; [|done]. intros Hc H.
  assert (op_assigner op' = op_assigner op) as -> by (unfold conf_of in Hc; congruence).
  by apply (closable_conf op' op).
Qed.

Lemma values_of_cons w p acc :
  values_of w (p :: acc) = (if decide (p.1 = w) then p.2 else []) ++ values_of w acc.
Proof. unfold values_of. rewrite filter_cons. by case_decide. Qed.

Lemma conf_fields op op1 :
  conf_of op1 = conf_of op →
  op_emit_strategy op1 = op_emit_strategy op ∧ (not_periodic op → not_periodic op1) ∧
  (∀ w, cleanup_time op1 w = cleanup_time op w).
Proof.
  unfold conf_of. intros Hc. assert (He : op_emit_strategy op1 = op_emit_strategy op) by congruence.
  split_and!; [done|unfold not_periodic; by rewrite He|].
  intros w. unfold cleanup_time. f_equal. congruence.
Qed.

(** ** Windows without a timer *)

(** Every pending timer is the final timer of a representable window other than [w]. *)
Definition no_timer_for (w : WindowId) (ts : list TimerRegistration) : Prop :=
  Forall (λ t, ∃ w', t_key t = Some (WindowId_to_key w') ∧ window_ok w' ∧ 0 <= w_start w' ∧ w' ≠ w) ts.

Definition stranded (w : WindowId) (op : Op) (ctx : Ctx) : Prop :=
  w ∈ op_registered_windows op ∧ no_timer_for w (timers (cx_timers ctx)) ∧ not_periodic op.

Lemma process_stranded clk op e (ctx : Ctx) w :
  stranded w op ctx →
  closable op (TumblingWindowAssigner_assign (op_assigner op) (ev_timestamp e)) →
  let '(op1, ctx1, _) := process make_batch clk op e ctx in
  stranded w op1 ctx1 ∧ conf_of op1 = conf_of op.
Proof.
  intros (Hw & Hnt & Hnp) (Hwok & Hst & _). unfold process.
  destruct (on_event clk (cx_watermark_generator ctx) (ev_timestamp e)) as [gen' em].
  cbn [cx_watermark_generator cx_set_gen].
  destruct (_ && _).
  { unfold process_late. repeat case_match; simplify_eq/=; done. }
  set (w' := TumblingWindowAssigner_assign (op_assigner op) (ev_timestamp e)) in *.
  set (ctx0 := cx_set_gen gen' ctx).
  assert (Hu : cx_timers (update_window op w' e ctx0).1 = cx_timers ctx).
  { unfold update_window. destruct (extract_batch _ _); [done|].
    by destruct (put_accumulator _ _ _). }
  destruct (update_window op w' e ctx0) as [ctx1 upd]. cbn [fst] in Hu.
  assert (Hreg : stranded w (maybe_register_timer op w' ctx1).1 (maybe_register_timer op w' ctx1).2 ∧
            conf_of (maybe_register_timer op w' ctx1).1 = conf_of op).
  { unfold maybe_register_timer. case_bool_decide as Hin; cbn [fst snd].
    - split; [|done]. split_and!; [done|by rewrite Hu|done].
    - split; [|done]. split_and!; [cbn; set_solver| |done].
      unfold no_timer_for. cbn. rewrite Hu. constructor; [|done].
      exists w'. split_and!; [done..|]. by intros ->. }
  destruct (maybe_register_timer op w' ctx1) as [op2 ctx2]. cbn [fst snd] in Hreg.
  destruct Hreg as [(Hw2 & Hnt2 & Hnp2) Hc2].
  rewrite (no_periodic_registration op2 w' ctx2 Hnp2).
  pose proof (emit_update_frame upd op2 w' ctx2) as (Hc3 & Hr3 & _).
  destruct (if upd then emit_update make_batch op2 w' ctx2 else (op2, [])) as [op3 out].
  cbn [fst] in Hc3, Hr3. destruct (conf_fields op2 op3 Hc3) as (_ & Hnp3 & _).
  split; [|congruence]. split_and!; [by rewrite Hr3|done|auto].
Qed.

Lemma fire_loop_stranded now w fired : ∀ op (ctx : Ctx),
  no_timer_for w fired → stranded w op ctx →
  let '(op1, ctx1, _) := fire_loop make_batch op ctx now fired in
  stranded w op1 ctx1 ∧ conf_of op1 = conf_of op.
Proof.
  induction fired as [|t fired IH]; intros op ctx Hf Hst; cbn [fire_loop]; [done|].
  apply Forall_cons in Hf as [(w' & Hk & Hwok & Hs & Hne) Hf].
  unfold on_timer. cbn [tm_key].
  assert (Hkd : default [] (t_key t) = WindowId_to_key w') by (by rewrite Hk).
  rewrite Hkd, final_key_not_periodic, from_to_key by done.
  set (ctx1 := mkCtx _ _ _ _ _ _).
  assert (Hc : stranded w (close_window make_batch op w' ctx1).1.1 (close_window make_batch op w' ctx1).1.2 ∧
            conf_of (close_window make_batch op w' ctx1).1.1 = conf_of op).
  { destruct Hst as (Hw & Hnt & Hnp).
    unfold close_window. repeat case_match; cbn [fst snd]; (split; [|done]);
      (split_and!; [cbn; set_solver|done|done]). }
  destruct (close_window make_batch op w' ctx1) as [[op1 ctx2] out1]. cbn [fst snd] in Hc.
  destruct Hc as [Hst1 Hc1]. specialize (IH op1 ctx2 Hf Hst1).
  destruct (fire_loop make_batch op1 ctx2 now fired) as [[op2 ctx3] out2].
  destruct IH as [IH1 IH2]. split; [done|congruence].
Qed.

Lemma node_run_stranded w ops : ∀ op (ctx : Ctx) op' ctx' out,
  Forall (node_op_ok op) ops → stranded w op ctx →
  node_run op ctx ops = Some (op', ctx', out) → stranded w op' ctx'.
Proof.
  induction ops as [|o ops IH]; intros op ctx op' ctx' out Hops Hst; cbn [node_run];
    [by intros [= <- <- _]|].
  apply Forall_cons in Hops as [Ho Hops]. destruct o as [clk pt e|clk ts].
  - set (ctx0 := mkCtx _ _ _ _ _ _).
    pose proof (process_stranded clk op e ctx0 w Hst Ho) as Hp.
    destruct (process make_batch clk op e ctx0) as [[op1 ctx1] out1]. destruct Hp as [Hp Hc].
    destruct (node_run op1 ctx1 ops) as [[[op2 ctx3] out2]|] eqn:Erun; cbn [mbind option_bind];
      intros Hsome; [|done].
    injection Hsome as <- <- _. eapply IH; [|exact Hp|exact Erun].
    eapply Forall_impl; [exact Hops|]. intros o'. by apply node_op_ok_conf.
  - unfold node_watermark, fire_timers, TimerService_poll_timers.
    set (ctx0 := cx_set_gen _ ctx).
    destruct (poll_loop_total (Datatypes.S (length (timers (cx_timers ctx0)))) (timers (cx_timers ctx0)) [] ts)
      as (rest & fired & E & Hp & _); [lia|].
    rewrite E. cbn [mbind option_bind app].
    destruct Hst as (Hw & Hnt & Hnp).
    assert (Hnt' : no_timer_for w fired ∧ no_timer_for w rest).
    { unfold no_timer_for in *. rewrite <- Forall_app, Hp. exact Hnt. }
    destruct Hnt' as [Hnf Hnr]. set (ctx1 := cx_set_timers _ ctx0).
    pose proof (fire_loop_stranded ts w fired op ctx1 Hnf) as Hfire.
    destruct (fire_loop make_batch op ctx1 ts fired) as [[op1 ctx2] out1].
    destruct Hfire as [Hst1 Hc1]; [by split_and!|].
    destruct (node_run op1 ctx2 ops) as [[[op2 ctx3] out2]|] eqn:Erun; cbn [mbind option_bind];
      intros Hsome; [|done].
    injection Hsome as <- <- _. eapply IH; [|exact Hst1|exact Erun].
    eapply Forall_impl; [exact Hops|]. intros o'. by apply node_op_ok_conf.
Qed.
Context {ginv : Gen → Prop} `{!GeneratorLaws Gen ginv}.
(** An external advance reaches the requested timestamp. *)
Hypothesis advance_reaches : ∀ c g ts,
  ginv g → ts <= current_watermark (advance_watermark c g ts).1.

(** The closings of a run: window, time of the closing watermark, values. *)
Abbreviation closing := (WindowId * (Z * list I))%type (only parsing).
Definition closing_output (strategy : EmitStrategy) (c : closing) : list (Output B) :=
  final_output strategy c.2.1 c.1 c.2.2.

(** ** The reference: what a node shows for each input

    The open windows with the values accepted for them, and the rows shown for
    them so far. *)
Record ref_state := mkRef { rf_open : open_windows; rf_last : gmap WindowId (Event B) }.

(** [ref_step op gen r o out closes gen' r']: on the input [o] the node shows
    [out] and closes the windows [closes]. A late event changes nothing; an
    accepted one adds its values to its window; a watermark closes exactly the
    open windows that are due, by the time they are due, each with its final
    result. *)
Inductive ref_step (op : Op) (gen : Gen) (r : ref_state)
    : node_op → list (Output B) → list closing → Gen → ref_state → Prop :=
| ref_late clk pt e gen' em :
    on_event clk gen (ev_timestamp e) = (gen', em) →
    late op e (current_watermark gen') = true →
    ref_step op gen r (NEvent clk pt e) (late_output op e) [] gen' r
| ref_accept clk pt e gen' em w vs xs upd :
    on_event clk gen (ev_timestamp e) = (gen', em) →
    late op e (current_watermark gen') = false →
    w = TumblingWindowAssigner_assign (op_assigner op) (ev_timestamp e) →
    vs = extract_batch (op_aggregator op) e →
    xs = default [] (rf_open r !! w) ++ vs →
    upd = update_rows (op_emit_strategy op) pt w vs xs (rf_last r) →
    ref_step op gen r (NEvent clk pt e)
      (match em with Some wm => [OutWatermark (wm_ts wm)] | None => [] end ++ upd.1) []
      gen' (mkRef (<[w := xs]> (rf_open r)) upd.2)
| ref_watermark clk ts ws closes :
    NoDup ws → (∀ w, w ∈ ws ↔ w ∈ dom (rf_open r) ∧ cleanup_time op w <= ts) →
    StronglySorted (λ w w', cleanup_time op w <= cleanup_time op w') ws →
    closes = map (λ w, (w, (ts, default [] (rf_open r !! w)))) ws →
    ref_step op gen r (NWatermark clk ts)
      (mjoin (map (closing_output (op_emit_strategy op)) closes)) closes
      (advance_watermark clk gen ts).1
      (mkRef (still_open op ts (rf_open r)) (drop_windows ws (rf_last r))).

(** The steps of a run, one output per input. *)
Fixpoint ref_run (op : Op) (gen : Gen) (r : ref_state) (ops : list node_op)
    (outs : list (list (Output B))) (closes : list closing) (gen' : Gen) (r' : ref_state) : Prop :=
  match ops, outs with
  | [], [] => closes = [] ∧ gen' = gen ∧ r' = r
  | o :: ops, out :: outs =>
      ∃ cs rest gen1 r1, closes = cs ++ rest ∧ ref_step op gen r o out cs gen1 r1 ∧
        ref_run op gen1 r1 ops outs rest gen' r'
  | _, _ => False
  end.

(** The reference looks at the configuration and the late-data settings. *)
Lemma ref_step_conf op op1 gen r o out cs gen' r' :
  conf_of op1 = conf_of op → side_name op1 = side_name op →
  ref_step op1 gen r o out cs gen' r' → ref_step op gen r o out cs gen' r'.
Proof.
  intros Hc Hsd Hstep. assert (op_assigner op1 = op_assigner op ∧ op_aggregator op1 = op_aggregator op ∧
    op_emit_strategy op1 = op_emit_strategy op ∧ op_allowed_lateness_ms op1 = op_allowed_lateness_ms op)
    as (Ha & Hg & He & Hl) by (unfold conf_of in Hc; split_and!; congruence).
  destruct Hstep as [clk pt e gen' em E Hlate|clk pt e gen' em w vs xs upd E Hlate Hw Hvs Hxs Hupd
                    |clk ts ws closes Hnd Hws Hso Hcs].
  - replace (late_output op1 e) with (late_output op e)
      by (unfold late_output; by rewrite Hsd, He).
    eapply ref_late; [exact E|]. revert Hlate. unfold late, cleanup_time. by rewrite Ha, Hl.
  - eapply ref_accept; [exact E| | | |exact Hxs|]; [|congruence..].
    revert Hlate. unfold late, cleanup_time. by rewrite Ha, Hl.
  - rewrite He. unfold still_open, cleanup_time in *. rewrite Hl in *.
    by eapply (ref_watermark op).
Qed.

Lemma ref_run_conf op op1 gen r ops outs closes gen' r' :
  conf_of op1 = conf_of op → side_name op1 = side_name op →
  ref_run op1 gen r ops outs closes gen' r' → ref_run op gen r ops outs closes gen' r'.
Proof.
  intros Hc Hs. revert gen r outs closes.
  induction ops as [|o ops IH]; intros gen r [|out outs] closes; cbn [ref_run]; [done..|].
  intros (cs & rest & gen1 & r1 & Hcl & Hstep & Hrun). exists cs, rest, gen1, r1.
  split_and!; [done|by eapply ref_step_conf|by apply IH].
Qed.

(** With the strategies that show no intermediate result, the result rows are
    those of the closings. *)
Definition final_only (strategy : EmitStrategy) : Prop :=
  strategy ≠ OnUpdate ∧ strategy ≠ Changelog.

Lemma join_cons {X} (x : list X) l : mjoin (x :: l) = x ++ mjoin l.
Proof. done. Qed.
Lemma rows_app (o1 o2 : list (Output B)) : rows (o1 ++ o2) = rows o1 ++ rows o2.
Proof. apply filter_app. Qed.

Lemma closing_output_rows strategy (closes : list closing) :
  rows (mjoin (map (closing_output strategy) closes)) = mjoin (map (closing_output strategy) closes).
Proof.
  induction closes as [|c closes IH]; [done|]. cbn [map]. rewrite join_cons, rows_app, IH.
  f_equal. unfold closing_output, final_output. by repeat case_match.
Qed.

Lemma ref_run_final_rows op gen r ops outs closes gen' r' :
  final_only (op_emit_strategy op) → ref_run op gen r ops outs closes gen' r' →
  rows (mjoin outs) = mjoin (map (closing_output (op_emit_strategy op)) closes).
Proof.
  intros [Hu Hc]. revert gen r outs closes.
  induction ops as [|o ops IH]; intros gen r [|out outs] closes; cbn [ref_run];
    [by intros (-> & _)|done|done|].
  intros (cs & rest & gen1 & r1 & -> & Hstep & Hrun%IH).
  rewrite join_cons, rows_app, Hrun, map_app, join_app. f_equal. clear IH Hrun.
  destruct Hstep as [clk pt e g1 em E Hlate|clk pt e g1 em w vs xs upd E Hlate Hw Hvs Hxs ->
                    |clk ts ws cls Hnd Hws Hso ->].
  - unfold late_output. by repeat case_match.
  - rewrite rows_app. unfold update_rows. by destruct em, (op_emit_strategy op).
  - apply closing_output_rows.
Qed.

(** What a run from the open windows [m] with the windows [D] already closed
    does. *)
Definition run_ok (op : Op) (m m' : open_windows) (D : gset WindowId)
    (acc : list (WindowId * list I)) (closes : list closing) : Prop :=
  NoDup closes.*1 ∧
  (∀ c, c ∈ closes → c.1 ∉ D ∧ c.1 ∉ dom m' ∧
     c.2.2 = default [] (m !! c.1) ++ values_of c.1 acc ∧ cleanup_time op c.1 <= c.2.1) ∧
  (∀ w xs, m' !! w = Some xs → w ∉ D ∧ xs = default [] (m !! w) ++ values_of w acc) ∧
  (∀ w, w ∈ dom m ∨ w ∈ acc.*1 → w ∈ dom m' ∨ w ∈ closes.*1) ∧
  (∀ w, w ∈ D → values_of w acc = []).

Lemma run_ok_conf op op1 m m' D acc closes :
  (∀ w, cleanup_time op1 w = cleanup_time op w) →
  run_ok op1 m m' D acc closes → run_ok op m m' D acc closes.
Proof.
  intros Hcl (H1 & H2 & H3). split; [done|]. split; [|done].
  intros c Hc. rewrite <- Hcl. by apply H2.
Qed.

Lemma run_ok_event op m m' D w vs acc closes :
  w ∉ D → run_ok op (<[w := default [] (m !! w) ++ vs]> m) m' D acc closes →
  run_ok op m m' D ((w, vs) :: acc) closes.
Proof.
  intros HwD (H1 & H2 & H3 & H4 & H5).
  assert (Hv : ∀ w', default ([] : list I) (<[w := default [] (m !! w) ++ vs]> m !! w') ++ values_of w' acc =
                     default [] (m !! w') ++ values_of w' ((w, vs) :: acc)).
  { intros w'. rewrite values_of_cons, lookup_insert. cbn [fst snd]. case_decide; [|done].
    subst. simpl. by rewrite app_assoc. }
  split_and!; [done| | | |].
  - intros c Hc. rewrite <- Hv. by apply H2.
  - intros w' xs Hw'. rewrite <- Hv. by apply H3.
  - intros w' Hw'. apply H4. rewrite dom_insert_L. set_solver.
  - intros w' Hw'. rewrite values_of_cons. simpl. rewrite decide_False by (by intros <-).
    by apply H5.
Qed.

Lemma run_ok_watermark op m m' D ts ws acc closes :
  NoDup ws → (∀ w, w ∈ ws ↔ w ∈ dom m ∧ cleanup_time op w <= ts) → D ## dom m →
  run_ok op (still_open op ts m) m' (D ∪ list_to_set ws) acc closes →
  run_ok op m m' D acc (map (λ w, (w, (ts, default [] (m !! w)))) ws ++ closes).
Proof.
  intros Hnd Hws Hdis (H1 & H2 & H3 & H4 & H5).
  assert (Hlook : ∀ w, w ∉ ws → still_open op ts m !! w = m !! w).
  { intros w Hw. unfold still_open. destruct (m !! w) as [xs|] eqn:E.
    - apply map_lookup_filter_Some. split; [done|]. simpl.
      destruct (Z_lt_le_dec ts (cleanup_time op w)); [done|]. exfalso. apply Hw, Hws.
      split; [by eapply elem_of_dom_2|done].
    - apply map_lookup_filter_None. by left. }
  assert (Hfst : (map (λ w, (w, (ts, default ([] : list I) (m !! w)))) ws).*1 = ws)
    by (rewrite <- list_fmap_compose; apply list_fmap_id).
  split_and!.
  - rewrite fmap_app, Hfst. apply NoDup_app. split_and!; [done| |done].
    intros w Hw (c & -> & Hc)%list_elem_of_fmap. apply H2 in Hc as (Hn & _). set_solver.
  - intros c [Hc|Hc]%elem_of_app.
    + apply list_elem_of_fmap in Hc as (w & -> & Hw). cbn [fst snd].
      rewrite (H5 w) by set_solver. rewrite app_nil_r. apply Hws in Hw as Hw'. destruct Hw' as [Hd Hle].
      split_and!; [set_solver| |done|done].
      intros [xs Hx]%elem_of_dom. apply H3 in Hx as [Hx _]. set_solver.
    + destruct (H2 _ Hc) as (Hn & Hm' & Hx & Hle). rewrite Hlook in Hx by set_solver. set_solver.
  - intros w xs Hw. destruct (H3 _ _ Hw) as [Hn Hx]. rewrite Hlook in Hx by set_solver. set_solver.
  - intros w Hw. rewrite fmap_app, Hfst. destruct (decide (w ∈ ws)) as [Hin|Hin]; [set_solver|].
    destruct (H4 w) as [?|?]; [|set_solver..].
    destruct Hw as [Hw|Hw]; [left|by right]. apply elem_of_dom. rewrite Hlook by done.
    by apply elem_of_dom.
  - intros w Hw. apply H5. set_solver.
Qed.

(** The operator holds the open windows [m], and no event of the closed windows
    [D] can be accepted any more. *)
Definition node_inv (op : Op) (ctx : Ctx) (m : open_windows) (D : gset WindowId) : Prop :=
  repr op (cx_state ctx) m ∧ timers_ok op m (timers (cx_timers ctx)) ∧ not_periodic op ∧
  ginv (cx_watermark_generator ctx) ∧ D ## dom m ∧
  (∀ w, w ∈ D → cleanup_time op w <= current_watermark (cx_watermark_generator ctx)).

Lemma node_event_inv clk op e (ctx : Ctx) m D :
  node_inv op ctx m D →
  closable op (TumblingWindowAssigner_assign (op_assigner op) (ev_timestamp e)) →
  let '(op1, ctx1, out) := process make_batch clk op e ctx in
  let '(gen', em) := on_event clk (cx_watermark_generator ctx) (ev_timestamp e) in
  node_inv op1 ctx1 (spec_process op m e (current_watermark gen')) D ∧
  conf_of op1 = conf_of op ∧ side_name op1 = side_name op ∧ cx_watermark_generator ctx1 = gen' ∧
  (late op e (current_watermark gen') = false →
     TumblingWindowAssigner_assign (op_assigner op) (ev_timestamp e) ∉ D) ∧
  (out, op_last_emitted op1) =
    event_output op m (op_last_emitted op) (cx_processing_time ctx) e (current_watermark gen') em.
Proof.
  intros (Hr & Ht & Hnp & Hg & Hdis & HD) Ho.
  pose proof (process_refines clk op e ctx m Hr Ht Hnp Ho) as Hp.
  destruct (process make_batch clk op e ctx) as [[op1 ctx1] out].
  pose proof (on_event_mono clk _ (ev_timestamp e) Hg) as Hmono.
  pose proof (law_event_inv clk _ (ev_timestamp e) Hg) as Hginv.
  destruct (on_event clk (cx_watermark_generator ctx) (ev_timestamp e)) as [gen' em].
  cbn [fst] in Hmono, Hginv.
  destruct Hp as (Hr1 & Ht1 & Hc1 & Hsd1 & Hg1 & Hout).
  destruct (conf_fields op op1 Hc1) as (_ & Hnp1 & Hcl1).
  set (w := TumblingWindowAssigner_assign (op_assigner op) (ev_timestamp e)) in *.
  assert (HwD : late op e (current_watermark gen') = false → w ∉ D).
  { intros Hlate Hw. specialize (HD _ Hw). unfold late in Hlate. fold w in Hlate.
    apply Z.leb_gt in Hlate. lia. }
  split_and!; [|done..]. split_and!; [done|done|auto|by rewrite Hg1| |].
  - unfold spec_process. case_match eqn:Hlate; [done|]. specialize (HwD eq_refl).
    rewrite dom_insert_L. set_solver.
  - intros w' Hw'. rewrite Hcl1, Hg1. specialize (HD _ Hw'). lia.
Qed.

Lemma node_watermark_inv clk op (ctx : Ctx) m D ts :
  node_inv op ctx m D →
  let gen' := (advance_watermark clk (cx_watermark_generator ctx) ts).1 in
  ∃ op1 ctx1 ws,
    node_watermark make_batch clk op ctx ts =
      Some (op1, ctx1, mjoin (map (λ w, final_output (op_emit_strategy op) ts w
                                          (default [] (m !! w))) ws)) ∧
    node_inv op1 ctx1 (still_open op ts m) (D ∪ list_to_set ws) ∧
    conf_of op1 = conf_of op ∧ cx_watermark_generator ctx1 = gen' ∧ NoDup ws ∧
    (∀ w, w ∈ ws ↔ w ∈ dom m ∧ cleanup_time op w <= ts) ∧
    StronglySorted (λ w w', cleanup_time op w <= cleanup_time op w') ws ∧
    op_last_emitted op1 = drop_windows ws (op_last_emitted op) ∧ side_name op1 = side_name op.
Proof.
  intros (Hr & Ht & Hnp & Hg & Hdis & HD) gen'. unfold node_watermark. fold gen'.
  destruct (fire_timers_refines op (cx_set_gen gen' ctx) m ts Hr Ht)
    as (op1 & ctx1 & ws & -> & Hr1 & Ht1 & Hc1 & Hg1 & Hnd & Hws & Hso & Hl & Hsd).
  change (cx_watermark_generator (cx_set_gen gen' ctx)) with gen' in Hg1.
  destruct (conf_fields op op1 Hc1) as (_ & Hnp1 & Hcl1).
  exists op1, ctx1, ws. split_and!; try done.
  split_and!; [done|done|auto|rewrite Hg1; by apply law_advance_inv| |].
  - assert (Hlook : ∀ w, w ∈ dom (still_open op ts m) → w ∈ dom m ∧ w ∉ ws).
    { intros w [xs Hx]%elem_of_dom. apply map_lookup_filter_Some in Hx as [Hx Hlt]. simpl in Hlt.
      split; [by eapply elem_of_dom_2|]. intros [_ Hle]%Hws. lia. }
    set_solver.
  - intros w Hw. rewrite Hcl1, Hg1. apply elem_of_union in Hw as [Hw|Hw].
    + specialize (HD _ Hw). pose proof (advance_mono clk _ ts Hg) as Hm. fold gen' in Hm. lia.
    + apply elem_of_list_to_set, Hws in Hw as [_ Hle].
      pose proof (advance_reaches clk _ ts Hg) as Hm. fold gen' in Hm. lia.
Qed.

Lemma run_ok_nil op m D : D ## dom m → run_ok op m m D [] [].
Proof.
  intros Hdis. split_and!.
  - constructor.
  - by intros c ?%not_elem_of_nil.
  - intros w xs Hw. unfold values_of. simpl. rewrite app_nil_r, Hw. split; [|done].
    apply elem_of_dom_2 in Hw. set_solver.
  - set_solver.
  - done.
Qed.

Lemma node_run_spec ops : ∀ op (ctx : Ctx) m D,
  node_inv op ctx m D → Forall (node_op_ok op) ops →
  ∃ op' ctx' outs m' D' closes,
    node_run op ctx ops = Some (op', ctx', outs) ∧
    node_inv op' ctx' m' D' ∧ conf_of op' = conf_of op ∧
    ref_run op (cx_watermark_generator ctx) (mkRef m (op_last_emitted op)) ops outs closes
      (cx_watermark_generator ctx') (mkRef m' (op_last_emitted op')) ∧
    run_ok op m m' D (accepted op (cx_watermark_generator ctx) ops) closes.
Proof.
  induction ops as [|o ops IH]; intros op ctx m D Hinv Hops.
  { exists op, ctx, [], m, D, []. split_and!; try done.
    apply run_ok_nil. by destruct Hinv as (_&_&_&_&?&_). }
  apply Forall_cons in Hops as [Ho Hops].
  assert (Hops1 : ∀ op1, conf_of op1 = conf_of op → Forall (node_op_ok op1) ops).
  { intros op1 Hc. eapply Forall_impl; [exact Hops|]. intros o'. by apply node_op_ok_conf. }
  destruct o as [clk pt e|clk ts]; cbn [node_run accepted].
  - set (ctx0 := mkCtx _ _ _ _ _ _).
    pose proof (node_event_inv clk op e ctx0 m D Hinv Ho) as Hp.
    change (cx_watermark_generator ctx0) with (cx_watermark_generator ctx) in Hp.
    destruct (process make_batch clk op e ctx0) as [[op1 ctx1] out].
    destruct (on_event clk (cx_watermark_generator ctx) (ev_timestamp e)) as [gen' em] eqn:E.
    destruct Hp as (Hinv1 & Hc1 & Hsd1 & Hg1 & HwD & Hout).
    destruct (conf_fields op op1 Hc1) as (_ & _ & Hcl1).
    destruct (IH op1 ctx1 _ D Hinv1 (Hops1 _ Hc1))
      as (op' & ctx' & outs & m' & D' & closes & -> & H1 & H2 & H3 & H4).
    exists op', ctx', (out :: outs), m', D', closes. cbn [fst]. split_and!; [done..|congruence| |].
    + apply (ref_run_conf op op1) in H3; [|done..]. rewrite Hg1 in H3.
      eexists [], closes, _, _. split_and!; [done| |exact H3].
      unfold spec_process, event_output in *.
      destruct (late op e (current_watermark gen')) eqn:Hlate; injection Hout as -> ->;
        [by eapply ref_late|by eapply ref_accept].
    + rewrite Hg1, (accepted_conf op op1) in H4 by done. apply (run_ok_conf op op1) in H4; [|done].
      unfold spec_process in H4. destruct (late _ _ _); [done|]. by apply run_ok_event; [apply HwD|].
  - destruct (node_watermark_inv clk op ctx m D ts Hinv)
      as (op1 & ctx1 & ws & -> & Hinv1 & Hc1 & Hg1 & Hnd & Hws & Hso & Hl1 & Hsd1).
    destruct (conf_fields op op1 Hc1) as (_ & _ & Hcl1). cbn [mbind option_bind].
    destruct (IH op1 ctx1 _ _ Hinv1 (Hops1 _ Hc1))
      as (op' & ctx' & outs & m' & D' & closes & -> & H1 & H2 & H3 & H4).
    eexists op', ctx', _, m', D', (map (λ w, (w, (ts, default [] (m !! w)))) ws ++ closes).
    split_and!; [done|done|congruence| |].
    + apply (ref_run_conf op op1) in H3; [|done..]. rewrite Hg1, Hl1 in H3.
      eexists _, closes, _, _. split_and!; [done| |exact H3].
      replace (map (λ w, final_output (op_emit_strategy op) ts w (default [] (m !! w))) ws)
        with (map (closing_output (op_emit_strategy op)) (map (λ w, (w, (ts, default [] (m !! w)))) ws))
        by (by rewrite map_map).
      by apply (ref_watermark op _ (mkRef m (op_last_emitted op))).
    + apply run_ok_watermark; [done..|by destruct Hinv as (_&_&_&_&?&_)|].
      rewrite Hg1, (accepted_conf op op1) in H4 by done. by apply (run_ok_conf op op1) in H4.
Qed.

(** ** Fresh nodes *)

Definition fresh_node (op : Op) (ctx : Ctx) : Prop :=
  op_registered_windows op = ∅ ∧ timers (cx_timers ctx) = [] ∧
  sok (cx_state ctx) ∧ sabs (cx_state ctx) = ∅ ∧ ginv (cx_watermark_generator ctx).

Lemma fresh_node_inv op ctx : fresh_node op ctx → not_periodic op → node_inv op ctx ∅ ∅.
Proof.
  intros (Hr & Ht & Hs & Habs & Hg) Hnp. split; [split_and!|split].
  - done.
  - by rewrite dom_empty_L.
  - intros w _. by rewrite (get_accumulator_abs op w _ Hs), Habs, !lookup_empty.
  - set_solver.
  - unfold timers_ok. by rewrite Ht, dom_empty_L.
  - split_and!; [done|done|set_solver|set_solver].
Qed.

End Spec.

(** ** A concrete node for the witnesses

    COUNT over an in-memory store, events and results carrying a number. *)

#[local] Instance Count_archive : Archive CountAccumulator := {
  to_bytes a := inl [ca_count a];
  from_bytes b := match b with [n] => inl (mkCount n) | _ => inr "bad archive"%string end;
}.
#[local] Instance Count_archive_laws : ArchiveLaws CountAccumulator.
Proof. split. intros [n]. by eexists. Qed.

(** Window lists as length-prefixed numbers. *)
Fixpoint encode_windows (ws : list WindowId) : list Z :=
  match ws with [] => [] | w :: r => w_start w :: w_end w :: encode_windows r end.
Fixpoint decode_windows (l : list Z) : list WindowId :=
  match l with a :: b :: r => mkWindowId a b :: decode_windows r | _ => [] end.
Lemma decode_encode_windows ws : decode_windows (encode_windows ws) = ws.
Proof. induction ws as [|[a b] ws IH]; simpl; congruence. Qed.
Lemma encode_windows_length ws : length (encode_windows ws) = (2 * length ws)%nat.
Proof. induction ws; simpl; lia. Qed.

#[local] Instance windows_archive : Archive (list WindowId) := {
  to_bytes ws := inl (encode_windows ws);
  from_bytes b := inl (decode_windows b);
}.
#[local] Instance windows_pair_archive : Archive (list WindowId * list WindowId) := {
  to_bytes p := inl (Z.of_nat (2 * length p.1) :: encode_windows p.1 ++ encode_windows p.2);
  from_bytes b := match b with
                  | n :: r => inl (decode_windows (take (Z.to_nat n) r),
                                   decode_windows (drop (Z.to_nat n) r))
                  | [] => inr "bad archive"%string
                  end;
}.
#[local] Instance windows_pair_archive_laws : ArchiveLaws (list WindowId * list WindowId).
Proof.
  split. intros [ws ps]. eexists. split; [done|]. cbn [from_bytes windows_pair_archive fst snd].
  rewrite Nat2Z.id, <- encode_windows_length, take_app_length, drop_app_length.
  by rewrite !decode_encode_windows.
Qed.

#[local] Existing Instance Count_aggregator.
#[local] Instance Count_aggregator_laws :
  AggregatorLaws CountAggregator Z CountAccumulator unit Z.
Proof. by split. Qed.

Definition count_op (strategy : EmitStrategy) : TumblingWindowOperator (Agg:=CountAggregator) (B:=Z) :=
  mkTumblingOp (mkTumbling 1000 0) mkCountAgg 0 ∅ ∅ strategy LateDataConfig_drop
    LateDataMetrics_new WindowCloseMetrics_new "count" ∅ None.
Definition count_ctx : OperatorContext InMemoryStore BoundedOutOfOrdernessGenerator :=
  mkCtx 0 0 TimerService_new InMemoryStore_new (Bounded_new 100) 0.
Definition clock0 : Clock := mkClock 0 0 None.

(** ** Properties *)

Section Properties.
Context {Agg B A I O S Gen : Type}.
Context `{!Accumulator A I O} `{!Aggregator Agg B A I} `{!AggregatorLaws Agg B A I O}.
Context `{!StateStore S} {sok : S → Prop} {sabs : S → gmap (list Z) (list Z)}.
Context `{!StateStoreLaws S sok sabs} `{!Archive A} `{!ArchiveLaws A}.
Context `{!WatermarkGenerator Gen} {ginv : Gen → Prop} `{!GeneratorLaws Gen ginv}.
Context `{!Archive (list WindowId)} `{!Archive (list WindowId * list WindowId)}.
Context `{!ArchiveLaws (list WindowId * list WindowId)}.
Context (make_batch : WindowId → O → option B).

(** [C1]: exactly-once windows, end to end. Drive a fresh tumbling-window node
    (any aggregator, lawful state store and lawful watermark generator, any
    strategy but periodic emission) with any interleaving of events and
    watermarks whose windows lie at or after the epoch. Everything the node
    emits, input by input, is what the reference emits: a late event (its window
    was due at the watermark) is dropped, sent to the side output or reported
    late by the configuration; an accepted one shows its row under [OnUpdate],
    the replacement of its window's row under [Changelog], and nothing under the
    other strategies, which emit the results of the closings and nothing else; a
    watermark closes exactly the open windows whose end plus lateness it
    reached, in that order. Every window is closed at most once, with exactly
    the values of the events accepted for it, in arrival order; and no accepted
    event is lost: its window was closed, or is still open with those values in
    the state store. *)
Theorem tumbling_run_exactly_once
    (advance_reaches : ∀ c g ts, ginv g → ts <= current_watermark (advance_watermark c g ts).1)
    (op : TumblingWindowOperator (Agg:=Agg) (B:=B)) (ctx : OperatorContext S Gen) ops :
  fresh_node (sok:=sok) (sabs:=sabs) (ginv:=ginv) op ctx → not_periodic op →
  Forall (node_op_ok op) ops →
  let acc := accepted op (cx_watermark_generator ctx) ops in
  ∃ op' ctx' outs closes m',
    node_run make_batch op ctx ops = Some (op', ctx', outs) ∧
    ref_run make_batch op (cx_watermark_generator ctx) (mkRef ∅ (op_last_emitted op)) ops outs closes
      (cx_watermark_generator ctx') (mkRef m' (op_last_emitted op')) ∧
    (final_only (op_emit_strategy op) →
       rows (mjoin outs) = mjoin (map (closing_output make_batch (op_emit_strategy op)) closes)) ∧
    NoDup closes.*1 ∧ op_registered_windows op' = dom m' ∧
    (∀ w t xs, (w, (t, xs)) ∈ closes → xs = values_of w acc ∧ cleanup_time op w <= t) ∧
    (∀ w, w ∈ acc.*1 → w ∈ closes.*1 ∨ w ∈ op_registered_windows op') ∧
    (∀ w, w ∈ op_registered_windows op' →
       w ∉ closes.*1 ∧ get_accumulator op' w (cx_state ctx') = acc_of (values_of w acc)).
Proof.
  intros Hfresh Hnp Hops acc.
  assert (Hinv0 : node_inv (sok:=sok) (ginv:=ginv) op ctx ∅ ∅)
    by (by apply fresh_node_inv).
  destruct (node_run_spec (sok:=sok) (sabs:=sabs) (ginv:=ginv) make_batch advance_reaches ops
              op ctx ∅ ∅ Hinv0 Hops)
    as (op' & ctx' & outs & m' & D' & closes & Hrun & Hinv & _ & Href & Hnd & Hcl & Hopen & Hall & _).
  fold acc in Hcl, Hopen, Hall.
  destruct Hinv as ((_ & Hreg & Hget & Hclos) & _).
  exists op', ctx', outs, closes, m'.
  split_and!; [exact Hrun|exact Href|intros Hf; by eapply ref_run_final_rows|done|done| | |].
  - intros w t xs Hin. destruct (Hcl _ Hin) as (_ & _ & Hxs & Hle). simpl in *.
    by rewrite lookup_empty in Hxs.
  - intros w Hw. rewrite Hreg. destruct (Hall w); [by right|by right|by left].
  - intros w Hw. rewrite Hreg in Hw. destruct (proj1 (elem_of_dom m' w) Hw) as [xs Hxs].
    destruct (Hopen _ _ Hxs) as [_ Heq]. rewrite lookup_empty in Heq. simpl in Heq. split.
    + intros (c & -> & Hc)%list_elem_of_fmap. by destruct (Hcl _ Hc) as (_ & ? & _).
    + rewrite Hget by (by apply Hclos). rewrite Hxs. simpl. by rewrite Heq.
Qed.

(** A watermark closes exactly the due windows: in every state reached by
    a run, a watermark at [ts] emits the final results of exactly the registered
    windows whose end plus lateness is at most [ts], each once and in the order
    of that time, and leaves exactly the others registered. *)
Theorem tumbling_watermark_closes_due
    (advance_reaches : ∀ c g ts, ginv g → ts <= current_watermark (advance_watermark c g ts).1)
    (op : TumblingWindowOperator (Agg:=Agg) (B:=B)) (ctx : OperatorContext S Gen) ops clk ts
    op1 ctx1 out1 :
  fresh_node (sok:=sok) (sabs:=sabs) (ginv:=ginv) op ctx → not_periodic op →
  Forall (node_op_ok op) ops → node_run make_batch op ctx ops = Some (op1, ctx1, out1) →
  ∃ op2 ctx2 ws,
    node_watermark make_batch clk op1 ctx1 ts =
      Some (op2, ctx2, mjoin (map (λ w, final_output make_batch (op_emit_strategy op) ts w
        (values_of w (accepted op (cx_watermark_generator ctx) ops))) ws)) ∧
    NoDup ws ∧ StronglySorted (λ w w', cleanup_time op w <= cleanup_time op w') ws ∧
    (∀ w, w ∈ ws ↔ w ∈ op_registered_windows op1 ∧ cleanup_time op w <= ts) ∧
    (∀ w, w ∈ op_registered_windows op2 ↔ w ∈ op_registered_windows op1 ∧ ts < cleanup_time op w).
Proof.
  intros Hfresh Hnp Hops Hrun.
  assert (Hinv0 : node_inv (sok:=sok) (ginv:=ginv) op ctx ∅ ∅)
    by (by apply fresh_node_inv).
  destruct (node_run_spec (sok:=sok) (sabs:=sabs) (ginv:=ginv) make_batch advance_reaches ops
              op ctx ∅ ∅ Hinv0 Hops)
    as (op' & ctx' & outs & m' & D' & closes & Hrun' & Hinv & Hc & _ & _ & _ & Hopen & _).
  rewrite Hrun in Hrun'. injection Hrun' as <- <- _.
  destruct (conf_fields op op1 Hc) as (Hes & _ & Hcl).
  destruct (node_watermark_inv (sok:=sok) (sabs:=sabs) (ginv:=ginv) make_batch advance_reaches
              clk op1 ctx1 m' D' ts Hinv)
    as (op2 & ctx2 & ws & Hwm & Hinv2 & _ & _ & Hnd & Hws & Hso & _).
  destruct Hinv as ((_ & Hreg & _) & _). destruct Hinv2 as ((_ & Hreg2 & _) & _).
  exists op2, ctx2, ws. split_and!; [|done| | |].
  - rewrite Hwm, Hes. do 3 f_equal. apply map_ext_in. intros w Hw%list_elem_of_In.
    apply Hws in Hw as [[xs Hxs]%elem_of_dom _]. rewrite Hxs. simpl.
    apply Hopen in Hxs as [_ ->]. by rewrite lookup_empty.
  - clear -Hso Hcl. induction Hso as [|w l Hs IH Hall]; constructor; [done|].
    eapply Forall_impl; [exact Hall|]. intros w'. by rewrite !Hcl.
  - intros w. by rewrite Hws, Hreg, Hcl.
  - intros w. rewrite Hreg2, Hreg. unfold still_open. rewrite !elem_of_dom. split.
    + intros [xs Hx]. apply map_lookup_filter_Some in Hx as [Hx Hlt]. rewrite Hcl in Hlt. eauto.
    + intros [[xs Hx] Hlt]. exists xs. apply map_lookup_filter_Some. by rewrite Hcl.
Qed.

(** Windows that start before the epoch are never closed: the final timer
    of a window with a negative start is taken for a periodic timer, because the
    sign bit of the big-endian start is the marker bit. Firing it emits nothing,
    keeps the accumulated state and leaves the window registered, so no new timer
    is ever set for it. *)
Theorem tumbling_negative_window_not_closed
    (op : TumblingWindowOperator (Agg:=Agg) (B:=B)) (ctx : OperatorContext S Gen) w ts :
  window_ok w → w_start w < 0 → w_start w < w_end w <= w_start w + i64_MAX →
  w ∈ op_registered_windows op →
  (∀ w', w' ∈ op_registered_windows op → w_start w' < w_end w') →
  let '(op', ctx', out) := on_timer make_batch op (mkFired (WindowId_to_key w) ts) ctx in
  out = [] ∧ ctx' = ctx ∧ w ∈ op_registered_windows op'.
Proof.
  intros Hw Hneg Hlen Hreg Hwf. unfold on_timer. cbn [tm_key].
  rewrite (negative_key_periodic w Hw Hneg), (negative_key_decode w Hw Hneg).
  assert (Hno : mkWindowId (w_start w + 9223372036854775808) (w_end w) ∉ op_registered_windows op)
    by (intros Hin; specialize (Hwf _ Hin); simpl in Hwf; lia).
  destruct (EmitStrategy_suppresses_intermediate (op_emit_strategy op)); [done|].
  unfold handle_periodic_timer. by rewrite bool_decide_eq_true_2.
Qed.

(** At close the tumbling operator in [Changelog] mode inserts the final
    row without retracting the row it inserted for the last update (the sliding
    operator retracts it): closing a non-empty window emits a single record, an
    insert of weight 1, and drops the remembered row, so the window's records sum
    up to weight 2 in a downstream Z-set. *)
Theorem tumbling_changelog_close_keeps_old_row
    (op : TumblingWindowOperator (Agg:=Agg) (B:=B)) (ctx : OperatorContext S Gen) w ts old b :
  closable op w → op_emit_strategy op = Changelog → op_last_emitted op !! w = Some old →
  let acc := get_accumulator op w (cx_state ctx) in
  acc_is_empty acc = false → make_batch w (acc_result acc) = Some b →
  let '(op', _, out) := on_timer make_batch op (mkFired (WindowId_to_key w) ts) ctx in
  out = [OutChangelog (ChangelogRecord_insert (mkEvent (w_end w) b) (cx_processing_time ctx))] ∧
  op_last_emitted op' !! w = None.
Proof.
  intros Hcl Hes Hold acc Hne Hb. unfold on_timer. cbn [tm_key].
  destruct (final_timer_key op w Hcl) as [-> ->].
  unfold close_window, result_event. fold acc. rewrite Hne, Hb, Hes. simpl.
  split; [done|]. apply lookup_delete_eq.
Qed.

(** Windows restored from a checkpoint are never closed. Restoring what
    [checkpoint] saved gives back the registered windows, but the timers of the
    node are not part of the checkpoint; on a restarted node, whose timer service
    is empty, a restored window stays registered, hence without a timer and
    without a final result, over every run of events and watermarks. *)
Theorem tumbling_restored_windows_stranded
    (op op0 : TumblingWindowOperator (Agg:=Agg) (B:=B)) (ctx : OperatorContext S Gen)
    witer ops w op' ctx' out :
  (∀ s, witer s ≡ₚ elements s) → op_operator_id op0 = op_operator_id op → not_periodic op0 →
  timers (cx_timers ctx) = [] → w ∈ op_registered_windows op → window_ok w →
  let r := restore op0 (checkpoint witer op) in
  Forall (node_op_ok r.1) ops → node_run make_batch r.1 ctx ops = Some (op', ctx', out) →
  r.2 = inl tt ∧ op_registered_windows r.1 = op_registered_windows op ∧
  w ∈ op_registered_windows op' ∧
  Forall (λ t, t_key t ≠ Some (WindowId_to_key w)) (timers (cx_timers ctx')).
Proof.
  intros Hiter Hid Hnp Htm Hw Hwok r.
  assert (Hr : r = (op_set_windows (list_to_set (witer (op_registered_windows op)))
                      (list_to_set (witer (op_periodic_timer_windows op))) op0, inl tt)).
  { unfold r, restore, checkpoint. cbn [os_operator_id os_data].
    rewrite bool_decide_eq_false_2 by (rewrite Hid; naive_solver).
    destruct (archive_roundtrip (witer (op_registered_windows op), witer (op_periodic_timer_windows op)))
      as (bs & Hto & Hfrom). by rewrite Hto, Hfrom. }
  assert (Hset : ∀ s, list_to_set (witer s) = s)
    by (intros s; rewrite (Hiter s); apply list_to_set_elements_L).
  rewrite Hr. cbn [fst snd]. intros Hops Hrun.
  assert (Hst : stranded w op' ctx').
  { eapply (node_run_stranded make_batch w); [exact Hops| |exact Hrun].
    split_and!; [simpl; by rewrite Hset|rewrite Htm; constructor|done]. }
  destruct Hst as (Hin & Hnt & _). split_and!; [done|simpl; apply Hset|done|].
  eapply Forall_impl; [exact Hnt|]. intros t (w' & Hk & Hok & _ & Hne) Heq. apply Hne.
  apply to_key_inj; [done|done|]. apply (inj Some). by rewrite <- Hk.
Qed.
End Properties.

Definition count_batch (w : WindowId) (r : Z) : option Z := Some r.

Lemma bounded_advance_reaches c g ts :
  True → ts <= current_watermark (advance_watermark (G:=BoundedOutOfOrdernessGenerator) c g ts).1.
Proof. intros _. cbn. unfold Bounded_advance_watermark. case_match; simpl; lia. Qed.

Definition count_ops : list (node_op (B:=Z)) :=
  [NEvent clock0 0 (mkEvent 100 7); NEvent clock0 0 (mkEvent 1050 7); NEvent clock0 0 (mkEvent 999 7);
   NWatermark clock0 1000; NEvent clock0 0 (mkEvent 500 7); NWatermark clock0 2000].

Lemma tumbling_run_exactly_once_witness :
  ∃ op' ctx' outs (closes : list (WindowId * (Z * list unit))),
    node_run count_batch (count_op Changelog) count_ctx count_ops = Some (op', ctx', outs) ∧
    NoDup closes.*1 ∧ op_registered_windows op' = ∅.
Proof.
  destruct (tumbling_run_exactly_once (ginv:=λ _, True) count_batch bounded_advance_reaches
              (count_op Changelog) count_ctx count_ops)
    as (op' & ctx' & outs & closes & m' & H1 & _ & _ & H2 & _).
  - split_and!; reflexivity || exact I.
  - intros d. discriminate.
  - repeat constructor; vm_compute; discriminate.
  - exists op', ctx', outs, closes. split; [exact H1|]. split; [exact H2|].
    pose proof (f_equal (fmap (λ r, op_registered_windows r.1.1)) H1) as E. cbn in E.
    apply (inj Some). transitivity (Some (op_registered_windows op')); [reflexivity|].
    transitivity (Some (∅ : gset WindowId)); [|reflexivity]. rewrite <- E. vm_compute. reflexivity.
Defined.

(** What that run emits under three strategies: two events in the first window,
    one in the second; the event at 500 arrives after the first window was
    closed. The rest are the watermarks the generator emits. *)
Example count_run_output :
  (λ r, r.2) <$> node_run count_batch (count_op OnWatermark) count_ctx count_ops =
    Some [[OutWatermark 0]; [OutWatermark 950]; []; [OutEvent (mkEvent 1000 2)];
          [OutLateEvent (mkEvent 500 7)]; [OutEvent (mkEvent 2000 1)]].
Proof. vm_compute. reflexivity. Qed.
Example count_run_output_updates :
  (λ r, r.2) <$> node_run count_batch (count_op OnUpdate) count_ctx count_ops =
    Some [[OutWatermark 0; OutEvent (mkEvent 1000 1)];
          [OutWatermark 950; OutEvent (mkEvent 2000 1)]; [OutEvent (mkEvent 1000 2)];
          [OutEvent (mkEvent 1000 2)]; [OutLateEvent (mkEvent 500 7)]; [OutEvent (mkEvent 2000 1)]].
Proof. vm_compute. reflexivity. Qed.
Example count_run_output_final :
  (λ r, r.2) <$> node_run count_batch (count_op Final) count_ctx count_ops =
    Some [[OutWatermark 0]; [OutWatermark 950]; []; [OutEvent (mkEvent 1000 2)]; [];
          [OutEvent (mkEvent 2000 1)]].
Proof. vm_compute. reflexivity. Qed.

(** The node after the first three events of the run. *)
Definition count_mid : option (TumblingWindowOperator (Agg:=CountAggregator) (B:=Z) *
    OperatorContext InMemoryStore BoundedOutOfOrdernessGenerator * list (list (Output Z))) :=
  node_run count_batch (count_op OnWatermark) count_ctx (take 3 count_ops).

Lemma tumbling_watermark_closes_due_witness :
  ∃ op1 ctx1 out1 op2 ctx2 ws,
    count_mid = Some (op1, ctx1, out1) ∧
    node_watermark count_batch clock0 op1 ctx1 1000 =
      Some (op2, ctx2, mjoin (map (λ w, final_output count_batch OnWatermark 1000 w
        (values_of w (accepted (I:=unit) (count_op OnWatermark) (Bounded_new 100) (take 3 count_ops)))) ws)) ∧
    NoDup ws.
Proof.
  destruct count_mid as [[[op1 ctx1] out1]|] eqn:E; [|exfalso; vm_compute in E; discriminate].
  destruct (tumbling_watermark_closes_due (ginv:=λ _, True) count_batch bounded_advance_reaches
              (count_op OnWatermark) count_ctx (take 3 count_ops) clock0 1000 op1 ctx1 out1)
    as (op2 & ctx2 & ws & H1 & H2 & _).
  - split_and!; reflexivity || exact I.
  - intros d. discriminate.
  - repeat constructor; vm_compute; discriminate.
  - exact E.
  - exists op1, ctx1, out1, op2, ctx2, ws. split; [reflexivity|]. split; [exact H1|exact H2].
Defined.

(** A node holding one window that starts before the epoch. *)
Definition negative_window : WindowId := mkWindowId (-1000) 0.
Definition negative_op : TumblingWindowOperator (Agg:=CountAggregator) (B:=Z) :=
  (process (S:=InMemoryStore) count_batch clock0 (count_op OnWatermark) (mkEvent (-500) 7) count_ctx).1.1.

Lemma tumbling_negative_window_not_closed_witness :
  TumblingWindowAssigner_assign (op_assigner (count_op OnWatermark)) (-500) = negative_window ∧
  let '(op', ctx', out) :=
    on_timer count_batch negative_op (mkFired (WindowId_to_key negative_window) 0) count_ctx in
  out = [] ∧ ctx' = count_ctx ∧ negative_window ∈ op_registered_windows op'.
Proof.
  split; [reflexivity|].
  refine (tumbling_negative_window_not_closed count_batch negative_op count_ctx negative_window 0
            _ _ _ _ _).
  - vm_compute. repeat split; discriminate.
  - reflexivity.
  - split; vm_compute; [reflexivity|discriminate].
  - refine (bool_decide_unpack _ _). vm_compute. exact I.
  - intros w' Hw'. assert (Hall : Forall (λ w, w_start w < w_end w) (elements (op_registered_windows negative_op))).
    { vm_compute. repeat constructor. }
    exact (proj1 (Forall_forall _ _) Hall w' (proj2 (elem_of_elements _ _) Hw')).
Defined.

Definition changelog_node :
    TumblingWindowOperator (Agg:=CountAggregator) (B:=Z) *
    OperatorContext InMemoryStore BoundedOutOfOrdernessGenerator * list (Output Z) :=
  process count_batch clock0 (count_op Changelog) (mkEvent 100 7) count_ctx.

Lemma tumbling_changelog_close_keeps_old_row_witness :
  changelog_node.2 = [OutWatermark 0; OutChangelog (ChangelogRecord_insert (mkEvent 1000 1) 0)] ∧
  let w := mkWindowId 0 1000 in
  let '(op', _, out) := on_timer count_batch changelog_node.1.1
        (mkFired (WindowId_to_key w) 1000) changelog_node.1.2 in
  out = [OutChangelog (ChangelogRecord_insert (mkEvent (w_end w) 1)
                         (cx_processing_time changelog_node.1.2))] ∧
  op_last_emitted op' !! w = None.
Proof.
  split; [vm_compute; reflexivity|]. intros w.
  apply (tumbling_changelog_close_keeps_old_row count_batch changelog_node.1.1 changelog_node.1.2
            w 1000 (mkEvent 1000 1) 1).
  - vm_compute. repeat split; discriminate.
  - vm_compute. reflexivity.
  - vm_compute. reflexivity.
  - vm_compute. reflexivity.
  - vm_compute. reflexivity.
Defined.

(** An operator that was checkpointed with one open window. *)
Definition saved_op : TumblingWindowOperator (Agg:=CountAggregator) (B:=Z) :=
  op_set_windows {[mkWindowId 0 1000]} ∅ (count_op OnWatermark).
Definition restored_op : TumblingWindowOperator (Agg:=CountAggregator) (B:=Z) :=
  (restore (count_op OnWatermark) (checkpoint elements saved_op)).1.

Lemma tumbling_restored_windows_stranded_witness :
  ∃ op' ctx' out,
    node_run count_batch restored_op count_ctx
      [NEvent clock0 0 (mkEvent 100 7); NWatermark clock0 5000] = Some (op', ctx', out) ∧
    mkWindowId 0 1000 ∈ op_registered_windows op'.
Proof.
  destruct (node_run count_batch restored_op count_ctx
      [NEvent clock0 0 (mkEvent 100 7); NWatermark clock0 5000]) as [[[op' ctx'] out]|] eqn:E;
    [|exfalso; vm_compute in E; discriminate].
  exists op', ctx', out. split; [reflexivity|].
  refine (proj1 (proj2 (proj2 (tumbling_restored_windows_stranded count_batch saved_op
            (count_op OnWatermark) count_ctx elements
            [NEvent clock0 0 (mkEvent 100 7); NWatermark clock0 5000] (mkWindowId 0 1000)
            op' ctx' out _ _ _ _ _ _ _ E)))).
  - intros s. reflexivity.
  - reflexivity.
  - intros d. discriminate.
  - reflexivity.
  - refine (bool_decide_unpack _ _). vm_compute. exact I.
  - vm_compute. repeat split; discriminate.
  - repeat constructor; vm_compute; discriminate.
Defined.
