(* ===== verification/Retraction.v ===== *)
(** * Retractions

    operator/changelog.rs: accumulators that can take a value back, the generator of
    retractions for late data, and the envelope of change events. (The buffers of
    changelog references are in [ChangelogBuffers].)

    The trait [RetractableAccumulator] is the record [Retractable] of its operations,
    with [RetractableLaws] as what a user may rely on. A [BTreeMap] is a [gmap] whose
    first and last key are the least and the greatest; the four FIRST/LAST structs
    have the same two fields and are [TimedValues]. [usize] counts are natural
    numbers. The JSON of an envelope is serde's and not modelled. *)

From S2P Require Import Prelude RustFloat WindowCore.

(** ** The trait *)

Record Retractable (A I O : Type) := mkRetractable {
  ra_default : A;
  ra_add : A → I → A;
  ra_retract : A → I → A;
  ra_merge : A → A → A;
  ra_result : A → O;
  ra_is_empty : A → bool;
  ra_supports_efficient_retraction : A → bool;
  ra_reset : A → A }.
Arguments mkRetractable {A I O}.
Arguments ra_default {A I O}.
Arguments ra_add {A I O}.
Arguments ra_retract {A I O}.
Arguments ra_merge {A I O}.
Arguments ra_result {A I O}.
Arguments ra_is_empty {A I O}.
Arguments ra_supports_efficient_retraction {A I O}.
Arguments ra_reset {A I O}.

(** [holds a l]: the accumulator stands for the values [l], in any order. Results are
    those [allowed] for the values. *)
Record RetractableLaws {A I O} (R : Retractable A I O) (holds : A → list I → Prop)
    (allowed : list I → O → Prop) : Prop := {
  rl_perm a l l' : l ≡ₚ l' → holds a l → holds a l';
  rl_default : holds (ra_default R) [];
  rl_add a l x : holds a l → holds (ra_add R a x) (x :: l);
  rl_retract a l x : holds a (x :: l) → holds (ra_retract R a x) l;
  rl_merge a b l k : holds a l → holds b k → holds (ra_merge R a b) (l ++ k);
  rl_result a l : holds a l → allowed l (ra_result R a);
  rl_empty a l : holds a l → zlen l < i64_MAX → ra_is_empty R a = bool_decide (l = []);
  rl_reset a : holds (ra_reset R a) [] }.

(** ** COUNT, SUM, AVG *)

Record RetractableCountAccumulator := mkRCount { rc_count : Z }.
Definition RetractableCount : Retractable RetractableCountAccumulator unit Z := {|
  ra_default := mkRCount 0;
  ra_add a _ := mkRCount (i64_add (rc_count a) 1);
  ra_retract a _ := mkRCount (i64_sub (rc_count a) 1);
  ra_merge a b := mkRCount (i64_add (rc_count a) (rc_count b));
  ra_result := rc_count;
  ra_is_empty a := rc_count a =? 0;
  ra_supports_efficient_retraction _ := true;
  ra_reset _ := mkRCount 0 |}.

(** The sum and the average accumulator have the same fields. *)
Record RetractableSumAccumulator := mkRSum { rs_sum : Z; rs_count : Z }.
Definition RetractableSum_add (a : RetractableSumAccumulator) (value : Z) : RetractableSumAccumulator :=
  mkRSum (i64_add (rs_sum a) value) (i64_add (rs_count a) 1).
Definition RetractableSum_retract (a : RetractableSumAccumulator) (value : Z) : RetractableSumAccumulator :=
  mkRSum (i64_sub (rs_sum a) value) (i64_sub (rs_count a) 1).
Definition RetractableSum_merge (a b : RetractableSumAccumulator) : RetractableSumAccumulator :=
  mkRSum (i64_add (rs_sum a) (rs_sum b)) (i64_add (rs_count a) (rs_count b)).
Definition RetractableSum : Retractable RetractableSumAccumulator Z Z := {|
  ra_default := mkRSum 0 0;
  ra_add := RetractableSum_add;
  ra_retract := RetractableSum_retract;
  ra_merge := RetractableSum_merge;
  ra_result := rs_sum;
  ra_is_empty a := rs_count a =? 0;
  ra_supports_efficient_retraction _ := true;
  ra_reset _ := mkRSum 0 0 |}.

Definition RetractableAvg_result (a : RetractableSumAccumulator) : option SpecFloat.spec_float :=
  if 0 <? rs_count a then Some (f64_div (f64_of_int (rs_sum a)) (f64_of_int (rs_count a))) else None.
Definition RetractableAvg : Retractable RetractableSumAccumulator Z (option SpecFloat.spec_float) := {|
  ra_default := mkRSum 0 0;
  ra_add := RetractableSum_add;
  ra_retract := RetractableSum_retract;
  ra_merge := RetractableSum_merge;
  ra_result := RetractableAvg_result;
  ra_is_empty a := rs_count a =? 0;
  ra_supports_efficient_retraction _ := true;
  ra_reset _ := mkRSum 0 0 |}.

(** ** MIN, MAX *)

(** The keys of a [BTreeMap] from either end. *)
Definition first_key {A} (m : gmap Z A) : option Z := list_min (map_to_list m).*1.
Definition last_key {A} (m : gmap Z A) : option Z := list_max (map_to_list m).*1.

(** The occurrences of each value, in both structs. *)
Definition counts_add (counts : gmap Z nat) (value : Z) : gmap Z nat :=
  <[value := (default 0 (counts !! value) + 1)%nat]> counts.
Definition counts_retract (counts : gmap Z nat) (value : Z) : gmap Z nat :=
  match counts !! value with
  | Some count => if decide (count - 1 = 0)%nat then delete value counts else <[value := (count - 1)%nat]> counts
  | None => counts
  end.
Definition counts_merge (counts other : gmap Z nat) : gmap Z nat :=
  foldl (λ m vc, <[vc.1 := (default 0 (m !! vc.1) + vc.2)%nat]> m) counts (map_to_list other).

Definition RetractableMin : Retractable (gmap Z nat) Z (option Z) := {|
  ra_default := ∅;
  ra_add := counts_add;
  ra_retract := counts_retract;
  ra_merge := counts_merge;
  ra_result := first_key;
  ra_is_empty m := bool_decide (m = ∅);
  ra_supports_efficient_retraction _ := true;
  ra_reset _ := ∅ |}.
Definition RetractableMax : Retractable (gmap Z nat) Z (option Z) := {|
  ra_default := ∅;
  ra_add := counts_add;
  ra_retract := counts_retract;
  ra_merge := counts_merge;
  ra_result := last_key;
  ra_is_empty m := bool_decide (m = ∅);
  ra_supports_efficient_retraction _ := true;
  ra_reset _ := ∅ |}.

(** ** FIRST_VALUE, LAST_VALUE *)

Record TimedValues := mkTimed {
  tv_entries : gmap Z (list Z);
  tv_total_count : nat }.

Definition timed_add (a : TimedValues) (tv : Z * Z) : TimedValues :=
  mkTimed (<[tv.1 := default [] (tv_entries a !! tv.1) ++ [tv.2]]> (tv_entries a)) (tv_total_count a + 1).
Definition timed_retract (a : TimedValues) (tv : Z * Z) : TimedValues :=
  match tv_entries a !! tv.1 with
  | None => a
  | Some values =>
      match list_find (λ v, v = tv.2) values with
      | None => a
      | Some (pos, _) =>
          let values := swap_remove pos values in
          mkTimed (if decide (values = []) then delete tv.1 (tv_entries a) else <[tv.1 := values]> (tv_entries a))
            (tv_total_count a - 1)
      end
  end.
Definition timed_merge (a other : TimedValues) : TimedValues :=
  mkTimed (foldl (λ m tvs, <[tvs.1 := default [] (m !! tvs.1) ++ tvs.2]> m) (tv_entries a)
             (map_to_list (tv_entries other)))
    (tv_total_count a + tv_total_count other).

(** [entries.values().next()] and [next_back()]. *)
Definition first_value (a : TimedValues) : option Z := t ← first_key (tv_entries a); values ← tv_entries a !! t; head values.
Definition last_value (a : TimedValues) : option Z := t ← last_key (tv_entries a); values ← tv_entries a !! t; last values.
Definition timed_is_empty (a : TimedValues) : bool := bool_decide (tv_total_count a = 0%nat).

Definition RetractableFirstValue : Retractable TimedValues (Z * Z) (option Z) := {|
  ra_default := mkTimed ∅ 0;
  ra_add := timed_add;
  ra_retract := timed_retract;
  ra_merge := timed_merge;
  ra_result := first_value;
  ra_is_empty := timed_is_empty;
  ra_supports_efficient_retraction _ := true;
  ra_reset _ := mkTimed ∅ 0 |}.
Definition RetractableLastValue : Retractable TimedValues (Z * Z) (option Z) := {|
  ra_default := mkTimed ∅ 0;
  ra_add := timed_add;
  ra_retract := timed_retract;
  ra_merge := timed_merge;
  ra_result := last_value;
  ra_is_empty := timed_is_empty;
  ra_supports_efficient_retraction _ := true;
  ra_reset _ := mkTimed ∅ 0 |}.

(** The [f64] variants store the bits of a value as [i64]. *)
Definition value_bits (tv : Z * Z) : Z * Z := (tv.1, wrap_i64 tv.2).
Definition RetractableFirstValueF64 : Retractable TimedValues (Z * Z) (option Z) := {|
  ra_default := mkTimed ∅ 0;
  ra_add a tv := timed_add a (value_bits tv);
  ra_retract a tv := timed_retract a (value_bits tv);
  ra_merge := timed_merge;
  ra_result := first_value;
  ra_is_empty := timed_is_empty;
  ra_supports_efficient_retraction _ := true;
  ra_reset _ := mkTimed ∅ 0 |}.
Definition RetractableLastValueF64 : Retractable TimedValues (Z * Z) (option Z) := {|
  ra_default := mkTimed ∅ 0;
  ra_add a tv := timed_add a (value_bits tv);
  ra_retract a tv := timed_retract a (value_bits tv);
  ra_merge := timed_merge;
  ra_result := last_value;
  ra_is_empty := timed_is_empty;
  ra_supports_efficient_retraction _ := true;
  ra_reset _ := mkTimed ∅ 0 |}.
Definition first_result_f64 (a : TimedValues) : option Z := wrap_u64 <$> first_value a.
Definition last_result_f64 (a : TimedValues) : option Z := wrap_u64 <$> last_value a.

(** ** Retractions for late data *)

Record EmittedResult := mkEmitted {
  er_data : list Z;
  er_emit_time : Z;
  er_version : Z }.

Record LateDataRetractionGenerator := mkGenerator {
  rg_emitted_results : gmap WindowId EmittedResult;
  rg_enabled : bool;
  rg_retractions_generated : Z;
  rg_windows_tracked : Z }.

Definition LateDataRetractionGenerator_new (enabled : bool) : LateDataRetractionGenerator := mkGenerator ∅ enabled 0 0.
Definition generator_disabled : LateDataRetractionGenerator := LateDataRetractionGenerator_new false.
Definition generator_is_enabled (g : LateDataRetractionGenerator) : bool := rg_enabled g.
Definition generator_set_enabled (enabled : bool) (g : LateDataRetractionGenerator) : LateDataRetractionGenerator :=
  mkGenerator (rg_emitted_results g) enabled (rg_retractions_generated g) (rg_windows_tracked g).

(** [u32] addition. *)
Definition u32_add (a b : Z) : Z := (a + b) mod 4294967296.

Definition check_retraction (window_id : WindowId) (new_data : list Z) (timestamp : Z)
    (g : LateDataRetractionGenerator) : LateDataRetractionGenerator * option (list Z * list Z) :=
  if negb (rg_enabled g) then (g, None) else
  match rg_emitted_results g !! window_id with
  | Some prev =>
      if decide (er_data prev = new_data) then (g, None)
      else (mkGenerator (<[window_id := mkEmitted new_data timestamp (u32_add (er_version prev) 1)]> (rg_emitted_results g))
              (rg_enabled g) (wrap_u64 (rg_retractions_generated g + 1)) (rg_windows_tracked g),
            Some (er_data prev, new_data))
  | None =>
      (mkGenerator (<[window_id := mkEmitted new_data timestamp 1]> (rg_emitted_results g)) (rg_enabled g)
         (rg_retractions_generated g) (wrap_u64 (rg_windows_tracked g + 1)), None)
  end.

Definition check_retraction_ref (window_id : WindowId) (new_data : list Z) (timestamp : Z)
    (g : LateDataRetractionGenerator) : LateDataRetractionGenerator * option (list Z) :=
  if negb (rg_enabled g) then (g, None) else
  match rg_emitted_results g !! window_id with
  | Some prev =>
      if decide (er_data prev = new_data) then (g, None)
      else (mkGenerator (<[window_id := mkEmitted new_data timestamp (u32_add (er_version prev) 1)]> (rg_emitted_results g))
              (rg_enabled g) (wrap_u64 (rg_retractions_generated g + 1)) (rg_windows_tracked g), Some (er_data prev))
  | None =>
      (mkGenerator (<[window_id := mkEmitted new_data timestamp 1]> (rg_emitted_results g)) (rg_enabled g)
         (rg_retractions_generated g) (wrap_u64 (rg_windows_tracked g + 1)), None)
  end.

Definition cleanup_window (window_id : WindowId) (g : LateDataRetractionGenerator) : LateDataRetractionGenerator :=
  mkGenerator (delete window_id (rg_emitted_results g)) (rg_enabled g) (rg_retractions_generated g) (rg_windows_tracked g).
Definition cleanup_before_watermark (watermark : Z) (g : LateDataRetractionGenerator) : LateDataRetractionGenerator :=
  mkGenerator (filter (λ we, watermark < w_end we.1) (rg_emitted_results g)) (rg_enabled g)
    (rg_retractions_generated g) (rg_windows_tracked g).
Definition generator_retractions_generated (g : LateDataRetractionGenerator) : Z := rg_retractions_generated g.
Definition generator_windows_tracked (g : LateDataRetractionGenerator) : nat := size (rg_emitted_results g).
Definition generator_reset_metrics (g : LateDataRetractionGenerator) : LateDataRetractionGenerator :=
  mkGenerator (rg_emitted_results g) (rg_enabled g) 0 0.
Definition generator_clear (g : LateDataRetractionGenerator) : LateDataRetractionGenerator :=
  generator_reset_metrics (mkGenerator ∅ (rg_enabled g) (rg_retractions_generated g) (rg_windows_tracked g)).

(** ** The envelope of a change *)

Record CdcSource := mkCdcSource {
  cs_name : string;
  cs_db : string;
  cs_table : string;
  cs_sequence : Z }.
Definition CdcSource_new (name db table : string) : CdcSource := mkCdcSource name db table 0.
Definition CdcSource_with_sequence (name db table : string) (sequence : Z) : CdcSource := mkCdcSource name db table sequence.
Definition next_sequence (s : CdcSource) : CdcSource * Z :=
  let sequence := wrap_u64 (cs_sequence s + 1) in
  (mkCdcSource (cs_name s) (cs_db s) (cs_table s) sequence, sequence).

Record CdcEnvelope {T : Type} := mkEnvelope {
  ce_op : string;
  ce_ts_ms : Z;
  ce_source : CdcSource;
  ce_before : option T;
  ce_after : option T }.
Arguments CdcEnvelope : clear implicits.
Arguments mkEnvelope {T}.

Section Envelope.
Context {T : Type}.

Definition CdcEnvelope_insert (after : T) (source : CdcSource) (ts_ms : Z) : CdcEnvelope T :=
  mkEnvelope "c" ts_ms source None (Some after).
Definition CdcEnvelope_delete (before : T) (source : CdcSource) (ts_ms : Z) : CdcEnvelope T :=
  mkEnvelope "d" ts_ms source (Some before) None.
Definition CdcEnvelope_update (before after : T) (source : CdcSource) (ts_ms : Z) : CdcEnvelope T :=
  mkEnvelope "u" ts_ms source (Some before) (Some after).
Definition CdcEnvelope_read (after : T) (source : CdcSource) (ts_ms : Z) : CdcEnvelope T :=
  mkEnvelope "r" ts_ms source None (Some after).

Definition CdcEnvelope_is_insert (e : CdcEnvelope T) : bool := bool_decide (ce_op e = "c").
Definition CdcEnvelope_is_delete (e : CdcEnvelope T) : bool := bool_decide (ce_op e = "d").
Definition CdcEnvelope_is_update (e : CdcEnvelope T) : bool := bool_decide (ce_op e = "u").
Definition CdcEnvelope_weight (e : CdcEnvelope T) : Z :=
  if bool_decide (ce_op e = "c") || bool_decide (ce_op e = "r") then 1
  else if bool_decide (ce_op e = "d") then -1 else 0.
End Envelope.

(** ** Laws *)

Fixpoint sum_Z (l : list Z) : Z := match l with [] => 0 | x :: l => x + sum_Z l end.
Lemma sum_Z_app l k : sum_Z (l ++ k) = sum_Z l + sum_Z k.
Proof. induction l as [|x l IH]; cbn; lia. Qed.
Lemma sum_Z_perm l k : l ≡ₚ k → sum_Z l = sum_Z k.
Proof. induction 1; cbn; lia. Qed.

Lemma wrap_i64_sub_l a b : wrap_i64 (wrap_i64 a - b) = wrap_i64 (a - b).
Proof. rewrite <- !Z.add_opp_r. apply wrap_i64_add_l. Qed.
Lemma i64_add_wrap a b : i64_add (wrap_i64 a) (wrap_i64 b) = wrap_i64 (a + b).
Proof. unfold i64_add. by rewrite wrap_i64_add_l, wrap_i64_add_r. Qed.

Lemma wrap_count_zero {A} (l : list A) : zlen l < i64_MAX → (wrap_i64 (zlen l) =? 0) = bool_decide (l = []).
Proof.
  intros Hl. rewrite wrap_i64_small by (unfold is_i64; lia). destruct l as [|x l]; [done|].
  rewrite bool_decide_eq_false_2 by done. apply Z.eqb_neq. cbn [length]. lia.
Qed.

Lemma count_laws : RetractableLaws RetractableCount (λ a l, rc_count a = wrap_i64 (zlen l)) (λ l o, o = wrap_i64 (zlen l)).
Proof.
  split; cbn [RetractableCount ra_default ra_add ra_retract ra_merge ra_result ra_is_empty ra_reset rc_count]; try done.
  - intros a l l' Hp ->. by rewrite Hp.
  - intros a l [] ->. unfold i64_add. rewrite wrap_i64_add_l. f_equal. cbn [length]. lia.
  - intros a l [] ->. unfold i64_sub. rewrite wrap_i64_sub_l. f_equal. cbn [length]. lia.
  - intros a b l k -> ->. rewrite i64_add_wrap, length_app. f_equal. lia.
  - intros a l -> Hl. by apply wrap_count_zero.
Qed.

Definition sum_holds (a : RetractableSumAccumulator) (l : list Z) : Prop :=
  a = mkRSum (wrap_i64 (sum_Z l)) (wrap_i64 (zlen l)).

Lemma sum_holds_perm a l l' : l ≡ₚ l' → sum_holds a l → sum_holds a l'.
Proof. intros Hp ->. unfold sum_holds. by rewrite (sum_Z_perm _ _ Hp), Hp. Qed.
Lemma sum_holds_add a l x : sum_holds a l → sum_holds (RetractableSum_add a x) (x :: l).
Proof.
  intros ->. unfold sum_holds, RetractableSum_add, i64_add. cbn. rewrite !wrap_i64_add_l. do 2 f_equal; lia.
Qed.
Lemma sum_holds_retract a l x : sum_holds a (x :: l) → sum_holds (RetractableSum_retract a x) l.
Proof.
  intros ->. unfold sum_holds, RetractableSum_retract, i64_sub. cbn. rewrite !wrap_i64_sub_l. do 2 f_equal; lia.
Qed.
Lemma sum_holds_merge a b l k : sum_holds a l → sum_holds b k → sum_holds (RetractableSum_merge a b) (l ++ k).
Proof.
  intros -> ->. unfold sum_holds, RetractableSum_merge. cbn. rewrite !i64_add_wrap, sum_Z_app, length_app. do 2 f_equal. lia.
Qed.

Lemma sum_laws : RetractableLaws RetractableSum sum_holds (λ l o, o = wrap_i64 (sum_Z l)).
Proof.
  split; cbn [RetractableSum ra_default ra_add ra_retract ra_merge ra_result ra_is_empty ra_reset]; try done.
  - apply sum_holds_perm.
  - apply sum_holds_add.
  - apply sum_holds_retract.
  - apply sum_holds_merge.
  - by intros a l ->.
  - intros a l -> Hl. by apply wrap_count_zero.
Qed.

(** The average of the values, when they are fewer than [i64] counts. *)
Definition average (l : list Z) : option SpecFloat.spec_float :=
  match l with [] => None | _ => Some (f64_div (f64_of_int (wrap_i64 (sum_Z l))) (f64_of_int (zlen l))) end.

Lemma avg_laws : RetractableLaws RetractableAvg sum_holds (λ l o, zlen l < i64_MAX → o = average l).
Proof.
  split; cbn [RetractableAvg ra_default ra_add ra_retract ra_merge ra_result ra_is_empty ra_reset]; try done.
  - apply sum_holds_perm.
  - apply sum_holds_add.
  - apply sum_holds_retract.
  - apply sum_holds_merge.
  - intros a l -> Hl. unfold RetractableAvg_result, average. cbn [rs_sum rs_count].
    rewrite (wrap_i64_small (zlen l)) by (unfold is_i64; lia). destruct l as [|x l]; [done|].
    rewrite (proj2 (Z.ltb_lt _ _)) by (cbn [length]; lia). done.
  - intros a l -> Hl. by apply wrap_count_zero.
Qed.

(** *** Extremes *)

Definition occurrences (v : Z) (l : list Z) : nat := length (filter (λ x, x = v) l).
Lemma occurrences_cons v x l : occurrences v (x :: l) = ((if decide (x = v) then 1 else 0) + occurrences v l)%nat.
Proof. unfold occurrences. rewrite filter_cons. by case_decide. Qed.
Lemma occurrences_pos v l : (0 < occurrences v l)%nat ↔ v ∈ l.
Proof.
  induction l as [|x l IH]; [split; [cbn; lia|by intros ?%elem_of_nil]|].
  rewrite occurrences_cons, elem_of_cons. case_decide; [split; [by left|lia]|]. rewrite <- IH. split; [by right|].
  intros [->|?]; [done|lia].
Qed.
Lemma occurrences_perm v l k : l ≡ₚ k → occurrences v l = occurrences v k.
Proof. intros Hp. unfold occurrences. by rewrite Hp. Qed.

Definition counts_holds (m : gmap Z nat) (l : list Z) : Prop :=
  ∀ v, m !! v = if decide (occurrences v l = 0%nat) then None else Some (occurrences v l).

Lemma counts_default m l v : counts_holds m l → default 0%nat (m !! v) = occurrences v l.
Proof. intros ->. by case_decide. Qed.

Lemma counts_holds_add m l x : counts_holds m l → counts_holds (counts_add m x) (x :: l).
Proof.
  intros Hm v. unfold counts_add. rewrite (counts_default m l x Hm), occurrences_cons.
  destruct (decide (x = v)) as [->|Hne].
  - rewrite lookup_insert_eq, decide_False by lia. f_equal. lia.
  - by rewrite lookup_insert_ne, Hm.
Qed.
Lemma counts_holds_retract m l x : counts_holds m (x :: l) → counts_holds (counts_retract m x) l.
Proof.
  intros Hm v. unfold counts_retract. rewrite (Hm x), occurrences_cons, (decide_True (P := x = x)) by done.
  rewrite decide_False by lia. cbv beta iota. replace (1 + occurrences x l - 1)%nat with (occurrences x l) by lia.
  specialize (Hm v). rewrite occurrences_cons in Hm. destruct (decide (x = v)) as [->|Hne].
  - repeat case_decide; try done; [by rewrite lookup_delete_eq|by rewrite lookup_insert_eq].
  - destruct (decide (occurrences x l = 0%nat)); [by rewrite lookup_delete_ne, Hm|by rewrite lookup_insert_ne, Hm].
Qed.

(** Merging adds the counts of the other map, key by key. *)
Lemma merge_lookup (l : list (Z * nat)) : NoDup l.*1 → ∀ m v,
  default 0%nat (foldl (λ (m : gmap Z nat) vc, <[vc.1 := (default 0 (m !! vc.1) + vc.2)%nat]> m) m l !! v)
  = (default 0 (m !! v) + default 0 ((list_to_map l : gmap Z nat) !! v))%nat.
Proof.
  induction l as [|[k c] l IH]; intros Hnd m v; cbn [foldl fst snd]; [change (list_to_map [] !! v) with (@None nat); cbn; lia|].
  apply NoDup_cons in Hnd as [Hk Hnd]. rewrite IH, list_to_map_cons by done. destruct (decide (k = v)) as [->|Hne].
  - rewrite !lookup_insert_eq, (not_elem_of_list_to_map_1 _ _ Hk). cbn. lia.
  - by rewrite !lookup_insert_ne.
Qed.
Lemma merge_no_zero (l : list (Z * nat)) : Forall (λ vc, vc.2 ≠ 0%nat) l → ∀ m : gmap Z nat, (∀ v, m !! v ≠ Some 0%nat) →
  ∀ v, foldl (λ (m : gmap Z nat) vc, <[vc.1 := (default 0 (m !! vc.1) + vc.2)%nat]> m) m l !! v ≠ Some 0%nat.
Proof.
  induction 1 as [|[k c] l Hc _ IH]; intros m Hm v; cbn [foldl fst snd]; [done|]. apply IH. intros w.
  destruct (decide (k = w)) as [->|Hne]; [rewrite lookup_insert_eq; cbn in Hc; intros [= ?]; lia|by rewrite lookup_insert_ne].
Qed.

Lemma counts_holds_intro m l : (∀ v, default 0%nat (m !! v) = occurrences v l) → (∀ v, m !! v ≠ Some 0%nat) → counts_holds m l.
Proof.
  intros Hd Hz v. specialize (Hd v). specialize (Hz v). rewrite <- Hd. destruct (m !! v) as [n|]; cbn; [|done].
  rewrite decide_False; [done|]. congruence.
Qed.
Lemma counts_no_zero m l v : counts_holds m l → m !! v ≠ Some 0%nat.
Proof. intros ->. case_decide; congruence. Qed.

Lemma counts_holds_merge m m' l k : counts_holds m l → counts_holds m' k → counts_holds (counts_merge m m') (l ++ k).
Proof.
  intros Hm Hm'. unfold counts_merge. apply counts_holds_intro.
  - intros v. rewrite merge_lookup by apply NoDup_fst_map_to_list. rewrite list_to_map_to_list.
    rewrite (counts_default _ _ _ Hm), (counts_default _ _ _ Hm'). unfold occurrences. by rewrite filter_app, length_app.
  - apply merge_no_zero; [|intros v; by eapply counts_no_zero]. apply Forall_forall. intros [v c] Hv.
    apply elem_of_map_to_list in Hv. intros Hc. cbn in Hc. subst c. by apply (counts_no_zero _ _ v Hm').
Qed.

Lemma counts_keys m l v : counts_holds m l → v ∈ (map_to_list m).*1 ↔ v ∈ l.
Proof.
  intros Hm. rewrite <- (occurrences_pos v l), <- (counts_default m l v Hm), list_elem_of_fmap. split.
  - intros ([v' n] & -> & Hin). apply elem_of_map_to_list in Hin. cbn [fst]. rewrite Hin. cbn.
    destruct n; [by apply (counts_no_zero _ _ v' Hm) in Hin|lia].
  - destruct (m !! v) as [n|] eqn:E; cbn; [|lia]. intros _. exists (v, n). split; [done|]. by apply elem_of_map_to_list.
Qed.

Lemma list_min_same l k : (∀ x, x ∈ l ↔ x ∈ k) → list_min l = list_min k.
Proof.
  intros H. destruct (list_min l) as [m|] eqn:E.
  - apply list_min_Some in E as [Hin Hle]. symmetry. apply list_min_Some. split; [by apply H|]. intros x Hx. by apply Hle, H.
  - apply list_min_None in E as ->. symmetry. apply list_min_None. destruct k as [|y k]; [done|].
    exfalso. eapply (not_elem_of_nil y), H. left.
Qed.
Lemma list_max_same l k : (∀ x, x ∈ l ↔ x ∈ k) → list_max l = list_max k.
Proof.
  intros H. destruct (list_max l) as [m|] eqn:E.
  - apply list_max_Some in E as [Hin Hle]. symmetry. apply list_max_Some. split; [by apply H|]. intros x Hx. by apply Hle, H.
  - apply list_max_None in E as ->. symmetry. apply list_max_None. destruct k as [|y k]; [done|].
    exfalso. eapply (not_elem_of_nil y), H. left.
Qed.

Lemma counts_empty m l : counts_holds m l → bool_decide (m = ∅) = bool_decide (l = []).
Proof.
  intros Hm. apply bool_decide_ext. split.
  - intros ->. destruct l as [|x l]; [done|]. specialize (Hm x). rewrite lookup_empty, occurrences_cons, decide_False in Hm; [done|].
    rewrite decide_True by done. lia.
  - intros ->. apply map_eq. intros v. by rewrite Hm, lookup_empty.
Qed.

Lemma min_laws : RetractableLaws RetractableMin counts_holds (λ l o, o = list_min l).
Proof.
  split; cbn [RetractableMin ra_default ra_add ra_retract ra_merge ra_result ra_is_empty ra_reset].
  - intros a l l' Hp Ha v. by rewrite Ha, (occurrences_perm v _ _ Hp).
  - intros v. by rewrite lookup_empty.
  - apply counts_holds_add.
  - apply counts_holds_retract.
  - apply counts_holds_merge.
  - intros a l Ha. unfold first_key. apply list_min_same. intros v. by apply counts_keys.
  - intros a l Ha _. by apply counts_empty.
  - intros a v. by rewrite lookup_empty.
Qed.

Lemma max_laws : RetractableLaws RetractableMax counts_holds (λ l o, o = list_max l).
Proof.
  destruct min_laws as [H1 H2 H3 H4 H5 H6 H7 H8]. split; try done.
  intros a l Ha. cbn. unfold last_key. apply list_max_same. intros v. by apply counts_keys.
Qed.

(** *** First and last values *)

Definition values_at (t : Z) (l : list (Z * Z)) : list Z := (filter (λ p, p.1 = t) l).*2.
Lemma values_at_cons t p l : values_at t (p :: l) = (if decide (p.1 = t) then [p.2] else []) ++ values_at t l.
Proof. unfold values_at. rewrite filter_cons. by case_decide. Qed.
Lemma values_at_app t l k : values_at t (l ++ k) = values_at t l ++ values_at t k.
Proof. unfold values_at. by rewrite filter_app, fmap_app. Qed.
Lemma values_at_perm t l k : l ≡ₚ k → values_at t l ≡ₚ values_at t k.
Proof. intros Hp. unfold values_at. by rewrite Hp. Qed.
Lemma elem_of_values_at t v l : v ∈ values_at t l ↔ (t, v) ∈ l.
Proof.
  unfold values_at. rewrite list_elem_of_fmap. split.
  - intros ([t' v'] & -> & [Ht Hin]%list_elem_of_filter). cbn in Ht. by subst.
  - intros Hin. exists (t, v). split; [done|]. by apply list_elem_of_filter.
Qed.

Record timed_holds (a : TimedValues) (l : list (Z * Z)) : Prop := {
  th_values t : default [] (tv_entries a !! t) ≡ₚ values_at t l;
  th_nonempty t : tv_entries a !! t ≠ Some [];
  th_count : tv_total_count a = length l }.

Lemma timed_holds_perm a l l' : l ≡ₚ l' → timed_holds a l → timed_holds a l'.
Proof. intros Hp [Hv Hn Hc]. split; [intros t; by rewrite Hv, (values_at_perm t _ _ Hp)|done|by rewrite Hc, Hp]. Qed.

Lemma timed_holds_add a l p : timed_holds a l → timed_holds (timed_add a p) (p :: l).
Proof.
  intros [Hv Hn Hc]. unfold timed_add. split; cbn [tv_entries tv_total_count].
  - intros t. rewrite values_at_cons. destruct (decide (p.1 = t)) as [<-|Hne].
    + rewrite lookup_insert_eq. cbn [default]. rewrite Hv. by rewrite (comm app).
    + by rewrite lookup_insert_ne.
  - intros t. destruct (decide (p.1 = t)) as [<-|Hne]; [|by rewrite lookup_insert_ne].
    rewrite lookup_insert_eq. intros [= H]. by destruct (default [] _).
  - cbn [length]. lia.
Qed.

Lemma timed_holds_retract a l p : timed_holds a (p :: l) → timed_holds (timed_retract a p) l.
Proof.
  intros [Hv Hn Hc]. unfold timed_retract. pose proof (Hv p.1) as Hp. rewrite values_at_cons, decide_True in Hp by done.
  destruct (tv_entries a !! p.1) as [values|] eqn:E; cbn [default] in Hp.
  2:{ apply Permutation_nil_l in Hp. discriminate. }
  destruct (list_find (λ v, v = p.2) values) as [[pos v]|] eqn:Ef.
  2:{ apply list_find_None in Ef. rewrite Forall_forall in Ef. exfalso. apply (Ef p.2); [|done]. rewrite Hp. left. }
  apply list_find_Some in Ef as (Hpos & -> & _). pose proof (swap_remove_perm pos values p.2 Hpos) as Hsw.
  assert (Hrest : swap_remove pos values ≡ₚ values_at p.1 l).
  { apply (Permutation_cons_inv (a := p.2)). by rewrite <- Hsw. }
  split; cbn [tv_entries tv_total_count].
  - intros t. specialize (Hv t). rewrite values_at_cons in Hv. destruct (decide (p.1 = t)) as [<-|Hne].
    + case_decide as Hs; [rewrite lookup_delete_eq; cbn; by rewrite <- Hrest, Hs|by rewrite lookup_insert_eq].
    + case_decide; [by rewrite lookup_delete_ne|by rewrite lookup_insert_ne].
  - intros t. destruct (decide (p.1 = t)) as [<-|Hne].
    + case_decide as Hs; [by rewrite lookup_delete_eq|rewrite lookup_insert_eq; congruence].
    + case_decide; [by rewrite lookup_delete_ne|by rewrite lookup_insert_ne].
  - rewrite Hc. cbn [length]. lia.
Qed.

Lemma timed_merge_lookup (l : list (Z * list Z)) : NoDup l.*1 → ∀ (m : gmap Z (list Z)) t,
  default [] (foldl (λ (m : gmap Z (list Z)) tvs, <[tvs.1 := default [] (m !! tvs.1) ++ tvs.2]> m) m l !! t)
  = default [] (m !! t) ++ default [] ((list_to_map l : gmap Z (list Z)) !! t).
Proof.
  induction l as [|[k c] l IH]; intros Hnd m v; cbn [foldl fst snd];
    [change (list_to_map [] !! v) with (@None (list Z)); cbn; by rewrite app_nil_r|].
  apply NoDup_cons in Hnd as [Hk Hnd]. rewrite IH, list_to_map_cons by done. destruct (decide (k = v)) as [->|Hne].
  - rewrite !lookup_insert_eq, (not_elem_of_list_to_map_1 _ _ Hk). cbn. by rewrite app_nil_r.
  - by rewrite !lookup_insert_ne.
Qed.
Lemma timed_merge_nonempty (l : list (Z * list Z)) : Forall (λ vc, vc.2 ≠ []) l → ∀ m : gmap Z (list Z), (∀ v, m !! v ≠ Some []) →
  ∀ v, foldl (λ (m : gmap Z (list Z)) tvs, <[tvs.1 := default [] (m !! tvs.1) ++ tvs.2]> m) m l !! v ≠ Some [].
Proof.
  induction 1 as [|[k c] l Hc _ IH]; intros m Hm v; cbn [foldl fst snd]; [done|]. apply IH. intros w.
  destruct (decide (k = w)) as [->|Hne]; [|by rewrite lookup_insert_ne].
  rewrite lookup_insert_eq. intros [= [_ ?]%app_nil]. done.
Qed.

Lemma timed_holds_merge a b l k : timed_holds a l → timed_holds b k → timed_holds (timed_merge a b) (l ++ k).
Proof.
  intros [Hv Hn Hc] [Hv' Hn' Hc']. unfold timed_merge. split; cbn [tv_entries tv_total_count].
  - intros t. rewrite timed_merge_lookup, list_to_map_to_list, values_at_app by apply NoDup_fst_map_to_list. by rewrite Hv, Hv'.
  - apply timed_merge_nonempty; [|done]. apply Forall_forall. intros [t vs] Hin. apply elem_of_map_to_list in Hin.
    cbn. intros ->. by apply (Hn' t).
  - rewrite length_app. lia.
Qed.

Lemma timed_keys a l t : timed_holds a l → t ∈ (map_to_list (tv_entries a)).*1 ↔ ∃ v, (t, v) ∈ l.
Proof.
  intros [Hv Hn _]. specialize (Hv t). specialize (Hn t). rewrite list_elem_of_fmap. split.
  - intros ([t' vs] & Ht & Hin). cbn in Ht. subst t'. apply elem_of_map_to_list in Hin. rewrite Hin in Hv, Hn.
    destruct vs as [|v vs]; [done|]. exists v. apply elem_of_values_at. rewrite <- Hv. left.
  - intros [v Hin]. apply elem_of_values_at in Hin. rewrite <- Hv in Hin.
    destruct (tv_entries a !! t) as [vs|] eqn:E; [|by apply elem_of_nil in Hin].
    exists (t, vs). split; [done|]. by apply elem_of_map_to_list.
Qed.

(** A first value: one with the least time. *)
Definition is_first (l : list (Z * Z)) (o : option Z) : Prop :=
  match o with None => l = [] | Some v => ∃ t, (t, v) ∈ l ∧ ∀ p, p ∈ l → t <= p.1 end.
Definition is_last (l : list (Z * Z)) (o : option Z) : Prop :=
  match o with None => l = [] | Some v => ∃ t, (t, v) ∈ l ∧ ∀ p, p ∈ l → p.1 <= t end.

Lemma timed_at a l t : timed_holds a l → t ∈ (map_to_list (tv_entries a)).*1 →
  ∃ v vs, tv_entries a !! t = Some (v :: vs) ∧ ∀ w, w ∈ v :: vs → (t, w) ∈ l.
Proof.
  intros [Hv Hn _] Hin. apply list_elem_of_fmap in Hin as ([t' vs] & Ht & Hin). cbn in Ht. subst t'.
  apply elem_of_map_to_list in Hin. specialize (Hv t). specialize (Hn t). rewrite Hin in Hv, Hn. destruct vs as [|v vs]; [done|].
  exists v, vs. split; [done|]. intros w Hw. apply elem_of_values_at. by rewrite <- Hv.
Qed.

Lemma timed_no_keys a l : timed_holds a l → (map_to_list (tv_entries a)).*1 = [] → l = [].
Proof.
  intros Ha Hk. destruct l as [|[t v] l]; [done|]. exfalso. apply (not_elem_of_nil t). rewrite <- Hk.
  apply (timed_keys _ _ _ Ha). exists v. left.
Qed.

Lemma first_laws : RetractableLaws RetractableFirstValue timed_holds is_first.
Proof.
  split; cbn [RetractableFirstValue ra_default ra_add ra_retract ra_merge ra_result ra_is_empty ra_reset].
  - apply timed_holds_perm.
  - split; cbn; [intros t; by rewrite lookup_empty|intros t; by rewrite lookup_empty|done].
  - apply timed_holds_add.
  - apply timed_holds_retract.
  - apply timed_holds_merge.
  - intros a l Ha. unfold first_value, first_key. destruct (list_min _) as [t|] eqn:E; cbn [mbind option_bind].
    + apply list_min_Some in E as [Hin Hle]. destruct (timed_at a l t Ha Hin) as (v & vs & -> & Hall). cbn.
      exists t. split; [apply Hall; left|]. intros [t' v'] Hp. apply Hle, (timed_keys _ _ _ Ha). by exists v'.
    + apply list_min_None in E. by eapply timed_no_keys.
  - intros a l [_ _ Hc] _. unfold timed_is_empty. rewrite Hc. apply bool_decide_ext. by rewrite length_zero_iff_nil.
  - intros a. split; cbn; [intros t; by rewrite lookup_empty|intros t; by rewrite lookup_empty|done].
Qed.

Lemma last_laws : RetractableLaws RetractableLastValue timed_holds is_last.
Proof.
  destruct first_laws as [H1 H2 H3 H4 H5 H6 H7 H8]. split; try done.
  intros a l Ha. cbn. unfold last_value, last_key. destruct (list_max _) as [t|] eqn:E; cbn [mbind option_bind].
  - apply list_max_Some in E as [Hin Hle]. destruct (timed_at a l t Ha Hin) as (v & vs & -> & Hall). cbn [mbind option_bind].
    destruct (last (v :: vs)) as [w|] eqn:El; [|by apply last_None in El]. exists t. split; [by apply Hall, last_Some_elem_of|].
    intros [t' v'] Hp. apply Hle, (timed_keys _ _ _ Ha). by exists v'.
  - apply list_max_None in E. by eapply timed_no_keys.
Qed.

(** ** Runs *)

Inductive RetractOp (I : Type) := RAdd (x : I) | RRetract (x : I).
Arguments RAdd {I}.
Arguments RRetract {I}.
Definition op_map {I J} (f : I → J) (op : RetractOp I) : RetractOp J :=
  match op with RAdd x => RAdd (f x) | RRetract x => RRetract (f x) end.

Definition retract_step {A I O} (R : Retractable A I O) (a : A) (op : RetractOp I) : A :=
  match op with RAdd x => ra_add R a x | RRetract x => ra_retract R a x end.
Definition retract_run {A I O} (R : Retractable A I O) (ops : list (RetractOp I)) : A :=
  foldl (retract_step R) (ra_default R) ops.

Fixpoint remove_one {I} `{EqDecision I} (x : I) (l : list I) : option (list I) :=
  match l with
  | [] => None
  | y :: l => if decide (y = x) then Some l else k ← remove_one x l; Some (y :: k)
  end.

(** The values that remain, if every retraction takes back a value that is there. *)
Fixpoint remaining {I} `{EqDecision I} (ops : list (RetractOp I)) (l : list I) : option (list I) :=
  match ops with
  | [] => Some l
  | RAdd x :: ops => remaining ops (x :: l)
  | RRetract x :: ops => l' ← remove_one x l; remaining ops l'
  end.

Lemma remove_one_Some {I} `{EqDecision I} (x : I) l k : remove_one x l = Some k → l ≡ₚ x :: k.
Proof.
  revert k. induction l as [|y l IH]; intros k; cbn [remove_one]; [done|]. case_decide as Hy; [intros [= <-]; by subst|].
  destruct (remove_one x l) as [k'|]; cbn [mbind option_bind]; [|done]. intros [= <-]. rewrite (IH k' eq_refl). apply Permutation_swap.
Qed.

Section Client.
Context {A I O J : Type} `{EqDecision J} (R : Retractable A I O) (holds : A → list I → Prop) (allowed : list I → O → Prop).
Context (HR : RetractableLaws R holds allowed) (f : J → I).

Lemma steps_hold (ops : list (RetractOp J)) : ∀ a l l', remaining ops l = Some l' → holds a (f <$> l) →
  holds (foldl (retract_step R) a (op_map f <$> ops)) (f <$> l').
Proof.
  induction ops as [|[x|x] ops IH]; intros a l l' Hrem Ha; cbn [remaining] in Hrem.
  - by injection Hrem as <-.
  - apply (IH _ (x :: l) l' Hrem). by apply (rl_add _ _ _ HR).
  - destruct (remove_one x l) as [k|] eqn:E; [|done]. cbn [mbind option_bind] in Hrem. apply remove_one_Some in E.
    apply (IH _ k l' Hrem), (rl_retract _ _ _ HR). eapply (rl_perm _ _ _ HR); [|exact Ha]. by rewrite E.
Qed.

(** Two partial runs, merged. *)
Lemma merged_allowed ops1 ops2 l1 l2 : remaining ops1 [] = Some l1 → remaining ops2 [] = Some l2 →
  allowed (f <$> (l1 ++ l2)) (ra_result R (ra_merge R (retract_run R (op_map f <$> ops1)) (retract_run R (op_map f <$> ops2)))).
Proof.
  intros H1 H2. apply (rl_result _ _ _ HR). rewrite fmap_app. apply (rl_merge _ _ _ HR).
  - eapply steps_hold; [exact H1|]. apply (rl_default _ _ _ HR).
  - eapply steps_hold; [exact H2|]. apply (rl_default _ _ _ HR).
Qed.

Lemma merged_empty ops1 ops2 l1 l2 : remaining ops1 [] = Some l1 → remaining ops2 [] = Some l2 → zlen (l1 ++ l2) < i64_MAX →
  ra_is_empty R (ra_merge R (retract_run R (op_map f <$> ops1)) (retract_run R (op_map f <$> ops2))) = bool_decide (l1 ++ l2 = []).
Proof.
  intros H1 H2 Hl. rewrite (rl_empty _ _ _ HR _ (f <$> (l1 ++ l2))).
  - apply bool_decide_ext. split; [by apply fmap_nil_inv|by intros ->].
  - rewrite fmap_app. apply (rl_merge _ _ _ HR).
    + eapply steps_hold; [exact H1|]. apply (rl_default _ _ _ HR).
    + eapply steps_hold; [exact H2|]. apply (rl_default _ _ _ HR).
  - by rewrite length_fmap.
Qed.
End Client.

(** The result of a function [f] of timed values over two runs, merged. *)
Definition merged {A I O} (R : Retractable A I O) (f : Z * Z → I) (ops1 ops2 : list (RetractOp (Z * Z))) : O :=
  ra_result R (ra_merge R (retract_run R (op_map f <$> ops1)) (retract_run R (op_map f <$> ops2))).

(** The f64 structs run the integer ones on the bits. *)
Lemma f64_runs (ops : list (RetractOp (Z * Z))) :
  retract_run RetractableFirstValueF64 ops = retract_run RetractableFirstValue (op_map value_bits <$> ops) ∧
  retract_run RetractableLastValueF64 ops = retract_run RetractableLastValue (op_map value_bits <$> ops).
Proof.
  unfold retract_run. cbn [ra_default RetractableFirstValueF64 RetractableLastValueF64 RetractableFirstValue RetractableLastValue].
  generalize (mkTimed ∅ 0) as a. induction ops as [|[x|x] ops IH]; intros a; [done|apply IH|apply IH].
Qed.

Lemma f64_merged ops1 ops2 :
  merged RetractableFirstValueF64 (λ p, p) ops1 ops2 = merged RetractableFirstValue value_bits ops1 ops2 ∧
  merged RetractableLastValueF64 (λ p, p) ops1 ops2 = merged RetractableLastValue value_bits ops1 ops2.
Proof.
  assert (Hid : ∀ ops : list (RetractOp (Z * Z)), op_map (λ p, p) <$> ops = ops).
  { intros ops. rewrite <- (list_fmap_id ops) at 2. apply list_fmap_ext. by intros _ [] _. }
  unfold merged. rewrite !Hid. split; by rewrite ?(proj1 (f64_runs _)), ?(proj2 (f64_runs _)).
Qed.

(** [C30]: Taking a value back is never having added it. After any two sequences of
    additions and retractions in which every retraction takes back a value that is
    there, the merged accumulators give the aggregate of exactly the values that
    remain: their count and sum (modulo 2^64), their average, their least and
    greatest value, a value of the earliest and a value of the latest time; the
    f64 variants give the bits of such a value. *)
Theorem retractions_exact ops1 ops2 l1 l2 : remaining ops1 [] = Some l1 → remaining ops2 [] = Some l2 →
  let l := l1 ++ l2 in
  merged RetractableCount (λ _, tt) ops1 ops2 = wrap_i64 (zlen l) ∧
  merged RetractableSum snd ops1 ops2 = wrap_i64 (sum_Z l.*2) ∧
  (zlen l < i64_MAX → merged RetractableAvg snd ops1 ops2 = average l.*2) ∧
  merged RetractableMin snd ops1 ops2 = list_min l.*2 ∧
  merged RetractableMax snd ops1 ops2 = list_max l.*2 ∧
  is_first l (merged RetractableFirstValue (λ p, p) ops1 ops2) ∧
  is_last l (merged RetractableLastValue (λ p, p) ops1 ops2) ∧
  is_first (value_bits <$> l) (merged RetractableFirstValueF64 (λ p, p) ops1 ops2) ∧
  is_last (value_bits <$> l) (merged RetractableLastValueF64 (λ p, p) ops1 ops2).
Proof.
  intros H1 H2 l. destruct (f64_merged ops1 ops2) as [-> ->]. unfold merged. split_and!.
  - rewrite (merged_allowed _ _ _ count_laws (λ _, tt) _ _ _ _ H1 H2). by rewrite length_fmap.
  - apply (merged_allowed _ _ _ sum_laws snd _ _ _ _ H1 H2).
  - intros Hl. apply (merged_allowed _ _ _ avg_laws snd _ _ _ _ H1 H2). by rewrite length_fmap.
  - apply (merged_allowed _ _ _ min_laws snd _ _ _ _ H1 H2).
  - apply (merged_allowed _ _ _ max_laws snd _ _ _ _ H1 H2).
  - pose proof (merged_allowed _ _ _ first_laws (λ p, p) _ _ _ _ H1 H2) as H. by rewrite list_fmap_id in H.
  - pose proof (merged_allowed _ _ _ last_laws (λ p, p) _ _ _ _ H1 H2) as H. by rewrite list_fmap_id in H.
  - apply (merged_allowed _ _ _ first_laws value_bits _ _ _ _ H1 H2).
  - apply (merged_allowed _ _ _ last_laws value_bits _ _ _ _ H1 H2).
Qed.

Lemma retractions_exact_witness :
  let ops1 := [RAdd (1, 10); RAdd (2, 5); RAdd (3, 30); RRetract (2, 5)] in
  let ops2 := [RAdd (4, 7); RAdd (5, -2); RRetract (5, -2)] in
  remaining ops1 [] = Some [(3, 30); (1, 10)] ∧ remaining ops2 [] = Some [(4, 7)] ∧
  merged RetractableCount (λ _, tt) ops1 ops2 = 3 ∧ merged RetractableSum snd ops1 ops2 = 47 ∧
  merged RetractableMin snd ops1 ops2 = Some 7 ∧ merged RetractableMax snd ops1 ops2 = Some 30 ∧
  is_first [(3, 30); (1, 10); (4, 7)] (merged RetractableFirstValue (λ p, p) ops1 ops2).
Proof.
  intros ops1 ops2. assert (H1 : remaining ops1 [] = Some [(3, 30); (1, 10)]) by reflexivity.
  assert (H2 : remaining ops2 [] = Some [(4, 7)]) by reflexivity.
  destruct (retractions_exact ops1 ops2 _ _ H1 H2) as (Hc & Hs & _ & Hmin & Hmax & Hf & _).
  split; [exact H1|]. split; [exact H2|]. split; [exact Hc|]. split; [exact Hs|]. split; [exact Hmin|].
  split; [exact Hmax|exact Hf].
Defined.

(** Retracting an old value moves the last one. Values of one time are kept in
    the order of arrival, but [swap_remove] moves the newest into the gap: after
    adding 10, 20 and 30 at one time and taking 10 back, LAST_VALUE is 20 and
    FIRST_VALUE is 30. *)
Theorem retraction_reorders_ties :
  let ops := [RAdd (7, 10); RAdd (7, 20); RAdd (7, 30)] in
  first_value (retract_run RetractableFirstValue ops) = Some 10 ∧ last_value (retract_run RetractableLastValue ops) = Some 30 ∧
  last_value (retract_run RetractableLastValue (ops ++ [RRetract (7, 10)])) = Some 20 ∧
  first_value (retract_run RetractableFirstValue (ops ++ [RRetract (7, 10)])) = Some 30.
Proof. vm_compute. split_and!; reflexivity. Qed.

(** ** Late results *)

Inductive LateOp :=
  | LateCheck (w : WindowId) (data : list Z) (timestamp : Z)
  | LateCleanup (w : WindowId)
  | LateWatermark (watermark : Z).

Definition late_step (op : LateOp) (g : LateDataRetractionGenerator)
  : LateDataRetractionGenerator * option (list Z * list Z) :=
  match op with
  | LateCheck w data ts => check_retraction w data ts g
  | LateCleanup w => (cleanup_window w g, None)
  | LateWatermark wm => (cleanup_before_watermark wm g, None)
  end.

(** The current results a consumer holds, by window. *)
Definition view_step (op : LateOp) (view : gmap WindowId (list Z)) : gmap WindowId (list Z) :=
  match op with
  | LateCheck w data _ => <[w := data]> view
  | LateCleanup w => delete w view
  | LateWatermark wm => filter (λ wd, wm < w_end wd.1) view
  end.
Definition correction (op : LateOp) (view : gmap WindowId (list Z)) : option (list Z * list Z) :=
  match op with
  | LateCheck w data _ =>
      match view !! w with Some old => if decide (old = data) then None else Some (old, data) | None => None end
  | _ => None
  end.

Fixpoint late_run (ops : list LateOp) (g : LateDataRetractionGenerator)
  : LateDataRetractionGenerator * list (option (list Z * list Z)) :=
  match ops with
  | [] => (g, [])
  | op :: ops => let '(g, r) := late_step op g in let '(g, rs) := late_run ops g in (g, r :: rs)
  end.
Fixpoint corrections (ops : list LateOp) (view : gmap WindowId (list Z)) : list (option (list Z * list Z)) :=
  match ops with [] => [] | op :: ops => correction op view :: corrections ops (view_step op view) end.

Lemma late_step_view op g : rg_enabled g = true →
  let r := late_step op g in let view := er_data <$> rg_emitted_results g in
  rg_enabled r.1 = true ∧ r.2 = correction op view ∧ er_data <$> rg_emitted_results r.1 = view_step op view.
Proof.
  intros He. destruct op as [w data ts|w|wm]; cbn [late_step correction view_step].
  - unfold check_retraction. rewrite He. cbn [negb]. rewrite lookup_fmap.
    destruct (rg_emitted_results g !! w) as [prev|] eqn:E; cbn [fmap option_fmap option_map].
    + case_decide as Hd; cbn [fst snd rg_enabled rg_emitted_results].
      * split_and!; try done. symmetry. apply insert_id. by rewrite lookup_fmap, E, <- Hd.
      * split_and!; try done. by rewrite fmap_insert.
    + cbn [fst snd rg_enabled rg_emitted_results]. split_and!; try done. by rewrite fmap_insert.
  - cbn. split_and!; try done. by rewrite fmap_delete.
  - cbn. split_and!; try done. by rewrite map_filter_fmap.
Qed.

(** Corrections telescope. Whatever results a window emits, in any order with
    cleanups, a correction is issued exactly when the result differs from the one
    the window emitted last, and it takes back exactly that one; so a consumer that
    applies the corrections holds the latest result of every window that has not
    been cleaned up. *)
Theorem late_corrections_exact ops :
  let r := late_run ops (LateDataRetractionGenerator_new true) in
  r.2 = corrections ops ∅ ∧ er_data <$> rg_emitted_results r.1 = foldl (λ v op, view_step op v) ∅ ops ∧
  generator_windows_tracked r.1 = size (foldl (λ v op, view_step op v) ∅ ops).
Proof.
  assert (Hgen : ∀ g, rg_enabled g = true → let r := late_run ops g in let view := er_data <$> rg_emitted_results g in
    r.2 = corrections ops view ∧ er_data <$> rg_emitted_results r.1 = foldl (λ v op, view_step op v) view ops).
  { induction ops as [|op ops IH]; intros g He; [done|]. cbn [late_run corrections foldl].
    destruct (late_step_view op g He) as (He' & Hr & Hv). destruct (late_step op g) as [g1 r1]. cbn [fst snd] in *.
    destruct (IH g1 He') as [Hrs Hf]. destruct (late_run ops g1) as [g2 rs]. cbn [fst snd] in *. rewrite Hv in *. by subst. }
  intros r. destruct (Hgen (LateDataRetractionGenerator_new true) eq_refl) as [Hrs Hf]. fold r in Hrs, Hf.
  change (er_data <$> rg_emitted_results (LateDataRetractionGenerator_new true)) with (er_data <$> (∅ : gmap WindowId EmittedResult)) in *.
  rewrite fmap_empty in *. split; [exact Hrs|]. split; [exact Hf|]. unfold generator_windows_tracked. by rewrite <- Hf, map_size_fmap.
Qed.

(** The weight of an envelope is the number of rows it adds less those it removes. *)
Lemma envelope_weight_balance {T} (b a : T) source ts :
  Forall (λ e, CdcEnvelope_weight e =
    (if decide (is_Some (ce_after e)) then 1 else 0) - (if decide (is_Some (ce_before e)) then 1 else 0))
    [CdcEnvelope_insert a source ts; CdcEnvelope_delete b source ts; CdcEnvelope_update b a source ts; CdcEnvelope_read a source ts].
Proof. repeat constructor. Qed.
