(* ===== verification/SortKeys.v ===== *)
(** * Sort keys of the ordering operators

    operator/topk.rs: the encoding of the sort columns of a row as a byte string
    whose lexicographic order is meant to be the order of the rows ([ORDER BY]),
    and [extract_sort_key], which the top-k, partitioned top-k, watermark sort and
    window sort operators each contain.

    A record batch is opaque: the class [ArrowBatch] gives the index of a column
    name, the first cell of a column ([None] where arrow panics: an index out of
    range or no row) and the batch without columns. An [f64] is its bits. *)

From S2P Require Import Prelude StateStore.

(** ** Columns and cells *)

Inductive TimeUnit := TSecond | TMillisecond | TMicrosecond | TNanosecond.

(** The first value of an array; [COther] are the types without an encoding. *)
Inductive Cell :=
  | CNull
  | CInt64 (v : Z)
  | CFloat64 (bits : Z)
  | CUtf8 (s : bytes)
  | CTimestamp (unit : TimeUnit) (v : Z)
  | COther.

Class ArrowBatch (B : Type) := {
  index_of : B → string → option nat;
  cell_at : B → nat → option Cell;
  empty_batch : B }.

Record TopKSortColumn := mkSortColumn {
  sc_column_name : string;
  sc_descending : bool;
  sc_nulls_first : bool }.

Definition TopKSortColumn_ascending (name : string) : TopKSortColumn := mkSortColumn name false false.
Definition TopKSortColumn_descending (name : string) : TopKSortColumn := mkSortColumn name true false.
Definition TopKSortColumn_with_nulls_first (nulls_first : bool) (c : TopKSortColumn) : TopKSortColumn :=
  mkSortColumn (sc_column_name c) (sc_descending c) nulls_first.

(** ** Encoding *)

Definition SIGN_BIT : Z := 9223372036854775808.
(** [!] on bytes and on [u64]. *)
Definition not_u8 (b : Z) : Z := 255 - b.
Definition not_u64 (z : Z) : Z := u64_MOD - 1 - z.

Definition encode_null (nulls_first descending : bool) (key : bytes) : bytes :=
  if nulls_first then (if descending then key ++ [255] else key ++ [0])
  else if descending then key ++ [0] else key ++ [255].

Definition encode_not_null (nulls_first descending : bool) (key : bytes) : bytes :=
  if nulls_first then (if descending then key ++ [0] else key ++ [1])
  else if descending then key ++ [1] else key ++ [0].

Definition encode_i64 (val : Z) (descending : bool) (key : bytes) : bytes :=
  let unsigned := Z.lxor (wrap_u64 val) SIGN_BIT in
  let bs := to_be 8 unsigned in
  if descending then key ++ (not_u8 <$> bs) else key ++ bs.

Definition encode_f64 (bits : Z) (descending : bool) (key : bytes) : bytes :=
  let encoded := if Z.land bits SIGN_BIT =? 0 then Z.lxor bits SIGN_BIT else not_u64 bits in
  let bs := to_be 8 encoded in
  if descending then key ++ (not_u8 <$> bs) else key ++ bs.

Definition encode_utf8 (val : bytes) (descending : bool) (key : bytes) : bytes :=
  if descending then key ++ (not_u8 <$> val) ++ [255] else key ++ val ++ [0].

(** The [Timestamp] arm: microseconds only, and in window_sort.rs any unit. *)
Definition micros_only (unit : TimeUnit) (v : Z) : option Z :=
  match unit with TMicrosecond => Some v | _ => None end.
Definition any_unit (unit : TimeUnit) (v : Z) : option Z :=
  match unit with
  | TSecond => Some v | TMillisecond => Some v | TMicrosecond => Some v | TNanosecond => Some v
  end.

Section Extract.
Context (ts_value : TimeUnit → Z → option Z).

Definition encode_cell (c : TopKSortColumn) (cell : Cell) (key : bytes) : bytes :=
  let null := encode_null (sc_nulls_first c) (sc_descending c) in
  let not_null := encode_not_null (sc_nulls_first c) (sc_descending c) in
  match cell with
  | CNull => null key
  | CInt64 v => encode_i64 v (sc_descending c) (not_null key)
  | CFloat64 v => encode_f64 v (sc_descending c) (not_null key)
  | CUtf8 v => encode_utf8 v (sc_descending c) (not_null key)
  | CTimestamp unit v =>
      match ts_value unit v with
      | Some v => encode_i64 v (sc_descending c) (not_null key)
      | None => null key
      end
  | COther => null key
  end.

Context {B : Type} `{!ArrowBatch B}.

(** The loop over the columns with their cached indices; [None] is a panic. *)
Fixpoint extract_loop (batch : B) (columns : list TopKSortColumn) (cached : list (option nat))
    (key : bytes) : option (list (option nat) * bytes) :=
  match columns with
  | [] => Some (cached, key)
  | c :: columns =>
      match cached with
      | [] => None
      | slot :: cached =>
          match (match slot with Some idx => Some idx | None => index_of batch (sc_column_name c) end) with
          | None =>
              '(cached, key) ← extract_loop batch columns cached
                                 (encode_null (sc_nulls_first c) (sc_descending c) key);
              Some (None :: cached, key)
          | Some idx =>
              cell ← cell_at batch idx;
              '(cached, key) ← extract_loop batch columns cached (encode_cell c cell key);
              Some (Some idx :: cached, key)
          end
      end
  end.

Definition extract_sort_key (batch : B) (columns : list TopKSortColumn) (cached : list (option nat))
  : option (list (option nat) * bytes) := extract_loop batch columns cached [].
End Extract.

(** ** The order of rows *)

(** The IEEE 754 total order of [f64], on bits: the magnitude with the sign,
    -0.0 below 0.0. *)
Definition f64_rank (bits : Z) : Z := if bits <? SIGN_BIT then bits else SIGN_BIT - 1 - bits.

Definition flip (descending : bool) (c : comparison) : comparison := if descending then CompOpp c else c.

Section Order.
Context (ts_value : TimeUnit → Z → option Z).

(** What is encoded as null. *)
Definition null_like (c : Cell) : bool :=
  match c with
  | CNull | COther => true
  | CTimestamp u v => match ts_value u v with Some _ => false | None => true end
  | _ => false
  end.

Definition value_cmp (a b : Cell) : comparison :=
  match a, b with
  | CInt64 x, CInt64 y | CTimestamp _ x, CTimestamp _ y => x ?= y
  | CFloat64 x, CFloat64 y => f64_rank x ?= f64_rank y
  | CUtf8 x, CUtf8 y => bytes_cmp x y
  | _, _ => Eq
  end.

(** Nulls below or above all values, on the side [nulls_low] says. *)
Definition column_cmp (nulls_low : bool) (descending : bool) (a b : Cell) : comparison :=
  match null_like a, null_like b with
  | true, true => Eq
  | true, false => if nulls_low then Lt else Gt
  | false, true => if nulls_low then Gt else Lt
  | false, false => flip descending (value_cmp a b)
  end.

(** Rows by their first column that differs. *)
Fixpoint row_cmp (nulls_low : TopKSortColumn → bool) (columns : list TopKSortColumn)
    (a b : list Cell) : comparison :=
  match columns, a, b with
  | c :: columns, x :: a, y :: b =>
      match column_cmp (nulls_low c) (sc_descending c) x y with
      | Eq => row_cmp nulls_low columns a b
      | r => r
      end
  | _, _, _ => Eq
  end.

(** The key of a row. *)
Fixpoint row_key (columns : list TopKSortColumn) (row : list Cell) : bytes :=
  match columns, row with
  | c :: columns, cell :: row => encode_cell ts_value c cell [] ++ row_key columns row
  | _, _ => []
  end.

(** Where a null goes: the documented side, and the side the bytes give. *)
Definition nulls_first_of (c : TopKSortColumn) : bool := sc_nulls_first c.
Definition nulls_coded (c : TopKSortColumn) : bool := xorb (sc_nulls_first c) (sc_descending c).

(** Values at their width; strings without the terminator byte. *)
Definition cell_ok (c : Cell) : Prop :=
  match c with
  | CInt64 v | CTimestamp _ v => is_i64 v
  | CFloat64 b => is_u64 b
  | CUtf8 s => Forall (λ x, 0 < x <= 255) s
  | CNull | COther => True
  end.

(** Two cells of one column have one type. *)
Definition same_type (a b : Cell) : Prop :=
  match a, b with
  | CInt64 _, CInt64 _ | CFloat64 _, CFloat64 _ | CUtf8 _, CUtf8 _ => True
  | CTimestamp u _, CTimestamp u' _ => u = u'
  | CNull, _ | _, CNull | COther, COther => True
  | _, _ => False
  end.
End Order.

(** ** Comparing concatenations *)

Definition then_cmp (c d : comparison) : comparison := match c with Eq => d | _ => c end.

Lemma bytes_cmp_app a b x y : length a = length b →
  bytes_cmp (a ++ x) (b ++ y) = then_cmp (bytes_cmp a b) (bytes_cmp x y).
Proof.
  revert b. induction a as [|u a IH]; intros [|v b] Hlen; try done. cbn [app bytes_cmp].
  destruct (u ?= v); [|done..]. apply IH. by injection Hlen.
Qed.

Lemma compare_not u v : (not_u8 u ?= not_u8 v) = CompOpp (u ?= v).
Proof. unfold not_u8. destruct (Z.compare_spec u v), (Z.compare_spec (255 - u) (255 - v)); cbn; lia || done. Qed.

Lemma bytes_cmp_not a b : length a = length b →
  bytes_cmp (not_u8 <$> a) (not_u8 <$> b) = CompOpp (bytes_cmp a b).
Proof.
  revert b. induction a as [|u a IH]; intros [|v b] Hlen; try done. cbn [fmap list_fmap bytes_cmp].
  rewrite compare_not. injection Hlen as Hlen. destruct (u ?= v); cbn; [by apply IH|done..].
Qed.

Lemma bytes_cmp_to_be n : ∀ u v, 0 <= u < 256 ^ Z.of_nat n → 0 <= v < 256 ^ Z.of_nat n →
  bytes_cmp (to_be n u) (to_be n v) = (u ?= v).
Proof.
  induction n as [|n IH]; intros u v Hu Hv.
  { cbn in *. assert (u = v) as -> by lia. by rewrite Z.compare_refl. }
  set (p := 256 ^ Z.of_nat n) in *. assert (Hp : 0 < p) by (unfold p; lia).
  rewrite Nat2Z.inj_succ, Z.pow_succ_r in Hu, Hv by lia. fold p in Hu, Hv.
  cbn [to_be bytes_cmp]. fold p.
  rewrite <- (to_be_mod n u), <- (to_be_mod n v). fold p.
  pose proof (Z.div_mod u p) as Eu. pose proof (Z.div_mod v p) as Ev.
  pose proof (Z.mod_pos_bound u p) as Mu. pose proof (Z.mod_pos_bound v p) as Mv.
  assert (0 <= u / p < 256) by (split; [apply Z.div_pos; lia|apply Z.div_lt_upper_bound; lia]).
  assert (0 <= v / p < 256) by (split; [apply Z.div_pos; lia|apply Z.div_lt_upper_bound; lia]).
  rewrite (Z.mod_small (u / p)), (Z.mod_small (v / p)), IH by lia.
  destruct (Z.compare_spec (u / p) (v / p)) as [Heq|Hlt|Hgt].
  - destruct (Z.compare_spec (u mod p) (v mod p)), (Z.compare_spec u v); (done || nia).
  - destruct (Z.compare_spec u v); (done || nia).
  - destruct (Z.compare_spec u v); (done || nia).
Qed.

Lemma utf8_asc s t x y : Forall (λ c, 0 < c <= 255) s → Forall (λ c, 0 < c <= 255) t →
  bytes_cmp (s ++ 0 :: x) (t ++ 0 :: y) = then_cmp (bytes_cmp s t) (bytes_cmp x y).
Proof.
  intros Hs. revert t. induction Hs as [|u s Hu _ IH]; intros t Ht; destruct Ht as [|v t Hv Ht]; cbn [app bytes_cmp].
  - done.
  - destruct (Z.compare_spec 0 v); (done || lia).
  - destruct (Z.compare_spec u 0); (done || lia).
  - destruct (u ?= v); [by apply IH|done..].
Qed.

Lemma utf8_desc s t x y : Forall (λ c, 0 < c <= 255) s → Forall (λ c, 0 < c <= 255) t →
  bytes_cmp ((not_u8 <$> s) ++ 255 :: x) ((not_u8 <$> t) ++ 255 :: y)
  = then_cmp (CompOpp (bytes_cmp s t)) (bytes_cmp x y).
Proof.
  intros Hs. revert t. induction Hs as [|u s Hu _ IH]; intros t Ht; destruct Ht as [|v t Hv Ht];
    cbn [app bytes_cmp fmap list_fmap].
  - done.
  - unfold not_u8 at 1. destruct (Z.compare_spec 255 (255 - v)); (done || lia).
  - unfold not_u8 at 1. destruct (Z.compare_spec (255 - u) 255); (done || lia).
  - rewrite compare_not. destruct (u ?= v); cbn; [by apply IH|done..].
Qed.

(** ** Signed integers and floats as unsigned ones *)

Lemma land_sign_low x : 0 <= x < SIGN_BIT → Z.land x SIGN_BIT = 0.
Proof.
  intros Hx. apply Z.bits_inj. intros n. rewrite Z.land_spec, Z.bits_0.
  change SIGN_BIT with (2 ^ 63). rewrite andb_false_iff. destruct (Z.eq_dec n 63) as [->|Hn].
  - left. destruct (Z.eq_dec x 0) as [->|H0]; [apply Z.bits_0|].
    apply Z.bits_above_log2; [lia|]. apply Z.log2_lt_pow2; [lia|]. exact (proj2 Hx).
  - right. apply Z.pow2_bits_false. lia.
Qed.

Lemma lxor_sign x : 0 <= x < SIGN_BIT → Z.lxor x SIGN_BIT = x + SIGN_BIT.
Proof. intros Hx. symmetry. by apply Z.add_nocarry_lxor, land_sign_low. Qed.

Lemma land_sign_high x : SIGN_BIT <= x < u64_MOD → Z.land x SIGN_BIT = SIGN_BIT.
Proof.
  intros Hx. assert (Hy : 0 <= x - SIGN_BIT < SIGN_BIT) by (unfold SIGN_BIT in *; lia).
  replace x with (Z.lor (x - SIGN_BIT) SIGN_BIT).
  - by rewrite Z.land_lor_distr_l, land_sign_low, Z.land_diag.
  - rewrite <- Z.lxor_lor, lxor_sign by (done || by apply land_sign_low). lia.
Qed.

Lemma i64_unsigned v : is_i64 v → Z.lxor (wrap_u64 v) SIGN_BIT = v + SIGN_BIT.
Proof.
  intros Hv. unfold wrap_u64, SIGN_BIT in *. unfold is_i64 in Hv.
  destruct (Z.ltb_spec v 0).
  - assert (v mod u64_MOD = v + u64_MOD) as -> by (symmetry; apply (Z.mod_unique _ _ (-1)); lia).
    replace (v + u64_MOD) with (Z.lxor (v + SIGN_BIT) SIGN_BIT).
    + rewrite Z.lxor_assoc. change 9223372036854775808 with SIGN_BIT. by rewrite Z.lxor_nilpotent, Z.lxor_0_r.
    + rewrite lxor_sign by (unfold SIGN_BIT; lia). unfold SIGN_BIT. lia.
  - rewrite Z.mod_small by lia. change 9223372036854775808 with SIGN_BIT. rewrite lxor_sign; unfold SIGN_BIT; lia.
Qed.

Lemma f64_code bits : is_u64 bits →
  (if Z.land bits SIGN_BIT =? 0 then Z.lxor bits SIGN_BIT else not_u64 bits) = f64_rank bits + SIGN_BIT.
Proof.
  intros Hb. unfold is_u64 in Hb. unfold f64_rank. destruct (Z.ltb_spec bits SIGN_BIT) as [Hlt|Hge].
  - rewrite land_sign_low, lxor_sign by lia. done.
  - rewrite land_sign_high by lia. unfold not_u64, SIGN_BIT in *. cbn. lia.
Qed.

Lemma f64_rank_range bits : is_u64 bits → is_i64 (f64_rank bits).
Proof. unfold is_u64, is_i64, f64_rank, SIGN_BIT. intros. destruct (Z.ltb_spec bits 9223372036854775808); lia. Qed.

(** Eight bytes of a shifted value, ascending or flipped, compare as the values. *)
Lemma fixed_cmp (desc : bool) u v x y : is_i64 u → is_i64 v →
  let code z := if desc then not_u8 <$> to_be 8 (z + SIGN_BIT) else to_be 8 (z + SIGN_BIT) in
  bytes_cmp (code u ++ x) (code v ++ y) = then_cmp (flip desc (u ?= v)) (bytes_cmp x y).
Proof.
  intros Hu Hv code. assert (Hcmp : bytes_cmp (to_be 8 (u + SIGN_BIT)) (to_be 8 (v + SIGN_BIT)) = (u ?= v)).
  { rewrite bytes_cmp_to_be; unfold is_i64, SIGN_BIT in *.
    - rewrite !(Z.add_comm _ 9223372036854775808). apply Z.add_compare_mono_l.
    - change (256 ^ Z.of_nat 8) with u64_MOD. lia.
    - change (256 ^ Z.of_nat 8) with u64_MOD. lia. }
  subst code. cbn beta. destruct desc; cbn [flip]; rewrite bytes_cmp_app by (by rewrite ?length_fmap, !to_be_length).
  - rewrite bytes_cmp_not by (by rewrite !to_be_length). by rewrite Hcmp.
  - by rewrite Hcmp.
Qed.

(** ** Keys compare as rows *)

Lemma encode_cell_app ts c cell key : encode_cell ts c cell key = key ++ encode_cell ts c cell [].
Proof.
  unfold encode_cell, encode_i64, encode_f64, encode_utf8, encode_null, encode_not_null.
  destruct c as [name [|] [|]], cell; cbn; rewrite <- ?app_assoc; try done;
    destruct (ts unit v); cbn; by rewrite <- ?app_assoc.
Qed.

Section Keys.
Context (ts_value : TimeUnit → Z → option Z) (ts_exact : ∀ u v w, ts_value u v = Some w → w = v).

(** The value part of a cell that is not encoded as null. *)
Definition value_code (desc : bool) (cell : Cell) : bytes :=
  match cell with
  | CInt64 v | CTimestamp _ v => encode_i64 v desc []
  | CFloat64 v => encode_f64 v desc []
  | CUtf8 v => encode_utf8 v desc []
  | _ => []
  end.

Lemma encode_cell_null c cell key : null_like ts_value cell = true →
  encode_cell ts_value c cell key = encode_null (sc_nulls_first c) (sc_descending c) key.
Proof. destruct cell; try done. cbn. by destruct (ts_value unit v). Qed.

Lemma encode_cell_value c cell : null_like ts_value cell = false →
  encode_cell ts_value c cell []
  = encode_not_null (sc_nulls_first c) (sc_descending c) [] ++ value_code (sc_descending c) cell.
Proof.
  destruct cell as [|v|v|s|u v|]; try done; cbn.
  all: try (destruct (ts_value u v) as [w|] eqn:Ew; [apply ts_exact in Ew as ->; intros _|done]).
  all: destruct c as [name [|] [|]]; cbn; done.
Qed.

Lemma value_code_cmp desc a b x y : cell_ok a → cell_ok b → same_type a b →
  null_like ts_value a = false → null_like ts_value b = false →
  bytes_cmp (value_code desc a ++ x) (value_code desc b ++ y)
  = then_cmp (flip desc (value_cmp a b)) (bytes_cmp x y).
Proof.
  destruct a as [|v|v|s|u v|], b as [|w|w|t|u' w|]; try done; cbn [value_code value_cmp cell_ok];
    intros Ha Hb _ _ _; unfold encode_i64, encode_f64, encode_utf8; cbn [app].
  - rewrite !i64_unsigned by done. pose proof (fixed_cmp desc v w x y Ha Hb) as Hf. cbn zeta in Hf. by destruct desc.
  - rewrite !f64_code by done.
    pose proof (fixed_cmp desc _ _ x y (f64_rank_range v Ha) (f64_rank_range w Hb)) as Hf. cbn zeta in Hf. by destruct desc.
  - destruct desc; cbn [flip]; rewrite <- !app_assoc; cbn [app]; [by apply utf8_desc|by apply utf8_asc].
  - rewrite !i64_unsigned by done. pose proof (fixed_cmp desc v w x y Ha Hb) as Hf. cbn zeta in Hf. by destruct desc.
Qed.

Lemma encode_cell_cmp c a b x y : cell_ok a → cell_ok b → same_type a b →
  bytes_cmp (encode_cell ts_value c a [] ++ x) (encode_cell ts_value c b [] ++ y)
  = then_cmp (column_cmp ts_value (nulls_coded c) (sc_descending c) a b) (bytes_cmp x y).
Proof.
  intros Ha Hb Hab. unfold column_cmp, nulls_coded.
  destruct (null_like ts_value a) eqn:Na, (null_like ts_value b) eqn:Nb.
  - rewrite !encode_cell_null by done. by destruct c as [name [|] [|]].
  - rewrite encode_cell_null, encode_cell_value by done. by destruct c as [name [|] [|]].
  - rewrite encode_cell_value, encode_cell_null by done. by destruct c as [name [|] [|]].
  - rewrite !encode_cell_value by done. rewrite <- !app_assoc.
    rewrite bytes_cmp_app by (by destruct c as [name [|] [|]]).
    rewrite value_code_cmp by done. by destruct c as [name [|] [|]].
Qed.

Lemma row_key_cmp columns : ∀ a b, length a = length columns → length b = length columns →
  Forall cell_ok a → Forall cell_ok b → Forall2 same_type a b →
  bytes_cmp (row_key ts_value columns a) (row_key ts_value columns b)
  = row_cmp ts_value nulls_coded columns a b.
Proof.
  induction columns as [|c columns IH]; intros [|x a] [|y b] Hla Hlb Hoa Hob Hab; try done.
  apply Forall_cons in Hoa as [Hx Hoa], Hob as [Hy Hob]. apply Forall2_cons in Hab as [Hxy Hab].
  injection Hla as Hla. injection Hlb as Hlb. cbn [row_key row_cmp].
  rewrite encode_cell_cmp, IH by done. by destruct (column_cmp _ _ _ _ _).
Qed.
End Keys.

Lemma micros_only_exact u v w : micros_only u v = Some w → w = v.
Proof. by destruct u; intros [= <-]. Qed.
Lemma any_unit_exact u v w : any_unit u v = Some w → w = v.
Proof. by destruct u; intros [= <-]. Qed.

(** ** Extraction from batches of one schema *)

Section Batches.
Context (ts_value : TimeUnit → Z → option Z) {B : Type} `{!ArrowBatch B}.

(** The indices of the sort columns in a batch, and the cells there. *)
Definition schema_indices (columns : list TopKSortColumn) (batch : B) : list (option nat) :=
  (λ c, index_of batch (sc_column_name c)) <$> columns.
Definition row_at (batch : B) (indices : list (option nat)) : option (list Cell) :=
  mapM (λ i, match i with Some idx => cell_at batch idx | None => Some CNull end) indices.

(** Cached indices that agree with a schema, as far as they are resolved. *)
Definition cache_ok (cached indices : list (option nat)) : Prop :=
  Forall2 (λ slot i, slot = None ∨ slot = i) cached indices.

Lemma cache_ok_refl indices : cache_ok indices indices.
Proof. apply Forall_Forall2_diag, Forall_true. auto. Qed.

Lemma cache_ok_new n (indices : list (option nat)) : length indices = n → cache_ok (replicate n None) indices.
Proof. intros <-. induction indices; constructor; [by left|done]. Qed.

Lemma extract_loop_spec batch columns : ∀ cached row key,
  cache_ok cached (schema_indices columns batch) →
  row_at batch (schema_indices columns batch) = Some row →
  extract_loop ts_value batch columns cached key
  = Some (schema_indices columns batch, key ++ row_key ts_value columns row).
Proof.
  unfold row_at, cache_ok. induction columns as [|c columns IH]; intros cached row key Hc Hrow.
  { inversion Hc. cbn in *. simplify_eq. cbn. by rewrite app_nil_r. }
  cbn [schema_indices fmap list_fmap] in *. fold (schema_indices columns batch) in *.
  apply Forall2_cons_inv_r in Hc as (slot & cached' & Hslot & Hc & ->). cbn [extract_loop].
  apply mapM_Some in Hrow. inversion Hrow as [|i cell idxs row' Hcell Hrow' Hi Hr]; subst.
  apply mapM_Some in Hrow'.
  assert (Hopt : match slot with Some idx => Some idx | None => index_of batch (sc_column_name c) end
    = index_of batch (sc_column_name c)) by (destruct Hslot as [->| ->]; [done|by destruct (index_of _ _)]).
  rewrite Hopt. destruct (index_of batch (sc_column_name c)) as [idx|].
  - rewrite Hcell. cbn [mbind option_bind]. rewrite (IH cached' row') by done. cbn [mbind option_bind row_key].
    by rewrite (encode_cell_app ts_value c cell key), <- app_assoc.
  - injection Hcell as <-. rewrite (IH cached' row') by done. cbn [mbind option_bind row_key].
    rewrite (encode_cell_app ts_value c CNull []). cbn [encode_cell app]. do 2 f_equal.
    unfold encode_null. destruct c as [name [|] [|]]; cbn; by rewrite <- app_assoc.
Qed.

Lemma extract_sort_key_spec batch columns cached row :
  cache_ok cached (schema_indices columns batch) →
  row_at batch (schema_indices columns batch) = Some row →
  extract_sort_key ts_value batch columns cached
  = Some (schema_indices columns batch, row_key ts_value columns row).
Proof. intros Hc Hrow. unfold extract_sort_key. by rewrite (extract_loop_spec batch columns cached row). Qed.
End Batches.

(** Batches of one row, as named cells. *)
#[global] Instance named_row_batch : ArrowBatch (list (string * Cell)) := {
  index_of b name := fst <$> list_find (λ p, p.1 = name) b;
  cell_at b i := snd <$> b !! i;
  empty_batch := [] }.

(** ** Properties *)

(** [C16]: Sort keys compare as rows. For rows of one schema whose cells of a column
    have one type the operator encodes (64-bit integers, 64-bit floats, timestamps of
    the units it reads, strings without NUL bytes; cells of any other type are encoded
    as nulls and are compared as such), an operator that extracts the keys of two
    batches, with its cached column indices, gets byte strings whose lexicographic
    order is the order of the rows by the first column that differs, descending
    columns reversed, floats by the IEEE total order. Nulls come on the documented
    side, [nulls_first], in ascending columns only; in a descending column they come
    on the opposite side, because the null marker is flipped with the rest of the key,
    where the comment of [encode_null] and the field [nulls_first] say otherwise. *)
Theorem sort_keys_order_rows ts_value {B} `{!ArrowBatch B} (columns : list TopKSortColumn)
    (cached : list (option nat)) (a b : B) (ra rb : list Cell) :
  (∀ u v w, ts_value u v = Some w → w = v) →
  cache_ok cached (schema_indices columns a) → schema_indices columns b = schema_indices columns a →
  row_at a (schema_indices columns a) = Some ra → row_at b (schema_indices columns b) = Some rb →
  Forall cell_ok ra → Forall cell_ok rb → Forall2 same_type ra rb →
  ∃ cached' ka kb, extract_sort_key ts_value a columns cached = Some (cached', ka) ∧
    extract_sort_key ts_value b columns cached' = Some (cached', kb) ∧
    bytes_cmp ka kb = row_cmp ts_value nulls_coded columns ra rb ∧
    (Forall (λ c, sc_descending c = false) columns →
     bytes_cmp ka kb = row_cmp ts_value nulls_first_of columns ra rb).
Proof.
  intros Hts Hc Hab Ha Hb Hoa Hob Htab.
  assert (Hl : ∀ (x : B) r, row_at x (schema_indices columns x) = Some r → length r = length columns).
  { intros x r Hr. apply length_mapM in Hr. rewrite <- Hr. apply length_fmap. }
  assert (Hk : bytes_cmp (row_key ts_value columns ra) (row_key ts_value columns rb)
    = row_cmp ts_value nulls_coded columns ra rb) by (apply row_key_cmp; eauto).
  eexists _, _, _. split; [by apply extract_sort_key_spec|].
  split; [rewrite <- Hab; apply extract_sort_key_spec; [apply cache_ok_refl|done]|].
  split; [done|]. intros Hasc. rewrite Hk. clear -Hasc. revert ra rb.
  induction Hasc as [|c columns Hd _ IH]; intros [|x ra] [|y rb]; try done. cbn [row_cmp].
  unfold nulls_coded at 1, nulls_first_of at 1. rewrite Hd, xorb_false_r, IH. done.
Qed.

Lemma sort_keys_order_rows_witness :
  ∃ cached ka kb,
    extract_sort_key micros_only [("name", CUtf8 [97]); ("price", CInt64 (-3))]
      [TopKSortColumn_ascending "name"; TopKSortColumn_descending "price"] [None; None] = Some (cached, ka) ∧
    extract_sort_key micros_only [("name", CUtf8 [97]); ("price", CInt64 5)]
      [TopKSortColumn_ascending "name"; TopKSortColumn_descending "price"] cached = Some (cached, kb) ∧
    bytes_cmp ka kb = Gt.
Proof.
  destruct (sort_keys_order_rows micros_only [TopKSortColumn_ascending "name"; TopKSortColumn_descending "price"]
    [None; None] [("name", CUtf8 [97]); ("price", CInt64 (-3))] [("name", CUtf8 [97]); ("price", CInt64 5)]
    [CUtf8 [97]; CInt64 (-3)] [CUtf8 [97]; CInt64 5]) as (cached & ka & kb & Ha & Hb & Hk & _).
  - apply micros_only_exact.
  - repeat constructor; by left.
  - reflexivity.
  - reflexivity.
  - reflexivity.
  - repeat constructor; lia.
  - repeat constructor; lia.
  - repeat constructor.
  - exists cached, ka, kb. split; [exact Ha|]. split; [exact Hb|]. rewrite Hk. reflexivity.
Defined.

(** For a descending column the side of the nulls is inverted: the comment of
    [encode_null] places nulls first for [nulls_first], on the assumption that the
    marker is flipped with the value, but the marker is written as it is; a null
    then sorts behind every value, and before every value without [nulls_first]. *)
Theorem descending_nulls_inverted ts_value (c : TopKSortColumn) (cell : Cell) (x : bytes) :
  sc_descending c = true → null_like ts_value cell = false →
  bytes_cmp (encode_cell ts_value c CNull x) (encode_cell ts_value c cell x)
    = (if sc_nulls_first c then Gt else Lt).
Proof.
  intros Hd Hn. rewrite (encode_cell_app ts_value c CNull), (encode_cell_app ts_value c cell).
  rewrite bytes_cmp_app by done. replace (bytes_cmp x x) with Eq by (symmetry; by apply bytes_cmp_eq).
  cbn [then_cmp]. destruct c as [name d f]. cbn in Hd. subst d.
  destruct cell as [|v|v|s|u v|]; try done; cbn in *; try destruct (ts_value u v); by destruct f.
Qed.

Lemma descending_nulls_inverted_witness :
  bytes_cmp (encode_cell micros_only (mkSortColumn "price" true true) CNull [])
    (encode_cell micros_only (mkSortColumn "price" true true) (CInt64 7) []) = Gt.
Proof.
  apply (descending_nulls_inverted micros_only (mkSortColumn "price" true true) (CInt64 7) []); reflexivity.
Defined.
