(* ===== verification/TopK.v ===== *)
(** * The top-k operators

    operator/topk.rs: [StreamingTopKOperator] keeps the [k] least rows seen, as a
    sorted vector, and emits the changes of its contents. operator/partitioned_topk.rs:
    [PartitionedTopKOperator] keeps one such vector per partition key.

    [slice::binary_search_by] is the class [BinarySearch], with the law the standard
    library documents (any position among equal keys may be answered). [None] is a
    panic. Sizes are [usize] of 64 bits, with the wrapping additions of a release
    build. [Vec::with_capacity] is left out; it can abort on a corrupt count. *)

From S2P Require Import Prelude StateStore TimeCore WindowCore TumblingOp SortKeys.

(** ** Binary search *)

(** [inl] is [Ok(index)], [inr] is [Err(index)]. *)
Class BinarySearch := binary_search : list bytes → bytes → nat + nat.
Class BinarySearchLaws `{!BinarySearch} : Prop := {
  binary_search_ok l x i : StronglySorted bytes_le l → binary_search l x = inl i → l !! i = Some x;
  binary_search_err l x i : StronglySorted bytes_le l → binary_search l x = inr i →
    (i <= length l)%nat ∧ Forall (λ y, bytes_lt y x) (take i l) ∧ Forall (λ y, bytes_lt x y) (drop i l) }.

Fixpoint linear_search (l : list bytes) (x : bytes) (i : nat) : nat + nat :=
  match l with
  | [] => inr i
  | y :: l => match bytes_cmp y x with Lt => linear_search l x (S i) | Eq => inl i | Gt => inr i end
  end.
#[global] Instance linear_binary_search : BinarySearch := λ l x, linear_search l x 0.

(** [Vec::insert]; it panics behind the end. *)
Definition vec_insert {A} (i : nat) (x : A) (l : list A) : option (list A) :=
  if decide (i <= length l)%nat then Some (take i l ++ x :: drop i l) else None.

(** [&data[a..b]]. *)
Definition slice_of (data : bytes) (a b : Z) : option bytes :=
  if (a <=? b) && (b <=? Z.of_nat (length data))
  then Some (take (Z.to_nat (b - a)) (drop (Z.to_nat a) data)) else None.
Definition usize_add (a b : Z) : Z := wrap_u64 (a + b).
Definition u64_at (data : bytes) (offset : Z) : option Z :=
  from_le <$> slice_of data offset (usize_add offset 8).
Definition i64_at (data : bytes) (offset : Z) : option Z :=
  (λ b, wrap_i64 (from_le b)) <$> slice_of data offset (usize_add offset 8).

Inductive TopKEmitStrategy := TkOnUpdate | TkOnWatermark | TkPeriodic (interval : Z).

Section TopK.
Context {B : Type} `{!ArrowBatch B} `{!BinarySearch}.

(** ** The entries *)

(** [TopKEntry], and [PartitionEntry] in partitioned_topk.rs. *)
Record TopKEntry := mkEntry { te_sort_key : bytes; te_event : Event B }.

Definition find_insert_position (entries : list TopKEntry) (sort_key : bytes) : nat :=
  match binary_search (te_sort_key <$> entries) sort_key with inl i => i | inr i => i end.

Definition would_enter_topk (k : nat) (entries : list TopKEntry) (sort_key : bytes) : bool :=
  if decide (length entries < k)%nat then true
  else match last entries with
       | Some worst => bool_decide (bytes_lt sort_key (te_sort_key worst))
       | None => true
       end.

Definition rank_changes (shifted : list TopKEntry) (emit_timestamp : Z) : list (ChangelogRecord B) :=
  shifted ≫= λ e, let '(before, after) := ChangelogRecord_update (te_event e) (te_event e) emit_timestamp in
                  [before; after].

(** The insertion, the changes of rank and the eviction. *)
Definition insert_entry (k : nat) (entries : list TopKEntry) (sort_key : bytes) (event : Event B)
    (emit_timestamp : Z) : option (list TopKEntry * list (ChangelogRecord B)) :=
  let insert_pos := find_insert_position entries sort_key in
  entries ← vec_insert insert_pos (mkEntry sort_key event) entries;
  let changes := ChangelogRecord_insert event emit_timestamp ::
    rank_changes (drop (insert_pos + 1) (take (length entries `min` k) entries)) emit_timestamp in
  if decide (k < length entries)%nat then
    evicted ← last entries;
    Some (take (length entries - 1) entries,
          changes ++ [ChangelogRecord_delete (te_event evicted) emit_timestamp])
  else Some (entries, changes).

(** ** The streaming operator *)

Record StreamingTopKOperator := mkTopK {
  tk_operator_id : string;
  tk_k : nat;
  tk_sort_columns : list TopKSortColumn;
  tk_entries : list TopKEntry;
  tk_emit_strategy : TopKEmitStrategy;
  tk_pending_changes : list (ChangelogRecord B);
  tk_sequence_counter : Z;
  tk_current_watermark : Z;
  tk_cached_sort_indices : list (option nat) }.

Definition StreamingTopKOperator_new (operator_id : string) (k : nat)
    (sort_columns : list TopKSortColumn) (emit_strategy : TopKEmitStrategy) : StreamingTopKOperator :=
  mkTopK operator_id k sort_columns [] emit_strategy [] 0 i64_MIN
    (replicate (length sort_columns) None).

Definition TopK_len (op : StreamingTopKOperator) : nat := length (tk_entries op).
Definition TopK_is_empty (op : StreamingTopKOperator) : bool := bool_decide (tk_entries op = []).
Definition TopK_entries (op : StreamingTopKOperator) : list (Event B) := te_event <$> tk_entries op.
Definition TopK_pending_changes_count (op : StreamingTopKOperator) : nat := length (tk_pending_changes op).

Definition tk_with (entries : list TopKEntry) (pending : list (ChangelogRecord B)) (seq : Z)
    (cached : list (option nat)) (op : StreamingTopKOperator) : StreamingTopKOperator :=
  mkTopK (tk_operator_id op) (tk_k op) (tk_sort_columns op) entries (tk_emit_strategy op) pending seq
    (tk_current_watermark op) cached.

Definition TopK_extract_sort_key (event : Event B) (op : StreamingTopKOperator)
  : option (list (option nat) * bytes) :=
  extract_sort_key micros_only (ev_data event) (tk_sort_columns op) (tk_cached_sort_indices op).

Definition TopK_process_event (event : Event B) (emit_timestamp : Z) (op : StreamingTopKOperator)
  : option (StreamingTopKOperator * list (ChangelogRecord B)) :=
  '(cached, sort_key) ← TopK_extract_sort_key event op;
  if negb (would_enter_topk (tk_k op) (tk_entries op) sort_key)
  then Some (tk_with (tk_entries op) (tk_pending_changes op) (tk_sequence_counter op) cached op, [])
  else
    '(entries, changes) ← insert_entry (tk_k op) (tk_entries op) sort_key event emit_timestamp;
    Some (tk_with entries (tk_pending_changes op) (wrap_u64 (tk_sequence_counter op + 1)) cached op, changes).

Definition tk_set_pending (pending : list (ChangelogRecord B)) (op : StreamingTopKOperator) :=
  tk_with (tk_entries op) pending (tk_sequence_counter op) (tk_cached_sort_indices op) op.

Definition TopK_flush_pending (op : StreamingTopKOperator) : StreamingTopKOperator * list (Output B) :=
  (tk_set_pending [] op, OutChangelog <$> tk_pending_changes op).

Definition TopK_process (event : Event B) (op : StreamingTopKOperator)
  : option (StreamingTopKOperator * list (Output B)) :=
  '(op, changes) ← TopK_process_event event (ev_timestamp event) op;
  Some (match tk_emit_strategy op with
        | TkOnUpdate => (op, OutChangelog <$> changes)
        | TkOnWatermark | TkPeriodic _ => (tk_set_pending (tk_pending_changes op ++ changes) op, [])
        end).

Definition TopK_on_timer (op : StreamingTopKOperator) : StreamingTopKOperator * list (Output B) :=
  match tk_emit_strategy op with
  | TkPeriodic _ => TopK_flush_pending op
  | _ => (op, [])
  end.

(** ** Checkpoints *)

Definition entry_bytes (e : TopKEntry) : bytes :=
  to_le 8 (Z.of_nat (length (te_sort_key e))) ++ te_sort_key e ++ to_le 8 (ev_timestamp (te_event e)).

Definition TopK_checkpoint (op : StreamingTopKOperator) : OperatorState :=
  mkOperatorState (tk_operator_id op) 1
    (to_le 8 (Z.of_nat (length (tk_entries op))) ++ to_le 8 (tk_current_watermark op) ++
     to_le 8 (tk_sequence_counter op) ++ (tk_entries op ≫= entry_bytes)).

(** One entry at an offset; the messages for a missing length and a missing key. *)
Definition restore_topk_entry (at_len at_key : string) (data : bytes) (offset : Z)
  : option (TopKEntry * Z + OperatorError) :=
  if Z.of_nat (length data) <? usize_add offset 8 then Some (inr (SerializationFailed at_len)) else
  key_len ← u64_at data offset;
  let offset := usize_add offset 8 in
  if Z.of_nat (length data) <? usize_add (usize_add offset key_len) 8
  then Some (inr (SerializationFailed at_key)) else
  sort_key ← slice_of data offset (usize_add offset key_len);
  let offset := usize_add offset key_len in
  timestamp ← i64_at data offset;
  Some (inl (mkEntry sort_key (mkEvent timestamp empty_batch), usize_add offset 8)).

(** The loop; on an error the entries read so far stay. *)
Fixpoint restore_entries (at_len at_key : string) (count : nat) (data : bytes) (offset : Z)
    (entries : list TopKEntry) : option (list TopKEntry * (Z + OperatorError)) :=
  match count with
  | O => Some (entries, inl offset)
  | S count =>
      res ← restore_topk_entry at_len at_key data offset;
      match res with
      | inr e => Some (entries, inr e)
      | inl (entry, offset) => restore_entries at_len at_key count data offset (entries ++ [entry])
      end
  end.

Definition tk_restored (wm seq : Z) (entries : list TopKEntry) (op : StreamingTopKOperator) :=
  mkTopK (tk_operator_id op) (tk_k op) (tk_sort_columns op) entries (tk_emit_strategy op)
    (tk_pending_changes op) seq wm (tk_cached_sort_indices op).

Definition TopK_restore (state : OperatorState) (op : StreamingTopKOperator)
  : option (StreamingTopKOperator * (unit + OperatorError)) :=
  let data := os_data state in
  if decide (length data < 24)%nat
  then Some (op, inr (SerializationFailed "TopK checkpoint data too short")) else
  count ← u64_at data 0;
  wm ← i64_at data 8;
  seq ← u64_at data 16;
  '(entries, res) ← restore_entries "TopK checkpoint truncated" "TopK checkpoint truncated at key"
                      (Z.to_nat count) data 24 [];
  Some (tk_restored wm seq entries op, match res with inl _ => inl tt | inr e => inr e end).
End TopK.

(** ** The search law *)

Lemma linear_search_spec l : ∀ x k, StronglySorted bytes_le l →
  match linear_search l x k with
  | inl i => ∃ j, i = (k + j)%nat ∧ l !! j = Some x
  | inr i => ∃ j, i = (k + j)%nat ∧ (j <= length l)%nat ∧ Forall (λ y, bytes_lt y x) (take j l) ∧
      Forall (λ y, bytes_lt x y) (drop j l)
  end.
Proof.
  induction l as [|y l IH]; intros x k Hs; cbn [linear_search].
  { exists 0%nat. rewrite Nat.add_0_r. split_and!; [done|done|constructor|constructor]. }
  apply StronglySorted_inv in Hs as [Hs Hy]. destruct (bytes_cmp y x) eqn:E.
  - apply bytes_cmp_eq in E as ->. exists 0%nat. by rewrite Nat.add_0_r.
  - specialize (IH x (S k) Hs). destruct (linear_search l x (S k)) as [i|i].
    + destruct IH as (j & -> & Hj). exists (S j). split; [lia|done].
    + destruct IH as (j & -> & Hj & Ht & Hd). exists (S j). cbn [length take drop].
      split_and!; [lia|lia|by constructor|done].
  - assert (Hxy : bytes_lt x y) by (unfold bytes_lt; rewrite bytes_cmp_antisym, E; done).
    exists 0%nat. rewrite Nat.add_0_r. split_and!; [done|cbn; lia|constructor|]. cbn [drop].
    constructor; [done|]. eapply Forall_impl; [exact Hy|]. intros z Hyz. cbn in Hyz.
    apply bytes_le_lt_eq in Hyz as [Hyz|<-]; [by eapply bytes_lt_trans|done].
Qed.

#[global] Instance linear_binary_search_laws : BinarySearchLaws.
Proof.
  split; unfold binary_search, linear_binary_search; intros l x i Hs Hl;
    pose proof (linear_search_spec l x 0 Hs) as H; rewrite Hl in H; destruct H as (j & -> & H).
  - exact H.
  - exact H.
Qed.

(** ** The entries *)

Section Facts.
Context {B : Type} `{AB : !ArrowBatch B} `{BS : !BinarySearch} `{BL : !BinarySearchLaws}.
Abbreviation Entry := (TopKEntry (B:=B)).
Implicit Types (entries rest : list Entry).

Definition entry_le (a b : Entry) : Prop := bytes_le (te_sort_key a) (te_sort_key b).
Definition entries_sorted entries : Prop := StronglySorted entry_le entries.

Lemma keys_sorted entries : entries_sorted entries → StronglySorted bytes_le (te_sort_key <$> entries).
Proof.
  induction 1 as [|x l _ IH Hx]; cbn; constructor; [done|].
  apply Forall_fmap. eapply Forall_impl; [exact Hx|]. done.
Qed.

(** Everything before the position is at most the key, everything behind at least. *)
Lemma insert_position_spec entries key : entries_sorted entries →
  (find_insert_position entries key <= length entries)%nat ∧
  Forall (λ e, bytes_le (te_sort_key e) key) (take (find_insert_position entries key) entries) ∧
  Forall (λ e, bytes_le key (te_sort_key e)) (drop (find_insert_position entries key) entries).
Proof.
  intros Hs. pose proof (keys_sorted entries Hs) as Hk. unfold find_insert_position.
  destruct (binary_search (te_sort_key <$> entries) key) as [i|i] eqn:E.
  - apply binary_search_ok in E; [|done]. rewrite list_lookup_fmap, fmap_Some in E.
    destruct E as (e & He & ->). pose proof (lookup_lt_Some _ _ _ He) as Hlt.
    pose proof (take_drop_middle entries i e He) as Hmid. split; [lia|].
    unfold entries_sorted in Hs. rewrite <- Hmid in Hs. apply StronglySorted_app in Hs as (H1 & H2 & H3).
    rewrite (drop_S _ _ _ He). split.
    + apply Forall_forall. intros x Hx. apply (H1 x e Hx). left.
    + constructor; [apply bytes_le_lt_eq; by right|]. apply StronglySorted_inv in H3 as [_ H3]. exact H3.
  - apply binary_search_err in E as (Hi & Ht & Hd); [|done].
    rewrite length_fmap in Hi. rewrite <- fmap_take, Forall_fmap in Ht. rewrite <- fmap_drop, Forall_fmap in Hd.
    split_and!; [done|eapply Forall_impl; [exact Ht|]|eapply Forall_impl; [exact Hd|]];
      intros x Hx; apply bytes_le_lt_eq; by left.
Qed.

(** The events a changelog adds and removes. *)
Definition added (cs : list (ChangelogRecord B)) : list (Event B) :=
  cl_event <$> filter (λ r, cl_weight r = 1) cs.
Definition removed (cs : list (ChangelogRecord B)) : list (Event B) :=
  cl_event <$> filter (λ r, cl_weight r = -1) cs.

Lemma added_app cs cs' : added (cs ++ cs') = added cs ++ added cs'.
Proof. unfold added. by rewrite filter_app, fmap_app. Qed.
Lemma removed_app cs cs' : removed (cs ++ cs') = removed cs ++ removed cs'.
Proof. unfold removed. by rewrite filter_app, fmap_app. Qed.

Lemma rank_changes_balanced l ts :
  added (rank_changes l ts) = te_event <$> l ∧ removed (rank_changes l ts) = te_event <$> l.
Proof.
  induction l as [|e l [IHa IHr]]; [done|]. unfold rank_changes. rewrite bind_cons. fold (rank_changes l ts).
  rewrite added_app, removed_app, IHa, IHr. done.
Qed.

Lemma change_insert e ts :
  added [ChangelogRecord_insert e ts] = [e] ∧ removed [ChangelogRecord_insert e ts] = [].
Proof. split; reflexivity. Qed.
Lemma change_delete e ts :
  added [ChangelogRecord_delete e ts] = [] ∧ removed [ChangelogRecord_delete e ts] = [e].
Proof. split; reflexivity. Qed.

Lemma vec_insert_sorted entries key event : entries_sorted entries →
  let pos := find_insert_position entries key in
  let full := take pos entries ++ mkEntry key event :: drop pos entries in
  vec_insert pos (mkEntry key event) entries = Some full ∧ entries_sorted full ∧
  full ≡ₚ mkEntry key event :: entries.
Proof.
  intros Hs pos full. destruct (insert_position_spec entries key Hs) as (Hpos & Hb & Ha). fold pos in Hpos, Hb, Ha.
  split; [unfold vec_insert; by rewrite decide_True|]. split.
  - unfold entries_sorted in *. rewrite <- (take_drop pos entries) in Hs.
    apply StronglySorted_app in Hs as (H1 & H2 & H3). rewrite Forall_forall in Hb, Ha.
    apply StronglySorted_app_2; [|done|constructor; [done|by apply Forall_forall]].
    intros x y Hx [->|Hy]%elem_of_cons; [by apply Hb|by apply H1].
  - unfold full. rewrite <- Permutation_middle. by rewrite take_drop.
Qed.

(** The result of entering an event: sorted, with what was pushed out, and a
    changelog that turns the old contents into the new. *)
Lemma insert_entry_spec k entries key event ts : entries_sorted entries → (length entries <= k)%nat →
  ∃ entries' changes out, insert_entry k entries key event ts = Some (entries', changes) ∧
    entries_sorted entries' ∧ entries' ++ out ≡ₚ mkEntry key event :: entries ∧
    (∀ x y, x ∈ entries' → y ∈ out → entry_le x y) ∧ length entries' = (k `min` S (length entries))%nat ∧
    added changes ++ (te_event <$> entries) ≡ₚ removed changes ++ (te_event <$> entries').
Proof.
  intros Hs Hk. unfold insert_entry.
  destruct (vec_insert_sorted entries key event Hs) as (-> & Hfs & Hperm). cbn [mbind option_bind].
  set (full := take _ entries ++ _) in *. set (ranks := rank_changes _ ts).
  assert (Hbal : added ranks = removed ranks).
  { unfold ranks. destruct (rank_changes_balanced (drop (find_insert_position entries key + 1)
      (take (length full `min` k) full)) ts) as [-> ->]. done. }
  pose proof (Permutation_length Hperm) as Hlen. cbn [length] in Hlen.
  pose proof (fmap_Permutation te_event _ _ Hperm) as Hev. cbn [fmap list_fmap te_event] in Hev.
  case_decide as Hover.
  - destruct (last full) as [x|] eqn:Hlast; [|apply last_None in Hlast; by rewrite Hlast in Hlen].
    apply last_Some in Hlast as [l Hl]. cbn [mbind option_bind]. rewrite Hl in Hfs, Hperm, Hlen, Hev, Hover |- *.
    rewrite length_app in *. cbn [length] in *. replace (length l + 1 - 1)%nat with (length l) by lia.
    rewrite take_app_length. eexists _, _, [x]. split; [done|].
    apply StronglySorted_app in Hfs as (Hle & Hls & _). split_and!; [done|done| |lia|].
    + intros y z Hy ->%list_elem_of_singleton. apply Hle; [done|left].
    + change (ChangelogRecord_insert event ts :: ranks) with ([ChangelogRecord_insert event ts] ++ ranks).
      destruct (change_insert event ts) as [Hia Hir], (change_delete (te_event x) ts) as [Hda Hdr].
      rewrite !added_app, !removed_app, Hbal, Hia, Hir, Hda, Hdr, app_nil_r.
      rewrite fmap_app in Hev. cbn in Hev. rewrite <- !app_assoc. cbn [app].
      rewrite Permutation_middle. apply Permutation_app_head. rewrite <- Hev. symmetry. apply Permutation_cons_append.
  - eexists _, _, []. rewrite app_nil_r. split; [done|]. split_and!; [done|done| |lia|].
    + by intros x y _ ?%elem_of_nil.
    + change (ChangelogRecord_insert event ts :: ranks) with ([ChangelogRecord_insert event ts] ++ ranks).
      destruct (change_insert event ts) as [Hia Hir].
      rewrite added_app, removed_app, Hbal, Hia, Hir. cbn [app].
      rewrite Permutation_middle. apply Permutation_app_head. by rewrite Hev.
Qed.

(** *** The least [k] of the entries seen *)

Definition topk_of (k : nat) (seen : list Entry) entries : Prop :=
  entries_sorted entries ∧ length entries = (k `min` length seen)%nat ∧
  ∃ rest, entries ++ rest ≡ₚ seen ∧ ∀ x y, x ∈ entries → y ∈ rest → entry_le x y.

Lemma topk_of_nil k : topk_of k [] [].
Proof.
  split; [constructor|]. split; [cbn; lia|]. exists []. split; [done|]. by intros x y ?%elem_of_nil.
Qed.

Lemma entry_le_trans x y z : entry_le x y → entry_le y z → entry_le x z.
Proof. unfold entry_le. intros. by etrans. Qed.

Lemma sorted_last entries x y : entries_sorted entries → last entries = Some x → y ∈ entries → entry_le y x.
Proof.
  intros Hs [l ->]%last_Some. apply StronglySorted_app in Hs as (Hle & _ & _).
  intros [Hy| ->%list_elem_of_singleton]%elem_of_app; [apply Hle; [done|left]|].
  unfold entry_le. apply bytes_le_lt_eq. by right.
Qed.

Lemma topk_of_refused k seen entries new : topk_of k seen entries →
  would_enter_topk k entries (te_sort_key new) = false → topk_of k (new :: seen) entries.
Proof.
  intros (Hs & Hlen & rest & Hperm & Hle) Hno. unfold would_enter_topk in Hno. case_decide as Hk; [done|].
  destruct (last entries) as [worst|] eqn:Hlast; [|done]. apply bool_decide_eq_false in Hno.
  rewrite bytes_nlt_le in Hno. pose proof (Permutation_length Hperm) as Hpl. rewrite length_app in Hpl.
  split; [done|]. split; [cbn; lia|]. exists (new :: rest). split; [rewrite <- Permutation_middle; by constructor|].
  intros x y Hx [->|Hy]%elem_of_cons; [|by apply Hle]. eapply entry_le_trans; [by eapply sorted_last|exact Hno].
Qed.

Lemma topk_of_entered k seen entries new entries' out : topk_of k seen entries →
  would_enter_topk k entries (te_sort_key new) = true → entries_sorted entries' →
  entries' ++ out ≡ₚ new :: entries → (∀ x y, x ∈ entries' → y ∈ out → entry_le x y) →
  length entries' = (k `min` S (length entries))%nat → topk_of k (new :: seen) entries'.
Proof.
  intros (Hs & Hlen & rest & Hperm & Hle) Hyes Hs' Hperm' Hle' Hlen'.
  pose proof (Permutation_length Hperm) as Hpl. rewrite length_app in Hpl.
  split; [done|]. split; [cbn; lia|]. exists (out ++ rest). split.
  - rewrite app_assoc, Hperm'. cbn. by rewrite Hperm.
  - intros x y Hx [Hy|Hy]%elem_of_app; [by apply Hle'|].
    assert (x ∈ new :: entries) as [->|Hxe]%elem_of_cons; [|..|by apply Hle].
    { rewrite <- Hperm'. apply elem_of_app. by left. }
    destruct rest as [|r0 rest0]; [by apply elem_of_nil in Hy|]. cbn [length] in Hpl.
    unfold would_enter_topk in Hyes. case_decide as Hk; [lia|].
    destruct (last entries) as [worst|] eqn:Hlast.
    + apply bool_decide_eq_true in Hyes. eapply (entry_le_trans _ worst).
      * apply bytes_le_lt_eq. by left.
      * apply Hle; [|done]. apply last_Some in Hlast as [l ->]. set_solver.
    + apply last_None in Hlast. subst entries. cbn [length] in *. assert (length entries' = 0%nat) by lia.
      destruct entries'; [by apply elem_of_nil in Hx|done].
Qed.

(** *** Runs *)

Inductive TopKInput := TkEvent (e : Event B) | TkTimer.

Definition TopK_step (i : TopKInput) (op : StreamingTopKOperator (B:=B))
  : option (StreamingTopKOperator * list (Output B)) :=
  match i with TkEvent e => TopK_process e op | TkTimer => Some (TopK_on_timer op) end.

Fixpoint TopK_run (inputs : list TopKInput) (op : StreamingTopKOperator (B:=B))
  : option (StreamingTopKOperator * list (Output B)) :=
  match inputs with
  | [] => Some (op, [])
  | i :: inputs =>
      '(op, out) ← TopK_step i op;
      '(op, outs) ← TopK_run inputs op;
      Some (op, out ++ outs)
  end.

Definition input_events (inputs : list TopKInput) : list (Event B) :=
  inputs ≫= λ i, match i with TkEvent e => [e] | TkTimer => [] end.
Definition changes_of (outs : list (Output B)) : list (ChangelogRecord B) :=
  outs ≫= λ o, match o with OutChangelog r => [r] | _ => [] end.

(** The row of the sort columns of an event, and its entry. *)
Definition row_of (columns : list TopKSortColumn) (e : Event B) : list Cell :=
  default [] (row_at (ev_data e) (schema_indices columns (ev_data e))).
Definition entry_of (columns : list TopKSortColumn) (e : Event B) : Entry :=
  mkEntry (row_key micros_only columns (row_of columns e)) e.

(** Events of one schema, with a row. *)
Definition readable (columns : list TopKSortColumn) (indices : list (option nat)) (e : Event B) : Prop :=
  schema_indices columns (ev_data e) = indices ∧ is_Some (row_at (ev_data e) indices).

Lemma extract_readable columns indices cached e : readable columns indices e → cache_ok cached indices →
  extract_sort_key micros_only (ev_data e) columns cached
  = Some (indices, te_sort_key (entry_of columns e)).
Proof.
  intros [<- [row Hrow]] Hc. cbn. unfold row_of. rewrite Hrow. cbn. by apply extract_sort_key_spec.
Qed.

Lemma changes_of_changelog cs : changes_of (OutChangelog <$> cs) = cs.
Proof. unfold changes_of. induction cs as [|c cs IH]; [done|]. cbn [fmap list_fmap]. rewrite bind_cons. cbn. by f_equal. Qed.
Lemma changes_of_app o o' : changes_of (o ++ o') = changes_of o ++ changes_of o'.
Proof. apply bind_app. Qed.

(** The operator after some inputs: the least entries of those seen, and what has
    been emitted or is pending leads from nothing to them. *)
Record topk_inv (columns : list TopKSortColumn) (indices : list (option nat)) (seen : list (Event B))
    (outs : list (Output B)) (op : StreamingTopKOperator (B:=B)) : Prop := {
  tki_columns : tk_sort_columns op = columns;
  tki_cache : cache_ok (tk_cached_sort_indices op) indices;
  tki_entries : topk_of (tk_k op) (entry_of columns <$> seen) (tk_entries op);
  tki_balance : added (changes_of outs ++ tk_pending_changes op) ≡ₚ
    removed (changes_of outs ++ tk_pending_changes op) ++ TopK_entries op;
  tki_pending : tk_emit_strategy op = TkOnUpdate → tk_pending_changes op = [] }.

Lemma balance_step (old new : list (ChangelogRecord B)) (before after : list (Event B)) :
  added old ≡ₚ removed old ++ before → added new ++ before ≡ₚ removed new ++ after →
  added (old ++ new) ≡ₚ removed (old ++ new) ++ after.
Proof.
  intros Ho Hn. rewrite added_app, removed_app, Ho. rewrite <- !app_assoc. apply Permutation_app_head.
  rewrite <- Hn. apply Permutation_app_comm.
Qed.

Lemma topk_process_event_spec columns indices e op : readable columns indices e →
  tk_sort_columns op = columns → cache_ok (tk_cached_sort_indices op) indices →
  ∀ seen, topk_of (tk_k op) seen (tk_entries op) →
  ∃ entries changes seq, TopK_process_event e (ev_timestamp e) op
      = Some (tk_with entries (tk_pending_changes op) seq indices op, changes) ∧
    topk_of (tk_k op) (entry_of columns e :: seen) entries ∧
    added changes ++ TopK_entries op ≡ₚ removed changes ++ (te_event <$> entries).
Proof.
  intros Hr Hcol Hc seen Htk. unfold TopK_process_event, TopK_extract_sort_key. rewrite Hcol.
  rewrite (extract_readable columns indices _ e Hr Hc). cbn [mbind option_bind].
  destruct (would_enter_topk _ _ _) eqn:Hw; cbn [negb].
  - destruct (insert_entry_spec (tk_k op) (tk_entries op) (te_sort_key (entry_of columns e)) e (ev_timestamp e))
      as (entries' & changes & out & -> & Hs' & Hp & Hle & Hlen & Hbal); [apply Htk|destruct Htk as (_ & -> & _); lia|].
    cbn [mbind option_bind]. eexists _, _, _. split; [done|]. split; [|done]. by eapply topk_of_entered.
  - eexists _, _, _. split; [done|]. split; [by apply topk_of_refused|]. done.
Qed.

Lemma topk_inv_event columns indices seen outs op e : topk_inv columns indices seen outs op →
  readable columns indices e → ∃ op' out, TopK_process e op = Some (op', out) ∧
    topk_inv columns indices (e :: seen) (outs ++ out) op' ∧ tk_k op' = tk_k op ∧
    tk_emit_strategy op' = tk_emit_strategy op.
Proof.
  intros [Hcol Hc Htk Hbal Hpend] Hr. unfold TopK_process.
  destruct (topk_process_event_spec columns indices e op Hr Hcol Hc _ Htk) as (entries & changes & seq & -> & Htk' & Hb).
  cbn [mbind option_bind tk_with tk_emit_strategy].
  pose proof (balance_step _ _ _ _ Hbal Hb) as Hstep.
  destruct (tk_emit_strategy op) eqn:He; eexists _, _; (split; [done|]); (split; [|done]);
    (split; [done|apply cache_ok_refl|done| |]); rewrite ?changes_of_app, ?changes_of_changelog; cbn.
  - rewrite (Hpend eq_refl), app_nil_r in Hstep |- *. exact Hstep.
  - intros _. by apply Hpend.
  - by rewrite app_nil_r, app_assoc.
  - by rewrite He.
  - by rewrite app_nil_r, app_assoc.
  - by rewrite He.
Qed.

Lemma topk_inv_timer columns indices seen outs op : topk_inv columns indices seen outs op →
  let '(op', out) := TopK_on_timer op in
  topk_inv columns indices seen (outs ++ out) op' ∧ tk_k op' = tk_k op ∧
    tk_emit_strategy op' = tk_emit_strategy op.
Proof.
  intros [Hcol Hc Htk Hbal Hpend]. unfold TopK_on_timer.
  destruct (tk_emit_strategy op) eqn:He; cbn; rewrite He; (split; [|done]); split; cbn; try done;
    rewrite ?app_nil_r, ?changes_of_app, ?changes_of_changelog; try done; by rewrite He.
Qed.

Lemma topk_run_inv columns indices inputs : ∀ seen outs op, topk_inv columns indices seen outs op →
  Forall (readable columns indices) (input_events inputs) →
  ∃ op' out, TopK_run inputs op = Some (op', out) ∧
    topk_inv columns indices (reverse (input_events inputs) ++ seen) (outs ++ out) op' ∧
    tk_k op' = tk_k op ∧ tk_emit_strategy op' = tk_emit_strategy op.
Proof.
  induction inputs as [|i inputs IH]; intros seen outs op Hinv Hr; cbn [TopK_run].
  { exists op, []. by rewrite app_nil_r. }
  unfold input_events in Hr |- *. rewrite bind_cons in Hr |- *. fold (input_events inputs) in Hr |- *.
  apply Forall_app in Hr as [Hi Hr].
  assert (Hstep : ∃ op1 out1, TopK_step i op = Some (op1, out1) ∧
    topk_inv columns indices (reverse (match i with TkEvent e => [e] | TkTimer => [] end) ++ seen) (outs ++ out1) op1 ∧
    tk_k op1 = tk_k op ∧ tk_emit_strategy op1 = tk_emit_strategy op).
  { destruct i as [e|]; cbn.
    - apply topk_inv_event; [done|]. by apply Forall_singleton.
    - pose proof (topk_inv_timer columns indices seen outs op Hinv) as Ht.
      destruct (TopK_on_timer op) as [op1 out1]. by exists op1, out1. }
  destruct Hstep as (op1 & out1 & -> & Hinv1 & Hk1 & Hs1). cbn [mbind option_bind].
  destruct (IH _ _ op1 Hinv1 Hr) as (op' & out & -> & Hinv' & Hk' & Hs'). cbn [mbind option_bind].
  exists op', (out1 ++ out). split; [done|]. rewrite reverse_app, <- app_assoc, (app_assoc outs).
  split; [done|]. split; congruence.
Qed.

(** *** Rows of one schema *)

Record one_schema (columns : list TopKSortColumn) (events : list (Event B)) : Prop := {
  os_readable : ∃ indices, length indices = length columns ∧ Forall (readable columns indices) events;
  os_cells e : e ∈ events → Forall cell_ok (row_of columns e);
  os_types e e' : e ∈ events → e' ∈ events → Forall2 same_type (row_of columns e) (row_of columns e') }.

(** The order of the rows, nulls on the side the keys put them. *)
Definition row_le (columns : list TopKSortColumn) (e e' : Event B) : Prop :=
  row_cmp micros_only nulls_coded columns (row_of columns e) (row_of columns e') ≠ Gt.

Lemma row_of_length columns indices e : readable columns indices e →
  length (row_of columns e) = length columns.
Proof.
  intros [Hi [row Hrow]]. unfold row_of. rewrite Hi, Hrow. cbn. apply length_mapM in Hrow.
  rewrite <- Hrow, <- Hi. apply length_fmap.
Qed.

Lemma entry_le_rows columns events e e' : one_schema columns events → e ∈ events → e' ∈ events →
  entry_le (entry_of columns e) (entry_of columns e') → row_le columns e e'.
Proof.
  intros [(indices & _ & Hr) Hc Ht] He He'. rewrite Forall_forall in Hr. unfold entry_le, row_le, bytes_le. cbn.
  rewrite row_key_cmp; eauto using row_of_length, micros_only_exact.
Qed.

(** Least entries are least rows. *)
Lemma topk_of_rows columns events k entries : one_schema columns events →
  topk_of k (entry_of columns <$> reverse events) entries →
  ∃ others, (te_event <$> entries) ++ others ≡ₚ events ∧
    length entries = (k `min` length events)%nat ∧
    StronglySorted (row_le columns) (te_event <$> entries) ∧
    ∀ x y, x ∈ te_event <$> entries → y ∈ others → row_le columns x y.
Proof.
  intros Hos (Hs & Hlen & rest & Hperm & Hle).
  assert (Hin : ∀ x, x ∈ entries ++ rest → ∃ e, e ∈ events ∧ x = entry_of columns e).
  { intros x. rewrite Hperm. intros (e & -> & He)%list_elem_of_fmap. exists e. split; [|done]. by apply elem_of_reverse. }
  assert (Hrow : ∀ x y, x ∈ entries ++ rest → y ∈ entries ++ rest → entry_le x y →
    row_le columns (te_event x) (te_event y)).
  { intros x y Hx Hy. destruct (Hin x Hx) as (e & He & ->), (Hin y Hy) as (e' & He' & ->).
    by apply (entry_le_rows columns events). }
  exists (te_event <$> rest). split_and!.
  - rewrite <- fmap_app, Hperm, reverse_Permutation, <- list_fmap_compose. by rewrite list_fmap_id.
  - by rewrite Hlen, length_fmap, length_reverse.
  - assert (Hsub : ∀ x, x ∈ entries → x ∈ entries ++ rest) by (intros; apply elem_of_app; by left).
    clear -Hs Hrow Hsub. induction Hs as [|x l _ IH Hx]; cbn; constructor.
    + apply IH; set_solver.
    + apply Forall_fmap, Forall_forall. intros y Hy. rewrite Forall_forall in Hx. apply Hrow; [| |by apply Hx]; set_solver.
  - intros x y (x' & -> & Hx)%list_elem_of_fmap (y' & -> & Hy)%list_elem_of_fmap.
    apply Hrow; [apply elem_of_app; by left|apply elem_of_app; by right|by apply Hle].
Qed.

(** *** Checkpoints *)

Lemma slice_of_app (p x q : bytes) : slice_of (p ++ x ++ q) (zlen p) (zlen p + zlen x) = Some x.
Proof.
  unfold slice_of. rewrite !length_app. rewrite !(proj2 (Z.leb_le _ _)) by lia. cbn [andb].
  replace (Z.to_nat (zlen p + zlen x - zlen p)) with (length x) by lia.
  rewrite Nat2Z.id, drop_app_length, take_app_length. done.
Qed.

Lemma usize_add_small a b : 0 <= a + b < u64_MOD → usize_add a b = a + b.
Proof. intros. by apply Z.mod_small. Qed.

Lemma u64_at_app (p q : bytes) z : is_u64 z → zlen (p ++ to_le 8 z ++ q) < u64_MOD →
  u64_at (p ++ to_le 8 z ++ q) (zlen p) = Some z.
Proof.
  intros Hz Hl. rewrite !length_app, to_le_length in Hl. unfold u64_at. rewrite usize_add_small by lia.
  replace 8 with (zlen (to_le 8 z)) at 2 by (by rewrite to_le_length). rewrite slice_of_app. cbn [fmap option_fmap option_map].
  f_equal. apply from_to_le. exact Hz.
Qed.

Lemma from_to_le_i64 z : is_i64 z → wrap_i64 (from_le (to_le 8 z)) = z.
Proof.
  intros Hz. unfold from_le, to_le. rewrite reverse_involutive. exact (i64_be_roundtrip z Hz).
Qed.

Lemma i64_at_app (p q : bytes) z : is_i64 z → zlen (p ++ to_le 8 z ++ q) < u64_MOD →
  i64_at (p ++ to_le 8 z ++ q) (zlen p) = Some z.
Proof.
  intros Hz Hl. rewrite !length_app, to_le_length in Hl. unfold i64_at. rewrite usize_add_small by lia.
  replace 8 with (zlen (to_le 8 z)) at 2 by (by rewrite to_le_length). rewrite slice_of_app. cbn [fmap option_fmap option_map].
  f_equal. by apply from_to_le_i64.
Qed.

(** What a restored entry keeps. *)
Definition placeholder (e : Entry) : Entry :=
  mkEntry (te_sort_key e) (mkEvent (ev_timestamp (te_event e)) empty_batch).

Lemma restore_topk_entry_app al ak (p q : bytes) (e : Entry) : is_i64 (ev_timestamp (te_event e)) →
  zlen (p ++ entry_bytes e ++ q) < u64_MOD →
  restore_topk_entry al ak (p ++ entry_bytes e ++ q) (zlen p)
  = Some (inl (placeholder e, zlen (p ++ entry_bytes e))).
Proof.
  intros Ht Hl. unfold restore_topk_entry, entry_bytes in *. set (key := te_sort_key e) in *.
  set (ts := ev_timestamp (te_event e)) in *. rewrite <- !app_assoc in *.
  set (data := p ++ _) in *. assert (Hlen : zlen data = zlen p + 8 + zlen key + 8 + zlen q).
  { unfold data. rewrite !length_app, !to_le_length. lia. }
  rewrite (usize_add_small (zlen p) 8) by lia. rewrite (proj2 (Z.ltb_ge _ _)) by lia.
  assert (u64_at data (zlen p) = Some (zlen key)) as ->.
  { unfold data in *. apply u64_at_app; [|done]. unfold is_u64. lia. }
  cbn [mbind option_bind]. rewrite !(usize_add_small (zlen p + 8)) by lia.
  rewrite (usize_add_small (zlen p + 8 + zlen key)) by lia. rewrite (proj2 (Z.ltb_ge _ _)) by lia.
  assert (slice_of data (zlen p + 8) (zlen p + 8 + zlen key) = Some key) as ->.
  { replace (zlen p + 8) with (zlen (p ++ to_le 8 (zlen key))) by (rewrite length_app, to_le_length; lia).
    unfold data. rewrite (app_assoc p). apply slice_of_app. }
  cbn [mbind option_bind].
  assert (i64_at data (zlen p + 8 + zlen key) = Some ts) as ->.
  { replace (zlen p + 8 + zlen key) with (zlen ((p ++ to_le 8 (zlen key)) ++ key))
      by (rewrite !length_app, to_le_length; lia).
    unfold data in *. rewrite (app_assoc p), (app_assoc _ key) in *. by apply i64_at_app. }
  cbn [mbind option_bind]. do 3 f_equal. rewrite !length_app, !to_le_length. lia.
Qed.

Lemma restore_entries_app al ak (l : list Entry) : ∀ (p q : bytes) acc,
  Forall (λ e, is_i64 (ev_timestamp (te_event e))) l → zlen (p ++ (l ≫= entry_bytes) ++ q) < u64_MOD →
  restore_entries al ak (length l) (p ++ (l ≫= entry_bytes) ++ q) (zlen p) acc
  = Some (acc ++ (placeholder <$> l), inl (zlen (p ++ (l ≫= entry_bytes)))).
Proof.
  induction l as [|e l IH]; intros p q acc Ht Hl.
  { cbn. by rewrite !app_nil_r. }
  apply Forall_cons in Ht as [He Ht]. cbn [length restore_entries]. rewrite bind_cons in *.
  rewrite <- !app_assoc in *. rewrite restore_topk_entry_app by done. cbn [mbind option_bind].
  rewrite (app_assoc p) in *. rewrite IH by done. by rewrite <- !app_assoc.
Qed.

Lemma topk_restore_spec (op op0 : StreamingTopKOperator (B:=B)) :
  is_i64 (tk_current_watermark op) → is_u64 (tk_sequence_counter op) →
  Forall (λ e, is_i64 (ev_timestamp (te_event e))) (tk_entries op) →
  zlen (os_data (TopK_checkpoint op)) < u64_MOD →
  TopK_restore (TopK_checkpoint op) op0
  = Some (tk_restored (tk_current_watermark op) (tk_sequence_counter op)
            (placeholder <$> tk_entries op) op0, inl tt).
Proof.
  intros Hw Hq Ht Hl. unfold TopK_restore. cbn [os_data TopK_checkpoint] in *.
  set (n := zlen (tk_entries op)) in *. set (wm := tk_current_watermark op) in *.
  set (sq := tk_sequence_counter op) in *. set (body := tk_entries op ≫= entry_bytes) in *.
  assert (Hn : is_u64 n).
  { rewrite !length_app, !to_le_length in Hl. unfold is_u64, n. split; [lia|].
    assert (length (tk_entries op) <= length body)%nat; [|lia]. unfold body. clear.
    induction (tk_entries op) as [|e l IH]; [done|]. rewrite bind_cons, length_app. unfold entry_bytes at 1.
    rewrite !length_app, !to_le_length. cbn [length]. lia. }
  set (data := to_le 8 n ++ _) in *.
  rewrite decide_False by (unfold data; rewrite !length_app, !to_le_length; lia).
  assert (u64_at data 0 = Some n) as ->.
  { change 0 with (zlen ([] : bytes)). change data with ([] ++ data) in Hl |- *. by apply u64_at_app. }
  assert (i64_at data 8 = Some wm) as ->.
  { replace 8 with (zlen (to_le 8 n)) by (by rewrite to_le_length). by apply i64_at_app. }
  assert (u64_at data 16 = Some sq) as ->.
  { replace 16 with (zlen (to_le 8 n ++ to_le 8 wm)) by (by rewrite length_app, !to_le_length).
    unfold data in *. rewrite (app_assoc (to_le 8 n)) in *. by apply u64_at_app. }
  cbn [mbind option_bind]. unfold n at 1. rewrite Nat2Z.id.
  replace 24 with (zlen (to_le 8 n ++ to_le 8 wm ++ to_le 8 sq)) by (by rewrite !length_app, !to_le_length).
  assert (data = (to_le 8 n ++ to_le 8 wm ++ to_le 8 sq) ++ body ++ []) as Hd.
  { unfold data. by rewrite app_nil_r, <- !app_assoc. }
  rewrite Hd in Hl |- *. unfold body in *. rewrite restore_entries_app by done. done.
Qed.
End Facts.

(** ** Properties *)

(** Rows with one integer column for the witnesses. *)
Definition price_event (ts price : Z) : Event (list (string * Cell)) := mkEvent ts [("price", CInt64 price)].
Definition price_columns : list TopKSortColumn := [TopKSortColumn_ascending "price"].
Definition price_inputs : list (TopKInput (B:=list (string * Cell))) :=
  [TkEvent (price_event 1 50); TkEvent (price_event 2 20); TkEvent (price_event 3 70); TkTimer;
   TkEvent (price_event 4 30)].

Lemma price_inputs_schema : one_schema price_columns (input_events price_inputs).
Proof.
  assert (Hin : ∀ e, e ∈ input_events price_inputs → ∃ ts p, e = price_event ts p ∧ is_i64 p).
  { cbn. intros e He. repeat (apply elem_of_cons in He as [->|He]; [eexists _, _; split; [done|unfold is_i64; lia]|]).
    by apply elem_of_nil in He. }
  split.
  - exists [Some 0%nat]. split; [done|]. apply Forall_forall. intros e (ts & p & -> & _)%Hin. split; [done|by eexists].
  - intros e (ts & p & -> & Hp)%Hin. cbn. repeat constructor; apply Hp.
  - intros e e' (ts & p & -> & _)%Hin (ts' & p' & -> & _)%Hin. cbn. repeat constructor.
Qed.

(** [C11]: The streaming top-k operator is exact. Fed any events of one schema and any
    timers, it never panics and holds, in order, [min k n] of the [n] events, such
    that no other event has a smaller row; and the changelog it has emitted,
    followed by the pending changes, adds exactly the events it removes plus the
    events held. With [OnUpdate] nothing is pending. *)
Theorem topk_run_exact {B} `{!ArrowBatch B} `{!BinarySearch} `{!BinarySearchLaws} operator_id k columns
    strategy (inputs : list (TopKInput (B:=B))) :
  one_schema columns (input_events inputs) →
  ∃ op outs others,
    TopK_run inputs (StreamingTopKOperator_new operator_id k columns strategy) = Some (op, outs) ∧
    TopK_entries op ++ others ≡ₚ input_events inputs ∧
    TopK_len op = (k `min` length (input_events inputs))%nat ∧
    StronglySorted (row_le columns) (TopK_entries op) ∧
    (∀ x y, x ∈ TopK_entries op → y ∈ others → row_le columns x y) ∧
    added (changes_of outs ++ tk_pending_changes op) ≡ₚ
      removed (changes_of outs ++ tk_pending_changes op) ++ TopK_entries op ∧
    (strategy = TkOnUpdate → tk_pending_changes op = []).
Proof.
  intros Hos. pose proof Hos as [(indices & Hlen & Hr) _ _].
  destruct (topk_run_inv columns indices inputs [] []
    (StreamingTopKOperator_new operator_id k columns strategy)) as (op & outs & Hrun & [_ _ Htk Hbal Hp] & Hk & Hs).
  - split; [done|by apply cache_ok_new|apply topk_of_nil|done|done].
  - done.
  - rewrite app_nil_r in Htk. rewrite Hk in Htk. cbn in Hk, Hs. rewrite Hs in Hp.
    destruct (topk_of_rows columns _ _ _ Hos Htk) as (others & Hperm & Hl & Hsort & Hle).
    exists op, outs, others. by split_and!.
Qed.

Lemma topk_run_exact_witness :
  ∃ op outs others,
    TopK_run price_inputs (StreamingTopKOperator_new "topk" 2 price_columns TkOnUpdate) = Some (op, outs) ∧
    TopK_entries op = [price_event 2 20; price_event 4 30] ∧
    TopK_entries op ++ others ≡ₚ input_events price_inputs ∧ length others = 2%nat.
Proof.
  destruct (topk_run_exact "topk" 2 price_columns TkOnUpdate price_inputs price_inputs_schema)
    as (op & outs & others & Hrun & Hperm & _).
  assert (Hc : (λ x, TopK_entries x.1) <$>
    TopK_run price_inputs (StreamingTopKOperator_new "topk" 2 price_columns TkOnUpdate)
    = Some [price_event 2 20; price_event 4 30]) by reflexivity.
  rewrite Hrun in Hc. injection Hc as Hc. exists op, outs, others. split; [exact Hrun|]. split; [exact Hc|].
  split; [exact Hperm|]. apply Permutation_length in Hperm. rewrite Hc in Hperm. cbn in Hperm. lia.
Defined.

(** With [OnWatermark], documented to buffer changes and emit them when the
    watermark advances, the operator never emits anything: only a timer of the
    [Periodic] strategy flushes, and nothing else does; the changes pile up. *)
Theorem topk_on_watermark_never_emits {B} `{!ArrowBatch B} `{!BinarySearch} (inputs : list (TopKInput (B:=B))) op op' outs :
  tk_emit_strategy op = TkOnWatermark → TopK_run inputs op = Some (op', outs) →
  outs = [] ∧ ∃ more, tk_pending_changes op' = tk_pending_changes op ++ more.
Proof.
  revert op op' outs. induction inputs as [|i inputs IH]; intros op op' outs Hs Hrun; cbn [TopK_run] in Hrun.
  { injection Hrun as <- <-. split; [done|]. exists []. by rewrite app_nil_r. }
  assert (Hstep : ∀ op1 out, TopK_step i op = Some (op1, out) → out = [] ∧ tk_emit_strategy op1 = TkOnWatermark ∧
    ∃ more, tk_pending_changes op1 = tk_pending_changes op ++ more).
  { intros op1 out. destruct i as [e|]; cbn [TopK_step].
    - unfold TopK_process, TopK_process_event. destruct (TopK_extract_sort_key _ _) as [[cached key]|]; cbn; [|done].
      destruct (would_enter_topk _ _ _); cbn; [destruct (insert_entry _ _ _ _ _) as [[entries changes]|]; cbn; [|done]|];
        rewrite Hs; intros [= <- <-]; cbn; eauto.
    - unfold TopK_on_timer. rewrite Hs. intros [= <- <-]. split_and!; [done|done|]. exists []. by rewrite app_nil_r. }
  destruct (TopK_step i op) as [[op1 out]|]; cbn in Hrun; [|done].
  destruct (Hstep op1 out eq_refl) as (-> & Hs1 & more & Hm).
  destruct (TopK_run inputs op1) as [[op2 outs2]|] eqn:Hrun2; cbn in Hrun; [|done]. injection Hrun as <- <-.
  destruct (IH op1 op2 outs2 Hs1 Hrun2) as (-> & more2 & Hm2). split; [done|].
  exists (more ++ more2). by rewrite Hm2, Hm, app_assoc.
Qed.

Lemma topk_on_watermark_never_emits_witness :
  ∃ op', TopK_run price_inputs (StreamingTopKOperator_new "topk" 2 price_columns TkOnWatermark) = Some (op', []) ∧
    length (tk_pending_changes op') = 6%nat.
Proof.
  destruct (TopK_run price_inputs (StreamingTopKOperator_new "topk" 2 price_columns TkOnWatermark))
    as [[op' outs]|] eqn:Hrun.
  - destruct (topk_on_watermark_never_emits price_inputs
      (StreamingTopKOperator_new "topk" 2 price_columns TkOnWatermark) op' outs) as [-> _]; [reflexivity|exact Hrun|].
    exists op'. split; [reflexivity|].
    assert (Hc : (λ x, length (tk_pending_changes x.1)) <$>
      TopK_run price_inputs (StreamingTopKOperator_new "topk" 2 price_columns TkOnWatermark) = Some 6%nat) by reflexivity.
    rewrite Hrun in Hc. by injection Hc.
  - exfalso. assert (Hc : (λ _, tt) <$>
      TopK_run price_inputs (StreamingTopKOperator_new "topk" 2 price_columns TkOnWatermark) = Some tt) by reflexivity.
    rewrite Hrun in Hc. discriminate Hc.
Defined.

(** A top-k operator restored from a checkpoint has the sort keys, timestamps,
    watermark and counter of the operator that wrote it, but none of its rows: each
    event is a batch without columns (so later retractions do not name the rows
    that were emitted), and the pending changes are not in the checkpoint. *)
Theorem topk_checkpoint_roundtrip {B} `{!ArrowBatch B} (op op0 : StreamingTopKOperator (B:=B)) :
  is_i64 (tk_current_watermark op) → is_u64 (tk_sequence_counter op) →
  Forall (λ e, is_i64 (ev_timestamp (te_event e))) (tk_entries op) →
  zlen (os_data (TopK_checkpoint op)) < u64_MOD →
  ∃ op', TopK_restore (TopK_checkpoint op) op0 = Some (op', inl tt) ∧
    te_sort_key <$> tk_entries op' = te_sort_key <$> tk_entries op ∧
    TopK_entries op' = (λ e, mkEvent (ev_timestamp e) empty_batch) <$> TopK_entries op ∧
    tk_current_watermark op' = tk_current_watermark op ∧
    tk_sequence_counter op' = tk_sequence_counter op ∧
    tk_pending_changes op' = tk_pending_changes op0.
Proof.
  intros Hw Hq Ht Hl. eexists. split; [by apply topk_restore_spec|]. unfold TopK_entries. cbn.
  rewrite <- !list_fmap_compose. by split_and!.
Qed.

Lemma topk_checkpoint_roundtrip_witness :
  ∃ op', TopK_restore (TopK_checkpoint (mkTopK "topk" 2 price_columns [mkEntry [7; 9] (price_event 5 1)]
      TkOnUpdate [] 3 (-4) [None])) (StreamingTopKOperator_new "topk" 2 price_columns TkOnUpdate)
    = Some (op', inl tt) ∧ TopK_entries op' = [mkEvent 5 []] ∧ te_sort_key <$> tk_entries op' = [[7; 9]].
Proof.
  destruct (topk_checkpoint_roundtrip (mkTopK "topk" 2 price_columns [mkEntry [7; 9] (price_event 5 1)]
      TkOnUpdate [] 3 (-4) [None]) (StreamingTopKOperator_new "topk" 2 price_columns TkOnUpdate))
    as (op' & Hr & Hk & He & _).
  - split; cbn; lia.
  - split; cbn; lia.
  - repeat constructor; cbn; lia.
  - reflexivity.
  - exists op'. split; [exact Hr|]. split; [exact He|exact Hk].
Defined.
