(* ===== verification/PartitionedTopK.v ===== *)
(** * The partitioned top-k operator

    operator/partitioned_topk.rs: [PartitionedTopKOperator] keeps a top-k vector for
    each partition key, up to [max_partitions] keys, with the entries of [TopK].
    The iteration over the hash map in [checkpoint] is the class [MapOrder]. [None]
    is a panic; [Vec::with_capacity] in [restore] is left out, it can abort on a
    corrupt count. *)

From S2P Require Import Prelude StateStore TimeCore WindowCore TumblingOp SortKeys TopK.

Class MapOrder := map_iter : ∀ {A : Type}, gmap bytes A → list (bytes * A).
Class MapOrderLaws `{!MapOrder} : Prop :=
  map_iter_perm : ∀ A (m : gmap bytes A), map_iter m ≡ₚ map_to_list m.

#[global] Instance canonical_map_order : MapOrder := λ A m, map_to_list m.
#[global] Instance canonical_map_order_laws : MapOrderLaws.
Proof. by intros A m. Qed.

Record PartitionColumn := mkPartitionColumn { pc_column_name : string }.

(** ** Partition keys *)

Definition partition_cell (cell : Cell) (key : bytes) : bytes :=
  match cell with
  | CNull => key ++ [0]
  | CInt64 v => (key ++ [1]) ++ to_le 8 v
  | CUtf8 s => (key ++ [1]) ++ s ++ [0]
  | CFloat64 b => (key ++ [1]) ++ to_le 8 b
  | CTimestamp _ _ | COther => (key ++ [1]) ++ [0]
  end.

Section PartitionedTopK.
Context {B : Type} `{!ArrowBatch B} `{!BinarySearch} `{!MapOrder}.
Abbreviation Entry := (TopKEntry (B:=B)).

Fixpoint extract_partition_loop (batch : B) (columns : list PartitionColumn) (cached : list (option nat))
    (key : bytes) : option (list (option nat) * bytes) :=
  match columns with
  | [] => Some (cached, key)
  | c :: columns =>
      match cached with
      | [] => None
      | slot :: cached =>
          match (match slot with Some idx => Some idx | None => index_of batch (pc_column_name c) end) with
          | None =>
              '(cached, key) ← extract_partition_loop batch columns cached (key ++ [0]);
              Some (None :: cached, key)
          | Some idx =>
              cell ← cell_at batch idx;
              '(cached, key) ← extract_partition_loop batch columns cached (partition_cell cell key);
              Some (Some idx :: cached, key)
          end
      end
  end.

Definition extract_partition_key (batch : B) (columns : list PartitionColumn) (cached : list (option nat))
  : option (list (option nat) * bytes) := extract_partition_loop batch columns cached [].

(** ** The operator *)

Record PartitionedTopKOperator := mkPTopK {
  pt_operator_id : string;
  pt_k : nat;
  pt_partition_columns : list PartitionColumn;
  pt_sort_columns : list TopKSortColumn;
  pt_partitions : gmap bytes (list Entry);
  pt_emit_strategy : TopKEmitStrategy;
  pt_pending_changes : list (ChangelogRecord B);
  pt_sequence_counter : Z;
  pt_max_partitions : nat;
  pt_cached_partition_indices : list (option nat);
  pt_cached_sort_indices : list (option nat) }.

Definition PartitionedTopKOperator_new (operator_id : string) (k : nat)
    (partition_columns : list PartitionColumn) (sort_columns : list TopKSortColumn)
    (emit_strategy : TopKEmitStrategy) (max_partitions : nat) : PartitionedTopKOperator :=
  mkPTopK operator_id k partition_columns sort_columns ∅ emit_strategy [] 0 max_partitions
    (replicate (length partition_columns) None) (replicate (length sort_columns) None).

Definition partition_count (op : PartitionedTopKOperator) : nat := size (pt_partitions op).
Definition total_entries (op : PartitionedTopKOperator) : nat :=
  sum_list (length <$> (map_iter (pt_partitions op)).*2).
Definition partition_size (op : PartitionedTopKOperator) (key : bytes) : nat :=
  match pt_partitions op !! key with Some entries => length entries | None => 0 end.
Definition PTopK_pending_changes_count (op : PartitionedTopKOperator) : nat :=
  length (pt_pending_changes op).

Definition pt_with (partitions : gmap bytes (list Entry)) (pending : list (ChangelogRecord B)) (seq : Z)
    (pcached scached : list (option nat)) (op : PartitionedTopKOperator) : PartitionedTopKOperator :=
  mkPTopK (pt_operator_id op) (pt_k op) (pt_partition_columns op) (pt_sort_columns op) partitions
    (pt_emit_strategy op) pending seq (pt_max_partitions op) pcached scached.

(** The same loop as in topk.rs. *)
Definition PTopK_extract_sort_key (event : Event B) (op : PartitionedTopKOperator)
  : option (list (option nat) * bytes) :=
  extract_sort_key micros_only (ev_data event) (pt_sort_columns op) (pt_cached_sort_indices op).

Definition process_partition (partition_key : bytes) (event : Event B) (emit_timestamp : Z)
    (op : PartitionedTopKOperator) : option (PartitionedTopKOperator * list (ChangelogRecord B)) :=
  '(cached, sort_key) ← PTopK_extract_sort_key event op;
  let entries := default [] (pt_partitions op !! partition_key) in
  if (match last entries with
      | Some worst => bool_decide (pt_k op <= length entries)%nat &&
                      bool_decide (bytes_le (te_sort_key worst) sort_key)
      | None => false
      end)
  then Some (pt_with (<[partition_key := entries]> (pt_partitions op)) (pt_pending_changes op)
               (pt_sequence_counter op) (pt_cached_partition_indices op) cached op, [])
  else
    '(entries, changes) ← insert_entry (pt_k op) entries sort_key event emit_timestamp;
    Some (pt_with (<[partition_key := entries]> (pt_partitions op)) (pt_pending_changes op)
            (wrap_u64 (pt_sequence_counter op + 1)) (pt_cached_partition_indices op) cached op, changes).

Definition pt_set_pending (pending : list (ChangelogRecord B)) (op : PartitionedTopKOperator) :=
  pt_with (pt_partitions op) pending (pt_sequence_counter op) (pt_cached_partition_indices op)
    (pt_cached_sort_indices op) op.

Definition PTopK_flush_pending (op : PartitionedTopKOperator) : PartitionedTopKOperator * list (Output B) :=
  (pt_set_pending [] op, OutChangelog <$> pt_pending_changes op).

Definition PTopK_process (event : Event B) (op : PartitionedTopKOperator)
  : option (PartitionedTopKOperator * list (Output B)) :=
  '(pcached, partition_key) ← extract_partition_key (ev_data event) (pt_partition_columns op)
                                (pt_cached_partition_indices op);
  let op := pt_with (pt_partitions op) (pt_pending_changes op) (pt_sequence_counter op) pcached
              (pt_cached_sort_indices op) op in
  if negb (bool_decide (is_Some (pt_partitions op !! partition_key))) &&
     bool_decide (pt_max_partitions op <= size (pt_partitions op))%nat
  then Some (op, [])
  else
    '(op, changes) ← process_partition partition_key event (ev_timestamp event) op;
    Some (match pt_emit_strategy op with
          | TkOnUpdate => (op, OutChangelog <$> changes)
          | TkOnWatermark | TkPeriodic _ => (pt_set_pending (pt_pending_changes op ++ changes) op, [])
          end).

Definition PTopK_on_timer (op : PartitionedTopKOperator) : PartitionedTopKOperator * list (Output B) :=
  match pt_emit_strategy op with
  | TkPeriodic _ => PTopK_flush_pending op
  | _ => (op, [])
  end.

(** ** Checkpoints *)

Definition partition_bytes (p : bytes * list Entry) : bytes :=
  to_le 8 (zlen p.1) ++ p.1 ++ to_le 8 (zlen p.2) ++ (p.2 ≫= entry_bytes).

Definition PTopK_checkpoint (op : PartitionedTopKOperator) : OperatorState :=
  mkOperatorState (pt_operator_id op) 1
    (to_le 8 (Z.of_nat (size (pt_partitions op))) ++ to_le 8 (pt_sequence_counter op) ++
     (map_iter (pt_partitions op) ≫= partition_bytes)).

Definition restore_partition (data : bytes) (offset : Z)
  : option ((bytes * list Entry) * Z + OperatorError) :=
  if zlen data <? usize_add offset 8
  then Some (inr (SerializationFailed "PartitionedTopK checkpoint truncated")) else
  key_len ← u64_at data offset;
  let offset := usize_add offset 8 in
  if zlen data <? usize_add (usize_add offset key_len) 8
  then Some (inr (SerializationFailed "PartitionedTopK checkpoint truncated at key")) else
  partition_key ← slice_of data offset (usize_add offset key_len);
  let offset := usize_add offset key_len in
  entry_count ← u64_at data offset;
  '(entries, res) ← restore_entries "PartitionedTopK checkpoint truncated at entry"
                      "PartitionedTopK checkpoint truncated at sort key" (Z.to_nat entry_count) data
                      (usize_add offset 8) [];
  Some (match res with inl offset => inl ((partition_key, entries), offset) | inr e => inr e end).

Fixpoint restore_partitions (count : nat) (data : bytes) (offset : Z) (partitions : gmap bytes (list Entry))
  : option (gmap bytes (list Entry) * (unit + OperatorError)) :=
  match count with
  | O => Some (partitions, inl tt)
  | S count =>
      res ← restore_partition data offset;
      match res with
      | inr e => Some (partitions, inr e)
      | inl ((key, entries), offset) => restore_partitions count data offset (<[key := entries]> partitions)
      end
  end.

Definition PTopK_restore (state : OperatorState) (op : PartitionedTopKOperator)
  : option (PartitionedTopKOperator * (unit + OperatorError)) :=
  let data := os_data state in
  if decide (length data < 16)%nat
  then Some (op, inr (SerializationFailed "PartitionedTopK checkpoint data too short")) else
  num_partitions ← u64_at data 0;
  seq ← u64_at data 8;
  '(partitions, res) ← restore_partitions (Z.to_nat num_partitions) data 16 ∅;
  Some (pt_with partitions (pt_pending_changes op) seq (pt_cached_partition_indices op)
          (pt_cached_sort_indices op) op, res).
End PartitionedTopK.

(** ** Partition keys of rows *)

Section Facts.
Context {B : Type} `{AB : !ArrowBatch B} `{BS : !BinarySearch} `{BL : !BinarySearchLaws}
  `{MO : !MapOrder} `{ML : !MapOrderLaws}.
Abbreviation Entry := (TopKEntry (B:=B)).
Abbreviation Op := (PartitionedTopKOperator (B:=B)).

Fixpoint partition_row_key (row : list Cell) : bytes :=
  match row with [] => [] | cell :: row => partition_cell cell [] ++ partition_row_key row end.

Definition partition_indices (columns : list PartitionColumn) (batch : B) : list (option nat) :=
  (λ c, index_of batch (pc_column_name c)) <$> columns.
Definition partition_readable (columns : list PartitionColumn) (indices : list (option nat)) (e : Event B) : Prop :=
  partition_indices columns (ev_data e) = indices ∧ is_Some (row_at (ev_data e) indices).
Definition partition_row (columns : list PartitionColumn) (e : Event B) : list Cell :=
  default [] (row_at (ev_data e) (partition_indices columns (ev_data e))).
Definition partition_key_of (columns : list PartitionColumn) (e : Event B) : bytes :=
  partition_row_key (partition_row columns e).

Lemma partition_cell_app cell key : partition_cell cell key = key ++ partition_cell cell [].
Proof. destruct cell; cbn [partition_cell app]; by rewrite <- ?app_assoc. Qed.

Lemma extract_partition_loop_spec batch columns : ∀ cached row key,
  cache_ok cached (partition_indices columns batch) →
  row_at batch (partition_indices columns batch) = Some row →
  extract_partition_loop batch columns cached key
  = Some (partition_indices columns batch, key ++ partition_row_key row).
Proof.
  unfold row_at, cache_ok. induction columns as [|c columns IH]; intros cached row key Hc Hrow.
  { inversion Hc. cbn in Hrow. injection Hrow as <-. cbn. by rewrite app_nil_r. }
  cbn [partition_indices fmap list_fmap] in *. fold (partition_indices columns batch) in *.
  apply Forall2_cons_inv_r in Hc as (slot & cached' & Hslot & Hc & ->). cbn [extract_partition_loop].
  apply mapM_Some in Hrow. inversion Hrow as [|i cell idxs row' Hcell Hrow' Hi Hr]; subst.
  apply mapM_Some in Hrow'.
  assert (Hopt : match slot with Some idx => Some idx | None => index_of batch (pc_column_name c) end
    = index_of batch (pc_column_name c)) by (destruct Hslot as [->| ->]; [done|by destruct (index_of _ _)]).
  rewrite Hopt. destruct (index_of batch (pc_column_name c)) as [idx|].
  - rewrite Hcell. cbn [mbind option_bind]. rewrite (IH cached' row') by done.
    cbn [mbind option_bind partition_row_key]. by rewrite (partition_cell_app cell key), <- app_assoc.
  - injection Hcell as <-. rewrite (IH cached' row') by done. cbn [mbind option_bind partition_row_key partition_cell].
    by rewrite <- app_assoc.
Qed.

Lemma extract_partition_readable columns indices cached e :
  partition_readable columns indices e → cache_ok cached indices →
  extract_partition_key (ev_data e) columns cached = Some (indices, partition_key_of columns e).
Proof.
  intros [<- [row Hrow]] Hc. unfold extract_partition_key, partition_key_of, partition_row.
  rewrite Hrow. by rewrite (extract_partition_loop_spec _ _ _ row).
Qed.

(** *** Admission *)

Definition accept_key (max : nat) (S : gset bytes) (p : bytes) : gset bytes :=
  if decide (p ∈ S) then S else if decide (max <= size S)%nat then S else {[p]} ∪ S.
(** The first [max] distinct keys. *)
Definition accepted_keys (max : nat) (keys : list bytes) : gset bytes := foldl (accept_key max) ∅ keys.

Lemma accepted_keys_size max keys : (size (accepted_keys max keys) <= max)%nat.
Proof.
  unfold accepted_keys. assert (Hgen : ∀ S : gset bytes, (size S <= max)%nat → (size (foldl (accept_key max) S keys) <= max)%nat).
  { induction keys as [|p keys IH]; intros S HS; [done|]. cbn [foldl]. apply IH. unfold accept_key.
    case_decide; [done|]. case_decide; [done|]. rewrite size_union, size_singleton by set_solver. lia. }
  apply Hgen. rewrite size_empty. lia.
Qed.

(** *** All entries *)

Definition all_entries (m : gmap bytes (list Entry)) : list Entry := map_to_list m ≫= snd.

Lemma all_entries_insert m p es : all_entries (<[p := es]> m) ≡ₚ es ++ all_entries (delete p m).
Proof.
  unfold all_entries. rewrite <- insert_delete_eq, map_to_list_insert by apply lookup_delete_eq.
  by rewrite bind_cons.
Qed.

Lemma all_entries_default m p : all_entries m ≡ₚ default [] (m !! p) ++ all_entries (delete p m).
Proof.
  destruct (m !! p) as [es|] eqn:E; cbn.
  - rewrite <- (insert_id m p es E) at 1. apply all_entries_insert.
  - by rewrite delete_id.
Qed.

(** *** Runs *)

Definition PTopK_step (i : TopKInput (B:=B)) (op : Op) : option (Op * list (Output B)) :=
  match i with TkEvent e => PTopK_process e op | TkTimer => Some (PTopK_on_timer op) end.

Fixpoint PTopK_run (inputs : list (TopKInput (B:=B))) (op : Op) : option (Op * list (Output B)) :=
  match inputs with
  | [] => Some (op, [])
  | i :: inputs =>
      '(op, out) ← PTopK_step i op;
      '(op, outs) ← PTopK_run inputs op;
      Some (op, out ++ outs)
  end.

Definition of_partition (columns : list PartitionColumn) (p : bytes) (events : list (Event B)) : list (Event B) :=
  filter (λ e, partition_key_of columns e = p) events.

Record ptopk_inv (pcols : list PartitionColumn) (scols : list TopKSortColumn) (pidx sidx : list (option nat))
    (seen : list (Event B)) (outs : list (Output B)) (op : Op) : Prop := {
  pti_pcols : pt_partition_columns op = pcols;
  pti_scols : pt_sort_columns op = scols;
  pti_pcache : cache_ok (pt_cached_partition_indices op) pidx;
  pti_scache : cache_ok (pt_cached_sort_indices op) sidx;
  pti_dom : dom (pt_partitions op) = accepted_keys (pt_max_partitions op) (partition_key_of pcols <$> reverse seen);
  pti_full e : e ∈ seen → partition_key_of pcols e ∉ dom (pt_partitions op) →
    (pt_max_partitions op <= size (pt_partitions op))%nat;
  pti_entries p es : pt_partitions op !! p = Some es →
    topk_of (pt_k op) (entry_of scols <$> of_partition pcols p seen) es;
  pti_balance : added (changes_of outs ++ pt_pending_changes op) ≡ₚ
    removed (changes_of outs ++ pt_pending_changes op) ++ (te_event <$> all_entries (pt_partitions op));
  pti_pending : pt_emit_strategy op = TkOnUpdate → pt_pending_changes op = [] }.

(** An event of an accepted or acceptable partition. *)
Lemma process_partition_spec scols sidx e p op (seen : list Entry) :
  readable scols sidx e → pt_sort_columns op = scols → cache_ok (pt_cached_sort_indices op) sidx →
  topk_of (pt_k op) seen (default [] (pt_partitions op !! p)) →
  ∃ es changes seq, process_partition p e (ev_timestamp e) op
      = Some (pt_with (<[p := es]> (pt_partitions op)) (pt_pending_changes op) seq
                (pt_cached_partition_indices op) sidx op, changes) ∧
    topk_of (pt_k op) (entry_of scols e :: seen) es ∧
    added changes ++ (te_event <$> default [] (pt_partitions op !! p)) ≡ₚ removed changes ++ (te_event <$> es).
Proof.
  intros Hr Hs Hc Htk. unfold process_partition, PTopK_extract_sort_key. rewrite Hs, (extract_readable scols sidx _ e Hr Hc).
  cbn [mbind option_bind]. set (entries := default [] (pt_partitions op !! p)) in *.
  set (new := entry_of scols e) in *. pose proof Htk as (Hsorted & Hlen & _).
  set (full := match last entries with Some _ => _ | None => _ end).
  assert (Hfull : full = negb (would_enter_topk (pt_k op) entries (te_sort_key new))).
  { unfold full, would_enter_topk. destruct (decide (length entries < pt_k op)%nat) as [Hlt|Hge].
    - destruct (last entries); [|done]. by rewrite (bool_decide_eq_false_2 (pt_k op <= _)%nat) by lia.
    - destruct (last entries); [|done]. rewrite (bool_decide_eq_true_2 (pt_k op <= _)%nat) by lia. cbn [andb].
      apply eq_bool_prop_intro. rewrite negb_True, !bool_decide_spec. symmetry. apply bytes_nlt_le. }
  rewrite Hfull. destruct (would_enter_topk _ _ _) eqn:Hw; cbn [negb].
  - destruct (insert_entry_spec (pt_k op) entries (te_sort_key new) e (ev_timestamp e))
      as (es & changes & out & -> & Hs' & Hp & Hle & Hl & Hbal); [done|lia|].
    cbn [mbind option_bind]. eexists _, _, _. split; [done|]. split; [|done]. by eapply topk_of_entered.
  - eexists _, _, _. split; [done|]. split; [by apply topk_of_refused|done].
Qed.

Ltac pt_cbn :=
  cbn [pt_with pt_set_pending pt_partitions pt_max_partitions pt_pending_changes pt_emit_strategy pt_k
       pt_cached_partition_indices pt_cached_sort_indices pt_partition_columns pt_sort_columns].

Section Step.
Context (pcols : list PartitionColumn) (scols : list TopKSortColumn) (pidx sidx : list (option nat)).

(** A refused event changes nothing but the cache. *)
Lemma ptopk_inv_refused seen outs op e : ptopk_inv pcols scols pidx sidx seen outs op →
  partition_key_of pcols e ∉ dom (pt_partitions op) →
  (pt_max_partitions op <= size (pt_partitions op))%nat →
  ptopk_inv pcols scols pidx sidx (e :: seen) outs
    (pt_with (pt_partitions op) (pt_pending_changes op) (pt_sequence_counter op) pidx
       (pt_cached_sort_indices op) op).
Proof.
  intros [Hpc Hsc _ Hscache Hdom Hfull Hes Hbal Hpend] Hp Hmax.
  split; pt_cbn; try done; [apply cache_ok_refl| |].
  - rewrite reverse_cons, fmap_app. unfold accepted_keys. rewrite foldl_app. fold (accepted_keys (pt_max_partitions op)
      (partition_key_of pcols <$> reverse seen)). rewrite <- Hdom. cbn [fmap list_fmap foldl]. unfold accept_key.
    rewrite decide_False by done. by rewrite decide_True by (by rewrite size_dom).
  - intros p es Hpe. unfold of_partition. rewrite filter_cons_False; [by apply Hes|].
    intros <-. apply Hp, elem_of_dom. by eexists.
Qed.

Lemma ptopk_inv_accepted seen outs op e es changes seq : ptopk_inv pcols scols pidx sidx seen outs op →
  let p := partition_key_of pcols e in
  (p ∈ dom (pt_partitions op) ∨ (size (pt_partitions op) < pt_max_partitions op)%nat) →
  topk_of (pt_k op) (entry_of scols e :: (entry_of scols <$> of_partition pcols p seen)) es →
  added changes ++ (te_event <$> default [] (pt_partitions op !! p)) ≡ₚ removed changes ++ (te_event <$> es) →
  ∀ pending outs', changes_of outs' ++ pending ≡ₚ changes_of outs ++ pt_pending_changes op ++ changes →
  (pt_emit_strategy op = TkOnUpdate → pending = []) →
  ptopk_inv pcols scols pidx sidx (e :: seen) outs'
    (pt_with (<[p := es]> (pt_partitions op)) pending seq pidx sidx op).
Proof.
  intros [Hpc Hsc _ Hscache Hdom Hfull Hes Hbal Hpend] p Hadm Htk Hb pending outs' Hlog Hpend'.
  assert (Hstep : accept_key (pt_max_partitions op) (dom (pt_partitions op)) p = {[p]} ∪ dom (pt_partitions op)).
  { unfold accept_key. case_decide as Hin; [set_solver|]. destruct Hadm as [|Hlt]; [done|].
    by rewrite decide_False by (rewrite size_dom; lia). }
  split; pt_cbn; try done; try apply cache_ok_refl.
  - rewrite dom_insert_L, reverse_cons, fmap_app. unfold accepted_keys. rewrite foldl_app.
    fold (accepted_keys (pt_max_partitions op) (partition_key_of pcols <$> reverse seen)).
    by rewrite <- Hdom, <- Hstep.
  - intros e' He'. rewrite dom_insert_L. intros Hn. apply elem_of_cons in He' as [->|He']; [set_solver|].
    assert (Hmax : (pt_max_partitions op <= size (pt_partitions op))%nat) by (apply (Hfull e' He'); set_solver).
    etrans; [exact Hmax|]. rewrite <- !(size_dom (D:=gset bytes)). apply subseteq_size. rewrite dom_insert_L. set_solver.
  - intros q es'. rewrite lookup_insert_Some. unfold of_partition. intros [[<- <-]|[Hne Hq]].
    + rewrite filter_cons_True by done. exact Htk.
    + rewrite filter_cons_False by done. by apply Hes.
  - assert (Hperm : ∀ c c' : list (ChangelogRecord B), c ≡ₚ c' → added c ≡ₚ added c' ∧ removed c ≡ₚ removed c').
    { intros c c' Hcc. unfold added, removed. split; by rewrite Hcc. }
    destruct (Hperm _ _ Hlog) as [-> ->]. rewrite app_assoc. eapply balance_step; [exact Hbal|].
    rewrite (all_entries_insert _ p), (all_entries_default _ p), !fmap_app, !app_assoc.
    by rewrite Hb.
Qed.

Lemma ptopk_inv_event seen outs op e : ptopk_inv pcols scols pidx sidx seen outs op →
  partition_readable pcols pidx e → readable scols sidx e →
  ∃ op' out, PTopK_process e op = Some (op', out) ∧
    ptopk_inv pcols scols pidx sidx (e :: seen) (outs ++ out) op' ∧ pt_k op' = pt_k op ∧
    pt_max_partitions op' = pt_max_partitions op ∧ pt_emit_strategy op' = pt_emit_strategy op.
Proof.
  intros Hinv Hpr Hr. pose proof Hinv as [Hpc Hsc Hpcache Hscache Hdom Hfull Hes Hbal Hpend]. unfold PTopK_process.
  rewrite Hpc, (extract_partition_readable pcols pidx _ e Hpr Hpcache). cbn [mbind option_bind].
  set (p := partition_key_of pcols e). cbn [pt_with pt_partitions pt_max_partitions].
  destruct (negb _ && _) eqn:Hfullb.
  - apply andb_true_iff in Hfullb as [Hn Hm]. rewrite negb_true_iff, bool_decide_eq_false in Hn.
    apply bool_decide_eq_true in Hm. eexists _, []. split; [done|]. rewrite app_nil_r.
    split; [|done]. apply ptopk_inv_refused; [done| |done]. by rewrite elem_of_dom.
  - assert (Hadm : p ∈ dom (pt_partitions op) ∨ (size (pt_partitions op) < pt_max_partitions op)%nat).
    { rewrite andb_false_iff, negb_false_iff, bool_decide_eq_true, bool_decide_eq_false in Hfullb.
      destruct Hfullb as [Hin|Hlt]; [left; by apply elem_of_dom|right; lia]. }
    assert (Htk : topk_of (pt_k op) (entry_of scols <$> of_partition pcols p seen) (default [] (pt_partitions op !! p))).
    { destruct (pt_partitions op !! p) as [es|] eqn:E; [by apply Hes|]. cbn.
      unfold of_partition. rewrite filter_none; [apply topk_of_nil|]. apply Forall_forall. intros e' He' Hk.
      assert (Hnd : p ∉ dom (pt_partitions op)) by (rewrite elem_of_dom, E; by intros [? ?]).
      destruct Hadm as [|Hlt]; [done|]. rewrite <- Hk in Hnd. specialize (Hfull e' He' Hnd). lia. }
    match goal with |- context [process_partition p e (ev_timestamp e) ?o] => set (op1 := o) end.
    destruct (process_partition_spec scols sidx e p op1 _ Hr Hsc Hscache Htk)
      as (es & changes & seq & -> & Htk' & Hb). cbn [mbind option_bind]. cbn [pt_with pt_emit_strategy op1].
    pose proof (ptopk_inv_accepted seen outs op e es changes seq Hinv Hadm Htk' Hb) as Hacc.
    destruct (pt_emit_strategy op) eqn:He; eexists _, _; (split; [reflexivity|]); (split; [|done]); apply Hacc.
    + rewrite changes_of_app, changes_of_changelog. unfold op1. pt_cbn. rewrite (Hpend eq_refl). cbn [app].
      by rewrite app_nil_r.
    + intros _. by apply Hpend.
    + by rewrite app_nil_r.
    + done.
    + by rewrite app_nil_r.
    + done.
Qed.

Lemma ptopk_inv_timer seen outs op : ptopk_inv pcols scols pidx sidx seen outs op →
  let '(op', out) := PTopK_on_timer op in
  ptopk_inv pcols scols pidx sidx seen (outs ++ out) op' ∧ pt_k op' = pt_k op ∧
  pt_max_partitions op' = pt_max_partitions op ∧ pt_emit_strategy op' = pt_emit_strategy op.
Proof.
  intros [Hpc Hsc Hpcache Hscache Hdom Hfull Hes Hbal Hpend]. unfold PTopK_on_timer.
  destruct (pt_emit_strategy op) eqn:He; cbn; rewrite He; (split; [|done]); split; cbn; try done;
    rewrite ?app_nil_r, ?changes_of_app, ?changes_of_changelog; try done; by rewrite He.
Qed.

Lemma ptopk_run_inv inputs : ∀ seen outs op, ptopk_inv pcols scols pidx sidx seen outs op →
  Forall (λ e, partition_readable pcols pidx e ∧ readable scols sidx e) (input_events inputs) →
  ∃ op' out, PTopK_run inputs op = Some (op', out) ∧
    ptopk_inv pcols scols pidx sidx (reverse (input_events inputs) ++ seen) (outs ++ out) op' ∧
    pt_k op' = pt_k op ∧ pt_max_partitions op' = pt_max_partitions op ∧
    pt_emit_strategy op' = pt_emit_strategy op.
Proof.
  induction inputs as [|i inputs IH]; intros seen outs op Hinv Hr; cbn [PTopK_run].
  { exists op, []. by rewrite app_nil_r. }
  unfold input_events in Hr |- *. rewrite bind_cons in Hr |- *. fold (input_events inputs) in Hr |- *.
  apply Forall_app in Hr as [Hi Hr].
  assert (Hstep : ∃ op1 out1, PTopK_step i op = Some (op1, out1) ∧
    ptopk_inv pcols scols pidx sidx (reverse (match i with TkEvent e => [e] | TkTimer => [] end) ++ seen)
      (outs ++ out1) op1 ∧ pt_k op1 = pt_k op ∧ pt_max_partitions op1 = pt_max_partitions op ∧
    pt_emit_strategy op1 = pt_emit_strategy op).
  { destruct i as [e|]; cbn.
    - apply Forall_singleton in Hi as [Hp Hs]. by apply ptopk_inv_event.
    - pose proof (ptopk_inv_timer seen outs op Hinv) as Ht.
      destruct (PTopK_on_timer op) as [op1 out1]. by exists op1, out1. }
  destruct Hstep as (op1 & out1 & -> & Hinv1 & Hk1 & Hm1 & Hs1). cbn [mbind option_bind].
  destruct (IH _ _ op1 Hinv1 Hr) as (op' & out & -> & Hinv' & Hk' & Hm' & Hs'). cbn [mbind option_bind].
  exists op', (out1 ++ out). split; [done|]. rewrite reverse_app, <- app_assoc, (app_assoc outs).
  split; [done|]. split_and!; congruence.
Qed.
End Step.

(** *** Keys determine rows *)

(** The cells a partition key tells apart. *)
Definition partition_ok (c : Cell) : Prop :=
  cell_ok c ∧ match c with CTimestamp _ _ | COther => False | _ => True end.

Lemma to_le_inj_app n u v x y : to_le n u ++ x = to_le n v ++ y → to_le n u = to_le n v ∧ x = y.
Proof. apply app_inj_1. by rewrite !to_le_length. Qed.

Lemma nul_terminated (s t x y : bytes) : Forall (λ c, 0 < c <= 255) s → Forall (λ c, 0 < c <= 255) t →
  s ++ 0 :: x = t ++ 0 :: y → s = t ∧ x = y.
Proof.
  intros Hs. revert t. induction Hs as [|u s Hu _ IH]; intros t Ht Heq; destruct Ht as [|v t Hv Ht]; cbn in Heq.
  - by injection Heq.
  - injection Heq as Heq _. lia.
  - injection Heq as Heq _. lia.
  - injection Heq as -> Heq. destruct (IH t Ht Heq) as [-> ->]. done.
Qed.

Lemma partition_cell_inj a b x y : partition_ok a → partition_ok b → same_type a b →
  partition_cell a [] ++ x = partition_cell b [] ++ y → a = b ∧ x = y.
Proof.
  intros [Ha Hta] [Hb Htb] Hab.
  destruct a as [|v|v|s|u v|], b as [|w|w|t|u' w|]; try done;
    cbn [partition_cell app] in *; intros Heq; try discriminate Heq;
    apply (f_equal tail) in Heq; cbn [tail] in Heq; [done|..].
  - apply to_le_inj_app in Heq as [Heq ->]. split; [|done]. f_equal.
    rewrite <- (from_to_le_i64 v), Heq, from_to_le_i64 by done. done.
  - apply to_le_inj_app in Heq as [Heq ->]. split; [|done]. f_equal.
    rewrite <- (from_to_le 8 v), Heq, from_to_le by done. done.
  - rewrite <- !app_assoc in Heq. apply nul_terminated in Heq as [-> ->]; done.
Qed.

Lemma partition_row_key_inj ra : ∀ rb, Forall partition_ok ra → Forall partition_ok rb →
  Forall2 same_type ra rb → partition_row_key ra = partition_row_key rb → ra = rb.
Proof.
  induction ra as [|a ra IH]; intros rb Ha Hb Hab Heq.
  { by inversion Hab. }
  apply Forall2_cons_inv_l in Hab as (b & rb' & Hab & Hrest & ->). cbn [partition_row_key] in Heq.
  apply Forall_cons in Ha as [Ha Hra], Hb as [Hb Hrb].
  apply partition_cell_inj in Heq as [-> Heq]; [|done..]. f_equal. by apply IH.
Qed.

(** *** Checkpoints *)

Lemma restore_partition_app (p q key : bytes) (es : list Entry) :
  Forall (λ e, is_i64 (ev_timestamp (te_event e))) es →
  zlen (p ++ partition_bytes (key, es) ++ q) < u64_MOD →
  restore_partition (p ++ partition_bytes (key, es) ++ q) (zlen p)
  = Some (inl ((key, placeholder <$> es), zlen (p ++ partition_bytes (key, es)))).
Proof.
  intros Ht Hl. unfold restore_partition, partition_bytes in *. cbn [fst snd] in *. rewrite <- !app_assoc in *.
  set (body := es ≫= entry_bytes) in *. set (data := p ++ _) in *.
  assert (Hlen : zlen data = zlen p + 8 + zlen key + 8 + zlen body + zlen q).
  { unfold data. rewrite !length_app, !to_le_length. lia. }
  assert (Hes : zlen es <= zlen body).
  { unfold body. clear. induction es as [|e es IH]; [done|]. rewrite bind_cons, length_app. unfold entry_bytes at 1.
    rewrite !length_app, !to_le_length. cbn [length]. lia. }
  rewrite (usize_add_small (zlen p) 8) by lia. rewrite (proj2 (Z.ltb_ge _ _)) by lia.
  assert (u64_at data (zlen p) = Some (zlen key)) as ->.
  { apply u64_at_app; [|done]. unfold is_u64. lia. }
  cbn [mbind option_bind]. rewrite !(usize_add_small (zlen p + 8)) by lia.
  rewrite (usize_add_small (zlen p + 8 + zlen key)) by lia. rewrite (proj2 (Z.ltb_ge _ _)) by lia.
  assert (slice_of data (zlen p + 8) (zlen p + 8 + zlen key) = Some key) as ->.
  { replace (zlen p + 8) with (zlen (p ++ to_le 8 (zlen key))) by (rewrite length_app, to_le_length; lia).
    unfold data. rewrite (app_assoc p). apply slice_of_app. }
  cbn [mbind option_bind].
  assert (u64_at data (zlen p + 8 + zlen key) = Some (zlen es)) as ->.
  { replace (zlen p + 8 + zlen key) with (zlen ((p ++ to_le 8 (zlen key)) ++ key))
      by (rewrite !length_app, to_le_length; lia).
    unfold data in *. rewrite (app_assoc p), (app_assoc _ key) in *. apply u64_at_app; [unfold is_u64; lia|done]. }
  cbn [mbind option_bind]. rewrite Nat2Z.id.
  set (p' := ((p ++ to_le 8 (zlen key)) ++ key) ++ to_le 8 (zlen es)).
  assert (Hd : data = p' ++ body ++ q) by (unfold data, p'; by rewrite <- !app_assoc).
  replace (zlen p + 8 + zlen key + 8) with (zlen p') by (unfold p'; rewrite !length_app, !to_le_length; lia).
  rewrite Hd in Hl |- *. unfold body in *. rewrite restore_entries_app by done. cbn [mbind option_bind app].
  do 4 f_equal. unfold p'. by rewrite <- !app_assoc.
Qed.

Definition placeholders (es : list Entry) : list Entry := placeholder <$> es.
Definition restore_insert (m : gmap bytes (list Entry)) (kv : bytes * list Entry) : gmap bytes (list Entry) :=
  <[kv.1 := placeholders kv.2]> m.

Lemma restore_partitions_app l : ∀ (p q : bytes) m,
  Forall (λ kv, Forall (λ e, is_i64 (ev_timestamp (te_event e))) kv.2) l →
  zlen (p ++ (l ≫= partition_bytes) ++ q) < u64_MOD →
  restore_partitions (length l) (p ++ (l ≫= partition_bytes) ++ q) (zlen p) m
  = Some (foldl restore_insert m l, inl tt).
Proof.
  induction l as [|[key es] l IH]; intros p q m Ht Hl; [done|].
  apply Forall_cons in Ht as [He Ht]. cbn [length restore_partitions]. rewrite bind_cons in *.
  rewrite <- !app_assoc in *. rewrite restore_partition_app by done. cbn [mbind option_bind].
  rewrite (app_assoc p) in *. by rewrite IH.
Qed.

Lemma restore_fold_lookup l : ∀ m k, NoDup l.*1 →
  foldl restore_insert m l !! k
  = match list_find (λ kv, kv.1 = k) l with Some (_, kv) => Some (placeholders kv.2) | None => m !! k end.
Proof.
  induction l as [|[k' es] l IH]; intros m k Hnd; [done|]. apply NoDup_cons in Hnd as [Hk Hnd].
  cbn [foldl]. rewrite IH by done. cbn [list_find fst]. destruct (decide (k' = k)) as [->|Hne].
  - rewrite (proj2 (list_find_None _ _)).
    + unfold restore_insert. cbn. by rewrite lookup_insert_eq.
    + apply Forall_forall. intros kv Hkv <-. apply Hk. cbn. by apply (list_elem_of_fmap_2 fst).
  - unfold restore_insert. cbn. rewrite lookup_insert_ne by done.
    by destruct (list_find (λ kv, kv.1 = k) l) as [[i kv]|].
Qed.

Lemma restore_fold_map (m : gmap bytes (list Entry)) :
  foldl restore_insert ∅ (map_iter m) = placeholders <$> m.
Proof.
  apply map_eq. intros k.
  assert (Hnd : NoDup (map_iter m).*1) by (rewrite map_iter_perm; apply NoDup_fst_map_to_list).
  rewrite restore_fold_lookup, lookup_fmap, lookup_empty by done.
  destruct (list_find _ (map_iter m)) as [[i [k' es]]|] eqn:E.
  - apply list_find_Some in E as (Hi & Hk & _). cbn in Hk. subst k'.
    apply list_elem_of_lookup_2 in Hi. rewrite map_iter_perm, elem_of_map_to_list in Hi. by rewrite Hi.
  - apply list_find_None in E. rewrite Forall_forall in E. destruct (m !! k) as [es|] eqn:Hm; [|done]. exfalso.
    apply (E (k, es)); [|done]. by rewrite map_iter_perm, elem_of_map_to_list.
Qed.

Lemma ptopk_restore_spec (op op0 : Op) : is_u64 (pt_sequence_counter op) →
  (∀ p es, pt_partitions op !! p = Some es → Forall (λ e, is_i64 (ev_timestamp (te_event e))) es) →
  zlen (os_data (PTopK_checkpoint op)) < u64_MOD →
  PTopK_restore (PTopK_checkpoint op) op0
  = Some (pt_with (placeholders <$> pt_partitions op) (pt_pending_changes op0) (pt_sequence_counter op)
            (pt_cached_partition_indices op0) (pt_cached_sort_indices op0) op0, inl tt).
Proof.
  intros Hq Ht Hl. unfold PTopK_restore. cbn [os_data PTopK_checkpoint] in *.
  set (l := map_iter (pt_partitions op)) in *. set (sq := pt_sequence_counter op) in *.
  assert (Hsize : size (pt_partitions op) = length l).
  { unfold l. by rewrite map_iter_perm, length_map_to_list. }
  rewrite Hsize in *. set (n := zlen l) in *. set (body := l ≫= partition_bytes) in *.
  assert (Hn : is_u64 n).
  { rewrite !length_app, !to_le_length in Hl. unfold is_u64, n. split; [lia|].
    assert (length l <= length body)%nat; [|lia]. unfold body. clear.
    induction l as [|e l IH]; [done|]. rewrite bind_cons, length_app. unfold partition_bytes at 1.
    rewrite !length_app, !to_le_length. cbn [length]. lia. }
  set (data := to_le 8 n ++ _) in *.
  rewrite decide_False by (unfold data; rewrite !length_app, !to_le_length; lia).
  assert (u64_at data 0 = Some n) as ->.
  { change 0 with (zlen ([] : bytes)). change data with ([] ++ data) in Hl |- *. by apply u64_at_app. }
  assert (u64_at data 8 = Some sq) as ->.
  { replace 8 with (zlen (to_le 8 n)) by (by rewrite to_le_length). by apply u64_at_app. }
  cbn [mbind option_bind]. unfold n at 1. rewrite Nat2Z.id.
  replace 16 with (zlen (to_le 8 n ++ to_le 8 sq)) by (by rewrite !length_app, !to_le_length).
  assert (Hd : data = (to_le 8 n ++ to_le 8 sq) ++ body ++ []).
  { unfold data. by rewrite app_nil_r, <- !app_assoc. }
  rewrite Hd in Hl |- *. unfold body in *. rewrite restore_partitions_app; [|apply Forall_forall|done].
  - cbn [mbind option_bind]. unfold l. by rewrite restore_fold_map.
  - intros [k es] Hk. unfold l in Hk. rewrite map_iter_perm, elem_of_map_to_list in Hk. by apply (Ht k).
Qed.
End Facts.

(** ** Properties *)

(** Trades of a category with a price, for the witnesses. *)
Definition trade (ts : Z) (category : bytes) (price : Z) : Event (list (string * Cell)) :=
  mkEvent ts [("category", CUtf8 category); ("price", CInt64 price)].
Definition by_category : list PartitionColumn := [mkPartitionColumn "category"].
Definition trades : list (TopKInput (B:=list (string * Cell))) :=
  [TkEvent (trade 1 [97] 50); TkEvent (trade 2 [98] 20); TkEvent (trade 3 [97] 70); TkEvent (trade 4 [99] 5);
   TkEvent (trade 5 [97] 30)].

Lemma trades_schema : one_schema price_columns (input_events trades) ∧
  Forall (partition_readable by_category [Some 0%nat]) (input_events trades).
Proof.
  assert (Hin : ∀ e, e ∈ input_events trades → ∃ ts c p, e = trade ts c p ∧ is_i64 p).
  { cbn. intros e He.
    repeat (apply elem_of_cons in He as [->|He]; [eexists _, _, _; split; [done|unfold is_i64; lia]|]).
    by apply elem_of_nil in He. }
  split; [split|].
  - exists [Some 1%nat]. split; [done|]. apply Forall_forall. intros e (ts & c & p & -> & _)%Hin. split; [done|by eexists].
  - intros e (ts & c & p & -> & Hp)%Hin. cbn. repeat constructor; apply Hp.
  - intros e e' (ts & c & p & -> & _)%Hin (ts' & c' & p' & -> & _)%Hin. cbn. repeat constructor.
  - apply Forall_forall. intros e (ts & c & p & -> & _)%Hin. split; [done|by eexists].
Qed.

(** [C25]: The partitioned top-k operator is a family of independent top-k operators.
    Fed any events of one schema and any timers it never panics; the partitions are
    those of the first [max_partitions] distinct keys, so never more than that; each
    holds, in order, the least [k] rows of all events of its key, whatever arrives
    for the others, and events of other keys are dropped. The emitted and pending
    changes add exactly the events they remove plus the events held. *)
Theorem partitioned_topk_independent {B} `{!ArrowBatch B} `{!BinarySearch} `{!BinarySearchLaws} operator_id k
    pcols scols strategy max pidx (inputs : list (TopKInput (B:=B))) :
  one_schema scols (input_events inputs) → length pidx = length pcols →
  Forall (partition_readable pcols pidx) (input_events inputs) →
  ∃ op outs,
    PTopK_run inputs (PartitionedTopKOperator_new operator_id k pcols scols strategy max) = Some (op, outs) ∧
    dom (pt_partitions op) = accepted_keys max (partition_key_of pcols <$> input_events inputs) ∧
    (partition_count op <= max)%nat ∧
    (∀ p es, pt_partitions op !! p = Some es → ∃ others,
       (te_event <$> es) ++ others ≡ₚ of_partition pcols p (input_events inputs) ∧
       length es = (k `min` length (of_partition pcols p (input_events inputs)))%nat ∧
       StronglySorted (row_le scols) (te_event <$> es) ∧
       ∀ x y, x ∈ te_event <$> es → y ∈ others → row_le scols x y) ∧
    added (changes_of outs ++ pt_pending_changes op) ≡ₚ
      removed (changes_of outs ++ pt_pending_changes op) ++ (te_event <$> all_entries (pt_partitions op)).
Proof.
  intros Hos Hpl Hp. pose proof Hos as [(sidx & Hlen & Hr) Hcells Htypes].
  destruct (ptopk_run_inv pcols scols pidx sidx inputs [] []
    (PartitionedTopKOperator_new operator_id k pcols scols strategy max))
    as (op & outs & Hrun & [_ _ _ _ Hdom _ Hes Hbal _] & Hk & Hm & _).
  - split; [done|done|by apply cache_ok_new|by apply cache_ok_new|done|by intros e ?%elem_of_nil|done|done|done].
  - by apply Forall_and.
  - rewrite app_nil_r in Hdom, Hes. cbn in Hk, Hm. rewrite Hm, reverse_involutive in Hdom. rewrite Hk in Hes.
    exists op, outs. split_and!; [done|done| | |done].
    + unfold partition_count. rewrite <- (size_dom (D:=gset bytes)), Hdom. apply accepted_keys_size.
    + intros p es Hpe. apply Hes in Hpe. unfold of_partition in *.
      assert (Hfr : filter (λ e, partition_key_of pcols e = p) (reverse (input_events inputs))
        = reverse (filter (λ e, partition_key_of pcols e = p) (input_events inputs))).
      { clear. induction (input_events inputs) as [|e l IH]; [done|]. rewrite reverse_cons, filter_app, IH.
        rewrite !filter_cons. case_decide; [by rewrite reverse_cons|by rewrite app_nil_r]. }
      rewrite Hfr in Hpe.
      assert (Hos' : one_schema scols (filter (λ e, partition_key_of pcols e = p) (input_events inputs))).
      { split.
        - exists sidx. split; [done|]. apply Forall_forall. intros e [_ He]%list_elem_of_filter.
          rewrite Forall_forall in Hr. by apply Hr.
        - intros e [_ He]%list_elem_of_filter. by apply Hcells.
        - intros e e' [_ He]%list_elem_of_filter [_ He']%list_elem_of_filter. by apply Htypes. }
      destruct (topk_of_rows scols _ k es Hos' Hpe) as (others & ? & ? & ? & ?). by exists others.
Qed.

(** With two partitions allowed, the third category is dropped. *)
Lemma partitioned_topk_independent_witness :
  ∃ op outs, PTopK_run trades (PartitionedTopKOperator_new "ptopk" 2 by_category price_columns TkOnUpdate 2)
      = Some (op, outs) ∧ partition_count op = 2%nat ∧
    te_event <$> default [] (pt_partitions op !! [1; 97; 0]) = [trade 5 [97] 30; trade 1 [97] 50].
Proof.
  destruct trades_schema as [Hs Hp].
  destruct (partitioned_topk_independent "ptopk" 2 by_category price_columns TkOnUpdate 2 [Some 0%nat] trades
    Hs eq_refl Hp) as (op & outs & Hrun & _).
  assert (Hc : (λ x, (partition_count x.1, te_event <$> default [] (pt_partitions x.1 !! [1; 97; 0]))) <$>
    PTopK_run trades (PartitionedTopKOperator_new "ptopk" 2 by_category price_columns TkOnUpdate 2)
    = Some (2%nat, [trade 5 [97] 30; trade 1 [97] 50])) by (by vm_compute).
  rewrite Hrun in Hc. injection Hc as Hn He. exists op, outs. split; [exact Hrun|]. split; [exact Hn|exact He].
Defined.

(** Partition keys are exact for integer, float and string columns (strings
    without NUL bytes) and nulls: two rows have the same key exactly when they have
    the same partition cells. A timestamp column, which has no encoding here, puts
    all its non-null values in one partition. *)
Theorem partition_keys_exact {B} `{!ArrowBatch B} (columns : list PartitionColumn) (e e' : Event B) :
  Forall partition_ok (partition_row columns e) → Forall partition_ok (partition_row columns e') →
  Forall2 same_type (partition_row columns e) (partition_row columns e') →
  (partition_key_of columns e = partition_key_of columns e' ↔
   partition_row columns e = partition_row columns e') ∧
  ∀ u v w, partition_row_key [CTimestamp u v] = partition_row_key [CTimestamp u w].
Proof.
  intros He He' Ht. split; [|done]. unfold partition_key_of. split; [|by intros ->].
  by apply partition_row_key_inj.
Qed.

Lemma partition_keys_exact_witness :
  partition_key_of by_category (trade 1 [97] 50) = partition_key_of by_category (trade 9 [97] 2) ∧
  partition_key_of by_category (trade 1 [97] 50) ≠ partition_key_of by_category (trade 9 [97; 98] 2).
Proof.
  split.
  - apply (partition_keys_exact by_category (trade 1 [97] 50) (trade 9 [97] 2));
      [| | |reflexivity]; repeat constructor; cbn; lia.
  - intros H. apply (partition_keys_exact by_category (trade 1 [97] 50) (trade 9 [97; 98] 2)) in H;
      [discriminate H|..]; repeat constructor; cbn; lia.
Defined.

(** Restoring a checkpoint, written in any order of the partitions, gives the
    partitions with the sort keys and timestamps of their entries, and batches
    without columns in place of the rows. *)
Theorem partitioned_topk_checkpoint {B} `{!ArrowBatch B} `{!MapOrder} `{!MapOrderLaws}
    (op op0 : PartitionedTopKOperator (B:=B)) : is_u64 (pt_sequence_counter op) →
  (∀ p es, pt_partitions op !! p = Some es → Forall (λ e, is_i64 (ev_timestamp (te_event e))) es) →
  zlen (os_data (PTopK_checkpoint op)) < u64_MOD →
  ∃ op', PTopK_restore (PTopK_checkpoint op) op0 = Some (op', inl tt) ∧
    pt_partitions op' = placeholders <$> pt_partitions op ∧ pt_sequence_counter op' = pt_sequence_counter op.
Proof. intros Hq Ht Hl. eexists. split; [by apply ptopk_restore_spec|done]. Qed.

Lemma partitioned_topk_checkpoint_witness :
  ∃ op', PTopK_restore (PTopK_checkpoint (mkPTopK "ptopk" 2 by_category price_columns
      {[ [1; 97; 0] := [mkEntry [7; 9] (trade 5 [97] 1)] ]} TkOnUpdate [] 3 2 [None] [None]))
      (PartitionedTopKOperator_new "ptopk" 2 by_category price_columns TkOnUpdate 2) = Some (op', inl tt) ∧
    pt_partitions op' = {[ [1; 97; 0] := [mkEntry [7; 9] (mkEvent 5 [])] ]}.
Proof.
  destruct (partitioned_topk_checkpoint (mkPTopK "ptopk" 2 by_category price_columns
      {[ [1; 97; 0] := [mkEntry [7; 9] (trade 5 [97] 1)] ]} TkOnUpdate [] 3 2 [None] [None])
      (PartitionedTopKOperator_new "ptopk" 2 by_category price_columns TkOnUpdate 2)) as (op' & Hr & Hp & _).
  - split; cbn; lia.
  - intros p es. cbn [pt_partitions]. intros [_ <-]%lookup_singleton_Some. repeat constructor; cbn; lia.
  - reflexivity.
  - exists op'. split; [exact Hr|]. rewrite Hp. cbn [pt_partitions]. by rewrite map_fmap_singleton.
Defined.
