(* ===== verification/LagLead.v ===== *)
(** * The analytic functions operator

    operator/lag_lead.rs: [LagLeadOperator] computes LAG, LEAD, FIRST_VALUE,
    LAST_VALUE and NTH_VALUE per partition. An [f64] is its bits. A record batch is
    read through [ArrowBatch]; the class [ExtendBatch] is [RecordBatch::try_new] on
    the fields and columns of a batch followed by columns of one [f64], [None] when
    arrow refuses. The partition key is the one of the partitioned top-k operator,
    computed by the same loop. [None] is a panic. *)

From S2P Require Import Prelude RustFloat StateStore TimeCore WindowCore TumblingOp SortKeys TopK PartitionedTopK.

Class ExtendBatch (B : Type) := extend_batch : B → list (string * Z) → option B.

Inductive AnalyticFunctionKind := AkLag | AkLead | AkFirstValue | AkLastValue | AkNthValue.
#[global] Instance analytic_kind_eq_dec : EqDecision AnalyticFunctionKind.
Proof. solve_decision. Defined.

Definition is_lag (k : AnalyticFunctionKind) : bool := bool_decide (k = AkLag).
Definition is_lead (k : AnalyticFunctionKind) : bool := bool_decide (k = AkLead).
(** The [matches!] on the three positional kinds. *)
Definition is_positional (k : AnalyticFunctionKind) : bool :=
  match k with AkFirstValue | AkLastValue | AkNthValue => true | _ => false end.

Record LagLeadFunctionSpec := mkFunction {
  ff_function_type : AnalyticFunctionKind;
  ff_source_column : string;
  ff_offset : nat;
  ff_default_value : option Z;
  ff_output_column : string }.

Record LagLeadConfig := mkLagLeadConfig {
  lc_operator_id : string;
  lc_functions : list LagLeadFunctionSpec;
  lc_partition_columns : list string;
  lc_max_partitions : nat }.

Definition kind_is (p : AnalyticFunctionKind → bool) (f : LagLeadFunctionSpec) : bool := p (ff_function_type f).
(** [func.default_value.unwrap_or(f64::NAN)] *)
Definition default_or_nan (d : option Z) : Z := default f64_NAN d.

Section LagLead.
Context {B : Type} `{!ArrowBatch B} `{!ExtendBatch B} `{!MapOrder}.

Record PendingLeadEvent := mkPending {
  pl_event : Event B;
  pl_remaining : nat;
  pl_value : Z }.

Record PartitionState := mkPartitionState {
  pst_lag_history : list Z;
  pst_lead_pending : list PendingLeadEvent;
  pst_first_values : list (option Z);
  pst_nth_values : list (option Z);
  pst_event_count : nat }.

Record LagLeadMetrics := mkLagLeadMetrics {
  lm_events_processed : Z;
  lm_lag_lookups : Z;
  lm_lead_buffered : Z;
  lm_lead_flushed : Z;
  lm_partitions_active : Z }.

Record LagLeadOperator := mkLagLead {
  ll_operator_id : string;
  ll_functions : list LagLeadFunctionSpec;
  ll_partition_columns : list string;
  ll_partitions : gmap bytes PartitionState;
  ll_max_partitions : nat;
  ll_metrics : LagLeadMetrics;
  ll_lead_specs_cache : list (nat * option Z);
  ll_lead_defaults_cache : list Z;
  ll_lead_columns_cache : list string;
  ll_cached_partition_indices : list (option nat);
  ll_cached_lag_col_index : option nat;
  ll_cached_lead_col_index : option nat }.

Definition LagLeadOperator_new (config : LagLeadConfig) : LagLeadOperator :=
  let leads := filter (λ f, kind_is is_lead f = true) (lc_functions config) in
  mkLagLead (lc_operator_id config) (lc_functions config) (lc_partition_columns config) ∅ (lc_max_partitions config)
    (mkLagLeadMetrics 0 0 0 0 0)
    ((λ f, (ff_offset f, ff_default_value f)) <$> leads)
    ((λ f, default_or_nan (ff_default_value f)) <$> leads)
    (ff_output_column <$> leads)
    (replicate (length (lc_partition_columns config)) None) None None.

Definition lag_lead_partition_count (op : LagLeadOperator) : nat := size (ll_partitions op).

Definition fill_partition_key (event : Event B) (op : LagLeadOperator) : option (list (option nat) * bytes) :=
  extract_partition_key (ev_data event) (mkPartitionColumn <$> ll_partition_columns op)
    (ll_cached_partition_indices op).

(** The value of a cell as [f64]. *)
Definition cell_as_f64 (c : Cell) : Z :=
  match c with
  | CFloat64 bits => bits
  | CInt64 v => int_as_f64 v
  | CTimestamp TMicrosecond v => int_as_f64 v
  | CNull | CTimestamp _ _ | CUtf8 _ | COther => f64_NAN
  end.

Definition extract_column_value (event : Event B) (col : string) (cached_index : option nat)
  : option (option nat * Z) :=
  match (match cached_index with Some idx => Some idx | None => index_of (ev_data event) col end) with
  | None => Some (None, f64_NAN)
  | Some idx => cell ← cell_at (ev_data event) idx; Some (Some idx, cell_as_f64 cell)
  end.

Definition lag_value (history : list Z) (func : LagLeadFunctionSpec) : option Z :=
  if decide (ff_offset func <= length history)%nat then history !! (length history - ff_offset func)%nat
  else Some (default_or_nan (ff_default_value func)).

Definition compute_lag_values (functions : list LagLeadFunctionSpec) (state : PartitionState) : option (list Z) :=
  mapM (lag_value (pst_lag_history state)) (filter (λ f, kind_is is_lag f = true) functions).

Fixpoint positional_loop (functions : list LagLeadFunctionSpec) (count : nat) (current_value : Z)
    (firsts nths : list (option Z)) (first_idx nth_idx : nat)
  : option (list (option Z) * list (option Z) * list Z) :=
  match functions with
  | [] => Some (firsts, nths, [])
  | func :: functions =>
      match ff_function_type func with
      | AkFirstValue =>
          stored ← firsts !! first_idx;
          let v := default current_value stored in
          '(firsts, nths, results) ← positional_loop functions count current_value
             (match stored with None => <[first_idx := Some current_value]> firsts | Some _ => firsts end) nths
             (first_idx + 1) nth_idx;
          Some (firsts, nths, v :: results)
      | AkLastValue =>
          '(firsts, nths, results) ← positional_loop functions count current_value firsts nths first_idx nth_idx;
          Some (firsts, nths, current_value :: results)
      | AkNthValue =>
          stored ← nths !! nth_idx;
          let now := bool_decide (stored = None) && bool_decide (count = ff_offset func) in
          let v := if now then current_value else default (default_or_nan (ff_default_value func)) stored in
          '(firsts, nths, results) ← positional_loop functions count current_value firsts
             (if now then <[nth_idx := Some current_value]> nths else nths) first_idx (nth_idx + 1);
          Some (firsts, nths, v :: results)
      | AkLag | AkLead => positional_loop functions count current_value firsts nths first_idx nth_idx
      end
  end.

Definition compute_positional_values (functions : list LagLeadFunctionSpec) (state : PartitionState)
    (current_value : Z) : option (PartitionState * list Z) :=
  '(firsts, nths, results) ← positional_loop functions (pst_event_count state) current_value
     (pst_first_values state) (pst_nth_values state) 0 0;
  Some (mkPartitionState (pst_lag_history state) (pst_lead_pending state) firsts nths (pst_event_count state), results).

(** The value of each function, from the three lists by position. *)
Fixpoint output_values (functions : list LagLeadFunctionSpec) (lags leads positionals : list Z) : list Z :=
  match functions with
  | [] => []
  | func :: functions =>
      match ff_function_type func with
      | AkLag => default f64_NAN (head lags) :: output_values functions (tail lags) leads positionals
      | AkLead => default f64_NAN (head leads) :: output_values functions lags (tail leads) positionals
      | _ => default f64_NAN (head positionals) :: output_values functions lags leads (tail positionals)
      end
  end.

Definition build_output (functions : list LagLeadFunctionSpec) (event : Event B)
    (lag_values lead_values positional_values : list Z) : Event B :=
  let columns := zip (ff_output_column <$> functions)
                   (output_values functions lag_values lead_values positional_values) in
  mkEvent (ev_timestamp event) (default empty_batch (extend_batch (ev_data event) columns)).

(** [.map(|f| f.offset).max().unwrap_or(1)] over the functions of a kind. *)
Definition max_offset (p : AnalyticFunctionKind → bool) (functions : list LagLeadFunctionSpec) : nat :=
  match filter (λ f, kind_is p f = true) functions with
  | [] => 1
  | f :: fs => foldl Nat.max (ff_offset f) (ff_offset <$> fs)
  end.
Definition source_col (p : AnalyticFunctionKind → bool) (functions : list LagLeadFunctionSpec) : option string :=
  ff_source_column <$> head (filter (λ f, kind_is p f = true) functions).

(** The loop that drops the oldest values of a history that is too long. *)
Fixpoint trim_history (max : nat) (history : list Z) : list Z :=
  match history with
  | [] => []
  | _ :: rest => if decide (max < length history)%nat then trim_history max rest else history
  end.

Definition lead_value (pending : list PendingLeadEvent) (spec : nat * option Z) : option Z :=
  let '(offset, dflt) := spec in
  if decide (offset <= length pending)%nat then
    match offset with O => None | S i => pl_value <$> pending !! i end
  else Some (default_or_nan dflt).

(** The loop that takes the resolved events from the front of the queue. *)
Fixpoint resolve_leads (specs : list (nat * option Z)) (pending : list PendingLeadEvent)
  : option (list PendingLeadEvent * list (PendingLeadEvent * list Z)) :=
  match pending with
  | p :: rest =>
      if decide (pl_remaining p = 0%nat) then
        lead_values ← mapM (lead_value rest) specs;
        '(rest, resolved) ← resolve_leads specs rest;
        Some (rest, (p, lead_values) :: resolved)
      else Some (pending, [])
  | [] => Some ([], [])
  end.

Definition new_partition (functions : list LagLeadFunctionSpec) : PartitionState :=
  mkPartitionState [] []
    (replicate (length (filter (λ f, ff_function_type f = AkFirstValue) functions)) None)
    (replicate (length (filter (λ f, ff_function_type f = AkNthValue) functions)) None) 0.

Definition count_event (s : PartitionState) : PartitionState :=
  mkPartitionState (pst_lag_history s) (pst_lead_pending s) (pst_first_values s) (pst_nth_values s) (pst_event_count s + 1).
Definition with_history (h : list Z) (s : PartitionState) : PartitionState :=
  mkPartitionState h (pst_lead_pending s) (pst_first_values s) (pst_nth_values s) (pst_event_count s).
Definition with_pending (p : list PendingLeadEvent) (s : PartitionState) : PartitionState :=
  mkPartitionState (pst_lag_history s) p (pst_first_values s) (pst_nth_values s) (pst_event_count s).

(** The LAG part of [process_event]: the values, then the history with the event's. *)
Definition process_lag (event : Event B) (functions : list LagLeadFunctionSpec) (cached : option nat)
    (state : PartitionState) : option (PartitionState * option nat * list Z) :=
  if existsb (kind_is is_lag) functions then
    lag_values ← compute_lag_values functions state;
    match source_col is_lag functions with
    | Some col =>
        '(cached, value) ← extract_column_value event col cached;
        Some (with_history (trim_history (max_offset is_lag functions) (pst_lag_history state ++ [value])) state,
              cached, lag_values)
    | None => Some (state, cached, lag_values)
    end
  else Some (state, cached, []).

(** The positional part; it shares the cached column index of the LAG part. *)
Definition process_positional (event : Event B) (functions : list LagLeadFunctionSpec) (cached : option nat)
    (state : PartitionState) : option (PartitionState * option nat * list Z) :=
  if existsb (kind_is is_positional) functions then
    '(cached, current_value) ← match source_col is_positional functions with
                               | Some col => extract_column_value event col cached
                               | None => Some (cached, f64_NAN)
                               end;
    '(state, values) ← compute_positional_values functions state current_value;
    Some (state, cached, values)
  else Some (state, cached, []).

(** The LEAD part: queue the event, then take the resolved ones. *)
Definition process_lead (event : Event B) (functions : list LagLeadFunctionSpec) (specs : list (nat * option Z))
    (cached : option nat) (state : PartitionState)
  : option (PartitionState * option nat * list (PendingLeadEvent * list Z)) :=
  '(cached, value) ← match source_col is_lead functions with
                     | Some col => extract_column_value event col cached
                     | None => Some (cached, f64_NAN)
                     end;
  let pending := (λ p, mkPending (pl_event p) (pl_remaining p - 1) (pl_value p)) <$> pst_lead_pending state in
  '(pending, resolved) ← resolve_leads specs (pending ++ [mkPending event (max_offset is_lead functions) value]);
  Some (with_pending pending state, cached, resolved).

Definition ll_with (partitions : gmap bytes PartitionState) (metrics : LagLeadMetrics) (pcached : list (option nat))
    (lag_cached lead_cached : option nat) (op : LagLeadOperator) : LagLeadOperator :=
  mkLagLead (ll_operator_id op) (ll_functions op) (ll_partition_columns op) partitions (ll_max_partitions op) metrics
    (ll_lead_specs_cache op) (ll_lead_defaults_cache op) (ll_lead_columns_cache op) pcached lag_cached lead_cached.

Definition process_metrics (has_lag : bool) (buffered flushed partitions : nat) (m : LagLeadMetrics) : LagLeadMetrics :=
  mkLagLeadMetrics (wrap_u64 (lm_events_processed m + 1))
    (if has_lag then wrap_u64 (lm_lag_lookups m + 1) else lm_lag_lookups m)
    (wrap_u64 (lm_lead_buffered m + Z.of_nat buffered)) (wrap_u64 (lm_lead_flushed m + Z.of_nat flushed))
    (Z.of_nat partitions).

Definition LagLead_process_event (event : Event B) (op : LagLeadOperator)
  : option (LagLeadOperator * list (Output B)) :=
  '(pcached, partition_key) ← fill_partition_key event op;
  let op := ll_with (ll_partitions op) (ll_metrics op) pcached (ll_cached_lag_col_index op)
              (ll_cached_lead_col_index op) op in
  if bool_decide (ll_partitions op !! partition_key = None) &&
     bool_decide (ll_max_partitions op <= size (ll_partitions op))%nat
  then Some (op, [])
  else
    let functions := ll_functions op in
    let state := count_event (default (new_partition functions) (ll_partitions op !! partition_key)) in
    '(state, lag_cached, lag_values) ← process_lag event functions (ll_cached_lag_col_index op) state;
    '(state, lag_cached, positional_values) ← process_positional event functions lag_cached state;
    '(state, lead_cached, outputs, buffered, flushed) ←
      (if bool_decide (ll_lead_specs_cache op = []) then
         Some (state, ll_cached_lead_col_index op,
               [OutEvent (build_output functions event lag_values [] positional_values)], 0%nat, 0%nat)
       else
         '(state, lead_cached, resolved) ← process_lead event functions (ll_lead_specs_cache op)
                                             (ll_cached_lead_col_index op) state;
         Some (state, lead_cached,
               (λ r, OutEvent (build_output functions (pl_event r.1) lag_values r.2 positional_values)) <$> resolved,
               1%nat, length resolved));
    let partitions := <[partition_key := state]> (ll_partitions op) in
    Some (ll_with partitions
            (process_metrics (existsb (kind_is is_lag) functions) buffered flushed (size partitions) (ll_metrics op))
            (ll_cached_partition_indices op) lag_cached lead_cached op, outputs).

(** One event of the flush: the defaults of the LEAD functions are appended. *)
Definition flush_event (columns : list string) (defaults : list Z) (p : PendingLeadEvent) : option (Output B) :=
  (λ batch, OutEvent (mkEvent (ev_timestamp (pl_event p)) batch)) <$>
    extend_batch (ev_data (pl_event p)) (zip columns defaults).

Definition flush_pending_leads (op : LagLeadOperator) : LagLeadOperator * list (Output B) :=
  let outputs := map_iter (ll_partitions op) ≫= λ ks,
    omap (flush_event (ll_lead_columns_cache op) (ll_lead_defaults_cache op)) (pst_lead_pending ks.2) in
  let m := ll_metrics op in
  (ll_with (with_pending [] <$> ll_partitions op)
     (mkLagLeadMetrics (lm_events_processed m) (lm_lag_lookups m) (lm_lead_buffered m)
        (wrap_u64 (lm_lead_flushed m + zlen outputs)) (lm_partitions_active m))
     (ll_cached_partition_indices op) (ll_cached_lag_col_index op) (ll_cached_lead_col_index op) op, outputs).

Definition LagLead_process (event : Event B) (op : LagLeadOperator) := LagLead_process_event event op.
Definition LagLead_on_timer (op : LagLeadOperator) := flush_pending_leads op.

(** ** Checkpoints *)

Definition pending_bytes (p : PendingLeadEvent) : bytes :=
  to_le 8 (ev_timestamp (pl_event p)) ++ to_le 8 (Z.of_nat (pl_remaining p)) ++ to_le 8 (pl_value p).
Definition lag_partition_bytes (ks : bytes * PartitionState) : bytes :=
  to_le 8 (zlen ks.1) ++ ks.1 ++
  to_le 8 (zlen (pst_lag_history ks.2)) ++ (pst_lag_history ks.2 ≫= to_le 8) ++
  to_le 8 (zlen (pst_lead_pending ks.2)) ++ (pst_lead_pending ks.2 ≫= pending_bytes).

Definition LagLead_checkpoint (op : LagLeadOperator) : OperatorState :=
  mkOperatorState (ll_operator_id op) 1
    (to_le 8 (Z.of_nat (size (ll_partitions op))) ++ (map_iter (ll_partitions op) ≫= lag_partition_bytes)).

Fixpoint restore_history (count : nat) (data : bytes) (offset : Z) : option (list Z * Z) :=
  match count with
  | O => Some ([], offset)
  | S count =>
      val ← u64_at data offset;
      '(vals, offset) ← restore_history count data (usize_add offset 8);
      Some (val :: vals, offset)
  end.

Fixpoint restore_pending (count : nat) (data : bytes) (offset : Z) : option (list PendingLeadEvent * Z) :=
  match count with
  | O => Some ([], offset)
  | S count =>
      timestamp ← i64_at data offset;
      remaining ← u64_at data (usize_add offset 8);
      value ← u64_at data (usize_add (usize_add offset 8) 8);
      '(ps, offset) ← restore_pending count data (usize_add (usize_add (usize_add offset 8) 8) 8);
      Some (mkPending (mkEvent timestamp empty_batch) (Z.to_nat remaining) value :: ps, offset)
  end.

Definition restore_lag_partition (functions : list LagLeadFunctionSpec) (data : bytes) (offset : Z)
  : option (bytes * PartitionState * Z) :=
  key_len ← u64_at data offset;
  let offset := usize_add offset 8 in
  partition_key ← slice_of data offset (usize_add offset key_len);
  let offset := usize_add offset key_len in
  history_len ← u64_at data offset;
  '(lag_history, offset) ← restore_history (Z.to_nat history_len) data (usize_add offset 8);
  pending_len ← u64_at data offset;
  '(lead_pending, offset) ← restore_pending (Z.to_nat pending_len) data (usize_add offset 8);
  Some (partition_key, with_pending lead_pending (with_history lag_history (new_partition functions)), offset).

Fixpoint restore_lag_partitions (functions : list LagLeadFunctionSpec) (count : nat) (data : bytes) (offset : Z)
    (partitions : gmap bytes PartitionState) : option (gmap bytes PartitionState * (unit + OperatorError)) :=
  match count with
  | O => Some (partitions, inl tt)
  | S count =>
      if zlen data <? usize_add offset 8
      then Some (partitions, inr (SerializationFailed "LagLead checkpoint truncated")) else
      '(key, state, offset) ← restore_lag_partition functions data offset;
      restore_lag_partitions functions count data offset (<[key := state]> partitions)
  end.

Definition LagLead_restore (state : OperatorState) (op : LagLeadOperator)
  : option (LagLeadOperator * (unit + OperatorError)) :=
  let data := os_data state in
  if decide (length data < 8)%nat
  then Some (op, inr (SerializationFailed "LagLead checkpoint data too short")) else
  num_partitions ← u64_at data 0;
  '(partitions, res) ← restore_lag_partitions (ll_functions op) (Z.to_nat num_partitions) data 8 ∅;
  Some (ll_with partitions (ll_metrics op) (ll_cached_partition_indices op) (ll_cached_lag_col_index op)
          (ll_cached_lead_col_index op) op, res).
End LagLead.

(** ** Values of columns *)

Section Facts.
Context {B : Type} `{AB : !ArrowBatch B} `{EB : !ExtendBatch B} `{MO : !MapOrder} `{ML : !MapOrderLaws}.
Abbreviation Op := (LagLeadOperator (B:=B)).
Abbreviation State := (PartitionState (B:=B)).
Abbreviation Input := (TopKInput (B:=B)).

Definition value_of (col : string) (e : Event B) : Z :=
  default f64_NAN (i ← index_of (ev_data e) col; cell_as_f64 <$> cell_at (ev_data e) i).
Definition column_readable (col : string) (idx : option nat) (e : Event B) : Prop :=
  index_of (ev_data e) col = idx ∧ ∀ i, idx = Some i → is_Some (cell_at (ev_data e) i).

Lemma extract_column_readable col idx cached e : column_readable col idx e → cached = None ∨ cached = idx →
  extract_column_value e col cached = Some (idx, value_of col e).
Proof.
  intros [Hi Hc] Hcached. unfold extract_column_value, value_of.
  assert (match cached with Some i => Some i | None => index_of (ev_data e) col end = idx) as ->
    by (destruct Hcached as [->| ->]; [done|by destruct idx]).
  rewrite Hi. destruct idx as [i|]; [|done]. destruct (Hc i eq_refl) as [cell Hcell]. cbn. by rewrite Hcell.
Qed.

(** ** Partitions *)

(** The inputs a partition sees: its events and the timers. *)
Definition key_of (pcols : list string) (e : Event B) : bytes := partition_key_of (mkPartitionColumn <$> pcols) e.
Definition reaches (pcols : list string) (p : bytes) (i : Input) : bool :=
  match i with TkEvent e => bool_decide (key_of pcols e = p) | TkTimer => true end.
Definition seen_by (pcols : list string) (p : bytes) (inputs : list Input) : list Input :=
  filter (λ i, reaches pcols p i = true) inputs.
Definition accepted_of (max : nat) (pcols : list string) (inputs : list Input) : gset bytes :=
  accepted_keys max (key_of pcols <$> input_events inputs).

(** Each partition satisfies [P] of the inputs it has seen; [init] is a new one. *)
Record parts_ok (P : list Input → State → Prop) (max : nat) (pcols : list string) (seen : list Input)
    (parts : gmap bytes State) : Prop := {
  po_dom : dom parts = accepted_of max pcols seen;
  po_full e : e ∈ input_events seen → key_of pcols e ∉ dom parts → (max <= size parts)%nat;
  po_state p st : parts !! p = Some st → P (seen_by pcols p seen) st }.

Definition only_timers (inputs : list Input) : Prop := input_events inputs = [].

Lemma input_events_app (xs ys : list Input) : input_events (xs ++ ys) = input_events xs ++ input_events ys.
Proof. unfold input_events. apply bind_app. Qed.

Lemma seen_by_timers pcols p (inputs : list Input) : (∀ e, e ∈ input_events inputs → key_of pcols e ≠ p) →
  only_timers (seen_by pcols p inputs).
Proof.
  unfold only_timers. induction inputs as [|i inputs IH]; intros Hk; [done|]. unfold seen_by. rewrite filter_cons.
  destruct i as [e|]; cbn [input_events mbind list_bind app] in *.
  - case_decide as He; [apply bool_decide_eq_true in He; exfalso; apply (Hk e); [left|done]|]. apply IH. intros e' He'. apply Hk. by right.
  - rewrite decide_True by done. cbn [input_events mbind list_bind app]. by apply IH.
Qed.

Lemma seen_by_snoc_event pcols p seen (e : Event B) :
  seen_by pcols p (seen ++ [TkEvent e]) = seen_by pcols p seen ++ (if decide (key_of pcols e = p) then [TkEvent e] else []).
Proof.
  unfold seen_by. rewrite filter_app. f_equal. rewrite filter_cons. cbn [reaches].
  destruct (decide (key_of pcols e = p)) as [Hk|Hk];
    [rewrite decide_True|rewrite decide_False]; try done; by rewrite bool_decide_eq_true.
Qed.
Lemma seen_by_snoc_timer pcols p (seen : list Input) : seen_by pcols p (seen ++ [TkTimer]) = seen_by pcols p seen ++ [TkTimer].
Proof. unfold seen_by. by rewrite filter_app. Qed.

Lemma accepted_snoc max pcols seen (e : Event B) :
  accepted_of max pcols (seen ++ [TkEvent e]) = accept_key max (accepted_of max pcols seen) (key_of pcols e).
Proof. unfold accepted_of, accepted_keys. rewrite input_events_app, fmap_app, foldl_app. done. Qed.

Section Partitions.
Context (P : list Input → State → Prop) (max : nat) (pcols : list string) (init : State).
Context (P_init : ∀ inputs, only_timers inputs → P inputs init).

Lemma parts_ok_new : parts_ok P max pcols [] ∅.
Proof. split; [by rewrite dom_empty_L|by intros e He%elem_of_nil|done]. Qed.

(** An event is refused exactly when its partition is not accepted. *)
Lemma parts_ok_refused seen parts (e : Event B) : parts_ok P max pcols seen parts →
  bool_decide (parts !! key_of pcols e = None) && bool_decide (max <= size parts)%nat = true →
  key_of pcols e ∉ accepted_of max pcols (seen ++ [TkEvent e]) ∧
  parts_ok P max pcols (seen ++ [TkEvent e]) parts.
Proof.
  intros [Hdom Hfull Hst] [Hn Hm]%andb_true_iff. apply bool_decide_eq_true in Hn, Hm. apply not_elem_of_dom in Hn.
  assert (Hacc : accepted_of max pcols (seen ++ [TkEvent e]) = dom parts).
  { rewrite accepted_snoc, <- Hdom. unfold accept_key. rewrite decide_False, decide_True; [done| |done].
    by rewrite size_dom. }
  rewrite Hacc. split; [done|]. split; [done| |].
  - rewrite input_events_app. intros e' [He'|He']%elem_of_app; [by apply Hfull|]. intros _. done.
  - intros p st Hp. rewrite seen_by_snoc_event, decide_False, app_nil_r; [by apply Hst|].
    intros <-. apply Hn. by apply elem_of_dom_2 in Hp.
Qed.

Lemma parts_ok_accepted seen parts (e : Event B) : parts_ok P max pcols seen parts →
  bool_decide (parts !! key_of pcols e = None) && bool_decide (max <= size parts)%nat = false →
  let p := key_of pcols e in
  p ∈ accepted_of max pcols (seen ++ [TkEvent e]) ∧ P (seen_by pcols p seen) (default init (parts !! p)) ∧
  ∀ st', P (seen_by pcols p seen ++ [TkEvent e]) st' → parts_ok P max pcols (seen ++ [TkEvent e]) (<[p := st']> parts).
Proof.
  intros [Hdom Hfull Hst] Hacc p. apply andb_false_iff in Hacc.
  assert (Hcase : p ∈ dom parts ∨ p ∉ dom parts ∧ (size parts < max)%nat).
  { destruct (decide (p ∈ dom parts)) as [|Hn]; [by left|right]. split; [done|].
    destruct Hacc as [Hacc|Hacc]; apply bool_decide_eq_false in Hacc; [|lia]. by apply not_elem_of_dom in Hn. }
  assert (Hset : accepted_of max pcols (seen ++ [TkEvent e]) = {[p]} ∪ dom parts).
  { rewrite accepted_snoc, <- Hdom. unfold accept_key. fold p. destruct Hcase as [Hin|[Hn Hlt]].
    - rewrite decide_True by done. set_solver.
    - rewrite decide_False, decide_False; [done| |done]. rewrite size_dom. lia. }
  split; [rewrite Hset; set_solver|]. split.
  - destruct (parts !! p) as [st|] eqn:Ep; [by apply Hst|]. cbn. apply P_init, seen_by_timers.
    intros e' He' Hk. apply not_elem_of_dom in Ep. destruct Hcase as [|[_ Hlt]]; [done|].
    specialize (Hfull e' He'). rewrite Hk in Hfull. specialize (Hfull Ep). lia.
  - intros st' Hst'. split.
    + by rewrite dom_insert_L, Hset.
    + intros e'. rewrite input_events_app, dom_insert_L. intros [He'|He']%elem_of_app Hn.
      * rewrite not_elem_of_union in Hn. destruct Hn as [Hne Hn]. specialize (Hfull e' He' Hn). destruct Hcase as [Hin|[_ Hlt]]; [|lia].
        rewrite map_size_insert. apply elem_of_dom in Hin as [? ->]. done.
      * apply list_elem_of_singleton in He' as ->. fold p in Hn. set_solver.
    + intros p' st. rewrite lookup_insert_Some. intros [[<- <-]|[Hne Hp']]; rewrite seen_by_snoc_event.
      * by rewrite decide_True.
      * rewrite decide_False, app_nil_r by done. by apply Hst.
Qed.

Lemma parts_ok_timer seen parts f : parts_ok P max pcols seen parts →
  (∀ inputs st, P inputs st → P (inputs ++ [TkTimer]) (f st)) →
  parts_ok P max pcols (seen ++ [TkTimer]) (f <$> parts).
Proof.
  intros [Hdom Hfull Hst] Hf. split.
  - rewrite dom_fmap_L, Hdom. unfold accepted_of. by rewrite input_events_app, app_nil_r.
  - intros e. rewrite input_events_app, app_nil_r, dom_fmap_L, map_size_fmap. apply Hfull.
  - intros p st. rewrite lookup_fmap_Some, seen_by_snoc_timer. intros (st0 & <- & Hp). by apply Hf, Hst.
Qed.
End Partitions.

(** ** LAG and the positional functions *)

(** The [offset]th of the values of a partition, from 1. *)
Definition nth_of (vs : list Z) (f : LagLeadFunctionSpec) : option Z :=
  match ff_offset f with O => None | S i => vs !! i end.

(** What a function means at a row with the value [v] whose partition had [before]. *)
Definition analytic_value (before : list Z) (v : Z) (f : LagLeadFunctionSpec) : Z :=
  match ff_function_type f with
  | AkLag => default (default_or_nan (ff_default_value f))
               (if decide (ff_offset f <= length before)%nat then before !! (length before - ff_offset f)%nat else None)
  | AkFirstValue => default v (head before)
  | AkLastValue => v
  | AkNthValue => default (default_or_nan (ff_default_value f)) (nth_of (before ++ [v]) f)
  | AkLead => f64_NAN
  end.

Lemma trim_history_drop max l : trim_history max l = drop (length l - max) l.
Proof.
  induction l as [|x l IH]; [done|]. cbn [trim_history length]. case_decide as H.
  - rewrite IH. by replace (S (length l) - max)%nat with (S (length l - max)) by lia.
  - by replace (S (length l) - max)%nat with 0%nat by lia.
Qed.

Lemma foldl_max_ge l : ∀ a, (a <= foldl Nat.max a l)%nat ∧ Forall (λ x, x <= foldl Nat.max a l)%nat l.
Proof.
  induction l as [|x l IH]; intros a; cbn [foldl]; [by split|].
  destruct (IH (a `max` x)%nat) as [Ha Hl]. split; [lia|]. constructor; [lia|done].
Qed.

Lemma max_offset_ge p functions f : f ∈ functions → kind_is p f = true → (ff_offset f <= max_offset p functions)%nat.
Proof.
  intros Hf Hk. unfold max_offset.
  assert (Hin : f ∈ filter (λ f, kind_is p f = true) functions) by (by apply list_elem_of_filter).
  destruct (filter _ functions) as [|g fs]; [by apply elem_of_nil in Hin|].
  destruct (foldl_max_ge (ff_offset <$> fs) (ff_offset g)) as [Hg Hfs].
  apply elem_of_cons in Hin as [->|Hin]; [done|]. rewrite Forall_forall in Hfs. apply Hfs. by apply list_elem_of_fmap_2.
Qed.

(** A bounded history answers like the whole one. *)
Lemma lag_value_exact M vs f : ff_function_type f = AkLag → (1 <= ff_offset f <= M)%nat →
  ∀ v, lag_value (drop (length vs - M) vs) f = Some (analytic_value vs v f).
Proof.
  intros Hk Ho v. unfold lag_value, analytic_value. rewrite Hk, length_drop.
  destruct (decide (ff_offset f <= length vs)%nat) as [Hle|Hgt].
  - rewrite decide_True by lia. rewrite lookup_drop.
    replace (length vs - M + (length vs - (length vs - M) - ff_offset f))%nat with (length vs - ff_offset f)%nat by lia.
    destruct (lookup_lt_is_Some_2 vs (length vs - ff_offset f)) as [x ->]; [lia|done].
  - by rewrite decide_False by lia.
Qed.

Lemma history_snoc M (vs : list Z) v : (1 <= M)%nat →
  trim_history M (drop (length vs - M) vs ++ [v]) = drop (length (vs ++ [v]) - M) (vs ++ [v]).
Proof.
  intros HM. rewrite trim_history_drop, !length_app, length_drop. cbn [length].
  rewrite <- drop_app_le by lia. rewrite drop_drop. f_equal. lia.
Qed.

(** The stored positional values after [vs]. *)
Definition firsts_of (vs : list Z) (functions : list LagLeadFunctionSpec) : list (option Z) :=
  (λ _, head vs) <$> filter (λ f, ff_function_type f = AkFirstValue) functions.
Definition nths_of (vs : list Z) (functions : list LagLeadFunctionSpec) : list (option Z) :=
  nth_of vs <$> filter (λ f, ff_function_type f = AkNthValue) functions.

Lemma nth_of_snoc vs v f : nth_of (vs ++ [v]) f =
  if bool_decide (nth_of vs f = None) && bool_decide (S (length vs) = ff_offset f) then Some v else nth_of vs f.
Proof.
  unfold nth_of. destruct (ff_offset f) as [|i]; [by rewrite bool_decide_eq_true_2|].
  destruct (decide (i < length vs)%nat) as [Hlt|Hge].
  - rewrite lookup_app_l by done. destruct (lookup_lt_is_Some_2 vs i Hlt) as [x ->]. done.
  - rewrite lookup_app_r, (lookup_ge_None_2 vs) by lia. rewrite bool_decide_eq_true_2 by done. cbn [andb].
    case_bool_decide as He; [by replace (i - length vs)%nat with 0%nat by lia|]. apply lookup_ge_None_2. cbn. lia.
Qed.

Ltac decide_kinds Ef :=
  repeat first [rewrite decide_True by (unfold kind_is; rewrite ?Ef; done)
               | rewrite decide_False by (unfold kind_is; rewrite ?Ef; done)].

Lemma positional_loop_exact vs v functions : ∀ fpre npre,
  positional_loop functions (S (length vs)) v (fpre ++ firsts_of vs functions) (npre ++ nths_of vs functions)
    (length fpre) (length npre)
  = Some (fpre ++ firsts_of (vs ++ [v]) functions, npre ++ nths_of (vs ++ [v]) functions,
          analytic_value vs v <$> filter (λ f, kind_is is_positional f = true) functions).
Proof.
  assert (Hmid : ∀ (pre : list (option Z)) x l, (pre ++ x :: l) !! length pre = Some x).
  { intros pre x l. by rewrite lookup_app_r, Nat.sub_diag by lia. }
  assert (Hset : ∀ (pre : list (option Z)) x y l, <[length pre := y]> (pre ++ x :: l) = (pre ++ [y]) ++ l).
  { intros pre x y l. rewrite insert_app_r_alt, Nat.sub_diag, <- app_assoc by lia. done. }
  induction functions as [|f functions IH]; intros fpre npre; [done|].
  unfold firsts_of, nths_of in *. cbn [positional_loop]. rewrite !(filter_cons _ f).
  destruct (ff_function_type f) eqn:Ef; decide_kinds Ef; try apply IH.
  - rewrite !fmap_cons, Hmid. cbn [mbind option_bind].
    assert (Hnew : match head vs with None => <[length fpre := Some v]> (fpre ++ head vs :: firsts_of vs functions)
      | Some _ => fpre ++ head vs :: firsts_of vs functions end = (fpre ++ [head (vs ++ [v])]) ++ firsts_of vs functions).
    { destruct vs as [|x vs]; cbn [head app]; [by rewrite Hset|]. by rewrite <- app_assoc. }
    unfold firsts_of in Hnew. rewrite Hnew.
    replace (length fpre + 1)%nat with (length (fpre ++ [head (vs ++ [v])])) by (by rewrite length_app).
    rewrite IH. cbn [mbind option_bind]. rewrite <- app_assoc. cbn [app].
    unfold analytic_value at 2. rewrite Ef. done.
  - rewrite IH. cbn [mbind option_bind]. rewrite fmap_cons. unfold analytic_value at 2. by rewrite Ef.
  - rewrite !fmap_cons, Hmid. cbn [mbind option_bind]. rewrite nth_of_snoc.
    set (now := bool_decide _ && bool_decide _).
    assert (Hnew : (if now then <[length npre := Some v]> (npre ++ nth_of vs f :: nths_of vs functions)
      else npre ++ nth_of vs f :: nths_of vs functions)
      = (npre ++ [if now then Some v else nth_of vs f]) ++ nths_of vs functions).
    { destruct now; [by rewrite Hset|by rewrite <- app_assoc]. }
    unfold nths_of in Hnew. rewrite Hnew.
    replace (length npre + 1)%nat with (length (npre ++ [if now then Some v else nth_of vs f])) by (by rewrite length_app).
    rewrite IH. cbn [mbind option_bind]. rewrite <- (app_assoc npre). cbn [app].
    unfold analytic_value at 2. rewrite Ef, nth_of_snoc. fold now. by destruct now.
Qed.

Lemma output_values_exact (g : LagLeadFunctionSpec → Z) functions :
  output_values functions (g <$> filter (λ f, kind_is is_lag f = true) functions)
    (g <$> filter (λ f, kind_is is_lead f = true) functions)
    (g <$> filter (λ f, kind_is is_positional f = true) functions) = g <$> functions.
Proof.
  induction functions as [|f functions IH]; [done|]. rewrite fmap_cons. cbn [output_values].
  rewrite !(filter_cons _ f). destruct (ff_function_type f) eqn:Ef; decide_kinds Ef; rewrite fmap_cons;
    cbn [head tail default]; f_equal; exact IH.
Qed.

(** *** Runs *)

Definition LagLead_step (i : Input) (op : Op) : option (Op * list (Output B)) :=
  match i with TkEvent e => LagLead_process e op | TkTimer => Some (LagLead_on_timer op) end.
Fixpoint LagLead_run (inputs : list Input) (op : Op) : option (Op * list (list (Output B))) :=
  match inputs with
  | [] => Some (op, [])
  | i :: inputs =>
      '(op, out) ← LagLead_step i op;
      '(op, outs) ← LagLead_run inputs op;
      Some (op, out :: outs)
  end.

(** Events the operator can read: the partition columns and the column [col]. *)
Definition lag_readable (pcols : list string) (pidx : list (option nat)) (col : string) (idx : option nat)
    (e : Event B) : Prop :=
  partition_readable (mkPartitionColumn <$> pcols) pidx e ∧ column_readable col idx e.

Lemma filter_kind_nil p functions : existsb (kind_is p) functions = false →
  filter (λ f, kind_is p f = true) functions = [].
Proof.
  intros Hn. apply filter_none, Forall_forall. intros f Hf Hk.
  assert (existsb (kind_is p) functions = true); [|congruence]. apply existsb_exists. exists f.
  split; [by apply list_elem_of_In|done].
Qed.

Lemma source_col_same p functions col : Forall (λ f, ff_source_column f = col) functions →
  existsb (kind_is p) functions = true → source_col p functions = Some col.
Proof.
  intros Hcol Hex. unfold source_col. apply existsb_exists in Hex as (f & Hf%list_elem_of_In & Hk).
  assert (Hin : f ∈ filter (λ f, kind_is p f = true) functions) by (by apply list_elem_of_filter).
  destruct (filter _ functions) as [|g fs] eqn:E; [by apply elem_of_nil in Hin|]. cbn. f_equal.
  rewrite Forall_forall in Hcol. apply Hcol.
  assert (Hg : g ∈ filter (λ f, kind_is p f = true) functions) by (rewrite E; left). apply list_elem_of_filter in Hg. apply Hg.
Qed.

(** No positional function, no stored values. *)
Lemma positional_none functions vs : existsb (kind_is is_positional) functions = false →
  firsts_of vs functions = [] ∧ nths_of vs functions = [].
Proof.
  intros Hn. unfold firsts_of, nths_of.
  assert (Hf : ∀ k, is_positional k = true → filter (λ f, ff_function_type f = k) functions = []).
  { intros k Hk. apply filter_none, Forall_forall. intros f Hf <-.
    assert (existsb (kind_is is_positional) functions = true); [|congruence]. apply existsb_exists. exists f.
    split; [by apply list_elem_of_In|done]. }
  by rewrite !Hf.
Qed.

Lemma mapM_total {X Y} (f : X → option Y) (g : X → Y) l : (∀ x, x ∈ l → f x = Some (g x)) → mapM f l = Some (g <$> l).
Proof. intros H. apply mapM_Some, Forall2_fmap_r, Forall_Forall2_diag, Forall_forall. exact H. Qed.

Definition input_ok (ok : Event B → Prop) (i : Input) : Prop := match i with TkEvent e => ok e | TkTimer => True end.

(** A run from the steps, whatever an input may make the operator emit. *)
Lemma run_exact (inv : list Input → Op → Prop) (emits : list Input → Input → list (Output B) → Prop) (ok : Event B → Prop) :
  (∀ seen op i, input_ok ok i → inv seen op →
     ∃ op' out, LagLead_step i op = Some (op', out) ∧ emits seen i out ∧ inv (seen ++ [i]) op') →
  ∀ inputs seen op, inv seen op → Forall ok (input_events inputs) →
  ∃ op' outs, LagLead_run inputs op = Some (op', outs) ∧ inv (seen ++ inputs) op' ∧ length outs = length inputs ∧
    ∀ n i out, inputs !! n = Some i → outs !! n = Some out → emits (seen ++ take n inputs) i out.
Proof.
  intros Hstep. induction inputs as [|i inputs IH]; intros seen op Hinv Hok; cbn [LagLead_run].
  { exists op, []. rewrite app_nil_r. by split_and!. }
  assert (Hi : input_ok ok i ∧ Forall ok (input_events inputs)).
  { destruct i as [e|]; [by apply Forall_cons in Hok|by split]. }
  destruct Hi as [Hi Hok']. destruct (Hstep seen op i Hi Hinv) as (op1 & out & -> & Hem & Hinv1).
  destruct (IH _ op1 Hinv1 Hok') as (op2 & outs & E & Hinv2 & Hlen & Hall). cbn [mbind option_bind]. rewrite E.
  exists op2, (out :: outs). rewrite <- app_assoc in Hinv2. split_and!; try done; [cbn; by rewrite Hlen|].
  intros [|n] j out'; cbn; [intros [= <-] [= <-]; by rewrite app_nil_r|]. intros Hj Ho.
  specialize (Hall n j out' Hj Ho). by rewrite <- app_assoc in Hall.
Qed.

Section Analytic.
Context (functions : list LagLeadFunctionSpec) (pcols : list string) (max : nat) (col : string).
Context (pidx : list (option nat)) (idx : option nat).
Context (Hcol : Forall (λ f, ff_source_column f = col) functions).
Context (Hoff : Forall (λ f, ff_function_type f = AkLag → (1 <= ff_offset f)%nat) functions).
Context (Hlead : Forall (λ f, ff_function_type f ≠ AkLead) functions).

Abbreviation M := (max_offset is_lag functions).
Definition history_of (vs : list Z) : list Z :=
  if existsb (kind_is is_lag) functions then drop (length vs - M) vs else [].

Definition analytic_ok (inputs : list Input) (st : State) : Prop :=
  let vs := value_of col <$> input_events inputs in
  st = mkPartitionState (history_of vs) [] (firsts_of vs functions) (nths_of vs functions) (length vs).

Lemma analytic_ok_new inputs : only_timers inputs → analytic_ok inputs (new_partition functions).
Proof.
  unfold only_timers, analytic_ok, new_partition. intros ->. cbn [fmap list_fmap length]. f_equal.
  - unfold history_of. by destruct (existsb _ _).
  - unfold firsts_of. cbn [head]. by rewrite <- const_fmap with (f := λ _ : LagLeadFunctionSpec, @None Z).
  - unfold nths_of. rewrite <- const_fmap with (f := λ _ : LagLeadFunctionSpec, @None Z) by done.
    apply list_fmap_ext. intros _ f _.
    unfold nth_of. by destruct (ff_offset f).
Qed.

Lemma process_lag_exact e cached vs st : column_readable col idx e → cached = None ∨ cached = idx →
  pst_lag_history st = history_of vs →
  ∃ cached', process_lag e functions cached st
    = Some (with_history (history_of (vs ++ [value_of col e])) st, cached',
            analytic_value vs (value_of col e) <$> filter (λ f, kind_is is_lag f = true) functions) ∧
    (cached' = None ∨ cached' = idx).
Proof.
  intros Hr Hc Hh. unfold process_lag, history_of in *. destruct (existsb (kind_is is_lag) functions) eqn:Hlag.
  - unfold compute_lag_values. rewrite Hh.
    assert (HM : ∀ f, f ∈ functions → kind_is is_lag f = true → (1 <= ff_offset f <= M)%nat).
    { intros f Hf Hk. split; [|by apply max_offset_ge]. rewrite Forall_forall in Hoff. apply Hoff; [done|].
      by apply bool_decide_eq_true in Hk. }
    assert (Hvals : mapM (lag_value (drop (length vs - M) vs)) (filter (λ f, kind_is is_lag f = true) functions)
      = Some (analytic_value vs (value_of col e) <$> filter (λ f, kind_is is_lag f = true) functions)).
    { apply mapM_total. intros f [Hk Hf]%list_elem_of_filter. apply lag_value_exact; [by apply bool_decide_eq_true in Hk|by apply HM]. }
    rewrite Hvals. cbn [mbind option_bind]. rewrite (source_col_same is_lag functions col Hcol Hlag).
    rewrite (extract_column_readable col idx cached e Hr Hc). cbn [mbind option_bind]. eexists. split; [|by right].
    rewrite history_snoc; [done|]. apply existsb_exists in Hlag as (f & Hf%list_elem_of_In & Hk).
    specialize (HM f Hf Hk). lia.
  - rewrite filter_kind_nil by done. exists cached. split; [|done]. do 2 f_equal. destruct st. cbn in *. by rewrite Hh.
Qed.

Lemma process_positional_exact e cached vs st : column_readable col idx e → cached = None ∨ cached = idx →
  pst_first_values st = firsts_of vs functions → pst_nth_values st = nths_of vs functions →
  pst_event_count st = S (length vs) →
  ∃ cached', process_positional e functions cached st
    = Some (mkPartitionState (pst_lag_history st) (pst_lead_pending st) (firsts_of (vs ++ [value_of col e]) functions)
              (nths_of (vs ++ [value_of col e]) functions) (pst_event_count st), cached',
            analytic_value vs (value_of col e) <$> filter (λ f, kind_is is_positional f = true) functions) ∧
    (cached' = None ∨ cached' = idx).
Proof.
  intros Hr Hc Hf Hn Hcount. unfold process_positional. destruct (existsb (kind_is is_positional) functions) eqn:Hpos.
  - rewrite (source_col_same is_positional functions col Hcol Hpos), (extract_column_readable col idx cached e Hr Hc).
    cbn [mbind option_bind]. unfold compute_positional_values. rewrite Hf, Hn, Hcount.
    pose proof (positional_loop_exact vs (value_of col e) functions [] []) as Hloop. cbn [app length] in Hloop.
    rewrite Hloop. cbn [mbind option_bind].
    eexists. split; [done|by right].
  - destruct (positional_none functions vs Hpos) as [E1 E2].
    destruct (positional_none functions (vs ++ [value_of col e]) Hpos) as [-> ->].
    rewrite filter_kind_nil by done. exists cached. split; [|done]. do 2 f_equal. destruct st; cbn in *. congruence.
Qed.

Lemma output_values_nolead (g : LagLeadFunctionSpec → Z) :
  output_values functions (g <$> filter (λ f, kind_is is_lag f = true) functions) []
    (g <$> filter (λ f, kind_is is_positional f = true) functions) = g <$> functions.
Proof.
  etransitivity; [|apply output_values_exact]. rewrite (filter_kind_nil is_lead); [done|].
  apply not_true_iff_false. intros (f & Hin%list_elem_of_In & Hk)%existsb_exists.
  rewrite Forall_forall in Hlead. apply (Hlead f Hin). by apply bool_decide_eq_true in Hk.
Qed.

(** The row a partition with the events [before] gets at [e]. *)
Definition annotate (before : list (Event B)) (e : Event B) : Event B :=
  mkEvent (ev_timestamp e) (default empty_batch (extend_batch (ev_data e)
    (zip (ff_output_column <$> functions)
         (analytic_value (value_of col <$> before) (value_of col e) <$> functions)))).

Record analytic_inv (seen : list Input) (op : Op) : Prop := {
  ai_functions : ll_functions op = functions;
  ai_pcols : ll_partition_columns op = pcols;
  ai_max : ll_max_partitions op = max;
  ai_specs : ll_lead_specs_cache op = [];
  ai_pcache : cache_ok (ll_cached_partition_indices op) pidx;
  ai_cache : ll_cached_lag_col_index op = None ∨ ll_cached_lag_col_index op = idx;
  ai_parts : parts_ok analytic_ok max pcols seen (ll_partitions op) }.

(** What an input makes the operator emit. *)
Definition analytic_output (seen : list Input) (i : Input) : list (Output B) :=
  match i with
  | TkEvent e =>
      if decide (key_of pcols e ∈ accepted_of max pcols (seen ++ [TkEvent e]))
      then [OutEvent (annotate (input_events (seen_by pcols (key_of pcols e) seen)) e)] else []
  | TkTimer => []
  end.

Lemma analytic_process seen op e : lag_readable pcols pidx col idx e → analytic_inv seen op →
  ∃ op', LagLead_process e op = Some (op', analytic_output seen (TkEvent e)) ∧ analytic_inv (seen ++ [TkEvent e]) op'.
Proof.
  intros [Hpr Hr] [Hf Hp Hm Hsp Hpc Hca Hparts]. unfold LagLead_process, LagLead_process_event, fill_partition_key.
  rewrite Hp, (extract_partition_readable _ pidx _ e Hpr Hpc). fold (key_of pcols e). cbn [mbind option_bind].
  cbn [ll_with ll_partitions ll_metrics ll_max_partitions ll_functions ll_cached_lag_col_index ll_cached_lead_col_index
       ll_lead_specs_cache ll_cached_partition_indices]. rewrite Hm, Hf, Hsp.
  destruct (bool_decide _ && bool_decide _) eqn:Hadm.
  - destruct (parts_ok_refused _ _ _ _ _ e Hparts Hadm) as [Hno Hparts']. cbn [analytic_output].
    rewrite decide_False by done. eexists. split; [done|]. split; try done. apply cache_ok_refl.
  - destruct (parts_ok_accepted _ _ _ (new_partition functions) analytic_ok_new _ _ e Hparts Hadm) as (Hyes & Hst & Hnew).
    set (p := key_of pcols e) in *. set (st := default _ _) in *. unfold analytic_ok in Hst.
    set (vs := value_of col <$> input_events (seen_by pcols p seen)) in *.
    destruct (process_lag_exact e (ll_cached_lag_col_index op) vs (count_event st) Hr Hca) as (c1 & -> & Hc1); [by rewrite Hst|].
    cbn [mbind option_bind].
    destruct (process_positional_exact e c1 vs (with_history (history_of (vs ++ [value_of col e])) (count_event st)) Hr Hc1)
      as (c2 & -> & Hc2); [by rewrite Hst|by rewrite Hst|rewrite Hst; cbn; lia|].
    cbn [mbind option_bind]. rewrite bool_decide_eq_true_2 by done. cbn [mbind option_bind analytic_output].
    rewrite decide_True by done. eexists. split.
    + unfold build_output. rewrite output_values_nolead. done.
    + split; try done; [apply cache_ok_refl|]. apply Hnew. unfold analytic_ok. rewrite Hst. cbn.
      rewrite input_events_app, fmap_app, length_app. fold vs. cbn. f_equal.
Qed.

Lemma flush_empty (columns : list string) defaults (l : list (bytes * State)) : Forall (λ ks, pst_lead_pending ks.2 = []) l →
  (l ≫= λ ks, omap (flush_event columns defaults) (pst_lead_pending ks.2)) = [].
Proof. induction 1 as [|ks l Hk _ IH]; [done|]. rewrite bind_cons, Hk. exact IH. Qed.

Lemma analytic_timer seen op : analytic_inv seen op →
  ∃ op', LagLead_on_timer op = (op', []) ∧ analytic_inv (seen ++ [TkTimer]) op'.
Proof.
  intros [Hf Hp Hm Hsp Hpc Hca Hparts]. unfold LagLead_on_timer, flush_pending_leads. rewrite flush_empty.
  - eexists. split; [done|]. split; try done. apply parts_ok_timer; [done|]. intros inputs st. unfold analytic_ok.
    rewrite input_events_app, app_nil_r. by intros ->.
  - apply Forall_forall. intros [p st] Hin. rewrite map_iter_perm, elem_of_map_to_list in Hin.
    by rewrite (po_state _ _ _ _ _ Hparts p st Hin).
Qed.

Lemma analytic_inv_new operator_id : length pidx = length pcols →
  analytic_inv [] (LagLeadOperator_new (mkLagLeadConfig operator_id functions pcols max)).
Proof.
  intros Hl. unfold LagLeadOperator_new. cbn [lc_functions lc_operator_id lc_partition_columns lc_max_partitions]. split; try done.
  - cbn. rewrite filter_kind_nil; [done|]. apply not_true_iff_false. intros (f & Hin%list_elem_of_In & Hk)%existsb_exists.
    rewrite Forall_forall in Hlead. apply (Hlead f Hin). by apply bool_decide_eq_true in Hk.
  - by apply cache_ok_new.
  - by left.
  - apply parts_ok_new.
Qed.
End Analytic.

(** [C27]: LAG, FIRST_VALUE, LAST_VALUE and NTH_VALUE are exact. An operator with any
    such functions over one column (LAG offsets at least 1) and any partitioning,
    fed any events of one schema and any timers, never panics. It emits one row for
    each event of a partition that is among the first [max_partitions] and nothing
    otherwise: the event with the value of LAG [n] rows before it in its partition,
    of the first, of the current and of the Nth row, and with the default (or NaN)
    where there is no such row, although it stores only the last values of each
    partition. *)
Theorem analytic_functions_exact functions pcols max col pidx idx operator_id (inputs : list Input) :
  Forall (λ f, ff_source_column f = col) functions →
  Forall (λ f, ff_function_type f = AkLag → (1 <= ff_offset f)%nat) functions →
  Forall (λ f, ff_function_type f ≠ AkLead) functions →
  length pidx = length pcols → Forall (lag_readable pcols pidx col idx) (input_events inputs) →
  ∃ op outs, LagLead_run inputs (LagLeadOperator_new (mkLagLeadConfig operator_id functions pcols max)) = Some (op, outs) ∧
    length outs = length inputs ∧
    ∀ n i out, inputs !! n = Some i → outs !! n = Some out →
      out = analytic_output functions pcols max col (take n inputs) i.
Proof.
  intros Hcol Hoff Hlead Hl Hok.
  destruct (run_exact (analytic_inv functions pcols max col pidx idx)
    (λ seen i out, out = analytic_output functions pcols max col seen i) (lag_readable pcols pidx col idx))
    with (inputs := inputs) (seen := @nil Input) (op := LagLeadOperator_new (B:=B) (mkLagLeadConfig operator_id functions pcols max))
    as (op & outs & E & _ & Hlen & Hall).
  - intros seen op [e|] Hi Hinv; cbn [LagLead_step].
    + destruct (analytic_process functions pcols max col pidx idx Hcol Hoff Hlead seen op e Hi Hinv) as (op' & -> & Hinv').
      by eexists _, _.
    + destruct (analytic_timer functions pcols max col pidx idx seen op Hinv) as (op' & -> & Hinv'). by eexists _, _.
  - by apply analytic_inv_new.
  - done.
  - by exists op, outs.
Qed.

(** ** LEAD *)

(** The events since the last timer. *)
Definition since (inputs : list Input) : list (Event B) :=
  foldl (λ es i, match i with TkEvent e => es ++ [e] | TkTimer => [] end) [] inputs.

Section Lead.
Context (functions : list LagLeadFunctionSpec) (pcols : list string) (max : nat) (col : string).
Context (pidx : list (option nat)) (idx : option nat).
Context (Hcol : Forall (λ f, ff_source_column f = col) functions).
Context (Hoff : Forall (λ f, (1 <= ff_offset f)%nat) functions).
Context (Hkind : Forall (λ f, ff_function_type f = AkLead) functions).
Context (Hne : functions ≠ []).

Abbreviation M := (max_offset is_lead functions).

Lemma lead_kinds p : (p AkLead = false → filter (λ f, kind_is p f = true) functions = []) ∧
  (p AkLead = true → filter (λ f, kind_is p f = true) functions = functions).
Proof.
  rewrite Forall_forall in Hkind. split; intros Hp; [apply filter_none|apply filter_all];
    apply Forall_forall; intros f Hf; unfold kind_is; rewrite (Hkind f Hf), Hp; done.
Qed.

Lemma lead_exists p : existsb (kind_is p) functions = p AkLead.
Proof.
  destruct functions as [|f fs]; [done|]. rewrite Forall_forall in Hkind. destruct (p AkLead) eqn:Hp.
  - apply existsb_exists. exists f. split; [by left|]. unfold kind_is. by rewrite Hkind by left.
  - apply not_true_iff_false. intros (g & Hg%list_elem_of_In & Hk)%existsb_exists. unfold kind_is in Hk.
    rewrite Hkind in Hk by done. congruence.
Qed.

Lemma lead_offsets f : f ∈ functions → (1 <= ff_offset f <= M)%nat.
Proof.
  intros Hf. rewrite Forall_forall in Hoff, Hkind. split; [by apply Hoff|]. apply max_offset_ge; [done|].
  unfold kind_is. by rewrite Hkind.
Qed.

Lemma lead_M : (1 <= M)%nat.
Proof.
  assert (∃ f, f ∈ functions) as [f Hf] by (destruct functions as [|f fs]; [done|exists f; left]).
  pose proof (lead_offsets f Hf). lia.
Qed.

(** The queue of a partition: every event lacks as many as came after it. *)
Fixpoint pend (es : list (Event B)) : list PendingLeadEvent :=
  match es with [] => [] | e :: rest => mkPending e (M - length rest) (value_of col e) :: pend rest end.

Lemma pend_length es : length (pend es) = length es.
Proof. induction es as [|e es IH]; [done|]. cbn. by rewrite IH. Qed.

Lemma pend_snoc es e :
  ((λ p, mkPending (pl_event p) (pl_remaining p - 1) (pl_value p)) <$> pend es) ++ [mkPending e M (value_of col e)]
  = pend (es ++ [e]).
Proof.
  induction es as [|x es IH]; cbn [pend app fmap list_fmap length]; [by rewrite Nat.sub_0_r|].
  rewrite IH. cbn. rewrite length_app. cbn [length]. do 2 f_equal. lia.
Qed.

Lemma pend_value es i : pl_value <$> pend es !! i = value_of col <$> es !! i.
Proof. revert i. induction es as [|e es IH]; intros [|i]; cbn; [done..|apply IH]. Qed.

Lemma resolve_none specs es : (length es <= M)%nat → resolve_leads specs (pend es) = Some (pend es, []).
Proof.
  destruct es as [|e es]; [done|]. intros Hl. cbn [pend resolve_leads pl_remaining length] in *.
  by rewrite decide_False by lia.
Qed.

(** LEAD at the first row of a stretch of its partition. *)
Definition lead_at (seg : list (Event B)) (f : LagLeadFunctionSpec) : Z :=
  default f64_NAN (value_of col <$> seg !! ff_offset f).

Lemma resolve_one e es : length es = M →
  resolve_leads ((λ f, (ff_offset f, ff_default_value f)) <$> functions) (pend (e :: es))
  = Some (pend es, [(mkPending e 0 (value_of col e), lead_at (e :: es) <$> functions)]).
Proof.
  intros Hl. cbn [pend resolve_leads pl_remaining]. rewrite Hl, Nat.sub_diag, decide_True by done.
  assert (Hvals : mapM (lead_value (pend es)) ((λ f, (ff_offset f, ff_default_value f)) <$> functions)
    = Some (lead_at (e :: es) <$> functions)).
  { apply mapM_Some, Forall2_fmap, Forall_Forall2_diag, Forall_forall. intros f Hf. pose proof (lead_offsets f Hf) as Ho. cbn.
    rewrite pend_length, decide_True by lia. unfold lead_at. destruct (ff_offset f) as [|i]; [lia|].
    rewrite pend_value. change ((e :: es) !! S i) with (es !! i). destruct (lookup_lt_is_Some_2 es i) as [x Hx]; [lia|].
    rewrite !Hx. done. }
  rewrite Hvals. cbn [mbind option_bind]. rewrite resolve_none by lia. done.
Qed.

Definition unresolved (es : list (Event B)) : list (Event B) := drop (length es - M) es.
Definition lead_ok (inputs : list Input) (st : State) : Prop :=
  st = mkPartitionState [] (pend (unresolved (since inputs))) [] [] (length (input_events inputs)).

Lemma unresolved_snoc es e : unresolved es ++ [e] =
  (if decide (M <= length es)%nat then option_list (head (unresolved es)) else []) ++ unresolved (es ++ [e]).
Proof.
  pose proof lead_M as HM. unfold unresolved. rewrite length_app. cbn [length]. case_decide as H.
  - rewrite drop_app_le by lia. replace (length es + 1 - M)%nat with (S (length es - M)) by lia.
    destruct (drop (length es - M) es) as [|x l] eqn:E.
    + apply (f_equal length) in E. rewrite length_drop in E. cbn in E. lia.
    + cbn. f_equal. f_equal. replace (S (length es - M)) with (length es - M + 1)%nat by lia. by rewrite <- drop_drop, E.
  - rewrite drop_app_le by lia. cbn [app]. by replace (length es + 1 - M)%nat with (length es - M)%nat by lia.
Qed.

(** The row that gets its LEAD values when [e] arrives after [es]. *)
Definition lead_rows (es : list (Event B)) (e : Event B) : list (Output B) :=
  if decide (M <= length es)%nat then
    match unresolved es ++ [e] with
    | x :: rest => [OutEvent (mkEvent (ev_timestamp x) (default empty_batch (extend_batch (ev_data x)
                      (zip (ff_output_column <$> functions) (lead_at (x :: rest) <$> functions)))))]
    | [] => []
    end
  else [].

Lemma process_lead_exact e es cached st : column_readable col idx e → cached = None ∨ cached = idx →
  pst_lead_pending st = pend (unresolved es) →
  ∃ resolved, process_lead e functions ((λ f, (ff_offset f, ff_default_value f)) <$> functions) cached st
    = Some (with_pending (pend (unresolved (es ++ [e]))) st, idx, resolved) ∧
    ((λ r, OutEvent (build_output functions (pl_event r.1) [] r.2 [])) <$> resolved) = lead_rows es e.
Proof.
  intros Hr Hc Hp. unfold process_lead. rewrite (source_col_same is_lead functions col Hcol) by by rewrite lead_exists.
  rewrite (extract_column_readable col idx cached e Hr Hc). cbn [mbind option_bind]. rewrite Hp, pend_snoc.
  pose proof lead_M as HM. unfold lead_rows. rewrite unresolved_snoc. case_decide as Hd.
  - assert (Hlen : length (unresolved es) = M) by (unfold unresolved; rewrite length_drop; lia).
    destruct (unresolved es) as [|x rest] eqn:E; [cbn in Hlen; lia|].
    change (option_list (head (x :: rest)) ++ unresolved (es ++ [e])) with (x :: unresolved (es ++ [e])).
    assert (Hlen' : length (unresolved (es ++ [e])) = M) by (unfold unresolved; rewrite length_drop, length_app; cbn; lia).
    rewrite resolve_one by done. cbn [mbind option_bind]. eexists. split; [done|]. cbn. do 4 f_equal.
    unfold build_output. cbn. do 4 f_equal.
    pose proof (output_values_exact (lead_at (x :: unresolved (es ++ [e]))) functions) as Hov.
    rewrite (proj1 (lead_kinds is_lag)), (proj2 (lead_kinds is_lead)), (proj1 (lead_kinds is_positional)) in Hov by done. exact Hov.
  - cbn [app]. rewrite resolve_none by (unfold unresolved; rewrite length_drop, length_app; cbn; lia).
    eexists. by split.
Qed.

Record lead_inv (seen : list Input) (op : Op) : Prop := {
  lv_functions : ll_functions op = functions;
  lv_pcols : ll_partition_columns op = pcols;
  lv_max : ll_max_partitions op = max;
  lv_specs : ll_lead_specs_cache op = (λ f, (ff_offset f, ff_default_value f)) <$> functions;
  lv_defaults : ll_lead_defaults_cache op = (λ f, default_or_nan (ff_default_value f)) <$> functions;
  lv_columns : ll_lead_columns_cache op = ff_output_column <$> functions;
  lv_pcache : cache_ok (ll_cached_partition_indices op) pidx;
  lv_cache : ll_cached_lead_col_index op = None ∨ ll_cached_lead_col_index op = idx;
  lv_parts : parts_ok lead_ok max pcols seen (ll_partitions op) }.

(** An event that a timer flushes: LEAD is the default. *)
Definition flush_row (e : Event B) : option (Output B) :=
  (λ b, OutEvent (mkEvent (ev_timestamp e) b)) <$> extend_batch (ev_data e)
    (zip (ff_output_column <$> functions) ((λ f, default_or_nan (ff_default_value f)) <$> functions)).

(** What an input may make the operator emit. *)
Definition lead_emits (seen : list Input) (i : Input) (out : list (Output B)) : Prop :=
  match i with
  | TkEvent e =>
      let p := key_of pcols e in
      out = if decide (p ∈ accepted_of max pcols (seen ++ [TkEvent e])) then lead_rows (since (seen_by pcols p seen)) e else []
  | TkTimer => ∃ ps, ps ≡ₚ elements (accepted_of max pcols seen) ∧
      out = ps ≫= λ p, omap flush_row (unresolved (since (seen_by pcols p seen)))
  end.

Lemma filter_kind_eq k : k ≠ AkLead → filter (λ f, ff_function_type f = k) functions = [].
Proof.
  intros Hk. apply filter_none, Forall_forall. intros f Hf Hfk. rewrite Forall_forall in Hkind.
  apply Hk. by rewrite <- Hfk, Hkind.
Qed.

Lemma since_only_timers (inputs : list Input) : only_timers inputs → since inputs = [].
Proof.
  unfold only_timers, since. induction inputs as [|i inputs IH]; [done|]. destruct i as [e|]; [done|]. exact IH.
Qed.

Lemma lead_ok_new inputs : only_timers inputs → lead_ok inputs (new_partition functions).
Proof.
  intros Ht. unfold lead_ok, new_partition. rewrite since_only_timers, Ht by done. by rewrite !filter_kind_eq.
Qed.

Lemma lead_process seen op e : lag_readable pcols pidx col idx e → lead_inv seen op →
  ∃ op' out, LagLead_process e op = Some (op', out) ∧ lead_emits seen (TkEvent e) out ∧ lead_inv (seen ++ [TkEvent e]) op'.
Proof.
  intros [Hpr Hr] [Hf Hp Hm Hsp Hdf Hcs Hpc Hca Hparts]. unfold LagLead_process, LagLead_process_event, fill_partition_key.
  rewrite Hp, (extract_partition_readable _ pidx _ e Hpr Hpc). fold (key_of pcols e). cbn [mbind option_bind].
  cbn [ll_with ll_partitions ll_metrics ll_max_partitions ll_functions ll_cached_lag_col_index ll_cached_lead_col_index
       ll_lead_specs_cache ll_cached_partition_indices]. rewrite Hm, Hf, Hsp.
  destruct (bool_decide _ && bool_decide _) eqn:Hadm.
  - destruct (parts_ok_refused _ _ _ _ _ e Hparts Hadm) as [Hno Hparts']. eexists _, _. split; [done|].
    cbn [lead_emits]. rewrite decide_False by done. split; [done|]. split; try done. apply cache_ok_refl.
  - destruct (parts_ok_accepted _ _ _ (new_partition functions) lead_ok_new _ _ e Hparts Hadm) as (Hyes & Hst & Hnew).
    set (p := key_of pcols e) in *. set (st := default _ _) in *. unfold lead_ok in Hst.
    set (es := since (seen_by pcols p seen)) in *.
    unfold process_lag, process_positional. rewrite !lead_exists.
    change (is_lag AkLead) with false. change (is_positional AkLead) with false. cbn [mbind option_bind]. rewrite bool_decide_eq_false_2 by (by destruct functions).
    destruct (process_lead_exact e es (ll_cached_lead_col_index op) (count_event st) Hr Hca) as (resolved & -> & Hout); [by rewrite Hst|].
    cbn [mbind option_bind]. eexists _, _. split; [done|]. cbn [lead_emits]. fold p es. rewrite decide_True by done.
    split; [exact Hout|]. split; try done; [apply cache_ok_refl|by right|]. apply Hnew. unfold lead_ok. rewrite Hst. cbn.
    unfold since. rewrite foldl_app, input_events_app, length_app. done.
Qed.

Lemma flush_pend es : omap (flush_event (ff_output_column <$> functions) ((λ f, default_or_nan (ff_default_value f)) <$> functions))
  (pend es) = omap flush_row es.
Proof. induction es as [|e es IH]; [done|]. cbn [pend]. unfold omap in *. cbn [list_omap]. by rewrite IH. Qed.

Lemma flush_partitions (parts : list (bytes * State)) (g : bytes → list (Event B)) columns defaults :
  columns = ff_output_column <$> functions → defaults = (λ f, default_or_nan (ff_default_value f)) <$> functions →
  Forall (λ ks, pst_lead_pending ks.2 = pend (g ks.1)) parts →
  (parts ≫= λ ks, omap (flush_event columns defaults) (pst_lead_pending ks.2)) = (parts.*1 ≫= λ p, omap flush_row (g p)).
Proof.
  intros -> ->. induction 1 as [|ks parts Hk _ IH]; [done|]. rewrite fmap_cons, !bind_cons, Hk, flush_pend. by f_equal.
Qed.

Lemma keys_of_dom (m : gmap bytes State) : (map_iter m).*1 ≡ₚ elements (dom m).
Proof.
  rewrite map_iter_perm. apply NoDup_Permutation; [apply NoDup_fst_map_to_list|apply NoDup_elements|].
  intros k. rewrite elem_of_elements, elem_of_dom, list_elem_of_fmap. split.
  - intros ([k' st] & -> & Hin). apply elem_of_map_to_list in Hin. by eexists.
  - intros [st Hst]. exists (k, st). split; [done|]. by apply elem_of_map_to_list.
Qed.

Lemma lead_timer seen op : lead_inv seen op →
  ∃ op' out, LagLead_on_timer op = (op', out) ∧ lead_emits seen TkTimer out ∧ lead_inv (seen ++ [TkTimer]) op'.
Proof.
  intros [Hf Hp Hm Hsp Hdf Hcs Hpc Hca Hparts]. eexists _, _. split; [done|]. split.
  - exists (map_iter (ll_partitions op)).*1. split; [by rewrite keys_of_dom, (po_dom _ _ _ _ _ Hparts)|].
    apply (flush_partitions _ (λ p, unresolved (since (seen_by pcols p seen)))); try done.
    apply Forall_forall. intros [p st] Hin. rewrite map_iter_perm, elem_of_map_to_list in Hin.
    by rewrite (po_state _ _ _ _ _ Hparts p st Hin).
  - split; try done. apply parts_ok_timer; [done|]. intros inputs st Hst. unfold lead_ok in *. rewrite Hst.
    unfold since. by rewrite foldl_app, input_events_app, app_nil_r.
Qed.

Lemma lead_inv_new operator_id : length pidx = length pcols →
  lead_inv [] (LagLeadOperator_new (mkLagLeadConfig operator_id functions pcols max)).
Proof.
  intros Hl. unfold LagLeadOperator_new. cbn [lc_functions lc_operator_id lc_partition_columns lc_max_partitions].
  rewrite (proj2 (lead_kinds is_lead)) by done. split; try done; [by apply cache_ok_new|by left|apply parts_ok_new].
Qed.
End Lead.

(** LEAD is exact. An operator of LEAD functions over one column (offsets at
    least 1) and any partitioning, fed any events of one schema and any timers,
    never panics. An event gets its row when the event as many rows later as the
    largest offset arrives in its partition, with the values of the rows that are
    [offset] later, which are the right ones whatever arrives in other partitions.
    A timer flushes the events that wait, each once, with the defaults; events of
    partitions beyond [max_partitions] give nothing. *)
Theorem lead_functions_exact functions pcols max col pidx idx operator_id (inputs : list Input) :
  Forall (λ f, ff_source_column f = col) functions → Forall (λ f, (1 <= ff_offset f)%nat) functions →
  Forall (λ f, ff_function_type f = AkLead) functions → functions ≠ [] →
  length pidx = length pcols → Forall (lag_readable pcols pidx col idx) (input_events inputs) →
  ∃ op outs, LagLead_run inputs (LagLeadOperator_new (mkLagLeadConfig operator_id functions pcols max)) = Some (op, outs) ∧
    length outs = length inputs ∧
    ∀ n i out, inputs !! n = Some i → outs !! n = Some out →
      lead_emits functions pcols max col (take n inputs) i out.
Proof.
  intros Hcol Hoff Hkind Hne Hl Hok.
  destruct (run_exact (lead_inv functions pcols max col pidx idx) (lead_emits functions pcols max col) (lag_readable pcols pidx col idx))
    with (inputs := inputs) (seen := @nil Input) (op := LagLeadOperator_new (B:=B) (mkLagLeadConfig operator_id functions pcols max))
    as (op & outs & E & _ & Hlen & Hall).
  - intros seen op [e|] Hi Hinv; cbn [LagLead_step].
    + by apply (lead_process functions pcols max col pidx idx Hcol Hoff Hkind Hne seen op e Hi Hinv).
    + destruct (lead_timer functions pcols max col pidx idx seen op Hinv) as (op' & out & -> & Hem & Hinv'). by eexists _, _.
  - by apply lead_inv_new.
  - done.
  - by exists op, outs.
Qed.

(** ** Checkpoints *)

(** What is left of a partition: no rows, no positional values, no count. *)
Definition without_row (p : PendingLeadEvent (B:=B)) : PendingLeadEvent (B:=B) :=
  mkPending (mkEvent (ev_timestamp (pl_event p)) empty_batch) (pl_remaining p) (pl_value p).
Definition restored (functions : list LagLeadFunctionSpec) (st : State) : State :=
  with_pending (without_row <$> pst_lead_pending st) (with_history (pst_lag_history st) (new_partition functions)).

(** The state fits the widths of its encoding. *)
Definition encodable (st : State) : Prop :=
  Forall is_u64 (pst_lag_history st) ∧
  Forall (λ p, is_i64 (ev_timestamp (pl_event p)) ∧ is_u64 (Z.of_nat (pl_remaining p)) ∧ is_u64 (pl_value p)) (pst_lead_pending st).

Lemma bind_length_le {X Y} (f : X → list Y) l : (∀ x, (1 <= length (f x))%nat) → (length l <= length (l ≫= f))%nat.
Proof. intros Hf. induction l as [|x l IH]; [done|]. rewrite bind_cons, length_app. specialize (Hf x). cbn [length]. lia. Qed.

Lemma restore_history_app (h : list Z) : ∀ p q : bytes, Forall is_u64 h → zlen (p ++ (h ≫= to_le 8) ++ q) < u64_MOD →
  restore_history (length h) (p ++ (h ≫= to_le 8) ++ q) (zlen p) = Some (h, zlen (p ++ (h ≫= to_le 8))).
Proof.
  induction h as [|z h IH]; intros p q Hz Hl; [by rewrite app_nil_r|]. apply Forall_cons in Hz as [Hz Hh].
  rewrite bind_cons in *. cbn [length restore_history]. rewrite <- !(app_assoc (to_le 8 z)) in *.
  rewrite u64_at_app by done. cbn [mbind option_bind]. rewrite !length_app, to_le_length in Hl.
  rewrite usize_add_small by lia. specialize (IH (p ++ to_le 8 z) q Hh).
  rewrite <- !app_assoc in IH. replace (zlen (p ++ to_le 8 z)) with (zlen p + 8) in IH by (rewrite length_app, to_le_length; lia).
  rewrite IH by (rewrite !length_app, to_le_length; lia). done.
Qed.

Lemma restore_pending_app (ps : list (PendingLeadEvent (B:=B))) : ∀ p q : bytes,
  Forall (λ p, is_i64 (ev_timestamp (pl_event p)) ∧ is_u64 (Z.of_nat (pl_remaining p)) ∧ is_u64 (pl_value p)) ps →
  zlen (p ++ (ps ≫= pending_bytes) ++ q) < u64_MOD →
  restore_pending (length ps) (p ++ (ps ≫= pending_bytes) ++ q) (zlen p)
  = Some (without_row <$> ps, zlen (p ++ (ps ≫= pending_bytes))).
Proof.
  induction ps as [|x ps IH]; intros p q Hok Hl; [by rewrite app_nil_r|]. apply Forall_cons in Hok as [(H1 & H2 & H3) Hok].
  rewrite bind_cons in *. cbn [length restore_pending]. set (rest := ps ≫= pending_bytes) in *.
  set (ts := to_le 8 (ev_timestamp (pl_event x))). set (rm := to_le 8 (Z.of_nat (pl_remaining x))). set (vl := to_le 8 (pl_value x)).
  change (pending_bytes x) with (ts ++ rm ++ vl) in *. rewrite <- !app_assoc in *.
  assert (L1 : zlen ts = 8) by (unfold ts; by rewrite to_le_length). assert (L2 : zlen rm = 8) by (unfold rm; by rewrite to_le_length).
  assert (L3 : zlen vl = 8) by (unfold vl; by rewrite to_le_length). pose proof Hl as Hl'. rewrite !length_app in Hl'.
  assert (i64_at (p ++ ts ++ rm ++ vl ++ rest ++ q) (zlen p) = Some (ev_timestamp (pl_event x))) as -> by (by apply i64_at_app).
  cbn [mbind option_bind]. rewrite !(usize_add_small (zlen p)) by lia.
  rewrite !(usize_add_small (zlen p + 8)) by lia. rewrite !(usize_add_small (zlen p + 8 + 8)) by lia.
  assert (u64_at (p ++ ts ++ rm ++ vl ++ rest ++ q) (zlen p + 8) = Some (Z.of_nat (pl_remaining x))) as ->.
  { replace (zlen p + 8) with (zlen (p ++ ts)) by (rewrite length_app; lia). rewrite (app_assoc p ts) in Hl |- *. by apply u64_at_app. }
  assert (u64_at (p ++ ts ++ rm ++ vl ++ rest ++ q) (zlen p + 8 + 8) = Some (pl_value x)) as ->.
  { replace (zlen p + 8 + 8) with (zlen ((p ++ ts) ++ rm)) by (rewrite !length_app; lia).
    rewrite (app_assoc p ts), (app_assoc (p ++ ts) rm) in Hl |- *. by apply u64_at_app. }
  cbn [mbind option_bind]. specialize (IH (p ++ ts ++ rm ++ vl) q Hok). rewrite <- !app_assoc in IH.
  replace (zlen (p ++ ts ++ rm ++ vl)) with (zlen p + 8 + 8 + 8) in IH by (rewrite !length_app; lia).
  rewrite IH by done. cbn [mbind option_bind]. rewrite Nat2Z.id. done.
Qed.

Lemma restore_lag_partition_app functions ks (p q : bytes) : encodable ks.2 →
  zlen (p ++ lag_partition_bytes ks ++ q) < u64_MOD →
  restore_lag_partition functions (p ++ lag_partition_bytes ks ++ q) (zlen p)
  = Some (ks.1, restored functions ks.2, zlen (p ++ lag_partition_bytes ks)).
Proof.
  destruct ks as [key st]. intros [Hh Hp] Hl. cbn [fst snd] in *. unfold lag_partition_bytes, restore_lag_partition in *. cbn [fst snd] in *.
  set (kl := to_le 8 (zlen key)) in *. set (hb := pst_lag_history st ≫= to_le 8) in *.
  set (hl := to_le 8 (zlen (pst_lag_history st))) in *. set (pl := to_le 8 (zlen (pst_lead_pending st))) in *.
  set (pb := pst_lead_pending st ≫= pending_bytes) in *. rewrite <- !app_assoc in *.
  assert (L1 : zlen kl = 8) by (unfold kl; by rewrite to_le_length). assert (L2 : zlen hl = 8) by (unfold hl; by rewrite to_le_length).
  assert (L3 : zlen pl = 8) by (unfold pl; by rewrite to_le_length). pose proof Hl as Hl'. rewrite !length_app in Hl'.
  assert (Hhl : (length (pst_lag_history st) <= length hb)%nat) by (apply bind_length_le; intros; rewrite to_le_length; lia).
  assert (Hpl : (length (pst_lead_pending st) <= length pb)%nat).
  { apply bind_length_le. intros. unfold pending_bytes. rewrite !length_app, to_le_length. lia. }
  set (data := p ++ _) in *.
  assert (u64_at data (zlen p) = Some (zlen key)) as -> by (apply u64_at_app; [unfold is_u64; lia|done]).
  cbn [mbind option_bind]. rewrite (usize_add_small (zlen p)) by lia. rewrite (usize_add_small (zlen p + 8) (zlen key)) by lia.
  assert (slice_of data (zlen p + 8) (zlen p + 8 + zlen key) = Some key) as ->.
  { replace (zlen p + 8) with (zlen (p ++ kl)) by (rewrite length_app; lia). unfold data. rewrite (app_assoc p). apply slice_of_app. }
  cbn [mbind option_bind].
  assert (u64_at data (zlen p + 8 + zlen key) = Some (zlen (pst_lag_history st))) as ->.
  { replace (zlen p + 8 + zlen key) with (zlen ((p ++ kl) ++ key)) by (rewrite !length_app; lia). unfold data in *.
    rewrite (app_assoc p), (app_assoc (p ++ kl)) in *. apply u64_at_app; [unfold is_u64; lia|done]. }
  cbn [mbind option_bind]. rewrite (usize_add_small (zlen p + 8 + zlen key) 8) by lia. rewrite Nat2Z.id.
  assert (restore_history (length (pst_lag_history st)) data (zlen p + 8 + zlen key + 8)
    = Some (pst_lag_history st, zlen (p ++ kl ++ key ++ hl ++ hb))) as ->.
  { pose proof (restore_history_app (pst_lag_history st) (p ++ kl ++ key ++ hl) (pl ++ pb ++ q) Hh) as Hr. fold hb in Hr.
    rewrite <- !app_assoc in Hr. replace (zlen p + 8 + zlen key + 8) with (zlen (p ++ kl ++ key ++ hl)) by (rewrite !length_app; lia).
    by apply Hr. }
  cbn [mbind option_bind].
  assert (u64_at data (zlen (p ++ kl ++ key ++ hl ++ hb)) = Some (zlen (pst_lead_pending st))) as ->.
  { assert (Hd : data = (p ++ kl ++ key ++ hl ++ hb) ++ pl ++ pb ++ q) by (unfold data; by rewrite <- !app_assoc).
    rewrite Hd in Hl |- *. apply u64_at_app; [unfold is_u64; lia|done]. }
  cbn [mbind option_bind]. rewrite usize_add_small by (rewrite !length_app; lia). rewrite Nat2Z.id.
  pose proof (restore_pending_app (pst_lead_pending st) (p ++ kl ++ key ++ hl ++ hb ++ pl) q Hp) as Hr. fold pb in Hr.
  rewrite <- !app_assoc in Hr. replace (zlen (p ++ kl ++ key ++ hl ++ hb) + 8) with (zlen (p ++ kl ++ key ++ hl ++ hb ++ pl)) by (rewrite !length_app; lia).
  unfold data in *. rewrite Hr by done. done.
Qed.

Lemma restore_lag_partitions_app functions (l : list (bytes * State)) : ∀ (p q : bytes) parts,
  Forall (λ ks, encodable ks.2) l → zlen (p ++ (l ≫= lag_partition_bytes) ++ q) < u64_MOD →
  restore_lag_partitions functions (length l) (p ++ (l ≫= lag_partition_bytes) ++ q) (zlen p) parts
  = Some (foldl (λ m ks, <[ks.1 := restored functions ks.2]> m) parts l, inl tt).
Proof.
  induction l as [|ks l IH]; intros p q parts He Hl; [done|]. apply Forall_cons in He as [Hk He].
  rewrite bind_cons in *. cbn [length restore_lag_partitions foldl]. rewrite <- !(app_assoc (lag_partition_bytes ks)) in *.
  set (data := p ++ _) in *.
  assert (Hlen : zlen p + 8 <= zlen data).
  { unfold data. rewrite !length_app. unfold lag_partition_bytes at 1. rewrite !length_app, !to_le_length. lia. }
  rewrite usize_add_small by lia. rewrite (proj2 (Z.ltb_ge _ _)) by lia. unfold data.
  rewrite restore_lag_partition_app by done. cbn [mbind option_bind].
  rewrite (app_assoc p). rewrite IH; [done|done|]. by rewrite <- app_assoc.
Qed.

Lemma insert_all_fmap (f : State → State) (l : list (bytes * State)) : NoDup l.*1 →
  ∀ m : gmap bytes State, foldl (λ m ks, <[ks.1 := f ks.2]> m) m l = (f <$> (list_to_map l : gmap bytes State)) ∪ m.
Proof.
  induction l as [|[k st] l IH]; intros Hnd m; cbn [foldl fst snd]; [change (list_to_map []) with (∅ : gmap bytes State); by rewrite fmap_empty, (left_id_L ∅ (∪))|].
  apply NoDup_cons in Hnd as [Hk Hnd]. rewrite IH by done. rewrite list_to_map_cons, fmap_insert.
  rewrite <- insert_union_l, insert_union_r; [done|].
  rewrite lookup_fmap, (not_elem_of_list_to_map_1 _ _ Hk). done.
Qed.

Lemma restore_all_fmap (functions : list LagLeadFunctionSpec) (m : gmap bytes State) :
  foldl (λ (m : gmap bytes State) ks, <[ks.1 := restored functions ks.2]> m) ∅ (map_iter m) = restored functions <$> m.
Proof.
  assert (Hnd : NoDup (map_iter m).*1) by (rewrite map_iter_perm; apply NoDup_fst_map_to_list).
  rewrite insert_all_fmap, (right_id_L ∅ (∪)) by done. f_equal.
  rewrite (list_to_map_proper _ (map_to_list m)); [apply list_to_map_to_list|done|by rewrite map_iter_perm].
Qed.

(** A checkpoint keeps the histories and forgets the rest. Restoring a
    checkpoint never fails on the bytes the operator wrote, and gives each partition
    its LAG history and its waiting events back; but the waiting events have lost
    their rows, and the first values, the Nth values and the event counts of all
    partitions start anew. *)
Theorem lag_lead_checkpoint_restores (op op0 : Op) :
  (∀ p st, ll_partitions op !! p = Some st → encodable st) →
  zlen (os_data (LagLead_checkpoint op)) < u64_MOD →
  ∃ op', LagLead_restore (LagLead_checkpoint op) op0 = Some (op', inl tt) ∧
    ll_partitions op' = restored (ll_functions op0) <$> ll_partitions op ∧
    ll_functions op' = ll_functions op0 ∧ ll_metrics op' = ll_metrics op0.
Proof.
  intros He Hl. unfold LagLead_restore. cbn [os_data LagLead_checkpoint] in *.
  set (l := map_iter (ll_partitions op)) in *.
  assert (Hsize : size (ll_partitions op) = length l) by (unfold l; by rewrite map_iter_perm, length_map_to_list).
  rewrite Hsize in *. set (n := zlen l) in *. set (data := to_le 8 n ++ _) in *.
  assert (Hn : is_u64 n).
  { unfold data in Hl. rewrite length_app, to_le_length in Hl. unfold is_u64, n. split; [lia|].
    assert (length l <= length (l ≫= lag_partition_bytes))%nat; [|lia]. apply bind_length_le. intros ks.
    unfold lag_partition_bytes. rewrite !length_app, !to_le_length. lia. }
  rewrite decide_False by (unfold data; rewrite !length_app, !to_le_length; lia).
  assert (u64_at data 0 = Some n) as ->.
  { change 0 with (zlen ([] : bytes)). change data with ([] ++ data) in Hl |- *. by apply u64_at_app. }
  cbn [mbind option_bind]. unfold n at 1. rewrite Nat2Z.id.
  replace 8 with (zlen (to_le 8 n)) at 1 by (by rewrite to_le_length).
  assert (Hd : data = to_le 8 n ++ (l ≫= lag_partition_bytes) ++ []) by (unfold data; by rewrite app_nil_r).
  rewrite Hd in Hl |- *. rewrite restore_lag_partitions_app; [|apply Forall_forall|done].
  - cbn [mbind option_bind]. eexists. split; [done|]. split; [apply restore_all_fmap|done].
  - intros [k st] Hk. unfold l in Hk. rewrite map_iter_perm, elem_of_map_to_list in Hk. by apply (He k).
Qed.
End Facts.

(** ** Examples *)

#[global] Instance named_row_extend : ExtendBatch (list (string * Cell)) :=
  λ b columns, Some (b ++ ((λ c, (c.1, CFloat64 c.2)) <$> columns)).

(** A trade of a symbol, with the bits of its price. *)
Definition quote (ts : Z) (symbol : bytes) (price : Z) : Event (list (string * Cell)) :=
  mkEvent ts [("symbol", CUtf8 symbol); ("price", CFloat64 price)].
Definition on_price (kind : AnalyticFunctionKind) (offset : nat) (dflt : option Z) (output : string) : LagLeadFunctionSpec :=
  mkFunction kind "price" offset dflt output.
Definition quotes : list (TopKInput (B:=list (string * Cell))) :=
  [TkEvent (quote 1 [97] 10); TkEvent (quote 2 [98] 20); TkEvent (quote 3 [97] 30); TkEvent (quote 4 [99] 40);
   TkEvent (quote 5 [97] 50); TkTimer].

Lemma quotes_readable : Forall (lag_readable ["symbol"] [Some 0%nat] "price" (Some 1%nat)) (input_events quotes).
Proof.
  assert (Hq : ∀ ts s p, lag_readable ["symbol"] [Some 0%nat] "price" (Some 1%nat) (quote ts s p)).
  { intros ts s p. split; [split; [done|by eexists]|]. split; [done|]. intros i [= <-]. by eexists. }
  repeat (constructor; [apply Hq|]). constructor.
Qed.

Definition history_functions : list LagLeadFunctionSpec :=
  [on_price AkLag 2 (Some 7) "lag2"; on_price AkFirstValue 1 None "first"; on_price AkNthValue 2 None "second"].
Definition quote_row (ts : Z) (symbol : bytes) (price : Z) (columns : list (string * Z)) : Output (list (string * Cell)) :=
  OutEvent (mkEvent ts (ev_data (quote ts symbol price) ++ ((λ c, (c.1, CFloat64 c.2)) <$> columns))).

Lemma analytic_functions_exact_witness :
  ∃ op outs, LagLead_run quotes (LagLeadOperator_new (mkLagLeadConfig "lag" history_functions ["symbol"] 2)) = Some (op, outs) ∧
    length outs = 6%nat ∧
    outs = [[quote_row 1 [97] 10 [("lag2", 7); ("first", 10); ("second", f64_NAN)]];
            [quote_row 2 [98] 20 [("lag2", 7); ("first", 20); ("second", f64_NAN)]];
            [quote_row 3 [97] 30 [("lag2", 7); ("first", 10); ("second", 30)]]; [];
            [quote_row 5 [97] 50 [("lag2", 10); ("first", 10); ("second", 30)]]; []].
Proof.
  destruct (analytic_functions_exact history_functions ["symbol"] 2 "price" [Some 0%nat] (Some 1%nat) "lag" quotes)
    as (op & outs & E & Hlen & _).
  - repeat (constructor; [reflexivity|]). constructor.
  - repeat (constructor; [cbn; lia|]). constructor.
  - repeat (constructor; [discriminate|]). constructor.
  - reflexivity.
  - exact quotes_readable.
  - exists op, outs. split; [exact E|]. split; [exact Hlen|].
    assert (Hc : snd <$> LagLead_run quotes (LagLeadOperator_new (mkLagLeadConfig "lag" history_functions ["symbol"] 2))
      = Some [[quote_row 1 [97] 10 [("lag2", 7); ("first", 10); ("second", f64_NAN)]];
            [quote_row 2 [98] 20 [("lag2", 7); ("first", 20); ("second", f64_NAN)]];
            [quote_row 3 [97] 30 [("lag2", 7); ("first", 10); ("second", 30)]]; [];
            [quote_row 5 [97] 50 [("lag2", 10); ("first", 10); ("second", 30)]]; []]) by (vm_compute; reflexivity).
    rewrite E in Hc. injection Hc as Hc. exact Hc.
Defined.

Definition lead_functions : list LagLeadFunctionSpec :=
  [on_price AkLead 1 (Some 7) "lead1"; on_price AkLead 2 None "lead2"].

Lemma lead_functions_exact_witness :
  ∃ op outs, LagLead_run quotes (LagLeadOperator_new (mkLagLeadConfig "lead" lead_functions ["symbol"] 9)) = Some (op, outs) ∧
    length outs = 6%nat ∧ take 5 outs = [[]; []; []; []; [quote_row 1 [97] 10 [("lead1", 30); ("lead2", 50)]]].
Proof.
  destruct (lead_functions_exact lead_functions ["symbol"] 9 "price" [Some 0%nat] (Some 1%nat) "lead" quotes)
    as (op & outs & E & Hlen & _).
  - repeat (constructor; [reflexivity|]). constructor.
  - repeat (constructor; [cbn; lia|]). constructor.
  - repeat (constructor; [reflexivity|]). constructor.
  - discriminate.
  - reflexivity.
  - exact quotes_readable.
  - exists op, outs. split; [exact E|]. split; [exact Hlen|].
    assert (Hc : (λ x, take 5 x.2) <$> LagLead_run quotes (LagLeadOperator_new (mkLagLeadConfig "lead" lead_functions ["symbol"] 9))
      = Some [[]; []; []; []; [quote_row 1 [97] 10 [("lead1", 30); ("lead2", 50)]]]) by (vm_compute; reflexivity).
    rewrite E in Hc. injection Hc as Hc. exact Hc.
Defined.

(** LAG beside LEAD is the LAG of another row. With LAG 1 and LEAD 1 of one
    column an event is emitted when the next one arrives, with the LAG of that next
    one: its own value, instead of the value before it (the first row has no row
    before it at all). The row that a timer flushes has no LAG column, and so fewer
    columns than the others. *)
Theorem lag_beside_lead_shifted t1 t2 t3 p1 p2 p3 max : (1 <= max)%nat →
  snd <$> LagLead_run [TkEvent (quote t1 [] p1); TkEvent (quote t2 [] p2); TkEvent (quote t3 [] p3); TkTimer]
    (LagLeadOperator_new (mkLagLeadConfig "both" [on_price AkLag 1 None "lag"; on_price AkLead 1 None "lead"] [] max))
  = Some [[]; [quote_row t1 [] p1 [("lag", p1); ("lead", p2)]]; [quote_row t2 [] p2 [("lag", p2); ("lead", p3)]];
          [quote_row t3 [] p3 [("lead", f64_NAN)]]].
Proof. intros Hmax. destruct max as [|max]; [lia|]. reflexivity. Qed.

(** FIRST_VALUE of one column beside LAG of another reads the column of LAG: the two
    share the cached column index. *)
Theorem positional_reads_lag_column t p q max : (1 <= max)%nat →
  snd <$> LagLead_run [TkEvent (mkEvent t [("price", CFloat64 p); ("volume", CFloat64 q)])]
    (LagLeadOperator_new (mkLagLeadConfig "both"
       [on_price AkLag 1 None "lag"; mkFunction AkFirstValue "volume" 1 None "first"] [] max))
  = Some [[OutEvent (mkEvent t [("price", CFloat64 p); ("volume", CFloat64 q); ("lag", CFloat64 f64_NAN); ("first", CFloat64 p)])]].
Proof. intros Hmax. destruct max as [|max]; [lia|]. reflexivity. Qed.

(** An offset of zero panics at the first event. *)
Theorem lag_zero_panics t p max : (1 <= max)%nat →
  LagLead_run [TkEvent (quote t [] p)]
    (LagLeadOperator_new (mkLagLeadConfig "zero" [on_price AkLag 0 None "lag"] [] max)) = None ∧
  LagLead_run [TkEvent (quote t [] p)]
    (LagLeadOperator_new (mkLagLeadConfig "zero" [on_price AkLead 0 None "lead"] [] max)) = None.
Proof. intros Hmax. destruct max as [|max]; [lia|]. split; reflexivity. Qed.
