(* ===== verification/TableCache.v ===== *)
(** * The cache of a reference table

    operator/table_cache.rs: [TableLruCache], an LRU cache whose order is a doubly
    linked list threaded through the slots of a vector, with a free list; and
    [TableXorFilter], a filter for keys that are certainly absent.

    A pointer is a [usize], with [SENTINEL] for none; [None] is a panic, an index
    outside the slab. A record batch is a type [B] of which the cache only needs
    [RecordBatch::new_empty(batch.schema())], the class [EmptyLike]. The filter of
    the crate xorf and the hash of rustc_hash are the class [XorFilter]; the one law
    used is the documented one, that a filter has no false negatives. *)

From S2P Require Import Prelude RustFloat.

Class EmptyLike (B : Type) := empty_like : B → B.

Definition SENTINEL : Z := u64_MOD - 1.

(** ** The LRU cache *)

Section Lru.
Context {B : Type} `{!EmptyLike B}.

Record LruNode := mkLruNode {
  ln_key : string;
  ln_value : B;
  ln_prev : Z;
  ln_next : Z }.

(** [free] is used as a stack; its top is the head of the list. *)
Record TableLruCache := mkLru {
  lru_index : gmap string Z;
  lru_slab : list LruNode;
  lru_free : list Z;
  lru_head : Z;
  lru_tail : Z;
  lru_max_entries : Z;
  lru_gets : Z;
  lru_hits : Z;
  lru_evictions : Z }.

Definition TableLruCache_new (max_entries : Z) : TableLruCache :=
  mkLru ∅ [] [] SENTINEL SENTINEL max_entries 0 0 0.

Definition set_prev (p : Z) (n : LruNode) : LruNode := mkLruNode (ln_key n) (ln_value n) p (ln_next n).
Definition set_next (p : Z) (n : LruNode) : LruNode := mkLruNode (ln_key n) (ln_value n) (ln_prev n) p.
Definition set_value (v : B) (n : LruNode) : LruNode := mkLruNode (ln_key n) v (ln_prev n) (ln_next n).

Definition with_links (slab : list LruNode) (head tail : Z) (c : TableLruCache) : TableLruCache :=
  mkLru (lru_index c) slab (lru_free c) head tail (lru_max_entries c) (lru_gets c) (lru_hits c) (lru_evictions c).
Definition with_store (index : gmap string Z) (slab : list LruNode) (free : list Z) (c : TableLruCache)
  : TableLruCache :=
  mkLru index slab free (lru_head c) (lru_tail c) (lru_max_entries c) (lru_gets c) (lru_hits c) (lru_evictions c).
Definition with_counts (gets hits evictions : Z) (c : TableLruCache) : TableLruCache :=
  mkLru (lru_index c) (lru_slab c) (lru_free c) (lru_head c) (lru_tail c) (lru_max_entries c) gets hits evictions.

(** [self.slab[slot]], read and written. *)
Definition node_at (slot : Z) (c : TableLruCache) : option LruNode := lru_slab c !! Z.to_nat slot.
Definition at_slot (slot : Z) (f : LruNode → LruNode) (c : TableLruCache) : option TableLruCache :=
  _ ← node_at slot c;
  Some (with_links (alter f (Z.to_nat slot) (lru_slab c)) (lru_head c) (lru_tail c) c).

Definition detach (slot : Z) (c : TableLruCache) : option TableLruCache :=
  node ← node_at slot c;
  let prev := ln_prev node in
  let next := ln_next node in
  c ← (if prev =? SENTINEL then Some (with_links (lru_slab c) next (lru_tail c) c)
       else at_slot prev (set_next next) c);
  c ← (if next =? SENTINEL then Some (with_links (lru_slab c) (lru_head c) prev c)
       else at_slot next (set_prev prev) c);
  c ← at_slot slot (set_prev SENTINEL) c;
  at_slot slot (set_next SENTINEL) c.

Definition push_front (slot : Z) (c : TableLruCache) : option TableLruCache :=
  c ← at_slot slot (set_prev SENTINEL) c;
  c ← at_slot slot (set_next (lru_head c)) c;
  c ← (if lru_head c =? SENTINEL then Some c else at_slot (lru_head c) (set_prev slot) c);
  let c := with_links (lru_slab c) slot (lru_tail c) c in
  Some (if lru_tail c =? SENTINEL then with_links (lru_slab c) (lru_head c) slot c else c).

Definition evict_tail (c : TableLruCache) : option (TableLruCache * option (string * B)) :=
  if lru_tail c =? SENTINEL then Some (c, None) else
  let slot := lru_tail c in
  c ← detach slot c;
  node ← node_at slot c;
  let key := ln_key node in
  let evicted_value := ln_value node in
  c ← at_slot slot (λ n, mkLruNode EmptyString (empty_like evicted_value) (ln_prev n) (ln_next n)) c;
  let c := with_store (delete key (lru_index c)) (lru_slab c) (slot :: lru_free c) c in
  Some (with_counts (lru_gets c) (lru_hits c) (wrap_u64 (lru_evictions c + 1)) c, Some (key, evicted_value)).

Definition lru_get (key : string) (c : TableLruCache) : option (TableLruCache * option B) :=
  let c := with_counts (wrap_u64 (lru_gets c + 1)) (lru_hits c) (lru_evictions c) c in
  match lru_index c !! key with
  | None => Some (c, None)
  | Some slot =>
      let c := with_counts (lru_gets c) (wrap_u64 (lru_hits c + 1)) (lru_evictions c) c in
      c ← detach slot c;
      c ← push_front slot c;
      node ← node_at slot c;
      Some (c, Some (ln_value node))
  end.

(** The slot of a new node: the last freed one, or a new one at the end. *)
Definition allocate (key : string) (value : B) (c : TableLruCache) : option (TableLruCache * Z) :=
  match lru_free c with
  | free_slot :: free =>
      c ← at_slot free_slot (λ _, mkLruNode key value SENTINEL SENTINEL) c;
      Some (with_store (lru_index c) (lru_slab c) free c, free_slot)
  | [] =>
      Some (with_store (lru_index c) (lru_slab c ++ [mkLruNode key value SENTINEL SENTINEL]) [] c,
            zlen (lru_slab c))
  end.

Definition lru_insert (key : string) (value : B) (c : TableLruCache)
  : option (TableLruCache * option (string * B)) :=
  match lru_index c !! key with
  | Some slot =>
      c ← at_slot slot (set_value value) c;
      c ← detach slot c;
      c ← push_front slot c;
      Some (c, None)
  | None =>
      '(c, evicted) ← (if lru_max_entries c <=? Z.of_nat (size (lru_index c)) then evict_tail c
                       else Some (c, None));
      '(c, slot) ← allocate key value c;
      let c := with_store (<[key := slot]> (lru_index c)) (lru_slab c) (lru_free c) c in
      c ← push_front slot c;
      Some (c, evicted)
  end.

Definition lru_invalidate (key : string) (c : TableLruCache) : option (TableLruCache * bool) :=
  match lru_index c !! key with
  | Some slot =>
      let c := with_store (delete key (lru_index c)) (lru_slab c) (lru_free c) c in
      c ← detach slot c;
      Some (with_store (lru_index c) (lru_slab c) (slot :: lru_free c) c, true)
  | None => Some (c, false)
  end.

Definition lru_clear (c : TableLruCache) : TableLruCache :=
  with_links [] SENTINEL SENTINEL (with_store ∅ [] [] c).

Definition lru_len (c : TableLruCache) : nat := size (lru_index c).
Definition lru_is_empty (c : TableLruCache) : bool := bool_decide (lru_index c = ∅).
Definition hit_rate (c : TableLruCache) : SpecFloat.spec_float :=
  if lru_gets c =? 0 then f64_zero else f64_div (f64_of_int (lru_hits c)) (f64_of_int (lru_gets c)).
Definition total_gets (c : TableLruCache) : Z := lru_gets c.
Definition total_hits (c : TableLruCache) : Z := lru_hits c.
Definition total_evictions (c : TableLruCache) : Z := lru_evictions c.
End Lru.

(** ** The xor filter *)

Class XorFilter := {
  Xor8 : Type;
  xor8_from : list Z → Xor8;
  xor8_contains : Xor8 → Z → bool;
  hash_key : string → Z }.
Class XorFilterLaws `{!XorFilter} : Prop :=
  xor8_no_false_negatives : ∀ hashes h, h ∈ hashes → xor8_contains (xor8_from hashes) h = true.

Section Xor.
Context `{!XorFilter}.

Record TableXorFilter := mkXor {
  xf_filter : option Xor8;
  xf_hash_fn : string → Z;
  xf_short_circuit_count : Z }.

Definition TableXorFilter_new : TableXorFilter := mkXor None hash_key 0.

Definition xor_rebuild (keys : list string) (f : TableXorFilter) : TableXorFilter :=
  match keys with
  | [] => mkXor None (xf_hash_fn f) (xf_short_circuit_count f)
  | _ => mkXor (Some (xor8_from (xf_hash_fn f <$> keys))) (xf_hash_fn f) (xf_short_circuit_count f)
  end.
Definition xor_build (keys : list string) : TableXorFilter := xor_rebuild keys TableXorFilter_new.

Definition xor_contains (key : string) (f : TableXorFilter) : TableXorFilter * bool :=
  match xf_filter f with
  | Some filter =>
      let result := xor8_contains filter (xf_hash_fn f key) in
      (if result then f
       else mkXor (xf_filter f) (xf_hash_fn f) (wrap_u64 (xf_short_circuit_count f + 1)), result)
  | None => (f, true)
  end.

Definition short_circuits (f : TableXorFilter) : Z := xf_short_circuit_count f.
Definition xor_is_built (f : TableXorFilter) : bool := bool_decide (is_Some (xf_filter f)).
Definition xor_clear (f : TableXorFilter) : TableXorFilter := mkXor None (xf_hash_fn f) 0.

(** *** Metrics *)

Record TableCacheMetrics := mkCacheMetrics {
  cm_cache_gets : Z;
  cm_cache_hits : Z;
  cm_cache_hit_rate : SpecFloat.spec_float;
  cm_cache_evictions : Z;
  cm_cache_entries : nat;
  cm_cache_max_entries : Z;
  cm_xor_filter_built : bool;
  cm_xor_short_circuits : Z }.

Definition collect_cache_metrics {B} (lru : TableLruCache (B:=B)) (xor : TableXorFilter) : TableCacheMetrics :=
  mkCacheMetrics (total_gets lru) (total_hits lru) (hit_rate lru) (total_evictions lru) (lru_len lru)
    (lru_max_entries lru) (xor_is_built xor) (short_circuits xor).
End Xor.

(** ** Linked lists in a slab *)

Section Linked.
Context {B : Type}.
Abbreviation Node := (LruNode (B:=B)).
Abbreviation Lru := (TableLruCache (B:=B)).

(** A pointer to a slot, or to none. *)
Definition ptr (p : option nat) : Z := match p with Some s => Z.of_nat s | None => SENTINEL end.
Definition first (slots : list nat) (n : option nat) : option nat :=
  match slots with s :: _ => Some s | [] => n end.
Definition final (p : option nat) (slots : list nat) : option nat :=
  match last slots with Some s => Some s | None => p end.

(** The slots form a list that comes from [p] and leads to [n]. *)
Fixpoint linked (slab : list Node) (p : option nat) (slots : list nat) (n : option nat) : Prop :=
  match slots with
  | [] => True
  | s :: rest =>
      (∃ key value, slab !! s = Some (mkLruNode key value (ptr p) (ptr (first rest n)))) ∧
      linked slab (Some s) rest n
  end.

Definition entry_at (slab : list Node) (s : nat) : option (string * B) :=
  (λ n, (ln_key n, ln_value n)) <$> slab !! s.

Lemma final_cons p s rest : final p (s :: rest) = final (Some s) rest.
Proof. unfold final. rewrite last_cons. by destruct (last rest). Qed.
Lemma final_snoc p l s : final p (l ++ [s]) = Some s.
Proof. unfold final. by rewrite last_snoc. Qed.
Lemma first_app l1 l2 n : first (l1 ++ l2) n = first l1 (first l2 n).
Proof. by destruct l1. Qed.

Lemma linked_app slab l1 : ∀ p l2 n,
  linked slab p (l1 ++ l2) n ↔ linked slab p l1 (first l2 n) ∧ linked slab (final p l1) l2 n.
Proof.
  induction l1 as [|s l1 IH]; intros p l2 n; cbn [app linked].
  - unfold final. cbn. tauto.
  - rewrite IH, final_cons, first_app. tauto.
Qed.

Lemma linked_frame slab f s l : ∀ p n, s ∉ l → linked slab p l n → linked (alter f s slab) p l n.
Proof.
  induction l as [|s' l IH]; intros p n Hs; cbn [linked]; [done|].
  apply not_elem_of_cons in Hs as [Hne Hs]. intros [(k & v & Hk) Hl]. split; [|by apply IH].
  exists k, v. by rewrite list_lookup_alter_ne.
Qed.

Lemma linked_extend slab node l : ∀ p n, linked slab p l n → linked (slab ++ [node]) p l n.
Proof.
  induction l as [|s l IH]; intros p n; cbn [linked]; [done|]. intros [(k & v & Hk) Hl].
  split; [|by apply IH]. exists k, v. by apply lookup_app_l_Some.
Qed.

Lemma linked_set_next slab p l s n m : s ∉ l → linked slab p (l ++ [s]) n →
  linked (alter (set_next (ptr m)) s slab) p (l ++ [s]) m.
Proof.
  intros Hs. rewrite !linked_app. cbn [linked first]. intros (Hl & (k & v & Hk) & _).
  split; [by apply linked_frame|]. split; [|done]. exists k, v.
  by rewrite list_lookup_alter_eq, Hk.
Qed.

Lemma linked_set_prev slab p q s l n : s ∉ l → linked slab p (s :: l) n →
  linked (alter (set_prev (ptr q)) s slab) q (s :: l) n.
Proof.
  intros Hs [(k & v & Hk) Hl]. split; [|by apply linked_frame]. exists k, v.
  by rewrite list_lookup_alter_eq, Hk.
Qed.

Lemma entry_at_alter slab f s s' : (∀ n, (ln_key (f n), ln_value (f n)) = (ln_key n, ln_value n)) →
  entry_at (alter f s slab) s' = entry_at slab s'.
Proof.
  intros Hf. unfold entry_at. destruct (decide (s = s')) as [->|Hne].
  - rewrite list_lookup_alter_eq. destruct (slab !! s'); [|done]. cbn. by rewrite Hf.
  - by rewrite list_lookup_alter_ne.
Qed.

Lemma linked_entry slab p l n s : linked slab p l n → s ∈ l → is_Some (slab !! s).
Proof.
  revert p. induction l as [|s' l IH]; intros p Hl Hs; [by apply elem_of_nil in Hs|].
  destruct Hl as [(k & v & Hk) Hl]. apply elem_of_cons in Hs as [->|Hs]; [by rewrite Hk|by eapply IH].
Qed.

(** ** The list of the cache *)

(** What the list operations leave alone. *)
Definition same_rest (c c' : Lru) : Prop :=
  lru_index c' = lru_index c ∧ lru_free c' = lru_free c ∧ lru_max_entries c' = lru_max_entries c ∧
  lru_gets c' = lru_gets c ∧ lru_hits c' = lru_hits c ∧ lru_evictions c' = lru_evictions c ∧
  length (lru_slab c') = length (lru_slab c) ∧
  ∀ s, entry_at (lru_slab c') s = entry_at (lru_slab c) s.

Lemma same_rest_trans c1 c2 c3 : same_rest c1 c2 → same_rest c2 c3 → same_rest c1 c3.
Proof.
  intros (H1 & H2 & H3 & H4 & H5 & H6 & H7 & H8) (I1 & I2 & I3 & I4 & I5 & I6 & I7 & I8).
  split_and!; [congruence..|]. intros s. by rewrite I8.
Qed.

(** The order of the cache: its slots from the most to the least recently used. *)
Record order (c : Lru) (slots : list nat) : Prop := {
  ord_linked : linked (lru_slab c) None slots None;
  ord_head : lru_head c = ptr (first slots None);
  ord_tail : lru_tail c = ptr (final None slots);
  ord_nodup : NoDup slots }.

Lemma ptr_sentinel_None (slab : list Node) s : zlen slab <= SENTINEL → is_Some (slab !! s) →
  (ptr (Some s) =? SENTINEL) = false.
Proof. intros Hl Hs%lookup_lt_is_Some. apply Z.eqb_neq. cbn. lia. Qed.

Lemma at_slot_spec (c : Lru) s f : is_Some (lru_slab c !! s) →
  at_slot (Z.of_nat s) f c = Some (with_links (alter f s (lru_slab c)) (lru_head c) (lru_tail c) c).
Proof. intros [n Hn]. unfold at_slot, node_at. by rewrite Nat2Z.id, Hn. Qed.

Lemma same_rest_links (c : Lru) slab head tail : length slab = length (lru_slab c) →
  (∀ s, entry_at slab s = entry_at (lru_slab c) s) → same_rest c (with_links slab head tail c).
Proof. intros Hl He. by split_and!. Qed.

(** Cutting a segment in two at the slot [s]: the left neighbour, ... *)
Lemma detach_left (c : Lru) l1 s l2 : zlen (lru_slab c) <= SENTINEL → order c (l1 ++ s :: l2) →
  ∃ c1, (if ptr (final None l1) =? SENTINEL
      then Some (with_links (lru_slab c) (ptr (first l2 None)) (lru_tail c) c)
      else at_slot (ptr (final None l1)) (set_next (ptr (first l2 None))) c) = Some c1 ∧
    linked (lru_slab c1) None l1 (first l2 None) ∧ linked (lru_slab c1) (Some s) l2 None ∧
    lru_head c1 = ptr (first l1 (first l2 None)) ∧ lru_tail c1 = lru_tail c ∧ same_rest c c1.
Proof.
  intros Hlen [Hlink Hhead _ Hnd]. apply linked_app in Hlink as [H1 [_ H2]]. cbn [first] in H1.
  apply NoDup_app in Hnd as (Hn1 & Hdis & _). destruct l1 as [|x l1 _] using rev_ind.
  - cbn [final last ptr]. rewrite Z.eqb_refl. eexists. split; [done|]. split_and!; done.
  - rewrite final_snoc. pose proof (linked_entry _ _ _ _ x H1 ltac:(set_solver)) as Hx.
    rewrite (ptr_sentinel_None (lru_slab c)) by done. cbn [ptr]. rewrite at_slot_spec by done.
    eexists. split; [done|]. cbn [with_links lru_slab lru_head lru_tail].
    apply NoDup_app in Hn1 as (_ & Hx1 & _). split_and!.
    + eapply linked_set_next; [|exact H1]. intros Hin. apply (Hx1 x Hin). left.
    + apply linked_frame; [|done]. intros Hin. apply (Hdis x); [set_solver|by right].
    + rewrite Hhead. by destruct l1.
    + done.
    + apply same_rest_links; [by rewrite length_alter|]. intros s'. by apply entry_at_alter.
Qed.

(** ... and the right one. *)
Lemma detach_right (c : Lru) l1 s l2 : zlen (lru_slab c) <= SENTINEL → NoDup (l1 ++ s :: l2) →
  linked (lru_slab c) None l1 (first l2 None) → linked (lru_slab c) (Some s) l2 None →
  lru_head c = ptr (first l1 (first l2 None)) → lru_tail c = ptr (final None (l1 ++ s :: l2)) →
  ∃ c2, (if ptr (first l2 None) =? SENTINEL
      then Some (with_links (lru_slab c) (lru_head c) (ptr (final None l1)) c)
      else at_slot (ptr (first l2 None)) (set_prev (ptr (final None l1))) c) = Some c2 ∧
    order c2 (l1 ++ l2) ∧ same_rest c c2.
Proof.
  intros Hlen Hnd H1 H2 Hh Ht. apply NoDup_app in Hnd as (Hn1 & Hdis & Hn2).
  apply NoDup_cons in Hn2 as [_ Hn2].
  assert (Hnd : NoDup (l1 ++ l2)).
  { apply NoDup_app. split_and!; try done. intros x Hx ?. apply (Hdis x Hx). by right. }
  destruct l2 as [|y l2]; cbn [first ptr].
  - rewrite Z.eqb_refl, app_nil_r in *. eexists. split; [done|]. split; [by split|]. by apply same_rest_links.
  - pose proof (linked_entry _ _ _ _ y H2 ltac:(set_solver)) as Hy.
    pose proof (ptr_sentinel_None (lru_slab c) y Hlen Hy) as Hp. cbn [ptr] in Hp.
    rewrite Hp, at_slot_spec by done. eexists. split; [done|].
    split; [|apply same_rest_links; [by rewrite length_alter|]; intros s'; by apply entry_at_alter].
    apply NoDup_cons in Hn2 as [Hy2 _]. split; cbn [with_links lru_slab lru_head lru_tail].
    + apply linked_app. split; [|by eapply linked_set_prev].
      apply linked_frame; [|exact H1]. intros Hin. apply (Hdis y Hin). right. left.
    + rewrite Hh. by destruct l1.
    + rewrite Ht. unfold final. rewrite !last_app, !last_cons. by destruct (last l2).
    + done.
Qed.

Lemma detach_spec (c : Lru) l1 s l2 : zlen (lru_slab c) <= SENTINEL → order c (l1 ++ s :: l2) →
  ∃ c', detach (Z.of_nat s) c = Some c' ∧ order c' (l1 ++ l2) ∧ same_rest c c'.
Proof.
  intros Hlen Hord. destruct (detach_left c l1 s l2 Hlen Hord) as (c1 & E1 & H1 & H2 & Hh1 & Ht1 & Hsr1).
  destruct Hord as [Hlink _ Htail Hnd]. pose proof Hsr1 as (_ & _ & _ & _ & _ & _ & Hl1 & He1).
  destruct (detach_right c1 l1 s l2) as (c2 & E2 & [Hl2 Hh2 Ht2 Hn2] & Hsr2); try done; [by rewrite Hl1|congruence|].
  pose proof (same_rest_trans _ _ _ Hsr1 Hsr2) as (R1 & R2 & R3 & R4 & R5 & R6 & R7 & R8).
  apply linked_app in Hlink as [_ [(k & v & Hk) _]].
  unfold detach, node_at. rewrite Nat2Z.id, Hk. cbn [mbind option_bind ln_prev ln_next].
  rewrite E1. cbn [mbind option_bind]. rewrite E2. cbn [mbind option_bind].
  assert (Hsome : is_Some (lru_slab c2 !! s)).
  { specialize (R8 s). unfold entry_at in R8. rewrite Hk in R8. destruct (lru_slab c2 !! s); [done|discriminate]. }
  rewrite at_slot_spec by done. cbn [mbind option_bind]. rewrite at_slot_spec.
  2:{ cbn. rewrite list_lookup_alter_eq. by apply fmap_is_Some. }
  eexists. split; [done|]. split; [split|split_and!]; cbn [with_links lru_slab lru_head lru_tail]; try done.
  - apply NoDup_app in Hnd as (_ & Hdis & [Hs2 _]%NoDup_cons).
    assert (s ∉ l1 ++ l2) by (rewrite elem_of_app; intros [Hin|?]; [apply (Hdis s Hin); left|done]).
    by repeat apply linked_frame.
  - by rewrite !length_alter.
  - intros s'. by rewrite !entry_at_alter.
Qed.

(** A slot outside the list becomes its head. *)
Lemma push_front_spec (c : Lru) s slots : zlen (lru_slab c) <= SENTINEL → order c slots →
  is_Some (lru_slab c !! s) → s ∉ slots →
  ∃ c', push_front (Z.of_nat s) c = Some c' ∧ order c' (s :: slots) ∧ same_rest c c'.
Proof.
  intros Hlen [Hlink Hhead Htail Hnd] Hs Hnin. unfold push_front.
  rewrite at_slot_spec by done. cbn [mbind option_bind]. rewrite at_slot_spec.
  2:{ cbn. rewrite list_lookup_alter_eq. by apply fmap_is_Some. }
  cbn [mbind option_bind with_links lru_head lru_slab lru_tail].
  set (slab2 := alter _ _ (alter _ _ _)).
  assert (Hl2 : linked slab2 None slots None) by (unfold slab2; by repeat apply linked_frame).
  assert (He2 : ∀ x, entry_at slab2 x = entry_at (lru_slab c) x) by (intros x; unfold slab2; by rewrite !entry_at_alter).
  assert (Hlen2 : length slab2 = length (lru_slab c)) by (unfold slab2; by rewrite !length_alter).
  assert (Hs2 : ∃ k v, slab2 !! s = Some (mkLruNode k v SENTINEL (lru_head c))).
  { destruct Hs as [n Hn]. exists (ln_key n), (ln_value n). unfold slab2. by rewrite !list_lookup_alter_eq, Hn. }
  clearbody slab2. destruct slots as [|h slots].
  - rewrite Hhead, Htail. cbn [first final last ptr]. rewrite !Z.eqb_refl. cbn [mbind option_bind with_links lru_tail].
    rewrite Z.eqb_refl. eexists. split; [done|]. split; [split|by split_and!]; try done.
    + cbn. split; [|done]. destruct Hs2 as (k & v & ->). exists k, v. by rewrite Hhead.
    + apply NoDup_singleton.
  - pose proof (linked_entry _ _ _ _ h Hl2 ltac:(set_solver)) as Hh.
    apply not_elem_of_cons in Hnin as [Hne Hnin]. rewrite Hhead. cbn [first ptr].
    pose proof (ptr_sentinel_None slab2 h ltac:(lia) Hh) as Hp. cbn [ptr] in Hp. rewrite Hp.
    rewrite at_slot_spec by done. cbn [mbind option_bind with_links lru_slab lru_head lru_tail].
    assert (Htl : (lru_tail c =? SENTINEL) = false).
    { rewrite Htail. unfold final. rewrite last_cons.
      destruct (last slots) as [x|] eqn:E; [|exact Hp]. apply (ptr_sentinel_None slab2); [lia|].
      eapply linked_entry; [exact Hl2|]. right. by apply last_Some_elem_of. }
    rewrite Htl. eexists. split; [done|].
    split; [split|split_and!; cbn; try done; [by rewrite length_alter|intros x; by rewrite entry_at_alter]];
      cbn [with_links lru_slab lru_head lru_tail]; try done.
    + apply NoDup_cons in Hnd as [Hh' _]. cbn [linked first]. split.
      * destruct Hs2 as (k & v & E). exists k, v. rewrite list_lookup_alter_ne by done. by rewrite E, Hhead.
      * by apply (linked_set_prev slab2 None (Some s)).
    + apply NoDup_cons. split; [set_solver|done].
Qed.
End Linked.

(** ** The cache as a list

    The specification: an LRU cache is the list of its entries, the most recently
    used first. *)

Section Spec.
Context {B : Type} `{EL : !EmptyLike B}.
Abbreviation Lru := (TableLruCache (B:=B)).

Record LruSpec := mkLruSpec {
  sp_entries : list (string * B);
  sp_gets : Z;
  sp_hits : Z;
  sp_evictions : Z }.

Definition assoc (key : string) (l : list (string * B)) : option B := (list_to_map l : gmap string B) !! key.
Definition without (key : string) (l : list (string * B)) : list (string * B) := filter (λ e, e.1 ≠ key) l.

Definition spec_get (key : string) (a : LruSpec) : LruSpec * option B :=
  match assoc key (sp_entries a) with
  | Some v => (mkLruSpec ((key, v) :: without key (sp_entries a)) (wrap_u64 (sp_gets a + 1))
                 (wrap_u64 (sp_hits a + 1)) (sp_evictions a), Some v)
  | None => (mkLruSpec (sp_entries a) (wrap_u64 (sp_gets a + 1)) (sp_hits a) (sp_evictions a), None)
  end.

Definition spec_insert (max : Z) (key : string) (value : B) (a : LruSpec) : LruSpec * option (string * B) :=
  match assoc key (sp_entries a) with
  | Some _ => (mkLruSpec ((key, value) :: without key (sp_entries a)) (sp_gets a) (sp_hits a) (sp_evictions a), None)
  | None =>
      match (if max <=? zlen (sp_entries a) then last (sp_entries a) else None) with
      | Some evicted => (mkLruSpec ((key, value) :: removelast (sp_entries a)) (sp_gets a) (sp_hits a)
                           (wrap_u64 (sp_evictions a + 1)), Some evicted)
      | None => (mkLruSpec ((key, value) :: sp_entries a) (sp_gets a) (sp_hits a) (sp_evictions a), None)
      end
  end.

Definition spec_invalidate (key : string) (a : LruSpec) : LruSpec * bool :=
  (mkLruSpec (without key (sp_entries a)) (sp_gets a) (sp_hits a) (sp_evictions a),
   bool_decide (is_Some (assoc key (sp_entries a)))).

Inductive LruOp :=
  | LGet (key : string)
  | LInsert (key : string) (value : B)
  | LInvalidate (key : string)
  | LClear.
Inductive LruResult :=
  | RGet (value : option B)
  | RInsert (evicted : option (string * B))
  | RInvalidate (present : bool)
  | RClear.

Definition lru_step (op : LruOp) (c : Lru) : option (Lru * LruResult) :=
  match op with
  | LGet key => '(c, r) ← lru_get key c; Some (c, RGet r)
  | LInsert key value => '(c, r) ← lru_insert key value c; Some (c, RInsert r)
  | LInvalidate key => '(c, r) ← lru_invalidate key c; Some (c, RInvalidate r)
  | LClear => Some (lru_clear c, RClear)
  end.
Definition spec_step (max : Z) (op : LruOp) (a : LruSpec) : LruSpec * LruResult :=
  match op with
  | LGet key => let '(a, r) := spec_get key a in (a, RGet r)
  | LInsert key value => let '(a, r) := spec_insert max key value a in (a, RInsert r)
  | LInvalidate key => let '(a, r) := spec_invalidate key a in (a, RInvalidate r)
  | LClear => (mkLruSpec [] (sp_gets a) (sp_hits a) (sp_evictions a), RClear)
  end.

Fixpoint lru_run (ops : list LruOp) (c : Lru) : option (Lru * list LruResult) :=
  match ops with
  | [] => Some (c, [])
  | op :: ops => '(c, r) ← lru_step op c; '(c, rs) ← lru_run ops c; Some (c, r :: rs)
  end.
Fixpoint spec_steps (max : Z) (ops : list LruOp) (a : LruSpec) : LruSpec * list LruResult :=
  match ops with
  | [] => (a, [])
  | op :: ops => let '(a, r) := spec_step max op a in let '(a, rs) := spec_steps max ops a in (a, r :: rs)
  end.

(** The slots of the list with the entries they hold, and the free slots. *)
Abbreviation Placed := (list (nat * (string * B))).
Definition index_of_slots (ps : Placed) : gmap string Z := list_to_map ((λ p, (p.2.1, Z.of_nat p.1)) <$> ps).

Record lru_inv (c : Lru) (ps : Placed) (free : list nat) : Prop := {
  li_order : order c ps.*1;
  li_entries : Forall (λ p, entry_at (lru_slab c) p.1 = Some p.2) ps;
  li_free : lru_free c = Z.of_nat <$> free;
  li_slots : ps.*1 ++ free ≡ₚ seq 0 (length (lru_slab c));
  li_index : lru_index c = index_of_slots ps;
  li_keys : NoDup ps.*2.*1;
  li_slab : zlen (lru_slab c) <= Z.max 1 (lru_max_entries c);
  li_len : zlen ps <= Z.max 1 (lru_max_entries c);
  li_max : is_u64 (lru_max_entries c) }.

Lemma li_sentinel c ps free : lru_inv c ps free → zlen (lru_slab c) <= SENTINEL.
Proof. intros []. unfold is_u64, SENTINEL in *. lia. Qed.

Lemma index_keys (ps : Placed) : ((λ p, (p.2.1, Z.of_nat p.1)) <$> ps).*1 = ps.*2.*1.
Proof. by rewrite <- !list_fmap_compose. Qed.

Lemma li_size c ps free : lru_inv c ps free → size (lru_index c) = length ps.
Proof.
  intros [_ _ _ _ -> Hk _ _ _]. unfold index_of_slots. rewrite <- length_map_to_list, map_to_list_to_map, length_fmap; [done|].
  by rewrite index_keys.
Qed.

Lemma index_hit c ps free s k v : lru_inv c ps free → (s, (k, v)) ∈ ps → lru_index c !! k = Some (Z.of_nat s).
Proof.
  intros [_ _ _ _ -> Hk _ _ _] Hp. apply elem_of_list_to_map; [by rewrite index_keys|].
  exact (list_elem_of_fmap_2 (λ p, (p.2.1, Z.of_nat p.1)) _ _ Hp).
Qed.

Lemma index_miss c ps free k : lru_inv c ps free → k ∉ ps.*2.*1 → lru_index c !! k = None.
Proof. intros [_ _ _ _ -> _ _ _ _] Hk. apply not_elem_of_list_to_map. by rewrite index_keys. Qed.

Lemma slot_bound c ps free s : lru_inv c ps free → s ∈ ps.*1 ++ free → is_Some (lru_slab c !! s).
Proof. intros [_ _ _ Hs _ _ _ _ _] Hin. rewrite Hs in Hin. apply elem_of_seq in Hin. apply lookup_lt_is_Some. lia. Qed.

Lemma slots_nodup c ps free : lru_inv c ps free → NoDup (ps.*1 ++ free).
Proof. intros [_ _ _ -> _ _ _ _ _]. apply NoDup_seq. Qed.

(** The list may be reordered. *)
Lemma lru_inv_reorder c c' ps ps' free : lru_inv c ps free → ps' ≡ₚ ps → order c' ps'.*1 → same_rest c c' →
  lru_inv c' ps' free.
Proof.
  intros [_ He Hf Hs Hix Hk Hsl Hl Hm] Hp Ho (R1 & R2 & R3 & _ & _ & _ & R7 & R8). split; try done.
  - rewrite Hp. eapply Forall_impl; [exact He|]. intros p. cbn. by rewrite R8.
  - congruence.
  - by rewrite Hp, R7.
  - rewrite R1, Hix. apply list_to_map_proper; [by rewrite index_keys|]. by rewrite Hp.
  - by rewrite Hp.
  - by rewrite R7, R3.
  - rewrite R3, Hp. done.
  - by rewrite R3.
Qed.

Definition same_counts (c c' : Lru) : Prop :=
  lru_gets c' = lru_gets c ∧ lru_hits c' = lru_hits c ∧ lru_evictions c' = lru_evictions c ∧
  lru_max_entries c' = lru_max_entries c.

(** A used entry moves to the front. *)
Lemma touch_spec c ps1 s k v ps2 free : lru_inv c (ps1 ++ (s, (k, v)) :: ps2) free →
  ∃ c1 c2, detach (Z.of_nat s) c = Some c1 ∧ push_front (Z.of_nat s) c1 = Some c2 ∧
    lru_inv c2 ((s, (k, v)) :: ps1 ++ ps2) free ∧ same_counts c c2.
Proof.
  intros Hi. pose proof (li_sentinel _ _ _ Hi) as Hlen. pose proof (li_order _ _ _ Hi) as Ho.
  rewrite fmap_app, fmap_cons in Ho. cbn [fst] in Ho.
  destruct (detach_spec c ps1.*1 s ps2.*1 Hlen Ho) as (c1 & E1 & Ho1 & Hr1).
  pose proof Hr1 as (_ & _ & _ & _ & _ & _ & Hl1 & He1).
  assert (Hs : is_Some (lru_slab c !! s)) by (eapply slot_bound; [exact Hi|]; rewrite fmap_app, !elem_of_app; left; right; left).
  destruct (push_front_spec c1 s (ps1.*1 ++ ps2.*1)) as (c2 & E2 & Ho2 & Hr2); [by rewrite Hl1|done| | |].
  - apply lookup_lt_is_Some. rewrite Hl1. by apply lookup_lt_is_Some.
  - pose proof (ord_nodup _ _ Ho) as Hnd. apply NoDup_app in Hnd as (_ & Hd & [Hs2 _]%NoDup_cons).
    rewrite elem_of_app. intros [Hin|?]; [apply (Hd s Hin); left|done].
  - pose proof (same_rest_trans _ _ _ Hr1 Hr2) as Hr. exists c1, c2. split_and!; try done.
    + eapply lru_inv_reorder; [exact Hi| | |exact Hr]; [apply Permutation_middle|]. by rewrite fmap_cons, fmap_app.
    + unfold same_rest in Hr. unfold same_counts. tauto.
Qed.

Lemma assoc_case k (l : list (string * B)) : NoDup l.*1 →
  (∃ l1 v l2, l = l1 ++ (k, v) :: l2 ∧ assoc k l = Some v ∧ without k l = l1 ++ l2) ∨
  (k ∉ l.*1 ∧ assoc k l = None ∧ without k l = l).
Proof.
  intros Hnd. unfold assoc, without. destruct (list_to_map l !! k) as [v|] eqn:E.
  - left. apply elem_of_list_to_map in E; [|done]. apply list_elem_of_split in E as (l1 & l2 & ->).
    exists l1, v, l2. split_and!; try done. rewrite fmap_app, fmap_cons in Hnd.
    apply NoDup_app in Hnd as (_ & Hd & [H2 _]%NoDup_cons). rewrite filter_app, filter_cons_False by (cbn; tauto).
    f_equal; apply filter_all; apply Forall_forall; intros e He Hek; subst k.
    + apply (Hd e.1); [exact (list_elem_of_fmap_2 fst _ _ He)|left].
    + apply H2. exact (list_elem_of_fmap_2 fst _ _ He).
  - right. apply not_elem_of_list_to_map in E. split_and!; try done. apply filter_all, Forall_forall.
    intros e He <-. apply E. exact (list_elem_of_fmap_2 fst _ _ He).
Qed.
Lemma forall_entries_frame (slab slab' : list LruNode) (ps : Placed) :
  (∀ s, s ∈ ps.*1 → entry_at slab' s = entry_at slab s) →
  Forall (λ p, entry_at slab p.1 = Some p.2) ps → Forall (λ p, entry_at slab' p.1 = Some p.2) ps.
Proof.
  intros Heq. rewrite !Forall_forall. intros H p Hp. rewrite Heq; [by apply H|]. by apply list_elem_of_fmap_2.
Qed.

Lemma entry_at_frame (slab : list LruNode) f s s' : s ≠ s' → entry_at (alter f s slab) s' = entry_at (B:=B) slab s'.
Proof. intros Hne. unfold entry_at. by rewrite list_lookup_alter_ne. Qed.

Lemma index_insert k v s (ps : Placed) : <[k := Z.of_nat s]> (index_of_slots ps) = index_of_slots ((s, (k, v)) :: ps).
Proof. done. Qed.

Lemma index_delete k v s ps1 ps2 : NoDup (ps1 ++ (s, (k, v)) :: ps2).*2.*1 →
  delete k (index_of_slots (ps1 ++ (s, (k, v)) :: ps2)) = index_of_slots (ps1 ++ ps2).
Proof.
  intros Hnd. assert (Hp : ps1 ++ (s, (k, v)) :: ps2 ≡ₚ (s, (k, v)) :: ps1 ++ ps2) by by rewrite Permutation_middle.
  unfold index_of_slots. rewrite (list_to_map_proper _ ((λ p, (p.2.1, Z.of_nat p.1)) <$> ((s, (k, v)) :: ps1 ++ ps2))).
  - rewrite Hp in Hnd. cbn [fmap list_fmap list_to_map fst snd] in *. apply NoDup_cons in Hnd as [Hk _].
    apply delete_insert_id. apply not_elem_of_list_to_map. by rewrite index_keys.
  - by rewrite index_keys.
  - by rewrite Hp.
Qed.

(** An allocated slot is outside the list and holds the new entry. *)
Lemma allocate_slot c ps free k v : lru_inv c ps free → zlen ps < Z.max 1 (lru_max_entries c) →
  ∃ c1 s free', allocate k v c = Some (c1, Z.of_nat s) ∧ order c1 ps.*1 ∧ s ∉ ps.*1 ∧
    entry_at (lru_slab c1) s = Some (k, v) ∧ Forall (λ p, entry_at (lru_slab c1) p.1 = Some p.2) ps ∧
    lru_free c1 = Z.of_nat <$> free' ∧ s :: ps.*1 ++ free' ≡ₚ seq 0 (length (lru_slab c1)) ∧
    lru_index c1 = lru_index c ∧ zlen (lru_slab c1) <= Z.max 1 (lru_max_entries c) ∧ same_counts c c1.
Proof.
  intros Hi Hcap. pose proof (slots_nodup _ _ _ Hi) as Hnd.
  destruct Hi as [[Hlk Hhd Htl Hndp] He Hf Hp Hix Hkk Hsl Hl Hm]. unfold allocate. rewrite Hf.
  destruct free as [|s free]; cbn [fmap list_fmap].
  - rewrite app_nil_r in *. assert (Hs : length (lru_slab c) ∉ ps.*1) by (rewrite Hp, elem_of_seq; lia).
    eexists _, _, []. split; [done|]. cbn. assert (Hlen : length (lru_slab c) = length ps).
    { apply Permutation_length in Hp. rewrite length_fmap, length_seq in Hp. done. }
    rewrite length_app. cbn [length]. split_and!; try done.
    + split; try done. by apply linked_extend.
    + unfold entry_at. by rewrite lookup_app_r, Nat.sub_diag by lia.
    + eapply forall_entries_frame; [|exact He]. intros s Hin. unfold entry_at.
      rewrite lookup_app_l; [done|]. rewrite Hp in Hin. apply elem_of_seq in Hin. lia.
    + rewrite Nat.add_1_r, seq_S, app_nil_r, Hp. by rewrite <- Permutation_cons_append.
    + lia.
  - rewrite at_slot_spec by (apply lookup_lt_is_Some; assert (Hin : s ∈ ps.*1 ++ s :: free) by (apply elem_of_app; right; left);
      rewrite Hp in Hin; apply elem_of_seq in Hin; lia).
    assert (Hs : s ∉ ps.*1) by (apply NoDup_app in Hnd as (_ & Hd & _); intros Hin; apply (Hd s Hin); left).
    eexists _, s, free. split; [done|]. cbn. rewrite length_alter. split_and!; try done.
    + split; try done. by apply linked_frame.
    + unfold entry_at. rewrite list_lookup_alter_eq.
      assert (Hin : s ∈ ps.*1 ++ s :: free) by (apply elem_of_app; right; left). rewrite Hp in Hin.
      apply elem_of_seq in Hin. destruct (lookup_lt_is_Some_2 (lru_slab c) s ltac:(lia)) as [n ->]. done.
    + eapply forall_entries_frame; [|exact He]. intros s' Hin. apply entry_at_frame. set_solver.
    + by rewrite Permutation_middle.
Qed.

(** A slot that is allocated and pushed. *)
Lemma allocate_spec c ps free k v : lru_inv c ps free → k ∉ ps.*2.*1 → zlen ps < Z.max 1 (lru_max_entries c) →
  ∃ c1 s c2 free', allocate k v c = Some (c1, Z.of_nat s) ∧
    push_front (Z.of_nat s) (with_store (<[k := Z.of_nat s]> (lru_index c1)) (lru_slab c1) (lru_free c1) c1) = Some c2 ∧
    lru_inv c2 ((s, (k, v)) :: ps) free' ∧ same_counts c c2.
Proof.
  intros Hi Hk Hcap. 
  destruct (allocate_slot c ps free k v Hi Hcap)
    as (c1 & s & free' & E & [Hlk Hhd Htl Hndp] & Hs & Hes & He & Hf & Hp & Hix & Hsl & Hc).
  rewrite E. set (c1' := with_store (<[k := Z.of_nat s]> (lru_index c1)) (lru_slab c1) (lru_free c1) c1).
  assert (Hsen1 : zlen (lru_slab c1') <= SENTINEL).
  { destruct Hi as [_ _ _ _ _ _ _ _ Hm]. unfold is_u64, SENTINEL, c1' in *. cbn. lia. }
  destruct (push_front_spec c1' s ps.*1 Hsen1) as (c2 & E2 & Ho2 & (R1 & R2 & R3 & R4 & R5 & R6 & R7 & R8)); try done.
  { cbn. unfold entry_at in Hes. destruct (lru_slab c1 !! s); [done|discriminate]. }
  exists c1, s, c2, free'. unfold same_counts in *. cbn in *. destruct Hc as (C1 & C2 & C3 & C4).
  destruct Hi as [_ _ _ _ Hix0 Hkk _ _ Hm]. split; [done|]. split; [exact E2|]. split; [|split_and!; congruence]. split; cbn [fmap list_fmap fst snd length]; try congruence.
  - constructor; [cbn; by rewrite R8|]. eapply forall_entries_frame; [|exact He]. intros; apply R8.
  - by rewrite R7.
  - by rewrite R1, Hix, Hix0.
  - by apply NoDup_cons.
  - rewrite R3, C4. lia.
Qed.

(** The least recently used entry leaves, if there is one. *)
Lemma evict_spec c ps s k v free : lru_inv c (ps ++ [(s, (k, v))]) free →
  ∃ c', evict_tail c = Some (c', Some (k, v)) ∧ lru_inv c' ps (s :: free) ∧
    lru_gets c' = lru_gets c ∧ lru_hits c' = lru_hits c ∧ lru_max_entries c' = lru_max_entries c ∧
    lru_evictions c' = wrap_u64 (lru_evictions c + 1).
Proof.
  intros Hi. pose proof (li_sentinel _ _ _ Hi) as Hsen. pose proof (slots_nodup _ _ _ Hi) as Hnd.
  destruct Hi as [Ho He Hf Hp Hix Hk Hsl Hl Hm]. rewrite fmap_app in Ho, Hp, Hnd. cbn [fmap list_fmap fst] in Ho, Hp, Hnd.
  assert (Hs : is_Some (lru_slab c !! s)) by (eapply linked_entry; [apply Ho|apply elem_of_app; right; left]).
  unfold evict_tail. rewrite (ord_tail _ _ Ho), final_snoc, (ptr_sentinel_None (lru_slab c)) by done. cbn [ptr].
  destruct (detach_spec c ps.*1 s [] Hsen Ho) as (c1 & -> & [Hlk Hhd Htl Hn] & (R1 & R2 & R3 & R4 & R5 & R6 & R7 & R8)).
  rewrite app_nil_r in *. cbn [mbind option_bind]. unfold node_at. rewrite Nat2Z.id.
  apply Forall_app in He as [He Hes]. apply Forall_cons in Hes as [Hes _]. cbn [fst snd] in Hes. rewrite <- R8 in Hes.
  unfold entry_at in Hes. destruct (lru_slab c1 !! s) as [node|] eqn:En; [|discriminate].
  injection Hes as Hnk Hnv. cbn [mbind option_bind]. rewrite at_slot_spec by done. cbn [mbind option_bind].
  rewrite Hnk, Hnv. assert (Hs' : s ∉ ps.*1).
  { rewrite <- app_assoc in Hnd. apply NoDup_app in Hnd as (_ & Hd & _). intros Hin. apply (Hd s Hin). left. }
  eexists. split; [done|]. cbn. split_and!; try congruence. split; cbn; try congruence.
  - split; cbn; try done. by apply linked_frame.
  - eapply forall_entries_frame; [|exact He]. intros s' Hin. rewrite entry_at_frame by set_solver. apply R8.
  - rewrite length_alter, R7, <- Hp. by rewrite <- app_assoc.
  - rewrite R1, Hix, (index_delete k v s ps []); [by rewrite app_nil_r|done].
  - rewrite !fmap_app in Hk. by apply NoDup_app in Hk as [? _].
  - rewrite length_alter, R7, R3. done.
  - rewrite length_app in Hl. rewrite R3. lia.
Qed.

Definition lru_abs (max : Z) (c : Lru) (a : LruSpec) : Prop := ∃ ps free, lru_inv c ps free ∧
  ps.*2 = sp_entries a ∧ lru_max_entries c = max ∧
  lru_gets c = sp_gets a ∧ lru_hits c = sp_hits a ∧ lru_evictions c = sp_evictions a.

Lemma lru_inv_counts c ps free gets hits evictions : lru_inv c ps free →
  lru_inv (with_counts gets hits evictions c) ps free.
Proof. intros [[Hlk Hhd Htl Hn] He Hf Hp Hix Hk Hsl Hl Hm]. by split. Qed.

(** The places of the entries around one. *)
Lemma placed_split (ps : Placed) l1 k (v : B) l2 : ps.*2 = l1 ++ (k, v) :: l2 →
  ∃ ps1 s ps2, ps = ps1 ++ (s, (k, v)) :: ps2 ∧ (ps1 ++ ps2).*2 = l1 ++ l2.
Proof.
  intros (ps1 & ps2 & -> & Hc & ->)%fmap_app_inv. symmetry in Hc.
  apply fmap_cons_inv in Hc as ([s kv] & ps2' & Hkv & -> & ->). cbn in Hkv. subst kv.
  exists ps1, s, ps2'. split; [done|]. by rewrite fmap_app.
Qed.

Lemma lru_get_abs max key c a : lru_abs max c a →
  ∃ c', lru_get key c = Some (c', (spec_get key a).2) ∧ lru_abs max c' (spec_get key a).1.
Proof.
  intros (ps & free & Hi & Hps & Hmax & Hg & Hh & Hev). unfold lru_get, spec_get. rewrite <- Hps.
  destruct (assoc_case key ps.*2) as [(l1 & v & l2 & Hl & -> & Hw)|(Hk & -> & _)]; [apply Hi| |].
  - destruct (placed_split ps l1 key v l2 Hl) as (ps1 & s & ps2 & -> & Hps12).
    change (lru_index (with_counts _ _ _ c)) with (lru_index c).
    rewrite (index_hit c _ free s key v Hi) by (apply elem_of_app; right; left).
    set (c0 := with_counts _ (wrap_u64 _) _ _).
    destruct (touch_spec c0 ps1 s key v ps2 free) as (c1 & c2 & -> & E2 & Hi2 & (C1 & C2 & C3 & C4)).
    { by do 2 apply lru_inv_counts. }
    cbn [mbind option_bind]. rewrite E2. cbn [mbind option_bind]. unfold node_at. rewrite Nat2Z.id.
    pose proof (li_entries _ _ _ Hi2) as He. apply Forall_cons in He as [He _]. cbn in He. unfold entry_at in He.
    destruct (lru_slab c2 !! s) as [n|]; [|discriminate]. injection He as _ Hv. cbn [mbind option_bind]. rewrite Hv.
    eexists. split; [done|]. eexists _, free. split; [exact Hi2|]. cbn in *. split_and!; try congruence.
  - change (lru_index (with_counts _ _ _ c)) with (lru_index c). rewrite (index_miss c ps free) by done.
    eexists. split; [done|]. exists ps, free. split; [by apply lru_inv_counts|]. cbn. split_and!; congruence.
Qed.

Lemma linked_values (slab : list LruNode) f s l : (∀ n, ln_prev (f n) = ln_prev n ∧ ln_next (f n) = ln_next n) →
  ∀ p n, linked (B:=B) slab p l n → linked (alter f s slab) p l n.
Proof.
  intros Hf. induction l as [|s' l IH]; intros p n; cbn [linked]; [done|]. intros [(k & v & Hk) Hl].
  split; [|by apply IH]. destruct (decide (s = s')) as [->|Hne].
  - rewrite list_lookup_alter_eq, Hk. cbn. destruct (Hf (mkLruNode k v (ptr p) (ptr (first l n)))) as [Hp Hn].
    destruct (f _) as [k' v' p' n']. cbn in Hp, Hn. subst. by exists k', v'.
  - exists k, v. by rewrite list_lookup_alter_ne.
Qed.

(** Overwriting the value of an entry. *)
Lemma set_value_inv c ps1 s k v v' ps2 free : lru_inv c (ps1 ++ (s, (k, v)) :: ps2) free →
  ∃ c', at_slot (Z.of_nat s) (set_value v') c = Some c' ∧ lru_inv c' (ps1 ++ (s, (k, v')) :: ps2) free ∧
    same_counts c c'.
Proof.
  intros Hi. pose proof (slots_nodup _ _ _ Hi) as Hnd. destruct Hi as [[Hlk Hhd Htl Hn] He Hf Hp Hix Hk Hsl Hl Hm].
  rewrite fmap_app, fmap_cons in Hlk, Hhd, Htl, Hn, Hp, Hnd. cbn [fst] in *.
  assert (Hs : is_Some (lru_slab c !! s)) by (eapply linked_entry; [exact Hlk|apply elem_of_app; right; left]).
  rewrite at_slot_spec by done. eexists. split; [done|]. split; [|by split_and!].
  apply NoDup_app in Hn as (Hn1 & Hd & Hn2). pose proof Hn2 as [Hs2 _]%NoDup_cons.
  apply Forall_app in He as [He1 He2]. apply Forall_cons in He2 as [Hes He2].
  split; cbn [with_links lru_slab lru_index lru_free lru_max_entries]; rewrite ?length_alter; try done.
  - rewrite fmap_app, fmap_cons. split; cbn; try done; [by apply linked_values|apply NoDup_app; by split_and!].
  - apply Forall_app. split; [|constructor].
    + eapply forall_entries_frame; [|exact He1]. intros s' Hin. apply entry_at_frame. intros ->. apply (Hd s' Hin). left.
    + cbn. unfold entry_at in *. rewrite list_lookup_alter_eq. cbn in Hes. destruct (lru_slab c !! s); [|done].
      injection Hes as <- _. done.
    + eapply forall_entries_frame; [|exact He2]. intros s' Hin. apply entry_at_frame. by intros ->.
  - by rewrite fmap_app, fmap_cons.
  - rewrite Hix. unfold index_of_slots. by rewrite !fmap_app, !fmap_cons.
  - revert Hk. by rewrite !fmap_app, !fmap_cons.
  - rewrite length_app in *. exact Hl.
Qed.
(** A new key, once there is room. *)
Lemma insert_new max key value (ps : Placed) : key ∉ ps.*2.*1 →
  ∀ c0 (ps0 : Placed) free0, lru_inv c0 ps0 free0 → ps0.*2.*1 ⊆ ps.*2.*1 →
  zlen ps0 < Z.max 1 (lru_max_entries c0) → lru_max_entries c0 = max → ∀ (evicted : option (string * B)) g h e,
  lru_gets c0 = g → lru_hits c0 = h → lru_evictions c0 = e →
  ∃ c', ('(c1, slot) ← allocate key value c0;
         c2 ← push_front slot (with_store (<[key := slot]> (lru_index c1)) (lru_slab c1) (lru_free c1) c1);
         Some (c2, evicted)) = Some (c', evicted) ∧
    lru_abs max c' (mkLruSpec ((key, value) :: ps0.*2) g h e).
Proof.
  intros Hk c0 ps0 free0 Hi0 Hsub Hcap Hm evicted g h e <- <- <-.
  destruct (allocate_spec c0 ps0 free0 key value Hi0) as (c1 & s & c2 & free' & -> & E2 & Hi2 & (C1 & C2 & C3 & C4));
    [intros Hin; apply Hk, Hsub, Hin|done|]. cbn [mbind option_bind]. rewrite E2. eexists. split; [done|].
  eexists _, free'. split; [exact Hi2|]. cbn. split_and!; congruence.
Qed.

Lemma lru_insert_abs max key value c a : lru_abs max c a →
  ∃ c', lru_insert key value c = Some (c', (spec_insert max key value a).2) ∧
    lru_abs max c' (spec_insert max key value a).1.
Proof.
  intros (ps & free & Hi & Hps & Hmax & Hg & Hh & Hev). unfold lru_insert, spec_insert. rewrite <- Hps.
  destruct (assoc_case key ps.*2) as [(l1 & v & l2 & Hl & -> & ->)|(Hk & -> & _)]; [apply Hi| |].
  - destruct (placed_split ps l1 key v l2 Hl) as (ps1 & s & ps2 & -> & Hps12).
    rewrite (index_hit c _ free s key v Hi) by (apply elem_of_app; right; left).
    destruct (set_value_inv c ps1 s key v value ps2 free Hi) as (c0 & -> & Hi0 & (D1 & D2 & D3 & D4)).
    destruct (touch_spec c0 ps1 s key value ps2 free Hi0) as (c1 & c2 & E1 & E2 & Hi2 & (C1 & C2 & C3 & C4)).
    cbn [mbind option_bind]. rewrite E1. cbn [mbind option_bind]. rewrite E2. eexists. split; [done|].
    eexists _, free. split; [exact Hi2|]. cbn. split_and!; congruence.
  - rewrite (index_miss c ps free) by done. rewrite (li_size _ _ _ Hi), Hmax, length_fmap.
    pose proof (insert_new max key value ps Hk) as Hput.
    pose proof (li_len _ _ _ Hi) as Hlen. destruct (max <=? zlen ps) eqn:Hfull.
    + apply Z.leb_le in Hfull. destruct ps as [|[s [k v]] ps _] using rev_ind.
      * unfold evict_tail. rewrite (ord_tail _ _ (li_order _ _ _ Hi)). cbn [fmap list_fmap final last ptr].
        rewrite Z.eqb_refl. cbn [mbind option_bind fst snd].
        exact (Hput c [] free Hi (λ x Hx, Hx) ltac:(cbn [length]; lia) Hmax None _ _ _ Hg Hh Hev).
      * destruct (evict_spec c ps s k v free Hi) as (c0 & -> & Hi0 & G1 & G2 & G3 & G4).
        rewrite fmap_app. cbn [fmap list_fmap snd mbind option_bind]. rewrite last_snoc, removelast_last. cbn [fst snd].
        rewrite length_app in Hlen. cbn [length] in Hlen.
        destruct (Hput c0 ps (s :: free) Hi0) with (evicted := Some (k, v)) (g := sp_gets a) (h := sp_hits a)
          (e := wrap_u64 (sp_evictions a + 1)) as (c' & E & Habs); try congruence.
        -- rewrite !fmap_app. intros x Hx. apply elem_of_app. by left.
        -- rewrite G3. lia.
        -- exists c'. split; [exact E|exact Habs].
    + apply Z.leb_gt in Hfull. cbn [mbind option_bind fst snd].
      exact (Hput c ps free Hi (λ x Hx, Hx) ltac:(lia) Hmax None _ _ _ Hg Hh Hev).
Qed.

Lemma lru_invalidate_abs max key c a : lru_abs max c a →
  ∃ c', lru_invalidate key c = Some (c', (spec_invalidate key a).2) ∧ lru_abs max c' (spec_invalidate key a).1.
Proof.
  intros (ps & free & Hi & Hps & Hmax & Hg & Hh & Hev). unfold lru_invalidate, spec_invalidate. rewrite <- Hps.
  destruct (assoc_case key ps.*2) as [(l1 & v & l2 & Hl & -> & ->)|(Hk & -> & ->)]; [apply Hi| |].
  - destruct (placed_split ps l1 key v l2 Hl) as (ps1 & s & ps2 & -> & Hps12).
    rewrite (index_hit c _ free s key v Hi) by (apply elem_of_app; right; left).
    pose proof (li_sentinel _ _ _ Hi) as Hsen. destruct Hi as [[Hlk Hhd Htl Hn] He Hf Hp Hix Hkk Hsl Hlen Hm].
    rewrite fmap_app, fmap_cons in Hlk, Hhd, Htl, Hn. cbn [fst] in *.
    set (c0 := with_store (delete key (lru_index c)) (lru_slab c) (lru_free c) c).
    destruct (detach_spec c0 ps1.*1 s ps2.*1 Hsen) as (c1 & -> & [Lk Hd Tl Nd] & (R1 & R2 & R3 & R4 & R5 & R6 & R7 & R8)); [by split|].
    cbn in R1, R2, R3, R4, R5, R6, R7. cbn [mbind option_bind]. eexists. split; [done|].
    eexists (ps1 ++ ps2), (s :: free). cbn [with_store lru_gets lru_hits lru_evictions lru_max_entries fst sp_entries sp_gets sp_hits sp_evictions].
    split_and!; try congruence.
    split; cbn [with_store lru_gets lru_hits lru_evictions lru_max_entries lru_slab lru_index lru_free]; try congruence.
    + rewrite fmap_app. by split.
    + assert (Hsub : Forall (λ p, entry_at (lru_slab c) p.1 = Some p.2) (ps1 ++ ps2)).
      { apply Forall_app in He as [He1 [_ He2]%Forall_cons]. by apply Forall_app. }
      eapply forall_entries_frame; [|exact Hsub]. intros s' _. apply R8.
    + by rewrite R2, Hf.
    + rewrite R7, <- Hp, !fmap_app, fmap_cons. cbn [fst]. rewrite <- !app_assoc. cbn [app].
      by rewrite !Permutation_middle.
    + rewrite R1, Hix. by apply index_delete.
    + revert Hkk. rewrite !fmap_app, !fmap_cons. cbn [fst snd]. by rewrite <- Permutation_middle, NoDup_cons; intros [_ ?].
    + rewrite R3. revert Hlen. rewrite !length_app. cbn [length]. lia.
  - rewrite (index_miss c ps free) by done. eexists. split; [done|]. exists ps, free. by split_and!.
Qed.

Lemma lru_clear_abs max c a : lru_abs max c a →
  lru_abs max (lru_clear c) (mkLruSpec [] (sp_gets a) (sp_hits a) (sp_evictions a)).
Proof.
  intros (ps & free & [Ho He Hf Hp Hix Hk Hsl Hl Hm] & Hps & Hmax & Hg & Hh & Hev). exists [], [].
  split_and!; try done. split; try done; [split; try done; apply NoDup_nil_2|apply NoDup_nil_2|cbn; lia|cbn; lia].
Qed.

Lemma lru_step_abs max op c a : lru_abs max c a →
  ∃ c', lru_step op c = Some (c', (spec_step max op a).2) ∧ lru_abs max c' (spec_step max op a).1.
Proof.
  intros Ha. destruct op as [key|key value|key|]; cbn [lru_step spec_step].
  - destruct (lru_get_abs max key c a Ha) as (c' & -> & Ha'). exists c'. by destruct (spec_get key a).
  - destruct (lru_insert_abs max key value c a Ha) as (c' & -> & Ha'). exists c'. by destruct (spec_insert max key value a).
  - destruct (lru_invalidate_abs max key c a Ha) as (c' & -> & Ha'). exists c'. by destruct (spec_invalidate key a).
  - exists (lru_clear c). split; [done|]. by apply lru_clear_abs.
Qed.

Lemma lru_run_abs max ops : ∀ c a, lru_abs max c a →
  ∃ c', lru_run ops c = Some (c', (spec_steps max ops a).2) ∧ lru_abs max c' (spec_steps max ops a).1.
Proof.
  induction ops as [|op ops IH]; intros c a Ha; cbn [lru_run spec_steps]; [by exists c|].
  destruct (lru_step_abs max op c a Ha) as (c1 & -> & Ha1). destruct (spec_step max op a) as [a1 r].
  destruct (IH c1 a1 Ha1) as (c2 & E & Ha2). exists c2. cbn [mbind option_bind fst snd]. rewrite E.
  by destruct (spec_steps max ops a1).
Qed.

Lemma lru_new_abs max : is_u64 max → lru_abs max (TableLruCache_new max) (mkLruSpec [] 0 0 0).
Proof.
  intros Hm. exists [], []. split_and!; try done. unfold is_u64 in Hm.
  split; try done; [split; try done; apply NoDup_nil_2|apply NoDup_nil_2|cbn; lia|cbn; lia].
Qed.

(** [C12]: The linked list in the slab is an LRU cache. Fed any sequence of lookups,
    insertions, invalidations and clears, the cache never indexes outside its slab
    and answers each exactly as the list of its entries ordered by last use does: a
    lookup returns the last value inserted under the key and moves it to the front,
    a full cache evicts and returns the entry at the back. It holds at most
    [max_entries] entries (one, if that is zero), needs no more slots than that, and
    its counters count the lookups, hits and evictions. *)
Theorem lru_refines_list max ops : is_u64 max →
  ∃ c a rs, lru_run ops (TableLruCache_new max) = Some (c, rs) ∧
    spec_steps max ops (mkLruSpec [] 0 0 0) = (a, rs) ∧
    NoDup (sp_entries a).*1 ∧ lru_len c = length (sp_entries a) ∧
    zlen (sp_entries a) <= Z.max 1 max ∧ zlen (lru_slab c) <= Z.max 1 max ∧
    total_gets c = sp_gets a ∧ total_hits c = sp_hits a ∧ total_evictions c = sp_evictions a.
Proof.
  intros Hm. destruct (lru_run_abs max ops _ _ (lru_new_abs max Hm)) as (c & E & (ps & free & Hi & Hps & Hmax & Hg & Hh & Hev)).
  destruct (spec_steps max ops _) as [a rs]. exists c, a, rs. cbn [fst snd] in *. subst max.
  rewrite <- Hps, length_fmap. unfold lru_len. rewrite (li_size _ _ _ Hi). split_and!; try done; apply Hi.
Qed.
End Spec.

#[global] Instance unit_like {B : Type} : EmptyLike B := λ b, b.

Lemma lru_refines_list_witness :
  let ops := [LInsert "a" 1; LInsert "b" 2; LGet "a"; LInsert "c" 3; LInsert "a" 4; LInvalidate "b"; LGet "b"; LInsert "d" 5] in
  is_u64 2 ∧ ∃ c, lru_run ops (TableLruCache_new 2) = Some (c,
    [RInsert None; RInsert None; RGet (Some 1); RInsert (Some ("b", 2)); RInsert None; RInvalidate false; RGet None;
     RInsert (Some ("c", 3))]) ∧ lru_len c = 2%nat.
Proof.
  intros ops. assert (Hm : is_u64 2) by (unfold is_u64; lia). split; [exact Hm|].
  destruct (lru_refines_list 2 ops Hm) as (c & a & rs & E & Ea & _ & Hlen & _). exists c.
  assert (Ha : spec_steps 2 ops (mkLruSpec [] 0 0 0) = (mkLruSpec [("d", 5); ("a", 4)] 2 1 2,
    [RInsert None; RInsert None; RGet (Some 1); RInsert (Some ("b", 2)); RInsert None; RInvalidate false; RGet None;
     RInsert (Some ("c", 3))])) by reflexivity.
  rewrite Ea in Ha. injection Ha as -> ->. split; [exact E|exact Hlen].
Defined.
