(* ===== verification/TableStore.v ===== *)
(** * Reference tables

    laminar-db/src/table_store.rs, table_backend.rs and table_cache_mode.rs: tables
    kept by primary key, read through the LRU cache and the filter of [TableCache]
    in the partial cache mode.

    A record batch is a type [B] with a schema type [S] and the operations of Arrow
    the code calls, the class [TableBatch]; a column is the list of its cells as
    [extract_pk_string] reads them (a null slot is the value its buffer holds). The
    iteration over a [HashMap] is the class [HashOrder]. [None] is a panic. Row
    counts are natural numbers: they count rows in memory. *)

From stdpp Require Import pretty.
From S2P Require Import Prelude RustFloat TableCache.

(** The array types [extract_pk_string] tells apart; for any other one what
    [array_value_to_string] displays. *)
Inductive PkCell :=
  | PkUtf8 (s : string)
  | PkInt32 (v : Z)
  | PkInt64 (v : Z)
  | PkUInt64 (v : Z)
  | PkDisplay (s : option string).

Class TableBatch (B S : Type) := {
  schema_index_of : S → string → option nat;
  column : B → nat → option (list PkCell);
  num_rows : B → nat;
  slice_row : B → nat → B;
  new_empty : S → B;
  concat_batches : S → list B → B + string }.

Class HashOrder := hash_iter : ∀ {A : Type}, gmap string A → list (string * A).
Class HashOrderLaws `{!HashOrder} : Prop :=
  hash_iter_perm : ∀ A (m : gmap string A), hash_iter m ≡ₚ map_to_list m.

#[global] Instance canonical_hash_order : HashOrder := λ A m, map_to_list m.
#[global] Instance canonical_hash_order_laws : HashOrderLaws.
Proof. by intros A m. Qed.

(** The errors of the table store. *)
Inductive TableError :=
  | TableNotFound (name : string)
  | TableAlreadyExists (name : string)
  | InvalidOperation (message : string)
  | StorageError (message : string).

(** ** Cache modes *)

Inductive TableCacheMode :=
  | CacheFull
  | CachePartial (max_entries : Z)
  | CacheNone.

Definition DEFAULT_PARTIAL_MAX_ENTRIES : Z := 500000.
Definition cache_mode_default : TableCacheMode := CacheFull.
Definition cache_mode_max_entries (m : TableCacheMode) : option Z :=
  match m with CachePartial max_entries => Some max_entries | _ => None end.
Definition partial_default : TableCacheMode := CachePartial DEFAULT_PARTIAL_MAX_ENTRIES.

(** [str::to_lowercase] on the ASCII letters; no other letter has one of the modes'
    letters as its lower case. *)
Definition lower_ascii (c : Ascii.ascii) : Ascii.ascii :=
  let n := Ascii.nat_of_ascii c in
  if decide (65 <= n <= 90)%nat then Ascii.ascii_of_nat (n + 32) else c.
Fixpoint to_lowercase (s : string) : string :=
  match s with EmptyString => EmptyString | String c s => String (lower_ascii c) (to_lowercase s) end.

Definition parse_cache_mode (s : string) : TableCacheMode + TableError :=
  let l := to_lowercase s in
  if decide (l = "full") then inl CacheFull
  else if decide (l = "partial") then inl partial_default
  else if decide (l = "none") then inl CacheNone
  else inr (InvalidOperation ("Unknown cache_mode '" +:+ s +:+ "': expected full, partial, or none")).

(** ** The backend *)

Section Tables.
Context {B S : Type} `{!TableBatch B S} `{!HashOrder} `{!EmptyLike B} `{!XorFilter}.

Inductive TableBackend := InMemory (rows : gmap string B).

Definition in_memory : TableBackend := InMemory ∅.
Definition backend_get (key : string) (t : TableBackend) : option B + TableError :=
  match t with InMemory rows => inl (rows !! key) end.
Definition backend_put (key : string) (batch : B) (t : TableBackend) : TableBackend * (bool + TableError) :=
  match t with InMemory rows => (InMemory (<[key := batch]> rows), inl (bool_decide (is_Some (rows !! key)))) end.
Definition backend_remove (key : string) (t : TableBackend) : TableBackend * (bool + TableError) :=
  match t with InMemory rows => (InMemory (delete key rows), inl (bool_decide (is_Some (rows !! key)))) end.
Definition backend_contains_key (key : string) (t : TableBackend) : bool + TableError :=
  match t with InMemory rows => inl (bool_decide (is_Some (rows !! key))) end.
Definition backend_keys (t : TableBackend) : list string + TableError :=
  match t with InMemory rows => inl (hash_iter rows).*1 end.
Definition backend_len (t : TableBackend) : nat + TableError :=
  match t with InMemory rows => inl (size rows) end.
Definition backend_drain (t : TableBackend) : TableBackend * (list (string * B) + TableError) :=
  match t with InMemory rows => (InMemory ∅, inl (hash_iter rows)) end.
Definition backend_to_record_batch (schema : S) (t : TableBackend) : option B + TableError :=
  match t with
  | InMemory rows =>
      if bool_decide (rows = ∅) then inl (Some (new_empty schema)) else
      match concat_batches schema (hash_iter rows).*2 with
      | inl b => inl (Some b)
      | inr e => inr (StorageError ("concat batches: " +:+ e))
      end
  end.
Definition is_persistent_backend (t : TableBackend) : bool := false.
Definition backend_is_empty (t : TableBackend) : bool + TableError :=
  match backend_len t with inl n => inl (bool_decide (n = 0%nat)) | inr e => inr e end.

(** ** The store *)

Record TableState := mkTable {
  tb_schema : S;
  tb_primary_key : string;
  tb_pk_index : nat;
  tb_backend : TableBackend;
  tb_row_count : nat;
  tb_ready : bool;
  tb_connector : option string;
  tb_cache_mode : TableCacheMode;
  tb_lru_cache : option (TableLruCache (B:=B));
  tb_xor_filter : TableXorFilter }.

(** The struct [TableStore] is its one field, the tables by name. *)
Abbreviation TableStore := (gmap string TableState).
Definition TableStore_new : TableStore := ∅.

Definition create_table_with_cache (name : string) (schema : S) (primary_key : string) (cache_mode : TableCacheMode)
    (st : TableStore) : TableStore * (unit + TableError) :=
  if bool_decide (is_Some (st !! name)) then (st, inr (TableAlreadyExists name)) else
  match schema_index_of schema primary_key with
  | None => (st, inr (InvalidOperation ("Primary key column '" +:+ primary_key +:+ "' not found in table '" +:+
                                         name +:+ "'")))
  | Some pk_index =>
      let lru_cache := match cache_mode with
                       | CachePartial max_entries => Some (TableLruCache_new max_entries)
                       | _ => None
                       end in
      (<[name := mkTable schema primary_key pk_index in_memory 0 false None cache_mode lru_cache
                   TableXorFilter_new]> st, inl tt)
  end.

Definition create_table (name : string) (schema : S) (primary_key : string) (st : TableStore) :=
  create_table_with_cache name schema primary_key CacheFull st.

Definition drop_table (name : string) (st : TableStore) : TableStore * bool :=
  (delete name st, bool_decide (is_Some (st !! name))).
Definition has_table (name : string) (st : TableStore) : bool := bool_decide (is_Some (st !! name)).
Definition table_names (st : TableStore) : list string := (hash_iter st).*1.
Definition table_schema (name : string) (st : TableStore) : option S := tb_schema <$> st !! name.
Definition primary_key (name : string) (st : TableStore) : option string := tb_primary_key <$> st !! name.
Definition table_row_count (name : string) (st : TableStore) : nat :=
  match st !! name with Some t => tb_row_count t | None => 0 end.
Definition table_is_ready (name : string) (st : TableStore) : bool :=
  match st !! name with Some t => tb_ready t | None => false end.
Definition table_connector (name : string) (st : TableStore) : option string := t ← st !! name; tb_connector t.
Definition table_is_persistent (name : string) (st : TableStore) : bool :=
  match st !! name with Some t => is_persistent_backend (tb_backend t) | None => false end.

Definition tb_with (backend : TableBackend) (row_count : nat) (lru : option (TableLruCache (B:=B)))
    (xor : TableXorFilter) (t : TableState) : TableState :=
  mkTable (tb_schema t) (tb_primary_key t) (tb_pk_index t) backend row_count (tb_ready t) (tb_connector t)
    (tb_cache_mode t) lru xor.
Definition tb_with_flags (ready : bool) (connector : option string) (t : TableState) : TableState :=
  mkTable (tb_schema t) (tb_primary_key t) (tb_pk_index t) (tb_backend t) (tb_row_count t) ready connector
    (tb_cache_mode t) (tb_lru_cache t) (tb_xor_filter t).

Definition set_ready (name : string) (ready : bool) (st : TableStore) : TableStore :=
  alter (λ t, tb_with_flags ready (tb_connector t) t) name st.
Definition set_connector (name connector_type : string) (st : TableStore) : TableStore :=
  alter (λ t, tb_with_flags (tb_ready t) (Some connector_type) t) name st.

Definition extract_pk_string (col : list PkCell) (row : nat) : option string :=
  cell ← col !! row;
  Some (match cell with
        | PkUtf8 s => s
        | PkInt32 v | PkInt64 v | PkUInt64 v => pretty v
        | PkDisplay s => default EmptyString s
        end).

(** [if let Some(ref mut lru) = state.lru_cache { lru.invalidate(key); }] *)
Definition invalidate_cached (key : string) (lru : option (TableLruCache (B:=B)))
  : option (option (TableLruCache (B:=B))) :=
  match lru with
  | Some lru => '(lru, _) ← lru_invalidate key lru; Some (Some lru)
  | None => Some None
  end.

(** One row of [upsert], and the loop over the rows from [i]. *)
Definition upsert_row (batch : B) (pk_col : list PkCell) (i : nat) (t : TableState)
  : option (TableState * (unit + TableError)) :=
  key ← extract_pk_string pk_col i;
  lru ← invalidate_cached key (tb_lru_cache t);
  let '(backend, res) := backend_put key (slice_row batch i) (tb_backend t) in
  Some (match res with
        | inl existed => (tb_with backend (if existed then tb_row_count t else (tb_row_count t + 1)%nat) lru
                            (tb_xor_filter t) t, inl tt)
        | inr e => (tb_with backend (tb_row_count t) lru (tb_xor_filter t) t, inr e)
        end).

Fixpoint upsert_rows (batch : B) (pk_col : list PkCell) (rows : list nat) (t : TableState)
  : option (TableState * (unit + TableError)) :=
  match rows with
  | [] => Some (t, inl tt)
  | i :: rows =>
      '(t, res) ← upsert_row batch pk_col i t;
      match res with
      | inl _ => upsert_rows batch pk_col rows t
      | inr e => Some (t, inr e)
      end
  end.

Definition upsert (name : string) (batch : B) (st : TableStore) : option (TableStore * (nat + TableError)) :=
  match st !! name with
  | None => Some (st, inr (TableNotFound name))
  | Some t =>
      pk_col ← column batch (tb_pk_index t);
      let count := num_rows batch in
      '(t, res) ← upsert_rows batch pk_col (seq 0 count) t;
      Some (<[name := t]> st, match res with inl _ => inl count | inr e => inr e end)
  end.

Definition delete_row (name key : string) (st : TableStore) : option (TableStore * bool) :=
  match st !! name with
  | None => Some (st, false)
  | Some t =>
      lru ← invalidate_cached key (tb_lru_cache t);
      let '(backend, res) := backend_remove key (tb_backend t) in
      Some (match res with
            | inl true => (<[name := tb_with backend (tb_row_count t - 1) lru (tb_xor_filter t) t]> st, true)
            | _ => (<[name := tb_with backend (tb_row_count t) lru (tb_xor_filter t) t]> st, false)
            end)
  end.

Definition ok_flatten (r : option B + TableError) : option B := match r with inl b => b | inr _ => None end.

(** The steps of a lookup in the partial mode: filter, LRU cache, backend. *)
Definition lookup_partial (key : string) (t : TableState) : option (TableState * option B) :=
  let '(xor, maybe) := xor_contains key (tb_xor_filter t) in
  let t := tb_with (tb_backend t) (tb_row_count t) (tb_lru_cache t) xor t in
  if negb maybe then Some (t, None) else
  '(t, cached) ← match tb_lru_cache t with
                 | Some lru =>
                     '(lru, hit) ← lru_get key lru;
                     Some (tb_with (tb_backend t) (tb_row_count t) (Some lru) (tb_xor_filter t) t, hit)
                 | None => Some (t, None)
                 end;
  match cached with
  | Some batch => Some (t, Some batch)
  | None =>
      match ok_flatten (backend_get key (tb_backend t)) with
      | None => Some (t, None)
      | Some batch =>
          match tb_lru_cache t with
          | Some lru =>
              '(lru, _) ← lru_insert key batch lru;
              Some (tb_with (tb_backend t) (tb_row_count t) (Some lru) (tb_xor_filter t) t, Some batch)
          | None => Some (t, Some batch)
          end
      end
  end.

Definition lookup_row (name key : string) (st : TableStore) : option (TableStore * option B) :=
  match st !! name with
  | None => Some (st, None)
  | Some t =>
      match tb_cache_mode t with
      | CacheFull | CacheNone => Some (st, ok_flatten (backend_get key (tb_backend t)))
      | CachePartial _ => '(t, res) ← lookup_partial key t; Some (<[name := t]> st, res)
      end
  end.

Definition rebuild_xor_filter (name : string) (st : TableStore) : TableStore :=
  alter (λ t,
    let keys := match backend_keys (tb_backend t) with inl keys => keys | inr _ => [] end in
    tb_with (tb_backend t) (tb_row_count t) (tb_lru_cache t) (xor_rebuild keys (tb_xor_filter t)) t) name st.

Definition upsert_and_rebuild (name : string) (batch : B) (st : TableStore)
  : option (TableStore * (nat + TableError)) :=
  '(st, res) ← upsert name batch st;
  match res with
  | inl count => Some (rebuild_xor_filter name st, inl count)
  | inr e => Some (st, inr e)
  end.

Definition cache_metrics (name : string) (st : TableStore) : option TableCacheMetrics :=
  t ← st !! name;
  (λ lru, collect_cache_metrics lru (tb_xor_filter t)) <$> tb_lru_cache t.

Definition to_record_batch (name : string) (st : TableStore) : option B :=
  t ← st !! name; ok_flatten (backend_to_record_batch (tb_schema t) (tb_backend t)).
End Tables.

(** ** The tables as maps of rows

    The specification: a table is the map from its keys to the rows last stored
    under them; in the partial mode it also remembers the keys the filter was last
    built from. *)

Section TableSpec.
Context {B S : Type} `{TB : !TableBatch B S} `{HO : !HashOrder} `{HL : !HashOrderLaws} `{EL : !EmptyLike B}
  `{XF : !XorFilter} `{XL : !XorFilterLaws}.
Abbreviation Store := (gmap string (TableState (B:=B) (S:=S))).
Abbreviation Table := (TableState (B:=B) (S:=S)).

Record TableSpec := mkTableSpec {
  at_schema : S;
  at_pk : nat;
  at_mode : TableCacheMode;
  at_rows : gmap string B;
  at_filter : option (gset string) }.
Abbreviation Spec := (gmap string TableSpec).

Inductive StoreOp :=
  | SCreate (name : string) (schema : S) (pk : string) (mode : TableCacheMode)
  | SDrop (name : string)
  | SUpsert (name : string) (batch : B)
  | SUpsertRebuild (name : string) (batch : B)
  | SDelete (name key : string)
  | SLookup (name key : string)
  | SRebuild (name : string)
  | SSetReady (name : string) (ready : bool)
  | SSetConnector (name connector : string).
Inductive StoreResult :=
  | SRCreate (r : unit + TableError)
  | SRBool (b : bool)
  | SRCount (r : nat + TableError)
  | SRLookup (r : option B)
  | SRNothing.

Definition store_step (op : StoreOp) (st : Store) : option (Store * StoreResult) :=
  match op with
  | SCreate name schema pk mode => let '(st, r) := create_table_with_cache name schema pk mode st in Some (st, SRCreate r)
  | SDrop name => let '(st, b) := drop_table name st in Some (st, SRBool b)
  | SUpsert name batch => '(st, r) ← upsert name batch st; Some (st, SRCount r)
  | SUpsertRebuild name batch => '(st, r) ← upsert_and_rebuild name batch st; Some (st, SRCount r)
  | SDelete name key => '(st, b) ← delete_row name key st; Some (st, SRBool b)
  | SLookup name key => '(st, r) ← lookup_row name key st; Some (st, SRLookup r)
  | SRebuild name => Some (rebuild_xor_filter name st, SRNothing)
  | SSetReady name ready => Some (set_ready name ready st, SRNothing)
  | SSetConnector name connector => Some (set_connector name connector st, SRNothing)
  end.
Fixpoint store_run (ops : list StoreOp) (st : Store) : option (Store * list StoreResult) :=
  match ops with
  | [] => Some (st, [])
  | op :: ops => '(st, r) ← store_step op st; '(st, rs) ← store_run ops st; Some (st, r :: rs)
  end.

(** The key and the row of line [i] of a batch. *)
Definition pk_key (batch : B) (pk i : nat) : string :=
  default EmptyString (col ← column batch pk; extract_pk_string col i).
Definition put_rows (batch : B) (pk : nat) (lines : list nat) (rows : gmap string B) : gmap string B :=
  foldl (λ rows i, <[pk_key batch pk i := slice_row batch i]> rows) rows lines.

Definition spec_put (batch : B) (t : TableSpec) : TableSpec :=
  mkTableSpec (at_schema t) (at_pk t) (at_mode t) (put_rows batch (at_pk t) (seq 0 (num_rows batch)) (at_rows t))
    (at_filter t).
Definition spec_remove (key : string) (t : TableSpec) : TableSpec :=
  mkTableSpec (at_schema t) (at_pk t) (at_mode t) (delete key (at_rows t)) (at_filter t).
(** An empty filter is no filter. *)
Definition spec_rebuild (t : TableSpec) : TableSpec :=
  mkTableSpec (at_schema t) (at_pk t) (at_mode t) (at_rows t)
    (if decide (at_rows t = ∅) then None else Some (dom (at_rows t))).

Definition is_partial (m : TableCacheMode) : bool := match m with CachePartial _ => true | _ => false end.
(** A key the filter may refuse: it was not there when the filter was built. *)
Definition filtered (key : string) (t : TableSpec) : Prop :=
  is_partial (at_mode t) = true ∧ ∃ keys, at_filter t = Some keys ∧ key ∉ keys.

Definition spec_table_step (op : StoreOp) (a : Spec) : Spec :=
  match op with
  | SCreate name schema pk mode =>
      match a !! name, schema_index_of schema pk with
      | None, Some i => <[name := mkTableSpec schema i mode ∅ None]> a
      | _, _ => a
      end
  | SDrop name => delete name a
  | SUpsert name batch => alter (spec_put batch) name a
  | SUpsertRebuild name batch => alter (λ t, spec_rebuild (spec_put batch t)) name a
  | SDelete name key => alter (spec_remove key) name a
  | SRebuild name => alter spec_rebuild name a
  | SLookup _ _ | SSetReady _ _ | SSetConnector _ _ => a
  end.

(** The results an operation may have. *)
Definition spec_result (op : StoreOp) (a : Spec) (r : StoreResult) : Prop :=
  match op with
  | SCreate name schema pk mode =>
      match a !! name, schema_index_of schema pk with
      | None, Some i => r = SRCreate (inl tt)
      | None, None => ∃ m, r = SRCreate (inr (InvalidOperation m))
      | Some _, _ => r = SRCreate (inr (TableAlreadyExists name))
      end
  | SDrop name => r = SRBool (bool_decide (is_Some (a !! name)))
  | SUpsert name batch | SUpsertRebuild name batch =>
      r = SRCount (if decide (is_Some (a !! name)) then inl (num_rows batch) else inr (TableNotFound name))
  | SDelete name key => r = SRBool (bool_decide (is_Some (t ← a !! name; at_rows t !! key)))
  | SLookup name key =>
      r = SRLookup (t ← a !! name; at_rows t !! key) ∨
      r = SRLookup None ∧ ∃ t, a !! name = Some t ∧ filtered key t
  | SRebuild _ | SSetReady _ _ | SSetConnector _ _ => r = SRNothing
  end.

Fixpoint spec_explains (ops : list StoreOp) (rs : list StoreResult) (a a' : Spec) : Prop :=
  match ops, rs with
  | [], [] => a' = a
  | op :: ops, r :: rs => spec_result op a r ∧ spec_explains ops rs (spec_table_step op a) a'
  | _, _ => False
  end.

(** *** The invariant *)

Definition cache_coherent (max : Z) (lru : TableLruCache) (rows : gmap string B) : Prop :=
  ∃ a, lru_abs max lru a ∧ Forall (λ kv, rows !! kv.1 = Some kv.2) (sp_entries a).
Definition filter_built (keys : option (gset string)) (f : TableXorFilter) : Prop :=
  xf_hash_fn f = hash_key ∧
  match keys with
  | None => xf_filter f = None
  | Some keys => ∃ l, xf_filter f = Some (xor8_from (hash_key <$> l)) ∧ ∀ k, k ∈ keys → k ∈ l
  end.

Record table_ok (t : Table) (a : TableSpec) : Prop := {
  to_schema : tb_schema t = at_schema a;
  to_pk : tb_pk_index t = at_pk a;
  to_mode : tb_cache_mode t = at_mode a;
  to_rows : tb_backend t = InMemory (at_rows a);
  to_count : tb_row_count t = size (at_rows a);
  to_cache : match at_mode a with
             | CachePartial max => ∃ lru, tb_lru_cache t = Some lru ∧ cache_coherent max lru (at_rows a)
             | _ => tb_lru_cache t = None
             end;
  to_filter : filter_built (at_filter a) (tb_xor_filter t) }.

Definition store_ok (st : Store) (a : Spec) : Prop :=
  ∀ name, option_Forall2 table_ok (st !! name) (a !! name).

(** *** The cache under the operations *)

Lemma invalidate_coherent max lru rows rows' key :
  cache_coherent max lru rows → (∀ k, k ≠ key → rows' !! k = rows !! k) →
  ∃ lru' b, lru_invalidate key lru = Some (lru', b) ∧ cache_coherent max lru' rows'.
Proof.
  intros (a & Ha & Hc) Hrows. destruct (lru_invalidate_abs max key lru a Ha) as (lru' & E & Ha').
  eexists _, _. split; [exact E|]. eexists. split; [exact Ha'|]. cbn. unfold without. rewrite Forall_forall in *.
  intros kv [Hk Hin]%list_elem_of_filter. rewrite Hrows by done. by apply Hc.
Qed.

Lemma get_coherent max lru rows key : cache_coherent max lru rows →
  ∃ lru' r, lru_get key lru = Some (lru', r) ∧ cache_coherent max lru' rows ∧ (∀ v, r = Some v → rows !! key = Some v).
Proof.
  intros (a & Ha & Hc). destruct (lru_get_abs max key lru a Ha) as (lru' & E & Ha').
  eexists _, _. split; [exact E|]. unfold spec_get in *. rewrite Forall_forall in Hc.
  destruct (assoc key (sp_entries a)) as [v|] eqn:Ea.
  - unfold assoc in Ea. apply elem_of_list_to_map_2 in Ea. pose proof (Hc _ Ea) as Hv. cbn in Hv. split; [|by intros ? [= <-]].
    eexists. split; [exact Ha'|]. cbn. rewrite Forall_forall. intros kv [->|Hin]%elem_of_cons; [done|].
    apply list_elem_of_filter in Hin as [_ Hin]. by apply Hc.
  - split; [|done]. eexists. split; [exact Ha'|]. cbn. by rewrite Forall_forall.
Qed.

Lemma removelast_incl {A} (l : list A) x : x ∈ removelast l → x ∈ l.
Proof.
  destruct l as [|y l _] using rev_ind; [done|]. rewrite removelast_last. intros Hx. apply elem_of_app. by left.
Qed.

Lemma insert_coherent max lru rows key batch : cache_coherent max lru rows → rows !! key = Some batch →
  ∃ lru' r, lru_insert key batch lru = Some (lru', r) ∧ cache_coherent max lru' rows.
Proof.
  intros (a & Ha & Hc) Hk. destruct (lru_insert_abs max key batch lru a Ha) as (lru' & E & Ha').
  eexists _, _. split; [exact E|]. eexists. split; [exact Ha'|]. rewrite Forall_forall in *. unfold spec_insert.
  assert (Hcons : ∀ l, (∀ kv, kv ∈ l → kv ∈ sp_entries a) → ∀ kv, kv ∈ (key, batch) :: l → rows !! kv.1 = Some kv.2).
  { intros l Hl kv [->|Hin]%elem_of_cons; [done|]. by apply Hc, Hl. }
  destruct (assoc key (sp_entries a)) as [v|]; [|destruct (if _ : bool then _ else _)]; cbn; apply Hcons; try done.
  - intros kv [_ Hin]%list_elem_of_filter. done.
  - intros kv. apply removelast_incl.
Qed.

(** No false negatives. *)
Lemma contains_built keys f key : filter_built keys f →
  ∃ f' b, xor_contains key f = (f', b) ∧ filter_built keys f' ∧
    (b = false → ∃ ks, keys = Some ks ∧ key ∉ ks).
Proof.
  intros [Hh Hf]. unfold xor_contains. destruct keys as [keys|].
  - destruct Hf as (l & Hf & Hl). rewrite Hf, Hh. destruct (xor8_contains _ _) eqn:E; eexists _, _; split; try done.
    + split; [|done]. split; [done|]. by exists l.
    + split; [split; [done|by exists l]|]. intros _. exists keys. split; [done|]. intros Hk%Hl.
      rewrite xor8_no_false_negatives in E; [done|]. by apply list_elem_of_fmap_2.
  - rewrite Hf. by eexists _, _.
Qed.

(** *** The operations on a table *)

Definition with_rows (rows : gmap string B) (a : TableSpec) : TableSpec :=
  mkTableSpec (at_schema a) (at_pk a) (at_mode a) rows (at_filter a).

(** Rows that change at one key, once the cached row of that key is gone. *)
Lemma invalidate_table t a key rows' : table_ok t a → (∀ k, k ≠ key → rows' !! k = at_rows a !! k) →
  ∃ lru, invalidate_cached key (tb_lru_cache t) = Some lru ∧
    table_ok (tb_with (InMemory rows') (size rows') lru (tb_xor_filter t) t) (with_rows rows' a).
Proof.
  intros [Hs Hp Hm Hr Hc Hl Hf] Hrows. unfold invalidate_cached. destruct (at_mode a) as [|max|] eqn:Em.
  - rewrite Hl. eexists. split; [done|]. split; try done; cbn; by rewrite Em.
  - destruct Hl as (lru & -> & Hcoh). destruct (invalidate_coherent max lru _ rows' key Hcoh Hrows) as (lru' & b & -> & Hcoh').
    eexists. split; [done|]. split; try done; cbn; rewrite Em; [done|]. by exists lru'.
  - rewrite Hl. eexists. split; [done|]. split; try done; cbn; by rewrite Em.
Qed.

Lemma upsert_row_ok batch col i key t a : table_ok t a → extract_pk_string col i = Some key →
  ∃ t', upsert_row batch col i t = Some (t', inl tt) ∧
    table_ok t' (with_rows (<[key := slice_row batch i]> (at_rows a)) a).
Proof.
  intros Ht Hkey. destruct (invalidate_table t a key (<[key := slice_row batch i]> (at_rows a)) Ht) as (lru & E & Ht').
  { intros k Hk. by rewrite lookup_insert_ne. }
  unfold upsert_row. rewrite Hkey. cbn [mbind option_bind]. rewrite E. cbn [mbind option_bind].
  rewrite (to_rows _ _ Ht). cbn [backend_put]. eexists. split; [done|].
  replace (if bool_decide _ then _ else _) with (size (<[key := slice_row batch i]> (at_rows a))); [exact Ht'|].
  rewrite (to_count _ _ Ht). case_bool_decide as Hin.
  - by rewrite map_size_insert_Some.
  - rewrite map_size_insert_None; [lia|]. by apply eq_None_not_Some.
Qed.

Lemma upsert_rows_ok batch pk col lines : column batch pk = Some col → (∀ i, i ∈ lines → is_Some (col !! i)) →
  ∀ t a, table_ok t a → at_pk a = pk →
  ∃ t', upsert_rows batch col lines t = Some (t', inl tt) ∧ table_ok t' (with_rows (put_rows batch pk lines (at_rows a)) a).
Proof.
  intros Hcol. induction lines as [|i lines IH]; intros Hin t a Ht Hpk; cbn [upsert_rows put_rows foldl].
  { exists t. split; [done|]. by destruct a, Ht. }
  destruct (Hin i ltac:(left)) as [cell Hcell]. destruct (extract_pk_string col i) as [key|] eqn:Ek.
  2:{ unfold extract_pk_string in Ek. by rewrite Hcell in Ek. }
  destruct (upsert_row_ok batch col i key t a Ht Ek) as (t1 & -> & Ht1). cbn [mbind option_bind].
  destruct (IH ltac:(intros j Hj; apply Hin; by right) t1 _ Ht1) as (t2 & E & Ht2); [done|].
  exists t2. split; [exact E|]. assert (Hkey : pk_key batch pk i = key) by (unfold pk_key; rewrite Hcol; cbn [mbind option_bind]; by rewrite Ek).
  rewrite Hkey. exact Ht2.
Qed.

(** A batch can be stored: its key column covers its rows. *)
Definition storable (batch : B) (pk : nat) : Prop :=
  ∃ col, column batch pk = Some col ∧ (num_rows batch <= length col)%nat.

Lemma store_ok_insert st a name t t' : store_ok st a → table_ok t t' → store_ok (<[name := t]> st) (<[name := t']> a).
Proof.
  intros Hst Ht n. destruct (decide (n = name)) as [->|Hne]; [rewrite !lookup_insert_eq; by constructor|].
  by rewrite !lookup_insert_ne.
Qed.

Lemma store_ok_alter st a name f g : store_ok st a → (∀ t t', table_ok t t' → table_ok (f t) (g t')) →
  store_ok (alter f name st) (alter g name a).
Proof.
  intros Hst Hf n. destruct (decide (n = name)) as [->|Hne].
  - rewrite !lookup_alter_eq. destruct (Hst name); constructor. by apply Hf.
  - by rewrite !lookup_alter_ne.
Qed.

Lemma store_ok_insert_alter st a name t t' g : store_ok st a → a !! name = Some t' → table_ok t (g t') →
  store_ok (<[name := t]> st) (alter g name a).
Proof.
  intros Hst Ha Ht n. destruct (decide (n = name)) as [->|Hne].
  - rewrite lookup_insert_eq, lookup_alter_eq, Ha. by constructor.
  - rewrite lookup_insert_ne, lookup_alter_ne by done. apply Hst.
Qed.

Lemma alter_absent {A} (f : A → A) name (m : gmap string A) : m !! name = None → alter f name m = m.
Proof.
  intros Hn. apply map_eq. intros k. destruct (decide (k = name)) as [->|?];
    [by rewrite lookup_alter_eq, Hn|by rewrite lookup_alter_ne].
Qed.

Lemma upsert_ok name batch st a : store_ok st a →
  (∀ t, a !! name = Some t → storable batch (at_pk t)) →
  ∃ st', upsert name batch st = Some (st', if decide (is_Some (a !! name)) then inl (num_rows batch) else inr (TableNotFound name)) ∧
    store_ok st' (alter (spec_put batch) name a).
Proof.
  intros Hst Hb. unfold upsert. pose proof (Hst name) as Hn. destruct (a !! name) as [t'|] eqn:Ea.
  - inversion Hn as [t t0 Ht Et Et'|]; subst. clear Hn. destruct (Hb t' eq_refl) as (col & Hcol & Hlen).
    rewrite (to_pk _ _ Ht), Hcol. cbn [mbind option_bind].
    destruct (upsert_rows_ok batch (at_pk t') col (seq 0 (num_rows batch)) Hcol) with (t := t) (a := t') as (t1 & -> & Ht1); try done.
    { intros i Hi%elem_of_seq. apply lookup_lt_is_Some. lia. }
    cbn [mbind option_bind]. rewrite decide_True by done. eexists. split; [done|].
    by eapply store_ok_insert_alter.
  - inversion Hn; subst. rewrite decide_False by (by intros [? ?]). eexists. split; [done|]. by rewrite alter_absent.
Qed.

Lemma rebuild_table t a : table_ok t a →
  table_ok (tb_with (tb_backend t) (tb_row_count t) (tb_lru_cache t)
    (xor_rebuild (match backend_keys (tb_backend t) with inl keys => keys | inr _ => [] end) (tb_xor_filter t)) t)
    (spec_rebuild a).
Proof.
  intros [Hs Hp Hm Hr Hc Hl [Hh Hf]]. split; try done. cbn. rewrite Hr. cbn [backend_keys].
  assert (Hkeys : (hash_iter (at_rows a)).*1 ≡ₚ (map_to_list (at_rows a)).*1) by by rewrite hash_iter_perm.
  case_decide as He.
  - rewrite He, map_to_list_empty in Hkeys. symmetry in Hkeys. apply Permutation_nil in Hkeys. rewrite He, Hkeys. done.
  - destruct ((hash_iter (at_rows a)).*1) as [|k keys] eqn:Ek.
    + exfalso. apply He. apply map_to_list_empty_iff. apply Permutation_nil in Hkeys.
      apply (f_equal length) in Hkeys. rewrite length_fmap in Hkeys. by apply nil_length_inv.
    + split; [done|]. exists (k :: keys). cbn [xor_rebuild xf_filter]. rewrite Hh. split; [done|].
      intros k' Hk'. rewrite Hkeys. apply elem_of_dom in Hk' as [v Hv]. apply elem_of_map_to_list in Hv.
      exact (list_elem_of_fmap_2 fst _ _ Hv).
Qed.

Lemma rebuild_ok name st a : store_ok st a → store_ok (rebuild_xor_filter name st) (alter spec_rebuild name a).
Proof. intros Hst. apply store_ok_alter; [done|]. apply rebuild_table. Qed.

Lemma delete_ok name key st a : store_ok st a →
  ∃ st', delete_row name key st = Some (st', bool_decide (is_Some (t ← a !! name; at_rows t !! key))) ∧
    store_ok st' (alter (spec_remove key) name a).
Proof.
  intros Hst. unfold delete_row. pose proof (Hst name) as Hn. destruct (a !! name) as [t'|] eqn:Ea.
  - inversion Hn as [t t0 Ht Et Et'|]; subst. clear Hn.
    destruct (invalidate_table t t' key (delete key (at_rows t')) Ht) as (lru & -> & Ht').
    { intros k Hk. by rewrite lookup_delete_ne. }
    cbn [mbind option_bind]. rewrite (to_rows _ _ Ht). cbn [backend_remove]. case_bool_decide as Hin; eexists; (split; [done|]).
    + eapply store_ok_insert_alter; [done|exact Ea|]. rewrite (to_count _ _ Ht).
      rewrite Nat.sub_1_r, <- (map_size_delete_Some key (at_rows t')) by done. exact Ht'.
    + eapply store_ok_insert_alter; [done|exact Ea|]. rewrite (to_count _ _ Ht).
      apply eq_None_not_Some in Hin. rewrite <- (map_size_delete_None key (at_rows t')) by done. exact Ht'.
  - inversion Hn; subst. eexists. split; [done|]. by rewrite alter_absent.
Qed.
Lemma lookup_ok name key st a : store_ok st a →
  ∃ st' r, lookup_row name key st = Some (st', r) ∧ store_ok st' a ∧
    (r = (t ← a !! name; at_rows t !! key) ∨ r = None ∧ ∃ t, a !! name = Some t ∧ filtered key t).
Proof.
  intros Hst. unfold lookup_row. pose proof (Hst name) as Hn. destruct (a !! name) as [t'|] eqn:Ea.
  2:{ inversion Hn; subst. eexists _, _. split; [done|]. split; [done|]. by left. }
  inversion Hn as [t t0 Ht Et Et'|]; subst. clear Hn. pose proof Ht as [Hs Hp Hm Hr Hc Hl Hf].
  cbn [mbind option_bind]. rewrite Hm. destruct (at_mode t') as [|max|] eqn:Em.
  1,3: rewrite Hr; eexists _, _; split; [done|]; split; [done|]; by left.
  destruct Hl as (lru & Hlru & Hcoh). unfold lookup_partial.
  destruct (contains_built (at_filter t') (tb_xor_filter t) key Hf) as (f' & b & -> & Hf' & Hb).
  assert (Hput : ∀ lru', cache_coherent max lru' (at_rows t') →
    store_ok (<[name := tb_with (tb_backend t) (tb_row_count t) (Some lru') f' t]> st) a).
  { intros lru' Hcoh'. rewrite <- (insert_id a name t' Ea). apply store_ok_insert; [done|].
    split; try done; cbn; rewrite Em; [done|]. by exists lru'. }
  destruct b; cbn [negb].
  2:{ cbn [mbind option_bind]. rewrite Hlru. eexists _, _. split; [done|]. split; [by apply Hput|]. right. split; [done|].
      exists t'. split; [done|]. split; [by rewrite Em|]. by apply Hb. }
  cbn [tb_lru_cache tb_with]. rewrite Hlru.
  destruct (get_coherent max lru (at_rows t') key Hcoh) as (lru1 & r & -> & Hcoh1 & Hval).
  cbn [mbind option_bind tb_with tb_backend tb_row_count tb_lru_cache tb_xor_filter]. rewrite Hr in *.
  destruct r as [v|].
  - rewrite (Hval v eq_refl). eexists _, _. split; [done|]. split; [|by left]. by apply Hput.
  - cbn [backend_get ok_flatten]. destruct (at_rows t' !! key) as [batch|] eqn:Ek.
    + destruct (insert_coherent max lru1 (at_rows t') key batch Hcoh1 Ek) as (lru2 & r2 & -> & Hcoh2).
      cbn [mbind option_bind]. eexists _, _. split; [done|]. split; [|by left]. by apply Hput.
    + eexists _, _. split; [done|]. split; [|by left]. by apply Hput.
Qed.

(** The operations that were given can be carried out: a partial cache has a capacity
    of type [usize], a batch for a table has the key column of that table. *)
Definition op_fits (a : Spec) (op : StoreOp) : Prop :=
  match op with
  | SCreate _ _ _ (CachePartial max) => is_u64 max
  | SUpsert name batch | SUpsertRebuild name batch => ∀ t, a !! name = Some t → storable batch (at_pk t)
  | _ => True
  end.
Fixpoint ops_fit (ops : list StoreOp) (a : Spec) : Prop :=
  match ops with
  | [] => True
  | op :: ops => op_fits a op ∧ ops_fit ops (spec_table_step op a)
  end.

Lemma alter_twice {A} (f g : A → A) name (m : gmap string A) : alter (λ x, f (g x)) name m = alter f name (alter g name m).
Proof.
  apply map_eq. intros k. destruct (decide (k = name)) as [->|?].
  - rewrite !lookup_alter_eq. by destruct (m !! name).
  - by rewrite !lookup_alter_ne.
Qed.

Lemma create_ok name schema pk mode st a : store_ok st a → op_fits a (SCreate name schema pk mode) →
  ∃ st' r, create_table_with_cache name schema pk mode st = (st', r) ∧
    store_ok st' (spec_table_step (SCreate name schema pk mode) a) ∧
    spec_result (SCreate name schema pk mode) a (SRCreate r).
Proof.
  intros Hst Hfit. unfold create_table_with_cache. cbn [spec_table_step spec_result]. pose proof (Hst name) as Hn.
  destruct (a !! name) as [t'|] eqn:Ea.
  - inversion Hn; subst. by eexists _, _.
  - inversion Hn as [|Hn1 Hn2]. rewrite bool_decide_eq_false_2 by (by intros [? ?]).
    destruct (schema_index_of schema pk) as [i|]; eexists _, _; (split; [done|]); (split; [|by eauto]); [|done].
    apply store_ok_insert; [done|]. split; try done; cbn; destruct mode as [|max|]; try done.
    exists (TableLruCache_new max). split; [done|]. exists (mkLruSpec [] 0 0 0). split; [|by constructor].
    by apply lru_new_abs.
Qed.

Lemma flags_ok st a name f : store_ok st a →
  (∀ t, f t = tb_with_flags (tb_ready (f t)) (tb_connector (f t)) t) → store_ok (alter f name st) a.
Proof.
  intros Hst Hf n. pose proof (Hst n) as Hn. destruct (decide (n = name)) as [->|Hne]; [|by rewrite lookup_alter_ne].
  rewrite lookup_alter_eq. inversion Hn as [t t' Ht|]; cbn; constructor. rewrite Hf. destruct Ht. by split.
Qed.

Lemma store_step_ok op st a : store_ok st a → op_fits a op →
  ∃ st' r, store_step op st = Some (st', r) ∧ store_ok st' (spec_table_step op a) ∧ spec_result op a r.
Proof.
  intros Hst Hfit. destruct op as [name schema pk mode|name|name batch|name batch|name key|name key|name|name ready|name connector];
    cbn [store_step].
  - destruct (create_ok name schema pk mode st a Hst Hfit) as (st' & r & -> & Hst' & Hr). by eexists _, _.
  - eexists _, _. split; [done|]. cbn [spec_table_step spec_result]. split.
    + intros n. destruct (decide (n = name)) as [->|Hne]; [rewrite !lookup_delete_eq; constructor|by rewrite !lookup_delete_ne].
    + f_equal. apply bool_decide_ext. destruct (Hst name); [split; by eauto|by split; intros [? ?]].
  - destruct (upsert_ok name batch st a Hst Hfit) as (st' & -> & Hst'). by eexists _, _.
  - destruct (upsert_ok name batch st a Hst Hfit) as (st' & E & Hst'). unfold upsert_and_rebuild. rewrite E.
    cbn [mbind option_bind spec_table_step spec_result]. case_decide as Hin; eexists _, _; (split; [done|]); (split; [|done]).
    + rewrite (alter_twice spec_rebuild (spec_put batch)). by apply rebuild_ok.
    + apply eq_None_not_Some in Hin. rewrite alter_absent in Hst' by done. by rewrite alter_absent.
  - destruct (delete_ok name key st a Hst) as (st' & -> & Hst'). by eexists _, _.
  - destruct (lookup_ok name key st a Hst) as (st' & r & -> & Hst' & Hr). eexists _, _. split; [done|]. split; [done|].
    cbn. destruct Hr as [->|[-> ?]]; [by left|by right].
  - eexists _, _. split; [done|]. split; [by apply rebuild_ok|done].
  - eexists _, _. split; [done|]. split; [|done]. by apply flags_ok.
  - eexists _, _. split; [done|]. split; [|done]. by apply flags_ok.
Qed.

Lemma store_run_ok ops : ∀ st a, store_ok st a → ops_fit ops a →
  ∃ st' rs a', store_run ops st = Some (st', rs) ∧ spec_explains ops rs a a' ∧ store_ok st' a'.
Proof.
  induction ops as [|op ops IH]; intros st a Hst Hfit; cbn [store_run]; [by exists st, [], a|].
  destruct Hfit as [Hop Hfit]. destruct (store_step_ok op st a Hst Hop) as (st1 & r & -> & Hst1 & Hr).
  destruct (IH st1 _ Hst1 Hfit) as (st2 & rs & a' & E & Hex & Hst2). cbn [mbind option_bind]. rewrite E.
  by exists st2, (r :: rs), a'.
Qed.

(** [C13]: A reference table is read as it was written, whatever its cache mode. For
    any sequence of operations whose batches have the key columns of their tables
    the store never panics and every result is the one of the plain map of rows:
    uploads overwrite by key and count their rows, deletions report presence,
    errors are a missing table, a table that exists, a missing key column. A lookup
    returns exactly the row last stored, through the LRU cache, its evictions and
    its invalidations; only a key that was stored after the filter was last built
    may be reported absent. Row counts are exact. *)
Theorem table_store_exact ops : ops_fit ops ∅ →
  ∃ st rs a, store_run ops ∅ = Some (st, rs) ∧ spec_explains ops rs ∅ a ∧
    (∀ name, has_table name st = bool_decide (is_Some (a !! name)) ∧
       table_schema name st = at_schema <$> a !! name ∧
       table_row_count name st = match a !! name with Some t => size (at_rows t) | None => 0%nat end).
Proof.
  intros Hfit. destruct (store_run_ok ops ∅ ∅) as (st & rs & a & E & Hex & Hst); [intros n; rewrite !lookup_empty; constructor|done|].
  exists st, rs, a. split; [exact E|]. split; [exact Hex|]. intros name. unfold has_table, table_schema, table_row_count.
  destruct (Hst name) as [t t' Ht|]; [|done]. rewrite !bool_decide_eq_true_2 by eauto. cbn.
  split_and!; [done| |apply Ht]. by rewrite (to_schema _ _ Ht).
Qed.

(** *** A stale filter *)

Lemma upsert_rows_keeps batch col lines : ∀ (t : Table) t' res, upsert_rows batch col lines t = Some (t', res) →
  tb_cache_mode t' = tb_cache_mode t ∧ tb_xor_filter t' = tb_xor_filter t.
Proof.
  induction lines as [|i lines IH]; intros t t' res; cbn [upsert_rows]; [by intros [= <- <-]|].
  unfold upsert_row. destruct (extract_pk_string col i) as [key|]; cbn [mbind option_bind]; [|done].
  destruct (invalidate_cached key (tb_lru_cache t)) as [lru|]; cbn [mbind option_bind]; [|done].
  destruct (backend_put key (slice_row batch i) (tb_backend t)) as [backend [existed|e]]; cbn [mbind option_bind].
  - intros [? ?]%IH. done.
  - intros [= <- <-]. done.
Qed.

(** A row that is stored without rebuilding the filter can be invisible. If the
    filter of a table in the partial mode refuses a key, then after any further
    [upsert], also one that stores a row under that key, a lookup of the key still
    finds nothing. *)
Theorem stale_filter_hides_row name key batch (st st' : Store) t max f n :
  st !! name = Some t → tb_cache_mode t = CachePartial max →
  xf_filter (tb_xor_filter t) = Some f → xor8_contains f (xf_hash_fn (tb_xor_filter t) key) = false →
  upsert name batch st = Some (st', inl n) → ∃ st'', lookup_row name key st' = Some (st'', None).
Proof.
  intros Ht Hm Hf Hc. unfold upsert. rewrite Ht. destruct (column batch (tb_pk_index t)) as [col|]; cbn [mbind option_bind]; [|done].
  destruct (upsert_rows batch col _ t) as [[t1 res]|] eqn:E; cbn [mbind option_bind]; [|done].
  intros [= <- _]. apply upsert_rows_keeps in E as [Em Ex]. unfold lookup_row. rewrite lookup_insert_eq, Em, Hm.
  unfold lookup_partial, xor_contains. rewrite Ex, Hf, Hc. cbn [negb mbind option_bind]. by eexists.
Qed.
End TableSpec.

(** ** Examples *)

(** Batches of two columns of integers, and an exact filter. *)
#[global] Instance pair_batch : TableBatch (list (Z * Z)) (list string) := {
  schema_index_of := λ schema name, fst <$> list_find (λ c, c = name) schema;
  column := λ b i, match i with 0%nat => Some (PkInt32 <$> b.*1) | 1%nat => Some (PkInt64 <$> b.*2) | _ => None end;
  num_rows := length;
  slice_row := λ b i, take 1 (drop i b);
  new_empty := λ _, [];
  concat_batches := λ _ bs, inl (concat bs) }.
#[global] Instance exact_filter : XorFilter := {
  Xor8 := list Z;
  xor8_from := λ hashes, hashes;
  xor8_contains := λ f h, bool_decide (h ∈ f);
  hash_key := λ s, from_be (string_bytes s) }.
#[global] Instance exact_filter_laws : XorFilterLaws.
Proof. intros hashes h Hh. by apply bool_decide_eq_true_2. Qed.

Definition price_ops : list (StoreOp (B:=list (Z * Z)) (S:=list string)) :=
  [SCreate "prices" ["id"; "price"] "id" (CachePartial 1); SUpsertRebuild "prices" [(1, 10); (2, 20)];
   SLookup "prices" "1"; SLookup "prices" "2"; SUpsertRebuild "prices" [(2, 25); (3, 30)]; SLookup "prices" "2";
   SDelete "prices" "1"; SLookup "prices" "1"; SUpsert "prices" [(4, 40)]; SLookup "prices" "4"].

Lemma price_ops_fit : ops_fit price_ops ∅.
Proof.
  assert (Hst : ∀ b : list (Z * Z), storable b 0).
  { intros b. exists (PkInt32 <$> b.*1). split; [done|]. by rewrite !length_fmap. }
  unfold price_ops. repeat split; cbn; try (unfold is_u64; lia); intros t [= <-]; apply Hst.
Qed.

Lemma table_store_exact_witness :
  ops_fit price_ops ∅ ∧ ∃ st rs a, store_run price_ops ∅ = Some (st, rs) ∧ spec_explains price_ops rs ∅ a ∧
    rs = [SRCreate (inl tt); SRCount (inl 2%nat); SRLookup (Some [(1, 10)]); SRLookup (Some [(2, 20)]); SRCount (inl 2%nat);
          SRLookup (Some [(2, 25)]); SRBool true; SRLookup None; SRCount (inl 1%nat); SRLookup None] ∧
    table_row_count "prices" st = 3%nat.
Proof.
  split; [exact price_ops_fit|]. destruct (table_store_exact price_ops price_ops_fit) as (st & rs & a & E & Hex & _).
  exists st, rs, a. split; [exact E|]. split; [exact Hex|].
  assert (Hc : (λ x, (x.2, table_row_count "prices" x.1)) <$> store_run price_ops ∅ = Some
    ([SRCreate (inl tt); SRCount (inl 2%nat); SRLookup (Some [(1, 10)]); SRLookup (Some [(2, 20)]); SRCount (inl 2%nat);
      SRLookup (Some [(2, 25)]); SRBool true; SRLookup None; SRCount (inl 1%nat); SRLookup None], 3%nat)) by (vm_compute; reflexivity).
  rewrite E in Hc. injection Hc as H1 H2. split; [exact H1|exact H2].
Defined.
