(* ===== verification/Wal.v ===== *)
(** * The write-ahead log (crates/laminar-storage/src/wal.rs)

    Files and Rust's [BufWriter] as far as the log uses them, the record framing
    ([length][crc32c][data]), [WriteAheadLog] (new, append, sync, truncate,
    repair) and [WalReader].

    Outside the model: rkyv is the class [Archive], the crate crc32c the function
    [crc32c] with the one fact that it returns a [u32]. A file is its contents
    together with the number of leading bytes known to be on disk ([f_durable]);
    calls to the operating system succeed. A crash leaves some prefix of the bytes
    handed to the writer that contains the durable ones. *)

From stdpp Require Import pretty.
From S2P Require Import Prelude StateStore.

(** ** Files and buffered writers *)

Abbreviation u32_MAX := 4294967295%Z.
Definition is_u32 (z : Z) : Prop := 0 <= z <= u32_MAX.

Record File := mkFile { f_data : bytes; f_durable : nat }.

(** A write to a file opened with [append(true)]. *)
Definition file_write (f : File) (b : bytes) : File := mkFile (f_data f ++ b) (f_durable f).
(** [sync_data] and [sync_all]. *)
Definition file_sync (f : File) : File := mkFile (f_data f) (length (f_data f)).
(** [File::set_len]: cut, or extend with zeros. Nothing past the new length, or
    written by the extension, is durable. *)
Definition file_set_len (f : File) (n : nat) : File :=
  mkFile (take n (f_data f) ++ replicate (n - length (f_data f)) 0) (Nat.min n (f_durable f)).

Record BufWriter := mkBufWriter { bw_capacity : Z; bw_buf : bytes; bw_inner : File }.

Definition BufWriter_with_capacity (c : Z) (f : File) : BufWriter := mkBufWriter c [] f.
(** [DEFAULT_BUF_SIZE] is 8 KiB. *)
Definition BufWriter_new (f : File) : BufWriter := BufWriter_with_capacity 8192 f.
Definition BufWriter_flush (w : BufWriter) : BufWriter :=
  mkBufWriter (bw_capacity w) [] (file_write (bw_inner w) (bw_buf w)).
Definition BufWriter_push (w : BufWriter) (b : bytes) : BufWriter :=
  mkBufWriter (bw_capacity w) (bw_buf w ++ b) (bw_inner w).
Definition BufWriter_write_all (w : BufWriter) (b : bytes) : BufWriter :=
  let spare := bw_capacity w - zlen (bw_buf w) in
  if zlen b <? spare then BufWriter_push w b
  else
    let w := if spare <? zlen b then BufWriter_flush w else w in
    if bw_capacity w <=? zlen b
    then mkBufWriter (bw_capacity w) (bw_buf w) (file_write (bw_inner w) b)
    else BufWriter_push w b.

(** Everything written so far, buffered or not. *)
Definition bw_written (w : BufWriter) : bytes := f_data (bw_inner w) ++ bw_buf w.

(** [Read::read_exact]: the next [n] bytes and the rest, [None] at the end of the
    file. *)
Definition read_exact (n : nat) (rest : bytes) : option (bytes * bytes) :=
  if bool_decide (n <= length rest)%nat then Some (take n rest, drop n rest) else None.

(** ** Entries and errors *)

Inductive WalEntry :=
| WPut (key value : bytes)
| WDelete (key : bytes)
| WCheckpoint (id : Z)
| WCommit (offsets : gmap string Z) (watermark : option Z).

#[export] Instance WalEntry_eq_dec : EqDecision WalEntry.
Proof. solve_decision. Defined.
#[export] Instance WalEntry_countable : Countable WalEntry.
Proof.
  refine (inj_countable' (λ e, match e with
    | WPut k v => inl (inl (k, v))
    | WDelete k => inl (inr k)
    | WCheckpoint id => inr (inl id)
    | WCommit o w => inr (inr (o, w))
    end) (λ c, match c with
    | inl (inl (k, v)) => WPut k v
    | inl (inr k) => WDelete k
    | inr (inl id) => WCheckpoint id
    | inr (inr (o, w)) => WCommit o w
    end) _); by intros [].
Defined.

(** [std::io::Error]: only the end of a file can be met here. *)
Inductive IoError := UnexpectedEof (msg : string).

Inductive WalError :=
| WalIo (e : IoError)
| WalSerialization (e : string)
| WalDeserialization (e : string)
| WalCorrupted (position : Z) (reason : string)
| WalChecksumMismatch (position expected actual : Z)
| WalTornWrite (position : Z) (reason : string).

Inductive WalReadResult (E : Type) :=
| ReadEntry (e : E)
| ReadEof
| ReadTornWrite (position : Z) (reason : string)
| ReadChecksumMismatch (position expected actual : Z)
| ReadCorrupted (position : Z) (reason : string).
Arguments ReadEntry {E}. Arguments ReadEof {E}. Arguments ReadTornWrite {E}.
Arguments ReadChecksumMismatch {E}. Arguments ReadCorrupted {E}.

Definition RECORD_HEADER_SIZE : Z := 8.
Definition MAX_WAL_ENTRY_SIZE : Z := 256 * 1024 * 1024.

Definition incomplete_header (remaining : Z) : string :=
  ("incomplete header: only " ++ pretty remaining ++ " bytes remaining, need " ++
   pretty RECORD_HEADER_SIZE)%string.
Definition incomplete_data (remaining len : Z) : string :=
  ("incomplete data: only " ++ pretty remaining ++ " bytes remaining, need " ++ pretty len)%string.
Definition length_exceeds (len : Z) : string :=
  ("[LDB-6006] WAL entry length " ++ pretty len ++ " exceeds maximum " ++
   pretty MAX_WAL_ENTRY_SIZE ++ " bytes — likely corrupted")%string.

Definition eof_error : WalError := WalIo (UnexpectedEof "failed to fill whole buffer").

Section Log.
Context (crc32c : bytes → Z) `{!Archive WalEntry}.

Record WriteAheadLog := mkWal {
  wl_writer : BufWriter;
  wl_sync_interval : Duration;
  wl_last_sync : Instant;
  wl_position : Z;
  wl_sync_on_write : bool;
}.

(** Open (or create, [None]) the file. *)
Definition WriteAheadLog_new (now : Instant) (f : option File) (sync_interval : Duration)
    : WriteAheadLog :=
  let file := default (mkFile [] 0) f in
  mkWal (BufWriter_new file) sync_interval now (zlen (f_data file)) false.

Definition WriteAheadLog_set_sync_on_write (w : WriteAheadLog) (enabled : bool) : WriteAheadLog :=
  mkWal (wl_writer w) (wl_sync_interval w) (wl_last_sync w) (wl_position w) enabled.

Definition WriteAheadLog_sync (now : Instant) (w : WriteAheadLog) : WriteAheadLog :=
  let b := BufWriter_flush (wl_writer w) in
  mkWal (mkBufWriter (bw_capacity b) (bw_buf b) (file_sync (bw_inner b)))
    (wl_sync_interval w) now (wl_position w) (wl_sync_on_write w).

(** [now] is read to decide whether to sync, [now'] by the sync. *)
Definition WriteAheadLog_append (now now' : Instant) (w : WriteAheadLog) (entry : WalEntry)
    : WriteAheadLog * (Z + WalError) :=
  let start_pos := wl_position w in
  match to_bytes entry with
  | inr e => (w, inr (WalSerialization e))
  | inl data =>
      let crc := crc32c data in
      if u32_MAX <? zlen data then
        (w, inr (WalSerialization ("Entry too large: " ++ pretty (zlen data) ++ " bytes (max "
                                   ++ pretty u32_MAX ++ ")")%string))
      else
        let write_buffer := to_le 4 (zlen data) ++ to_le 4 crc ++ data in
        let w := mkWal (BufWriter_write_all (wl_writer w) write_buffer) (wl_sync_interval w)
                   (wl_last_sync w) (u64_add (wl_position w) (RECORD_HEADER_SIZE + zlen data))
                   (wl_sync_on_write w) in
        (if wl_sync_on_write w || (wl_sync_interval w <=? elapsed now (wl_last_sync w))
         then WriteAheadLog_sync now' w else w, inl start_pos)
  end.

Definition WriteAheadLog_truncate (now : Instant) (w : WriteAheadLog) (position : Z)
    : WriteAheadLog :=
  let w := WriteAheadLog_sync now w in
  let file := file_sync (file_set_len (bw_inner (wl_writer w)) (Z.to_nat position)) in
  mkWal (BufWriter_new file) (wl_sync_interval w) (wl_last_sync w) position (wl_sync_on_write w).

(** ** Reading *)

Record WalReader := mkWalReader {
  wr_rest : bytes;       (* the file from the reader's offset on *)
  wr_position : Z;
  wr_file_len : Z;
}.

Definition WriteAheadLog_read_from (w : WriteAheadLog) (position : Z) : WalReader :=
  let data := f_data (bw_inner (wl_writer w)) in
  mkWalReader (drop (Z.to_nat position) data) position (zlen data).

(** Check one record; on success its total size. *)
Definition validate_record (rest : bytes) (position file_len : Z) : bytes * (Z + WalError) :=
  let remaining := u64_sat_sub file_len position in
  if remaining <? RECORD_HEADER_SIZE then
    (rest, if remaining =? 0 then inr (WalIo (UnexpectedEof "end of file"))
           else inr (WalTornWrite position (incomplete_header remaining)))
  else
    match read_exact 4 rest with
    | None => (rest, inr eof_error)
    | Some (len_bytes, rest) =>
        let len := from_le len_bytes in
        match read_exact 4 rest with
        | None => (rest, inr eof_error)
        | Some (crc_bytes, rest) =>
            let expected_crc := from_le crc_bytes in
            if MAX_WAL_ENTRY_SIZE <? len then
              (rest, inr (WalCorrupted position (length_exceeds len)))
            else
              let data_remaining := remaining - RECORD_HEADER_SIZE in
              if data_remaining <? len then
                (rest, inr (WalTornWrite position (incomplete_data data_remaining len)))
              else
                match read_exact (Z.to_nat len) rest with
                | None => (rest, inr eof_error)
                | Some (data, rest) =>
                    let actual_crc := crc32c data in
                    if negb (actual_crc =? expected_crc) then
                      (rest, inr (WalChecksumMismatch position expected_crc actual_crc))
                    else (rest, inl (RECORD_HEADER_SIZE + len))
                end
        end
    end.

(** The loop of [repair]: the end of the last valid record, or the error that
    stops the repair. The fuel is one more than the length of the file; [None]
    when it runs out. *)
Fixpoint repair_loop (fuel : nat) (rest : bytes) (current_position valid_position file_len : Z)
    : option (Z + WalError) :=
  match fuel with
  | O => None
  | S fuel =>
      match validate_record rest current_position file_len with
      | (rest', inl record_len) =>
          let current_position := u64_add current_position record_len in
          repair_loop fuel rest' current_position current_position file_len
      | (_, inr (WalTornWrite _ _)) | (_, inr (WalChecksumMismatch _ _ _))
      | (_, inr (WalIo (UnexpectedEof _))) => Some (inl valid_position)
      | (_, inr e) => Some (inr e)
      end
  end.

Definition WriteAheadLog_repair (now now' : Instant) (w : WriteAheadLog)
    : option (WriteAheadLog * (Z + WalError)) :=
  let w := WriteAheadLog_sync now w in
  let data := f_data (bw_inner (wl_writer w)) in
  let file_len := zlen data in
  match repair_loop (S (length data)) data 0 0 file_len with
  | None => None
  | Some (inr e) => Some (w, inr e)
  | Some (inl valid_position) =>
      Some (if valid_position <? file_len then WriteAheadLog_truncate now' w valid_position else w,
            inl valid_position)
  end.

Definition WalReader_read_next (r : WalReader) : WalReader * (WalReadResult WalEntry + WalError) :=
  let remaining := u64_sat_sub (wr_file_len r) (wr_position r) in
  if remaining =? 0 then (r, inl ReadEof)
  else if remaining <? RECORD_HEADER_SIZE then
    (r, inl (ReadTornWrite (wr_position r) (incomplete_header remaining)))
  else
    let record_start := wr_position r in
    match read_exact 4 (wr_rest r) with
    | None => (r, inr eof_error)
    | Some (len_bytes, rest) =>
        let len := from_le len_bytes in
        let r := mkWalReader rest (u64_add (wr_position r) 4) (wr_file_len r) in
        match read_exact 4 (wr_rest r) with
        | None => (r, inr eof_error)
        | Some (crc_bytes, rest) =>
            let expected_crc := from_le crc_bytes in
            let r := mkWalReader rest (u64_add (wr_position r) 4) (wr_file_len r) in
            if MAX_WAL_ENTRY_SIZE <? len then
              (r, inl (ReadCorrupted record_start (length_exceeds len)))
            else
              let data_remaining := u64_sat_sub (wr_file_len r) (wr_position r) in
              if data_remaining <? len then
                (r, inl (ReadTornWrite record_start (incomplete_data data_remaining len)))
              else
                match read_exact (Z.to_nat len) (wr_rest r) with
                | None => (r, inr eof_error)
                | Some (data, rest) =>
                    let r := mkWalReader rest (u64_add (wr_position r) len) (wr_file_len r) in
                    let actual_crc := crc32c data in
                    if negb (actual_crc =? expected_crc) then
                      (r, inl (ReadChecksumMismatch record_start expected_crc actual_crc))
                    else
                      (r, match from_bytes data with
                          | inl entry => inl (ReadEntry entry)
                          | inr e => inr (WalDeserialization e)
                          end)
                end
        end
    end.

(** [Iterator::next]: [None] ends the iteration. *)
Definition WalReader_next (r : WalReader) : WalReader * option (WalEntry + WalError) :=
  let '(r, res) := WalReader_read_next r in
  (r, match res with
      | inl (ReadEntry entry) => Some (inl entry)
      | inl ReadEof => None
      | inl (ReadTornWrite position reason) => Some (inr (WalTornWrite position reason))
      | inl (ReadChecksumMismatch position expected actual) =>
          Some (inr (WalChecksumMismatch position expected actual))
      | inl (ReadCorrupted position reason) => Some (inr (WalCorrupted position reason))
      | inr e => Some (inr e)
      end).
End Log.

(** ** The record format

    [frame] is what [append] writes for some serialised data; [parse_head] says
    what a byte string starts with. The readers of this file and of the per-core
    log are shown to agree with it. *)

Inductive Head :=
| HeadEof
| HeadTornHeader (remaining : Z)
| HeadTooLong (len : Z)
| HeadTornData (remaining len : Z)
| HeadBadCrc (expected actual : Z) (data rest : bytes)
| HeadRecord (data rest : bytes).

Definition head_torn (h : Head) : Prop :=
  match h with HeadTornHeader _ | HeadTornData _ _ => True | _ => False end.
(** A tail at which a scan stops: it starts with no valid record. *)
Definition head_stops (h : Head) : Prop := match h with HeadRecord _ _ => False | _ => True end.

Section Format.
Context (crc32c : bytes → Z).

Definition frame (data : bytes) : bytes := to_le 4 (zlen data) ++ to_le 4 (crc32c data) ++ data.
Definition frames (ds : list bytes) : bytes := mjoin (frame <$> ds).
Definition fits (data : bytes) : Prop := zlen data <= MAX_WAL_ENTRY_SIZE.

Definition parse_head (b : bytes) : Head :=
  if zlen b =? 0 then HeadEof
  else if zlen b <? RECORD_HEADER_SIZE then HeadTornHeader (zlen b)
  else
    let len := from_le (take 4 b) in
    let crc := from_le (take 4 (drop 4 b)) in
    let body := drop 8 b in
    if MAX_WAL_ENTRY_SIZE <? len then HeadTooLong len
    else if zlen body <? len then HeadTornData (zlen body) len
    else
      let data := take (Z.to_nat len) body in
      let rest := drop (Z.to_nat len) body in
      if crc32c data =? crc then HeadRecord data rest else HeadBadCrc crc (crc32c data) data rest.

Lemma frame_length d : length (frame d) = (8 + length d)%nat.
Proof. unfold frame. by rewrite !length_app, !to_le_length. Qed.

Lemma frames_app l k : frames (l ++ k) = frames l ++ frames k.
Proof. unfold frames. by rewrite fmap_app, join_app. Qed.
Lemma frames_cons d l : frames (d :: l) = frame d ++ frames l.
Proof. done. Qed.

Lemma frames_count ds : (length ds <= length (frames ds))%nat.
Proof.
  induction ds as [|d ds IH]; [done|]. rewrite frames_cons, length_app, frame_length. simpl. lia.
Qed.

Lemma frames_take_le ds j : (length (frames (take j ds)) <= length (frames ds))%nat.
Proof. rewrite <- (take_drop j ds) at 2. rewrite frames_app, length_app. lia. Qed.

Lemma frames_take_mono ds j k :
  (j <= k)%nat → (length (frames (take j ds)) <= length (frames (take k ds)))%nat.
Proof.
  intros Hjk. replace (take j ds) with (take j (take k ds)); [apply frames_take_le|].
  rewrite take_take. f_equal. lia.
Qed.

Lemma frames_take_S ds k d :
  ds !! k = Some d → frames (take (S k) ds) = frames (take k ds) ++ frame d.
Proof.
  intros Hk. rewrite (take_S_r _ _ _ Hk), frames_app. f_equal.
  rewrite frames_cons. apply app_nil_r.
Qed.

Lemma fits_u32 d : fits d → zlen d <= u32_MAX.
Proof. unfold fits, MAX_WAL_ENTRY_SIZE. lia. Qed.

Hypothesis crc32c_u32 : ∀ d, is_u32 (crc32c d).

(** The three fields of a framed record. *)
Lemma frame_fields d rest :
  zlen d <= u32_MAX →
  from_le (take 4 (frame d ++ rest)) = zlen d ∧
  from_le (take 4 (drop 4 (frame d ++ rest))) = crc32c d ∧
  drop 8 (frame d ++ rest) = d ++ rest.
Proof.
  intros Hd. unfold frame. rewrite <- !app_assoc.
  pose proof (to_le_length 4 (zlen d)) as H1. pose proof (to_le_length 4 (crc32c d)) as H2.
  rewrite take_app_length' by done. rewrite !drop_app_length' by done.
  rewrite take_app_length' by done. rewrite !from_to_le.
  - split_and!; [done..|]. change 8%nat with (4 + 4)%nat. rewrite <- drop_drop.
    rewrite drop_app_length' by done. by rewrite drop_app_length'.
  - specialize (crc32c_u32 d). unfold is_u32 in *. simpl. lia.
  - simpl. lia.
Qed.

Lemma parse_frame d rest : fits d → parse_head (frame d ++ rest) = HeadRecord d rest.
Proof.
  intros Hd. destruct (frame_fields d rest) as (H1 & H2 & H3); [by apply fits_u32|].
  unfold parse_head. rewrite H1, H2, H3, length_app, frame_length, Nat2Z.id.
  rewrite take_app_length, drop_app_length, Z.eqb_refl.
  unfold fits, RECORD_HEADER_SIZE in *. rewrite length_app. by zcase; try lia.
Qed.

Lemma parse_torn_frame d m :
  fits d → (0 < m < length (frame d))%nat → head_torn (parse_head (take m (frame d))).
Proof.
  intros Hd Hm. destruct (frame_fields d []) as (H1 & _ & H3); [by apply fits_u32|]. rewrite !app_nil_r in *.
  rewrite frame_length in Hm. unfold fits in Hd.
  unfold parse_head, RECORD_HEADER_SIZE.
  rewrite length_drop, length_take, frame_length, Nat.min_l by lia.
  destruct (Z.eqb_spec (Z.of_nat m) 0); [lia|].
  destruct (Z.ltb_spec (Z.of_nat m) 8); [done|].
  rewrite take_take, Nat.min_l, H1 by lia.
  destruct (Z.ltb_spec MAX_WAL_ENTRY_SIZE (zlen d)); [lia|].
  destruct (Z.ltb_spec (Z.of_nat (m - 8)) (zlen d)); [done|lia].
Qed.

(** A record longer than the limit of the readers. *)
Lemma parse_oversized d rest :
  MAX_WAL_ENTRY_SIZE < zlen d <= u32_MAX → parse_head (frame d ++ rest) = HeadTooLong (zlen d).
Proof.
  intros Hd. destruct (frame_fields d rest) as (H1 & _); [lia|].
  unfold parse_head, RECORD_HEADER_SIZE. rewrite H1, length_app, frame_length.
  zcase; done || lia.
Qed.

(** Cutting a sequence of records anywhere leaves whole records and a strict
    prefix of the next one. *)
Lemma take_frames ds n :
  ∃ k tail, take n (frames ds) = frames (take k ds) ++ tail ∧ (k <= length ds)%nat ∧
    (tail = [] ∧ (n < length (frames ds) → ∃ d, ds !! k = Some d)%nat ∨
     ∃ d m, ds !! k = Some d ∧ (0 < m < length (frame d))%nat ∧ tail = take m (frame d)).
Proof.
  revert n. induction ds as [|d ds IH]; intros n.
  { exists 0%nat, []. split_and!; [by destruct n|simpl; lia|]. left. split; [done|]. simpl. intros ?. lia. }
  rewrite frames_cons. destruct (decide (n = 0)%nat) as [->|Hn].
  { exists 0%nat, []. split_and!; [done|lia|]. left. split; [done|]. by exists d. }
  destruct (decide (n < length (frame d))%nat) as [Hlt|Hge].
  - exists 0%nat, (take n (frame d)). split_and!; [by rewrite take_app_le by lia|lia|].
    right. exists d, n. split_and!; [done|lia..|done].
  - destruct (IH (n - length (frame d))%nat) as (k & tail & Heq & Hk & Ht).
    exists (S k), tail. split_and!; [|simpl; lia|].
    + rewrite take_app_ge by lia. cbn [take]. rewrite frames_cons, <- app_assoc. by f_equal.
    + destruct Ht as [[-> Ht]|Ht]; [left; split; [done|]|by right].
      rewrite length_app. intros ?. apply Ht. lia.
Qed.
End Format.

Arguments frames_cons : clear implicits.

(** ** The code reads the format *)

Lemma read_exact_Some n rest :
  (n <= length rest)%nat → read_exact n rest = Some (take n rest, drop n rest).
Proof. intros. unfold read_exact. by rewrite bool_decide_eq_true_2. Qed.

(** Byte strings whose length field is not negative; true of every byte string
    read from a file, whose elements are in [0, 255]. *)
Definition len_nonneg (b : bytes) : Prop := 0 <= from_le (take 4 b).

Lemma len_nonneg_u8 b : Forall is_u8 b → len_nonneg b.
Proof. intros Hb. apply from_le_range. by apply Forall_take. Qed.

(** The two readers take the same steps; this follows them. The hypotheses bound
    the position of a reader with [rest] left in a file of [file_len] bytes. *)
Ltac read_steps rest position file_len :=
  unfold len_nonneg, parse_head, u64_sat_sub, RECORD_HEADER_SIZE in *;
  replace (Z.max 0 (file_len - position)) with (zlen rest) by lia;
  let Hadd := fresh "Hadd" in
  assert (Hadd : ∀ a b, 0 <= a → 0 <= b → a + b <= file_len → u64_add a b = a + b)
    by (intros ? ? ? ? ?; apply wrap_u64_small; unfold is_u64; lia);
  let Hd8 := fresh "Hd8" in
  destruct (Z.eqb_spec (zlen rest) 0);
    [simpl; by replace (file_len - zlen rest) with position by lia|];
  destruct (Z.ltb_spec (zlen rest) 8);
    [simpl; by replace (file_len - zlen rest) with position by lia|];
  rewrite read_exact_Some by lia; cbn;
  rewrite read_exact_Some by (rewrite length_drop; lia); cbn;
  rewrite drop_drop; change (4 + 4)%nat with 8%nat;
  rewrite (Hadd position 4), (Hadd (position + 4) 4) by lia;
  assert (Hd8 : zlen (drop 8 rest) = zlen rest - 8) by (rewrite length_drop; lia);
  destruct (Z.ltb_spec MAX_WAL_ENTRY_SIZE (from_le (take 4 rest)));
    [simpl; rewrite Hd8; by replace (position + 4 + 4) with (file_len - (zlen rest - 8)) by lia|];
  rewrite Hd8; replace (Z.max 0 (file_len - (position + 4 + 4))) with (zlen rest - 8) by lia;
  destruct (Z.ltb_spec (zlen rest - 8) (from_le (take 4 rest)));
    [simpl; rewrite Hd8; by replace (position + 4 + 4) with (file_len - (zlen rest - 8)) by lia|];
  rewrite read_exact_Some by (rewrite length_drop; lia); cbn;
  rewrite Hadd by lia;
  replace (position + 4 + 4 + from_le (take 4 rest)) with
    (file_len - zlen (drop (Z.to_nat (from_le (take 4 rest))) (drop 8 rest)))
    by (rewrite !length_drop; lia);
  destruct (_ =? from_le (take 4 (drop 4 rest))).

Section Readers.
Context (crc32c : bytes → Z) `{!Archive WalEntry}.

(** What [validate_record] returns for each head. *)
Definition head_validated (position : Z) (h : Head) : Z + WalError :=
  match h with
  | HeadEof => inr (WalIo (UnexpectedEof "end of file"))
  | HeadTornHeader remaining => inr (WalTornWrite position (incomplete_header remaining))
  | HeadTooLong len => inr (WalCorrupted position (length_exceeds len))
  | HeadTornData remaining len => inr (WalTornWrite position (incomplete_data remaining len))
  | HeadBadCrc expected actual _ _ => inr (WalChecksumMismatch position expected actual)
  | HeadRecord data _ => inl (RECORD_HEADER_SIZE + zlen data)
  end.

Definition head_rest (h : Head) (rest : bytes) : bytes :=
  match h with
  | HeadEof | HeadTornHeader _ => rest
  | HeadTooLong _ | HeadTornData _ _ => drop 8 rest
  | HeadBadCrc _ _ _ r | HeadRecord _ r => r
  end.

Lemma validate_record_head rest position file_len :
  len_nonneg rest → 0 <= position → position + zlen rest = file_len →
  validate_record crc32c rest position file_len =
    (head_rest (parse_head crc32c rest) rest, head_validated position (parse_head crc32c rest)).
Proof.
  unfold len_nonneg. intros Hnn Hp Hlen. unfold validate_record, parse_head, u64_sat_sub.
  replace (Z.max 0 (file_len - position)) with (zlen rest) by lia.
  unfold RECORD_HEADER_SIZE in *.
  destruct (Z.eqb_spec (zlen rest) 0) as [Hz|Hz]; [rewrite Hz; done|].
  destruct (Z.ltb_spec (zlen rest) 8); [done|].
  rewrite read_exact_Some by lia. rewrite read_exact_Some by (rewrite length_drop; lia).
  rewrite drop_drop. change (4 + 4)%nat with 8%nat.
  destruct (Z.ltb_spec MAX_WAL_ENTRY_SIZE (from_le (take 4 rest))); [done|].
  rewrite (length_drop rest 8). replace (Z.of_nat (length rest - 8)) with (zlen rest - 8) by lia.
  destruct (Z.ltb_spec (zlen rest - 8) (from_le (take 4 rest))); [done|].
  rewrite read_exact_Some by (rewrite length_drop; lia).
  destruct (crc32c _ =? _); [|done]. simpl. do 3 f_equal.
  rewrite length_take, length_drop. lia.
Qed.

(** What [read_next] reports for each head, and where it leaves the reader. *)
Definition head_read (position : Z) (h : Head) : WalReadResult WalEntry + WalError :=
  match h with
  | HeadEof => inl ReadEof
  | HeadTornHeader remaining => inl (ReadTornWrite position (incomplete_header remaining))
  | HeadTooLong len => inl (ReadCorrupted position (length_exceeds len))
  | HeadTornData remaining len => inl (ReadTornWrite position (incomplete_data remaining len))
  | HeadBadCrc expected actual _ _ => inl (ReadChecksumMismatch position expected actual)
  | HeadRecord data _ =>
      match from_bytes data with
      | inl entry => inl (ReadEntry entry)
      | inr e => inr (WalDeserialization e)
      end
  end.

Definition reader_ok (r : WalReader) : Prop :=
  len_nonneg (wr_rest r) ∧ 0 <= wr_position r ∧
  wr_position r + zlen (wr_rest r) = wr_file_len r ∧ wr_file_len r < u64_MOD.

Lemma read_next_head r :
  reader_ok r →
  let h := parse_head crc32c (wr_rest r) in
  WalReader_read_next crc32c r =
    (mkWalReader (head_rest h (wr_rest r))
       (wr_file_len r - zlen (head_rest h (wr_rest r))) (wr_file_len r),
     head_read (wr_position r) h).
Proof.
  destruct r as [rest position file_len]. intros (Hnn & Hp & Hlen & Hm). simpl in *.
  unfold WalReader_read_next. cbn [wr_rest wr_position wr_file_len].
  by read_steps rest position file_len.
Qed.
End Readers.

(** ** Cut sequences of records *)

Section Cuts.
Context (crc32c : bytes → Z) (crc32c_u32 : ∀ d, is_u32 (crc32c d)).

Lemma len_nonneg_frame d rest : zlen d <= u32_MAX → len_nonneg (frame crc32c d ++ rest).
Proof. intros Hd. unfold len_nonneg. destruct (frame_fields crc32c crc32c_u32 d rest Hd) as (-> & _). lia. Qed.

(** Any prefix of a framed record has a length field that is not negative. *)
Lemma len_nonneg_take_frame d m : len_nonneg (take m (frame crc32c d)).
Proof.
  unfold len_nonneg. rewrite take_take.
  apply from_le_range. unfold frame.
  assert (H : take (Nat.min 4 m) (to_le 4 (zlen d) ++ to_le 4 (crc32c d) ++ d) =
              take (Nat.min 4 m) (to_le 4 (zlen d))).
  { apply take_app_le. rewrite to_le_length. lia. }
  rewrite H. apply Forall_take, to_le_u8.
Qed.

(** A prefix of a sequence of records: whole records, then nothing or a torn one. *)
Lemma cut_frames ds b :
  Forall fits ds → b `prefix_of` frames crc32c ds →
  ∃ k tail, b = frames crc32c (take k ds) ++ tail ∧ (k <= length ds)%nat ∧
    (parse_head crc32c tail = HeadEof ∨ head_torn (parse_head crc32c tail)) ∧ len_nonneg tail ∧
    (∀ j, (j <= length ds)%nat →
       (j <= k ↔ length (frames crc32c (take j ds)) <= length b)%nat).
Proof.
  intros Hf [suffix Hpre].
  destruct (take_frames crc32c ds (length b)) as (k & tail & Heq & Hk & Ht).
  rewrite Hpre, take_app_length in Heq.
  exists k, tail. split; [done|]. split; [done|]. apply and_assoc. split.
  - destruct Ht as [[-> _]|(d & m & Hd & Hm & ->)]; [split; [by left|done]|].
    assert (Hfd : fits d) by exact (Forall_lookup_1 _ _ _ _ Hf Hd).
    split; [right; by apply parse_torn_frame|apply len_nonneg_take_frame].
  - intros j Hj. rewrite Heq, length_app. split.
    + intros Hjk. pose proof (frames_take_mono crc32c ds j k Hjk). lia.
    + intros Hle. destruct (decide (j <= k)%nat) as [|Hgt]; [done|exfalso].
      destruct (lookup_lt_is_Some_2 ds k) as [d Hd]; [lia|].
      pose proof (frames_take_mono crc32c ds (S k) j ltac:(lia)) as Hmono.
      rewrite (frames_take_S crc32c _ _ _ Hd), length_app, frame_length in Hmono.
      destruct Ht as [[-> _]|(d' & m & Hd' & Hm & ->)]; [simpl in Hle; lia|].
      rewrite Hd in Hd'. injection Hd' as <-. rewrite length_take, frame_length in *. lia.
Qed.
End Cuts.

(** ** Scans *)

Section Scans.
Context (crc32c : bytes → Z) (crc32c_u32 : ∀ d, is_u32 (crc32c d)).
Context `{!Archive WalEntry} `{!ArchiveLaws WalEntry}.

(** The serialised form of an entry, and of a log. *)
Definition wdata (e : WalEntry) : bytes := match to_bytes e with inl b => b | inr _ => [] end.
Definition entry_fits (e : WalEntry) : Prop := fits (wdata e).
Definition log_bytes (es : list WalEntry) : bytes := frames crc32c (wdata <$> es).

Lemma wdata_spec e : to_bytes e = inl (wdata e) ∧ from_bytes (wdata e) = inl e.
Proof. unfold wdata. by destruct (archive_roundtrip e) as (b & -> & ?). Qed.

Lemma log_bytes_app es es' : log_bytes (es ++ es') = log_bytes es ++ log_bytes es'.
Proof. unfold log_bytes. by rewrite fmap_app, frames_app. Qed.

(** What [repair] concludes from the head at which its scan stops. *)
Definition repair_result (position : Z) (h : Head) : Z + WalError :=
  match h with
  | HeadTooLong len => inr (WalCorrupted position (length_exceeds len))
  | _ => inl position
  end.

Lemma repair_loop_spec ds : ∀ tail fuel cur file_len,
  Forall fits ds → head_stops (parse_head crc32c tail) → len_nonneg tail → 0 <= cur →
  cur + zlen (frames crc32c ds ++ tail) = file_len → file_len < u64_MOD →
  (length (frames crc32c ds ++ tail) < fuel)%nat →
  repair_loop crc32c fuel (frames crc32c ds ++ tail) cur cur file_len =
    Some (repair_result (cur + zlen (frames crc32c ds)) (parse_head crc32c tail)).
Proof.
  induction ds as [|d ds IH]; intros tail fuel cur file_len Hds Hst Hnn Hc Hlen Hm Hf;
    (destruct fuel as [|fuel]; [lia|]); cbn [repair_loop].
  - cbn [frames fmap list_fmap mjoin list_join app length] in *.
    rewrite validate_record_head by done. rewrite Z.add_0_r.
    by destruct (parse_head crc32c tail).
  - apply Forall_cons in Hds as [Hd Hds]. rewrite frames_cons, <- app_assoc in *.
    rewrite validate_record_head by (done || by apply len_nonneg_frame, fits_u32).
    rewrite parse_frame by done. cbn [head_validated head_rest].
    rewrite length_app, frame_length in Hlen, Hf. unfold RECORD_HEADER_SIZE.
    unfold u64_add. rewrite wrap_u64_small by (unfold is_u64; lia).
    rewrite IH; [|done..|lia|lia|done|lia]. do 2 f_equal.
    rewrite length_app, frame_length. lia.
Qed.

(** The entries up to the first result that is not one, as a replay reads them;
    [None] when the fuel runs out. *)
Fixpoint read_entries (fuel : nat) (r : WalReader)
    : option (list WalEntry * WalReader * (WalReadResult WalEntry + WalError)) :=
  match fuel with
  | O => None
  | S fuel =>
      match WalReader_read_next crc32c r with
      | (r', inl (ReadEntry e)) =>
          '(es, r'', res) ← read_entries fuel r'; Some (e :: es, r'', res)
      | (r', res) => Some ([], r', res)
      end
  end.

(** A log followed by any tail reads as its entries, then as the tail. *)
Lemma read_entries_spec es : ∀ tail fuel r,
  Forall entry_fits es → len_nonneg tail → reader_ok r →
  wr_rest r = log_bytes es ++ tail → (length es < fuel)%nat →
  ∃ r', read_entries fuel r =
          (λ x, (es ++ x.1.1, x.1.2, x.2)) <$> read_entries (fuel - length es) r' ∧
        reader_ok r' ∧ wr_rest r' = tail ∧ wr_file_len r' = wr_file_len r ∧
        wr_position r' = wr_position r + zlen (log_bytes es).
Proof.
  induction es as [|e es IH]; intros tail fuel r Hes Hnn Hr Hrest Hf.
  - exists r. rewrite Nat.sub_0_r. split_and!; [|done|done|done|cbn; lia].
    destruct (read_entries fuel r) as [[[] ]|]; done.
  - apply Forall_cons in Hes as [He Hes]. destruct fuel as [|fuel]; [simpl in Hf; lia|].
    cbn [read_entries]. rewrite read_next_head by done.
    assert (Hrest' : wr_rest r = frame crc32c (wdata e) ++ (log_bytes es ++ tail)).
    { rewrite Hrest. unfold log_bytes. rewrite fmap_cons, frames_cons. by rewrite <- app_assoc. }
    rewrite Hrest', parse_frame by done. cbn [head_read head_rest].
    destruct (wdata_spec e) as [_ ->].
    destruct Hr as (Hn1 & Hn2 & Hn3 & Hn4). rewrite Hrest', length_app, frame_length in Hn3.
    set (r1 := mkWalReader _ _ _).
    destruct (IH tail fuel r1) as (r' & Hread & Hr' & Hre & Hfl & Hpos); [done|done| |done|simpl in Hf; lia|].
    { unfold r1, reader_ok. simpl. split_and!; [|lia|lia|done].
      destruct es as [|e' es]; [done|]. unfold log_bytes. rewrite fmap_cons, frames_cons, <- app_assoc.
      apply len_nonneg_frame, fits_u32; [done|]. by apply Forall_cons in Hes as [? _]. }
    exists r'. split_and!; [|done|done|by rewrite Hfl|].
    + rewrite Hread. cbn [length Nat.sub]. by destruct (read_entries (fuel - length es) r') as [[[]]|].
    + rewrite Hpos. unfold r1. cbn [wr_position]. unfold log_bytes in *.
      rewrite fmap_cons, frames_cons, !length_app, frame_length. rewrite length_app in Hn3. lia.
Qed.

(** A log that ends the file reads as exactly its entries. *)
Lemma read_entries_complete es fuel r :
  Forall entry_fits es → reader_ok r → wr_rest r = log_bytes es → (length es < fuel)%nat →
  ∃ r', read_entries fuel r = Some (es, r', inl ReadEof) ∧ wr_position r' = wr_file_len r.
Proof.
  intros Hes Hr Hrest Hf.
  destruct (read_entries_spec es [] fuel r) as (r' & Heq & Hr' & Hre & Hfl & Hpos);
    [done|done|done|by rewrite app_nil_r|done|].
  exists (mkWalReader [] (wr_file_len r') (wr_file_len r')). split.
  - rewrite Heq. destruct (fuel - length es)%nat eqn:E; [lia|]. cbn [read_entries].
    rewrite read_next_head, Hre by done. simpl. by rewrite Z.sub_0_r, app_nil_r.
  - simpl. done.
Qed.
End Scans.

(** ** Histories of a log

    [wal_reach w es d]: the log [w] was reached from an empty file by appends,
    syncs, truncations at record boundaries, crashes and repairs; it holds the
    entries [es], of which the first [d] are known to be on disk. *)

Section Histories.
Context (crc32c : bytes → Z) (crc32c_u32 : ∀ d, is_u32 (crc32c d)).
Context `{!Archive WalEntry} `{!ArchiveLaws WalEntry}.

(** What a crash may leave of the file of a log. *)
Definition crash (w : WriteAheadLog) (f : File) : Prop :=
  (f_durable (bw_inner (wl_writer w)) <= length (f_data f))%nat ∧
  f_data f `prefix_of` bw_written (wl_writer w).

Definition syncs_now (now : Instant) (w : WriteAheadLog) : bool :=
  wl_sync_on_write w || (wl_sync_interval w <=? elapsed now (wl_last_sync w)).

Inductive wal_reach : WriteAheadLog → list WalEntry → nat → Prop :=
| reach_new now interval : wal_reach (WriteAheadLog_new now None interval) [] 0
| reach_append w es d now now' e :
    wal_reach w es d → entry_fits e → zlen (log_bytes crc32c (es ++ [e])) < u64_MOD →
    wal_reach (WriteAheadLog_append crc32c now now' w e).1 (es ++ [e])
      (if syncs_now now w then S (length es) else d)
| reach_sync w es d now : wal_reach w es d → wal_reach (WriteAheadLog_sync now w) es (length es)
| reach_set_sync w es d b : wal_reach w es d → wal_reach (WriteAheadLog_set_sync_on_write w b) es d
| reach_truncate w es d now k :
    wal_reach w es d → (k <= length es)%nat →
    wal_reach (WriteAheadLog_truncate now w (zlen (log_bytes crc32c (take k es)))) (take k es) k
| reach_recover w es d f now interval now1 now2 w' k :
    wal_reach w es d → crash w f → (k <= length es)%nat →
    WriteAheadLog_repair crc32c now1 now2 (WriteAheadLog_new now (Some f) interval) =
      Some (w', inl (zlen (log_bytes crc32c (take k es)))) →
    wal_reach w' (take k es) k.

(** The log represents the entries: the bytes written are their records, the
    durable bytes contain the first [d]. *)
Record wal_rep (w : WriteAheadLog) (es : list WalEntry) (d : nat) : Prop := {
  rep_bytes : bw_written (wl_writer w) = log_bytes crc32c es;
  rep_position : wl_position w = zlen (log_bytes crc32c es);
  rep_fits : Forall entry_fits es;
  rep_size : zlen (log_bytes crc32c es) < u64_MOD;
  rep_durable : (length (log_bytes crc32c (take d es)) <= f_durable (bw_inner (wl_writer w)))%nat;
  rep_on_file : (f_durable (bw_inner (wl_writer w)) <= length (f_data (bw_inner (wl_writer w))))%nat;
  rep_count : (d <= length es)%nat;
}.

Lemma write_all_written w b : bw_written (BufWriter_write_all w b) = bw_written w ++ b.
Proof.
  unfold BufWriter_write_all, BufWriter_push, BufWriter_flush, bw_written, file_write.
  destruct (zlen b <? _) eqn:E1; [by rewrite <- app_assoc|].
  destruct (_ <? zlen b) eqn:E2; cbn [bw_capacity bw_buf bw_inner f_data].
  - destruct (_ <=? _); cbn [bw_buf bw_inner f_data]; by rewrite ?app_nil_r, <- ?app_assoc.
  - destruct (Z.leb_spec (bw_capacity w) (zlen b)); cbn [bw_buf bw_inner f_data];
      [|by rewrite <- app_assoc].
    apply Z.ltb_ge in E1, E2. assert (bw_buf w = []) as -> by (apply nil_length_inv; lia).
    by rewrite !app_nil_r.
Qed.

Lemma write_all_file w b :
  f_durable (bw_inner (BufWriter_write_all w b)) = f_durable (bw_inner w) ∧
  (length (f_data (bw_inner w)) <= length (f_data (bw_inner (BufWriter_write_all w b))))%nat.
Proof.
  unfold BufWriter_write_all, BufWriter_push, BufWriter_flush, file_write.
  repeat case_match; simpl; rewrite ?length_app; split; lia || done.
Qed.

Lemma sync_rep now w es d : wal_rep w es d → wal_rep (WriteAheadLog_sync now w) es (length es).
Proof.
  intros [Hb Hp Hf Hs Hd Ho Hc]. unfold WriteAheadLog_sync, BufWriter_flush, file_sync, file_write.
  constructor; unfold bw_written in *; cbn; rewrite ?app_nil_r; try done.
  by rewrite take_ge, Hb.
Qed.

Lemma sync_written now w : bw_written (wl_writer (WriteAheadLog_sync now w)) = bw_written (wl_writer w).
Proof. unfold bw_written. cbn. apply app_nil_r. Qed.

(** Every entry below 4 GiB is accepted and its record written. *)
Lemma append_accepts now now' w e :
  zlen (wdata e) <= u32_MAX →
  (WriteAheadLog_append crc32c now now' w e).2 = inl (wl_position w) ∧
  bw_written (wl_writer (WriteAheadLog_append crc32c now now' w e).1) =
    bw_written (wl_writer w) ++ frame crc32c (wdata e).
Proof.
  intros Hle. unfold WriteAheadLog_append. destruct (wdata_spec e) as [-> _].
  destruct (Z.ltb_spec u32_MAX (zlen (wdata e))); [lia|]. cbn [fst snd]. split; [done|].
  case_match; [rewrite sync_written|]; apply write_all_written.
Qed.

Lemma append_rep now now' w es d e :
  wal_rep w es d → entry_fits e → zlen (log_bytes crc32c (es ++ [e])) < u64_MOD →
  wal_rep (WriteAheadLog_append crc32c now now' w e).1 (es ++ [e])
    (if syncs_now now w then S (length es) else d) ∧
  (WriteAheadLog_append crc32c now now' w e).2 = inl (zlen (log_bytes crc32c es)).
Proof.
  intros [Hb Hp Hf Hs Hd Ho Hc] He Hsz. unfold WriteAheadLog_append.
  destruct (wdata_spec e) as [-> _].
  pose proof He as He'. unfold entry_fits, fits, MAX_WAL_ENTRY_SIZE in He'.
  destruct (Z.ltb_spec u32_MAX (zlen (wdata e))); [lia|]. cbn [fst snd].
  assert (Hlog : log_bytes crc32c (es ++ [e]) = log_bytes crc32c es ++ frame crc32c (wdata e)).
  { unfold log_bytes. rewrite fmap_app, frames_app. f_equal.
    rewrite fmap_cons, frames_cons. apply app_nil_r. }
  set (w1 := mkWal _ _ _ _ _).
  assert (Hw1 : wal_rep w1 (es ++ [e]) d).
  { destruct (write_all_file (wl_writer w) (frame crc32c (wdata e))) as [Hdur Hlen].
    constructor; unfold w1; cbn [wl_writer wl_position].
    - rewrite write_all_written, Hb, Hlog. done.
    - rewrite Hp, Hlog, length_app, frame_length. unfold RECORD_HEADER_SIZE, u64_add.
      rewrite Hlog, length_app, frame_length in Hsz.
      rewrite wrap_u64_small by (unfold is_u64; lia). lia.
    - apply Forall_app. split; [done|by constructor].
    - done.
    - fold (frame crc32c (wdata e)). rewrite take_app_le by done. by rewrite Hdur.
    - fold (frame crc32c (wdata e)). rewrite Hdur. lia.
    - rewrite length_app. lia. }
  split; [|by rewrite Hp].
  change (wl_sync_on_write w1 || (wl_sync_interval w1 <=? elapsed now (wl_last_sync w1)))
    with (syncs_now now w).
  destruct (syncs_now now w); [|done].
  replace (S (length es)) with (length (es ++ [e])) by (rewrite length_app; simpl; lia).
  by eapply sync_rep.
Qed.

Lemma log_bytes_take k es :
  take (length (log_bytes crc32c (take k es))) (log_bytes crc32c es) = log_bytes crc32c (take k es).
Proof.
  rewrite <- (take_drop k es) at 2. rewrite log_bytes_app. apply take_app_length.
Qed.

Lemma log_bytes_take_le k es :
  (length (log_bytes crc32c (take k es)) <= length (log_bytes crc32c es))%nat.
Proof. unfold log_bytes. rewrite fmap_take. apply frames_take_le. Qed.

(** A writer just opened on a file that holds a log. *)
Lemma opened_rep w es k :
  bw_buf (wl_writer w) = [] → f_data (bw_inner (wl_writer w)) = log_bytes crc32c (take k es) →
  f_durable (bw_inner (wl_writer w)) = length (log_bytes crc32c (take k es)) →
  wl_position w = zlen (log_bytes crc32c (take k es)) →
  Forall entry_fits es → zlen (log_bytes crc32c es) < u64_MOD → (k <= length es)%nat →
  wal_rep w (take k es) k.
Proof.
  intros Hb Hd Hdu Hp Hf Hs Hk. pose proof (log_bytes_take_le k es).
  constructor; unfold bw_written.
  - by rewrite Hb, Hd, app_nil_r.
  - done.
  - by apply Forall_take.
  - lia.
  - by rewrite Hdu, take_take, Nat.min_id.
  - rewrite Hdu, Hd. lia.
  - rewrite length_take. lia.
Qed.

(** Cutting the file of a writer without buffered data down to a prefix. *)
Lemma truncate_opened now w es k tail :
  bw_buf (wl_writer w) = [] →
  f_data (bw_inner (wl_writer w)) = log_bytes crc32c (take k es) ++ tail →
  Forall entry_fits es → zlen (log_bytes crc32c es) < u64_MOD → (k <= length es)%nat →
  wal_rep (WriteAheadLog_truncate now w (zlen (log_bytes crc32c (take k es)))) (take k es) k.
Proof.
  intros Hb Hd Hf Hs Hk.
  assert (Hcut : f_data (bw_inner (wl_writer
            (WriteAheadLog_truncate now w (zlen (log_bytes crc32c (take k es)))))) =
          log_bytes crc32c (take k es)).
  { cbn. rewrite Hb, Hd, app_nil_r, Nat2Z.id, take_app_length, length_app.
    rewrite (proj2 (Nat.sub_0_le _ _)) by lia. apply app_nil_r. }
  apply opened_rep; try done. rewrite <- Hcut at 2. done.
Qed.

Lemma truncate_rep now w es d k :
  wal_rep w es d → (k <= length es)%nat →
  wal_rep (WriteAheadLog_truncate now w (zlen (log_bytes crc32c (take k es)))) (take k es) k.
Proof.
  intros Hw Hk. pose proof (sync_rep now w es d Hw) as [Hb _ Hf Hs _ _ _].
  assert (Heq : ∀ p, WriteAheadLog_truncate now w p =
                     WriteAheadLog_truncate now (WriteAheadLog_sync now w) p).
  { intros p. unfold WriteAheadLog_truncate, WriteAheadLog_sync, BufWriter_flush, file_sync, file_write.
    cbn. by rewrite app_nil_r. }
  rewrite Heq. apply (truncate_opened now _ es k (log_bytes crc32c (drop k es))); try done.
  rewrite <- log_bytes_app, take_drop, <- Hb. unfold bw_written. cbn. by rewrite app_nil_r.
Qed.

(** A prefix of a log: whole records, and a tail at which a scan stops. *)
Lemma cut_log es b :
  Forall entry_fits es → b `prefix_of` log_bytes crc32c es →
  ∃ k tail, b = log_bytes crc32c (take k es) ++ tail ∧ (k <= length es)%nat ∧
    (parse_head crc32c tail = HeadEof ∨ head_torn (parse_head crc32c tail)) ∧ len_nonneg tail ∧
    (∀ j, (j <= length es)%nat →
       (j <= k ↔ length (log_bytes crc32c (take j es)) <= length b)%nat).
Proof.
  intros Hf Hpre. unfold log_bytes in *. setoid_rewrite fmap_take.
  rewrite <- (length_fmap wdata es). apply cut_frames; [done| |done].
  by apply Forall_fmap.
Qed.

(** Repairing any prefix of a log keeps exactly its whole records. *)
Lemma repair_prefix es f now interval now1 now2 :
  Forall entry_fits es → zlen (log_bytes crc32c es) < u64_MOD →
  f_data f `prefix_of` log_bytes crc32c es →
  ∃ w' k,
    WriteAheadLog_repair crc32c now1 now2 (WriteAheadLog_new now (Some f) interval) =
      Some (w', inl (zlen (log_bytes crc32c (take k es)))) ∧
    wal_rep w' (take k es) k ∧ (k <= length es)%nat ∧
    (∀ j, (j <= length es)%nat →
       (j <= k ↔ length (log_bytes crc32c (take j es)) <= length (f_data f))%nat).
Proof.
  intros Hf Hs Hpre.
  destruct (cut_log es (f_data f) Hf Hpre) as (k & tail & Heq & Hk & Hst & Hnn & Hmax).
  apply prefix_length in Hpre. unfold WriteAheadLog_repair.
  set (w0 := WriteAheadLog_sync now1 _).
  assert (Hw0 : f_data (bw_inner (wl_writer w0)) = f_data f) by (cbn; apply app_nil_r).
  assert (Hloop : repair_loop crc32c (S (length (f_data f))) (f_data f) 0 0 (zlen (f_data f)) =
                  Some (inl (zlen (log_bytes crc32c (take k es))))).
  { rewrite Heq. unfold log_bytes.
    rewrite repair_loop_spec; try done; [|apply Forall_fmap; by apply Forall_take| | |lia].
    { by destruct Hst as [-> |Ht]; [|destruct (parse_head crc32c tail)]. }
    { by destruct Hst as [-> |Ht]; [|destruct (parse_head crc32c tail)]. }
    change (frames crc32c (wdata <$> take k es)) with (log_bytes crc32c (take k es)).
    rewrite <- Heq. lia. }
  rewrite Hw0, Hloop. eexists _, k. split; [reflexivity|]. split; [|done].
  destruct (Z.ltb_spec (zlen (log_bytes crc32c (take k es))) (zlen (f_data f))) as [Hlt|Hge].
  - apply (truncate_opened now2 w0 es k tail); try done. by rewrite Hw0.
  - rewrite Heq, length_app in Hge. assert (tail = []) as -> by (apply nil_length_inv; lia).
    rewrite app_nil_r in Heq. apply opened_rep; try done; cbn; by rewrite ?app_nil_r, ?Heq.
Qed.

Lemma log_bytes_inj_take es j k :
  (j <= length es)%nat → (k <= length es)%nat →
  length (log_bytes crc32c (take j es)) = length (log_bytes crc32c (take k es)) → j = k.
Proof.
  intros Hj Hk. assert (Hlt : ∀ i l, (i < l <= length es)%nat →
    (length (log_bytes crc32c (take i es)) < length (log_bytes crc32c (take l es)))%nat).
  { intros i l Hil. unfold log_bytes. rewrite !fmap_take.
    destruct (lookup_lt_is_Some_2 (wdata <$> es) i) as [d Hd]; [rewrite length_fmap; lia|].
    pose proof (frames_take_mono crc32c (wdata <$> es) (S i) l ltac:(lia)) as Hmono.
    rewrite (frames_take_S crc32c _ _ _ Hd), length_app, frame_length in Hmono. lia. }
  intros Heq. destruct (Nat.lt_trichotomy j k) as [H|[H|H]]; [|done|];
    [pose proof (Hlt j k)|pose proof (Hlt k j)]; lia.
Qed.

Lemma reach_rep w es d : wal_reach w es d → wal_rep w es d.
Proof.
  induction 1 as [| | | | |w es d f now interval now1 now2 w' k Hw IH [_ Hpre] Hk Hrep].
  - by constructor; cbn; try lia.
  - by apply append_rep.
  - by eapply sync_rep.
  - by destruct IHwal_reach; constructor.
  - by eapply truncate_rep.
  - destruct IH as [Hb Hp Hf Hs _ _ _]. rewrite Hb in Hpre.
    destruct (repair_prefix es f now interval now1 now2 Hf Hs Hpre)
      as (w'' & k' & Heq & Hrep' & Hk' & _).
    rewrite Hrep in Heq. injection Heq as -> Hpos. apply Nat2Z.inj in Hpos.
    by rewrite (log_bytes_inj_take es k k' Hk Hk' Hpos).
Qed.
End Histories.

(** ** Properties *)

Section Properties.
Context (crc32c : bytes → Z) (crc32c_u32 : ∀ d, is_u32 (crc32c d)).
Context `{!Archive WalEntry} `{!ArchiveLaws WalEntry}.

Lemma repair_unbuffered now1 now2 w w' r :
  WriteAheadLog_repair crc32c now1 now2 w = Some (w', r) → bw_buf (wl_writer w') = [].
Proof.
  unfold WriteAheadLog_repair. case_match; [|done]. case_match; intros [= <- _]; [|done].
  by case_match.
Qed.

(** A reader opened at the start of entry [k] of a log that is on file. *)
Lemma read_from_boundary w es d k :
  wal_rep crc32c w es d → bw_buf (wl_writer w) = [] →
  let r := WriteAheadLog_read_from w (zlen (log_bytes crc32c (take k es))) in
  reader_ok r ∧ wr_rest r = log_bytes crc32c (drop k es).
Proof.
  intros [Hb Hp Hf Hs Hd Ho Hc] Hnil r. unfold bw_written in Hb. rewrite Hnil, app_nil_r in Hb.
  assert (Hrest : wr_rest r = log_bytes crc32c (drop k es)).
  { unfold r, WriteAheadLog_read_from. cbn. rewrite Nat2Z.id, Hb.
    rewrite <- (take_drop k es) at 2. rewrite log_bytes_app. apply drop_app_length. }
  split; [|done]. split_and!.
  - rewrite Hrest. destruct (drop k es) as [|e es'] eqn:E; [done|].
    unfold log_bytes. rewrite fmap_cons, frames_cons.
    apply len_nonneg_frame, fits_u32; [done|].
    apply (Forall_drop _ k) in Hf. rewrite E in Hf. by apply Forall_cons in Hf as [? _].
  - simpl. lia.
  - rewrite Hrest. simpl. rewrite Hb. rewrite <- (take_drop k es) at 3.
    rewrite log_bytes_app, length_app. lia.
  - simpl. by rewrite Hb.
Qed.

(** [C5]: whatever a crash leaves of a log, recovery restores a prefix of it.
    After any history of appends, syncs, truncations and earlier recoveries, and
    for every file that a crash can leave (any prefix of the bytes written that
    contains the synced ones), opening and repairing the log succeeds; the result
    holds the first [k] entries, where [k] counts the whole records that survived
    and is at least the number of entries known to be synced; reading it from the
    start yields exactly these entries and a clean end of file. *)
Theorem wal_crash_recovery w es d f now interval now1 now2 :
  wal_reach crc32c w es d → crash w f →
  ∃ w' k r',
    WriteAheadLog_repair crc32c now1 now2 (WriteAheadLog_new now (Some f) interval) =
      Some (w', inl (zlen (log_bytes crc32c (take k es)))) ∧
    wal_reach crc32c w' (take k es) k ∧ (d <= k <= length es)%nat ∧
    (∀ j, (j <= length es)%nat →
       (j <= k ↔ length (log_bytes crc32c (take j es)) <= length (f_data f))%nat) ∧
    read_entries crc32c (S k) (WriteAheadLog_read_from w' 0) = Some (take k es, r', inl ReadEof).
Proof.
  intros Hw Hcr. pose proof (reach_rep crc32c crc32c_u32 w es d Hw) as [Hb Hp Hf Hs Hd Ho Hc].
  pose proof Hcr as [Hdur Hpre]. rewrite Hb in Hpre.
  destruct (repair_prefix crc32c crc32c_u32 es f now interval now1 now2 Hf Hs Hpre)
    as (w' & k & Heq & Hrep & Hk & Hmax).
  pose proof (repair_unbuffered _ _ _ _ _ Heq) as Hbuf.
  destruct (read_from_boundary w' (take k es) k 0) as [Hr' Hrest']; [done..|].
  destruct (read_entries_complete crc32c crc32c_u32 (take k es) (S k)
              (WriteAheadLog_read_from w' 0)) as (r' & Hread & _).
  - by apply Forall_take.
  - exact Hr'.
  - exact Hrest'.
  - rewrite length_take. lia.
  - exists w', k, r'. split_and!; try done.
    + by eapply reach_recover.
    + apply Hmax; [done|]. lia.
Qed.

(** A log reads back what was appended. The position that [append] returns
    is the start of the new record, and once the log is synced a reader opened at
    the position returned for entry [k] yields exactly the entries from [k] on and
    then a clean end of file. *)
Theorem wal_read_back w es d k now now' now'' e :
  wal_reach crc32c w es d → (k <= length es)%nat → entry_fits e →
  zlen (log_bytes crc32c (es ++ [e])) < u64_MOD →
  let '(w1, pos) := WriteAheadLog_append crc32c now now' w e in
  pos = inl (zlen (log_bytes crc32c es)) ∧
  ∃ r', read_entries crc32c (S (S (length es)))
          (WriteAheadLog_read_from (WriteAheadLog_sync now'' w1) (zlen (log_bytes crc32c (take k es)))) =
        Some (drop k es ++ [e], r', inl ReadEof).
Proof.
  intros Hw Hk He Hsz. pose proof (reach_rep crc32c crc32c_u32 w es d Hw) as Hrep.
  destruct (append_rep crc32c now now' w es d e Hrep He Hsz) as [Hrep' Hpos].
  destruct (WriteAheadLog_append crc32c now now' w e) as [w1 pos]. cbn [fst snd] in *.
  split; [done|].
  destruct (read_from_boundary (WriteAheadLog_sync now'' w1) (es ++ [e]) (length (es ++ [e])) k)
    as [Hr Hrest]; [by eapply sync_rep|done|].
  rewrite take_app_le, drop_app_le in * by done.
  destruct (read_entries_complete crc32c crc32c_u32 (drop k es ++ [e]) (S (S (length es)))
    (WriteAheadLog_read_from (WriteAheadLog_sync now'' w1) (zlen (log_bytes crc32c (take k es)))))
    as (r' & Hread & _); [|done|done| |by exists r'].
  - destruct Hrep as [_ _ Hf _ _ _ _]. apply Forall_app. split; [by apply Forall_drop|by constructor].
  - rewrite length_app, length_drop. simpl. lia.
Qed.

(** [append] accepts entries that can never be read or repaired. An entry of
    more than 256 MiB (and at most 4 GiB) is accepted and written; from then on
    [repair] fails with [Corrupted] and leaves the file as it is, and a replay
    from the start ends at that entry, so everything appended after it is lost. *)
Theorem wal_oversized_entry_poisons w es d now now' e :
  wal_reach crc32c w es d → MAX_WAL_ENTRY_SIZE < zlen (wdata e) <= u32_MAX →
  ∀ f more now0 interval now1 now2,
    f_data f = bw_written (wl_writer (WriteAheadLog_append crc32c now now' w e).1) ++ more →
    zlen (f_data f) < u64_MOD →
    let w' := WriteAheadLog_new now0 (Some f) interval in
    let pos := zlen (log_bytes crc32c es) in
    let reason := length_exceeds (zlen (wdata e)) in
    (WriteAheadLog_append crc32c now now' w e).2 = inl pos ∧
    WriteAheadLog_repair crc32c now1 now2 w' =
      Some (WriteAheadLog_sync now1 w', inr (WalCorrupted pos reason)) ∧
    ∃ r', read_entries crc32c (S (length es)) (WriteAheadLog_read_from w' 0) =
            Some (es, r', inl (ReadCorrupted pos reason)).
Proof.
  intros Hw Hlen f more now0 interval now1 now2 Hf Hsz w' pos reason.
  pose proof (reach_rep crc32c crc32c_u32 w es d Hw) as [Hb Hp Hfit Hs Hd Ho Hc].
  set (tail := frame crc32c (wdata e) ++ more).
  assert (Happ : (WriteAheadLog_append crc32c now now' w e).2 = inl pos ∧
                 f_data f = log_bytes crc32c es ++ tail).
  { destruct (append_accepts crc32c now now' w e) as [Hp' Hw']; [lia|].
    by rewrite Hf, Hp', Hw', Hb, Hp, <- app_assoc. }
  destruct Happ as [Hpos Hdata]. split; [done|].
  assert (Hnn : len_nonneg tail) by (apply len_nonneg_frame; [done|lia]).
  assert (Hhead : parse_head crc32c tail = HeadTooLong (zlen (wdata e)))
    by (by apply parse_oversized).
  split.
  - unfold WriteAheadLog_repair, w'.
    assert (Hd0 : f_data (bw_inner (wl_writer (WriteAheadLog_sync now1
                    (WriteAheadLog_new now0 (Some f) interval)))) = f_data f)
      by (cbn; apply app_nil_r).
    rewrite Hd0, Hdata. unfold log_bytes.
    rewrite repair_loop_spec; try done; [by rewrite Hhead|by apply Forall_fmap|by rewrite Hhead| |lia].
    unfold log_bytes in Hdata. rewrite <- Hdata. lia.
  - destruct (read_entries_spec crc32c crc32c_u32 es tail (S (length es))
                (WriteAheadLog_read_from w' 0)) as (r' & Heq & Hr' & Hre & Hfl & Hpos');
      [done|done| |simpl; by rewrite Hdata|lia|].
    { unfold w'. split_and!; [|done|simpl; by rewrite drop_0|exact Hsz]. cbn. rewrite Hdata, drop_0. destruct es as [|e0 es0]; [done|].
      unfold log_bytes. rewrite fmap_cons, frames_cons, <- app_assoc.
      apply len_nonneg_frame, fits_u32; [done|]. by apply Forall_cons in Hfit as [? _]. }
    rewrite Heq. replace (S (length es) - length es)%nat with 1%nat by lia. cbn [read_entries].
    rewrite read_next_head, Hre, Hhead by done. eexists. cbn. rewrite app_nil_r.
    rewrite Hpos'. done.
Qed.
End Properties.

(** ** Examples *)

(** A checksum that meets the hypothesis. *)
Definition sum32 (d : bytes) : Z := foldr Z.add 0 d mod 4294967296.
Lemma sum32_u32 d : is_u32 (sum32 d).
Proof. unfold sum32, is_u32. pose proof (Z.mod_pos_bound (foldr Z.add 0 d) 4294967296). lia. Qed.

#[local] Instance wal_archive : Archive WalEntry := countable_archive.
#[local] Instance wal_archive_laws : ArchiveLaws WalEntry := countable_archive_laws.

Definition wal_entries : list WalEntry :=
  [WPut [1; 2] [3]; WDelete [1; 2]; WCommit {[ "orders" := 7 ]} (Some 99)].

(** A log of three entries, the second append synced. *)
Definition wal3 : WriteAheadLog :=
  let w := WriteAheadLog_new 0 None 100 in
  let w := (WriteAheadLog_append sum32 1 1 w (WPut [1; 2] [3])).1 in
  let w := (WriteAheadLog_append sum32 200 200 w (WDelete [1; 2])).1 in
  (WriteAheadLog_append sum32 210 210 w (WCommit {[ "orders" := 7 ]} (Some 99))).1.

Lemma wal3_reach : wal_reach sum32 wal3 wal_entries 2.
Proof.
  change wal_entries with ((([] ++ [WPut [1; 2] [3]]) ++ [WDelete [1; 2]]) ++
    [WCommit {[ "orders" := 7 ]} (Some 99)]).
  refine (reach_append sum32 _ _ 2 210 210 _ _ _ _);
    [|vm_compute; discriminate|vm_compute; reflexivity].
  refine (reach_append sum32 _ _ 0 200 200 _ _ _ _);
    [|vm_compute; discriminate|vm_compute; reflexivity].
  refine (reach_append sum32 _ _ 0 1 1 _ _ _ _);
    [|vm_compute; discriminate|vm_compute; reflexivity].
  apply reach_new.
Qed.

(** The crash loses the last five bytes of the third record. *)
Definition wal3_torn : File :=
  let b := bw_written (wl_writer wal3) in mkFile (take (length b - 5) b) (length b - 5).

Lemma wal_crash_recovery_witness :
  ∃ w' k r',
    WriteAheadLog_repair sum32 0 0 (WriteAheadLog_new 0 (Some wal3_torn) 100) =
      Some (w', inl (zlen (log_bytes sum32 (take k wal_entries)))) ∧ (2 <= k <= 3)%nat ∧
    read_entries sum32 (S k) (WriteAheadLog_read_from w' 0) =
      Some (take k wal_entries, r', inl ReadEof).
Proof.
  destruct (wal_crash_recovery sum32 sum32_u32 wal3 wal_entries 2 wal3_torn 0 100 0 0)
    as (w' & k & r' & H1 & _ & H2 & _ & H3).
  - exact wal3_reach.
  - split; [vm_compute; lia|]. apply prefix_take.
  - exists w', k, r'. split; [exact H1|]. split; [exact H2|exact H3].
Defined.

Lemma wal_read_back_witness :
  (WriteAheadLog_append sum32 5 5 wal3 (WCheckpoint 4)).2 =
    inl (zlen (log_bytes sum32 wal_entries)).
Proof.
  pose proof (wal_read_back sum32 sum32_u32 wal3 wal_entries 2 1 5 5 5 (WCheckpoint 4)) as H.
  specialize (H wal3_reach ltac:(simpl; lia) ltac:(vm_compute; discriminate)
                ltac:(vm_compute; reflexivity)).
  destruct (WriteAheadLog_append sum32 5 5 wal3 (WCheckpoint 4)) as [w1 pos].
  exact (proj1 H).
Defined.

(** A serialiser that pads with [n] zero bytes; with 256 MiB of them every entry
    is oversized. *)
Definition padded_archive (n : nat) : Archive WalEntry := {|
  to_bytes x := inl (replicate n 0 ++ code_bytes (encode x));
  from_bytes b := match decode (Z.to_pos (from_le (drop n b))) with
                  | Some x => inl x
                  | None => inr "invalid archive"
                  end;
|}.
Lemma padded_archive_laws n : ArchiveLaws WalEntry (H:=padded_archive n).
Proof.
  constructor. intros x. eexists. split; [reflexivity|]. unfold from_bytes, padded_archive.
  rewrite drop_app_length' by (symmetry; apply length_replicate).
  rewrite code_bytes_roundtrip. cbn [Z.to_pos]. by rewrite decode_encode.
Qed.
Definition big_pad : nat := Z.to_nat 268435456.

Lemma padded_length n :
  zlen (wdata (Archive0:=padded_archive n) (WCheckpoint 1)) = Z.of_nat n + 1.
Proof.
  unfold wdata, padded_archive, to_bytes. rewrite length_app, length_replicate, Nat2Z.inj_add.
  f_equal.
Qed.

Lemma big_pad_value : Z.of_nat big_pad = 268435456.
Proof. unfold big_pad. rewrite Z2Nat.id; lia. Qed.

#[local] Opaque big_pad.

Lemma wal_oversized_entry_poisons_witness :
  let a := padded_archive big_pad in
  let w := WriteAheadLog_new 0 None 100 in
  let r := WriteAheadLog_append (Archive0:=a) sum32 0 0 w (WCheckpoint 1) in
  let f := mkFile (bw_written (wl_writer r.1)) 0 in
  r.2 = inl 0 ∧
  ∃ e, WriteAheadLog_repair sum32 0 0 (WriteAheadLog_new 0 (Some f) 100) =
         Some (WriteAheadLog_sync 0 (WriteAheadLog_new 0 (Some f) 100), inr e).
Proof.
  pose (a := padded_archive big_pad). pose (al := padded_archive_laws big_pad).
  pose (w := WriteAheadLog_new 0 None 100).
  assert (Hlen : MAX_WAL_ENTRY_SIZE < zlen (wdata (Archive0:=a) (WCheckpoint 1)) <= u32_MAX).
  { unfold a. rewrite padded_length, big_pad_value. unfold MAX_WAL_ENTRY_SIZE. lia. }
  assert (Hsz : zlen (bw_written (wl_writer
            (WriteAheadLog_append (Archive0:=a) sum32 0 0 w (WCheckpoint 1)).1)) < u64_MOD).
  { destruct (append_accepts (Archive0:=a) (ArchiveLaws0:=al) sum32 0 0 w (WCheckpoint 1)) as [_ Hw];
      [lia|].
    rewrite Hw, length_app, frame_length. change (length (bw_written (wl_writer w))) with 0%nat. lia. }
  destruct (wal_oversized_entry_poisons (Archive0:=a) (ArchiveLaws0:=al) sum32 sum32_u32 w [] 0 0 0
              (WCheckpoint 1) (reach_new sum32 0 100) Hlen
              (mkFile (bw_written (wl_writer (WriteAheadLog_append (Archive0:=a) sum32 0 0 w
                 (WCheckpoint 1)).1)) 0) [] 0 100 0 0 (eq_sym (app_nil_r _)) Hsz)
    as (H1 & H2 & _).
  split; [exact H1|]. eexists. exact H2.
Defined.
