(* ===== verification/PerCoreWal.v ===== *)
(** * The per-core write-ahead log (crates/laminar-storage/src/per_core_wal/)

    [PerCoreWalEntry] and its order (entry.rs), [CoreWalWriter] (writer.rs),
    [PerCoreWalReader] (reader.rs) and [PerCoreWalManager] (manager.rs).

    Every core writes its own segment with the record format of [Wal]; a
    checkpoint or a recovery reads all segments and sorts their entries by epoch,
    timestamp, core and sequence number. The segments of a manager are the files
    of its writers: the path of core [i] is a function of [i] that is different
    for different cores. Clock readings ([now_ns], [Instant::now]) are arguments,
    calls to the operating system succeed, rkyv is [Archive] and the checksum a
    parameter. *)

From stdpp Require Import pretty.
From S2P Require Import Prelude StateStore Wal.

(** ** Entries (entry.rs) *)

Inductive WalOperation :=
| OpPut (key value : bytes)
| OpDelete (key : bytes)
| OpCheckpoint (id : Z)
| OpCommit (offsets : gmap string Z) (watermark : option Z)
| OpEpochBarrier (epoch : Z).

Record PerCoreWalEntry := mkEntry {
  pe_epoch : Z;
  pe_sequence : Z;
  pe_core_id : Z;
  pe_timestamp_ns : Z;
  pe_operation : WalOperation;
}.

#[export] Instance WalOperation_eq_dec : EqDecision WalOperation.
Proof. solve_decision. Defined.
#[export] Instance PerCoreWalEntry_eq_dec : EqDecision PerCoreWalEntry.
Proof. solve_decision. Defined.
#[export] Instance WalOperation_countable : Countable WalOperation.
Proof.
  refine (inj_countable' (λ o, match o with
    | OpPut k v => inl (inl (k, v))
    | OpDelete k => inl (inr k)
    | OpCheckpoint id => inr (inl (inl id))
    | OpCommit o w => inr (inr (o, w))
    | OpEpochBarrier e => inr (inl (inr e))
    end) (λ c, match c with
    | inl (inl (k, v)) => OpPut k v
    | inl (inr k) => OpDelete k
    | inr (inl (inl id)) => OpCheckpoint id
    | inr (inr (o, w)) => OpCommit o w
    | inr (inl (inr e)) => OpEpochBarrier e
    end) _); by intros [].
Defined.
#[export] Instance PerCoreWalEntry_countable : Countable PerCoreWalEntry.
Proof.
  refine (inj_countable' (λ e, (pe_epoch e, pe_sequence e, pe_core_id e, pe_timestamp_ns e, pe_operation e))
    (λ '(a, b, c, d, o), mkEntry a b c d o) _); by intros [].
Defined.

Definition PerCoreWalEntry_put (core_id epoch sequence : Z) (key value : bytes) (timestamp_ns : Z) :=
  mkEntry epoch sequence core_id timestamp_ns (OpPut key value).
Definition PerCoreWalEntry_delete (core_id epoch sequence : Z) (key : bytes) (timestamp_ns : Z) :=
  mkEntry epoch sequence core_id timestamp_ns (OpDelete key).
Definition PerCoreWalEntry_checkpoint (core_id epoch sequence checkpoint_id timestamp_ns : Z) :=
  mkEntry epoch sequence core_id timestamp_ns (OpCheckpoint checkpoint_id).
Definition PerCoreWalEntry_commit (core_id epoch sequence : Z) (offsets : gmap string Z)
    (watermark : option Z) (timestamp_ns : Z) :=
  mkEntry epoch sequence core_id timestamp_ns (OpCommit offsets watermark).
Definition PerCoreWalEntry_epoch_barrier (core_id epoch sequence timestamp_ns : Z) :=
  mkEntry epoch sequence core_id timestamp_ns (OpEpochBarrier epoch).

Definition PerCoreWalEntry_is_put (e : PerCoreWalEntry) : bool :=
  match pe_operation e with OpPut _ _ => true | _ => false end.
Definition PerCoreWalEntry_is_delete (e : PerCoreWalEntry) : bool :=
  match pe_operation e with OpDelete _ => true | _ => false end.
Definition PerCoreWalEntry_is_checkpoint (e : PerCoreWalEntry) : bool :=
  match pe_operation e with OpCheckpoint _ => true | _ => false end.
Definition PerCoreWalEntry_is_state_operation (e : PerCoreWalEntry) : bool :=
  PerCoreWalEntry_is_put e || PerCoreWalEntry_is_delete e.
Definition PerCoreWalEntry_key (e : PerCoreWalEntry) : option bytes :=
  match pe_operation e with OpPut key _ | OpDelete key => Some key | _ => None end.
Definition PerCoreWalEntry_value (e : PerCoreWalEntry) : option bytes :=
  match pe_operation e with OpPut _ value => Some value | _ => None end.

(** [Ord]: epoch, then timestamp, then core, then sequence number. *)
Definition PerCoreWalEntry_cmp (a b : PerCoreWalEntry) : comparison :=
  match pe_epoch a ?= pe_epoch b with
  | Eq =>
      match pe_timestamp_ns a ?= pe_timestamp_ns b with
      | Eq =>
          match pe_core_id a ?= pe_core_id b with
          | Eq => pe_sequence a ?= pe_sequence b
          | ord => ord
          end
      | ord => ord
      end
  | ord => ord
  end.
Definition entry_le (a b : PerCoreWalEntry) : Prop := PerCoreWalEntry_cmp a b ≠ Gt.
#[export] Instance entry_le_dec a b : Decision (entry_le a b) := _.

(** [slice::sort]. *)
Definition sort_entries (l : list PerCoreWalEntry) : list PerCoreWalEntry := merge_sort entry_le l.

(** ** Errors (error.rs) *)

Inductive IncrementalCheckpointError :=
| IcIo (e : IoError)
| IcSerialization (e : string)
| IcDeserialization (e : string)
| IcWal (e : string)
| IcNotFound (e : string)
| IcCorruption (e : string)
| IcRecovery (e : string)
| IcBufferOverflow (epoch : Z)
| IcInvalidConfig (e : string)
| IcAlreadyExists (epoch : Z)
| IcEpochMismatch (expected found : Z)
| IcCrcMismatch (offset expected computed : Z).

Inductive PerCoreWalError :=
| PcIo (e : IoError)
| PcSerialization (e : string)
| PcDeserialization (e : string)
| PcChecksumMismatch (core_id position expected actual : Z)
| PcTornWrite (core_id position : Z) (reason : string)
| PcCorrupted (core_id position : Z) (reason : string)
| PcInvalidCoreId (core_id max_core_id : Z)
| PcSegmentNotFound (core_id : Z)          (* the path is a function of the core *)
| PcCheckpointNotFound (path : string)
| PcRecoveryFailed (e : string)
| PcWriterNotInitialized (core_id : Z)
| PcEpochMismatch (expected actual : Z)
| PcIncrementalCheckpoint (e : IncrementalCheckpointError).

Definition pc_eof_error : PerCoreWalError := PcIo (UnexpectedEof "failed to fill whole buffer").
Definition exceeds_256_mib (len : Z) : string :=
  ("entry length " ++ pretty len ++ " exceeds 256 MiB — likely corrupted")%string.

Section PerCore.
Context (crc32c : bytes → Z) `{!Archive PerCoreWalEntry}.

(** ** The writer (writer.rs) *)

Record CoreWalWriter := mkCoreWriter {
  cw_core_id : Z;
  cw_writer : BufWriter;
  cw_position : Z;
  cw_synced_position : Z;
  cw_epoch : Z;
  cw_sequence : Z;
  cw_last_sync : Instant;
  cw_entries_since_sync : Z;
}.

Definition CoreWalWriter_new (now : Instant) (core_id : Z) (f : option File) : CoreWalWriter :=
  let file := default (mkFile [] 0) f in
  let position := zlen (f_data file) in
  mkCoreWriter core_id (BufWriter_with_capacity (64 * 1024) file) position position 0 0 now 0.

(** The file is cut to [position]; the cut is not synced. *)
Definition CoreWalWriter_open_at (now : Instant) (core_id : Z) (f : File) (position : Z)
    : CoreWalWriter :=
  let file := file_set_len f (Z.to_nat position) in
  mkCoreWriter core_id (BufWriter_with_capacity (64 * 1024) file) position position 0 0 now 0.

Definition CoreWalWriter_set_epoch (w : CoreWalWriter) (epoch : Z) : CoreWalWriter :=
  mkCoreWriter (cw_core_id w) (cw_writer w) (cw_position w) (cw_synced_position w) epoch
    (cw_sequence w) (cw_last_sync w) (cw_entries_since_sync w).

(** The record of an entry: the length is cast to [u32]. *)
Definition CoreWalWriter_serialize_entry (entry : PerCoreWalEntry) : bytes + PerCoreWalError :=
  match to_bytes entry with
  | inr e => inr (PcSerialization e)
  | inl data =>
      let crc := crc32c data in
      let len := zlen data mod 4294967296 in
      inl (to_le 4 len ++ to_le 4 crc ++ data)
  end.

Definition CoreWalWriter_advance_position (write_buffer : bytes) (w : CoreWalWriter) : CoreWalWriter :=
  let data_len := zlen write_buffer - RECORD_HEADER_SIZE in
  mkCoreWriter (cw_core_id w) (cw_writer w)
    (u64_add (cw_position w) (RECORD_HEADER_SIZE + data_len)) (cw_synced_position w) (cw_epoch w)
    (u64_add (cw_sequence w) 1) (cw_last_sync w) (u64_add (cw_entries_since_sync w) 1).

Definition cw_set_writer (b : BufWriter) (w : CoreWalWriter) : CoreWalWriter :=
  mkCoreWriter (cw_core_id w) b (cw_position w) (cw_synced_position w) (cw_epoch w)
    (cw_sequence w) (cw_last_sync w) (cw_entries_since_sync w).

Definition CoreWalWriter_append (w : CoreWalWriter) (entry : PerCoreWalEntry)
    : CoreWalWriter * (Z + PerCoreWalError) :=
  let start_pos := cw_position w in
  match CoreWalWriter_serialize_entry entry with
  | inr e => (w, inr e)
  | inl write_buffer =>
      let w := cw_set_writer (BufWriter_write_all (cw_writer w) write_buffer) w in
      (CoreWalWriter_advance_position write_buffer w, inl start_pos)
  end.

(** [self.core_id as u16] *)
Definition cw_core_u16 (w : CoreWalWriter) : Z := cw_core_id w mod 65536.

Definition CoreWalWriter_append_put (ts : Z) (w : CoreWalWriter) (key value : bytes) :=
  CoreWalWriter_append w
    (PerCoreWalEntry_put (cw_core_u16 w) (cw_epoch w) (cw_sequence w) key value ts).
Definition CoreWalWriter_append_delete (ts : Z) (w : CoreWalWriter) (key : bytes) :=
  CoreWalWriter_append w
    (PerCoreWalEntry_delete (cw_core_u16 w) (cw_epoch w) (cw_sequence w) key ts).
Definition CoreWalWriter_append_checkpoint (ts : Z) (w : CoreWalWriter) (checkpoint_id : Z) :=
  CoreWalWriter_append w
    (PerCoreWalEntry_checkpoint (cw_core_u16 w) (cw_epoch w) (cw_sequence w) checkpoint_id ts).
Definition CoreWalWriter_append_epoch_barrier (ts : Z) (w : CoreWalWriter) :=
  CoreWalWriter_append w
    (PerCoreWalEntry_epoch_barrier (cw_core_u16 w) (cw_epoch w) (cw_sequence w) ts).
Definition CoreWalWriter_append_commit (ts : Z) (w : CoreWalWriter) (offsets : gmap string Z)
    (watermark : option Z) :=
  CoreWalWriter_append w
    (PerCoreWalEntry_commit (cw_core_u16 w) (cw_epoch w) (cw_sequence w) offsets watermark ts).

Definition CoreWalWriter_mark_synced (now : Instant) (w : CoreWalWriter) : CoreWalWriter :=
  mkCoreWriter (cw_core_id w) (cw_writer w) (cw_position w) (cw_position w) (cw_epoch w)
    (cw_sequence w) now 0.

Definition CoreWalWriter_sync (now : Instant) (w : CoreWalWriter) : CoreWalWriter :=
  let b := BufWriter_flush (cw_writer w) in
  mkCoreWriter (cw_core_id w) (mkBufWriter (bw_capacity b) (bw_buf b) (file_sync (bw_inner b)))
    (cw_position w) (cw_position w) (cw_epoch w) (cw_sequence w) now 0.

Definition CoreWalWriter_truncate (now : Instant) (w : CoreWalWriter) (position : Z)
    : CoreWalWriter :=
  let w := CoreWalWriter_sync now w in
  let file := file_sync (file_set_len (bw_inner (cw_writer w)) (Z.to_nat position)) in
  mkCoreWriter (cw_core_id w) (BufWriter_with_capacity (64 * 1024) file) position position
    (cw_epoch w) (cw_sequence w) (cw_last_sync w) (cw_entries_since_sync w).

Definition CoreWalWriter_reset (now : Instant) (w : CoreWalWriter) : CoreWalWriter :=
  let w := CoreWalWriter_truncate now w 0 in
  mkCoreWriter (cw_core_id w) (cw_writer w) (cw_position w) (cw_synced_position w) (cw_epoch w) 0
    (cw_last_sync w) (cw_entries_since_sync w).

(** ** The reader (reader.rs) *)

Record PerCoreWalReader := mkCoreReader {
  cr_core_id : Z;
  cr_rest : bytes;       (* the segment from the reader's offset on *)
  cr_position : Z;
  cr_file_len : Z;
}.

Definition PerCoreWalReader_open (core_id : Z) (f : File) : PerCoreWalReader :=
  mkCoreReader core_id (f_data f) 0 (zlen (f_data f)).
Definition PerCoreWalReader_open_from (core_id : Z) (f : File) (position : Z) : PerCoreWalReader :=
  mkCoreReader core_id (drop (Z.to_nat position) (f_data f)) position (zlen (f_data f)).

Definition PerCoreWalReader_read_next (r : PerCoreWalReader)
    : PerCoreWalReader * (WalReadResult PerCoreWalEntry + PerCoreWalError) :=
  let remaining := u64_sat_sub (cr_file_len r) (cr_position r) in
  if remaining =? 0 then (r, inl ReadEof)
  else if remaining <? RECORD_HEADER_SIZE then
    (r, inl (ReadTornWrite (cr_position r) (incomplete_header remaining)))
  else
    let record_start := cr_position r in
    match read_exact 4 (cr_rest r) with
    | None => (r, inr pc_eof_error)
    | Some (len_bytes, rest) =>
        let len := from_le len_bytes in
        let r := mkCoreReader (cr_core_id r) rest (u64_add (cr_position r) 4) (cr_file_len r) in
        match read_exact 4 (cr_rest r) with
        | None => (r, inr pc_eof_error)
        | Some (crc_bytes, rest) =>
            let expected_crc := from_le crc_bytes in
            let r := mkCoreReader (cr_core_id r) rest (u64_add (cr_position r) 4) (cr_file_len r) in
            if 256 * 1024 * 1024 <? len then
              (r, inl (ReadCorrupted record_start (exceeds_256_mib len)))
            else
              let data_remaining := u64_sat_sub (cr_file_len r) (cr_position r) in
              if data_remaining <? len then
                (r, inl (ReadTornWrite record_start (incomplete_data data_remaining len)))
              else
                match read_exact (Z.to_nat len) (cr_rest r) with
                | None => (r, inr pc_eof_error)
                | Some (data, rest) =>
                    let r := mkCoreReader (cr_core_id r) rest (u64_add (cr_position r) len)
                               (cr_file_len r) in
                    let actual_crc := crc32c data in
                    if negb (actual_crc =? expected_crc) then
                      (r, inl (ReadChecksumMismatch record_start expected_crc actual_crc))
                    else
                      (r, match from_bytes data with
                          | inl entry => inl (ReadEntry entry)
                          | inr e => inr (PcDeserialization e)
                          end)
                end
        end
    end.

(** The loops of the reader take fuel, one more than the number of bytes left;
    [None] when it runs out. *)
Fixpoint read_all_loop (fuel : nat) (r : PerCoreWalReader) (entries : list PerCoreWalEntry)
    : option (PerCoreWalReader * (list PerCoreWalEntry + PerCoreWalError)) :=
  match fuel with
  | O => None
  | S fuel =>
      match PerCoreWalReader_read_next r with
      | (r, inl (ReadEntry entry)) => read_all_loop fuel r (entries ++ [entry])
      | (r, inl _) => Some (r, inl entries)
      | (r, inr e) => Some (r, inr e)
      end
  end.
Definition PerCoreWalReader_read_all (r : PerCoreWalReader) :=
  read_all_loop (S (length (cr_rest r))) r [].

Fixpoint read_up_to_loop (fuel : nat) (max_epoch : Z) (r : PerCoreWalReader)
    (entries : list PerCoreWalEntry)
    : option (PerCoreWalReader * (list PerCoreWalEntry + PerCoreWalError)) :=
  match fuel with
  | O => None
  | S fuel =>
      match PerCoreWalReader_read_next r with
      | (r, inl (ReadEntry entry)) =>
          if max_epoch <? pe_epoch entry then Some (r, inl entries)
          else read_up_to_loop fuel max_epoch r (entries ++ [entry])
      | (r, inl _) => Some (r, inl entries)
      | (r, inr e) => Some (r, inr e)
      end
  end.
Definition PerCoreWalReader_read_up_to_epoch (max_epoch : Z) (r : PerCoreWalReader) :=
  read_up_to_loop (S (length (cr_rest r))) max_epoch r [].

Fixpoint find_valid_end_loop (fuel : nat) (r : PerCoreWalReader) (valid_position : Z)
    : option (PerCoreWalReader * (Z + PerCoreWalError)) :=
  match fuel with
  | O => None
  | S fuel =>
      let pos_before := cr_position r in
      match PerCoreWalReader_read_next r with
      | (r, inl (ReadEntry _)) => find_valid_end_loop fuel r (cr_position r)
      | (r, inl ReadEof) => Some (r, inl valid_position)
      | (r, inl _) => Some (r, inl pos_before)
      | (r, inr e) => Some (r, inr e)
      end
  end.
Definition PerCoreWalReader_find_valid_end (r : PerCoreWalReader) :=
  find_valid_end_loop (S (length (cr_rest r))) r (cr_position r).

Definition PerCoreWalReader_next (r : PerCoreWalReader)
    : PerCoreWalReader * option (PerCoreWalEntry + PerCoreWalError) :=
  let '(r, res) := PerCoreWalReader_read_next r in
  (r, match res with
      | inl (ReadEntry entry) => Some (inl entry)
      | inl ReadEof => None
      | inl (ReadTornWrite position reason) => Some (inr (PcTornWrite (cr_core_id r) position reason))
      | inl (ReadChecksumMismatch position expected actual) =>
          Some (inr (PcChecksumMismatch (cr_core_id r) position expected actual))
      | inl (ReadCorrupted position reason) => Some (inr (PcCorrupted (cr_core_id r) position reason))
      | inr e => Some (inr e)
      end).

(** ** The manager (manager.rs) *)

Record PerCoreWalManager := mkWalManager {
  wm_num_cores : nat;
  wm_writers : list CoreWalWriter;
  wm_global_epoch : Z;
}.

(** The segment files on disk, by core; [None] when absent. *)
Definition PerCoreWalManager_new (now : Instant) (segments : list (option File)) : PerCoreWalManager :=
  mkWalManager (length segments) (imap (λ i f, CoreWalWriter_new now (Z.of_nat i) f) segments) 0.

(** One segment of [open]: the greatest epoch and the end of the valid records. *)
Fixpoint open_scan (fuel : nat) (r : PerCoreWalReader) (max_epoch valid_end : Z)
    : option (Z * Z + PerCoreWalError) :=
  match fuel with
  | O => None
  | S fuel =>
      let pos_before := cr_position r in
      match PerCoreWalReader_read_next r with
      | (r, inl (ReadEntry entry)) =>
          open_scan fuel r (Z.max max_epoch (pe_epoch entry)) (cr_position r)
      | (_, inl ReadEof) => Some (inl (max_epoch, valid_end))
      | (_, inl _) => Some (inl (max_epoch, pos_before))
      | (_, inr e) => Some (inr e)
      end
  end.

Fixpoint open_loop (now : Instant) (core_id : nat) (segments : list (option File))
    (writers : list CoreWalWriter) (max_epoch : Z)
    : option (list CoreWalWriter * Z + PerCoreWalError) :=
  match segments with
  | [] => Some (inl (writers, max_epoch))
  | None :: _ => Some (inr (PcSegmentNotFound (Z.of_nat core_id)))
  | Some f :: segments =>
      match open_scan (S (length (f_data f))) (PerCoreWalReader_open (Z.of_nat core_id) f) max_epoch 0 with
      | None => None
      | Some (inr e) => Some (inr e)
      | Some (inl (max_epoch, valid_end)) =>
          open_loop now (S core_id) segments
            (writers ++ [CoreWalWriter_open_at now (Z.of_nat core_id) f valid_end]) max_epoch
      end
  end.

Definition PerCoreWalManager_open (now : Instant) (segments : list (option File))
    : option (PerCoreWalManager + PerCoreWalError) :=
  match open_loop now 0 segments [] 0 with
  | None => None
  | Some (inr e) => Some (inr e)
  | Some (inl (writers, max_epoch)) => Some (inl (mkWalManager (length segments) writers max_epoch))
  end.

Definition wm_set_writers (ws : list CoreWalWriter) (m : PerCoreWalManager) : PerCoreWalManager :=
  mkWalManager (wm_num_cores m) ws (wm_global_epoch m).

Definition PerCoreWalManager_writer_checked (m : PerCoreWalManager) (core_id : nat)
    : option CoreWalWriter + PerCoreWalError :=
  if bool_decide (wm_num_cores m <= core_id)%nat
  then inr (PcInvalidCoreId (Z.of_nat core_id) (u64_sub (Z.of_nat (wm_num_cores m)) 1))
  else inl (wm_writers m !! core_id).

Definition PerCoreWalManager_advance_epoch (m : PerCoreWalManager) : PerCoreWalManager * Z :=
  (mkWalManager (wm_num_cores m) (wm_writers m) (u64_add (wm_global_epoch m) 1),
   u64_add (wm_global_epoch m) 1).
Definition PerCoreWalManager_set_epoch_all (m : PerCoreWalManager) (epoch : Z) : PerCoreWalManager :=
  wm_set_writers ((λ w, CoreWalWriter_set_epoch w epoch) <$> wm_writers m) m.
Definition PerCoreWalManager_sync_all (now : Instant) (m : PerCoreWalManager) : PerCoreWalManager :=
  wm_set_writers (CoreWalWriter_sync now <$> wm_writers m) m.
Definition PerCoreWalManager_positions (m : PerCoreWalManager) : list Z := cw_position <$> wm_writers m.
Definition PerCoreWalManager_synced_positions (m : PerCoreWalManager) : list Z :=
  cw_synced_position <$> wm_writers m.
Definition PerCoreWalManager_total_size (m : PerCoreWalManager) : Z :=
  foldl u64_add 0 (cw_position <$> wm_writers m).

Definition PerCoreWalManager_truncate_all (now : Instant) (m : PerCoreWalManager) (positions : list Z)
    : PerCoreWalManager * (unit + PerCoreWalError) :=
  if negb (bool_decide (length positions = wm_num_cores m)) then
    (m, inr (PcInvalidCoreId (zlen positions) (u64_sub (Z.of_nat (wm_num_cores m)) 1)))
  else (wm_set_writers (zip_with (CoreWalWriter_truncate now) (wm_writers m) positions) m, inl tt).
Definition PerCoreWalManager_reset_all (now : Instant) (m : PerCoreWalManager) : PerCoreWalManager :=
  wm_set_writers (CoreWalWriter_reset now <$> wm_writers m) m.

(** Append a barrier to each segment in turn; an error stops the loop. [ts] gives
    the clock reading for each core. *)
Fixpoint barrier_loop (ts : nat → Z) (core : nat) (ws : list CoreWalWriter)
    : list CoreWalWriter * (unit + PerCoreWalError) :=
  match ws with
  | [] => ([], inl tt)
  | w :: ws =>
      match CoreWalWriter_append_epoch_barrier (ts core) w with
      | (w, inr e) => (w :: ws, inr e)
      | (w, inl _) => let '(ws, r) := barrier_loop ts (S core) ws in (w :: ws, r)
      end
  end.
Definition PerCoreWalManager_write_epoch_barrier_all (ts : nat → Z) (m : PerCoreWalManager)
    : PerCoreWalManager * (unit + PerCoreWalError) :=
  let '(ws, r) := barrier_loop ts 0 (wm_writers m) in (wm_set_writers ws m, r).

(** The entries of all segments in core order, by the given way of reading one. *)
Fixpoint read_segments
    (read : PerCoreWalReader → option (PerCoreWalReader * (list PerCoreWalEntry + PerCoreWalError)))
    (core_id : nat) (files : list File) (entries : list PerCoreWalEntry)
    : option (list PerCoreWalEntry + PerCoreWalError) :=
  match files with
  | [] => Some (inl entries)
  | f :: files =>
      match read (PerCoreWalReader_open (Z.of_nat core_id) f) with
      | None => None
      | Some (_, inr e) => Some (inr e)
      | Some (_, inl es) => read_segments read (S core_id) files (entries ++ es)
      end
  end.

Definition segment_files (m : PerCoreWalManager) : list File := (λ w, bw_inner (cw_writer w)) <$> wm_writers m.

Definition PerCoreWalManager_merge_segments (m : PerCoreWalManager)
    : option (list PerCoreWalEntry + PerCoreWalError) :=
  match read_segments PerCoreWalReader_read_all 0 (segment_files m) [] with
  | Some (inl entries) => Some (inl (sort_entries entries))
  | r => r
  end.
Definition PerCoreWalManager_merge_segments_up_to_epoch (m : PerCoreWalManager) (max_epoch : Z)
    : option (list PerCoreWalEntry + PerCoreWalError) :=
  match read_segments (PerCoreWalReader_read_up_to_epoch max_epoch) 0 (segment_files m) [] with
  | Some (inl entries) => Some (inl (sort_entries entries))
  | r => r
  end.
End PerCore.

(** ** The order of entries *)

Lemma entry_lt_spec a b :
  PerCoreWalEntry_cmp a b = Lt ↔
  pe_epoch a < pe_epoch b ∨ pe_epoch a = pe_epoch b ∧
  (pe_timestamp_ns a < pe_timestamp_ns b ∨ pe_timestamp_ns a = pe_timestamp_ns b ∧
  (pe_core_id a < pe_core_id b ∨ pe_core_id a = pe_core_id b ∧ pe_sequence a < pe_sequence b)).
Proof.
  unfold PerCoreWalEntry_cmp.
  destruct (Z.compare_spec (pe_epoch a) (pe_epoch b)),
    (Z.compare_spec (pe_timestamp_ns a) (pe_timestamp_ns b)),
    (Z.compare_spec (pe_core_id a) (pe_core_id b)),
    (Z.compare_spec (pe_sequence a) (pe_sequence b)); split; intros; try done; lia.
Qed.

Lemma entry_le_spec a b :
  entry_le a b ↔
  pe_epoch a < pe_epoch b ∨ pe_epoch a = pe_epoch b ∧
  (pe_timestamp_ns a < pe_timestamp_ns b ∨ pe_timestamp_ns a = pe_timestamp_ns b ∧
  (pe_core_id a < pe_core_id b ∨ pe_core_id a = pe_core_id b ∧ pe_sequence a <= pe_sequence b)).
Proof.
  unfold entry_le, PerCoreWalEntry_cmp.
  destruct (Z.compare_spec (pe_epoch a) (pe_epoch b)),
    (Z.compare_spec (pe_timestamp_ns a) (pe_timestamp_ns b)),
    (Z.compare_spec (pe_core_id a) (pe_core_id b)),
    (Z.compare_spec (pe_sequence a) (pe_sequence b)); split; intros; try done; lia.
Qed.

#[export] Instance entry_le_trans : Transitive entry_le.
Proof. intros a b c. rewrite !entry_le_spec. lia. Qed.
#[export] Instance entry_le_total : Total entry_le.
Proof. intros a b. rewrite !entry_le_spec. lia. Qed.

Definition entry_lt (a b : PerCoreWalEntry) : Prop := PerCoreWalEntry_cmp a b = Lt.

Lemma entry_lt_not_le a b : entry_lt a b → ¬ entry_le b a.
Proof. unfold entry_lt. rewrite entry_lt_spec, entry_le_spec. lia. Qed.

Lemma sort_entries_spec l :
  sort_entries l ≡ₚ l ∧ StronglySorted entry_le (sort_entries l).
Proof. split; [apply merge_sort_Permutation|apply (StronglySorted_merge_sort _ _)]. Qed.

(** ** Reading a segment *)

Section Segments.
Context (crc32c : bytes → Z) (crc32c_u32 : ∀ d, is_u32 (crc32c d)).
Context `{!Archive PerCoreWalEntry} `{!ArchiveLaws PerCoreWalEntry}.

Definition pdata (e : PerCoreWalEntry) : bytes := match to_bytes e with inl b => b | inr _ => [] end.
Definition pfits (e : PerCoreWalEntry) : Prop := fits (pdata e).
Definition seg_bytes (es : list PerCoreWalEntry) : bytes := frames crc32c (pdata <$> es).

Lemma pdata_spec e : to_bytes e = inl (pdata e) ∧ from_bytes (pdata e) = inl e.
Proof. unfold pdata. by destruct (archive_roundtrip e) as (b & -> & ?). Qed.
Lemma seg_bytes_app es es' : seg_bytes (es ++ es') = seg_bytes es ++ seg_bytes es'.
Proof. unfold seg_bytes. by rewrite fmap_app, frames_app. Qed.
Lemma seg_bytes_cons e es : seg_bytes (e :: es) = frame crc32c (pdata e) ++ seg_bytes es.
Proof. done. Qed.

Definition core_head_read (position : Z) (h : Head) : WalReadResult PerCoreWalEntry + PerCoreWalError :=
  match h with
  | HeadEof => inl ReadEof
  | HeadTornHeader remaining => inl (ReadTornWrite position (incomplete_header remaining))
  | HeadTooLong len => inl (ReadCorrupted position (exceeds_256_mib len))
  | HeadTornData remaining len => inl (ReadTornWrite position (incomplete_data remaining len))
  | HeadBadCrc expected actual _ _ => inl (ReadChecksumMismatch position expected actual)
  | HeadRecord data _ =>
      match from_bytes data with
      | inl entry => inl (ReadEntry entry)
      | inr e => inr (PcDeserialization e)
      end
  end.

Definition core_reader_ok (r : PerCoreWalReader) : Prop :=
  len_nonneg (cr_rest r) ∧ 0 <= cr_position r ∧
  cr_position r + zlen (cr_rest r) = cr_file_len r ∧ cr_file_len r < u64_MOD.

Lemma core_read_next_head r :
  core_reader_ok r →
  let h := parse_head crc32c (cr_rest r) in
  PerCoreWalReader_read_next crc32c r =
    (mkCoreReader (cr_core_id r) (head_rest h (cr_rest r))
       (cr_file_len r - zlen (head_rest h (cr_rest r))) (cr_file_len r),
     core_head_read (cr_position r) h).
Proof.
  destruct r as [core rest position file_len]. intros (Hnn & Hp & Hlen & Hm). simpl in *.
  unfold PerCoreWalReader_read_next. cbn [cr_core_id cr_rest cr_position cr_file_len].
  change (256 * 1024 * 1024) with MAX_WAL_ENTRY_SIZE.
  by read_steps rest position file_len.
Qed.

Lemma len_nonneg_seg es tail : Forall pfits es → len_nonneg tail → len_nonneg (seg_bytes es ++ tail).
Proof.
  intros Hes Ht. destruct Hes as [|e es He Hes]; [done|].
  rewrite seg_bytes_cons, <- app_assoc. by apply len_nonneg_frame, fits_u32.
Qed.

Lemma core_read_entry r e rest :
  core_reader_ok r → pfits e → cr_rest r = frame crc32c (pdata e) ++ rest → len_nonneg rest →
  let r' := mkCoreReader (cr_core_id r) rest (cr_position r + 8 + zlen (pdata e)) (cr_file_len r) in
  PerCoreWalReader_read_next crc32c r = (r', inl (ReadEntry e)) ∧ core_reader_ok r'.
Proof.
  intros Hr He Hrest Hnn r'. rewrite core_read_next_head, Hrest, parse_frame by done.
  destruct Hr as (_ & Hp & Hlen & Hm). rewrite Hrest, length_app, frame_length in Hlen.
  cbn [core_head_read head_rest]. destruct (pdata_spec e) as [_ ->]. split.
  - unfold r'. do 2 f_equal. lia.
  - unfold r', core_reader_ok. simpl. split_and!; [done|lia..].
Qed.

(** A reader at the tail of a segment. *)
Lemma core_read_stop r :
  core_reader_ok r → head_stops (parse_head crc32c (cr_rest r)) →
  ∃ res, PerCoreWalReader_read_next crc32c r =
    (mkCoreReader (cr_core_id r) (head_rest (parse_head crc32c (cr_rest r)) (cr_rest r))
       (cr_file_len r - zlen (head_rest (parse_head crc32c (cr_rest r)) (cr_rest r))) (cr_file_len r),
     inl res) ∧ (∀ e, res ≠ ReadEntry e) ∧ (res = ReadEof ↔ cr_rest r = []).
Proof.
  intros Hr Hst. rewrite core_read_next_head by done.
  destruct (parse_head crc32c (cr_rest r)) eqn:E; try done; (eexists; split; [reflexivity|]);
    (split; [done|]).
  1: { unfold parse_head in E. destruct (Z.eqb_spec (zlen (cr_rest r)) 0); [|by repeat case_match].
       split; [|done]. intros _. apply nil_length_inv. lia. }
  all: split; [done|]; intros Hn; by rewrite Hn in E.
Qed.

(** All four loops over a segment that holds [es] before a tail without a valid
    record. The position of the tail is [seg_end]. *)
Section Loops.
Context (tail : bytes) (Htail : head_stops (parse_head crc32c tail)) (Hnn : len_nonneg tail).

Definition at_segment (r : PerCoreWalReader) (es : list PerCoreWalEntry) : Prop :=
  core_reader_ok r ∧ Forall pfits es ∧ cr_rest r = seg_bytes es ++ tail.
Definition seg_end (r : PerCoreWalReader) : Z := cr_file_len r - zlen tail.
Definition stop_end (r : PerCoreWalReader) : Z :=
  cr_file_len r - zlen (head_rest (parse_head crc32c tail) tail).

Lemma at_segment_cons r e es :
  at_segment r (e :: es) →
  ∃ r', PerCoreWalReader_read_next crc32c r = (r', inl (ReadEntry e)) ∧ at_segment r' es ∧
    cr_file_len r' = cr_file_len r ∧ cr_position r' = cr_position r + zlen (frame crc32c (pdata e)).
Proof.
  intros (Hr & [He Hes]%Forall_cons & Hrest). rewrite seg_bytes_cons, <- app_assoc in Hrest.
  destruct (core_read_entry r e _ Hr He Hrest) as [Hread Hr']; [by apply len_nonneg_seg|].
  eexists. split; [exact Hread|]. split; [done|]. split; [done|]. rewrite frame_length. simpl. lia.
Qed.

Lemma at_segment_nil r :
  at_segment r [] → cr_position r = seg_end r ∧
  ∃ r' res, PerCoreWalReader_read_next crc32c r = (r', inl res) ∧ (∀ e, res ≠ ReadEntry e) ∧
    (res = ReadEof ↔ tail = []) ∧ cr_position r' = stop_end r.
Proof.
  intros (Hr & _ & Hrest). cbn in Hrest. pose proof Hr as (_ & _ & Hlen & _). rewrite Hrest in Hlen.
  split; [unfold seg_end; lia|].
  destruct (core_read_stop r Hr) as (res & Hread & Hne & Heof); [by rewrite Hrest|].
  rewrite Hrest in *. eexists _, res. split_and!; done.
Qed.

Lemma read_all_spec es : ∀ r fuel acc,
  at_segment r es → (length es < fuel)%nat →
  ∃ r', read_all_loop crc32c fuel r acc = Some (r', inl (acc ++ es)) ∧ cr_position r' = stop_end r.
Proof.
  induction es as [|e es IH]; intros r fuel acc Hr Hf;
    (destruct fuel as [|fuel]; [simpl in Hf; lia|]); cbn [read_all_loop].
  - destruct (at_segment_nil r Hr) as (_ & r' & res & -> & Hne & _ & Hp). exists r'.
    rewrite app_nil_r. destruct res; [by destruct (Hne e)|done..].
  - destruct (at_segment_cons r e es Hr) as (r' & -> & Hr' & Hfl & _).
    destruct (IH r' fuel (acc ++ [e]) Hr') as (r'' & -> & Hp); [simpl in Hf; lia|].
    exists r''. rewrite <- app_assoc. split; [done|]. rewrite Hp. unfold stop_end. by rewrite Hfl.
Qed.

Lemma read_up_to_spec max_epoch es : ∀ r fuel acc,
  at_segment r es → (length es < fuel)%nat →
  ∃ r' es', read_up_to_loop crc32c fuel max_epoch r acc = Some (r', inl (acc ++ es')) ∧
    es' `prefix_of` es ∧ Forall (λ e, pe_epoch e <= max_epoch) es' ∧
    (∀ e rest, es = es' ++ e :: rest → max_epoch < pe_epoch e).
Proof.
  induction es as [|e es IH]; intros r fuel acc Hr Hf;
    (destruct fuel as [|fuel]; [simpl in Hf; lia|]); cbn [read_up_to_loop].
  - destruct (at_segment_nil r Hr) as (_ & r' & res & -> & Hne & _). exists r', [].
    rewrite app_nil_r. split; [by destruct res; [destruct (Hne e)|..]|].
    split; [done|]. split; [constructor|]. intros e rest. done.
  - destruct (at_segment_cons r e es Hr) as (r' & -> & Hr' & _).
    destruct (Z.ltb_spec max_epoch (pe_epoch e)) as [Hgt|Hle].
    + exists r', []. rewrite app_nil_r. split; [done|]. split; [by exists (e :: es)|].
      split; [constructor|]. by intros e' rest [= <- _].
    + destruct (IH r' fuel (acc ++ [e]) Hr') as (r'' & es' & -> & [k ->] & Hall & Hlast);
        [simpl in Hf; lia|].
      exists r'', (e :: es'). rewrite <- app_assoc. split; [done|]. split; [by exists k|].
      split; [by constructor|]. intros e' rest [= Heq]. by eapply Hlast.
Qed.

Lemma find_valid_end_spec es : ∀ r fuel,
  at_segment r es → (length es < fuel)%nat →
  ∃ r', find_valid_end_loop crc32c fuel r (cr_position r) = Some (r', inl (seg_end r)).
Proof.
  induction es as [|e es IH]; intros r fuel Hr Hf;
    (destruct fuel as [|fuel]; [simpl in Hf; lia|]); cbn [find_valid_end_loop].
  - destruct (at_segment_nil r Hr) as (<- & r' & res & -> & Hne & _). exists r'.
    destruct res; [by destruct (Hne e)|done..].
  - destruct (at_segment_cons r e es Hr) as (r' & -> & Hr' & Hfl & _).
    destruct (IH r' fuel Hr') as (r'' & ->); [simpl in Hf; lia|].
    exists r''. unfold seg_end. by rewrite Hfl.
Qed.

Lemma open_scan_spec es : ∀ r fuel epoch,
  at_segment r es → (length es < fuel)%nat →
  open_scan crc32c fuel r epoch (cr_position r) =
    Some (inl (foldl Z.max epoch (pe_epoch <$> es), seg_end r)).
Proof.
  induction es as [|e es IH]; intros r fuel epoch Hr Hf;
    (destruct fuel as [|fuel]; [simpl in Hf; lia|]); cbn [open_scan].
  - destruct (at_segment_nil r Hr) as (<- & r' & res & -> & Hne & _).
    destruct res; [by destruct (Hne e)|done..].
  - destruct (at_segment_cons r e es Hr) as (r' & -> & Hr' & Hfl & _).
    rewrite (IH r' fuel _ Hr') by (simpl in Hf; lia). unfold seg_end. by rewrite Hfl.
Qed.
End Loops.

(** A file that holds a segment, and readers opened on it. *)
Definition holds (f : File) (es : list PerCoreWalEntry) (tail : bytes) : Prop :=
  f_data f = seg_bytes es ++ tail ∧ Forall pfits es ∧ head_stops (parse_head crc32c tail) ∧
  len_nonneg tail ∧ zlen (f_data f) < u64_MOD.

Lemma holds_opened core f es tail :
  holds f es tail → at_segment tail (PerCoreWalReader_open core f) es.
Proof.
  intros (Hd & Hf & Hst & Hnn & Hm). unfold at_segment, core_reader_ok.
  cbn [PerCoreWalReader_open cr_rest cr_position cr_file_len].
  split_and!; try done. rewrite Hd. by apply len_nonneg_seg.
Qed.

Lemma seg_bytes_length es : (length es <= length (seg_bytes es))%nat.
Proof.
  induction es as [|e es IH]; [done|]. rewrite seg_bytes_cons, length_app, frame_length. simpl. lia.
Qed.

Lemma holds_fuel f es tail : holds f es tail → (length es < S (length (f_data f)))%nat.
Proof. intros (Hd & _). pose proof (seg_bytes_length es). rewrite Hd, length_app. lia. Qed.

Lemma holds_read_all core f es tail :
  holds f es tail →
  ∃ r', PerCoreWalReader_read_all crc32c (PerCoreWalReader_open core f) = Some (r', inl es) ∧
    cr_position r' = zlen (f_data f) - zlen (head_rest (parse_head crc32c tail) tail).
Proof.
  intros Hh. pose proof (holds_opened core f es tail Hh) as Hat.
  destruct Hh as (Hd & Hf & Hst & Hnn & Hm) eqn:E. clear E.
  destruct (read_all_spec tail Hst Hnn es (PerCoreWalReader_open core f)
              (S (length (f_data f))) [] Hat) as (r' & Heq & Hp).
  { eapply holds_fuel. repeat split; eassumption. }
  by exists r'.
Qed.

(** Reading all segments gives the concatenation of their entries. *)
Lemma read_segments_spec fs segs : ∀ core acc,
  Forall2 (λ f seg, holds f seg.1 seg.2) fs segs →
  read_segments (PerCoreWalReader_read_all crc32c) core fs acc = Some (inl (acc ++ mjoin segs.*1)).
Proof.
  intros core acc H. revert core acc.
  induction H as [|f [es tail] fs segs Hh _ IH]; intros core acc; cbn [read_segments].
  - by rewrite app_nil_r.
  - destruct (holds_read_all (Z.of_nat core) f es tail Hh) as (r' & -> & _).
    rewrite IH. by rewrite <- app_assoc.
Qed.
End Segments.

(** ** Histories of a writer *)

Section Writers.
Context (crc32c : bytes → Z) (crc32c_u32 : ∀ d, is_u32 (crc32c d)).
Context `{!Archive PerCoreWalEntry} `{!ArchiveLaws PerCoreWalEntry}.

(** The entry that the [append_*] methods build for an operation. *)
Definition next_entry (w : CoreWalWriter) (ts : Z) (op : WalOperation) : PerCoreWalEntry :=
  mkEntry (cw_epoch w) (cw_sequence w) (cw_core_u16 w) ts op.

(** [writer_reach fresh w es]: a new segment, or one opened again over the entries it
    holds, after any appends (at any clock readings), epoch changes, syncs and resets;
    it holds the entries [es]. [fresh]: it was not opened again since it was empty. *)
Inductive writer_reach : bool → CoreWalWriter → list PerCoreWalEntry → Prop :=
| wr_new now core : 0 <= core < 65536 → writer_reach true (CoreWalWriter_new now core None) []
| wr_open now core f es tail :
    0 <= core < 65536 → holds crc32c f es tail → Forall (λ e, pe_core_id e = core) es →
    writer_reach false (CoreWalWriter_open_at now core f (zlen (seg_bytes crc32c es))) es
| wr_append fresh w es ts op :
    writer_reach fresh w es → pfits (next_entry w ts op) →
    zlen (seg_bytes crc32c (es ++ [next_entry w ts op])) < u64_MOD →
    writer_reach fresh (CoreWalWriter_append crc32c w (next_entry w ts op)).1 (es ++ [next_entry w ts op])
| wr_set_epoch fresh w es epoch :
    writer_reach fresh w es → writer_reach fresh (CoreWalWriter_set_epoch w epoch) es
| wr_sync fresh w es now : writer_reach fresh w es → writer_reach fresh (CoreWalWriter_sync now w) es
| wr_mark_synced fresh w es now :
    writer_reach fresh w es → writer_reach fresh (CoreWalWriter_mark_synced now w) es
| wr_reset fresh w es now : writer_reach fresh w es → writer_reach true (CoreWalWriter_reset now w) [].

Record writer_inv (fresh : bool) (w : CoreWalWriter) (es : list PerCoreWalEntry) : Prop := {
  wi_bytes : bw_written (cw_writer w) = seg_bytes crc32c es;
  wi_position : cw_position w = zlen (seg_bytes crc32c es);
  wi_fits : Forall pfits es;
  wi_size : zlen (seg_bytes crc32c es) < u64_MOD;
  wi_core : 0 <= cw_core_id w < 65536;
  wi_entries : Forall (λ e, pe_core_id e = cw_core_id w) es;
  wi_fresh : fresh = true → cw_sequence w = zlen es ∧ Forall (λ e, pe_sequence e < cw_sequence w) es ∧
    StronglySorted (λ a b, pe_sequence a < pe_sequence b) es;
}.

(** The epochs of a log never go back, nor the clock within an epoch. *)
Definition in_order (es : list PerCoreWalEntry) : Prop :=
  StronglySorted (λ a b, pe_epoch a < pe_epoch b ∨
    pe_epoch a = pe_epoch b ∧ pe_timestamp_ns a <= pe_timestamp_ns b) es.

Lemma sorted_pairs {X} (R1 R2 R : X → X → Prop) l :
  (∀ a b, a ∈ l → b ∈ l → R1 a b → R2 a b → R a b) →
  StronglySorted R1 l → StronglySorted R2 l → StronglySorted R l.
Proof.
  intros HR H1. induction H1 as [|x l Hl IH Hx]; intros H2; constructor;
    apply StronglySorted_inv in H2 as [H2 Hx2].
  - apply IH; [|done]. intros a b Ha Hb. apply HR; by right.
  - rewrite Forall_forall in *. intros y Hy. apply HR; [by left|by right|auto|auto].
Qed.

Lemma in_order_sorted core es : Forall (λ e, pe_core_id e = core) es →
  StronglySorted (λ a b, pe_sequence a < pe_sequence b) es → in_order es → StronglySorted entry_lt es.
Proof.
  intros Hc Hs Ho. rewrite Forall_forall in Hc. refine (sorted_pairs _ _ _ es _ Hs Ho).
  intros a b Ha Hb Hseq Hord. apply entry_lt_spec. rewrite (Hc a Ha), (Hc b Hb). lia.
Qed.

Lemma sorted_in_order es : StronglySorted entry_le es → in_order es.
Proof.
  intros H. refine (sorted_pairs _ _ _ es _ H H). intros a b _ _ Hle _.
  apply entry_le_spec in Hle. lia.
Qed.

(** Appending any entry that fits writes its record. *)
Lemma core_append_writes w e :
  zlen (pdata e) <= u32_MAX → zlen (bw_written (cw_writer w)) = cw_position w →
  zlen (bw_written (cw_writer w)) + 8 + zlen (pdata e) < u64_MOD →
  let '(w', r) := CoreWalWriter_append crc32c w e in
  r = inl (cw_position w) ∧
  bw_written (cw_writer w') = bw_written (cw_writer w) ++ frame crc32c (pdata e) ∧
  cw_position w' = zlen (bw_written (cw_writer w')) ∧ cw_core_id w' = cw_core_id w ∧
  cw_epoch w' = cw_epoch w ∧ cw_sequence w' = u64_add (cw_sequence w) 1.
Proof.
  intros Hle Hpos Hsz. unfold CoreWalWriter_append, CoreWalWriter_serialize_entry.
  destruct (pdata_spec e) as [-> _]. rewrite Z.mod_small by lia.
  change (to_le 4 (zlen (pdata e)) ++ to_le 4 (crc32c (pdata e)) ++ pdata e)
    with (frame crc32c (pdata e)).
  cbn [cw_set_writer CoreWalWriter_advance_position cw_writer cw_position cw_core_id cw_epoch cw_sequence].
  rewrite write_all_written. split_and!; try done.
  rewrite length_app, frame_length. unfold RECORD_HEADER_SIZE, u64_add.
  rewrite wrap_u64_small by (unfold is_u64; lia). lia.
Qed.

Lemma seg_bytes_snoc es e :
  seg_bytes crc32c (es ++ [e]) = seg_bytes crc32c es ++ frame crc32c (pdata e).
Proof. rewrite seg_bytes_app. f_equal. rewrite seg_bytes_cons. apply app_nil_r. Qed.

Lemma append_inv fresh w es ts op :
  writer_inv fresh w es → pfits (next_entry w ts op) →
  zlen (seg_bytes crc32c (es ++ [next_entry w ts op])) < u64_MOD →
  writer_inv fresh (CoreWalWriter_append crc32c w (next_entry w ts op)).1 (es ++ [next_entry w ts op]).
Proof.
  intros [Hb Hp Hf Hs Hc He Hfr] Hfit Hsz. set (e := next_entry w ts op) in *.
  pose proof (seg_bytes_length crc32c (es ++ [e])) as Hcount. rewrite length_app in Hcount. simpl in Hcount.
  assert (Hsz' : zlen (bw_written (cw_writer w)) + 8 + zlen (pdata e) < u64_MOD).
  { rewrite Hb. rewrite seg_bytes_snoc, length_app, frame_length in Hsz. lia. }
  pose proof (core_append_writes w e (fits_u32 _ Hfit) ltac:(by rewrite Hb) Hsz') as Happ.
  destruct (CoreWalWriter_append crc32c w e) as [w' r].
  destruct Happ as (_ & Hb' & Hp' & Hc' & He' & Hq'). cbn [fst].
  rewrite Hb, <- seg_bytes_snoc in Hb'. constructor; try done.
  - by rewrite Hp', Hb'.
  - apply Forall_app. split; [done|by constructor].
  - by rewrite Hc'.
  - rewrite Hc'. apply Forall_app. split; [done|]. constructor; [|constructor].
    unfold e, next_entry, cw_core_u16. simpl. by rewrite Z.mod_small.
  - intros Hfresh. destruct (Hfr Hfresh) as (Hq & Hlt & Hso).
    assert (Hq1 : cw_sequence w' = cw_sequence w + 1).
    { rewrite Hq', Hq. unfold u64_add. rewrite wrap_u64_small; [done|]. unfold is_u64. lia. }
    rewrite Hq1. split_and!.
    + rewrite Hq, length_app. simpl. lia.
    + apply Forall_app. split; [|constructor; [|constructor]; unfold e, next_entry; simpl; lia].
      eapply Forall_impl; [exact Hlt|]. simpl. lia.
    + apply StronglySorted_app_2; [|done|by repeat constructor].
      intros a b Ha ->%list_elem_of_singleton. rewrite Forall_forall in Hlt. by apply Hlt.
Qed.

Lemma open_at_written now core f es tail : holds crc32c f es tail →
  bw_written (cw_writer (CoreWalWriter_open_at now core f (zlen (seg_bytes crc32c es)))) = seg_bytes crc32c es.
Proof.
  intros (Hd & _). unfold CoreWalWriter_open_at, file_set_len, bw_written. cbn.
  rewrite Nat2Z.id, Hd, take_app_length, length_app, (proj2 (Nat.sub_0_le _ _)) by lia. cbn.
  by rewrite !app_nil_r.
Qed.

Lemma writer_reach_inv fresh w es : writer_reach fresh w es → writer_inv fresh w es.
Proof.
  induction 1 as [now core Hc|now core f es tail Hc Hh He| |fresh w es epoch Hw [Hb Hp Hf Hs Hc He Hfr]
                 |fresh w es now Hw [Hb Hp Hf Hs Hc He Hfr]|fresh w es now Hw [Hb Hp Hf Hs Hc He Hfr]
                 |fresh w es now Hw [Hb Hp Hf Hs Hc He Hfr]].
  - constructor; try done; [constructor..|]. intros _. split_and!; [done|constructor..].
  - pose proof Hh as (Hd & Hf & _ & _ & Hsz). constructor; try done; [by eapply open_at_written|].
    rewrite Hd, length_app in Hsz. lia.
  - by apply append_inv.
  - by constructor.
  - constructor; try done. unfold bw_written in *. cbn. by rewrite app_nil_r.
  - by constructor.
  - constructor; try done; [constructor..|]. intros _. split_and!; [done|constructor..].
Qed.

(** A synced writer's file holds its entries. *)
Lemma synced_holds now w es :
  (∃ fresh, writer_inv fresh w es) → holds crc32c (bw_inner (cw_writer (CoreWalWriter_sync now w))) es [].
Proof.
  intros [fresh [Hb Hp Hf Hs Hc He Hfr]]. unfold bw_written in Hb. unfold holds. cbn.
  rewrite app_nil_r, Hb. done.
Qed.

(** The entries of one core in the concatenation of all logs. *)
Lemma filter_own_entries ws ess i w es :
  Forall2 (λ w es, ∃ fresh, writer_inv fresh w es) ws ess → NoDup (cw_core_id <$> ws) →
  ws !! i = Some w → ess !! i = Some es →
  filter (λ e, pe_core_id e = cw_core_id w) (mjoin ess) = es.
Proof.
  intros H. revert i. induction H as [|w0 es0 ws ess [fr0 H0] H IH]; intros i Hnd Hw Hes; [done|].
  pose proof (wi_entries _ _ _ H0) as Hcore.
  apply NoDup_cons in Hnd as [Hni Hnd]. cbn [mjoin list_join]. rewrite filter_app.
  destruct i as [|i]; simplify_eq/=.
  - rewrite filter_all by done.
    rewrite filter_none; [apply app_nil_r|].
    apply Forall_forall. intros e (l & He & Hl)%list_elem_of_join Heq.
    apply list_elem_of_lookup in Hl as [j Hj].
    destruct (Forall2_lookup_r _ _ _ _ _ H Hj) as (w' & Hw' & fr & Hinv).
    apply Hni. apply list_elem_of_fmap. exists w'. split.
    + pose proof (wi_entries _ _ _ Hinv) as Hen. rewrite Forall_forall in Hen.
      specialize (Hen e He). cbv beta in Hen. congruence.
    + by eapply list_elem_of_lookup_2.
  - rewrite filter_none; [by eapply IH|].
    eapply Forall_impl; [exact Hcore|]. intros e He Heq. apply Hni. rewrite <- He, Heq.
    apply list_elem_of_fmap. exists w. split; [done|by eapply list_elem_of_lookup_2].
Qed.
End Writers.

(** ** Reopening segments *)

Section Reopen.
Context (crc32c : bytes → Z) (crc32c_u32 : ∀ d, is_u32 (crc32c d)).
Context `{!Archive PerCoreWalEntry} `{!ArchiveLaws PerCoreWalEntry}.

(** What a crash may leave of a segment with entries [es], and the number [k] of
    whole records in it. *)
Definition left_of (f : File) (es : list PerCoreWalEntry) : Prop :=
  Forall pfits es ∧ zlen (seg_bytes crc32c es) < u64_MOD ∧ f_data f `prefix_of` seg_bytes crc32c es.
Definition whole (f : File) (es : list PerCoreWalEntry) (k : nat) : Prop :=
  (k <= length es)%nat ∧
  ∀ j, (j <= length es)%nat →
    (j <= k ↔ length (seg_bytes crc32c (take j es)) <= length (f_data f))%nat.

Lemma left_of_whole f es :
  left_of f es → ∃ k tail, whole f es k ∧ holds crc32c f (take k es) tail.
Proof.
  intros (Hf & Hs & Hpre). pose proof (prefix_length _ _ Hpre) as Hle.
  unfold seg_bytes in Hpre, Hs.
  destruct (cut_frames crc32c crc32c_u32 (pdata <$> es) (f_data f)) as (k & tail & Heq & Hk & Hst & Hnn & Hmax);
    [by apply Forall_fmap|done|].
  rewrite length_fmap in *. exists k, tail. unfold whole, holds, seg_bytes. setoid_rewrite fmap_take.
  unfold seg_bytes in Hle. split; [done|]. split_and!; [done|by apply Forall_take| |done|lia].
  by destruct Hst as [-> |Ht]; [|destruct (parse_head crc32c tail)].
Qed.

(** The writer that [open] makes for a segment. *)
Definition reopened (now : Instant) (core : nat) (f : File) (es : list PerCoreWalEntry) : CoreWalWriter :=
  CoreWalWriter_open_at now (Z.of_nat core) f (zlen (seg_bytes crc32c es)).

Lemma reopened_spec now core f es tail :
  holds crc32c f es tail →
  bw_written (cw_writer (reopened now core f es)) = seg_bytes crc32c es ∧
  bw_inner (cw_writer (reopened now core f es)) = mkFile (seg_bytes crc32c es)
    (Nat.min (length (seg_bytes crc32c es)) (f_durable f)).
Proof.
  intros (Hd & _). unfold reopened, CoreWalWriter_open_at, file_set_len, bw_written. cbn.
  rewrite Nat2Z.id, Hd, take_app_length, length_app, (proj2 (Nat.sub_0_le _ _)) by lia. cbn.
  by rewrite !app_nil_r.
Qed.

Lemma open_loop_spec now fs segs : ∀ core acc epoch,
  Forall2 (λ f seg, holds crc32c f seg.1 seg.2) fs segs →
  open_loop crc32c now core (Some <$> fs) acc epoch =
    Some (inl (acc ++ imap (λ i p, reopened now (core + i) p.1 p.2.1) (zip fs segs),
               foldl Z.max epoch (pe_epoch <$> mjoin segs.*1))).
Proof.
  intros core acc epoch H. revert core acc epoch.
  induction H as [|f [es tail] fs segs Hh _ IH]; intros core acc epoch; cbn [fmap list_fmap open_loop].
  - by rewrite app_nil_r.
  - pose proof (holds_opened crc32c crc32c_u32 (Z.of_nat core) f es tail Hh) as Hat.
    pose proof Hh as (Hd & Hf & Hst & Hnn & Hm).
    change 0 with (cr_position (PerCoreWalReader_open (Z.of_nat core) f)) at 1.
    rewrite (open_scan_spec crc32c crc32c_u32 tail Hst Hnn es) by (done || by eapply holds_fuel).
    assert (Hend : seg_end tail (PerCoreWalReader_open (Z.of_nat core) f) = zlen (seg_bytes crc32c es)).
    { unfold seg_end, PerCoreWalReader_open. cbn [cr_file_len]. rewrite Hd, length_app. cbn [fst snd]. lia. }
    rewrite Hend, IH. do 2 f_equal. f_equal.
    + rewrite <- app_assoc. do 2 f_equal. cbn. rewrite Nat.add_0_r. f_equal.
      apply imap_ext. intros i x _. unfold compose. f_equal. lia.
    + cbn [mjoin list_join fmap list_fmap]. by rewrite fmap_app, foldl_app.
Qed.

(** A manager over files that hold segments merges their entries. *)
Lemma merge_holds m segs :
  Forall2 (λ f seg, holds crc32c f seg.1 seg.2) (segment_files m) segs →
  PerCoreWalManager_merge_segments crc32c m = Some (inl (sort_entries (mjoin segs.*1))).
Proof.
  intros H. unfold PerCoreWalManager_merge_segments.
  by rewrite (read_segments_spec crc32c crc32c_u32 _ segs 0 [] H).
Qed.
End Reopen.

(** ** Properties *)

Section Properties.
Context (crc32c : bytes → Z) (crc32c_u32 : ∀ d, is_u32 (crc32c d)).
Context `{!Archive PerCoreWalEntry} `{!ArchiveLaws PerCoreWalEntry}.

(** [C18]: merging the segments of all cores loses nothing, and when it keeps a core's
    order. For writers over new or reopened segments, filled by any history of appends
    (at any clock readings), epoch changes, syncs and resets, [merge_segments] after
    [sync_all] returns exactly the entries of all cores, each once, sorted by epoch,
    timestamp, core and sequence. For a core whose segment was not reopened the
    entries appear in the order in which the core appended them exactly when its
    epochs never went back, nor its clock within an epoch; nothing in the writer
    enforces this, and a reopened writer starts again at epoch 0. *)
Theorem percore_merge_program_order n ws ess epoch now :
  Forall2 (λ w es, ∃ fresh, writer_reach crc32c fresh w es) ws ess → NoDup (cw_core_id <$> ws) →
  ∃ l, PerCoreWalManager_merge_segments crc32c
         (PerCoreWalManager_sync_all now (mkWalManager n ws epoch)) = Some (inl l) ∧
    l ≡ₚ mjoin ess ∧ StronglySorted entry_le l ∧
    ∀ i w es, ws !! i = Some w → ess !! i = Some es →
      let own := filter (λ e, pe_core_id e = cw_core_id w) l in
      own ≡ₚ es ∧ (writer_reach crc32c true w es → own = es ↔ in_order es).
Proof.
  intros Hws Hnd.
  assert (Hinv : Forall2 (λ w es, ∃ fresh, writer_inv crc32c fresh w es) ws ess).
  { eapply Forall2_impl; [exact Hws|]. intros w es [fr Hr]. exists fr. by apply writer_reach_inv. }
  exists (sort_entries (mjoin ess)). destruct (sort_entries_spec (mjoin ess)) as [Hp Hs].
  split; [|split; [done|split; [done|]]].
  - rewrite (merge_holds crc32c crc32c_u32 _ ((λ es, (es, [])) <$> ess)).
    + do 3 f_equal. rewrite <- list_fmap_compose. by rewrite list_fmap_id.
    + unfold segment_files. cbn. rewrite <- list_fmap_compose.
      apply Forall2_fmap. eapply Forall2_impl; [exact Hinv|]. intros w es Hi. by apply synced_holds.
  - intros i w es Hw Hes own.
    assert (Hown : own ≡ₚ es) by (unfold own; rewrite Hp; by rewrite (filter_own_entries crc32c ws ess i w es)).
    assert (Hso : StronglySorted entry_le own) by (by apply StronglySorted_filter).
    split; [done|]. intros Hr. split; [intros Heq; rewrite Heq in Hso; by apply sorted_in_order|]. intros Hord.
    destruct (writer_reach_inv crc32c true w es Hr) as [_ _ _ _ _ He Hfr].
    apply (sorted_perm_unique entry_le entry_lt); [apply entry_lt_not_le|done| |done].
    destruct (Hfr eq_refl) as (_ & _ & Hsq). by eapply in_order_sorted.
Qed.

(** [open] keeps exactly the whole records of every segment. For segments of
    which a crash left any prefix, [open] succeeds; each writer continues right
    behind the last whole record of its segment, the global epoch is the greatest
    epoch among the surviving entries, and merging then yields exactly these
    entries in order. *)
Theorem percore_open_recovers fs ess now :
  Forall2 (left_of crc32c) fs ess →
  ∃ m kept, PerCoreWalManager_open crc32c now (Some <$> fs) = Some (inl m) ∧
    Forall3 (λ f es es', ∃ k, whole crc32c f es k ∧ es' = take k es) fs ess kept ∧
    Forall2 (λ w es, bw_written (cw_writer w) = seg_bytes crc32c es ∧
                     cw_position w = zlen (seg_bytes crc32c es)) (wm_writers m) kept ∧
    wm_global_epoch m = foldl Z.max 0 (pe_epoch <$> mjoin kept) ∧
    PerCoreWalManager_merge_segments crc32c m = Some (inl (sort_entries (mjoin kept))).
Proof.
  intros Hleft.
  assert (Hsegs : ∃ segs, Forall2 (λ f seg, holds crc32c f seg.1 seg.2) fs segs ∧
            Forall3 (λ f es es', ∃ k, whole crc32c f es k ∧ es' = take k es) fs ess segs.*1).
  { induction Hleft as [|f es fs ess Hl _ (segs & IH1 & IH2)]; [exists []; split; constructor|].
    destruct (left_of_whole crc32c crc32c_u32 f es Hl) as (k & tail & Hk & Hh).
    exists ((take k es, tail) :: segs). split; constructor; eauto. }
  destruct Hsegs as (segs & Hh & H3). unfold PerCoreWalManager_open.
  rewrite (open_loop_spec crc32c crc32c_u32 now fs segs 0 [] 0 Hh). cbn [app].
  eexists _, segs.*1. split; [reflexivity|]. split; [done|]. cbn [wm_writers wm_global_epoch].
  assert (Hw : ∀ (f : nat → nat), Forall2 (λ w seg, bw_written (cw_writer w) = seg_bytes crc32c seg.1 ∧
        cw_position w = zlen (seg_bytes crc32c seg.1) ∧ holds crc32c (bw_inner (cw_writer w)) seg.1 [])
      (imap (λ i p, reopened crc32c now (f i) p.1 p.2.1) (zip fs segs)) segs).
  { clear H3 Hleft. induction Hh as [|f [es tail] fs segs Hx _ IH]; intros g; cbn; constructor; [|apply IH].
    destruct (reopened_spec crc32c now (g 0%nat) f es tail Hx) as [H1 H2]. cbn [fst snd].
    split; [done|]. split; [done|]. rewrite H2. destruct Hx as (Hd & Hf & _ & _ & Hm).
    rewrite Hd, length_app in Hm. cbn [fst snd] in *. unfold holds. cbn [f_data].
    rewrite app_nil_r. split; [done|]. split; [done|]. split; [done|]. split; [done|]. lia. }
  specialize (Hw (λ i, i)). split_and!; [|done|].
  - apply Forall2_fmap_r. eapply Forall2_impl; [exact Hw|]. naive_solver.
  - rewrite (merge_holds crc32c crc32c_u32 _ ((λ s, (s.1, [])) <$> segs)).
    + do 3 f_equal. by rewrite <- list_fmap_compose.
    + unfold segment_files. cbn [wm_writers]. apply Forall2_fmap. eapply Forall2_impl; [exact Hw|].
      naive_solver.
Qed.
End Properties.

(** ** Examples *)

#[local] Instance core_archive : Archive PerCoreWalEntry := countable_archive.
#[local] Instance core_archive_laws : ArchiveLaws PerCoreWalEntry := countable_archive_laws.

(** Two cores: core 0 writes in epochs 0 and 1, core 1 in epoch 0. *)
Definition writer_0 : CoreWalWriter :=
  let w := CoreWalWriter_new 0 0 None in
  let w := (CoreWalWriter_append_put sum32 20 w [1] [10]).1 in
  let w := CoreWalWriter_set_epoch w 1 in
  (CoreWalWriter_append_delete sum32 15 w [1]).1.
Definition writer_1 : CoreWalWriter :=
  (CoreWalWriter_append_put sum32 17 (CoreWalWriter_new 0 1 None) [1] [11]).1.
Definition log_0 : list PerCoreWalEntry := [mkEntry 0 0 0 20 (OpPut [1] [10]); mkEntry 1 1 0 15 (OpDelete [1])].
Definition log_1 : list PerCoreWalEntry := [mkEntry 0 0 1 17 (OpPut [1] [11])].

Lemma writer_0_reach : writer_reach sum32 true writer_0 log_0.
Proof.
  refine (wr_append sum32 true (CoreWalWriter_set_epoch _ 1) [mkEntry 0 0 0 20 (OpPut [1] [10])] 15
            (OpDelete [1]) _ _ _); [|vm_compute; discriminate|vm_compute; reflexivity].
  apply wr_set_epoch.
  refine (wr_append sum32 true (CoreWalWriter_new 0 0 None) [] 20 (OpPut [1] [10]) _ _ _);
    [apply wr_new; lia|vm_compute; discriminate|vm_compute; reflexivity].
Qed.
Lemma writer_1_reach : writer_reach sum32 true writer_1 log_1.
Proof.
  refine (wr_append sum32 true (CoreWalWriter_new 0 1 None) [] 17 (OpPut [1] [11]) _ _ _);
    [apply wr_new; lia|vm_compute; discriminate|vm_compute; reflexivity].
Qed.

Lemma percore_merge_program_order_witness :
  ∃ l, PerCoreWalManager_merge_segments sum32
         (PerCoreWalManager_sync_all 0 (mkWalManager 2 [writer_0; writer_1] 1)) = Some (inl l) ∧
    filter (λ e, pe_core_id e = 0) l = log_0.
Proof.
  destruct (percore_merge_program_order sum32 sum32_u32 2 [writer_0; writer_1] [log_0; log_1] 1 0)
    as (l & H1 & _ & _ & H2).
  - constructor; [exists true; exact writer_0_reach|]. constructor; [exists true; exact writer_1_reach|constructor].
  - refine (bool_decide_unpack _ _). vm_compute. exact I.
  - exists l. split; [exact H1|].
    refine (proj2 (proj2 (H2 0%nat writer_0 log_0 eq_refl eq_refl) writer_0_reach) _).
    repeat constructor.
Defined.

(** A core whose clock goes back within an epoch is merged out of order. *)
Example clock_back_reorders :
  sort_entries [mkEntry 0 0 0 20 (OpPut [1] [10]); mkEntry 0 1 0 15 (OpDelete [1])] =
    [mkEntry 0 1 0 15 (OpDelete [1]); mkEntry 0 0 0 20 (OpPut [1] [10])].
Proof. vm_compute. reflexivity. Qed.

(** What the merge returns: core 1 first in epoch 0, the later epoch last. *)
Example merged_logs :
  PerCoreWalManager_merge_segments sum32
    (PerCoreWalManager_sync_all 0 (mkWalManager 2 [writer_0; writer_1] 1)) =
  Some (inl [mkEntry 0 0 1 17 (OpPut [1] [11]); mkEntry 0 0 0 20 (OpPut [1] [10]);
             mkEntry 1 1 0 15 (OpDelete [1])]).
Proof. vm_compute. reflexivity. Qed.

(** The first segment lost the end of its second record. *)
Definition torn_segment : File :=
  let b := bw_written (cw_writer writer_0) in mkFile (take (length b - 3) b) 0.

Lemma percore_open_recovers_witness :
  ∃ m, PerCoreWalManager_open sum32 0 [Some torn_segment] = Some (inl m) ∧
    ∃ kept, PerCoreWalManager_merge_segments sum32 m = Some (inl (sort_entries (mjoin kept))).
Proof.
  destruct (percore_open_recovers sum32 sum32_u32 [torn_segment] [log_0] 0)
    as (m & kept & H1 & _ & _ & _ & H2).
  - constructor; [|constructor]. split; [|split].
    + constructor; [vm_compute; discriminate|]. constructor; [vm_compute; discriminate|constructor].
    + vm_compute. reflexivity.
    + apply prefix_take.
  - exists m. split; [exact H1|]. exists kept. exact H2.
Defined.
