(* ===== verification/CheckpointRecovery.v ===== *)
(** * Incremental checkpoints and recovery
    (crates/laminar-storage/src/incremental/manager.rs, incremental/recovery.rs,
    per_core_wal/coordinator.rs, per_core_wal/recovery.rs)

    [IncrementalCheckpointManager] keeps an in-memory state and writes checkpoint
    directories; [RecoveryManager] loads the latest checkpoint and replays the
    log; [PerCoreCheckpointCoordinator] merges the per-core segments into a
    checkpoint; [PerCoreRecoveryManager] recovers from checkpoint and segments.

    The checkpoint directory on disk is a map from checkpoint id to the contents
    of its directory (the names [checkpoint_<id in hex>] and the ids determine each
    other); every operation that touches it takes and returns it. The order in
    which a directory is listed is the parameter [read_dir]. serde_json is the
    pair [to_json], [from_json]. File-system calls succeed; clock readings are
    arguments. *)

From stdpp Require Import pretty.
From S2P Require Import Prelude StateStore Wal PerCoreWal.

(** ** Configuration and metadata (incremental/manager.rs) *)

(** Without the path of the directory itself, which is the [Disk] below. *)
Record CheckpointConfig := mkCheckpointConfig {
  cc_wal_path : option string;
  cc_interval : Duration;
  cc_max_retained : nat;
  cc_truncate_wal : bool;
  cc_min_wal_size_for_checkpoint : Z;
  cc_incremental : bool;
}.
Definition CheckpointConfig_new : CheckpointConfig :=
  mkCheckpointConfig None (from_secs 60) 3 true (64 * 1024 * 1024) true.
Definition CheckpointConfig_with_wal_path (c : CheckpointConfig) (path : string) :=
  mkCheckpointConfig (Some path) (cc_interval c) (cc_max_retained c) (cc_truncate_wal c)
    (cc_min_wal_size_for_checkpoint c) (cc_incremental c).
Definition CheckpointConfig_with_interval (c : CheckpointConfig) (d : Duration) :=
  mkCheckpointConfig (cc_wal_path c) d (cc_max_retained c) (cc_truncate_wal c) (cc_min_wal_size_for_checkpoint c)
    (cc_incremental c).
Definition CheckpointConfig_with_max_retained (c : CheckpointConfig) (n : nat) :=
  mkCheckpointConfig (cc_wal_path c) (cc_interval c) n (cc_truncate_wal c) (cc_min_wal_size_for_checkpoint c)
    (cc_incremental c).
Definition CheckpointConfig_with_incremental (c : CheckpointConfig) (b : bool) :=
  mkCheckpointConfig (cc_wal_path c) (cc_interval c) (cc_max_retained c) (cc_truncate_wal c)
    (cc_min_wal_size_for_checkpoint c) b.
Definition CheckpointConfig_with_truncate_wal (c : CheckpointConfig) (b : bool) :=
  mkCheckpointConfig (cc_wal_path c) (cc_interval c) (cc_max_retained c) b
    (cc_min_wal_size_for_checkpoint c) (cc_incremental c).
Definition CheckpointConfig_with_min_wal_size (c : CheckpointConfig) (n : Z) :=
  mkCheckpointConfig (cc_wal_path c) (cc_interval c) (cc_max_retained c) (cc_truncate_wal c) n
    (cc_incremental c).
Definition CheckpointConfig_validate (c : CheckpointConfig) : unit + IncrementalCheckpointError :=
  if (cc_max_retained c =? 0)%nat then inr (IcInvalidConfig "max_retained must be > 0")
  else if cc_interval c =? 0 then inr (IcInvalidConfig "interval must be > 0")
  else inl tt.

Record IncrementalCheckpointMetadata := mkMetadata {
  md_id : Z;
  md_epoch : Z;
  md_timestamp : Z;
  md_wal_position : Z;
  md_source_offsets : gmap string Z;
  md_watermark : option Z;
  md_size_bytes : Z;
  md_key_count : Z;
  md_is_incremental : bool;
  md_parent_id : option Z;
  md_sst_files : list string;
}.
Definition IncrementalCheckpointMetadata_new (timestamp id epoch : Z) : IncrementalCheckpointMetadata :=
  mkMetadata id epoch timestamp 0 ∅ None 0 0 true None [].

(** The order of [sort_by(|a, b| b.id.cmp(&a.id))]. *)
Definition newer_first (a b : IncrementalCheckpointMetadata) : Prop := md_id b <= md_id a.
#[export] Instance newer_first_dec a b : Decision (newer_first a b) := Z_le_dec _ _.
#[export] Instance newer_first_trans : Transitive newer_first.
Proof. unfold newer_first. intros ???. lia. Qed.
#[export] Instance newer_first_total : Total newer_first.
Proof. unfold newer_first. intros ??. lia. Qed.

(** The contents of a checkpoint directory. *)
Record CheckpointDir := mkDir { cd_metadata : option string; cd_state : option bytes }.
Abbreviation Disk := (gmap Z CheckpointDir).

(** [create_dir_all] and writing the files of a directory. *)
Definition create_dir (id : Z) (disk : Disk) : Disk :=
  match disk !! id with Some _ => disk | None => <[id := mkDir None None]> disk end.
Definition write_metadata (id : Z) (json : string) (disk : Disk) : Disk :=
  alter (λ d, mkDir (Some json) (cd_state d)) id disk.
Definition write_state (id : Z) (data : bytes) (disk : Disk) : Disk :=
  alter (λ d, mkDir (cd_metadata d) (Some data)) id disk.

Record IncrementalCheckpointManager := mkManager {
  mg_config : CheckpointConfig;
  mg_next_id : Z;
  mg_current_epoch : Z;
  mg_last_checkpoint_time : Z;
  mg_latest_checkpoint_id : option Z;
  mg_state : gmap bytes bytes;
  mg_source_offsets : gmap string Z;
  mg_watermark : option Z;
}.

Definition Manager_set_epoch (m : IncrementalCheckpointManager) (epoch : Z) :=
  mkManager (mg_config m) (mg_next_id m) epoch (mg_last_checkpoint_time m)
    (mg_latest_checkpoint_id m) (mg_state m) (mg_source_offsets m) (mg_watermark m).
Definition mg_set_state (s : gmap bytes bytes) (m : IncrementalCheckpointManager) :=
  mkManager (mg_config m) (mg_next_id m) (mg_current_epoch m) (mg_last_checkpoint_time m)
    (mg_latest_checkpoint_id m) s (mg_source_offsets m) (mg_watermark m).
Definition Manager_put (m : IncrementalCheckpointManager) (key value : bytes) :=
  mg_set_state (<[key := value]> (mg_state m)) m.
Definition Manager_delete (m : IncrementalCheckpointManager) (key : bytes) :=
  mg_set_state (delete key (mg_state m)) m.
Definition Manager_set_source_offset (m : IncrementalCheckpointManager) (source : string) (offset : Z) :=
  mkManager (mg_config m) (mg_next_id m) (mg_current_epoch m) (mg_last_checkpoint_time m)
    (mg_latest_checkpoint_id m) (mg_state m) (<[source := offset]> (mg_source_offsets m)) (mg_watermark m).
Definition Manager_set_watermark (m : IncrementalCheckpointManager) (wm : Z) :=
  mkManager (mg_config m) (mg_next_id m) (mg_current_epoch m) (mg_last_checkpoint_time m)
    (mg_latest_checkpoint_id m) (mg_state m) (mg_source_offsets m) (Some wm).
Definition Manager_should_checkpoint (now_secs : Z) (m : IncrementalCheckpointManager) : bool :=
  cc_interval (mg_config m) / 1000000000 <=? u64_sat_sub now_secs (mg_last_checkpoint_time m).

Section Checkpoints.
Context (to_json : IncrementalCheckpointMetadata → string + string).
Context (from_json : string → IncrementalCheckpointMetadata + string).
Context (read_dir : Disk → list (Z * CheckpointDir)).

(** The loop of [scan_checkpoints] over the directory entries. *)
Fixpoint scan_loop (entries : list (Z * CheckpointDir)) (max_dir_id : Z) (latest_valid_id : option Z)
    : Z * option Z :=
  match entries with
  | [] => (max_dir_id, latest_valid_id)
  | (id, d) :: entries =>
      let max_dir_id := if max_dir_id <=? id then id else max_dir_id in
      match cd_metadata d with
      | None => scan_loop entries max_dir_id latest_valid_id
      | Some _ =>
          scan_loop entries max_dir_id
            (if match latest_valid_id with None => true | Some prev => prev <=? id end
             then Some id else latest_valid_id)
      end
  end.
Definition scan_checkpoints (disk : Disk) : Z * option Z :=
  let '(max_dir_id, latest) := scan_loop (read_dir disk) 0 None in (u64_add max_dir_id 1, latest).

Definition Manager_new (disk : Disk) (config : CheckpointConfig)
    : IncrementalCheckpointManager + IncrementalCheckpointError :=
  match CheckpointConfig_validate config with
  | inr e => inr e
  | inl _ =>
      let '(next_id, latest_id) := scan_checkpoints disk in
      inl (mkManager config next_id 0 0 latest_id ∅ ∅ None)
  end.

Definition load_checkpoint_metadata (disk : Disk) (id : Z)
    : option IncrementalCheckpointMetadata + IncrementalCheckpointError :=
  match disk !! id with
  | None | Some (mkDir None _) => inl None
  | Some (mkDir (Some json) _) =>
      match from_json json with
      | inl metadata => inl (Some metadata)
      | inr e => inr (IcDeserialization e)
      end
  end.
Definition load_checkpoint_state (disk : Disk) (id : Z) : bytes + IncrementalCheckpointError :=
  match disk !! id with
  | Some (mkDir _ (Some data)) => inl data
  | _ => inr (IcNotFound ("State file not found for checkpoint " ++ pretty id)%string)
  end.
Definition find_latest_checkpoint (disk : Disk) (m : IncrementalCheckpointManager)
    : option IncrementalCheckpointMetadata + IncrementalCheckpointError :=
  match mg_latest_checkpoint_id m with
  | None => inl None
  | Some id => load_checkpoint_metadata disk id
  end.

(** Newest first; directories whose metadata is missing or unreadable are
    skipped. *)
Definition list_checkpoints (disk : Disk) : list IncrementalCheckpointMetadata :=
  merge_sort newer_first
    (omap (λ '(id, _), match load_checkpoint_metadata disk id with
                       | inl (Some metadata) => Some metadata
                       | _ => None
                       end) (read_dir disk)).

Definition cleanup_old_checkpoints_keep (disk : Disk) (keep_count : nat) : Disk :=
  let checkpoints := list_checkpoints disk in
  if (length checkpoints <=? keep_count)%nat then disk
  else foldl (λ disk c, delete (md_id c) disk) disk (drop keep_count checkpoints).
Definition cleanup_old_checkpoints (disk : Disk) (m : IncrementalCheckpointManager) : Disk :=
  cleanup_old_checkpoints_keep disk (cc_max_retained (mg_config m)).

(** The updates of the manager after the files are written. *)
Definition mg_next (m : IncrementalCheckpointManager) : IncrementalCheckpointManager :=
  mkManager (mg_config m) (u64_add (mg_next_id m) 1) (mg_current_epoch m) (mg_last_checkpoint_time m)
    (mg_latest_checkpoint_id m) (mg_state m) (mg_source_offsets m) (mg_watermark m).
Definition mg_created (id now : Z) (m : IncrementalCheckpointManager) : IncrementalCheckpointManager :=
  mkManager (mg_config m) (mg_next_id m) (mg_current_epoch m) now (Some id) (mg_state m)
    (mg_source_offsets m) (mg_watermark m).

(** [now] is the time in the metadata, [now'] the one recorded by the manager. *)
Definition Manager_create_checkpoint (now now' : Z) (disk : Disk) (m : IncrementalCheckpointManager)
    (wal_position : Z)
    : Disk * IncrementalCheckpointManager * (IncrementalCheckpointMetadata + IncrementalCheckpointError) :=
  let id := mg_next_id m in
  let parent := mg_latest_checkpoint_id m in
  let metadata := mkMetadata id (mg_current_epoch m) now wal_position ∅ None 0 0
    (cc_incremental (mg_config m) && bool_decide (is_Some parent)) parent [] in
  let m := mg_next m in
  let disk := create_dir id disk in
  match to_json metadata with
  | inr e => (disk, m, inr (IcSerialization e))
  | inl json =>
      let disk := write_metadata id json disk in
      let m := mg_created id now' m in
      (cleanup_old_checkpoints disk m, m, inl metadata)
  end.

Definition Manager_create_checkpoint_with_state (now now' : Z) (disk : Disk)
    (m : IncrementalCheckpointManager) (wal_position : Z) (source_offsets : gmap string Z)
    (watermark : option Z) (state_data : bytes)
    : Disk * IncrementalCheckpointManager * (IncrementalCheckpointMetadata + IncrementalCheckpointError) :=
  let id := mg_next_id m in
  let parent := mg_latest_checkpoint_id m in
  let metadata := mkMetadata id (mg_current_epoch m) now wal_position source_offsets watermark
    (zlen state_data) 0 (cc_incremental (mg_config m) && bool_decide (is_Some parent)) parent [] in
  let m := mg_next m in
  let disk := write_state id state_data (create_dir id disk) in
  match to_json metadata with
  | inr e => (disk, m, inr (IcSerialization e))
  | inl json =>
      let disk := write_metadata id json disk in
      let m := mg_created id now' m in
      (cleanup_old_checkpoints disk m, m, inl metadata)
  end.

Definition Manager_delete_checkpoint (disk : Disk) (m : IncrementalCheckpointManager) (id : Z)
    : Disk * IncrementalCheckpointManager * (unit + IncrementalCheckpointError) :=
  match disk !! id with
  | None => (disk, m, inr (IcNotFound ("Checkpoint " ++ pretty id ++ " not found")%string))
  | Some _ =>
      let disk := delete id disk in
      if bool_decide (mg_latest_checkpoint_id m = Some id) then
        (disk, mkManager (mg_config m) (mg_next_id m) (mg_current_epoch m) (mg_last_checkpoint_time m)
                 (md_id <$> head (list_checkpoints disk)) (mg_state m) (mg_source_offsets m)
                 (mg_watermark m), inl tt)
      else (disk, m, inl tt)
  end.

(** ** Recovery from one log (incremental/recovery.rs) *)

Record WalReplayResult := mkReplay {
  rp_entries_replayed : Z;
  rp_final_position : Z;
  rp_source_offsets : gmap string Z;
  rp_watermark : option Z;
  rp_state_changes : list (bytes * option bytes);
}.
Record RecoveredState := mkRecovered {
  rs_epoch : Z;
  rs_state_snapshot : option StateSnapshot;
  rs_wal_position : Z;
  rs_wal_entries_replayed : Z;
  rs_source_offsets : gmap string Z;
  rs_watermark : option Z;
  rs_checkpoint_id : option Z;
  rs_state_changes : list (bytes * option bytes);
}.
Definition RecoveredState_empty : RecoveredState := mkRecovered 0 None 0 0 ∅ None None [].
Definition RecoveredState_has_state (r : RecoveredState) : bool :=
  bool_decide (is_Some (rs_state_snapshot r)) || negb (bool_decide (rs_state_changes r = [])).

Record RecoveryConfig := mkRecoveryConfig {
  rc_repair_wal : bool;
  rc_collect_state_changes : bool;
  rc_max_wal_entries : Z;
}.
Definition RecoveryConfig_new : RecoveryConfig := mkRecoveryConfig true false 0.
Definition RecoveryConfig_with_collect_state_changes (c : RecoveryConfig) (b : bool) :=
  mkRecoveryConfig (rc_repair_wal c) b (rc_max_wal_entries c).
Definition RecoveryConfig_with_repair_wal (c : RecoveryConfig) (b : bool) :=
  mkRecoveryConfig b (rc_collect_state_changes c) (rc_max_wal_entries c).
Definition RecoveryConfig_with_max_wal_entries (c : RecoveryConfig) (n : Z) :=
  mkRecoveryConfig (rc_repair_wal c) (rc_collect_state_changes c) n.

Context (crc32c : bytes → Z) `{!Archive WalEntry} `{!Archive StateSnapshot}.

(** One entry of the replay. Inserting the offsets one by one makes them take
    precedence over the ones collected so far. *)
Definition replay_entry (collect : bool) (position : Z) (entry : WalEntry) (r : WalReplayResult)
    : WalReplayResult :=
  let n := u64_add (rp_entries_replayed r) 1 in
  match entry with
  | WPut key value =>
      mkReplay n position (rp_source_offsets r) (rp_watermark r)
        (if collect then rp_state_changes r ++ [(key, Some value)] else rp_state_changes r)
  | WDelete key =>
      mkReplay n position (rp_source_offsets r) (rp_watermark r)
        (if collect then rp_state_changes r ++ [(key, None)] else rp_state_changes r)
  | WCommit offsets watermark =>
      mkReplay n position (offsets ∪ rp_source_offsets r)
        (match watermark with Some _ => watermark | None => rp_watermark r end) (rp_state_changes r)
  | WCheckpoint _ => mkReplay n position (rp_source_offsets r) (rp_watermark r) (rp_state_changes r)
  end.

(** The loop of [replay_wal]; the fuel is one more than the number of bytes. The
    text of a read error is not modelled. *)
Fixpoint replay_loop (fuel : nat) (collect : bool) (max_entries : Z) (reader : WalReader)
    (r : WalReplayResult) : option (WalReplayResult + IncrementalCheckpointError) :=
  match fuel with
  | O => None
  | S fuel =>
      if max_entries <=? rp_entries_replayed r then Some (inl r)
      else
        match WalReader_read_next crc32c reader with
        | (reader, inl (ReadEntry entry)) =>
            replay_loop fuel collect max_entries reader
              (replay_entry collect (wr_position reader) entry r)
        | (_, inl _) => Some (inl r)
        | (_, inr _) => Some (inr (IcWal "WAL read error"))
        end
  end.

(** Also returns the file, which a repair may have cut. A failed repair is logged
    and ignored. *)
Definition replay_wal (now now1 now2 : Instant) (config : RecoveryConfig) (f : File)
    (start_position : Z) : option (File * (WalReplayResult + IncrementalCheckpointError)) :=
  let wal := WriteAheadLog_new now (Some f) (from_millis 100) in
  match (if rc_repair_wal config then fst <$> WriteAheadLog_repair crc32c now1 now2 wal
         else Some wal) with
  | None => None
  | Some wal =>
      let reader := WriteAheadLog_read_from wal start_position in
      let max_entries :=
        if 0 <? rc_max_wal_entries config then rc_max_wal_entries config else u64_MOD - 1 in
      r ← replay_loop (S (length (wr_rest reader))) (rc_collect_state_changes config) max_entries
            reader (mkReplay 0 start_position ∅ None []);
      Some (bw_inner (wl_writer wal), r)
  end.

Definition load_checkpoint (disk : Disk) (checkpoint : IncrementalCheckpointMetadata) : RecoveredState :=
  mkRecovered (md_epoch checkpoint)
    (match load_checkpoint_state disk (md_id checkpoint) with
     | inl state_data =>
         match from_bytes (T:=StateSnapshot) state_data with
         | inl snapshot => Some snapshot
         | inr _ => None
         end
     | inr _ => None
     end)
    (md_wal_position checkpoint) 0 (md_source_offsets checkpoint) (md_watermark checkpoint)
    (Some (md_id checkpoint)) [].

(** Step 2 of [recover]: fold the replay into what the checkpoint gave. *)
Definition merge_replay (collect : bool) (w : WalReplayResult) (r : RecoveredState) : RecoveredState :=
  mkRecovered (rs_epoch r) (rs_state_snapshot r) (rp_final_position w) (rp_entries_replayed w)
    (rp_source_offsets w ∪ rs_source_offsets r)
    (match rp_watermark w with Some _ => rp_watermark w | None => rs_watermark r end)
    (rs_checkpoint_id r) (if collect then rp_state_changes w else rs_state_changes r).

Definition RecoveryManager_recover (now now1 now2 : Instant) (config : RecoveryConfig) (disk : Disk)
    (wal : option File) : option (option File * (RecoveredState + IncrementalCheckpointError)) :=
  match Manager_new disk CheckpointConfig_new with
  | inr e => Some (wal, inr e)
  | inl manager =>
      match find_latest_checkpoint disk manager with
      | inr e => Some (wal, inr e)
      | inl latest =>
          let result := match latest with
                        | Some checkpoint => load_checkpoint disk checkpoint
                        | None => RecoveredState_empty
                        end in
          match wal with
          | None => Some (None, inl result)
          | Some f =>
              match replay_wal now now1 now2 config f (rs_wal_position result) with
              | None => None
              | Some (f, inr e) => Some (Some f, inr e)
              | Some (f, inl w) =>
                  Some (Some f, inl (merge_replay (rc_collect_state_changes config) w result))
              end
          end
      end
  end.

(** ** Checkpoints of the per-core log (per_core_wal/coordinator.rs) *)

Context `{!Archive PerCoreWalEntry}.

Record PerCoreCheckpointMetadata := mkPerCoreMetadata {
  pm_checkpoint : IncrementalCheckpointMetadata;
  pm_wal_positions : list Z;
  pm_entries_merged : Z;
}.
Record PerCoreCheckpointCoordinator := mkCoordinator {
  co_wal_manager : PerCoreWalManager;
  co_checkpoint_manager : IncrementalCheckpointManager;
}.

Definition PerCoreCheckpointCoordinator_new (disk : Disk) (wal_manager : PerCoreWalManager)
    (config : CheckpointConfig) : PerCoreCheckpointCoordinator + PerCoreWalError :=
  match Manager_new disk config with
  | inr e => inr (PcIncrementalCheckpoint e)
  | inl m => inl (mkCoordinator wal_manager m)
  end.

(** One operation applied to the manager. Setting the offsets one by one makes
    them take precedence. *)
Definition apply_operation (m : IncrementalCheckpointManager) (op : WalOperation)
    : IncrementalCheckpointManager :=
  match op with
  | OpPut key value => Manager_put m key value
  | OpDelete key => Manager_delete m key
  | OpCommit offsets watermark =>
      let m := mkManager (mg_config m) (mg_next_id m) (mg_current_epoch m) (mg_last_checkpoint_time m)
                 (mg_latest_checkpoint_id m) (mg_state m) (offsets ∪ mg_source_offsets m)
                 (mg_watermark m) in
      match watermark with Some wm => Manager_set_watermark m wm | None => m end
  | OpCheckpoint _ | OpEpochBarrier _ => m
  end.
Definition apply_entries_to_checkpoint (m : IncrementalCheckpointManager)
    (entries : list PerCoreWalEntry) : IncrementalCheckpointManager :=
  foldl (λ m e, apply_operation m (pe_operation e)) m entries.

(** Steps 1 to 7, which both kinds of checkpoint share. [ts] gives the clock of
    each core for its barrier. *)
Definition checkpoint_steps (now now' : Z) (ts : nat → Z) (disk : Disk)
    (c : PerCoreCheckpointCoordinator) (checkpoint_id : Z)
    : option (Disk * PerCoreCheckpointCoordinator * (PerCoreCheckpointMetadata + PerCoreWalError)) :=
  let '(wm, epoch) := PerCoreWalManager_advance_epoch (co_wal_manager c) in
  let wm := PerCoreWalManager_set_epoch_all wm epoch in
  match PerCoreWalManager_write_epoch_barrier_all crc32c ts wm with
  | (wm, inr e) => Some (disk, mkCoordinator wm (co_checkpoint_manager c), inr e)
  | (wm, inl _) =>
      let wm := PerCoreWalManager_sync_all now wm in
      let wal_positions := PerCoreWalManager_positions wm in
      match PerCoreWalManager_merge_segments crc32c wm with
      | None => None
      | Some (inr e) => Some (disk, mkCoordinator wm (co_checkpoint_manager c), inr e)
      | Some (inl merged_entries) =>
          let m := apply_entries_to_checkpoint (co_checkpoint_manager c) merged_entries in
          match Manager_create_checkpoint now now' disk m checkpoint_id with
          | (disk, m, inr e) => Some (disk, mkCoordinator wm m, inr (PcIncrementalCheckpoint e))
          | (disk, m, inl checkpoint) =>
              Some (disk, mkCoordinator wm m,
                    inl (mkPerCoreMetadata checkpoint wal_positions (zlen merged_entries)))
          end
      end
  end.

Definition Coordinator_create_checkpoint_no_truncate := checkpoint_steps.

Definition Coordinator_create_checkpoint (now now' now'' : Z) (ts : nat → Z) (disk : Disk)
    (c : PerCoreCheckpointCoordinator) (checkpoint_id : Z)
    : option (Disk * PerCoreCheckpointCoordinator * (PerCoreCheckpointMetadata + PerCoreWalError)) :=
  match checkpoint_steps now now' ts disk c checkpoint_id with
  | Some (disk, c, inl metadata) =>
      Some (disk, mkCoordinator (PerCoreWalManager_reset_all now'' (co_wal_manager c))
                    (co_checkpoint_manager c), inl metadata)
  | r => r
  end.

(** ** Recovery of the per-core log (per_core_wal/recovery.rs) *)

Record StateChange := mkStateChange {
  sc_key : bytes;
  sc_value : option bytes;
  sc_epoch : Z;
  sc_core_id : Z;
}.
Record PerCoreRecoveredState := mkPerCoreRecovered {
  pr_base_state : RecoveredState;
  pr_state_changes : list StateChange;
  pr_wal_positions : list Z;
  pr_entries_replayed : Z;
  pr_final_epoch : Z;
}.

Fixpoint read_all_segments (core_id : nat) (segments : list (option File)) (starting_positions : list Z)
    (all_entries : list PerCoreWalEntry) (final_positions : list Z)
    : option (list PerCoreWalEntry * list Z + PerCoreWalError) :=
  match segments with
  | [] => Some (inl (sort_entries all_entries, final_positions))
  | None :: segments =>
      read_all_segments (S core_id) segments starting_positions all_entries (final_positions ++ [0])
  | Some f :: segments =>
      let start_pos := default 0 (starting_positions !! core_id) in
      match PerCoreWalReader_read_all crc32c (PerCoreWalReader_open_from (Z.of_nat core_id) f start_pos) with
      | None => None
      | Some (_, inr e) => Some (inr e)
      | Some (reader, inl entries) =>
          read_all_segments (S core_id) segments starting_positions (all_entries ++ entries)
            (final_positions ++ [cr_position reader])
      end
  end.

Definition change_of (e : PerCoreWalEntry) : option StateChange :=
  match pe_operation e with
  | OpPut key value => Some (mkStateChange key (Some value) (pe_epoch e) (pe_core_id e))
  | OpDelete key => Some (mkStateChange key None (pe_epoch e) (pe_core_id e))
  | _ => None
  end.

Definition PerCoreRecoveryManager_recover_from_positions (now now1 now2 : Instant)
    (config : RecoveryConfig) (disk : Disk) (wal : option File) (segments : list (option File))
    (positions : list Z) : option (option File * (PerCoreRecoveredState + PerCoreWalError)) :=
  match RecoveryManager_recover now now1 now2 config disk wal with
  | None => None
  | Some (wal, inr e) => Some (wal, inr (PcIncrementalCheckpoint e))
  | Some (wal, inl base_state) =>
      let starting_positions :=
        if bool_decide (length positions = length segments) then positions
        else replicate (length segments) 0 in
      match read_all_segments 0 segments starting_positions [] [] with
      | None => None
      | Some (inr e) => Some (wal, inr e)
      | Some (inl (entries, wal_positions)) =>
          Some (wal, inl (mkPerCoreRecovered base_state (omap change_of entries) wal_positions
                            (zlen entries) (foldl Z.max (rs_epoch base_state) (pe_epoch <$> entries))))
      end
  end.
Definition PerCoreRecoveryManager_recover (now now1 now2 : Instant) (config : RecoveryConfig)
    (disk : Disk) (wal : option File) (segments : list (option File)) :=
  PerCoreRecoveryManager_recover_from_positions now now1 now2 config disk wal segments [].

Definition PerCoreRecoveryManager_recover_wal_only (segments : list (option File))
    : option (list PerCoreWalEntry + PerCoreWalError) :=
  match read_all_segments 0 segments (replicate (length segments) 0) [] [] with
  | None => None
  | Some (inr e) => Some (inr e)
  | Some (inl (entries, _)) => Some (inl entries)
  end.

(** Cut every segment at its last valid record; the cut is not synced. *)
Fixpoint repair_all_segments (core_id : nat) (segments : list (option File)) (valid_positions : list Z)
    : option (list (option File) * (list Z + PerCoreWalError)) :=
  match segments with
  | [] => Some ([], inl valid_positions)
  | None :: segments =>
      '(segments, r) ← repair_all_segments (S core_id) segments (valid_positions ++ [0]);
      Some (None :: segments, r)
  | Some f :: segments =>
      match PerCoreWalReader_find_valid_end crc32c (PerCoreWalReader_open (Z.of_nat core_id) f) with
      | None => None
      | Some (_, inr e) => Some (Some f :: segments, inr e)
      | Some (reader, inl valid_end) =>
          let f := if valid_end <? cr_file_len reader then file_set_len f (Z.to_nat valid_end) else f in
          '(segments, r) ← repair_all_segments (S core_id) segments (valid_positions ++ [valid_end]);
          Some (Some f :: segments, r)
      end
  end.
End Checkpoints.

(** ** What a replay computes *)

Definition entry_change (e : WalEntry) : option (bytes * option bytes) :=
  match e with WPut key value => Some (key, Some value) | WDelete key => Some (key, None) | _ => None end.
Definition wal_changes (es : list WalEntry) : list (bytes * option bytes) := omap entry_change es.
Definition entry_offsets (e : WalEntry) : gmap string Z :=
  match e with WCommit offsets _ => offsets | _ => ∅ end.
Definition entry_watermark (e : WalEntry) : option Z :=
  match e with WCommit _ watermark => watermark | _ => None end.
(** Offsets and watermark after the commits of [es], from given initial ones. *)
Definition commit_offsets (es : list WalEntry) (o : gmap string Z) : gmap string Z :=
  foldl (λ o e, entry_offsets e ∪ o) o es.
Definition commit_watermark (es : list WalEntry) (w : option Z) : option Z :=
  foldl (λ w e, match entry_watermark e with Some x => Some x | None => w end) w es.

(** The state that a sequence of changes produces. *)
Definition apply_change (s : gmap bytes bytes) (c : bytes * option bytes) : gmap bytes bytes :=
  match c.2 with Some v => <[c.1 := v]> s | None => delete c.1 s end.
Definition apply_changes (s : gmap bytes bytes) (cs : list (bytes * option bytes)) : gmap bytes bytes :=
  foldl apply_change s cs.
Definition state_after (es : list WalEntry) : gmap bytes bytes := apply_changes ∅ (wal_changes es).

Lemma commit_offsets_union es : ∀ a b, commit_offsets es (a ∪ b) = commit_offsets es a ∪ b.
Proof.
  induction es as [|e es IH]; intros a b; [done|]. cbn [commit_offsets foldl] in *.
  unfold commit_offsets in IH. by rewrite (assoc_L (∪)), IH.
Qed.
Lemma commit_offsets_empty es o : commit_offsets es ∅ ∪ o = commit_offsets es o.
Proof. by rewrite <- commit_offsets_union, (left_id_L ∅ (∪)). Qed.
Lemma commit_watermark_default es : ∀ w,
  commit_watermark es w = match commit_watermark es None with Some x => Some x | None => w end.
Proof.
  induction es as [|e es IH]; intros w; [done|].
  cbn [commit_watermark foldl] in *. unfold commit_watermark in IH.
  destruct (entry_watermark e) as [x|]; [|apply IH].
  rewrite (IH (Some x)). by destruct (foldl _ None es).
Qed.

Section Replay.
Context (crc32c : bytes → Z) (crc32c_u32 : ∀ d, is_u32 (crc32c d)).
Context `{!Archive WalEntry} `{!ArchiveLaws WalEntry}.

Lemma replay_entry_spec position e r :
  replay_entry true position e r =
    mkReplay (u64_add (rp_entries_replayed r) 1) position (entry_offsets e ∪ rp_source_offsets r)
      (match entry_watermark e with Some x => Some x | None => rp_watermark r end)
      (rp_state_changes r ++ option_list (entry_change e)).
Proof.
  destruct e as [| | |o [x|]]; cbn; by rewrite ?(left_id_L ∅ (∪)), ?app_nil_r.
Qed.

(** The replay of a log that reaches the end of the file. *)
Lemma replay_loop_spec es : ∀ fuel max reader r,
  Forall entry_fits es → reader_ok reader → wr_rest reader = log_bytes crc32c es →
  (length es < fuel)%nat → 0 <= rp_entries_replayed r →
  rp_entries_replayed r + zlen es < max → max < u64_MOD →
  replay_loop crc32c fuel true max reader r =
    Some (inl (mkReplay (rp_entries_replayed r + zlen es)
                 (match es with [] => rp_final_position r | _ => wr_file_len reader end)
                 (commit_offsets es (rp_source_offsets r)) (commit_watermark es (rp_watermark r))
                 (rp_state_changes r ++ wal_changes es))).
Proof.
  induction es as [|e es IH]; intros fuel max reader r Hes Hr Hrest Hf H0 Hn Hmax;
    (destruct fuel as [|fuel]; [simpl in Hf; lia|]); cbn [replay_loop];
    (destruct (Z.leb_spec max (rp_entries_replayed r)); [simpl in Hn; lia|]).
  - rewrite read_next_head by done. rewrite Hrest. cbn. rewrite Z.add_0_r, app_nil_r.
    by destruct r.
  - apply Forall_cons in Hes as [He Hes].
    destruct (read_entries_spec crc32c crc32c_u32 [e] (log_bytes crc32c es) 2 reader)
      as (reader' & Hread & Hr' & Hrest' & Hfl & Hpos);
      [by constructor| |done| |simpl; lia|].
    { destruct es as [|e' es]; [done|]. unfold log_bytes. rewrite fmap_cons, frames_cons.
      apply len_nonneg_frame, fits_u32; [done|]. by apply Forall_cons in Hes as [? _]. }
    { rewrite Hrest. change (e :: es) with ([e] ++ es). apply log_bytes_app. }
    assert (Hnext : WalReader_read_next crc32c reader = (reader', inl (ReadEntry e))).
    { rewrite read_next_head by done.
      assert (Hfr : wr_rest reader = frame crc32c (wdata e) ++ log_bytes crc32c es) by done.
      rewrite Hfr, parse_frame by done. cbn [head_read head_rest].
      destruct (wdata_spec e) as [_ ->]. destruct reader' as [rest' pos' fl']. simpl in *.
      destruct Hr' as (_ & _ & Hl & _). simpl in Hl. rewrite Hrest', Hfl in *.
      do 2 f_equal. lia. }
    rewrite Hnext.
    assert (Hadd : u64_add (rp_entries_replayed r) 1 = rp_entries_replayed r + 1)
      by (apply wrap_u64_small; unfold is_u64; simpl in Hn; lia).
    rewrite IH; [|done..|simpl in Hf; lia| | |done].
    + rewrite replay_entry_spec, Hadd, Hfl.
      cbn [rp_entries_replayed rp_final_position rp_source_offsets rp_watermark rp_state_changes].
      do 2 f_equal. f_equal; [simpl; lia| |].
      * destruct es; [|done]. destruct Hr' as (_ & _ & Hl & _). rewrite Hrest' in Hl. simpl in Hl. lia.
      * rewrite <- app_assoc. f_equal. cbn. by destruct (entry_change e).
    + rewrite replay_entry_spec. simpl. lia.
    + rewrite replay_entry_spec, Hadd. simpl in *. lia.
Qed.
End Replay.

(** ** Checkpoint directories *)

Section Directories.
Context (from_json : string → IncrementalCheckpointMetadata + string).
Context (read_dir : Disk → list (Z * CheckpointDir)).
Context (read_dir_perm : ∀ d, read_dir d ≡ₚ map_to_list d).

(** Ids of the directories that have a metadata file. *)
Definition valid_ids (l : list (Z * CheckpointDir)) : list Z :=
  omap (λ p, (λ _, p.1) <$> cd_metadata p.2) l.

Lemma scan_loop_spec l : ∀ mx latest,
  scan_loop l mx latest =
    (foldl Z.max mx l.*1,
     match list_max (valid_ids l), latest with
     | None, _ => latest
     | Some m, None => Some m
     | Some m, Some p => Some (Z.max p m)
     end).
Proof.
  induction l as [|[id d] l IH]; intros mx latest; [done|]. cbn [scan_loop fmap list_fmap foldl fst].
  replace (if mx <=? id then id else mx) with (Z.max mx id) by (zcase; lia).
  unfold valid_ids in *. cbn [omap list_omap]. simpl. destruct (cd_metadata d); simpl; [|apply IH].
  rewrite IH. f_equal. destruct latest as [p|]; simpl.
  - destruct (Z.leb_spec p id); destruct (list_max _); simpl; f_equal; lia.
  - destruct (list_max _); simpl; f_equal; lia.
Qed.

Lemma elem_of_valid_ids disk id :
  id ∈ valid_ids (read_dir disk) ↔ ∃ d, disk !! id = Some d ∧ is_Some (cd_metadata d).
Proof.
  unfold valid_ids. rewrite list_elem_of_omap. split.
  - intros ([id' d] & Hin & Hd). rewrite read_dir_perm, elem_of_map_to_list in Hin. simpl in Hd.
    destruct (cd_metadata d) eqn:E; simplify_eq/=. exists d. split; [done|by rewrite E].
  - intros (d & Hd & [j Hj]). exists (id, d). rewrite read_dir_perm, elem_of_map_to_list.
    split; [done|]. simpl. by rewrite Hj.
Qed.

(** [scan_checkpoints] finds the greatest id with metadata, and an id above all. *)
Lemma scan_latest disk id :
  (∃ d, disk !! id = Some d ∧ is_Some (cd_metadata d)) →
  (∀ id' d, disk !! id' = Some d → is_Some (cd_metadata d) → id' <= id) →
  (scan_checkpoints read_dir disk).2 = Some id.
Proof.
  intros Hid Hmax. unfold scan_checkpoints. rewrite scan_loop_spec. simpl.
  assert (Hm : list_max (valid_ids (read_dir disk)) = Some id); [|by rewrite Hm].
  apply list_max_Some. split; [by apply elem_of_valid_ids|].
  intros x (d & Hd & Hj)%elem_of_valid_ids. eauto.
Qed.

(** Directory names and metadata agree; ids handed out so far are below [next]. *)
Definition disk_ok (disk : Disk) (next : Z) : Prop :=
  ∀ id d, disk !! id = Some d →
    0 <= id < next ∧ ∀ j m, cd_metadata d = Some j → from_json j = inl m → md_id m = id.

Lemma load_metadata_Some disk id m :
  load_checkpoint_metadata from_json disk id = inl (Some m) ↔
  ∃ d j, disk !! id = Some d ∧ cd_metadata d = Some j ∧ from_json j = inl m.
Proof.
  unfold load_checkpoint_metadata. split.
  - destruct (disk !! id) as [[[j|] s]|] eqn:E; [|done..]. destruct (from_json j) eqn:Ej; [|done].
    intros [= ->]. eauto.
  - intros ([mj s] & j & -> & Hj & Hf). simpl in Hj. subst. by rewrite Hf.
Qed.

Definition id_above (a b : IncrementalCheckpointMetadata) : Prop := md_id b < md_id a.

(** [list_checkpoints] lists the readable checkpoints, newest first. *)
Lemma list_checkpoints_spec disk next :
  disk_ok disk next →
  StronglySorted id_above (list_checkpoints from_json read_dir disk) ∧
  ∀ m, m ∈ list_checkpoints from_json read_dir disk ↔
       load_checkpoint_metadata from_json disk (md_id m) = inl (Some m).
Proof.
  intros Hok. unfold list_checkpoints. set (f := λ '(id, _), _).
  assert (Hf : ∀ p m, f p = Some m ↔ load_checkpoint_metadata from_json disk p.1 = inl (Some m)).
  { intros [id d] m. simpl. destruct (load_checkpoint_metadata from_json disk id) as [[]|]; naive_solver. }
  assert (Hid : ∀ id m, load_checkpoint_metadata from_json disk id = inl (Some m) → md_id m = id).
  { intros id m (d & j & Hd & Hj & Hm)%load_metadata_Some. destruct (Hok id d Hd) as [_ H]. eauto. }
  split.
  - assert (Hnd : NoDup (md_id <$> omap f (read_dir disk))).
    { assert (Hnd0 : NoDup (read_dir disk).*1) by (rewrite read_dir_perm; apply NoDup_fst_map_to_list).
      induction (read_dir disk) as [|p l IH]; [constructor|].
      apply NoDup_cons in Hnd0 as [Hni Hnd0]. cbn [omap list_omap].
      destruct (f p) as [m|] eqn:E; [|by apply IH]. cbn [fmap list_fmap]. apply NoDup_cons.
      split; [|by apply IH]. intros (m' & Heq & (q & Hq & Hfq)%list_elem_of_omap)%list_elem_of_fmap.
      apply Hf, Hid in E, Hfq. apply Hni. apply list_elem_of_fmap. exists q. split; [congruence|done]. }
    pose proof (StronglySorted_merge_sort newer_first (omap f (read_dir disk))) as Hs.
    rewrite <- (merge_sort_Permutation newer_first (omap f (read_dir disk))) in Hnd.
    induction Hs as [|m l Hs IH Hall]; constructor.
    + apply IH. by apply NoDup_cons in Hnd as [_ ?].
    + apply NoDup_cons in Hnd as [Hni _]. rewrite Forall_forall in *. intros m' Hm'.
      specialize (Hall m' Hm'). unfold newer_first, id_above in *.
      assert (md_id m' ≠ md_id m); [|lia]. intros Heq. apply Hni. rewrite <- Heq.
      by apply list_elem_of_fmap_2.
  - intros m. rewrite merge_sort_Permutation, list_elem_of_omap. split.
    + intros (p & _ & Hp%Hf). by rewrite (Hid _ _ Hp).
    + intros Hm. pose proof Hm as (d & j & Hd & _)%load_metadata_Some. exists (md_id m, d).
      rewrite read_dir_perm, elem_of_map_to_list. split; [done|by apply Hf].
Qed.

(** Two such lists with the same elements are equal. *)
Lemma id_sorted_ext l k :
  StronglySorted id_above l → StronglySorted id_above k → (∀ m, m ∈ l ↔ m ∈ k) → l = k.
Proof.
  assert (Hnd : ∀ l, StronglySorted id_above l → NoDup l).
  { induction 1 as [|m l' _ IH Hall]; constructor; [|done]. intros Hin.
    rewrite Forall_forall in Hall. specialize (Hall m Hin). unfold id_above in Hall. lia. }
  intros Hl Hk Heq. apply (sorted_perm_unique id_above id_above); [|done|done|].
  - unfold id_above. lia.
  - apply NoDup_Permutation; auto.
Qed.

(** Removing directories. *)
Lemma delete_all_lookup (cs : list IncrementalCheckpointMetadata) : ∀ (disk : Disk) id,
  foldl (λ disk c, delete (md_id c) disk) disk cs !! id =
    if decide (id ∈ md_id <$> cs) then None else disk !! id.
Proof.
  induction cs as [|c cs IH]; intros disk id; [done|]. cbn [foldl]. rewrite IH.
  destruct (decide (id = md_id c)) as [-> |Hne].
  - rewrite lookup_delete_eq. repeat case_decide; set_solver.
  - rewrite lookup_delete_ne by done. repeat case_decide; set_solver.
Qed.

Lemma cleanup_spec disk next keep :
  disk_ok disk next →
  let disk' := cleanup_old_checkpoints_keep from_json read_dir disk keep in
  disk_ok disk' next ∧
  list_checkpoints from_json read_dir disk' = take keep (list_checkpoints from_json read_dir disk) ∧
  ∀ id, id ∉ md_id <$> drop keep (list_checkpoints from_json read_dir disk) → disk' !! id = disk !! id.
Proof.
  intros Hok. destruct (list_checkpoints_spec disk next Hok) as [Hso Hin].
  unfold cleanup_old_checkpoints_keep. set (l := list_checkpoints from_json read_dir disk) in *.
  destruct (Nat.leb_spec (length l) keep).
  { fold l. rewrite take_ge by done. done. }
  set (disk' := foldl _ disk (drop keep l)).
  assert (Hlk : ∀ id, disk' !! id = if decide (id ∈ md_id <$> drop keep l) then None else disk !! id)
    by apply delete_all_lookup.
  assert (Hok' : disk_ok disk' next).
  { intros id d. rewrite Hlk. case_decide; [done|]. apply Hok. }
  split_and!; [done| |intros id Hni; rewrite Hlk; by rewrite decide_False].
  destruct (list_checkpoints_spec disk' next Hok') as [Hso' Hin'].
  rewrite <- (take_drop keep l) in Hso. apply StronglySorted_app in Hso as (Hcross & Hs1 & Hs2).
  apply id_sorted_ext; [done|done|]. intros m. rewrite Hin', load_metadata_Some, Hlk. split.
  - intros (d & j & Hd & Hj & Hm). case_decide as Hc; [done|].
    assert (Hml : m ∈ l) by (apply Hin; rewrite load_metadata_Some; eauto).
    rewrite <- (take_drop keep l) in Hml. apply elem_of_app in Hml as [|Hml]; [done|].
    destruct Hc. by apply list_elem_of_fmap_2.
  - intros Hm. assert (Hml : m ∈ l) by (rewrite <- (take_drop keep l); set_solver).
    apply Hin, load_metadata_Some in Hml as (d & j & Hd & Hj & Hf). rewrite decide_False; [eauto|].
    intros (m' & Heq & Hm')%list_elem_of_fmap. specialize (Hcross m m' Hm Hm').
    unfold id_above in Hcross. lia.
Qed.

(** Adding a checkpoint with a fresh id puts it first. *)
Lemma list_checkpoints_insert disk next m j st :
  disk_ok disk next → md_id m = next → 0 <= next → from_json j = inl m →
  let disk' := <[next := mkDir (Some j) st]> disk in
  disk_ok disk' (next + 1) ∧
  list_checkpoints from_json read_dir disk' = m :: list_checkpoints from_json read_dir disk.
Proof.
  intros Hok Hid H0 Hj disk'.
  assert (Hok' : disk_ok disk' (next + 1)).
  { intros id d. unfold disk'. rewrite lookup_insert_Some. intros [[<- <-]|[Hne Hd]]; simpl.
    - split; [lia|]. intros j0 m0 [= <-] Hj0. congruence.
    - destruct (Hok id d Hd). split; [lia|done]. }
  split; [done|].
  destruct (list_checkpoints_spec disk next Hok) as [Hso Hin].
  destruct (list_checkpoints_spec disk' (next + 1) Hok') as [Hso' Hin'].
  apply id_sorted_ext; [done| |].
  - constructor; [done|]. rewrite Forall_forall. intros m' Hm'.
    apply Hin, load_metadata_Some in Hm' as (d & j' & Hd & _). destruct (Hok _ _ Hd) as [? _].
    unfold id_above. lia.
  - intros m'. rewrite elem_of_cons, Hin, Hin', !load_metadata_Some. unfold disk'. split.
    + intros (d & j' & Hd & Hj' & Hf). apply lookup_insert_Some in Hd as [[_ <-]|[_ Hd]]; [|eauto 10].
      simpl in Hj'. left. congruence.
    + intros [->|(d & j' & Hd & Hj' & Hf)].
      * exists (mkDir (Some j) st), j. rewrite Hid, lookup_insert_eq. done.
      * exists d, j'. split; [|done]. rewrite lookup_insert_ne; [done|].
        destruct (Hok _ _ Hd) as [? _]. lia.
Qed.

Lemma disk_fresh disk next : disk_ok disk next → disk !! next = None.
Proof. intros Hok. destruct (disk !! next) as [d|] eqn:E; [|done]. destruct (Hok _ _ E). lia. Qed.

Lemma create_writes disk next j :
  disk_ok disk next →
  write_metadata next j (create_dir next disk) = <[next := mkDir (Some j) None]> disk.
Proof.
  intros Hok. unfold write_metadata, create_dir. by rewrite (disk_fresh _ _ Hok), alter_insert_eq.
Qed.
Lemma create_writes_state disk next j data :
  disk_ok disk next →
  write_metadata next j (write_state next data (create_dir next disk)) =
    <[next := mkDir (Some j) (Some data)]> disk.
Proof.
  intros Hok. unfold write_metadata, write_state, create_dir.
  by rewrite (disk_fresh _ _ Hok), !alter_insert_eq.
Qed.

(** The directory after a checkpoint was written and old ones removed. *)
Lemma checkpoint_written disk next m j st keep :
  disk_ok disk next → md_id m = next → 0 <= next → from_json j = inl m → (0 < keep)%nat →
  let disk' := cleanup_old_checkpoints_keep from_json read_dir (<[next := mkDir (Some j) st]> disk) keep in
  disk_ok disk' (next + 1) ∧ disk' !! next = Some (mkDir (Some j) st) ∧
  list_checkpoints from_json read_dir disk' = take keep (m :: list_checkpoints from_json read_dir disk).
Proof.
  intros Hok Hid H0 Hj Hk disk'.
  destruct (list_checkpoints_insert disk next m j st Hok Hid H0 Hj) as [Hok1 Hl1].
  destruct (cleanup_spec _ (next + 1) keep Hok1) as (Hok' & Hl' & Hlk).
  fold disk' in Hok', Hl', Hlk. rewrite Hl1 in Hl', Hlk. split_and!; try done.
  rewrite Hlk; [apply lookup_insert_eq|]. destruct keep as [|keep]; [lia|]. cbn [drop].
  intros (m' & Heq & Hm')%list_elem_of_fmap.
  assert (Hin : m' ∈ list_checkpoints from_json read_dir disk)
    by (rewrite <- (take_drop keep (list_checkpoints _ _ _)); set_solver).
  apply (list_checkpoints_spec disk next Hok) in Hin.
  apply load_metadata_Some in Hin as (d & _ & Hd & _). destruct (Hok _ _ Hd). lia.
Qed.

(** Recovery finds the checkpoint with the greatest id. *)
Lemma find_latest_spec disk next m j st :
  disk_ok disk (next + 1) → disk !! next = Some (mkDir (Some j) st) → from_json j = inl m →
  ∃ mg, Manager_new read_dir disk CheckpointConfig_new = inl mg ∧
    find_latest_checkpoint from_json disk mg = inl (Some m).
Proof.
  intros Hok Hd Hj.
  assert (Hlat : (scan_checkpoints read_dir disk).2 = Some next).
  { apply scan_latest; [by eexists|]. intros id' d' Hd' _. destruct (Hok _ _ Hd'). lia. }
  unfold Manager_new. cbn. destruct (scan_checkpoints read_dir disk) as [n l]. cbn in Hlat. subst.
  eexists. split; [reflexivity|]. unfold find_latest_checkpoint. cbn.
  apply load_metadata_Some. eauto.
Qed.
End Directories.

(** ** Properties *)

Section Properties.
Context (to_json : IncrementalCheckpointMetadata → string + string).
Context (from_json : string → IncrementalCheckpointMetadata + string).
Context (json_roundtrip : ∀ m, ∃ j, to_json m = inl j ∧ from_json j = inl m).
Context (read_dir : Disk → list (Z * CheckpointDir)).
Context (read_dir_perm : ∀ d, read_dir d ≡ₚ map_to_list d).
Context (crc32c : bytes → Z) (crc32c_u32 : ∀ d, is_u32 (crc32c d)).
Context `{!Archive WalEntry} `{!ArchiveLaws WalEntry} `{!Archive StateSnapshot}.
Context `{!Archive PerCoreWalEntry} `{!ArchiveLaws PerCoreWalEntry}.

(** What [create_checkpoint] does to the directory. *)
Lemma create_checkpoint_spec now now' disk m wal_position :
  disk_ok from_json disk (mg_next_id m) → 0 <= mg_next_id m →
  (0 < cc_max_retained (mg_config m))%nat →
  let md := mkMetadata (mg_next_id m) (mg_current_epoch m) now wal_position ∅ None 0 0
    (cc_incremental (mg_config m) && bool_decide (is_Some (mg_latest_checkpoint_id m)))
    (mg_latest_checkpoint_id m) [] in
  ∃ disk' j,
    Manager_create_checkpoint to_json from_json read_dir now now' disk m wal_position =
      (disk', mg_created (mg_next_id m) now' (mg_next m), inl md) ∧
    from_json j = inl md ∧ disk_ok from_json disk' (mg_next_id m + 1) ∧
    disk' !! mg_next_id m = Some (mkDir (Some j) None) ∧
    list_checkpoints from_json read_dir disk' =
      take (cc_max_retained (mg_config m)) (md :: list_checkpoints from_json read_dir disk).
Proof.
  intros Hok H0 Hk md. unfold Manager_create_checkpoint. fold md.
  destruct (json_roundtrip md) as (j & Hto & Hfrom). rewrite Hto.
  rewrite (create_writes from_json) by done. unfold cleanup_old_checkpoints.
  destruct (checkpoint_written from_json read_dir read_dir_perm disk (mg_next_id m) md j None
              (cc_max_retained (mg_config m)) Hok eq_refl H0 Hfrom Hk) as (Hok' & Hd' & Hl').
  by eexists _, j.
Qed.

(** Retention. Creating a checkpoint gives it a fresh id and leaves exactly
    the newest [max_retained] checkpoints, the new one among them, whatever order
    the directory is listed in; the manager's records stay consistent with the
    directory. *)
Theorem checkpoint_retention now now' disk m wal_position :
  disk_ok from_json disk (mg_next_id m) → 0 <= mg_next_id m → mg_next_id m + 1 < u64_MOD →
  (0 < cc_max_retained (mg_config m))%nat →
  ∃ disk' m' md,
    Manager_create_checkpoint to_json from_json read_dir now now' disk m wal_position =
      (disk', m', inl md) ∧
    md_id md = mg_next_id m ∧ md_parent_id md = mg_latest_checkpoint_id m ∧
    list_checkpoints from_json read_dir disk' =
      take (cc_max_retained (mg_config m)) (md :: list_checkpoints from_json read_dir disk) ∧
    mg_latest_checkpoint_id m' = Some (md_id md) ∧ mg_next_id m' = mg_next_id m + 1 ∧
    disk_ok from_json disk' (mg_next_id m') ∧
    find_latest_checkpoint from_json disk' m' = inl (Some md).
Proof.
  intros Hok H0 Hnx Hk.
  destruct (create_checkpoint_spec now now' disk m wal_position Hok H0 Hk)
    as (disk' & j & Heq & Hj & Hok' & Hd' & Hl').
  assert (Hn : u64_add (mg_next_id m) 1 = mg_next_id m + 1)
    by (apply wrap_u64_small; unfold is_u64; lia).
  eexists disk', _, _. split; [exact Heq|].
  cbn [mg_created mg_next mg_latest_checkpoint_id mg_next_id]. rewrite Hn. split_and!; try done.
  unfold find_latest_checkpoint. cbn. apply load_metadata_Some. eauto.
Qed.

(** Replaying what a crash left of a log from the start of entry [k] of it. *)
Lemma replay_crashed w es d k f t0 t1 t2 :
  wal_reach crc32c w es d → (k <= d)%nat → crash w f → zlen es < u64_MOD - 1 →
  ∃ n f', (k <= n <= length es)%nat ∧
    (∀ i, (i <= length es)%nat →
       (i <= n ↔ length (log_bytes crc32c (take i es)) <= length (f_data f))%nat) ∧
    replay_wal crc32c t0 t1 t2 (RecoveryConfig_with_collect_state_changes RecoveryConfig_new true) f
      (zlen (log_bytes crc32c (take k es))) =
      Some (f', inl (mkReplay (Z.of_nat (n - k)) (zlen (log_bytes crc32c (take n es)))
                       (commit_offsets (drop k (take n es)) ∅) (commit_watermark (drop k (take n es)) None)
                       (wal_changes (drop k (take n es))))).
Proof.
  intros Hw Hkd [Hdur Hpre] Hes.
  pose proof (reach_rep crc32c crc32c_u32 w es d Hw) as [Hb _ Hf Hs Hd _ Hc]. rewrite Hb in Hpre.
  destruct (repair_prefix crc32c crc32c_u32 es f t0 (from_millis 100) t1 t2 Hf Hs Hpre)
    as (w' & n & Hrep & Hwrep & Hn & Hmax).
  assert (Hkn : (k <= n)%nat).
  { apply Hmax; [lia|]. etrans; [|exact Hdur]. etrans; [|exact Hd].
    unfold log_bytes. rewrite !fmap_take. by apply frames_take_mono. }
  pose proof (repair_unbuffered crc32c _ _ _ _ _ Hrep) as Hbuf.
  destruct (read_from_boundary crc32c crc32c_u32 w' (take n es) n k Hwrep Hbuf) as [Hr Hrest].
  rewrite take_take, Nat.min_l in Hr, Hrest by lia.
  eexists n, _. split; [lia|]. split; [exact Hmax|]. unfold replay_wal.
  cbn [RecoveryConfig_with_collect_state_changes RecoveryConfig_new rc_repair_wal rc_collect_state_changes
       rc_max_wal_entries]. rewrite Hrep. cbn [fmap option_fmap option_map fst].
  assert (Hdl : length (drop k (take n es)) = (n - k)%nat) by (rewrite length_drop, length_take; lia).
  rewrite (replay_loop_spec crc32c crc32c_u32 (drop k (take n es)));
    [|by apply Forall_drop, Forall_take|done|done| |simpl; lia
    |change (0 + zlen (drop k (take n es)) < u64_MOD - 1); lia|done].
  2: { rewrite Hrest. unfold log_bytes. pose proof (frames_count crc32c (wdata <$> drop k (take n es))) as Hcnt.
       rewrite length_fmap in Hcnt. lia. }
  cbn [mbind option_bind]. do 3 f_equal. f_equal; [cbn; lia|].
  destruct (drop k (take n es)) eqn:E; [|].
  - assert (k = n) as -> by (simpl in Hdl; lia). done.
  - destruct Hwrep as [Hb' _ _ _ _ _ _]. unfold bw_written in Hb'. rewrite Hbuf, app_nil_r in Hb'.
    simpl. by rewrite Hb'.
Qed.

(** [C6]: recovery restores the state. Let a log hold [es], let its first [k]
    entries be synced, and let a checkpoint have been written with the state after
    these [k] entries, the offsets and the watermark, at the log position behind
    them. Then for every file that a crash can leave of the log, recovery succeeds:
    it finds that checkpoint and replays exactly the surviving entries behind it,
    so that applying the returned changes to the returned snapshot gives the state
    after the first [n >= k] entries, where [n] counts all whole records that
    survived; offsets and watermark are those of the checkpoint updated by the
    replayed commits. *)
Theorem recovery_restores_state now now' disk m w es d k f o wm sn data t0 t1 t2 :
  disk_ok from_json disk (mg_next_id m) → 0 <= mg_next_id m →
  (0 < cc_max_retained (mg_config m))%nat →
  wal_reach crc32c w es d → (k <= d)%nat → crash w f → zlen es < u64_MOD - 1 →
  from_bytes data = inl sn → list_to_map (sn_data sn) = state_after (take k es) →
  let '(disk', _, r) := Manager_create_checkpoint_with_state to_json from_json read_dir now now' disk m
        (zlen (log_bytes crc32c (take k es))) o wm data in
  ∃ md n f' st, r = inl md ∧ (k <= n <= length es)%nat ∧
    (∀ i, (i <= length es)%nat →
       (i <= n ↔ length (log_bytes crc32c (take i es)) <= length (f_data f))%nat) ∧
    RecoveryManager_recover from_json read_dir crc32c t0 t1 t2
      (RecoveryConfig_with_collect_state_changes RecoveryConfig_new true) disk' (Some f) =
      Some (Some f', inl st) ∧
    rs_state_snapshot st = Some sn ∧ rs_checkpoint_id st = Some (md_id md) ∧
    apply_changes (list_to_map (sn_data sn)) (rs_state_changes st) = state_after (take n es) ∧
    rs_source_offsets st = commit_offsets (drop k (take n es)) o ∧
    rs_watermark st = commit_watermark (drop k (take n es)) wm ∧
    rs_wal_position st = zlen (log_bytes crc32c (take n es)) ∧
    rs_wal_entries_replayed st = Z.of_nat (n - k).
Proof.
  intros Hok H0 Hk Hw Hkd Hcr Hes Hsn Hst. unfold Manager_create_checkpoint_with_state.
  set (md := mkMetadata _ _ _ _ _ _ _ _ _ _ _).
  destruct (json_roundtrip md) as (j & Hto & Hfrom). rewrite Hto.
  rewrite (create_writes_state from_json) by done. unfold cleanup_old_checkpoints.
  destruct (checkpoint_written from_json read_dir read_dir_perm disk (mg_next_id m) md j (Some data)
              (cc_max_retained (mg_config m)) Hok eq_refl H0 Hfrom Hk) as (Hok' & Hd' & _).
  change (mg_config (mg_created _ _ _)) with (mg_config m).
  set (disk' := cleanup_old_checkpoints_keep _ _ _ _) in *.
  destruct (find_latest_spec from_json read_dir read_dir_perm disk' (mg_next_id m) md j (Some data)
              Hok' Hd' Hfrom) as (mg & Hmg & Hlat).
  destruct (replay_crashed w es d k f t0 t1 t2 Hw Hkd Hcr Hes) as (n & f' & Hn & Hmax & Hrep).
  eexists md, n, f', _. split; [done|]. split; [done|]. split; [exact Hmax|].
  unfold RecoveryManager_recover. rewrite Hmg, Hlat. cbn [load_checkpoint rs_wal_position].
  change (md_wal_position md) with (zlen (log_bytes crc32c (take k es))). rewrite Hrep.
  split; [reflexivity|]. cbn [merge_replay rs_state_snapshot rs_checkpoint_id rs_state_changes
    rs_source_offsets rs_watermark rs_wal_position rs_wal_entries_replayed rp_source_offsets
    rp_watermark rp_state_changes rp_final_position rp_entries_replayed
    RecoveryConfig_with_collect_state_changes rc_collect_state_changes].
  split_and!; try done.
  - cbn [load_checkpoint rs_state_snapshot]. unfold load_checkpoint_state.
    change (md_id md) with (mg_next_id m). by rewrite Hd', Hsn.
  - rewrite Hst. unfold state_after, apply_changes. rewrite <- foldl_app. f_equal.
    unfold wal_changes. rewrite <- omap_app. f_equal.
    rewrite <- (take_drop k (take n es)) at 2. by rewrite take_take, Nat.min_l by lia.
  - apply commit_offsets_empty.
  - rewrite (commit_watermark_default _ wm). by destruct (commit_watermark _ None).
Qed.

(** ** The per-core coordinator *)

(** Applying entries changes neither the configuration nor the next id. *)
Lemma apply_entries_fields es : ∀ m,
  mg_config (apply_entries_to_checkpoint m es) = mg_config m ∧
  mg_next_id (apply_entries_to_checkpoint m es) = mg_next_id m.
Proof.
  induction es as [|e es IH]; intros m; [done|]. cbn [apply_entries_to_checkpoint foldl].
  destruct (IH (apply_operation m (pe_operation e))) as [H1 H2].
  unfold apply_entries_to_checkpoint in *. rewrite H1, H2.
  by destruct (pe_operation e) as [| | |o [x|]|].
Qed.

Lemma reset_file_empty now w : f_data (bw_inner (cw_writer (CoreWalWriter_reset now w))) = [].
Proof. reflexivity. Qed.

(** Empty segments and an empty log contribute nothing. *)
Lemma read_empty_segments fs starts : ∀ core acc pos,
  Forall (λ f, f_data f = []) fs → (∀ i, 0 <= default 0 (starts !! i)) →
  ∃ pos', read_all_segments crc32c core (Some <$> fs) starts acc pos =
            Some (inl (sort_entries acc, pos')).
Proof.
  intros core acc pos Hfs Hst. revert core acc pos. induction Hfs as [|f fs Hf _ IH]; intros core acc pos.
  - by eexists.
  - cbn [fmap list_fmap read_all_segments]. unfold PerCoreWalReader_open_from. rewrite Hf, drop_nil.
    unfold PerCoreWalReader_read_all. cbn [cr_rest length read_all_loop].
    unfold PerCoreWalReader_read_next. cbn [cr_file_len cr_position].
    assert (Hr : u64_sat_sub 0 (default 0 (starts !! core)) = 0)
      by (unfold u64_sat_sub; specialize (Hst core); lia).
    change (Z.of_nat 0) with 0. rewrite Hr. cbn. rewrite app_nil_r. apply IH.
Qed.

Lemma replay_empty_wal t0 t1 t2 config f start :
  f_data f = [] → 0 <= start →
  ∃ f', replay_wal crc32c t0 t1 t2 config f start = Some (f', inl (mkReplay 0 start ∅ None [])).
Proof.
  intros Hf Hst. unfold replay_wal.
  assert (Hrep : WriteAheadLog_repair crc32c t1 t2 (WriteAheadLog_new t0 (Some f) (from_millis 100)) =
                 Some (WriteAheadLog_sync t1 (WriteAheadLog_new t0 (Some f) (from_millis 100)), inl 0)).
  { unfold WriteAheadLog_repair. cbn. rewrite Hf. done. }
  assert (Hmax : ∀ w, f_data (bw_inner (wl_writer w)) = [] →
    replay_loop crc32c (S (length (wr_rest (WriteAheadLog_read_from w start))))
      (rc_collect_state_changes config)
      (if 0 <? rc_max_wal_entries config then rc_max_wal_entries config else u64_MOD - 1)
      (WriteAheadLog_read_from w start) (mkReplay 0 start ∅ None []) =
    Some (inl (mkReplay 0 start ∅ None []))).
  { intros w Hw. cbn [replay_loop]. case_match; [done|]. unfold WalReader_read_next, WriteAheadLog_read_from.
    rewrite Hw. cbn [wr_file_len wr_position].
    assert (Hr : u64_sat_sub (zlen (@nil Z)) start = 0) by (unfold u64_sat_sub; simpl; lia).
    by rewrite Hr. }
  destruct (rc_repair_wal config).
  - rewrite Hrep. cbn [fmap option_fmap option_map fst]. rewrite Hmax; [by eexists|].
    cbn. by rewrite Hf.
  - rewrite Hmax; [by eexists|done].
Qed.

(** Recovery from a checkpoint that has metadata only, with an empty log. *)
Lemma recover_metadata_only disk next md j config wal t0 t1 t2 :
  disk_ok from_json disk (next + 1) → disk !! next = Some (mkDir (Some j) None) →
  from_json j = inl md → md_id md = next → md_source_offsets md = ∅ → md_watermark md = None →
  0 <= md_wal_position md → (∀ f, wal = Some f → f_data f = []) →
  ∃ wal' b, RecoveryManager_recover from_json read_dir crc32c t0 t1 t2 config disk wal = Some (wal', inl b) ∧
    rs_checkpoint_id b = Some next ∧ rs_state_snapshot b = None ∧ rs_state_changes b = [] ∧
    rs_source_offsets b = ∅ ∧ rs_watermark b = None.
Proof.
  intros Hok Hd Hj Hid Hoff Hwm Hpos Hwal.
  destruct (find_latest_spec from_json read_dir read_dir_perm disk next md j None Hok Hd Hj)
    as (mg & Hmg & Hlat).
  assert (Hb : load_checkpoint disk md =
    mkRecovered (md_epoch md) None (md_wal_position md) 0 ∅ None (Some next) []).
  { unfold load_checkpoint, load_checkpoint_state. by rewrite Hid, Hd, Hoff, Hwm. }
  unfold RecoveryManager_recover. rewrite Hmg, Hlat, Hb. destruct wal as [f|].
  - destruct (replay_empty_wal t0 t1 t2 config f (md_wal_position md) (Hwal f eq_refl) Hpos) as (f' & Hrep).
    cbn [rs_wal_position]. rewrite Hrep. eexists _, _. split; [reflexivity|]. cbn.
    split_and!; try done. by case_match.
  - by eexists _, _.
Qed.

(** A checkpoint of the per-core log loses the state. Whatever the segments
    held, after [create_checkpoint] has succeeded (it writes only metadata and then
    empties the segments) a recovery finds that checkpoint but no snapshot, no
    state change, no source offset and no watermark: everything the log held is
    gone although the checkpoint was reported as complete. *)
Theorem percore_checkpoint_loses_state now now' now'' ts disk c id disk' c' md config wal t0 t1 t2 :
  disk_ok from_json disk (mg_next_id (co_checkpoint_manager c)) →
  0 <= mg_next_id (co_checkpoint_manager c) → 0 <= id →
  (0 < cc_max_retained (mg_config (co_checkpoint_manager c)))%nat →
  Coordinator_create_checkpoint to_json from_json read_dir crc32c now now' now'' ts disk c id =
    Some (disk', c', inl md) →
  (∀ f, wal = Some f → f_data f = []) →
  ∃ wal' st,
    PerCoreRecoveryManager_recover from_json read_dir crc32c t0 t1 t2 config disk' wal
      (Some <$> segment_files (co_wal_manager c')) = Some (wal', inl st) ∧
    rs_checkpoint_id (pr_base_state st) = Some (md_id (pm_checkpoint md)) ∧
    rs_state_snapshot (pr_base_state st) = None ∧ rs_state_changes (pr_base_state st) = [] ∧
    rs_source_offsets (pr_base_state st) = ∅ ∧ rs_watermark (pr_base_state st) = None ∧
    pr_state_changes st = [] ∧ pr_entries_replayed st = 0.
Proof.
  intros Hok H0 Hid Hk Hc Hwal.
  unfold Coordinator_create_checkpoint, checkpoint_steps in Hc. cbn in Hc.
  destruct (PerCoreWalManager_write_epoch_barrier_all _ _ _) as [wm [u|e]]; [|done].
  destruct (PerCoreWalManager_merge_segments _ _) as [[merged|e]|]; [|done..].
  destruct (apply_entries_fields merged (co_checkpoint_manager c)) as [Hcfg Hnext].
  set (m := apply_entries_to_checkpoint (co_checkpoint_manager c) merged) in *.
  rewrite <- Hnext in Hok, H0. rewrite <- Hcfg in Hk.
  destruct (create_checkpoint_spec now now' disk m id Hok H0 Hk)
    as (disk1 & j & Heq & Hj & Hok' & Hd' & _).
  rewrite Heq in Hc. injection Hc as <- <- <-. cbn [co_wal_manager pm_checkpoint md_id].
  destruct (recover_metadata_only disk1 _ _ j config wal t0 t1 t2 Hok' Hd' Hj eq_refl eq_refl eq_refl Hid Hwal)
    as (wal' & b & Hb & Hb1 & Hb2 & Hb3 & Hb4 & Hb5).
  set (files := segment_files _).
  assert (Hempty : Forall (λ f, f_data f = []) files).
  { unfold files, segment_files. cbn. rewrite !Forall_fmap. apply Forall_forall. intros w _.
    apply reset_file_empty. }
  set (starts := if bool_decide (length (@nil Z) = length (Some <$> files)) then []
                 else replicate (length (Some <$> files)) 0).
  destruct (read_empty_segments files starts 0 [] [] Hempty) as (pos' & Hseg).
  { intros i. unfold starts. destruct (bool_decide (length [] = _)); [by rewrite lookup_nil|].
    destruct (replicate _ 0 !! i) eqn:E; [|simpl; lia]. apply lookup_replicate in E as [-> _]. simpl. lia. }
  unfold PerCoreRecoveryManager_recover, PerCoreRecoveryManager_recover_from_positions.
  rewrite Hb. fold starts. rewrite Hseg. eexists wal', _. split; [reflexivity|].
  cbn. split_and!; try done.
Qed.

(** ** Reopened segments *)

(** Replaying an operation on a key forgets what the key held before. *)
Lemma apply_forgets key es : ∀ m m',
  (∀ k, k ≠ key → mg_state m !! k = mg_state m' !! k) →
  (∃ e, e ∈ es ∧ PerCoreWalEntry_key e = Some key) →
  mg_state (apply_entries_to_checkpoint m es) = mg_state (apply_entries_to_checkpoint m' es).
Proof.
  assert (Hsame : ∀ es m m', mg_state m = mg_state m' →
    mg_state (apply_entries_to_checkpoint m es) = mg_state (apply_entries_to_checkpoint m' es)).
  { clear es. induction es as [|e es IH]; intros m m' Heq; [done|].
    cbn [apply_entries_to_checkpoint foldl]. apply IH.
    destruct (pe_operation e) as [| | |o [x|]|]; cbn; by rewrite ?Heq. }
  induction es as [|e es IH]; intros m m' Hoff (e0 & Hin & Hk); [by apply not_elem_of_nil in Hin|].
  cbn [apply_entries_to_checkpoint foldl].
  destruct (decide (PerCoreWalEntry_key e = Some key)) as [Heq|Hne].
  - apply Hsame. unfold PerCoreWalEntry_key in Heq. apply map_eq. intros k.
    destruct (pe_operation e) as [k0 v|k0| | |]; simplify_eq/=;
      (destruct (decide (k = key)) as [-> |Hk0];
        [by rewrite ?lookup_insert_eq, ?lookup_delete_eq|
         by rewrite ?lookup_insert_ne, ?lookup_delete_ne by done; apply Hoff]).
  - apply IH.
    + intros k Hk0. unfold PerCoreWalEntry_key in Hne.
      destruct (pe_operation e) as [k1 v|k1| |o [x|]|]; cbn; try (by apply Hoff);
        (destruct (decide (k = k1)) as [-> |Hk1];
          [by rewrite ?lookup_insert_eq, ?lookup_delete_eq|
           by rewrite ?lookup_insert_ne, ?lookup_delete_ne by done; apply Hoff]).
    + apply elem_of_cons in Hin as [-> |Hin]; [done|]. eauto.
Qed.

(** After a restart, new writes sort before old ones and are lost. Let a
    segment hold entries of epochs above 0. [open] computes the greatest epoch but
    gives its writers epoch 0, so an acknowledged write after reopening is merged in
    front of everything that was written before, at whatever time it is made; if
    the key was written before, replaying the merged log gives the same state as
    replaying the old entries alone. *)
Theorem percore_reopened_write_lost f es tail now now' ts key value m0 :
  holds crc32c f es tail → StronglySorted entry_lt es → Forall (λ e, 1 <= pe_epoch e) es →
  (∃ e, e ∈ es ∧ PerCoreWalEntry_key e = Some key) →
  let new := mkEntry 0 0 0 ts (OpPut key value) in
  pfits new → zlen (seg_bytes crc32c (es ++ [new])) < u64_MOD →
  ∃ m w w' pos,
    PerCoreWalManager_open crc32c now [Some f] = Some (inl m) ∧ wm_writers m = [w] ∧
    1 <= wm_global_epoch m ∧
    CoreWalWriter_append_put crc32c ts w key value = (w', inl pos) ∧
    PerCoreWalManager_merge_segments crc32c
      (PerCoreWalManager_sync_all now' (wm_set_writers [w'] m)) = Some (inl (new :: es)) ∧
    mg_state (apply_entries_to_checkpoint m0 (new :: es)) =
      mg_state (apply_entries_to_checkpoint m0 es).
Proof.
  intros Hh Hso Hep Hkey new Hfit Hsz. unfold PerCoreWalManager_open.
  pose proof (open_loop_spec crc32c crc32c_u32 now [f] [(es, tail)] 0 [] 0
                ltac:(constructor; [exact Hh|constructor])) as Hopen.
  cbn [fmap list_fmap] in Hopen. rewrite Hopen. cbn [imap zip app fst snd].
  change (0 + 0)%nat with 0%nat. set (w := reopened crc32c now 0 f es).
  destruct (reopened_spec crc32c now 0 f es tail Hh) as [Hwr _]. fold w in Hwr.
  assert (Hentry : next_entry w ts (OpPut key value) = new) by done.
  pose proof (core_append_writes crc32c w new) as Happ.
  rewrite seg_bytes_snoc, length_app, frame_length in Hsz.
  specialize (Happ (fits_u32 _ Hfit)). rewrite Hwr in Happ. specialize (Happ eq_refl ltac:(lia)).
  change (CoreWalWriter_append_put crc32c ts w key value) with (CoreWalWriter_append crc32c w new).
  destruct (CoreWalWriter_append crc32c w new) as [w' r] eqn:E.
  destruct Happ as (-> & Hwr' & _).
  assert (Hw : CoreWalWriter_append_put crc32c ts w key value = (w', inl (cw_position w))) by exact E.
  eexists _, w, w', _. split; [reflexivity|]. split; [done|].
  split_and!; [|exact Hw| |].
  - cbn [mjoin list_join fmap list_fmap fst]. rewrite app_nil_r. destruct Hkey as (e & Hin & _).
    clear -Hep Hin. assert (H : ∀ l acc, 1 <= acc ∨ l ≠ [] → Forall (λ e, 1 <= pe_epoch e) l →
      1 <= foldl Z.max acc (pe_epoch <$> l)).
    { induction l as [|x l IH]; intros acc Ha Hl; [by destruct Ha|]. cbn.
      apply Forall_cons in Hl as [Hx Hl]. apply IH; [left; lia|done]. }
    apply H; [right; by destruct es; [apply not_elem_of_nil in Hin|]|done].
  - assert (Hsorted : sort_entries (es ++ [new]) = new :: es).
    { destruct (sort_entries_spec (es ++ [new])) as [Hp Hs].
      apply (sorted_perm_unique entry_le entry_lt); [apply entry_lt_not_le|done| |].
      - constructor; [done|]. eapply Forall_impl; [exact Hep|]. intros e He. apply entry_lt_spec. simpl in *. lia.
      - rewrite Hp. by rewrite Permutation_app_comm. }
    rewrite (merge_holds crc32c crc32c_u32 _ [(es ++ [new], [])]).
    + cbn [fmap list_fmap mjoin list_join fst]. by rewrite app_nil_r, Hsorted.
    + constructor; [|constructor]. unfold holds. cbn [fst snd].
      unfold bw_written in Hwr'. cbn. rewrite Hwr', app_nil_r, seg_bytes_snoc.
      destruct Hh as (_ & Hf & _). split; [done|]. split; [apply Forall_app; by repeat constructor|].
      split; [done|]. split; [done|]. rewrite length_app, frame_length. lia.
  - change (new :: es) with ([new] ++ es). unfold apply_entries_to_checkpoint at 1.
    rewrite foldl_app. apply (apply_forgets key es); [|done].
    intros k Hk. cbn. by rewrite lookup_insert_ne.
Qed.
End Properties.

(** ** Examples *)

#[local] Instance example_wal_archive : Archive WalEntry := countable_archive.
#[local] Instance example_wal_archive_laws : ArchiveLaws WalEntry := countable_archive_laws.
#[local] Instance example_core_archive : Archive PerCoreWalEntry := countable_archive.
#[local] Instance example_core_archive_laws : ArchiveLaws PerCoreWalEntry := countable_archive_laws.

#[export] Instance metadata_eq_dec : EqDecision IncrementalCheckpointMetadata.
Proof. solve_decision. Defined.
#[export] Instance metadata_countable : Countable IncrementalCheckpointMetadata.
Proof.
  refine (inj_countable' (λ m, (md_id m, md_epoch m, md_timestamp m, md_wal_position m,
      md_source_offsets m, md_watermark m, md_size_bytes m, md_key_count m, md_is_incremental m,
      md_parent_id m, md_sst_files m))
    (λ '(a, b, c, d, e, f, g, h, i, j, k), mkMetadata a b c d e f g h i j k) _); by intros [].
Defined.
#[export] Instance snapshot_eq_dec : EqDecision StateSnapshot.
Proof. solve_decision. Defined.
#[export] Instance snapshot_countable : Countable StateSnapshot.
Proof.
  refine (inj_countable' (λ s, (sn_data s, sn_timestamp_ns s, sn_version s))
    (λ '(a, b, c), mkSnapshot a b c) _); by intros [].
Defined.
#[local] Instance example_snapshot_archive : Archive StateSnapshot := countable_archive.

(** A printer and parser for metadata: the binary digits of its code. *)
Fixpoint digits (p : positive) : string :=
  match p with
  | xH => ""
  | xO p => String (Ascii.ascii_of_nat 48) (digits p)
  | xI p => String (Ascii.ascii_of_nat 49) (digits p)
  end.
Fixpoint of_digits (s : string) : positive :=
  match s with
  | "" => xH
  | String c s => if Ascii.eqb c (Ascii.ascii_of_nat 49) then xI (of_digits s) else xO (of_digits s)
  end%string.
Lemma of_digits_digits p : of_digits (digits p) = p.
Proof. induction p as [p IH|p IH|]; cbn; by rewrite ?IH. Qed.

Definition print_metadata (m : IncrementalCheckpointMetadata) : string + string := inl (digits (encode m)).
Definition parse_metadata (s : string) : IncrementalCheckpointMetadata + string :=
  match decode (of_digits s) with Some m => inl m | None => inr "invalid metadata" end.
Lemma print_parse m : ∃ j, print_metadata m = inl j ∧ parse_metadata j = inl m.
Proof.
  eexists. split; [reflexivity|]. unfold parse_metadata. by rewrite of_digits_digits, decode_encode.
Qed.

Definition empty_manager : IncrementalCheckpointManager :=
  mkManager (CheckpointConfig_with_max_retained CheckpointConfig_new 2) 1 0 0 None ∅ ∅ None.
Lemma empty_disk_ok next : disk_ok parse_metadata ∅ next.
Proof. intros id d. by rewrite lookup_empty. Qed.

Lemma checkpoint_retention_witness :
  ∃ disk' m' md,
    Manager_create_checkpoint print_metadata parse_metadata map_to_list 5 5 ∅ empty_manager 0 =
      (disk', m', inl md) ∧ list_checkpoints parse_metadata map_to_list disk' = [md].
Proof.
  destruct (checkpoint_retention print_metadata parse_metadata print_parse map_to_list
              (λ d, Permutation_refl _) 5 5 ∅ empty_manager 0)
    as (disk' & m' & md & H1 & _ & _ & H2 & _).
  - apply empty_disk_ok.
  - vm_compute. discriminate.
  - vm_compute. reflexivity.
  - vm_compute. lia.
  - exists disk', m', md. split; [exact H1|exact H2].
Defined.

(** The log of the example in [Wal], checkpointed after its first entry. *)
Definition snapshot_1 : StateSnapshot := mkSnapshot [([1; 2], [3])] 0 1.

Lemma recovery_restores_state_witness :
  let '(disk', _, r) := Manager_create_checkpoint_with_state print_metadata parse_metadata map_to_list
        5 5 ∅ empty_manager (zlen (log_bytes sum32 (take 1 wal_entries))) ∅ None
        (code_bytes (encode snapshot_1)) in
  ∃ n f' st, (1 <= n <= 3)%nat ∧
    RecoveryManager_recover parse_metadata map_to_list sum32 0 0 0
      (RecoveryConfig_with_collect_state_changes RecoveryConfig_new true) disk' (Some wal3_torn) =
      Some (Some f', inl st) ∧
    apply_changes (list_to_map (sn_data snapshot_1)) (rs_state_changes st) =
      state_after (take n wal_entries).
Proof.
  pose proof (recovery_restores_state print_metadata parse_metadata print_parse map_to_list
                (λ d, Permutation_refl _) sum32 sum32_u32 5 5 ∅ empty_manager wal3 wal_entries 2 1
                wal3_torn ∅ None snapshot_1 (code_bytes (encode snapshot_1)) 0 0 0) as H.
  specialize (H (empty_disk_ok _) ltac:(vm_compute; discriminate) ltac:(vm_compute; lia) wal3_reach
                ltac:(lia)).
  assert (Hcr : crash wal3 wal3_torn) by (split; [vm_compute; lia|apply prefix_take]).
  specialize (H Hcr ltac:(vm_compute; reflexivity)
                ltac:(vm_compute; reflexivity) ltac:(vm_compute; reflexivity)).
  destruct (Manager_create_checkpoint_with_state print_metadata parse_metadata map_to_list 5 5 ∅
              empty_manager _ ∅ None _) as [[disk' m'] r].
  destruct H as (md & n & f' & st & _ & H1 & _ & H2 & _ & _ & H3 & _).
  exists n, f', st. split; [exact H1|]. split; [exact H2|exact H3].
Defined.

(** A coordinator whose only segment holds one write. *)
Definition one_write : PerCoreCheckpointCoordinator :=
  mkCoordinator (mkWalManager 1 [(CoreWalWriter_append_put sum32 10 (CoreWalWriter_new 0 0 None) [7] [8]).1] 0)
    empty_manager.
Definition one_write_checkpoint :=
  Coordinator_create_checkpoint print_metadata parse_metadata map_to_list sum32 0 0 0 (λ _, 11) ∅ one_write 1.

Lemma percore_checkpoint_loses_state_witness :
  ∃ disk' c' md wal' st,
    one_write_checkpoint = Some (disk', c', inl md) ∧ pm_entries_merged md = 2 ∧
    mg_state (co_checkpoint_manager c') = {[ [7] := [8] ]} ∧
    PerCoreRecoveryManager_recover parse_metadata map_to_list sum32 0 0 0 RecoveryConfig_new disk' None
      (Some <$> segment_files (co_wal_manager c')) = Some (wal', inl st) ∧
    rs_state_snapshot (pr_base_state st) = None ∧ pr_state_changes st = [].
Proof.
  destruct one_write_checkpoint as [[[disk' c'] [md|e]]|] eqn:E;
    [|exfalso; vm_compute in E; discriminate..].
  destruct (percore_checkpoint_loses_state print_metadata parse_metadata print_parse map_to_list
              (λ d, Permutation_refl _) sum32 0 0 0 (λ _, 11) ∅ one_write 1 disk' c' md
              RecoveryConfig_new None 0 0 0)
    as (wal' & st & H1 & _ & H2 & _ & _ & _ & H3 & _).
  - apply empty_disk_ok.
  - vm_compute. discriminate.
  - lia.
  - vm_compute. lia.
  - exact E.
  - intros f. discriminate.
  - exists disk', c', md, wal', st. split; [reflexivity|].
    vm_compute in E. injection E as <- <- <-. split; [reflexivity|]. split; [reflexivity|].
    split; [exact H1|]. split; [exact H2|exact H3].
Defined.

(** A segment with one entry of epoch 1. *)
Definition old_entry : PerCoreWalEntry := mkEntry 1 0 0 10 (OpPut [7] [8]).
Definition old_segment : File := mkFile (seg_bytes sum32 [old_entry]) 0.

Lemma percore_reopened_write_lost_witness :
  ∃ m w w' pos,
    PerCoreWalManager_open sum32 0 [Some old_segment] = Some (inl m) ∧ wm_writers m = [w] ∧
    CoreWalWriter_append_put sum32 99 w [7] [9] = (w', inl pos) ∧
    PerCoreWalManager_merge_segments sum32 (PerCoreWalManager_sync_all 0 (wm_set_writers [w'] m)) =
      Some (inl [mkEntry 0 0 0 99 (OpPut [7] [9]); old_entry]).
Proof.
  destruct (percore_reopened_write_lost sum32 sum32_u32 old_segment [old_entry] [] 0 0 99 [7] [9]
              empty_manager)
    as (m & w & w' & pos & H1 & H2 & _ & H3 & H4 & _).
  - split; [vm_compute; reflexivity|]. split.
    + constructor; [vm_compute; discriminate|constructor].
    + split; [exact I|]. split; [vm_compute; discriminate|vm_compute; reflexivity].
  - repeat constructor.
  - constructor; [simpl; lia|constructor].
  - exists old_entry. split; [left|reflexivity].
  - vm_compute. discriminate.
  - vm_compute. reflexivity.
  - exists m, w, w', pos. split; [exact H1|]. split; [exact H2|]. split; [exact H3|exact H4].
Defined.
