(* ===== verification/DagTopology.v ===== *)
(** * The dag: topology and routing

    dag/topology.rs and dag/routing.rs: nodes and edges are added one at a time,
    [finalize] checks the graph, sorts it topologically (Kahn's algorithm) and
    derives channel types, shared stages, sources and sinks; the routing table
    flattens the outgoing edges of every node.

    [FxHashMap]s keyed by [NodeId] and [EdgeId] are [gmap]s; where the code
    iterates over one, the order is the class [HashOrder], of which only
    [HashOrderLaws] is used. A schema of arrow is the list of its fields; the
    debug rendering of a data type is a parameter. Node and edge ids are [u32].

    The loop of [kahn_topo_sort] takes as much fuel as there are nodes; a dag
    built by the operations never runs out ([kahn_returns]). *)

From stdpp Require Import pretty.
From S2P Require Import Prelude.

(** ** Hash maps with their iteration order *)

Class HashOrder := hash_iter : ∀ {A : Type}, gmap Z A → list (Z * A).
Class HashOrderLaws `{!HashOrder} : Prop :=
  hash_iter_perm : ∀ A (m : gmap Z A), hash_iter m ≡ₚ map_to_list m.

#[global] Instance canonical_order : HashOrder := λ A m, map_to_list m.
#[global] Instance canonical_order_laws : HashOrderLaws.
Proof. by intros A m. Qed.

(** [map.values()] and [map.keys()]. *)
Definition hash_values `{!HashOrder} {A} (m : gmap Z A) : list A := (hash_iter m).*2.
Definition hash_keys `{!HashOrder} {A} (m : gmap Z A) : list Z := (hash_iter m).*1.

(** [sort_by_key(|n| n.0)] on node ids. *)
Definition sort_ids (l : list Z) : list Z := merge_sort Z.le l.

Definition wrap_u32 (z : Z) : Z := z mod 4294967296.
Definition as_u8 (n : nat) : Z := Z.of_nat n mod 256.

(** ** Data *)

Definition MAX_FAN_OUT : nat := 8.

Inductive DagNodeType :=
  | NSource | NStatelessOperator | NStatefulOperator | NMaterializedView | NSink.
Inductive DagChannelType := Spsc | Spmc | Mpsc.
Inductive PartitioningStrategy :=
  | PSingle
  | PRoundRobin
  | PHashBy (key : string)
  | PCustom (f : list Z → Z).

Inductive DagError :=
  | CycleDetected (node : string)
  | DisconnectedNode (node : string)
  | NodeNotFound (node : string)
  | DuplicateNode (node : string)
  | SchemaMismatch (source_node target_node reason : string)
  | FanOutLimitExceeded (node : string) (count max : nat)
  | EmptyDag
  | BackpressureFull
  | CheckpointInProgress (epoch : Z)
  | NoCheckpointInProgress
  | CheckpointIncomplete (pending : nat)
  | CheckpointNotFound
  | RestoreFailed (node_id reason : string)
  | BaseTableSchemaNotFound (table : string).

#[global] Instance DagNodeType_eq_dec : EqDecision DagNodeType.
Proof. solve_decision. Defined.
#[global] Instance DagChannelType_eq_dec : EqDecision DagChannelType.
Proof. solve_decision. Defined.

(** [Display] of [NodeId]. *)
Definition NodeId_fmt (n : Z) : string := ("NodeId(" +:+ pretty n +:+ ")")%string.

Section Dag.
Context {DataType : Type} `{!EqDecision DataType} (debug_type : DataType → string).

(** arrow's [Schema]: fields with a name and a data type. *)
Abbreviation Schema := (list (string * DataType)) (only parsing).

Record DagNode := mkDagNode {
  dn_id : Z;
  dn_name : string;
  dn_inputs : list Z;
  dn_outputs : list Z;
  dn_output_schema : Schema;
  dn_state_partition : Z;
  dn_node_type : DagNodeType }.

Record DagEdge := mkDagEdge {
  de_id : Z;
  de_source : Z;
  de_target : Z;
  de_channel_type : DagChannelType;
  de_partitioning : PartitioningStrategy;
  de_source_port : Z;
  de_target_port : Z }.

Record SharedStageMetadata := mkShared {
  ss_producer_node : Z;
  ss_consumer_count : nat;
  ss_consumer_nodes : list Z }.

Record StreamingDag := mkDag {
  sd_nodes : gmap Z DagNode;
  sd_edges : gmap Z DagEdge;
  sd_execution_order : list Z;
  sd_shared_stages : gmap Z SharedStageMetadata;
  sd_source_nodes : list Z;
  sd_sink_nodes : list Z;
  sd_name_index : gmap string Z;
  sd_next_node_id : Z;
  sd_next_edge_id : Z;
  sd_finalized : bool }.

Definition StreamingDag_new : StreamingDag :=
  mkDag ∅ ∅ [] ∅ [] [] ∅ 0 0 false.

Definition StreamingDag_add_node (name : string) (node_type : DagNodeType) (schema : Schema)
    (d : StreamingDag) : StreamingDag * (Z + DagError) :=
  match sd_name_index d !! name with
  | Some _ => (d, inr (DuplicateNode name))
  | None =>
      let id := sd_next_node_id d in
      let node := mkDagNode id name [] [] schema id node_type in
      (mkDag (<[id := node]> (sd_nodes d)) (sd_edges d) (sd_execution_order d)
         (sd_shared_stages d) (sd_source_nodes d) (sd_sink_nodes d)
         (<[name := id]> (sd_name_index d)) (wrap_u32 (id + 1)) (sd_next_edge_id d) false, inl id)
  end.

Definition StreamingDag_node_name (d : StreamingDag) (id : Z) : option string :=
  dn_name <$> sd_nodes d !! id.

Definition push_output (e : Z) (n : DagNode) : DagNode :=
  mkDagNode (dn_id n) (dn_name n) (dn_inputs n) (dn_outputs n ++ [e]) (dn_output_schema n)
    (dn_state_partition n) (dn_node_type n).
Definition push_input (e : Z) (n : DagNode) : DagNode :=
  mkDagNode (dn_id n) (dn_name n) (dn_inputs n ++ [e]) (dn_outputs n) (dn_output_schema n)
    (dn_state_partition n) (dn_node_type n).

Definition StreamingDag_add_edge (source target : Z) (d : StreamingDag)
  : StreamingDag * (Z + DagError) :=
  if decide (source = target) then
    (d, inr (CycleDetected (default "" (StreamingDag_node_name d source))))
  else
    match sd_nodes d !! source with
    | None => (d, inr (NodeNotFound (NodeId_fmt source)))
    | Some src =>
        match sd_nodes d !! target with
        | None => (d, inr (NodeNotFound (NodeId_fmt target)))
        | Some tgt =>
            let id := sd_next_edge_id d in
            let edge := mkDagEdge id source target Spsc PSingle
              (as_u8 (length (dn_outputs src))) (as_u8 (length (dn_inputs tgt))) in
            (mkDag (alter (push_input id) target (alter (push_output id) source (sd_nodes d)))
               (<[id := edge]> (sd_edges d)) (sd_execution_order d) (sd_shared_stages d)
               (sd_source_nodes d) (sd_sink_nodes d) (sd_name_index d) (sd_next_node_id d)
               (wrap_u32 (id + 1)) false, inl id)
        end
    end.

Definition StreamingDag_node_id_by_name (d : StreamingDag) (name : string) : option Z :=
  sd_name_index d !! name.
Definition outgoing_edge_count (d : StreamingDag) (node : Z) : nat :=
  match sd_nodes d !! node with Some n => length (dn_outputs n) | None => 0 end.
Definition incoming_edge_count (d : StreamingDag) (node : Z) : nat :=
  match sd_nodes d !! node with Some n => length (dn_inputs n) | None => 0 end.

(** ** Checks *)

Section Ordered.
Context `{!HashOrder}.

Fixpoint first_error {A} (check : A → option DagError) (l : list A) : unit + DagError :=
  match l with
  | [] => inl tt
  | x :: rest => match check x with Some e => inr e | None => first_error check rest end
  end.

Definition check_fan_out_limits (d : StreamingDag) : unit + DagError :=
  first_error (λ node,
    if decide (MAX_FAN_OUT < length (dn_outputs node))%nat
    then Some (FanOutLimitExceeded (dn_name node) (length (dn_outputs node)) MAX_FAN_OUT)
    else None) (hash_values (sd_nodes d)).

Definition disconnected (node : DagNode) : bool :=
  match dn_node_type node with
  | NSource => bool_decide (dn_outputs node = [])
  | NSink => bool_decide (dn_inputs node = [])
  | _ => bool_decide (dn_inputs node = []) && bool_decide (dn_outputs node = [])
  end.

Definition check_connected (d : StreamingDag) : unit + DagError :=
  first_error (λ node,
    if disconnected node then Some (DisconnectedNode (dn_name node)) else None)
    (hash_values (sd_nodes d)).

Definition count_mismatch (a b : nat) : string :=
  ("field count mismatch: " +:+ pretty (Z.of_nat a) +:+ " vs " +:+ pretty (Z.of_nat b))%string.
Definition type_mismatch (sf tf : string * DataType) : string :=
  ("type mismatch for field '" +:+ sf.1 +:+ "': " +:+ debug_type sf.2 +:+ " vs '" +:+ tf.1
     +:+ "':" +:+ debug_type tf.2)%string.

(** The first pair of fields whose types differ. *)
Fixpoint fields_mismatch (source target : Schema) : option string :=
  match source, target with
  | sf :: ss, tf :: ts =>
      if decide (sf.2 = tf.2) then fields_mismatch ss ts else Some (type_mismatch sf tf)
  | _, _ => None
  end.

Definition edge_schema_error (d : StreamingDag) (edge : DagEdge) : option DagError :=
  match sd_nodes d !! de_source edge, sd_nodes d !! de_target edge with
  | Some source, Some target =>
      let ss := dn_output_schema source in let ts := dn_output_schema target in
      match ss, ts with
      | [], _ | _, [] => None
      | _, _ =>
          if decide (length ss = length ts) then
            SchemaMismatch (dn_name source) (dn_name target) <$> fields_mismatch ss ts
          else Some (SchemaMismatch (dn_name source) (dn_name target)
                       (count_mismatch (length ss) (length ts)))
      end
  | _, _ => None
  end.

Definition check_schemas (d : StreamingDag) : unit + DagError :=
  first_error (edge_schema_error d) (hash_values (sd_edges d)).

(** ** Kahn's algorithm *)

Definition in_degrees (d : StreamingDag) : gmap Z nat :=
  foldl (λ m edge, <[de_target edge := S (default 0%nat (m !! de_target edge))]> m)
    (foldl (λ m node,
       match m !! dn_id node with Some _ => m | None => <[dn_id node := 0%nat]> m end)
       ∅ (hash_values (sd_nodes d)))
    (hash_values (sd_edges d)).

(** The loop over the outputs of a node taken from the queue. *)
Fixpoint release_targets (d : StreamingDag) (outputs : list Z) (in_degree : gmap Z nat)
    (successors : list Z) : gmap Z nat * list Z :=
  match outputs with
  | [] => (in_degree, successors)
  | edge_id :: rest =>
      match sd_edges d !! edge_id with
      | None => release_targets d rest in_degree successors
      | Some edge =>
          let target := de_target edge in
          match in_degree !! target with
          | None => release_targets d rest in_degree successors
          | Some deg =>
              let deg := (deg - 1)%nat in
              release_targets d rest (<[target := deg]> in_degree)
                (if decide (deg = 0%nat) then successors ++ [target] else successors)
          end
      end
  end.

Fixpoint kahn_loop (fuel : nat) (d : StreamingDag) (queue : list Z) (in_degree : gmap Z nat)
    (order : list Z) (processed : nat) : option (list Z * nat) :=
  match queue with
  | [] => Some (order, processed)
  | node_id :: queue =>
      match fuel with
      | O => None
      | S fuel =>
          match sd_nodes d !! node_id with
          | None => kahn_loop fuel d queue in_degree (order ++ [node_id]) (S processed)
          | Some node =>
              let '(in_degree, successors) := release_targets d (dn_outputs node) in_degree [] in
              kahn_loop fuel d (queue ++ sort_ids successors) in_degree (order ++ [node_id])
                (S processed)
          end
      end
  end.

Definition kahn_topo_sort (d : StreamingDag) : option (list Z * nat) :=
  let in_degree := in_degrees d in
  let initial := (filter (λ kv, kv.2 = 0%nat) (hash_iter in_degree)).*1 in
  kahn_loop (size (sd_nodes d)) d (sort_ids initial) in_degree [] 0.

(** The error for a node that the order misses. *)
Definition cycle_error (d : StreamingDag) (order : list Z) : unit + DagError :=
  match first_error (λ node,
          if decide (dn_id node ∈ order) then None else Some (CycleDetected (dn_name node)))
          (hash_values (sd_nodes d)) with
  | inl _ => inr (CycleDetected "unknown")
  | inr e => inr e
  end.

(** [None] would mean that the sort does not return. *)
Definition check_acyclic (d : StreamingDag) : option (unit + DagError) :=
  match kahn_topo_sort d with
  | None => None
  | Some (order, _) =>
      Some (if decide (length order < size (sd_nodes d))%nat then cycle_error d order else inl tt)
  end.

Definition set_order (order : list Z) (d : StreamingDag) : StreamingDag :=
  mkDag (sd_nodes d) (sd_edges d) order (sd_shared_stages d) (sd_source_nodes d)
    (sd_sink_nodes d) (sd_name_index d) (sd_next_node_id d) (sd_next_edge_id d) (sd_finalized d).

Definition compute_execution_order (d : StreamingDag) : option (StreamingDag * (unit + DagError)) :=
  match kahn_topo_sort d with
  | None => None
  | Some (order, processed) =>
      Some (if decide (processed < size (sd_nodes d))%nat then (d, cycle_error d order)
            else (set_order order d, inl tt))
  end.

(** ** Derived data *)

Definition channel_type (d : StreamingDag) (edge : DagEdge) : DagChannelType :=
  match bool_decide (1 < incoming_edge_count d (de_target edge))%nat,
        bool_decide (1 < outgoing_edge_count d (de_source edge))%nat with
  | false, false => Spsc
  | false, true => Spmc
  | true, _ => Mpsc
  end.

Definition set_channel_type (c : DagChannelType) (e : DagEdge) : DagEdge :=
  mkDagEdge (de_id e) (de_source e) (de_target e) c (de_partitioning e) (de_source_port e)
    (de_target_port e).

Definition set_edges (edges : gmap Z DagEdge) (d : StreamingDag) : StreamingDag :=
  mkDag (sd_nodes d) edges (sd_execution_order d) (sd_shared_stages d) (sd_source_nodes d)
    (sd_sink_nodes d) (sd_name_index d) (sd_next_node_id d) (sd_next_edge_id d) (sd_finalized d).

(** One round of the loop; [self.edges[&edge_id]] is the current edge. *)
Definition derive_step (d : StreamingDag) (edge_id : Z) : StreamingDag :=
  match sd_edges d !! edge_id with
  | Some edge => set_edges (<[edge_id := set_channel_type (channel_type d edge) edge]> (sd_edges d)) d
  | None => d
  end.

Definition derive_channel_types (d : StreamingDag) : StreamingDag :=
  foldl derive_step d (hash_keys (sd_edges d)).

Definition consumer_nodes (d : StreamingDag) (node : DagNode) : list Z :=
  omap (λ edge_id, de_target <$> sd_edges d !! edge_id) (dn_outputs node).

Definition identify_shared_stages (d : StreamingDag) : StreamingDag :=
  let shared := foldl (λ m node,
    if decide (1 < length (dn_outputs node))%nat then
      let consumers := consumer_nodes d node in
      <[dn_id node := mkShared (dn_id node) (length consumers) consumers]> m
    else m) ∅ (hash_values (sd_nodes d)) in
  mkDag (sd_nodes d) (sd_edges d) (sd_execution_order d) shared (sd_source_nodes d)
    (sd_sink_nodes d) (sd_name_index d) (sd_next_node_id d) (sd_next_edge_id d) (sd_finalized d).

Definition classify_source_sink_nodes (d : StreamingDag) : StreamingDag :=
  let ids (P : DagNode → bool) := sort_ids (dn_id <$> filter P (hash_values (sd_nodes d))) in
  mkDag (sd_nodes d) (sd_edges d) (sd_execution_order d) (sd_shared_stages d)
    (ids (λ n, bool_decide (dn_inputs n = []))) (ids (λ n, bool_decide (dn_outputs n = [])))
    (sd_name_index d) (sd_next_node_id d) (sd_next_edge_id d) (sd_finalized d).

Definition set_finalized (d : StreamingDag) : StreamingDag :=
  mkDag (sd_nodes d) (sd_edges d) (sd_execution_order d) (sd_shared_stages d)
    (sd_source_nodes d) (sd_sink_nodes d) (sd_name_index d) (sd_next_node_id d)
    (sd_next_edge_id d) true.

Definition StreamingDag_finalize (d : StreamingDag) : option (StreamingDag * (unit + DagError)) :=
  if decide (sd_nodes d = ∅) then Some (d, inr EmptyDag) else
  match check_fan_out_limits d with
  | inr e => Some (d, inr e)
  | inl _ =>
      match compute_execution_order d with
      | None => None
      | Some (d, inr e) => Some (d, inr e)
      | Some (d, inl _) =>
          match check_connected d with
          | inr e => Some (d, inr e)
          | inl _ =>
              Some (set_finalized (classify_source_sink_nodes
                      (identify_shared_stages (derive_channel_types d))), inl tt)
          end
      end
  end.

Definition StreamingDag_validate (d : StreamingDag) : option (unit + DagError) :=
  if decide (sd_nodes d = ∅) then Some (inr EmptyDag) else
  match check_fan_out_limits d with
  | inr e => Some (inr e)
  | inl _ =>
      match check_acyclic d with
      | None => None
      | Some (inr e) => Some (inr e)
      | Some (inl _) =>
          match check_connected d with
          | inr e => Some (inr e)
          | inl _ => Some (check_schemas d)
          end
      end
  end.

(** ** The routing table *)

Definition MAX_PORTS : nat := MAX_FAN_OUT.

Record RoutingEntry := mkRouting {
  re_targets : list Z;
  re_target_count : nat;
  re_is_multicast : bool }.

Definition RoutingEntry_empty : RoutingEntry := mkRouting (replicate MAX_FAN_OUT 0%Z) 0 false.
Definition RoutingEntry_target_ids (e : RoutingEntry) : list Z :=
  take (re_target_count e) (re_targets e).
Definition RoutingEntry_is_terminal (e : RoutingEntry) : bool :=
  bool_decide (re_target_count e = 0%nat).

Record RoutingTable := mkTable { rt_routes : list RoutingEntry; rt_max_node_id : Z }.

(** The loop that fills the fixed-size array of a node. *)
Fixpoint fill_targets (d : StreamingDag) (outputs : list Z) (targets : list Z) (count : nat)
  : list Z * nat :=
  match outputs with
  | [] => (targets, count)
  | edge_id :: rest =>
      match sd_edges d !! edge_id with
      | None => fill_targets d rest targets count
      | Some edge =>
          if decide (count < MAX_FAN_OUT)%nat then
            fill_targets d rest (<[count := de_target edge]> targets) (S count)
          else fill_targets d rest targets count
      end
  end.

Definition node_entry (d : StreamingDag) (node : DagNode) : RoutingEntry :=
  let '(targets, count) := fill_targets d (dn_outputs node) (replicate MAX_FAN_OUT 0%Z) 0 in
  mkRouting targets count (bool_decide (1 < count)%nat).

Definition max_node_id (d : StreamingDag) : option Z := list_max (hash_keys (sd_nodes d)).

(** [routes[idx] = ...] is in range: [idx] is at most [max_node_id * MAX_PORTS]. *)
Definition RoutingTable_from_dag (d : StreamingDag) : RoutingTable :=
  let max_id := default 0 (max_node_id d) in
  let routes := replicate ((Z.to_nat max_id + 1) * MAX_PORTS) RoutingEntry_empty in
  mkTable (foldl (λ routes node,
             match dn_outputs node with
             | [] => routes
             | _ => <[(Z.to_nat (dn_id node) * MAX_PORTS)%nat := node_entry d node]> routes
             end) routes (hash_values (sd_nodes d))) max_id.

(** [None] is the panic of an index out of range. *)
Definition RoutingTable_route (t : RoutingTable) (source : Z) (port : nat) : option RoutingEntry :=
  rt_routes t !! (Z.to_nat source * MAX_PORTS + port)%nat.
Definition RoutingTable_node_targets (t : RoutingTable) (source : Z) : option RoutingEntry :=
  RoutingTable_route t source 0.

End Ordered.

(** ** The graph and its invariant *)

Definition dag_edge (d : StreamingDag) (a b : Z) : Prop :=
  ∃ e edge, sd_edges d !! e = Some edge ∧ de_source edge = a ∧ de_target edge = b.
Definition acyclic (d : StreamingDag) : Prop := ∀ n, ¬ tc (dag_edge d) n n.

(** What the fields say about each other. *)
Record dag_wf (d : StreamingDag) : Prop := {
  wf_node n node : sd_nodes d !! n = Some node →
    dn_id node = n ∧ dn_state_partition node = n ∧ 0 <= n < sd_next_node_id d;
  wf_edge e edge : sd_edges d !! e = Some edge →
    de_id edge = e ∧ 0 <= e < sd_next_edge_id d ∧ de_source edge ≠ de_target edge ∧
    is_Some (sd_nodes d !! de_source edge) ∧ is_Some (sd_nodes d !! de_target edge);
  wf_outputs n node : sd_nodes d !! n = Some node →
    NoDup (dn_outputs node) ∧
    ∀ e, e ∈ dn_outputs node ↔ ∃ edge, sd_edges d !! e = Some edge ∧ de_source edge = n;
  wf_inputs n node : sd_nodes d !! n = Some node →
    NoDup (dn_inputs node) ∧
    ∀ e, e ∈ dn_inputs node ↔ ∃ edge, sd_edges d !! e = Some edge ∧ de_target edge = n;
  wf_source_port n node i e edge : sd_nodes d !! n = Some node → dn_outputs node !! i = Some e →
    sd_edges d !! e = Some edge → de_source_port edge = as_u8 i;
  wf_target_port n node i e edge : sd_nodes d !! n = Some node → dn_inputs node !! i = Some e →
    sd_edges d !! e = Some edge → de_target_port edge = as_u8 i;
  wf_names s n : sd_name_index d !! s = Some n ↔
    ∃ node, sd_nodes d !! n = Some node ∧ dn_name node = s;
  wf_next : 0 <= sd_next_node_id d ∧ 0 <= sd_next_edge_id d }.

(** Graphs built by the operations, with fewer than 2^32 nodes and edges. *)
Inductive dag_reach `{!HashOrder} : StreamingDag → Prop :=
  | reach_new : dag_reach StreamingDag_new
  | reach_add_node d name ty schema : dag_reach d → sd_next_node_id d < 4294967295 →
      dag_reach (StreamingDag_add_node name ty schema d).1
  | reach_add_edge d source target : dag_reach d → sd_next_edge_id d < 4294967295 →
      dag_reach (StreamingDag_add_edge source target d).1
  | reach_finalize d d' r : dag_reach d → StreamingDag_finalize d = Some (d', r) → dag_reach d'.

Lemma dag_wf_new : dag_wf StreamingDag_new.
Proof.
  split; simpl; intros *; rewrite ?lookup_empty; try done.
  split; [done|]. by intros (node & Hn & _).
Qed.

Lemma wrap_u32_succ z : 0 <= z < 4294967295 → wrap_u32 (z + 1) = z + 1.
Proof. intros. apply Z.mod_small. lia. Qed.

Lemma wf_fresh_node d : dag_wf d → sd_nodes d !! sd_next_node_id d = None.
Proof.
  intros Hwf. destruct (sd_nodes d !! _) as [node|] eqn:E; [|done].
  apply (wf_node _ Hwf) in E. lia.
Qed.

Lemma wf_fresh_edge d : dag_wf d → sd_edges d !! sd_next_edge_id d = None.
Proof.
  intros Hwf. destruct (sd_edges d !! _) as [edge|] eqn:E; [|done].
  apply (wf_edge _ Hwf) in E. lia.
Qed.

Lemma dag_wf_add_node name ty schema d : sd_next_node_id d < 4294967295 →
  dag_wf d → dag_wf (StreamingDag_add_node name ty schema d).1.
Proof.
  intros Hlt Hwf. unfold StreamingDag_add_node.
  destruct (sd_name_index d !! name) eqn:Hname; [done|]. simpl.
  pose proof (wf_fresh_node d Hwf) as Hfresh. pose proof (wf_next d Hwf) as Hnext.
  set (id := sd_next_node_id d) in *. rewrite wrap_u32_succ by lia.
  assert (Hedge : ∀ e edge, sd_edges d !! e = Some edge → de_source edge ≠ id ∧ de_target edge ≠ id).
  { intros e edge He. apply (wf_edge _ Hwf) in He as (_ & _ & _ & [? ?] & [? ?]).
    split; intros Heq; congruence. }
  split; simpl; try (intros n node; rewrite lookup_insert_Some; intros [[<- <-]|[Hne Hn]]).
  - simpl. lia.
  - apply (wf_node _ Hwf) in Hn. lia.
  - intros e edge He. pose proof (wf_edge _ Hwf _ _ He) as (? & ? & ? & Hs & Ht).
    destruct (Hedge _ _ He). rewrite !lookup_insert_ne by done. done.
  - simpl. split; [constructor|]. intros e. split; [by intros ?%elem_of_nil|].
    intros (edge & He & Hs). destruct (Hedge _ _ He). done.
  - by apply (wf_outputs _ Hwf n).
  - simpl. split; [constructor|]. intros e. split; [by intros ?%elem_of_nil|].
    intros (edge & He & Hs). destruct (Hedge _ _ He). done.
  - by apply (wf_inputs _ Hwf n).
  - intros n node i e edge. rewrite lookup_insert_Some. intros [[<- <-]|[Hne Hn]]; [done|].
    by apply (wf_source_port _ Hwf n node i).
  - intros n node i e edge. rewrite lookup_insert_Some. intros [[<- <-]|[Hne Hn]]; [done|].
    by apply (wf_target_port _ Hwf n node i).
  - intros s n. rewrite lookup_insert_Some. setoid_rewrite lookup_insert_Some. split.
    + intros [[<- <-]|[Hne Hn]]; [eexists; by split; [left|]|].
      apply (wf_names _ Hwf) in Hn as (node & Hn & <-). exists node. split; [|done]. right.
      split; [congruence|done].
    + intros (node & [[<- <-]|[Hne Hn]] & <-); [by left|]. right.
      assert (sd_name_index d !! dn_name node = Some n) as Hi by (apply (wf_names _ Hwf); eauto).
      split; [congruence|done].
  - lia.
Qed.

Definition link_node (id source target n : Z) (node : DagNode) : DagNode :=
  if decide (n = target) then push_input id node
  else if decide (n = source) then push_output id node else node.

Lemma lookup_linked id source target (nodes : gmap Z DagNode) n : source ≠ target →
  alter (push_input id) target (alter (push_output id) source nodes) !! n =
  link_node id source target n <$> nodes !! n.
Proof.
  intros Hne. unfold link_node. destruct (decide (n = target)) as [->|Ht].
  - by rewrite lookup_alter_eq, lookup_alter_ne.
  - rewrite lookup_alter_ne by done. destruct (decide (n = source)) as [->|Hs].
    + by rewrite lookup_alter_eq.
    + rewrite lookup_alter_ne by done. by destruct (nodes !! n).
Qed.

(** A list of edge ids stays exact when the new edge is appended or not. *)
Lemma edge_list_push (f : DagEdge → Z) (edges : gmap Z DagEdge) id edge n l :
  edges !! id = None → f edge = n →
  NoDup l ∧ (∀ e, e ∈ l ↔ ∃ edge, edges !! e = Some edge ∧ f edge = n) →
  NoDup (l ++ [id]) ∧ ∀ e, e ∈ l ++ [id] ↔ ∃ edge', <[id:=edge]> edges !! e = Some edge' ∧ f edge' = n.
Proof.
  intros Hid Hf [Hnd Hl]. split.
  - apply NoDup_app. split; [done|]. split; [|apply NoDup_singleton].
    intros e He ->%list_elem_of_singleton. apply Hl in He as (? & ? & ?). congruence.
  - intros e. rewrite elem_of_app, list_elem_of_singleton, Hl. setoid_rewrite lookup_insert_Some.
    split; [intros [(edge' & He & Hfe)| ->]|intros (edge' & [[-> ->]|[Hne He]] & Hfe)].
    + exists edge'. split; [right; split; [congruence|done]|done].
    + exists edge. split; [by left|done].
    + by right.
    + left. by exists edge'.
Qed.

Lemma edge_list_keep (f : DagEdge → Z) (edges : gmap Z DagEdge) id edge n l :
  edges !! id = None → f edge ≠ n →
  NoDup l ∧ (∀ e, e ∈ l ↔ ∃ edge, edges !! e = Some edge ∧ f edge = n) →
  NoDup l ∧ ∀ e, e ∈ l ↔ ∃ edge', <[id:=edge]> edges !! e = Some edge' ∧ f edge' = n.
Proof.
  intros Hid Hf [Hnd Hl]. split; [done|]. intros e. rewrite Hl.
  setoid_rewrite lookup_insert_Some.
  split; [intros (edge' & He & Hfe)|intros (edge' & [[-> ->]|[Hne He]] & Hfe)]; [|done|].
  - exists edge'. split; [right; split; [congruence|done]|done].
  - by exists edge'.
Qed.

Lemma lookup_snoc_Some {A} (l : list A) x i y :
  (l ++ [x]) !! i = Some y ↔ l !! i = Some y ∨ i = length l ∧ x = y.
Proof.
  rewrite lookup_app_Some. split.
  - intros [H|[Hle H]]; [by left|right]. apply list_lookup_singleton_Some in H as [? ->].
    split; [lia|done].
  - intros [H|[-> ->]]; [by left|right]. split; [lia|]. by rewrite Nat.sub_diag.
Qed.

Lemma dag_wf_add_edge source target d : sd_next_edge_id d < 4294967295 →
  dag_wf d → dag_wf (StreamingDag_add_edge source target d).1.
Proof.
  intros Hlt Hwf. unfold StreamingDag_add_edge. case_decide as Hst; [done|].
  destruct (sd_nodes d !! source) as [src|] eqn:Hsrc; [|done].
  destruct (sd_nodes d !! target) as [tgt|] eqn:Htgt; [|done]. simpl.
  pose proof (wf_fresh_edge d Hwf) as Hfresh. pose proof (wf_next d Hwf) as Hnext.
  set (id := sd_next_edge_id d) in *. rewrite wrap_u32_succ by lia.
  set (edge := mkDagEdge _ _ _ _ _ _ _).
  assert (Hlk : ∀ n node', alter (push_input id) target (alter (push_output id) source (sd_nodes d)) !! n
      = Some node' → ∃ node, sd_nodes d !! n = Some node ∧ node' = link_node id source target n node).
  { intros n node'. rewrite lookup_linked, fmap_Some by done. done. }
  assert (Hold : ∀ n node e, sd_nodes d !! n = Some node →
    e ∈ dn_outputs node ∨ e ∈ dn_inputs node → e ≠ id).
  { intros n node e Hn Hin ->.
    destruct Hin as [Hin|Hin]; [apply (wf_outputs _ Hwf _ _ Hn) in Hin as (? & ? & _)
      |apply (wf_inputs _ Hwf _ _ Hn) in Hin as (? & ? & _)]; congruence. }
  split; simpl.
  - intros n node' (node & Hn & ->)%Hlk. apply (wf_node _ Hwf) in Hn as (? & ? & ?).
    unfold link_node. repeat case_decide; done.
  - intros e edge'. rewrite !lookup_linked by done. rewrite lookup_insert_Some.
    intros [[<- <-]|[Hne He]]; simpl.
    + rewrite Hsrc, Htgt. split; [done|]. split; [lia|]. split; [done|]. split; eexists; done.
    + apply (wf_edge _ Hwf) in He as (? & ? & ? & ? & ?). rewrite !fmap_is_Some. split_and!; try done; lia.
  - intros n node' (node & Hn & ->)%Hlk. pose proof (wf_outputs _ Hwf _ _ Hn) as Ho.
    unfold link_node. repeat case_decide; subst; simpl;
      [apply edge_list_keep|apply edge_list_push|apply edge_list_keep]; done.
  - intros n node' (node & Hn & ->)%Hlk. pose proof (wf_inputs _ Hwf _ _ Hn) as Ho.
    unfold link_node. repeat case_decide; subst; simpl;
      [apply edge_list_push|apply edge_list_keep|apply edge_list_keep]; done.
  - intros n node' i e edge' (node & Hn & ->)%Hlk Hi. rewrite lookup_insert_Some.
    assert (Hi' : dn_outputs node !! i = Some e ∨ n = source ∧ i = length (dn_outputs node) ∧ id = e).
    { unfold link_node in Hi. repeat case_decide; simpl in Hi; auto. apply lookup_snoc_Some in Hi.
      tauto. }
    intros [[-> <-]|[Hne He]]; destruct Hi' as [Hi'|(-> & -> & He')]; try done.
    + exfalso. apply list_elem_of_lookup_2 in Hi'. by eapply Hold; eauto.
    + simpl. by simplify_eq.
    + by eapply (wf_source_port _ Hwf).
  - intros n node' i e edge' (node & Hn & ->)%Hlk Hi. rewrite lookup_insert_Some.
    assert (Hi' : dn_inputs node !! i = Some e ∨ n = target ∧ i = length (dn_inputs node) ∧ id = e).
    { unfold link_node in Hi. repeat case_decide; simpl in Hi; auto. apply lookup_snoc_Some in Hi.
      tauto. }
    intros [[-> <-]|[Hne He]]; destruct Hi' as [Hi'|(-> & -> & He')]; try done.
    + exfalso. apply list_elem_of_lookup_2 in Hi'. by eapply Hold; eauto.
    + simpl. by simplify_eq.
    + by eapply (wf_target_port _ Hwf).
  - intros s n. rewrite (wf_names _ Hwf), lookup_linked by done. setoid_rewrite fmap_Some.
    assert (Hname : ∀ node, dn_name (link_node id source target n node) = dn_name node).
    { intros node. unfold link_node. repeat case_decide; done. }
    split; [intros (node & ? & <-); eauto|intros (? & (node & ? & ->) & <-)]. by exists node.
  - lia.
Qed.

(** *** [finalize] only reads the graph *)

Section Finalize.
Context `{HO : !HashOrder} `{HL : !HashOrderLaws}.

Lemma elem_of_hash_values {A} (m : gmap Z A) x : x ∈ hash_values m ↔ ∃ k, m !! k = Some x.
Proof.
  unfold hash_values. rewrite list_elem_of_fmap. setoid_rewrite hash_iter_perm. split.
  - intros ([k y] & -> & H%elem_of_map_to_list). eauto.
  - intros [k H]. exists (k, x). by rewrite elem_of_map_to_list.
Qed.

Lemma elem_of_hash_keys {A} (m : gmap Z A) k : k ∈ hash_keys m ↔ is_Some (m !! k).
Proof.
  unfold hash_keys. rewrite list_elem_of_fmap. setoid_rewrite hash_iter_perm. split.
  - intros ([k' y] & -> & H%elem_of_map_to_list). eauto.
  - intros [y H]. exists (k, y). by rewrite elem_of_map_to_list.
Qed.

Lemma NoDup_hash_keys {A} (m : gmap Z A) : NoDup (hash_keys m).
Proof. unfold hash_keys. rewrite hash_iter_perm. apply NoDup_fst_map_to_list. Qed.

Definition same_graph (d d' : StreamingDag) : Prop :=
  sd_nodes d' = sd_nodes d ∧ sd_name_index d' = sd_name_index d ∧
  sd_next_node_id d' = sd_next_node_id d ∧ sd_next_edge_id d' = sd_next_edge_id d.

Lemma channel_type_nodes d d' edge : sd_nodes d' = sd_nodes d →
  channel_type d' edge = channel_type d edge.
Proof. unfold channel_type, incoming_edge_count, outgoing_edge_count. by intros ->. Qed.

Lemma derive_fold d l : NoDup l →
  let f := λ edge, set_channel_type (channel_type d edge) edge in
  ∀ d0, same_graph d d0 ∧ sd_execution_order d0 = sd_execution_order d →
  (∀ k, sd_edges d0 !! k = if decide (k ∈ l) then sd_edges d !! k else f <$> sd_edges d !! k) →
  let d' := foldl derive_step d0 l in
  (same_graph d d' ∧ sd_execution_order d' = sd_execution_order d) ∧
  sd_edges d' = f <$> sd_edges d.
Proof.
  intros Hnd f. induction Hnd as [|e l Hel Hnd IH]; intros d0 Hs Hd0.
  { simpl. split; [done|]. apply map_eq. intros k. rewrite Hd0, lookup_fmap.
    by rewrite decide_False by apply not_elem_of_nil. }
  assert (He : sd_edges d0 !! e = sd_edges d !! e) by (rewrite Hd0, decide_True; [done|left]).
  change (foldl derive_step d0 (e :: l)) with (foldl derive_step (derive_step d0 e) l).
  unfold derive_step at 2. rewrite He.
  destruct (sd_edges d !! e) as [edge|] eqn:Hedge; apply IH; clear IH; try done.
  - intros k. unfold set_edges; cbn [sd_edges]. rewrite (channel_type_nodes d d0) by apply Hs.
    destruct (decide (k = e)) as [->|Hne].
    + by rewrite lookup_insert_eq, decide_False, Hedge.
    + rewrite lookup_insert_ne, Hd0 by done. by rewrite !(decide_ext (k ∈ e :: l) (k ∈ l)) by set_solver.
  - intros k. rewrite Hd0. destruct (decide (k = e)) as [->|Hne].
    + rewrite Hedge. by repeat case_decide.
    + by rewrite !(decide_ext (k ∈ e :: l) (k ∈ l)) by set_solver.
Qed.

Lemma derive_channel_types_spec d :
  let d' := derive_channel_types d in
  same_graph d d' ∧ sd_execution_order d' = sd_execution_order d ∧
  sd_edges d' = (λ edge, set_channel_type (channel_type d edge) edge) <$> sd_edges d.
Proof.
  destruct (derive_fold d (hash_keys (sd_edges d)) (NoDup_hash_keys _) d) as [[? ?] ?];
    [by repeat split| |done].
  intros k. case_decide as Hk; [done|]. rewrite elem_of_hash_keys, <- eq_None_not_Some in Hk.
  by rewrite Hk.
Qed.

Lemma finalize_same_graph d d' r : StreamingDag_finalize d = Some (d', r) →
  same_graph d d' ∧
  (sd_edges d' = sd_edges d ∨
   sd_edges d' = (λ edge, set_channel_type (channel_type d edge) edge) <$> sd_edges d).
Proof.
  unfold StreamingDag_finalize, compute_execution_order. intros Hf.
  case_decide; [simplify_eq; split; [by repeat split|by left]|].
  destruct (check_fan_out_limits d); [|simplify_eq; split; [by repeat split|by left]].
  destruct (kahn_topo_sort d) as [[order processed]|]; [|done].
  destruct (if decide _ then _ else _) as [d1 [|]] eqn:E;
    [|case_decide; simplify_eq; (split; [by repeat split|by left])].
  case_decide; [unfold cycle_error in E; repeat case_match; simplify_eq|]. simplify_eq.
  destruct (check_connected _); simplify_eq; [|split; [by repeat split|by left]].
  destruct (derive_channel_types_spec (set_order order d)) as (Hs & _ & He).
  split; [apply Hs|right; apply He].
Qed.

Lemma dag_wf_finalize d d' r : StreamingDag_finalize d = Some (d', r) → dag_wf d → dag_wf d'.
Proof.
  intros ((Hn & Hi & Hnn & Hne) & He)%finalize_same_graph Hwf.
  set (f := λ edge, set_channel_type (channel_type d edge) edge) in He.
  assert (Hes : ∀ e edge', sd_edges d' !! e = Some edge' → ∃ edge, sd_edges d !! e = Some edge ∧
    de_id edge' = de_id edge ∧ de_source edge' = de_source edge ∧ de_target edge' = de_target edge ∧
    de_source_port edge' = de_source_port edge ∧ de_target_port edge' = de_target_port edge).
  { intros e edge'. destruct He as [-> | ->]; [by eauto 8|]. rewrite lookup_fmap, fmap_Some.
    intros (edge & ? & ->). eexists; split; [done|]. done. }
  assert (Hel : ∀ (g : DagEdge → Z) l n, (∀ c e, g (set_channel_type c e) = g e) →
    NoDup l ∧ (∀ e, e ∈ l ↔ ∃ edge, sd_edges d !! e = Some edge ∧ g edge = n) →
    NoDup l ∧ (∀ e, e ∈ l ↔ ∃ edge, sd_edges d' !! e = Some edge ∧ g edge = n)).
  { intros g l n Hg [Hnd Hl]. split; [done|]. intros e. rewrite Hl.
    destruct He as [-> | ->]; [done|]. setoid_rewrite lookup_fmap. setoid_rewrite fmap_Some. split.
    - intros (edge & ? & <-). exists (f edge). split; [eauto|]. apply Hg.
    - intros (? & (edge & ? & ->) & <-). exists edge. split; [done|]. symmetry. apply Hg. }
  split; rewrite ?Hn, ?Hi, ?Hnn, ?Hne.
  - apply Hwf.
  - intros e edge' (edge & ? & -> & -> & -> & _)%Hes. by apply Hwf.
  - intros n node Hnode. apply Hel; [done|]. by apply (wf_outputs _ Hwf).
  - intros n node Hnode. apply Hel; [done|]. by apply (wf_inputs _ Hwf).
  - intros n node i e edge' ? ? (edge & ? & _ & _ & _ & -> & _)%Hes.
    by eapply (wf_source_port _ Hwf n node i).
  - intros n node i e edge' ? ? (edge & ? & _ & _ & _ & _ & ->)%Hes.
    by eapply (wf_target_port _ Hwf n node i).
  - apply Hwf.
  - apply Hwf.
Qed.

Lemma dag_reach_wf d : dag_reach d → dag_wf d.
Proof.
  induction 1 as [|d name ty schema _ IH Hlt|d s t _ IH Hlt|d d' r _ IH Hf].
  - apply dag_wf_new.
  - by apply dag_wf_add_node.
  - by apply dag_wf_add_edge.
  - by eapply dag_wf_finalize.
Qed.

(** *** Kahn's algorithm *)

Definition open_inputs (rel : gset Z) (node : DagNode) : nat :=
  length (filter (λ e, e ∉ rel) (dn_inputs node)).

Lemma open_inputs_0 rel node : open_inputs rel node = 0%nat ↔ ∀ e, e ∈ dn_inputs node → e ∈ rel.
Proof.
  unfold open_inputs. rewrite length_zero_iff_nil. split.
  - intros Hf e He. destruct (decide (e ∈ rel)) as [|Hn]; [done|].
    assert (e ∈ filter (λ e, e ∉ rel) (dn_inputs node)) as Hin by by apply list_elem_of_filter.
    rewrite Hf in Hin. by apply elem_of_nil in Hin.
  - intros Ha. apply filter_none. apply Forall_forall. intros e He Hn. by apply Hn, Ha.
Qed.

Lemma open_inputs_release rel node e : NoDup (dn_inputs node) → e ∉ rel → e ∈ dn_inputs node →
  open_inputs rel node = S (open_inputs (rel ∪ {[e]}) node).
Proof.
  unfold open_inputs. intros Hnd He [l Hl]%elem_of_Permutation. rewrite Hl in *.
  apply NoDup_cons in Hnd as [Hel Hnd].
  rewrite filter_cons_True by done. rewrite filter_cons_False by set_solver. simpl. f_equal.
  f_equal. apply filter_ext_in. set_solver.
Qed.

Lemma open_inputs_same rel node e : e ∉ dn_inputs node →
  open_inputs (rel ∪ {[e]}) node = open_inputs rel node.
Proof.
  intros He. unfold open_inputs. f_equal. apply filter_ext_in. set_solver.
Qed.

Lemma open_inputs_mono rel rel' node : open_inputs rel node = 0%nat → rel ⊆ rel' →
  open_inputs rel' node = 0%nat.
Proof. rewrite !open_inputs_0. set_solver. Qed.

Definition degrees_ok (d : StreamingDag) (rel : gset Z) (ind : gmap Z nat) : Prop :=
  ∀ n node, sd_nodes d !! n = Some node → ind !! n = Some (open_inputs rel node).

Lemma release_targets_spec d (Hwf : dag_wf d) outs :
  ∀ ind succ rel, NoDup outs → (∀ e, e ∈ outs → e ∉ rel ∧ is_Some (sd_edges d !! e)) →
  degrees_ok d rel ind →
  ∃ ind' new, release_targets d outs ind succ = (ind', succ ++ new) ∧
    degrees_ok d (rel ∪ list_to_set outs) ind' ∧ NoDup new ∧
    ∀ n, n ∈ new ↔ ∃ node, sd_nodes d !! n = Some node ∧ open_inputs rel node ≠ 0%nat ∧
      open_inputs (rel ∪ list_to_set outs) node = 0%nat.
Proof.
  induction outs as [|e outs IH]; intros ind succ rel Hnd Hout Hdeg.
  { exists ind, []. rewrite app_nil_r. split; [done|]. simpl.
    replace (rel ∪ ∅) with rel by set_solver.
    split; [done|]. split; [constructor|]. intros n. split; [by intros ?%elem_of_nil|].
    by intros (? & _ & ? & ?). }
  apply NoDup_cons in Hnd as [Heo Hnd]. destruct (Hout e) as [Her [edge Hedge]]; [left|].
  destruct (wf_edge _ Hwf _ _ Hedge) as (_ & _ & _ & _ & [tnode Ht]).
  pose proof (wf_inputs _ Hwf _ _ Ht) as [Hti Hiff].
  assert (Hein : e ∈ dn_inputs tnode) by (apply Hiff; eauto).
  pose proof (open_inputs_release rel tnode e Hti Her Hein) as Hopen.
  simpl. rewrite Hedge. rewrite (Hdeg _ _ Ht), Hopen. simpl. rewrite Nat.sub_0_r.
  set (k := open_inputs (rel ∪ {[e]}) tnode) in *.
  edestruct (IH (<[de_target edge:=k]> ind)
    (if decide (k = 0%nat) then succ ++ [de_target edge] else succ) (rel ∪ {[e]}) Hnd)
    as (ind' & new & Heq & Hd' & Hndn & Hnew).
  { intros e' He'. destruct (Hout e') as [? ?]; [by right|]. split; [|done]. set_solver. }
  { intros n node Hn. destruct (decide (n = de_target edge)) as [->|Hne].
    - rewrite lookup_insert_eq. by simplify_eq.
    - rewrite lookup_insert_ne by done. rewrite open_inputs_same; [by apply Hdeg|].
      intros Hin. apply (wf_inputs _ Hwf _ _ Hn) in Hin as (edge' & ? & ?). congruence. }
  exists ind', ((if decide (k = 0%nat) then [de_target edge] else []) ++ new).
  rewrite (assoc_L (∪) rel {[e]}).
  split; [rewrite Heq; case_decide; simpl; by rewrite ?app_nil_r, <- ?app_assoc|].
  split; [done|].
  assert (Hsame : ∀ n node, sd_nodes d !! n = Some node → n ≠ de_target edge →
    open_inputs (rel ∪ {[e]}) node = open_inputs rel node).
  { intros n node Hn Hne. apply open_inputs_same. intros Hin.
    apply (wf_inputs _ Hwf _ _ Hn) in Hin as (edge' & ? & ?). congruence. }
  split.
  { case_decide as Hk; [|done]. simpl. constructor; [|done].
    rewrite Hnew. intros (node & Hn & Hz & _). by simplify_eq. }
  intros n. rewrite elem_of_app, Hnew. split.
  - intros [Hin|(node & Hn & Hz & Hz')].
    + case_decide as Hk; [|by apply elem_of_nil in Hin].
      apply list_elem_of_singleton in Hin as ->. exists tnode. split; [done|]. split; [lia|].
      eapply open_inputs_mono; [exact Hk|set_solver].
    + exists node. split; [done|]. split; [|done]. destruct (decide (n = de_target edge)) as [->|Hne].
      * simplify_eq. lia.
      * by rewrite <- (Hsame n).
  - intros (node & Hn & Hz & Hz'). destruct (decide (n = de_target edge)) as [->|Hne].
    + simplify_eq. destruct (decide (k = 0%nat)) as [Hk|Hk]; [left; by left|right].
      exists tnode. split; [done|]. split; done.
    + right. exists node. split; [done|]. by rewrite (Hsame n).
Qed.

(** The in-degrees are the numbers of inputs. *)
Definition degree_plus (k : option nat) (c : nat) : option nat :=
  match k, c with None, O => None | _, _ => Some (default 0 k + c)%nat end.

Lemma fold_degrees (edges : list DagEdge) (m : gmap Z nat) n :
  foldl (λ m edge, <[de_target edge := S (default 0%nat (m !! de_target edge))]> m) m edges !! n =
  degree_plus (m !! n) (length (filter (λ edge, de_target edge = n) edges)).
Proof.
  revert m. induction edges as [|edge edges IH]; intros m; simpl.
  { unfold degree_plus; simpl. destruct (m !! n); simpl; [f_equal; lia|done]. }
  rewrite IH. destruct (decide (de_target edge = n)) as [<-|Hne].
  - rewrite lookup_insert_eq, filter_cons_True by done. unfold degree_plus; simpl.
    destruct (m !! de_target edge); simpl; f_equal; lia.
  - by rewrite lookup_insert_ne, filter_cons_False by done.
Qed.

Lemma fold_zero (nodes : list DagNode) (m : gmap Z nat) n :
  foldl (λ m node, match m !! dn_id node with Some _ => m | None => <[dn_id node := 0%nat]> m end)
    m nodes !! n =
  match m !! n with
  | Some k => Some k
  | None => if decide (n ∈ dn_id <$> nodes) then Some 0%nat else None
  end.
Proof.
  revert m. induction nodes as [|node nodes IH]; intros m.
  { by destruct (m !! n) eqn:E; simpl; rewrite E. }
  simpl foldl. rewrite IH. rewrite fmap_cons. destruct (m !! dn_id node) as [k|] eqn:E.
  - destruct (m !! n) eqn:E'; [done|]. rewrite !(decide_ext (n ∈ dn_id node :: _) (n ∈ dn_id <$> nodes));
      [done|]. rewrite elem_of_cons. split; [intros [->|?]; [congruence|done]|by right].
  - destruct (decide (n = dn_id node)) as [->|Hne].
    + rewrite lookup_insert_eq, E. by rewrite decide_True by left.
    + rewrite lookup_insert_ne by done. destruct (m !! n); [done|].
      rewrite !(decide_ext (n ∈ dn_id node :: _) (n ∈ dn_id <$> nodes)); [done|]. set_solver.
Qed.

Lemma NoDup_fmap_filter {A B} (f : A → B) (P : A → Prop) `{∀ x, Decision (P x)} (l : list A) :
  NoDup (f <$> l) → NoDup (f <$> filter P l).
Proof.
  induction l as [|x l IH]; [done|]. rewrite fmap_cons, NoDup_cons, filter_cons.
  intros [Hx Hl]. case_decide; [|by apply IH]. rewrite fmap_cons, NoDup_cons.
  split; [|by apply IH]. contradict Hx. revert Hx. rewrite !list_elem_of_fmap.
  intros (y & -> & [_ ?]%list_elem_of_filter). eauto.
Qed.

Lemma inputs_perm_ids d n node : dag_wf d → sd_nodes d !! n = Some node →
  dn_inputs node ≡ₚ de_id <$> filter (λ edge, de_target edge = n) (hash_values (sd_edges d)).
Proof.
  intros Hwf Hn. destruct (wf_inputs _ Hwf _ _ Hn) as [Hnd Hin]. apply NoDup_Permutation; [done| |].
  - assert (Hids : de_id <$> hash_values (sd_edges d) = hash_keys (sd_edges d)).
    { unfold hash_values, hash_keys. rewrite <- list_fmap_compose. apply list_fmap_ext.
      intros i [k edge] Hi. apply list_elem_of_lookup_2 in Hi. rewrite hash_iter_perm in Hi.
      apply elem_of_map_to_list in Hi. by apply (wf_edge _ Hwf) in Hi as [? _]. }
    apply NoDup_fmap_filter. rewrite Hids. apply NoDup_hash_keys.
  - intros e. rewrite Hin, list_elem_of_fmap. split.
    + intros (edge & He & Ht). exists edge. pose proof (wf_edge _ Hwf _ _ He) as (<- & _).
      split; [done|]. apply list_elem_of_filter. rewrite elem_of_hash_values. eauto.
    + intros (edge & -> & [Ht Hv]%list_elem_of_filter).
      apply elem_of_hash_values in Hv as [k Hk]. exists edge.
      by pose proof (wf_edge _ Hwf _ _ Hk) as (-> & _).
Qed.

Lemma inputs_perm d n node : dag_wf d → sd_nodes d !! n = Some node →
  length (filter (λ edge, de_target edge = n) (hash_values (sd_edges d))) = length (dn_inputs node).
Proof. intros Hwf Hn. by rewrite (inputs_perm_ids d n node Hwf Hn), length_fmap. Qed.

Lemma in_degrees_spec d n : dag_wf d →
  in_degrees d !! n = (λ node, length (dn_inputs node)) <$> sd_nodes d !! n.
Proof.
  intros Hwf. unfold in_degrees. rewrite fold_degrees, fold_zero, lookup_empty.
  destruct (sd_nodes d !! n) as [node|] eqn:Hn; simpl.
  - rewrite decide_True.
    + unfold degree_plus. simpl. f_equal. by apply inputs_perm.
    + apply list_elem_of_fmap. exists node. rewrite elem_of_hash_values.
      by pose proof (wf_node _ Hwf _ _ Hn) as (-> & _); eauto.
  - rewrite decide_False.
    + rewrite filter_none; [done|]. apply Forall_forall. intros edge [k Hk]%elem_of_hash_values Ht.
      apply (wf_edge _ Hwf) in Hk as (_ & _ & _ & _ & [? Hs]). congruence.
    + intros (node & -> & [k Hk]%elem_of_hash_values)%list_elem_of_fmap.
      pose proof (wf_node _ Hwf _ _ Hk) as (? & _). congruence.
Qed.

(** The order so far: every edge into it comes from an earlier position. *)
Definition topo_order (d : StreamingDag) (order : list Z) : Prop :=
  ∀ i e edge, sd_edges d !! e = Some edge → order !! i = Some (de_target edge) →
  ∃ j, (j < i)%nat ∧ order !! j = Some (de_source edge).

Record kahn_inv (d : StreamingDag) (queue order : list Z) (ind : gmap Z nat) (rel : gset Z) : Prop := {
  ki_rel e : e ∈ rel ↔ ∃ edge, sd_edges d !! e = Some edge ∧ de_source edge ∈ order;
  ki_deg : degrees_ok d rel ind;
  ki_nodup : NoDup (order ++ queue);
  ki_ready n : n ∈ order ++ queue ↔
    ∃ node, sd_nodes d !! n = Some node ∧ open_inputs rel node = 0%nat;
  ki_topo : topo_order d order }.

Lemma topo_order_snoc d order n : topo_order d order →
  (∀ e edge, sd_edges d !! e = Some edge → de_target edge = n → de_source edge ∈ order) →
  topo_order d (order ++ [n]).
Proof.
  intros Ht Hn i e edge He [Hi|[-> Hi]]%lookup_snoc_Some.
  - destruct (Ht _ _ _ He Hi) as (j & ? & ?). exists j. split; [done|]. by apply lookup_app_l_Some.
  - pose proof (Hn _ _ He (eq_sym Hi)) as [j Hj]%list_elem_of_lookup. exists j.
    pose proof (lookup_lt_Some _ _ _ Hj). split; [done|]. by apply lookup_app_l_Some.
Qed.

Lemma kahn_inv_step d n queue order ind rel node ind' succ : dag_wf d →
  kahn_inv d (n :: queue) order ind rel → sd_nodes d !! n = Some node →
  release_targets d (dn_outputs node) ind [] = (ind', succ) →
  kahn_inv d (queue ++ sort_ids succ) (order ++ [n]) ind' (rel ∪ list_to_set (dn_outputs node)).
Proof.
  intros Hwf [Hrel Hdeg Hnd Hready Htopo] Hn Hr.
  destruct (wf_outputs _ Hwf _ _ Hn) as [Hond Hout].
  assert (Hno : n ∉ order). { apply NoDup_app in Hnd as (_ & Hnd & _). intros Hin. apply (Hnd n Hin). left. }
  destruct (release_targets_spec d Hwf (dn_outputs node) ind [] rel Hond) as (ind2 & new & Heq & Hd2 & Hndn & Hnew).
  { intros e He. apply Hout in He as (edge & He & <-). split; [|eauto].
    rewrite Hrel. intros (? & ? & ?). by simplify_eq. }
  { done. }
  rewrite Hr in Heq. simplify_eq. simpl in *.
  assert (Hperm : (order ++ [n]) ++ queue ++ sort_ids new ≡ₚ (order ++ n :: queue) ++ new).
  { unfold sort_ids. rewrite merge_sort_Permutation. rewrite <- !app_assoc. done. }
  split.
  - intros e. rewrite elem_of_union, elem_of_list_to_set, Hrel, Hout.
    setoid_rewrite elem_of_app. setoid_rewrite list_elem_of_singleton. naive_solver.
  - done.
  - rewrite Hperm. apply NoDup_app. split; [done|]. split; [|done].
    intros m Hm (mnode & Hm1 & Hm2 & _)%Hnew. apply Hready in Hm as (? & ? & ?). by simplify_eq.
  - intros m. rewrite Hperm, elem_of_app, Hready, Hnew. split.
    + intros [(mnode & ? & ?)|(mnode & ? & _ & ?)]; exists mnode; [|done]. split; [done|].
      eapply open_inputs_mono; [done|set_solver].
    + intros (mnode & Hm & Hz). destruct (decide (open_inputs rel mnode = 0%nat)); [left|right]; eauto.
  - apply topo_order_snoc; [done|]. intros e edge He Ht.
    assert (Hin : n ∈ order ++ n :: queue) by set_solver. apply Hready in Hin as (node' & ? & Hz).
    simplify_eq. rewrite open_inputs_0 in Hz. assert (Her : e ∈ rel).
    { apply Hz. by apply (wf_inputs _ Hwf _ _ Hn); eauto. }
    apply Hrel in Her as (? & ? & ?). by simplify_eq.
Qed.

Lemma ids_bounded {A} (m : gmap Z A) (l : list Z) : NoDup l → (∀ n, n ∈ l → is_Some (m !! n)) →
  (length l <= size m)%nat ∧ (length l = size m → ∀ n, is_Some (m !! n) → n ∈ l).
Proof.
  intros Hnd Hl. assert (Hlen : size (list_to_set l : gset Z) = length l) by by apply size_list_to_set.
  rewrite <- (size_dom (D:=gset Z) m), <- Hlen.
  assert (Hsub : list_to_set l ⊆@{gset Z} dom m).
  { intros n Hn%elem_of_list_to_set. by apply elem_of_dom, Hl. }
  split; [by apply subseteq_size|]. intros Hs n Hn.
  apply (elem_of_list_to_set (C:=gset Z)). 
  rewrite (set_subseteq_size_eq (list_to_set l : gset Z) (dom m)); [by apply elem_of_dom|done|lia].
Qed.

Lemma kahn_loop_spec d (Hwf : dag_wf d) fuel : ∀ queue ind order rel,
  kahn_inv d queue order ind rel → (size (sd_nodes d) <= fuel + length order)%nat →
  ∃ order' ind' rel', kahn_loop fuel d queue ind order (length order) = Some (order', length order') ∧
    kahn_inv d [] order' ind' rel'.
Proof.
  induction fuel as [|fuel IH]; intros queue ind order rel Hinv Hfuel;
    (destruct queue as [|n queue]; [by exists order, ind, rel|]).
  - exfalso. destruct (ids_bounded (sd_nodes d) (order ++ n :: queue)) as [Hlen _].
    + apply Hinv.
    + intros m (node & ? & _)%(ki_ready _ _ _ _ _ Hinv). eauto.
    + rewrite length_app in Hlen. simpl in *. lia.
  - assert (Hin : n ∈ order ++ n :: queue) by set_solver.
    apply (ki_ready _ _ _ _ _ Hinv) in Hin as (node & Hn & _). simpl. rewrite Hn.
    destruct (release_targets d (dn_outputs node) ind []) as [ind' succ] eqn:Hr.
    replace (S (length order)) with (length (order ++ [n])) by (rewrite length_app; simpl; lia).
    eapply IH; [by eapply kahn_inv_step|]. rewrite length_app. simpl. lia.
Qed.

Lemma kahn_inv_init d : dag_wf d →
  kahn_inv d (sort_ids (filter (λ kv, kv.2 = 0%nat) (hash_iter (in_degrees d))).*1) [] (in_degrees d) ∅.
Proof.
  intros Hwf.
  assert (Hempty : ∀ node, open_inputs ∅ node = length (dn_inputs node)).
  { intros node. unfold open_inputs. f_equal. apply filter_all, Forall_forall. set_solver. }
  assert (Hp : ∀ l, sort_ids l ≡ₚ l) by (intros; apply merge_sort_Permutation).
  split.
  - intros e. split; [set_solver|]. by intros (? & _ & ?%elem_of_nil).
  - intros n node Hn. by rewrite in_degrees_spec, Hn, Hempty.
  - simpl. rewrite Hp, hash_iter_perm. apply NoDup_fmap_filter, NoDup_fst_map_to_list.
  - intros n. simpl. rewrite Hp, hash_iter_perm, list_elem_of_fmap. setoid_rewrite list_elem_of_filter. split.
    + intros ([m k] & -> & Hk & Hm%elem_of_map_to_list). simpl in Hk. subst k.
      rewrite in_degrees_spec, fmap_Some in Hm by done. destruct Hm as (node & ? & ?).
      exists node. by rewrite Hempty.
    + intros (node & Hn & Hz). exists (n, 0%nat). split; [done|]. split; [done|].
      apply elem_of_map_to_list. by rewrite in_degrees_spec, Hn, <- Hz, Hempty.
  - by intros i e edge _ ?.
Qed.

Lemma kahn_spec d : dag_wf d → ∃ order, kahn_topo_sort d = Some (order, length order) ∧
  NoDup order ∧ (∀ n, n ∈ order → is_Some (sd_nodes d !! n)) ∧ topo_order d order ∧
  (∀ n, is_Some (sd_nodes d !! n) → n ∉ order → ∃ m, dag_edge d m n ∧ m ∉ order).
Proof.
  intros Hwf. unfold kahn_topo_sort.
  destruct (kahn_loop_spec d Hwf (size (sd_nodes d)) _ _ _ _ (kahn_inv_init d Hwf))
    as (order & ind & rel & Heq & [Hrel _ Hnd Hready Htopo]); [simpl; lia|].
  exists order. rewrite app_nil_r in *. split; [done|]. split; [done|]. split.
  { intros n (node & ? & _)%Hready. eauto. }
  split; [done|]. intros n [node Hn] Hno.
  destruct (filter (λ e, e ∉ rel) (dn_inputs node)) as [|e l] eqn:Hf.
  { destruct Hno. apply Hready. exists node. split; [done|]. unfold open_inputs. by rewrite Hf. }
  assert (He : e ∈ filter (λ e, e ∉ rel) (dn_inputs node)) by (rewrite Hf; left).
  apply list_elem_of_filter in He as [Her He]. apply (wf_inputs _ Hwf _ _ Hn) in He as (edge & He & <-).
  exists (de_source edge). split; [by exists e, edge|]. intros Hs. apply Her, Hrel. eauto.
Qed.

(** A topological order of all nodes leaves no cycle, and a set of nodes that is
    closed under taking a predecessor contains one. *)
Lemma topo_tc d order a b i : topo_order d order → tc (dag_edge d) a b → order !! i = Some b →
  ∃ j, (j < i)%nat ∧ order !! j = Some a.
Proof.
  intros Ht Hab. revert i. induction Hab as [a b (e & edge & He & <- & <-)|a b c (e & edge & He & <- & <-) _ IH];
    intros i Hi; [by eapply Ht|].
  destruct (IH _ Hi) as (j & ? & Hj). destruct (Ht _ _ _ He Hj) as (k & ? & ?). exists k. split; [lia|done].
Qed.

Lemma acyclic_minimal `{Countable A} (R : relation A) (X : gset A) : (∀ x, ¬ tc R x x) → X ≠ ∅ →
  ¬ ∀ x, x ∈ X → ∃ y, y ∈ X ∧ tc R y x.
Proof.
  intros Hac. induction X as [|x X Hx IH] using set_ind_L; [done|]. intros _ Hpred.
  destruct (decide (X = ∅)) as [->|Hne].
  { destruct (Hpred x) as (y & Hy & Ht); [set_solver|]. assert (y = x) as -> by set_solver. by apply (Hac x). }
  apply IH; [done|]. intros z Hz. destruct (Hpred z) as (y & Hy & Hyz); [set_solver|].
  destruct (decide (y = x)) as [->|]; [|exists y; set_solver].
  destruct (Hpred x) as (w & Hw & Hwx); [set_solver|].
  assert (w ≠ x) by (intros ->; by apply (Hac x)).
  exists w. split; [set_solver|]. by etrans.
Qed.

Lemma order_complete_iff d order : NoDup order → (∀ n, n ∈ order → is_Some (sd_nodes d !! n)) →
  topo_order d order →
  (∀ n, is_Some (sd_nodes d !! n) → n ∉ order → ∃ m, dag_edge d m n ∧ m ∉ order) →
  dag_wf d → (size (sd_nodes d) <= length order)%nat ↔ acyclic d.
Proof.
  intros Hnd Hsub Ht Hrest Hwf. destruct (ids_bounded (sd_nodes d) order Hnd Hsub) as [Hle Hall].
  assert (Hend : ∀ a b, tc (dag_edge d) a b → is_Some (sd_nodes d !! a)).
  { intros a b [? ? (e & edge & He & <- & _)|? ? ? (e & edge & He & <- & _) _];
      by apply (wf_edge _ Hwf _ _ He). }
  split.
  - intros Hge n Hn. assert (Hin : n ∈ order) by (eapply Hall; [lia|]; eauto).
    apply list_elem_of_lookup in Hin as [i Hi]. revert Hi. induction (lt_wf i) as [i _ IH].
    intros Hi. destruct (topo_tc _ _ _ _ _ Ht Hn Hi) as (j & ? & Hj). by apply (IH j).
  - intros Hac. destruct (decide (size (sd_nodes d) <= length order)%nat) as [|Hlt]; [done|].
    set (X := dom (sd_nodes d) ∖ list_to_set order : gset Z).
    destruct (acyclic_minimal (dag_edge d) X Hac).
    + intros HX. assert (Hin : dom (sd_nodes d) ⊆@{gset Z} list_to_set order) by (subst X; set_solver).
      apply subseteq_size in Hin. rewrite size_dom, size_list_to_set in Hin by done. lia.
    + intros x Hx. subst X. rewrite elem_of_difference, elem_of_dom, elem_of_list_to_set in Hx.
      destruct (Hrest x) as (m & Hm & Hmo); [by apply Hx..|]. exists m.
      pose proof (tc_once _ _ _ Hm) as Htc. split; [|done].
      rewrite elem_of_difference, elem_of_dom, elem_of_list_to_set. eauto.
Qed.

(** *** What [finalize] accepts *)

Lemma first_error_ok {A} (check : A → option DagError) l :
  first_error check l = inl tt ↔ ∀ x, x ∈ l → check x = None.
Proof.
  induction l as [|x l IH]; simpl; [set_solver|]. destruct (check x) eqn:E.
  - split; [done|]. intros Hl. specialize (Hl x). rewrite E in Hl. by discriminate Hl; left.
  - rewrite IH. split; [intros ? ? [->|?]%elem_of_cons; auto|set_solver].
Qed.

Lemma first_error_err {A} (check : A → option DagError) l e :
  first_error check l = inr e → ∃ x, x ∈ l ∧ check x = Some e.
Proof.
  induction l as [|x l IH]; simpl; [done|]. destruct (check x) eqn:E.
  - intros [= <-]. exists x. split; [left|done].
  - intros (y & ? & ?)%IH. exists y. split; [by right|done].
Qed.

Definition fan_out_ok (d : StreamingDag) : Prop :=
  ∀ n node, sd_nodes d !! n = Some node → (length (dn_outputs node) <= MAX_FAN_OUT)%nat.
(** A source feeds a node, a sink is fed by one, any other node has an edge. *)
Definition attached (d : StreamingDag) (n : Z) (ty : DagNodeType) : Prop :=
  match ty with
  | NSource => ∃ m, dag_edge d n m
  | NSink => ∃ m, dag_edge d m n
  | NStatelessOperator | NStatefulOperator | NMaterializedView => (∃ m, dag_edge d n m) ∨ (∃ m, dag_edge d m n)
  end.
Definition connected (d : StreamingDag) : Prop :=
  ∀ n node, sd_nodes d !! n = Some node → attached d n (dn_node_type node).

Lemma outputs_empty d n node : dag_wf d → sd_nodes d !! n = Some node → dn_outputs node = [] ↔ ¬ ∃ m, dag_edge d n m.
Proof.
  intros Hwf Hn. destruct (wf_outputs _ Hwf _ _ Hn) as [_ Ho]. split.
  - intros He (m & e & edge & Hed & Hs & _). assert (Hin : e ∈ dn_outputs node) by (apply Ho; eauto). rewrite He in Hin. by apply elem_of_nil in Hin.
  - intros Hno. destruct (dn_outputs node) as [|e l] eqn:E; [done|]. destruct Hno.
    destruct (proj1 (Ho e)) as (edge & He & Hs); [left|]. by exists (de_target edge), e, edge.
Qed.
Lemma inputs_empty d n node : dag_wf d → sd_nodes d !! n = Some node → dn_inputs node = [] ↔ ¬ ∃ m, dag_edge d m n.
Proof.
  intros Hwf Hn. destruct (wf_inputs _ Hwf _ _ Hn) as [_ Hi]. split.
  - intros He (m & e & edge & Hed & _ & Ht). assert (Hin : e ∈ dn_inputs node) by (apply Hi; eauto). rewrite He in Hin. by apply elem_of_nil in Hin.
  - intros Hno. destruct (dn_inputs node) as [|e l] eqn:E; [done|]. destruct Hno.
    destruct (proj1 (Hi e)) as (edge & He & Ht); [left|]. by exists (de_source edge), e, edge.
Qed.
Lemma outputs_edge d n node : dag_wf d → sd_nodes d !! n = Some node → dn_outputs node ≠ [] → ∃ m, dag_edge d n m.
Proof.
  intros Hwf Hn Hne. destruct (dn_outputs node) as [|e l] eqn:E; [done|]. destruct (wf_outputs _ Hwf _ _ Hn) as [_ Ho].
  destruct (proj1 (Ho e)) as (edge & He & Hs); [rewrite E; left|]. by exists (de_target edge), e, edge.
Qed.
Lemma inputs_edge d n node : dag_wf d → sd_nodes d !! n = Some node → dn_inputs node ≠ [] → ∃ m, dag_edge d m n.
Proof.
  intros Hwf Hn Hne. destruct (dn_inputs node) as [|e l] eqn:E; [done|]. destruct (wf_inputs _ Hwf _ _ Hn) as [_ Hi].
  destruct (proj1 (Hi e)) as (edge & He & Hs); [rewrite E; left|]. by exists (de_source edge), e, edge.
Qed.

(** What [check_connected] tests on the lists of a node, on the edges. *)
Lemma disconnected_attached d n node : dag_wf d → sd_nodes d !! n = Some node →
  (disconnected node = true → ¬ attached d n (dn_node_type node)) ∧
  (disconnected node = false → attached d n (dn_node_type node)).
Proof.
  intros Hwf Hn. pose proof (outputs_empty d n node Hwf Hn) as Ho. pose proof (inputs_empty d n node Hwf Hn) as Hi.
  pose proof (outputs_edge d n node Hwf Hn) as Ho'. pose proof (inputs_edge d n node Hwf Hn) as Hi'.
  unfold disconnected, attached. destruct (dn_node_type node); repeat case_bool_decide; cbn; split; try done; tauto.
Qed.

Lemma check_fan_out_ok d : check_fan_out_limits d = inl tt ↔ fan_out_ok d.
Proof.
  unfold check_fan_out_limits, fan_out_ok. rewrite first_error_ok. setoid_rewrite elem_of_hash_values. split.
  - intros Hc n node Hn. specialize (Hc node (ex_intro _ n Hn)). case_decide; [done|lia].
  - intros Hc node [n Hn]. specialize (Hc n node Hn). case_decide; [lia|done].
Qed.

Lemma check_connected_ok d : dag_wf d → check_connected d = inl tt ↔ connected d.
Proof.
  intros Hwf. unfold check_connected, connected. rewrite first_error_ok. setoid_rewrite elem_of_hash_values. split.
  - intros Hc n node Hn. specialize (Hc node (ex_intro _ n Hn)). apply (disconnected_attached d n node Hwf Hn). by destruct (disconnected node).
  - intros Hc node [n Hn]. specialize (Hc n node Hn). destruct (disconnected_attached d n node Hwf Hn) as [Hd _].
    destruct (disconnected node); [by destruct Hd|done].
Qed.

Lemma cycle_error_is_error d order : ∃ s, cycle_error d order = inr (CycleDetected s).
Proof.
  unfold cycle_error. destruct (first_error _ _) as [u|e] eqn:E; [eauto|].
  apply first_error_err in E as (node & _ & Hn). case_decide; [done|]. simplify_eq. eauto.
Qed.

(** The meaning of the answers of [finalize], in the order of its checks. *)
Definition finalize_answer (d : StreamingDag) (r : unit + DagError) : Prop :=
  match r with
  | inl _ => sd_nodes d ≠ ∅ ∧ fan_out_ok d ∧ acyclic d ∧ connected d
  | inr EmptyDag => sd_nodes d = ∅
  | inr (FanOutLimitExceeded name count max) => ∃ n node, sd_nodes d !! n = Some node ∧
      name = dn_name node ∧ count = length (dn_outputs node) ∧ max = MAX_FAN_OUT ∧ (max < count)%nat
  | inr (CycleDetected _) => fan_out_ok d ∧ ¬ acyclic d
  | inr (DisconnectedNode name) => fan_out_ok d ∧ acyclic d ∧
      ∃ n node, sd_nodes d !! n = Some node ∧ name = dn_name node ∧ ¬ attached d n (dn_node_type node)
  | inr _ => False
  end.

(** The order is computed, and the derived fields follow, exactly when the answer is Ok. *)
Definition finalized_as (d d' : StreamingDag) (order : list Z) : Prop :=
  sd_finalized d' = true ∧ sd_nodes d' = sd_nodes d ∧
  sd_edges d' = (λ edge, set_channel_type (channel_type d edge) edge) <$> sd_edges d ∧
  sd_execution_order d' = order ∧
  d' = set_finalized (classify_source_sink_nodes (identify_shared_stages
         (derive_channel_types (set_order order d)))).

Lemma finalize_spec d : dag_wf d → ∃ d' r, StreamingDag_finalize d = Some (d', r) ∧
  finalize_answer d r ∧
  (r = inl tt → ∃ order, NoDup order ∧ (∀ n, n ∈ order ↔ is_Some (sd_nodes d !! n)) ∧
     topo_order d order ∧ finalized_as d d' order).
Proof.
  intros Hwf. unfold StreamingDag_finalize. case_decide as Hempty; [by eexists _, _|].
  destruct (check_fan_out_limits d) as [[]|e] eqn:Hfan.
  2:{ eexists _, _. split; [done|]. split; [|done]. unfold check_fan_out_limits in Hfan.
      apply first_error_err in Hfan as (node & [n Hn]%elem_of_hash_values & He). case_decide; [|done].
      simplify_eq. simpl. eauto 10. }
  apply check_fan_out_ok in Hfan. unfold compute_execution_order.
  destruct (kahn_spec d Hwf) as (order & -> & Hnd & Hsub & Htopo & Hrest).
  pose proof (order_complete_iff d order Hnd Hsub Htopo Hrest Hwf) as Hac.
  case_decide as Hlen.
  { destruct (cycle_error_is_error d order) as [s ->]. eexists _, _. split; [done|]. split; [|done].
    simpl. split; [done|]. rewrite <- Hac. lia. }
  assert (acyclic d) by (apply Hac; lia).
  destruct (check_connected (set_order order d)) as [[]|e] eqn:Hcon.
  2:{ eexists _, _. split; [done|]. split; [|done]. unfold check_connected in Hcon.
      apply first_error_err in Hcon as (node & [n Hn]%elem_of_hash_values & He).
      destruct (disconnected node) eqn:Hdis; [|done]. simplify_eq. simpl.
      pose proof (proj1 (disconnected_attached d n node Hwf Hn) Hdis). eauto 10. }
  apply (check_connected_ok d Hwf) in Hcon.
  destruct (derive_channel_types_spec (set_order order d)) as ((Hn & _) & Ho & He).
  eexists _, _. split; [done|]. split; [done|]. intros _. exists order.
  destruct (ids_bounded (sd_nodes d) order Hnd Hsub) as [Hle Hall].
  split; [done|]. split; [intros n; split; [apply Hsub|apply Hall; lia]|]. split; [done|].
  split; [done|]. split; [exact Hn|]. split; [exact He|]. split; [exact Ho|done].
Qed.

Lemma finalized_order d d' : dag_wf d → StreamingDag_finalize d = Some (d', inl tt) →
  NoDup (sd_execution_order d') ∧
  (∀ n, n ∈ sd_execution_order d' ↔ is_Some (sd_nodes d' !! n)) ∧
  topo_order d' (sd_execution_order d').
Proof.
  intros Hwf Hf. destruct (finalize_spec d Hwf) as (d2 & r & Hf2 & _ & Hok).
  rewrite Hf in Hf2. injection Hf2 as <- <-.
  destruct (Hok eq_refl) as (order & Hnd & Hall & Ht & _ & Hn & He & Ho & _). rewrite Ho, Hn.
  split; [done|]. split; [done|]. intros i e edge. rewrite He, lookup_fmap, fmap_Some.
  intros (edge0 & He0 & ->) Hi. exact (Ht _ _ _ He0 Hi).
Qed.

(** *** Derived fields *)

Lemma sort_ids_sorted l : StronglySorted Z.le (sort_ids l).
Proof. apply Sorted_StronglySorted; [intros ?; lia|]. apply Sorted_merge_sort. intros ? ?; lia. Qed.

Lemma elem_of_sort_ids n l : n ∈ sort_ids l ↔ n ∈ l.
Proof. unfold sort_ids. by rewrite merge_sort_Permutation. Qed.

Lemma NoDup_node_ids d : dag_wf d → NoDup (dn_id <$> hash_values (sd_nodes d)).
Proof.
  intros Hwf. replace (dn_id <$> hash_values (sd_nodes d)) with (hash_keys (sd_nodes d)); [apply NoDup_hash_keys|].
  unfold hash_values, hash_keys. rewrite <- list_fmap_compose. apply list_fmap_ext.
  intros i [k node] Hi. apply list_elem_of_lookup_2 in Hi. rewrite hash_iter_perm in Hi.
  apply elem_of_map_to_list in Hi. by apply (wf_node _ Hwf) in Hi as [? _].
Qed.

Lemma elem_of_node_ids d (P : DagNode → bool) n : dag_wf d →
  n ∈ sort_ids (dn_id <$> filter P (hash_values (sd_nodes d))) ↔
  ∃ node, sd_nodes d !! n = Some node ∧ P node.
Proof.
  intros Hwf. rewrite elem_of_sort_ids, list_elem_of_fmap.
  setoid_rewrite list_elem_of_filter. setoid_rewrite elem_of_hash_values. split.
  - intros (node & -> & HP & [k Hk]). exists node. by destruct (wf_node _ Hwf _ _ Hk) as [-> _].
  - intros (node & Hn & HP). exists node. destruct (wf_node _ Hwf _ _ Hn) as [-> _]. eauto.
Qed.

(** The targets of a node's edges, in the order of its outputs. *)
Lemma consumer_nodes_lookup d n node i : dag_wf d → sd_nodes d !! n = Some node →
  consumer_nodes d node !! i = dn_outputs node !! i ≫= λ e, de_target <$> sd_edges d !! e.
Proof.
  intros Hwf Hn. unfold consumer_nodes. pose proof (wf_outputs _ Hwf _ _ Hn) as [_ Hout].
  assert (Hsome : Forall (λ e, is_Some (sd_edges d !! e)) (dn_outputs node)).
  { apply Forall_forall. intros e (edge & ? & _)%Hout. eauto. }
  clear Hout Hn. revert i. induction Hsome as [|e l [edge He] _ IH]; intros i; [by destruct i|].
  simpl. rewrite He. simpl. destruct i; simpl; [by rewrite He|apply IH].
Qed.

Lemma consumer_nodes_length d n node : dag_wf d → sd_nodes d !! n = Some node →
  length (consumer_nodes d node) = length (dn_outputs node).
Proof.
  intros Hwf Hn. unfold consumer_nodes. pose proof (wf_outputs _ Hwf _ _ Hn) as [_ Hout].
  assert (Hsome : Forall (λ e, is_Some (sd_edges d !! e)) (dn_outputs node)).
  { apply Forall_forall. intros e (edge & ? & _)%Hout. eauto. }
  clear Hout Hn. induction Hsome as [|e l [edge He] _ IH]; [done|]. simpl. rewrite He. simpl.
  by f_equal.
Qed.

Lemma shared_fold d (nodes : list DagNode) : ∀ m : gmap Z SharedStageMetadata, NoDup (dn_id <$> nodes) →
  ∀ n, foldl (λ m node,
    if decide (1 < length (dn_outputs node))%nat then
      let consumers := consumer_nodes d node in
      <[dn_id node := mkShared (dn_id node) (length consumers) consumers]> m
    else m) m nodes !! n =
  match list_find (λ node, dn_id node = n) nodes with
  | Some (_, node) => if decide (1 < length (dn_outputs node))%nat
      then Some (mkShared n (length (consumer_nodes d node)) (consumer_nodes d node)) else m !! n
  | None => m !! n
  end.
Proof.
  induction nodes as [|node nodes IH]; intros m Hnd n; [done|]. rewrite fmap_cons, NoDup_cons in Hnd.
  destruct Hnd as [Hni Hnd]. simpl foldl. rewrite IH by done. simpl list_find.
  destruct (decide (dn_id node = n)) as [<-|Hne].
  - assert (list_find (λ node0, dn_id node0 = dn_id node) nodes = None) as ->.
    { apply list_find_None. apply Forall_forall. intros x Hx Heq. apply Hni. apply list_elem_of_fmap. eauto. }
    case_decide; [by rewrite lookup_insert_eq|done].
  - assert (Hins : ∀ v, <[dn_id node := v]> m !! n = m !! n) by (intros; by apply lookup_insert_ne).
    destruct (list_find _ nodes) as [[i x]|]; simpl; repeat case_decide; by rewrite ?Hins.
Qed.

Lemma shared_stages_spec d n : dag_wf d →
  sd_shared_stages (identify_shared_stages d) !! n =
  sd_nodes d !! n ≫= λ node, if decide (1 < length (dn_outputs node))%nat
    then Some (mkShared n (length (dn_outputs node)) (consumer_nodes d node)) else None.
Proof.
  intros Hwf. simpl. rewrite shared_fold by by apply NoDup_node_ids.
  destruct (list_find _ _) as [[i node]|] eqn:Hf.
  - apply list_find_Some in Hf as (Hi & Hid & _). apply list_elem_of_lookup_2 in Hi.
    apply elem_of_hash_values in Hi as [k Hk]. destruct (wf_node _ Hwf _ _ Hk) as [Hk' _].
    assert (k = n) as -> by congruence. rewrite Hk. simpl.
    by rewrite (consumer_nodes_length d n).
  - rewrite lookup_empty. destruct (sd_nodes d !! n) as [node|] eqn:Hn; [|done]. exfalso.
    apply list_find_None in Hf. rewrite Forall_forall in Hf. apply (Hf node).
    + apply elem_of_hash_values. eauto.
    + by apply (wf_node _ Hwf).
Qed.

(** *** The routing table *)

#[local] Arguments MAX_FAN_OUT : simpl never.
#[local] Arguments MAX_PORTS : simpl never.
#[local] Arguments Nat.min : simpl never.
#[local] Arguments take : simpl never.

Lemma fill_targets_spec d outs : ∀ targets count, length targets = MAX_FAN_OUT →
  (count <= MAX_FAN_OUT)%nat →
  let r := fill_targets d outs targets count in
  let ts := omap (λ e, de_target <$> sd_edges d !! e) outs in
  r.2 = Nat.min MAX_FAN_OUT (count + length ts) ∧
  take r.2 r.1 = take MAX_FAN_OUT (take count targets ++ ts) ∧ length r.1 = MAX_FAN_OUT.
Proof.
  induction outs as [|e outs IH]; intros targets count Hlen Hc.
  - simpl. rewrite app_nil_r. split; [lia|]. split; [|done]. by rewrite take_take, Nat.min_r.
  - cbn [fill_targets omap list_omap]. destruct (sd_edges d !! e) as [edge|]; simpl; [|by apply IH].
    case_decide as Hlt.
    + destruct (IH (<[count:=de_target edge]> targets) (S count)) as (H1 & H2 & H3);
        [by rewrite length_insert|lia|]. simpl in *. split; [rewrite H1; lia|]. split; [|done].
      rewrite H2. rewrite (take_S_r _ _ (de_target edge)).
      * rewrite take_insert_ge by lia. by rewrite <- app_assoc.
      * apply list_lookup_insert_eq. lia.
    + assert (count = MAX_FAN_OUT) as -> by lia.
      destruct (IH targets MAX_FAN_OUT) as (H1 & H2 & H3); [done..|]. simpl in *.
      split; [rewrite H1; unfold MAX_FAN_OUT; lia|]. split; [|done]. rewrite H2.
      rewrite !take_app_le; [done|rewrite length_take; lia..].
Qed.

Lemma node_entry_spec d n node : dag_wf d → sd_nodes d !! n = Some node →
  let e := node_entry d node in
  RoutingEntry_target_ids e = take MAX_FAN_OUT (consumer_nodes d node) ∧
  re_target_count e = Nat.min MAX_FAN_OUT (length (dn_outputs node)) ∧
  re_is_multicast e = bool_decide (1 < length (dn_outputs node))%nat.
Proof.
  intros Hwf Hn. unfold node_entry, RoutingEntry_target_ids.
  pose proof (fill_targets_spec d (dn_outputs node) (replicate MAX_FAN_OUT 0%Z) 0) as Hf.
  destruct (fill_targets _ _ _ _) as [targets count]. simpl in *.
  destruct Hf as (Hc & Ht & _); [done|unfold MAX_FAN_OUT; lia|].
  fold (consumer_nodes d node) in Hc, Ht. rewrite (consumer_nodes_length d n) in Hc by done.
  split; [done|]. split; [done|]. apply bool_decide_ext. unfold MAX_FAN_OUT in *. lia.
Qed.

Lemma routes_fold d (nodes : list DagNode) n p : (p < MAX_PORTS)%nat → ∀ routes,
  NoDup (dn_id <$> nodes) → Forall (λ node, 0 <= dn_id node ∧
    (Z.to_nat (dn_id node) * MAX_PORTS < length routes)%nat) nodes →
  0 <= n →
  foldl (λ routes node,
    match dn_outputs node with
    | [] => routes
    | _ => <[(Z.to_nat (dn_id node) * MAX_PORTS)%nat := node_entry d node]> routes
    end) routes nodes !! (Z.to_nat n * MAX_PORTS + p)%nat =
  match list_find (λ node, dn_id node = n) nodes with
  | Some (_, node) => if decide (p = 0%nat ∧ dn_outputs node ≠ [])
      then Some (node_entry d node) else routes !! (Z.to_nat n * MAX_PORTS + p)%nat
  | None => routes !! (Z.to_nat n * MAX_PORTS + p)%nat
  end.
Proof.
  intros Hp. induction nodes as [|node nodes IH]; intros routes Hnd Hall Hn0; [done|].
  rewrite fmap_cons, NoDup_cons in Hnd. destruct Hnd as [Hni Hnd].
  apply Forall_cons in Hall as [[Hid Hlen] Hall]. simpl foldl. rewrite IH; [|done| |done].
  2:{ destruct (dn_outputs node); [done|]. by rewrite length_insert. }
  assert (Hother : dn_id node ≠ n ∨ p ≠ 0%nat →
    (Z.to_nat (dn_id node) * MAX_PORTS)%nat ≠ (Z.to_nat n * MAX_PORTS + p)%nat).
  { unfold MAX_PORTS, MAX_FAN_OUT in *. lia. }
  simpl list_find. destruct (decide (dn_id node = n)) as [Heq|Hne].
  - assert (list_find (λ node0, dn_id node0 = n) nodes = None) as ->.
    { apply list_find_None, Forall_forall. intros x Hx Hx'. apply Hni, list_elem_of_fmap. exists x. split; [congruence|done]. }
    destruct (dn_outputs node) as [|e es]; [by rewrite decide_False by naive_solver|].
    destruct (decide (p = 0%nat ∧ e :: es ≠ [])) as [[Hp0 _]|Hc].
    + rewrite Hp0. subst n. rewrite Nat.add_0_r. by apply list_lookup_insert_eq.
    + apply list_lookup_insert_ne. apply Hother. right. naive_solver.
  - assert (Hsame : match dn_outputs node with [] => routes
      | _ => <[(Z.to_nat (dn_id node) * MAX_PORTS)%nat := node_entry d node]> routes end
      !! (Z.to_nat n * MAX_PORTS + p)%nat = routes !! (Z.to_nat n * MAX_PORTS + p)%nat).
    { destruct (dn_outputs node); [done|]. apply list_lookup_insert_ne, Hother. by left. }
    destruct (list_find _ nodes) as [[i x]|]; simpl; by rewrite Hsame.
Qed.

Lemma max_node_id_spec d n node : sd_nodes d !! n = Some node →
  ∃ m, max_node_id d = Some m ∧ n <= m ∧ is_Some (sd_nodes d !! m).
Proof.
  intros Hn. unfold max_node_id. destruct (list_max (hash_keys (sd_nodes d))) as [m|] eqn:E.
  - exists m. split; [done|]. apply list_max_Some in E as [Hin Hmax].
    split; [|by apply elem_of_hash_keys]. apply Hmax, elem_of_hash_keys. eauto.
  - apply list_max_None in E. assert (Hin : n ∈ hash_keys (sd_nodes d)) by (apply elem_of_hash_keys; eauto).
    rewrite E in Hin. by apply elem_of_nil in Hin.
Qed.

Lemma route_spec d n node p : dag_wf d → sd_nodes d !! n = Some node → (p < MAX_PORTS)%nat →
  RoutingTable_route (RoutingTable_from_dag d) n p =
  Some (if decide (p = 0%nat ∧ dn_outputs node ≠ []) then node_entry d node else RoutingEntry_empty).
Proof.
  intros Hwf Hn Hp. destruct (wf_node _ Hwf _ _ Hn) as (Hid & _ & Hr).
  destruct (max_node_id_spec d n node Hn) as (m & Hm & Hle & [mnode Hmn]).
  unfold RoutingTable_route, RoutingTable_from_dag. rewrite Hm. cbn [rt_routes]. change (default 0 (Some m)) with m.
  rewrite routes_fold; [|done|by apply NoDup_node_ids| |lia].
  2:{ apply Forall_forall. intros x [k Hk]%elem_of_hash_values. destruct (wf_node _ Hwf _ _ Hk) as (-> & _ & Hk').
      split; [lia|]. destruct (max_node_id_spec d k x Hk) as (m' & Hm' & ? & _).
      assert (m' = m) as -> by congruence. rewrite length_replicate. unfold MAX_PORTS, MAX_FAN_OUT. lia. }
  assert (Hrep : replicate ((Z.to_nat m + 1) * MAX_PORTS) RoutingEntry_empty !!
    (Z.to_nat n * MAX_PORTS + p)%nat = Some RoutingEntry_empty).
  { apply lookup_replicate_2. unfold MAX_PORTS, MAX_FAN_OUT in *. lia. }
  destruct (list_find _ _) as [[i x]|] eqn:Hf.
  - apply list_find_Some in Hf as (Hi & Hx & _). apply list_elem_of_lookup_2 in Hi.
    apply elem_of_hash_values in Hi as [k Hk]. destruct (wf_node _ Hwf _ _ Hk) as [Hk' _].
    assert (x = node) as -> by congruence. case_decide; [done|exact Hrep].
  - exfalso. apply list_find_None in Hf. rewrite Forall_forall in Hf. apply (Hf node); [|done].
    apply elem_of_hash_values. eauto.
Qed.

End Finalize.
End Dag.

(** ** Properties *)

(** A small dag for the witnesses: a source feeding two operators that meet in a
    sink. *)
Definition add_nodes (specs : list (string * DagNodeType)) (d : StreamingDag (DataType:=bool)) :=
  foldl (λ d s, (StreamingDag_add_node s.1 s.2 [] d).1) d specs.
Definition add_edges (specs : list (Z * Z)) (d : StreamingDag (DataType:=bool)) :=
  foldl (λ d s, (StreamingDag_add_edge s.1 s.2 d).1) d specs.

Lemma add_nodes_reach specs d : dag_reach d →
  sd_next_node_id d + Z.of_nat (length specs) <= 4294967295 → dag_reach (add_nodes specs d).
Proof.
  revert d. induction specs as [|s specs IH]; intros d Hd Hn; [done|]. simpl in Hn. apply IH.
  - apply reach_add_node; [done|lia].
  - unfold StreamingDag_add_node. case_match; simpl; [lia|].
    pose proof (wf_next _ (dag_reach_wf d Hd)). rewrite wrap_u32_succ; lia.
Qed.

Lemma add_edges_reach specs d : dag_reach d →
  sd_next_edge_id d + Z.of_nat (length specs) <= 4294967295 → dag_reach (add_edges specs d).
Proof.
  revert d. induction specs as [|s specs IH]; intros d Hd Hn; [done|]. simpl in Hn. apply IH.
  - apply reach_add_edge; [done|lia].
  - unfold StreamingDag_add_edge. repeat case_match; simpl; try lia.
    pose proof (wf_next _ (dag_reach_wf d Hd)). rewrite wrap_u32_succ; lia.
Qed.

Definition diamond : StreamingDag (DataType:=bool) :=
  add_edges [(0, 1); (0, 2); (1, 3); (2, 3)]
    (add_nodes [("src", NSource); ("a", NStatelessOperator); ("b", NStatelessOperator); ("out", NSink)]
       StreamingDag_new).

Lemma diamond_reach : dag_reach diamond.
Proof.
  apply add_edges_reach; [apply add_nodes_reach; [apply reach_new|vm_compute; congruence]|].
  vm_compute. congruence.
Qed.

(** [C33]: In every graph built by [add_node], [add_edge] and [finalize], in any
    order and whatever their results, the fields agree: a node is stored under
    its id and name, the input and output lists of a node hold exactly the edges
    that end and start there, each once, edges join two different existing nodes,
    and the port of an edge is its position in these lists, truncated to a byte. *)
Theorem dag_structure_invariant {DataType} `{HO : !HashOrder} `{!HashOrderLaws}
    (d : StreamingDag (DataType:=DataType)) :
  dag_reach d → dag_wf d.
Proof. apply dag_reach_wf. Qed.

Lemma dag_structure_invariant_witness : dag_wf diamond ∧ size (sd_edges diamond) = 4%nat.
Proof. split; [apply dag_structure_invariant, diamond_reach|reflexivity]. Defined.

(** [C7]: [finalize] returns on every graph that can be built (Kahn's algorithm
    terminates). It answers Ok exactly when the graph is not empty, no node has
    more than [MAX_FAN_OUT] outputs, there is no cycle, every source has an outgoing
    edge, every sink an incoming one, and every other node an edge in either
    direction (its documentation asks for both); every error names what it says. On
    Ok the execution order lists every node once, the source of every edge before
    its target. *)
Theorem finalize_decides_dag {DataType} `{HO : !HashOrder} `{!HashOrderLaws}
    (d : StreamingDag (DataType:=DataType)) : dag_reach d →
  ∃ d' r, StreamingDag_finalize d = Some (d', r) ∧ finalize_answer d r ∧
    (r = inl tt → NoDup (sd_execution_order d') ∧
       (∀ n, n ∈ sd_execution_order d' ↔ is_Some (sd_nodes d' !! n)) ∧
       topo_order d' (sd_execution_order d')).
Proof.
  intros Hd. pose proof (dag_reach_wf d Hd) as Hwf.
  destruct (finalize_spec d Hwf) as (d' & r & Hf & Ha & _).
  exists d', r. split; [done|]. split; [done|]. intros ->. by apply (finalized_order d).
Qed.

Lemma finalize_decides_dag_witness :
  ∃ d', StreamingDag_finalize diamond = Some (d', inl tt) ∧ sd_execution_order d' = [0; 1; 2; 3] ∧
    acyclic diamond.
Proof.
  destruct (finalize_decides_dag diamond diamond_reach) as (d' & r & Hf & Ha & _).
  assert (Hc : (λ x, (sd_execution_order x.1, x.2)) <$> StreamingDag_finalize diamond
    = Some ([0; 1; 2; 3], inl tt)) by reflexivity.
  rewrite Hf in Hc. injection Hc as Ho ->. exists d'. split; [done|]. split; [done|]. apply Ha.
Defined.

(** An operator that nothing reads, and a view that reads nothing, are accepted. *)
Example operator_without_outputs :
  let d := add_edges [(0, 1); (2, 3)] (add_nodes [("s", NSource); ("op", NStatefulOperator); ("view", NMaterializedView); ("out", NSink)]
             StreamingDag_new) in
  snd <$> StreamingDag_finalize d = Some (inl tt).
Proof. vm_compute. reflexivity. Qed.

(** On Ok, [finalize] derives the other fields from the graph alone: the
    channel of an edge is MPSC when its target has several inputs, else SPMC when
    its source has several outputs, else SPSC; sources and sinks are the nodes
    without inputs and without outputs, in ascending order; the shared stages are
    the nodes with several outputs, with the targets of these as consumers. *)
Theorem finalize_derived_fields {DataType} `{HO : !HashOrder} `{!HashOrderLaws}
    (d d' : StreamingDag (DataType:=DataType)) :
  dag_reach d → StreamingDag_finalize d = Some (d', inl tt) →
  (∀ e edge, sd_edges d' !! e = Some edge → ∃ source target,
     sd_nodes d' !! de_source edge = Some source ∧ sd_nodes d' !! de_target edge = Some target ∧
     de_channel_type edge = if decide (1 < length (dn_inputs target))%nat then Mpsc
       else if decide (1 < length (dn_outputs source))%nat then Spmc else Spsc) ∧
  (∀ n, n ∈ sd_source_nodes d' ↔ ∃ node, sd_nodes d' !! n = Some node ∧ dn_inputs node = []) ∧
  (∀ n, n ∈ sd_sink_nodes d' ↔ ∃ node, sd_nodes d' !! n = Some node ∧ dn_outputs node = []) ∧
  StronglySorted Z.le (sd_source_nodes d') ∧ StronglySorted Z.le (sd_sink_nodes d') ∧
  (∀ n, sd_shared_stages d' !! n = sd_nodes d' !! n ≫= λ node,
     if decide (1 < length (dn_outputs node))%nat
     then Some (mkShared n (length (dn_outputs node)) (consumer_nodes d' node)) else None).
Proof.
  intros Hd Hf. pose proof (dag_reach_wf d Hd) as Hwf. pose proof (reach_finalize d d' _ Hd Hf) as Hd'.
  destruct (finalize_spec d Hwf) as (d2 & r & Hf2 & _ & Hok). rewrite Hf in Hf2. injection Hf2 as <- <-.
  destruct (Hok eq_refl) as (order & _ & _ & _ & _ & Hn & He & _ & Hd2).
  set (d1 := derive_channel_types (set_order order d)) in *.
  destruct (derive_channel_types_spec (set_order order d)) as ((Hn1 & _) & _ & He1). fold d1 in Hn1, He1.
  assert (Hwf1 : dag_wf d1).
  { assert (Heq : sd_edges d' = sd_edges d1) by by rewrite Hd2.
    destruct (dag_reach_wf _ Hd') as [W1 W2 W3 W4 W5 W6 W7 W8]. rewrite Hd2 in W1, W2, W3, W4, W5, W6, W7, W8.
    by split. }
  split.
  { intros e edge. rewrite He, lookup_fmap, fmap_Some. intros (edge0 & He0 & ->).
    destruct (wf_edge _ Hwf _ _ He0) as (_ & _ & _ & [source Hs] & [target Ht]).
    exists source, target. rewrite Hn. split; [done|]. split; [done|].
    cbn [set_channel_type de_channel_type]. unfold channel_type, incoming_edge_count, outgoing_edge_count.
    rewrite Hs, Ht. repeat case_bool_decide; repeat case_decide; done. }
  rewrite Hd2. simpl. split.
  { intros n. rewrite (elem_of_node_ids d1) by done. setoid_rewrite bool_decide_spec. done. }
  split.
  { intros n. rewrite (elem_of_node_ids d1) by done. setoid_rewrite bool_decide_spec. done. }
  split; [apply sort_ids_sorted|]. split; [apply sort_ids_sorted|].
  intros n. by apply (shared_stages_spec d1).
Qed.

Lemma finalize_derived_fields_witness :
  ∃ d', StreamingDag_finalize diamond = Some (d', inl tt) ∧ sd_source_nodes d' = [0] ∧
    sd_sink_nodes d' = [3] ∧ StronglySorted Z.le (sd_sink_nodes d') ∧
    sd_shared_stages d' !! 0 = Some (mkShared 0 2 [1; 2]).
Proof.
  destruct (StreamingDag_finalize diamond) as [[d' r]|] eqn:Hf; [|by vm_compute in Hf].
  assert (Hc : (λ x, (sd_source_nodes x.1, sd_sink_nodes x.1, sd_shared_stages x.1 !! 0, x.2))
    <$> StreamingDag_finalize diamond = Some ([0], [3], Some (mkShared 0 2 [1; 2]), inl tt))
    by reflexivity.
  rewrite Hf in Hc. injection Hc as Ho Hk Hs ->. exists d'. split; [done|]. split; [done|].
  split; [done|]. split; [|done].
  apply (finalize_derived_fields diamond d' diamond_reach Hf).
Defined.

Lemma finalized_fan_out {DataType} `{HO : !HashOrder} `{!HashOrderLaws}
    (d d' : StreamingDag (DataType:=DataType)) :
  dag_reach d → StreamingDag_finalize d = Some (d', inl tt) → dag_wf d' ∧ fan_out_ok d'.
Proof.
  intros Hd Hf. split; [by eapply dag_reach_wf, reach_finalize|].
  destruct (finalize_spec d (dag_reach_wf d Hd)) as (d2 & r & Hf2 & Ha & _).
  rewrite Hf in Hf2. injection Hf2 as <- <-. destruct Ha as (_ & Hfan & _).
  apply finalize_same_graph in Hf as ((Hn & _) & _). unfold fan_out_ok. by rewrite Hn.
Qed.

(** The routing table of a finalized dag has an entry for every port of every
    node, in bounds. The primary entry of a node lists the targets of its outgoing
    edges in order, none missing, is terminal exactly for a node without outputs
    and multicast exactly for one with several; the other ports are empty. *)
Theorem routing_matches_edges {DataType} `{HO : !HashOrder} `{!HashOrderLaws}
    (d d' : StreamingDag (DataType:=DataType)) n node :
  dag_reach d → StreamingDag_finalize d = Some (d', inl tt) → sd_nodes d' !! n = Some node →
  let t := RoutingTable_from_dag d' in
  (∃ entry, RoutingTable_node_targets t n = Some entry ∧
    length (RoutingEntry_target_ids entry) = length (dn_outputs node) ∧
    (∀ i, RoutingEntry_target_ids entry !! i =
       dn_outputs node !! i ≫= λ e, de_target <$> sd_edges d' !! e) ∧
    RoutingEntry_is_terminal entry = bool_decide (dn_outputs node = []) ∧
    re_is_multicast entry = bool_decide (1 < length (dn_outputs node))%nat) ∧
  ∀ p, (0 < p < MAX_PORTS)%nat → RoutingTable_route t n p = Some RoutingEntry_empty.
Proof.
  intros Hd Hf Hn t. destruct (finalized_fan_out d d' Hd Hf) as [Hwf Hfan].
  specialize (Hfan _ _ Hn). split.
  - unfold RoutingTable_node_targets, t. rewrite (route_spec d' n node) by (done || (unfold MAX_PORTS, MAX_FAN_OUT; lia)).
    destruct (node_entry_spec d' n node Hwf Hn) as (Hids & Hcount & Hmulti).
    destruct (decide (dn_outputs node = [])) as [Hnil|Hne].
    + rewrite decide_False by tauto. eexists; split; [done|]. by rewrite Hnil.
    + rewrite decide_True by done. eexists; split; [done|].
      unfold RoutingEntry_is_terminal. rewrite Hids, Hcount, Hmulti.
      rewrite take_ge by (rewrite (consumer_nodes_length d' n); done).
      split; [by apply (consumer_nodes_length d' n)|].
      split; [by intros i; apply (consumer_nodes_lookup d' n)|]. split; [|done].
      rewrite Nat.min_r by done. apply bool_decide_ext. apply length_zero_iff_nil.
  - intros p Hp. unfold t. rewrite (route_spec d' n node) by (done || lia).
    rewrite decide_False; [done|]. lia.
Qed.

Lemma routing_matches_edges_witness :
  ∃ d' entry, StreamingDag_finalize diamond = Some (d', inl tt) ∧
    RoutingTable_node_targets (RoutingTable_from_dag d') 0 = Some entry ∧
    RoutingEntry_target_ids entry = [1; 2] ∧ re_is_multicast entry = true ∧
    RoutingTable_route (RoutingTable_from_dag d') 0 5 = Some RoutingEntry_empty.
Proof.
  destruct (StreamingDag_finalize diamond) as [[d' r]|] eqn:Hf; [|by vm_compute in Hf].
  assert (Hc : (λ x, (dn_outputs <$> sd_nodes x.1 !! 0,
      RoutingEntry_target_ids <$> RoutingTable_node_targets (RoutingTable_from_dag x.1) 0, x.2))
    <$> StreamingDag_finalize diamond = Some (Some [0; 1], Some [1; 2], inl tt)) by reflexivity.
  rewrite Hf in Hc. cbn [fmap option_fmap option_map fst snd] in Hc.
  injection Hc as Hn Hids ->. destruct (sd_nodes d' !! 0) as [node|] eqn:Hnode; [|done].
  injection Hn as Hn.
  destruct (routing_matches_edges diamond d' 0 node diamond_reach Hf Hnode)
    as ((entry & He & _ & _ & _ & Hm) & Hp).
  exists d', entry. split; [done|]. split; [done|]. rewrite He in Hids. injection Hids as ->.
  split; [done|]. rewrite Hm, Hn. split; [done|]. apply Hp. unfold MAX_PORTS, MAX_FAN_OUT. lia.
Defined.

(** [C39]: The ports of a finalized dag: the source port of an edge is its position
    among the outputs of its source and below [MAX_FAN_OUT], so the outputs of a
    node have distinct ports. Fan-in is not limited: the target port is the
    position among the inputs of the target modulo 256, and inputs 256 apart share
    their port. *)
Theorem dag_port_bounds {DataType} `{HO : !HashOrder} `{!HashOrderLaws}
    (d d' : StreamingDag (DataType:=DataType)) n node :
  dag_reach d → StreamingDag_finalize d = Some (d', inl tt) → sd_nodes d' !! n = Some node →
  (∀ i e edge, dn_outputs node !! i = Some e → sd_edges d' !! e = Some edge →
     de_source_port edge = Z.of_nat i ∧ (i < MAX_FAN_OUT)%nat) ∧
  (∀ i e edge, dn_inputs node !! i = Some e → sd_edges d' !! e = Some edge →
     0 <= de_target_port edge < 256 ∧ ((i < 256)%nat → de_target_port edge = Z.of_nat i)) ∧
  (∀ i e1 edge1 e2 edge2, dn_inputs node !! i = Some e1 → dn_inputs node !! (i + 256)%nat = Some e2 →
     sd_edges d' !! e1 = Some edge1 → sd_edges d' !! e2 = Some edge2 →
     de_target_port edge1 = de_target_port edge2).
Proof.
  intros Hd Hf Hn. destruct (finalized_fan_out d d' Hd Hf) as [Hwf Hfan]. specialize (Hfan _ _ Hn).
  unfold MAX_FAN_OUT in *. split; [|split].
  - intros i e edge Hi He. rewrite (wf_source_port _ Hwf _ _ _ _ _ Hn Hi He).
    apply lookup_lt_Some in Hi. unfold as_u8. rewrite Z.mod_small by lia. lia.
  - intros i e edge Hi He. rewrite (wf_target_port _ Hwf _ _ _ _ _ Hn Hi He). unfold as_u8.
    split; [by apply Z.mod_pos_bound|]. intros. rewrite Z.mod_small; lia.
  - intros i e1 edge1 e2 edge2 H1 H2 He1 He2.
    rewrite (wf_target_port _ Hwf _ _ _ _ _ Hn H1 He1), (wf_target_port _ Hwf _ _ _ _ _ Hn H2 He2).
    unfold as_u8. rewrite Nat2Z.inj_add. change (Z.of_nat 256) with (1 * 256). by rewrite Z_mod_plus_full.
Qed.

Lemma dag_port_bounds_witness :
  ∃ d' edge, StreamingDag_finalize diamond = Some (d', inl tt) ∧
    sd_edges d' !! 1 = Some edge ∧ de_source_port edge = 1.
Proof.
  destruct (StreamingDag_finalize diamond) as [[d' r]|] eqn:Hf; [|by vm_compute in Hf].
  assert (Hc : (λ x, (dn_outputs <$> sd_nodes x.1 !! 0, de_source <$> sd_edges x.1 !! 1, x.2))
    <$> StreamingDag_finalize diamond = Some (Some [0; 1], Some 0, inl tt)) by reflexivity.
  rewrite Hf in Hc. cbn [fmap option_fmap option_map fst snd] in Hc.
  injection Hc as Hn He ->. destruct (sd_nodes d' !! 0) as [node|] eqn:Hnode; [|done].
  destruct (sd_edges d' !! 1) as [edge|] eqn:Hedge; [|done]. injection Hn as Hn.
  exists d', edge. split; [done|]. split; [done|].
  destruct (dag_port_bounds diamond d' 0 node diamond_reach Hf Hnode) as [Hp _].
  destruct (Hp 1%nat 1 edge) as [-> _]; [by rewrite Hn|done|done].
Defined.
