(* ===== verification/DagNames.v ===== *)
(** * Graphs named by their builders

    Both ways to make a graph, the conversion of a view registry and the fluent
    builder, add nodes by name and then edges between names. [built P names E d]: [d]
    has the nodes [names], each with a type and a schema that [P] allows, and the
    edges [E]. *)

From S2P Require Import Prelude DagTopology.

(** Edges out of and into a name. *)
Definition readers (E : list (string * string)) (n : string) : nat := length (filter (λ e, e.1 = n) E).
Definition inputs (E : list (string * string)) (n : string) : nat := length (filter (λ e, e.2 = n) E).

Section Names.
Context {DataType : Type}.
Abbreviation Schema := (list (string * DataType)) (only parsing).
Abbreviation Dag := (StreamingDag (DataType:=DataType)).

Record built (P : string → DagNodeType → Schema → Prop) (names : list string)
    (E : list (string * string)) (d : Dag) : Prop := {
  bu_wf : dag_wf d;
  bu_nodes : sd_next_node_id d = Z.of_nat (length names);
  bu_edges : sd_next_edge_id d = Z.of_nat (length E);
  bu_names s : is_Some (sd_name_index d !! s) ↔ s ∈ names;
  bu_node n node : sd_nodes d !! n = Some node → P (dn_name node) (dn_node_type node) (dn_output_schema node) ∧
    length (dn_outputs node) = readers E (dn_name node) ∧
    length (dn_inputs node) = inputs E (dn_name node);
  bu_edge s t a b : sd_name_index d !! s = Some a → sd_name_index d !! t = Some b →
    dag_edge d a b ↔ (s, t) ∈ E }.

Lemma built_new P : built P [] [] StreamingDag_new.
Proof.
  split; cbn; [apply dag_wf_new|done|done| | |].
  - intros s. split; [by intros [? ?]|by intros ?%elem_of_nil].
  - by intros n node.
  - by intros s t a b.
Qed.

Lemma no_edges P names d a b : built P names [] d → ¬ dag_edge d a b.
Proof.
  intros Hb (e & edge & He & _). apply (wf_edge _ (bu_wf _ _ _ _ Hb)) in He as (_ & He & _).
  rewrite (bu_edges _ _ _ _ Hb) in He. cbn in He. lia.
Qed.

Lemma built_add_node P names d name ty schema : built P names [] d →
  name ∉ names → Z.of_nat (length names) < 4294967295 →
  P name ty schema →
  ∃ d' id, StreamingDag_add_node name ty schema d = (d', inl id) ∧
    built P (names ++ [name]) [] d'.
Proof.
  intros Hb Hname Hlen Hnode. pose proof (dag_wf_add_node name ty schema d) as Hwf'.
  assert (Hfresh : sd_name_index d !! name = None).
  { destruct (sd_name_index d !! name) eqn:E; [|done]. destruct Hname. apply (bu_names _ _ _ _ Hb). by eexists. }
  unfold StreamingDag_add_node in *. rewrite Hfresh in *. eexists _, _. split; [done|].
  rewrite (bu_nodes _ _ _ _ Hb) in *. cbn [fst] in Hwf'.
  split; cbn [sd_next_node_id sd_next_edge_id sd_name_index sd_nodes].
  - apply Hwf'; [done|]. apply Hb.
  - rewrite wrap_u32_succ by lia. rewrite length_app. cbn. lia.
  - apply Hb.
  - intros s. rewrite lookup_insert_is_Some, (bu_names _ _ _ _ Hb). set_solver.
  - intros n node. rewrite lookup_insert_Some. intros [[_ <-]|[_ Hn]]; [by split_and!|].
    by apply (bu_node _ _ _ _ Hb n).
  - intros s t a b _ _. split; [|by intros ?%elem_of_nil]. intros Hd. destruct (no_edges P names d a b Hb). exact Hd.
Qed.

Lemma built_duplicate P names E d name ty schema : built P names E d → name ∈ names →
  StreamingDag_add_node name ty schema d = (d, inr (DuplicateNode name)).
Proof.
  intros Hb Hn. apply (bu_names _ _ _ _ Hb) in Hn as [id Hid].
  unfold StreamingDag_add_node. by rewrite Hid.
Qed.

Lemma readers_snoc E s t n : readers (E ++ [(s, t)]) n = (readers E n + if decide (s = n) then 1 else 0)%nat.
Proof.
  unfold readers. rewrite filter_app, length_app, filter_cons. cbn [fst]. f_equal. by case_decide.
Qed.
Lemma inputs_snoc E s t n : inputs (E ++ [(s, t)]) n = (inputs E n + if decide (t = n) then 1 else 0)%nat.
Proof.
  unfold inputs. rewrite filter_app, length_app, filter_cons. cbn [snd]. f_equal. by case_decide.
Qed.

Lemma name_unique (d : Dag) n node s : dag_wf d → sd_nodes d !! n = Some node →
  sd_name_index d !! s = Some n → s = dn_name node.
Proof. intros Hwf Hn Hs. apply (wf_names _ Hwf) in Hs as (node' & ? & <-). congruence. Qed.

Lemma built_add_edge P names E d s t b : built P names E d →
  s ∈ names → sd_name_index d !! t = Some b → s ≠ t → Z.of_nat (length E) < 4294967295 →
  ∃ d' a e, sd_name_index d !! s = Some a ∧ StreamingDag_add_edge a b d = (d', inl e) ∧
    built P names (E ++ [(s, t)]) d' ∧ sd_name_index d' = sd_name_index d.
Proof.
  intros Hb Hs Ht Hne Hlen. apply (bu_names _ _ _ _ Hb) in Hs as [a Ha].
  pose proof (bu_wf _ _ _ _ Hb) as Hwf. pose proof (dag_wf_add_edge a b d) as Hwf'.
  pose proof (proj1 (wf_names _ Hwf _ _) Ha) as (src & Hsrc & Hsn).
  pose proof (proj1 (wf_names _ Hwf _ _) Ht) as (tgt & Htgt & Htn).
  assert (Hab : a ≠ b) by (intros ->; congruence).
  destruct (StreamingDag_add_edge a b d) as [d' res] eqn:Hadd. cbn [fst] in Hwf'. exists d', a.
  pose proof Hadd as Hret. unfold StreamingDag_add_edge in Hadd. rewrite decide_False in Hadd by done. rewrite Hsrc, Htgt in Hadd.
  injection Hadd as <- <-. eexists. split; [done|]. split; [exact Hret|]. split; [|done].
  pose proof (wf_fresh_edge d Hwf) as Hfresh. rewrite (bu_edges _ _ _ _ Hb) in *.
  split; cbn [sd_next_node_id sd_next_edge_id sd_name_index sd_nodes].
  - by apply Hwf'.
  - apply Hb.
  - rewrite wrap_u32_succ by lia. rewrite length_app. cbn. lia.
  - apply Hb.
  - intros n node'. rewrite lookup_linked by done. rewrite fmap_Some. intros (node & Hn & ->).
    destruct (bu_node _ _ _ _ Hb n node Hn) as (Hof & Ho & Hi).
    assert (Hna : n = a ↔ s = dn_name node).
    { split; [intros ->; by apply (name_unique d a)|]. intros ->.
      assert (sd_name_index d !! dn_name node = Some n) by (apply (wf_names _ Hwf); eauto). congruence. }
    assert (Hnb : n = b ↔ t = dn_name node).
    { split; [intros ->; by apply (name_unique d b)|]. intros ->.
      assert (sd_name_index d !! dn_name node = Some n) by (apply (wf_names _ Hwf); eauto). congruence. }
    unfold link_node. rewrite readers_snoc, inputs_snoc.
    destruct (decide (n = b)) as [Heb|Heb]; [|destruct (decide (n = a)) as [Hea|Hea]]; cbn.
    + rewrite decide_False, decide_True by naive_solver. rewrite length_app. cbn.
      split; [exact Hof|]. lia.
    + rewrite decide_True, decide_False by naive_solver. rewrite length_app. cbn.
      split; [exact Hof|]. lia.
    + rewrite !decide_False by naive_solver. split; [exact Hof|]. lia.
  - intros s' t' a' b' Ha' Hb'. rewrite elem_of_app, list_elem_of_singleton, <- (bu_edge _ _ _ _ Hb s' t' a' b') by done.
    unfold dag_edge. cbn [sd_edges]. setoid_rewrite lookup_insert_Some. split.
    + intros (e & edge & [[<- <-]|[Hn He]] & <- & <-); [right|left; by exists e, edge]. cbn in *.
      apply (wf_names _ Hwf) in Ha', Hb'. f_equal; naive_solver.
    + intros [(e & edge & He & <- & <-)|[= -> ->]].
      * exists e, edge. split; [right; split; [congruence|done]|done].
      * eexists _, _. split; [by left|]. cbn. split; congruence.
Qed.

Lemma readers_0 E n : readers E n = 0%nat ↔ ∀ t, (n, t) ∉ E.
Proof.
  unfold readers. rewrite length_zero_iff_nil. split.
  - intros Hf t Ht. assert (Hin : (n, t) ∈ filter (λ e, e.1 = n) E) by (by apply list_elem_of_filter).
    rewrite Hf in Hin. by apply elem_of_nil in Hin.
  - intros Hn. apply filter_none, Forall_forall. intros [s t] Hin Heq. cbn in Heq. subst s. by apply (Hn t).
Qed.
Lemma inputs_0 E n : inputs E n = 0%nat ↔ ∀ s, (s, n) ∉ E.
Proof.
  unfold inputs. rewrite length_zero_iff_nil. split.
  - intros Hf t Ht. assert (Hin : (t, n) ∈ filter (λ e, e.2 = n) E) by (by apply list_elem_of_filter).
    rewrite Hf in Hin. by apply elem_of_nil in Hin.
  - intros Hn. apply filter_none, Forall_forall. intros [s t] Hin Heq. cbn in Heq. subst t. by apply (Hn s).
Qed.

(** The edges between nodes are those between their names. *)
Definition name_edge (E : list (string * string)) (s t : string) : Prop := (s, t) ∈ E.

Lemma index_of (d : Dag) n node : dag_wf d → sd_nodes d !! n = Some node → sd_name_index d !! dn_name node = Some n.
Proof. intros Hwf Hn. apply (wf_names _ Hwf). eauto. Qed.

Lemma built_tc_names P names E d a b : built P names E d → tc (dag_edge d) a b → ∀ s t, sd_name_index d !! s = Some a →
  sd_name_index d !! t = Some b → tc (name_edge E) s t.
Proof.
  intros Hb. pose proof (bu_wf _ _ _ _ Hb) as Hd. induction 1 as [a b Hab|a b c Hab _ IH]; intros s t Hs Ht.
  - apply tc_once. by apply (bu_edge _ _ _ _ Hb s t a b).
  - pose proof Hab as (e & edge & He & _ & Hb2). apply (wf_edge _ Hd) in He as (_ & _ & _ & _ & [node Hn]).
    rewrite Hb2 in Hn. pose proof (index_of d b node Hd Hn) as Hm.
    eapply tc_l; [by apply (bu_edge _ _ _ _ Hb s (dn_name node) a b)|]. by apply IH.
Qed.
Lemma built_tc_nodes P names E d s t : built P names E d → (∀ s t, (s, t) ∈ E → s ∈ names ∧ t ∈ names) →
  tc (name_edge E) s t → ∃ a b, sd_name_index d !! s = Some a ∧ sd_name_index d !! t = Some b ∧ tc (dag_edge d) a b.
Proof.
  intros Hb HE. assert (Hstep : ∀ s t, name_edge E s t → ∃ a b, sd_name_index d !! s = Some a ∧ sd_name_index d !! t = Some b ∧ dag_edge d a b).
  { intros u v Huv. destruct (HE u v Huv) as [[a Ha]%(bu_names _ _ _ _ Hb) [b Hv]%(bu_names _ _ _ _ Hb)].
    exists a, b. split_and!; [done|done|]. by apply (bu_edge _ _ _ _ Hb u v a b). }
  induction 1 as [s t Hst|s u t Hsu _ (a & b & Ha & Ht & Hab)].
  - destruct (Hstep s t Hst) as (a & b & Ha & Ht & Hab). exists a, b. split_and!; [done|done|by apply tc_once].
  - destruct (Hstep s u Hsu) as (a' & b' & Ha' & Hb' & Hab'). simplify_eq. exists a', b. split_and!; [done|done|by eapply tc_l].
Qed.

Lemma built_acyclic P names E d : built P names E d → (∀ n, ¬ tc (name_edge E) n n) → acyclic d.
Proof.
  intros Hb Hac n Hn. pose proof (bu_wf _ _ _ _ Hb) as Hd.
  assert (Hend : ∀ a b, tc (dag_edge d) a b → is_Some (sd_nodes d !! a)).
  { intros a b [? ? (e & edge & He & <- & _)|? ? ? (e & edge & He & <- & _) _]; by apply (wf_edge _ Hd _ _ He). }
  destruct (Hend n n Hn) as [node Hnode]. pose proof (index_of d n node Hd Hnode) as Hm.
  apply (Hac (dn_name node)). by apply (built_tc_names P names E d n n Hb Hn).
Qed.

(** A node [check_connected] rejects, in terms of names. *)
Definition lonely (E : list (string * string)) (ty : DagNodeType) (n : string) : Prop :=
  (ty ≠ NSink → ∀ t, (n, t) ∉ E) ∧ (ty ≠ NSource → ∀ s, (s, n) ∉ E).

Lemma built_disconnected P names E d n node : built P names E d → sd_nodes d !! n = Some node →
  disconnected node = true ↔ lonely E (dn_node_type node) (dn_name node).
Proof.
  intros Hb Hn. destruct (bu_node _ _ _ _ Hb n node Hn) as (_ & Ho & Hi).
  assert (Hout : bool_decide (dn_outputs node = []) = true ↔ ∀ t, (dn_name node, t) ∉ E).
  { by rewrite bool_decide_eq_true, <- length_zero_iff_nil, Ho, readers_0. }
  assert (Hinp : bool_decide (dn_inputs node = []) = true ↔ ∀ s, (s, dn_name node) ∉ E).
  { by rewrite bool_decide_eq_true, <- length_zero_iff_nil, Hi, inputs_0. }
  unfold disconnected, lonely. destruct (dn_node_type node); rewrite ?andb_true_iff, ?Hout, ?Hinp; naive_solver.
Qed.

Lemma finalized_edges `{!HashOrder} `{!HashOrderLaws} (d d' : Dag) r a b : StreamingDag_finalize d = Some (d', r) →
  dag_edge d' a b ↔ dag_edge d a b.
Proof.
  intros (_ & He)%finalize_same_graph. unfold dag_edge. destruct He as [->|He]; [done|]. split.
  - intros (e & edge & Hed & Hsrc & Htgt). rewrite He, lookup_fmap, fmap_Some in Hed.
    destruct Hed as (edge0 & Hed & ->). by exists e, edge0.
  - intros (e & edge & Hed & Hsrc & Htgt). eexists e, _. rewrite He, lookup_fmap, Hed. by split.
Qed.
End Names.
