(* ===== verification/DagBuilder.v ===== *)
(** * The fluent builder of graphs

    dag/builder.rs: [DagBuilder] collects nodes and edges by name, [FanOutBuilder] the
    branches behind a shared stage; [build] adds them to an empty graph and finalizes
    it. A closure given to [fan_out] is a function on the builder of branches. *)

From S2P Require Import Prelude DagTopology DagNames.

Section Builder.
Context {DataType : Type} `{!HashOrder}.
Abbreviation Schema := (list (string * DataType)) (only parsing).
Abbreviation Dag := (StreamingDag (DataType:=DataType)).

Record DagBuilder := mkDagBuilder {
  db_nodes : list (string * DagNodeType * Schema);
  db_edges : list (string * string);
  db_name_index : gmap string nat }.
Record FanOutBuilder := mkFanOut { fo_branches : list (string * DagNodeType * Schema) }.

Definition DagBuilder_new : DagBuilder := mkDagBuilder [] [] ∅.

(** [nodes.push] and [name_index.insert], which every method that adds a node does. *)
Definition push_node (name : string) (ty : DagNodeType) (schema : Schema) (b : DagBuilder) : DagBuilder :=
  mkDagBuilder (db_nodes b ++ [(name, ty, schema)]) (db_edges b) (<[name := length (db_nodes b)]> (db_name_index b)).
Definition DagBuilder_source (name : string) (schema : Schema) (b : DagBuilder) := push_node name NSource schema b.
Definition DagBuilder_operator (name : string) (schema : Schema) (b : DagBuilder) := push_node name NStatefulOperator schema b.
Definition DagBuilder_stateless_operator (name : string) (schema : Schema) (b : DagBuilder) := push_node name NStatelessOperator schema b.
Definition DagBuilder_materialized_view (name : string) (schema : Schema) (b : DagBuilder) := push_node name NMaterializedView schema b.
Definition DagBuilder_sink (name : string) (schema : Schema) (b : DagBuilder) := push_node name NSink schema b.
Definition DagBuilder_connect (from to : string) (b : DagBuilder) : DagBuilder :=
  mkDagBuilder (db_nodes b) (db_edges b ++ [(from, to)]) (db_name_index b).
Definition DagBuilder_sink_for (upstream sink_name : string) (schema : Schema) (b : DagBuilder) : DagBuilder :=
  DagBuilder_connect upstream sink_name (push_node sink_name NSink schema b).

Definition FanOutBuilder_new : FanOutBuilder := mkFanOut [].
Definition FanOutBuilder_branch (name : string) (schema : Schema) (f : FanOutBuilder) : FanOutBuilder :=
  mkFanOut (fo_branches f ++ [(name, NStatefulOperator, schema)]).
Definition FanOutBuilder_stateless_branch (name : string) (schema : Schema) (f : FanOutBuilder) : FanOutBuilder :=
  mkFanOut (fo_branches f ++ [(name, NStatelessOperator, schema)]).
Definition DagBuilder_fan_out (shared_node : string) (branches : FanOutBuilder → FanOutBuilder) (b : DagBuilder) : DagBuilder :=
  foldl (λ b branch, let '(name, ty, schema) := branch in DagBuilder_connect shared_node name (push_node name ty schema b))
    b (fo_branches (branches FanOutBuilder_new)).

Fixpoint build_nodes (nodes : list (string * DagNodeType * Schema)) (dag : Dag) : Dag + DagError :=
  match nodes with
  | [] => inl dag
  | (name, node_type, schema) :: nodes =>
      match StreamingDag_add_node name node_type schema dag with
      | (_, inr e) => inr e
      | (dag, inl _) => build_nodes nodes dag
      end
  end.
Fixpoint build_edges (edges : list (string * string)) (dag : Dag) : Dag + DagError :=
  match edges with
  | [] => inl dag
  | (from, to) :: edges =>
      match StreamingDag_node_id_by_name dag from with
      | None => inr (NodeNotFound from)
      | Some from_id =>
          match StreamingDag_node_id_by_name dag to with
          | None => inr (NodeNotFound to)
          | Some to_id =>
              match StreamingDag_add_edge from_id to_id dag with
              | (_, inr e) => inr e
              | (dag, inl _) => build_edges edges dag
              end
          end
      end
  end.

Definition DagBuilder_build (b : DagBuilder) : option (Dag + DagError) :=
  match build_nodes (db_nodes b) StreamingDag_new with
  | inr e => Some (inr e)
  | inl dag =>
      match build_edges (db_edges b) dag with
      | inr e => Some (inr e)
      | inl dag =>
          '(dag, res) ← StreamingDag_finalize dag;
          match res with inr e => Some (inr e) | inl _ => Some (inl dag) end
      end
  end.

(** ** What a builder describes *)

Definition node_names (b : DagBuilder) : list string := (db_nodes b).*1.*1.
Definition declared (b : DagBuilder) (name : string) (ty : DagNodeType) (schema : Schema) : Prop := (name, ty, schema) ∈ db_nodes b.

Record buildable (b : DagBuilder) : Prop := {
  bb_nodes : db_nodes b ≠ [];
  bb_unique : NoDup (node_names b);
  bb_edges s t : (s, t) ∈ db_edges b → s ∈ node_names b ∧ t ∈ node_names b;
  bb_acyclic n : ¬ tc (name_edge (db_edges b)) n n;
  bb_fan_out n : (readers (db_edges b) n <= MAX_FAN_OUT)%nat;
  bb_connected n ty schema : declared b n ty schema → ¬ lonely (db_edges b) ty n }.

(** The finalized graph with these nodes and edges. *)
Record graph_of (b : DagBuilder) (d : Dag) : Prop := {
  gb_names s : is_Some (sd_name_index d !! s) ↔ s ∈ node_names b;
  gb_node n node : sd_nodes d !! n = Some node → declared b (dn_name node) (dn_node_type node) (dn_output_schema node);
  gb_edge s t x y : sd_name_index d !! s = Some x → sd_name_index d !! t = Some y → dag_edge d x y ↔ (s, t) ∈ db_edges b;
  gb_order : NoDup (sd_execution_order d) ∧ (∀ n, n ∈ sd_execution_order d ↔ is_Some (sd_nodes d !! n)) ∧
    topo_order d (sd_execution_order d) }.

Definition build_answer (b : DagBuilder) (res : Dag + DagError) : Prop :=
  match res with
  | inl d => buildable b ∧ graph_of b d
  | inr EmptyDag => db_nodes b = []
  | inr (DuplicateNode n) => ∃ i j, (i < j)%nat ∧ node_names b !! i = Some n ∧ node_names b !! j = Some n
  | inr (NodeNotFound n) => n ∉ node_names b ∧ ∃ m, (n, m) ∈ db_edges b ∨ (m, n) ∈ db_edges b
  | inr (CycleDetected _) => ¬ ∀ n, ¬ tc (name_edge (db_edges b)) n n
  | inr (FanOutLimitExceeded n count max) => max = MAX_FAN_OUT ∧ (max < count)%nat ∧ count = readers (db_edges b) n
  | inr (DisconnectedNode n) => ∃ ty schema, declared b n ty schema ∧ lonely (db_edges b) ty n
  | inr _ => False
  end.

(** ** The loops *)

Lemma build_nodes_spec b l : ∀ pre d, db_nodes b = pre ++ l → built (declared b) pre.*1.*1 [] d → NoDup pre.*1.*1 →
  Z.of_nat (length (db_nodes b)) <= 4294967295 →
  match build_nodes l d with
  | inl d' => built (declared b) (node_names b) [] d' ∧ NoDup (node_names b)
  | inr e => ∃ n, e = DuplicateNode n ∧ build_answer b (inr e)
  end.
Proof.
  induction l as [|[[name ty] schema] l IH]; intros pre d Hl Hb Hnd Hlen; cbn [build_nodes].
  { rewrite app_nil_r in Hl. unfold node_names. by rewrite Hl. }
  assert (Hsub : Z.of_nat (length pre.*1.*1) < 4294967295).
  { rewrite Hl, length_app in Hlen. cbn [length] in Hlen. rewrite !length_fmap. lia. }
  assert (Hname : node_names b = pre.*1.*1 ++ name :: l.*1.*1) by (unfold node_names; by rewrite Hl, !fmap_app).
  destruct (decide (name ∈ pre.*1.*1)) as [Hin|Hin].
  - rewrite (built_duplicate _ _ _ _ _ _ _ Hb Hin). exists name. split; [done|]. apply list_elem_of_lookup in Hin as [i Hi].
    exists i, (length pre.*1.*1). pose proof (lookup_lt_Some _ _ _ Hi). rewrite Hname. split_and!; [done| |].
    + by apply lookup_app_l_Some.
    + by rewrite lookup_app_r, Nat.sub_diag by done.
  - destruct (built_add_node _ _ _ name ty schema Hb Hin Hsub) as (d' & id & -> & Hb').
    { unfold declared. rewrite Hl. set_solver. }
    specialize (IH (pre ++ [(name, ty, schema)]) d'). rewrite <- app_assoc, !fmap_app in IH. cbn [app fmap list_fmap fst] in IH.
    apply IH; try done. apply NoDup_app. split_and!; [done| |apply NoDup_singleton]. set_solver.
Qed.

Lemma add_self_edge (d : Dag) s a : dag_wf d → sd_name_index d !! s = Some a → StreamingDag_add_edge a a d = (d, inr (CycleDetected s)).
Proof.
  intros Hwf (node & Hn & <-)%(wf_names _ Hwf). unfold StreamingDag_add_edge, StreamingDag_node_name.
  rewrite decide_True by done. by rewrite Hn.
Qed.

Lemma build_edges_spec b l : ∀ pre d, db_edges b = pre ++ l → built (declared b) (node_names b) pre d →
  Z.of_nat (length (db_edges b)) <= 4294967295 →
  match build_edges l d with
  | inl d' => built (declared b) (node_names b) (db_edges b) d' ∧ ∀ s t, (s, t) ∈ l → s ∈ node_names b ∧ t ∈ node_names b
  | inr e => build_answer b (inr e)
  end.
Proof.
  induction l as [|[s t] l IH]; intros pre d Hl Hb Hlen; cbn [build_edges].
  { rewrite app_nil_r in Hl. rewrite Hl. split; [done|]. by intros s t ?%elem_of_nil. }
  assert (Hin : (s, t) ∈ db_edges b) by (rewrite Hl; set_solver).
  unfold StreamingDag_node_id_by_name. destruct (sd_name_index d !! s) as [x|] eqn:Hs.
  2:{ cbn. split; [|by exists t; left]. rewrite <- (bu_names _ _ _ _ Hb), Hs. by intros [? ?]. }
  destruct (sd_name_index d !! t) as [y|] eqn:Ht.
  2:{ cbn. split; [|by exists s; right]. rewrite <- (bu_names _ _ _ _ Hb), Ht. by intros [? ?]. }
  assert (Hns : s ∈ node_names b) by (apply (bu_names _ _ _ _ Hb); by exists x).
  assert (Hnt : t ∈ node_names b) by (apply (bu_names _ _ _ _ Hb); by exists y).
  destruct (decide (s = t)) as [<-|Hne].
  - simplify_eq. rewrite (add_self_edge d s x) by (done || apply Hb). cbn. intros Hac. by apply (Hac s), tc_once.
  - destruct (built_add_edge (declared b) (node_names b) pre d s t y Hb Hns Ht Hne) as (d' & a & e & Ha & Hadd & Hb' & _).
    { rewrite Hl, length_app in Hlen. cbn [length] in Hlen. lia. }
    simplify_eq. rewrite Hadd. specialize (IH (pre ++ [(s, t)]) d'). rewrite <- app_assoc in IH.
    specialize (IH Hl Hb' Hlen). destruct (build_edges l d') as [d2|e2]; [|done]. destruct IH as [IH1 IH2].
    split; [done|]. intros u v [[= -> ->]|Huv]%elem_of_cons; [done|by apply IH2].
Qed.
End Builder.

Section Exact.
Context {DataType : Type} `{!HashOrder} `{!HashOrderLaws}.
Abbreviation Dag := (StreamingDag (DataType:=DataType)).
Implicit Types b : DagBuilder (DataType:=DataType).

Lemma named_node b (d : Dag) s : built (declared b) (node_names b) (db_edges b) d → s ∈ node_names b →
  ∃ n node, sd_nodes d !! n = Some node ∧ dn_name node = s.
Proof. intros Hb [n Hs]%(bu_names _ _ _ _ Hb). apply (wf_names _ (bu_wf _ _ _ _ Hb)) in Hs as (node & ? & ?). eauto. Qed.

Lemma reader_named b n : (∀ s t, (s, t) ∈ db_edges b → s ∈ node_names b ∧ t ∈ node_names b) →
  readers (db_edges b) n ≠ 0%nat → n ∈ node_names b.
Proof.
  intros HE Hz. destruct (decide (n ∈ node_names b)) as [|Hn]; [done|]. destruct Hz. apply readers_0. intros t Ht.
  by destruct (HE n t Ht).
Qed.

(** Finalizing a graph with every node and edge of the builder. *)
Lemma finalized_answer b (d : Dag) : built (declared b) (node_names b) (db_edges b) d → NoDup (node_names b) →
  (∀ s t, (s, t) ∈ db_edges b → s ∈ node_names b ∧ t ∈ node_names b) →
  ∃ d' r, StreamingDag_finalize d = Some (d', r) ∧ build_answer b (match r with inl _ => inl d' | inr e => inr e end).
Proof.
  intros Hb Hnd HE. pose proof (bu_wf _ _ _ _ Hb) as Hd. destruct (finalize_spec d Hd) as (d' & r & Hf & Ha & _).
  exists d', r. split; [done|]. destruct r as [[]|e].
  - destruct Ha as (Hne & Hfan & Hac & Hcon). split; [split|].
    + intros Hnil. destruct Hne. apply map_empty. intros n. destruct (sd_nodes d !! n) as [node|] eqn:Hn; [|done].
      apply (bu_node _ _ _ _ Hb) in Hn as [Hn _]. unfold declared in Hn. rewrite Hnil in Hn. by apply elem_of_nil in Hn.
    + done.
    + done.
    + intros n Hn. destruct (built_tc_nodes _ _ _ _ _ _ Hb HE Hn) as (x & y & Hx & Hy & Hxy). simplify_eq. by eapply Hac.
    + intros n. destruct (decide (readers (db_edges b) n = 0%nat)) as [->|Hz]; [lia|].
      destruct (named_node b d n Hb (reader_named b n HE Hz)) as (id & node & Hn & <-).
      destruct (bu_node _ _ _ _ Hb _ _ Hn) as (_ & <- & _). by eapply Hfan.
    + intros n ty schema Hdec Hl. assert (Hin : n ∈ node_names b).
      { apply list_elem_of_fmap. exists (n, ty). split; [done|]. apply list_elem_of_fmap. by exists (n, ty, schema). }
      destruct (named_node b d n Hb Hin) as (id & node & Hn & <-). pose proof (Hcon id node Hn) as Hc.
      apply (proj1 (disconnected_attached d id node Hd Hn)); [|exact Hc]. apply (built_disconnected _ _ _ _ _ _ Hb Hn).
      destruct (bu_node _ _ _ _ Hb _ _ Hn) as (Hdec' & _). unfold declared in *.
      assert (Hty : dn_node_type node = ty); [|by rewrite Hty].
      apply list_elem_of_lookup in Hdec as [i Hi], Hdec' as [j Hj].
      assert (i = j) as ->; [|congruence]. apply (NoDup_lookup _ _ _ (dn_name node) Hnd); unfold node_names; rewrite !list_lookup_fmap;
        [by rewrite Hi|by rewrite Hj].
    + pose proof (finalize_same_graph d d' _ Hf) as ((Hn & Hi & _) & _). split.
      * intros s. rewrite Hi. apply (bu_names _ _ _ _ Hb).
      * intros n node. rewrite Hn. intros Hnode. by apply (bu_node _ _ _ _ Hb) in Hnode as [? _].
      * intros s t x y. rewrite Hi. intros Hx Hy. rewrite (finalized_edges _ _ _ _ _ Hf). by apply (bu_edge _ _ _ _ Hb).
      * by apply (finalized_order d).
  - destruct e; try done; cbn in Ha |- *.
    + destruct Ha as [_ Ha]. intros Hac. apply Ha. by eapply built_acyclic.
    + destruct Ha as (_ & _ & n & nd & Hn & -> & Hdis). destruct (bu_node _ _ _ _ Hb _ _ Hn) as (Hdec & _).
      eexists _, _. split; [exact Hdec|]. apply (built_disconnected _ _ _ _ _ _ Hb Hn).
      destruct (disconnected nd) eqn:E; [done|]. by destruct Hdis; apply (disconnected_attached d n nd Hd Hn).
    + destruct Ha as (n & nd & Hn & -> & -> & -> & Hlt). split_and!; [done..|]. by apply (bu_node _ _ _ _ Hb) in Hn as (_ & Ho & _).
    + destruct (db_nodes b) as [|[[n ty] schema] l] eqn:E; [done|]. assert (Hin : n ∈ node_names b) by (unfold node_names; rewrite E; left).
      destruct (named_node b d n Hb Hin) as (id & node & Hn & _). by rewrite Ha in Hn.
Qed.
End Exact.

(** [C22]: [build] decides whether the description is a graph. For any builder with at
    most 2^32 - 1 nodes and edges it answers, with a graph exactly when there are
    nodes, no two with one name, every edge joins two of them, nothing feeds itself,
    no stage has more than [MAX_FAN_OUT] readers and no node is loose. Schemas play no
    part in it, although [build] is documented to validate them. The graph then
    has exactly the declared nodes, with their types and schemas, and the declared
    edges, in a topological order; otherwise the error names a fault that is there. *)
Theorem dag_builder_exact {DataType} `{!HashOrder} `{!HashOrderLaws} (b : DagBuilder (DataType:=DataType)) :
  Z.of_nat (length (db_nodes b)) <= 4294967295 → Z.of_nat (length (db_edges b)) <= 4294967295 →
  ∃ res, DagBuilder_build b = Some res ∧ build_answer b res ∧ ((∃ d, res = inl d) ↔ buildable b).
Proof.
  intros Hn He. assert (Hres : ∃ res, DagBuilder_build b = Some res ∧ build_answer b res).
  { unfold DagBuilder_build. pose proof (build_nodes_spec b (db_nodes b) [] StreamingDag_new eq_refl (built_new _) (NoDup_nil_2) Hn) as H1.
    destruct (build_nodes _ _) as [d1|e]; [|destruct H1 as (n & -> & H1); by eexists]. destruct H1 as [Hb1 Hnd].
    pose proof (build_edges_spec b (db_edges b) [] d1 eq_refl Hb1 He) as H2.
    destruct (build_edges _ d1) as [d2|e]; [|by eexists]. destruct H2 as [Hb2 HE].
    destruct (finalized_answer b d2 Hb2 Hnd HE) as (d' & r & -> & Ha). cbn [mbind option_bind].
    destruct r; eexists; (split; [done|exact Ha]). }
  destruct Hres as (res & Hres & Ha). exists res. split_and!; [done|done|].
  split; [intros [d ->]; apply Ha|]. intros [H1 H2 H3 H4 H5 H6]. destruct res as [d|e]; [by exists d|]. exfalso.
  destruct e; cbn in Ha; try done.
  - destruct Ha as (ty & schema & Hdec & Hl). by eapply H6.
  - destruct Ha as (Hnot & m & [Hm|Hm]); by destruct (H3 _ _ Hm).
  - destruct Ha as (i & j & Hij & Hi & Hj). pose proof (NoDup_lookup _ _ _ _ H2 Hi Hj). lia.
  - destruct Ha as (-> & Hlt & ->). specialize (H5 node). lia.
Qed.

(** The example of the documentation. *)
Definition trades_builder (close : bool) : DagBuilder (DataType:=unit) :=
  let b := DagBuilder_fan_out "normalize" (λ f, FanOutBuilder_branch "position" [] (FanOutBuilder_stateless_branch "anomaly" [] (FanOutBuilder_branch "vwap" [] f)))
    (DagBuilder_connect "dedup" "normalize" (DagBuilder_connect "trades" "dedup"
      (DagBuilder_operator "normalize" [] (DagBuilder_operator "dedup" [] (DagBuilder_source "trades" [] DagBuilder_new))))) in
  let b := DagBuilder_sink_for "position" "risk_sink" [] (DagBuilder_sink_for "anomaly" "alert_sink" []
    (DagBuilder_sink_for "vwap" "analytics_sink" [] b)) in
  if close then DagBuilder_connect "vwap" "dedup" b else b.

Lemma dag_builder_exact_witness :
  (∃ d, DagBuilder_build (trades_builder false) = Some (inl d) ∧ graph_of (trades_builder false) d ∧ buildable (trades_builder false) ∧
     sd_execution_order d = [0; 1; 2; 3; 4; 5; 6; 7; 8]) ∧
  ¬ buildable (trades_builder true).
Proof.
  split.
  - destruct (dag_builder_exact (trades_builder false)) as (res & Hres & Ha & _); [done..|].
    assert (Ho : (λ r, match r with inl d => Some (sd_execution_order d) | inr _ => None end) <$> DagBuilder_build (trades_builder false)
      = Some (Some [0; 1; 2; 3; 4; 5; 6; 7; 8])) by (vm_compute; reflexivity).
    rewrite Hres in Ho. destruct res as [d|e]; [|discriminate]. injection Ho as Ho. exists d.
    split; [exact Hres|]. split; [apply Ha|]. split; [apply Ha|exact Ho].
  - intros Hb. destruct (dag_builder_exact (trades_builder true)) as (res & Hres & _ & Hiff); [done..|].
    pose proof (proj2 Hiff Hb) as [d Hd]. rewrite Hd in Hres.
    assert (Ho : (λ r, match r with inl _ => true | inr _ => false end) <$> DagBuilder_build (trades_builder true) = Some false)
      by (vm_compute; reflexivity).
    rewrite Hres in Ho. discriminate.
Defined.

(** [build] accepts two stages whose schemas [validate] finds incompatible. *)
Example build_ignores_schemas :
  let b := DagBuilder_sink_for "s" "out" [("x"%string, true)] (DagBuilder_source "s" [("x"%string, false)] DagBuilder_new) in
  (λ r, match r with inl d => Some (StreamingDag_validate (λ b : bool, if b then "Int64" else "Utf8") d) | inr _ => None end) <$> DagBuilder_build b =
    Some (Some (Some (inr (SchemaMismatch "s" "out" "type mismatch for field 'x': Utf8 vs 'x':Int64")))).
Proof. vm_compute. reflexivity. Qed.
