(* ===== verification/Multicast.v ===== *)
(** * The multicast buffer of shared stages

    dag/multicast.rs: [MulticastBuffer], a ring of slots with a reference count each,
    one writer and several readers. [publish] and [consume] are translated as they
    stand, then split at their atomic accesses; a step relation interleaves the
    writer with one thread per consumer in every way. The interleavings are
    sequentially consistent: each access the others rely on is a release store or an
    acquire load. [None] as the result of an operation is a panic, an index outside a
    slice or [unwrap] of an empty slot. *)

From S2P Require Import Prelude DagTopology.

Record MulticastBuffer {T : Type} := mkMulticast {
  mc_slots : list (option T);
  mc_refcounts : list Z;
  mc_write_pos : Z;
  mc_read_positions : list Z;
  mc_capacity : Z;
  mc_mask : Z;
  mc_consumer_count : Z }.
Arguments MulticastBuffer : clear implicits.
Arguments mkMulticast {T}.

Definition is_power_of_two (n : Z) : bool := (0 <? n) && (n =? 2 ^ Z.log2 n).

Section Multicast.
Context {T : Type}.
Implicit Types b : MulticastBuffer T.

Definition MulticastBuffer_new (capacity : Z) (consumer_count : nat) : option (MulticastBuffer T) :=
  if (0 <? capacity) && is_power_of_two capacity then
    Some (mkMulticast (replicate (Z.to_nat capacity) None) (replicate (Z.to_nat capacity) 0) 0
            (replicate consumer_count 0) capacity (capacity - 1) (wrap_u32 (Z.of_nat consumer_count)))
  else None.

(** ** The accesses to memory *)

Definition slot_of b (pos : Z) : nat := Z.to_nat (Z.land pos (mc_mask b)).
Definition write_slot (i : nat) (value : T) b : option (MulticastBuffer T) :=
  _ ← mc_slots b !! i;
  Some (mkMulticast (<[i := Some value]> (mc_slots b)) (mc_refcounts b) (mc_write_pos b) (mc_read_positions b)
          (mc_capacity b) (mc_mask b) (mc_consumer_count b)).
Definition store_refcount (i : nat) (count : Z) b : option (MulticastBuffer T) :=
  _ ← mc_refcounts b !! i;
  Some (mkMulticast (mc_slots b) (<[i := count]> (mc_refcounts b)) (mc_write_pos b) (mc_read_positions b)
          (mc_capacity b) (mc_mask b) (mc_consumer_count b)).
Definition store_write_pos (pos : Z) b : MulticastBuffer T :=
  mkMulticast (mc_slots b) (mc_refcounts b) pos (mc_read_positions b) (mc_capacity b) (mc_mask b) (mc_consumer_count b).
Definition store_read_pos (i : nat) (pos : Z) b : option (MulticastBuffer T) :=
  _ ← mc_read_positions b !! i;
  Some (mkMulticast (mc_slots b) (mc_refcounts b) (mc_write_pos b) (<[i := pos]> (mc_read_positions b))
          (mc_capacity b) (mc_mask b) (mc_consumer_count b)).
(** [as_ref().unwrap().clone()] *)
Definition read_slot (i : nat) b : option T := mc_slots b !! i ≫= λ c, c.

(** ** The operations *)

Definition MulticastBuffer_publish (value : T) b : option (MulticastBuffer T * (unit + DagError)) :=
  let pos := mc_write_pos b in
  let slot_idx := slot_of b pos in
  refcount ← mc_refcounts b !! slot_idx;
  if negb (refcount =? 0) then Some (b, inr BackpressureFull) else
  b ← write_slot slot_idx value b;
  b ← store_refcount slot_idx (mc_consumer_count b) b;
  Some (store_write_pos (u64_add pos 1) b, inl tt).

Definition MulticastBuffer_consume (consumer_idx : nat) b : option (MulticastBuffer T * option T) :=
  read_pos ← mc_read_positions b !! consumer_idx;
  let write_pos := mc_write_pos b in
  if write_pos <=? read_pos then Some (b, None) else
  let slot_idx := slot_of b read_pos in
  value ← read_slot slot_idx b;
  b ← store_read_pos consumer_idx (u64_add read_pos 1) b;
  refcount ← mc_refcounts b !! slot_idx;
  b ← store_refcount slot_idx (wrap_u32 (refcount - 1)) b;
  Some (b, Some value).

Definition MulticastBuffer_write_position b : Z := mc_write_pos b.
Definition MulticastBuffer_read_position (consumer_idx : nat) b : option Z := mc_read_positions b !! consumer_idx.
End Multicast.

(** ** Atomic steps *)

Inductive publish_pc {T : Type} :=
  | PbStart (value : T)
  | PbCheck (value : T) (pos : Z)
  | PbWrite (value : T) (pos : Z)
  | PbCount (value : T) (pos : Z)
  | PbAdvance (value : T) (pos : Z)
  | PbDone (r : unit + DagError).
Inductive consume_pc {T : Type} :=
  | CoStart
  | CoLoaded (read_pos : Z)
  | CoRead (read_pos : Z)
  | CoStore (read_pos : Z) (value : T)
  | CoRelease (read_pos : Z) (value : T)
  | CoDone (r : option T).
Arguments publish_pc : clear implicits.
Arguments consume_pc : clear implicits.

(** What the threads see: calls that return. *)
Inductive multicast_event {T : Type} :=
  | MPublish (value : T)
  | MFull (value : T)
  | MConsume (consumer : nat) (value : T)
  | MEmpty (consumer : nat).
Arguments multicast_event : clear implicits.

Section Steps.
Context {T : Type}.
Implicit Types b : MulticastBuffer T.

Definition publish_step (pc : publish_pc T) b : option (MulticastBuffer T * publish_pc T * option (multicast_event T)) :=
  match pc with
  | PbStart value => Some (b, PbCheck value (mc_write_pos b), None)
  | PbCheck value pos =>
      refcount ← mc_refcounts b !! slot_of b pos;
      if negb (refcount =? 0) then Some (b, PbDone (inr BackpressureFull), Some (MFull value))
      else Some (b, PbWrite value pos, None)
  | PbWrite value pos => b ← write_slot (slot_of b pos) value b; Some (b, PbCount value pos, None)
  | PbCount value pos => b ← store_refcount (slot_of b pos) (mc_consumer_count b) b; Some (b, PbAdvance value pos, None)
  | PbAdvance value pos => Some (store_write_pos (u64_add pos 1) b, PbDone (inl tt), Some (MPublish value))
  | PbDone _ => None
  end.

Definition consume_step (i : nat) (pc : consume_pc T) b
  : option (MulticastBuffer T * consume_pc T * option (multicast_event T)) :=
  match pc with
  | CoStart => read_pos ← mc_read_positions b !! i; Some (b, CoLoaded read_pos, None)
  | CoLoaded read_pos =>
      if mc_write_pos b <=? read_pos then Some (b, CoDone None, Some (MEmpty i)) else Some (b, CoRead read_pos, None)
  | CoRead read_pos => value ← read_slot (slot_of b read_pos) b; Some (b, CoStore read_pos value, None)
  | CoStore read_pos value =>
      b ← store_read_pos i (u64_add read_pos 1) b; Some (b, CoRelease read_pos value, None)
  | CoRelease read_pos value =>
      refcount ← mc_refcounts b !! slot_of b read_pos;
      b ← store_refcount (slot_of b read_pos) (wrap_u32 (refcount - 1)) b;
      Some (b, CoDone (Some value), Some (MConsume i value))
  | CoDone _ => None
  end.

Record multicast_sys := mkMsys {
  ms_buffer : MulticastBuffer T;
  ms_publisher : publish_pc T;
  ms_consumers : list (consume_pc T) }.

(** One writer, one thread per consumer; a thread that has returned may call again. *)
Inductive multicast_step : multicast_sys → option (multicast_event T) → multicast_sys → Prop :=
  | step_publish_call b r cs v : multicast_step (mkMsys b (PbDone r) cs) None (mkMsys b (PbStart v) cs)
  | step_publish b pc cs b' pc' o : publish_step pc b = Some (b', pc', o) →
      multicast_step (mkMsys b pc cs) o (mkMsys b' pc' cs)
  | step_consume_call b pu cs i r : cs !! i = Some (CoDone r) →
      multicast_step (mkMsys b pu cs) None (mkMsys b pu (<[i := CoStart]> cs))
  | step_consume b pu cs i pc b' pc' o : cs !! i = Some pc → consume_step i pc b = Some (b', pc', o) →
      multicast_step (mkMsys b pu cs) o (mkMsys b' pu (<[i := pc']> cs)).

Definition multicast_start b : multicast_sys :=
  mkMsys b (PbDone (inl tt)) (replicate (length (mc_read_positions b)) (CoDone None)).

(** Every value published so far, and how many of them each consumer has read. *)
Definition multicast_spec `{!EqDecision T} (capacity : Z) (a : list T * list nat) (e : multicast_event T)
  : option (list T * list nat) :=
  let '(log, pos) := a in
  let room := bool_decide (Forall (λ p, zlen log < Z.of_nat p + capacity) pos) in
  match e with
  | MPublish v => if room then Some (log ++ [v], pos) else None
  | MFull _ => if room then None else Some a
  | MConsume i v => p ← pos !! i; if decide (log !! p = Some v) then Some (log, <[i := S p]> pos) else None
  | MEmpty i => p ← pos !! i; if decide (p = length log) then Some a else None
  end.

(** ** The invariant *)

(** Consumers that still need the value at position [q]. *)
Definition readers (pos : list nat) (q : Z) : Z := zlen (filter (λ p, Z.of_nat p <= q) pos).
Definition written (pc : publish_pc T) : list T := match pc with PbCount v _ | PbAdvance v _ => [v] | _ => [] end.
Definition counted (pc : publish_pc T) : Z := match pc with PbAdvance _ _ => 1 | _ => 0 end.

Definition slots_hold (capacity : Z) (l : list T) b : Prop :=
  ∀ q, zlen l - capacity <= q < zlen l → 0 <= q → mc_slots b !! Z.to_nat (q mod capacity) = Some (l !! Z.to_nat q).
Definition refcounts_hold (capacity hi : Z) (pos : list nat) b : Prop :=
  ∀ q, hi - capacity <= q < hi → mc_refcounts b !! Z.to_nat (q mod capacity) = Some (readers pos q).

Record shape (capacity : Z) (n : nat) b : Prop := {
  sh_power : ∃ k, 0 <= k ∧ capacity = 2 ^ k;
  sh_mask : mc_mask b = capacity - 1;
  sh_slots : length (mc_slots b) = Z.to_nat capacity;
  sh_counts : length (mc_refcounts b) = Z.to_nat capacity;
  sh_readers : length (mc_read_positions b) = n;
  sh_consumers : mc_consumer_count b = Z.of_nat n;
  sh_fits : Z.of_nat n < 4294967296 }.

Definition publish_ok (capacity : Z) (log : list T) (pos : list nat) (pc : publish_pc T) : Prop :=
  match pc with
  | PbCheck _ p => p = zlen log
  | PbWrite _ p | PbCount _ p | PbAdvance _ p => p = zlen log ∧ Forall (λ p, zlen log < Z.of_nat p + capacity) pos
  | _ => True
  end.
Definition consume_ok (log : list T) (p : nat) (read_pos : Z) (pc : consume_pc T) : Prop :=
  match pc with
  | CoStart | CoDone _ => read_pos = Z.of_nat p
  | CoLoaded rp => rp = Z.of_nat p ∧ read_pos = Z.of_nat p
  | CoRead rp => rp = Z.of_nat p ∧ read_pos = Z.of_nat p ∧ (p < length log)%nat
  | CoStore rp v => rp = Z.of_nat p ∧ read_pos = Z.of_nat p ∧ log !! p = Some v
  | CoRelease rp v => rp = Z.of_nat p ∧ read_pos = Z.of_nat p + 1 ∧ log !! p = Some v
  end.

Record multicast_ok (capacity : Z) (n : nat) (a : list T * list nat) (s : multicast_sys) : Prop := {
  mo_shape : shape capacity n (ms_buffer s);
  mo_write_pos : mc_write_pos (ms_buffer s) = zlen a.1;
  mo_pos : Forall (λ p, Z.of_nat p <= zlen a.1 <= Z.of_nat p + capacity) a.2;
  mo_slots : slots_hold capacity (a.1 ++ written (ms_publisher s)) (ms_buffer s);
  mo_counts : refcounts_hold capacity (zlen a.1 + counted (ms_publisher s)) a.2 (ms_buffer s);
  mo_publisher : publish_ok capacity a.1 a.2 (ms_publisher s);
  mo_len : length a.2 = n;
  mo_threads : length (ms_consumers s) = n;
  mo_consumers : ∀ i p rp pc, a.2 !! i = Some p → mc_read_positions (ms_buffer s) !! i = Some rp →
    ms_consumers s !! i = Some pc → consume_ok a.1 p rp pc }.
End Steps.
Arguments multicast_sys : clear implicits.

Section Facts.
Context {T : Type}.
Implicit Types (b : MulticastBuffer T) (pos : list nat) (log : list T).

Lemma shape_pos capacity n b : shape capacity n b → 0 < capacity.
Proof. intros [(k & Hk & ->) _ _ _ _ _ _]. lia. Qed.

Lemma slot_of_mod capacity n b p : shape capacity n b → slot_of b p = Z.to_nat (p mod capacity).
Proof.
  intros [(k & Hk & ->) Hm _ _ _ _ _]. unfold slot_of. rewrite Hm.
  rewrite <- Z.land_ones by lia. by rewrite Z.ones_equiv, <- Z.sub_1_r.
Qed.
Lemma slot_of_lt capacity n b p : shape capacity n b → (Z.to_nat (p mod capacity) < Z.to_nat capacity)%nat.
Proof. intros Hs%shape_pos. pose proof (Z.mod_pos_bound p capacity Hs). lia. Qed.

Lemma window_mod_inj capacity lo p q : 0 < capacity → lo <= p < lo + capacity → lo <= q < lo + capacity →
  Z.to_nat (p mod capacity) = Z.to_nat (q mod capacity) → p = q.
Proof.
  intros Hc Hp Hq E. pose proof (Z.mod_pos_bound p capacity Hc). pose proof (Z.mod_pos_bound q capacity Hc).
  assert (E' : p mod capacity = q mod capacity) by lia.
  pose proof (Z.div_mod p capacity ltac:(lia)). pose proof (Z.div_mod q capacity ltac:(lia)).
  destruct (Z.lt_trichotomy (p / capacity) (q / capacity)) as [Hl|[Hl|Hl]]; [nia|congruence|nia].
Qed.

Lemma readers_bound pos q : 0 <= readers pos q <= zlen pos.
Proof. unfold readers. pose proof (length_filter (λ p, Z.of_nat p <= q) pos). lia. Qed.
Lemma readers_zero pos q : readers pos q = 0 ↔ Forall (λ p, q < Z.of_nat p) pos.
Proof.
  unfold readers. rewrite Forall_forall. split.
  - intros E x Hx. destruct (filter _ pos) eqn:Ef; [|cbn in E; lia].
    destruct (decide (Z.of_nat x <= q)) as [Hle|]; [|lia]. exfalso.
    assert (Hin : x ∈ filter (λ p, Z.of_nat p <= q) pos) by (by apply list_elem_of_filter). rewrite Ef in Hin. by apply not_elem_of_nil in Hin.
  - intros H. destruct (filter _ pos) as [|x l] eqn:Ef; [done|]. exfalso.
    assert (Hin : x ∈ filter (λ p, Z.of_nat p <= q) pos) by (rewrite Ef; left).
    apply list_elem_of_filter in Hin as [Hle Hin]. specialize (H x Hin). lia.
Qed.
Lemma readers_all pos q : Forall (λ p, Z.of_nat p <= q) pos → readers pos q = zlen pos.
Proof.
  unfold readers. induction 1 as [|p pos Hp _ IH]; [done|]. rewrite filter_cons_True by done. cbn [length]. lia.
Qed.
Lemma readers_cons x pos q : readers (x :: pos) q = (if decide (Z.of_nat x <= q) then 1 else 0) + readers pos q.
Proof. unfold readers. rewrite filter_cons. case_decide; cbn [length]; lia. Qed.
Lemma readers_advance pos i p q : pos !! i = Some p →
  readers (<[i := S p]> pos) q = readers pos q - (if decide (q = Z.of_nat p) then 1 else 0).
Proof.
  revert i. induction pos as [|x pos IH]; intros [|i] E; try done; cbn in E.
  - simplify_eq. change (<[0%nat := S p]> (p :: pos)) with (S p :: pos). rewrite !readers_cons. repeat case_decide; lia.
  - change (<[S i := S p]> (x :: pos)) with (x :: <[i := S p]> pos). rewrite !readers_cons, (IH i E). lia.
Qed.

Lemma counts_at_end capacity n b hi pos p : shape capacity n b → refcounts_hold capacity hi pos b → hi - capacity = p →
  mc_refcounts b !! slot_of b hi = Some (readers pos p).
Proof.
  intros Hs Hc <-. pose proof (shape_pos _ _ _ Hs). rewrite (slot_of_mod _ _ _ _ Hs), <- (Hc (hi - capacity)) by lia.
  f_equal. f_equal. rewrite <- (Z_mod_plus_full (hi - capacity) 1). f_equal. lia.
Qed.

Lemma consume_ok_app log k p rp (pc : consume_pc T) : consume_ok log p rp pc → consume_ok (log ++ k) p rp pc.
Proof.
  destruct pc; cbn; try done; intros (-> & -> & H); (split; [done|split; [done|]]);
    rewrite ?length_app; try lia; by apply lookup_app_l_Some.
Qed.

(** The stores succeed and change one cell. *)
Lemma write_slot_some capacity n b p v : shape capacity n b → ∃ b', write_slot (slot_of b p) v b = Some b' ∧ shape capacity n b' ∧
  mc_slots b' = <[Z.to_nat (p mod capacity) := Some v]> (mc_slots b) ∧
  mc_refcounts b' = mc_refcounts b ∧ mc_write_pos b' = mc_write_pos b ∧ mc_read_positions b' = mc_read_positions b.
Proof.
  intros Hs. unfold write_slot. rewrite (slot_of_mod _ _ _ _ Hs).
  destruct (lookup_lt_is_Some_2 (mc_slots b) (Z.to_nat (p mod capacity))) as [x ->].
  { rewrite (sh_slots _ _ _ Hs). by eapply slot_of_lt. }
  cbn [mbind option_bind]. eexists. split; [done|]. split; [|done]. destruct Hs. split; cbn; rewrite ?length_insert; done.
Qed.
Lemma store_refcount_some capacity n b p c : shape capacity n b → ∃ b', store_refcount (slot_of b p) c b = Some b' ∧ shape capacity n b' ∧
  mc_refcounts b' = <[Z.to_nat (p mod capacity) := c]> (mc_refcounts b) ∧
  mc_slots b' = mc_slots b ∧ mc_write_pos b' = mc_write_pos b ∧ mc_read_positions b' = mc_read_positions b.
Proof.
  intros Hs. unfold store_refcount. rewrite (slot_of_mod _ _ _ _ Hs).
  destruct (lookup_lt_is_Some_2 (mc_refcounts b) (Z.to_nat (p mod capacity))) as [x ->].
  { rewrite (sh_counts _ _ _ Hs). by eapply slot_of_lt. }
  cbn [mbind option_bind]. eexists. split; [done|]. split; [|done]. destruct Hs. split; cbn; rewrite ?length_insert; done.
Qed.

Lemma slots_hold_write capacity n b b' log v : shape capacity n b → slots_hold capacity log b →
  mc_slots b' = <[Z.to_nat (zlen log mod capacity) := Some v]> (mc_slots b) → slots_hold capacity (log ++ [v]) b'.
Proof.
  intros Hs Hh Eb q Hq Hq0. pose proof (shape_pos _ _ _ Hs) as Hc. rewrite length_app in Hq. cbn [length] in Hq. rewrite Eb.
  destruct (decide (q = zlen log)) as [->|Hne].
  - rewrite list_lookup_insert_eq by (rewrite (sh_slots _ _ _ Hs); by eapply slot_of_lt).
    rewrite lookup_app_r by lia. by rewrite Nat2Z.id, Nat.sub_diag.
  - rewrite list_lookup_insert_ne.
    + rewrite lookup_app_l by lia. apply Hh; lia.
    + intros E%(window_mod_inj capacity (zlen log + 1 - capacity)); lia.
Qed.
Lemma refcounts_hold_publish capacity n b b' hi pos : shape capacity n b → refcounts_hold capacity hi pos b →
  Forall (λ p, Z.of_nat p <= hi) pos →
  mc_refcounts b' = <[Z.to_nat (hi mod capacity) := zlen pos]> (mc_refcounts b) → refcounts_hold capacity (hi + 1) pos b'.
Proof.
  intros Hs Hh Hp Eb q Hq. pose proof (shape_pos _ _ _ Hs) as Hc. rewrite Eb. destruct (decide (q = hi)) as [->|Hne].
  - rewrite list_lookup_insert_eq by (rewrite (sh_counts _ _ _ Hs); by eapply slot_of_lt). by rewrite readers_all.
  - rewrite list_lookup_insert_ne; [apply Hh; lia|]. intros E%(window_mod_inj capacity (hi + 1 - capacity)); lia.
Qed.
Lemma refcounts_hold_release capacity n b b' hi pos i p : shape capacity n b → refcounts_hold capacity hi pos b →
  pos !! i = Some p → hi - capacity <= Z.of_nat p < hi →
  mc_refcounts b' = <[Z.to_nat (Z.of_nat p mod capacity) := readers pos (Z.of_nat p) - 1]> (mc_refcounts b) →
  refcounts_hold capacity hi (<[i := S p]> pos) b'.
Proof.
  intros Hs Hh Hi Hp Eb q Hq. pose proof (shape_pos _ _ _ Hs) as Hc. rewrite Eb, (readers_advance _ _ _ _ Hi).
  case_decide as Hd; [subst q|].
  - by rewrite list_lookup_insert_eq by (rewrite (sh_counts _ _ _ Hs); by eapply slot_of_lt).
  - rewrite list_lookup_insert_ne; [rewrite Z.sub_0_r; apply Hh; lia|].
    intros E%(window_mod_inj capacity (hi - capacity)); lia.
Qed.
End Facts.

(** ** Simulation *)

Section Simulation.
Context {T : Type} `{!EqDecision T}.
Implicit Types (b : MulticastBuffer T) (pos : list nat) (log : list T).

Definition is_publish (o : option (multicast_event T)) : bool := match o with Some (MPublish _) => true | _ => false end.

(** What [multicast_ok] becomes after a step with outcome [o]. *)
Definition step_result (capacity : Z) (n : nat) (a : list T * list nat) (o : option (multicast_event T)) (s : multicast_sys T) : Prop :=
  match o with
  | None => multicast_ok capacity n a s
  | Some e => ∃ a', multicast_spec capacity a e = Some a' ∧ multicast_ok capacity n a' s
  end.

Lemma publish_step_ok capacity n log pos b pu cs b' pu' o :
  multicast_ok capacity n (log, pos) (mkMsys b pu cs) → publish_step pu b = Some (b', pu', o) →
  (is_publish o = true → zlen log + 1 < u64_MOD) → step_result capacity n (log, pos) o (mkMsys b' pu' cs).
Proof.
  intros [Hs Hw Hp Hsl Hc Hpu Hn Ht Hcs] E Hov. cbn [ms_buffer ms_publisher ms_consumers fst snd] in *.
  destruct pu as [v|v p|v p|v p|v p|]; cbn [publish_step publish_ok written counted] in *; rewrite ?app_nil_r, ?Z.add_0_r in *.
  - simplify_eq. split; cbn; rewrite ?app_nil_r, ?Z.add_0_r; done.
  - subst p. rewrite (counts_at_end _ _ _ _ _ _ Hs Hc eq_refl) in E. cbn [mbind option_bind] in E.
    destruct (readers pos (zlen log - capacity) =? 0) eqn:E0; cbn [negb] in E; simplify_eq; cbn [step_result].
    + apply Z.eqb_eq, readers_zero in E0. split; cbn; rewrite ?app_nil_r, ?Z.add_0_r; try done.
      split; [done|]. eapply Forall_impl; [exact E0|]. cbn. lia.
    + exists (log, pos). split; [|split; cbn; rewrite ?app_nil_r, ?Z.add_0_r; done]. cbn. rewrite bool_decide_eq_false_2; [done|].
      intros Hall. apply Z.eqb_neq in E0. apply E0, readers_zero. eapply Forall_impl; [exact Hall|]. cbn. lia.
  - destruct Hpu as [-> Hroom]. destruct (write_slot_some _ _ _ (zlen log) v Hs) as (b1 & E1 & Hs1 & Esl & Erc & Ewp & Erp). rewrite E1 in E.
    cbn [mbind option_bind] in E. simplify_eq. split; cbn; rewrite ?Z.add_0_r; try done.
    + congruence.
    + exact (slots_hold_write _ _ _ _ _ _ Hs Hsl Esl).
    + intros q Hq. rewrite Erc. by apply Hc.
    + intros i q rp pc Hi Hrp Hpc. rewrite Erp in Hrp. by eapply Hcs.
  - destruct Hpu as [-> Hroom].
    destruct (store_refcount_some _ _ _ (zlen log) (mc_consumer_count b) Hs) as (b1 & E1 & Hs1 & Erc & Esl & Ewp & Erp). rewrite E1 in E.
    cbn [mbind option_bind] in E. simplify_eq. split; cbn; try done.
    + congruence.
    + intros q Hq Hq0. rewrite Esl. by apply Hsl.
    + apply (refcounts_hold_publish _ _ _ _ _ _ Hs Hc).
      * eapply Forall_impl; [exact Hp|]. cbn. lia.
      * by rewrite Erc, (sh_consumers _ _ _ Hs).
    + intros i q rp pc Hi Hrp Hpc. rewrite Erp in Hrp. by eapply Hcs.
  - destruct Hpu as [-> Hroom]. simplify_eq. cbn [step_result]. specialize (Hov eq_refl). exists (log ++ [v], pos).
    split; [cbn; by rewrite bool_decide_eq_true_2|]. split; cbn; rewrite ?app_nil_r, ?Z.add_0_r; rewrite ?length_app; cbn [length]; try done.
    + by destruct Hs; split.
    + unfold u64_add, wrap_u64. rewrite Z.mod_small by lia. lia.
    + rewrite Forall_forall in *. intros q Hq. specialize (Hp q Hq). specialize (Hroom q Hq). lia.
    + by replace (zlen log + 1) with (Z.of_nat (length log + 1)) in Hc by lia.
    + intros i q rp pc Hi Hrp Hpc. apply consume_ok_app. by eapply Hcs.
  - done.
Qed.

(** Changing the state of one consumer that leaves the buffer as it is. *)
Lemma consumer_moves capacity n a b pu cs i pc pc' : multicast_ok capacity n a (mkMsys b pu cs) → cs !! i = Some pc →
  (∀ p rp, a.2 !! i = Some p → mc_read_positions b !! i = Some rp → consume_ok a.1 p rp pc → consume_ok a.1 p rp pc') →
  multicast_ok capacity n a (mkMsys b pu (<[i := pc']> cs)).
Proof.
  intros [Hs Hw Hp Hsl Hc Hpu Hn Ht Hcs] Hi Hpc. split; cbn in *; rewrite ?length_insert; try done.
  intros j p rp pc1 Hj Hrp Hpc1. destruct (decide (i = j)) as [<-|Hne].
  - rewrite list_lookup_insert_eq in Hpc1 by (by eapply lookup_lt_Some). simplify_eq. eapply Hpc; eauto.
  - rewrite list_lookup_insert_ne in Hpc1 by done. by eapply Hcs.
Qed.

Lemma consumer_at capacity n a b pu cs i pc : multicast_ok capacity n a (mkMsys b pu cs) → cs !! i = Some pc →
  ∃ p rp, a.2 !! i = Some p ∧ mc_read_positions b !! i = Some rp ∧ consume_ok a.1 p rp pc.
Proof.
  intros [Hs _ _ _ _ _ Hn Ht Hcs] Hi. cbn in *. pose proof (lookup_lt_Some _ _ _ Hi) as Hlt.
  destruct (lookup_lt_is_Some_2 a.2 i) as [p Hp]; [lia|].
  destruct (lookup_lt_is_Some_2 (mc_read_positions b) i) as [rp Hrp]; [rewrite (sh_readers _ _ _ Hs); lia|].
  exists p, rp. split_and!; [done|done|by eapply Hcs].
Qed.

(** A value a consumer has not released is still in its slot. *)
Lemma slot_readable capacity n log pos b pu cs i p : multicast_ok capacity n (log, pos) (mkMsys b pu cs) → pos !! i = Some p →
  (p < length log)%nat → read_slot (slot_of b (Z.of_nat p)) b = log !! p ∧
  zlen log + counted pu - capacity <= Z.of_nat p < zlen log + counted pu ∧
  zlen (log ++ written pu) - capacity <= Z.of_nat p.
Proof.
  intros [Hs Hw Hp Hsl Hc Hpu Hn Ht Hcs] Hi Hlt. cbn [ms_buffer ms_publisher ms_consumers fst snd] in *.
  assert (Hb : zlen (log ++ written pu) - capacity <= Z.of_nat p ∧ zlen log + counted pu - capacity <= Z.of_nat p < zlen log + counted pu).
  { rewrite Forall_lookup in Hp. specialize (Hp _ _ Hi). rewrite length_app.
    destruct pu; cbn [written counted publish_ok length] in *; try lia; destruct Hpu as [_ Hroom];
      rewrite Forall_lookup in Hroom; specialize (Hroom _ _ Hi); lia. }
  split; [|lia]. unfold read_slot. rewrite (slot_of_mod _ _ _ _ Hs), (Hsl (Z.of_nat p)) by (rewrite ?length_app in *; lia).
  cbn. rewrite Nat2Z.id. by apply lookup_app_l.
Qed.
End Simulation.

Section Linearizable.
Context {T : Type} `{!EqDecision T}.
Implicit Types (b : MulticastBuffer T) (pos : list nat) (log : list T).

Lemma consume_step_ok capacity n log pos b pu cs i pc b' pc' o :
  multicast_ok capacity n (log, pos) (mkMsys b pu cs) → zlen log < u64_MOD → cs !! i = Some pc →
  consume_step i pc b = Some (b', pc', o) → step_result capacity n (log, pos) o (mkMsys b' pu (<[i := pc']> cs)).
Proof.
  intros Hok Hlen Hi E. destruct (consumer_at _ _ _ _ _ _ _ _ Hok Hi) as (p & rp & Hp & Hrp & Hpc). cbn [fst snd] in *.
  destruct pc as [|q|q|q v|q v|]; cbn [consume_step consume_ok] in *.
  - rewrite Hrp in E. cbn in E. simplify_eq. cbn [step_result]. eapply consumer_moves; [done..|]. intros p' rp' ? ? Hc. cbn in *. simplify_eq. done.
  - destruct Hpc as [-> ->]. pose proof (mo_write_pos _ _ _ _ Hok) as Hw. cbn [ms_buffer fst] in Hw. rewrite Hw in E.
    pose proof (mo_pos _ _ _ _ Hok) as Hb. rewrite Forall_lookup in Hb. specialize (Hb _ _ Hp). cbn [fst] in Hb.
    destruct (zlen log <=? Z.of_nat p) eqn:Ew; simplify_eq; cbn [step_result].
    + exists (log, pos). split; [cbn; rewrite Hp; cbn; by rewrite decide_True by lia|].
      eapply consumer_moves; [done..|]. intros p' rp' ? ? Hc. cbn in *. simplify_eq. lia.
    + eapply consumer_moves; [done..|]. intros p' rp' ? ? Hc. cbn in *. simplify_eq. lia.
  - destruct Hpc as (-> & -> & Hlt). destruct (slot_readable _ _ _ _ _ _ _ _ _ Hok Hp Hlt) as [Hr _].
    destruct (lookup_lt_is_Some_2 log p Hlt) as [v Hv]. rewrite Hr, Hv in E. cbn in E. simplify_eq. cbn [step_result].
    eapply consumer_moves; [done..|]. intros p' rp' ? ? Hc. cbn in *. simplify_eq. by destruct Hc.
  - destruct Hpc as (-> & -> & Hv). unfold store_read_pos in E. rewrite Hrp in E. cbn [mbind option_bind] in E. simplify_eq. cbn [step_result].
    destruct Hok as [Hs Hw Hb Hsl Hc Hpu Hn Ht Hcs]. cbn [ms_buffer ms_publisher ms_consumers fst snd] in *.
    pose proof (lookup_lt_Some _ _ _ Hv). pose proof (lookup_lt_Some _ _ _ Hi). pose proof (lookup_lt_Some _ _ _ Hrp).
    split; cbn [ms_buffer ms_publisher ms_consumers fst snd mc_slots mc_refcounts mc_write_pos mc_read_positions]; rewrite ?length_insert; try done.
    + destruct Hs. split; cbn; rewrite ?length_insert; done.
    + intros j p' rp' pc1 Hj Hrp' Hpc1. destruct (decide (i = j)) as [<-|Hne].
      * rewrite list_lookup_insert_eq in Hpc1 by done. rewrite list_lookup_insert_eq in Hrp' by done. simplify_eq. cbn. unfold u64_add, wrap_u64.
        rewrite Z.mod_small by lia. done.
      * rewrite list_lookup_insert_ne in Hpc1 by done. rewrite list_lookup_insert_ne in Hrp' by done. by eapply Hcs.
  - destruct Hpc as (-> & -> & Hv). pose proof (lookup_lt_Some _ _ _ Hv) as Hlt.
    destruct (slot_readable _ _ _ _ _ _ _ _ _ Hok Hp Hlt) as (_ & Hwin & _).
    destruct Hok as [Hs Hw Hb Hsl Hc Hpu Hn Ht Hcs]. cbn [ms_buffer ms_publisher ms_consumers fst snd] in *.
    rewrite (slot_of_mod _ _ _ _ Hs), (Hc _ Hwin) in E. cbn [mbind option_bind] in E.
    destruct (store_refcount_some _ _ _ (Z.of_nat p) (wrap_u32 (readers pos (Z.of_nat p) - 1)) Hs)
      as (b1 & E1 & Hs1 & Erc & Esl & Ewp & Erp).
    rewrite (slot_of_mod _ _ _ _ Hs) in E1. rewrite E1 in E. cbn [mbind option_bind] in E. simplify_eq. cbn [step_result].
    assert (Hr1 : 1 <= readers pos (Z.of_nat p)).
    { pose proof (readers_bound pos (Z.of_nat p)). assert (readers pos (Z.of_nat p) ≠ 0); [|lia]. rewrite readers_zero, Forall_lookup.
      intros Hall. specialize (Hall _ _ Hp). cbn in Hall. lia. }
    exists (log, <[i := S p]> pos). split; [cbn; rewrite Hp; cbn; by rewrite decide_True by done|].
    pose proof (lookup_lt_Some _ _ _ Hp) as Hilt. pose proof (lookup_lt_Some _ _ _ Hi) as Hiltc. split; cbn; rewrite ?length_insert; try done.
    + congruence.
    + rewrite Forall_lookup in *. intros j x Hx. destruct (decide (i = j)) as [<-|Hne].
      * rewrite list_lookup_insert_eq in Hx by done. simplify_eq. specialize (Hb _ _ Hp). cbn in Hb. lia.
      * rewrite list_lookup_insert_ne in Hx by done. exact (Hb _ _ Hx).
    + intros q Hq Hq0. rewrite Esl. by apply Hsl.
    + eapply refcounts_hold_release; [exact Hs|exact Hc|done|done|]. rewrite Erc. do 2 f_equal.
      unfold wrap_u32. pose proof (readers_bound pos (Z.of_nat p)). pose proof (sh_fits _ _ _ Hs). apply Z.mod_small. lia.
    + assert (Hmono : Forall (λ p0, zlen log < Z.of_nat p0 + capacity) pos → Forall (λ p0, zlen log < Z.of_nat p0 + capacity) (<[i := S p]> pos)).
      { intros Hr. apply Forall_insert; [done|]. rewrite Forall_lookup in Hr. specialize (Hr _ _ Hp). cbn in Hr. lia. }
      destruct pu; cbn in *; naive_solver.
    + intros j p' rp' pc1 Hj Hrp' Hpc1. rewrite Erp in Hrp'. destruct (decide (i = j)) as [<-|Hne].
      * rewrite list_lookup_insert_eq in Hpc1 by done. rewrite list_lookup_insert_eq in Hj by done. simplify_eq. cbn. lia.
      * rewrite list_lookup_insert_ne in Hpc1 by done. rewrite list_lookup_insert_ne in Hj by done. by eapply Hcs.
  - done.
Qed.

Lemma multicast_step_ok capacity n (a : list T * list nat) s o s' : multicast_ok capacity n a s → multicast_step s o s' →
  zlen a.1 + (if is_publish o then 1 else 0) < u64_MOD → step_result capacity n a o s'.
Proof.
  intros Hok Hst Hlen. destruct a as [log pos], Hst as [b r cs v|b pc cs b' pc' o E|b pu cs i r Hi|b pu cs i pc b' pc' o Hi E]; cbn [fst] in Hlen.
  - destruct Hok. split; cbn in *; done.
  - eapply publish_step_ok; [done..|]. intros Ho. rewrite Ho in Hlen. lia.
  - cbn. eapply consumer_moves; [done..|]. done.
  - eapply consume_step_ok; [done| |done|done]. destruct (is_publish o); lia.
Qed.

Lemma power_of_two n : is_power_of_two n = true → ∃ k, 0 <= k ∧ n = 2 ^ k.
Proof. unfold is_power_of_two. intros [_ E%Z.eqb_eq]%andb_prop. exists (Z.log2 n). split; [apply Z.log2_nonneg|done]. Qed.

Lemma multicast_start_ok capacity n b0 : MulticastBuffer_new (T := T) capacity n = Some b0 → Z.of_nat n < 4294967296 →
  multicast_ok capacity n ([], replicate n 0%nat) (multicast_start b0).
Proof.
  unfold MulticastBuffer_new. intros E Hn. destruct (0 <? capacity) eqn:E0; [|done]. destruct (is_power_of_two capacity) eqn:Ep; [|done].
  cbn in E. simplify_eq. apply Z.ltb_lt in E0. destruct (power_of_two _ Ep) as (k & Hk & ->).
  unfold multicast_start. cbn [mc_read_positions]. rewrite length_replicate.
  split; cbn [ms_buffer ms_publisher ms_consumers mc_slots mc_refcounts mc_write_pos mc_read_positions fst snd]; rewrite ?length_replicate; try done.
  - split; cbn; rewrite ?length_replicate; try done; [by exists k|]. unfold wrap_u32. apply Z.mod_small. lia.
  - apply Forall_replicate. cbn. lia.
  - intros q Hq Hq0. cbn in Hq. lia.
  - intros q Hq. cbn [length counted] in Hq. cbn [mc_refcounts]. rewrite lookup_replicate_2. 2:{ pose proof (Z.mod_pos_bound q (2 ^ k) E0). lia. }
    f_equal. symmetry. apply readers_zero, Forall_replicate. lia.
  - intros i p rp pc Hi Hrp Hpc. apply lookup_replicate in Hi as [-> _], Hrp as [-> _], Hpc as [-> _]. done.
Qed.

Definition publishes (tr : list (multicast_event T)) : list T :=
  omap (λ e, match e with MPublish v => Some v | _ => None end) tr.
Definition consumed (i : nat) (tr : list (multicast_event T)) : list T :=
  omap (λ e, match e with MConsume j v => if decide (i = j) then Some v else None | _ => None end) tr.

Lemma omap_snoc {A B} (f : A → option B) l x : omap f (l ++ [x]) = omap f l ++ option_list (f x).
Proof. rewrite omap_app. cbn. by destruct (f x). Qed.

(** The specification delivers to each consumer a prefix of what was published. *)
Lemma spec_prefixes capacity n tr log pos : spec_run (multicast_spec capacity) ([], replicate n 0%nat) tr = Some (log, pos) →
  log = publishes tr ∧ ∀ i p, pos !! i = Some p → (p <= length log)%nat ∧ consumed i tr = take p log.
Proof.
  revert log pos. induction tr as [|e tr IH] using rev_ind; intros log pos.
  { cbn. intros [= <- <-]. split; [done|]. intros i p [-> _]%lookup_replicate. done. }
  rewrite spec_run_snoc. destruct (spec_run _ _ tr) as [[log0 pos0]|]; [|done]. cbn [mbind option_bind].
  destruct (IH _ _ eq_refl) as [Hlog Hpos]. unfold publishes, consumed in *. setoid_rewrite omap_snoc.
  destruct e as [v|v|j v|j]; cbn; intros E.
  - case_bool_decide; simplify_eq. split; [done|]. intros i p Hi. destruct (Hpos i p Hi) as [Hle Hc].
    rewrite app_nil_r, length_app, take_app_le by done. split; [lia|done].
  - case_bool_decide; simplify_eq. rewrite app_nil_r. split; [done|]. intros i p Hi. rewrite app_nil_r. by apply Hpos.
  - destruct (pos0 !! j) as [p|] eqn:Hj; [|done]. cbn in E. case_decide as Hv; simplify_eq. rewrite app_nil_r. split; [done|].
    intros i q Hi. destruct (decide (i = j)) as [->|Hne].
    + rewrite list_lookup_insert_eq in Hi by (by eapply lookup_lt_Some). simplify_eq. destruct (Hpos _ _ Hj) as [Hle Hc].
      pose proof (lookup_lt_Some _ _ _ Hv). split; [lia|]. cbn. rewrite Hc. symmetry. by apply take_S_r.
    + rewrite list_lookup_insert_ne in Hi by done. cbn. rewrite app_nil_r. by apply Hpos.
  - destruct (pos0 !! j) as [p|] eqn:Hj; [|done]. cbn in E. case_decide; simplify_eq. rewrite app_nil_r. split; [done|].
    intros i q Hi. rewrite app_nil_r. by apply Hpos.
Qed.

Lemma multicast_run_ok capacity n b0 tr s : MulticastBuffer_new capacity n = Some b0 → Z.of_nat n < 4294967296 →
  ltrace multicast_step (multicast_start b0) tr s → zlen (publishes tr) < u64_MOD →
  ∃ log pos, spec_run (multicast_spec capacity) ([], replicate n 0%nat) tr = Some (log, pos) ∧ multicast_ok capacity n (log, pos) s.
Proof.
  intros Hnew Hn Htr. assert (Hstart := multicast_start_ok _ _ _ Hnew Hn). remember (multicast_start b0) as s0 eqn:Es.
  induction Htr as [s|s s1 s2 tr Htr IH Hst|s s1 s2 tr e Htr IH Hst]; intros Hp.
  - subst. exists [], (replicate n 0%nat). done.
  - destruct (IH Es Hstart Hp) as (log & pos & Hrun & Hok). exists log, pos. split; [done|].
    apply (multicast_step_ok _ _ _ _ _ _ Hok Hst). cbn. destruct (spec_prefixes _ _ _ _ _ Hrun) as [-> _]. lia.
  - assert (Hp' : zlen (publishes tr) + (if is_publish (Some e) then 1 else 0) <= zlen (publishes (tr ++ [e]))).
    { unfold publishes. rewrite omap_snoc, length_app. destruct e; cbn; lia. }
    destruct (IH Es Hstart) as (log & pos & Hrun & Hok); [destruct (is_publish (Some e)); lia|].
    destruct (spec_prefixes _ _ _ _ _ Hrun) as [Hlog _].
    destruct (multicast_step_ok _ _ _ _ _ _ Hok Hst) as ([log' pos'] & Hsp & Hok'); [cbn [fst]; subst log; lia|].
    exists log', pos'. by rewrite spec_run_snoc, Hrun.
Qed.
End Linearizable.

(** ** Results *)

Definition publish_returned {T} (pc : publish_pc T) : bool := match pc with PbDone _ => true | _ => false end.
Definition consume_returned {T} (pc : consume_pc T) : bool := match pc with CoDone _ => true | _ => false end.

(** A thread alone, until it returns. *)
Fixpoint run_alone {T P} (step : P → MulticastBuffer T → option (MulticastBuffer T * P * option (multicast_event T)))
    (returned : P → bool) (fuel : nat) (pc : P) (b : MulticastBuffer T) : option (MulticastBuffer T * P) :=
  match fuel with
  | O => None
  | S fuel => if returned pc then Some (b, pc) else '(b, pc, _) ← step pc b; run_alone step returned fuel pc b
  end.

(** The steps are those of the operations: undisturbed they give their result. *)
Lemma multicast_steps_are_operations {T} (v : T) i b :
  run_alone publish_step publish_returned 6 (PbStart v) b = (λ r, (r.1, PbDone r.2)) <$> MulticastBuffer_publish v b ∧
  run_alone (consume_step i) consume_returned 6 CoStart b = (λ r, (r.1, CoDone r.2)) <$> MulticastBuffer_consume i b.
Proof.
  split.
  - unfold MulticastBuffer_publish. cbn [run_alone publish_step publish_returned mbind option_bind].
    destruct (mc_refcounts b !! slot_of b (mc_write_pos b)) as [rc|] eqn:E; [|done]. cbn [mbind option_bind].
    destruct (rc =? 0); cbn [negb run_alone publish_step publish_returned mbind option_bind]; [|done]. unfold write_slot.
    destruct (mc_slots b !! slot_of b (mc_write_pos b)) eqn:Es; [|done]. cbn [run_alone publish_step publish_returned mbind option_bind].
    unfold store_refcount, slot_of in *. cbn [mc_refcounts mc_mask mc_consumer_count]. rewrite E. done.
  - unfold MulticastBuffer_consume. cbn [run_alone consume_step consume_returned mbind option_bind].
    destruct (mc_read_positions b !! i) as [rp|] eqn:E; [|done]. cbn [run_alone consume_step consume_returned mbind option_bind].
    destruct (mc_write_pos b <=? rp); cbn [run_alone consume_step consume_returned mbind option_bind]; [done|].
    destruct (read_slot (slot_of b rp) b) as [x|]; [|done]. cbn [run_alone consume_step consume_returned mbind option_bind].
    unfold store_read_pos. rewrite E. cbn [run_alone consume_step consume_returned mbind option_bind]. unfold store_refcount, slot_of.
    cbn [mc_refcounts mc_mask]. by destruct (mc_refcounts b !! _).
Qed.

Section Progress.
Context {T : Type} `{!EqDecision T}.

Lemma publisher_moves capacity n (a : list T * list nat) s : multicast_ok capacity n a s → publish_returned (ms_publisher s) = false →
  is_Some (publish_step (ms_publisher s) (ms_buffer s)).
Proof.
  intros [Hs Hw Hp Hsl Hc Hpu Hn Ht Hcs] Hr. destruct s as [b pu cs]. cbn [ms_buffer ms_publisher ms_consumers] in *.
  destruct pu as [v|v p|v p|v p|v p|]; cbn [publish_step publish_ok counted] in *; try done; try (by eexists).
  - subst p. rewrite Z.add_0_r in Hc. rewrite (counts_at_end _ _ _ _ _ _ Hs Hc eq_refl). cbn [mbind option_bind]. by destruct (negb _).
  - by destruct (write_slot_some _ _ _ p v Hs) as (b1 & -> & _).
  - by destruct (store_refcount_some _ _ _ p (mc_consumer_count b) Hs) as (b1 & -> & _).
Qed.

Lemma consumer_steps capacity n (a : list T * list nat) s i pc : multicast_ok capacity n a s → ms_consumers s !! i = Some pc →
  consume_returned pc = false → is_Some (consume_step i pc (ms_buffer s)).
Proof.
  intros Hok Hi Hr. destruct s as [b pu cs], a as [log pos]. cbn [ms_buffer ms_consumers] in *.
  destruct (consumer_at _ _ _ _ _ _ _ _ Hok Hi) as (p & rp & Hp & Hrp & Hpc). cbn [fst snd] in *.
  destruct pc as [|q|q|q v|q v|]; cbn [consume_step consume_ok] in *; try done.
  - by rewrite Hrp.
  - by destruct (_ <=? _).
  - destruct Hpc as (-> & _ & Hlt). destruct (slot_readable _ _ _ _ _ _ _ _ _ Hok Hp Hlt) as [-> _].
    by destruct (lookup_lt_is_Some_2 log p Hlt) as [v ->].
  - unfold store_read_pos. by rewrite Hrp.
  - destruct Hpc as (-> & _ & Hv). destruct (slot_readable _ _ _ _ _ _ _ _ _ Hok Hp (lookup_lt_Some _ _ _ Hv)) as (_ & Hwin & _).
    pose proof (mo_shape _ _ _ _ Hok) as Hs. pose proof (mo_counts _ _ _ _ Hok _ Hwin) as Hc. cbn [ms_buffer fst snd] in *.
    destruct (store_refcount_some _ _ _ (Z.of_nat p) (wrap_u32 (readers pos (Z.of_nat p) - 1)) Hs) as (b1 & E1 & _).
    rewrite (slot_of_mod _ _ _ _ Hs) in *. rewrite Hc. cbn [mbind option_bind]. by rewrite E1.
Qed.

Lemma no_race capacity n (a : list T * list nat) b v p cs i rp : multicast_ok capacity n a (mkMsys b (PbWrite v p) cs) →
  cs !! i = Some (CoRead rp) → slot_of b p ≠ slot_of b rp.
Proof.
  intros Hok Hi E. destruct a as [log pos]. destruct (consumer_at _ _ _ _ _ _ _ _ Hok Hi) as (q & r & Hq & _ & -> & _ & Hlt). cbn [fst snd] in *.
  pose proof (mo_shape _ _ _ _ Hok) as Hs. pose proof (mo_publisher _ _ _ _ Hok) as [-> Hroom]. cbn [ms_buffer fst snd] in *.
  rewrite !(slot_of_mod _ _ _ _ Hs) in E. rewrite Forall_lookup in Hroom. specialize (Hroom _ _ Hq). cbn in Hroom.
  apply (window_mod_inj capacity (zlen log + 1 - capacity)) in E; lia.
Qed.
End Progress.

(** [C21]: The multicast buffer is a log that every consumer reads from its start. In
    every interleaving of the writer with any number of consumers that makes fewer
    than 2^64 publications, the calls take effect one at a time: a value is published
    exactly when no consumer is a whole buffer behind, each consumer receives exactly
    what was published, in order, once, and is told that there is nothing exactly when
    it has read everything. No call panics, reads a slot that was never written or
    gets stuck, and the writer never writes the slot a consumer is reading. *)
Theorem multicast_linearizable {T} `{!EqDecision T} capacity n b0 tr (s : multicast_sys T) :
  MulticastBuffer_new capacity n = Some b0 → Z.of_nat n < 4294967296 →
  ltrace multicast_step (multicast_start b0) tr s → zlen (publishes tr) < u64_MOD →
  (∃ log pos, spec_run (multicast_spec capacity) ([], replicate n 0%nat) tr = Some (log, pos) ∧ log = publishes tr ∧
     ∀ i p, pos !! i = Some p → consumed i tr = take p log ∧ zlen log <= Z.of_nat p + capacity) ∧
  (publish_returned (ms_publisher s) = false → is_Some (publish_step (ms_publisher s) (ms_buffer s))) ∧
  (∀ i pc, ms_consumers s !! i = Some pc → consume_returned pc = false → is_Some (consume_step i pc (ms_buffer s))) ∧
  (∀ v p i rp, ms_publisher s = PbWrite v p → ms_consumers s !! i = Some (CoRead rp) →
     slot_of (ms_buffer s) p ≠ slot_of (ms_buffer s) rp).
Proof.
  intros Hnew Hn Htr Hp. destruct (multicast_run_ok _ _ _ _ _ Hnew Hn Htr Hp) as (log & pos & Hrun & Hok).
  destruct (spec_prefixes _ _ _ _ _ Hrun) as [Hlog Hpos]. split_and!.
  - exists log, pos. split_and!; [done|done|]. intros i p Hi. split; [by apply Hpos|].
    pose proof (mo_pos _ _ _ _ Hok) as Hb. rewrite Forall_lookup in Hb. specialize (Hb _ _ Hi). cbn in Hb. lia.
  - by eapply publisher_moves.
  - intros i pc. by eapply consumer_steps.
  - intros v p i rp Epu. destruct s as [b pu cs]. cbn in *. subst pu. by eapply no_race.
Qed.

(** ** Schedules *)

Inductive choice {T : Type} := CallPublish (v : T) | StepPublish | CallConsume (i : nat) | StepConsume (i : nat).
Arguments choice : clear implicits.

Definition run_choice {T} (c : choice T) (s : multicast_sys T) : option (multicast_sys T * option (multicast_event T)) :=
  let '(mkMsys b pu cs) := s in
  match c with
  | CallPublish v => if publish_returned pu then Some (mkMsys b (PbStart v) cs, None) else None
  | StepPublish => '(b, pu, o) ← publish_step pu b; Some (mkMsys b pu cs, o)
  | CallConsume i => pc ← cs !! i; if consume_returned pc then Some (mkMsys b pu (<[i := CoStart]> cs), None) else None
  | StepConsume i => pc ← cs !! i; '(b, pc, o) ← consume_step i pc b; Some (mkMsys b pu (<[i := pc]> cs), o)
  end.
Fixpoint run_choices {T} (l : list (choice T)) (s : multicast_sys T) : option (multicast_sys T * list (multicast_event T)) :=
  match l with
  | [] => Some (s, [])
  | c :: l => '(s, o) ← run_choice c s; '(s, tr) ← run_choices l s; Some (s, option_list o ++ tr)
  end.

Lemma run_choice_step {T} (c : choice T) s s' o : run_choice c s = Some (s', o) → multicast_step s o s'.
Proof.
  destruct s as [b pu cs], c as [v| |i|i]; cbn [run_choice].
  - destruct pu; cbn; try done. intros [= <- <-]. constructor.
  - destruct (publish_step pu b) as [[[b' pu'] o']|] eqn:E; cbn [mbind option_bind]; [|done]. intros [= <- <-]. by constructor.
  - destruct (cs !! i) as [pc|] eqn:E; cbn [mbind option_bind]; [|done]. destruct pc; cbn; try done. intros [= <- <-]. by econstructor.
  - destruct (cs !! i) as [pc|] eqn:E; cbn [mbind option_bind]; [|done].
    destruct (consume_step i pc b) as [[[b' pc'] o']|] eqn:E'; cbn [mbind option_bind]; [|done]. intros [= <- <-]. by econstructor.
Qed.
Lemma run_choices_trace {T} (l : list (choice T)) : ∀ s s' tr, run_choices l s = Some (s', tr) → ltrace multicast_step s tr s'.
Proof.
  induction l as [|c l IH]; intros s s' tr; cbn [run_choices]; [intros [= <- <-]; constructor|].
  destruct (run_choice c s) as [[s1 o]|] eqn:E; cbn [mbind option_bind]; [|done]. apply run_choice_step in E.
  destruct (run_choices l s1) as [[s2 tr2]|] eqn:E2; cbn [mbind option_bind]; [|done]. intros [= <- <-]. apply IH in E2.
  destruct o as [e|]; cbn [option_list app]; [by eapply ltrace_event_l|by eapply ltrace_tau_l].
Qed.

(** A buffer with one slot: consumer 1 reads 7 while the writer is told twice that the
    buffer is full, the second time after consumer 0 has read the slot but before it
    has released it. *)
Definition one_slot : list (choice Z) :=
  [CallPublish 7; StepPublish; StepPublish; StepPublish; StepPublish; StepPublish;
   CallConsume 1; CallConsume 0; StepConsume 1; StepConsume 0; StepConsume 1; StepConsume 0; CallPublish 8; StepPublish;
   StepConsume 1; StepPublish; StepConsume 1; StepConsume 1; StepConsume 0; StepConsume 0; CallPublish 8; StepPublish; StepPublish;
   StepConsume 0; CallPublish 9; StepPublish; StepPublish; CallConsume 0; StepConsume 0; StepConsume 0;
   StepPublish; StepPublish; StepPublish].

Definition one_slot_start : multicast_sys Z := multicast_start (mkMulticast [None] [0] 0 [0; 0] 1 0 2).
Definition one_slot_end : multicast_sys Z := from_option fst one_slot_start (run_choices one_slot one_slot_start).
Definition one_slot_events : list (multicast_event Z) :=
  [MPublish 7; MFull 8; MConsume 1 7; MFull 8; MConsume 0 7; MEmpty 0; MPublish 9].
Lemma one_slot_trace : ltrace multicast_step one_slot_start one_slot_events one_slot_end.
Proof. apply (run_choices_trace one_slot). vm_compute. reflexivity. Qed.

Lemma multicast_linearizable_witness : ∃ b0, MulticastBuffer_new (T := Z) 1 2 = Some b0 ∧
  ltrace multicast_step (multicast_start b0) one_slot_events one_slot_end ∧ consumed 0 one_slot_events = [7] ∧
  ∃ log pos, spec_run (multicast_spec 1) ([], [0; 0]%nat) one_slot_events = Some (log, pos) ∧ log = [7; 9].
Proof.
  eexists. split; [reflexivity|]. split; [exact one_slot_trace|]. split; [reflexivity|].
  destruct (multicast_linearizable 1 2 _ one_slot_events one_slot_end eq_refl eq_refl one_slot_trace eq_refl)
    as [(log & pos & Hrun & Hlog & _) _].
  exists log, pos. split; [exact Hrun|exact Hlog].
Defined.
