(* ===== verification/ChangelogBuffers.v ===== *)
(** * Buffers of changelog references

    operator/changelog.rs: [ChangelogRef] and [ChangelogBuffer], a vector that is
    allocated once and reused; dag/changelog.rs: [DagChangelogPropagator], a buffer
    for every node of a dag. [None] is a panic, an index outside a vector. *)

From S2P Require Import Prelude WindowCore DagTopology.

(** ** References *)

Record ChangelogRef := mkRef {
  cr_batch_offset : Z;
  cr_row_index : Z;
  cr_weight : Z;
  cr_operation_raw : Z }.

Definition ChangelogRef_new (batch_offset row_index weight : Z) (operation : CdcOperation) : ChangelogRef :=
  mkRef batch_offset row_index weight (CdcOperation_to_u8 operation).
Definition ChangelogRef_insert (batch_offset row_index : Z) : ChangelogRef := ChangelogRef_new batch_offset row_index 1 CdcInsert.
Definition ChangelogRef_delete (batch_offset row_index : Z) : ChangelogRef := ChangelogRef_new batch_offset row_index (-1) CdcDelete.
Definition ChangelogRef_update_before (batch_offset row_index : Z) : ChangelogRef :=
  ChangelogRef_new batch_offset row_index (-1) CdcUpdateBefore.
Definition ChangelogRef_update_after (batch_offset row_index : Z) : ChangelogRef :=
  ChangelogRef_new batch_offset row_index 1 CdcUpdateAfter.
Definition ChangelogRef_operation (r : ChangelogRef) : CdcOperation := CdcOperation_from_u8 (cr_operation_raw r).
Definition ChangelogRef_is_insert (r : ChangelogRef) : bool := 0 <? cr_weight r.
Definition ChangelogRef_is_delete (r : ChangelogRef) : bool := cr_weight r <? 0.

(** ** The buffer *)

Record ChangelogBuffer := mkBuffer {
  cb_refs : list ChangelogRef;
  cb_len : nat;
  cb_capacity : nat }.

Definition ChangelogBuffer_with_capacity (capacity : nat) : ChangelogBuffer :=
  mkBuffer (replicate capacity (mkRef 0 0 0 0)) 0 capacity.
Definition ChangelogBuffer_default : ChangelogBuffer := ChangelogBuffer_with_capacity 1024.

(** [self.refs[i] = r] *)
Definition set_ref (i : nat) (r : ChangelogRef) (refs : list ChangelogRef) : option (list ChangelogRef) :=
  if decide (i < length refs)%nat then Some (<[i := r]> refs) else None.

Definition ChangelogBuffer_push (changelog_ref : ChangelogRef) (b : ChangelogBuffer) : option (ChangelogBuffer * bool) :=
  if decide (cb_len b < cb_capacity b)%nat then
    refs ← set_ref (cb_len b) changelog_ref (cb_refs b);
    Some (mkBuffer refs (cb_len b + 1) (cb_capacity b), true)
  else Some (b, false).

Definition ChangelogBuffer_push_retraction (batch_offset old_row_index new_row_index : Z) (b : ChangelogBuffer)
  : option (ChangelogBuffer * bool) :=
  if decide (cb_len b + 2 <= cb_capacity b)%nat then
    refs ← set_ref (cb_len b) (ChangelogRef_update_before batch_offset old_row_index) (cb_refs b);
    refs ← set_ref (cb_len b + 1) (ChangelogRef_update_after batch_offset new_row_index) refs;
    Some (mkBuffer refs (cb_len b + 2) (cb_capacity b), true)
  else Some (b, false).

(** [&self.refs[..len]] *)
Definition ChangelogBuffer_as_slice (b : ChangelogBuffer) : option (list ChangelogRef) :=
  if decide (cb_len b <= length (cb_refs b))%nat then Some (take (cb_len b) (cb_refs b)) else None.
(** The buffer is empty from the call on; the iterator yields the old references. *)
Definition ChangelogBuffer_drain (b : ChangelogBuffer) : option (ChangelogBuffer * list ChangelogRef) :=
  refs ← ChangelogBuffer_as_slice b;
  Some (mkBuffer (cb_refs b) 0 (cb_capacity b), refs).
Definition ChangelogBuffer_is_empty (b : ChangelogBuffer) : bool := bool_decide (cb_len b = 0%nat).
Definition ChangelogBuffer_is_full (b : ChangelogBuffer) : bool := bool_decide (cb_capacity b <= cb_len b)%nat.
Definition ChangelogBuffer_available (b : ChangelogBuffer) : nat := cb_capacity b - cb_len b.
Definition ChangelogBuffer_clear (b : ChangelogBuffer) : ChangelogBuffer := mkBuffer (cb_refs b) 0 (cb_capacity b).

(** ** The propagator *)

Record DagChangelogPropagator := mkPropagator {
  dp_buffers : list ChangelogBuffer;
  dp_enabled : list bool;
  dp_slot_count : nat;
  dp_globally_enabled : bool }.

Definition DagChangelogPropagator_from_dag {DataType} (dag : StreamingDag (DataType:=DataType)) (capacity : nat)
  : DagChangelogPropagator :=
  let max_id := match list_max (map_to_list (sd_nodes dag)).*1 with Some m => S (Z.to_nat m) | None => 0%nat end in
  mkPropagator (replicate max_id (ChangelogBuffer_with_capacity capacity)) (replicate max_id true) max_id true.
Definition DagChangelogPropagator_disabled (slot_count : nat) : DagChangelogPropagator :=
  mkPropagator (replicate slot_count (ChangelogBuffer_with_capacity 0)) (replicate slot_count false) slot_count false.

Definition with_buffers (buffers : list ChangelogBuffer) (p : DagChangelogPropagator) : DagChangelogPropagator :=
  mkPropagator buffers (dp_enabled p) (dp_slot_count p) (dp_globally_enabled p).

(** The guards and the call on the node's buffer that [record] and
    [record_retraction] share. *)
Definition record_with (call : ChangelogBuffer → option (ChangelogBuffer * bool)) (node : Z) (p : DagChangelogPropagator)
  : option (DagChangelogPropagator * bool) :=
  if negb (dp_globally_enabled p) then Some (p, false) else
  let idx := Z.to_nat node in
  if decide (dp_slot_count p <= idx)%nat then Some (p, false) else
  enabled ← dp_enabled p !! idx;
  if negb enabled then Some (p, false) else
  buffer ← dp_buffers p !! idx;
  '(buffer, recorded) ← call buffer;
  Some (with_buffers (<[idx := buffer]> (dp_buffers p)) p, recorded).
Definition DagChangelogPropagator_record (node : Z) (changelog_ref : ChangelogRef) (p : DagChangelogPropagator) :=
  record_with (ChangelogBuffer_push changelog_ref) node p.
Definition DagChangelogPropagator_record_retraction (node batch_offset old_row_index new_row_index : Z)
    (p : DagChangelogPropagator) :=
  record_with (ChangelogBuffer_push_retraction batch_offset old_row_index new_row_index) node p.

Definition DagChangelogPropagator_drain_node (node : Z) (p : DagChangelogPropagator)
  : option (DagChangelogPropagator * list ChangelogRef) :=
  let idx := Z.to_nat node in
  if decide (dp_slot_count p <= idx)%nat then Some (p, []) else
  buffer ← dp_buffers p !! idx;
  '(buffer, refs) ← ChangelogBuffer_drain buffer;
  Some (with_buffers (<[idx := buffer]> (dp_buffers p)) p, refs).
Definition DagChangelogPropagator_drain_all (p : DagChangelogPropagator) : DagChangelogPropagator :=
  with_buffers (ChangelogBuffer_clear <$> dp_buffers p) p.
Definition DagChangelogPropagator_has_pending (p : DagChangelogPropagator) : bool :=
  if negb (dp_globally_enabled p) then false
  else existsb (λ b, negb (ChangelogBuffer_is_empty b)) (dp_buffers p).
Definition DagChangelogPropagator_pending_count (node : Z) (p : DagChangelogPropagator) : option nat :=
  let idx := Z.to_nat node in
  if decide (dp_slot_count p <= idx)%nat then Some 0%nat else cb_len <$> dp_buffers p !! idx.
Definition DagChangelogPropagator_set_node_enabled (node : Z) (enabled : bool) (p : DagChangelogPropagator)
  : option DagChangelogPropagator :=
  let idx := Z.to_nat node in
  if decide (idx < dp_slot_count p)%nat then
    _ ← dp_enabled p !! idx;
    Some (mkPropagator (dp_buffers p) (<[idx := enabled]> (dp_enabled p)) (dp_slot_count p) (dp_globally_enabled p))
  else Some p.
Definition DagChangelogPropagator_set_globally_enabled (enabled : bool) (p : DagChangelogPropagator) : DagChangelogPropagator :=
  mkPropagator (dp_buffers p) (dp_enabled p) (dp_slot_count p) enabled.

(** ** The buffer as a bounded list *)

Record buf_holds (capacity : nat) (b : ChangelogBuffer) (l : list ChangelogRef) : Prop := {
  bh_len : cb_len b = length l;
  bh_refs : take (length l) (cb_refs b) = l;
  bh_alloc : length (cb_refs b) = capacity;
  bh_capacity : cb_capacity b = capacity;
  bh_bound : (length l <= capacity)%nat }.

Lemma buf_holds_new capacity : buf_holds capacity (ChangelogBuffer_with_capacity capacity) [].
Proof. split; cbn; try done; [by rewrite length_replicate|lia]. Qed.

Lemma buf_holds_set capacity b l r : buf_holds capacity b l → (length l < capacity)%nat →
  ∃ refs, set_ref (cb_len b) r (cb_refs b) = Some refs ∧
    buf_holds capacity (mkBuffer refs (cb_len b + 1) (cb_capacity b)) (l ++ [r]).
Proof.
  intros [Hlen Hr Ha Hc Hb] Hlt. unfold set_ref. rewrite Hlen, decide_True by lia. eexists. split; [done|].
  split; cbn [cb_len cb_refs cb_capacity]; rewrite ?length_app, ?length_insert; cbn [length]; try lia; try done.
  rewrite Nat.add_1_r. rewrite (take_S_r _ _ r) by (apply list_lookup_insert_eq; lia). by rewrite take_insert_ge, Hr by lia.
Qed.

Lemma push_holds capacity b l r : buf_holds capacity b l →
  ∃ b', ChangelogBuffer_push r b = Some (b', bool_decide (length l + 1 <= capacity)%nat) ∧
    buf_holds capacity b' (if decide (length l + 1 <= capacity)%nat then l ++ [r] else l).
Proof.
  intros Hb. unfold ChangelogBuffer_push. pose proof Hb as [Hlen _ _ Hc _].
  destruct (decide (length l < capacity)%nat) as [Hlt|Hge].
  - rewrite (decide_True (P := (cb_len b < cb_capacity b)%nat)) by lia.
    rewrite (decide_True (P := (length l + 1 <= capacity)%nat)), bool_decide_eq_true_2 by lia.
    destruct (buf_holds_set capacity b l r Hb Hlt) as (refs & -> & Hb'). eexists. split; [done|exact Hb'].
  - rewrite (decide_False (P := (cb_len b < cb_capacity b)%nat)) by lia.
    rewrite (decide_False (P := (length l + 1 <= capacity)%nat)), bool_decide_eq_false_2 by lia. by eexists.
Qed.

Lemma push_retraction_holds capacity b l bo o n : buf_holds capacity b l →
  ∃ b', ChangelogBuffer_push_retraction bo o n b = Some (b', bool_decide (length l + 2 <= capacity)%nat) ∧
    buf_holds capacity b' (if decide (length l + 2 <= capacity)%nat
                           then l ++ [ChangelogRef_update_before bo o; ChangelogRef_update_after bo n] else l).
Proof.
  intros Hb. unfold ChangelogBuffer_push_retraction. pose proof Hb as [Hlen _ _ Hc _].
  destruct (decide (length l + 2 <= capacity)%nat) as [Hle|Hgt].
  - rewrite (decide_True (P := (cb_len b + 2 <= cb_capacity b)%nat)), bool_decide_eq_true_2 by lia.
    destruct (buf_holds_set capacity b l (ChangelogRef_update_before bo o) Hb) as (refs & -> & Hb1); [lia|]. cbn [mbind option_bind].
    destruct (buf_holds_set capacity _ _ (ChangelogRef_update_after bo n) Hb1) as (refs2 & E2 & Hb2); [rewrite length_app; cbn [length]; lia|].
    cbn [cb_len cb_refs cb_capacity] in *. rewrite E2. cbn [mbind option_bind]. eexists. split; [done|].
    rewrite <- app_assoc in Hb2. cbn [app] in Hb2. by replace (cb_len b + 2)%nat with (cb_len b + 1 + 1)%nat by lia.
  - rewrite (decide_False (P := (cb_len b + 2 <= cb_capacity b)%nat)), bool_decide_eq_false_2 by lia. by eexists.
Qed.

Lemma clear_holds capacity b l : buf_holds capacity b l → buf_holds capacity (ChangelogBuffer_clear b) [].
Proof. intros [Hlen Hr Ha Hc Hb]. split; cbn; try done; lia. Qed.

Lemma drain_holds capacity b l : buf_holds capacity b l →
  ChangelogBuffer_drain b = Some (ChangelogBuffer_clear b, l).
Proof.
  intros [Hlen Hr Ha Hc Hb]. unfold ChangelogBuffer_drain, ChangelogBuffer_as_slice. rewrite decide_True by lia.
  cbn [mbind option_bind]. by rewrite Hlen, Hr.
Qed.

(** ** The propagator as a queue for each node *)

Record PropagatorSpec := mkPropSpec {
  ps_queues : list (list ChangelogRef);
  ps_enabled : list bool;
  ps_global : bool }.

Inductive PropOp :=
  | PRecord (node : Z) (r : ChangelogRef)
  | PRetraction (node batch_offset old_row new_row : Z)
  | PDrain (node : Z)
  | PDrainAll
  | PSetNode (node : Z) (enabled : bool)
  | PSetGlobal (enabled : bool).

Definition prop_step (op : PropOp) (p : DagChangelogPropagator) : option (DagChangelogPropagator * (bool + list ChangelogRef)) :=
  match op with
  | PRecord node r => '(p, b) ← DagChangelogPropagator_record node r p; Some (p, inl b)
  | PRetraction node bo o n => '(p, b) ← DagChangelogPropagator_record_retraction node bo o n p; Some (p, inl b)
  | PDrain node => '(p, refs) ← DagChangelogPropagator_drain_node node p; Some (p, inr refs)
  | PDrainAll => Some (DagChangelogPropagator_drain_all p, inr [])
  | PSetNode node enabled => p ← DagChangelogPropagator_set_node_enabled node enabled p; Some (p, inr [])
  | PSetGlobal enabled => Some (DagChangelogPropagator_set_globally_enabled enabled p, inr [])
  end.
Fixpoint prop_run (ops : list PropOp) (p : DagChangelogPropagator)
  : option (DagChangelogPropagator * list (bool + list ChangelogRef)) :=
  match ops with
  | [] => Some (p, [])
  | op :: ops => '(p, r) ← prop_step op p; '(p, rs) ← prop_run ops p; Some (p, r :: rs)
  end.

(** References are queued together or not at all. *)
Definition spec_record (capacity : nat) (node : Z) (refs : list ChangelogRef) (a : PropagatorSpec) : PropagatorSpec * bool :=
  match ps_queues a !! Z.to_nat node, ps_enabled a !! Z.to_nat node with
  | Some q, Some true =>
      if ps_global a && bool_decide (length q + length refs <= capacity)%nat
      then (mkPropSpec (<[Z.to_nat node := q ++ refs]> (ps_queues a)) (ps_enabled a) (ps_global a), true)
      else (a, false)
  | _, _ => (a, false)
  end.
Definition spec_prop_step (capacity : nat) (op : PropOp) (a : PropagatorSpec) : PropagatorSpec * (bool + list ChangelogRef) :=
  match op with
  | PRecord node r => let '(a, b) := spec_record capacity node [r] a in (a, inl b)
  | PRetraction node bo o n =>
      let '(a, b) := spec_record capacity node [ChangelogRef_update_before bo o; ChangelogRef_update_after bo n] a in (a, inl b)
  | PDrain node =>
      (mkPropSpec (<[Z.to_nat node := []]> (ps_queues a)) (ps_enabled a) (ps_global a),
       inr (default [] (ps_queues a !! Z.to_nat node)))
  | PDrainAll => (mkPropSpec ((λ _, []) <$> ps_queues a) (ps_enabled a) (ps_global a), inr [])
  | PSetNode node enabled => (mkPropSpec (ps_queues a) (<[Z.to_nat node := enabled]> (ps_enabled a)) (ps_global a), inr [])
  | PSetGlobal enabled => (mkPropSpec (ps_queues a) (ps_enabled a) enabled, inr [])
  end.
Fixpoint spec_prop_run (capacity : nat) (ops : list PropOp) (a : PropagatorSpec)
  : PropagatorSpec * list (bool + list ChangelogRef) :=
  match ops with
  | [] => (a, [])
  | op :: ops => let '(a, r) := spec_prop_step capacity op a in let '(a, rs) := spec_prop_run capacity ops a in (a, r :: rs)
  end.

Record prop_ok (capacity : nat) (p : DagChangelogPropagator) (a : PropagatorSpec) : Prop := {
  pok_buffers : Forall2 (buf_holds capacity) (dp_buffers p) (ps_queues a);
  pok_enabled : dp_enabled p = ps_enabled a;
  pok_global : dp_globally_enabled p = ps_global a;
  pok_slots : dp_slot_count p = length (dp_buffers p);
  pok_flags : length (dp_enabled p) = length (dp_buffers p) }.

Lemma record_with_ok capacity call refs node p a :
  (∀ b l, buf_holds capacity b l → ∃ b', call b = Some (b', bool_decide (length l + length refs <= capacity)%nat) ∧
     buf_holds capacity b' (if decide (length l + length refs <= capacity)%nat then l ++ refs else l)) →
  prop_ok capacity p a →
  ∃ p', record_with call node p = Some (p', (spec_record capacity node refs a).2) ∧ prop_ok capacity p' (spec_record capacity node refs a).1.
Proof.
  intros Hcall Hp. pose proof Hp as [Hb He Hg Hs Hf]. unfold record_with, spec_record. rewrite Hg.
  destruct (ps_global a) eqn:Eg; cbn [negb andb].
  2:{ exists p. destruct (ps_queues a !! Z.to_nat node), (ps_enabled a !! Z.to_nat node) as [[]|]; done. }
  set (idx := Z.to_nat node). case_decide as Hidx.
  - rewrite (lookup_ge_None_2 (ps_queues a)) by (rewrite <- (Forall2_length _ _ _ Hb); lia). by exists p.
  - destruct (lookup_lt_is_Some_2 (dp_buffers p) idx) as [b Eb]; [lia|].
    destruct (Forall2_lookup_l _ _ _ _ _ Hb Eb) as (q & Eq & Hq).
    destruct (lookup_lt_is_Some_2 (dp_enabled p) idx) as [en Een]; [lia|]. rewrite Eq, <- He, Een. cbn [mbind option_bind].
    destruct en; cbn [negb]; [|by exists p]. rewrite Eb. cbn [mbind option_bind].
    destruct (Hcall b q Hq) as (b' & -> & Hb'). cbn [mbind option_bind]. eexists. split.
    + case_bool_decide; done.
    + case_decide as Hc; [rewrite bool_decide_eq_true_2 by done|rewrite bool_decide_eq_false_2 by done];
        split; cbn [fst with_buffers dp_buffers dp_enabled dp_globally_enabled dp_slot_count ps_queues ps_enabled ps_global];
        rewrite ?length_insert; try congruence.
      * by apply Forall2_insert.
      * rewrite <- (list_insert_id (ps_queues a) idx q Eq). by apply Forall2_insert.
Qed.

Lemma prop_step_ok capacity op p a : prop_ok capacity p a →
  ∃ p', prop_step op p = Some (p', (spec_prop_step capacity op a).2) ∧ prop_ok capacity p' (spec_prop_step capacity op a).1.
Proof.
  intros Hp. pose proof Hp as [Hb He Hg Hs Hf]. destruct op as [node r|node bo o n|node| |node en|en]; cbn [prop_step spec_prop_step].
  - unfold DagChangelogPropagator_record.
    destruct (record_with_ok capacity (ChangelogBuffer_push r) [r] node p a) as (p' & -> & Hp'); [|done|].
    { intros b l Hl. by apply push_holds. }
    exists p'. by destruct (spec_record capacity node [r] a).
  - unfold DagChangelogPropagator_record_retraction. set (refs := [ChangelogRef_update_before bo o; ChangelogRef_update_after bo n]).
    destruct (record_with_ok capacity (ChangelogBuffer_push_retraction bo o n) refs node p a) as (p' & -> & Hp'); [|done|].
    { intros b l Hl. by apply push_retraction_holds. }
    exists p'. by destruct (spec_record capacity node refs a).
  - unfold DagChangelogPropagator_drain_node. set (idx := Z.to_nat node). case_decide as Hidx.
    + assert (Hq : (length (ps_queues a) <= idx)%nat) by (rewrite <- (Forall2_length _ _ _ Hb); lia).
      rewrite (lookup_ge_None_2 (ps_queues a)), list_insert_ge by done. exists p. by destruct a.
    + destruct (lookup_lt_is_Some_2 (dp_buffers p) idx) as [b Eb]; [lia|].
      destruct (Forall2_lookup_l _ _ _ _ _ Hb Eb) as (q & Eq & Hq). rewrite Eb, Eq. cbn [mbind option_bind].
      rewrite (drain_holds capacity b q Hq). cbn [mbind option_bind]. eexists. split; [done|].
      split; cbn; rewrite ?length_insert; try done. apply Forall2_insert; [done|]. by eapply clear_holds.
  - eexists. split; [done|]. split; cbn; rewrite ?length_fmap; try done. apply Forall2_fmap.
    eapply Forall2_impl; [exact Hb|]. intros b l Hl. by eapply clear_holds.
  - unfold DagChangelogPropagator_set_node_enabled. set (idx := Z.to_nat node). case_decide as Hidx.
    + destruct (lookup_lt_is_Some_2 (dp_enabled p) idx) as [b Eb]; [lia|]. rewrite Eb. cbn [mbind option_bind]. eexists.
      split; [done|]. split; cbn; rewrite ?length_insert; try done. by rewrite He.
    + cbn [mbind option_bind]. rewrite (list_insert_ge (ps_enabled a)) by (rewrite <- He; lia). exists p. split; [done|]. by destruct a.
  - eexists. split; [done|]. by split.
Qed.

Lemma prop_run_ok capacity ops : ∀ p a, prop_ok capacity p a →
  ∃ p', prop_run ops p = Some (p', (spec_prop_run capacity ops a).2) ∧ prop_ok capacity p' (spec_prop_run capacity ops a).1.
Proof.
  induction ops as [|op ops IH]; intros p a Hp; cbn [prop_run spec_prop_run]; [by exists p|].
  destruct (prop_step_ok capacity op p a Hp) as (p1 & -> & Hp1). destruct (spec_prop_step capacity op a) as [a1 r].
  destruct (IH p1 a1 Hp1) as (p2 & E & Hp2). cbn [mbind option_bind fst snd]. rewrite E.
  exists p2. by destruct (spec_prop_run capacity ops a1).
Qed.

Definition slots_of {DataType} (dag : StreamingDag (DataType:=DataType)) : nat :=
  match list_max (map_to_list (sd_nodes dag)).*1 with Some m => S (Z.to_nat m) | None => 0%nat end.

(** [C31]: The buffers of a dag are bounded queues. For any sequence of records,
    retractions, drains and switches the propagator of a dag never panics and
    answers as one queue per node does: a reference is recorded exactly when
    recording is on for the node and there is room, a retraction pair together or
    not at all, and draining a node returns exactly what was recorded there since
    it was last drained, in order, whatever happens at other nodes. *)
Theorem propagator_refines_queues {DataType} (dag : StreamingDag (DataType:=DataType)) capacity ops :
  ∃ p a rs, prop_run ops (DagChangelogPropagator_from_dag dag capacity) = Some (p, rs) ∧
    spec_prop_run capacity ops (mkPropSpec (replicate (slots_of dag) []) (replicate (slots_of dag) true) true) = (a, rs) ∧
    (∀ node, DagChangelogPropagator_pending_count node p = Some (length (default [] (ps_queues a !! Z.to_nat node)))) ∧
    Forall (λ q, (length q <= capacity)%nat) (ps_queues a).
Proof.
  destruct (prop_run_ok capacity ops (DagChangelogPropagator_from_dag dag capacity)
    (mkPropSpec (replicate (slots_of dag) []) (replicate (slots_of dag) true) true)) as (p & E & Hp).
  { split; cbn; rewrite ?length_replicate; try done. fold (slots_of dag). apply Forall2_replicate, buf_holds_new. }
  destruct (spec_prop_run capacity ops _) as [a rs]. exists p, a, rs. split; [exact E|]. split; [done|]. cbn [fst] in Hp.
  destruct Hp as [Hb He Hg Hs Hf]. split.
  - intros node. unfold DagChangelogPropagator_pending_count. set (idx := Z.to_nat node). case_decide as Hidx.
    + by rewrite (lookup_ge_None_2 (ps_queues a)) by (rewrite <- (Forall2_length _ _ _ Hb); lia).
    + destruct (lookup_lt_is_Some_2 (dp_buffers p) idx) as [b Eb]; [lia|].
      destruct (Forall2_lookup_l _ _ _ _ _ Hb Eb) as (q & Eq & Hq). rewrite Eb, Eq. cbn. by rewrite (bh_len _ _ _ Hq).
  - eapply Forall2_Forall_r; [exact Hb|]. apply Forall_forall. intros b _ l Hl. apply Hl.
Qed.

(** References recorded before recording is switched off are still there, but
    [has_pending] denies them. *)
Example pending_hidden_when_off :
  let p := DagChangelogPropagator_from_dag (DataType:=unit) (StreamingDag_add_node "n" NSource [] StreamingDag_new).1 4 in
  (λ x, (DagChangelogPropagator_has_pending x.1, DagChangelogPropagator_pending_count 0 x.1)) <$>
    prop_run [PRecord 0 (ChangelogRef_insert 1 2); PSetGlobal false] p = Some (false, Some 1%nat).
Proof. vm_compute. reflexivity. Qed.
