(* ===== verification/MvRegistry.v ===== *)
(** * The registry of materialized views

    mv/registry.rs and mv/error.rs: [MvRegistry] keeps the views by name, the
    base tables, and two dependency maps that are each other's inverse; it
    recomputes a topological order of the views after every change. dag/topology.rs:
    [StreamingDag::from_mv_registry] turns a registry into a streaming dag.

    A [FxHashSet<String>] is a [gset string]; where the code iterates over one
    (or over the keys of a map), the order is the class [StrOrder], of which only
    the law that it lists every element once is used. The three recursions and the
    two work-list loops carry fuel and answer [None] without it; the fuel given is
    the number of views (paths of the graph have no repetition) or of pushes, and
    the theorems show that the operations always answer.

    [would_create_cycle] keeps its stack with the top first. *)

From stdpp Require Import pretty.
From S2P Require Import Prelude TumblingOp DagTopology.

(** ** Hash sets of strings with their iteration order *)

Class StrOrder := str_iter : gset string → list string.
Class StrOrderLaws `{!StrOrder} : Prop :=
  str_iter_perm : ∀ s : gset string, str_iter s ≡ₚ elements s.

#[global] Instance canonical_str_order : StrOrder := λ s, elements s.
#[global] Instance canonical_str_order_laws : StrOrderLaws.
Proof. by intros s. Qed.

(** ** Data *)

Inductive MvState := MvRunning | MvPaused | MvFailed | MvDropping.

#[global] Instance MvState_eq_dec : EqDecision MvState.
Proof. solve_decision. Defined.

Definition MvState_can_process (s : MvState) : bool := bool_decide (s = MvRunning).
Definition MvState_is_error (s : MvState) : bool := bool_decide (s = MvFailed).

Inductive MvError :=
  | MvDuplicateName (name : string)
  | MvSourceNotFound (name : string)
  | MvCycleDetected (name : string)
  | MvViewNotFound (name : string)
  | MvOperatorNotFound (name : string)
  | MvHasDependents (name : string) (dependents : list string)
  | MvOperatorError (e : OperatorError)
  | MvSerializationError (e : string)
  | MvInvalidState (name : string) (state : MvState)
  | MvWatermarkError (e : string).

Section Registry.
Context {DataType : Type}.

Abbreviation Schema := (list (string * DataType)) (only parsing).

Record MaterializedView := mkMv {
  mv_name : string;
  mv_sql : string;
  mv_sources : list string;
  mv_schema : Schema;
  mv_operator_id : string;
  mv_state : MvState }.

Definition MaterializedView_new (name sql : string) (sources : list string) (schema : Schema)
  : MaterializedView := mkMv name sql sources schema ("mv_" +:+ name)%string MvRunning.

Definition MaterializedView_depends_on (v : MaterializedView) (source : string) : bool :=
  existsb (λ s, bool_decide (s = source)) (mv_sources v).

Definition set_mv_state (s : MvState) (v : MaterializedView) : MaterializedView :=
  mkMv (mv_name v) (mv_sql v) (mv_sources v) (mv_schema v) (mv_operator_id v) s.

Record MvRegistry := mkReg {
  mr_views : gmap string MaterializedView;
  mr_base_tables : gset string;
  mr_dependents : gmap string (gset string);
  mr_dependencies : gmap string (gset string);
  mr_topo_order : list string }.

(** ** Operations *)

Definition MvRegistry_new : MvRegistry := mkReg ∅ ∅ ∅ ∅ [].

Definition MvRegistry_register_base_table (name : string) (r : MvRegistry) : MvRegistry :=
  mkReg (mr_views r) ({[name]} ∪ mr_base_tables r) (mr_dependents r) (mr_dependencies r)
    (mr_topo_order r).

Definition MvRegistry_is_base_table (r : MvRegistry) (name : string) : bool :=
  bool_decide (name ∈ mr_base_tables r).

Definition contains_view (r : MvRegistry) (name : string) : bool :=
  bool_decide (is_Some (mr_views r !! name)).

Definition MvRegistry_get (r : MvRegistry) (name : string) : option MaterializedView :=
  mr_views r !! name.
(** A write of the [state] of a view through [get_mut]. *)
Definition MvRegistry_set_state (name : string) (s : MvState) (r : MvRegistry) : MvRegistry :=
  mkReg (alter (set_mv_state s) name (mr_views r)) (mr_base_tables r) (mr_dependents r)
    (mr_dependencies r) (mr_topo_order r).
Definition MvRegistry_len (r : MvRegistry) : nat := size (mr_views r).
Definition MvRegistry_is_empty (r : MvRegistry) : bool := bool_decide (mr_views r = ∅).

Definition set_topo_order (order : list string) (r : MvRegistry) : MvRegistry :=
  mkReg (mr_views r) (mr_base_tables r) (mr_dependents r) (mr_dependencies r) order.

Section Ordered.
Context `{!StrOrder}.

Definition MvRegistry_get_dependents (r : MvRegistry) (source : string) : list string :=
  match mr_dependents r !! source with Some deps => str_iter deps | None => [] end.
Definition MvRegistry_get_dependencies (r : MvRegistry) (view : string) : list string :=
  match mr_dependencies r !! view with Some deps => str_iter deps | None => [] end.

Fixpoint cycle_loop (fuel : nat) (r : MvRegistry) (new_name : string) (visited : gset string)
    (stack : list string) : option bool :=
  match stack with
  | [] => Some false
  | current :: stack =>
      match fuel with
      | O => None
      | S fuel =>
          if decide (current = new_name) then Some true
          else if decide (current ∈ visited) then cycle_loop fuel r new_name visited stack
          else cycle_loop fuel r new_name ({[current]} ∪ visited)
                 match mr_dependencies r !! current with
                 | Some deps => reverse (str_iter deps) ++ stack
                 | None => stack
                 end
      end
  end.

Definition edge_total (m : gmap string (gset string)) : nat :=
  sum_list_with (λ kd, size kd.2) (map_to_list m).

Definition MvRegistry_would_create_cycle (r : MvRegistry) (new_name : string)
    (sources : list string) : option bool :=
  cycle_loop (length sources + edge_total (mr_dependencies r)) r new_name ∅ (reverse sources).

(** The in-degrees and the initial queue. *)
Definition view_degree (r : MvRegistry) (name : string) : nat :=
  match mr_dependencies r !! name with
  | Some d => length (filter (λ dep, is_Some (mr_views r !! dep)) (str_iter d))
  | None => 0
  end.

Definition init_degree (r : MvRegistry) (st : gmap string nat * list string) (name : string)
  : gmap string nat * list string :=
  let deps := view_degree r name in
  (<[name := deps]> st.1, if decide (deps = 0%nat) then st.2 ++ [name] else st.2).

Definition init_degrees (r : MvRegistry) : gmap string nat * list string :=
  foldl (init_degree r) (∅, []) (str_iter (dom (mr_views r))).

Definition release_dependent (st : gmap string nat * list string) (dep : string)
  : gmap string nat * list string :=
  match st.1 !! dep with
  | Some count =>
      let count := (count - 1)%nat in
      (<[dep := count]> st.1, if decide (count = 0%nat) then st.2 ++ [dep] else st.2)
  | None => st
  end.

Fixpoint topo_loop (fuel : nat) (r : MvRegistry) (in_degree : gmap string nat)
    (queue order : list string) : option (list string) :=
  match queue with
  | [] => Some order
  | name :: queue =>
      match fuel with
      | O => None
      | S fuel =>
          let st := match mr_dependents r !! name with
                    | Some dependents => foldl release_dependent (in_degree, queue) (str_iter dependents)
                    | None => (in_degree, queue)
                    end in
          topo_loop fuel r st.1 st.2 (order ++ [name])
      end
  end.

Definition MvRegistry_update_topo_order (r : MvRegistry) : option MvRegistry :=
  let st := init_degrees r in
  order ← topo_loop (size (mr_views r)) r st.1 st.2 [];
  Some (set_topo_order order r).

(** [entry(key).or_default().insert(value)]. *)
Definition entry_insert (key value : string) (m : gmap string (gset string))
  : gmap string (gset string) := <[key := {[value]} ∪ default ∅ (m !! key)]> m.

Definition link_source (name : string) (r : MvRegistry) (source : string) : MvRegistry :=
  mkReg (mr_views r) (mr_base_tables r) (entry_insert source name (mr_dependents r))
    (entry_insert name source (mr_dependencies r)) (mr_topo_order r).

Definition insert_view (v : MaterializedView) (r : MvRegistry) : MvRegistry :=
  mkReg (<[mv_name v := v]> (mr_views r)) (mr_base_tables r) (mr_dependents r)
    (mr_dependencies r) (mr_topo_order r).

Definition missing_source (r : MvRegistry) (sources : list string) : option string :=
  head (filter (λ s, negb (contains_view r s) && negb (MvRegistry_is_base_table r s) = true) sources).

Definition MvRegistry_register (view : MaterializedView) (r : MvRegistry)
  : option (MvRegistry * (unit + MvError)) :=
  if contains_view r (mv_name view) then Some (r, inr (MvDuplicateName (mv_name view))) else
  match missing_source r (mv_sources view) with
  | Some source => Some (r, inr (MvSourceNotFound source))
  | None =>
      cyclic ← MvRegistry_would_create_cycle r (mv_name view) (mv_sources view);
      if (cyclic : bool) then Some (r, inr (MvCycleDetected (mv_name view))) else
      let r := foldl (link_source (mv_name view)) r (mv_sources view) in
      r ← MvRegistry_update_topo_order (insert_view view r);
      Some (r, inl tt)
  end.

Definition drop_dependent (name : string) (m : gmap string (gset string)) (source : string)
  : gmap string (gset string) := alter (λ deps, deps ∖ {[name]}) source m.

Definition remove_view (name : string) (r : MvRegistry)
  : option (MvRegistry * (MaterializedView + MvError)) :=
  match mr_views r !! name with
  | None => Some (r, inr (MvViewNotFound name))
  | Some view =>
      let dependents :=
        match mr_dependencies r !! name with
        | Some sources => foldl (drop_dependent name) (mr_dependents r) (str_iter sources)
        | None => mr_dependents r
        end in
      r ← MvRegistry_update_topo_order
            (mkReg (delete name (mr_views r)) (mr_base_tables r) (delete name dependents)
               (delete name (mr_dependencies r)) (mr_topo_order r));
      Some (r, inl view)
  end.

Definition MvRegistry_unregister (name : string) (r : MvRegistry)
  : option (MvRegistry * (MaterializedView + MvError)) :=
  if negb (contains_view r name) then Some (r, inr (MvViewNotFound name)) else
  match mr_dependents r !! name with
  | Some deps =>
      if decide (deps = ∅) then remove_view name r
      else Some (r, inr (MvHasDependents name (str_iter deps)))
  | None => remove_view name r
  end.

Fixpoint collect_dependents_recursive (fuel : nat) (r : MvRegistry) (name : string)
    (result : list string) : option (list string) :=
  match fuel with
  | O => None
  | S fuel =>
      match mr_dependents r !! name with
      | None => Some result
      | Some deps =>
          foldl (λ acc dep,
            result ← acc;
            if decide (dep ∈ result) then Some result
            else result ← collect_dependents_recursive fuel r dep result; Some (result ++ [dep]))
            (Some result) (str_iter deps)
      end
  end.

Fixpoint remove_views (names : list string) (r : MvRegistry) (removed : list MaterializedView)
  : option (MvRegistry * list MaterializedView) :=
  match names with
  | [] => Some (r, removed)
  | name :: names =>
      '(r, res) ← remove_view name r;
      match res with
      | inl view => remove_views names r (removed ++ [view])
      | inr _ => remove_views names r removed
      end
  end.

Definition MvRegistry_unregister_cascade (name : string) (r : MvRegistry)
  : option (MvRegistry * (list MaterializedView + MvError)) :=
  if negb (contains_view r name) then Some (r, inr (MvViewNotFound name)) else
  to_remove ← collect_dependents_recursive (S (size (mr_views r))) r name [];
  '(r, removed) ← remove_views (to_remove ++ [name]) r [];
  Some (r, inl removed).

(** The result and the visited set. *)
Fixpoint collect_dependencies_recursive (fuel : nat) (r : MvRegistry) (name : string)
    (st : list string * gset string) : option (list string * gset string) :=
  match fuel with
  | O => None
  | S fuel =>
      if decide (name ∈ st.2) then Some st else
      let st := (st.1, {[name]} ∪ st.2) in
      st ← match mr_dependencies r !! name with
           | Some deps =>
               foldl (λ acc dep, st ← acc; collect_dependencies_recursive fuel r dep st)
                 (Some st) (str_iter deps)
           | None => Some st
           end;
      Some (if contains_view r name then st.1 ++ [name] else st.1, st.2)
  end.

Definition MvRegistry_dependency_chain (r : MvRegistry) (name : string) : option (list string) :=
  fst <$> collect_dependencies_recursive (S (S (size (mr_views r)))) r name ([], ∅).
End Ordered.
End Registry.

(** ** The dependency graph and the invariant *)

Section Facts.
Context {DataType : Type} `{SO : !StrOrder} `{SL : !StrOrderLaws}.
Implicit Types (r : MvRegistry (DataType:=DataType)) (v : MaterializedView (DataType:=DataType)).

Definition deps_of r (n : string) : gset string := default ∅ (mr_dependencies r !! n).
Definition dependents_of r (n : string) : gset string := default ∅ (mr_dependents r !! n).
(** [b] reads [a]. *)
Definition feeds r (a b : string) : Prop := a ∈ deps_of r b.
Definition is_view r (n : string) : Prop := is_Some (mr_views r !! n).

#[global] Instance feeds_dec r a b : Decision (feeds r a b).
Proof. unfold feeds. apply _. Defined.
#[global] Instance is_view_dec r n : Decision (is_view r n).
Proof. unfold is_view. apply _. Defined.

(** A list of the views in which every view follows the views it reads. *)
Record topo_sorted r (order : list string) : Prop := {
  to_nodup : NoDup order;
  to_views n : n ∈ order ↔ is_view r n;
  to_before i n a : order !! i = Some n → feeds r a n → is_view r a →
    ∃ j, (j < i)%nat ∧ order !! j = Some a }.

(** What the maps say about each other and about the graph. *)
Record graph_ok r : Prop := {
  go_name n v : mr_views r !! n = Some v → mv_name v = n;
  go_deps n : deps_of r n =
    match mr_views r !! n with Some v => list_to_set (mv_sources v) | None => ∅ end;
  go_inv a b : b ∈ dependents_of r a ↔ feeds r a b;
  go_src a b : feeds r a b → is_view r a ∨ a ∈ mr_base_tables r;
  go_acyclic n : ¬ tc (feeds r) n n }.

Definition mv_wf r : Prop := graph_ok r ∧ topo_sorted r (mr_topo_order r).

Lemma elem_of_str_iter s x : x ∈ str_iter s ↔ x ∈ s.
Proof. by rewrite str_iter_perm, elem_of_elements. Qed.
Lemma NoDup_str_iter s : NoDup (str_iter s).
Proof. rewrite str_iter_perm. apply NoDup_elements. Qed.

Lemma feeds_view r a b : graph_ok r → feeds r a b → is_view r b.
Proof.
  intros Hg. unfold feeds. rewrite (go_deps r Hg). unfold is_view.
  destruct (mr_views r !! b); [eauto|set_solver].
Qed.

Lemma tc_feeds_view r a b : graph_ok r → tc (feeds r) a b → is_view r b.
Proof. intros Hg. induction 1; [by eapply feeds_view|done]. Qed.

Lemma contains_view_true r n : contains_view r n = true ↔ is_view r n.
Proof. apply bool_decide_eq_true. Qed.

(** Iterating over an optional set is iterating over the set with a default. *)
Lemma fold_dependents {A} (f : A → string → A) a r n :
  match mr_dependents r !! n with Some d => foldl f a (str_iter d) | None => a end
  = foldl f a (str_iter (dependents_of r n)).
Proof.
  unfold dependents_of. destruct (mr_dependents r !! n); [done|]. simpl.
  assert (str_iter ∅ = []) as ->; [|done].
  apply Permutation_nil_r. by rewrite str_iter_perm, elements_empty.
Qed.

Lemma fold_dependencies {A} (f : A → string → A) a r n :
  match mr_dependencies r !! n with Some d => foldl f a (str_iter d) | None => a end
  = foldl f a (str_iter (deps_of r n)).
Proof.
  unfold deps_of. destruct (mr_dependencies r !! n); [done|]. simpl.
  assert (str_iter ∅ = []) as ->; [|done].
  apply Permutation_nil_r. by rewrite str_iter_perm, elements_empty.
Qed.

(** *** [update_topo_order] *)

(** The dependencies of [n] that are views and not yet in the order. *)
Definition open_deps r (done : list string) (n : string) : nat :=
  length (filter (λ s, is_view r s ∧ s ∉ done) (elements (deps_of r n))).

Lemma view_degree_open r n : view_degree r n = open_deps r [] n.
Proof.
  unfold view_degree, open_deps, deps_of. destruct (mr_dependencies r !! n) as [d|]; simpl.
  - rewrite str_iter_perm. f_equal. apply list_filter_iff. intros s. unfold is_view. set_solver.
  - by rewrite elements_empty.
Qed.

Lemma open_deps_0 r order n :
  open_deps r order n = 0%nat ↔ ∀ a, feeds r a n → is_view r a → a ∈ order.
Proof.
  unfold open_deps. rewrite length_zero_iff_nil. split.
  - intros Hf a Ha Hv. destruct (decide (a ∈ order)) as [|Hn]; [done|]. exfalso.
    assert (Hin : a ∈ filter (λ s, is_view r s ∧ s ∉ order) (elements (deps_of r n))).
    { apply list_elem_of_filter. split; [done|]. by apply elem_of_elements. }
    rewrite Hf in Hin. by apply elem_of_nil in Hin.
  - intros Hall. apply filter_none, Forall_forall. intros a Ha%elem_of_elements [Hv Hn]. by apply Hn, Hall.
Qed.

Lemma open_deps_snoc r order x n : is_view r x → x ∉ order →
  open_deps r order n = ((if decide (feeds r x n) then 1 else 0) + open_deps r (order ++ [x]) n)%nat.
Proof.
  intros Hv Hx. unfold open_deps.
  rewrite (decide_ext (feeds r x n) (x ∈ elements (deps_of r n))) by (by rewrite elem_of_elements).
  pose proof (NoDup_elements (deps_of r n)) as Hnd.
  induction (elements (deps_of r n)) as [|y l IH]; [done|].
  apply NoDup_cons in Hnd as [Hy Hnd]. specialize (IH Hnd). rewrite !filter_cons.
  destruct (decide (y = x)) as [->|Hne].
  - rewrite (decide_True (P:=is_view r x ∧ x ∉ order)) by done.
    rewrite (decide_False (P:=is_view r x ∧ x ∉ order ++ [x])) by set_solver.
    rewrite (decide_True (P:=x ∈ x :: l)) by set_solver. cbn [length].
    rewrite decide_False in IH by done. lia.
  - rewrite (decide_ext (x ∈ y :: l) (x ∈ l)) by set_solver.
    rewrite (decide_ext (is_view r y ∧ y ∉ order ++ [x]) (is_view r y ∧ y ∉ order)) by set_solver.
    destruct (decide (is_view r y ∧ y ∉ order)); cbn [length]; lia.
Qed.

Lemma release_spec l : ∀ ind queue, NoDup l → (∀ d, d ∈ l → ∃ k, ind !! d = Some (S k)) →
  ∃ ind', foldl release_dependent (ind, queue) l
    = (ind', queue ++ filter (λ d, ind !! d = Some 1%nat) l) ∧
    ∀ n, ind' !! n = if decide (n ∈ l) then pred <$> ind !! n else ind !! n.
Proof.
  induction l as [|d l IH]; intros ind queue Hnd Hpos.
  { exists ind. split; [cbn; by rewrite app_nil_r|]. intros n. by rewrite decide_False by set_solver. }
  apply NoDup_cons in Hnd as [Hd Hnd]. destruct (Hpos d) as [k Hk]; [set_solver|].
  cbn [foldl]. unfold release_dependent at 2. cbn [fst snd]. rewrite Hk. cbn [Nat.sub].
  rewrite Nat.sub_0_r.
  assert (Hl : ∀ x, x ∈ l → <[d:=k]> ind !! x = ind !! x).
  { intros x Hx. apply lookup_insert_ne. congruence. }
  destruct (IH (<[d:=k]> ind) (if decide (k = 0%nat) then queue ++ [d] else queue)) as (ind' & Hf & Hi); [done| |].
  { intros x Hx. rewrite Hl by done. apply Hpos. set_solver. }
  exists ind'. rewrite Hf. split.
  - f_equal. rewrite filter_cons, Hk, (decide_ext (Some (S k) = Some 1%nat) (k = 0%nat)) by (split; congruence).
    rewrite (filter_ext_in _ (λ d, ind !! d = Some 1%nat)) by (intros x Hx; by rewrite Hl).
    destruct (decide (k = 0%nat)); [by rewrite <- app_assoc|done].
  - intros n. rewrite Hi. destruct (decide (n = d)) as [->|Hne].
    + rewrite decide_False, decide_True by set_solver. by rewrite lookup_insert_eq, Hk.
    + rewrite lookup_insert_ne by done. apply decide_ext. set_solver.
Qed.

Definition degree_of r (order : list string) (n : string) : option nat :=
  if decide (is_view r n) then Some (open_deps r order n) else None.

Record topo_inv r (ind : gmap string nat) (queue order : list string) : Prop := {
  ti_nodup : NoDup (order ++ queue);
  ti_ready n : n ∈ order ++ queue ↔ is_view r n ∧ open_deps r order n = 0%nat;
  ti_degree n : ind !! n = degree_of r order n;
  ti_before i n a : order !! i = Some n → feeds r a n → is_view r a →
    ∃ j, (j < i)%nat ∧ order !! j = Some a }.

Lemma topo_inv_step r ind x queue order : graph_ok r → topo_inv r ind (x :: queue) order →
  ∃ ind' queue', foldl release_dependent (ind, queue) (str_iter (dependents_of r x)) = (ind', queue') ∧
    topo_inv r ind' queue' (order ++ [x]).
Proof.
  intros Hg [Hnd Hready Hdeg Hbefore].
  assert (x ∈ order ++ x :: queue) as [Hxv Hx0]%Hready by set_solver.
  assert (Hxo : x ∉ order). { apply NoDup_app in Hnd as (_ & Hnd & _). intros Hin. by apply (Hnd x Hin), list_elem_of_here. }
  set (l := str_iter (dependents_of r x)).
  assert (Hl : ∀ d, d ∈ l ↔ feeds r x d). { intros d. unfold l. rewrite elem_of_str_iter. apply (go_inv r Hg). }
  destruct (release_spec l ind queue) as (ind' & Hf & Hi); [apply NoDup_str_iter| |].
  { intros d Hd%Hl. rewrite Hdeg. unfold degree_of. rewrite decide_True by (by eapply feeds_view).
    rewrite (open_deps_snoc r order x), decide_True by done. eauto. }
  exists ind', (queue ++ filter (λ d, ind !! d = Some 1%nat) l). split; [done|].
  assert (Hnew : ∀ d, d ∈ filter (λ d, ind !! d = Some 1%nat) l ↔
    feeds r x d ∧ open_deps r (order ++ [x]) d = 0%nat).
  { intros d. rewrite list_elem_of_filter, Hl, Hdeg. unfold degree_of. split.
    - intros [Ho Hd]. split; [done|]. rewrite decide_True in Ho by (by eapply feeds_view).
      rewrite (open_deps_snoc r order x), decide_True in Ho by done. injection Ho. lia.
    - intros [Hd Ho]. rewrite decide_True by (by eapply feeds_view).
      rewrite (open_deps_snoc r order x), decide_True, Ho by done. done. }
  split.
  - rewrite <- app_assoc. cbn. change (x :: queue ++ ?k) with ((x :: queue) ++ k). rewrite app_assoc.
    apply NoDup_app. split; [done|]. split; [|apply NoDup_filter, NoDup_str_iter].
    intros d [Hdv Hd0]%Hready [Hd _]%Hnew. rewrite (open_deps_snoc r order x), decide_True in Hd0 by done. lia.
  - intros n. rewrite <- app_assoc. cbn. change (x :: queue ++ ?k) with ((x :: queue) ++ k).
    rewrite app_assoc, elem_of_app, Hready, Hnew, (open_deps_snoc r order x n) by done. split.
    + intros [[Hv Ho]|[Hd Ho]]; [split; [done|lia]|split; [by eapply feeds_view|done]].
    + intros [Hv Ho]. destruct (decide (feeds r x n)); [by right|left; split; [done|lia]].
  - intros n. rewrite Hi, Hdeg. unfold degree_of.
    destruct (decide (is_view r n)); [|by destruct (decide (n ∈ l))].
    rewrite (open_deps_snoc r order x) by done. rewrite (decide_ext (n ∈ l) (feeds r x n)) by apply Hl.
    by destruct (decide (feeds r x n)).
  - intros i n a. rewrite lookup_app_Some. intros [Hi'|[Hlen Hi']] Ha Hv.
    + destruct (Hbefore i n a Hi' Ha Hv) as (j & ? & Hj). exists j. split; [done|]. by apply lookup_app_l_Some.
    + apply list_lookup_singleton_Some in Hi' as [Hi0 <-].
      pose proof (proj1 (open_deps_0 r order x) Hx0 a Ha Hv) as [j Hj]%list_elem_of_lookup.
      exists j. apply lookup_lt_Some in Hj as Hlt. split; [lia|]. by apply lookup_app_l_Some.
Qed.
Lemma view_list_bounded r l : NoDup l → (∀ n, n ∈ l → is_view r n) → (length l <= size (mr_views r))%nat.
Proof.
  intros Hnd Hl. rewrite <- (size_dom (D:=gset string)), <- (size_list_to_set (C:=gset string) l) by done.
  apply subseteq_size. intros n Hn%elem_of_list_to_set. by apply elem_of_dom, Hl.
Qed.

Lemma topo_loop_spec r (Hg : graph_ok r) fuel : ∀ ind queue order, topo_inv r ind queue order →
  (size (mr_views r) <= fuel + length order)%nat →
  ∃ order' ind', topo_loop fuel r ind queue order = Some order' ∧ topo_inv r ind' [] order'.
Proof.
  induction fuel as [|fuel IH]; intros ind queue order Hinv Hfuel;
    (destruct queue as [|x queue]; [by exists order, ind|]).
  - exfalso. pose proof (view_list_bounded r (order ++ x :: queue)) as Hb.
    rewrite length_app in Hb. cbn [length] in Hb.
    assert (length order + S (length queue) <= size (mr_views r))%nat; [|lia].
    apply Hb; [apply Hinv|]. intros n Hn. by apply (ti_ready _ _ _ _ Hinv) in Hn as [? _].
  - cbn [topo_loop]. rewrite fold_dependents.
    destruct (topo_inv_step r ind x queue order Hg Hinv) as (ind' & queue' & -> & Hinv'). cbn [fst snd].
    apply IH; [done|]. rewrite length_app. cbn [length]. lia.
Qed.

Lemma init_fold r l : ∀ m q, NoDup l →
  ∃ m', foldl (init_degree r) (m, q) l
    = (m', q ++ filter (λ n, view_degree r n = 0%nat) l) ∧
  ∀ n, m' !! n = if decide (n ∈ l) then Some (view_degree r n) else m !! n.
Proof.
  induction l as [|x l IH]; intros m q Hnd.
  { exists m. split; [cbn; by rewrite app_nil_r|]. intros n. by rewrite decide_False by set_solver. }
  apply NoDup_cons in Hnd as [Hx Hnd]. cbn [foldl]. unfold init_degree at 2. cbn [fst snd].
  destruct (IH (<[x := view_degree r x]> m)
    (if decide (view_degree r x = 0%nat) then q ++ [x] else q) Hnd) as (m' & -> & Hm).
  exists m'. split.
  - f_equal. rewrite filter_cons. destruct (decide (view_degree r x = 0%nat)); [by rewrite <- app_assoc|done].
  - intros n. rewrite Hm. destruct (decide (n = x)) as [->|Hne].
    + rewrite decide_False, decide_True, lookup_insert_eq by set_solver. done.
    + rewrite lookup_insert_ne by done. apply decide_ext. set_solver.
Qed.

Lemma topo_inv_init r : topo_inv r (init_degrees r).1 (init_degrees r).2 [].
Proof.
  unfold init_degrees.
  assert (Hl : ∀ n, n ∈ str_iter (dom (mr_views r)) ↔ is_view r n).
  { intros n. rewrite elem_of_str_iter. apply elem_of_dom. }
  destruct (init_fold r (str_iter (dom (mr_views r))) ∅ [] (NoDup_str_iter _)) as (m' & -> & Hm). cbn [fst snd app].
  split; cbn [app].
  - apply NoDup_filter, NoDup_str_iter.
  - intros n. rewrite list_elem_of_filter, Hl, view_degree_open. tauto.
  - intros n. rewrite Hm. unfold degree_of. rewrite (decide_ext (n ∈ _) (is_view r n)) by apply Hl.
    destruct (decide (is_view r n)); [by rewrite view_degree_open|done].
  - done.
Qed.

Lemma topo_inv_sorted r ind order : graph_ok r → topo_inv r ind [] order → topo_sorted r order.
Proof.
  intros Hg [Hnd Hready _ Hbefore]. rewrite app_nil_r in Hnd, Hready. split; [done| |done].
  intros n. split; [intros Hn; by apply Hready|]. intros Hv.
  destruct (decide (n ∈ order)) as [|Hn]; [done|]. exfalso.
  apply (acyclic_minimal (feeds r) (dom (mr_views r) ∖ list_to_set order) (go_acyclic r Hg)).
  { intros HX. assert (n ∈ dom (mr_views r) ∖ list_to_set order) as Hin; [|set_solver].
    apply elem_of_difference. split; [by apply elem_of_dom|by rewrite elem_of_list_to_set]. }
  intros x [Hxv%elem_of_dom Hxo]%elem_of_difference. rewrite elem_of_list_to_set in Hxo.
  destruct (decide (Exists (λ a, is_view r a ∧ a ∉ order) (elements (deps_of r x)))) as [Hex|Hno].
  - apply Exists_exists in Hex as (a & Ha%elem_of_elements & Hva & Hao). exists a. split; [|by apply tc_once].
    apply elem_of_difference. split; [by apply elem_of_dom|by rewrite elem_of_list_to_set].
  - exfalso. apply Hxo, Hready. split; [done|]. apply open_deps_0. intros a Ha Hva.
    destruct (decide (a ∈ order)) as [|Hao]; [done|]. exfalso. apply Hno, Exists_exists.
    exists a. split; [by apply elem_of_elements|done].
Qed.

Lemma update_topo_order_spec r : graph_ok r →
  ∃ order, MvRegistry_update_topo_order r = Some (set_topo_order order r) ∧ topo_sorted r order.
Proof.
  intros Hg. unfold MvRegistry_update_topo_order.
  destruct (topo_loop_spec r Hg (size (mr_views r)) _ _ _ (topo_inv_init r)) as (order & ind & -> & Hinv);
    [cbn; lia|].
  exists order. split; [done|]. by eapply topo_inv_sorted.
Qed.

Lemma mv_wf_set_topo_order r order : graph_ok r → topo_sorted r order → mv_wf (set_topo_order order r).
Proof. intros [] []. split; [by split|by split]. Qed.

(** *** [would_create_cycle] *)

Lemma edge_total_split (m : gmap string (gset string)) (V : gset string) x d :
  m !! x = Some d → x ∉ V →
  sum_list_with (λ kd, size kd.2) (filter (λ kd, kd.1 ∉ V) (map_to_list m))
  = (size d + sum_list_with (λ kd, size kd.2) (filter (λ kd, kd.1 ∉ {[x]} ∪ V) (map_to_list m)))%nat.
Proof.
  intros Hx HV. pose proof (NoDup_fst_map_to_list m) as Hnd.
  apply elem_of_map_to_list in Hx. induction (map_to_list m) as [|[k e] l IH]; [by apply elem_of_nil in Hx|].
  apply NoDup_cons in Hnd as [Hk Hnd]. rewrite !filter_cons. cbn [fst].
  apply elem_of_cons in Hx as [[= <- <-]|Hx].
  - rewrite decide_True, decide_False by set_solver. cbn. f_equal.
    rewrite (filter_ext_in _ (λ kd, kd.1 ∉ {[x]} ∪ V) l); [done|].
    intros [k' e'] Hin%(list_elem_of_fmap_2 fst). cbn in *. set_solver.
  - specialize (IH Hx Hnd). assert (k ≠ x). { intros ->. apply Hk. by apply (list_elem_of_fmap_2 fst) in Hx. }
    rewrite (decide_ext (k ∉ {[x]} ∪ V) (k ∉ V)) by set_solver.
    destruct (decide (k ∉ V)); cbn; lia.
Qed.

(** [x] is one of the sources, or one of them reads it, directly or not. *)
Definition upstream r (sources : list string) (x : string) : Prop :=
  ∃ s, s ∈ sources ∧ rtc (feeds r) x s.

Lemma closed_upstream r (V : gset string) a b : (∀ x y, x ∈ V → feeds r y x → y ∈ V) →
  rtc (feeds r) a b → b ∈ V → a ∈ V.
Proof. intros Hc. induction 1 as [|x y z Hxy _ IH]; [done|]. intros Hz. apply (Hc y x); auto. Qed.

Lemma cycle_loop_spec r new sources fuel : ∀ V stack,
  new ∉ V → (∀ x y, x ∈ V → feeds r y x → y ∈ V ∨ y ∈ stack) →
  (∀ s, s ∈ sources → s ∈ V ∨ s ∈ stack) → (∀ x, x ∈ stack → upstream r sources x) →
  (length stack + sum_list_with (λ kd, size kd.2)
     (filter (λ kd, kd.1 ∉ V) (map_to_list (mr_dependencies r))) <= fuel)%nat →
  ∃ b, cycle_loop fuel r new V stack = Some b ∧ (b = true ↔ upstream r sources new).
Proof.
  induction fuel as [|fuel IH]; intros V stack Hnew Hclosed Hsrc Hup Hfuel;
    (destruct stack as [|x stack]; cbn [length] in Hfuel; [|try lia]).
  1,2: exists false; split; [done|]; split; [done|]; intros (s & Hs & Hp); exfalso;
    apply Hnew, (closed_upstream r V new s); [|done|];
    [intros v a Hv Ha; destruct (Hclosed v a Hv Ha) as [|?%elem_of_nil]; done
    |destruct (Hsrc s Hs) as [|?%elem_of_nil]; done].
  cbn [cycle_loop]. case_decide as Hx.
  { subst x. exists true. split; [done|]. split; [|done]. intros _. apply Hup. left. }
  case_decide as HV.
  { apply IH; [done| | | |lia].
    - intros v a Hv Ha. destruct (Hclosed v a Hv Ha) as [|[->|]%elem_of_cons]; auto.
    - intros s Hs. destruct (Hsrc s Hs) as [|[->|]%elem_of_cons]; auto.
    - intros y Hy. apply Hup. by right. }
  set (next := match mr_dependencies r !! x with Some _ => _ | None => _ end).
  assert (Hnext : ∀ a, a ∈ next ↔ feeds r a x ∨ a ∈ stack).
  { intros a. subst next. unfold feeds, deps_of. destruct (mr_dependencies r !! x); cbn; [|set_solver].
    by rewrite elem_of_app, elem_of_reverse, elem_of_str_iter. }
  apply IH.
  - set_solver.
  - intros v a Hv Ha. rewrite Hnext. apply elem_of_union in Hv as [->%elem_of_singleton|Hv]; [by right; left|].
    destruct (Hclosed v a Hv Ha) as [|[->|]%elem_of_cons]; set_solver.
  - intros s Hs. rewrite Hnext. destruct (Hsrc s Hs) as [|[->|]%elem_of_cons]; set_solver.
  - intros y [Hy|Hy]%Hnext; [|apply Hup; by right]. destruct (Hup x) as (s & Hs & Hp); [left|].
    exists s. split; [done|]. by eapply rtc_l.
  - subst next. destruct (mr_dependencies r !! x) as [d|] eqn:Hd.
    + rewrite (edge_total_split _ V x d) in Hfuel by done.
      rewrite length_app, length_reverse, str_iter_perm. change (length (elements d)) with (size d). lia.
    + rewrite (filter_ext_in _ (λ kd, kd.1 ∉ V)); [lia|]. intros [k e] Hk%elem_of_map_to_list. cbn.
      assert (k ≠ x) by congruence. set_solver.
Qed.

Lemma would_create_cycle_spec r new sources :
  ∃ b, MvRegistry_would_create_cycle r new sources = Some b ∧ (b = true ↔ upstream r sources new).
Proof.
  apply cycle_loop_spec; [by apply not_elem_of_empty|by intros x y Hx%elem_of_empty| | |].
  - intros s Hs. right. by apply elem_of_reverse.
  - intros x Hx. rewrite elem_of_reverse in Hx. exists x. split; [done|apply rtc_refl].
  - rewrite length_reverse, filter_all; [done|]. apply Forall_forall.
    intros kd _. apply not_elem_of_empty.
Qed.
(** *** [register] *)

Lemma entry_insert_spec (m : gmap string (gset string)) key value n :
  default ∅ (entry_insert key value m !! n)
  = if decide (n = key) then {[value]} ∪ default ∅ (m !! n) else default ∅ (m !! n).
Proof.
  unfold entry_insert. case_decide as H; [subst; by rewrite lookup_insert_eq|by rewrite lookup_insert_ne].
Qed.

Lemma link_sources_spec name l : ∀ r,
  let r' := foldl (link_source name) r l in
  mr_views r' = mr_views r ∧ mr_base_tables r' = mr_base_tables r ∧
  (∀ n, deps_of r' n = if decide (n = name) then list_to_set l ∪ deps_of r n else deps_of r n) ∧
  (∀ a b, b ∈ dependents_of r' a ↔ b ∈ dependents_of r a ∨ a ∈ l ∧ b = name).
Proof.
  induction l as [|s l IH]; intros r.
  { split_and!; [done..| |]; cbn [foldl].
    - intros n. case_decide; set_solver.
    - set_solver. }
  destruct (IH (link_source name r s)) as (Hv & Hb & Hd & Hi). cbn [foldl]. split_and!; [by rewrite Hv|by rewrite Hb| |].
  - intros n. rewrite Hd. unfold deps_of. cbn [link_source mr_dependencies]. rewrite entry_insert_spec.
    case_decide; set_solver.
  - intros a b. rewrite Hi. unfold dependents_of. cbn [link_source mr_dependents]. rewrite entry_insert_spec.
    case_decide; set_solver.
Qed.

Lemma tc_extend r (new : string) (sources : list string) (R : relation string) a b :
  ¬ upstream r sources new →
  (∀ x y, R x y → feeds r x y ∨ x ∈ sources ∧ y = new) → tc R a b →
  tc (feeds r) a b ∨ upstream r sources a ∧ rtc (feeds r) new b.
Proof.
  intros Hno HR. induction 1 as [a b Hab|a c b Hac _ IH].
  - destruct (HR a b Hab) as [|[Ha ->]]; [left; by apply tc_once|]. right.
    split; [exists a; split; [done|apply rtc_refl]|apply rtc_refl].
  - destruct (HR a c Hac) as [Hf|[Ha ->]]; destruct IH as [Ht|[(s & Hs & Hp) Hb]].
    + left. by eapply tc_l.
    + right. split; [|done]. exists s. split; [done|]. by eapply rtc_l.
    + right. split; [exists a; split; [done|apply rtc_refl]|by apply tc_rtc].
    + destruct Hno. by exists s.
Qed.

Lemma graph_ok_insert r v : graph_ok r → ¬ is_view r (mv_name v) →
  (∀ s, s ∈ mv_sources v → is_view r s ∨ s ∈ mr_base_tables r) →
  ¬ upstream r (mv_sources v) (mv_name v) →
  graph_ok (insert_view v (foldl (link_source (mv_name v)) r (mv_sources v))).
Proof.
  intros Hg Hfresh Hsrc Hno.
  destruct (link_sources_spec (mv_name v) (mv_sources v) r) as (Hv & Hb & Hd & Hi).
  set (r1 := foldl _ r _) in *.
  assert (Hempty : deps_of r (mv_name v) = ∅).
  { rewrite (go_deps r Hg). destruct (mr_views r !! mv_name v) eqn:E; [|done]. destruct Hfresh. by eexists. }
  assert (Hf : ∀ a b, feeds (insert_view v r1) a b ↔ feeds r a b ∨ a ∈ mv_sources v ∧ b = mv_name v).
  { intros a b. change (a ∈ deps_of r1 b ↔ a ∈ deps_of r b ∨ a ∈ mv_sources v ∧ b = mv_name v).
    rewrite Hd. case_decide; set_solver. }
  split; cbn [insert_view mr_views mr_base_tables].
  - intros n w. rewrite Hv, lookup_insert_Some. intros [[<- <-]|[_ Hw]]; [done|]. by apply (go_name r Hg).
  - intros n. change (deps_of r1 n = match <[mv_name v:=v]> (mr_views r1) !! n with
      Some v => list_to_set (mv_sources v) | None => ∅ end). rewrite Hd, Hv. case_decide as Hn.
    + subst n. rewrite lookup_insert_eq, Hempty. set_solver.
    + rewrite lookup_insert_ne by done. apply (go_deps r Hg).
  - intros a b. rewrite Hf. change (b ∈ dependents_of r1 a ↔ feeds r a b ∨ a ∈ mv_sources v ∧ b = mv_name v).
    rewrite Hi, (go_inv r Hg). done.
  - intros a b Hab. rewrite Hb. unfold is_view. cbn. rewrite Hv.
    assert (Ha : is_view r a ∨ a ∈ mr_base_tables r).
    { apply Hf in Hab as [Hab|[Ha _]]; [by apply (go_src r Hg a b)|by apply Hsrc]. }
    destruct Ha as [Ha|Ha]; [left|by right]. rewrite lookup_insert_is_Some. destruct (decide (mv_name v = a)); auto.
  - intros n Hn. apply (tc_extend r (mv_name v) (mv_sources v)) in Hn as [Hn|[(s & Hs & Hp) Hq]].
    + by apply (go_acyclic r Hg n).
    + apply Hno. exists s. split; [done|]. by etrans.
    + done.
    + intros x y. apply Hf.
Qed.

(** The meaning of the answers of [register], in the order of its checks. *)
Definition register_answer r v (res : unit + MvError) : Prop :=
  match res with
  | inl _ => ¬ is_view r (mv_name v) ∧
      (∀ s, s ∈ mv_sources v → is_view r s ∨ s ∈ mr_base_tables r) ∧
      ¬ upstream r (mv_sources v) (mv_name v)
  | inr (MvDuplicateName n) => n = mv_name v ∧ is_view r n
  | inr (MvSourceNotFound s) => ¬ is_view r (mv_name v) ∧ s ∈ mv_sources v ∧
      ¬ is_view r s ∧ s ∉ mr_base_tables r
  | inr (MvCycleDetected n) => n = mv_name v ∧ ¬ is_view r n ∧
      (∀ s, s ∈ mv_sources v → is_view r s ∨ s ∈ mr_base_tables r) ∧ upstream r (mv_sources v) n
  | inr _ => False
  end.

Lemma missing_source_spec r l :
  match missing_source r l with
  | Some s => s ∈ l ∧ ¬ is_view r s ∧ s ∉ mr_base_tables r
  | None => ∀ s, s ∈ l → is_view r s ∨ s ∈ mr_base_tables r
  end.
Proof.
  unfold missing_source. set (P := λ s, _ = true).
  assert (HP : ∀ s, P s ↔ ¬ is_view r s ∧ s ∉ mr_base_tables r).
  { intros s. unfold P, contains_view, MvRegistry_is_base_table. fold (is_view r s).
    rewrite andb_true_iff, !negb_true_iff, !bool_decide_eq_false. done. }
  destruct (filter P l) as [|s k] eqn:E; cbn.
  - intros s Hs. destruct (decide (is_view r s)); [by left|]. destruct (decide (s ∈ mr_base_tables r)); [by right|].
    assert (Hin : s ∈ filter P l) by (apply list_elem_of_filter; split; [by apply HP|done]).
    rewrite E in Hin. by apply elem_of_nil in Hin.
  - assert (Hin : s ∈ filter P l) by (rewrite E; left).
    apply list_elem_of_filter in Hin as [?%HP ?]. done.
Qed.

Lemma mv_register_spec v r : mv_wf r → ∃ r' res, MvRegistry_register v r = Some (r', res) ∧
  mv_wf r' ∧ register_answer r v res ∧
  match res with
  | inl _ => mr_views r' = <[mv_name v := v]> (mr_views r) ∧ mr_base_tables r' = mr_base_tables r
  | inr _ => r' = r
  end.
Proof.
  intros [Hg Ht]. unfold MvRegistry_register. destruct (contains_view r (mv_name v)) eqn:Hc.
  { eexists _, _. split; [done|]. split; [by split|]. split; [|done]. split; [done|]. by apply contains_view_true. }
  assert (Hfresh : ¬ is_view r (mv_name v)). { rewrite <- contains_view_true, Hc. done. }
  pose proof (missing_source_spec r (mv_sources v)) as Hm.
  destruct (missing_source r (mv_sources v)) as [s|].
  { eexists _, _. split; [done|]. split; [by split|]. split; [|done]. by split. }
  destruct (would_create_cycle_spec r (mv_name v) (mv_sources v)) as ([|] & -> & Hb); cbn [mbind option_bind].
  { eexists _, _. split; [done|]. split; [by split|]. split; [|done]. split_and!; [done..|]. by apply Hb. }
  assert (Hno : ¬ upstream r (mv_sources v) (mv_name v)) by (intros ?%Hb; done).
  pose proof (graph_ok_insert r v Hg Hfresh Hm Hno) as Hg'.
  destruct (update_topo_order_spec _ Hg') as (order & -> & Ho). cbn [mbind option_bind].
  eexists _, _. split; [done|]. split; [by apply mv_wf_set_topo_order|]. split; [done|].
  destruct (link_sources_spec (mv_name v) (mv_sources v) r) as (Hv & Hbt & _). cbn. by rewrite Hv, Hbt.
Qed.
(** *** [remove_view] and [unregister] *)

Lemma drop_dependents_fold name l : ∀ (m : gmap string (gset string)) a b,
  b ∈ default ∅ (foldl (drop_dependent name) m l !! a) ↔
  b ∈ default ∅ (m !! a) ∧ ¬ (a ∈ l ∧ b = name).
Proof.
  induction l as [|s l IH]; intros m a b; cbn [foldl]; [set_solver|].
  rewrite IH. unfold drop_dependent. destruct (decide (a = s)) as [->|Hne].
  - rewrite lookup_alter_eq. destruct (m !! s); set_solver.
  - rewrite lookup_alter_ne by done. set_solver.
Qed.

Lemma remove_view_spec name r v : graph_ok r → mr_views r !! name = Some v →
  dependents_of r name = ∅ → ∃ r', remove_view name r = Some (r', inl v) ∧ mv_wf r' ∧
    mr_views r' = delete name (mr_views r) ∧ mr_base_tables r' = mr_base_tables r ∧
    (∀ a, dependents_of r' a = dependents_of r a ∖ {[name]}) ∧
    (∀ a b, feeds r' a b ↔ feeds r a b ∧ b ≠ name).
Proof.
  intros Hg Hv Hleaf. unfold remove_view. rewrite Hv, fold_dependencies.
  set (dm := foldl _ _ _). set (r1 := mkReg _ _ _ _ _).
  assert (Hf : ∀ a b, feeds r1 a b ↔ feeds r a b ∧ b ≠ name).
  { intros a b. unfold feeds, deps_of, r1. cbn. destruct (decide (b = name)) as [->|Hne].
    - rewrite lookup_delete_eq. set_solver.
    - rewrite lookup_delete_ne by done. naive_solver. }
  assert (Hd : ∀ a b, b ∈ dependents_of r1 a ↔ b ∈ dependents_of r a ∧ b ≠ name).
  { intros a b. unfold dependents_of at 1, r1. cbn. destruct (decide (a = name)) as [->|Hne].
    - rewrite lookup_delete_eq, Hleaf. set_solver.
    - rewrite lookup_delete_ne by done. unfold dm. rewrite drop_dependents_fold, elem_of_str_iter.
      fold (dependents_of r a) (feeds r a name). rewrite (go_inv r Hg). split; intros [Hb Hn]; (split; [done|]).
      + intros ->. by apply Hn.
      + by intros [_ ->]. }
  assert (Hname : ∀ b, ¬ feeds r name b). { intros b Hb%(go_inv r Hg). rewrite Hleaf in Hb. set_solver. }
  assert (Hg1 : graph_ok r1).
  { split.
    - intros n w. cbn. rewrite lookup_delete_Some. intros [_ Hw]. by apply (go_name r Hg).
    - intros n. pose proof (go_deps r Hg n) as Hn. unfold deps_of, r1 in *. cbn.
      destruct (decide (n = name)) as [->|Hne]; [by rewrite !lookup_delete_eq|].
      by rewrite !lookup_delete_ne by done.
    - intros a b. rewrite Hd, Hf, (go_inv r Hg). done.
    - intros a b [Hab Hne]%Hf. destruct (go_src r Hg a b Hab) as [Ha|Ha]; [left|by right].
      unfold is_view, r1. cbn. rewrite lookup_delete_ne; [done|]. intros <-. by apply (Hname b).
    - intros n Hn. apply (go_acyclic r Hg n). eapply tc_congruence with (f := id); [|done]. intros x y Hxy. by apply Hf in Hxy as [? _]. }
  destruct (update_topo_order_spec r1 Hg1) as (order & -> & Ho). cbn [mbind option_bind].
  eexists. split; [done|]. split; [by apply mv_wf_set_topo_order|]. split_and!; [done..| |exact Hf].
  intros a. apply set_eq. intros b. rewrite elem_of_difference, elem_of_singleton. apply Hd.
Qed.

(** The meaning of the answers of [unregister]. *)
Definition unregister_answer r name (res : MaterializedView + MvError) : Prop :=
  match res with
  | inl v => mr_views r !! name = Some v ∧ ∀ b, ¬ feeds r name b
  | inr (MvViewNotFound n) => n = name ∧ ¬ is_view r n
  | inr (MvHasDependents n l) => n = name ∧ is_view r n ∧ l ≠ [] ∧ NoDup l ∧ ∀ b, b ∈ l ↔ feeds r n b
  | inr _ => False
  end.

Lemma unregister_spec name r : mv_wf r → ∃ r' res, MvRegistry_unregister name r = Some (r', res) ∧
  mv_wf r' ∧ unregister_answer r name res ∧
  match res with
  | inl _ => mr_views r' = delete name (mr_views r) ∧ mr_base_tables r' = mr_base_tables r
  | inr _ => r' = r
  end.
Proof.
  intros [Hg Ht]. unfold MvRegistry_unregister. destruct (contains_view r name) eqn:Hc; cbn [negb].
  2:{ eexists _, _. split; [done|]. split; [by split|]. split; [|done]. split; [done|].
      rewrite <- contains_view_true, Hc. done. }
  apply contains_view_true in Hc as Hview. destruct Hview as [v Hv].
  assert (Hleaf : dependents_of r name = ∅ → ∃ r' res, remove_view name r = Some (r', res) ∧
    mv_wf r' ∧ unregister_answer r name res ∧ match res with
    | inl _ => mr_views r' = delete name (mr_views r) ∧ mr_base_tables r' = mr_base_tables r
    | inr _ => r' = r end).
  { intros Hd. destruct (remove_view_spec name r v Hg Hv Hd) as (r' & -> & Hwf & Hvs & Hb & _).
    eexists _, _. split; [done|]. split; [done|]. split; [|done]. split; [done|].
    intros b Hf%(go_inv r Hg). rewrite Hd in Hf. set_solver. }
  destruct (mr_dependents r !! name) as [d|] eqn:Hd.
  - assert (Hdd : dependents_of r name = d) by (unfold dependents_of; by rewrite Hd).
    case_decide as He; [apply Hleaf; congruence|].
    eexists _, _. split; [done|]. split; [by split|]. split; [|done].
    split_and!; [done|by eexists| |apply NoDup_str_iter|].
    + intros Hl. apply He, set_eq. intros x. rewrite <- elem_of_str_iter, Hl. set_solver.
    + intros b. rewrite elem_of_str_iter, <- Hdd. apply (go_inv r Hg).
  - apply Hleaf. unfold dependents_of. by rewrite Hd.
Qed.

(** *** [unregister_cascade] *)

(** A list closed under dependents, each before the view it reads. *)
Definition dependents_first r (l : list string) : Prop :=
  ∀ i x y, l !! i = Some x → feeds r x y → ∃ j, (j < i)%nat ∧ l !! j = Some y.

Lemma dependents_first_snoc r l x : dependents_first r l → (∀ y, feeds r x y → y ∈ l) →
  dependents_first r (l ++ [x]).
Proof.
  intros Hl Hx i z y. rewrite lookup_app_Some. intros [Hi|[Hlen Hi]] Hz.
  - destruct (Hl i z y Hi Hz) as (j & ? & Hj). exists j. split; [done|]. by apply lookup_app_l_Some.
  - apply list_lookup_singleton_Some in Hi as [Hi0 <-].
    pose proof (Hx y Hz) as [j Hj]%list_elem_of_lookup. apply lookup_lt_Some in Hj as Hlt.
    exists j. split; [lia|]. by apply lookup_app_l_Some.
Qed.

Lemma dependents_first_closed r l x y : dependents_first r l → x ∈ l → tc (feeds r) x y → y ∈ l.
Proof.
  intros Hl Hx Ht. revert Hx. induction Ht as [x y Hxy|x y z Hxy _ IH]; intros Hx.
  - apply list_elem_of_lookup in Hx as [i Hi]. destruct (Hl i x y Hi Hxy) as (j & _ & Hj).
    by eapply list_elem_of_lookup_2.
  - apply IH. apply list_elem_of_lookup in Hx as [i Hi]. destruct (Hl i x y Hi Hxy) as (j & _ & Hj).
    by eapply list_elem_of_lookup_2.
Qed.

(** What one call adds to the result. *)
Definition collected r name (res res' : list string) : Prop :=
  NoDup res' ∧ dependents_first r res' ∧ (∀ x, x ∈ res → x ∈ res') ∧
  (∀ x, x ∈ res' → x ∈ res ∨ tc (feeds r) name x).

Lemma collect_dependents_spec r order (Hg : graph_ok r) (Ht : topo_sorted r order) fuel :
  ∀ name i res, order !! i = Some name → (length order - i < S fuel)%nat →
  NoDup res → dependents_first r res →
  ∃ res', collect_dependents_recursive (S fuel) r name res = Some res' ∧
    collected r name res res' ∧ ∀ y, feeds r name y → y ∈ res'.
Proof.
  induction fuel as [|fuel IH]; intros name i res Hi Hfuel Hnd Hdf.
  { apply lookup_lt_Some in Hi. lia. }
  remember (S fuel) as f eqn:Hf. cbn [collect_dependents_recursive]. subst f.
  rewrite (fold_dependents _ (Some res)).
  assert (Hl : ∀ d, d ∈ str_iter (dependents_of r name) ↔ feeds r name d).
  { intros d. rewrite elem_of_str_iter. apply (go_inv r Hg). }
  set (step := λ acc dep, _).
  enough (Hloop : ∀ l res0, (∀ d, d ∈ l → feeds r name d) → NoDup res0 → dependents_first r res0 →
    ∃ res', foldl step (Some res0) l = Some res' ∧ collected r name res0 res' ∧ ∀ d, d ∈ l → d ∈ res').
  { destruct (Hloop (str_iter (dependents_of r name)) res) as (res' & -> & Hc & Hin); [apply Hl|done..|].
    exists res'. split; [done|]. split; [done|]. intros y Hy. by apply Hin, Hl. }
  induction l as [|d l IHl]; intros res0 Hd Hnd0 Hdf0.
  { exists res0. split; [done|]. split; [split_and!; [done..|auto]|]. by intros d ?%elem_of_nil. }
  assert (Hfd : feeds r name d) by (apply Hd; left).
  assert (Hstep : ∃ res1, step (Some res0) d = Some res1 ∧ collected r name res0 res1 ∧ d ∈ res1).
  { unfold step. cbn [mbind option_bind]. case_decide as Hin.
    { exists res0. split; [done|]. split; [split_and!; [done..|auto]|done]. }
    assert (d ∈ order) as [j Hj]%list_elem_of_lookup by (apply (to_views r order Ht); by eapply feeds_view).
    assert (i < j)%nat.
    { destruct (to_before r order Ht j d name Hj Hfd) as (k & Hk & Hkn).
      { apply (to_views r order Ht). by eapply list_elem_of_lookup_2. }
      assert (k = i) as ->; [|done]. eapply NoDup_lookup; [apply Ht|done..]. }
    destruct (IH d j res0) as (res1 & -> & (Hnd1 & Hdf1 & Hsub & Hnew) & Hdd); [done|lia|done..|].
    cbn [mbind option_bind]. exists (res1 ++ [d]). split; [done|].
    assert (Hd1 : d ∉ res1). { intros [?|Hc]%Hnew; [done|]. by apply (go_acyclic r Hg d). }
    split; [|set_solver]. split_and!.
    - apply NoDup_app. split; [done|]. split; [set_solver|apply NoDup_singleton].
    - by apply dependents_first_snoc.
    - set_solver.
    - intros x [Hx| ->%list_elem_of_singleton]%elem_of_app; [|right; by apply tc_once].
      apply Hnew in Hx as [?|Hx]; [by left|right; by eapply tc_l]. }
  destruct Hstep as (res1 & Hs1 & (Hnd1 & Hdf1 & Hsub1 & Hnew1) & Hd1). cbn [foldl]. rewrite Hs1.
  destruct (IHl res1) as (res' & Hr' & (Hnd' & Hdf' & Hsub' & Hnew') & Hin'); [set_solver|done..|].
  exists res'. split; [done|]. split; [split_and!; [done..|auto|]|].
  - intros x Hx. apply Hnew' in Hx as [Hx|]; auto.
  - intros x [->|Hx]%elem_of_cons; auto.
Qed.
Lemma remove_views_spec l : ∀ r removed, mv_wf r → NoDup l → (∀ x, x ∈ l → is_view r x) →
  dependents_first r l → ∃ r' vs, remove_views l r removed = Some (r', removed ++ vs) ∧ mv_wf r' ∧
    Forall2 (λ x v, mr_views r !! x = Some v) l vs ∧ mr_base_tables r' = mr_base_tables r ∧
    (∀ n, mr_views r' !! n = if decide (n ∈ l) then None else mr_views r !! n).
Proof.
  induction l as [|x l IH]; intros r removed Hwf Hnd Hv Hdf.
  { exists r, []. cbn [remove_views]. rewrite app_nil_r. split_and!; [done..|constructor|done|].
    intros n. by rewrite decide_False by set_solver. }
  apply NoDup_cons in Hnd as [Hx Hnd]. destruct (Hv x) as [v Hvx]; [left|]. destruct Hwf as [Hg _].
  destruct (remove_view_spec x r v Hg Hvx) as (r1 & Hr1 & Hwf1 & Hv1 & Hb1 & _ & Hf1).
  { apply set_eq. intros y. rewrite (go_inv r Hg). split; [|set_solver]. intros Hy.
    destruct (Hdf 0%nat x y) as (j & ? & _); [done..|lia]. }
  destruct (IH r1 (removed ++ [v]) Hwf1 Hnd) as (r' & vs & Hr' & Hwf' & Hvs & Hb' & Hv').
  { intros y Hy. unfold is_view. rewrite Hv1, lookup_delete_ne by congruence. apply Hv. by right. }
  { intros i z y Hi [Hz Hne]%Hf1. destruct (Hdf (S i) z y Hi Hz) as ([|j] & ? & Hj); [naive_solver|].
    exists j. split; [lia|done]. }
  exists r', (v :: vs). cbn [remove_views]. rewrite Hr1. cbn [mbind option_bind]. rewrite Hr', <- app_assoc.
  split_and!; [done..| |congruence|].
  - constructor; [done|]. eapply Forall2_impl; [done|]. intros y w. cbn. rewrite Hv1, lookup_delete_Some. by intros [_ ?].
  - intros n. rewrite Hv', Hv1. destruct (decide (n = x)) as [->|Hne].
    + rewrite (decide_True (P:=x ∈ x :: l)) by left. rewrite lookup_delete_eq. by case_decide.
    + rewrite lookup_delete_ne by done. apply decide_ext. set_solver.
Qed.

Lemma topo_length r order : topo_sorted r order → length order = size (mr_views r).
Proof.
  intros Ht. pose proof (view_list_bounded r order (to_nodup _ _ Ht)) as Hle.
  rewrite <- (size_dom (D:=gset string)), <- (size_list_to_set (C:=gset string) order) by apply Ht.
  f_equal. apply set_eq. intros n. rewrite elem_of_list_to_set, elem_of_dom. apply (to_views _ _ Ht).
Qed.

(** What [unregister_cascade] removes: the view and what reads it, directly or
    not, in an order in which a view comes after the views that read it. *)
Lemma cascade_spec name r : mv_wf r → is_view r name →
  ∃ r' vs, MvRegistry_unregister_cascade name r = Some (r', inl vs) ∧ mv_wf r' ∧
    NoDup (mv_name <$> vs) ∧ dependents_first r (mv_name <$> vs) ∧
    (∀ n, n ∈ mv_name <$> vs ↔ rtc (feeds r) name n) ∧
    (∀ v, v ∈ vs → mr_views r !! mv_name v = Some v) ∧ mr_base_tables r' = mr_base_tables r ∧
    (∀ n, mr_views r' !! n = if decide (n ∈ mv_name <$> vs) then None else mr_views r !! n).
Proof.
  intros [Hg Ht] Hv. unfold MvRegistry_unregister_cascade.
  rewrite (proj2 (contains_view_true r name) Hv). cbn [negb].
  pose proof (proj2 (to_views _ _ Ht name) Hv) as [i Hi]%list_elem_of_lookup.
  pose proof (topo_length r _ Ht) as Hlen.
  destruct (collect_dependents_spec r _ Hg Ht (size (mr_views r)) name i [] Hi)
    as (l & Hcol & (Hnd & Hdf & _ & Hnew) & Hin); [lia|constructor|done|].
  remember (S (size (mr_views r))) as fuel. rewrite Hcol. cbn [mbind option_bind].
  assert (Htc : ∀ x, x ∈ l → tc (feeds r) name x) by (intros x [?%elem_of_nil|]%Hnew; done).
  assert (Hname : name ∉ l) by (intros ?%Htc; by apply (go_acyclic r Hg name)).
  assert (Hdf' : dependents_first r (l ++ [name])) by (by apply dependents_first_snoc).
  destruct (remove_views_spec (l ++ [name]) r []) as (r' & vs & -> & Hwf' & Hvs & Hb & Hviews); [by split| | |done|].
  { apply NoDup_app. split; [done|]. split; [set_solver|apply NoDup_singleton]. }
  { intros x [Hx| ->%list_elem_of_singleton]%elem_of_app; [|done]. eapply tc_feeds_view; eauto. }
  assert (Hnames : mv_name <$> vs = l ++ [name]).
  { clear -Hvs Hg. induction Hvs as [|x v k vs Hx _ IH]; [done|]. cbn. f_equal; [|done]. by apply (go_name r Hg). }
  exists r', vs. split; [done|]. split; [done|]. rewrite !Hnames. split_and!; try done.
  - apply NoDup_app. split; [done|]. split; [set_solver|apply NoDup_singleton].
  - intros n. rewrite elem_of_app, list_elem_of_singleton. split.
    + intros [Hn| ->]; [by apply tc_rtc, Htc|apply rtc_refl].
    + intros [->|Hn]%rtc_tc; [by right|]. rewrite <- list_elem_of_singleton, <- elem_of_app.
      eapply dependents_first_closed; [done| |done]. set_solver.
  - intros v Hv'. apply list_elem_of_lookup in Hv' as [j Hj].
    destruct (Forall2_lookup_r _ _ _ _ _ Hvs Hj) as (x & _ & Hx). by rewrite (go_name r Hg _ _ Hx).
Qed.
(** *** [dependency_chain] *)

Definition deps_before r (l : list string) : Prop :=
  ∀ i x y, l !! i = Some x → feeds r y x → is_view r y → ∃ j, (j < i)%nat ∧ l !! j = Some y.

Lemma deps_before_snoc r l x : deps_before r l → (∀ y, feeds r y x → is_view r y → y ∈ l) →
  deps_before r (l ++ [x]).
Proof.
  intros Hl Hx i z y. rewrite lookup_app_Some. intros [Hi|[Hlen Hi]] Hz Hy.
  - destruct (Hl i z y Hi Hz Hy) as (j & ? & Hj). exists j. split; [done|]. by apply lookup_app_l_Some.
  - apply list_lookup_singleton_Some in Hi as [Hi0 <-].
    pose proof (Hx y Hz Hy) as [j Hj]%list_elem_of_lookup. apply lookup_lt_Some in Hj as Hlt.
    exists j. split; [lia|]. by apply lookup_app_l_Some.
Qed.

(** The result, the visited names and the names whose calls are open. *)
Record chain_inv r (st : list string * gset string) (P : gset string) : Prop := {
  ci_nodup : NoDup st.1;
  ci_open : P ⊆ st.2;
  ci_done x : x ∈ st.2 → x ∉ P → (is_view r x → x ∈ st.1) ∧ ∀ y, feeds r y x → y ∈ st.2 ∧ y ∉ P;
  ci_result x : x ∈ st.1 → x ∈ st.2 ∧ x ∉ P ∧ is_view r x;
  ci_before : deps_before r st.1 }.

(** A call on [name] finishes it and visits only names upstream of it. *)
Definition chain_step r name (st st' : list string * gset string) : Prop :=
  name ∈ st'.2 ∧ st.2 ⊆ st'.2 ∧ ∀ x, x ∈ st'.2 → x ∈ st.2 ∨ rtc (feeds r) x name.

Lemma chain_enter r st P name : chain_inv r st P → name ∉ st.2 →
  chain_inv r (st.1, {[name]} ∪ st.2) ({[name]} ∪ P).
Proof.
  intros [Hnd Hop Hdone Hres Hbef] Hn. split; cbn; [done|set_solver| | |done].
  - intros x Hx HxP. assert (x ∈ st.2 ∧ x ∉ P) as [Hx2 HxP2] by set_solver.
    destruct (Hdone x Hx2 HxP2) as [Hv Hf]. split; [done|]. intros y Hy.
    destruct (Hf y Hy) as [Hy2 HyP]. split; [set_solver|].
    assert (y ≠ name) by (intros ->; done). set_solver.
  - intros x Hx. destruct (Hres x Hx) as (Hx2 & HxP & Hv). split_and!; [set_solver| |done].
    assert (x ≠ name) by (intros ->; done). set_solver.
Qed.

Lemma chain_leave r st P name : chain_inv r st ({[name]} ∪ P) → name ∉ P → name ∈ st.2 →
  ¬ feeds r name name → (∀ y, feeds r y name → y ∈ st.2 ∧ y ∉ P) →
  chain_inv r (if contains_view r name then st.1 ++ [name] else st.1, st.2) P.
Proof.
  intros [Hnd Hop Hdone Hres Hbef] HnP Hn Hself Hdeps.
  assert (Hnr : name ∉ st.1) by (intros (_ & ? & _)%Hres; set_solver).
  set (l := if contains_view r name then _ else _).
  assert (Hl : ∀ x, x ∈ l ↔ x ∈ st.1 ∨ x = name ∧ is_view r name).
  { intros x. subst l. destruct (contains_view r name) eqn:Hc.
    - apply contains_view_true in Hc. rewrite elem_of_app, list_elem_of_singleton. tauto.
    - assert (¬ is_view r name) by (rewrite <- contains_view_true, Hc; done). tauto. }
  split; cbn [fst snd]; [|set_solver| | |].
  - subst l. destruct (contains_view r name); [|done]. apply NoDup_app. split; [done|].
    split; [set_solver|apply NoDup_singleton].
  - intros x Hx HxP. rewrite Hl. destruct (decide (x = name)) as [->|Hne]; [split; [tauto|done]|].
    destruct (Hdone x Hx) as [Hv Hf]; [set_solver|]. split; [tauto|]. intros y Hy.
    destruct (Hf y Hy). set_solver.
  - intros x [Hx|[-> Hv]]%Hl; [|done]. destruct (Hres x Hx) as (? & ? & ?). set_solver.
  - subst l. destruct (contains_view r name); [|done]. apply deps_before_snoc; [done|].
    intros y Hy Hv. destruct (Hdeps y Hy) as [Hy2 HyP]. apply Hdone; [done| |done].
    assert (y ≠ name) by congruence. set_solver.
Qed.

Lemma chain_loop r name P
    (call : string → list string * gset string → option (list string * gset string)) :
  (∀ d st, feeds r d name → chain_inv r st ({[name]} ∪ P) →
     ∃ st', call d st = Some st' ∧ chain_inv r st' ({[name]} ∪ P) ∧ chain_step r d st st') →
  ∀ l st, (∀ d, d ∈ l → feeds r d name) → chain_inv r st ({[name]} ∪ P) →
  ∃ st', foldl (λ acc d, st ← acc; call d st) (Some st) l = Some st' ∧ chain_inv r st' ({[name]} ∪ P) ∧
    st.2 ⊆ st'.2 ∧ (∀ d, d ∈ l → d ∈ st'.2) ∧ ∀ x, x ∈ st'.2 → x ∈ st.2 ∨ rtc (feeds r) x name.
Proof.
  intros Hcall. induction l as [|d l IH]; intros st Hl Hinv.
  { exists st. split_and!; [done..| |auto]. by intros d ?%elem_of_nil. }
  destruct (Hcall d st) as (st1 & Hst1 & Hinv1 & Hin1 & Hsub1 & Hup1); [apply Hl; left|done|].
  destruct (IH st1) as (st' & Hst' & Hinv' & Hsub' & Hin' & Hup'); [intros; apply Hl; by right|done|].
  exists st'. cbn [foldl]. cbn [mbind option_bind]. rewrite Hst1. split_and!; [done..|set_solver| |].
  - intros y [->|Hy]%elem_of_cons; [by apply Hsub'|by apply Hin'].
  - intros x [Hx|]%Hup'; [|by right]. apply Hup1 in Hx as [|Hx]; [by left|right].
    eapply rtc_r; [done|]. apply Hl. left.
Qed.

Lemma chain_call r (Hg : graph_ok r) fuel name st P : chain_inv r st P →
  (∀ p, p ∈ P → tc (feeds r) name p) →
  (∀ d st, feeds r d name → chain_inv r st ({[name]} ∪ P) →
     ∃ st', collect_dependencies_recursive fuel r d st = Some st' ∧ chain_inv r st' ({[name]} ∪ P) ∧
       chain_step r d st st') →
  ∃ st', collect_dependencies_recursive (S fuel) r name st = Some st' ∧ chain_inv r st' P ∧
    chain_step r name st st'.
Proof.
  intros Hinv HP Hcall. cbn [collect_dependencies_recursive].
  case_decide as Hin; [exists st; split_and!; [done..|auto]; split_and!; auto|].
  rewrite (fold_dependencies _ (Some _)).
  destruct (chain_loop r name P _ Hcall (str_iter (deps_of r name)) (st.1, {[name]} ∪ st.2))
    as (st' & -> & Hinv' & Hsub & Hds & Hup);
    [intros d; by rewrite elem_of_str_iter|by apply chain_enter|]. cbn [mbind option_bind fst snd] in *.
  eexists. split; [done|]. split; [|split_and!; cbn; [set_solver..|]].
  - apply chain_leave; [done| |set_solver| |].
    + intros Hp%HP. by apply (go_acyclic r Hg name).
    + intros Hp. by apply (go_acyclic r Hg name), tc_once.
    + intros y Hy. split; [by apply Hds, elem_of_str_iter|]. intros Hp%HP.
      apply (go_acyclic r Hg name). by eapply tc_r.
  - intros x [[->%elem_of_singleton|Hx]%elem_of_union|Hx]%Hup; [right; apply rtc_refl|by left|by right].
Qed.

Lemma collect_dependencies_spec r order (Hg : graph_ok r) (Ht : topo_sorted r order) fuel :
  ∀ name st P, (∀ i, order !! i = Some name → (i < fuel)%nat) → chain_inv r st P →
  (∀ p, p ∈ P → tc (feeds r) name p) →
  ∃ st', collect_dependencies_recursive (S fuel) r name st = Some st' ∧ chain_inv r st' P ∧
    chain_step r name st st'.
Proof.
  induction fuel as [|fuel IH]; intros name st P Hfuel Hinv HP;
    (apply chain_call; [done..|]); intros d st0 Hd Hinv0;
    assert (name ∈ order) as [i Hi]%list_elem_of_lookup by (apply (to_views r order Ht); by eapply feeds_view);
    specialize (Hfuel i Hi); [lia|].
  apply IH; [|done|].
  - intros j Hj. destruct (to_before r order Ht i name d Hi Hd) as (k & Hk & Hkd).
    { apply (to_views r order Ht). by eapply list_elem_of_lookup_2. }
    assert (j = k) as -> by (eapply NoDup_lookup; [apply Ht|done..]). lia.
  - intros p [->%elem_of_singleton|Hp]%elem_of_union; [by apply tc_once|]. eapply tc_l; [done|by apply HP].
Qed.

Lemma dependency_chain_spec r name : mv_wf r →
  ∃ chain, MvRegistry_dependency_chain r name = Some chain ∧ NoDup chain ∧ deps_before r chain ∧
    ∀ x, x ∈ chain ↔ is_view r x ∧ rtc (feeds r) x name.
Proof.
  intros [Hg Ht]. unfold MvRegistry_dependency_chain.
  destruct (collect_dependencies_spec r _ Hg Ht (S (size (mr_views r))) name ([], ∅) ∅)
    as ([chain V] & Hc & [Hnd Hop Hdone Hres Hbef] & Hin & Hsub & Hup).
  { intros i Hi%lookup_lt_Some. rewrite (topo_length r _ Ht) in Hi. lia. }
  { split; cbn; [constructor|done|set_solver|set_solver|by intros i x y]. }
  { set_solver. }
  exists chain. remember (S (S (size (mr_views r)))) as fuel. rewrite Hc. cbn [fst snd] in *.
  split_and!; [done..|]. intros x. split.
  - intros (Hx & _ & Hv)%Hres. split; [done|]. apply Hup in Hx as [?%elem_of_empty|]; done.
  - intros [Hv Hx]. assert (HxV : x ∈ V).
    { apply (closed_upstream r V x name); [|done..]. intros a b Ha Hb.
      apply (Hdone a Ha); [apply not_elem_of_empty|done]. }
    apply (Hdone x HxV); [apply not_elem_of_empty|done].
Qed.

(** *** Reachable registries *)

Inductive mv_reach : MvRegistry (DataType:=DataType) → Prop :=
  | mv_reach_new : mv_reach MvRegistry_new
  | mv_reach_base r name : mv_reach r → mv_reach (MvRegistry_register_base_table name r)
  | mv_reach_register r v r' res : mv_reach r → MvRegistry_register v r = Some (r', res) → mv_reach r'
  | mv_reach_unregister r name r' res : mv_reach r → MvRegistry_unregister name r = Some (r', res) →
      mv_reach r'
  | mv_reach_cascade r name r' res : mv_reach r → MvRegistry_unregister_cascade name r = Some (r', res) →
      mv_reach r'
  | mv_reach_state r name s : mv_reach r → mv_reach (MvRegistry_set_state name s r).

Lemma mv_wf_new : mv_wf MvRegistry_new.
Proof.
  split; [split|split]; cbn.
  - by intros n v.
  - by intros n.
  - intros a b. unfold dependents_of, feeds, deps_of. cbn. rewrite !lookup_empty. done.
  - intros a b. unfold feeds, deps_of. cbn. rewrite lookup_empty. set_solver.
  - intros n Hn. assert (∀ a b, ¬ feeds MvRegistry_new a b) as Hno.
    { intros a b. unfold feeds, deps_of. cbn. rewrite lookup_empty. set_solver. }
    destruct Hn as [? ? Hf|? ? ? Hf _]; by apply Hno in Hf.
  - constructor.
  - intros n. split; [by intros ?%elem_of_nil|by intros [? ?]].
  - by intros i n a.
Qed.

Lemma mv_wf_base r name : mv_wf r → mv_wf (MvRegistry_register_base_table name r).
Proof.
  intros [[] []]. split; [|by split]. split; try done. intros a b Hab. cbn.
  destruct (go_src0 a b Hab) as [|]; [by left|right]. by apply elem_of_union_r.
Qed.

Lemma mv_wf_state r name s : mv_wf r → mv_wf (MvRegistry_set_state name s r).
Proof.
  intros [Hg Ht]. assert (Hv : ∀ n, is_view (MvRegistry_set_state name s r) n ↔ is_view r n).
  { intros n. unfold is_view. cbn. rewrite lookup_alter. destruct (decide (name = n)) as [->|]; [|done].
    by rewrite fmap_is_Some. }
  split; [split|split].
  - intros n v. cbn. rewrite lookup_alter. destruct (decide (name = n)) as [->|]; [|apply (go_name r Hg)].
    rewrite fmap_Some. intros (w & Hw & ->). exact (go_name r Hg _ _ Hw).
  - intros n. change (deps_of (MvRegistry_set_state name s r) n) with (deps_of r n). rewrite (go_deps r Hg).
    cbn. rewrite lookup_alter. destruct (decide (name = n)) as [->|]; [|done]. by destruct (mr_views r !! n).
  - apply (go_inv r Hg).
  - intros a b Hab. rewrite Hv. by apply (go_src r Hg a b).
  - apply (go_acyclic r Hg).
  - apply Ht.
  - intros n. rewrite Hv. apply (to_views _ _ Ht).
  - intros i n a Hi Ha Hva. apply (to_before _ _ Ht i n a Hi Ha). by apply Hv.
Qed.

Lemma mv_reach_wf r : mv_reach r → mv_wf r.
Proof.
  induction 1 as [|r name _ IH|r v r' res _ IH Hop|r name r' res _ IH Hop|r name r' res _ IH Hop|r name s _ IH].
  - apply mv_wf_new.
  - by apply mv_wf_base.
  - destruct (mv_register_spec v r IH) as (? & ? & Heq & ? & _). by simplify_eq.
  - destruct (unregister_spec name r IH) as (? & ? & Heq & ? & _). by simplify_eq.
  - destruct (decide (is_view r name)) as [Hv|Hv].
    + destruct (cascade_spec name r IH Hv) as (? & ? & Heq & ? & _). by simplify_eq.
    + unfold MvRegistry_unregister_cascade in Hop. rewrite <- contains_view_true in Hv.
      apply not_true_is_false in Hv. rewrite Hv in Hop. cbn in Hop. by simplify_eq.
  - by apply mv_wf_state.
Qed.
End Facts.

(** ** Properties *)

(** A registry for the witnesses: two views of a table that meet in a third. *)
Definition view (name : string) (sources : list string) : MaterializedView (DataType:=bool) :=
  MaterializedView_new name "" sources [].
Definition register_all `{!StrOrder} (vs : list (MaterializedView (DataType:=bool)))
    (r : MvRegistry (DataType:=bool)) : MvRegistry (DataType:=bool) :=
  foldl (λ r v, match MvRegistry_register v r with Some (r', _) => r' | None => r end) r vs.
Definition diamond_views : MvRegistry (DataType:=bool) :=
  register_all [view "a" ["trades"]; view "b" ["trades"]; view "c" ["a"; "b"]]
    (MvRegistry_register_base_table "trades" MvRegistry_new).

Lemma register_all_reach `{!StrOrder} vs r : mv_reach r → mv_reach (register_all vs r).
Proof.
  unfold register_all. revert r. induction vs as [|v vs IH]; intros r Hr; [done|]. cbn [foldl]. apply IH.
  destruct (MvRegistry_register v r) as [[r' res]|] eqn:E; [by eapply mv_reach_register|done].
Qed.
Lemma diamond_views_reach : mv_reach diamond_views.
Proof. apply register_all_reach, mv_reach_base, mv_reach_new. Qed.

(** [C17]: In every registry built by the operations, in any order and whatever
    their answers, a view is stored under its name; the two dependency maps are
    inverse to each other and hold exactly the sources of the views; every source
    is a view or a base table; no view reads itself, directly or not; and the
    topological order lists every view once, after the views it reads. *)
Theorem mv_registry_invariant {DataType} `{SO : !StrOrder} `{!StrOrderLaws}
    (r : MvRegistry (DataType:=DataType)) :
  mv_reach r → graph_ok r ∧ topo_sorted r (mr_topo_order r).
Proof. apply mv_reach_wf. Qed.

Lemma mv_registry_invariant_witness :
  topo_sorted diamond_views ["a"; "b"; "c"] ∧ size (mr_views diamond_views) = 3%nat.
Proof.
  split; [|by vm_compute].
  replace ["a"; "b"; "c"] with (mr_topo_order diamond_views) by (by vm_compute).
  apply mv_registry_invariant, diamond_views_reach.
Defined.

(** [register] always answers (its searches terminate). It accepts a view
    exactly when the name is new, every source exists and no source reads the new
    name, directly or not; then the view is added and nothing else is changed.
    Each error means what it says, is given in that order, and leaves the
    registry as it was. *)
Theorem mv_register_exact {DataType} `{SO : !StrOrder} `{!StrOrderLaws}
    (r : MvRegistry (DataType:=DataType)) v : mv_reach r →
  ∃ r' res, MvRegistry_register v r = Some (r', res) ∧ register_answer r v res ∧
    match res with
    | inl _ => mr_views r' = <[mv_name v := v]> (mr_views r) ∧ mr_base_tables r' = mr_base_tables r ∧
        topo_sorted r' (mr_topo_order r')
    | inr _ => r' = r
    end.
Proof.
  intros Hr. destruct (mv_register_spec v r (mv_reach_wf r Hr)) as (r' & res & Heq & Hwf & Ha & Hres).
  exists r', res. split; [done|]. split; [done|]. destruct res as [u|e]; [|done].
  destruct Hres as [? ?]. split_and!; [done..|apply Hwf].
Qed.

(** The table [trades] cannot become a view of [c], which reads it. *)
Lemma mv_register_exact_witness :
  MvRegistry_register (view "trades" ["c"]) diamond_views
    = Some (diamond_views, inr (MvCycleDetected "trades")) ∧ upstream diamond_views ["c"] "trades".
Proof.
  destruct (mv_register_exact diamond_views (view "trades" ["c"]) diamond_views_reach)
    as (r' & res & Heq & Ha & Hres).
  assert (Hc : snd <$> MvRegistry_register (view "trades" ["c"]) diamond_views
    = Some (inr (MvCycleDetected "trades"))) by (by vm_compute).
  rewrite Heq in Hc. injection Hc as ->. subst r'. split; [done|]. apply Ha.
Defined.

(** [unregister_cascade] of a registered view always answers; it removes the
    view and exactly the views that read it, directly or not, each once and before
    the views it reads, and leaves every other view and the base tables as they
    were, in an ordered registry. *)
Theorem mv_cascade_exact {DataType} `{SO : !StrOrder} `{!StrOrderLaws}
    (r : MvRegistry (DataType:=DataType)) name : mv_reach r → is_view r name →
  ∃ r' vs, MvRegistry_unregister_cascade name r = Some (r', inl vs) ∧
    NoDup (mv_name <$> vs) ∧ dependents_first r (mv_name <$> vs) ∧
    (∀ n, n ∈ mv_name <$> vs ↔ rtc (feeds r) name n) ∧
    (∀ v, v ∈ vs → mr_views r !! mv_name v = Some v) ∧ mr_base_tables r' = mr_base_tables r ∧
    (∀ n, mr_views r' !! n = if decide (n ∈ mv_name <$> vs) then None else mr_views r !! n) ∧
    topo_sorted r' (mr_topo_order r').
Proof.
  intros Hr Hv.
  destruct (cascade_spec name r (mv_reach_wf r Hr) Hv) as (r' & vs & ? & [_ ?] & ? & ? & ? & ? & ? & ?).
  exists r', vs. by split_and!.
Qed.

Lemma mv_cascade_exact_witness :
  ∃ r' vs, MvRegistry_unregister_cascade "a" diamond_views = Some (r', inl vs) ∧
    mv_name <$> vs = ["c"; "a"] ∧ mr_topo_order r' = ["b"] ∧ rtc (feeds diamond_views) "a" "c".
Proof.
  destruct (mv_cascade_exact diamond_views "a" diamond_views_reach) as (r' & vs & Heq & _ & _ & Hin & _).
  { apply (bool_decide_unpack (is_view diamond_views "a")). by vm_compute. }
  exists r', vs. split; [done|].
  assert (Hc : (λ x, (mr_topo_order x.1, match x.2 with inl vs => mv_name <$> vs | inr _ => [] end)) <$>
    MvRegistry_unregister_cascade "a" diamond_views = Some (["b"], ["c"; "a"])) by (by vm_compute).
  rewrite Heq in Hc. injection Hc as Ho Hn. split; [done|]. split; [done|]. apply Hin. rewrite Hn. left.
Defined.

(** [dependency_chain] always answers: the views that the given one reads,
    directly or not, and itself if it is a view, each once and after the views it
    reads; base tables are left out. *)
Theorem mv_dependency_chain_exact {DataType} `{SO : !StrOrder} `{!StrOrderLaws}
    (r : MvRegistry (DataType:=DataType)) name : mv_reach r →
  ∃ chain, MvRegistry_dependency_chain r name = Some chain ∧ NoDup chain ∧ deps_before r chain ∧
    ∀ x, x ∈ chain ↔ is_view r x ∧ rtc (feeds r) x name.
Proof. intros Hr. by apply dependency_chain_spec, mv_reach_wf. Qed.

Lemma mv_dependency_chain_exact_witness :
  MvRegistry_dependency_chain diamond_views "c" = Some ["a"; "b"; "c"] ∧ rtc (feeds diamond_views) "b" "c".
Proof.
  destruct (mv_dependency_chain_exact diamond_views "c" diamond_views_reach) as (chain & Heq & _ & _ & Hin).
  assert (Hc : MvRegistry_dependency_chain diamond_views "c" = Some ["a"; "b"; "c"]) by (by vm_compute).
  split; [done|]. rewrite Hc in Heq. injection Heq as <-. apply (Hin "b"). right. left.
Defined.
