(* ===== verification/MvDag.v ===== *)
(** * From the registry of materialized views to a streaming dag

    dag/topology.rs: [StreamingDag::from_mv_registry] adds a source node for each
    base table, a node for each view in the registry's topological order, an edge
    for each source of each view, and finalizes the graph. The theorems compose
    the registry's invariant with the graph's: on a registry the conversion never
    meets a cycle or a missing node. *)

From stdpp Require Import pretty.
From S2P Require Import Prelude TumblingOp DagTopology DagNames MvRegistry.

Section Convert.
Context {DataType : Type} `{!StrOrder} `{!HashOrder}.
Abbreviation Schema := (list (string * DataType)) (only parsing).
Abbreviation Dag := (StreamingDag (DataType:=DataType)).
Abbreviation Registry := (MvRegistry (DataType:=DataType)).

Fixpoint add_base_tables (tables : list string) (schemas : gmap string Schema) (dag : Dag)
  : Dag + DagError :=
  match tables with
  | [] => inl dag
  | table :: tables =>
      match schemas !! table with
      | None => inr (BaseTableSchemaNotFound table)
      | Some schema =>
          match StreamingDag_add_node table NSource schema dag with
          | (dag, inl _) => add_base_tables tables schemas dag
          | (_, inr e) => inr e
          end
      end
  end.

Fixpoint add_views (order : list string) (r : Registry) (dag : Dag) : Dag + DagError :=
  match order with
  | [] => inl dag
  | name :: order =>
      match MvRegistry_get r name with
      | None => inr (NodeNotFound name)
      | Some mv =>
          match StreamingDag_add_node name NMaterializedView (mv_schema mv) dag with
          | (dag, inl _) => add_views order r dag
          | (_, inr e) => inr e
          end
      end
  end.

Fixpoint connect_sources (sources : list string) (target_id : Z) (dag : Dag) : Dag + DagError :=
  match sources with
  | [] => inl dag
  | source :: sources =>
      match StreamingDag_node_id_by_name dag source with
      | None => inr (NodeNotFound source)
      | Some source_id =>
          match StreamingDag_add_edge source_id target_id dag with
          | (dag, inl _) => connect_sources sources target_id dag
          | (_, inr e) => inr e
          end
      end
  end.

Fixpoint connect_views (order : list string) (r : Registry) (dag : Dag) : Dag + DagError :=
  match order with
  | [] => inl dag
  | name :: order =>
      match MvRegistry_get r name with
      | None => inr (NodeNotFound name)
      | Some mv =>
          match StreamingDag_node_id_by_name dag name with
          | None => inr (NodeNotFound name)
          | Some target_id =>
              match connect_sources (mv_sources mv) target_id dag with
              | inl dag => connect_views order r dag
              | inr e => inr e
              end
          end
      end
  end.

(** [None] when Kahn's algorithm runs out of fuel, which it does not. *)
Definition from_mv_registry (r : Registry) (schemas : gmap string Schema)
  : option (Dag + DagError) :=
  if MvRegistry_is_empty r && bool_decide (mr_base_tables r = ∅) then Some (inr EmptyDag) else
  match add_base_tables (str_iter (mr_base_tables r)) schemas StreamingDag_new with
  | inr e => Some (inr e)
  | inl dag =>
      match add_views (mr_topo_order r) r dag with
      | inr e => Some (inr e)
      | inl dag =>
          match connect_views (mr_topo_order r) r dag with
          | inr e => Some (inr e)
          | inl dag =>
              '(dag, res) ← StreamingDag_finalize dag;
              Some (match res with inl _ => inl dag | inr e => inr e end)
          end
      end
  end.

(** ** The graph under construction *)

(** The edges by name: a view once for each of its sources. *)
Definition mv_edges (r : Registry) (order : list string) : list (string * string) :=
  order ≫= λ n, match mr_views r !! n with Some v => (λ s, (s, n)) <$> mv_sources v | None => [] end.
(** The node of a base table or of a view. *)
Definition node_fits (r : Registry) (schemas : gmap string Schema) (name : string) (ty : DagNodeType) (schema : Schema) : Prop :=
  (name ∈ mr_base_tables r ∧ ty = NSource ∧ schemas !! name = Some schema) ∨
  (∃ v, mr_views r !! name = Some v ∧ ty = NMaterializedView ∧ schema = mv_schema v).
Definition node_of (r : Registry) (schemas : gmap string Schema) (node : DagNode (DataType:=DataType)) : Prop :=
  node_fits r schemas (dn_name node) (dn_node_type node) (dn_output_schema node).

(** ** The loops *)

Lemma add_base_tables_spec r schemas l : ∀ names d, built (node_fits r schemas) names [] d → NoDup l →
  (∀ x, x ∈ l → x ∈ mr_base_tables r ∧ x ∉ names) →
  Z.of_nat (length names + length l) <= 4294967295 →
  match add_base_tables l schemas d with
  | inl d' => built (node_fits r schemas) (names ++ l) [] d' ∧ ∀ x, x ∈ l → is_Some (schemas !! x)
  | inr e => ∃ t, e = BaseTableSchemaNotFound t ∧ t ∈ l ∧ schemas !! t = None
  end.
Proof.
  induction l as [|x l IH]; intros names d Hb Hnd Hl Hlen; cbn [add_base_tables].
  { rewrite app_nil_r. split; [done|]. by intros x ?%elem_of_nil. }
  apply NoDup_cons in Hnd as [Hx Hnd]. destruct (Hl x) as [Hxb Hxn]; [left|]. cbn [length] in Hlen.
  destruct (schemas !! x) as [schema|] eqn:Hs; [|exists x; split_and!; [done|left|done]].
  destruct (built_add_node (node_fits r schemas) names d x NSource schema) as (d' & id & -> & Hb'); [done|done|lia| |].
  { by left. }
  specialize (IH (names ++ [x]) d' Hb' Hnd). rewrite length_app, <- app_assoc in IH. cbn [length app] in IH.
  destruct (add_base_tables l schemas d') as [d2|e]; destruct IH as [IH1 IH2].
  - intros y Hy. destruct (Hl y) as [? ?]; [by right|]. split; [done|]. set_solver.
  - lia.
  - split; [done|]. intros y [->|Hy]%elem_of_cons; [by eexists|auto].
  - intros y Hy. destruct (Hl y) as [? ?]; [by right|]. split; [done|]. set_solver.
  - lia.
  - exists IH1. destruct IH2 as (? & ? & ?). split_and!; [done|by right|done].
Qed.

Lemma add_views_spec r schemas l : ∀ names d, built (node_fits r schemas) names [] d → NoDup l →
  (∀ x, x ∈ l → is_view r x) → Z.of_nat (length names + length l) <= 4294967295 →
  match add_views l r d with
  | inl d' => built (node_fits r schemas) (names ++ l) [] d' ∧ ∀ x, x ∈ l → x ∉ names
  | inr e => ∃ t, e = DuplicateNode t ∧ t ∈ l ∧ t ∈ names
  end.
Proof.
  induction l as [|x l IH]; intros names d Hb Hnd Hl Hlen; cbn [add_views].
  { rewrite app_nil_r. split; [done|]. by intros x ?%elem_of_nil. }
  apply NoDup_cons in Hnd as [Hx Hnd]. destruct (Hl x) as [v Hv]; [left|]. cbn [length] in Hlen.
  unfold MvRegistry_get. rewrite Hv. destruct (decide (x ∈ names)) as [Hin|Hin].
  { rewrite (built_duplicate (node_fits r schemas) names [] d) by done. exists x. split_and!; [done|left|done]. }
  destruct (built_add_node (node_fits r schemas) names d x NMaterializedView (mv_schema v)) as (d' & id & -> & Hb');
    [done|done|lia| |].
  { right. by exists v. }
  specialize (IH (names ++ [x]) d' Hb' Hnd). rewrite length_app, <- app_assoc in IH. cbn [length app] in IH.
  destruct (add_views l r d') as [d2|e]; destruct IH as [IH1 IH2]; try (intros; apply Hl; by right); try lia.
  - split; [done|]. intros y [->|Hy]%elem_of_cons; [done|]. specialize (IH2 y Hy). set_solver.
  - exists IH1. destruct IH2 as (? & Hy & Hn). split_and!; [done|by right|].
    apply elem_of_app in Hn as [| ->%list_elem_of_singleton]; done.
Qed.

Lemma connect_sources_spec r schemas names t b l : ∀ E d, built (node_fits r schemas) names E d →
  sd_name_index d !! t = Some b → (∀ s, s ∈ l → s ∈ names ∧ s ≠ t) →
  Z.of_nat (length E + length l) <= 4294967295 →
  ∃ d', connect_sources l b d = inl d' ∧ built (node_fits r schemas) names (E ++ ((λ s, (s, t)) <$> l)) d' ∧
    sd_name_index d' = sd_name_index d.
Proof.
  induction l as [|s l IH]; intros E d Hb Ht Hl Hlen; cbn [connect_sources fmap list_fmap].
  { exists d. by rewrite app_nil_r. }
  cbn [length] in Hlen. destruct (Hl s) as [Hs Hne]; [left|].
  destruct (built_add_edge (node_fits r schemas) names E d s t b) as (d1 & a & e & Ha & Hadd & Hb1 & Hidx); [done..|lia|].
  unfold StreamingDag_node_id_by_name. rewrite Ha, Hadd.
  destruct (IH (E ++ [(s, t)]) d1) as (d' & -> & Hb' & Hidx'); [done|by rewrite Hidx| | |].
  - intros; apply Hl; by right.
  - rewrite length_app. cbn. lia.
  - exists d'. split; [done|]. rewrite <- app_assoc in Hb'. split; [done|congruence].
Qed.

Lemma connect_views_spec r schemas names l : ∀ E d, built (node_fits r schemas) names E d →
  (∀ x, x ∈ l → is_view r x ∧ x ∈ names) →
  (∀ x v s, x ∈ l → mr_views r !! x = Some v → s ∈ mv_sources v → s ∈ names ∧ s ≠ x) →
  Z.of_nat (length E + length (mv_edges r l)) <= 4294967295 →
  ∃ d', connect_views l r d = inl d' ∧ built (node_fits r schemas) names (E ++ mv_edges r l) d'.
Proof.
  induction l as [|x l IH]; intros E d Hb Hl Hsrc Hlen; cbn [connect_views].
  { exists d. unfold mv_edges. cbn. by rewrite app_nil_r. }
  destruct (Hl x) as [[v Hv] Hx]; [left|]. unfold MvRegistry_get. rewrite Hv.
  apply (bu_names _ _ _ _ Hb) in Hx as [b Hbx]. unfold StreamingDag_node_id_by_name. rewrite Hbx.
  assert (Hcons : mv_edges r (x :: l) = ((λ s, (s, x)) <$> mv_sources v) ++ mv_edges r l).
  { unfold mv_edges. rewrite bind_cons. by rewrite Hv. }
  rewrite Hcons in *. rewrite length_app, length_fmap in Hlen.
  destruct (connect_sources_spec r schemas names x b (mv_sources v) E d) as (d1 & -> & Hb1 & Hidx); [done|done| |lia|].
  { intros s Hs. by apply (Hsrc x v s); [left|..]. }
  destruct (IH _ d1 Hb1) as (d' & -> & Hb'); [intros; apply Hl; by right|..].
  - intros y w s Hy. apply Hsrc. by right.
  - rewrite length_app, length_fmap. lia.
  - exists d'. by rewrite <- app_assoc in Hb'.
Qed.

(** ** The answer *)

Definition in_graph (r : Registry) (s : string) : Prop := s ∈ mr_base_tables r ∨ is_view r s.
(** A source without readers, or a view with neither sources nor readers. *)
Definition unconnected (r : Registry) (n : string) : Prop :=
  in_graph r n ∧ (∀ t, ¬ feeds r n t) ∧ (is_view r n → ∀ s, ¬ feeds r s n).

(** A finalized graph with the tables and views as nodes and the sources as edges. *)
Record dag_of (r : Registry) (schemas : gmap string Schema) (d : Dag) : Prop := {
  do_schemas t : t ∈ mr_base_tables r → is_Some (schemas !! t);
  do_disjoint n : n ∈ mr_base_tables r → ¬ is_view r n;
  do_fan_out n : (readers (mv_edges r (mr_topo_order r)) n <= MAX_FAN_OUT)%nat;
  do_connected n : ¬ unconnected r n;
  do_names s : is_Some (sd_name_index d !! s) ↔ in_graph r s;
  do_node n node : sd_nodes d !! n = Some node → node_of r schemas node;
  do_edge s t a b : sd_name_index d !! s = Some a → sd_name_index d !! t = Some b →
    dag_edge d a b ↔ feeds r s t;
  do_order : NoDup (sd_execution_order d) ∧ (∀ n, n ∈ sd_execution_order d ↔ is_Some (sd_nodes d !! n)) ∧
    topo_order d (sd_execution_order d) }.

Definition conversion_answer (r : Registry) (schemas : gmap string Schema) (res : Dag + DagError) : Prop :=
  match res with
  | inl d => dag_of r schemas d
  | inr EmptyDag => mr_views r = ∅ ∧ mr_base_tables r = ∅
  | inr (BaseTableSchemaNotFound t) => t ∈ mr_base_tables r ∧ schemas !! t = None
  | inr (DuplicateNode n) => n ∈ mr_base_tables r ∧ is_view r n
  | inr (FanOutLimitExceeded n count max) => max = MAX_FAN_OUT ∧ (max < count)%nat ∧
      count = readers (mv_edges r (mr_topo_order r)) n
  | inr (DisconnectedNode n) => unconnected r n
  | inr _ => False
  end.

Lemma elem_of_mv_edges r s t : mv_wf r → (s, t) ∈ mv_edges r (mr_topo_order r) ↔ feeds r s t.
Proof.
  intros [Hg Ht]. unfold mv_edges. rewrite list_elem_of_bind. split.
  - intros (n & Hin & _). destruct (mr_views r !! n) as [v|] eqn:Hv; [|by apply elem_of_nil in Hin].
    apply list_elem_of_fmap in Hin as (s' & [= -> ->] & Hs). unfold feeds. rewrite (go_deps r Hg), Hv.
    by apply elem_of_list_to_set.
  - intros Hf. pose proof (feeds_view r s t Hg Hf) as Hv. exists t. split; [|by apply (to_views _ _ Ht)].
    unfold feeds in Hf. rewrite (go_deps r Hg) in Hf. destruct Hv as [v Hv]. rewrite Hv in *.
    apply list_elem_of_fmap. exists s. split; [done|]. by apply elem_of_list_to_set in Hf.
Qed.

(** The graph once every edge is in, with the registry's graph for its own. *)
Record complete (r : Registry) (schemas : gmap string Schema) (d : Dag) : Prop := {
  co_built : ∃ names, built (node_fits r schemas) names (mv_edges r (mr_topo_order r)) d ∧
    ∀ s, s ∈ names ↔ in_graph r s;
  co_disjoint n : n ∈ mr_base_tables r → ¬ is_view r n;
  co_schemas t : t ∈ mr_base_tables r → is_Some (schemas !! t) }.

Lemma complete_edge r schemas d s t a b : mv_wf r → complete r schemas d →
  sd_name_index d !! s = Some a → sd_name_index d !! t = Some b → dag_edge d a b ↔ feeds r s t.
Proof.
  intros Hwf [(names & Hb & _) _ _] Ha Ht. rewrite (bu_edge _ _ _ _ Hb s t) by done. by apply elem_of_mv_edges.
Qed.

Lemma complete_acyclic r schemas d : mv_wf r → complete r schemas d → acyclic d.
Proof.
  intros Hwf [(names & Hb & _) _ _]. eapply built_acyclic; [exact Hb|]. intros n Hn. pose proof Hwf as [Hg _].
  apply (go_acyclic r Hg n). revert Hn. generalize n at 2 4. intros m Hm.
  induction Hm as [s t Hst|s t u Hst _ IH]; [apply tc_once|eapply tc_l; [|exact IH]]; by apply elem_of_mv_edges.
Qed.

Lemma complete_disconnected r schemas d n node : mv_wf r → complete r schemas d →
  sd_nodes d !! n = Some node → disconnected node = true ↔ unconnected r (dn_name node).
Proof.
  intros Hwf [(names & Hb & Hnames) Hdis _] Hn.
  destruct (bu_node _ _ _ _ Hb n node Hn) as (Hof & Ho & Hi).
  assert (Hin : in_graph r (dn_name node)).
  { apply Hnames, (bu_names _ _ _ _ Hb). exists n. apply (wf_names _ (bu_wf _ _ _ _ Hb)). eauto. }
  assert (Hout : bool_decide (dn_outputs node = []) = true ↔ ∀ t, ¬ feeds r (dn_name node) t).
  { rewrite bool_decide_eq_true, <- length_zero_iff_nil, Ho, readers_0.
    by setoid_rewrite (elem_of_mv_edges r _ _ Hwf). }
  assert (Hinp : bool_decide (dn_inputs node = []) = true ↔ ∀ s, ¬ feeds r s (dn_name node)).
  { rewrite bool_decide_eq_true, <- length_zero_iff_nil, Hi, inputs_0.
    by setoid_rewrite (elem_of_mv_edges r _ _ Hwf). }
  unfold disconnected, unconnected. destruct Hof as [(Hbase & -> & _)|(v & Hv & -> & _)].
  - rewrite Hout. split; [|tauto]. intros Hno. split_and!; [done..|]. intros Hv. by apply Hdis in Hv.
  - rewrite andb_true_iff, Hout, Hinp. assert (is_view r (dn_name node)) by (by eexists). tauto.
Qed.

Context `{!StrOrderLaws} `{!HashOrderLaws}.

Lemma finalized_dag_of r schemas d d' : mv_wf r → complete r schemas d →
  StreamingDag_finalize d = Some (d', inl tt) → finalize_answer d (inl tt) → dag_of r schemas d'.
Proof.
  intros Hwf Hc Hf (_ & Hfan & _ & Hcon). pose proof Hc as [(names & Hb & Hnames) Hdis Hsch].
  pose proof (bu_wf _ _ _ _ Hb) as Hd.
  pose proof (finalized_order d d' Hd Hf) as Hord.
  pose proof (finalize_same_graph d d' _ Hf) as ((Hn & Hi & _) & He).
  assert (Hidx : ∀ s, in_graph r s → ∃ n node, sd_nodes d !! n = Some node ∧ dn_name node = s).
  { intros s [n Hs]%Hnames%(bu_names _ _ _ _ Hb). apply (wf_names _ Hd) in Hs as (node & ? & ?). eauto. }
  split; try done.
  - intros n. destruct (decide (readers (mv_edges r (mr_topo_order r)) n <= MAX_FAN_OUT)%nat) as [|Hgt]; [done|].
    exfalso. destruct (decide (readers (mv_edges r (mr_topo_order r)) n = 0%nat)) as [Hz|Hz]; [lia|].
    assert (Hin : in_graph r n).
    { destruct (filter (λ e, e.1 = n) (mv_edges r (mr_topo_order r))) as [|[s t] k] eqn:E;
        [unfold readers in Hz; by rewrite E in Hz|].
      assert (Hst : (s, t) ∈ filter (λ e, e.1 = n) (mv_edges r (mr_topo_order r))) by (rewrite E; left).
      apply list_elem_of_filter in Hst as [Heq Hst]. cbn in Heq. subst s.
      apply elem_of_mv_edges in Hst; [|done]. destruct Hwf as [Hg _]. destruct (go_src r Hg n t Hst); [by right|by left]. }
    destruct (Hidx n Hin) as (id & node & Hnode & <-). apply Hfan in Hnode as Hle.
    apply (bu_node _ _ _ _ Hb) in Hnode as (_ & Ho & _). lia.
  - intros n Hun. destruct (Hidx n) as (id & node & Hnode & <-); [apply Hun|].
    apply (complete_disconnected r schemas d id node) in Hun; [|done..]. apply Hcon in Hnode as Hat. by apply (disconnected_attached d id node Hd Hnode) in Hun.
  - intros s. rewrite Hi, <- Hnames. apply (bu_names _ _ _ _ Hb).
  - intros n node. rewrite Hn. intros Hnode. by apply (bu_node _ _ _ _ Hb) in Hnode as [? _].
  - intros s t a b. rewrite Hi. intros Ha Ht.
    rewrite <- (complete_edge r schemas d s t a b) by done. by eapply finalized_edges.
Qed.

Lemma finalize_error_answer r schemas d e : mv_wf r → complete r schemas d → (∃ s, in_graph r s) →
  finalize_answer d (inr e) → conversion_answer r schemas (inr e).
Proof.
  intros Hwf Hc [s Hs] Ha. pose proof Hc as [(names & Hb & Hnames) _ _].
  pose proof (bu_wf _ _ _ _ Hb) as Hd. destruct e; try done; cbn in Ha |- *.
  - destruct Ha as [_ Ha]. destruct Ha. by eapply complete_acyclic.
  - destruct Ha as (_ & _ & n & nd & Hn & -> & Hdis).
    apply (complete_disconnected r schemas d n nd); [done..|].
    destruct (disconnected nd) eqn:E; [done|]. by destruct Hdis; apply (disconnected_attached d n nd Hd Hn).
  - destruct Ha as (n & nd & Hn & -> & -> & -> & Hlt). split_and!; [done..|].
    by apply (bu_node _ _ _ _ Hb) in Hn as (_ & Ho & _).
  - apply Hnames, (bu_names _ _ _ _ Hb) in Hs as [n Hn]. apply (wf_names _ Hd) in Hn as (nd & Hn & _).
    by rewrite Ha in Hn.
Qed.

Lemma from_mv_registry_spec r schemas : mv_wf r →
  Z.of_nat (size (mr_base_tables r) + size (mr_views r)) <= 4294967295 →
  Z.of_nat (length (mv_edges r (mr_topo_order r))) <= 4294967295 →
  ∃ res, from_mv_registry r schemas = Some res ∧ conversion_answer r schemas res.
Proof.
  intros Hwf Hnodes Hedges. pose proof Hwf as [Hg Ht]. unfold from_mv_registry, MvRegistry_is_empty.
  destruct (bool_decide (mr_views r = ∅) && bool_decide (mr_base_tables r = ∅)) eqn:Hempty.
  { eexists. split; [done|]. by rewrite andb_true_iff, !bool_decide_eq_true in Hempty. }
  pose proof (add_base_tables_spec r schemas (str_iter (mr_base_tables r)) [] StreamingDag_new
    (built_new (node_fits r schemas)) (NoDup_str_iter _)) as Hbase.
  assert (Hin : ∀ x, x ∈ str_iter (mr_base_tables r) → x ∈ mr_base_tables r ∧ x ∉ []).
  { intros x Hx. split; [by apply elem_of_str_iter|apply not_elem_of_nil]. }
  assert (Hsize : length (str_iter (mr_base_tables r)) = size (mr_base_tables r)) by (by rewrite str_iter_perm).
  destruct (add_base_tables _ schemas _) as [d1|e].
  2:{ destruct Hbase as (t & -> & Ht' & Hs); [done|cbn; lia|].
      eexists. split; [done|]. split; [by apply elem_of_str_iter|done]. }
  destruct Hbase as [Hb1 Hsch]; [done|cbn; lia|]. cbn [app] in Hb1.
  pose proof (add_views_spec r schemas (mr_topo_order r) _ d1 Hb1 (to_nodup _ _ Ht)) as Hviews.
  assert (Hlen : Z.of_nat (length (str_iter (mr_base_tables r)) + length (mr_topo_order r)) <= 4294967295).
  { rewrite (topo_length r _ Ht). lia. }
  destruct (add_views (mr_topo_order r) r d1) as [d2|e].
  2:{ destruct Hviews as (t & -> & Ht' & Hs); [by intros x ?%(to_views _ _ Ht)|done|].
      eexists. split; [done|]. split; [by apply elem_of_str_iter|by apply (to_views _ _ Ht)]. }
  destruct Hviews as [Hb2 Hdis]; [by intros x ?%(to_views _ _ Ht)|done|].
  assert (Hnames : ∀ s, s ∈ str_iter (mr_base_tables r) ++ mr_topo_order r ↔ in_graph r s).
  { intros s. rewrite elem_of_app, elem_of_str_iter, (to_views _ _ Ht). done. }
  destruct (connect_views_spec r schemas _ (mr_topo_order r) [] d2 Hb2) as (d3 & -> & Hb3).
  { intros x Hx. split; [by apply (to_views _ _ Ht)|]. set_solver. }
  { intros x v s Hx Hv Hs. assert (Hf : feeds r s x).
    { unfold feeds. rewrite (go_deps r Hg), Hv. by apply elem_of_list_to_set. }
    split; [apply Hnames; destruct (go_src r Hg s x Hf); [by right|by left]|].
    intros ->. by apply (go_acyclic r Hg x), tc_once. }
  { done. }
  cbn [app] in Hb3. assert (Hc : complete r schemas d3).
  { split; [eexists; split; [done|exact Hnames]| |].
    - intros n Hn Hv. apply (Hdis n); [by apply (to_views _ _ Ht)|by apply elem_of_str_iter].
    - intros t Ht'. by apply Hsch, elem_of_str_iter. }
  destruct (finalize_spec d3 (bu_wf _ _ _ _ Hb3)) as (d' & res & Hf & Ha & _). rewrite Hf. cbn [mbind option_bind].
  eexists. split; [done|]. destruct res as [[]|e]; [by eapply finalized_dag_of|].
  eapply finalize_error_answer; [done|done| |done].
  rewrite andb_false_iff, !bool_decide_eq_false in Hempty. destruct Hempty as [Hv|Hv].
  - apply map_choose in Hv as (s & v & Hv). exists s. right. by exists v.
  - apply set_choose_L in Hv as [s Hv]. exists s. by left.
Qed.
End Convert.

(** ** Properties *)

(** [C8]: [from_mv_registry] always answers on a registry built by the operations
    (with at most 2^32 - 1 nodes and edges), and the answer is exact. Ok gives a
    finalized graph whose nodes are the base tables (sources, with the given
    schemas) and the views (with theirs) and whose edges are the sources of the
    views, in a topological order; this needs a schema for every base table, no
    view named like a table, at most [MAX_FAN_OUT] readers, no table without
    readers and no view with neither sources nor readers. Each error names what
    is missing; a cycle or a missing node is never reported. *)
Theorem mv_registry_to_dag {DataType} `{!StrOrder} `{!StrOrderLaws} `{!HashOrder} `{!HashOrderLaws}
    (r : MvRegistry (DataType:=DataType)) schemas : mv_reach r →
  Z.of_nat (size (mr_base_tables r) + size (mr_views r)) <= 4294967295 →
  Z.of_nat (length (mv_edges r (mr_topo_order r))) <= 4294967295 →
  ∃ res, from_mv_registry r schemas = Some res ∧ conversion_answer r schemas res.
Proof. intros Hr. by apply from_mv_registry_spec, mv_reach_wf. Qed.

(** The diamond is converted; with an unused base table it is refused. *)
Lemma mv_registry_to_dag_witness :
  (∃ d, from_mv_registry diamond_views {["trades" := []]} = Some (inl d) ∧
     sd_execution_order d = [0; 1; 2; 3] ∧ dag_of diamond_views {["trades" := []]} d) ∧
  from_mv_registry (MvRegistry_register_base_table "spare" diamond_views)
    {["trades" := []; "spare" := []]} = Some (inr (DisconnectedNode "spare")) ∧
  unconnected (MvRegistry_register_base_table "spare" diamond_views) "spare".
Proof.
  split.
  - destruct (mv_registry_to_dag diamond_views {["trades" := []]} diamond_views_reach) as (res & Heq & Ha);
      [by vm_compute..|].
    assert (Hc : (λ x, match x with inl d => Some (sd_execution_order d) | inr _ => None end) <$>
      from_mv_registry diamond_views {["trades" := []]} = Some (Some [0; 1; 2; 3])) by (by vm_compute).
    rewrite Heq in Hc. destruct res as [d|e]; [|discriminate]. injection Hc as Hc. exists d.
    split; [exact Heq|]. split; [exact Hc|exact Ha].
  - destruct (mv_registry_to_dag (MvRegistry_register_base_table "spare" diamond_views)
      {["trades" := []; "spare" := []]}) as (res & Heq & Ha);
      [apply mv_reach_base, diamond_views_reach|by vm_compute..|].
    assert (Hc : (λ x, match x with inl _ => None | inr e => Some e end) <$>
      from_mv_registry (MvRegistry_register_base_table "spare" diamond_views)
        {["trades" := []; "spare" := []]} = Some (Some (DisconnectedNode "spare"))) by (by vm_compute).
    rewrite Heq in Hc. destruct res as [d|e]; [discriminate|]. injection Hc as ->.
    split; [exact Heq|exact Ha].
Defined.
