(* ===== verification/SortOps.v ===== *)
(** * The sorting operators

    operator/watermark_sort.rs: [WatermarkBoundedSortOperator] buffers events and
    emits them sorted when the watermark advances. operator/window_sort.rs:
    [WindowLocalSortOperator] does so per window, with an optional limit. Buffered
    events are the entries of [TopK] (a sort key and an event); [sort_by] is a
    stable insertion sort; hash maps iterate in the order of [HashOrder]. [None] is
    a panic; [Vec::with_capacity] is left out. *)

From stdpp Require Import pretty.
From S2P Require Import Prelude StateStore TimeCore WindowCore TumblingOp DagTopology SortKeys TopK.

(** ** [sort_by] on the sort keys *)

Section Sort.
Context {B : Type}.
Abbreviation Entry := (TopKEntry (B:=B)).

Fixpoint insert_sorted (x : Entry) (l : list Entry) : list Entry :=
  match l with
  | [] => [x]
  | y :: l => if decide (bytes_le (te_sort_key x) (te_sort_key y)) then x :: y :: l
              else y :: insert_sorted x l
  end.
Definition sort_buffer (l : list Entry) : list Entry := foldr insert_sorted [] l.
End Sort.

Section SortOperators.
Context {B : Type} `{!ArrowBatch B}.
Abbreviation Entry := (TopKEntry (B:=B)).

(** ** Between watermarks *)

Record WatermarkBoundedSortOperator := mkWSort {
  ws_operator_id : string;
  ws_sort_columns : list TopKSortColumn;
  ws_buffer : list Entry;
  ws_max_buffer_size : nat;
  ws_last_watermark : Z;
  ws_late_events_dropped : Z;
  ws_cached_sort_indices : list (option nat) }.

Definition WatermarkBoundedSortOperator_new (operator_id : string) (sort_columns : list TopKSortColumn)
    (max_buffer_size : nat) : WatermarkBoundedSortOperator :=
  mkWSort operator_id sort_columns [] max_buffer_size i64_MIN 0 (replicate (length sort_columns) None).

Definition WSort_buffer_size (op : WatermarkBoundedSortOperator) : nat := length (ws_buffer op).
Definition WSort_is_buffer_empty (op : WatermarkBoundedSortOperator) : bool := bool_decide (ws_buffer op = []).

Definition ws_with (buffer : list Entry) (wm late : Z) (cached : list (option nat))
    (op : WatermarkBoundedSortOperator) : WatermarkBoundedSortOperator :=
  mkWSort (ws_operator_id op) (ws_sort_columns op) buffer (ws_max_buffer_size op) wm late cached.

Definition on_watermark_advance (new_watermark : Z) (op : WatermarkBoundedSortOperator)
  : WatermarkBoundedSortOperator * list (Output B) :=
  if new_watermark <=? ws_last_watermark op then (op, []) else
  (ws_with [] new_watermark (ws_late_events_dropped op) (ws_cached_sort_indices op) op,
   (OutEvent <$> (te_event <$> sort_buffer (ws_buffer op))) ++ [OutWatermark new_watermark]).

(** The same loop as in topk.rs. *)
Definition WSort_extract_sort_key (event : Event B) (op : WatermarkBoundedSortOperator)
  : option (list (option nat) * bytes) :=
  extract_sort_key micros_only (ev_data event) (ws_sort_columns op) (ws_cached_sort_indices op).

(** The key is extracted and the event pushed. *)
Definition push_sorted (event : Event B) (op : WatermarkBoundedSortOperator)
  : option WatermarkBoundedSortOperator :=
  '(cached, sort_key) ← WSort_extract_sort_key event op;
  Some (ws_with (ws_buffer op ++ [mkEntry sort_key event]) (ws_last_watermark op)
          (ws_late_events_dropped op) cached op).

Definition WSort_process (event : Event B) (op : WatermarkBoundedSortOperator)
  : option (WatermarkBoundedSortOperator * list (Output B)) :=
  if ev_timestamp event <=? ws_last_watermark op then
    Some (ws_with (ws_buffer op) (ws_last_watermark op) (wrap_u64 (ws_late_events_dropped op + 1))
            (ws_cached_sort_indices op) op, [])
  else if decide (ws_max_buffer_size op <= length (ws_buffer op))%nat then
    let '(op, outputs) := on_watermark_advance (ev_timestamp event) op in
    op ← push_sorted event op; Some (op, outputs)
  else op ← push_sorted event op; Some (op, []).

Definition WSort_on_timer (timer : Timer) (op : WatermarkBoundedSortOperator)
  : WatermarkBoundedSortOperator * list (Output B) := on_watermark_advance (tm_timestamp timer) op.

Definition timestamps_bytes (l : list Entry) : bytes := l ≫= λ e, to_le 8 (ev_timestamp (te_event e)).

Definition WSort_checkpoint (op : WatermarkBoundedSortOperator) : OperatorState :=
  mkOperatorState (ws_operator_id op) 1
    (to_le 8 (ws_last_watermark op) ++ to_le 8 (ws_late_events_dropped op) ++
     to_le 8 (zlen (ws_buffer op)) ++ timestamps_bytes (ws_buffer op)).

(** Restored events have an empty key and a batch without columns. *)
Fixpoint restore_timestamps (message : string) (count : nat) (data : bytes) (offset : Z) (buffer : list Entry)
  : option (list Entry * (Z + OperatorError)) :=
  match count with
  | O => Some (buffer, inl offset)
  | S count =>
      if zlen data <? usize_add offset 8 then Some (buffer, inr (SerializationFailed message)) else
      ts ← i64_at data offset;
      restore_timestamps message count data (usize_add offset 8)
        (buffer ++ [mkEntry [] (mkEvent ts empty_batch)])
  end.

Definition WSort_restore (state : OperatorState) (op : WatermarkBoundedSortOperator)
  : option (WatermarkBoundedSortOperator * (unit + OperatorError)) :=
  let data := os_data state in
  if decide (length data < 24)%nat
  then Some (op, inr (SerializationFailed "WatermarkSort checkpoint data too short")) else
  wm ← i64_at data 0;
  late ← u64_at data 8;
  buf_len ← u64_at data 16;
  '(buffer, res) ← restore_timestamps "WatermarkSort checkpoint truncated" (Z.to_nat buf_len) data 24 [];
  Some (ws_with buffer wm late (ws_cached_sort_indices op) op,
        match res with inl _ => inl tt | inr e => inr e end).

(** ** Within windows *)

Record WindowLocalSortOperator := mkWLSort {
  wl_operator_id : string;
  wl_sort_columns : list TopKSortColumn;
  wl_window_buffers : gmap Z (list Entry);
  wl_current_watermark : Z;
  wl_limit : option nat;
  wl_cached_sort_indices : list (option nat) }.

Definition WindowLocalSortOperator_new (operator_id : string) (sort_columns : list TopKSortColumn)
    (limit : option nat) : WindowLocalSortOperator :=
  mkWLSort operator_id sort_columns ∅ i64_MIN limit (replicate (length sort_columns) None).

Definition wl_with (buffers : gmap Z (list Entry)) (wm : Z) (cached : list (option nat))
    (op : WindowLocalSortOperator) : WindowLocalSortOperator :=
  mkWLSort (wl_operator_id op) (wl_sort_columns op) buffers wm (wl_limit op) cached.

Definition active_window_count (op : WindowLocalSortOperator) : nat := size (wl_window_buffers op).

(** The same loop, with timestamps of any unit. *)
Definition WLSort_extract_sort_key (event : Event B) (op : WindowLocalSortOperator)
  : option (list (option nat) * bytes) :=
  extract_sort_key any_unit (ev_data event) (wl_sort_columns op) (wl_cached_sort_indices op).

Definition buffer_event (window_start : Z) (event : Event B) (op : WindowLocalSortOperator)
  : option WindowLocalSortOperator :=
  '(cached, sort_key) ← WLSort_extract_sort_key event op;
  let buffered := default [] (wl_window_buffers op !! window_start) ++ [mkEntry sort_key event] in
  Some (wl_with (<[window_start := buffered]> (wl_window_buffers op)) (wl_current_watermark op) cached op).

Definition sort_and_emit_window (window_start : Z) (op : WindowLocalSortOperator)
  : WindowLocalSortOperator * list (Output B) :=
  match wl_window_buffers op !! window_start with
  | None => (op, [])
  | Some buffer =>
      let limit := default (length buffer) (wl_limit op) in
      (wl_with (delete window_start (wl_window_buffers op)) (wl_current_watermark op)
         (wl_cached_sort_indices op) op,
       OutEvent <$> (te_event <$> take limit (sort_buffer buffer)))
  end.

Fixpoint emit_windows (windows : list Z) (op : WindowLocalSortOperator)
  : WindowLocalSortOperator * list (Output B) :=
  match windows with
  | [] => (op, [])
  | window_start :: windows =>
      let '(op, out) := sort_and_emit_window window_start op in
      let '(op, outs) := emit_windows windows op in
      (op, out ++ outs)
  end.

Section Ordered.
Context `{!HashOrder}.

Definition total_buffered_events (op : WindowLocalSortOperator) : nat :=
  sum_list (length <$> hash_values (wl_window_buffers op)).

Definition closed_windows (op : WindowLocalSortOperator) : list Z :=
  merge_sort Z.le (filter (λ ws, ws < wl_current_watermark op) (hash_keys (wl_window_buffers op))).

Definition check_and_emit_closed_windows (op : WindowLocalSortOperator)
  : WindowLocalSortOperator * list (Output B) := emit_windows (closed_windows op) op.

Definition WLSort_on_timer (timer : Timer) (op : WindowLocalSortOperator)
  : WindowLocalSortOperator * list (Output B) :=
  check_and_emit_closed_windows
    (wl_with (wl_window_buffers op) (tm_timestamp timer) (wl_cached_sort_indices op) op).

Definition window_bytes (w : Z * list Entry) : bytes :=
  to_le 8 w.1 ++ to_le 8 (zlen w.2) ++ timestamps_bytes w.2.

Definition WLSort_checkpoint (op : WindowLocalSortOperator) : OperatorState :=
  mkOperatorState (wl_operator_id op) 1
    (to_le 8 (wl_current_watermark op) ++ to_le 8 (Z.of_nat (size (wl_window_buffers op))) ++
     (hash_iter (wl_window_buffers op) ≫= window_bytes)).
End Ordered.

Definition WLSort_process (event : Event B) (op : WindowLocalSortOperator)
  : option (WindowLocalSortOperator * list (Output B)) :=
  op ← buffer_event (ev_timestamp event) event op; Some (op, []).

Definition restore_window (data : bytes) (offset : Z) : option ((Z * list Entry) * Z + OperatorError) :=
  if zlen data <? usize_add offset 16
  then Some (inr (SerializationFailed "WindowLocalSort checkpoint truncated")) else
  window_start ← i64_at data offset;
  let offset := usize_add offset 8 in
  count ← u64_at data offset;
  '(buffer, res) ← restore_timestamps "WindowLocalSort checkpoint truncated at events" (Z.to_nat count) data
                     (usize_add offset 8) [];
  Some (match res with inl offset => inl ((window_start, buffer), offset) | inr e => inr e end).

Fixpoint restore_windows (count : nat) (data : bytes) (offset : Z) (buffers : gmap Z (list Entry))
  : option (gmap Z (list Entry) * (unit + OperatorError)) :=
  match count with
  | O => Some (buffers, inl tt)
  | S count =>
      res ← restore_window data offset;
      match res with
      | inr e => Some (buffers, inr e)
      | inl ((window_start, buffer), offset) =>
          restore_windows count data offset (<[window_start := buffer]> buffers)
      end
  end.

Definition WLSort_restore (state : OperatorState) (op : WindowLocalSortOperator)
  : option (WindowLocalSortOperator * (unit + OperatorError)) :=
  let data := os_data state in
  if decide (length data < 16)%nat
  then Some (op, inr (SerializationFailed "WindowLocalSort checkpoint data too short")) else
  wm ← i64_at data 0;
  num_windows ← u64_at data 8;
  '(buffers, res) ← restore_windows (Z.to_nat num_windows) data 16 ∅;
  Some (wl_with buffers wm (wl_cached_sort_indices op) op, res).
End SortOperators.

(** ** The sort *)

Section SortFacts.
Context {B : Type}.
Abbreviation Entry := (TopKEntry (B:=B)).
Implicit Types (l : list Entry).

Lemma insert_sorted_perm x l : insert_sorted x l ≡ₚ x :: l.
Proof.
  induction l as [|y l IH]; [done|]. cbn. case_decide; [done|]. rewrite IH. constructor.
Qed.

Lemma sort_buffer_perm l : sort_buffer l ≡ₚ l.
Proof.
  induction l as [|x l IH]; [done|]. cbn [sort_buffer foldr]. rewrite insert_sorted_perm. by constructor.
Qed.

Lemma insert_sorted_sorted x l : entries_sorted l → entries_sorted (insert_sorted x l).
Proof.
  unfold entries_sorted. induction 1 as [|y l Hs IH Hy]; cbn; [repeat constructor|]. case_decide as Hxy.
  - constructor; [by constructor|]. constructor; [done|]. eapply Forall_impl; [exact Hy|].
    intros z Hz. by apply (entry_le_trans x y z).
  - constructor; [done|]. rewrite insert_sorted_perm. constructor; [|done].
    unfold entry_le. destruct (total bytes_le (te_sort_key x) (te_sort_key y)); done.
Qed.

Lemma sort_buffer_sorted l : entries_sorted (sort_buffer l).
Proof. induction l as [|x l IH]; [constructor|]. by apply insert_sorted_sorted. Qed.

(** Entries with equal keys stay in their order. *)
Lemma sort_buffer_stable l k :
  filter (λ x, te_sort_key x = k) (sort_buffer l) = filter (λ x, te_sort_key x = k) l.
Proof.
  assert (Hins : ∀ x l, filter (λ x, te_sort_key x = k) (insert_sorted x l)
    = filter (λ x, te_sort_key x = k) (x :: l)).
  { clear. intros x l. induction l as [|y l IH]; [done|]. cbn [insert_sorted]. case_decide as Hxy; [done|].
    rewrite filter_cons, IH, !filter_cons.
    destruct (decide (te_sort_key y = k)) as [Hy|], (decide (te_sort_key x = k)) as [Hx|]; try done.
    destruct Hxy. rewrite Hx, Hy. apply bytes_le_lt_eq. by right. }
  induction l as [|x l IH]; [done|]. cbn [sort_buffer foldr]. rewrite Hins, !filter_cons.
  fold (sort_buffer l). by rewrite IH.
Qed.
End SortFacts.

(** ** Runs of the watermark sort *)

Section WSortFacts.
Context {B : Type} `{AB : !ArrowBatch B}.
Abbreviation Entry := (TopKEntry (B:=B)).
Abbreviation WSort := (WatermarkBoundedSortOperator (B:=B)).

Inductive WSortInput := WsEvent (e : Event B) | WsTimer (t : Timer).

Definition WSort_step (i : WSortInput) (op : WSort) : option (WSort * list (Output B)) :=
  match i with WsEvent e => WSort_process e op | WsTimer t => Some (WSort_on_timer t op) end.

(** The outputs of each input. *)
Fixpoint WSort_run (inputs : list WSortInput) (op : WSort) : option (WSort * list (list (Output B))) :=
  match inputs with
  | [] => Some (op, [])
  | i :: inputs =>
      '(op, out) ← WSort_step i op;
      '(op, outs) ← WSort_run inputs op;
      Some (op, out :: outs)
  end.

Definition sorted_inputs (inputs : list WSortInput) : list (Event B) :=
  inputs ≫= λ i, match i with WsEvent e => [e] | WsTimer _ => [] end.
Definition emitted (outs : list (Output B)) : list (Event B) :=
  outs ≫= λ o, match o with OutEvent e => [e] | _ => [] end.
Definition watermarks (outs : list (Output B)) : list Z :=
  outs ≫= λ o, match o with OutWatermark w => [w] | _ => [] end.

(** Nothing, or events in the order of their rows and then a watermark. *)
Definition sorted_batch (columns : list TopKSortColumn) (out : list (Output B)) : Prop :=
  out = [] ∨ ∃ es w, out = (OutEvent <$> es) ++ [OutWatermark w] ∧ StronglySorted (row_le columns) es.

Lemma emitted_app o o' : emitted (o ++ o') = emitted o ++ emitted o'.
Proof. apply bind_app. Qed.
Lemma watermarks_app o o' : watermarks (o ++ o') = watermarks o ++ watermarks o'.
Proof. apply bind_app. Qed.
Lemma emitted_events (es : list (Event B)) : emitted (OutEvent <$> es) = es.
Proof. induction es as [|e es IH]; [done|]. unfold emitted. cbn [fmap list_fmap]. rewrite bind_cons. cbn. by f_equal. Qed.
Lemma watermarks_events (es : list (Event B)) : watermarks (OutEvent <$> es) = [].
Proof. induction es as [|e es IH]; [done|]. unfold watermarks. cbn [fmap list_fmap]. by rewrite bind_cons. Qed.

(** What has happened to the events so far. *)
Record ws_inv (columns : list TopKSortColumn) (indices : list (option nat)) (events accepted late : list (Event B))
    (outs : list (Output B)) (op : WSort) : Prop := {
  wi_columns : ws_sort_columns op = columns;
  wi_cache : cache_ok (ws_cached_sort_indices op) indices;
  wi_split : accepted ++ late ≡ₚ events;
  wi_accepted : emitted outs ++ (te_event <$> ws_buffer op) ≡ₚ accepted;
  wi_keys : Forall (λ x, x = entry_of columns (te_event x)) (ws_buffer op);
  wi_late : Forall (λ e, ev_timestamp e <= ws_last_watermark op) late;
  wi_count : ws_late_events_dropped op = wrap_u64 (zlen late);
  wi_bound : (length (ws_buffer op) <= 1 `max` ws_max_buffer_size op)%nat;
  wi_watermarks : StronglySorted Z.lt (watermarks outs) ∧
    Forall (λ w, w <= ws_last_watermark op) (watermarks outs) }.

Lemma sorted_rows columns events (buffer : list Entry) : one_schema columns events →
  Forall (λ x, x = entry_of columns (te_event x)) buffer → (∀ x, x ∈ buffer → te_event x ∈ events) →
  entries_sorted buffer → StronglySorted (row_le columns) (te_event <$> buffer).
Proof.
  intros Hos Hk Hin Hs. induction Hs as [|x l _ IH Hx]; cbn; constructor.
  - apply IH; [by apply Forall_cons in Hk as [_ ?]|set_solver].
  - apply Forall_cons in Hk as [Hkx Hkl]. rewrite Forall_forall in Hkl, Hx. apply Forall_fmap, Forall_forall.
    intros y Hy. apply (entry_le_rows columns events); [done|set_solver|set_solver|].
    rewrite <- Hkx, <- (Hkl y Hy). by apply Hx.
Qed.

Lemma ws_inv_advance columns indices events accepted late outs op w :
  ws_inv columns indices events accepted late outs op →
  let '(op', out) := on_watermark_advance w op in
  ws_inv columns indices events accepted late (outs ++ out) op' ∧
  ws_max_buffer_size op' = ws_max_buffer_size op ∧ (one_schema columns events → sorted_batch columns out) ∧
  (ws_last_watermark op < w → ws_buffer op' = [] ∧ ws_last_watermark op' = w).
Proof.
  intros Hinv. pose proof Hinv as [Hc Hi Hsp Ha Hk Hl Hn Hb [Hws Hwl]]. unfold on_watermark_advance.
  destruct (Z.leb_spec w (ws_last_watermark op)).
  { rewrite app_nil_r. split_and!; [done|done|by left|lia]. }
  split_and!; [split; cbn [ws_with ws_sort_columns ws_cached_sort_indices ws_buffer ws_last_watermark
      ws_late_events_dropped ws_max_buffer_size]|done| |done].
  - done.
  - done.
  - done.
  - rewrite !emitted_app, emitted_events. cbn. rewrite !app_nil_r, sort_buffer_perm. done.
  - constructor.
  - eapply Forall_impl; [exact Hl|]. cbn. lia.
  - done.
  - cbn. lia.
  - rewrite !watermarks_app, watermarks_events. cbn. split.
    + apply StronglySorted_app_2; [|done|repeat constructor].
      intros x y Hx ->%list_elem_of_singleton. rewrite Forall_forall in Hwl. specialize (Hwl x Hx). lia.
    + apply Forall_app. split; [|repeat constructor; lia]. eapply Forall_impl; [exact Hwl|]. cbn. lia.
  - intros Hos. right. eexists _, _. split; [done|]. apply (sorted_rows columns events); [done| | |apply sort_buffer_sorted].
    + by rewrite sort_buffer_perm.
    + intros x. rewrite sort_buffer_perm. intros Hx. rewrite <- Hsp, <- Ha. apply elem_of_app. left.
      apply elem_of_app. right. by apply list_elem_of_fmap_2.
Qed.

Lemma ws_inv_push columns indices events accepted late outs op e : readable columns indices e →
  ws_inv columns indices events accepted late outs op →
  (length (ws_buffer op) < 1 `max` ws_max_buffer_size op)%nat →
  ∃ op', push_sorted e op = Some op' ∧ ws_inv columns indices (e :: events) (e :: accepted) late outs op' ∧
    ws_max_buffer_size op' = ws_max_buffer_size op ∧ ws_last_watermark op' = ws_last_watermark op ∧
    ws_buffer op' = ws_buffer op ++ [entry_of columns e].
Proof.
  intros Hr [Hc Hi Hsp Ha Hk Hl Hn Hb Hw] Hlt. unfold push_sorted, WSort_extract_sort_key.
  rewrite Hc, (extract_readable columns indices _ e Hr Hi). cbn [mbind option_bind].
  eexists. split; [done|]. split; [|done].
  split; cbn [ws_with ws_sort_columns ws_cached_sort_indices ws_buffer ws_last_watermark
      ws_late_events_dropped ws_max_buffer_size]; try done.
  - apply cache_ok_refl.
  - cbn. by constructor.
  - rewrite fmap_app. cbn. rewrite app_assoc, Ha. symmetry. apply Permutation_cons_append.
  - apply Forall_app. split; [done|]. by repeat constructor.
  - rewrite length_app. cbn [length]. lia.
Qed.

Lemma ws_inv_event columns indices events accepted late outs op e : readable columns indices e →
  ws_inv columns indices events accepted late outs op →
  ∃ op' out accepted' late', WSort_process e op = Some (op', out) ∧
    ws_inv columns indices (e :: events) accepted' late' (outs ++ out) op' ∧
    ws_max_buffer_size op' = ws_max_buffer_size op ∧ (one_schema columns events → sorted_batch columns out).
Proof.
  intros Hr Hinv. pose proof Hinv as [Hc Hi Hsp Ha Hk Hl Hn Hb Hw]. unfold WSort_process.
  destruct (Z.leb_spec (ev_timestamp e) (ws_last_watermark op)) as [Hlate|Htime].
  { eexists _, [], accepted, (e :: late). rewrite app_nil_r. split; [done|]. split; [|by split; [|left]].
    split; cbn [ws_with ws_sort_columns ws_cached_sort_indices ws_buffer ws_last_watermark
      ws_late_events_dropped ws_max_buffer_size]; try done.
    - rewrite <- Permutation_middle. by constructor.
    - by constructor.
    - rewrite Hn. cbn [length]. rewrite Nat2Z.inj_succ. unfold wrap_u64. by rewrite Zplus_mod_idemp_l. }
  case_decide as Hfull.
  - pose proof (ws_inv_advance columns indices events accepted late outs op (ev_timestamp e) Hinv) as Hadv.
    destruct (on_watermark_advance (ev_timestamp e) op) as [op1 out]. destruct Hadv as (Hinv1 & Hm1 & Hsb & Hdr).
    destruct (Hdr Htime) as [Hempty _].
    destruct (ws_inv_push columns indices events accepted late (outs ++ out) op1 e Hr Hinv1) as (op' & -> & Hinv' & Hm' & _).
    { rewrite Hempty. cbn [length]. lia. }
    cbn [mbind option_bind]. exists op', out, (e :: accepted), late. split; [done|]. split; [done|]. split; [congruence|done].
  - destruct (ws_inv_push columns indices events accepted late outs op e Hr Hinv) as (op' & -> & Hinv' & Hm' & _).
    { lia. }
    cbn [mbind option_bind]. exists op', [], (e :: accepted), late. rewrite app_nil_r.
    split; [done|]. split; [done|]. split; [done|]. by left.
Qed.

Lemma one_schema_sub columns (events all : list (Event B)) : (∀ e, e ∈ events → e ∈ all) →
  one_schema columns all → one_schema columns events.
Proof.
  intros Hsub [(indices & Hl & Hr) Hc Ht]. split.
  - exists indices. split; [done|]. rewrite Forall_forall in *. auto.
  - auto.
  - auto.
Qed.

Lemma ws_run_inv columns indices inputs : ∀ events accepted late outs op,
  ws_inv columns indices events accepted late outs op →
  Forall (readable columns indices) (sorted_inputs inputs) →
  ∃ op' outs' accepted' late', WSort_run inputs op = Some (op', outs') ∧
    ws_inv columns indices (reverse (sorted_inputs inputs) ++ events) accepted' late' (outs ++ concat outs') op' ∧
    ws_max_buffer_size op' = ws_max_buffer_size op ∧
    (one_schema columns (reverse (sorted_inputs inputs) ++ events) → Forall (sorted_batch columns) outs').
Proof.
  induction inputs as [|i inputs IH]; intros events accepted late outs op Hinv Hr; cbn [WSort_run].
  { exists op, [], accepted, late. cbn. rewrite app_nil_r. split_and!; [done..|constructor]. }
  unfold sorted_inputs in Hr |- *. rewrite bind_cons in Hr |- *. fold (sorted_inputs inputs) in Hr |- *.
  apply Forall_app in Hr as [Hi Hr].
  set (new := match i with WsEvent e => [e] | WsTimer _ => [] end) in *.
  assert (Hstep : ∃ op1 out1 accepted1 late1, WSort_step i op = Some (op1, out1) ∧
    ws_inv columns indices (reverse new ++ events) accepted1 late1 (outs ++ out1) op1 ∧
    ws_max_buffer_size op1 = ws_max_buffer_size op ∧ (one_schema columns events → sorted_batch columns out1)).
  { unfold new. destruct i as [e|t]; cbn [WSort_step reverse rev_append app].
    - eapply ws_inv_event; [|done]. by apply Forall_singleton.
    - pose proof (ws_inv_advance columns indices events accepted late outs op (tm_timestamp t) Hinv) as Ht.
      unfold WSort_on_timer. destruct (on_watermark_advance _ op) as [op1 out1]. destruct Ht as (? & ? & ? & _).
      by exists op1, out1, accepted, late. }
  destruct Hstep as (op1 & out1 & accepted1 & late1 & -> & Hinv1 & Hm1 & Hsb1). cbn [mbind option_bind].
  destruct (IH _ _ _ _ op1 Hinv1 Hr) as (op' & outs' & accepted' & late' & -> & Hinv' & Hm' & Hsb').
  cbn [mbind option_bind]. exists op', (out1 :: outs'), accepted', late'. split; [done|].
  rewrite reverse_app, <- app_assoc. cbn [concat]. rewrite (app_assoc outs). split; [done|]. split; [congruence|].
  intros Hos. constructor; [|by apply Hsb']. apply Hsb1. eapply one_schema_sub; [|exact Hos].
  intros e He. rewrite !elem_of_app. auto.
Qed.

Lemma ws_inv_new columns indices id max : length indices = length columns →
  ws_inv columns indices [] [] [] [] (WatermarkBoundedSortOperator_new id columns max).
Proof.
  intros Hl. split; cbn; try done.
  - by apply cache_ok_new.
  - lia.
  - split; constructor.
Qed.

(** ** The reference

    The buffered rows shown in order, and then the watermark. *)
Definition flushed (columns : list TopKSortColumn) (buf : list (Event B)) (w : Z) (out : list (Output B)) : Prop :=
  ∃ es, out = (OutEvent <$> es) ++ [OutWatermark w] ∧ es ≡ₚ buf ∧ StronglySorted (row_le columns) es.

(** From the watermark [wm] and the buffered events [buf]: an event at or below the
    watermark is late; another one is buffered, after the buffer was flushed at its
    own timestamp when it is full; a timer past the watermark flushes the buffer. *)
Fixpoint ws_ref (columns : list TopKSortColumn) (max : nat) (wm : Z) (buf : list (Event B))
    (inputs : list WSortInput) (outs : list (list (Output B)))
    (late : list (Event B)) (wm' : Z) (buf' : list (Event B)) : Prop :=
  match inputs, outs with
  | [], [] => late = [] ∧ wm' = wm ∧ buf' = buf
  | WsEvent e :: inputs, out :: outs =>
      if decide (ev_timestamp e <= wm) then
        out = [] ∧ ∃ rest, late = e :: rest ∧ ws_ref columns max wm buf inputs outs rest wm' buf'
      else if decide (length buf < max)%nat then
        out = [] ∧ ws_ref columns max wm (buf ++ [e]) inputs outs late wm' buf'
      else flushed columns buf (ev_timestamp e) out ∧
        ws_ref columns max (ev_timestamp e) [e] inputs outs late wm' buf'
  | WsTimer t :: inputs, out :: outs =>
      if decide (wm < tm_timestamp t) then
        flushed columns buf (tm_timestamp t) out ∧
        ws_ref columns max (tm_timestamp t) [] inputs outs late wm' buf'
      else out = [] ∧ ws_ref columns max wm buf inputs outs late wm' buf'
  | _, _ => False
  end.

Lemma flushed_emitted columns buf w out : flushed columns buf w out → emitted out ≡ₚ buf.
Proof. intros (es & -> & Hp & _). rewrite emitted_app, emitted_events. cbn. by rewrite app_nil_r. Qed.

Lemma ws_ref_conserves columns max inputs : ∀ wm buf outs late wm' buf',
  ws_ref columns max wm buf inputs outs late wm' buf' →
  emitted (concat outs) ++ buf' ++ late ≡ₚ buf ++ sorted_inputs inputs ∧
  wm <= wm' ∧ Forall (λ e, ev_timestamp e <= wm') late.
Proof.
  induction inputs as [|i inputs IH]; intros wm buf [|out outs] late wm' buf'; cbn [ws_ref]; [|done|by destruct i|].
  { intros (-> & -> & ->). rewrite !app_nil_r. split_and!; [done|lia|constructor]. }
  unfold sorted_inputs. rewrite bind_cons. fold (sorted_inputs inputs). cbn [concat]. rewrite emitted_app.
  destruct i as [e|t]; repeat case_decide; cbn [app].
  - intros (-> & rest & -> & (Hp & Hw & Hl)%IH). split_and!; [|done|constructor; [lia|done]].
    cbn. rewrite <- !Permutation_middle. by constructor.
  - intros (-> & (Hp & Hw & Hl)%IH). split_and!; [|done..]. cbn. by rewrite Hp, <- app_assoc.
  - intros (Hf%flushed_emitted & (Hp & Hw & Hl)%IH). split_and!; [|lia|done].
    by rewrite <- app_assoc, Hf, Hp.
  - intros (Hf%flushed_emitted & (Hp & Hw & Hl)%IH). split_and!; [|lia|done].
    by rewrite <- app_assoc, Hf, Hp.
  - intros (-> & (Hp & Hw & Hl)%IH). done.
Qed.

(** What the operator keeps of its configuration and its keys. *)
Record ws_ready (columns : list TopKSortColumn) (indices : list (option nat)) (all : list (Event B))
    (op : WSort) : Prop := {
  wr_columns : ws_sort_columns op = columns;
  wr_cache : cache_ok (ws_cached_sort_indices op) indices;
  wr_keys : Forall (λ x, x = entry_of columns (te_event x)) (ws_buffer op);
  wr_known : ∀ x, x ∈ ws_buffer op → te_event x ∈ all }.

Lemma flush_ref columns indices all op w : one_schema columns all → ws_ready columns indices all op →
  ws_last_watermark op < w →
  let r := on_watermark_advance w op in
  flushed columns (te_event <$> ws_buffer op) w r.2 ∧ ws_ready columns indices all r.1 ∧
  ws_buffer r.1 = [] ∧ ws_last_watermark r.1 = w ∧ ws_late_events_dropped r.1 = ws_late_events_dropped op ∧
  ws_max_buffer_size r.1 = ws_max_buffer_size op.
Proof.
  intros Hos [Hc Hi Hk Hin] Hw. unfold on_watermark_advance. rewrite (proj2 (Z.leb_gt _ _)) by done.
  cbn [fst snd]. split_and!; try done; [|by split; [..|intros x ?%elem_of_nil]].
  eexists. split; [done|]. split; [by rewrite sort_buffer_perm|].
  apply (sorted_rows columns all); [done|by rewrite sort_buffer_perm| |apply sort_buffer_sorted].
  intros x. rewrite sort_buffer_perm. apply Hin.
Qed.

Lemma push_ref columns indices all op e : readable columns indices e → e ∈ all →
  ws_ready columns indices all op →
  ∃ op', push_sorted e op = Some op' ∧ ws_ready columns indices all op' ∧
    (te_event <$> ws_buffer op') = (te_event <$> ws_buffer op) ++ [e] ∧
    ws_last_watermark op' = ws_last_watermark op ∧
    ws_late_events_dropped op' = ws_late_events_dropped op ∧ ws_max_buffer_size op' = ws_max_buffer_size op.
Proof.
  intros Hr He [Hc Hi Hk Hin]. unfold push_sorted, WSort_extract_sort_key.
  rewrite Hc, (extract_readable columns indices _ e Hr Hi). cbn [mbind option_bind].
  eexists. split; [done|]. split_and!; try done; [|cbn; by rewrite fmap_app].
  split; cbn; [done|apply cache_ok_refl| |].
  - apply Forall_app. split; [done|]. by repeat constructor.
  - intros x [Hx| ->%list_elem_of_singleton]%elem_of_app; [by apply Hin|done].
Qed.

Lemma ws_ref_run columns indices all inputs : one_schema columns all → ∀ op,
  ws_ready columns indices all op → Forall (readable columns indices) (sorted_inputs inputs) →
  (∀ e, e ∈ sorted_inputs inputs → e ∈ all) → 0 <= ws_late_events_dropped op < u64_MOD →
  ∃ op' outs late, WSort_run inputs op = Some (op', outs) ∧
    ws_ref columns (ws_max_buffer_size op) (ws_last_watermark op) (te_event <$> ws_buffer op) inputs outs late
      (ws_last_watermark op') (te_event <$> ws_buffer op') ∧
    ws_late_events_dropped op' = wrap_u64 (ws_late_events_dropped op + zlen late).
Proof.
  intros Hos. induction inputs as [|i inputs IH]; intros op Hop Hr Hin Hu; cbn [WSort_run].
  { exists op, [], []. split_and!; [done..|]. cbn. rewrite Z.add_0_r. symmetry. by apply Z.mod_small. }
  unfold sorted_inputs in Hr, Hin. rewrite bind_cons in Hr, Hin. fold (sorted_inputs inputs) in Hr, Hin.
  apply Forall_app in Hr as [Hi Hr].
  assert (Hin' : ∀ e, e ∈ sorted_inputs inputs → e ∈ all) by (intros e He; apply Hin, elem_of_app; by right).
  assert (Hnext : ∀ op1, ws_ready columns indices all op1 → 0 <= ws_late_events_dropped op1 < u64_MOD →
    ∃ op' outs late, WSort_run inputs op1 = Some (op', outs) ∧
      ws_ref columns (ws_max_buffer_size op1) (ws_last_watermark op1) (te_event <$> ws_buffer op1) inputs outs late
        (ws_last_watermark op') (te_event <$> ws_buffer op') ∧
      ws_late_events_dropped op' = wrap_u64 (ws_late_events_dropped op1 + zlen late))
    by (intros; by apply IH).
  clear IH. destruct i as [e|t]; cbn [WSort_step ws_ref].
  - apply Forall_cons in Hi as [Hi _]. assert (He : e ∈ all) by (apply Hin; by left). unfold WSort_process.
    destruct (Z.leb_spec (ev_timestamp e) (ws_last_watermark op)) as [Hlate|Htime]; cbn [mbind option_bind].
    + destruct (Hnext (ws_with (ws_buffer op) (ws_last_watermark op) (wrap_u64 (ws_late_events_dropped op + 1))
        (ws_cached_sort_indices op) op)) as (op' & outs & late & -> & Href & Hc);
        [by destruct Hop|cbn; apply Z.mod_pos_bound; done|].
      cbn [mbind option_bind]. exists op', ([] :: outs), (e :: late). split; [done|]. cbn in Href, Hc.
      rewrite decide_True by done. split; [by split; [|exists late]|].
      rewrite Hc. cbn [length]. rewrite Nat2Z.inj_succ. unfold wrap_u64. rewrite Zplus_mod_idemp_l. f_equal. lia.
    + assert (Hlen : length (ws_buffer op) = length (te_event <$> ws_buffer op)) by (by rewrite length_fmap).
      case_decide as Hfull.
      * destruct (flush_ref columns indices all op (ev_timestamp e) Hos Hop Htime)
          as (Hfl & Hop1 & Hb1 & Hw1 & Hl1 & Hm1).
        destruct (on_watermark_advance (ev_timestamp e) op) as [op1 out1]. cbn [fst snd] in *.
        destruct (push_ref columns indices all op1 e Hi He Hop1) as (op2 & -> & Hop2 & Hb2 & Hw2 & Hl2 & Hm2).
        cbn [mbind option_bind].
        destruct (Hnext op2 Hop2) as (op' & outs & late & -> & Href & Hc); [by rewrite Hl2, Hl1|].
        cbn [mbind option_bind]. exists op', (out1 :: outs), late. split; [done|].
        rewrite decide_False, decide_False by lia. rewrite Hm2, Hm1, Hw2, Hw1, Hb2, Hb1 in Href.
        split; [done|]. by rewrite Hc, Hl2, Hl1.
      * destruct (push_ref columns indices all op e Hi He Hop) as (op2 & -> & Hop2 & Hb2 & Hw2 & Hl2 & Hm2).
        cbn [mbind option_bind].
        destruct (Hnext op2 Hop2) as (op' & outs & late & -> & Href & Hc); [by rewrite Hl2|].
        cbn [mbind option_bind]. exists op', ([] :: outs), late. split; [done|].
        rewrite decide_False, decide_True by lia. rewrite Hm2, Hw2, Hb2 in Href.
        split; [done|]. by rewrite Hc, Hl2.
  - cbn [mbind option_bind]. unfold WSort_on_timer. case_decide as Hw.
    + destruct (flush_ref columns indices all op (tm_timestamp t) Hos Hop Hw) as (Hfl & Hop1 & Hb1 & Hw1 & Hl1 & Hm1).
      destruct (on_watermark_advance (tm_timestamp t) op) as [op1 out1]. cbn [fst snd] in *.
      destruct (Hnext op1 Hop1) as (op' & outs & late & -> & Href & Hc); [by rewrite Hl1|].
      cbn [mbind option_bind]. exists op', (out1 :: outs), late. split; [done|].
      rewrite Hm1, Hw1, Hb1 in Href. split; [done|]. by rewrite Hc, Hl1.
    + unfold on_watermark_advance. rewrite (proj2 (Z.leb_le _ _)) by lia.
      destruct (Hnext op Hop Hu) as (op' & outs & late & -> & Href & Hc).
      cbn [mbind option_bind]. exists op', ([] :: outs), late. by split_and!.
Qed.
End WSortFacts.

(** ** Windows *)

Section WLSortFacts.
Context {B : Type} `{AB : !ArrowBatch B} `{HO : !HashOrder} `{HL : !HashOrderLaws}.
Abbreviation Entry := (TopKEntry (B:=B)).
Abbreviation WLSort := (WindowLocalSortOperator (B:=B)).

(** What a window emits. *)
Definition window_rows (limit : option nat) (buffer : list Entry) : list (Event B) :=
  te_event <$> take (default (length buffer) limit) (sort_buffer buffer).
Definition window_out (op : WLSort) (w : Z) : list (Event B) :=
  match wl_window_buffers op !! w with Some buffer => window_rows (wl_limit op) buffer | None => [] end.

Lemma emit_windows_spec ws : ∀ op, NoDup ws →
  let '(op', outs) := emit_windows ws op in
  outs = OutEvent <$> (ws ≫= window_out op) ∧ wl_limit op' = wl_limit op ∧
  wl_current_watermark op' = wl_current_watermark op ∧ wl_sort_columns op' = wl_sort_columns op ∧
  wl_cached_sort_indices op' = wl_cached_sort_indices op ∧
  ∀ w, wl_window_buffers op' !! w = if decide (w ∈ ws) then None else wl_window_buffers op !! w.
Proof.
  induction ws as [|w ws IH]; intros op Hnd; cbn [emit_windows].
  { split_and!; [done..|]. intros w. by rewrite decide_False by set_solver. }
  apply NoDup_cons in Hnd as [Hw Hnd].
  assert (Hstep : ∃ op1, sort_and_emit_window w op = (op1, OutEvent <$> window_out op w) ∧
    wl_limit op1 = wl_limit op ∧ wl_current_watermark op1 = wl_current_watermark op ∧
    wl_sort_columns op1 = wl_sort_columns op ∧ wl_cached_sort_indices op1 = wl_cached_sort_indices op ∧
    wl_window_buffers op1 = delete w (wl_window_buffers op)).
  { unfold sort_and_emit_window, window_out. destruct (wl_window_buffers op !! w) as [b|] eqn:E.
    - eexists. by split_and!.
    - exists op. split_and!; [done..|]. symmetry. by apply delete_id. }
  destruct Hstep as (op1 & -> & Hl1 & Hw1 & Hc1 & Hi1 & Hb1). specialize (IH op1 Hnd).
  destruct (emit_windows ws op1) as [op' outs]. destruct IH as (-> & Hl & Hwm & Hc & Hi & Hb).
  split_and!; [|congruence..|].
  - rewrite bind_cons, fmap_app. f_equal. f_equal. clear -Hw Hb1 Hl1.
    induction ws as [|w' ws IH]; [done|]. rewrite !bind_cons. rewrite IH by set_solver. f_equal.
    unfold window_out. rewrite Hb1, Hl1, lookup_delete_ne by set_solver. done.
  - intros x. rewrite Hb, Hb1. destruct (decide (x = w)) as [->|Hne].
    + rewrite (decide_True (P:=w ∈ w :: ws)) by left. rewrite lookup_delete_eq. by case_decide.
    + rewrite lookup_delete_ne by done. apply decide_ext. set_solver.
Qed.

Lemma closed_windows_spec (op : WLSort) :
  StronglySorted Z.le (closed_windows op) ∧ NoDup (closed_windows op) ∧
  ∀ w, w ∈ closed_windows op ↔ is_Some (wl_window_buffers op !! w) ∧ w < wl_current_watermark op.
Proof.
  unfold closed_windows. split_and!.
  - apply (StronglySorted_merge_sort Z.le).
  - rewrite merge_sort_Permutation. apply NoDup_filter, NoDup_hash_keys.
  - intros w. rewrite merge_sort_Permutation, list_elem_of_filter, elem_of_hash_keys. tauto.
Qed.

(** Runs; the buffers hold the events whose timestamp is the window's key. *)
Definition WLSort_step (i : WSortInput (B:=B)) (op : WLSort) : option (WLSort * list (Output B)) :=
  match i with WsEvent e => WLSort_process e op | WsTimer t => Some (WLSort_on_timer t op) end.

Fixpoint WLSort_run (inputs : list (WSortInput (B:=B))) (op : WLSort) : option (WLSort * list (Output B)) :=
  match inputs with
  | [] => Some (op, [])
  | i :: inputs =>
      '(op, out) ← WLSort_step i op;
      '(op, outs) ← WLSort_run inputs op;
      Some (op, out ++ outs)
  end.

Definition buffered (m : gmap Z (list Entry)) : list (Event B) := te_event <$> (map_to_list m ≫= snd).

Record wl_inv (columns : list TopKSortColumn) (indices : list (option nat)) (events : list (Event B))
    (outs : list (Output B)) (op : WLSort) : Prop := {
  li_columns : wl_sort_columns op = columns;
  li_cache : cache_ok (wl_cached_sort_indices op) indices;
  li_limit : wl_limit op = None;
  li_events : emitted outs ++ buffered (wl_window_buffers op) ≡ₚ events;
  li_windows w es : wl_window_buffers op !! w = Some es → Forall (λ x, ev_timestamp (te_event x) = w) es }.

Lemma ws_buffered_insert m w es : buffered (<[w := es]> m) ≡ₚ (te_event <$> es) ++ buffered (delete w m).
Proof.
  unfold buffered. rewrite <- insert_delete_eq, map_to_list_insert by apply lookup_delete_eq.
  by rewrite bind_cons, fmap_app.
Qed.
Lemma buffered_default m w : buffered m ≡ₚ (te_event <$> default [] (m !! w)) ++ buffered (delete w m).
Proof.
  destruct (m !! w) as [es|] eqn:E; cbn.
  - rewrite <- (insert_id m w es E) at 1. apply ws_buffered_insert.
  - by rewrite delete_id.
Qed.

(** Windows taken out of the buffers, with everything they hold. *)
Lemma buffered_take ws : ∀ m m' : gmap Z (list Entry), NoDup ws →
  (∀ w, m' !! w = if decide (w ∈ ws) then None else m !! w) →
  buffered m ≡ₚ (ws ≫= λ w, te_event <$> default [] (m !! w)) ++ buffered m'.
Proof.
  induction ws as [|w ws IH]; intros m m' Hnd Hm.
  { assert (m' = m) as ->; [|done]. apply map_eq. intros w. rewrite Hm. by rewrite decide_False by set_solver. }
  apply NoDup_cons in Hnd as [Hw Hnd]. rewrite bind_cons, (buffered_default m w), <- app_assoc. f_equiv.
  rewrite (IH (delete w m) m' Hnd).
  - f_equiv. clear -Hw. induction ws as [|x ws IH]; [done|]. rewrite !bind_cons. rewrite IH by set_solver.
    by rewrite lookup_delete_ne by set_solver.
  - intros x. rewrite Hm. destruct (decide (x = w)) as [->|Hne].
    + rewrite decide_True by left. rewrite lookup_delete_eq. by case_decide.
    + rewrite lookup_delete_ne by done. apply decide_ext. set_solver.
Qed.

Lemma wl_inv_event columns indices events outs op e : readable columns indices e →
  wl_inv columns indices events outs op →
  ∃ op', WLSort_process e op = Some (op', []) ∧ wl_inv columns indices (e :: events) (outs ++ []) op'.
Proof.
  intros Hr [Hc Hi Hlim He Hw]. rewrite app_nil_r. unfold WLSort_process, buffer_event, WLSort_extract_sort_key. rewrite Hc.
  assert (∃ key, extract_sort_key any_unit (ev_data e) columns (wl_cached_sort_indices op) = Some (indices, key)) as [key ->].
  { destruct Hr as [<- [row Hrow]]. eexists. by apply extract_sort_key_spec. }
  cbn [mbind option_bind]. eexists. split; [done|]. split; cbn; try done.
  - apply cache_ok_refl.
  - rewrite ws_buffered_insert, fmap_app, <- app_assoc. cbn.
    rewrite (buffered_default _ (ev_timestamp e)) in He. rewrite <- He.
    rewrite !app_assoc. by rewrite Permutation_middle.
  - intros w es. rewrite lookup_insert_Some. intros [[<- <-]|[Hne Hes]]; [|by apply Hw].
    apply Forall_app. split; [|by repeat constructor].
    destruct (wl_window_buffers op !! ev_timestamp e) as [es|] eqn:E; [by apply Hw|constructor].
Qed.

Lemma wl_inv_timer columns indices events outs op t : wl_inv columns indices events outs op →
  let '(op', out) := WLSort_on_timer t op in wl_inv columns indices events (outs ++ out) op'.
Proof.
  intros [Hc Hi Hlim He Hw]. unfold WLSort_on_timer, check_and_emit_closed_windows.
  set (op1 := wl_with _ _ _ op). destruct (closed_windows_spec op1) as (_ & Hnd & Hin).
  pose proof (emit_windows_spec (closed_windows op1) op1 Hnd) as Hemit.
  destruct (emit_windows (closed_windows op1) op1) as [op' out].
  destruct Hemit as (-> & Hl & _ & Hc' & Hi' & Hb). split.
  - by rewrite Hc'.
  - by rewrite Hi'.
  - by rewrite Hl.
  - rewrite emitted_app, emitted_events, <- app_assoc, <- He. f_equiv.
    change (wl_window_buffers op) with (wl_window_buffers op1).
    rewrite (buffered_take (closed_windows op1) _ _ Hnd Hb). f_equiv. clear -Hlim.
    induction (closed_windows op1) as [|w ws IH]; [done|]. rewrite !bind_cons, IH. f_equiv.
    unfold window_out, window_rows. change (wl_limit op1) with (wl_limit op). rewrite Hlim.
    destruct (wl_window_buffers op1 !! w) as [b|]; [|done]. cbn [default]. apply fmap_Permutation.
    rewrite take_ge by (by rewrite sort_buffer_perm). apply sort_buffer_perm.
  - intros w es. rewrite Hb. case_decide; [done|]. apply Hw.
Qed.

Lemma wl_run_inv columns indices inputs : ∀ events outs op, wl_inv columns indices events outs op →
  Forall (readable columns indices) (sorted_inputs inputs) →
  ∃ op' out, WLSort_run inputs op = Some (op', out) ∧
    wl_inv columns indices (reverse (sorted_inputs inputs) ++ events) (outs ++ out) op'.
Proof.
  induction inputs as [|i inputs IH]; intros events outs op Hinv Hr; cbn [WLSort_run].
  { exists op, []. by rewrite app_nil_r. }
  unfold sorted_inputs in Hr |- *. rewrite bind_cons in Hr |- *. fold (sorted_inputs inputs) in Hr |- *.
  apply Forall_app in Hr as [Hi Hr].
  set (new := match i with WsEvent e => [e] | WsTimer _ => [] end) in *.
  assert (Hstep : ∃ op1 out1, WLSort_step i op = Some (op1, out1) ∧
    wl_inv columns indices (reverse new ++ events) (outs ++ out1) op1).
  { unfold new. destruct i as [e|t]; cbn [WLSort_step reverse rev_append app].
    - destruct (wl_inv_event columns indices events outs op e) as (op1 & ? & ?); [by apply Forall_singleton|done|].
      by exists op1, [].
    - pose proof (wl_inv_timer columns indices events outs op t Hinv) as Ht.
      destruct (WLSort_on_timer t op) as [op1 out1]. by exists op1, out1. }
  destruct Hstep as (op1 & out1 & -> & Hinv1). cbn [mbind option_bind].
  destruct (IH _ _ op1 Hinv1 Hr) as (op' & out & -> & Hinv'). cbn [mbind option_bind].
  exists op', (out1 ++ out). split; [done|]. by rewrite reverse_app, <- app_assoc, (app_assoc outs).
Qed.
End WLSortFacts.

(** ** Checkpoints of the watermark sort *)

Section SortRestore.
Context {B : Type} `{AB : !ArrowBatch B}.
Abbreviation Entry := (TopKEntry (B:=B)).

(** What a restored event keeps. *)
Definition forgotten (e : Entry) : Entry := mkEntry [] (mkEvent (ev_timestamp (te_event e)) empty_batch).

Lemma restore_timestamps_app message (l : list Entry) : ∀ (p q : bytes) acc,
  Forall (λ e, is_i64 (ev_timestamp (te_event e))) l → zlen (p ++ timestamps_bytes l ++ q) < u64_MOD →
  restore_timestamps message (length l) (p ++ timestamps_bytes l ++ q) (zlen p) acc
  = Some (acc ++ (forgotten <$> l), inl (zlen (p ++ timestamps_bytes l))).
Proof.
  induction l as [|e l IH]; intros p q acc Ht Hl.
  { cbn. by rewrite !app_nil_r. }
  apply Forall_cons in Ht as [He Ht]. unfold timestamps_bytes in *. cbn [length restore_timestamps].
  rewrite bind_cons in *. rewrite <- !app_assoc in *.
  pose proof Hl as Hl'. rewrite !length_app, to_le_length in Hl'.
  rewrite (usize_add_small (zlen p) 8) by lia.
  rewrite (proj2 (Z.ltb_ge _ _)) by (rewrite !length_app, to_le_length; lia).
  rewrite i64_at_app by done. cbn [mbind option_bind].
  replace (zlen p + 8) with (zlen (p ++ to_le 8 (ev_timestamp (te_event e)))) by (rewrite length_app, to_le_length; lia).
  rewrite (app_assoc p) in *. rewrite IH by done. by rewrite <- !app_assoc.
Qed.

Lemma wsort_restore_spec (op op0 : WatermarkBoundedSortOperator (B:=B)) :
  is_i64 (ws_last_watermark op) → is_u64 (ws_late_events_dropped op) →
  Forall (λ e, is_i64 (ev_timestamp (te_event e))) (ws_buffer op) →
  zlen (os_data (WSort_checkpoint op)) < u64_MOD →
  WSort_restore (WSort_checkpoint op) op0
  = Some (ws_with (forgotten <$> ws_buffer op) (ws_last_watermark op) (ws_late_events_dropped op)
            (ws_cached_sort_indices op0) op0, inl tt).
Proof.
  intros Hw Hq Ht Hl. unfold WSort_restore. cbn [os_data WSort_checkpoint] in *.
  set (n := zlen (ws_buffer op)) in *. set (wm := ws_last_watermark op) in *.
  set (sq := ws_late_events_dropped op) in *. set (body := timestamps_bytes (ws_buffer op)) in *.
  assert (Hn : is_u64 n).
  { rewrite !length_app, !to_le_length in Hl. unfold is_u64, n. split; [lia|].
    assert (length (ws_buffer op) <= length body)%nat; [|lia]. unfold body, timestamps_bytes. clear.
    induction (ws_buffer op) as [|e l IH]; [done|]. rewrite bind_cons, length_app, to_le_length. cbn [length]. lia. }
  set (data := to_le 8 wm ++ _) in *.
  rewrite decide_False by (unfold data; rewrite !length_app, !to_le_length; lia).
  assert (i64_at data 0 = Some wm) as ->.
  { change 0 with (zlen ([] : bytes)). change data with ([] ++ data) in Hl |- *. by apply i64_at_app. }
  assert (u64_at data 8 = Some sq) as ->.
  { replace 8 with (zlen (to_le 8 wm)) by (by rewrite to_le_length). by apply u64_at_app. }
  assert (u64_at data 16 = Some n) as ->.
  { replace 16 with (zlen (to_le 8 wm ++ to_le 8 sq)) by (by rewrite length_app, !to_le_length).
    unfold data in *. rewrite (app_assoc (to_le 8 wm)) in *. by apply u64_at_app. }
  cbn [mbind option_bind]. unfold n at 1. rewrite Nat2Z.id.
  replace 24 with (zlen (to_le 8 wm ++ to_le 8 sq ++ to_le 8 n)) by (by rewrite !length_app, !to_le_length).
  assert (Hd : data = (to_le 8 wm ++ to_le 8 sq ++ to_le 8 n) ++ body ++ []).
  { unfold data. by rewrite app_nil_r, <- !app_assoc. }
  rewrite Hd in Hl |- *. unfold body in *. rewrite restore_timestamps_app by done. done.
Qed.
End SortRestore.

(** ** Properties *)

Definition sort_inputs : list (WSortInput (B:=list (string * Cell))) :=
  [WsEvent (price_event 3 50); WsEvent (price_event 1 20); WsTimer (mkFired [] 2); WsEvent (price_event 2 9);
   WsEvent (price_event 8 70)].

Lemma sort_inputs_schema : one_schema price_columns (sorted_inputs sort_inputs).
Proof.
  assert (Hin : ∀ e, e ∈ sorted_inputs sort_inputs → ∃ ts p, e = price_event ts p ∧ is_i64 p).
  { cbn. intros e He. repeat (apply elem_of_cons in He as [->|He]; [eexists _, _; split; [done|unfold is_i64; lia]|]).
    by apply elem_of_nil in He. }
  split.
  - exists [Some 0%nat]. split; [done|]. apply Forall_forall. intros e (ts & p & -> & _)%Hin. split; [done|by eexists].
  - intros e (ts & p & -> & Hp)%Hin. cbn. repeat constructor; apply Hp.
  - intros e e' (ts & p & -> & _)%Hin (ts' & p' & -> & _)%Hin. cbn. repeat constructor.
Qed.

(** [C26]: The watermark sort loses and invents nothing. Fed any events of one schema
    and any timers it never panics, and input by input it does what the reference
    does: an event at or below the current watermark, and no other, is late: it is
    dropped and counted; another event is buffered, and emits nothing unless it finds
    the buffer full, which is then flushed first, with the event's own timestamp as
    the watermark; a timer past the watermark flushes the buffer and becomes the
    watermark, an older one does nothing. A flush emits exactly the buffered rows, in
    order, and then the watermark. So every event is late, or has been emitted exactly
    once, or is still buffered; the watermarks strictly increase, and the buffer never
    exceeds its limit (or one event). *)
Theorem watermark_sort_exactly_once {B} `{!ArrowBatch B} operator_id columns max
    (inputs : list (WSortInput (B:=B))) : one_schema columns (sorted_inputs inputs) →
  ∃ op outs late,
    WSort_run inputs (WatermarkBoundedSortOperator_new operator_id columns max) = Some (op, outs) ∧
    ws_ref columns max i64_MIN [] inputs outs late (ws_last_watermark op) (te_event <$> ws_buffer op) ∧
    ws_late_events_dropped op = wrap_u64 (zlen late) ∧
    emitted (concat outs) ++ (te_event <$> ws_buffer op) ++ late ≡ₚ sorted_inputs inputs ∧
    Forall (λ e, ev_timestamp e <= ws_last_watermark op) late ∧
    Forall (sorted_batch columns) outs ∧ StronglySorted Z.lt (watermarks (concat outs)) ∧
    (WSort_buffer_size op <= 1 `max` max)%nat.
Proof.
  intros Hos. pose proof Hos as [(indices & Hlen & Hr) _ _].
  set (op0 := WatermarkBoundedSortOperator_new operator_id columns max).
  destruct (ws_run_inv columns indices inputs [] [] [] [] op0) as (op & outs & accepted & late0 & Hrun & Hinv & Hm & Hsb);
    [by apply ws_inv_new|done|].
  destruct (ws_ref_run columns indices (sorted_inputs inputs) inputs Hos op0)
    as (op1 & outs1 & late & Hrun1 & Href & Hc); [|done|done|done|].
  { split; [done|by apply cache_ok_new|constructor|by intros x ?%elem_of_nil]. }
  rewrite Hrun in Hrun1. injection Hrun1 as <- <-.
  rewrite app_nil_r in Hinv, Hsb. destruct Hinv as [_ _ _ _ _ _ _ Hb [Hw _]]. cbn in Hm, Hw.
  destruct (ws_ref_conserves columns max inputs _ _ _ _ _ _ Href) as (Hp & _ & Hl).
  exists op, outs, late. split_and!; try done.
  - apply Hsb. eapply one_schema_sub; [|exact Hos]. intros e. by rewrite elem_of_reverse.
  - unfold WSort_buffer_size. rewrite <- Hm. exact Hb.
Qed.

Lemma watermark_sort_exactly_once_witness :
  ∃ op outs late,
    WSort_run sort_inputs (WatermarkBoundedSortOperator_new "sort" price_columns 10) = Some (op, outs) ∧
    emitted (concat outs) = [price_event 1 20; price_event 3 50] ∧
    emitted (concat outs) ++ (te_event <$> ws_buffer op) ++ late ≡ₚ sorted_inputs sort_inputs ∧
    length late = 1%nat.
Proof.
  destruct (watermark_sort_exactly_once "sort" price_columns 10 sort_inputs sort_inputs_schema)
    as (op & outs & late & Hrun & _ & _ & Ha & _).
  assert (Hc : (λ x, (emitted (concat x.2), te_event <$> ws_buffer x.1)) <$>
    WSort_run sort_inputs (WatermarkBoundedSortOperator_new "sort" price_columns 10)
    = Some ([price_event 1 20; price_event 3 50], [price_event 8 70])) by reflexivity.
  rewrite Hrun in Hc. injection Hc as He Hb. exists op, outs, late.
  split; [exact Hrun|]. split; [exact He|]. split; [exact Ha|].
  rewrite He, Hb in Ha. apply Permutation_length in Ha. cbn in Ha. lia.
Defined.

(** A full buffer makes the event that finds it full late for whoever reads the
    output: its own timestamp is emitted as a watermark first, and the event is
    emitted only with the next advance, behind that watermark. *)
Theorem forced_flush_makes_event_late {B} `{!ArrowBatch B} columns indices
    (op : WatermarkBoundedSortOperator (B:=B)) (e : Event B) (t : Timer) :
  readable columns indices e → ws_sort_columns op = columns → cache_ok (ws_cached_sort_indices op) indices →
  ws_last_watermark op < ev_timestamp e → (ws_max_buffer_size op <= length (ws_buffer op))%nat →
  ev_timestamp e < tm_timestamp t →
  ∃ op1 out, WSort_process e op = Some (op1, out) ∧ last out = Some (OutWatermark (ev_timestamp e)) ∧
    (WSort_on_timer t op1).2 = [OutEvent e; OutWatermark (tm_timestamp t)].
Proof.
  intros Hr Hc Hi Hts Hfull Ht. unfold WSort_process. rewrite (proj2 (Z.leb_gt _ _)) by done.
  rewrite decide_True by done. unfold on_watermark_advance at 1. rewrite (proj2 (Z.leb_gt _ _)) by done.
  unfold push_sorted, WSort_extract_sort_key. cbn [ws_with ws_sort_columns ws_cached_sort_indices ws_buffer].
  rewrite Hc, (extract_readable columns indices _ e Hr Hi). cbn [mbind option_bind].
  eexists _, _. split; [done|]. split; [by rewrite last_snoc|].
  unfold WSort_on_timer, on_watermark_advance. cbn [ws_with ws_last_watermark ws_buffer].
  by rewrite (proj2 (Z.leb_gt _ _)) by done.
Qed.

Lemma forced_flush_makes_event_late_witness :
  ∃ op1 out, WSort_process (price_event 9 1)
      (mkWSort "sort" price_columns [mkEntry [] (price_event 4 5)] 1 0 0 [None]) = Some (op1, out) ∧
    last out = Some (OutWatermark 9) ∧
    (WSort_on_timer (mkFired [] 12) op1).2 = [OutEvent (price_event 9 1); OutWatermark 12].
Proof.
  apply (forced_flush_makes_event_late price_columns [Some 0%nat]
    (mkWSort "sort" price_columns [mkEntry [] (price_event 4 5)] 1 0 0 [None]) (price_event 9 1) (mkFired [] 12)).
  - split; [reflexivity|by eexists].
  - reflexivity.
  - repeat constructor.
  - reflexivity.
  - cbn. lia.
  - reflexivity.
Defined.

(** The window sort is exact. A timer emits, for the windows that start before it
    in ascending order, the rows of each in key order, up to the limit, removes
    exactly these windows and keeps the others. Without a limit, over any events of
    one schema and any timers, every event has been emitted once or is buffered,
    under its own timestamp. *)
Theorem window_sort_exact {B} `{!ArrowBatch B} `{!HashOrder} `{!HashOrderLaws} operator_id columns
    (inputs : list (WSortInput (B:=B))) (op0 : WindowLocalSortOperator (B:=B)) (t : Timer) :
  one_schema columns (sorted_inputs inputs) →
  (∃ ws, StronglySorted Z.le ws ∧ NoDup ws ∧
     (∀ w, w ∈ ws ↔ is_Some (wl_window_buffers op0 !! w) ∧ w < tm_timestamp t) ∧
     (WLSort_on_timer t op0).2 = OutEvent <$> (ws ≫= window_out op0) ∧
     ∀ w, wl_window_buffers (WLSort_on_timer t op0).1 !! w
          = if decide (w ∈ ws) then None else wl_window_buffers op0 !! w) ∧
  ∃ op outs, WLSort_run inputs (WindowLocalSortOperator_new operator_id columns None) = Some (op, outs) ∧
    emitted outs ++ buffered (wl_window_buffers op) ≡ₚ sorted_inputs inputs ∧
    ∀ w es, wl_window_buffers op !! w = Some es → Forall (λ x, ev_timestamp (te_event x) = w) es.
Proof.
  intros [(indices & Hlen & Hr) _ _]. split.
  - unfold WLSort_on_timer, check_and_emit_closed_windows. set (op1 := wl_with _ _ _ op0).
    destruct (closed_windows_spec op1) as (Hs & Hnd & Hin). exists (closed_windows op1).
    pose proof (emit_windows_spec (closed_windows op1) op1 Hnd) as Hemit.
    destruct (emit_windows (closed_windows op1) op1) as [op' out]. destruct Hemit as (-> & _ & _ & _ & _ & Hb).
    by split_and!.
  - destruct (wl_run_inv columns indices inputs [] [] (WindowLocalSortOperator_new operator_id columns None))
      as (op & outs & Hrun & [_ _ _ He Hw]).
    + split; cbn; try done. by apply cache_ok_new.
    + done.
    + exists op, outs. rewrite app_nil_r in He. split_and!; [done|by rewrite He, reverse_Permutation|done].
Qed.

Lemma window_sort_exact_witness :
  ∃ op outs, WLSort_run sort_inputs (WindowLocalSortOperator_new "wsort" price_columns None) = Some (op, outs) ∧
    outs = [OutEvent (price_event 1 20)] ∧
    emitted outs ++ buffered (wl_window_buffers op) ≡ₚ sorted_inputs sort_inputs.
Proof.
  destruct (window_sort_exact "wsort" price_columns sort_inputs
    (WindowLocalSortOperator_new "wsort" price_columns None) (mkFired [] 0) sort_inputs_schema)
    as (_ & op & outs & Hrun & He & _).
  assert (Hc : snd <$> WLSort_run sort_inputs (WindowLocalSortOperator_new "wsort" price_columns None)
    = Some [OutEvent (price_event 1 20)]) by (by vm_compute).
  rewrite Hrun in Hc. injection Hc as Ho. exists op, outs. split; [exact Hrun|]. split; [exact Ho|exact He].
Defined.

(** A watermark sort restored from a checkpoint has the timestamps of the buffered
    events, but empty sort keys and no columns: it emits them in arrival order,
    without their rows. *)
Theorem watermark_sort_restore_forgets {B} `{!ArrowBatch B} (op op0 : WatermarkBoundedSortOperator (B:=B)) :
  is_i64 (ws_last_watermark op) → is_u64 (ws_late_events_dropped op) →
  Forall (λ e, is_i64 (ev_timestamp (te_event e))) (ws_buffer op) →
  zlen (os_data (WSort_checkpoint op)) < u64_MOD →
  ∃ op', WSort_restore (WSort_checkpoint op) op0 = Some (op', inl tt) ∧
    ws_last_watermark op' = ws_last_watermark op ∧ ws_late_events_dropped op' = ws_late_events_dropped op ∧
    ws_buffer op' = (λ e, mkEntry [] (mkEvent (ev_timestamp (te_event e)) empty_batch)) <$> ws_buffer op.
Proof. intros. eexists. split; [by apply wsort_restore_spec|done]. Qed.

Lemma watermark_sort_restore_forgets_witness :
  ∃ op', WSort_restore (WSort_checkpoint (mkWSort "sort" price_columns [mkEntry [3] (price_event 4 5)] 1 0 0 [None]))
      (WatermarkBoundedSortOperator_new "sort" price_columns 1) = Some (op', inl tt) ∧
    ws_buffer op' = [mkEntry [] (mkEvent 4 [])].
Proof.
  destruct (watermark_sort_restore_forgets
    (mkWSort "sort" price_columns [mkEntry [3] (price_event 4 5)] 1 0 0 [None])
    (WatermarkBoundedSortOperator_new "sort" price_columns 1)) as (op' & Hr & _ & _ & Hb).
  - split; cbn; lia.
  - split; cbn; lia.
  - repeat constructor; cbn; lia.
  - reflexivity.
  - exists op'. split; [exact Hr|exact Hb].
Defined.
