(* ===== verification/DagWatermark.v ===== *)
(** * Watermarks in the dag

    dag/watermark.rs: [DagWatermarkTracker] keeps one watermark per node of a
    finalized dag and propagates an update along the execution order, taking the
    minimum at nodes with several inputs.

    Vectors indexed by [NodeId.0] are lists; [None] in place of a result is the
    panic of an index out of range, which the theorems exclude. *)

From S2P Require Import Prelude DagTopology.

Definition WATERMARK_UNSET : Z := i64_MIN.

Record DagWatermarkCheckpoint := mkWmCheckpoint { wc_watermarks : list Z }.

Record DagWatermarkTracker := mkDagTracker {
  dw_watermarks : list Z;
  dw_source_deps : list (list Z);
  dw_execution_order : list Z;
  dw_updated_buffer : list (Z * Z);
  dw_slot_count : nat }.

(** The loop over the inputs of a node: [None] a panic, [Some None] an input
    without a watermark. *)
Fixpoint min_inputs (watermarks : list Z) (deps : list Z) (min_wm : Z) : option (option Z) :=
  match deps with
  | [] => Some (Some min_wm)
  | dep :: rest =>
      match watermarks !! Z.to_nat dep with
      | None => None
      | Some dep_wm =>
          if dep_wm =? WATERMARK_UNSET then Some None
          else min_inputs watermarks rest (Z.min min_wm dep_wm)
      end
  end.

(** The propagation loop of [update_watermark]. *)
Fixpoint propagate (slot_count : nat) (source_deps : list (list Z)) (order : list Z)
    (watermarks : list Z) (buffer : list (Z * Z)) : option (list Z * list (Z * Z)) :=
  match order with
  | [] => Some (watermarks, buffer)
  | node :: order =>
      let n := Z.to_nat node in
      if decide (slot_count <= n)%nat then propagate slot_count source_deps order watermarks buffer
      else match source_deps !! n with
      | None => None
      | Some [] => propagate slot_count source_deps order watermarks buffer
      | Some deps =>
          match min_inputs watermarks deps i64_MAX with
          | None => None
          | Some None => propagate slot_count source_deps order watermarks buffer
          | Some (Some min_wm) =>
              match watermarks !! n with
              | None => None
              | Some w =>
                  if min_wm >? w
                  then propagate slot_count source_deps order (<[n := min_wm]> watermarks)
                         (buffer ++ [(node, min_wm)])
                  else propagate slot_count source_deps order watermarks buffer
              end
          end
      end
  end.

Definition dw_set (ws : list Z) (buffer : list (Z * Z)) (t : DagWatermarkTracker)
  : DagWatermarkTracker :=
  mkDagTracker ws (dw_source_deps t) (dw_execution_order t) buffer (dw_slot_count t).

Definition DagWatermarkTracker_update_watermark (t : DagWatermarkTracker) (source wm : Z)
  : option (DagWatermarkTracker * list (Z * Z)) :=
  let idx := Z.to_nat source in
  if decide (dw_slot_count t <= idx)%nat then Some (dw_set (dw_watermarks t) [] t, [])
  else match dw_watermarks t !! idx with
  | None => None
  | Some w =>
      if wm <=? w then Some (dw_set (dw_watermarks t) [] t, [])
      else match propagate (dw_slot_count t) (dw_source_deps t) (dw_execution_order t)
                   (<[idx := wm]> (dw_watermarks t)) [(source, wm)] with
           | None => None
           | Some (ws, buffer) => Some (dw_set ws buffer t, buffer)
           end
  end.

Definition DagWatermarkTracker_get_watermark (t : DagWatermarkTracker) (node : Z) : option Z :=
  let idx := Z.to_nat node in
  if decide (idx < dw_slot_count t)%nat then
    match dw_watermarks t !! idx with
    | Some w => if w =? WATERMARK_UNSET then None else Some w
    | None => None
    end
  else None.

(** The outer [None] is a panic. *)
Definition DagWatermarkTracker_effective_watermark (t : DagWatermarkTracker) (node : Z)
  : option (option Z) :=
  let idx := Z.to_nat node in
  if decide (dw_slot_count t <= idx)%nat then Some None
  else match dw_source_deps t !! idx with
  | None => None
  | Some [] => Some (DagWatermarkTracker_get_watermark t node)
  | Some deps => min_inputs (dw_watermarks t) deps i64_MAX
  end.

Definition DagWatermarkTracker_checkpoint (t : DagWatermarkTracker) : DagWatermarkCheckpoint :=
  mkWmCheckpoint (dw_watermarks t).

Definition DagWatermarkTracker_restore (t : DagWatermarkTracker) (c : DagWatermarkCheckpoint)
  : DagWatermarkTracker :=
  let len := Nat.min (dw_slot_count t) (length (wc_watermarks c)) in
  dw_set (take len (wc_watermarks c) ++ drop len (dw_watermarks t)) (dw_updated_buffer t) t.

Section FromDag.
Context {DataType : Type} `{HO : !HashOrder}.

Definition slot_count (d : StreamingDag (DataType:=DataType)) : nat :=
  match max_node_id d with Some m => Z.to_nat m + 1 | None => 0 end.

Definition push_dep (max_id : nat) (deps : list (list Z)) (edge : DagEdge) : list (list Z) :=
  let tgt := Z.to_nat (de_target edge) in
  if decide (tgt < max_id)%nat then alter (λ l, l ++ [de_source edge]) tgt deps else deps.

Definition DagWatermarkTracker_from_dag (d : StreamingDag (DataType:=DataType))
  : DagWatermarkTracker :=
  let max_id := slot_count d in
  mkDagTracker (replicate max_id WATERMARK_UNSET)
    (foldl (push_dep max_id) (replicate max_id []) (hash_values (sd_edges d)))
    (sd_execution_order d) [] max_id.

End FromDag.

(** ** The specification *)

Definition wm_at (ws : list Z) (n : Z) : Z := default WATERMARK_UNSET (ws !! Z.to_nat n).

(** The minimum over a list of nodes; it is [WATERMARK_UNSET] as soon as one of
    them has no watermark. *)
Definition min_over (ws : list Z) (deps : list Z) : Z := foldr Z.min i64_MAX (wm_at ws <$> deps).

(** The watermark that a node should have: what was reported to it, or what all
    its inputs reached, whichever is later. *)
Definition level (rep : Z) (ws : list Z) (deps : list Z) : Z :=
  match deps with [] => rep | _ => Z.max rep (min_over ws deps) end.

Definition i64s (ws : list Z) : Prop := Forall is_i64 ws.

Lemma wm_at_i64 ws n : i64s ws → is_i64 (wm_at ws n).
Proof.
  intros Hws. unfold wm_at. destruct (ws !! Z.to_nat n) as [w|] eqn:E; simpl.
  - unfold i64s in Hws. rewrite Forall_forall in Hws. apply Hws. by eapply list_elem_of_lookup_2.
  - unfold WATERMARK_UNSET, is_i64. lia.
Qed.

Lemma min_over_i64 ws deps : i64s ws → is_i64 (min_over ws deps).
Proof.
  intros Hws. induction deps as [|m deps IH]; [unfold min_over, is_i64; simpl; lia|].
  change (min_over ws (m :: deps)) with (Z.min (wm_at ws m) (min_over ws deps)).
  pose proof (wm_at_i64 ws m Hws). unfold is_i64 in *. lia.
Qed.

Lemma min_over_mono ws ws' deps : (∀ m, m ∈ deps → wm_at ws m <= wm_at ws' m) →
  min_over ws deps <= min_over ws' deps.
Proof.
  induction deps as [|m deps IH]; intros Hle; [done|].
  change (Z.min (wm_at ws m) (min_over ws deps) <= Z.min (wm_at ws' m) (min_over ws' deps)).
  assert (wm_at ws m <= wm_at ws' m) by (apply Hle; left).
  assert (min_over ws deps <= min_over ws' deps) by (apply IH; intros; apply Hle; by right). lia.
Qed.

Lemma min_over_ext ws ws' deps : (∀ m, m ∈ deps → wm_at ws m = wm_at ws' m) →
  min_over ws deps = min_over ws' deps.
Proof. intros Heq. unfold min_over. f_equal. apply list_fmap_ext. intros i m Hi. apply Heq. by eapply list_elem_of_lookup_2. Qed.

Lemma min_over_perm ws deps deps' : deps ≡ₚ deps' → min_over ws deps = min_over ws deps'.
Proof.
  unfold min_over. induction 1 as [|m l l' _ IH|m m' l|l1 l2 l3 _ IH1 _ IH2]; 
    rewrite ?fmap_cons; cbn [foldr]; [done|by f_equal|lia|congruence].
Qed.

(** The loop over the inputs computes the minimum, or finds that it is unset. *)
Lemma min_inputs_spec ws deps : i64s ws → (∀ m, m ∈ deps → (Z.to_nat m < length ws)%nat) →
  ∀ acc, is_i64 acc → WATERMARK_UNSET < acc →
  min_inputs ws deps acc =
  Some (if Z.min acc (min_over ws deps) =? WATERMARK_UNSET then None
        else Some (Z.min acc (min_over ws deps))).
Proof.
  intros Hws. induction deps as [|m deps IH]; intros Hin acc Hacc Hun; simpl.
  - unfold min_over. simpl. rewrite Z.min_l by (unfold is_i64 in *; lia).
    by rewrite (proj2 (Z.eqb_neq _ _)) by lia.
  - destruct (lookup_lt_is_Some_2 ws (Z.to_nat m)) as [w Hw]; [apply Hin; left|]. rewrite Hw.
    assert (Hat : wm_at ws m = w) by (unfold wm_at; by rewrite Hw).
    pose proof (wm_at_i64 ws m Hws) as Hi. pose proof (min_over_i64 ws deps Hws) as Hm.
    change (min_over ws (m :: deps)) with (Z.min (wm_at ws m) (min_over ws deps)).
    rewrite Hat in *. unfold WATERMARK_UNSET, is_i64 in *.
    destruct (Z.eqb_spec w i64_MIN) as [->|Hne].
    + rewrite (proj2 (Z.eqb_eq _ _)) by lia. done.
    + rewrite IH; [|intros; apply Hin; by right|unfold is_i64; lia|lia]. by rewrite Z.min_assoc.
Qed.

(** ** Propagation along a topological order *)

Section Propagation.
Context (slots : nat) (deps : list (list Z)) (order : list Z).

Definition deps_of (n : Z) : list Z := default [] (deps !! Z.to_nat n).

Record order_ok : Prop := {
  oo_length : length deps = slots;
  oo_slot n : n ∈ order → 0 <= n ∧ (Z.to_nat n < slots)%nat;
  oo_nodup : NoDup order;
  oo_topo pre n post m : order = pre ++ n :: post → m ∈ deps_of n → m ∈ pre }.
Context (Hok : order_ok).

Context (ws0 : list Z) (rep : Z → Z) (source wm : Z).
Context (Hlen0 : length ws0 = slots) (Hi0 : i64s ws0).
Context (Hlevel0 : ∀ n, n ∈ order → wm_at ws0 n = level (rep n) ws0 (deps_of n)).
Context (Hsource : source ∈ order) (Hwm : is_i64 wm) (Hgt : wm_at ws0 source < wm).

Definition reported (n : Z) : Z := if decide (n = source) then wm else rep n.

Lemma wm_at_insert ws n v k : n ∈ order → k ∈ order → length ws = slots →
  wm_at (<[Z.to_nat n := v]> ws) k = if decide (k = n) then v else wm_at ws k.
Proof.
  intros Hn Hk Hlen. destruct (oo_slot Hok n Hn), (oo_slot Hok k Hk). unfold wm_at. case_decide as Heq.
  - subst. by rewrite list_lookup_insert_eq by lia.
  - rewrite list_lookup_insert_ne; [done|lia].
Qed.

Lemma i64s_insert ws n v : i64s ws → is_i64 v → i64s (<[n := v]> ws).
Proof. intros Hws Hv. by apply Forall_insert. Qed.

Lemma deps_done done rest k m : order = done ++ rest → k ∈ done → m ∈ deps_of k → m ∈ done.
Proof.
  intros Ho (a & b & ->)%list_elem_of_split Hm. rewrite <- app_assoc in Ho.
  apply (oo_topo Hok _ _ _ _ Ho) in Hm. set_solver.
Qed.

Lemma deps_order k m : k ∈ order → m ∈ deps_of k → m ∈ order.
Proof. apply (deps_done order []). by rewrite app_nil_r. Qed.

Lemma level_nonempty r ws l : l ≠ [] → level r ws l = Z.max r (min_over ws l).
Proof. by destruct l. Qed.

(** The state of the loop after the nodes [done]. *)
Record loop_inv (done : list Z) (ws : list Z) (buf : list (Z * Z)) : Prop := {
  li_len : length ws = slots;
  li_i64 : i64s ws;
  li_grows n : n ∈ order → wm_at ws0 n <= wm_at ws n;
  li_bounds n : n ∈ order → reported n <= wm_at ws n <= level (reported n) ws (deps_of n);
  li_done n : n ∈ done → wm_at ws n = level (reported n) ws (deps_of n);
  li_later n : n ∈ order → n ∉ done → n ≠ source → wm_at ws n = wm_at ws0 n;
  li_before n : source ∉ done → n ∈ order →
    wm_at ws n = if decide (n = source) then wm else wm_at ws0 n;
  li_nodup : NoDup buf.*1;
  li_buf n w : (n, w) ∈ buf ↔ n ∈ order ∧ wm_at ws n = w ∧ w ≠ wm_at ws0 n }.

Lemma reported_level n : n ∈ order →
  reported n <= (if decide (n = source) then wm else wm_at ws0 n) ∧
  (n ≠ source → wm_at ws0 n = level (reported n) ws0 (deps_of n)).
Proof.
  intros Hn. unfold reported. case_decide as Heq; [lia|]. rewrite (Hlevel0 n Hn).
  split; [|done]. unfold level. case_match; lia.
Qed.

Lemma loop_inv_start : loop_inv [] (<[Z.to_nat source := wm]> ws0) [(source, wm)].
Proof.
  assert (Hat : ∀ n, n ∈ order → wm_at (<[Z.to_nat source := wm]> ws0) n =
    if decide (n = source) then wm else wm_at ws0 n) by (intros; by apply wm_at_insert).
  assert (Hgrow : ∀ n, n ∈ order → wm_at ws0 n <= wm_at (<[Z.to_nat source := wm]> ws0) n).
  { intros n Hn. rewrite Hat by done. case_decide; [subst; lia|lia]. }
  split.
  - by rewrite length_insert.
  - by apply i64s_insert.
  - done.
  - intros n Hn. destruct (reported_level n Hn) as [Hr Hl]. rewrite Hat by done. split; [done|].
    case_decide as Heq.
    + unfold level, reported. rewrite decide_True by done. case_match; lia.
    + rewrite (Hl Heq). unfold level. case_match eqn:E; [lia|]. rewrite <- E.
      assert (min_over ws0 (deps_of n) <= min_over (<[Z.to_nat source := wm]> ws0) (deps_of n)); [|lia].
      apply min_over_mono. intros m Hm. apply Hgrow. by eapply deps_order.
  - set_solver.
  - intros n Hn _ Hne. rewrite Hat by done. by rewrite decide_False.
  - intros n _ Hn. by apply Hat.
  - apply NoDup_singleton.
  - intros n w. rewrite list_elem_of_singleton. split.
    + intros [= -> ->]. split; [done|]. rewrite Hat, decide_True by done. split; [done|lia].
    + intros (Hn & <- & Hne). rewrite Hat in * by done. case_decide; [by subst|done].
Qed.

(** A round that leaves the watermark of the node. *)
Lemma loop_inv_keep done n rest ws buf : order = done ++ n :: rest → loop_inv done ws buf →
  level (reported n) ws (deps_of n) <= wm_at ws n → loop_inv (done ++ [n]) ws buf.
Proof.
  intros Ho Hinv Hle. assert (Hn : n ∈ order) by (rewrite Ho; set_solver).
  destruct Hinv as [L1 L2 L3 L4 L5 L6 L7 L8 L9]. split; try done.
  - intros k [Hk| ->%list_elem_of_singleton]%elem_of_app; [by apply L5|].
    specialize (L4 n Hn). lia.
  - intros k Hk Hnk. apply L6; set_solver.
  - intros k Hs. apply L7. set_solver.
Qed.

(** A round that advances it: the node is not the source and comes after it. *)
Lemma loop_inv_advance done n rest ws buf : order = done ++ n :: rest → loop_inv done ws buf →
  let v := min_over ws (deps_of n) in
  deps_of n ≠ [] → wm_at ws n < v →
  loop_inv (done ++ [n]) (<[Z.to_nat n := v]> ws) (buf ++ [(n, v)]).
Proof.
  intros Ho Hinv v Hne Hv. assert (Hn : n ∈ order) by (rewrite Ho; set_solver).
  pose proof (oo_nodup Hok) as Hnd. rewrite Ho in Hnd. apply NoDup_app in Hnd as (_ & Hnd & _).
  assert (Hnodone : n ∉ done). { intros Hin. apply (Hnd n Hin). left. }
  assert (Hdeps : ∀ m, m ∈ deps_of n → m ∈ done) by (intros m; by apply (oo_topo Hok _ _ _ _ Ho)).
  destruct Hinv as [L1 L2 L3 L4 L5 L6 L7 L8 L9].
  assert (Hsd : source ∈ done).
  { destruct (decide (source ∈ done)) as [|Hns]; [done|exfalso].
    assert (v = min_over ws0 (deps_of n)) as Heq.
    { apply min_over_ext. intros m Hm. rewrite L7 by (done || by eapply deps_order).
      rewrite decide_False; [done|]. intros ->. by apply Hns, Hdeps. }
    pose proof (Hlevel0 n Hn) as Hl. rewrite level_nonempty in Hl by done.
    rewrite (L7 n Hns Hn) in Hv. case_decide; [subst n|]; lia. }
  assert (Hns : n ≠ source) by (intros ->; done).
  assert (Hat : ∀ k, k ∈ order → wm_at (<[Z.to_nat n := v]> ws) k = if decide (k = n) then v else wm_at ws k)
    by (intros; by apply wm_at_insert).
  assert (Hgrow : ∀ k, k ∈ order → wm_at ws k <= wm_at (<[Z.to_nat n := v]> ws) k).
  { intros k Hk. rewrite Hat by done. case_decide; [subst; lia|lia]. }
  assert (Hsame : ∀ k, k ∈ done ∨ k = n → min_over (<[Z.to_nat n := v]> ws) (deps_of k) = min_over ws (deps_of k)).
  { intros k Hk. apply min_over_ext. intros m Hm.
    assert (m ∈ done) by (destruct Hk as [Hk| ->]; [by eapply deps_done|by apply Hdeps]).
    rewrite Hat by (rewrite Ho; set_solver). rewrite decide_False; [done|congruence]. }
  split.
  - by rewrite length_insert.
  - apply i64s_insert; [done|]. by apply min_over_i64.
  - intros k Hk. specialize (L3 k Hk). specialize (Hgrow k Hk). lia.
  - intros k Hk. destruct (L4 k Hk) as [Hr Hl]. split; [specialize (Hgrow k Hk); lia|].
    rewrite Hat by done. case_decide as Hkn.
    + subst k. rewrite level_nonempty by done. rewrite Hsame by auto. lia.
    + etrans; [exact Hl|]. unfold level. case_match eqn:E; [lia|]. rewrite <- E.
      assert (min_over ws (deps_of k) <= min_over (<[Z.to_nat n := v]> ws) (deps_of k)); [|lia].
      apply min_over_mono. intros m Hm. apply Hgrow. by eapply deps_order.
  - intros k Hk. assert (Hko : k ∈ order) by (rewrite Ho; set_solver). rewrite Hat by done.
    apply elem_of_app in Hk as [Hk|Hk%list_elem_of_singleton].
    + rewrite decide_False by congruence. rewrite (L5 k Hk). unfold level. by rewrite Hsame by auto.
    + subst k. rewrite decide_True by done. rewrite level_nonempty by done. rewrite Hsame by auto.
      destruct (L4 n Hn). lia.
  - intros k Hk Hnk Hks. rewrite Hat by done. rewrite decide_False by set_solver. apply L6; set_solver.
  - intros k Hs. set_solver.
  - rewrite fmap_app. apply NoDup_app. split; [done|]. split; [|apply NoDup_singleton].
    intros k Hk Hkn%list_elem_of_singleton. simpl in Hkn. subst k.
    apply list_elem_of_fmap in Hk as ([k w] & Hkn & Hk). simpl in Hkn. subst k.
    apply L9 in Hk as (_ & <- & Hc). by rewrite (L6 n) in Hc.
  - intros k w. rewrite elem_of_app, list_elem_of_singleton, L9. split.
    + intros [(Hk & Hw & Hc)|[= -> ->]].
      * assert (k ≠ n). { intros ->. subst w. by rewrite L6 in Hc. }
        rewrite Hat by done. by rewrite decide_False.
      * split; [done|]. rewrite Hat, decide_True by done. split; [done|].
        rewrite <- (L6 n) by done. lia.
    + intros (Hk & Hw & Hc). rewrite Hat in Hw by done. case_decide; [right; by subst|by left].
Qed.

Lemma propagate_loop rest : ∀ done ws buf, order = done ++ rest → loop_inv done ws buf →
  ∃ ws' buf', propagate slots deps rest ws buf = Some (ws', buf') ∧ loop_inv order ws' buf'.
Proof.
  induction rest as [|n rest IH]; intros done ws buf Ho Hinv.
  { exists ws, buf. split; [done|]. rewrite app_nil_r in Ho. by rewrite Ho. }
  assert (Hn : n ∈ order) by (rewrite Ho; set_solver). destruct (oo_slot Hok n Hn) as [_ Hslot].
  assert (Ho' : order = (done ++ [n]) ++ rest) by by rewrite <- app_assoc.
  cbn [propagate]. rewrite decide_False by lia.
  destruct (lookup_lt_is_Some_2 deps (Z.to_nat n)) as [dn Hdn]; [rewrite (oo_length Hok); lia|].
  assert (Hdeps : deps_of n = dn) by (unfold deps_of; by rewrite Hdn). rewrite Hdn.
  destruct dn as [|m dn].
  { apply (IH _ _ _ Ho'). apply (loop_inv_keep done n rest); [done..|]. rewrite Hdeps. simpl.
    apply (li_bounds _ _ _ Hinv n Hn). }
  rewrite <- Hdeps in *.
  rewrite min_inputs_spec; [| apply Hinv| |unfold is_i64; lia|unfold WATERMARK_UNSET; lia].
  2:{ intros k Hk. rewrite (li_len _ _ _ Hinv). apply (oo_slot Hok). by eapply deps_order. }
  pose proof (min_over_i64 ws (deps_of n) (li_i64 _ _ _ Hinv)) as Hv.
  set (v := min_over ws (deps_of n)) in *. rewrite Z.min_r by (unfold is_i64 in Hv; lia).
  assert (Hne : deps_of n ≠ []) by by rewrite Hdeps.
  assert (Hkeep : v <= wm_at ws n → loop_inv (done ++ [n]) ws buf).
  { intros Hle. apply (loop_inv_keep done n rest); [done..|]. rewrite level_nonempty by done.
    fold v. pose proof (li_bounds _ _ _ Hinv n Hn). lia. }
  pose proof (wm_at_i64 ws n (li_i64 _ _ _ Hinv)) as Hw.
  destruct (Z.eqb_spec v WATERMARK_UNSET) as [Heq|Hset].
  { apply (IH _ _ _ Ho'), Hkeep. rewrite Heq. unfold is_i64, WATERMARK_UNSET in *. lia. }
  destruct (lookup_lt_is_Some_2 ws (Z.to_nat n)) as [w Hwn]; [rewrite (li_len _ _ _ Hinv); lia|].
  rewrite Hwn. assert (wm_at ws n = w) as <- by (unfold wm_at; by rewrite Hwn).
  destruct (Z.gtb_spec v (wm_at ws n)); apply (IH _ _ _ Ho'); [|apply Hkeep; lia].
  by apply (loop_inv_advance done n rest).
Qed.

Lemma propagate_spec : ∃ ws buf,
  propagate slots deps order (<[Z.to_nat source := wm]> ws0) [(source, wm)] = Some (ws, buf) ∧
  loop_inv order ws buf.
Proof. apply (propagate_loop order []); [done|]. apply loop_inv_start. Qed.

End Propagation.

(** ** The tracker of a finalized dag *)

Section Tracker.
Context {DataType : Type} `{HO : !HashOrder} `{HL : !HashOrderLaws}.
Implicit Types d : StreamingDag (DataType:=DataType).

(** The nodes that feed a node, one for every incoming edge. *)
Definition preds d (node : DagNode (DataType:=DataType)) : list Z :=
  omap (λ e, de_source <$> sd_edges d !! e) (dn_inputs node).

Lemma push_deps_length max_id edges : ∀ deps,
  length (foldl (push_dep max_id) deps edges) = length deps.
Proof.
  induction edges as [|edge edges IH]; intros deps; [done|]. simpl. rewrite IH. unfold push_dep.
  case_decide; [by rewrite length_alter|done].
Qed.

Lemma push_deps_spec max_id edges i : ∀ deps,
  (i < max_id)%nat →
  foldl (push_dep max_id) deps edges !! i =
  (λ l, l ++ (de_source <$> filter (λ edge, Z.to_nat (de_target edge) = i) edges)) <$> deps !! i.
Proof.
  induction edges as [|edge edges IH]; intros deps Hi; simpl.
  { destruct (deps !! i); simpl; [by rewrite app_nil_r|done]. }
  rewrite IH by done. unfold push_dep. destruct (decide (Z.to_nat (de_target edge) = i)) as [Heq|Hne].
  - rewrite filter_cons_True by done. rewrite decide_True by lia. rewrite Heq, list_lookup_alter_eq.
    destruct (deps !! i); simpl; [by rewrite <- app_assoc|done].
  - rewrite filter_cons_False by done. case_decide; [by rewrite list_lookup_alter_ne|done].
Qed.

Lemma slot_of_node d n node : dag_wf d → sd_nodes d !! n = Some node →
  0 <= n ∧ (Z.to_nat n < slot_count d)%nat.
Proof.
  intros Hwf Hn. destruct (wf_node _ Hwf _ _ Hn) as (_ & _ & ?).
  destruct (max_node_id_spec d n node Hn) as (m & Hm & ? & _). unfold slot_count. rewrite Hm. lia.
Qed.

Lemma from_dag_deps d n node : dag_wf d → sd_nodes d !! n = Some node →
  deps_of (dw_source_deps (DagWatermarkTracker_from_dag d)) n ≡ₚ preds d node.
Proof.
  intros Hwf Hn. destruct (slot_of_node d n node Hwf Hn) as [Hn0 Hslot].
  unfold deps_of. simpl. rewrite push_deps_spec, lookup_replicate_2 by done. simpl.
  unfold preds. rewrite (inputs_perm_ids d n node Hwf Hn).
  rewrite (filter_ext_in _ (λ edge, de_target edge = n)).
  2:{ intros edge [k Hk]%elem_of_hash_values. destruct (wf_edge _ Hwf _ _ Hk) as (_ & _ & _ & _ & [tn Ht]).
      destruct (slot_of_node d _ tn Hwf Ht). lia. }
  assert (Hl : ∀ edge, edge ∈ filter (λ edge, de_target edge = n) (hash_values (sd_edges d)) →
    sd_edges d !! de_id edge = Some edge).
  { intros edge [_ [k Hk]%elem_of_hash_values]%list_elem_of_filter.
    by destruct (wf_edge _ Hwf _ _ Hk) as [-> _]. }
  induction (filter _ _) as [|edge l IH]; [done|]. rewrite !fmap_cons. simpl.
  rewrite Hl by left. simpl. f_equiv. apply IH. intros. apply Hl. by right.
Qed.

Lemma elem_of_preds d n node m : dag_wf d → sd_nodes d !! n = Some node →
  m ∈ preds d node ↔ dag_edge d m n.
Proof.
  intros Hwf Hn. unfold preds. rewrite list_elem_of_omap. destruct (wf_inputs _ Hwf _ _ Hn) as [_ Hin]. split.
  - intros (e & (edge & He & Ht)%Hin & Hs). rewrite He in Hs. injection Hs as <-. by exists e, edge.
  - intros (e & edge & He & <- & Ht). exists e. rewrite Hin, He. eauto.
Qed.

Lemma from_dag_order_ok d : dag_wf d → NoDup (sd_execution_order d) →
  (∀ n, n ∈ sd_execution_order d → is_Some (sd_nodes d !! n)) → topo_order d (sd_execution_order d) →
  order_ok (slot_count d) (dw_source_deps (DagWatermarkTracker_from_dag d)) (sd_execution_order d).
Proof.
  intros Hwf Hnd Hsub Ht. split.
  - simpl. by rewrite push_deps_length, length_replicate.
  - intros n [node Hn]%Hsub. by eapply slot_of_node.
  - done.
  - intros pre n post m Ho Hm. assert (Hin : n ∈ sd_execution_order d) by (rewrite Ho; set_solver).
    apply Hsub in Hin as [node Hn]. rewrite from_dag_deps in Hm by done.
    apply (elem_of_preds d n) in Hm as (e & edge & He & <- & <-); [|done..].
    destruct (Ht (length pre) e edge He) as (j & Hj & Hlook).
    { rewrite Ho. by apply list_lookup_middle. }
    rewrite Ho, lookup_app_l in Hlook by done. by eapply list_elem_of_lookup_2.
Qed.

(** The highest watermark reported to a node. *)
Definition highest (us : list (Z * Z)) (n : Z) : Z :=
  foldl (λ m u, if decide (u.1 = n) then Z.max m u.2 else m) WATERMARK_UNSET us.

Fixpoint dag_wm_run (t : DagWatermarkTracker) (us : list (Z * Z)) : option DagWatermarkTracker :=
  match us with
  | [] => Some t
  | (source, wm) :: us =>
      match DagWatermarkTracker_update_watermark t source wm with
      | Some (t, _) => dag_wm_run t us
      | None => None
      end
  end.

Record tracker_ok d (us : list (Z * Z)) (t : DagWatermarkTracker) : Prop := {
  tk_slots : dw_slot_count t = slot_count d;
  tk_deps : dw_source_deps t = dw_source_deps (DagWatermarkTracker_from_dag d);
  tk_order : dw_execution_order t = sd_execution_order d;
  tk_length : length (dw_watermarks t) = slot_count d;
  tk_i64 : i64s (dw_watermarks t);
  tk_level n : n ∈ sd_execution_order d →
    wm_at (dw_watermarks t) n = level (highest us n) (dw_watermarks t) (deps_of (dw_source_deps t) n) }.

Lemma wm_at_unset k n : wm_at (replicate k WATERMARK_UNSET) n = WATERMARK_UNSET.
Proof.
  unfold wm_at. destruct (replicate k _ !! _) as [w|] eqn:E; [|done].
  by apply lookup_replicate in E as [-> _].
Qed.

Lemma tracker_ok_init d : dag_wf d → tracker_ok d [] (DagWatermarkTracker_from_dag d).
Proof.
  intros Hwf. split; try done; simpl.
  - by rewrite length_replicate.
  - apply Forall_replicate. unfold is_i64, WATERMARK_UNSET. lia.
  - intros n Hn. rewrite wm_at_unset. unfold level. case_match eqn:E; [done|]. rewrite <- E.
    assert (Hmin : ∀ l : list Z, l ≠ [] → min_over (replicate (slot_count d) WATERMARK_UNSET) l <= WATERMARK_UNSET).
    { clear. intros [|m l] Hl; [done|].
      change (Z.min (wm_at (replicate (slot_count d) WATERMARK_UNSET) m)
        (min_over (replicate (slot_count d) WATERMARK_UNSET) l) <= WATERMARK_UNSET).
      rewrite wm_at_unset. lia. }
    unfold highest. simpl. rewrite Z.max_l; [done|]. apply Hmin. by rewrite E.
Qed.

Lemma highest_snoc us s w n :
  highest (us ++ [(s, w)]) n = if decide (s = n) then Z.max (highest us n) w else highest us n.
Proof. unfold highest. by rewrite foldl_app. Qed.

Lemma level_ge rep ws l : rep <= level rep ws l.
Proof. unfold level. case_match; lia. Qed.

(** One update: the equation still holds, and the answer is the change. *)
Lemma tracker_update d us t s w :
  order_ok (slot_count d) (dw_source_deps (DagWatermarkTracker_from_dag d)) (sd_execution_order d) →
  tracker_ok d us t → s ∈ sd_execution_order d → is_i64 w →
  ∃ t' changed, DagWatermarkTracker_update_watermark t s w = Some (t', changed) ∧
    tracker_ok d (us ++ [(s, w)]) t' ∧ NoDup changed.*1 ∧
    (∀ n, n ∈ sd_execution_order d → wm_at (dw_watermarks t) n <= wm_at (dw_watermarks t') n) ∧
    (∀ n v, (n, v) ∈ changed ↔ n ∈ sd_execution_order d ∧ wm_at (dw_watermarks t') n = v ∧
       v ≠ wm_at (dw_watermarks t) n).
Proof.
  intros Hok [T1 T2 T3 T4 T5 T6] Hs Hw. destruct (oo_slot _ _ _ Hok s Hs) as [Hs0 Hslot].
  unfold DagWatermarkTracker_update_watermark. rewrite decide_False by (rewrite T1; lia).
  destruct (lookup_lt_is_Some_2 (dw_watermarks t) (Z.to_nat s)) as [x Hx]; [lia|]. rewrite Hx.
  assert (wm_at (dw_watermarks t) s = x) as <- by (unfold wm_at; by rewrite Hx).
  destruct (Z.leb_spec w (wm_at (dw_watermarks t) s)) as [Hle|Hgt].
  - eexists _, _. split; [done|]. split; [|split; [constructor|split; [done|]]].
    + split; try done. simpl. intros n Hn. rewrite highest_snoc. pose proof (T6 n Hn) as Hl.
      case_decide; [subst n|done]. rewrite Hl in *. pose proof (level_ge (highest us s) (dw_watermarks t) (deps_of (dw_source_deps t) s)).
      unfold level in *. case_match; lia.
    + intros n v. split; [by intros ?%elem_of_nil|]. simpl. by intros (_ & <- & ?).
  - rewrite T1, T3, T2 in *.
    destruct (propagate_spec (slot_count d) _ _ Hok (dw_watermarks t) (highest us) s w T4 T5 T6 Hs Hw Hgt)
      as (ws & buf & -> & [L1 L2 L3 _ L5 _ _ L8 L9]).
    eexists _, _. split; [done|]. split; [|done].
    split; try done. simpl. intros n Hn. rewrite (L5 n Hn), T2. f_equal. rewrite highest_snoc.
    unfold reported. case_decide as Heq.
    + subst n. rewrite decide_True by done. pose proof (level_ge (highest us s) (dw_watermarks t)
        (deps_of (dw_source_deps (DagWatermarkTracker_from_dag d)) s)). rewrite (T6 s Hs) in Hgt. lia.
    + by rewrite decide_False.
Qed.

Lemma tracker_run d us' : ∀ us t,
  order_ok (slot_count d) (dw_source_deps (DagWatermarkTracker_from_dag d)) (sd_execution_order d) →
  tracker_ok d us t → Forall (λ u, u.1 ∈ sd_execution_order d ∧ is_i64 u.2) us' →
  ∃ t', dag_wm_run t us' = Some t' ∧ tracker_ok d (us ++ us') t'.
Proof.
  induction us' as [|[s w] us' IH]; intros us t Hok Ht Hall.
  { exists t. by rewrite app_nil_r. }
  apply Forall_cons in Hall as [[Hs Hw] Hall]. simpl in *.
  destruct (tracker_update d us t s w Hok Ht Hs Hw) as (t1 & ch & -> & Ht1 & _).
  destruct (IH (us ++ [(s, w)]) t1 Hok Ht1 Hall) as (t' & Hr & Ht'). exists t'.
  by rewrite <- app_assoc in Ht'.
Qed.

End Tracker.

(** ** Properties *)

Section Properties.
Context {DataType : Type} `{HO : !HashOrder} `{HL : !HashOrderLaws}.
Context (d d' : StreamingDag (DataType:=DataType)).
Context (Hd : dag_reach d) (Hf : StreamingDag_finalize d = Some (d', inl tt)).

Lemma finalized_order_ok :
  order_ok (slot_count d') (dw_source_deps (DagWatermarkTracker_from_dag d')) (sd_execution_order d').
Proof.
  destruct (finalized_order d d' (dag_reach_wf d Hd) Hf) as (Hnd & Hall & Ht).
  destruct (finalized_fan_out d d' Hd Hf) as [Hwf _].
  apply from_dag_order_ok; try done. intros n. apply Hall.
Qed.

Definition updates_ok (us : list (Z * Z)) : Prop :=
  Forall (λ u, is_Some (sd_nodes d' !! u.1) ∧ is_i64 u.2) us.

Lemma finalized_run us : updates_ok us →
  ∃ t, dag_wm_run (DagWatermarkTracker_from_dag d') us = Some t ∧ tracker_ok d' us t.
Proof.
  intros Hus. destruct (finalized_order d d' (dag_reach_wf d Hd) Hf) as (_ & Hall & _).
  destruct (finalized_fan_out d d' Hd Hf) as [Hwf _].
  apply (tracker_run d' us [] _ finalized_order_ok (tracker_ok_init d' Hwf)).
  eapply Forall_impl; [exact Hus|]. intros u [? ?]. by rewrite Hall.
Qed.

Lemma tracker_level us t n node : tracker_ok d' us t → sd_nodes d' !! n = Some node →
  wm_at (dw_watermarks t) n = level (highest us n) (dw_watermarks t) (preds d' node).
Proof.
  intros [T1 T2 T3 T4 T5 T6] Hn. destruct (finalized_order d d' (dag_reach_wf d Hd) Hf) as (_ & Hall & _).
  destruct (finalized_fan_out d d' Hd Hf) as [Hwf _].
  assert (Hno : n ∈ sd_execution_order d') by (apply Hall; eauto).
  rewrite (T6 n Hno). pose proof (from_dag_deps d' n node Hwf Hn) as Hp. rewrite <- T2 in Hp.
  unfold level. rewrite (min_over_perm _ _ _ Hp).
  destruct (deps_of _ n) as [|m l]; destruct (preds d' node) as [|m' l']; try done.
  - by apply Permutation_nil_l in Hp.
  - by apply Permutation_nil_r in Hp.
Qed.

Lemma effective_is_min us t n node : tracker_ok d' us t → sd_nodes d' !! n = Some node →
  preds d' node ≠ [] → highest us n = WATERMARK_UNSET →
  DagWatermarkTracker_effective_watermark t n = Some (DagWatermarkTracker_get_watermark t n).
Proof.
  intros Ht Hn Hne Hh. pose proof (tracker_level us t n node Ht Hn) as Hl.
  destruct (finalized_fan_out d d' Hd Hf) as [Hwf _]. pose proof Ht as [T1 T2 T3 T4 T5 T6].
  destruct (slot_of_node d' n node Hwf Hn) as [Hn0 Hslot].
  pose proof (from_dag_deps d' n node Hwf Hn) as Hp. rewrite <- T2 in Hp.
  unfold DagWatermarkTracker_effective_watermark, DagWatermarkTracker_get_watermark.
  rewrite T1, decide_False, decide_True by lia.
  destruct (lookup_lt_is_Some_2 (dw_source_deps t) (Z.to_nat n)) as [l Hdeps].
  { rewrite T2. simpl. by rewrite push_deps_length, length_replicate. }
  destruct (lookup_lt_is_Some_2 (dw_watermarks t) (Z.to_nat n)) as [w Hw]; [lia|].
  rewrite Hdeps, Hw. unfold deps_of in Hp. rewrite Hdeps in Hp. simpl in Hp.
  destruct l as [|m l]; [by apply Permutation_nil_l in Hp|].
  rewrite (min_inputs_spec (dw_watermarks t)); [|done| |unfold is_i64; lia|unfold WATERMARK_UNSET; lia].
  2:{ intros k Hk. rewrite T4, Hp in *. apply (elem_of_preds d' n) in Hk as (e & edge & He & <- & _); [|done..].
      destruct (wf_edge _ Hwf _ _ He) as (_ & _ & _ & [sn Hs] & _). by eapply slot_of_node. }
  rewrite (min_over_perm _ _ _ Hp). pose proof (min_over_i64 (dw_watermarks t) (preds d' node) T5) as Hi.
  rewrite Z.min_r by (unfold is_i64 in Hi; lia).
  assert (wm_at (dw_watermarks t) n = w) as Hwn by (unfold wm_at; by rewrite Hw).
  rewrite Hwn, Hh, level_nonempty, Z.max_r in Hl by (done || (unfold is_i64, WATERMARK_UNSET in *; lia)).
  by rewrite <- Hl.
Qed.

End Properties.

(** [C10]: In a finalized dag, whatever watermarks are reported to which nodes in
    which order, the watermark of every node is the later of the highest
    watermark reported to it and the minimum over its inputs (unset while an
    input is unset); for a node that only receives watermarks from its inputs
    this is also what [effective_watermark] recomputes. *)
Theorem dag_watermarks_are_input_minima {DataType} `{HO : !HashOrder} `{HL : !HashOrderLaws}
    (d d' : StreamingDag (DataType:=DataType)) us :
  dag_reach d → StreamingDag_finalize d = Some (d', inl tt) → updates_ok d' us →
  ∃ t, dag_wm_run (DagWatermarkTracker_from_dag d') us = Some t ∧
    ∀ n node, sd_nodes d' !! n = Some node →
      wm_at (dw_watermarks t) n = level (highest us n) (dw_watermarks t) (preds d' node) ∧
      (preds d' node ≠ [] → highest us n = WATERMARK_UNSET →
       DagWatermarkTracker_effective_watermark t n = Some (DagWatermarkTracker_get_watermark t n)).
Proof.
  intros Hd Hf Hus. destruct (finalized_run d d' Hd Hf us Hus) as (t & Hr & Ht).
  exists t. split; [done|]. intros n node Hn.
  split; [by eapply tracker_level|by eapply effective_is_min].
Qed.

Definition diamond_final : StreamingDag (DataType:=bool) :=
  match StreamingDag_finalize diamond with Some (d', _) => d' | None => diamond end.
Lemma diamond_finalized : StreamingDag_finalize diamond = Some (diamond_final, inl tt).
Proof. vm_compute. reflexivity. Qed.

Lemma dag_watermarks_are_input_minima_witness :
  ∃ t, dag_wm_run (DagWatermarkTracker_from_dag diamond_final) [(0, 10); (1, 25); (0, 20)] = Some t ∧
    dw_watermarks t = [20; 25; 20; 20] ∧
    DagWatermarkTracker_effective_watermark t 3 = Some (Some 20).
Proof.
  destruct (dag_watermarks_are_input_minima diamond diamond_final [(0, 10); (1, 25); (0, 20)])
    as (t & Hr & Hl).
  - exact diamond_reach.
  - exact diamond_finalized.
  - repeat apply Forall_cons_2; try apply Forall_nil_2;
      (split; [eexists; vm_compute; reflexivity|unfold is_i64; simpl; lia]).
  - exists t. split; [done|]. destruct (sd_nodes diamond_final !! 3) as [node|] eqn:Hn;
      [|by vm_compute in Hn].
    destruct (Hl 3 node Hn) as [_ He].
    assert (Ht : (λ t, (dw_watermarks t, DagWatermarkTracker_get_watermark t 3)) <$>
      dag_wm_run (DagWatermarkTracker_from_dag diamond_final) [(0, 10); (1, 25); (0, 20)] =
      Some ([20; 25; 20; 20], Some 20)) by reflexivity.
    rewrite Hr in Ht. injection Ht as Hw Hg. split; [done|]. rewrite He, Hg; [done| |reflexivity].
    vm_compute in Hn. injection Hn as <-. vm_compute. discriminate.
Defined.

(** An update answers with exactly the nodes whose watermark it changed, each
    once and with its new watermark, and never lowers a watermark. *)
Theorem dag_update_reports_changes {DataType} `{HO : !HashOrder} `{HL : !HashOrderLaws}
    (d d' : StreamingDag (DataType:=DataType)) us t source wm :
  dag_reach d → StreamingDag_finalize d = Some (d', inl tt) → updates_ok d' us →
  dag_wm_run (DagWatermarkTracker_from_dag d') us = Some t →
  is_Some (sd_nodes d' !! source) → is_i64 wm →
  ∃ t' changed, DagWatermarkTracker_update_watermark t source wm = Some (t', changed) ∧
    NoDup changed.*1 ∧
    (∀ n, is_Some (sd_nodes d' !! n) → wm_at (dw_watermarks t) n <= wm_at (dw_watermarks t') n) ∧
    (∀ n v, (n, v) ∈ changed ↔ is_Some (sd_nodes d' !! n) ∧ wm_at (dw_watermarks t') n = v ∧
       v ≠ wm_at (dw_watermarks t) n).
Proof.
  intros Hd Hf Hus Hr Hs Hw. destruct (finalized_run d d' Hd Hf us Hus) as (t0 & Hr0 & Ht).
  rewrite Hr in Hr0. injection Hr0 as <-.
  destruct (finalized_order d d' (dag_reach_wf d Hd) Hf) as (_ & Hall & _).
  destruct (tracker_update d' us t source wm (finalized_order_ok d d' Hd Hf) Ht) as (t' & ch & Hu & _ & Hnd & Hmono & Hch);
    [by apply Hall|done|].
  exists t', ch. split; [done|]. split; [done|]. split; intros n; [rewrite <- Hall; apply Hmono|].
  intros v. by rewrite Hch, Hall.
Qed.

Lemma dag_update_reports_changes_witness :
  ∃ t t' changed, dag_wm_run (DagWatermarkTracker_from_dag diamond_final) [(1, 5)] = Some t ∧
    DagWatermarkTracker_update_watermark t 0 7 = Some (t', changed) ∧
    changed = [(0, 7); (1, 7); (2, 7); (3, 7)] ∧ NoDup changed.*1.
Proof.
  destruct (dag_wm_run (DagWatermarkTracker_from_dag diamond_final) [(1, 5)]) as [t|] eqn:Hr;
    [|by vm_compute in Hr].
  destruct (dag_update_reports_changes diamond diamond_final [(1, 5)] t 0 7)
    as (t' & ch & Hu & Hnd & _).
  - exact diamond_reach.
  - exact diamond_finalized.
  - apply Forall_cons_2; [|apply Forall_nil_2].
    split; [eexists; vm_compute; reflexivity|unfold is_i64; simpl; lia].
  - exact Hr.
  - eexists; vm_compute; reflexivity.
  - unfold is_i64; lia.
  - exists t, t', ch. split; [done|]. split; [done|]. split; [|done].
    vm_compute in Hr. injection Hr as <-. vm_compute in Hu. by injection Hu as _ <-.
Defined.
