(* ===== verification/Barriers.v ===== *)
(** * Checkpoint barriers

    checkpoint/barrier.rs: barriers and their flags, stream messages, and the
    packed command word through which a coordinator thread hands a barrier to the
    polling sources. dag/checkpoint.rs and dag/recovery/mod.rs: the aligner of a
    node with several inputs, the checkpoint coordinator of a dag and the
    checkpoint result.

    The command word is one [AtomicU64]: its operations are atomic and totally
    ordered whatever their memory ordering, so a concurrent execution is an
    interleaving of loads, stores and compare-exchanges ([barrier_step]). *)

From stdpp Require Import pretty.
From S2P Require Import Prelude WindowCore TumblingOp DagTopology.

(** ** Barriers and messages *)

Module flags.
Definition NONE : Z := 0.
Definition FULL_SNAPSHOT : Z := Z.shiftl 1 0.
Definition DRAIN : Z := Z.shiftl 1 1.
Definition CANCEL : Z := Z.shiftl 1 2.
Definition UNALIGNED : Z := Z.shiftl 1 3.
End flags.

Definition CheckpointBarrier_new (checkpoint_id epoch : Z) : CheckpointBarrier :=
  mkBarrier checkpoint_id epoch flags.NONE.
Definition CheckpointBarrier_full_snapshot (checkpoint_id epoch : Z) : CheckpointBarrier :=
  mkBarrier checkpoint_id epoch flags.FULL_SNAPSHOT.

Definition has_flag (f : Z) (b : CheckpointBarrier) : bool := negb (Z.land (cb_flags b) f =? 0).
Definition CheckpointBarrier_is_full_snapshot := has_flag flags.FULL_SNAPSHOT.
Definition CheckpointBarrier_is_drain := has_flag flags.DRAIN.
Definition CheckpointBarrier_is_cancel := has_flag flags.CANCEL.
Definition CheckpointBarrier_is_unaligned := has_flag flags.UNALIGNED.

Inductive StreamMessage (T : Type) :=
  | MEvent (t : T)
  | MWatermark (wm : Z)
  | MBarrier (b : CheckpointBarrier).
Arguments MEvent {T}. Arguments MWatermark {T}. Arguments MBarrier {T}.

Definition StreamMessage_is_barrier {T} (m : StreamMessage T) : bool :=
  match m with MBarrier _ => true | _ => false end.
Definition StreamMessage_is_watermark {T} (m : StreamMessage T) : bool :=
  match m with MWatermark _ => true | _ => false end.
Definition StreamMessage_is_event {T} (m : StreamMessage T) : bool :=
  match m with MEvent _ => true | _ => false end.
Definition StreamMessage_as_barrier {T} (m : StreamMessage T) : option CheckpointBarrier :=
  match m with MBarrier b => Some b | _ => None end.

(** ** The command word *)

Definition pack_barrier_cmd (checkpoint_id flags : Z) : Z :=
  Z.lor (Z.shiftl checkpoint_id 32) flags.
Definition unpack_barrier_cmd (packed : Z) : Z * Z :=
  (wrap_u32 (Z.shiftr packed 32), wrap_u32 packed).

(** The word and the epoch counter, shared by the injector and its handles. *)
Record CheckpointBarrierInjector := mkInjector { bi_cmd : Z; bi_epoch : Z }.

Definition CheckpointBarrierInjector_new : CheckpointBarrierInjector := mkInjector 0 0.

(** [trigger] is a store to the word and an increment of the counter; the casts
    [as u32] truncate. *)
Definition trigger_packed (checkpoint_id barrier_flags : Z) : Z :=
  pack_barrier_cmd (wrap_u32 checkpoint_id) (wrap_u32 barrier_flags).
Definition trigger_store (checkpoint_id barrier_flags : Z) (s : CheckpointBarrierInjector)
  : CheckpointBarrierInjector := mkInjector (trigger_packed checkpoint_id barrier_flags) (bi_epoch s).
Definition trigger_count (s : CheckpointBarrierInjector) : CheckpointBarrierInjector :=
  mkInjector (bi_cmd s) (u64_add (bi_epoch s) 1).
Definition CheckpointBarrierInjector_trigger (checkpoint_id barrier_flags : Z)
    (s : CheckpointBarrierInjector) : CheckpointBarrierInjector :=
  trigger_count (trigger_store checkpoint_id barrier_flags s).

(** [poll] loads the word and, unless it is 0, tries to replace what it read. *)
Definition poll_load (s : CheckpointBarrierInjector) : option Z :=
  if bi_cmd s =? 0 then None else Some (bi_cmd s).
Definition poll_claim (packed epoch : Z) (s : CheckpointBarrierInjector)
  : CheckpointBarrierInjector * option CheckpointBarrier :=
  if bi_cmd s =? packed then
    let '(checkpoint_id, barrier_flags) := unpack_barrier_cmd packed in
    (mkInjector 0 (bi_epoch s), Some (mkBarrier checkpoint_id epoch barrier_flags))
  else (s, None).

(** A call without interference. *)
Definition BarrierPollHandle_poll (epoch : Z) (s : CheckpointBarrierInjector)
  : CheckpointBarrierInjector * option CheckpointBarrier :=
  match poll_load s with
  | None => (s, None)
  | Some packed => poll_claim packed epoch s
  end.

(** ** The aligner *)

Record BarrierAligner {B : Type} := mkAligner {
  ba_expected_inputs : nat;
  ba_barriers_received : gmap Z CheckpointBarrier;
  ba_buffered_events : gmap Z (list (Event B));
  ba_current_checkpoint_id : option Z }.
Arguments BarrierAligner : clear implicits.
Arguments mkAligner {B}.

Inductive AlignmentResult (B : Type) :=
  | Pending
  | Aligned (barrier : CheckpointBarrier) (buffered_events : list (Event B)).
Arguments Pending {B}. Arguments Aligned {B}.

Section Aligner.
Context {B : Type} `{HO : !HashOrder}.

Definition BarrierAligner_new (expected_inputs : nat) : BarrierAligner B :=
  mkAligner expected_inputs ∅ ∅ None.

Definition event_le : relation (Event B) := λ a b, ev_timestamp a <= ev_timestamp b.
#[global] Instance event_le_dec a b : Decision (event_le a b).
Proof. unfold event_le. apply _. Defined.

(** [sort_by_key(|e| e.timestamp)]. *)
Definition sort_events (l : list (Event B)) : list (Event B) := merge_sort event_le l.

(** [None] is the panic of [expect] on an empty map, which the insertion rules
    out. *)
Definition BarrierAligner_on_barrier (source_node : Z) (barrier : CheckpointBarrier)
    (a : BarrierAligner B) : option (BarrierAligner B * AlignmentResult B) :=
  let received := <[source_node := barrier]> (ba_barriers_received a) in
  let current := Some (cb_checkpoint_id barrier) in
  if decide (ba_expected_inputs a <= size received)%nat then
    let all_buffered := sort_events (mjoin (hash_values (ba_buffered_events a))) in
    match last (hash_values received) with
    | None => None
    | Some canonical =>
        Some (mkAligner (ba_expected_inputs a) received ∅ current, Aligned canonical all_buffered)
    end
  else Some (mkAligner (ba_expected_inputs a) received (ba_buffered_events a) current, Pending).

Definition BarrierAligner_buffer_if_aligned (source_node : Z) (event : Event B)
    (a : BarrierAligner B) : BarrierAligner B * bool :=
  match ba_barriers_received a !! source_node with
  | Some _ =>
      (mkAligner (ba_expected_inputs a) (ba_barriers_received a)
         (<[source_node := default [] (ba_buffered_events a !! source_node) ++ [event]]>
            (ba_buffered_events a)) (ba_current_checkpoint_id a), true)
  | None => (a, false)
  end.

Definition BarrierAligner_is_source_aligned (source_node : Z) (a : BarrierAligner B) : bool :=
  bool_decide (is_Some (ba_barriers_received a !! source_node)).

Definition BarrierAligner_complete_checkpoint (a : BarrierAligner B) : BarrierAligner B :=
  mkAligner (ba_expected_inputs a) ∅ ∅ None.

End Aligner.

(** ** The result of a checkpoint *)

Record OperatorStateEntry := mkStateEntry { se_version : Z; se_data : list Z }.

Record DagCheckpointResult := mkResult {
  cr_checkpoint_id : Z;
  cr_epoch : Z;
  cr_timestamp_ms : Z;
  cr_operator_states : gmap string OperatorStateEntry }.

Section Result.
Context `{HO : !HashOrder}.

(** [collect] into a [HashMap]: a later entry replaces an earlier one with the
    same key. *)
Definition DagCheckpointResult_from_operator_states (checkpoint_id epoch timestamp_ms : Z)
    (states : gmap Z OperatorState) : DagCheckpointResult :=
  mkResult checkpoint_id epoch timestamp_ms
    (foldl (λ m state, <[os_operator_id state := mkStateEntry (os_version state) (os_data state)]> m)
       ∅ (hash_values states)).

Definition DagCheckpointResult_to_data_map (r : DagCheckpointResult) : gmap string (list Z) :=
  se_data <$> cr_operator_states r.

(** The iteration order of the [HashMap] of names. *)
Context (siter : gmap string OperatorStateEntry → list (string * OperatorStateEntry)).

Definition restored_state (name : string) (entry : OperatorStateEntry) : OperatorState :=
  mkOperatorState name (se_version entry) (se_data entry).

Definition DagCheckpointResult_to_operator_states (name_to_node : gmap string Z)
    (r : DagCheckpointResult) : gmap Z OperatorState :=
  foldl (λ m '(name, entry),
    match name_to_node !! name with
    | Some node_id => <[node_id := restored_state name entry]> m
    | None => m
    end) ∅ (siter (cr_operator_states r)).

(** [name.parse::<u32>()] is a parameter. *)
Definition DagCheckpointResult_to_operator_states_by_index (parse_u32 : string → option Z)
    (r : DagCheckpointResult) : gmap Z OperatorState :=
  foldl (λ m '(name, entry),
    match parse_u32 name with
    | Some idx => <[idx := restored_state name entry]> m
    | None => m
    end) ∅ (siter (cr_operator_states r)).

End Result.

(** ** The coordinator *)

Record DagCheckpointConfig := mkDagCpConfig {
  dc_interval : Duration;
  dc_alignment_timeout : Duration;
  dc_incremental : bool;
  dc_max_concurrent : nat;
  dc_max_retained : nat }.

Definition DagCheckpointConfig_default : DagCheckpointConfig :=
  mkDagCpConfig (from_secs 60) (from_secs 10) false 1 3.

Record CheckpointProgress := mkProgress {
  cp_checkpoint_id : Z;
  cp_epoch : Z;
  cp_completed_nodes : gmap Z OperatorState;
  cp_pending_nodes : list Z;
  cp_triggered_at : Z }.

Record DagCheckpointCoordinator := mkCoordinator {
  co_source_nodes : list Z;
  co_all_nodes : list Z;
  co_next_epoch : Z;
  co_next_checkpoint_id : Z;
  co_in_progress : option CheckpointProgress;
  co_completed_results : list DagCheckpointResult;
  co_max_retained : nat }.

Definition DagCheckpointCoordinator_new (source_nodes all_nodes : list Z)
    (config : DagCheckpointConfig) : DagCheckpointCoordinator :=
  mkCoordinator source_nodes all_nodes 1 1 None [] (dc_max_retained config).

Definition co_set_progress (p : option CheckpointProgress) (c : DagCheckpointCoordinator)
  : DagCheckpointCoordinator :=
  mkCoordinator (co_source_nodes c) (co_all_nodes c) (co_next_epoch c) (co_next_checkpoint_id c) p
    (co_completed_results c) (co_max_retained c).

(** [now] is the clock in milliseconds. *)
Definition DagCheckpointCoordinator_trigger_checkpoint (now : Z) (c : DagCheckpointCoordinator)
  : DagCheckpointCoordinator * (CheckpointBarrier + DagError) :=
  match co_in_progress c with
  | Some progress => (c, inr (CheckpointInProgress (cp_epoch progress)))
  | None =>
      let checkpoint_id := co_next_checkpoint_id c in
      let epoch := co_next_epoch c in
      (mkCoordinator (co_source_nodes c) (co_all_nodes c) (u64_add epoch 1)
         (u64_add checkpoint_id 1)
         (Some (mkProgress checkpoint_id epoch ∅ (co_all_nodes c) now))
         (co_completed_results c) (co_max_retained c),
       inl (CheckpointBarrier_new checkpoint_id epoch))
  end.

Definition DagCheckpointCoordinator_on_node_snapshot_complete (node_id : Z) (state : OperatorState)
    (c : DagCheckpointCoordinator) : DagCheckpointCoordinator * bool :=
  match co_in_progress c with
  | None => (c, false)
  | Some p =>
      let pending := filter (λ n, n ≠ node_id) (cp_pending_nodes p) in
      (co_set_progress (Some (mkProgress (cp_checkpoint_id p) (cp_epoch p)
         (<[node_id := state]> (cp_completed_nodes p)) pending (cp_triggered_at p))) c,
       bool_decide (pending = []))
  end.

(** [while len > max { pop_front }]. *)
Fixpoint trim_results (max_retained : nat) (l : list DagCheckpointResult) : list DagCheckpointResult :=
  match l with
  | [] => []
  | _ :: rest => if decide (max_retained < length l)%nat then trim_results max_retained rest else l
  end.

Definition DagCheckpointCoordinator_finalize_checkpoint `{HO : !HashOrder}
    (c : DagCheckpointCoordinator)
  : DagCheckpointCoordinator * (DagCheckpointResult + DagError) :=
  match co_in_progress c with
  | None => (c, inr NoCheckpointInProgress)
  | Some p =>
      match cp_pending_nodes p with
      | [] =>
          let result := DagCheckpointResult_from_operator_states (cp_checkpoint_id p) (cp_epoch p)
            (cp_triggered_at p) (cp_completed_nodes p) in
          (mkCoordinator (co_source_nodes c) (co_all_nodes c) (co_next_epoch c)
             (co_next_checkpoint_id c) None
             (trim_results (co_max_retained c) (co_completed_results c ++ [result]))
             (co_max_retained c), inl result)
      | pending => (c, inr (CheckpointIncomplete (length pending)))
      end
  end.

Definition DagCheckpointCoordinator_latest_result (c : DagCheckpointCoordinator)
  : option DagCheckpointResult := last (co_completed_results c).

(** ** The command word as a mailbox *)

Lemma pack_add a b : 0 <= b < 4294967296 → pack_barrier_cmd a b = a * 4294967296 + b.
Proof.
  intros Hb. unfold pack_barrier_cmd.
  assert (Hland : Z.land (Z.shiftl a 32) b = 0).
  { apply Z.bits_inj'. intros n Hn. rewrite Z.land_spec, Z.bits_0, Z.shiftl_spec by done.
    destruct (Z_lt_dec n 32) as [Hlt|Hge]; [by rewrite Z.testbit_neg_r by lia|].
    rewrite <- (Z.mod_small b (2 ^ 32)) by done. rewrite Z.mod_pow2_bits_high by lia. apply andb_false_r. }
  rewrite <- Z.lxor_lor, <- Z.add_nocarry_lxor by done. by rewrite Z.shiftl_mul_pow2.
Qed.

Lemma wrap_u32_range z : 0 <= wrap_u32 z < 4294967296.
Proof. by apply Z.mod_pos_bound. Qed.

Lemma trigger_packed_add id fl :
  trigger_packed id fl = wrap_u32 id * 4294967296 + wrap_u32 fl.
Proof. apply pack_add, wrap_u32_range. Qed.

Lemma unpack_trigger id fl : unpack_barrier_cmd (trigger_packed id fl) = (wrap_u32 id, wrap_u32 fl).
Proof.
  pose proof (wrap_u32_range id). pose proof (wrap_u32_range fl).
  rewrite trigger_packed_add. unfold unpack_barrier_cmd. rewrite Z.shiftr_div_pow2 by done.
  change (2 ^ 32) with 4294967296. rewrite Z.div_add_l, (Z.div_small (wrap_u32 fl)), Z.add_0_r by lia.
  f_equal; unfold wrap_u32 at 1; [by apply Z.mod_small|].
  rewrite Z.add_comm, Z_mod_plus_full. by apply Z.mod_small.
Qed.

(** The threads: handles between their load and their compare-exchange, and
    triggers that have stored but not counted yet. *)
Record barrier_sys := mkSys {
  bs_word : CheckpointBarrierInjector;
  bs_loaded : gmap Z (Z * Z);
  bs_uncounted : nat }.

Inductive barrier_event :=
  | Triggered (checkpoint_id barrier_flags : Z)
  | Polled (handle : Z) (answer : option CheckpointBarrier).

Inductive barrier_step : barrier_sys → option barrier_event → barrier_sys → Prop :=
  | step_store w th k id fl :
      barrier_step (mkSys w th k) (Some (Triggered id fl)) (mkSys (trigger_store id fl w) th (S k))
  | step_count w th k :
      barrier_step (mkSys w th (S k)) None (mkSys (trigger_count w) th k)
  | step_empty w th k h : th !! h = None → poll_load w = None →
      barrier_step (mkSys w th k) (Some (Polled h None)) (mkSys w th k)
  | step_load w th k h packed epoch : th !! h = None → poll_load w = Some packed →
      barrier_step (mkSys w th k) None (mkSys w (<[h := (packed, epoch)]> th) k)
  | step_claim w th k h packed epoch w' r : th !! h = Some (packed, epoch) →
      poll_claim packed epoch w = (w', r) →
      barrier_step (mkSys w th k) (Some (Polled h r)) (mkSys w' (delete h th) k).

Definition barrier_steps : barrier_sys → list barrier_event → barrier_sys → Prop :=
  ltrace barrier_step.

Definition barrier_init : barrier_sys := mkSys CheckpointBarrierInjector_new ∅ 0.

(** The specification: one slot; a trigger replaces its content, a poll that
    answers takes it, a poll may answer nothing. [None] is an event that the slot
    does not allow. *)
Definition mailbox_event (slot : option (Z * Z)) (e : barrier_event) : option (option (Z * Z)) :=
  match e with
  | Triggered id fl => Some (Some (id, fl))
  | Polled _ None => Some slot
  | Polled _ (Some b) =>
      if decide (slot = Some (cb_checkpoint_id b, cb_flags b)) then Some None else None
  end.
Definition mailbox (tr : list barrier_event) : option (option (Z * Z)) :=
  spec_run mailbox_event None tr.

Definition event_ok (e : barrier_event) : Prop :=
  match e with
  | Triggered id fl => 0 <= id < 4294967296 ∧ 0 <= fl < 4294967296 ∧ (id ≠ 0 ∨ fl ≠ 0)
  | Polled _ _ => True
  end.

Definition is_claim (e : barrier_event) : Prop :=
  match e with Polled _ (Some _) => True | _ => False end.
Definition is_trigger (e : barrier_event) : Prop :=
  match e with Triggered _ _ => True | _ => False end.
#[global] Instance is_claim_dec e : Decision (is_claim e).
Proof. destruct e as [|? [|]]; apply _. Defined.
#[global] Instance is_trigger_dec e : Decision (is_trigger e).
Proof. destruct e; apply _. Defined.

Lemma mailbox_snoc tr e : mailbox (tr ++ [e]) = mailbox tr ≫= λ slot, mailbox_event slot e.
Proof. apply spec_run_snoc. Qed.

(** Every claim takes a trigger of its own. *)
Lemma mailbox_claims tr slot : mailbox tr = Some slot →
  (length (filter is_claim tr) + (if slot then 1 else 0) <= length (filter is_trigger tr))%nat.
Proof.
  revert slot. induction tr as [|e tr IH] using rev_ind; intros slot.
  { unfold mailbox. simpl. intros [= <-]. simpl. lia. }
  rewrite mailbox_snoc. destruct (mailbox tr) as [s|]; [|done]. simpl. specialize (IH s eq_refl).
  rewrite !filter_app, !length_app. destruct e as [id fl|h [b|]]; simpl.
  - intros [= <-]. destruct s; simpl; lia.
  - case_decide as Hs; [|done]. intros [= <-]. subst s. simpl in *. lia.
  - intros [= <-]. lia.
Qed.

(** The word holds the slot, and a handle never waits with an empty word. *)
Definition word_ok (slot : option (Z * Z)) (s : barrier_sys) : Prop :=
  bi_cmd (bs_word s) = match slot with Some (id, fl) => trigger_packed id fl | None => 0 end ∧
  (∀ id fl, slot = Some (id, fl) → event_ok (Triggered id fl)) ∧
  (∀ h packed epoch, bs_loaded s !! h = Some (packed, epoch) → packed ≠ 0).

Lemma word_step slot s e s' : word_ok slot s → barrier_step s e s' →
  (∀ e', e = Some e' → event_ok e') →
  match e with
  | None => word_ok slot s'
  | Some e => ∃ slot', mailbox_event slot e = Some slot' ∧ word_ok slot' s'
  end.
Proof.
  intros (Hw & Hs & Hl) Hstep He. destruct Hstep as [w th k id fl|w th k|w th k h Hth Hload
    |w th k h packed epoch Hth Hload|w th k h packed epoch w' r Hth Hclaim]; simpl in *.
  - eexists; split; [done|]. split; [done|]. split; [|done].
    intros ? ? [= <- <-]. by apply (He (Triggered id fl)).
  - done.
  - by exists slot.
  - split; [done|]. split; [done|]. simpl. intros h' p' e'. rewrite lookup_insert_Some.
    intros [[<- [= <- <-]]|[_ Hp]]; [|by eapply Hl].
    unfold poll_load in Hload. destruct (Z.eqb_spec (bi_cmd w) 0); [done|]. congruence.
  - assert (Hdel : ∀ h' p' e', delete h th !! h' = Some (p', e') → p' ≠ 0).
    { intros h' p' e'. rewrite lookup_delete_Some. intros [_ Hp]. by eapply Hl. }
    pose proof (Hl _ _ _ Hth) as Hp0. unfold poll_claim in Hclaim.
    destruct (Z.eqb_spec (bi_cmd w) packed) as [<-|]; simplify_eq;
      [|exists slot; split; [done|]; split; [done|]; split; [done|exact Hdel]].
    destruct slot as [[id fl]|]; [|done]. rewrite Hw in Hclaim. rewrite unpack_trigger in Hclaim.
    injection Hclaim as <- <-. destruct (Hs id fl eq_refl) as (Hid & Hfl & _).
    exists None. simpl. unfold wrap_u32. rewrite (Z.mod_small id), (Z.mod_small fl) by done.
    rewrite decide_True by done. done.
Qed.

Lemma word_steps tr s : barrier_steps barrier_init tr s → Forall event_ok tr →
  ∃ slot, mailbox tr = Some slot ∧ word_ok slot s.
Proof.
  intros Hst. remember barrier_init as s0 eqn:Hs0. revert Hs0.
  induction Hst as [s|s s' s'' tr Hst IH Hstep|s s' s'' tr e Hst IH Hstep]; intros -> Hall.
  - exists None. split; [done|]. split; [done|]. split; [done|].
    intros h p e. unfold barrier_init. simpl. by rewrite lookup_empty.
  - destruct (IH eq_refl Hall) as (slot & Hm & Hok). exists slot. split; [done|].
    exact (word_step slot s' None s'' Hok Hstep ltac:(done)).
  - apply Forall_app in Hall as [Hall He]. rewrite Forall_singleton in He.
    destruct (IH eq_refl Hall) as (slot & Hm & Hok).
    destruct (word_step slot s' (Some e) s'' Hok Hstep) as (slot' & Hm' & Hok'); [by intros ? [= <-]|].
    exists slot'. rewrite mailbox_snoc, Hm. done.
Qed.

Lemma uncounted_steps tr s : barrier_steps barrier_init tr s →
  wrap_u64 (bi_epoch (bs_word s) + Z.of_nat (bs_uncounted s)) =
  wrap_u64 (Z.of_nat (length (filter is_trigger tr))).
Proof.
  intros Hst. remember barrier_init as s0 eqn:Hs0. revert Hs0.
  induction Hst as [s|s s' s'' tr Hst IH Hstep|s s' s'' tr e Hst IH Hstep]; intros ->; [done| |];
    specialize (IH eq_refl).
  - rewrite <- IH. inversion Hstep; simplify_eq; simpl; [|done].
    unfold u64_add, wrap_u64. rewrite Zplus_mod_idemp_l. f_equal. lia.
  - rewrite filter_app, length_app, Nat2Z.inj_add. unfold wrap_u64 in *.
    rewrite <- (Zplus_mod_idemp_l (Z.of_nat (length (filter is_trigger tr)))), <- IH.
    rewrite Zplus_mod_idemp_l. inversion Hstep; simplify_eq; simpl.
    + f_equal. lia.
    + f_equal. lia.
    + assert (bi_epoch w' = bi_epoch w) as ->.
      { unfold poll_claim in *. repeat case_match; by simplify_eq. }
      f_equal. lia.
Qed.

(** ** Runs of the aligner *)

Section AlignerRuns.
Context {B : Type} `{HO : !HashOrder} `{HL : !HashOrderLaws}.

Inductive aligner_op :=
  | OBarrier (source : Z) (b : CheckpointBarrier)
  | OEvent (source : Z) (e : Event B)
  | OComplete.

(** What happened to the events: passed on directly, handed out with an alignment,
    discarded by [complete_checkpoint]. *)
Record aligner_log := mkLog {
  al_passed : list (Z * Event B);
  al_batches : list (CheckpointBarrier * list (Event B));
  al_dropped : list (Event B) }.

Definition buffered (a : BarrierAligner B) : list (Event B) :=
  mjoin (hash_values (ba_buffered_events a)).

Definition aligner_step (st : BarrierAligner B * aligner_log) (o : aligner_op)
  : option (BarrierAligner B * aligner_log) :=
  let '(a, log) := st in
  match o with
  | OBarrier s b =>
      match BarrierAligner_on_barrier s b a with
      | None => None
      | Some (a, Pending) => Some (a, log)
      | Some (a, Aligned b es) =>
          Some (a, mkLog (al_passed log) (al_batches log ++ [(b, es)]) (al_dropped log))
      end
  | OEvent s e =>
      let '(a, was_buffered) := BarrierAligner_buffer_if_aligned s e a in
      Some (a, if was_buffered : bool then log
               else mkLog (al_passed log ++ [(s, e)]) (al_batches log) (al_dropped log))
  | OComplete =>
      Some (BarrierAligner_complete_checkpoint a,
            mkLog (al_passed log) (al_batches log) (al_dropped log ++ buffered a))
  end.

Definition aligner_run (expected : nat) (ops : list aligner_op)
  : option (BarrierAligner B * aligner_log) :=
  foldl (λ st o, st ≫= λ st, aligner_step st o) (Some (BarrierAligner_new expected, mkLog [] [] [])) ops.

Definition events_in (ops : list aligner_op) : list (Event B) :=
  omap (λ o, match o with OEvent _ e => Some e | _ => None end) ops.

(** The events passed on, handed out and still buffered, and those discarded. *)
Definition all_events (a : BarrierAligner B) (log : aligner_log) : list (Event B) :=
  (al_passed log).*2 ++ mjoin (al_batches log).*2 ++ al_dropped log ++ buffered a.

Lemma hash_values_perm {A} (m : gmap Z A) : hash_values m ≡ₚ (map_to_list m).*2.
Proof. unfold hash_values. by rewrite hash_iter_perm. Qed.

Lemma mjoin_perm {A} (l l' : list (list A)) : l ≡ₚ l' → mjoin l ≡ₚ mjoin l'.
Proof. intros Hp. by rewrite Hp. Qed.

Lemma hash_values_empty {A} : hash_values (∅ : gmap Z A) = [].
Proof. apply Permutation_nil_r. by rewrite hash_values_perm, map_to_list_empty. Qed.

Lemma buffered_delete (m : gmap Z (list (Event B))) s :
  mjoin (hash_values m) ≡ₚ default [] (m !! s) ++ mjoin (map_to_list (delete s m)).*2.
Proof.
  rewrite hash_values_perm. destruct (m !! s) as [l|] eqn:E; simpl.
  - by rewrite <- (map_to_list_delete m s l E).
  - by rewrite delete_id.
Qed.

Lemma buffered_insert (m : gmap Z (list (Event B))) s e :
  mjoin (hash_values (<[s := default [] (m !! s) ++ [e]]> m)) ≡ₚ mjoin (hash_values m) ++ [e].
Proof.
  rewrite (buffered_delete _ s), (buffered_delete m s), lookup_insert_eq, delete_insert_eq. simpl.
  rewrite <- !app_assoc. f_equiv. apply Permutation_app_comm.
Qed.

Lemma sort_events_perm (l : list (Event B)) : sort_events l ≡ₚ l.
Proof. apply merge_sort_Permutation. Qed.

Lemma sort_events_sorted (l : list (Event B)) : StronglySorted event_le (sort_events l).
Proof.
  apply Sorted_StronglySorted; [intros ???; unfold event_le; lia|].
  apply Sorted_merge_sort. intros ? ?. unfold event_le. lia.
Qed.

Lemma last_values_insert {A} (m : gmap Z A) k x : is_Some (last (hash_values (<[k:=x]> m))).
Proof.
  apply last_is_Some. intros Hnil.
  assert (Hin : x ∈ hash_values (<[k:=x]> m)) by (apply elem_of_hash_values; exists k; apply lookup_insert_eq).
  rewrite Hnil in Hin. by apply elem_of_nil in Hin.
Qed.

(** One call: where the event goes, and that no panic happens. *)
Lemma aligner_step_events a log o : ∃ a' log', aligner_step (a, log) o = Some (a', log') ∧
  all_events a' log' ≡ₚ all_events a log ++ events_in [o] ∧
  (Forall (λ p, StronglySorted event_le p.2) (al_batches log) →
   Forall (λ p, StronglySorted event_le p.2) (al_batches log')).
Proof.
  unfold all_events. destruct o as [s b|s e|]; simpl.
  - unfold BarrierAligner_on_barrier. case_decide; [|by eexists _, _; rewrite app_nil_r].
    destruct (last_values_insert (ba_barriers_received a) s b) as [c ->].
    eexists _, _. split; [done|]. simpl. rewrite fmap_app, join_app. simpl. split.
    + unfold buffered at 1. simpl. rewrite hash_values_empty. simpl.
      rewrite !app_nil_r, sort_events_perm. fold (buffered a). rewrite <- !app_assoc. f_equiv. f_equiv.
      apply Permutation_app_comm.
    + intros Hs. apply Forall_app. split; [done|]. apply Forall_singleton. apply sort_events_sorted.
  - unfold BarrierAligner_buffer_if_aligned. destruct (ba_barriers_received a !! s).
    + eexists _, _. split; [done|]. split; [|done]. unfold buffered at 1. simpl.
      rewrite buffered_insert. fold (buffered a). by rewrite <- !app_assoc.
    + eexists _, _. split; [done|]. split; [|done]. simpl. rewrite fmap_app, <- !app_assoc. simpl. f_equiv.
      rewrite Permutation_cons_append. by rewrite <- ?app_assoc.
  - eexists _, _. split; [done|]. split; [|done]. simpl. unfold buffered at 2. simpl.
    rewrite hash_values_empty. simpl. by rewrite !app_nil_r.
Qed.

Lemma aligner_run_snoc n ops o :
  aligner_run n (ops ++ [o]) = aligner_run n ops ≫= λ st, aligner_step st o.
Proof. unfold aligner_run. by rewrite foldl_app. Qed.

Lemma aligner_run_events n ops : ∃ a log, aligner_run n ops = Some (a, log) ∧
  all_events a log ≡ₚ events_in ops ∧
  Forall (λ p, StronglySorted event_le p.2) (al_batches log).
Proof.
  induction ops as [|o ops IH] using rev_ind.
  { eexists _, _. split; [done|]. split; [|constructor]. unfold all_events, buffered. simpl.
    by rewrite hash_values_empty. }
  destruct IH as (a & log & Hr & Hp & Hs). rewrite aligner_run_snoc, Hr. cbn [mbind option_bind].
  destruct (aligner_step_events a log o) as (a' & log' & -> & Hp' & Hs'). exists a', log'.
  split; [done|]. split; [|by apply Hs']. rewrite Hp', Hp. unfold events_in. by rewrite omap_app.
Qed.

(** *** The cut *)

(** The events of a source up to its barrier; a completion starts anew. *)
Fixpoint before_barrier (s : Z) (open : bool) (ops : list aligner_op) : list (Event B) :=
  match ops with
  | [] => []
  | OBarrier s' _ :: ops => before_barrier s (if decide (s' = s) then false else open) ops
  | OEvent s' e :: ops =>
      (if decide (s' = s) then if open then [e] else [] else []) ++ before_barrier s open ops
  | OComplete :: ops => before_barrier s true ops
  end.

(** The sources whose barrier has arrived since the last completion. *)
Definition barrier_sources (ops : list aligner_op) : gset Z :=
  foldl (λ X o, match o with OBarrier s _ => X ∪ {[s]} | OEvent _ _ => X | OComplete => ∅ end) ∅ ops.

Lemma barrier_sources_snoc ops o : barrier_sources (ops ++ [o]) =
  match o with OBarrier s _ => barrier_sources ops ∪ {[s]} | OEvent _ _ => barrier_sources ops | OComplete => ∅ end.
Proof. unfold barrier_sources. by rewrite foldl_app. Qed.

Lemma before_barrier_snoc s ops o : ∀ open,
  before_barrier s open (ops ++ [o]) = before_barrier s open ops ++
    match o with
    | OEvent s' e => if decide (s' = s) then
        if foldl (λ p o, match o with OBarrier s' _ => if decide (s' = s) then false else p
                    | OEvent _ _ => p | OComplete => true end) open ops then [e] else [] else []
    | _ => []
    end.
Proof.
  induction ops as [|o' ops IH]; intros open; simpl.
  - destruct o; simpl; by rewrite ?app_nil_r.
  - destruct o'; rewrite IH; by rewrite ?app_assoc.
Qed.

Lemma open_iff s ops : 
  foldl (λ p o, match o with OBarrier s' _ => if decide (s' = s) then false else p
           | OEvent _ _ => p | OComplete => true end) true ops = bool_decide (s ∉ barrier_sources ops).
Proof.
  induction ops as [|o ops IH] using rev_ind.
  { symmetry. apply bool_decide_true. unfold barrier_sources. simpl. set_solver. }
  rewrite foldl_app, barrier_sources_snoc. simpl. rewrite IH. destruct o as [s' b|s' e|]; [|done|].
  - destruct (decide (s' = s));
      [symmetry; apply bool_decide_false; set_solver|apply bool_decide_ext; set_solver].
  - symmetry. apply bool_decide_true. set_solver.
Qed.

Definition passed_of (s : Z) (log : aligner_log) : list (Event B) :=
  (filter (λ p, p.1 = s) (al_passed log)).*2.

Lemma aligner_cut n ops a log : aligner_run n ops = Some (a, log) →
  ba_expected_inputs a = n ∧ dom (ba_barriers_received a) = barrier_sources ops ∧
  ∀ s, passed_of s log = before_barrier s true ops.
Proof.
  revert a log. induction ops as [|o ops IH] using rev_ind; intros a log.
  { intros [= <- <-]. split; [done|]. split; [|done]. simpl. by rewrite dom_empty_L. }
  rewrite aligner_run_snoc. destruct (aligner_run n ops) as [[a0 log0]|]; [|done].
  destruct (IH a0 log0 eq_refl) as (He & Hd & Hp). rewrite barrier_sources_snoc. simpl.
  destruct o as [s b|s e|]; simpl.
  - unfold BarrierAligner_on_barrier. destruct (decide _).
    + destruct (last _); [|done]. intros [= <- <-]. simpl. rewrite dom_insert_L, Hd. split; [done|].
      split; [set_solver|]. intros s'. rewrite before_barrier_snoc, app_nil_r. apply Hp.
    + intros [= <- <-]. simpl. rewrite dom_insert_L, Hd. split; [done|].
      split; [set_solver|]. intros s'. rewrite before_barrier_snoc, app_nil_r. apply Hp.
  - unfold BarrierAligner_buffer_if_aligned. destruct (ba_barriers_received a0 !! s) as [b|] eqn:Hs.
    + intros [= <- <-]. simpl. split; [done|]. split; [done|]. intros s'.
      rewrite before_barrier_snoc, open_iff, Hp. destruct (decide (s = s')); [subst s'|by rewrite app_nil_r].
      rewrite bool_decide_false; [by rewrite app_nil_r|]. rewrite <- Hd, elem_of_dom. eauto.
    + intros [= <- <-]. simpl. split; [done|]. split; [done|]. intros s'.
      rewrite before_barrier_snoc, open_iff, <- Hp. unfold passed_of. simpl.
      rewrite filter_app, fmap_app. f_equal. destruct (decide (s = s')); subst.
      * rewrite filter_cons_True by done. rewrite bool_decide_true; [done|].
        by rewrite <- Hd, not_elem_of_dom.
      * by rewrite filter_cons_False.
  - intros [= <- <-]. simpl. rewrite dom_empty_L. split; [done|]. split; [done|].
    intros s'. rewrite before_barrier_snoc, app_nil_r. apply Hp.
Qed.

Lemma aligned_iff n ops a log s b : aligner_run n ops = Some (a, log) →
  ∃ a' r, BarrierAligner_on_barrier s b a = Some (a', r) ∧
    (r = Pending ↔ (size (barrier_sources (ops ++ [OBarrier s b])) < n)%nat).
Proof.
  intros Hr. destruct (aligner_cut n ops a log Hr) as (He & Hd & _).
  rewrite barrier_sources_snoc, <- Hd. unfold BarrierAligner_on_barrier. rewrite He.
  assert (Hsize : size (<[s := b]> (ba_barriers_received a)) = size (dom (ba_barriers_received a) ∪ {[s]} : gset Z)).
  { rewrite <- size_dom, dom_insert_L. f_equal. set_solver. }
  rewrite Hsize. case_decide.
  - destruct (last_values_insert (ba_barriers_received a) s b) as [c ->].
    eexists _, _. split; [done|]. split; [done|lia].
  - eexists _, _. split; [done|]. split; [lia|done].
Qed.

(** The fate of the events that come after the barrier of their source: held, handed
    out by the barrier that completes the alignment, or lost when the checkpoint is
    completed while they are held. *)
Record cut := mkCut {
  ct_seen : gset Z;
  ct_held : list (Event B);
  ct_handed : list (list (Event B));
  ct_lost : list (Event B) }.
Definition cut_step (n : nat) (c : cut) (o : aligner_op) : cut :=
  match o with
  | OBarrier s _ =>
      let seen := ct_seen c ∪ {[s]} in
      if decide (n <= size seen)%nat then mkCut seen [] (ct_handed c ++ [ct_held c]) (ct_lost c)
      else mkCut seen (ct_held c) (ct_handed c) (ct_lost c)
  | OEvent s e =>
      if decide (s ∈ ct_seen c) then mkCut (ct_seen c) (ct_held c ++ [e]) (ct_handed c) (ct_lost c) else c
  | OComplete => mkCut ∅ [] (ct_handed c) (ct_lost c ++ ct_held c)
  end.
Definition cut_of (n : nat) (ops : list aligner_op) : cut := foldl (cut_step n) (mkCut ∅ [] [] []) ops.

Lemma aligner_run_cut n ops a log : aligner_run n ops = Some (a, log) →
  let c := cut_of n ops in
  dom (ba_barriers_received a) = ct_seen c ∧ buffered a ≡ₚ ct_held c ∧ al_dropped log ≡ₚ ct_lost c ∧
  Forall2 (λ p es, p.2 ≡ₚ es ∧ StronglySorted event_le p.2) (al_batches log) (ct_handed c).
Proof.
  revert a log. induction ops as [|o ops IH] using rev_ind; intros a log.
  { intros [= <- <-]. simpl. unfold buffered. simpl. rewrite hash_values_empty, dom_empty_L. by split_and!. }
  rewrite aligner_run_snoc. destruct (aligner_run n ops) as [[a0 log0]|] eqn:Hr; [|done].
  destruct (aligner_cut n ops a0 log0 Hr) as (He & _). destruct (IH a0 log0 eq_refl) as (Hd & Hb & Hl & Hh).
  unfold cut_of. rewrite foldl_app. cbn [foldl]. fold (cut_of n ops).
  set (c := cut_of n ops) in *. destruct o as [s b|s e|]; cbn [mbind option_bind aligner_step cut_step].
  - unfold BarrierAligner_on_barrier. rewrite He.
    assert (Hseen : dom (<[s := b]> (ba_barriers_received a0)) = ct_seen c ∪ {[s]})
      by (rewrite dom_insert_L, Hd; set_solver).
    assert (Hsize : size (<[s := b]> (ba_barriers_received a0)) = size (ct_seen c ∪ {[s]}))
      by (by rewrite <- size_dom, Hseen).
    rewrite Hsize. case_decide.
    + destruct (last_values_insert (ba_barriers_received a0) s b) as [x ->]. intros [= <- <-].
      unfold buffered at 1. cbn [ba_barriers_received ba_buffered_events al_batches al_dropped
        ct_seen ct_held ct_handed ct_lost]. rewrite hash_values_empty. split_and!; try done.
      apply Forall2_app; [done|]. constructor; [|constructor]. cbn [snd].
      split; [by rewrite sort_events_perm|apply sort_events_sorted].
    + intros [= <- <-]. by split_and!.
  - unfold BarrierAligner_buffer_if_aligned. destruct (ba_barriers_received a0 !! s) as [x|] eqn:Hs.
    + rewrite decide_True by (rewrite <- Hd; by eapply elem_of_dom_2). intros [= <- <-].
      split_and!; try done. unfold buffered. cbn [ba_buffered_events ct_held].
      by rewrite buffered_insert, <- Hb.
    + rewrite decide_False by (by rewrite <- Hd, not_elem_of_dom). intros [= <- <-]. by split_and!.
  - intros [= <- <-]. unfold buffered at 1. cbn [BarrierAligner_complete_checkpoint ba_barriers_received
      ba_buffered_events al_batches al_dropped ct_seen ct_held ct_handed ct_lost].
    rewrite hash_values_empty, dom_empty_L. split_and!; try done. by rewrite Hl, Hb.
Qed.

End AlignerRuns.

(** ** Runs of the coordinator *)

Section CoordinatorRuns.
Context `{HO : !HashOrder} `{HL : !HashOrderLaws}.

Inductive coordinator_op :=
  | CTrigger (now : Z)
  | CReport (node : Z) (state : OperatorState)
  | CFinalize.

(** The coordinator and the results it has returned so far. *)
Definition coordinator_step (st : DagCheckpointCoordinator * list DagCheckpointResult)
    (o : coordinator_op) : DagCheckpointCoordinator * list DagCheckpointResult :=
  let '(c, rs) := st in
  match o with
  | CTrigger now => ((DagCheckpointCoordinator_trigger_checkpoint now c).1, rs)
  | CReport n s => ((DagCheckpointCoordinator_on_node_snapshot_complete n s c).1, rs)
  | CFinalize =>
      let '(c, r) := DagCheckpointCoordinator_finalize_checkpoint c in
      (c, match r with inl r => rs ++ [r] | inr _ => rs end)
  end.

Definition coordinator_run (sources nodes : list Z) (cfg : DagCheckpointConfig)
    (ops : list coordinator_op) : DagCheckpointCoordinator * list DagCheckpointResult :=
  foldl coordinator_step (DagCheckpointCoordinator_new sources nodes cfg, []) ops.

Lemma trim_results_spec k l : trim_results k l = drop (length l - k) l.
Proof.
  induction l as [|r l IH]; [by rewrite drop_nil|]. cbn [trim_results]. case_decide as Hlt.
  - rewrite IH. simpl length in *. replace (S (length l) - k)%nat with (S (length l - k))%nat by lia. done.
  - replace (length (r :: l) - k)%nat with 0%nat by lia. done.
Qed.

Lemma trim_snoc k l (r : DagCheckpointResult) :
  trim_results k (drop (length l - k) l ++ [r]) = drop (length (l ++ [r]) - k) (l ++ [r]).
Proof.
  rewrite trim_results_spec, !length_app, length_drop. simpl.
  destruct (decide (length l < k)%nat) as [Hlt|Hge].
  - replace (length l - k)%nat with 0%nat by lia. rewrite Nat.sub_0_r. done.
  - rewrite <- (drop_app_le _ [r] (length l - k)) by lia. rewrite drop_drop.
    f_equal. lia.
Qed.

(** Identifiers handed out so far. *)
Definition ids_below (bound : Z) (rs : list DagCheckpointResult) : Prop :=
  Forall (λ r, 1 <= cr_checkpoint_id r < bound ∧ cr_epoch r = cr_checkpoint_id r) rs.

Record coordinator_inv (nodes : list Z) (k : nat) (c : DagCheckpointCoordinator)
    (rs : list DagCheckpointResult) : Prop := {
  ci_nodes : co_all_nodes c = nodes;
  ci_retained : co_max_retained c = k;
  ci_epoch : co_next_epoch c = co_next_checkpoint_id c;
  ci_next : 1 <= co_next_checkpoint_id c;
  ci_results : co_completed_results c = drop (length rs - k) rs;
  ci_sorted : StronglySorted (λ a b, cr_checkpoint_id a < cr_checkpoint_id b) rs;
  ci_progress p : co_in_progress c = Some p →
    cp_epoch p = cp_checkpoint_id p ∧ 1 <= cp_checkpoint_id p < co_next_checkpoint_id c ∧
    ids_below (cp_checkpoint_id p) rs ∧
    cp_pending_nodes p = filter (λ n, cp_completed_nodes p !! n = None) nodes;
  ci_below : ids_below (co_next_checkpoint_id c) rs }.

Lemma ids_below_mono a b rs : a <= b → ids_below a rs → ids_below b rs.
Proof. intros Hab Hrs. eapply Forall_impl; [exact Hrs|]. simpl. lia. Qed.

Lemma StronglySorted_snoc {A} (R : relation A) l x :
  StronglySorted R l → Forall (λ y, R y x) l → StronglySorted R (l ++ [x]).
Proof.
  induction 1 as [|y l Hl IH Hy]; intros Hx; simpl; [by repeat constructor|].
  apply Forall_cons in Hx as [Hyx Hx]. constructor; [by apply IH|].
  apply Forall_app. split; [done|by apply Forall_singleton].
Qed.

Definition trigger_fits (c : DagCheckpointCoordinator) : Prop := co_next_checkpoint_id c < 18446744073709551615.

Lemma coordinator_inv_step nodes k c rs o : coordinator_inv nodes k c rs → trigger_fits c →
  coordinator_inv nodes k (coordinator_step (c, rs) o).1 (coordinator_step (c, rs) o).2.
Proof.
  intros Hinv Hfit. pose proof Hinv as [I1 I2 I3 I4 I5 I6 I7 I8]. unfold trigger_fits in Hfit. destruct o as [now|n s|]; simpl.
  - unfold DagCheckpointCoordinator_trigger_checkpoint. destruct (co_in_progress c) as [p|] eqn:Hp; [exact Hinv|].
    assert (Hadd : u64_add (co_next_checkpoint_id c) 1 = co_next_checkpoint_id c + 1)
      by (apply wrap_u64_small; unfold is_u64; lia).
    simpl. rewrite I3, Hadd. split; simpl; rewrite ?I3, ?Hadd; try done; try lia.
    + intros p [= <-]. simpl. split; [done|]. split; [lia|]. split; [done|].
      rewrite filter_all; [done|]. apply Forall_forall. intros n _. apply lookup_empty.
    + eapply ids_below_mono; [|done]. lia.
  - unfold DagCheckpointCoordinator_on_node_snapshot_complete. destruct (co_in_progress c) as [p|] eqn:Hp; [|exact Hinv].
    destruct (I7 p eq_refl) as (E1 & E2 & E3 & E4). simpl. split; try done. simpl.
    intros p' [= <-]. simpl. split; [done|]. split; [done|]. split; [done|]. rewrite E4, list_filter_filter.
    apply filter_ext_in. intros m _. destruct (decide (m = n)) as [->|Hne].
    + rewrite lookup_insert_eq. naive_solver.
    + rewrite lookup_insert_ne by done. naive_solver.
  - unfold DagCheckpointCoordinator_finalize_checkpoint. destruct (co_in_progress c) as [p|] eqn:Hp; [|exact Hinv].
    destruct (I7 p eq_refl) as (E1 & E2 & E3 & E4).
    destruct (cp_pending_nodes p) as [|m pending] eqn:Hpend; [|exact Hinv]. simpl. split; simpl; try done.
    + by rewrite I2, I5, trim_snoc.
    + apply StronglySorted_snoc; [done|]. eapply Forall_impl; [exact E3|]. simpl. lia.
    + apply Forall_app. split; [done|]. apply Forall_singleton. simpl. split; [lia|done].
Qed.


Definition is_ctrigger (o : coordinator_op) : bool := match o with CTrigger _ => true | _ => false end.

Lemma coordinator_run_inv sources nodes cfg ops :
  Z.of_nat (length (filter is_ctrigger ops)) < u64_MOD - 2 →
  let st := coordinator_run sources nodes cfg ops in
  coordinator_inv nodes (dc_max_retained cfg) st.1 st.2 ∧
  co_next_checkpoint_id st.1 <= 1 + Z.of_nat (length (filter is_ctrigger ops)).
Proof.
  induction ops as [|o ops IH] using rev_ind; intros Hlen.
  { split; [|simpl; lia]. split; try done; simpl; [constructor|constructor]. }
  rewrite filter_app, length_app in Hlen. destruct IH as [Hinv Hnext]; [lia|].
  unfold coordinator_run in *. rewrite foldl_app. simpl foldl.
  set (st := foldl coordinator_step _ ops) in *. destruct st as [c rs]. simpl in Hinv, Hnext. split.
  - apply coordinator_inv_step; [done|]. unfold trigger_fits. lia.
  - rewrite filter_app, length_app. destruct o; simpl.
    + unfold DagCheckpointCoordinator_trigger_checkpoint. destruct (co_in_progress c); simpl; [lia|].
      unfold u64_add. rewrite (wrap_u64_small (co_next_checkpoint_id c + 1)); [lia|].
      pose proof (ci_next _ _ _ _ Hinv). unfold is_u64. lia.
    + unfold DagCheckpointCoordinator_on_node_snapshot_complete. destruct (co_in_progress c); simpl; lia.
    + unfold DagCheckpointCoordinator_finalize_checkpoint. destruct (co_in_progress c) as [p|]; [|simpl; lia].
      destruct (cp_pending_nodes p); simpl; lia.
Qed.

End CoordinatorRuns.

(** ** From states to a result and back *)

Lemma foldl_insert_Some {K A} `{Countable K} (l : list (K * A)) : ∀ m : gmap K A, NoDup l.*1 → ∀ k v,
  foldl (λ m kv, <[kv.1 := kv.2]> m) m l !! k = Some v ↔
  (k, v) ∈ l ∨ (k ∉ l.*1 ∧ m !! k = Some v).
Proof.
  induction l as [|[k0 v0] l IH]; intros m Hnd k v; simpl.
  { split; [intros; right; split; [apply not_elem_of_nil|done]|intros [?%elem_of_nil|[_ ?]]; done]. }
  apply NoDup_cons in Hnd as [Hk0 Hnd]. rewrite IH by done. rewrite lookup_insert_Some, !elem_of_cons.
  destruct (decide (k = k0)) as [->|Hne].
  - split.
    + intros [Hin|[_ [[_ <-]|[Hc _]]]]; [|by left; left|done].
      destruct Hk0. apply list_elem_of_fmap. by exists (k0, v).
    + intros [[Heq|Hin]|[Hc _]]; [|by left|tauto]. injection Heq as ->. right. split; [done|by left].
  - split.
    + intros [Hin|[Hni [[? _]|[_ Hm]]]]; [by left; right|congruence|]. right. split; [tauto|done].
    + intros [[Heq|Hin]|[Hni Hm]]; [congruence|by left|]. right. split; [tauto|right; split; [congruence|done]].
Qed.

Lemma foldl_omap_insert {X K A} `{Countable K} (h : X → option (K * A)) (l : list X) : ∀ m : gmap K A,
  foldl (λ m x, match h x with Some (k, v) => <[k := v]> m | None => m end) m l =
  foldl (λ m kv, <[kv.1 := kv.2]> m) m (omap h l).
Proof.
  induction l as [|x l IH]; intros m; [done|]. simpl. rewrite IH. by destruct (h x) as [[k v]|].
Qed.

Section RoundTrip.
Context `{HO : !HashOrder} `{HL : !HashOrderLaws}.
Context (siter : gmap string OperatorStateEntry → list (string * OperatorStateEntry)).
Context (siter_perm : ∀ m, siter m ≡ₚ map_to_list m).

(** No two nodes report the same operator id. *)
Definition distinct_ids (states : gmap Z OperatorState) : Prop :=
  ∀ n n' s s', states !! n = Some s → states !! n' = Some s' →
    os_operator_id s = os_operator_id s' → n = n'.

Lemma NoDup_operator_ids states : distinct_ids states →
  NoDup (os_operator_id <$> hash_values states).
Proof.
  intros Hd. unfold hash_values. rewrite hash_iter_perm, <- list_fmap_compose.
  apply NoDup_fmap_2_strong; [|apply NoDup_map_to_list].
  intros [n s] [n' s'] Hn%elem_of_map_to_list Hn'%elem_of_map_to_list Heq. simpl in *.
  assert (n = n') as <- by by eapply Hd. congruence.
Qed.

Lemma from_states_lookup id epoch ts states name entry : distinct_ids states →
  cr_operator_states (DagCheckpointResult_from_operator_states id epoch ts states) !! name = Some entry ↔
  ∃ n s, states !! n = Some s ∧ os_operator_id s = name ∧ entry = mkStateEntry (os_version s) (os_data s).
Proof.
  intros Hd. simpl. set (g := λ s, (os_operator_id s, mkStateEntry (os_version s) (os_data s))).
  assert (Hfold : ∀ l (m : gmap string OperatorStateEntry),
    foldl (λ m s, <[os_operator_id s := mkStateEntry (os_version s) (os_data s)]> m) m l =
    foldl (λ m kv, <[kv.1 := kv.2]> m) m (g <$> l)).
  { induction l as [|s l IH]; intros m; [done|]. simpl. apply IH. }
  rewrite Hfold, foldl_insert_Some, lookup_empty.
  2:{ rewrite <- list_fmap_compose. by apply NoDup_operator_ids. }
  rewrite list_elem_of_fmap. setoid_rewrite elem_of_hash_values. subst g. split.
  - intros [(s & [= -> ->] & [n Hn])|[_ ?]]; [by exists n, s|done].
  - intros (n & s & Hn & <- & ->). left. exists s. eauto.
Qed.

(** Names map back to the nodes they came from. *)
Definition names_ok (name_to_node : gmap string Z) (states : gmap Z OperatorState) : Prop :=
  ∀ n s, states !! n = Some s → name_to_node !! os_operator_id s = Some n.

Lemma result_roundtrip id epoch ts states name_to_node :
  names_ok name_to_node states →
  DagCheckpointResult_to_operator_states siter name_to_node
    (DagCheckpointResult_from_operator_states id epoch ts states) = states.
Proof.
  intros Hn. assert (Hd : distinct_ids states).
  { intros n n' s s' Hs Hs' Heq. apply Hn in Hs. apply Hn in Hs'. congruence. }
  set (r := DagCheckpointResult_from_operator_states id epoch ts states).
  unfold DagCheckpointResult_to_operator_states.
  set (h := λ x : string * OperatorStateEntry,
    (λ node, (node, restored_state x.1 x.2)) <$> name_to_node !! x.1).
  assert (Hfold : ∀ l (m : gmap Z OperatorState), foldl (λ m '(name, entry),
      match name_to_node !! name with Some node_id => <[node_id := restored_state name entry]> m | None => m end) m l =
    foldl (λ m x, match h x with Some (k, v) => <[k := v]> m | None => m end) m l).
  { induction l as [|[name entry] l IH]; intros m; [done|]. simpl. rewrite <- IH. unfold h. simpl.
    by destruct (name_to_node !! name). }
  rewrite Hfold, foldl_omap_insert.
  assert (Hin : ∀ n s, (n, s) ∈ omap h (siter (cr_operator_states r)) ↔ states !! n = Some s).
  { intros n s. rewrite list_elem_of_omap. setoid_rewrite siter_perm. split.
    - intros ([name entry] & He%elem_of_map_to_list & Hh).
      apply (from_states_lookup id epoch ts states) in He as (n' & s' & Hs' & <- & ->); [|done].
      unfold h in Hh. simpl in Hh. rewrite (Hn n' s' Hs') in Hh. injection Hh as <- <-.
      rewrite Hs'. by destruct s'.
    - intros Hs. exists (os_operator_id s, mkStateEntry (os_version s) (os_data s)). split.
      + apply elem_of_map_to_list. apply from_states_lookup; eauto.
      + unfold h. simpl. rewrite (Hn n s Hs). by destruct s. }
  apply map_eq. intros n. apply option_eq. intros s. rewrite foldl_insert_Some, Hin, lookup_empty.
  - split; [intros [?|[_ ?]]; done|by left].
  - rewrite siter_perm. apply NoDup_fmap_2_strong.
    + intros [n1 s1] [n2 s2] H1 H2 Heq. simpl in Heq. subst n2. rewrite <- siter_perm in H1, H2.
      apply Hin in H1. apply Hin in H2. congruence.
    + assert (Hinj : ∀ x y z, h x = Some z → h y = Some z → x = y).
      { intros [x1 [x2 x3]] [y1 [y2 y3]] z. unfold h, restored_state. simpl.
        destruct (name_to_node !! x1), (name_to_node !! y1); intros; by simplify_eq/=. }
      pose proof (NoDup_map_to_list (cr_operator_states r)) as Hnd. revert Hnd.
      generalize (map_to_list (cr_operator_states r)). intros l Hnd.
      induction Hnd as [|x l Hx Hnd IH]; [constructor|]. simpl. destruct (h x) as [z|] eqn:Hz; [|done].
      constructor; [|done]. rewrite list_elem_of_omap. intros (y & Hy & Hyz). apply Hx.
      by rewrite (Hinj x y z).
Qed.

End RoundTrip.

(** ** Properties *)

(** [C14]: The command word is a one-place mailbox under every interleaving of
    triggers and of the loads and compare-exchanges of any number of handles: a
    poll only ever answers with the barrier that was triggered last and takes it,
    so no barrier is delivered twice and every delivery has a trigger of its own;
    the epoch counter counts the triggers. *)
Theorem barrier_word_is_mailbox tr s :
  barrier_steps barrier_init tr s → Forall event_ok tr →
  (∃ slot, mailbox tr = Some slot) ∧
  (length (filter is_claim tr) <= length (filter is_trigger tr))%nat ∧
  wrap_u64 (bi_epoch (bs_word s) + Z.of_nat (bs_uncounted s)) =
  wrap_u64 (Z.of_nat (length (filter is_trigger tr))).
Proof.
  intros Hst Hall. destruct (word_steps tr s Hst Hall) as (slot & Hm & _).
  split; [by exists slot|]. split; [|by apply uncounted_steps].
  pose proof (mailbox_claims tr slot Hm). destruct slot; lia.
Qed.

Definition race_trace : list barrier_event :=
  [Triggered 7 1; Polled 2 (Some (mkBarrier 7 5 1)); Polled 1 None].

(** Two handles load the same command; one claims it, the other gets nothing. *)
Definition race_loaded : gmap Z (Z * Z) :=
  <[2 := (trigger_packed 7 1, 5)]> (<[1 := (trigger_packed 7 1, 4)]> ∅).
Lemma race_steps : barrier_steps barrier_init race_trace
  (mkSys (mkInjector 0 1) (delete 1 (delete 2 race_loaded)) 0).
Proof.
  set (w1 := mkInjector (trigger_packed 7 1) 0). set (w2 := mkInjector (trigger_packed 7 1) 1).
  apply (steps_event _ _ (mkSys (mkInjector 0 1) (delete 2 race_loaded) 0) _ [Triggered 7 1; Polled 2 (Some (mkBarrier 7 5 1))]).
  - apply (steps_event _ _ (mkSys w2 race_loaded 0) _ [Triggered 7 1]); [|by apply (step_claim w2 _ _ 2 (trigger_packed 7 1) 5)].
    apply (steps_tau _ _ (mkSys w2 (<[1 := (trigger_packed 7 1, 4)]> ∅) 0)); [|by apply step_load].
    apply (steps_tau _ _ (mkSys w2 ∅ 0)); [|by apply step_load].
    apply (steps_tau _ _ (mkSys w1 ∅ 1)); [|apply (step_count w1)].
    apply (steps_event _ _ barrier_init _ []); [apply steps_refl|apply step_store].
  - apply (step_claim _ _ _ 1 (trigger_packed 7 1) 4); reflexivity.
Qed.

Lemma barrier_word_is_mailbox_witness :
  (length (filter is_claim race_trace) <= length (filter is_trigger race_trace))%nat ∧
  length (filter is_claim race_trace) = 1%nat.
Proof.
  split; [|reflexivity].
  refine (proj1 (proj2 (barrier_word_is_mailbox race_trace _ race_steps _))).
  repeat apply Forall_cons_2; try apply Forall_nil_2; simpl; try exact I. lia.
Defined.

(** Width of the command word: a poll right after a trigger returns the
    checkpoint id and the flags modulo 2^32, unless both are 0 modulo 2^32, in
    which case the trigger is lost; so ids and flags below 2^32 that are not both
    0 arrive unchanged. *)
Theorem barrier_command_bounds id fl epoch s :
  0 <= id → 0 <= fl →
  let s' := CheckpointBarrierInjector_trigger id fl s in
  (wrap_u32 id = 0 ∧ wrap_u32 fl = 0 → BarrierPollHandle_poll epoch s' = (s', None)) ∧
  (¬ (wrap_u32 id = 0 ∧ wrap_u32 fl = 0) → BarrierPollHandle_poll epoch s' =
     (mkInjector 0 (bi_epoch s'), Some (mkBarrier (wrap_u32 id) epoch (wrap_u32 fl)))) ∧
  (id < 4294967296 → fl < 4294967296 → wrap_u32 id = id ∧ wrap_u32 fl = fl).
Proof.
  intros Hid Hfl s'. pose proof (wrap_u32_range id). pose proof (wrap_u32_range fl).
  pose proof (trigger_packed_add id fl) as Hp. unfold BarrierPollHandle_poll, poll_load, poll_claim.
  assert (Hc : bi_cmd s' = trigger_packed id fl) by done. rewrite Hc.
  split; [|split].
  - intros [H1 H2]. by rewrite Hp, H1, H2.
  - intros Hne. rewrite (proj2 (Z.eqb_neq (trigger_packed id fl) 0)) by lia.
    by rewrite Z.eqb_refl, unpack_trigger.
  - intros. split; apply Z.mod_small; lia.
Qed.

Lemma barrier_command_bounds_witness :
  let s := CheckpointBarrierInjector_trigger 4294967296 0 CheckpointBarrierInjector_new in
  BarrierPollHandle_poll 1 s = (s, None).
Proof.
  refine (proj1 (barrier_command_bounds 4294967296 0 1 CheckpointBarrierInjector_new _ _) _); [lia|lia|].
  split; reflexivity.
Defined.

(** [C15]: The aligner takes a consistent cut. Over any sequence of calls it never
    panics; the events of a source that pass directly are exactly those that came
    before its barrier, in order; the later ones are buffered, and the barrier that
    brings the number of different sources to [expected_inputs] (every further barrier
    too) completes the alignment and hands out all that is buffered by then, sorted by
    timestamp. [complete_checkpoint] clears the buffer, and so discards exactly the
    events of aligned sources that came after the last alignment (or all of them, when
    it is called before one): an event is passed on, handed out or still buffered,
    unless it was discarded this way. *)
Theorem aligner_consistent_cut {B} `{HO : !HashOrder} `{HL : !HashOrderLaws} n (ops : list (aligner_op (B:=B))) :
  let c := cut_of n ops in
  ∃ a log, aligner_run n ops = Some (a, log) ∧
    (∀ s, passed_of s log = before_barrier s true ops) ∧
    Forall2 (λ p es, p.2 ≡ₚ es ∧ StronglySorted event_le p.2) (al_batches log) (ct_handed c) ∧
    buffered a ≡ₚ ct_held c ∧ al_dropped log ≡ₚ ct_lost c ∧
    all_events a log ≡ₚ events_in ops ∧
    (∀ s b, ∃ a' r, BarrierAligner_on_barrier s b a = Some (a', r) ∧
       (r = Pending ↔ (size (barrier_sources (ops ++ [OBarrier s b])) < n)%nat)).
Proof.
  intros c. destruct (aligner_run_events n ops) as (a & log & Hr & Hp & Hs). exists a, log.
  destruct (aligner_run_cut n ops a log Hr) as (_ & Hb & Hl & Hh). fold c in Hb, Hl, Hh.
  split; [done|]. split; [by apply (aligner_cut n ops a log Hr)|]. split_and!; [done..|].
  intros s b. by apply (aligned_iff n ops a log).
Qed.

(** Two inputs are aligned; the event of time 7 arrives before the checkpoint is
    completed and is never seen again. *)
Example completed_checkpoint_discards_event :
  ct_lost (cut_of 2 [OBarrier 0 (mkBarrier 1 1 0); OBarrier 1 (mkBarrier 1 1 0);
                     OEvent 0 (mkEvent 7 4); OComplete]) = [mkEvent 7 4].
Proof. vm_compute. reflexivity. Qed.

Definition cut_ops : list (aligner_op (B:=Z)) :=
  [OEvent 0 (mkEvent 5 1); OBarrier 0 (mkBarrier 1 1 0); OEvent 0 (mkEvent 9 2);
   OEvent 1 (mkEvent 6 3)].

Lemma aligner_consistent_cut_witness :
  ∃ a log, aligner_run 2 cut_ops = Some (a, log) ∧ passed_of 0 log = [mkEvent 5 1] ∧
    passed_of 1 log = [mkEvent 6 3] ∧ all_events a log ≡ₚ events_in cut_ops.
Proof.
  destruct (aligner_consistent_cut 2 cut_ops) as (a & log & Hr & Hs & _ & _ & _ & Hp & _).
  exists a, log. split; [exact Hr|]. split; [rewrite Hs; reflexivity|].
  split; [rewrite Hs; reflexivity|exact Hp].
Defined.

(** The coordinator, over every sequence of fewer than 2^64 - 2 triggers with
    reports and finalizations in any order: [finalize_checkpoint] succeeds exactly
    when a checkpoint is in progress and every node has reported, and otherwise
    says how many are missing; the ids of the results it returns strictly
    increase, with equal epochs; it retains the last [max_retained] of them, in
    order. *)
Theorem coordinator_completes_checkpoints `{HO : !HashOrder} `{HL : !HashOrderLaws}
    sources nodes cfg ops :
  Z.of_nat (length (filter is_ctrigger ops)) < u64_MOD - 2 →
  let '(c, rs) := coordinator_run sources nodes cfg ops in
  StronglySorted (λ a b, cr_checkpoint_id a < cr_checkpoint_id b) rs ∧
  Forall (λ r, cr_epoch r = cr_checkpoint_id r) rs ∧
  co_completed_results c = drop (length rs - dc_max_retained cfg) rs ∧
  match co_in_progress c, (DagCheckpointCoordinator_finalize_checkpoint c).2 with
  | None, r => r = inr NoCheckpointInProgress
  | Some p, inl r =>
      (∀ n, n ∈ nodes → is_Some (cp_completed_nodes p !! n)) ∧
      r = DagCheckpointResult_from_operator_states (cp_checkpoint_id p) (cp_epoch p)
            (cp_triggered_at p) (cp_completed_nodes p)
  | Some p, inr e =>
      e = CheckpointIncomplete (length (filter (λ n, cp_completed_nodes p !! n = None) nodes)) ∧
      ∃ n, n ∈ nodes ∧ cp_completed_nodes p !! n = None
  end.
Proof.
  intros Hlen. destruct (coordinator_run_inv sources nodes cfg ops Hlen) as [Hinv _].
  destruct (coordinator_run sources nodes cfg ops) as [c rs]. cbn [fst snd] in Hinv. destruct Hinv as [I1 I2 I3 I4 I5 I6 I7 I8].
  split; [done|]. split; [eapply Forall_impl; [exact I8|]; by intros r [_ ?]|]. split; [done|].
  unfold DagCheckpointCoordinator_finalize_checkpoint. destruct (co_in_progress c) as [p|]; [|done].
  destruct (I7 p eq_refl) as (_ & _ & _ & E4). destruct (cp_pending_nodes p) as [|m pending] eqn:Hp; simpl.
  - split; [|done]. intros n Hn. destruct (cp_completed_nodes p !! n) eqn:E; [done|].
    assert (Hin : n ∈ filter (λ n, cp_completed_nodes p !! n = None) nodes) by by apply list_elem_of_filter.
    rewrite <- E4 in Hin. by apply elem_of_nil in Hin.
  - rewrite <- E4. split; [done|]. exists m.
    assert (Hin : m ∈ filter (λ n, cp_completed_nodes p !! n = None) nodes) by (rewrite <- E4; left).
    apply list_elem_of_filter in Hin. tauto.
Qed.

Definition checkpoint_ops : list coordinator_op :=
  [CTrigger 100; CReport 0 (mkOperatorState "a" 1 [1]); CReport 1 (mkOperatorState "b" 1 [2]);
   CFinalize; CTrigger 200; CReport 0 (mkOperatorState "a" 1 [3])].

Lemma coordinator_completes_checkpoints_witness :
  let '(c, rs) := coordinator_run [0] [0; 1] DagCheckpointConfig_default checkpoint_ops in
  length rs = 1%nat ∧ StronglySorted (λ a b, cr_checkpoint_id a < cr_checkpoint_id b) rs ∧
  (DagCheckpointCoordinator_finalize_checkpoint c).2 = inr (CheckpointIncomplete 1).
Proof.
  pose proof (coordinator_completes_checkpoints [0] [0; 1] DagCheckpointConfig_default checkpoint_ops) as H.
  destruct (coordinator_run [0] [0; 1] DagCheckpointConfig_default checkpoint_ops) as [c rs] eqn:E.
  split; [by vm_compute in E; injection E as <- <-|].
  split; [apply H; vm_compute; reflexivity|]. vm_compute in E. by injection E as <- <-.
Defined.

(** What a checkpoint stores comes back: when every operator id is mapped to
    the node that reported it, converting the collected states into a result and
    back gives the same states for the same nodes, whatever the order in which the
    maps iterate. *)
Theorem checkpoint_result_roundtrip `{HO : !HashOrder} `{HL : !HashOrderLaws} siter
    id epoch ts (states : gmap Z OperatorState) name_to_node :
  (∀ m, siter m ≡ₚ map_to_list m) → names_ok name_to_node states →
  DagCheckpointResult_to_operator_states siter name_to_node
    (DagCheckpointResult_from_operator_states id epoch ts states) = states.
Proof. intros Hs. by apply result_roundtrip. Qed.

Lemma checkpoint_result_roundtrip_witness :
  DagCheckpointResult_to_operator_states map_to_list
    (<["win" := 4]> (<["src" := 2]> ∅))
    (DagCheckpointResult_from_operator_states 1 1 0
       (<[4 := mkOperatorState "win" 1 [9]]> (<[2 := mkOperatorState "src" 1 []]> ∅))) =
  <[4 := mkOperatorState "win" 1 [9]]> (<[2 := mkOperatorState "src" 1 []]> ∅).
Proof.
  apply (checkpoint_result_roundtrip map_to_list); [done|].
  intros n s Hs. rewrite !lookup_insert_Some, lookup_empty in Hs.
  destruct Hs as [[<- <-]|[_ [[<- <-]|[_ ?]]]]; [reflexivity|reflexivity|done].
Defined.
