(* ===== verification/DagExec.v ===== *)
(** * The dag executor

    dag/executor.rs: [DagExecutor] drives the operators of a finalized dag. An
    event enters a queue of a source; the nodes are visited in topological order,
    each draining its queue, calling its operator and routing the outputs through
    the routing table; watermarks go through the watermark tracker and fire
    timers.

    The operators are values of one type with the class [Operator], the methods of
    the trait. A node's context is built on the default runtime: the in-memory
    store and the bounded generator with bound 0. [None] is a panic (an index out
    of range); the theorems exclude it. The clock reading added to
    [total_time_ns] and the scratch buffer [temp_events] are left out. *)

From S2P Require Import Prelude TimeCore WatermarkGen StateStore WindowCore WindowAgg TumblingOp.
From S2P Require Import DagTopology DagWatermark Barriers.

Abbreviation Ctx := (OperatorContext InMemoryStore BoundedOutOfOrdernessGenerator) (only parsing).

(** The trait [Operator] of operator/mod.rs. *)
Class Operator (Op B : Type) := {
  op_process : Op → Event B → Ctx → Op * Ctx * list (Output B);
  op_on_timer : Op → Timer → Ctx → Op * Ctx * list (Output B);
  op_checkpoint : Op → Op * OperatorState;
  op_restore : Op → OperatorState → Op * (unit + OperatorError) }.

Record NodeRuntime := mkRuntime {
  nr_timer_service : TimerService;
  nr_state_store : InMemoryStore;
  nr_watermark_generator : BoundedOutOfOrdernessGenerator }.

Definition NodeRuntime_default : NodeRuntime :=
  mkRuntime TimerService_new InMemoryStore_new (Bounded_new 0).

Record DagExecutorMetrics := mkExMetrics {
  em_events_processed : Z;
  em_events_routed : Z;
  em_multicast_publishes : Z;
  em_backpressure_stalls : Z;
  em_nodes_skipped : Z;
  em_watermarks_processed : Z }.
Definition DagExecutorMetrics_default : DagExecutorMetrics := mkExMetrics 0 0 0 0 0 0.

Record OperatorNodeMetrics := mkNodeMetrics {
  nm_events_in : Z;
  nm_events_out : Z;
  nm_invocations : Z }.
Definition OperatorNodeMetrics_default : OperatorNodeMetrics := mkNodeMetrics 0 0 0.

(** [v[i] = f(v[i])], which panics out of range. *)
Definition vec_alter {A} (f : A → A) (i : nat) (l : list A) : option (list A) :=
  if decide (i < length l)%nat then Some (alter f i l) else None.

Section Executor.
Context {Op B : Type} `{!Operator Op B}.

Record DagExecutor := mkExecutor {
  ex_operators : list (option Op);
  ex_runtimes : list (option NodeRuntime);
  ex_input_queues : list (list (Event B));
  ex_sink_outputs : list (list (Event B));
  ex_routing : RoutingTable;
  ex_execution_order : list Z;
  ex_source_nodes : list Z;
  ex_sink_nodes : list Z;
  ex_node_types : list DagNodeType;
  ex_slot_count : nat;
  ex_input_counts : list nat;
  ex_metrics : DagExecutorMetrics;
  ex_watermark_tracker : DagWatermarkTracker;
  ex_node_metrics : list OperatorNodeMetrics }.

Definition ex_set_nodes (ops : list (option Op)) (rts : list (option NodeRuntime)) (x : DagExecutor)
  : DagExecutor :=
  mkExecutor ops rts (ex_input_queues x) (ex_sink_outputs x) (ex_routing x) (ex_execution_order x)
    (ex_source_nodes x) (ex_sink_nodes x) (ex_node_types x) (ex_slot_count x) (ex_input_counts x)
    (ex_metrics x) (ex_watermark_tracker x) (ex_node_metrics x).
Definition ex_set_queues (qs : list (list (Event B))) (x : DagExecutor) : DagExecutor :=
  mkExecutor (ex_operators x) (ex_runtimes x) qs (ex_sink_outputs x) (ex_routing x)
    (ex_execution_order x) (ex_source_nodes x) (ex_sink_nodes x) (ex_node_types x)
    (ex_slot_count x) (ex_input_counts x) (ex_metrics x) (ex_watermark_tracker x) (ex_node_metrics x).
Definition ex_set_sinks (ss : list (list (Event B))) (x : DagExecutor) : DagExecutor :=
  mkExecutor (ex_operators x) (ex_runtimes x) (ex_input_queues x) ss (ex_routing x)
    (ex_execution_order x) (ex_source_nodes x) (ex_sink_nodes x) (ex_node_types x)
    (ex_slot_count x) (ex_input_counts x) (ex_metrics x) (ex_watermark_tracker x) (ex_node_metrics x).
Definition ex_set_metrics (m : DagExecutorMetrics) (nm : list OperatorNodeMetrics) (x : DagExecutor)
  : DagExecutor :=
  mkExecutor (ex_operators x) (ex_runtimes x) (ex_input_queues x) (ex_sink_outputs x)
    (ex_routing x) (ex_execution_order x) (ex_source_nodes x) (ex_sink_nodes x) (ex_node_types x)
    (ex_slot_count x) (ex_input_counts x) m (ex_watermark_tracker x) nm.
Definition ex_set_tracker (t : DagWatermarkTracker) (x : DagExecutor) : DagExecutor :=
  mkExecutor (ex_operators x) (ex_runtimes x) (ex_input_queues x) (ex_sink_outputs x)
    (ex_routing x) (ex_execution_order x) (ex_source_nodes x) (ex_sink_nodes x) (ex_node_types x)
    (ex_slot_count x) (ex_input_counts x) (ex_metrics x) t (ex_node_metrics x).

(** ** Construction *)

Section FromDag.
Context {DataType : Type} `{HO : !HashOrder}.

Definition place_node (d : StreamingDag (DataType:=DataType)) (slots : nat)
    (acc : list DagNodeType * list nat) (node : DagNode (DataType:=DataType))
  : list DagNodeType * list nat :=
  let idx := Z.to_nat (dn_id node) in
  if decide (idx < slots)%nat
  then (<[idx := dn_node_type node]> acc.1, <[idx := incoming_edge_count d (dn_id node)]> acc.2)
  else acc.

Definition DagExecutor_from_dag (d : StreamingDag (DataType:=DataType)) : DagExecutor :=
  let slots := slot_count d in
  let placed := foldl (place_node d slots)
    (replicate slots NStatelessOperator, replicate slots 0%nat) (hash_values (sd_nodes d)) in
  mkExecutor (replicate slots None) (replicate slots (Some NodeRuntime_default))
    (replicate slots []) (replicate slots []) (RoutingTable_from_dag d) (sd_execution_order d)
    (sd_source_nodes d) (sd_sink_nodes d) placed.1 slots placed.2 DagExecutorMetrics_default
    (DagWatermarkTracker_from_dag d) (replicate slots OperatorNodeMetrics_default).

End FromDag.

Definition DagExecutor_register_operator (node : Z) (operator : Op) (x : DagExecutor) : DagExecutor :=
  let idx := Z.to_nat node in
  if decide (idx < ex_slot_count x)%nat
  then ex_set_nodes (<[idx := Some operator]> (ex_operators x)) (ex_runtimes x) x else x.

(** ** Routing *)

Definition count_routed (multicast : bool) (m : DagExecutorMetrics) : DagExecutorMetrics :=
  mkExMetrics (em_events_processed m) (u64_add (em_events_routed m) 1)
    (if multicast then u64_add (em_multicast_publishes m) 1 else em_multicast_publishes m)
    (em_backpressure_stalls m) (em_nodes_skipped m) (em_watermarks_processed m).

(** Clones to all targets, in order; the last one gets the event itself. *)
Fixpoint enqueue_all (targets : list Z) (event : Event B) (qs : list (list (Event B)))
  : option (list (list (Event B))) :=
  match targets with
  | [] => Some qs
  | t :: targets =>
      match vec_alter (λ q, q ++ [event]) (Z.to_nat t) qs with
      | None => None
      | Some qs => enqueue_all targets event qs
      end
  end.

Definition route_output (source : Z) (event : Event B) (x : DagExecutor) : option DagExecutor :=
  match RoutingTable_node_targets (ex_routing x) source with
  | None => None
  | Some entry =>
      if RoutingEntry_is_terminal entry then
        (λ ss, ex_set_sinks ss x) <$> vec_alter (λ q, q ++ [event]) (Z.to_nat source) (ex_sink_outputs x)
      else
        let x := ex_set_metrics (count_routed (re_is_multicast entry) (ex_metrics x))
                   (ex_node_metrics x) x in
        let targets := if re_is_multicast entry then RoutingEntry_target_ids entry
                       else take 1 (re_targets entry) in
        (λ qs, ex_set_queues qs x) <$> enqueue_all targets event (ex_input_queues x)
  end.

Definition count_out (m : OperatorNodeMetrics) : OperatorNodeMetrics :=
  mkNodeMetrics (nm_events_in m) (u64_add (nm_events_out m) 1) (nm_invocations m).

(** The generator of a node, unless its runtime is taken out at the moment; the
    answer of [advance_watermark] is not used. *)
Definition advance_runtime (wm : Z) (rt : NodeRuntime) : NodeRuntime :=
  mkRuntime (nr_timer_service rt) (nr_state_store rt)
    (Bounded_advance_watermark (nr_watermark_generator rt) wm).1.

Fixpoint advance_runtimes (slots : nat) (updated : list (Z * Z)) (rts : list (option NodeRuntime))
  : option (list (option NodeRuntime)) :=
  match updated with
  | [] => Some rts
  | (node_id, wm) :: updated =>
      if decide (Z.to_nat node_id < slots)%nat then
        match vec_alter (fmap (advance_runtime wm)) (Z.to_nat node_id) rts with
        | None => None
        | Some rts => advance_runtimes slots updated rts
        end
      else advance_runtimes slots updated rts
  end.

Definition propagate_watermark (source wm : Z) (x : DagExecutor) : option DagExecutor :=
  match DagWatermarkTracker_update_watermark (ex_watermark_tracker x) source wm with
  | None => None
  | Some (t, updated) =>
      (λ rts, ex_set_tracker t (ex_set_nodes (ex_operators x) rts x)) <$>
        advance_runtimes (ex_slot_count x) updated (ex_runtimes x)
  end.

Definition push_sink (source : Z) (event : Event B) (x : DagExecutor) : option DagExecutor :=
  (λ ss, ex_set_sinks ss x) <$> vec_alter (λ q, q ++ [event]) (Z.to_nat source) (ex_sink_outputs x).

Definition route_one (source : Z) (output : Output B) (x : DagExecutor) : option DagExecutor :=
  match output with
  | OutEvent e =>
      let nm := if decide (Z.to_nat source < ex_slot_count x)%nat
                then vec_alter count_out (Z.to_nat source) (ex_node_metrics x)
                else Some (ex_node_metrics x) in
      match nm with
      | None => None
      | Some nm => route_output source e (ex_set_metrics (ex_metrics x) nm x)
      end
  | OutWatermark wm => propagate_watermark source wm x
  | OutLateEvent e => push_sink source e x
  | OutSideOutput _ e => push_sink source e x
  | OutChangelog r => push_sink source (cl_event r) x
  | OutCheckpointComplete _ _ | OutBarrier _ => Some x
  end.

Fixpoint route_all_outputs (source : Z) (outputs : list (Output B)) (x : DagExecutor)
  : option DagExecutor :=
  match outputs with
  | [] => Some x
  | o :: outputs => x ← route_one source o x; route_all_outputs source outputs x
  end.

(** ** Processing *)

Definition passthrough_output (event : Event B) : list (Output B) := [OutEvent event].

Definition node_ctx (idx event_time processing_time : Z) (rt : NodeRuntime) : Ctx :=
  mkCtx event_time processing_time (nr_timer_service rt) (nr_state_store rt)
    (nr_watermark_generator rt) idx.
Definition ctx_runtime (c : Ctx) : NodeRuntime :=
  mkRuntime (cx_timers c) (cx_state c) (cx_watermark_generator c).

Definition count_processed (m : DagExecutorMetrics) : DagExecutorMetrics :=
  mkExMetrics (u64_add (em_events_processed m) 1) (em_events_routed m) (em_multicast_publishes m)
    (em_backpressure_stalls m) (em_nodes_skipped m) (em_watermarks_processed m).
Definition count_in (m : OperatorNodeMetrics) : OperatorNodeMetrics :=
  mkNodeMetrics (u64_add (nm_events_in m) 1) (nm_events_out m) (u64_add (nm_invocations m) 1).

(** One call of the operator, with the operator and the runtime of the node taken
    out of the executor. *)
Definition dispatch (node_id : Z) (event : Event B) (op : option Op) (rt : option NodeRuntime)
  : option Op * option NodeRuntime * list (Output B) :=
  match op, rt with
  | Some o, Some r =>
      let '(o, c, outputs) := op_process o event (node_ctx node_id (ev_timestamp event) 0 r) in
      (Some o, Some (ctx_runtime c), outputs)
  | _, _ => (op, rt, passthrough_output event)
  end.

Fixpoint node_events (node_id : Z) (events : list (Event B)) (op : option Op)
    (rt : option NodeRuntime) (x : DagExecutor)
  : option (option Op * option NodeRuntime * DagExecutor) :=
  match events with
  | [] => Some (op, rt, x)
  | event :: events =>
      match vec_alter count_in (Z.to_nat node_id) (ex_node_metrics x) with
      | None => None
      | Some nm =>
          let x := ex_set_metrics (count_processed (ex_metrics x)) nm x in
          let '(op, rt, outputs) := dispatch node_id event op rt in
          x ← route_all_outputs node_id outputs x;
          node_events node_id events op rt x
      end
  end.

Definition skip_node (m : DagExecutorMetrics) : DagExecutorMetrics :=
  mkExMetrics (em_events_processed m) (em_events_routed m) (em_multicast_publishes m)
    (em_backpressure_stalls m) (u64_add (em_nodes_skipped m) 1) (em_watermarks_processed m).

(** Take the operator and the runtime out of the executor, and put them back. *)
Definition take_node (idx : nat) (x : DagExecutor) : DagExecutor :=
  ex_set_nodes (<[idx := None]> (ex_operators x)) (<[idx := None]> (ex_runtimes x)) x.
Definition put_node (idx : nat) (op : option Op) (rt : option NodeRuntime) (x : DagExecutor)
  : DagExecutor :=
  ex_set_nodes (<[idx := op]> (ex_operators x)) (<[idx := rt]> (ex_runtimes x)) x.

Definition process_node (node_id : Z) (x : DagExecutor) : option DagExecutor :=
  let idx := Z.to_nat node_id in
  match ex_input_queues x !! idx with
  | None => None
  | Some [] => Some (ex_set_metrics (skip_node (ex_metrics x)) (ex_node_metrics x) x)
  | Some events =>
      match ex_operators x !! idx, ex_runtimes x !! idx with
      | Some op, Some rt =>
          let x := take_node idx (ex_set_queues (<[idx := []]> (ex_input_queues x)) x) in
          '(op, rt, x) ← node_events node_id events op rt x;
          Some (put_node idx op rt x)
      | _, _ => None
      end
  end.

Fixpoint process_nodes (order : list Z) (x : DagExecutor) : option DagExecutor :=
  match order with
  | [] => Some x
  | n :: order => x ← process_node n x; process_nodes order x
  end.

Definition process_dag (x : DagExecutor) : option DagExecutor :=
  process_nodes (ex_execution_order x) x.

Definition DagExecutor_process_event (source_node : Z) (event : Event B) (x : DagExecutor)
  : option (DagExecutor * (unit + DagError)) :=
  let idx := Z.to_nat source_node in
  if decide (ex_slot_count x <= idx)%nat then Some (x, inr (NodeNotFound (NodeId_fmt source_node)))
  else
    qs ← vec_alter (λ q, q ++ [event]) idx (ex_input_queues x);
    x ← process_dag (ex_set_queues qs x);
    Some (x, inl tt).

(** ** Timers *)

Fixpoint fire_node (node_id current_time : Z) (fired : list TimerRegistration) (op : Op)
    (rt : NodeRuntime) (x : DagExecutor) : option (Op * NodeRuntime * DagExecutor) :=
  match fired with
  | [] => Some (op, rt, x)
  | reg :: fired =>
      let timer := mkFired (default [] (t_key reg)) (t_timestamp reg) in
      let '(op, c, outputs) := op_on_timer op timer (node_ctx node_id (t_timestamp reg) current_time rt) in
      x ← route_all_outputs node_id outputs x;
      fire_node node_id current_time fired op (ctx_runtime c) x
  end.

Definition fire_node_timers (node_id current_time : Z) (x : DagExecutor) : option DagExecutor :=
  let idx := Z.to_nat node_id in
  if decide (ex_slot_count x <= idx)%nat then Some x
  else match ex_operators x !! idx, ex_runtimes x !! idx with
  | Some (Some op), Some (Some rt) =>
      let x := take_node idx x in
      '(timers, fired) ← TimerService_poll_timers (nr_timer_service rt) current_time;
      '(op, rt, x) ← fire_node node_id current_time fired op
                       (mkRuntime timers (nr_state_store rt) (nr_watermark_generator rt)) x;
      Some (put_node idx (Some op) (Some rt) x)
  | Some op, Some rt => Some (put_node idx op rt (take_node idx x))
  | _, _ => None
  end.

Fixpoint fire_nodes (order : list Z) (current_time : Z) (x : DagExecutor) : option DagExecutor :=
  match order with
  | [] => Some x
  | n :: order => x ← fire_node_timers n current_time x; fire_nodes order current_time x
  end.

Definition DagExecutor_fire_timers (current_time : Z) (x : DagExecutor) : option DagExecutor :=
  x ← fire_nodes (ex_execution_order x) current_time x;
  process_dag x.

Definition count_watermark (m : DagExecutorMetrics) : DagExecutorMetrics :=
  mkExMetrics (em_events_processed m) (em_events_routed m) (em_multicast_publishes m)
    (em_backpressure_stalls m) (em_nodes_skipped m) (u64_add (em_watermarks_processed m) 1).

Definition DagExecutor_process_watermark (source_node watermark : Z) (x : DagExecutor)
  : option (DagExecutor * (unit + DagError)) :=
  if decide (ex_slot_count x <= Z.to_nat source_node)%nat
  then Some (x, inr (NodeNotFound (NodeId_fmt source_node)))
  else
    x ← propagate_watermark source_node watermark x;
    x ← DagExecutor_fire_timers watermark x;
    Some (ex_set_metrics (count_watermark (ex_metrics x)) (ex_node_metrics x) x, inl tt).

(** ** Outputs, metrics, checkpoints *)

Definition DagExecutor_take_sink_outputs (sink_node : Z) (x : DagExecutor)
  : DagExecutor * list (Event B) :=
  let idx := Z.to_nat sink_node in
  if decide (idx < ex_slot_count x)%nat
  then (ex_set_sinks (<[idx := []]> (ex_sink_outputs x)) x, default [] (ex_sink_outputs x !! idx))
  else (x, []).

Definition take_one_sink (acc : DagExecutor * gmap Z (list (Event B))) (sink_id : Z)
  : DagExecutor * gmap Z (list (Event B)) :=
  let '(x, outputs) := acc in
  if decide (Z.to_nat sink_id < ex_slot_count x)%nat then
    let '(x, events) := DagExecutor_take_sink_outputs sink_id x in
    (x, match events with [] => outputs | _ => <[sink_id := events]> outputs end)
  else (x, outputs).

Definition DagExecutor_take_all_sink_outputs (x : DagExecutor)
  : DagExecutor * gmap Z (list (Event B)) :=
  foldl take_one_sink (x, ∅) (ex_sink_nodes x).

Definition DagExecutor_reset_metrics (x : DagExecutor) : DagExecutor :=
  ex_set_metrics DagExecutorMetrics_default
    ((λ _, OperatorNodeMetrics_default) <$> ex_node_metrics x) x.

Definition checkpoint_at (idx : nat) (acc : list (option Op) * gmap Z OperatorState) 
  : list (option Op) * gmap Z OperatorState :=
  match acc.1 !! idx with
  | Some (Some op) =>
      let '(op, state) := op_checkpoint op in
      (<[idx := Some op]> acc.1, <[Z.of_nat idx := state]> acc.2)
  | _ => acc
  end.

Definition DagExecutor_checkpoint (x : DagExecutor) : DagExecutor * gmap Z OperatorState :=
  let '(ops, states) := foldl (λ acc idx, checkpoint_at idx acc) (ex_operators x, ∅)
                          (seq 0 (length (ex_operators x))) in
  (ex_set_nodes ops (ex_runtimes x) x, states).

Definition barrier_at (slots : nat) (acc : list (option Op) * gmap Z OperatorState) (node_id : Z)
  : list (option Op) * gmap Z OperatorState :=
  if decide (Z.to_nat node_id < slots)%nat then
    match acc.1 !! Z.to_nat node_id with
    | Some (Some op) =>
        let '(op, state) := op_checkpoint op in
        (<[Z.to_nat node_id := Some op]> acc.1, <[node_id := state]> acc.2)
    | _ => acc
    end
  else acc.

Definition DagExecutor_process_checkpoint_barrier (barrier : CheckpointBarrier) (x : DagExecutor)
  : DagExecutor * gmap Z OperatorState :=
  let '(ops, states) := foldl (barrier_at (ex_slot_count x)) (ex_operators x, ∅) (ex_execution_order x) in
  (ex_set_nodes ops (ex_runtimes x) x, states).

Definition OperatorError_to_string (e : OperatorError) : string :=
  match e with
  | StateAccessFailed s => "State access failed: " +:+ s
  | SerializationFailed s => "Serialization failed: " +:+ s
  | ProcessingFailed s => "Processing failed: " +:+ s
  | ConfigError s => "Configuration error: " +:+ s
  end.

(** [states] in the order of the map's iteration; the first failure ends the loop
    with the operators restored so far. *)
Fixpoint restore_loop (states : list (Z * OperatorState)) (slots : nat) (ops : list (option Op))
  : list (option Op) * (unit + DagError) :=
  match states with
  | [] => (ops, inl tt)
  | (node_id, state) :: states =>
      if decide (Z.to_nat node_id < slots)%nat then
        match ops !! Z.to_nat node_id with
        | Some (Some op) =>
            match op_restore op state with
            | (op, inl _) => restore_loop states slots (<[Z.to_nat node_id := Some op]> ops)
            | (op, inr e) =>
                (<[Z.to_nat node_id := Some op]> ops,
                 inr (RestoreFailed (NodeId_fmt node_id) (OperatorError_to_string e)))
            end
        | _ => restore_loop states slots ops
        end
      else restore_loop states slots ops
  end.

Definition DagExecutor_restore `{!HashOrder} (states : gmap Z OperatorState) (x : DagExecutor)
  : DagExecutor * (unit + DagError) :=
  let '(ops, r) := restore_loop (hash_iter states) (ex_slot_count x) (ex_operators x) in
  (ex_set_nodes ops (ex_runtimes x) x, r).

Definition DagExecutor_checkpoint_watermarks (x : DagExecutor) : DagWatermarkCheckpoint :=
  DagWatermarkTracker_checkpoint (ex_watermark_tracker x).
Definition DagExecutor_restore_watermarks (c : DagWatermarkCheckpoint) (x : DagExecutor) : DagExecutor :=
  ex_set_tracker (DagWatermarkTracker_restore (ex_watermark_tracker x) c) x.

Definition DagExecutor_inject_events (node_id : Z) (events : list (Event B)) (x : DagExecutor)
  : DagExecutor :=
  let idx := Z.to_nat node_id in
  if decide (idx < ex_slot_count x)%nat
  then ex_set_queues (alter (λ q, q ++ events) idx (ex_input_queues x)) x else x.

Definition DagExecutor_node_type (node : Z) (x : DagExecutor) : option DagNodeType :=
  if decide (Z.to_nat node < ex_slot_count x)%nat then ex_node_types x !! Z.to_nat node else None.
Definition DagExecutor_input_count (node : Z) (x : DagExecutor) : nat :=
  if decide (Z.to_nat node < ex_slot_count x)%nat
  then default 0%nat (ex_input_counts x !! Z.to_nat node) else 0%nat.

End Executor.

(** ** One pass over the dag *)

(** The outputs of a node for a list of events: its operator runs apart from the
    executor. *)
Fixpoint node_outputs {Op B} `{!Operator Op B} (node_id : Z) (events : list (Event B))
    (op : option Op) (rt : option NodeRuntime) : option Op * option NodeRuntime * list (Output B) :=
  match events with
  | [] => (op, rt, [])
  | event :: events =>
      let '(op, rt, outputs) := dispatch node_id event op rt in
      let '(op, rt, rest) := node_outputs node_id events op rt in
      (op, rt, outputs ++ rest)
  end.

Definition output_event {B} (o : Output B) : option (Event B) :=
  match o with OutEvent e => Some e | _ => None end.
(** Late events, side outputs and changelog records stay at the node. *)
Definition output_kept {B} (o : Output B) : option (Event B) :=
  match o with
  | OutLateEvent e | OutSideOutput _ e => Some e
  | OutChangelog r => Some (cl_event r)
  | _ => None
  end.

(** Runtimes that agree but for the watermark generator. *)
Definition rt_like (a b : option NodeRuntime) : Prop :=
  match a, b with
  | Some a, Some b => nr_timer_service a = nr_timer_service b ∧ nr_state_store a = nr_state_store b
  | None, None => True
  | _, _ => False
  end.
#[global] Instance rt_like_equiv : Equivalence rt_like.
Proof.
  split.
  - by intros [a|].
  - intros [a|] [b|]; simpl; intuition.
  - intros [a|] [b|] [c|]; simpl; intuition congruence.
Qed.

Section Pass.
Context {Op B : Type} `{!Operator Op B}.
Context {DataType : Type} `{HO : !HashOrder} `{HL : !HashOrderLaws}.
Context (d : StreamingDag (DataType:=DataType)) (Hwf : dag_wf d) (Hfan : fan_out_ok d).
Implicit Types x : DagExecutor (Op:=Op) (B:=B).

Record tracker_shape (t : DagWatermarkTracker) : Prop := {
  ts_slots : dw_slot_count t = slot_count d;
  ts_length : length (dw_watermarks t) = slot_count d;
  ts_deps : length (dw_source_deps t) = slot_count d;
  ts_range i l m : dw_source_deps t !! i = Some l → m ∈ l → (Z.to_nat m < slot_count d)%nat }.

Record shape x : Prop := {
  sh_ops : length (ex_operators x) = slot_count d;
  sh_rts : length (ex_runtimes x) = slot_count d;
  sh_queues : length (ex_input_queues x) = slot_count d;
  sh_sinks : length (ex_sink_outputs x) = slot_count d;
  sh_metrics : length (ex_node_metrics x) = slot_count d;
  sh_slots : ex_slot_count x = slot_count d;
  sh_routing : ex_routing x = RoutingTable_from_dag d;
  sh_order : ex_execution_order x = sd_execution_order d;
  sh_tracker : tracker_shape (ex_watermark_tracker x) }.

Lemma vec_alter_Some {A} (f : A → A) i (l : list A) : (i < length l)%nat →
  vec_alter f i l = Some (alter f i l).
Proof. intros Hi. unfold vec_alter. by rewrite decide_True. Qed.

(** *** The tracker does not panic *)

Lemma min_inputs_total ws deps acc : (∀ m, m ∈ deps → (Z.to_nat m < length ws)%nat) →
  is_Some (min_inputs ws deps acc).
Proof.
  revert acc. induction deps as [|m deps IH]; intros acc Hin; simpl; [done|].
  destruct (lookup_lt_is_Some_2 ws (Z.to_nat m)) as [w ->]; [apply Hin; left|].
  destruct (w =? _); [done|]. apply IH. intros. apply Hin. by right.
Qed.

Lemma propagate_total deps order : length deps = slot_count d →
  (∀ i l m, deps !! i = Some l → m ∈ l → (Z.to_nat m < slot_count d)%nat) →
  ∀ ws buf, length ws = slot_count d →
  ∃ ws' buf', propagate (slot_count d) deps order ws buf = Some (ws', buf') ∧ length ws' = slot_count d.
Proof.
  intros Hlen Hr. induction order as [|n order IH]; intros ws buf Hws; cbn [propagate]; [eauto|].
  destruct (decide (slot_count d <= Z.to_nat n)%nat) as [|Hlt]; [by apply IH|].
  destruct (lookup_lt_is_Some_2 deps (Z.to_nat n)) as [l Hl]; [lia|]. rewrite Hl.
  destruct l as [|m l]; [by apply IH|].
  destruct (min_inputs_total ws (m :: l) i64_MAX) as [r ->].
  { intros k Hk. rewrite Hws. by eapply Hr. }
  destruct r as [v|]; [|by apply IH].
  destruct (lookup_lt_is_Some_2 ws (Z.to_nat n)) as [w ->]; [lia|].
  destruct (v >? w); apply IH; [by rewrite length_insert|done].
Qed.

Lemma update_total t s w : tracker_shape t →
  ∃ t' u, DagWatermarkTracker_update_watermark t s w = Some (t', u) ∧ tracker_shape t'.
Proof.
  intros [T1 T2 T3 T4]. unfold DagWatermarkTracker_update_watermark.
  destruct (decide (dw_slot_count t <= Z.to_nat s)%nat) as [|Hlt]; [eexists _, _; split; [done|]; by split|].
  destruct (lookup_lt_is_Some_2 (dw_watermarks t) (Z.to_nat s)) as [v ->]; [lia|].
  destruct (w <=? v); [eexists _, _; split; [done|]; by split|]. rewrite T1.
  destruct (propagate_total (dw_source_deps t) (dw_execution_order t) T3 T4
    (<[Z.to_nat s := w]> (dw_watermarks t)) [(s, w)]) as (ws & buf & -> & Hl); [by rewrite length_insert|].
  eexists _, _. split; [done|]. by split.
Qed.

(** *** Routing *)

Definition rts_like (a b : list (option NodeRuntime)) : Prop := Forall2 rt_like a b.

Lemma advance_total u : ∀ rts, length rts = slot_count d →
  ∃ rts', advance_runtimes (slot_count d) u rts = Some rts' ∧ rts_like rts' rts.
Proof.
  induction u as [|[n w] u IH]; intros rts Hlen; cbn [advance_runtimes].
  { exists rts. split; [done|]. unfold rts_like. reflexivity. }
  destruct (decide (Z.to_nat n < slot_count d)%nat); [|by apply IH].
  rewrite vec_alter_Some by lia.
  destruct (IH (alter (fmap (advance_runtime w)) (Z.to_nat n) rts)) as (rts' & Hr & Hl);
    [by rewrite length_alter|].
  exists rts'. split; [done|]. unfold rts_like in *. etrans; [exact Hl|].
  apply Forall2_same_length_lookup. split; [by rewrite length_alter|]. intros i a b.
  destruct (decide (i = Z.to_nat n)) as [->|Hne].
  - rewrite list_lookup_alter_eq. intros Ha Hb. rewrite Hb in Ha. injection Ha as <-. by destruct b.
  - rewrite list_lookup_alter_ne by done. intros Ha Hb. simplify_eq. reflexivity.
Qed.

(** How often an output of [p] reaches [m]. *)
Definition edge_count (p m : Z) : nat :=
  match sd_nodes d !! p with
  | Some node => length (filter (λ t, t = m) (consumer_nodes d node))
  | None => 0
  end.
Definition terminal (p : Z) : bool :=
  match sd_nodes d !! p with Some node => bool_decide (dn_outputs node = []) | None => false end.

Definition routed (p m : Z) (outs : list (Output B)) : list (Event B) :=
  mjoin (replicate (edge_count p m) <$> omap output_event outs).
Definition collect_one (p : Z) (o : Output B) : option (Event B) :=
  match output_kept o with
  | Some e => Some e
  | None => if terminal p then output_event o else None
  end.
(** What stays in the output buffer of the node. *)
Definition collected (p : Z) (outs : list (Output B)) : list (Event B) := omap (collect_one p) outs.

Lemma enqueue_all_spec ts e : ∀ qs : list (list (Event B)),
  (∀ t, t ∈ ts → 0 <= t ∧ (Z.to_nat t < length qs)%nat) →
  ∃ qs', enqueue_all ts e qs = Some qs' ∧ length qs' = length qs ∧
    ∀ m, 0 <= m → qs' !! Z.to_nat m =
      (λ q, q ++ replicate (length (filter (λ t, t = m) ts)) e) <$> qs !! Z.to_nat m.
Proof.
  induction ts as [|t ts IH]; intros qs Hr; cbn [enqueue_all].
  { exists qs. split; [done|]. split; [done|]. intros m _. simpl. destruct (qs !! _); simpl; [|done].
    by rewrite app_nil_r. }
  destruct (Hr t) as [Ht0 Ht]; [left|]. rewrite vec_alter_Some by done.
  destruct (IH (alter (λ q, q ++ [e]) (Z.to_nat t) qs)) as (qs' & Hq & Hlen & Hl).
  { intros t' Ht'. rewrite length_alter. apply Hr. by right. }
  exists qs'. split; [done|]. split; [by rewrite Hlen, length_alter|]. intros m Hm. rewrite (Hl m Hm).
  destruct (decide (t = m)) as [->|Hne].
  - rewrite filter_cons_True by done. rewrite list_lookup_alter_eq. destruct (qs !! _); simpl; [|done].
    by rewrite <- app_assoc.
  - rewrite filter_cons_False by done. rewrite list_lookup_alter_ne by lia. done.
Qed.

(** What routing the outputs [outs] of node [n] changes. *)
Record routes (n : Z) (outs : list (Output B)) x x' : Prop := {
  ro_shape : shape x';
  ro_ops : ex_operators x' = ex_operators x;
  ro_rts : rts_like (ex_runtimes x') (ex_runtimes x);
  ro_queues m : 0 <= m → ex_input_queues x' !! Z.to_nat m =
    (λ q, q ++ routed n m outs) <$> ex_input_queues x !! Z.to_nat m;
  ro_sinks m : 0 <= m → ex_sink_outputs x' !! Z.to_nat m =
    (λ q, q ++ if decide (m = n) then collected n outs else []) <$> ex_sink_outputs x !! Z.to_nat m }.

Lemma fmap_app_nil {A} (o : option (list A)) : (λ q, q ++ []) <$> o = o.
Proof. destruct o; simpl; [by rewrite app_nil_r|done]. Qed.

Lemma routes_trans n o1 o2 x1 x2 x3 :
  routes n o1 x1 x2 → routes n o2 x2 x3 → routes n (o1 ++ o2) x1 x3.
Proof.
  intros [A1 A2 A3 A4 A5] [B1 B2 B3 B4 B5]. split; [done|congruence|unfold rts_like in *; by etrans| |].
  - intros m Hm. rewrite (B4 m Hm), (A4 m Hm). unfold routed. rewrite omap_app, fmap_app, join_app.
    destruct (ex_input_queues x1 !! _); simpl; [by rewrite <- app_assoc|done].
  - intros m Hm. rewrite (B5 m Hm), (A5 m Hm). unfold collected. rewrite omap_app.
    destruct (ex_sink_outputs x1 !! _); simpl; [|done]. case_decide; rewrite <- app_assoc; done.
Qed.

Lemma routes_refl n x : shape x → routes n [] x x.
Proof.
  intros Hs. split; [done|done|unfold rts_like; reflexivity| |]; intros m _; unfold routed, collected; simpl;
    [|case_decide]; by rewrite fmap_app_nil.
Qed.

Lemma shape_set_metrics m nm x : length nm = slot_count d → shape x → shape (ex_set_metrics m nm x).
Proof. intros Hl [S1 S2 S3 S4 S5 S6 S7 S8 S9]. by split. Qed.
Lemma shape_set_queues qs x : length qs = slot_count d → shape x → shape (ex_set_queues qs x).
Proof. intros Hl [S1 S2 S3 S4 S5 S6 S7 S8 S9]. by split. Qed.
Lemma shape_set_sinks ss x : length ss = slot_count d → shape x → shape (ex_set_sinks ss x).
Proof. intros Hl [S1 S2 S3 S4 S5 S6 S7 S8 S9]. by split. Qed.
Lemma shape_set_nodes ops rts x : length ops = slot_count d → length rts = slot_count d →
  shape x → shape (ex_set_nodes ops rts x).
Proof. intros Hl Hl' [S1 S2 S3 S4 S5 S6 S7 S8 S9]. by split. Qed.
Lemma shape_set_tracker t x : tracker_shape t → shape x → shape (ex_set_tracker t x).
Proof. intros Hl [S1 S2 S3 S4 S5 S6 S7 S8 S9]. by split. Qed.

(** The node that routes is a node of the dag. *)
Context (n : Z) (node : DagNode (DataType:=DataType)) (Hn : sd_nodes d !! n = Some node).

Lemma node_slot : 0 <= n ∧ (Z.to_nat n < slot_count d)%nat.
Proof. by eapply slot_of_node. Qed.

Lemma push_sink_spec e x o : shape x → collect_one n o = Some e → (∀ m, routed n m [o] = []) →
  ∃ x', push_sink n e x = Some x' ∧ routes n [o] x x'.
Proof.
  intros Hs Hc Hr. destruct node_slot as [Hn0 Hslot]. unfold push_sink.
  rewrite vec_alter_Some by (rewrite (sh_sinks _ Hs); lia). simpl. eexists. split; [done|]. split; try done.
  - apply shape_set_sinks; [by rewrite length_alter, (sh_sinks _ Hs)|done].
  - unfold rts_like. reflexivity.
  - intros m Hm. simpl. by rewrite Hr, fmap_app_nil.
  - intros m Hm. simpl. unfold collected. simpl. rewrite Hc. destruct (decide (m = n)) as [->|Hne].
    + rewrite list_lookup_alter_eq. done.
    + rewrite list_lookup_alter_ne by lia. by rewrite fmap_app_nil.
Qed.

Lemma event_targets : ∃ entry, RoutingTable_node_targets (RoutingTable_from_dag d) n = Some entry ∧
  RoutingEntry_is_terminal entry = terminal n ∧
  (terminal n = false →
   (if re_is_multicast entry then RoutingEntry_target_ids entry else take 1 (re_targets entry)) =
   consumer_nodes d node).
Proof.
  unfold RoutingTable_node_targets, terminal. rewrite Hn.
  rewrite (route_spec d n node) by (done || (unfold MAX_PORTS, MAX_FAN_OUT; lia)).
  destruct (node_entry_spec d n node Hwf Hn) as (Hids & Hcount & Hmulti). specialize (Hfan _ _ Hn).
  destruct (decide (dn_outputs node = [])) as [Hnil|Hne].
  - rewrite decide_False by tauto. eexists. split; [done|]. rewrite bool_decide_true by done. done.
  - rewrite decide_True by done. eexists. split; [done|]. rewrite bool_decide_false by done.
    assert (Hlen : (0 < length (dn_outputs node))%nat) by (destruct (dn_outputs node); [done|simpl; lia]).
    rewrite Nat.min_r in Hcount by done. split.
    + unfold RoutingEntry_is_terminal. rewrite Hcount. apply bool_decide_false. lia.
    + intros _. rewrite take_ge in Hids by (rewrite (consumer_nodes_length d n); done).
      rewrite <- Hids. rewrite Hmulti. case_bool_decide as Hm; [done|].
      unfold RoutingEntry_target_ids. rewrite Hcount. f_equal. lia.
Qed.

Lemma consumer_range t : t ∈ consumer_nodes d node → 0 <= t ∧ (Z.to_nat t < slot_count d)%nat.
Proof.
  unfold consumer_nodes. rewrite list_elem_of_omap. intros (e & He & Ht).
  destruct (sd_edges d !! e) as [edge|] eqn:Hedge; [|done]. injection Ht as <-.
  destruct (wf_edge _ Hwf _ _ Hedge) as (_ & _ & _ & _ & [tn Htn]). by eapply slot_of_node.
Qed.

Lemma terminal_no_edges m : terminal n = true → edge_count n m = 0%nat.
Proof.
  unfold terminal, edge_count. rewrite Hn. intros Ht%bool_decide_eq_true. unfold consumer_nodes. by rewrite Ht.
Qed.

Lemma route_output_spec e x : shape x →
  ∃ x', route_output n e x = Some x' ∧ routes n [OutEvent e] x x'.
Proof.
  intros Hs. unfold route_output. rewrite (sh_routing _ Hs).
  destruct event_targets as (entry & -> & Hterm & Htargets). rewrite Hterm.
  destruct (terminal n) eqn:Ht.
  - apply (push_sink_spec e x (OutEvent e) Hs).
    + unfold collect_one. simpl. by rewrite Ht.
    + intros m. unfold routed. simpl. by rewrite (terminal_no_edges m Ht).
  - rewrite (Htargets eq_refl). cbv zeta.
    destruct (enqueue_all_spec (consumer_nodes d node) e (ex_input_queues x)) as (qs & Hq & Hlen & Hl).
    { intros t Hcn. rewrite (sh_queues _ Hs). by apply consumer_range. }
    cbn [ex_set_metrics ex_input_queues]. rewrite Hq. simpl. eexists. split; [done|].
    pose proof (sh_queues _ Hs) as Hql. split; try done.
    + apply shape_set_queues; [lia|]. apply shape_set_metrics; [apply Hs|done].
    + unfold rts_like. reflexivity.
    + intros m Hm. cbn [ex_set_queues ex_input_queues]. rewrite (Hl m Hm). unfold routed, edge_count. rewrite Hn. simpl.
      by rewrite app_nil_r.
    + intros m Hm. unfold collected, collect_one. simpl. rewrite Ht. case_decide; by rewrite fmap_app_nil.
Qed.

Lemma propagate_watermark_spec s w x : shape x →
  ∃ x', propagate_watermark s w x = Some x' ∧ routes n [OutWatermark w] x x'.
Proof.
  intros Hs. unfold propagate_watermark.
  destruct (update_total (ex_watermark_tracker x) s w (sh_tracker _ Hs)) as (t & u & -> & Ht).
  rewrite (sh_slots _ Hs). destruct (advance_total u (ex_runtimes x) (sh_rts _ Hs)) as (rts & -> & Hr).
  simpl. eexists. split; [done|]. split; try done.
  - apply shape_set_tracker; [done|]. apply shape_set_nodes; [apply Hs| |done].
    unfold rts_like in Hr. apply Forall2_length in Hr. rewrite Hr. apply Hs.
  - intros m Hm. unfold routed. simpl. by rewrite fmap_app_nil.
  - intros m Hm. unfold collected, collect_one. simpl. destruct (terminal n); case_decide; by rewrite fmap_app_nil.
Qed.

Lemma routed_kept m o : output_event o = None → routed n m [o] = [].
Proof. intros Ho. unfold routed. simpl. by rewrite Ho. Qed.

Lemma route_one_spec o x : shape x → ∃ x', route_one n o x = Some x' ∧ routes n [o] x x'.
Proof.
  intros Hs. destruct node_slot as [Hn0 Hslot]. destruct o as [e|w|e|name e|r|id st|b]; cbn [route_one].
  - rewrite (sh_slots _ Hs), decide_True, vec_alter_Some by (done || (rewrite (sh_metrics _ Hs); lia)).
    destruct (route_output_spec e (ex_set_metrics (ex_metrics x) (alter count_out (Z.to_nat n) (ex_node_metrics x)) x))
      as (x' & Hx & [R1 R2 R3 R4 R5]).
    { apply shape_set_metrics; [|done]. by rewrite length_alter, (sh_metrics _ Hs). }
    exists x'. split; [done|]. by split.
  - by apply propagate_watermark_spec.
  - apply push_sink_spec; [done..|]. intros. by apply routed_kept.
  - apply push_sink_spec; [done..|]. intros. by apply routed_kept.
  - apply push_sink_spec; [done..|]. intros. by apply routed_kept.
  - exists x. split; [done|]. destruct (routes_refl n x Hs) as [R1 R2 R3 R4 R5]. split; try done.
    unfold collected, collect_one in *. simpl. by destruct (terminal n).
  - exists x. split; [done|]. destruct (routes_refl n x Hs) as [R1 R2 R3 R4 R5]. split; try done.
    unfold collected, collect_one in *. simpl. by destruct (terminal n).
Qed.

Lemma route_all_spec outs : ∀ x, shape x →
  ∃ x', route_all_outputs n outs x = Some x' ∧ routes n outs x x'.
Proof.
  induction outs as [|o outs IH]; intros x Hs; cbn [route_all_outputs].
  { exists x. split; [done|]. by apply routes_refl. }
  destruct (route_one_spec o x Hs) as (x1 & -> & R1). cbn [mbind option_bind].
  destruct (IH x1 (ro_shape _ _ _ _ R1)) as (x2 & -> & R2). exists x2. split; [done|].
  by apply (routes_trans n [o] outs x x1 x2).
Qed.

Lemma node_events_spec es : ∀ op rt x, shape x →
  ∃ x', node_events n es op rt x = Some ((node_outputs n es op rt).1.1, (node_outputs n es op rt).1.2, x') ∧
    routes n (node_outputs n es op rt).2 x x'.
Proof.
  destruct node_slot as [Hn0 Hslot].
  induction es as [|e es IH]; intros op rt x Hs; cbn [node_events node_outputs].
  { exists x. split; [done|]. by apply routes_refl. }
  rewrite vec_alter_Some by (rewrite (sh_metrics _ Hs); lia). cbv zeta.
  destruct (dispatch n e op rt) as [[op1 rt1] outs] eqn:Hd.
  set (x0 := ex_set_metrics _ _ x).
  assert (Hs0 : shape x0).
  { apply shape_set_metrics; [|done]. by rewrite length_alter, (sh_metrics _ Hs). }
  destruct (route_all_spec outs x0 Hs0) as (x1 & -> & R1). cbn [mbind option_bind].
  destruct (IH op1 rt1 x1 (ro_shape _ _ _ _ R1)) as (x2 & -> & R2).
  destruct (node_outputs n es op1 rt1) as [[op2 rt2] outs2]. cbn [fst snd] in *. exists x2. split; [done|].
  pose proof (routes_trans n outs outs2 x0 x1 x2 R1 R2) as [T1 T2 T3 T4 T5]. by split.
Qed.

(** *** One node *)

(** The node consumes its queue, its outputs are routed, its operator and runtime
    are put back. *)
Record node_done x x' (op : option Op) (rt : option NodeRuntime) (outs : list (Output B)) : Prop := {
  nd_shape : shape x';
  nd_ops : ex_operators x' = <[Z.to_nat n := op]> (ex_operators x);
  nd_rt : ex_runtimes x' !! Z.to_nat n = Some rt;
  nd_rts m : 0 <= m → m ≠ n →
    option_Forall2 rt_like (ex_runtimes x' !! Z.to_nat m) (ex_runtimes x !! Z.to_nat m);
  nd_queues m : 0 <= m → ex_input_queues x' !! Z.to_nat m =
    (λ q, (if decide (m = n) then [] else q) ++ routed n m outs) <$> ex_input_queues x !! Z.to_nat m;
  nd_sinks m : 0 <= m → ex_sink_outputs x' !! Z.to_nat m =
    (λ q, q ++ if decide (m = n) then collected n outs else []) <$> ex_sink_outputs x !! Z.to_nat m }.

Lemma rts_like_lookup a b i : rts_like a b → option_Forall2 rt_like (a !! i) (b !! i).
Proof. intros Hab. by apply Forall2_lookup. Qed.

Lemma routes_done x x1 outs op rt : shape x →
  ex_operators x1 = <[Z.to_nat n := None]> (ex_operators x) →
  ex_runtimes x1 = <[Z.to_nat n := None]> (ex_runtimes x) →
  ex_input_queues x1 = <[Z.to_nat n := []]> (ex_input_queues x) →
  ex_sink_outputs x1 = ex_sink_outputs x →
  ∀ x2, routes n outs x1 x2 → node_done x (put_node (Z.to_nat n) op rt x2) op rt outs.
Proof.
  intros Hs H1 H2 H3 H4 x2 [R1 R2 R3 R4 R5]. destruct node_slot as [Hn0 Hslot].
  pose proof (sh_rts _ R1) as Hl2. pose proof (sh_queues _ Hs) as Hlq. split.
  - apply shape_set_nodes; [| |done]; rewrite length_insert; apply R1.
  - cbn [put_node ex_set_nodes ex_operators]. rewrite R2, H1. by rewrite list_insert_insert_eq.
  - cbn [put_node ex_set_nodes ex_runtimes]. apply list_lookup_insert_eq. lia.
  - intros m Hm Hne. cbn [put_node ex_set_nodes ex_runtimes]. rewrite list_lookup_insert_ne by lia.
    apply (rts_like_lookup _ _ (Z.to_nat m)) in R3. rewrite H2, list_lookup_insert_ne in R3 by lia. done.
  - intros m Hm. cbn [put_node ex_set_nodes ex_input_queues]. rewrite (R4 m Hm), H3.
    destruct (decide (m = n)) as [->|Hne].
    + rewrite list_lookup_insert_eq by lia.
      destruct (lookup_lt_is_Some_2 (ex_input_queues x) (Z.to_nat n)) as [q ->]; [lia|]. done.
    + by rewrite list_lookup_insert_ne by lia.
  - intros m Hm. cbn [put_node ex_set_nodes ex_sink_outputs]. by rewrite (R5 m Hm), H4.
Qed.

Lemma process_node_spec x : shape x → ∃ x' q op rt,
  ex_input_queues x !! Z.to_nat n = Some q ∧ ex_operators x !! Z.to_nat n = Some op ∧
  ex_runtimes x !! Z.to_nat n = Some rt ∧ process_node n x = Some x' ∧
  let r := node_outputs n q op rt in node_done x x' r.1.1 r.1.2 r.2.
Proof.
  intros Hs. destruct node_slot as [Hn0 Hslot]. pose proof Hs as [S1 S2 S3 S4 S5 S6 S7 S8 S9].
  destruct (lookup_lt_is_Some_2 (ex_input_queues x) (Z.to_nat n)) as [q Hq]; [lia|].
  destruct (lookup_lt_is_Some_2 (ex_operators x) (Z.to_nat n)) as [op Hop]; [lia|].
  destruct (lookup_lt_is_Some_2 (ex_runtimes x) (Z.to_nat n)) as [rt Hrt]; [lia|].
  unfold process_node. rewrite Hq, Hop, Hrt. destruct q as [|e es].
  - eexists _, _, _, _. split; [done|]. split; [done|]. split; [done|]. split; [done|]. simpl. split.
    + by apply shape_set_metrics.
    + cbn. by rewrite list_insert_id.
    + exact Hrt.
    + intros m _ _. cbn. destruct (ex_runtimes x !! Z.to_nat m); constructor. reflexivity.
    + intros m Hm. cbn. unfold routed. simpl. destruct (decide (m = n)) as [->|]; [by rewrite Hq|by rewrite fmap_app_nil].
    + intros m Hm. cbn. unfold collected. simpl. destruct (decide (m = n)); by rewrite fmap_app_nil.
  - set (x1 := take_node (Z.to_nat n) (ex_set_queues (<[Z.to_nat n := []]> (ex_input_queues x)) x)).
    assert (Hs1 : shape x1).
    { apply shape_set_nodes; [by rewrite length_insert..|]. apply shape_set_queues; [by rewrite length_insert|done]. }
    cbv zeta. destruct (node_events_spec (e :: es) op rt x1 Hs1) as (x2 & -> & R). cbn [mbind option_bind].
    eexists _, _, _, _. split; [done|]. split; [done|]. split; [done|]. split; [done|].
    by apply (routes_done x x1).
Qed.

Lemma routed_edge m outs : routed n m outs ≠ [] → dag_edge d n m.
Proof.
  intros Hne. assert (He : edge_count n m ≠ 0%nat).
  { intros Hz. apply Hne. unfold routed. rewrite Hz. induction (omap output_event outs); [done|by simpl]. }
  unfold edge_count in He. rewrite Hn in He.
  destruct (filter (λ t, t = m) (consumer_nodes d node)) as [|t l] eqn:Hf; [done|].
  assert (Ht : t ∈ filter (λ t, t = m) (consumer_nodes d node)) by (rewrite Hf; left).
  apply list_elem_of_filter in Ht as [-> Ht]. unfold consumer_nodes in Ht.
  apply list_elem_of_omap in Ht as (e & Hein & Hedge).
  apply (wf_outputs _ Hwf _ _ Hn) in Hein as (edge & He' & <-). rewrite He' in Hedge. injection Hedge as <-.
  by exists e, edge.
Qed.

End Pass.

(** *** The whole pass *)

Section Passes.
Context {Op B : Type} `{!Operator Op B}.
Context {DataType : Type} `{HO : !HashOrder} `{HL : !HashOrderLaws}.
Context (d : StreamingDag (DataType:=DataType)) (Hwf : dag_wf d) (Hfan : fan_out_ok d).
Context (Hnd : NoDup (sd_execution_order d)).
Context (Hall : ∀ n, n ∈ sd_execution_order d ↔ is_Some (sd_nodes d !! n)).
Context (Htopo : topo_order d (sd_execution_order d)).
Implicit Types x : DagExecutor (Op:=Op) (B:=B).
Implicit Types log : list (Z * list (Output B)).

(** The events that a log of outputs, one entry per visited node, sends to a node,
    and those it leaves at a node. *)
Definition arrived (m : Z) log : list (Event B) := mjoin ((λ po, routed d po.1 m po.2) <$> log).
Definition left_at (m : Z) log : list (Event B) :=
  mjoin ((λ po, if decide (m = po.1) then collected d po.1 po.2 else []) <$> log).

(** What the log says: the node consumed what was queued and what had arrived. *)
Definition log_ok x0 log x : Prop :=
  ∀ i p outs, log !! i = Some (p, outs) → ∃ q op rt rt0 op' rt',
    ex_input_queues x0 !! Z.to_nat p = Some q ∧ ex_operators x0 !! Z.to_nat p = Some op ∧
    ex_runtimes x0 !! Z.to_nat p = Some rt0 ∧ rt_like rt rt0 ∧
    node_outputs p (q ++ arrived p (take i log)) op rt = (op', rt', outs) ∧
    ex_operators x !! Z.to_nat p = Some op' ∧ option_Forall2 rt_like (ex_runtimes x !! Z.to_nat p) (Some rt').

Record pass_inv x0 log x : Prop := {
  pi_shape : shape d x;
  pi_log : log_ok x0 log x;
  pi_queue m : m ∈ sd_execution_order d → m ∉ log.*1 → ex_input_queues x !! Z.to_nat m =
    (λ q, q ++ arrived m log) <$> ex_input_queues x0 !! Z.to_nat m;
  pi_op m : m ∈ sd_execution_order d → m ∉ log.*1 →
    ex_operators x !! Z.to_nat m = ex_operators x0 !! Z.to_nat m;
  pi_rt m : m ∈ sd_execution_order d → m ∉ log.*1 →
    option_Forall2 rt_like (ex_runtimes x !! Z.to_nat m) (ex_runtimes x0 !! Z.to_nat m);
  pi_done m : m ∈ log.*1 → ex_input_queues x !! Z.to_nat m = Some [];
  pi_sinks m : 0 <= m → ex_sink_outputs x !! Z.to_nat m =
    (λ q, q ++ left_at m log) <$> ex_sink_outputs x0 !! Z.to_nat m }.

Lemma arrived_snoc m log p outs : arrived m (log ++ [(p, outs)]) = arrived m log ++ routed d p m outs.
Proof. unfold arrived. rewrite fmap_app, join_app. simpl. by rewrite app_nil_r. Qed.
Lemma left_at_snoc m log p outs :
  left_at m (log ++ [(p, outs)]) = left_at m log ++ if decide (m = p) then collected d p outs else [].
Proof. unfold left_at. rewrite fmap_app, join_app. simpl. by rewrite app_nil_r. Qed.

Lemma order_node n : n ∈ sd_execution_order d → ∃ node, sd_nodes d !! n = Some node ∧ 0 <= n.
Proof.
  intros [node Hn]%Hall. exists node. split; [done|]. destruct (wf_node _ Hwf _ _ Hn) as (_ & _ & ?). lia.
Qed.

(** Outputs only reach nodes that are still to be visited. *)
Lemma no_back_edge done n rest m node outs : sd_execution_order d = done ++ n :: rest →
  sd_nodes d !! n = Some node → m ∈ done ∨ m = n → routed (B:=B) d n m outs = [].
Proof.
  intros Ho Hn Hm. destruct (decide (routed d n m outs = [])) as [|Hne]; [done|exfalso].
  destruct (routed_edge d Hwf n node Hn m outs Hne) as (e & edge & He & Hs & Ht).
  destruct Hm as [Hm| ->]; [|destruct (wf_edge _ Hwf _ _ He) as (_ & _ & ? & _); congruence].
  apply list_elem_of_lookup in Hm as [i Hi]. pose proof (lookup_lt_Some _ _ _ Hi) as Hlt.
  destruct (Htopo i e edge He) as (j & Hj & Hlook).
  { rewrite Ho, Ht. by apply lookup_app_l_Some. }
  assert (j = length done); [|lia]. rewrite Hs in Hlook.
  eapply NoDup_lookup; [exact Hnd|exact Hlook|]. rewrite Ho. by apply list_lookup_middle.
Qed.

Lemma pass_step x0 log x n rest : sd_execution_order d = log.*1 ++ n :: rest → pass_inv x0 log x →
  ∃ x' outs, process_node n x = Some x' ∧ pass_inv x0 (log ++ [(n, outs)]) x'.
Proof.
  intros Ho [P1 P2 P3 P4 P5 P6 P7]. assert (Hno : n ∈ sd_execution_order d) by (rewrite Ho; set_solver).
  destruct (order_node n Hno) as (node & Hn & Hn0).
  pose proof Hnd as Hnd'. rewrite Ho in Hnd'. apply NoDup_app in Hnd' as (_ & Hdis & _).
  assert (Hnew : n ∉ log.*1). { intros Hin. apply (Hdis n Hin). left. }
  destruct (process_node_spec d Hwf Hfan n node Hn x P1) as (x' & q & op & rt & Hq & Hop & Hrt & Hx & Hd).
  cbv zeta in Hd. set (outs := (node_outputs n q op rt).2) in *. exists x', outs. split; [done|].
  destruct Hd as [D1 D2 D3 D4 D5 D6].
  assert (Hback : ∀ m, m ∈ log.*1 ∨ m = n → routed d n m outs = []) by (intros; by eapply no_back_edge).
  assert (Hdone : ∀ m, m ∈ (log ++ [(n, outs)]).*1 ↔ m ∈ log.*1 ∨ m = n).
  { intros m. rewrite fmap_app, elem_of_app. simpl. by rewrite list_elem_of_singleton. }
  assert (Hnn : ∀ m, m ∈ sd_execution_order d → 0 <= m) by (intros m Hm; by destruct (order_node m Hm) as (? & ? & ?)).
  split; [done| | | | | |].
  - intros i p o Hi. apply lookup_snoc_Some in Hi as [Hi|[-> [= <- <-]]].
    + rewrite take_app_le by (apply lookup_lt_Some in Hi; lia).
      destruct (P2 i p o Hi) as (q1 & op1 & rt1 & rt01 & op1' & rt1' & H1 & H2 & H3 & H4 & H5 & H6 & H7).
      assert (Hp : p ∈ log.*1) by (apply list_elem_of_fmap; exists (p, o); split; [done|by eapply list_elem_of_lookup_2]).
      assert (Hp0 : 0 <= p) by (apply Hnn; rewrite Ho; set_solver). assert (Hpn : p ≠ n) by (intros ->; done).
      exists q1, op1, rt1, rt01, op1', rt1'. split_and!; try done.
      * rewrite D2, list_lookup_insert_ne by lia. done.
      * etrans; [by apply D4|done].
    + rewrite take_app_length. pose proof (P3 n Hno Hnew) as Hqn. rewrite Hq in Hqn.
      destruct (ex_input_queues x0 !! Z.to_nat n) as [q0|] eqn:Hq0; [|done]. injection Hqn as Hqn.
      pose proof (P4 n Hno Hnew) as Hopn. pose proof (P5 n Hno Hnew) as Hrtn. rewrite Hrt in Hrtn.
      inversion Hrtn as [? rt0 Hlike Ha Hb|]; subst.
      exists q0, op, rt, rt0, (node_outputs n (q0 ++ arrived n log) op rt).1.1, (node_outputs n (q0 ++ arrived n log) op rt).1.2.
      rewrite <- Hopn. split_and!; try done.
      * unfold outs. by destruct (node_outputs n (q0 ++ arrived n log) op rt) as [[? ?] ?].
      * rewrite D2. apply list_lookup_insert_eq. by eapply lookup_lt_Some.
      * rewrite D3. constructor. reflexivity.
  - intros m Hm Hnm. rewrite Hdone in Hnm. rewrite (D5 m) by by apply Hnn.
    rewrite (P3 m) by tauto. rewrite arrived_snoc. destruct (decide (m = n)); [tauto|].
    destruct (ex_input_queues x0 !! _); simpl; [by rewrite <- app_assoc|done].
  - intros m Hm Hnm. rewrite Hdone in Hnm. specialize (Hnn m Hm). rewrite D2.
    rewrite list_lookup_insert_ne by lia. apply P4; tauto.
  - intros m Hm Hnm. rewrite Hdone in Hnm. specialize (Hnn m Hm).
    assert (Hmn : m ≠ n) by tauto. pose proof (D4 m Hnn Hmn) as H1.
    pose proof (P5 m Hm ltac:(tauto)) as H2. by etrans.
  - intros m Hm%Hdone. assert (Hmo : m ∈ sd_execution_order d) by (rewrite Ho; set_solver).
    rewrite (D5 m) by by apply Hnn. rewrite (Hback m Hm). destruct (decide (m = n)) as [->|Hne].
    + by rewrite Hq.
    + rewrite P6 by tauto. done.
  - intros m Hm. rewrite (D6 m Hm), (P7 m Hm), left_at_snoc.
    destruct (ex_sink_outputs x0 !! _); simpl; [by rewrite <- app_assoc|done].
Qed.

Lemma pass_loop x0 rest : ∀ log x, sd_execution_order d = log.*1 ++ rest → pass_inv x0 log x →
  ∃ x' log', process_nodes rest x = Some x' ∧ pass_inv x0 log' x' ∧ log'.*1 = sd_execution_order d.
Proof.
  induction rest as [|n rest IH]; intros log x Ho Hp; cbn [process_nodes].
  { exists x, log. rewrite app_nil_r in Ho. done. }
  destruct (pass_step x0 log x n rest Ho Hp) as (x1 & outs & -> & Hp1). cbn [mbind option_bind].
  apply (IH (log ++ [(n, outs)])); [|done]. rewrite fmap_app. simpl. by rewrite <- app_assoc.
Qed.

Lemma process_dag_spec x : shape d x → ∃ x' log, process_dag x = Some x' ∧
  log.*1 = sd_execution_order d ∧ pass_inv x log x'.
Proof.
  intros Hs. unfold process_dag. rewrite (sh_order _ _ Hs).
  destruct (pass_loop x (sd_execution_order d) [] x) as (x' & log & Hx & Hp & Hl); [done| |eauto 10].
  split; [done|done| |done| | |].
  - intros m _ _. unfold arrived. simpl. by rewrite fmap_app_nil.
  - intros m _ _. destruct (ex_runtimes x !! Z.to_nat m); constructor. reflexivity.
  - intros m Hm. by apply elem_of_nil in Hm.
  - intros m _. unfold left_at. simpl. by rewrite fmap_app_nil.
Qed.

Definition drained x : Prop := ∀ n, n ∈ sd_execution_order d → ex_input_queues x !! Z.to_nat n = Some [].

Lemma process_dag_drains x : shape d x → ∃ x', process_dag x = Some x' ∧ shape d x' ∧ drained x'.
Proof.
  intros Hs. destruct (process_dag_spec x Hs) as (x' & log & Hx & Hl & Hp). exists x'. split; [done|].
  split; [apply Hp|]. intros n Hn. apply (pi_done _ _ _ Hp). by rewrite Hl.
Qed.

(** *** Timers *)

Lemma poll_timers_total s now : ∃ s' fired, TimerService_poll_timers s now = Some (s', fired).
Proof.
  unfold TimerService_poll_timers.
  destruct (poll_loop_total (S (length (timers s))) (timers s) [] now) as (rest & more & -> & _); [lia|].
  simpl. eauto.
Qed.

Lemma fire_node_total n node now : sd_nodes d !! n = Some node → ∀ fired op rt x, shape d x →
  ∃ op' rt' x', fire_node n now fired op rt x = Some (op', rt', x') ∧ shape d x'.
Proof.
  intros Hn fired. induction fired as [|reg fired IH]; intros op rt x Hs; cbn [fire_node]; [eauto|].
  cbv zeta. destruct (op_on_timer _ _ _) as [[op1 c] outs].
  destruct (route_all_spec d Hwf Hfan n node Hn outs x Hs) as (x1 & -> & R). cbn [mbind option_bind].
  apply IH. apply R.
Qed.

Lemma shape_take_node i x : shape d x → shape d (take_node i x).
Proof. intros Hs. apply shape_set_nodes; [rewrite length_insert; apply Hs..|done]. Qed.
Lemma shape_put_node i op rt x : shape d x → shape d (put_node i op rt x).
Proof. intros Hs. apply shape_set_nodes; [rewrite length_insert; apply Hs..|done]. Qed.

Lemma fire_nodes_total now order : (∀ n, n ∈ order → n ∈ sd_execution_order d) → ∀ x, shape d x →
  ∃ x', fire_nodes order now x = Some x' ∧ shape d x'.
Proof.
  induction order as [|n order IH]; intros Hsub x Hs; cbn [fire_nodes]; [eauto|].
  destruct (order_node n) as (node & Hn & Hn0); [apply Hsub; left|].
  destruct (slot_of_node d n node Hwf Hn) as [_ Hslot].
  enough (∃ x1, fire_node_timers n now x = Some x1 ∧ shape d x1) as (x1 & -> & Hs1).
  { cbn [mbind option_bind]. apply IH; [|done]. intros. apply Hsub. by right. }
  unfold fire_node_timers. rewrite (sh_slots _ _ Hs), decide_False by lia.
  destruct (lookup_lt_is_Some_2 (ex_operators x) (Z.to_nat n)) as [op ->]; [rewrite (sh_ops _ _ Hs); lia|].
  destruct (lookup_lt_is_Some_2 (ex_runtimes x) (Z.to_nat n)) as [rt ->]; [rewrite (sh_rts _ _ Hs); lia|].
  destruct op as [op|]; [destruct rt as [rt|]|];
    [|eexists; split; [done|]; by apply shape_put_node, shape_take_node..].
  destruct (poll_timers_total (nr_timer_service rt) now) as (s' & fired & ->). cbn [mbind option_bind].
  destruct (fire_node_total n node now Hn fired op
    (mkRuntime s' (nr_state_store rt) (nr_watermark_generator rt)) (take_node (Z.to_nat n) x))
    as (op' & rt' & x' & -> & Hs'); [by apply shape_take_node|]. cbn [mbind option_bind].
  eexists. split; [done|]. by apply shape_put_node.
Qed.

Lemma process_watermark_spec n w x : n ∈ sd_execution_order d → shape d x →
  ∃ x', DagExecutor_process_watermark n w x = Some (x', inl tt) ∧ shape d x' ∧ drained x'.
Proof.
  intros Hno Hs. destruct (order_node n Hno) as (node & Hn & Hn0).
  destruct (slot_of_node d n node Hwf Hn) as [_ Hslot]. unfold DagExecutor_process_watermark.
  rewrite (sh_slots _ _ Hs), decide_False by lia.
  destruct (propagate_watermark_spec d n n w x Hs) as (x1 & -> & R). cbn [mbind option_bind].
  unfold DagExecutor_fire_timers. rewrite (sh_order _ _ (ro_shape _ _ _ _ _ R)).
  destruct (fire_nodes_total w (sd_execution_order d) (λ n Hn, Hn) x1 (ro_shape _ _ _ _ _ R)) as (x2 & -> & Hs2).
  cbn [mbind option_bind]. destruct (process_dag_drains x2 Hs2) as (x3 & -> & Hs3 & Hd).
  cbn [mbind option_bind]. eexists. split; [done|]. split; [|done].
  apply shape_set_metrics; [apply Hs3|done].
Qed.

Lemma process_event_spec n e x : n ∈ sd_execution_order d → shape d x →
  ∃ x', DagExecutor_process_event n e x = Some (x', inl tt) ∧ shape d x' ∧ drained x'.
Proof.
  intros Hno Hs. destruct (order_node n Hno) as (node & Hn & Hn0).
  destruct (slot_of_node d n node Hwf Hn) as [_ Hslot]. unfold DagExecutor_process_event.
  rewrite (sh_slots _ _ Hs), decide_False by lia. rewrite vec_alter_Some by (rewrite (sh_queues _ _ Hs); lia).
  cbn [mbind option_bind].
  destruct (process_dag_drains (ex_set_queues (alter (λ q, q ++ [e]) (Z.to_nat n) (ex_input_queues x)) x))
    as (x1 & -> & Hs1 & Hd).
  { apply shape_set_queues; [|done]. by rewrite length_alter, (sh_queues _ _ Hs). }
  cbn [mbind option_bind]. eauto.
Qed.

End Passes.

(** ** Reachable executors *)

Section Reach.
Context {Op B : Type} `{!Operator Op B}.
Context {DataType : Type} `{HO : !HashOrder} `{HL : !HashOrderLaws}.
Context (d : StreamingDag (DataType:=DataType)).

(** Every public call, on an executor for [d]. *)
Inductive ex_reach : DagExecutor (Op:=Op) (B:=B) → Prop :=
  | xr_new : ex_reach (DagExecutor_from_dag d)
  | xr_register x n op : ex_reach x → ex_reach (DagExecutor_register_operator n op x)
  | xr_event x n e x' r : ex_reach x → is_Some (sd_nodes d !! n) → DagExecutor_process_event n e x = Some (x', r) → ex_reach x'
  | xr_watermark x n w x' r : ex_reach x → is_Some (sd_nodes d !! n) → DagExecutor_process_watermark n w x = Some (x', r) → ex_reach x'
  | xr_fire x t x' : ex_reach x → DagExecutor_fire_timers t x = Some x' → ex_reach x'
  | xr_take x n : ex_reach x → ex_reach (DagExecutor_take_sink_outputs n x).1
  | xr_take_all x : ex_reach x → ex_reach (DagExecutor_take_all_sink_outputs x).1
  | xr_reset x : ex_reach x → ex_reach (DagExecutor_reset_metrics x)
  | xr_checkpoint x : ex_reach x → ex_reach (DagExecutor_checkpoint x).1
  | xr_barrier x b : ex_reach x → ex_reach (DagExecutor_process_checkpoint_barrier b x).1
  | xr_restore x states : ex_reach x → ex_reach (DagExecutor_restore states x).1
  | xr_restore_wm x c : ex_reach x → ex_reach (DagExecutor_restore_watermarks c x)
  | xr_inject x n es : ex_reach x → ex_reach (DagExecutor_inject_events n es x).

Context (Hwf : dag_wf d) (Hfan : fan_out_ok d).
Context (Hnd : NoDup (sd_execution_order d)).
Context (Hall : ∀ n, n ∈ sd_execution_order d ↔ is_Some (sd_nodes d !! n)).
Context (Htopo : topo_order d (sd_execution_order d)).

Lemma from_dag_tracker_shape : tracker_shape d (DagWatermarkTracker_from_dag d).
Proof.
  assert (Hr : ∀ edges deps, (∀ e, e ∈ edges → (Z.to_nat (de_source e) < slot_count d)%nat) →
    (∀ i l m, deps !! i = Some l → m ∈ l → (Z.to_nat m < slot_count d)%nat) →
    ∀ i l m, foldl (push_dep (slot_count d)) deps edges !! i = Some l → m ∈ l → (Z.to_nat m < slot_count d)%nat).
  { induction edges as [|e edges IH]; intros deps He Hd; [done|]. simpl. apply IH; [set_solver|].
    intros i l m. unfold push_dep. case_decide; [|by apply Hd].
    destruct (decide (i = Z.to_nat (de_target e))) as [->|Hne].
    - rewrite list_lookup_alter_eq. destruct (deps !! _) as [l0|] eqn:E; [|done]. simpl. intros [= <-].
      rewrite elem_of_app, list_elem_of_singleton. intros [Hm| ->]; [by eapply Hd|apply He; left].
    - rewrite list_lookup_alter_ne by done. by apply Hd. }
  split; simpl.
  - done.
  - by rewrite length_replicate.
  - by rewrite push_deps_length, length_replicate.
  - apply Hr.
    + intros e [k Hk]%elem_of_hash_values. destruct (wf_edge _ Hwf _ _ Hk) as (_ & _ & _ & [sn Hs] & _).
      by eapply slot_of_node.
    + intros i l m [-> _]%lookup_replicate Hm. by apply elem_of_nil in Hm.
Qed.

Lemma from_dag_shape : shape d (DagExecutor_from_dag (Op:=Op) (B:=B) d).
Proof. split; simpl; rewrite ?length_replicate; try done. apply from_dag_tracker_shape. Qed.

Lemma take_sink_shape n x : shape d x → shape d (DagExecutor_take_sink_outputs (Op:=Op) (B:=B) n x).1.
Proof.
  intros Hs. unfold DagExecutor_take_sink_outputs. case_decide; [|done]. simpl.
  apply shape_set_sinks; [rewrite length_insert; apply Hs|done].
Qed.

Lemma take_all_shape sinks : ∀ x (m : gmap Z (list (Event B))), shape d x →
  shape d (foldl (take_one_sink (Op:=Op)) (x, m) sinks).1.
Proof.
  induction sinks as [|n sinks IH]; intros x m Hs; [done|]. simpl. case_decide; [|by apply IH].
  pose proof (take_sink_shape n x Hs) as Ht. destruct (DagExecutor_take_sink_outputs n x) as [x1 es]. by apply IH.
Qed.

Lemma checkpoint_length idxs : ∀ (acc : list (option Op) * gmap Z OperatorState),
  length (foldl (λ acc idx, checkpoint_at idx acc) acc idxs).1 = length acc.1.
Proof.
  induction idxs as [|i idxs IH]; intros acc; [done|]. simpl. rewrite IH. unfold checkpoint_at.
  destruct (acc.1 !! i) as [[op|]|]; [|done..]. destruct (op_checkpoint op). simpl. by rewrite length_insert.
Qed.

Lemma barrier_length slots ns : ∀ (acc : list (option Op) * gmap Z OperatorState),
  length (foldl (barrier_at slots) acc ns).1 = length acc.1.
Proof.
  induction ns as [|i ns IH]; intros acc; [done|]. simpl. rewrite IH. unfold barrier_at. case_decide; [|done].
  destruct (acc.1 !! _) as [[op|]|]; [|done..]. destruct (op_checkpoint op). simpl. by rewrite length_insert.
Qed.

Lemma restore_length slots states : ∀ ops : list (option Op),
  length (restore_loop states slots ops).1 = length ops.
Proof.
  induction states as [|[n st] states IH]; intros ops; [done|]. simpl. case_decide; [|done].
  destruct (ops !! _) as [[op|]|]; [|done..]. destruct (op_restore op st) as [op' [|]];
    [rewrite IH|simpl]; by rewrite length_insert.
Qed.

Lemma fire_timers_shape t x x' : shape d x → DagExecutor_fire_timers t x = Some x' → shape d x'.
Proof.
  intros Hs. unfold DagExecutor_fire_timers. rewrite (sh_order _ _ Hs).
  destruct (fire_nodes_total d Hwf Hfan Hall t (sd_execution_order d) (λ n Hn, Hn) x Hs) as (x2 & -> & Hs2).
  cbn [mbind option_bind]. destruct (process_dag_drains d Hwf Hfan Hnd Hall Htopo x2 Hs2) as (x3 & -> & Hs3 & _).
  by intros [= <-].
Qed.

Lemma ex_reach_shape x : ex_reach x → shape d x.
Proof.
  induction 1 as [|x n op _ IH|x n e x' r _ IH Hn Hx|x n w x' r _ IH Hn Hx|x t x' _ IH Hx|x n _ IH|x _ IH|x _ IH
    |x _ IH|x b _ IH|x states _ IH|x c _ IH|x n es _ IH].
  - apply from_dag_shape.
  - unfold DagExecutor_register_operator. case_decide; [|done].
    apply shape_set_nodes; [rewrite length_insert|..]; apply IH.
  - destruct (process_event_spec d Hwf Hfan Hnd Hall Htopo n e x) as (x1 & Hx1 & Hs & _); [by apply Hall|done|].
    rewrite Hx in Hx1. by injection Hx1 as -> _.
  - destruct (process_watermark_spec d Hwf Hfan Hnd Hall Htopo n w x) as (x1 & Hx1 & Hs & _); [by apply Hall|done|].
    rewrite Hx in Hx1. by injection Hx1 as -> _.
  - by eapply fire_timers_shape.
  - by apply take_sink_shape.
  - by apply take_all_shape.
  - apply shape_set_metrics; [rewrite length_fmap|]; apply IH.
  - unfold DagExecutor_checkpoint. pose proof (checkpoint_length (seq 0 (length (ex_operators x))) (ex_operators x, ∅)) as Hl.
    destruct (foldl _ _ _) as [ops states]. apply shape_set_nodes; [simpl in Hl; rewrite Hl| |]; apply IH.
  - unfold DagExecutor_process_checkpoint_barrier.
    pose proof (barrier_length (ex_slot_count x) (ex_execution_order x) (ex_operators x, ∅)) as Hl.
    destruct (foldl _ _ _) as [ops states]. apply shape_set_nodes; [simpl in Hl; rewrite Hl| |]; apply IH.
  - unfold DagExecutor_restore. pose proof (restore_length (ex_slot_count x) (hash_iter states) (ex_operators x)) as Hl.
    destruct (restore_loop _ _ _) as [ops r]. apply shape_set_nodes; [simpl in Hl; rewrite Hl| |]; apply IH.
  - apply shape_set_tracker; [|done]. destruct (sh_tracker _ _ IH) as [T1 T2 T3 T4]. split; try done. simpl.
    rewrite length_app, length_take, length_drop, T1, T2. lia.
  - unfold DagExecutor_inject_events. case_decide; [|done].
    apply shape_set_queues; [rewrite length_alter|]; apply IH.
Qed.

End Reach.

(** ** Properties *)

Section Properties.
Context {Op B : Type} `{!Operator Op B}.
Context {DataType : Type} `{HO : !HashOrder} `{HL : !HashOrderLaws}.

(** The executor of a finalized dag never panics and never leaves work
    behind: with any operators and after any sequence of calls, processing an
    event or a watermark at a node of the dag succeeds and ends with every input
    queue empty. *)
Theorem executor_drains (d d' : StreamingDag (DataType:=DataType)) (x : DagExecutor (Op:=Op) (B:=B)) n e w :
  dag_reach d → StreamingDag_finalize d = Some (d', inl tt) → ex_reach d' x →
  is_Some (sd_nodes d' !! n) →
  (∃ x', DagExecutor_process_event n e x = Some (x', inl tt) ∧
     ∀ m, is_Some (sd_nodes d' !! m) → ex_input_queues x' !! Z.to_nat m = Some []) ∧
  (∃ x', DagExecutor_process_watermark n w x = Some (x', inl tt) ∧
     ∀ m, is_Some (sd_nodes d' !! m) → ex_input_queues x' !! Z.to_nat m = Some []).
Proof.
  intros Hd Hf Hx Hn. destruct (finalized_order d d' (dag_reach_wf d Hd) Hf) as (Hnd & Hall & Ht).
  destruct (finalized_fan_out d d' Hd Hf) as [Hwf Hfan].
  pose proof (ex_reach_shape d' Hwf Hfan Hnd Hall Ht x Hx) as Hs. split.
  - destruct (process_event_spec d' Hwf Hfan Hnd Hall Ht n e x) as (x' & Hx' & _ & Hdr); [by apply Hall|done|].
    exists x'. split; [done|]. intros m Hm. by apply Hdr, Hall.
  - destruct (process_watermark_spec d' Hwf Hfan Hnd Hall Ht n w x) as (x' & Hx' & _ & Hdr); [by apply Hall|done|].
    exists x'. split; [done|]. intros m Hm. by apply Hdr, Hall.
Qed.

(** [C4]: A pass over the dag routes without loss, duplication or reordering.
    Every node is visited once, in execution order; it consumes what was in its
    queue followed by the events that the nodes visited before it emitted, each
    once per edge; its outputs are those of its operator run on these events, on
    its own timers and state; late events, side outputs and changelog records stay
    at the node, and so do the events of a node without outgoing edges. After the
    pass every queue is empty, and every node keeps the operator, timers and state
    that its run left. *)
Theorem dag_pass_dataflow (d d' : StreamingDag (DataType:=DataType)) (x : DagExecutor (Op:=Op) (B:=B)) :
  dag_reach d → StreamingDag_finalize d = Some (d', inl tt) → ex_reach d' x →
  ∃ x' log, process_dag x = Some x' ∧ log.*1 = sd_execution_order d' ∧
    (∀ i p outs, log !! i = Some (p, outs) → ∃ q op rt rt0 op' rt',
       ex_input_queues x !! Z.to_nat p = Some q ∧ ex_operators x !! Z.to_nat p = Some op ∧
       ex_runtimes x !! Z.to_nat p = Some rt0 ∧ rt_like rt rt0 ∧
       node_outputs p (q ++ arrived d' p (take i log)) op rt = (op', rt', outs) ∧
       ex_operators x' !! Z.to_nat p = Some op' ∧ option_Forall2 rt_like (ex_runtimes x' !! Z.to_nat p) (Some rt')) ∧
    (∀ n, is_Some (sd_nodes d' !! n) → ex_input_queues x' !! Z.to_nat n = Some []) ∧
    (∀ n, is_Some (sd_nodes d' !! n) → ex_sink_outputs x' !! Z.to_nat n =
       (λ q, q ++ left_at d' n log) <$> ex_sink_outputs x !! Z.to_nat n).
Proof.
  intros Hd Hf Hx. destruct (finalized_order d d' (dag_reach_wf d Hd) Hf) as (Hnd & Hall & Ht).
  destruct (finalized_fan_out d d' Hd Hf) as [Hwf Hfan].
  pose proof (ex_reach_shape d' Hwf Hfan Hnd Hall Ht x Hx) as Hs.
  destruct (process_dag_spec d' Hwf Hfan Hnd Hall Ht x Hs) as (x' & log & Hp & Hl & [P1 P2 P3 P4 P5 P6 P7]).
  exists x', log. split_and!; [done|done|done| |].
  - intros n Hn. apply P6. rewrite Hl. by apply Hall.
  - intros n [node Hn]. apply P7. by eapply slot_of_node.
Qed.

End Properties.

(** *** Examples: counting windows in a dag *)

#[local] Existing Instance Count_archive.
#[local] Existing Instance windows_archive.
#[local] Existing Instance windows_pair_archive.
#[local] Existing Instance Count_aggregator.

(** The tumbling window operator as an operator of the executor. *)
#[local] Instance count_operator : Operator (TumblingWindowOperator (Agg:=CountAggregator) (B:=Z)) Z := {
  op_process op e c := TumblingOp.process count_batch clock0 op e c;
  op_on_timer op t c := TumblingOp.on_timer count_batch op t c;
  op_checkpoint op := (op, TumblingOp.checkpoint elements op);
  op_restore op s := TumblingOp.restore op s }.

(** Two sources feed one window, which feeds a sink. *)
Definition join_dag : StreamingDag (DataType:=bool) :=
  add_edges [(0, 2); (1, 2); (2, 3)]
    (add_nodes [("a", NSource); ("b", NSource); ("win", NStatefulOperator); ("out", NSink)] StreamingDag_new).
Definition join_final : StreamingDag (DataType:=bool) :=
  match StreamingDag_finalize join_dag with Some (d', _) => d' | None => join_dag end.
Lemma join_reach : dag_reach join_dag.
Proof.
  apply add_edges_reach; [apply add_nodes_reach; [apply reach_new|vm_compute; congruence]|].
  vm_compute. congruence.
Qed.
Lemma join_finalized : StreamingDag_finalize join_dag = Some (join_final, inl tt).
Proof. vm_compute. reflexivity. Qed.

Definition join_executor : DagExecutor (Op:=TumblingWindowOperator (Agg:=CountAggregator) (B:=Z)) (B:=Z) :=
  DagExecutor_register_operator 2 (count_op OnWatermark) (DagExecutor_from_dag join_final).

Lemma executor_drains_witness :
  ∃ x', DagExecutor_process_event 0 (mkEvent 100 7) join_executor = Some (x', inl tt) ∧
    ex_input_queues x' !! 2%nat = Some [].
Proof.
  destruct (executor_drains join_dag join_final join_executor 0 (mkEvent 100 7) 5) as [(x' & Hx & Hd) _].
  - exact join_reach.
  - exact join_finalized.
  - apply xr_register, xr_new.
  - eexists; vm_compute; reflexivity.
  - exists x'. split; [exact Hx|]. apply (Hd 2). eexists; vm_compute; reflexivity.
Defined.

Lemma dag_pass_dataflow_witness :
  ∃ x' log, process_dag (DagExecutor_inject_events 1 [mkEvent 100 7] join_executor) = Some x' ∧
    log.*1 = [0; 1; 2; 3] ∧ ex_input_queues x' !! 1%nat = Some [] ∧ arrived join_final 2 (take 2 log) = [mkEvent 100 7].
Proof.
  destruct (dag_pass_dataflow join_dag join_final (DagExecutor_inject_events 1 [mkEvent 100 7] join_executor))
    as (x' & log & Hx & Hl & Hlog & Hqs & _).
  - exact join_reach.
  - exact join_finalized.
  - apply xr_inject, xr_register, xr_new.
  - exists x', log. split; [exact Hx|]. assert (Hl' : log.*1 = [0; 1; 2; 3]) by exact Hl. split; [exact Hl'|].
    split; [apply (Hqs 1); eexists; vm_compute; reflexivity|].
    destruct log as [|[p0 o0] [|[p1 o1] log]]; [discriminate..|]. simpl in Hl'. injection Hl' as -> -> _.
    destruct (Hlog 0%nat 0 o0 eq_refl) as (q0 & op0 & rt0 & r0 & op0' & rt0' & Hq0 & Hop0 & _ & _ & Ho0 & _).
    vm_compute in Hq0, Hop0. injection Hq0 as <-. injection Hop0 as <-.
    assert (o0 = []) as -> by (injection Ho0 as _ _ <-; reflexivity). clear Ho0.
    destruct (Hlog 1%nat 1 o1 eq_refl) as (q1 & op1 & rt1 & r1 & op1' & rt1' & Hq1 & Hop1 & _ & _ & Ho1 & _).
    vm_compute in Hq1, Hop1. injection Hq1 as <-. injection Hop1 as <-.
    assert (o1 = [OutEvent (mkEvent 100 7)]) as -> by (vm_compute in Ho1; by injection Ho1 as _ _ <-). reflexivity.
Defined.

Inductive ex_call :=
  | CallEvent (node : Z) (e : Event Z)
  | CallWatermark (node wm : Z).
Fixpoint ex_run (calls : list ex_call)
    (x : DagExecutor (Op:=TumblingWindowOperator (Agg:=CountAggregator) (B:=Z)) (B:=Z)) :=
  match calls with
  | [] => Some x
  | CallEvent n e :: calls => '(x, _) ← DagExecutor_process_event n e x; ex_run calls x
  | CallWatermark n w :: calls => '(x, _) ← DagExecutor_process_watermark n w x; ex_run calls x
  end.

(** Source [a] delivers an event and its watermark 1000, source [b] nothing yet. *)
Definition fast_source : list ex_call := [CallEvent 0 (mkEvent 100 7); CallWatermark 0 1000].
(** Then [b] delivers an event of the same window, in time, and its watermark. *)
Definition slow_source : list ex_call := [CallEvent 1 (mkEvent 500 7); CallWatermark 1 1000].

(** [process_watermark] fires the timers of every node at the watermark of
    one source, not at the node's own watermark. At a window behind two sources
    the watermark of the faster one closes the window although the combined
    watermark of its inputs is still unset; an event of the slower source that is
    not late then opens the same window again, and the window is emitted twice,
    each time with a part of its events. *)
Theorem executor_fires_ahead_of_slow_input :
  (λ x, (DagWatermarkTracker_effective_watermark (ex_watermark_tracker x) 2,
         ex_sink_outputs x !! 3%nat)) <$> ex_run fast_source join_executor =
    Some (Some None, Some [mkEvent 1000 1]) ∧
  (λ x, (DagWatermarkTracker_effective_watermark (ex_watermark_tracker x) 2,
         ex_sink_outputs x !! 3%nat)) <$> ex_run (fast_source ++ slow_source) join_executor =
    Some (Some (Some 1000), Some [mkEvent 1000 1; mkEvent 1000 1]).
Proof. vm_compute. split; reflexivity. Qed.
