(* ===== verification/RingBuffer.v ===== *)
(** * The lock-free ring: [SpscQueue] and the buffer of the channels

    alloc/spsc.rs and streaming/ring_buffer.rs hold the same algorithm: a slice
    of uninitialised slots with a head, moved by the consumer, and a tail, moved by
    the producer; one slot stays free. The sequential operations are translated
    first; then [push], [pop] and the batch operations are split at their atomic
    accesses, and a step relation interleaves one producer with one consumer in
    every way. The interleavings are sequentially consistent: the orderings of the
    code (release stores, acquire loads of the other side's index) make the
    operations on a slot ordered by the index that publishes it.

    A slot holds [None] while it is uninitialised or its item was moved out. [None]
    as the result of an operation is undefined behaviour or a panic: reading such a
    slot, or indexing outside of the slice. *)

From S2P Require Import Prelude.

(** [usize::next_power_of_two] of a release build. *)
Definition next_power_of_two (n : Z) : Z := wrap_u64 (2 ^ Z.log2_up n).

Definition MIN_BUFFER_SIZE : Z := 4.
Definition MAX_BUFFER_SIZE : Z := 1048576.
Definition clamp (lo hi n : Z) : Z := Z.max lo (Z.min hi n).

Record SpscQueue {T : Type} := mkQueue {
  sq_buffer : list (option T);
  sq_head : Z;
  sq_tail : Z;
  sq_capacity_mask : Z }.
Arguments SpscQueue : clear implicits.
Arguments mkQueue {T}.

Section Spsc.
Context {T : Type}.
Implicit Types q : SpscQueue T.

Definition ring_of_capacity (capacity : Z) : SpscQueue T :=
  mkQueue (replicate (Z.to_nat capacity) None) 0 0 (u64_sub capacity 1).

Definition SpscQueue_new (capacity : Z) : option (SpscQueue T) :=
  if 0 <? capacity then Some (ring_of_capacity (next_power_of_two capacity)) else None.

Definition SpscQueue_capacity q : Z := u64_add (sq_capacity_mask q) 1.
Definition SpscQueue_next_index q (index : Z) : Z := Z.land (u64_add index 1) (sq_capacity_mask q).
Definition SpscQueue_is_empty q : bool := sq_head q =? sq_tail q.
Definition SpscQueue_is_full q : bool := SpscQueue_next_index q (sq_tail q) =? sq_head q.
Definition SpscQueue_len q : Z := Z.land (u64_sub (sq_tail q) (sq_head q)) (sq_capacity_mask q).

(** The accesses to memory. [assume_init_read] moves the item out of its slot. *)
Definition set_head (h : Z) q : SpscQueue T := mkQueue (sq_buffer q) h (sq_tail q) (sq_capacity_mask q).
Definition set_tail (t : Z) q : SpscQueue T := mkQueue (sq_buffer q) (sq_head q) t (sq_capacity_mask q).
Definition set_slot (i : Z) (c : option T) q : SpscQueue T :=
  mkQueue (<[Z.to_nat i := c]> (sq_buffer q)) (sq_head q) (sq_tail q) (sq_capacity_mask q).
Definition slot_write (i : Z) (item : T) q : option (SpscQueue T) :=
  match sq_buffer q !! Z.to_nat i with
  | None => None
  | Some _ => Some (set_slot i (Some item) q)
  end.
Definition slot_read (i : Z) q : option (T * SpscQueue T) :=
  match sq_buffer q !! Z.to_nat i with
  | Some (Some item) => Some (item, set_slot i None q)
  | _ => None
  end.

(** ** Sequential operations *)

Definition SpscQueue_push (item : T) q : option (SpscQueue T * (unit + T)) :=
  let tail := sq_tail q in
  let next_tail := SpscQueue_next_index q tail in
  if next_tail =? sq_head q then Some (q, inr item)
  else match slot_write tail item q with
       | None => None
       | Some q => Some (set_tail next_tail q, inl tt)
       end.

Definition SpscQueue_pop q : option (SpscQueue T * option T) :=
  let head := sq_head q in
  if head =? sq_tail q then Some (q, None)
  else match slot_read head q with
       | None => None
       | Some (item, q) => Some (set_head (SpscQueue_next_index q head) q, Some item)
       end.

Definition SpscQueue_peek q : option (option T) :=
  let head := sq_head q in
  if head =? sq_tail q then Some None
  else match sq_buffer q !! Z.to_nat head with
       | Some (Some item) => Some (Some item)
       | _ => None
       end.

Fixpoint SpscQueue_push_batch (items : list T) q : option (SpscQueue T * Z) :=
  match items with
  | [] => Some (q, 0)
  | item :: items =>
      match SpscQueue_push item q with
      | None => None
      | Some (q, inr _) => Some (q, 0)
      | Some (q, inl _) => prod_map id (Z.add 1) <$> SpscQueue_push_batch items q
      end
  end.

Fixpoint SpscQueue_pop_batch (max_count : nat) q : option (SpscQueue T * list T) :=
  match max_count with
  | O => Some (q, [])
  | S max_count =>
      match SpscQueue_pop q with
      | None => None
      | Some (q, None) => Some (q, [])
      | Some (q, Some item) => prod_map id (cons item) <$> SpscQueue_pop_batch max_count q
      end
  end.

(** The number of items between two indices, as the batch operations compute it. *)
Definition available q (head tail : Z) : Z :=
  if head <=? tail then tail - head else (sq_capacity_mask q + 1) - head + tail.

(** The loop of [pop_each]: the items read are kept in order. The callback may
    have state: its answer is a function of the items it was given so far. *)
Fixpoint pop_each_loop (to_pop : nat) (f : list T → bool) (current_head : Z) (items : list T) q
  : option (SpscQueue T * Z * list T) :=
  match to_pop with
  | O => Some (q, current_head, items)
  | S to_pop =>
      match slot_read current_head q with
      | None => None
      | Some (item, q) =>
          let current_head := SpscQueue_next_index q current_head in
          if f (items ++ [item]) then pop_each_loop to_pop f current_head (items ++ [item]) q
          else Some (q, current_head, items ++ [item])
      end
  end.

(** The items given to the callback; the count returned is their number. *)
Definition SpscQueue_pop_each (max_count : Z) (f : list T → bool) q : option (SpscQueue T * list T) :=
  if max_count =? 0 then Some (q, [])
  else
    let to_pop := Z.min (available q (sq_head q) (sq_tail q)) max_count in
    if to_pop =? 0 then Some (q, [])
    else match pop_each_loop (Z.to_nat to_pop) f (sq_head q) [] q with
         | None => None
         | Some (q, current_head, items) => Some (set_head current_head q, items)
         end.

(** [pop_batch_into] fills a prefix of the caller's buffer of [buffer_len] slots. *)
Definition SpscQueue_pop_batch_into (buffer_len : Z) q : option (SpscQueue T * list T) :=
  if buffer_len =? 0 then Some (q, [])
  else
    let count := Z.min (available q (sq_head q) (sq_tail q)) buffer_len in
    if count =? 0 then Some (q, [])
    else match pop_each_loop (Z.to_nat count) (λ _, true) (sq_head q) [] q with
         | None => None
         | Some (q, current_head, items) => Some (set_head current_head q, items)
         end.

(** [while self.pop().is_some() {}]: the items dropped. The fuel is the number of
    slots; [None] also when it runs out. *)
Fixpoint drain_loop (fuel : nat) q : option (SpscQueue T * list T) :=
  match SpscQueue_pop q with
  | None => None
  | Some (q, None) => Some (q, [])
  | Some (q, Some item) =>
      match fuel with
      | O => None
      | S fuel => prod_map id (cons item) <$> drain_loop fuel q
      end
  end.
Definition SpscQueue_drop q : option (SpscQueue T * list T) := drain_loop (length (sq_buffer q)) q.

End Spsc.

(** ** The buffer of the channels

    The same queue with a capacity between 4 and 2^20 and a counter of claimed
    slots; the operations that do not touch the counter repeat those above. *)

Record RingBuffer {T : Type} := mkRing { rb_queue : SpscQueue T; rb_claim_counter : Z }.
Arguments RingBuffer : clear implicits.
Arguments mkRing {T}.

Section Ring.
Context {T : Type}.
Implicit Types b : RingBuffer T.

Definition RingBuffer_new (capacity : Z) : option (RingBuffer T) :=
  if 0 <? capacity then
    let capacity := next_power_of_two (clamp MIN_BUFFER_SIZE MAX_BUFFER_SIZE capacity) in
    Some (mkRing (ring_of_capacity capacity) 0)
  else None.

Definition RingBuffer_capacity b : Z := SpscQueue_capacity (rb_queue b).
Definition RingBuffer_is_empty b : bool := SpscQueue_is_empty (rb_queue b).
Definition RingBuffer_is_full b : bool := SpscQueue_is_full (rb_queue b).
Definition RingBuffer_len b : Z := SpscQueue_len (rb_queue b).
Definition RingBuffer_free_slots b : Z :=
  u64_sub (u64_sub (RingBuffer_capacity b) 1) (RingBuffer_len b).

Definition with_queue {A : Type} b (r : option (SpscQueue T * A)) : option (RingBuffer T * A) :=
  prod_map (λ q, mkRing q (rb_claim_counter b)) id <$> r.
Definition RingBuffer_push (item : T) b := with_queue b (SpscQueue_push item (rb_queue b)).
Definition RingBuffer_pop b := with_queue b (SpscQueue_pop (rb_queue b)).
Definition RingBuffer_peek b := SpscQueue_peek (rb_queue b).
Definition RingBuffer_push_batch (items : list T) b := with_queue b (SpscQueue_push_batch items (rb_queue b)).
Definition RingBuffer_pop_batch (n : nat) b := with_queue b (SpscQueue_pop_batch n (rb_queue b)).
Definition RingBuffer_pop_each (n : Z) (f : list T → bool) b :=
  with_queue b (SpscQueue_pop_each n f (rb_queue b)).
Definition RingBuffer_pop_batch_into (n : Z) b := with_queue b (SpscQueue_pop_batch_into n (rb_queue b)).
Definition RingBuffer_drop b := with_queue b (SpscQueue_drop (rb_queue b)).
Definition RingBuffer_reset b : option (RingBuffer T * list T) :=
  match SpscQueue_drop (rb_queue b) with
  | None => None
  | Some (q, items) => Some (mkRing (set_tail 0 (set_head 0 q)) 0, items)
  end.

(** Claiming for several producers: [fetch_add], the check, and [fetch_sub] when
    the claim is undone. [usize] has 64 bits, so the conversion cannot fail. *)
Definition RingBuffer_claim_slot b : RingBuffer T * option Z :=
  let claim := rb_claim_counter b in
  let slot := Z.land claim (sq_capacity_mask (rb_queue b)) in
  let pending := u64_sat_sub claim (sq_tail (rb_queue b)) in
  if u64_sub (RingBuffer_capacity b) 1 <=? pending then
    (mkRing (rb_queue b) (u64_sub (u64_add claim 1) 1), None)
  else (mkRing (rb_queue b) (u64_add claim 1), Some slot).

Definition RingBuffer_write_slot (slot : Z) (item : T) b : option (RingBuffer T) :=
  (λ q, mkRing q (rb_claim_counter b)) <$> slot_write slot item (rb_queue b).

Definition RingBuffer_try_advance_tail (target_tail : Z) b : RingBuffer T * bool :=
  let current_tail := sq_tail (rb_queue b) in
  if target_tail =? SpscQueue_next_index (rb_queue b) current_tail
  then (mkRing (set_tail target_tail (rb_queue b)) (rb_claim_counter b), true)
  else (b, false).

End Ring.

(** ** What the slots hold *)

Section Contents.
Context {T : Type}.
Implicit Types q : SpscQueue T.

(** Capacity [2^k]. *)
Definition ring_cap q (cap : Z) : Prop :=
  ∃ k, 0 <= k < 64 ∧ cap = 2 ^ k ∧ sq_capacity_mask q = cap - 1 ∧ zlen (sq_buffer q) = cap ∧
       0 <= sq_head q < cap ∧ 0 <= sq_tail q < cap.

(** The slot [i] places after the head, when the queue holds [xs], the consumer
    has moved the first [r] items out without having moved the head yet, and the
    producer has written [w] without having published it. *)
Definition slot_at (xs : list T) (r : nat) (w : option T) (i : nat) : option T :=
  if decide (i < r)%nat then None else (xs ++ option_list w) !! i.

Record ring_inv (cap : Z) (xs : list T) (r : nat) (w : option T) q : Prop := {
  ri_cap : ring_cap q cap;
  ri_tail : sq_tail q = (sq_head q + zlen xs) mod cap;
  ri_read : (r <= length xs)%nat;
  ri_room : zlen (xs ++ option_list w) < cap;
  ri_slots : ∀ i : nat, Z.of_nat i < cap →
    sq_buffer q !! Z.to_nat ((sq_head q + Z.of_nat i) mod cap) = Some (slot_at xs r w i) }.

(** Between two operations. *)
Definition ring_holds (cap : Z) (xs : list T) q : Prop := ring_inv cap xs 0 None q.

Lemma ring_cap_pos q cap : ring_cap q cap → 1 <= cap <= 2 ^ 63.
Proof.
  intros (k & Hk & -> & _). split.
  - change 1 with (2 ^ 0) at 1. apply Z.pow_le_mono_r; lia.
  - apply Z.pow_le_mono_r; lia.
Qed.

Lemma mask_mod q cap i : ring_cap q cap → Z.land i (sq_capacity_mask q) = i mod cap.
Proof.
  intros (k & Hk & -> & -> & _). rewrite <- Z.land_ones by lia. f_equal.
  rewrite Z.ones_equiv. lia.
Qed.

Lemma next_index_mod q cap i : ring_cap q cap → 0 <= i < cap →
  SpscQueue_next_index q i = (i + 1) mod cap.
Proof.
  intros Hc Hi. pose proof (ring_cap_pos _ _ Hc). unfold SpscQueue_next_index, u64_add.
  rewrite (mask_mod _ _ _ Hc), wrap_u64_small; [done|].
  unfold is_u64. assert (2 ^ 63 < u64_MOD) by done. lia.
Qed.

Lemma mod_offset_inj cap h i j : 0 < cap → 0 <= i < cap → 0 <= j < cap →
  (h + i) mod cap = (h + j) mod cap → i = j.
Proof.
  intros Hc Hi Hj H.
  assert (Hd : ((h + i) - (h + j)) mod cap = 0) by (rewrite Zminus_mod, H, Z.sub_diag; done).
  replace (h + i - (h + j)) with (i - j) in Hd by lia.
  destruct (Z.lt_trichotomy i j) as [?|[?|?]]; [|done|].
  - rewrite <- (Z.mod_add _ 1) in Hd by lia. rewrite Z.mod_small in Hd; lia.
  - rewrite Z.mod_small in Hd; lia.
Qed.

Lemma offset_mod_mod cap h a b : 0 < cap → ((h + a) mod cap + b) mod cap = (h + (a + b)) mod cap.
Proof. intros. rewrite Z.add_mod_idemp_l by lia. f_equal. lia. Qed.

(** The three index comparisons of the code. *)
Lemma ring_empty_iff cap xs r w q : ring_inv cap xs r w q →
  sq_head q = sq_tail q ↔ xs = [].
Proof.
  intros [Hc Ht Hr Hroom _]. pose proof (ring_cap_pos _ _ Hc) as Hp.
  rewrite length_app in Hroom. destruct Hc as (k & ? & ? & ? & ? & Hh & ?). rewrite Ht. split.
  - intros He. destruct xs as [|x xs]; [done|]. exfalso.
    rewrite <- (Z.mod_small (sq_head q) cap) in He at 1 by done.
    replace (sq_head q) with (sq_head q + 0) in He at 1 by lia.
    apply mod_offset_inj in He; simpl in *; lia.
  - intros ->. simpl. rewrite Z.add_0_r. symmetry. by apply Z.mod_small.
Qed.

Lemma ring_full_iff cap xs r q : ring_inv cap xs r None q →
  SpscQueue_next_index q (sq_tail q) = sq_head q ↔ zlen xs + 1 = cap.
Proof.
  intros [Hc Ht Hr Hroom _]. pose proof (ring_cap_pos _ _ Hc) as Hp.
  simpl in Hroom. rewrite app_nil_r in Hroom.
  rewrite (next_index_mod _ _ _ Hc) by (destruct Hc as (?&?&?&?&?&?&?); done).
  destruct Hc as (k & ? & ? & ? & ? & Hh & ?). rewrite Ht, offset_mod_mod by lia. split.
  - intros He. destruct (Z.eq_dec (zlen xs + 1) cap) as [|Hne]; [done|]. exfalso.
    rewrite <- (Z.mod_small (sq_head q) cap) in He at 2 by done.
    replace (sq_head q) with (sq_head q + 0) in He at 2 by lia.
    apply mod_offset_inj in He; lia.
  - intros ->. rewrite <- (Z.mod_small (sq_head q) cap) at 2 by done.
    replace (sq_head q + cap) with (sq_head q + 1 * cap) by lia. apply Z.mod_add. lia.
Qed.

Lemma ring_available cap xs r w q : ring_inv cap xs r w q →
  available q (sq_head q) (sq_tail q) = zlen xs.
Proof.
  intros [Hc Ht Hr Hroom _]. pose proof (ring_cap_pos _ _ Hc) as Hp.
  rewrite length_app in Hroom. destruct Hc as (k & ? & ? & Hm & ? & Hh & ?).
  unfold available. rewrite Hm, Ht.
  destruct (Z.lt_ge_cases (sq_head q + zlen xs) cap) as [Hlt|Hge].
  - rewrite (Z.mod_small (_ + _)) by lia. zcase; lia.
  - rewrite <- (Z.mod_add _ (-1)) by lia. rewrite Z.mod_small by lia. zcase; lia.
Qed.

Lemma ring_len_eq cap xs r w q : ring_inv cap xs r w q → SpscQueue_len q = zlen xs.
Proof.
  intros [Hc Ht Hr Hroom _]. pose proof (ring_cap_pos _ _ Hc) as Hp.
  rewrite length_app in Hroom. unfold SpscQueue_len, u64_sub, wrap_u64.
  rewrite (mask_mod _ _ _ Hc). destruct Hc as (k & Hk & Hcap & Hm & ? & Hh & ?).
  rewrite <- Znumtheory.Zmod_div_mod; [|lia|done|].
  - rewrite Ht, Zminus_mod_idemp_l. replace (sq_head q + zlen xs - sq_head q) with (zlen xs) by lia.
    apply Z.mod_small. lia.
  - exists (2 ^ (64 - k)). rewrite Hcap, <- Z.pow_add_r by lia. change u64_MOD with (2 ^ 64).
    f_equal. lia.
Qed.

(** The four changes of the shared state. *)

Lemma ring_write cap xs r q item : ring_inv cap xs r None q → zlen xs + 1 < cap →
  ∃ q', slot_write (sq_tail q) item q = Some q' ∧ ring_inv cap xs r (Some item) q' ∧
        sq_head q' = sq_head q ∧ sq_tail q' = sq_tail q ∧ sq_capacity_mask q' = sq_capacity_mask q.
Proof.
  intros [Hc Ht Hr Hroom Hs] Hlt. pose proof (ring_cap_pos _ _ Hc) as Hp.
  unfold slot_write. rewrite Ht, (Hs (length xs)) by lia. eexists. split; [done|].
  split; [|done]. destruct Hc as (k & ? & ? & Hm & Hl & Hh & ?). split; simpl.
  - exists k. unfold set_slot. simpl. rewrite length_insert. done.
  - done.
  - done.
  - rewrite length_app. simpl. lia.
  - intros i Hi. unfold slot_at. simpl. destruct (decide (i = length xs)) as [->|Hne].
    + rewrite list_lookup_insert_eq by (pose proof (Hs (length xs) Hi) as ?%lookup_lt_Some; lia).
      rewrite decide_False by lia. by rewrite list_lookup_middle.
    + rewrite list_lookup_insert_ne.
      * rewrite Hs by lia. unfold slot_at. simpl. rewrite app_nil_r. case_decide; [done|].
        rewrite lookup_app. destruct (xs !! i) eqn:E; [done|]. apply lookup_ge_None in E.
        f_equal. symmetry. apply lookup_ge_None. simpl. lia.
      * intros He. apply Z2Nat.inj in He; [|apply Z.mod_pos_bound; lia..].
        apply mod_offset_inj in He; lia.
Qed.

Lemma ring_publish cap xs r q item : ring_inv cap xs r (Some item) q →
  ring_inv cap (xs ++ [item]) r None (set_tail ((sq_tail q + 1) mod cap) q).
Proof.
  intros [Hc Ht Hr Hroom Hs]. pose proof (ring_cap_pos _ _ Hc) as Hp.
  destruct Hc as (k & ? & ? & Hm & Hl & Hh & ?). split; simpl.
  - pose proof (Z.mod_pos_bound (sq_tail q + 1) cap ltac:(lia)). exists k. done.
  - rewrite Ht, offset_mod_mod, length_app by lia. f_equal. simpl. lia.
  - rewrite length_app. lia.
  - by rewrite app_nil_r.
  - intros i Hi. rewrite Hs by done. unfold slot_at. simpl. by rewrite app_nil_r.
Qed.

Lemma ring_read_next cap xs r w q x : ring_inv cap xs r w q → xs !! r = Some x →
  ∃ q', slot_read ((sq_head q + Z.of_nat r) mod cap) q = Some (x, q') ∧ ring_inv cap xs (S r) w q' ∧
        sq_head q' = sq_head q ∧ sq_tail q' = sq_tail q ∧ sq_capacity_mask q' = sq_capacity_mask q.
Proof.
  intros [Hc Ht Hr Hroom Hs] Hx. pose proof (ring_cap_pos _ _ Hc) as Hp.
  pose proof (lookup_lt_Some _ _ _ Hx) as Hlt. rewrite length_app in Hroom.
  unfold slot_read. rewrite Hs by lia. unfold slot_at at 1. rewrite decide_False by lia.
  rewrite (lookup_app_l_Some _ _ _ _ Hx). eexists. split; [done|]. split; [|done].
  destruct Hc as (k & ? & ? & Hm & Hl & Hh & ?). split; simpl.
  - exists k. unfold set_slot. simpl. rewrite length_insert. done.
  - done.
  - lia.
  - rewrite length_app. lia.
  - intros i Hi. unfold slot_at. destruct (decide (i = r)) as [->|Hne].
    + rewrite list_lookup_insert_eq
        by (pose proof (Hs r Hi) as ?%lookup_lt_Some; lia).
      by rewrite decide_True by lia.
    + rewrite list_lookup_insert_ne.
      * rewrite Hs by lia. unfold slot_at. f_equal. repeat case_decide; done || lia.
      * intros He. apply Z2Nat.inj in He; [|apply Z.mod_pos_bound; lia..].
        apply mod_offset_inj in He; lia.
Qed.

Lemma ring_consume cap xs r w q : ring_inv cap xs r w q →
  ring_inv cap (drop r xs) 0 w (set_head ((sq_head q + Z.of_nat r) mod cap) q).
Proof.
  intros [Hc Ht Hr Hroom Hs]. pose proof (ring_cap_pos _ _ Hc) as Hp. rewrite length_app in Hroom.
  destruct Hc as (k & ? & ? & Hm & Hl & Hh & ?). split; simpl.
  - pose proof (Z.mod_pos_bound (sq_head q + Z.of_nat r) cap ltac:(lia)). exists k. done.
  - rewrite Ht, offset_mod_mod, length_drop by lia. f_equal. lia.
  - lia.
  - rewrite length_app, length_drop. lia.
  - intros i Hi. rewrite offset_mod_mod by lia.
    unfold slot_at. rewrite decide_False by lia.
    destruct (Z.lt_ge_cases (Z.of_nat (r + i)) cap) as [Hlt|Hge].
    + rewrite <- Nat2Z.inj_add, Hs by done. unfold slot_at. rewrite decide_False by lia. f_equal.
      rewrite <- lookup_drop, drop_app_le by done. done.
    + (* the slots before the old head were moved out *)
      replace (sq_head q + (Z.of_nat r + Z.of_nat i))
        with (sq_head q + Z.of_nat (r + i - Z.to_nat cap) + 1 * cap) by lia.
      rewrite Z.mod_add, Hs by lia. unfold slot_at. rewrite decide_True by lia. f_equal.
      symmetry. apply lookup_ge_None. rewrite length_app, length_drop. lia.
Qed.

End Contents.

(** ** One producer and one consumer, interleaved *)

(** [push] between its accesses to shared memory: the load of the tail, the load
    of the head, the write of the slot, the store of the tail. *)
Inductive push_pc {T : Type} :=
  | PuStart (item : T)
  | PuTail (item : T) (tail : Z)
  | PuWrite (item : T) (tail next_tail : Z)
  | PuPublish (item : T) (next_tail : Z)
  | PuDone (result : unit + T).
Arguments push_pc : clear implicits.

(** [pop], and [pop_each] and [pop_batch_into], between theirs. *)
Inductive pop_pc {T : Type} :=
  | PoStart
  | PoHead (head : Z)
  | PoRead (head : Z)
  | PoStore (head : Z) (item : T)
  | PoDone (result : option T)
  | BaStart (max_count : Z) (f : list T → bool)
  | BaHead (max_count : Z) (f : list T → bool) (head : Z)
  | BaRead (to_pop : nat) (f : list T → bool) (current_head : Z) (items : list T)
  | BaStore (current_head : Z) (items : list T)
  | BaDone (items : list T).
Arguments pop_pc : clear implicits.

(** What an operation does to the queue, at the access where it takes effect. *)
Inductive fifo_event {T : Type} :=
  | Enq (item : T)
  | Full (item : T)
  | Deq (items : list T)
  | Empty.
Arguments fifo_event : clear implicits.

Section Steps.
Context {T : Type}.
Implicit Types (q : SpscQueue T).

Definition push_step (pc : push_pc T) q : option (SpscQueue T * push_pc T * option (fifo_event T)) :=
  match pc with
  | PuStart item => Some (q, PuTail item (sq_tail q), None)
  | PuTail item tail =>
      let next_tail := SpscQueue_next_index q tail in
      if next_tail =? sq_head q then Some (q, PuDone (inr item), Some (Full item))
      else Some (q, PuWrite item tail next_tail, None)
  | PuWrite item tail next_tail =>
      (λ q, (q, PuPublish item next_tail, None)) <$> slot_write tail item q
  | PuPublish item next_tail => Some (set_tail next_tail q, PuDone (inl tt), Some (Enq item))
  | PuDone _ => None
  end.

Definition pop_step (pc : pop_pc T) q : option (SpscQueue T * pop_pc T * option (fifo_event T)) :=
  match pc with
  | PoStart => Some (q, PoHead (sq_head q), None)
  | PoHead head =>
      if head =? sq_tail q then Some (q, PoDone None, Some Empty) else Some (q, PoRead head, None)
  | PoRead head => (λ '(item, q), (q, PoStore head item, None)) <$> slot_read head q
  | PoStore head item =>
      Some (set_head (SpscQueue_next_index q head) q, PoDone (Some item), Some (Deq [item]))
  | BaStart max_count f =>
      if max_count =? 0 then Some (q, BaDone [], None)
      else Some (q, BaHead max_count f (sq_head q), None)
  | BaHead max_count f head =>
      let to_pop := Z.min (available q head (sq_tail q)) max_count in
      if to_pop =? 0 then Some (q, BaDone [], Some Empty)
      else Some (q, BaRead (Z.to_nat to_pop) f head [], None)
  | BaRead (S to_pop) f current_head items =>
      (λ '(item, q),
         let current_head := SpscQueue_next_index q current_head in
         let items := items ++ [item] in
         if f items then
           match to_pop with
           | O => (q, BaStore current_head items, None)
           | _ => (q, BaRead to_pop f current_head items, None)
           end
         else (q, BaStore current_head items, None)) <$> slot_read current_head q
  | BaStore current_head items => Some (set_head current_head q, BaDone items, Some (Deq items))
  | BaRead O _ _ _ | PoDone _ | BaDone _ => None
  end.

Definition push_returned (pc : push_pc T) : Prop := match pc with PuDone _ => True | _ => False end.
Definition pop_returned (pc : pop_pc T) : Prop :=
  match pc with PoDone _ | BaDone _ => True | _ => False end.

Record spsc_sys := mkSpsc { ss_queue : SpscQueue T; ss_push : push_pc T; ss_pop : pop_pc T }.

(** A thread whose operation has returned may call the next one at any time. *)
Inductive spsc_step : spsc_sys → option (fifo_event T) → spsc_sys → Prop :=
  | call_push q pu po item : push_returned pu →
      spsc_step (mkSpsc q pu po) None (mkSpsc q (PuStart item) po)
  | step_push q pu po q' pu' e : push_step pu q = Some (q', pu', e) →
      spsc_step (mkSpsc q pu po) e (mkSpsc q' pu' po)
  | call_pop q pu po : pop_returned po →
      spsc_step (mkSpsc q pu po) None (mkSpsc q pu PoStart)
  | call_pop_each q pu po n f : pop_returned po → 0 <= n →
      spsc_step (mkSpsc q pu po) None (mkSpsc q pu (BaStart n f))
  | step_pop q pu po q' po' e : pop_step po q = Some (q', po', e) →
      spsc_step (mkSpsc q pu po) e (mkSpsc q' pu po').

Definition spsc_start q : spsc_sys := mkSpsc q (PuDone (inl tt)) (PoDone None).

(** The specification: a queue of at most [cap - 1] items. *)
Definition fifo_spec `{!EqDecision T} (cap : Z) (xs : list T) (e : fifo_event T) : option (list T) :=
  match e with
  | Enq x => if zlen xs + 1 <? cap then Some (xs ++ [x]) else None
  | Full _ => if zlen xs + 1 =? cap then Some xs else None
  | Deq ys => if decide (ys = take (length ys) xs) then Some (drop (length ys) xs) else None
  | Empty => match xs with [] => Some xs | _ => None end
  end.

(** What the two threads know while they are inside an operation. *)
Definition push_ok (cap : Z) (xs : list T) (w : option T) q (pc : push_pc T) : Prop :=
  match pc with
  | PuStart _ | PuDone _ => w = None
  | PuTail _ tail => w = None ∧ tail = sq_tail q
  | PuWrite _ tail next_tail =>
      w = None ∧ tail = sq_tail q ∧ next_tail = (sq_tail q + 1) mod cap ∧ zlen xs + 1 < cap
  | PuPublish item next_tail => w = Some item ∧ next_tail = (sq_tail q + 1) mod cap
  end.

Definition pop_ok (cap : Z) (xs : list T) (r : nat) q (pc : pop_pc T) : Prop :=
  match pc with
  | PoStart | PoDone _ | BaDone _ => r = 0%nat
  | BaStart n _ => r = 0%nat ∧ 0 <= n
  | PoHead head => r = 0%nat ∧ head = sq_head q
  | BaHead n _ head => r = 0%nat ∧ head = sq_head q ∧ 0 < n
  | PoRead head => r = 0%nat ∧ head = sq_head q ∧ xs ≠ []
  | PoStore head item => r = 1%nat ∧ head = sq_head q ∧ take 1 xs = [item]
  | BaRead n _ head items =>
      r = length items ∧ items = take r xs ∧ head = (sq_head q + Z.of_nat r) mod cap ∧
      (0 < n)%nat ∧ (r + n <= length xs)%nat
  | BaStore head items =>
      r = length items ∧ items = take r xs ∧ head = (sq_head q + Z.of_nat r) mod cap
  end.

Definition spsc_ok (cap : Z) (xs : list T) (s : spsc_sys) : Prop :=
  ∃ r w, ring_inv cap xs r w (ss_queue s) ∧ push_ok cap xs w (ss_queue s) (ss_push s) ∧
         pop_ok cap xs r (ss_queue s) (ss_pop s).

Lemma ring_cap_head q cap : ring_cap q cap → 0 <= sq_head q < cap.
Proof. intros (?&?&?&?&?&?&?). done. Qed.
Lemma ring_cap_tail q cap : ring_cap q cap → 0 <= sq_tail q < cap.
Proof. intros (?&?&?&?&?&?&?). done. Qed.

(** A step of the producer leaves the consumer's knowledge true, and is never
    undefined. *)
Lemma push_step_ok `{!EqDecision T} cap xs r w q pu po :
  ring_inv cap xs r w q → push_ok cap xs w q pu → pop_ok cap xs r q po → ¬ push_returned pu →
  ∃ q' pu' e, push_step pu q = Some (q', pu', e) ∧ ∃ xs' w',
    match e with None => xs' = xs | Some e => fifo_spec cap xs e = Some xs' end ∧
    ring_inv cap xs' r w' q' ∧ push_ok cap xs' w' q' pu' ∧ pop_ok cap xs' r q' po.
Proof.
  intros Hi Hpu Hpo Hret. destruct pu as [item|item tail|item tail nt|item nt|res]; simpl in *.
  - subst w. do 3 eexists. split; [done|]. by exists xs, None.
  - destruct Hpu as [-> ->]. pose proof (ring_full_iff _ _ _ _ Hi) as Hfull.
    pose proof (ri_cap _ _ _ _ _ Hi) as Hc.
    destruct (Z.eqb_spec (SpscQueue_next_index q (sq_tail q)) (sq_head q)) as [He|He].
    + do 3 eexists. split; [done|]. exists xs, None. apply Hfull in He. simpl.
      rewrite (proj2 (Z.eqb_eq _ _) He). done.
    + do 3 eexists. split; [done|]. exists xs, None. simpl.
      rewrite (next_index_mod _ _ _ Hc) by by apply ring_cap_tail.
      pose proof (ri_room _ _ _ _ _ Hi) as Hroom. simpl in Hroom. rewrite app_nil_r in Hroom.
      assert (zlen xs + 1 ≠ cap) by (by rewrite <- Hfull). split_and!; try done. lia.
  - destruct Hpu as (-> & -> & -> & Hlt).
    destruct (ring_write _ _ _ _ item Hi Hlt) as (q' & -> & Hi' & Hh & Ht & Hm).
    do 3 eexists. split; [done|]. exists xs, (Some item). simpl. rewrite Ht. split_and!; try done.
    destruct po; simpl in *; rewrite ?Hh; done.
  - destruct Hpu as [-> ->]. do 3 eexists. split; [done|]. exists (xs ++ [item]), None. simpl.
    pose proof (ri_room _ _ _ _ _ Hi) as Hroom. rewrite length_app in Hroom. simpl in Hroom.
    rewrite (proj2 (Z.ltb_lt _ _)) by lia. split_and!; [done|by apply ring_publish|done|].
    pose proof (ri_read _ _ _ _ _ Hi) as Hr.
    destruct po; simpl in *; try done; destruct_and?; split_and!; try done.
    + by destruct xs.
    + by destruct xs.
    + by rewrite take_app_le.
    + rewrite length_app. lia.
    + by rewrite take_app_le.
  - by destruct Hret.
Qed.

Lemma push_ok_shrink cap xs xs' w q q' pu : push_ok cap xs w q pu → zlen xs' <= zlen xs →
  sq_tail q' = sq_tail q → push_ok cap xs' w q' pu.
Proof. intros Hpu Hlen Ht. destruct pu; simpl in *; rewrite ?Ht; destruct_and?; split_and?; done || lia. Qed.

Lemma take_S_snoc (xs : list T) r x : xs !! r = Some x → take (S r) xs = take r xs ++ [x].
Proof. apply take_S_r. Qed.

(** The head after [r] items. *)
Lemma next_of_offset q q' cap r : ring_cap q cap → sq_capacity_mask q' = sq_capacity_mask q →
  SpscQueue_next_index q' ((sq_head q + Z.of_nat r) mod cap) = (sq_head q + Z.of_nat (S r)) mod cap.
Proof.
  intros Hc Hm. pose proof (ring_cap_pos _ _ Hc). unfold SpscQueue_next_index. rewrite Hm.
  fold (SpscQueue_next_index q ((sq_head q + Z.of_nat r) mod cap)).
  rewrite (next_index_mod _ _ _ Hc) by (apply Z.mod_pos_bound; lia).
  rewrite offset_mod_mod by lia. f_equal. lia.
Qed.

Lemma head_offset_0 q cap : ring_cap q cap → (sq_head q + Z.of_nat 0) mod cap = sq_head q.
Proof. intros Hc. rewrite Z.add_0_r. apply Z.mod_small. by apply ring_cap_head. Qed.

Lemma pop_step_ok `{!EqDecision T} cap xs r w q pu po :
  ring_inv cap xs r w q → push_ok cap xs w q pu → pop_ok cap xs r q po → ¬ pop_returned po →
  ∃ q' po' e, pop_step po q = Some (q', po', e) ∧ ∃ xs' r',
    match e with None => xs' = xs | Some e => fifo_spec cap xs e = Some xs' end ∧
    ring_inv cap xs' r' w q' ∧ push_ok cap xs' w q' pu ∧ pop_ok cap xs' r' q' po'.
Proof.
  intros Hi Hpu Hpo Hret. pose proof (ri_cap _ _ _ _ _ Hi) as Hc.
  pose proof (head_offset_0 _ _ Hc) as H0.
  destruct po as [|head|head|head item|res|n f|n f head|n f head items|head items|items];
    cbn [pop_step pop_ok] in *; try by destruct Hret.
  - subst r. do 3 eexists. split; [done|]. by exists xs, 0%nat.
  - destruct Hpo as [-> ->]. pose proof (ring_empty_iff _ _ _ _ _ Hi) as He.
    destruct (Z.eqb_spec (sq_head q) (sq_tail q)) as [Heq|Hne]; do 3 eexists; (split; [done|]);
      exists xs, 0%nat.
    + apply He in Heq as ->. done.
    + split_and!; try done. simpl. split_and!; try done. by rewrite <- He.
  - destruct Hpo as (-> & -> & Hne). destruct xs as [|x xs]; [done|].
    destruct (ring_read_next _ _ _ _ _ x Hi eq_refl) as (q' & Hrd & Hi' & Hh & Ht & Hm).
    rewrite H0 in Hrd. rewrite Hrd. do 3 eexists. split; [done|]. exists (x :: xs), 1%nat.
    split_and!; try done. by eapply push_ok_shrink.
  - destruct Hpo as (-> & -> & Htk). do 3 eexists. split; [done|]. exists (drop 1 xs), 0%nat.
    rewrite <- H0 at 1. rewrite (next_of_offset q q cap 0) by done.
    split; [simpl; by rewrite decide_True|]. split; [by apply (ring_consume _ _ 1)|].
    split; [|done]. eapply push_ok_shrink; [done| |done]. rewrite length_drop. lia.
  - destruct Hpo as [-> Hn]. destruct (Z.eqb_spec n 0); do 3 eexists; (split; [done|]);
      exists xs, 0%nat; simpl; split_and!; try done. lia.
  - destruct Hpo as (-> & -> & Hn). rewrite (ring_available _ _ _ _ _ Hi).
    destruct (Z.eqb_spec (Z.min (zlen xs) n) 0) as [Hz|Hz]; do 3 eexists; (split; [done|]);
      exists xs, 0%nat.
    + destruct xs; [done|]. simpl in *. lia.
    + simpl. split_and!; try done; lia.
  - destruct Hpo as (Hr & Hit & -> & Hn & Hle). destruct n as [|n]; [lia|].
    destruct (lookup_lt_is_Some_2 xs r) as [x Hx]; [lia|].
    destruct (ring_read_next _ _ _ _ _ x Hi Hx) as (q' & Hrd & Hi' & Hh & Ht & Hm).
    rewrite Hrd. cbn [fmap option_fmap option_map]. cbv zeta. rewrite (next_of_offset q q' cap r) by done.
    assert (Hpu' : push_ok cap xs w q' pu) by by eapply push_ok_shrink.
    assert (Hlen : S r = length (items ++ [x])) by (rewrite length_app; simpl; lia).
    assert (Hit' : items ++ [x] = take (S r) xs) by (rewrite (take_S_snoc _ _ _ Hx); congruence).
    destruct (f (items ++ [x])); [destruct n as [|n]|]; do 3 eexists; (split; [done|]);
      exists xs, (S r); cbn [pop_ok]; rewrite Hh; split_and!; done || lia.
  - destruct Hpo as (Hr & Hit & ->). do 3 eexists. split; [done|]. exists (drop r xs), 0%nat.
    split; [simpl; rewrite <- Hr; by rewrite decide_True|]. split; [by apply ring_consume|].
    split; [|done]. eapply push_ok_shrink; [done| |done]. rewrite length_drop. lia.
Qed.

Lemma spsc_simulates `{!EqDecision T} cap : simulates spsc_step (fifo_spec cap) (spsc_ok cap).
Proof.
  intros xs s o s' (r & w & Hi & Hpu & Hpo) Hst. destruct Hst as [q pu po item Hret
    |q pu po q' pu' e Hs|q pu po Hret|q pu po n f Hret Hn|q pu po q' po' e Hs]; simpl in *.
  - exists r, w. split_and!; try done. by destruct pu.
  - assert (Hnr : ¬ push_returned pu) by (intros Hr; by destruct pu).
    destruct (push_step_ok _ _ _ _ _ _ _ Hi Hpu Hpo Hnr) as (q1 & pu1 & e1 & Hs' & xs' & w' & He & ?).
    rewrite Hs in Hs'. injection Hs' as <- <- <-.
    destruct e; [exists xs'; split; [done|]|subst xs']; by exists r, w'.
  - exists r, w. split_and!; try done. by destruct po.
  - exists r, w. split_and!; try done. by destruct po.
  - assert (Hnr : ¬ pop_returned po) by (intros Hr; by destruct po).
    destruct (pop_step_ok _ _ _ _ _ _ _ Hi Hpu Hpo Hnr) as (q1 & po1 & e1 & Hs' & xs' & r' & He & ?).
    rewrite Hs in Hs'. injection Hs' as <- <- <-.
    destruct e; [exists xs'; split; [done|]|subst xs']; by exists r', w.
Qed.
End Steps.
Arguments spsc_sys : clear implicits.

(** ** The sequential operations *)

Section Sequential.
Context {T : Type}.
Implicit Types q : SpscQueue T.

Lemma ring_new_holds k : 0 <= k < 64 → ring_holds (2 ^ k) [] (ring_of_capacity (T := T) (2 ^ k)).
Proof.
  intros Hk. assert (Hp : 0 < 2 ^ k) by (apply Z.pow_pos_nonneg; lia).
  assert (Hp' : 2 ^ k < 2 ^ 64) by (apply Z.pow_lt_mono_r; lia). split; simpl.
  - exists k. unfold ring_of_capacity. simpl. rewrite length_replicate, Z2Nat.id by lia.
    unfold u64_sub. rewrite wrap_u64_small by (unfold is_u64; change u64_MOD with (2 ^ 64); lia).
    split_and!; done || lia.
  - rewrite Z.mod_small; lia.
  - lia.
  - lia.
  - intros i Hi. rewrite Z.mod_small by lia. rewrite lookup_replicate_2 by lia.
    unfold slot_at. by case_decide.
Qed.

Lemma next_power_of_two_pow n : 0 < n <= 2 ^ 63 →
  ∃ k, 0 <= k < 64 ∧ next_power_of_two n = 2 ^ k ∧ n <= 2 ^ k ∧ 2 ^ k < 2 * n.
Proof.
  intros Hn. exists (Z.log2_up n). pose proof (Z.log2_up_nonneg n).
  assert (Hlt : Z.log2_up n <= 63) by (apply Z.log2_up_le_pow2; lia).
  assert (Hpow : 2 ^ Z.log2_up n <= 2 ^ 63) by (apply Z.pow_le_mono_r; lia).
  assert (0 < 2 ^ Z.log2_up n) by (apply Z.pow_pos_nonneg; lia).
  split; [lia|]. split; [|split].
  - unfold next_power_of_two. apply wrap_u64_small. unfold is_u64. change u64_MOD with (2 * 2 ^ 63). lia.
  - destruct (Z.eq_dec n 1) as [->|]; [done|]. apply Z.log2_up_spec. lia.
  - destruct (Z.eq_dec n 1) as [->|]; [done|]. destruct (Z.log2_up_spec n) as [Hl _]; [lia|].
    rewrite <- (Z.succ_pred (Z.log2_up n)), Z.pow_succ_r; [lia|].
    apply Z.lt_le_pred, Z.log2_up_pos. lia.
Qed.

Lemma push_spec cap xs q x : ring_holds cap xs q →
  ∃ q', SpscQueue_push x q = Some (q', if zlen xs + 1 =? cap then inr x else inl tt) ∧
        ring_holds cap (if zlen xs + 1 =? cap then xs else xs ++ [x]) q'.
Proof.
  intros Hi. pose proof (ring_full_iff _ _ _ _ Hi) as Hf. pose proof (ri_cap _ _ _ _ _ Hi) as Hc.
  unfold SpscQueue_push. destruct (Z.eqb_spec (zlen xs + 1) cap) as [He|He].
  - apply Hf in He. rewrite He, Z.eqb_refl. by exists q.
  - rewrite (proj2 (Z.eqb_neq _ _)) by by rewrite Hf.
    pose proof (ri_room _ _ _ _ _ Hi) as Hroom. simpl in Hroom. rewrite app_nil_r in Hroom.
    destruct (ring_write _ _ _ _ x Hi) as (q' & -> & Hi' & Hh & Ht & Hm); [lia|].
    eexists. split; [done|]. rewrite (next_index_mod _ _ _ Hc) by by apply ring_cap_tail.
    rewrite <- Ht. by apply ring_publish.
Qed.

Lemma pop_spec cap xs q : ring_holds cap xs q →
  ∃ q', SpscQueue_pop q = Some (q', head xs) ∧ ring_holds cap (tail xs) q'.
Proof.
  intros Hi. pose proof (ring_empty_iff _ _ _ _ _ Hi) as Hf. pose proof (ri_cap _ _ _ _ _ Hi) as Hc.
  unfold SpscQueue_pop. destruct xs as [|x xs].
  - rewrite (proj2 Hf), Z.eqb_refl by done. by exists q.
  - destruct (Z.eqb_spec (sq_head q) (sq_tail q)) as [He|He]; [by apply Hf in He|].
    destruct (ring_read_next _ _ _ _ _ x Hi eq_refl) as (q' & Hrd & Hi' & Hh & Ht & Hm).
    rewrite (head_offset_0 _ _ Hc) in Hrd. rewrite Hrd. eexists. split; [done|].
    rewrite <- (head_offset_0 _ _ Hc) at 1. rewrite (next_of_offset q q' cap 0) by done.
    rewrite <- Hh. by apply (ring_consume _ _ 1) in Hi'.
Qed.

Lemma push_batch_spec cap items xs q : ring_holds cap xs q →
  let n := Z.to_nat (Z.min (zlen items) (cap - 1 - zlen xs)) in
  ∃ q', SpscQueue_push_batch items q = Some (q', Z.of_nat n) ∧ ring_holds cap (xs ++ take n items) q'.
Proof.
  revert xs q. induction items as [|x items IH]; intros xs q Hi.
  { exists q. pose proof (ri_room _ _ _ _ _ Hi) as Hroom. simpl in *. rewrite app_nil_r in Hroom.
    rewrite take_nil, app_nil_r. split; [repeat f_equal; lia|done]. }
  pose proof (ri_room _ _ _ _ _ Hi) as Hroom. simpl in Hroom. rewrite app_nil_r in Hroom.
  cbn [SpscQueue_push_batch]. destruct (push_spec cap xs q x Hi) as (q' & -> & Hi').
  destruct (Z.eqb_spec (zlen xs + 1) cap) as [He|He].
  - exists q'. replace (Z.to_nat _) with 0%nat by (simpl length; lia). simpl. by rewrite app_nil_r.
  - destruct (IH _ _ Hi') as (q'' & -> & Hi''). exists q''. rewrite length_app in *.
    set (n := Z.to_nat (Z.min (zlen items) (cap - 1 - Z.of_nat (length xs + length [x])))) in *.
    replace (Z.to_nat (Z.min (zlen (x :: items)) (cap - 1 - zlen xs))) with (S n)
      by (subst n; simpl length; lia).
    split; [simpl; repeat f_equal; lia|]. simpl. by rewrite <- app_assoc in Hi''.
Qed.

Lemma pop_batch_spec cap n xs q : ring_holds cap xs q →
  ∃ q', SpscQueue_pop_batch n q = Some (q', take n xs) ∧ ring_holds cap (drop n xs) q'.
Proof.
  revert xs q. induction n as [|n IH]; intros xs q Hi; [by exists q|].
  cbn [SpscQueue_pop_batch]. destruct (pop_spec cap xs q Hi) as (q' & -> & Hi').
  destruct xs as [|x xs]; [by exists q'|]. simpl in *.
  destruct (IH _ _ Hi') as (q'' & -> & Hi''). by exists q''.
Qed.

Lemma drain_spec cap fuel xs q : ring_holds cap xs q → (length xs <= fuel)%nat →
  ∃ q', drain_loop fuel q = Some (q', xs) ∧ ring_holds cap [] q'.
Proof.
  revert xs q. induction fuel as [|n IH]; intros xs q Hi Hn; cbn [drain_loop];
    destruct (pop_spec cap xs q Hi) as (q' & -> & Hi'); destruct xs as [|x xs]; simpl in *;
    try lia; try by exists q'.
  destruct (IH _ _ Hi') as (q'' & -> & Hi''); [lia|]. by exists q''.
Qed.

(** The items a callback [f] takes out of [xs], of which it is given [n] at most:
    up to the first one it answers [false] for. *)
Fixpoint taken (n : nat) (f : list T → bool) (seen xs : list T) : list T :=
  match n, xs with
  | S n, x :: xs => if f (seen ++ [x]) then x :: taken n f (seen ++ [x]) xs else [x]
  | _, _ => []
  end.

Lemma pop_each_loop_spec cap n f items rest q : ring_inv cap (items ++ rest) (length items) None q →
  (n <= length rest)%nat →
  ∃ q', pop_each_loop n f ((sq_head q + zlen items) mod cap) items q =
          Some (q', (sq_head q + zlen (items ++ taken n f items rest)) mod cap,
                items ++ taken n f items rest) ∧
        ring_inv cap (items ++ rest) (length (items ++ taken n f items rest)) None q' ∧
        sq_head q' = sq_head q.
Proof.
  revert items rest q. induction n as [|n IH]; intros items rest q Hi Hn.
  { exists q. simpl. by rewrite app_nil_r. }
  destruct rest as [|x rest]; [simpl in Hn; lia|]. cbn [pop_each_loop taken].
  pose proof (ri_cap _ _ _ _ _ Hi) as Hc.
  destruct (ring_read_next _ _ _ _ _ x Hi) as (q1 & -> & Hi1 & Hh & Ht & Hm).
  { by rewrite list_lookup_middle. }
  rewrite (next_of_offset q q1 cap) by done.
  assert (Hlen : S (length items) = length (items ++ [x])) by (rewrite length_app; simpl; lia).
  rewrite Hlen in Hi1 |- *. rewrite cons_middle, app_assoc in Hi1. simpl in Hn.
  destruct (f (items ++ [x])).
  - destruct (IH (items ++ [x]) rest q1) as (q2 & Hl & Hi2 & Hh2); [done|lia|].
    rewrite Hh in *. exists q2. rewrite Hl. rewrite <- !app_assoc in *. simpl in *.
    split; [done|]. split; [done|]. congruence.
  - exists q1. split; [done|]. by rewrite <- app_assoc in Hi1.
Qed.

Lemma taken_prefix n f seen xs : take (length (taken n f seen xs)) xs = taken n f seen xs.
Proof.
  revert n seen. induction xs as [|x xs IH]; intros [|n] seen; simpl; try done.
  destruct (f _); simpl; by rewrite ?IH.
Qed.
Lemma taken_all n seen xs : taken n (λ _, true) seen xs = take n xs.
Proof. revert n seen. induction xs as [|x xs IH]; intros [|n] seen; simpl; by rewrite ?IH. Qed.

Lemma taken_app n f seen xs : taken n f seen xs = taken (Nat.min n (length xs)) f seen xs.
Proof.
  revert n seen. induction xs as [|x xs IH]; intros [|n] seen; simpl; try done.
  destruct (f _); [|done]. by rewrite <- IH.
Qed.

Lemma pop_each_spec cap n f xs q : ring_holds cap xs q → 0 <= n →
  let ys := taken (Z.to_nat n) f [] xs in
  ∃ q', SpscQueue_pop_each n f q = Some (q', ys) ∧ ring_holds cap (drop (length ys) xs) q'.
Proof.
  intros Hi Hn ys. unfold SpscQueue_pop_each. destruct (Z.eqb_spec n 0) as [->|]; [by exists q|].
  rewrite (ring_available _ _ _ _ _ Hi). pose proof (ri_cap _ _ _ _ _ Hi) as Hc.
  destruct (Z.eqb_spec (Z.min (zlen xs) n) 0) as [Hz|Hz].
  { destruct xs; [|simpl in *; lia]. exists q. subst ys. by destruct (Z.to_nat n). }
  destruct (pop_each_loop_spec cap (Z.to_nat (Z.min (zlen xs) n)) f [] xs q) as (q' & Hl & Hi' & Hh);
    [done|lia|]. simpl in Hl. rewrite Z.add_0_r, Z.mod_small in Hl by by apply ring_cap_head.
  replace (Z.to_nat (Z.min (zlen xs) n)) with (Nat.min (Z.to_nat n) (length xs)) in * by lia.
  rewrite <- taken_app in Hl, Hi'. simpl in Hi'. fold ys in Hl, Hi'. rewrite Hl.
  eexists. split; [done|]. rewrite <- Hh. by apply ring_consume in Hi'.
Qed.

Lemma pop_batch_into_spec cap n xs q : ring_holds cap xs q → 0 <= n →
  ∃ q', SpscQueue_pop_batch_into n q = Some (q', take (Z.to_nat n) xs) ∧
        ring_holds cap (drop (Z.to_nat n) xs) q'.
Proof.
  intros Hi Hn. destruct (pop_each_spec cap n (λ _, true) xs q Hi Hn) as (q' & Hp & Hi').
  rewrite taken_all in *. exists q'. split; [exact Hp|]. rewrite length_take in Hi'.
  destruct (Nat.le_ge_cases (Z.to_nat n) (length xs)) as [Hle|Hge].
  - by rewrite Nat.min_l in Hi'.
  - rewrite Nat.min_r in Hi' by done. rewrite drop_ge in Hi' |- * by lia. done.
Qed.

Lemma peek_spec cap xs q : ring_holds cap xs q → SpscQueue_peek q = Some (head xs).
Proof.
  intros Hi. pose proof (ring_empty_iff _ _ _ _ _ Hi) as Hf. pose proof (ri_cap _ _ _ _ _ Hi) as Hc.
  unfold SpscQueue_peek. destruct xs as [|x xs]; [by rewrite (proj2 Hf), Z.eqb_refl|].
  destruct (Z.eqb_spec (sq_head q) (sq_tail q)) as [He|He]; [by apply Hf in He|].
  pose proof (ri_slots _ _ _ _ _ Hi 0%nat) as Hs. rewrite (head_offset_0 _ _ Hc) in Hs.
  pose proof (ring_cap_pos _ _ Hc). rewrite Hs by lia. done.
Qed.
End Sequential.

(** ** Main results *)

Section Results.
Context {T : Type}.
Implicit Types q : SpscQueue T.

(** [n] steps of one thread alone. *)
Fixpoint solo {P : Type} (step : P → SpscQueue T → option (SpscQueue T * P * option (fifo_event T)))
    (n : nat) (pc : P) q : option (SpscQueue T * P) :=
  match n with
  | O => Some (q, pc)
  | S n => match step pc q with Some (q', pc', _) => solo step n pc' q' | None => None end
  end.

Definition pop_each_result (r : SpscQueue T * list T) : SpscQueue T * pop_pc T := (r.1, BaDone r.2).

Lemma pop_each_loop_solo n f h items q q' h' items' : (0 < n)%nat →
  pop_each_loop n f h items q = Some (q', h', items') →
  ∃ m, solo pop_step m (BaRead n f h items) q = Some (q', BaStore h' items').
Proof.
  revert h items q. induction n as [|n IH]; intros h items q Hn; [lia|]. cbn [pop_each_loop].
  destruct (slot_read h q) as [[item q1]|] eqn:Hrd; [|done]. cbv zeta.
  destruct (f (items ++ [item])) eqn:Hf.
  - destruct n as [|n].
    + intros [= <- <- <-]. exists 1%nat. cbn [solo pop_step]. rewrite Hrd.
      cbn [fmap option_fmap option_map]. cbv zeta. by rewrite Hf.
    + intros Hl. destruct (IH _ _ _ ltac:(lia) Hl) as [m Hm]. exists (S m). cbn [solo pop_step].
      rewrite Hrd. cbn [fmap option_fmap option_map]. cbv zeta. by rewrite Hf.
  - intros [= <- <- <-]. exists 1%nat. cbn [solo pop_step]. rewrite Hrd.
    cbn [fmap option_fmap option_map]. cbv zeta. by rewrite Hf.
Qed.

Lemma solo_snoc {P} (step : P → SpscQueue T → option (SpscQueue T * P * option (fifo_event T)))
    n pc q q1 pc1 q2 pc2 e : solo step n pc q = Some (q1, pc1) →
  step pc1 q1 = Some (q2, pc2, e) → solo step (S n) pc q = Some (q2, pc2).
Proof.
  revert pc q. induction n as [|n IH]; intros pc q.
  - intros [= -> ->] Hs. simpl. by rewrite Hs.
  - cbn [solo]. destruct (step pc q) as [[[q' pc'] e']|]; [|done]. intros Hn Hs.
    by rewrite <- (IH _ _ Hn Hs).
Qed.

(** The steps between atomic accesses are the operations: without
    interference, a [push], a [pop] and a [pop_each] run step by step end in the
    state and with the result of the sequential definitions. *)
Theorem ring_steps_are_operations q :
  (∀ item q' res, SpscQueue_push item q = Some (q', res) →
     ∃ n, solo push_step n (PuStart item) q = Some (q', PuDone res)) ∧
  (∀ q' res, SpscQueue_pop q = Some (q', res) → ∃ n, solo pop_step n PoStart q = Some (q', PoDone res)) ∧
  (∀ max f q' items, SpscQueue_pop_each max f q = Some (q', items) → 0 <= available q (sq_head q) (sq_tail q) →
     0 <= max → ∃ n, solo pop_step n (BaStart max f) q = Some (q', BaDone items)).
Proof.
  split; [|split].
  - intros item q' res. unfold SpscQueue_push.
    destruct (SpscQueue_next_index q (sq_tail q) =? sq_head q) eqn:He.
    + intros [= <- <-]. exists 2%nat. cbn [solo push_step]. by rewrite He.
    + destruct (slot_write (sq_tail q) item q) as [q1|] eqn:Hw; [|done]. intros [= <- <-].
      exists 4%nat. cbn [solo push_step]. rewrite He. cbn [solo push_step]. by rewrite Hw.
  - intros q' res. unfold SpscQueue_pop. destruct (sq_head q =? sq_tail q) eqn:He.
    + intros [= <- <-]. exists 2%nat. cbn [solo pop_step]. by rewrite He.
    + destruct (slot_read (sq_head q) q) as [[x q1]|] eqn:Hr; [|done]. intros [= <- <-].
      exists 4%nat. cbn [solo pop_step]. rewrite He. cbn [solo pop_step]. by rewrite Hr.
  - intros max f q' items Hop Hav Hmax. revert Hop. unfold SpscQueue_pop_each.
    destruct (max =? 0) eqn:H0.
    { intros [= <- <-]. exists 1%nat. cbn [solo pop_step]. by rewrite H0. }
    apply Z.eqb_neq in H0 as Hne. cbv zeta.
    destruct (Z.min (available q (sq_head q) (sq_tail q)) max =? 0) eqn:H1.
    { intros [= <- <-]. exists 2%nat. cbn [solo pop_step]. rewrite H0. cbn [solo pop_step]. by rewrite H1. }
    apply Z.eqb_neq in H1 as Hne'.
    destruct (pop_each_loop _ f (sq_head q) [] q) as [[[q1 h1] its]|] eqn:Hl; [|done].
    intros [= <- <-]. apply pop_each_loop_solo in Hl as [m Hm]; [|lia].
    exists (S (S (S m))). apply (solo_snoc pop_step (S (S m)) _ _ q1 (BaStore h1 its) _ _ (Some (Deq its))); [|done].
    cbn [solo pop_step]. rewrite H0. cbn [solo pop_step]. by rewrite H1.
Qed.

(** The items put in and taken out along a run. *)
Definition enqs (tr : list (fifo_event T)) : list T :=
  tr ≫= λ e, match e with Enq x => [x] | _ => [] end.
Definition deqs (tr : list (fifo_event T)) : list T :=
  tr ≫= λ e, match e with Deq ys => ys | _ => [] end.

Lemma fifo_conserves `{!EqDecision T} cap tr xs : spec_run (fifo_spec cap) [] tr = Some xs →
  enqs tr = deqs tr ++ xs.
Proof.
  revert xs. induction tr as [|e tr IH] using rev_ind; intros xs; [by intros [= <-]|].
  rewrite spec_run_snoc. destruct (spec_run (fifo_spec cap) [] tr) as [ys|]; [|done].
  specialize (IH ys eq_refl). cbn [mbind option_bind]. unfold enqs, deqs in *.
  rewrite !bind_app, IH. destruct e as [x|x|zs|]; simpl; rewrite ?app_nil_r.
  - case_match; [|done]. intros [= <-]. by rewrite app_assoc.
  - case_match; [|done]. by intros [= <-].
  - destruct (decide _) as [Hz|]; [|done]. intros [= <-].
    rewrite <- app_assoc. f_equal. rewrite Hz at 1. by rewrite take_drop.
  - destruct ys; [|done]. by intros [= <-].
Qed.

(** An upper bound on the steps an operation still takes. *)
Definition push_rank (pc : push_pc T) : Z :=
  match pc with
  | PuStart _ => 4 | PuTail _ _ => 3 | PuWrite _ _ _ => 2 | PuPublish _ _ => 1 | PuDone _ => 0
  end.
Definition pop_rank (cap : Z) (pc : pop_pc T) : Z :=
  match pc with
  | PoStart => 4 | PoHead _ => 3 | PoRead _ => 2 | PoStore _ _ | BaStore _ _ => 1
  | PoDone _ | BaDone _ => 0
  | BaStart _ _ => cap + 2 | BaHead _ _ _ => cap + 1 | BaRead n _ _ _ => Z.of_nat n + 1
  end.

Lemma push_rank_decreases pc q q' pc' e : push_step pc q = Some (q', pc', e) →
  push_rank pc' < push_rank pc.
Proof.
  destruct pc; simpl; intros Hs; try done.
  - by injection Hs as <- <- <-.
  - destruct (_ =? _); by injection Hs as <- <- <-.
  - destruct (slot_write tail item q); [by injection Hs as <- <- <-|done].
  - by injection Hs as <- <- <-.
Qed.

Lemma pop_rank_decreases cap xs r w pc q q' pc' e : ring_inv cap xs r w q → pop_ok cap xs r q pc →
  pop_step pc q = Some (q', pc', e) → pop_rank cap pc' < pop_rank cap pc.
Proof.
  intros Hi Hok. pose proof (ring_cap_pos _ _ (ri_cap _ _ _ _ _ Hi)) as Hp.
  pose proof (ri_room _ _ _ _ _ Hi) as Hroom. rewrite length_app in Hroom.
  destruct pc as [|head|head|head item|res|n f|n f head|[|n] f head items|head items|items];
    cbn [pop_step pop_ok pop_rank] in *; intros Hs; try done.
  - by injection Hs as <- <- <-.
  - destruct (_ =? _); by injection Hs as <- <- <-.
  - destruct (slot_read head q) as [[? ?]|]; [by injection Hs as <- <- <-|done].
  - by injection Hs as <- <- <-.
  - destruct (_ =? _); injection Hs as <- <- <-; simpl; lia.
  - destruct Hok as (-> & -> & Hn). rewrite (ring_available _ _ _ _ _ Hi) in Hs.
    destruct (_ =? _); injection Hs as <- <- <-; cbn [pop_rank]; lia.
  - destruct (slot_read head q) as [[x q1]|]; [|done]. cbn [fmap option_fmap option_map] in Hs.
    destruct (f _); [destruct n|]; injection Hs as <- <- <-; cbn [pop_rank]; lia.
  - injection Hs as <- <- <-. cbn [pop_rank]. lia.
Qed.

Lemma spsc_init_ok k : 0 <= k < 64 →
  spsc_ok (2 ^ k) [] (spsc_start (ring_of_capacity (T := T) (2 ^ k))).
Proof. intros Hk. exists 0%nat, None. split; [by apply ring_new_holds|done]. Qed.

(** [C20]: one producer and one consumer may interleave the atomic accesses of
    their [push], [pop], [pop_each] and [pop_batch_into] calls in every way: the
    run is a run of a FIFO queue that holds at most one item less than the
    capacity. What was pushed is what was popped followed by what the queue holds,
    "full" and "empty" are answered only when they are true, no uninitialised slot
    is read and no index is out of range, and every call returns after a bounded
    number of its own steps. *)
Theorem spsc_linearizable `{!EqDecision T} capacity q0 tr s :
  0 < capacity <= 2 ^ 63 → SpscQueue_new capacity = Some q0 →
  ltrace spsc_step (spsc_start q0) tr s →
  let cap := next_power_of_two capacity in
  ∃ xs, spec_run (fifo_spec cap) [] tr = Some xs ∧ enqs tr = deqs tr ++ xs ∧ zlen xs < cap ∧
    (push_returned (ss_push s) ∨
     ∃ q' pc' e, push_step (ss_push s) (ss_queue s) = Some (q', pc', e) ∧
       0 <= push_rank pc' < push_rank (ss_push s) ∧ push_rank (ss_push s) <= 4) ∧
    (pop_returned (ss_pop s) ∨
     ∃ q' pc' e, pop_step (ss_pop s) (ss_queue s) = Some (q', pc', e) ∧
       0 <= pop_rank cap pc' < pop_rank cap (ss_pop s) ∧ pop_rank cap (ss_pop s) <= cap + 3).
Proof.
  intros Hcap Hnew Htr cap. unfold SpscQueue_new in Hnew. rewrite (proj2 (Z.ltb_lt _ _)) in Hnew by lia.
  injection Hnew as <-. destruct (next_power_of_two_pow capacity Hcap) as (k & Hk & Hpow & _).
  fold cap in Hpow, Htr. rewrite Hpow in Htr |- *. clearbody cap.
  destruct (ltrace_refines _ _ _ [] _ _ _ (spsc_simulates (2 ^ k)) (spsc_init_ok k Hk) Htr)
    as (xs & Hrun & r & w & Hi & Hpu & Hpo).
  exists xs. split; [done|]. split; [by apply (fifo_conserves (2 ^ k))|].
  pose proof (ri_room _ _ _ _ _ Hi) as Hroom. rewrite length_app in Hroom.
  pose proof (ri_read _ _ _ _ _ Hi) as Hr.
  split; [lia|]. split.
  - destruct (decide (push_rank (ss_push s) = 0)) as [Hz|Hz]; [left; by destruct (ss_push s)|right].
    assert (Hnr : ¬ push_returned (ss_push s)) by (intros Hret; by destruct (ss_push s)).
    destruct (push_step_ok _ _ _ _ _ _ _ Hi Hpu Hpo Hnr) as (q' & pc' & e & Hs & _).
    exists q', pc', e. split; [done|]. apply push_rank_decreases in Hs.
    split; [|by destruct (ss_push s)]. split; [by destruct pc'|done].
  - destruct (decide (pop_rank (2 ^ k) (ss_pop s) = 0)) as [Hz|Hz].
    { left. destruct (ss_pop s); simpl in *; try done; lia. }
    right. assert (Hnr : ¬ pop_returned (ss_pop s)) by (intros Hret; by destruct (ss_pop s)).
    destruct (pop_step_ok _ _ _ _ _ _ _ Hi Hpu Hpo Hnr) as (q' & pc' & e & Hs & _).
    exists q', pc', e. split; [done|]. eapply pop_rank_decreases in Hs; [|done..].
    split; [split; [destruct pc'; simpl in *; lia|done]|].
    destruct (ss_pop s); simpl in *; destruct_and?; lia.
Qed.
End Results.

(** A run on a queue of capacity 2, which holds one item: the consumer looks while
    the producer has written but not published, the producer finds the queue full
    while the consumer has read but not released. *)
Definition race_trace : list (fifo_event Z) := [Empty; Enq 7; Full 8; Deq [7]; Enq 9].
Ltac by_push := eapply ltrace_tau_l; [by apply step_push|].
Ltac by_pop := eapply ltrace_tau_l; [by apply step_pop|].
Ltac show_push := eapply ltrace_event_l; [by apply step_push|].
Ltac show_pop := eapply ltrace_event_l; [by apply step_pop|].
Ltac new_push x := eapply ltrace_tau_l; [by apply (call_push _ _ _ x)|].
Ltac new_pop := eapply ltrace_tau_l; [by apply call_pop|].

Lemma race_run q0 : SpscQueue_new (T := Z) 2 = Some q0 →
  ∃ s, ltrace spsc_step (spsc_start q0) race_trace s.
Proof.
  intros [= <-]. eexists. unfold race_trace, spsc_start.
  new_push 7. by_push. by_push. by_push. new_pop. by_pop. show_pop.
  show_push. new_pop. by_pop. by_pop. by_pop. new_push 8. by_push. show_push.
  show_pop. new_push 9. by_push. by_push. by_push. show_push. apply steps_refl.
Qed.

Lemma spsc_linearizable_witness : ∃ q0 s, SpscQueue_new (T := Z) 2 = Some q0 ∧
  ltrace spsc_step (spsc_start q0) race_trace s ∧
  ∃ xs, spec_run (fifo_spec 2) [] race_trace = Some xs ∧ enqs race_trace = deqs race_trace ++ xs.
Proof.
  destruct (SpscQueue_new (T := Z) 2) as [q0|] eqn:Hq; [|discriminate Hq].
  destruct (race_run q0 Hq) as [s Hs]. exists q0, s. split; [reflexivity|]. split; [exact Hs|].
  destruct (spsc_linearizable 2 q0 race_trace s) as (xs & Hrun & Hcons & _);
    [split; [reflexivity|discriminate]|exact Hq|exact Hs|].
  exists xs. split; [exact Hrun|exact Hcons].
Defined.

Section ClaimRounds.
Context {T : Type}.

(** A producer's round: claim a slot, write it, publish it; the consumer pops after
    each when [popping]. The items popped, or [None] when a claim fails. *)
Fixpoint claim_rounds (popping : bool) (items : list T) (b : RingBuffer T)
  : option (RingBuffer T * list T) :=
  match items with
  | [] => Some (b, [])
  | x :: items =>
      let '(b, slot) := RingBuffer_claim_slot b in
      slot ← slot; b ← RingBuffer_write_slot slot x b;
      let '(b, _) := RingBuffer_try_advance_tail (SpscQueue_next_index (rb_queue b) slot) b in
      '(b, y) ← (if popping then RingBuffer_pop b else Some (b, None));
      prod_map id (app (option_list y)) <$> claim_rounds popping items b
  end.
End ClaimRounds.

(** Without interference every operation of the queue is the operation on a
    list of items: [push] and [push_batch] append what fits and hand back the rest,
    [pop], [peek], [pop_batch], [pop_each] (up to the callback's first [false]) and
    [pop_batch_into] take or look at the front, dropping the queue drops exactly the
    items left in it, and the counters are right. *)
Theorem spsc_operations_on_list {T} cap (xs : list T) q : ring_holds cap xs q →
  SpscQueue_len q = zlen xs ∧ SpscQueue_is_empty q = bool_decide (xs = []) ∧
  SpscQueue_is_full q = (zlen xs + 1 =? cap) ∧ SpscQueue_peek q = Some (head xs) ∧
  (∀ x, ∃ q', SpscQueue_push x q = Some (q', if zlen xs + 1 =? cap then inr x else inl tt) ∧
     ring_holds cap (if zlen xs + 1 =? cap then xs else xs ++ [x]) q') ∧
  (∃ q', SpscQueue_pop q = Some (q', head xs) ∧ ring_holds cap (tail xs) q') ∧
  (∀ items, let n := Z.to_nat (Z.min (zlen items) (cap - 1 - zlen xs)) in
     ∃ q', SpscQueue_push_batch items q = Some (q', Z.of_nat n) ∧ ring_holds cap (xs ++ take n items) q') ∧
  (∀ n, ∃ q', SpscQueue_pop_batch n q = Some (q', take n xs) ∧ ring_holds cap (drop n xs) q') ∧
  (∀ n f, 0 <= n → let ys := taken (Z.to_nat n) f [] xs in
     ∃ q', SpscQueue_pop_each n f q = Some (q', ys) ∧ ring_holds cap (drop (length ys) xs) q') ∧
  (∀ n, 0 <= n → ∃ q', SpscQueue_pop_batch_into n q = Some (q', take (Z.to_nat n) xs) ∧
     ring_holds cap (drop (Z.to_nat n) xs) q') ∧
  (∃ q', SpscQueue_drop q = Some (q', xs) ∧ ring_holds cap [] q').
Proof.
  intros Hi. split; [by eapply ring_len_eq|].
  pose proof (ring_empty_iff _ _ _ _ _ Hi) as He. pose proof (ring_full_iff _ _ _ _ Hi) as Hf.
  split; [unfold SpscQueue_is_empty; destruct (Z.eqb_spec (sq_head q) (sq_tail q)) as [E|E];
          [by rewrite bool_decide_true by by apply He|by rewrite bool_decide_false by by rewrite <- He]|].
  split; [unfold SpscQueue_is_full; destruct (Z.eqb_spec (zlen xs + 1) cap) as [E|E];
          [by apply Z.eqb_eq, Hf|by apply Z.eqb_neq; rewrite Hf]|].
  split; [by eapply peek_spec|]. split; [intros x; by apply push_spec|].
  split; [by apply pop_spec|]. split; [intros items; by apply push_batch_spec|].
  split; [intros n; by apply pop_batch_spec|]. split; [intros n f Hn; by apply pop_each_spec|].
  split; [intros n Hn; by apply pop_batch_into_spec|].
  apply drain_spec; [done|]. pose proof (ri_room _ _ _ _ _ Hi) as Hroom. rewrite length_app in Hroom.
  destruct (ri_cap _ _ _ _ _ Hi) as (?&?&?&?&?&?). lia.
Qed.

Lemma spsc_operations_on_list_witness :
  ∃ q0, SpscQueue_new (T := Z) 3 = Some q0 ∧ ring_holds 4 [] q0 ∧
  ∃ q1, SpscQueue_push_batch [1; 2; 3; 4] q0 = Some (q1, 3) ∧ ring_holds 4 [1; 2; 3] q1.
Proof.
  eexists. split; [reflexivity|]. split; [exact (ring_new_holds 2 ltac:(lia))|].
  destruct (spsc_operations_on_list 4 [] _ (ring_new_holds (T := Z) 2 ltac:(lia)))
    as (_ & _ & _ & _ & _ & _ & Hb & _).
  exact (Hb [1; 2; 3; 4]).
Defined.

(** The claims of several producers do not go with the indices. A claim
    counts up for ever while the tail it is compared with stays below the capacity,
    and the head is not looked at: (1) a counter ahead of the tail by the capacity
    less one makes every later claim fail and stays; (2) four producers' rounds of
    claim, write, publish, each item popped at once, lead there: the buffer is
    empty and every claim fails; (3) without the pops the fourth claim is granted
    although three items fill the buffer, and the buffer then looks empty. *)
Theorem claimed_slots_wedge :
  (∀ T k (b : RingBuffer T), 0 <= k < 64 → ring_cap (rb_queue b) (2 ^ k) →
     is_u64 (rb_claim_counter b) → sq_tail (rb_queue b) + 2 ^ k - 1 <= rb_claim_counter b →
     RingBuffer_claim_slot b = (b, None)) ∧
  (∃ b0 b, RingBuffer_new (T := Z) 4 = Some b0 ∧
     claim_rounds true [1; 2; 3; 4] b0 = Some (b, [1; 2; 3; 4]) ∧
     RingBuffer_is_empty b = true ∧ RingBuffer_claim_slot b = (b, None)) ∧
  (∃ b0 b, RingBuffer_new (T := Z) 4 = Some b0 ∧
     claim_rounds false [1; 2; 3; 4] b0 = Some (b, []) ∧
     RingBuffer_is_empty b = true ∧ RingBuffer_pop b = Some (b, None)).
Proof.
  split; [|split].
  - intros T k b Hk Hc Hu Hge. pose proof (ring_cap_pos _ _ Hc) as Hp.
    unfold RingBuffer_claim_slot, RingBuffer_capacity, SpscQueue_capacity.
    destruct Hc as (k' & Hk' & He & Hm & Hl & Hh & Ht). rewrite Hm.
    unfold u64_add at 1, u64_sub at 1. replace (2 ^ k - 1 + 1) with (2 ^ k) by lia.
    assert (2 ^ 63 < u64_MOD) by done.
    rewrite (wrap_u64_small (2 ^ k)), (wrap_u64_small (2 ^ k - 1)) by (unfold is_u64; lia).
    rewrite (proj2 (Z.leb_le _ _)) by (unfold u64_sat_sub; lia).
    destruct b as [q c]. simpl in *. do 2 f_equal. unfold u64_sub, u64_add, wrap_u64.
    rewrite Zminus_mod_idemp_l. replace (c + 1 - 1) with c by lia. by apply Z.mod_small.
  - exists (mkRing (mkQueue [None; None; None; None] 0 0 3) 0),
      (mkRing (mkQueue [None; None; None; None] 0 0 3) 4). split_and!; vm_compute; reflexivity.
  - exists (mkRing (mkQueue [None; None; None; None] 0 0 3) 0),
      (mkRing (mkQueue [Some 1; Some 2; Some 3; Some 4] 0 0 3) 4). split_and!; vm_compute; reflexivity.
Qed.

Lemma claimed_slots_wedge_witness :
  RingBuffer_claim_slot (mkRing (ring_of_capacity (T := Z) 4) 3) =
    (mkRing (ring_of_capacity 4) 3, None).
Proof.
  apply (proj1 claimed_slots_wedge Z 2 _ ltac:(lia)).
  - exact (ri_cap _ _ _ _ _ (ring_new_holds 2 ltac:(lia))).
  - split; [discriminate|reflexivity].
  - discriminate.
Defined.
