(* ===== verification/StateChangelog.v ===== *)
(** * The changelog of state mutations

    laminar-storage: incremental/changelog.rs, [StateChangelogBuffer], a ring of
    copied entries with one producer and one consumer, and changelog_drainer.rs,
    [ChangelogDrainer], the consumer. The index protocol is that of [SpscQueue], but a
    slot always holds an entry and reading copies it; the interleavings are related
    step by step to those of [RingBuffer]. A counter is updated together with the
    store it follows. [hash_key] is the crate rustc_hash. [None] is a panic. *)

From S2P Require Import Prelude RingBuffer.

Inductive StateOp := StatePut | StateDelete.
Definition StateOp_to_u8 (op : StateOp) : Z := match op with StatePut => 0 | StateDelete => 1 end.
Definition StateOp_from_u8 (v : Z) : StateOp := if v =? 1 then StateDelete else StatePut.

Record StateChangelogEntry := mkEntry {
  sce_epoch : Z;
  sce_key_hash : Z;
  sce_mmap_offset : Z;
  sce_value_len : Z;
  sce_op : Z }.
#[global] Instance StateChangelogEntry_eq_dec : EqDecision StateChangelogEntry.
Proof. solve_decision. Defined.

(** [FxHasher] over the bytes of a key. *)
Class KeyHash := hash_key : list Z → Z.

Definition Entry_put (epoch key_hash mmap_offset value_len : Z) : StateChangelogEntry :=
  mkEntry epoch key_hash mmap_offset value_len (StateOp_to_u8 StatePut).
Definition Entry_delete (epoch key_hash : Z) : StateChangelogEntry := mkEntry epoch key_hash 0 0 (StateOp_to_u8 StateDelete).
Definition Entry_from_key `{!KeyHash} (key : list Z) (epoch mmap_offset value_len : Z) (op : StateOp) : StateChangelogEntry :=
  mkEntry epoch (hash_key key) mmap_offset value_len (StateOp_to_u8 op).
Definition Entry_op (e : StateChangelogEntry) : StateOp := StateOp_from_u8 (sce_op e).
Definition Entry_is_put (e : StateChangelogEntry) : bool := sce_op e =? StateOp_to_u8 StatePut.
Definition Entry_is_delete (e : StateChangelogEntry) : bool := sce_op e =? StateOp_to_u8 StateDelete.

(** ** The buffer *)

Record StateChangelogBuffer := mkChangelog {
  scb_entries : list StateChangelogEntry;
  scb_write_pos : Z;
  scb_read_pos : Z;
  scb_capacity : Z;
  scb_current_epoch : Z;
  scb_total_pushed : Z;
  scb_total_drained : Z;
  scb_overflow_count : Z }.

Definition SCB_DEFAULT_CAPACITY : Z := 16 * 1024.
Definition SCB_with_capacity (capacity : Z) : option StateChangelogBuffer :=
  if 0 <? capacity then
    let capacity := next_power_of_two capacity in
    Some (mkChangelog (replicate (Z.to_nat capacity) (mkEntry 0 0 0 0 0)) 0 0 capacity 0 0 0 0)
  else None.
Definition SCB_new : option StateChangelogBuffer := SCB_with_capacity SCB_DEFAULT_CAPACITY.

Definition SCB_set_epoch (epoch : Z) (b : StateChangelogBuffer) : StateChangelogBuffer :=
  mkChangelog (scb_entries b) (scb_write_pos b) (scb_read_pos b) (scb_capacity b) epoch (scb_total_pushed b)
    (scb_total_drained b) (scb_overflow_count b).
Definition SCB_advance_epoch (b : StateChangelogBuffer) : StateChangelogBuffer * Z :=
  let epoch := u64_add (scb_current_epoch b) 1 in (SCB_set_epoch epoch b, epoch).

(** The mask [capacity - 1], and the position after one. *)
Definition scb_mask (b : StateChangelogBuffer) : Z := u64_sub (scb_capacity b) 1.
Definition next_pos (b : StateChangelogBuffer) (pos : Z) : Z := Z.land (u64_add pos 1) (scb_mask b).

Definition count_overflow (b : StateChangelogBuffer) : StateChangelogBuffer :=
  mkChangelog (scb_entries b) (scb_write_pos b) (scb_read_pos b) (scb_capacity b) (scb_current_epoch b) (scb_total_pushed b)
    (scb_total_drained b) (u64_add (scb_overflow_count b) 1).
Definition write_entry (i : Z) (e : StateChangelogEntry) (b : StateChangelogBuffer) : option StateChangelogBuffer :=
  _ ← scb_entries b !! Z.to_nat i;
  Some (mkChangelog (<[Z.to_nat i := e]> (scb_entries b)) (scb_write_pos b) (scb_read_pos b) (scb_capacity b)
          (scb_current_epoch b) (scb_total_pushed b) (scb_total_drained b) (scb_overflow_count b)).
Definition publish_entry (pos : Z) (b : StateChangelogBuffer) : StateChangelogBuffer :=
  mkChangelog (scb_entries b) pos (scb_read_pos b) (scb_capacity b) (scb_current_epoch b) (u64_add (scb_total_pushed b) 1)
    (scb_total_drained b) (scb_overflow_count b).
Definition release_entry (pos : Z) (b : StateChangelogBuffer) : StateChangelogBuffer :=
  mkChangelog (scb_entries b) (scb_write_pos b) pos (scb_capacity b) (scb_current_epoch b) (scb_total_pushed b)
    (u64_add (scb_total_drained b) 1) (scb_overflow_count b).

Definition SCB_push (entry : StateChangelogEntry) (b : StateChangelogBuffer) : option (StateChangelogBuffer * bool) :=
  let write_pos := scb_write_pos b in
  let next := next_pos b write_pos in
  if next =? scb_read_pos b then Some (count_overflow b, false)
  else b ← write_entry write_pos entry b; Some (publish_entry next b, true).
Definition SCB_push_put `{!KeyHash} (key : list Z) (mmap_offset value_len : Z) (b : StateChangelogBuffer) :=
  SCB_push (Entry_from_key key (scb_current_epoch b) mmap_offset value_len StatePut) b.
Definition SCB_push_delete `{!KeyHash} (key : list Z) (b : StateChangelogBuffer) :=
  SCB_push (Entry_from_key key (scb_current_epoch b) 0 0 StateDelete) b.
Definition SCB_pop (b : StateChangelogBuffer) : option (StateChangelogBuffer * option StateChangelogEntry) :=
  let read_pos := scb_read_pos b in
  if read_pos =? scb_write_pos b then Some (b, None)
  else entry ← scb_entries b !! Z.to_nat read_pos; Some (release_entry (next_pos b read_pos) b, Some entry).

(** The iterator run to its end; [fuel] bounds the entries there can be. *)
Fixpoint drain_iter (fuel : nat) (remaining : Z) (b : StateChangelogBuffer)
  : option (StateChangelogBuffer * list StateChangelogEntry) :=
  match fuel with
  | O => None
  | S fuel =>
      if remaining =? 0 then Some (b, []) else
      '(b, entry) ← SCB_pop b;
      match entry with
      | None => Some (b, [])
      | Some e => '(b, es) ← drain_iter fuel (remaining - 1) b; Some (b, e :: es)
      end
  end.
Definition SCB_drain (max_count : Z) (b : StateChangelogBuffer) := drain_iter (S (length (scb_entries b))) max_count b.
Definition SCB_drain_all (b : StateChangelogBuffer) := SCB_drain (u64_MOD - 1) b.

Definition SCB_len (b : StateChangelogBuffer) : Z := Z.land (u64_sub (scb_write_pos b) (scb_read_pos b)) (scb_mask b).
Definition SCB_is_empty (b : StateChangelogBuffer) : bool := scb_write_pos b =? scb_read_pos b.
Definition SCB_is_full (b : StateChangelogBuffer) : bool := next_pos b (scb_write_pos b) =? scb_read_pos b.
Definition SCB_available (b : StateChangelogBuffer) : Z := scb_capacity b - SCB_len b - 1.
Definition SCB_clear (b : StateChangelogBuffer) : StateChangelogBuffer :=
  mkChangelog (scb_entries b) (scb_write_pos b) (scb_write_pos b) (scb_capacity b) (scb_current_epoch b)
    (scb_total_pushed b) (scb_total_drained b) (scb_overflow_count b).
Definition SCB_checkpoint_barrier (b : StateChangelogBuffer) : Z * Z := (scb_current_epoch b, scb_write_pos b).

(** ** The drainer, beside the buffer it shares with the producer *)

Record ChangelogDrainer := mkDrainer {
  cd_pending : list StateChangelogEntry;
  cd_max_batch_size : nat;
  cd_max_pending : nat;
  cd_total_drained : Z }.

Definition DEFAULT_MAX_PENDING : nat := 256 * 1024.
Definition Drainer_new (max_batch_size : nat) : ChangelogDrainer := mkDrainer [] max_batch_size DEFAULT_MAX_PENDING 0.
Definition Drainer_with_max_pending (max_pending : nat) (d : ChangelogDrainer) : ChangelogDrainer :=
  mkDrainer (cd_pending d) (cd_max_batch_size d) max_pending (cd_total_drained d).

(** The oldest half goes when the limit is reached. *)
Definition shed (d : ChangelogDrainer) : list StateChangelogEntry :=
  if decide (cd_max_pending d <= length (cd_pending d))%nat then
    let keep := (cd_max_pending d / 2)%nat in
    let drop_count := (length (cd_pending d) - keep)%nat in
    drop drop_count (cd_pending d)
  else cd_pending d.
(** [while count < limit]: [limit] is what is left of it. *)
Fixpoint pop_loop (limit : nat) (b : StateChangelogBuffer) (pending : list StateChangelogEntry)
  : option (StateChangelogBuffer * list StateChangelogEntry) :=
  match limit with
  | O => Some (b, pending)
  | S limit =>
      '(b, entry) ← SCB_pop b;
      match entry with None => Some (b, pending) | Some e => pop_loop limit b (pending ++ [e]) end
  end.
Definition Drainer_drain (d : ChangelogDrainer) (b : StateChangelogBuffer)
  : option (ChangelogDrainer * StateChangelogBuffer * nat) :=
  let pending := shed d in
  let room := (cd_max_pending d - length pending)%nat in
  let limit := Nat.min (cd_max_batch_size d) room in
  '(b, pending') ← pop_loop limit b pending;
  let count := (length pending' - length pending)%nat in
  Some (mkDrainer pending' (cd_max_batch_size d) (cd_max_pending d) (u64_add (cd_total_drained d) (Z.of_nat count)), b, count).
Definition Drainer_take_pending (d : ChangelogDrainer) : ChangelogDrainer * list StateChangelogEntry :=
  (mkDrainer [] (cd_max_batch_size d) (cd_max_pending d) (cd_total_drained d), cd_pending d).
Definition Drainer_clear_pending (d : ChangelogDrainer) : ChangelogDrainer :=
  mkDrainer [] (cd_max_batch_size d) (cd_max_pending d) (cd_total_drained d).

(** ** Atomic steps, named as those of the queue *)

Abbreviation LogEvent := (fifo_event StateChangelogEntry).

Definition scb_push_step (pc : push_pc StateChangelogEntry) (b : StateChangelogBuffer)
  : option (StateChangelogBuffer * push_pc StateChangelogEntry * option LogEvent) :=
  match pc with
  | PuStart entry => Some (b, PuTail entry (scb_write_pos b), None)
  | PuTail entry write_pos =>
      let next := next_pos b write_pos in
      if next =? scb_read_pos b then Some (count_overflow b, PuDone (inr entry), Some (Full entry))
      else Some (b, PuWrite entry write_pos next, None)
  | PuWrite entry write_pos next => b ← write_entry write_pos entry b; Some (b, PuPublish entry next, None)
  | PuPublish entry next => Some (publish_entry next b, PuDone (inl tt), Some (Enq entry))
  | PuDone _ => None
  end.
Definition scb_pop_step (pc : pop_pc StateChangelogEntry) (b : StateChangelogBuffer)
  : option (StateChangelogBuffer * pop_pc StateChangelogEntry * option LogEvent) :=
  match pc with
  | PoStart => Some (b, PoHead (scb_read_pos b), None)
  | PoHead read_pos => if read_pos =? scb_write_pos b then Some (b, PoDone None, Some Empty) else Some (b, PoRead read_pos, None)
  | PoRead read_pos => entry ← scb_entries b !! Z.to_nat read_pos; Some (b, PoStore read_pos entry, None)
  | PoStore read_pos entry => Some (release_entry (next_pos b read_pos) b, PoDone (Some entry), Some (Deq [entry]))
  | _ => None
  end.

Record scb_sys := mkScb { sb_buffer : StateChangelogBuffer; sb_push : push_pc StateChangelogEntry; sb_pop : pop_pc StateChangelogEntry }.
Inductive scb_step : scb_sys → option LogEvent → scb_sys → Prop :=
  | scb_call_push b pu po e : push_returned pu → scb_step (mkScb b pu po) None (mkScb b (PuStart e) po)
  | scb_step_push b pu po b' pu' o : scb_push_step pu b = Some (b', pu', o) → scb_step (mkScb b pu po) o (mkScb b' pu' po)
  | scb_call_pop b pu po : pop_returned po → scb_step (mkScb b pu po) None (mkScb b pu PoStart)
  | scb_step_pop b pu po b' po' o : scb_pop_step po b = Some (b', po', o) → scb_step (mkScb b pu po) o (mkScb b' pu po').
Definition scb_start (b : StateChangelogBuffer) : scb_sys := mkScb b (PuDone (inl tt)) (PoDone None).

(** ** Step by step like the queue *)

(** The buffer holds what the queue holds, and something in every other slot. *)
Record scb_rel (b : StateChangelogBuffer) (q : SpscQueue StateChangelogEntry) : Prop := {
  sr_len : length (scb_entries b) = length (sq_buffer q);
  sr_slot i e : sq_buffer q !! i = Some (Some e) → scb_entries b !! i = Some e;
  sr_write : scb_write_pos b = sq_tail q;
  sr_read : scb_read_pos b = sq_head q;
  sr_mask : scb_mask b = sq_capacity_mask q }.

Lemma rel_next b q pos : scb_rel b q → next_pos b pos = SpscQueue_next_index q pos.
Proof. intros Hr. unfold next_pos, SpscQueue_next_index. by rewrite (sr_mask _ _ Hr). Qed.

(** How the counters change with an event. *)
Definition counted_by (o : option LogEvent) (b b' : StateChangelogBuffer) : Prop :=
  scb_total_pushed b' = match o with Some (Enq _) => u64_add (scb_total_pushed b) 1 | _ => scb_total_pushed b end ∧
  scb_total_drained b' = match o with Some (Deq es) => u64_add (scb_total_drained b) (zlen es) | _ => scb_total_drained b end ∧
  scb_overflow_count b' = match o with Some (Full _) => u64_add (scb_overflow_count b) 1 | _ => scb_overflow_count b end.

Lemma write_entry_rel b q i e q' : scb_rel b q → slot_write i e q = Some q' →
  ∃ b', write_entry i e b = Some b' ∧ scb_rel b' q' ∧ counted_by None b b' ∧ scb_capacity b' = scb_capacity b.
Proof.
  intros [Hl Hs Hw Hr Hm]. unfold slot_write, write_entry. destruct (sq_buffer q !! Z.to_nat i) eqn:E; [|done]. intros [= <-].
  apply lookup_lt_Some in E as Hlt. destruct (lookup_lt_is_Some_2 (scb_entries b) (Z.to_nat i)) as [x ->]; [lia|].
  eexists. split; [done|]. split; [|done]. split; cbn; rewrite ?length_insert; try done.
  intros j y Hy. destruct (decide (j = Z.to_nat i)) as [->|Hne].
  - rewrite list_lookup_insert_eq in Hy by done. simplify_eq. by rewrite list_lookup_insert_eq by lia.
  - rewrite list_lookup_insert_ne in Hy by done. rewrite list_lookup_insert_ne by done. by apply Hs.
Qed.

Lemma push_step_rel b q pc q' pc' o : scb_rel b q → push_step pc q = Some (q', pc', o) →
  ∃ b', scb_push_step pc b = Some (b', pc', o) ∧ scb_rel b' q' ∧ counted_by o b b' ∧ scb_capacity b' = scb_capacity b.
Proof.
  intros Hr. pose proof Hr as [Hl Hs Hw Hrd Hm]. destruct pc as [e|e t|e t nt|e nt|]; cbn [push_step scb_push_step]; try done.
  - intros [= <- <- <-]. rewrite Hw. by exists b.
  - rewrite (rel_next b q t Hr), Hrd. destruct (_ =? _); intros [= <- <- <-]; eexists; (split; [done|]); by split.
  - destruct (slot_write t e q) as [q1|] eqn:E; [|done]. intros [= <- <- <-].
    destruct (write_entry_rel _ _ _ _ _ Hr E) as (b' & -> & Hr' & Hc). by exists b'.
  - intros [= <- <- <-]. eexists. split; [done|]. by split.
Qed.

(** Reading a slot copies the entry; the queue empties its slot. *)
Lemma read_entry_rel b q i e q' : scb_rel b q → slot_read i q = Some (e, q') → scb_entries b !! Z.to_nat i = Some e ∧ scb_rel b q'.
Proof.
  intros [Hl Hs Hw Hr Hm]. unfold slot_read. destruct (sq_buffer q !! Z.to_nat i) as [[x|]|] eqn:E; try done. intros [= -> <-].
  split; [by apply Hs|]. split; cbn; rewrite ?length_insert; try done. intros j y Hy.
  destruct (decide (j = Z.to_nat i)) as [->|Hne].
  - apply lookup_lt_Some in E. by rewrite list_lookup_insert_eq in Hy by done.
  - rewrite list_lookup_insert_ne in Hy by done. by apply Hs.
Qed.

(** The states of [pop] alone. *)
Definition plain_pop (pc : pop_pc StateChangelogEntry) : Prop :=
  match pc with PoStart | PoHead _ | PoRead _ | PoStore _ _ | PoDone _ => True | _ => False end.

Lemma pop_step_rel b q pc q' pc' o : scb_rel b q → plain_pop pc → pop_step pc q = Some (q', pc', o) →
  ∃ b', scb_pop_step pc b = Some (b', pc', o) ∧ scb_rel b' q' ∧ counted_by o b b' ∧ scb_capacity b' = scb_capacity b ∧ plain_pop pc'.
Proof.
  intros Hr. pose proof Hr as [Hl Hs Hw Hrd Hm]. destruct pc; cbn [pop_step scb_pop_step plain_pop]; try done; intros _.
  - intros [= <- <- <-]. rewrite Hrd. by exists b.
  - rewrite Hw. destruct (_ =? _); intros [= <- <- <-]; by exists b.
  - destruct (slot_read head q) as [[e q1]|] eqn:E; [|done]. intros [= <- <- <-].
    destruct (read_entry_rel _ _ _ _ _ Hr E) as [-> Hr']. by exists b.
  - intros [= <- <- <-]. eexists. split; [done|]. rewrite (rel_next b q head Hr). split; [by split|done].
Qed.

(** ** Every interleaving *)

(** The entries a producer was told there is no room for. *)
Definition fulls (tr : list LogEvent) : list StateChangelogEntry := tr ≫= λ e, match e with Full x => [x] | _ => [] end.

Record counters (tr : list LogEvent) (b : StateChangelogBuffer) : Prop := {
  co_pushed : scb_total_pushed b = wrap_u64 (zlen (enqs tr));
  co_drained : scb_total_drained b = wrap_u64 (zlen (deqs tr));
  co_overflow : scb_overflow_count b = wrap_u64 (zlen (fulls tr)) }.

Lemma counters_step tr b b' o : counters tr b → counted_by o b b' → counters (tr ++ option_list o) b'.
Proof.
  intros [H1 H2 H3] (C1 & C2 & C3). assert (Hadd : ∀ x y, u64_add (wrap_u64 x) y = wrap_u64 (x + y)).
  { intros x y. unfold u64_add, wrap_u64. by rewrite Zplus_mod_idemp_l. }
  destruct o as [e|]; cbn [option_list]; [|rewrite app_nil_r; split; congruence].
  split; unfold enqs, deqs, fulls in *; rewrite bind_app, length_app, Nat2Z.inj_add; rewrite ?C1, ?C2, ?C3, ?H1, ?H2, ?H3; destruct e; cbn;
    rewrite ?app_nil_r, ?Hadd, ?Z.add_0_r; done.
Qed.

(** The state of the buffer along a run: a state of the queue explains it. *)
Definition scb_ok (cap : Z) (tr : list LogEvent) (xs : list StateChangelogEntry) (s : scb_sys) : Prop :=
  ∃ q, scb_rel (sb_buffer s) q ∧ spsc_ok cap xs (mkSpsc q (sb_push s) (sb_pop s)) ∧ plain_pop (sb_pop s) ∧
    counters tr (sb_buffer s) ∧ scb_capacity (sb_buffer s) = cap.

Lemma scb_step_ok cap tr xs s o s' : scb_ok cap tr xs s → scb_step s o s' →
  ∃ xs', match o with None => xs' = xs | Some e => fifo_spec cap xs e = Some xs' end ∧ scb_ok cap (tr ++ option_list o) xs' s'.
Proof.
  intros (q & Hr & Hok & Hpl & Hc & Hcap) Hst. destruct Hst as [b pu po e Hret|b pu po b' pu' o Hs|b pu po Hret|b pu po b' po' o Hs]; cbn [sb_buffer sb_push sb_pop option_list] in *.
  - exists xs. split; [done|]. exists q. rewrite app_nil_r. split_and!; try done.
    by apply (spsc_simulates cap xs _ None _ Hok), call_push.
  - pose proof Hok as (r & w & Hi & Hpu & Hpo). cbn [ss_queue ss_push ss_pop] in *. assert (Hnr : ¬ push_returned pu) by (intros ?; by destruct pu).
    destruct (push_step_ok _ _ _ _ _ _ _ Hi Hpu Hpo Hnr) as (q' & pu1 & o1 & Hs' & _).
    destruct (push_step_rel _ _ _ _ _ _ Hr Hs') as (b1 & Hb1 & Hr1 & Hcn & Hcap1). rewrite Hs in Hb1. simplify_eq.
    pose proof (spsc_simulates _ _ _ _ _ Hok (step_push _ _ po _ _ _ Hs')) as Hsim.
    assert (Hres : ∃ xs', match o1 with None => xs' = xs | Some e => fifo_spec (scb_capacity b) xs e = Some xs' end ∧ spsc_ok (scb_capacity b) xs' (mkSpsc q' pu1 po)).
    { destruct o1; [exact Hsim|by exists xs]. }
    destruct Hres as (xs' & He & Hok'). exists xs'. split; [done|]. exists q'. split_and!; try done. by eapply counters_step.
  - exists xs. split; [done|]. exists q. rewrite app_nil_r. split_and!; try done.
    by apply (spsc_simulates cap xs _ None _ Hok), call_pop.
  - pose proof Hok as (r & w & Hi & Hpu & Hpo). cbn [ss_queue ss_push ss_pop] in *. assert (Hnr : ¬ pop_returned po) by (intros ?; by destruct po).
    destruct (pop_step_ok _ _ _ _ _ _ _ Hi Hpu Hpo Hnr) as (q' & po1 & o1 & Hs' & _).
    destruct (pop_step_rel _ _ _ _ _ _ Hr Hpl Hs') as (b1 & Hb1 & Hr1 & Hcn & Hcap1 & Hpl'). rewrite Hs in Hb1. simplify_eq.
    pose proof (spsc_simulates _ _ _ _ _ Hok (step_pop _ pu _ _ _ _ Hs')) as Hsim.
    assert (Hres : ∃ xs', match o1 with None => xs' = xs | Some e => fifo_spec (scb_capacity b) xs e = Some xs' end ∧ spsc_ok (scb_capacity b) xs' (mkSpsc q' pu po1)).
    { destruct o1; [exact Hsim|by exists xs]. }
    destruct Hres as (xs' & He & Hok'). exists xs'. split; [done|]. exists q'. split_and!; try done. by eapply counters_step.
Qed.

Lemma scb_start_ok capacity b0 : 0 < capacity <= 2 ^ 63 → SCB_with_capacity capacity = Some b0 →
  scb_ok (next_power_of_two capacity) [] [] (scb_start b0) ∧ next_power_of_two capacity = 2 ^ Z.log2_up capacity.
Proof.
  intros Hc. unfold SCB_with_capacity. rewrite (proj2 (Z.ltb_lt _ _)) by lia. intros [= <-].
  destruct (next_power_of_two_pow capacity Hc) as (k & Hk & Hpow & Hle & Hlt). split.
  - rewrite Hpow. exists (ring_of_capacity (2 ^ k)). split_and!; [|by apply spsc_init_ok|done|done|done].
    split; cbn; rewrite ?length_replicate; try done. intros i e [? _]%lookup_replicate. done.
  - unfold next_power_of_two in *. destruct (Z.eq_dec capacity 1) as [->|]; [done|].
    assert (Hl : Z.log2_up capacity <= 63) by (apply Z.log2_up_le_pow2; lia). pose proof (Z.log2_up_nonneg capacity).
    assert (2 ^ Z.log2_up capacity <= 2 ^ 63) by (apply Z.pow_le_mono_r; lia). assert (0 < 2 ^ Z.log2_up capacity) by (apply Z.pow_pos_nonneg; lia).
    apply wrap_u64_small. unfold is_u64. change u64_MOD with (2 * 2 ^ 63). lia.
Qed.

Lemma scb_run_ok cap s0 tr s : scb_ok cap [] [] s0 → ltrace scb_step s0 tr s →
  ∃ xs, spec_run (fifo_spec cap) [] tr = Some xs ∧ scb_ok cap tr xs s.
Proof.
  intros Hs0 Htr. induction Htr as [s|s s1 s2 tr Htr IH Hst|s s1 s2 tr e Htr IH Hst].
  - by exists [].
  - destruct (IH Hs0) as (xs & Hrun & Hok). destruct (scb_step_ok _ _ _ _ _ _ Hok Hst) as (xs' & -> & Hok').
    cbn in Hok'. rewrite app_nil_r in Hok'. by exists xs.
  - destruct (IH Hs0) as (xs & Hrun & Hok). destruct (scb_step_ok _ _ _ _ _ _ Hok Hst) as (xs' & He & Hok').
    exists xs'. by rewrite spec_run_snoc, Hrun.
Qed.

(** ** The operations on their own *)

Definition scb_holds (cap : Z) (xs : list StateChangelogEntry) (b : StateChangelogBuffer) : Prop :=
  ∃ q, scb_rel b q ∧ ring_holds cap xs q ∧ scb_capacity b = cap.

Lemma scb_push_spec cap xs b e : scb_holds cap xs b →
  ∃ b', SCB_push e b = Some (b', negb (zlen xs + 1 =? cap)) ∧ scb_holds cap (if zlen xs + 1 =? cap then xs else xs ++ [e]) b'.
Proof.
  intros (q & Hr & Hq & Hc). pose proof Hr as [Hl Hs Hw Hrd Hm]. destruct (push_spec cap xs q e Hq) as (q' & Hp & Hq').
  unfold SpscQueue_push in Hp. unfold SCB_push. rewrite (rel_next b q _ Hr), Hw, Hrd.
  destruct (SpscQueue_next_index q (sq_tail q) =? sq_head q).
  - destruct (zlen xs + 1 =? cap); [|discriminate]. simplify_eq. eexists. split; [done|]. exists q'. split_and!; [by split|done|done].
  - destruct (slot_write (sq_tail q) e q) as [q1|] eqn:E; [|discriminate]. destruct (zlen xs + 1 =? cap); [discriminate|]. simplify_eq.
    destruct (write_entry_rel _ _ _ _ _ Hr E) as (b' & -> & Hr' & _ & Hc'). cbn [mbind option_bind negb]. eexists. split; [done|].
    eexists. split; [|split; [exact Hq'|exact Hc']]. by destruct Hr'; split.
Qed.

Lemma scb_pop_spec cap xs b : scb_holds cap xs b → ∃ b', SCB_pop b = Some (b', head xs) ∧ scb_holds cap (tail xs) b'.
Proof.
  intros (q & Hr & Hq & Hc). pose proof Hr as [Hl Hs Hw Hrd Hm]. destruct (pop_spec cap xs q Hq) as (q' & Hp & Hq').
  unfold SpscQueue_pop in Hp. unfold SCB_pop. rewrite Hw, Hrd. destruct (sq_head q =? sq_tail q).
  - injection Hp as <- <-. exists b. split; [done|]. by exists q.
  - destruct (slot_read (sq_head q) q) as [[e q1]|] eqn:E; [|discriminate]. injection Hp as Hq1 <-.
    destruct (read_entry_rel _ _ _ _ _ Hr E) as [-> Hr']. cbn [mbind option_bind]. rewrite (rel_next b q1 _ Hr').
    eexists. split; [done|]. rewrite <- Hq1 in Hq'. eexists. split; [|split; [exact Hq'|exact Hc]]. by destruct Hr'; split.
Qed.

Lemma pop_loop_spec cap n : ∀ xs b pending, scb_holds cap xs b →
  ∃ b', pop_loop n b pending = Some (b', pending ++ take n xs) ∧ scb_holds cap (drop n xs) b'.
Proof.
  induction n as [|n IH]; intros xs b pending Hb; cbn [pop_loop]; [exists b; by rewrite app_nil_r|].
  destruct (scb_pop_spec cap xs b Hb) as (b1 & -> & Hb1). cbn [mbind option_bind]. destruct xs as [|x xs]; cbn [head tail take drop] in *.
  - exists b1. by rewrite app_nil_r.
  - destruct (IH xs b1 (pending ++ [x]) Hb1) as (b2 & -> & Hb2). rewrite <- app_assoc. by exists b2.
Qed.

Lemma drain_iter_spec cap fuel : ∀ n xs b, scb_holds cap xs b → 0 <= n → (length xs < fuel)%nat →
  ∃ b', drain_iter fuel n b = Some (b', take (Z.to_nat n) xs) ∧ scb_holds cap (drop (Z.to_nat n) xs) b'.
Proof.
  induction fuel as [|fuel IH]; intros n xs b Hb Hn Hf; [lia|]. cbn [drain_iter]. destruct (n =? 0) eqn:E.
  { apply Z.eqb_eq in E as ->. by exists b. }
  apply Z.eqb_neq in E. destruct (scb_pop_spec cap xs b Hb) as (b1 & -> & Hb1). cbn [mbind option_bind].
  replace (Z.to_nat n) with (S (Z.to_nat (n - 1))) by lia. destruct xs as [|x xs]; cbn [head tail take drop length] in *; [by exists b1|].
  destruct (IH (n - 1) xs b1 Hb1) as (b2 & -> & Hb2); [lia..|]. by exists b2.
Qed.

Lemma scb_room cap xs b : scb_holds cap xs b → zlen xs < cap ∧ zlen (scb_entries b) = cap.
Proof.
  intros (q & Hr & Hq & Hc). pose proof (ri_room _ _ _ _ _ Hq) as H. rewrite length_app in H. cbn in H. split; [lia|].
  rewrite (sr_len _ _ Hr). by pose proof (ri_cap _ _ _ _ _ Hq) as (k & Hk & _ & _ & Hl & _).
Qed.

(** ** The drainer *)

Inductive DrainOp := DPush (e : StateChangelogEntry) | DDrain | DTake | DClear.
Inductive DrainResult := RPushed (ok : bool) | RDrained (count : nat) | RTaken (l : list StateChangelogEntry) | RCleared.

Definition drain_step (op : DrainOp) (s : ChangelogDrainer * StateChangelogBuffer) : option (ChangelogDrainer * StateChangelogBuffer * DrainResult) :=
  let '(d, b) := s in
  match op with
  | DPush e => '(b, ok) ← SCB_push e b; Some (d, b, RPushed ok)
  | DDrain => '(d, b, n) ← Drainer_drain d b; Some (d, b, RDrained n)
  | DTake => let '(d, l) := Drainer_take_pending d in Some (d, b, RTaken l)
  | DClear => Some (Drainer_clear_pending d, b, RCleared)
  end.
Fixpoint drain_run (ops : list DrainOp) (s : ChangelogDrainer * StateChangelogBuffer)
  : option (ChangelogDrainer * StateChangelogBuffer * list DrainResult) :=
  match ops with
  | [] => Some (s.1, s.2, [])
  | op :: ops => '(d, b, r) ← drain_step op s; '(d, b, rs) ← drain_run ops (d, b); Some (d, b, r :: rs)
  end.

(** What became of the entries, oldest first: those that left the drainer, those that
    are pending, those still in the buffer. *)
Record Custody := mkCustody { cu_gone : list StateChangelogEntry; cu_pending : list StateChangelogEntry; cu_queue : list StateChangelogEntry }.

Definition custody_step (cap : Z) (batch max : nat) (op : DrainOp) (c : Custody) : Custody * DrainResult :=
  let '(mkCustody gone pending queue) := c in
  match op with
  | DPush e => if zlen queue + 1 <? cap then (mkCustody gone pending (queue ++ [e]), RPushed true) else (c, RPushed false)
  | DDrain =>
      let surplus := if decide (max <= length pending)%nat then (length pending - max / 2)%nat else 0%nat in
      let kept := drop surplus pending in
      let n := Nat.min (Nat.min batch (max - length kept)) (length queue) in
      (mkCustody (gone ++ take surplus pending) (kept ++ take n queue) (drop n queue), RDrained n)
  | DTake => (mkCustody (gone ++ pending) [] queue, RTaken pending)
  | DClear => (mkCustody (gone ++ pending) [] queue, RCleared)
  end.
Fixpoint custody_run (cap : Z) (batch max : nat) (ops : list DrainOp) (c : Custody) : Custody * list DrainResult :=
  match ops with
  | [] => (c, [])
  | op :: ops => let '(c, r) := custody_step cap batch max op c in let '(c, rs) := custody_run cap batch max ops c in (c, r :: rs)
  end.
(** The entries whose push was accepted. *)
Fixpoint accepted (ops : list DrainOp) (rs : list DrainResult) : list StateChangelogEntry :=
  match ops, rs with
  | DPush e :: ops, RPushed true :: rs => e :: accepted ops rs
  | _ :: ops, _ :: rs => accepted ops rs
  | _, _ => []
  end.

Record drain_ok (cap : Z) (batch max : nat) (s : ChangelogDrainer * StateChangelogBuffer) (c : Custody) : Prop := {
  do_pending : cd_pending s.1 = cu_pending c;
  do_batch : cd_max_batch_size s.1 = batch;
  do_max : cd_max_pending s.1 = max;
  do_queue : scb_holds cap (cu_queue c) s.2;
  do_bound : (length (cu_pending c) <= max)%nat }.

Lemma drain_step_ok cap batch max op s c : drain_ok cap batch max s c →
  ∃ d b, drain_step op s = Some (d, b, (custody_step cap batch max op c).2) ∧ drain_ok cap batch max (d, b) (custody_step cap batch max op c).1.
Proof.
  destruct s as [d b], c as [gone pending queue]. intros [Hp Hb Hm Hq Hle]. cbn [fst snd cu_pending cu_queue] in *.
  destruct op as [e| | |]; cbn [drain_step custody_step].
  - destruct (scb_push_spec cap queue b e Hq) as (b' & -> & Hq'). cbn [mbind option_bind]. exists d, b'.
    destruct (scb_room _ _ _ Hq) as [Hroom _]. destruct (zlen queue + 1 =? cap) eqn:E.
    + rewrite (proj2 (Z.ltb_ge _ _)) by lia. split; [done|]. by split.
    + rewrite (proj2 (Z.ltb_lt _ _)) by lia. split; [done|]. by split.
  - unfold Drainer_drain. set (surplus := if decide (max <= length pending)%nat then (length pending - max / 2)%nat else 0%nat).
    assert (Hshed : shed d = drop surplus pending).
    { unfold shed, surplus. rewrite Hp, Hm. by case_decide. }
    rewrite Hshed, Hb, Hm. set (kept := drop surplus pending). set (limit := Nat.min batch (max - length kept)).
    destruct (pop_loop_spec cap limit queue b kept Hq) as (b' & -> & Hq'). cbn [mbind option_bind].
    assert (Hkl : (length kept <= max)%nat).
    { unfold kept, surplus. rewrite length_drop. case_decide; [|lia]. pose proof (Nat.div_le_upper_bound max 2 max). lia. }
    assert (Htake : take limit queue = take (Nat.min limit (length queue)) queue ∧ drop limit queue = drop (Nat.min limit (length queue)) queue).
    { destruct (decide (limit <= length queue)%nat) as [Hll|Hll]; [by rewrite Nat.min_l by lia|].
      rewrite Nat.min_r by lia. by rewrite !take_ge, !drop_ge by lia. }
    destruct Htake as [Ht Hd]. rewrite length_app. replace (length kept + length (take limit queue) - length kept)%nat with (Nat.min limit (length queue)) by (rewrite length_take; lia).
    eexists _, _. split; [done|]. cbn [fst]. split; cbn [fst snd cd_pending cd_max_batch_size cd_max_pending cu_pending cu_queue].
    + by rewrite Ht.
    + done.
    + done.
    + by rewrite <- Hd.
    + rewrite length_app, length_take. unfold limit. lia.
  - cbn. eexists _, _. split; [by rewrite Hp|]. split; cbn; try done; lia.
  - eexists _, _. split; [done|]. split; cbn; try done; lia.
Qed.

Lemma drain_run_ok cap batch max ops : ∀ s c, drain_ok cap batch max s c →
  ∃ d b, drain_run ops s = Some (d, b, (custody_run cap batch max ops c).2) ∧ drain_ok cap batch max (d, b) (custody_run cap batch max ops c).1.
Proof.
  induction ops as [|op ops IH]; intros s c Hs; cbn [drain_run custody_run]; [exists s.1, s.2; by destruct s|].
  destruct (drain_step_ok cap batch max op s c Hs) as (d & b & -> & Hs1). destruct (custody_step cap batch max op c) as [c1 r].
  cbn [mbind option_bind fst snd] in *. destruct (IH (d, b) c1 Hs1) as (d2 & b2 & -> & Hs2). cbn [mbind option_bind].
  exists d2, b2. by destruct (custody_run cap batch max ops c1).
Qed.

Lemma custody_conserves cap batch max ops : ∀ c, let '(c', rs) := custody_run cap batch max ops c in
  cu_gone c' ++ cu_pending c' ++ cu_queue c' = (cu_gone c ++ cu_pending c ++ cu_queue c) ++ accepted ops rs.
Proof.
  induction ops as [|op ops IH]; intros c; cbn [custody_run]; [by rewrite app_nil_r|].
  assert (Hstep : let '(c1, r) := custody_step cap batch max op c in
    cu_gone c1 ++ cu_pending c1 ++ cu_queue c1 = (cu_gone c ++ cu_pending c ++ cu_queue c) ++ accepted [op] [r]).
  { destruct c as [gone pending queue], op as [e| | |]; cbn [custody_step].
    - destruct (_ <? _); cbn; by rewrite ?app_nil_r, ?app_assoc.
    - cbn. rewrite app_nil_r. set (k := if decide _ then _ else _). rewrite <- app_assoc. f_equal.
      rewrite <- app_assoc, take_drop, app_assoc. by rewrite take_drop.
    - cbn. by rewrite app_nil_r, <- app_assoc.
    - cbn. by rewrite app_nil_r, <- app_assoc. }
  destruct (custody_step cap batch max op c) as [c1 r]. specialize (IH c1). destruct (custody_run cap batch max ops c1) as [c2 rs].
  rewrite IH, Hstep, <- app_assoc. f_equal. destruct op as [e| | |], r as [[]| | |]; done.
Qed.

Lemma scb_len_spec cap xs b : scb_holds cap xs b → SCB_len b = zlen xs.
Proof.
  intros (q & [_ _ Hw Hr Hm] & Hq & _). unfold SCB_len. rewrite Hw, Hr, Hm. by apply (ring_len_eq cap xs 0 None q).
Qed.

Lemma scb_new_holds capacity b0 : 0 < capacity <= 2 ^ 63 → SCB_with_capacity capacity = Some b0 →
  scb_holds (next_power_of_two capacity) [] b0.
Proof.
  intros Hc E. destruct (scb_start_ok capacity b0 Hc E) as [(q & Hr & (r & w & Hi & Hpu & Hpo) & _ & _ & Hcap) _].
  cbn in *. subst. by exists q.
Qed.

(** ** Properties *)

(** The changelog buffer is a FIFO queue under concurrency. However the accesses
    of the producer's [push] calls and the consumer's [pop] calls interleave, the run is
    a run of a queue that holds one entry less than the capacity: what was pushed is
    what was popped followed by what is left, "full" and "empty" are answered only when
    they are true, the counters count exactly the accepted entries, the popped entries
    and the refusals (modulo 2^64), and no call panics or gets stuck. *)
Theorem state_changelog_linearizable capacity b0 tr s : 0 < capacity <= 2 ^ 63 → SCB_with_capacity capacity = Some b0 →
  ltrace scb_step (scb_start b0) tr s →
  ∃ xs, spec_run (fifo_spec (next_power_of_two capacity)) [] tr = Some xs ∧ enqs tr = deqs tr ++ xs ∧
    scb_total_pushed (sb_buffer s) = wrap_u64 (zlen (enqs tr)) ∧ scb_total_drained (sb_buffer s) = wrap_u64 (zlen (deqs tr)) ∧
    scb_overflow_count (sb_buffer s) = wrap_u64 (zlen (fulls tr)) ∧
    (push_returned (sb_push s) ∨ is_Some (scb_push_step (sb_push s) (sb_buffer s))) ∧
    (pop_returned (sb_pop s) ∨ is_Some (scb_pop_step (sb_pop s) (sb_buffer s))).
Proof.
  intros Hc Hnew Htr. destruct (scb_start_ok _ _ Hc Hnew) as [Hs0 _].
  destruct (scb_run_ok _ _ _ _ Hs0 Htr) as (xs & Hrun & q & Hr & (r & w & Hi & Hpu & Hpo) & Hpl & [H1 H2 H3] & _).
  cbn [ss_queue ss_push ss_pop] in *. exists xs. split_and!; try done.
  - by apply (fifo_conserves (next_power_of_two capacity)).
  - destruct (decide (push_rank (sb_push s) = 0)) as [Hz|Hz]; [left; by destruct (sb_push s)|right].
    assert (Hnr : ¬ push_returned (sb_push s)) by (intros ?; by destruct (sb_push s)).
    destruct (push_step_ok _ _ _ _ _ _ _ Hi Hpu Hpo Hnr) as (q' & pc & o & Hst & _).
    destruct (push_step_rel _ _ _ _ _ _ Hr Hst) as (b' & -> & _). by eexists.
  - assert (Hd : pop_returned (sb_pop s) ∨ ¬ pop_returned (sb_pop s)) by (destruct (sb_pop s); cbn; tauto).
    destruct Hd as [Hd|Hnr]; [by left|right].
    destruct (pop_step_ok _ _ _ _ _ _ _ Hi Hpu Hpo Hnr) as (q' & pc & o & Hst & _).
    destruct (pop_step_rel _ _ _ _ _ _ Hr Hpl Hst) as (b' & -> & _). by eexists.
Qed.

(** A buffer of capacity 2: the consumer reads while the producer is refused. *)
Definition changelog_race : list LogEvent :=
  [Enq (Entry_delete 0 7); Full (Entry_delete 0 8); Deq [Entry_delete 0 7]; Empty].
Lemma changelog_race_run b0 : SCB_with_capacity 2 = Some b0 → ∃ s, ltrace scb_step (scb_start b0) changelog_race s.
Proof.
  intros [= <-]. eexists. unfold changelog_race, scb_start.
  eapply ltrace_tau_l; [by apply (scb_call_push _ _ _ (Entry_delete 0 7))|]. do 3 (eapply ltrace_tau_l; [by apply scb_step_push|]).
  eapply ltrace_event_l; [by apply scb_step_push|]. eapply ltrace_tau_l; [by apply scb_call_pop|].
  do 3 (eapply ltrace_tau_l; [by apply scb_step_pop|]). eapply ltrace_tau_l; [by apply (scb_call_push _ _ _ (Entry_delete 0 8))|].
  eapply ltrace_tau_l; [by apply scb_step_push|]. eapply ltrace_event_l; [by apply scb_step_push|].
  eapply ltrace_event_l; [by apply scb_step_pop|]. eapply ltrace_tau_l; [by apply scb_call_pop|].
  eapply ltrace_tau_l; [by apply scb_step_pop|]. eapply ltrace_event_l; [by apply scb_step_pop|]. apply steps_refl.
Qed.

Lemma state_changelog_linearizable_witness : ∃ b0 s, SCB_with_capacity 2 = Some b0 ∧
  ltrace scb_step (scb_start b0) changelog_race s ∧ scb_total_pushed (sb_buffer s) = 1 ∧ scb_overflow_count (sb_buffer s) = 1 ∧
  ∃ xs, spec_run (fifo_spec 2) [] changelog_race = Some xs.
Proof.
  destruct (SCB_with_capacity 2) as [b0|] eqn:Hb; [|discriminate Hb].
  destruct (changelog_race_run b0 Hb) as [s Hs]. exists b0, s. split; [reflexivity|]. split; [exact Hs|].
  destruct (state_changelog_linearizable 2 b0 changelog_race s) as (xs & Hrun & _ & Hp & _ & Ho & _);
    [split; [reflexivity|discriminate]|exact Hb|exact Hs|].
  split; [exact Hp|]. split; [exact Ho|]. exists xs. exact Hrun.
Defined.

(** [C23]: No entry is lost on its way to the checkpoint except by the two deliberate
    discards. For any order of pushes, drains, takes and clears the drainer never
    panics and answers as three lists do: the accepted entries, in order, are those
    that have left the drainer (taken, cleared, or shed, the oldest, when a drain finds
    the limit reached), then its pending entries, then those in the buffer. A take
    returns exactly the pending entries, of which there are never more than
    [max_pending], and draining the buffer returns the rest. *)
Theorem drainer_keeps_custody capacity b0 batch max ops : 0 < capacity <= 2 ^ 63 → SCB_with_capacity capacity = Some b0 →
  ∃ d b rs c, drain_run ops (Drainer_with_max_pending max (Drainer_new batch), b0) = Some (d, b, rs) ∧
    custody_run (next_power_of_two capacity) batch max ops (mkCustody [] [] []) = (c, rs) ∧
    accepted ops rs = cu_gone c ++ cd_pending d ++ cu_queue c ∧ (length (cd_pending d) <= max)%nat ∧
    SCB_len b = zlen (cu_queue c) ∧ ∃ b', SCB_drain_all b = Some (b', cu_queue c) ∧ SCB_len b' = 0.
Proof.
  intros Hc Hnew. pose proof (scb_new_holds _ _ Hc Hnew) as Hb0. set (cap := next_power_of_two capacity) in *.
  destruct (drain_run_ok cap batch max ops (Drainer_with_max_pending max (Drainer_new batch), b0) (mkCustody [] [] [])) as (d & b & Hrun & [Hp _ _ Hq Hle]).
  { split; cbn; try done; lia. }
  pose proof (custody_conserves cap batch max ops (mkCustody [] [] [])) as Hcon.
  destruct (custody_run cap batch max ops _) as [c rs]. cbn [fst snd] in *. exists d, b, rs, c. split; [exact Hrun|]. split; [done|].
  rewrite Hp. split; [by rewrite Hcon|]. split; [done|]. split; [by apply (scb_len_spec cap)|].
  destruct (scb_room _ _ _ Hq) as [Hroom Hel]. unfold SCB_drain_all, SCB_drain.
  assert (Hcap : cap < u64_MOD).
  { unfold cap, next_power_of_two, wrap_u64. apply Z.mod_pos_bound. lia. }
  destruct (drain_iter_spec cap (S (length (scb_entries b))) (u64_MOD - 1) (cu_queue c) b Hq) as (b' & -> & Hb'); [lia..|].
  rewrite take_ge, drop_ge in * by lia. exists b'. split; [done|]. by rewrite (scb_len_spec cap [] b' Hb').
Qed.

(** A limit of two pending entries: the third drain sheds the oldest. *)
Definition shedding_run : list DrainOp :=
  [DPush (Entry_delete 0 1); DPush (Entry_delete 0 2); DPush (Entry_delete 0 3); DDrain; DDrain; DTake].

Lemma drainer_keeps_custody_witness : ∃ b0 d b rs c, SCB_with_capacity 4 = Some b0 ∧
  drain_run shedding_run (Drainer_with_max_pending 2 (Drainer_new 8), b0) = Some (d, b, rs) ∧
  rs = [RPushed true; RPushed true; RPushed true; RDrained 2; RDrained 1; RTaken [Entry_delete 0 2; Entry_delete 0 3]] ∧
  accepted shedding_run rs = cu_gone c ++ cd_pending d ++ cu_queue c.
Proof.
  destruct (SCB_with_capacity 4) as [b0|] eqn:Hb; [|discriminate Hb].
  destruct (drainer_keeps_custody 4 b0 8 2 shedding_run) as (d & b & rs & c & Hrun & Hcr & Hacc & _);
    [split; [reflexivity|discriminate]|exact Hb|].
  exists b0, d, b, rs, c. split; [reflexivity|]. split; [exact Hrun|]. split; [|exact Hacc].
  assert (Hrs : (custody_run (next_power_of_two 4) 8 2 shedding_run (mkCustody [] [] [])).2 = rs) by (by rewrite Hcr).
  rewrite <- Hrs. vm_compute. reflexivity.
Defined.
