(* ===== verification/Channel.v ===== *)
(** * Streaming channels

    streaming/channel.rs, with the configuration of streaming/config.rs and the
    errors of streaming/error.rs: a ring buffer shared by producer handles and one
    consumer. A channel starts for one producer; cloning a producer handle switches
    it to a mode in which producers take a spin lock around [push]. The calls are
    translated as they run without interference, waits included; then the
    non-blocking calls, cloning and dropping are split at their atomic accesses and
    any number of handles is interleaved with the consumer.

    [None] as the result of a call stands for a call that does not return: undefined
    behaviour of the ring, a lock that nobody releases, or a wait that has not ended
    within the interference given to it. Spinning, yielding and parking differ only
    in time and are not told apart. *)

From S2P Require Import Prelude RingBuffer.

Inductive ChannelMode := Spsc | Mpsc.
#[export] Instance ChannelMode_eq_dec : EqDecision ChannelMode.
Proof. solve_decision. Defined.

Definition ChannelMode_as_u8 (m : ChannelMode) : Z := match m with Spsc => 0 | Mpsc => 1 end.
Definition ChannelMode_from (v : Z) : ChannelMode := if v =? 0 then Spsc else Mpsc.

Inductive BackpressureStrategy := Block | DropOldest | Reject.
Inductive WaitStrategy := Spin | SpinYield | Park.

Definition DEFAULT_BUFFER_SIZE : Z := 2048.

Record ChannelConfig := mkConfig {
  cc_buffer_size : Z;
  cc_backpressure : BackpressureStrategy;
  cc_wait_strategy : WaitStrategy;
  cc_track_stats : bool }.

Definition ChannelConfig_default : ChannelConfig := mkConfig DEFAULT_BUFFER_SIZE Block SpinYield false.
Definition ChannelConfig_with_buffer_size (buffer_size : Z) : ChannelConfig :=
  let d := ChannelConfig_default in
  mkConfig (clamp MIN_BUFFER_SIZE MAX_BUFFER_SIZE buffer_size) (cc_backpressure d)
    (cc_wait_strategy d) (cc_track_stats d).
Definition ChannelConfig_effective_buffer_size (c : ChannelConfig) : Z :=
  next_power_of_two (clamp MIN_BUFFER_SIZE MAX_BUFFER_SIZE (cc_buffer_size c)).

Record ChannelConfigBuilder := mkBuilder {
  cb_buffer_size : option Z;
  cb_backpressure : option BackpressureStrategy;
  cb_wait_strategy : option WaitStrategy;
  cb_track_stats : option bool }.
Definition ChannelConfigBuilder_default : ChannelConfigBuilder := mkBuilder None None None None.
Definition ChannelConfigBuilder_buffer_size (size : Z) (b : ChannelConfigBuilder) :=
  mkBuilder (Some size) (cb_backpressure b) (cb_wait_strategy b) (cb_track_stats b).
Definition ChannelConfigBuilder_backpressure (s : BackpressureStrategy) (b : ChannelConfigBuilder) :=
  mkBuilder (cb_buffer_size b) (Some s) (cb_wait_strategy b) (cb_track_stats b).
Definition ChannelConfigBuilder_wait_strategy (s : WaitStrategy) (b : ChannelConfigBuilder) :=
  mkBuilder (cb_buffer_size b) (cb_backpressure b) (Some s) (cb_track_stats b).
Definition ChannelConfigBuilder_track_stats (enabled : bool) (b : ChannelConfigBuilder) :=
  mkBuilder (cb_buffer_size b) (cb_backpressure b) (cb_wait_strategy b) (Some enabled).
Definition ChannelConfigBuilder_build (b : ChannelConfigBuilder) : ChannelConfig :=
  mkConfig (clamp MIN_BUFFER_SIZE MAX_BUFFER_SIZE (default DEFAULT_BUFFER_SIZE (cb_buffer_size b)))
    (default Block (cb_backpressure b)) (default SpinYield (cb_wait_strategy b))
    (default false (cb_track_stats b)).

Inductive StreamingError :=
  | ChannelFull
  | ChannelClosed
  | Disconnected
  | InvalidConfig (msg : string)
  | SchemaMismatch (expected actual : list string)
  | Timeout
  | Internal (msg : string).
Inductive RecvError := RecvDisconnected | RecvTimeout.

Record TryPushError {T : Type} := mkTryPushError { tp_value : T; tp_error : StreamingError }.
Arguments TryPushError : clear implicits.
Arguments mkTryPushError {T}.
Definition TryPushError_full {T} (value : T) : TryPushError T := mkTryPushError value ChannelFull.
Definition TryPushError_closed {T} (value : T) : TryPushError T := mkTryPushError value ChannelClosed.
Definition TryPushError_is_closed {T} (e : TryPushError T) : bool :=
  match tp_error e with ChannelClosed => true | _ => false end.
Definition TryPushError_is_full {T} (e : TryPushError T) : bool :=
  match tp_error e with ChannelFull => true | _ => false end.

Record ChannelStats := mkStats {
  cs_items_pushed : Z; cs_items_popped : Z; cs_push_blocked : Z; cs_items_dropped : Z; cs_pop_empty : Z }.

Record ChannelInner {T : Type} := mkInner {
  ci_buffer : RingBuffer T;
  ci_mode : Z;
  ci_producer_count : Z;
  ci_closed : bool;
  ci_config : ChannelConfig;
  ci_stats : ChannelStats;
  ci_mpsc_lock : Z }.
Arguments ChannelInner : clear implicits.
Arguments mkInner {T}.

Section Calls.
Context {T : Type}.
Implicit Types c : ChannelInner T.

(** [RingBuffer::new] panics on a capacity of 0 only. *)
Definition ChannelInner_new (config : ChannelConfig) : option (ChannelInner T) :=
  (λ b, mkInner b (ChannelMode_as_u8 Spsc) 1 false config (mkStats 0 0 0 0 0) 0) <$>
    RingBuffer_new (ChannelConfig_effective_buffer_size config).

(** The stores. *)
Definition set_buffer (b : RingBuffer T) c := mkInner b (ci_mode c) (ci_producer_count c) (ci_closed c)
  (ci_config c) (ci_stats c) (ci_mpsc_lock c).
Definition set_queue (q : SpscQueue T) c := set_buffer (mkRing q (rb_claim_counter (ci_buffer c))) c.
Definition set_lock (l : Z) c := mkInner (ci_buffer c) (ci_mode c) (ci_producer_count c) (ci_closed c)
  (ci_config c) (ci_stats c) l.
Definition set_count (n : Z) c := mkInner (ci_buffer c) (ci_mode c) n (ci_closed c)
  (ci_config c) (ci_stats c) (ci_mpsc_lock c).
Definition set_closed (b : bool) c := mkInner (ci_buffer c) (ci_mode c) (ci_producer_count c) b
  (ci_config c) (ci_stats c) (ci_mpsc_lock c).
Definition set_stats (s : ChannelStats) c := mkInner (ci_buffer c) (ci_mode c) (ci_producer_count c)
  (ci_closed c) (ci_config c) s (ci_mpsc_lock c).

Definition ChannelInner_mode c : ChannelMode := ChannelMode_from (ci_mode c).
Definition ChannelInner_is_mpsc c : bool := bool_decide (ChannelInner_mode c = Mpsc).
Definition ChannelInner_upgrade_to_mpsc c : ChannelInner T :=
  mkInner (ci_buffer c) (ChannelMode_as_u8 Mpsc) (ci_producer_count c) (ci_closed c) (ci_config c)
    (ci_stats c) (ci_mpsc_lock c).
Definition ChannelInner_acquire_mpsc_lock c : option (ChannelInner T) :=
  if ci_mpsc_lock c =? 0 then Some (set_lock 1 c) else None.
Definition ChannelInner_release_mpsc_lock c : ChannelInner T := set_lock 0 c.

Definition tracked (f : ChannelStats → ChannelStats) c : ChannelInner T :=
  if cc_track_stats (ci_config c) then set_stats (f (ci_stats c)) c else c.
Definition ChannelInner_track_push : ChannelInner T → ChannelInner T := tracked (λ s,
  mkStats (u64_add (cs_items_pushed s) 1) (cs_items_popped s) (cs_push_blocked s) (cs_items_dropped s)
    (cs_pop_empty s)).
Definition ChannelInner_track_push_blocked : ChannelInner T → ChannelInner T := tracked (λ s,
  mkStats (cs_items_pushed s) (cs_items_popped s) (u64_add (cs_push_blocked s) 1) (cs_items_dropped s)
    (cs_pop_empty s)).
Definition ChannelInner_track_dropped : ChannelInner T → ChannelInner T := tracked (λ s,
  mkStats (cs_items_pushed s) (cs_items_popped s) (cs_push_blocked s) (u64_add (cs_items_dropped s) 1)
    (cs_pop_empty s)).
Definition ChannelInner_track_pop : ChannelInner T → ChannelInner T := tracked (λ s,
  mkStats (cs_items_pushed s) (u64_add (cs_items_popped s) 1) (cs_push_blocked s) (cs_items_dropped s)
    (cs_pop_empty s)).
Definition ChannelInner_track_pop_empty : ChannelInner T → ChannelInner T := tracked (λ s,
  mkStats (cs_items_pushed s) (cs_items_popped s) (cs_push_blocked s) (cs_items_dropped s)
    (u64_add (cs_pop_empty s) 1)).

(** ** Producer *)

Definition Producer_try_push_spsc (item : T) c : option (ChannelInner T * (unit + TryPushError T)) :=
  match RingBuffer_push item (ci_buffer c) with
  | None => None
  | Some (b, inl _) => Some (ChannelInner_track_push (set_buffer b c), inl tt)
  | Some (b, inr item) => Some (set_buffer b c, inr (TryPushError_full item))
  end.

Definition Producer_try_push_mpsc (item : T) c : option (ChannelInner T * (unit + TryPushError T)) :=
  match ChannelInner_acquire_mpsc_lock c with
  | None => None
  | Some c =>
      match RingBuffer_push item (ci_buffer c) with
      | None => None
      | Some (b, r) =>
          let '(c, result) :=
            match r with
            | inl _ => (ChannelInner_track_push (set_buffer b c), inl tt)
            | inr item => (set_buffer b c, inr (TryPushError_full item))
            end in
          Some (ChannelInner_release_mpsc_lock c, result)
      end
  end.

Definition Producer_try_push (item : T) c : option (ChannelInner T * (unit + TryPushError T)) :=
  if ci_closed c then Some (c, inr (TryPushError_closed item))
  else if ChannelInner_is_mpsc c then Producer_try_push_mpsc item c
  else Producer_try_push_spsc item c.

Fixpoint Producer_push_batch (items : list T) c : option (ChannelInner T * Z) :=
  match items with
  | [] => Some (c, 0)
  | item :: items =>
      match Producer_try_push item c with
      | None => None
      | Some (c, inr _) => Some (c, 0)
      | Some (c, inl _) => prod_map id (Z.add 1) <$> Producer_push_batch items c
      end
  end.

(** What the other threads do to the channel between two looks at it; a blocking
    call takes one such change per round of its loops. *)
Abbreviation interference := (list (ChannelInner T → ChannelInner T)).

(** [push_blocking] with its [wait_for_space]. *)
Fixpoint Producer_push_blocking (env : interference) (waiting : bool) (item : T) c
  : option (ChannelInner T * (unit + StreamingError)) :=
  match env with
  | [] => None
  | g :: env =>
      let c := g c in
      if waiting then
        Producer_push_blocking env (RingBuffer_is_full (ci_buffer c)) item c
      else
        match Producer_try_push item c with
        | None => None
        | Some (c, inl _) => Some (c, inl tt)
        | Some (c, inr e) =>
            if TryPushError_is_closed e then Some (c, inr ChannelClosed)
            else Producer_push_blocking env true (tp_value e) (ChannelInner_track_push_blocked c)
        end
  end.

Definition Producer_push_drop_oldest (item : T) c : option (ChannelInner T * (unit + StreamingError)) :=
  match Producer_try_push item c with
  | None => None
  | Some (c, inl _) => Some (c, inl tt)
  | Some (c, inr e) =>
      if TryPushError_is_closed e then Some (c, inr ChannelClosed)
      else Some (ChannelInner_track_dropped c, inl tt)
  end.

Definition Producer_push_reject (item : T) c : option (ChannelInner T * (unit + StreamingError)) :=
  match Producer_try_push item c with
  | None => None
  | Some (c, inl _) => Some (c, inl tt)
  | Some (c, inr e) =>
      if TryPushError_is_closed e then Some (c, inr ChannelClosed) else Some (c, inr ChannelFull)
  end.

Definition Producer_push (env : interference) (item : T) c
  : option (ChannelInner T * (unit + StreamingError)) :=
  if ci_closed c then Some (c, inr ChannelClosed)
  else match cc_backpressure (ci_config c) with
       | Block => Producer_push_blocking env false item c
       | DropOldest => Producer_push_drop_oldest item c
       | Reject => Producer_push_reject item c
       end.

Definition Producer_clone c : ChannelInner T :=
  let c := ChannelInner_upgrade_to_mpsc c in set_count (u64_add (ci_producer_count c) 1) c.

Definition Producer_drop c : ChannelInner T :=
  let prev := ci_producer_count c in
  let c := set_count (u64_sub prev 1) c in
  if prev =? 1 then set_closed true c else c.

(** ** Consumer *)

(** [poll_spsc] and [poll_mpsc] are the same code. *)
Definition Consumer_poll_any c : option (ChannelInner T * option T) :=
  match RingBuffer_pop (ci_buffer c) with
  | None => None
  | Some (b, Some item) => Some (ChannelInner_track_pop (set_buffer b c), Some item)
  | Some (b, None) => Some (ChannelInner_track_pop_empty (set_buffer b c), None)
  end.
Definition Consumer_poll c : option (ChannelInner T * option T) :=
  if ChannelInner_is_mpsc c then Consumer_poll_any c else Consumer_poll_any c.

Definition Consumer_is_disconnected c : bool := ci_closed c && RingBuffer_is_empty (ci_buffer c).

(** Where [recv] is in its loop: before the poll, or in [wait_for_item]. *)
Fixpoint Consumer_recv (env : interference) (waiting : bool) c
  : option (ChannelInner T * (T + RecvError)) :=
  match env with
  | [] => None
  | g :: env =>
      let c := g c in
      if waiting then
        Consumer_recv env
          (RingBuffer_is_empty (ci_buffer c) && negb (Consumer_is_disconnected c)) c
      else
        match Consumer_poll c with
        | None => None
        | Some (c, Some item) => Some (c, inl item)
        | Some (c, None) =>
            if Consumer_is_disconnected c then Some (c, inr RecvDisconnected)
            else Consumer_recv env true c
        end
  end.

(** [recv_timeout]: every round reads the clock; the wait of a round is bounded by
    the deadline and then polls again. *)
Fixpoint Consumer_recv_timeout (env : list ((ChannelInner T → ChannelInner T) * Instant))
    (deadline : Instant) c : option (ChannelInner T * (T + RecvError)) :=
  match env with
  | [] => None
  | (g, now) :: env =>
      match Consumer_poll (g c) with
      | None => None
      | Some (c, Some item) => Some (c, inl item)
      | Some (c, None) =>
          if Consumer_is_disconnected c then Some (c, inr RecvDisconnected)
          else if deadline <=? now then Some (c, inr RecvTimeout)
          else Consumer_recv_timeout env deadline c
      end
  end.

Fixpoint Consumer_pop_batch (max_count : nat) c : option (ChannelInner T * list T) :=
  match max_count with
  | O => Some (c, [])
  | S max_count =>
      match Consumer_poll c with
      | None => None
      | Some (c, None) => Some (c, [])
      | Some (c, Some item) => prod_map id (cons item) <$> Consumer_pop_batch max_count c
      end
  end.
(** Appends to the caller's vector; the count returned is the number of new items. *)
Definition Consumer_pop_batch_into (buffer : list T) (max_count : nat) c
  : option (ChannelInner T * list T * Z) :=
  (λ '(c, items), (c, buffer ++ items, zlen items)) <$> Consumer_pop_batch max_count c.
Definition Consumer_pop_each (max_count : Z) (f : list T → bool) c
  : option (ChannelInner T * list T) :=
  prod_map (λ b, set_buffer b c) id <$> RingBuffer_pop_each max_count f (ci_buffer c).
Definition Consumer_drop c : ChannelInner T := set_closed true c.

Definition channel_with_config (config : ChannelConfig) : option (ChannelInner T) :=
  ChannelInner_new config.
Definition channel (buffer_size : Z) : option (ChannelInner T) :=
  channel_with_config (ChannelConfig_with_buffer_size buffer_size).

End Calls.

(** ** Handles and consumer, interleaved *)

(** A producer handle, used by one thread: [try_push], [clone] and [drop] between
    their accesses to shared memory. *)
Inductive handle_pc {T : Type} :=
  | HIdle (result : unit + TryPushError T)
  | TpClosed (item : T)
  | TpMode (item : T)
  | TpAcquire (item : T)
  | TpPush (locked : bool) (pc : push_pc T)
  | TpTrack (locked : bool)
  | TpRelease (result : unit + TryPushError T)
  | ClMode
  | ClCount.
Arguments handle_pc : clear implicits.

(** The consumer: [poll], [pop_each], [is_disconnected] and [drop]. *)
Inductive consumer_pc {T : Type} :=
  | CIdle
  | CoMode
  | CoPop (pc : pop_pc T)
  | CoTrack (result : option T)
  | CdClosed
  | CdHead
  | CdTail (head : Z)
  | CGone.
Arguments consumer_pc : clear implicits.

Inductive chan_event {T : Type} :=
  | Fifo (e : fifo_event T)
  | SendClosed (item : T)
  | Cloned
  | Dropped
  | SawDisconnected
  | ConsumerGone.
Arguments chan_event : clear implicits.

Section ChanSteps.
Context {T : Type}.
Implicit Types c : ChannelInner T.

Definition queue_of c : SpscQueue T := rb_queue (ci_buffer c).

Definition try_push_finish (locked : bool) (res : unit + T) : handle_pc T :=
  match res with
  | inl _ => TpTrack locked
  | inr item =>
      let r := inr (TryPushError_full item) in if locked then TpRelease r else HIdle r
  end.

Definition handle_step (h : handle_pc T) c : option (ChannelInner T * handle_pc T * option (chan_event T)) :=
  match h with
  | TpClosed item =>
      if ci_closed c then Some (c, HIdle (inr (TryPushError_closed item)), Some (SendClosed item))
      else Some (c, TpMode item, None)
  | TpMode item =>
      if ChannelInner_is_mpsc c then Some (c, TpAcquire item, None)
      else Some (c, TpPush false (PuStart item), None)
  | TpAcquire item =>
      match ChannelInner_acquire_mpsc_lock c with
      | Some c => Some (c, TpPush true (PuStart item), None)
      | None => Some (c, TpAcquire item, None)
      end
  | TpPush locked pc =>
      match push_step pc (queue_of c) with
      | None => None
      | Some (q, pc, e) =>
          Some (set_queue q c,
                match pc with PuDone res => try_push_finish locked res | _ => TpPush locked pc end,
                option_map Fifo e)
      end
  | TpTrack locked =>
      Some (ChannelInner_track_push c, if locked then TpRelease (inl tt) else HIdle (inl tt), None)
  | TpRelease result => Some (ChannelInner_release_mpsc_lock c, HIdle result, None)
  | ClMode => Some (ChannelInner_upgrade_to_mpsc c, ClCount, None)
  | ClCount => Some (set_count (u64_add (ci_producer_count c) 1) c, HIdle (inl tt), Some Cloned)
  | HIdle _ => None
  end.

Definition consumer_step (k : consumer_pc T) c
  : option (ChannelInner T * consumer_pc T * option (chan_event T)) :=
  match k with
  | CoMode => Some (c, CoPop PoStart, None)
  | CoPop pc =>
      match pop_step pc (queue_of c) with
      | None => None
      | Some (q, pc, e) =>
          Some (set_queue q c,
                match pc with PoDone r => CoTrack r | BaDone _ => CIdle | _ => CoPop pc end,
                option_map Fifo e)
      end
  | CoTrack r =>
      Some (match r with Some _ => ChannelInner_track_pop c | None => ChannelInner_track_pop_empty c end,
            CIdle, None)
  | CdClosed => Some (c, if ci_closed c then CdHead else CIdle, None)
  | CdHead => Some (c, CdTail (sq_head (queue_of c)), None)
  | CdTail head =>
      if head =? sq_tail (queue_of c) then Some (c, CIdle, Some SawDisconnected)
      else Some (c, CIdle, None)
  | CIdle | CGone => None
  end.

Record chan_sys := mkChan {
  sy_inner : ChannelInner T;
  sy_handles : gmap Z (handle_pc T);
  sy_closing : bool;                 (* the last handle was dropped, [closed] not yet stored *)
  sy_consumer : consumer_pc T }.

(** The new handle of a finished [clone] gets a fresh name. There are fewer handles
    than a [usize] can count. *)
Inductive chan_step : chan_sys → option (chan_event T) → chan_sys → Prop :=
  | call_try_push c hs cl k i r item : hs !! i = Some (HIdle r) →
      chan_step (mkChan c hs cl k) None (mkChan c (<[i := TpClosed item]> hs) cl k)
  | call_clone c hs cl k i r : hs !! i = Some (HIdle r) →
      chan_step (mkChan c hs cl k) None (mkChan c (<[i := ClMode]> hs) cl k)
  | step_handle c hs cl k i h c' h' e : hs !! i = Some h → h ≠ ClCount →
      handle_step h c = Some (c', h', e) →
      chan_step (mkChan c hs cl k) e (mkChan c' (<[i := h']> hs) cl k)
  | step_clone c hs cl k i j c' h' e : hs !! i = Some ClCount → hs !! j = None →
      Z.of_nat (size hs) < u64_MOD - 1 → handle_step ClCount c = Some (c', h', e) →
      chan_step (mkChan c hs cl k) e
        (mkChan c' (<[j := HIdle (inl tt)]> (<[i := h']> hs)) cl k)
  | step_drop c hs cl k i r : hs !! i = Some (HIdle r) →
      chan_step (mkChan c hs cl k) (Some Dropped)
        (mkChan (set_count (u64_sub (ci_producer_count c) 1) c) (delete i hs)
           (if ci_producer_count c =? 1 then true else cl) k)
  | step_close c hs k :
      chan_step (mkChan c hs true k) None (mkChan (set_closed true c) hs false k)
  | call_poll c hs cl : chan_step (mkChan c hs cl CIdle) None (mkChan c hs cl CoMode)
  | call_consumer_pop_each c hs cl n f : 0 <= n →
      chan_step (mkChan c hs cl CIdle) None (mkChan c hs cl (CoPop (BaStart n f)))
  | call_is_disconnected c hs cl : chan_step (mkChan c hs cl CIdle) None (mkChan c hs cl CdClosed)
  | step_consumer c hs cl k c' k' e : consumer_step k c = Some (c', k', e) →
      chan_step (mkChan c hs cl k) e (mkChan c' hs cl k')
  | step_consumer_drop c hs cl :
      chan_step (mkChan c hs cl CIdle) (Some ConsumerGone) (mkChan (Consumer_drop c) hs cl CGone).

Definition chan_start c : chan_sys := mkChan c {[ 0 := HIdle (inl tt) ]} false CIdle.

(** The specification: the items, the number of handles, whether the consumer is
    there. A closed channel refuses only when the consumer is gone; the consumer
    sees the end only when no handle is left and everything was received, and a
    handle can only come from a handle. *)
Record chan_state := mkState { st_items : list T; st_handles : nat; st_consumer : bool }.

Definition chan_spec `{!EqDecision T} (cap : Z) (s : chan_state) (e : chan_event T) : option chan_state :=
  match e with
  | Fifo e =>
      let allowed := match e with
        | Enq _ | Full _ => bool_decide (st_handles s ≠ 0%nat)
        | Deq _ | Empty => st_consumer s
        end in
      if allowed then (λ xs, mkState xs (st_handles s) (st_consumer s)) <$> fifo_spec cap (st_items s) e
      else None
  | SendClosed _ => if st_consumer s then None else Some s
  | Cloned => match st_handles s with O => None | S n => Some (mkState (st_items s) (S (S n)) (st_consumer s)) end
  | Dropped => match st_handles s with O => None | S n => Some (mkState (st_items s) n (st_consumer s)) end
  | SawDisconnected =>
      match st_items s, st_handles s, st_consumer s with [], O, true => Some s | _, _, _ => None end
  | ConsumerGone => if st_consumer s then Some (mkState (st_items s) (st_handles s) false) else None
  end.

(** ** The invariant *)

Definition pushing (h : handle_pc T) : Prop := match h with TpPush _ _ => True | _ => False end.
#[global] Instance pushing_dec h : Decision (pushing h).
Proof. destruct h; apply _. Defined.
Definition holds_lock (h : handle_pc T) : Prop :=
  match h with TpPush true _ | TpTrack true | TpRelease _ => True | _ => False end.

(** A handle alone, given the mode of the channel. *)
Definition handle_mode_ok (m : ChannelMode) (h : handle_pc T) : Prop :=
  match h with
  | TpPush locked pc => (m = Mpsc → locked = true) ∧ ¬ push_returned pc
  | TpAcquire _ | ClCount => m = Mpsc
  | _ => True
  end ∧ (holds_lock h → m = Mpsc).

Definition handle_ring_ok (cap : Z) (xs : list T) (w : option T) (q : SpscQueue T) (h : handle_pc T) : Prop :=
  match h with TpPush _ pc => push_ok cap xs w q pc | _ => True end.

(** The lock and the mode keep the pushing handles apart. *)
Record handles_ok (m : ChannelMode) (lock : Z) (hs : gmap Z (handle_pc T)) : Prop := {
  ho_mode : map_Forall (λ _ h, handle_mode_ok m h) hs;
  ho_spsc : m = Spsc → ∀ i j, is_Some (hs !! i) → is_Some (hs !! j) → i = j;
  ho_excl : ∀ i j h h', hs !! i = Some h → hs !! j = Some h' → holds_lock h → holds_lock h' → i = j;
  ho_held : ∀ i h, hs !! i = Some h → holds_lock h → lock = 1;
  ho_lock : lock ≠ 0 → ∃ i h, hs !! i = Some h ∧ holds_lock h }.

(** The consumer seen as a thread of the ring. *)
Definition as_pop (k : consumer_pc T) : pop_pc T :=
  match k with CoPop pc => pc | CdTail head => PoHead head | _ => PoDone None end.

Definition consumer_ok (cap : Z) (xs : list T) (r : nat) (q : SpscQueue T) (no_handles : Prop)
    (k : consumer_pc T) : Prop :=
  pop_ok cap xs r q (as_pop k) ∧
  match k with
  | CoPop pc => ¬ pop_returned pc
  | CdHead | CdTail _ => no_handles
  | _ => True
  end.

Definition gone (k : consumer_pc T) : Prop := match k with CGone => True | _ => False end.

Definition ring_part (cap : Z) (xs : list T) (q : SpscQueue T) (hs : gmap Z (handle_pc T))
    (k : consumer_pc T) : Prop :=
  ∃ r w, ring_inv cap xs r w q ∧ map_Forall (λ _ h, handle_ring_ok cap xs w q h) hs ∧
    (map_Forall (λ _ h, ¬ pushing h) hs → w = None) ∧ consumer_ok cap xs r q (hs = ∅) k.

Record chan_ok (cap : Z) (st : chan_state) (s : chan_sys) : Prop := {
  co_ring : ring_part cap (st_items st) (queue_of (sy_inner s)) (sy_handles s) (sy_consumer s);
  co_handles : handles_ok (ChannelInner_mode (sy_inner s)) (ci_mpsc_lock (sy_inner s)) (sy_handles s);
  co_count : ci_producer_count (sy_inner s) = Z.of_nat (size (sy_handles s));
  co_st_handles : st_handles st = size (sy_handles s);
  co_u64 : is_u64 (ci_producer_count (sy_inner s));
  co_closing : sy_closing s = true → sy_handles s = ∅;
  co_closed : ci_closed (sy_inner s) = true → st_consumer st = false ∨ sy_handles s = ∅;
  co_gone : st_consumer st = false ↔ gone (sy_consumer s) }.

(** *** The handles, the lock and the mode *)

Lemma handles_update m lock hs i h h' : handles_ok m lock hs → hs !! i = Some h →
  handle_mode_ok m h' → (holds_lock h ↔ holds_lock h') → handles_ok m lock (<[i := h']> hs).
Proof.
  intros [Hm Hs He Hh Hl] Hi Hm' Hiff. split.
  - by apply map_Forall_insert_2.
  - intros Hsp a b [x Ha] [y Hb]. apply Hs; [done|..].
    + destruct (decide (a = i)) as [->|]; [by eexists|]. rewrite lookup_insert_ne in Ha by done. by eexists.
    + destruct (decide (b = i)) as [->|]; [by eexists|]. rewrite lookup_insert_ne in Hb by done. by eexists.
  - intros a b x y. rewrite !lookup_insert_Some.
    intros [[<- <-]|[? Ha]] [[<- <-]|[? Hb]] Hx Hy; [done|..].
    + apply (He i b h y); tauto.
    + apply (He a i x h); tauto.
    + by apply (He a b x y).
  - intros a x. rewrite lookup_insert_Some. intros [[<- <-]|[? Ha]] Hx; [apply (Hh i h); tauto|by eapply Hh].
  - intros Hne. destruct (Hl Hne) as (a & x & Ha & Hx). destruct (decide (a = i)) as [->|Hai].
    + simplify_eq. exists i, h'. rewrite lookup_insert_eq. tauto.
    + exists a, x. by rewrite lookup_insert_ne.
Qed.

Lemma handles_acquire m hs i h h' : handles_ok m 0 hs → hs !! i = Some h →
  handle_mode_ok m h' → holds_lock h' → handles_ok m 1 (<[i := h']> hs).
Proof.
  intros [Hm Hs He Hh Hl] Hi Hm' Hlk.
  assert (Hno : ∀ a x, hs !! a = Some x → ¬ holds_lock x) by (intros a x Ha Hx; by specialize (Hh a x Ha Hx)).
  split.
  - by apply map_Forall_insert_2.
  - intros Hsp. destruct Hm' as [_ Hm']. rewrite Hm' in Hsp; done.
  - intros a b x y. rewrite !lookup_insert_Some.
    intros [[<- <-]|[? Ha]] [[<- <-]|[? Hb]] Hx Hy; [done|by eapply Hno in Hb|by eapply Hno in Ha..].
  - done.
  - intros _. exists i, h'. by rewrite lookup_insert_eq.
Qed.

Lemma handles_release m lock hs i h h' : handles_ok m lock hs → hs !! i = Some h →
  handle_mode_ok m h' → holds_lock h → ¬ holds_lock h' → handles_ok m 0 (<[i := h']> hs).
Proof.
  intros [Hm Hs He Hh Hl] Hi Hm' Hlk Hnl.
  assert (Hno : ∀ a x, (<[i := h']> hs) !! a = Some x → ¬ holds_lock x).
  { intros a x. rewrite lookup_insert_Some. intros [[<- <-]|[Hne Ha]]; [done|].
    intros Hx. by destruct (Hne (He i a h x Hi Ha Hlk Hx)). }
  split.
  - by apply map_Forall_insert_2.
  - intros Hsp. destruct (Hm i h Hi) as [_ Hm1]. rewrite Hm1 in Hsp; done.
  - intros a b x y Ha _ Hx. by destruct (Hno _ _ Ha Hx).
  - intros a x Ha Hx. by destruct (Hno _ _ Ha Hx).
  - done.
Qed.

Lemma handles_upgrade m lock hs i : handles_ok m lock hs → hs !! i = Some ClMode →
  handles_ok Mpsc lock (<[i := ClCount]> hs).
Proof.
  intros Hok Hi. destruct m.
  - assert (Hall : ∀ a x, (<[i := ClCount]> hs) !! a = Some x → x = ClCount).
    { intros a x. rewrite lookup_insert_Some. intros [[_ <-]|[Hne Ha]]; [done|].
      destruct Hne. by apply (ho_spsc _ _ _ Hok). }
    split.
    + intros a x Ha. rewrite (Hall a x Ha). done.
    + done.
    + intros a b x y Ha _ Hx. by rewrite (Hall a x Ha) in Hx.
    + intros a x Ha Hx. by rewrite (Hall a x Ha) in Hx.
    + intros Hne. destruct (ho_lock _ _ _ Hok Hne) as (a & x & Ha & Hx).
      assert (a = i) as -> by by apply (ho_spsc _ _ _ Hok). by simplify_eq.
  - by eapply handles_update.
Qed.

Lemma handles_fresh lock hs j r : handles_ok Mpsc lock hs → hs !! j = None →
  handles_ok Mpsc lock (<[j := HIdle r]> hs).
Proof.
  intros [Hm Hs He Hh Hl] Hj. split.
  - by apply map_Forall_insert_2.
  - done.
  - intros a b x y. rewrite !lookup_insert_Some.
    intros [[<- <-]|[? Ha]] [[<- <-]|[? Hb]] Hx Hy; try done. by eapply He.
  - intros a x. rewrite lookup_insert_Some. intros [[<- <-]|[? Ha]] Hx; [done|by eapply Hh].
  - intros Hne. destruct (Hl Hne) as (a & x & Ha & Hx). exists a, x.
    rewrite lookup_insert_ne by congruence. done.
Qed.

Lemma handles_delete m lock hs i h : handles_ok m lock hs → hs !! i = Some h → ¬ holds_lock h →
  handles_ok m lock (delete i hs).
Proof.
  intros [Hm Hs He Hh Hl] Hi Hnl. split.
  - by apply map_Forall_delete.
  - intros Hsp a b Ha Hb. apply Hs; [done|..].
    + destruct Ha as [x Ha]. apply lookup_delete_Some in Ha as [_ Ha]. by eexists.
    + destruct Hb as [x Hb]. apply lookup_delete_Some in Hb as [_ Hb]. by eexists.
  - intros a b x y. rewrite !lookup_delete_Some. intros [? Ha] [? Hb]. by eapply He.
  - intros a x. rewrite lookup_delete_Some. intros [? Ha]. by eapply Hh.
  - intros Hne. destruct (Hl Hne) as (a & x & Ha & Hx). exists a, x.
    rewrite lookup_delete_ne by congruence. done.
Qed.

Lemma pushing_unique m lock hs i j h h' : handles_ok m lock hs → hs !! i = Some h → hs !! j = Some h' →
  pushing h → pushing h' → i = j.
Proof.
  intros Hok Hi Hj Hp Hp'. destruct m; [by apply (ho_spsc _ _ _ Hok)|].
  pose proof (ho_mode _ _ _ Hok i h Hi) as [Hm _]. pose proof (ho_mode _ _ _ Hok j h' Hj) as [Hm' _].
  destruct h as [| | | |l pc| | | |]; try done. destruct h' as [| | | |l' pc'| | | |]; try done.
  destruct Hm as [Hm _]. destruct Hm' as [Hm' _]. rewrite (Hm eq_refl) in Hi. rewrite (Hm' eq_refl) in Hj.
  by apply (ho_excl _ _ _ Hok i j _ _ Hi Hj).
Qed.

(** *** The ring *)

Lemma consumer_ok_mono cap xs r q (P Q : Prop) k : (P → Q) → consumer_ok cap xs r q P k →
  consumer_ok cap xs r q Q k.
Proof. intros HPQ [Hp Hk]. split; [done|]. destruct k; auto. Qed.

Lemma handle_ring_idle cap xs w q h : ¬ pushing h → handle_ring_ok cap xs w q h.
Proof. by destruct h. Qed.

(** A handle outside of the ring that stays outside. *)
Lemma ring_idle_update cap xs q hs k i h h' : ring_part cap xs q hs k → hs !! i = Some h →
  ¬ pushing h → ¬ pushing h' → ring_part cap xs q (<[i := h']> hs) k.
Proof.
  intros (r & w & Hi & Hr & Hw & Hk) Hlk Hn Hn'. exists r, w. split; [done|]. split; [|split].
  - apply map_Forall_insert_2; [|done]. by apply handle_ring_idle.
  - intros Hall. apply Hw. intros j x Hj. destruct (decide (i = j)) as [->|Hne]; [by simplify_eq|].
    apply (Hall j x). by rewrite lookup_insert_ne.
  - eapply consumer_ok_mono; [|done]. intros ->. by rewrite lookup_empty in Hlk.
Qed.

Lemma ring_fresh cap xs q hs k j r : ring_part cap xs q hs k → hs ≠ ∅ →
  hs !! j = None → ring_part cap xs q (<[j := HIdle r]> hs) k.
Proof.
  intros (r' & w & Hi & Hr & Hw & Hk) Hne Hj. exists r', w. split; [done|]. split; [|split].
  - by apply map_Forall_insert_2.
  - intros Hall. apply Hw. by apply map_Forall_insert_1_2 in Hall.
  - eapply consumer_ok_mono; [|done]. intros ->. done.
Qed.

Lemma ring_delete cap xs q hs k i r : ring_part cap xs q hs k → hs !! i = Some (HIdle r) →
  ring_part cap xs q (delete i hs) k.
Proof.
  intros (r' & w & Hi & Hr & Hw & Hk) Hlk. exists r', w. split; [done|]. split; [|split].
  - by apply map_Forall_delete.
  - intros Hall. apply Hw. intros j x Hj. destruct (decide (i = j)) as [->|Hne].
    { intros Hp. by simplify_eq. }
    apply (Hall j x). by rewrite lookup_delete_ne.
  - eapply consumer_ok_mono; [|done]. intros ->. by rewrite lookup_empty in Hlk.
Qed.

(** A handle that starts a [push] while no other is inside. *)
Lemma ring_enter cap xs q hs k i h l item : ring_part cap xs q hs k → hs !! i = Some h →
  map_Forall (λ _ h, ¬ pushing h) hs → ring_part cap xs q (<[i := TpPush l (PuStart item)]> hs) k.
Proof.
  intros (r & w & Hi & Hr & Hw & Hk) Hlk Hall. exists r, w. rewrite (Hw Hall) in *.
  split; [done|]. split; [|split; [done|]].
  - by apply map_Forall_insert_2.
  - eapply consumer_ok_mono; [|done]. intros ->. by rewrite lookup_empty in Hlk.
Qed.

(** A step of the one handle inside. *)
Lemma ring_push `{!EqDecision T} cap xs q hs k i l pc h' q' pc' e :
  ring_part cap xs q hs k → hs !! i = Some (TpPush l pc) →
  (∀ j h, hs !! j = Some h → pushing h → j = i) → ¬ push_returned pc →
  push_step pc q = Some (q', pc', e) →
  (match pc' with PuDone _ => ¬ pushing h' | _ => h' = TpPush l pc' end) →
  ∃ xs', match e with None => xs' = xs | Some e => fifo_spec cap xs e = Some xs' end ∧
         ring_part cap xs' q' (<[i := h']> hs) k.
Proof.
  intros (r & w & Hi & Hr & Hw & [Hk Hk']) Hlk Huniq Hnr Hst Hh'.
  pose proof (Hr i _ Hlk) as Hpu. simpl in Hpu.
  destruct (push_step_ok _ _ _ _ _ _ _ Hi Hpu Hk Hnr) as (q1 & pc1 & e1 & Hs & xs' & w' & He & Hi' & Hpu' & Hk1).
  rewrite Hst in Hs. injection Hs as <- <- <-. exists xs'. split; [done|]. exists r, w'.
  split; [done|]. split; [|split].
  - intros j x. rewrite lookup_insert_Some. intros [[<- <-]|[Hne Hj]].
    + destruct pc'; [by rewrite Hh'..|by apply handle_ring_idle].
    + apply handle_ring_idle. intros Hp. by destruct Hne; rewrite (Huniq j x).
  - intros Hall. specialize (Hall i h'). rewrite lookup_insert_eq in Hall. specialize (Hall eq_refl).
    destruct pc'; simpl in Hpu'; try (by rewrite Hh' in Hall); done.
  - split; [done|]. destruct k; try done; subst hs; by rewrite lookup_empty in Hlk.
Qed.

(** The handles together act on the ring like one producer. *)
Lemma pusher_of cap xs q (hs : gmap Z (handle_pc T)) w : map_Forall (λ _ h, handle_ring_ok cap xs w q h) hs →
  (map_Forall (λ _ h, ¬ pushing h) hs → w = None) →
  (∀ i j h h', hs !! i = Some h → hs !! j = Some h' → pushing h → pushing h' → i = j) →
  ∃ pu, push_ok cap xs w q pu ∧ ∀ i l pc, hs !! i = Some (TpPush l pc) → pc = pu.
Proof.
  intros Hr Hw Huniq. destruct (decide (map_Forall (λ _ h, ¬ pushing h) hs)) as [Hall|Hsome].
  - exists (PuDone (inl tt)). split; [by apply Hw|]. intros i l p Hi'. by destruct (Hall i _ Hi').
  - apply map_not_Forall in Hsome as (i & h & Hih & Hp); [|apply _].
    destruct h as [| | | |l p| | | |]; try by destruct Hp; intros [].
    exists p. split; [by apply (Hr i _ Hih)|]. intros j l' p' Hj.
    assert (j = i) as -> by by eapply Huniq. by simplify_eq.
Qed.

(** A step of the consumer inside the ring. *)
Lemma ring_pop `{!EqDecision T} cap xs q hs k pc q' pc' e :
  ring_part cap xs q hs k → k = CoPop pc →
  (∀ i j h h', hs !! i = Some h → hs !! j = Some h' → pushing h → pushing h' → i = j) →
  pop_step pc q = Some (q', pc', e) →
  ∃ xs', match e with None => xs' = xs | Some e => fifo_spec cap xs e = Some xs' end ∧
    ∀ k', (match pc' with PoDone _ | BaDone _ => as_pop k' = PoDone None ∧ (k' = CIdle ∨ ∃ r, k' = CoTrack r)
           | _ => k' = CoPop pc' end) →
      ring_part cap xs' q' hs k'.
Proof.
  intros (r & w & Hi & Hr & Hw & [Hk Hnr]) -> Huniq Hst. simpl in *.
  destruct (pusher_of cap xs q hs w Hr Hw Huniq) as (pu & Hpu & Hall).
  destruct (pop_step_ok _ _ _ _ _ _ _ Hi Hpu Hk Hnr) as (q1 & pc1 & e1 & Hs & xs' & r' & He & Hi' & Hpu' & Hk1).
  rewrite Hst in Hs. injection Hs as <- <- <-. exists xs'. split; [done|].
  intros k' Hk'. exists r', w. split; [done|]. split; [|split; [done|]].
  - intros i h Hih. destruct h as [| | | |l p| | | |]; try done. simpl. by rewrite (Hall i l p Hih).
  - destruct pc'; try (rewrite Hk'; split; [done|]; simpl; intros []);
      destruct Hk' as [Has Hor]; (split; [by rewrite Has|]; destruct Hor as [->|[res ->]]; done).
Qed.

(** *** The simulation *)

Lemma chan_ok_handle cap st c hs cl k i h c' h' xs' :
  chan_ok cap st (mkChan c hs cl k) → hs !! i = Some h →
  ci_producer_count c' = ci_producer_count c → ci_closed c' = ci_closed c →
  ring_part cap xs' (queue_of c') (<[i := h']> hs) k →
  handles_ok (ChannelInner_mode c') (ci_mpsc_lock c') (<[i := h']> hs) →
  chan_ok cap (mkState xs' (st_handles st) (st_consumer st)) (mkChan c' (<[i := h']> hs) cl k).
Proof.
  intros [Hr Hh Hc Hsh Hu Hcl Hcd Hg] Hi Hcount Hclosed Hring Hhs. simpl in *.
  assert (Hne : hs ≠ ∅) by (intros ->; by rewrite lookup_empty in Hi).
  assert (Hsz : size (<[i := h']> hs) = size hs) by (apply map_size_insert_Some; by eexists).
  split; simpl; rewrite ?Hcount, ?Hclosed, ?Hsz; try done.
  - intros ->. by destruct Hne; apply Hcl.
  - intros Hc'. destruct (Hcd Hc') as [?|?]; [by left|done].
Qed.

Lemma tracked_queue f c : queue_of (tracked f c) = queue_of c.
Proof. unfold tracked. by destruct (cc_track_stats _). Qed.
Lemma tracked_mode f c : ci_mode (tracked f c) = ci_mode c.
Proof. unfold tracked. by destruct (cc_track_stats _). Qed.
Lemma tracked_lock f c : ci_mpsc_lock (tracked f c) = ci_mpsc_lock c.
Proof. unfold tracked. by destruct (cc_track_stats _). Qed.
Lemma tracked_count f c : ci_producer_count (tracked f c) = ci_producer_count c.
Proof. unfold tracked. by destruct (cc_track_stats _). Qed.
Lemma tracked_closed f c : ci_closed (tracked f c) = ci_closed c.
Proof. unfold tracked. by destruct (cc_track_stats _). Qed.

Lemma is_mpsc_spec c : ChannelInner_is_mpsc c = true ↔ ChannelInner_mode c = Mpsc.
Proof. unfold ChannelInner_is_mpsc. by rewrite bool_decide_eq_true. Qed.

Lemma nobody_pushing m hs : handles_ok m 0 hs → m = Mpsc → map_Forall (λ _ h, ¬ pushing h) hs.
Proof.
  intros Hok -> i h Hi Hp. destruct h as [| | | |l pc| | | |]; try done.
  pose proof (ho_mode _ _ _ Hok i _ Hi) as [[Hm _] _]. rewrite (Hm eq_refl) in Hi.
  by specialize (ho_held _ _ _ Hok i _ Hi I).
Qed.

Lemma alone_not_pushing lock hs i h : handles_ok Spsc lock hs → hs !! i = Some h → ¬ pushing h →
  map_Forall (λ _ h, ¬ pushing h) hs.
Proof.
  intros Hok Hi Hn j x Hj. assert (j = i) as -> by by apply (ho_spsc _ _ _ Hok). by simplify_eq.
Qed.

Lemma handles_nonempty_spec (st : chan_state) (hs : gmap Z (handle_pc T)) (i : Z) (h : handle_pc T) : st_handles st = size hs → hs !! i = Some h →
  bool_decide (st_handles st ≠ 0%nat) = true.
Proof.
  intros Hst Hi. apply bool_decide_eq_true. rewrite Hst. intros Hz%map_size_empty_inv. subst hs.
  by rewrite lookup_empty in Hi.
Qed.

Lemma handle_step_ok `{!EqDecision T} cap st c hs cl k i h c' h' e :
  chan_ok cap st (mkChan c hs cl k) → hs !! i = Some h → h ≠ ClCount →
  handle_step h c = Some (c', h', e) →
  match e with
  | None => chan_ok cap st (mkChan c' (<[i := h']> hs) cl k)
  | Some e => ∃ st', chan_spec cap st e = Some st' ∧ chan_ok cap st' (mkChan c' (<[i := h']> hs) cl k)
  end.
Proof.
  intros Hok Hi Hncl Hst. pose proof (co_ring _ _ _ Hok) as Hr. pose proof (co_handles _ _ _ Hok) as Hh.
  simpl in Hr, Hh. pose proof (ho_mode _ _ _ Hh i h Hi) as Hm.
  assert (Hframe : ∀ h', ¬ pushing h → ¬ pushing h' → ring_part cap (st_items st) (queue_of c) (<[i := h']> hs) k)
    by (intros; by eapply ring_idle_update).
  destruct st as [xs n cons]. simpl in *.
  destruct h as [r|item|item|item|l pc|l|r| |]; simpl in Hst; try done.
  - (* the load of [closed] *)
    destruct (ci_closed c) eqn:Hcd; injection Hst as <- <- <-.
    + exists (mkState xs n cons). split.
      * simpl. destruct (co_closed _ _ _ Hok Hcd) as [Hc0|He]; simpl in *; [by rewrite Hc0|].
        subst hs. by rewrite lookup_empty in Hi.
      * eapply (chan_ok_handle _ (mkState xs n cons)); try done; [apply Hframe; intros []|by eapply handles_update].
    + eapply (chan_ok_handle _ (mkState xs n cons)); try done; [apply Hframe; intros []|by eapply handles_update].
  - (* the load of the mode *)
    destruct (ChannelInner_is_mpsc c) eqn:Hmp; injection Hst as <- <- <-.
    + apply is_mpsc_spec in Hmp as Hmm. eapply (chan_ok_handle _ (mkState xs n cons)); try done; [apply Hframe; intros []|by eapply handles_update].
    + assert (Hs : ChannelInner_mode c = Spsc).
      { destruct (ChannelInner_mode c) eqn:Hmm; [done|]. apply is_mpsc_spec in Hmm. congruence. }
      rewrite Hs in Hh. eapply (chan_ok_handle _ (mkState xs n cons)); try done.
      * eapply ring_enter; [done..|]. eapply alone_not_pushing; [done..|intros []].
      * rewrite Hs. eapply handles_update; [done..| |done]. split; [split; [done|by intros []]|done].
  - (* the lock *)
    unfold ChannelInner_acquire_mpsc_lock in Hst. destruct Hm as [Hm _].
    destruct (Z.eqb_spec (ci_mpsc_lock c) 0) as [Hl|Hl]; injection Hst as <- <- <-.
    + rewrite Hl in Hh. eapply (chan_ok_handle _ (mkState xs n cons)); try done.
      * eapply ring_enter; [done..|]. by eapply nobody_pushing.
      * eapply handles_acquire; [done..| |done]. split; [split; [done|by intros []]|done].
    + eapply (chan_ok_handle _ (mkState xs n cons)); try done; [apply Hframe; intros []|].
      by rewrite insert_id.
  - (* inside the ring *)
    destruct (push_step pc (queue_of c)) as [[[q' pc'] oe]|] eqn:Hps; [|done]. injection Hst as <- <- <-.
    destruct Hm as [[Hm Hnr] Hmm]. set (h' := match pc' with PuDone _ => _ | _ => _ end).
    destruct (ring_push cap xs (queue_of c) hs k i l pc h' q' pc' oe) as (xs' & He & Hr'); try done.
    { intros j x Hj Hp. by eapply pushing_unique. }
    { subst h'. destruct pc' as [| | | |[?|?]]; try done; destruct l; intros []. }
    assert (Hk' : chan_ok cap (mkState xs' n cons) (mkChan (set_queue q' c) (<[i := h']> hs) cl k)).
    { eapply (chan_ok_handle _ (mkState xs n cons)); try done. subst h'.
      eapply handles_update; [done..| |].
      - destruct pc' as [| | | |[?|?]]; try (split; [split; [done|by intros []]|done]); by destruct l.
      - destruct pc' as [| | | |[?|?]]; by destruct l. }
    destruct oe as [e|]; simpl; [|by subst xs'].
    exists (mkState xs' n cons). split; [|done].
    assert (Ha : match e with Enq _ | Full _ => True | _ => False end).
    { destruct pc as [|? ?|it t nt| |]; simpl in Hps; [|case_match|destruct (slot_write t it (queue_of c))| |];
        simplify_eq/=; done. }
    pose proof (handles_nonempty_spec _ _ _ _ (co_st_handles _ _ _ Hok) Hi) as Hnz. simpl in Hnz.
    simpl. rewrite He. destruct e; try done; by rewrite Hnz.
  - (* the statistics *)
    injection Hst as <- <- <-. eapply (chan_ok_handle _ (mkState xs n cons)); try done.
    + apply tracked_count.
    + apply tracked_closed.
    + unfold ChannelInner_track_push. rewrite tracked_queue. apply Hframe; destruct l; intros [].
    + unfold ChannelInner_track_push, ChannelInner_mode. rewrite tracked_mode, tracked_lock.
      eapply handles_update; [done..| |]; by destruct l.
  - (* the release *)
    injection Hst as <- <- <-. eapply (chan_ok_handle _ (mkState xs n cons)); try done; [apply Hframe; intros []|].
    eapply handles_release; [done..|]. by intros [].
  - (* the upgrade *)
    injection Hst as <- <- <-. eapply (chan_ok_handle _ (mkState xs n cons)); try done; [apply Hframe; intros []|].
    by eapply handles_upgrade.
Qed.

Lemma chan_ok_consumer cap st c hs cl k c' k' xs' :
  chan_ok cap st (mkChan c hs cl k) → ¬ gone k → ¬ gone k' →
  ci_producer_count c' = ci_producer_count c → ci_closed c' = ci_closed c →
  ci_mode c' = ci_mode c → ci_mpsc_lock c' = ci_mpsc_lock c →
  ring_part cap xs' (queue_of c') hs k' →
  chan_ok cap (mkState xs' (st_handles st) (st_consumer st)) (mkChan c' hs cl k').
Proof.
  intros [Hr Hh Hc Hsh Hu Hcl Hcd Hg] Hk Hk' Hcount Hclosed Hmode Hlock Hring. simpl in *.
  split; simpl; rewrite ?Hcount, ?Hclosed, ?Hlock; try done.
  - unfold ChannelInner_mode. by rewrite Hmode.
  - tauto.
Qed.

(** A consumer outside of the ring that stays outside. *)
Lemma ring_consumer_idle cap xs q hs k k' : ring_part cap xs q hs k → as_pop k = PoDone None →
  as_pop k' = PoDone None → match k' with CoPop _ => False | CdHead | CdTail _ => hs = ∅ | _ => True end →
  ring_part cap xs q hs k'.
Proof.
  intros (r & w & Hi & Hr & Hw & [Hk _]) Hp Hp' Hk'. exists r, w. rewrite Hp in Hk.
  do 3 (split; [done|]). split; [by rewrite Hp'|]. by destruct k'.
Qed.

(** A consumer that enters the ring. *)
Lemma ring_consumer_enter cap xs q hs k pc : ring_part cap xs q hs k → as_pop k = PoDone None →
  pc = PoStart ∨ (∃ n f, pc = BaStart n f ∧ 0 <= n) → ring_part cap xs q hs (CoPop pc).
Proof.
  intros (r & w & Hi & Hr & Hw & [Hk _]) Hp Hpc. exists r, w. rewrite Hp in Hk.
  do 3 (split; [done|]). destruct Hpc as [->|(n & f & -> & Hn)]; split; try done; intros [].
Qed.

Lemma pop_step_events pc (q : SpscQueue T) q' pc' e : pop_step pc q = Some (q', pc', Some e) →
  match e with Deq _ | Empty => True | _ => False end.
Proof.
  destruct pc as [|head|head|head item|res|n f|n f head|[|n] f head items|head items|items];
    cbn [pop_step]; intros Hs; try done.
  - case_match; by simplify_eq.
  - by destruct (slot_read head q) as [[? ?]|].
  - by simplify_eq.
  - case_match; by simplify_eq.
  - cbv zeta in Hs. case_match; by simplify_eq.
  - destruct (slot_read head q) as [[x q1]|]; [|done]. cbn [fmap option_fmap option_map] in Hs.
    destruct (f _); [destruct n|]; done.
  - by simplify_eq.
Qed.

Lemma consumer_step_ok `{!EqDecision T} cap st c hs cl k c' k' e :
  chan_ok cap st (mkChan c hs cl k) → consumer_step k c = Some (c', k', e) →
  match e with
  | None => chan_ok cap st (mkChan c' hs cl k')
  | Some e => ∃ st', chan_spec cap st e = Some st' ∧ chan_ok cap st' (mkChan c' hs cl k')
  end.
Proof.
  intros Hok Hst. pose proof (co_ring _ _ _ Hok) as Hr. simpl in Hr.
  assert (Hcons : ¬ gone k → st_consumer st = true).
  { intros Hng. destruct (st_consumer st) eqn:Hc; [done|]. by apply (co_gone _ _ _ Hok) in Hc. }
  destruct st as [xs n cons]. simpl in *.
  assert (Hstay : ∀ k', ¬ gone k → ¬ gone k' → ring_part cap xs (queue_of c) hs k' →
    chan_ok cap (mkState xs n cons) (mkChan c hs cl k'))
    by (intros; by eapply (chan_ok_consumer _ (mkState xs n cons))).
  destruct k as [| |pc|r| | |head|]; simpl in Hst; try done.
  - (* the load of the mode *)
    injection Hst as <- <- <-. apply Hstay; [intros []..|].
    eapply ring_consumer_enter; [done..|]. by left.
  - (* inside the ring *)
    destruct (pop_step pc (queue_of c)) as [[[q' pc'] oe]|] eqn:Hps; [|done]. injection Hst as <- <- <-.
    destruct (ring_pop cap xs (queue_of c) hs (CoPop pc) pc q' pc' oe) as (xs' & He & Hr'); try done.
    { intros i j h h'. apply (pushing_unique _ _ _ _ _ _ _ (co_handles _ _ _ Hok)). }
    set (k' := match pc' with PoDone _ => _ | _ => _ end).
    assert (Hk' : chan_ok cap (mkState xs' n cons) (mkChan (set_queue q' c) hs cl k')).
    { eapply (chan_ok_consumer _ (mkState xs n cons)); try done; [intros []|subst k'; destruct pc'; intros []|].
      apply Hr'. subst k'. destruct pc'; try done; split; try done; [right; by eexists|by left]. }
    destruct oe as [e|]; simpl; [|by subst xs'].
    exists (mkState xs' n cons). split; [|done].
    assert (Ha : match e with Deq _ | Empty => True | _ => False end) by by eapply pop_step_events.
    simpl. rewrite He, Hcons by (intros []). by destruct e.
  - (* the statistics *)
    injection Hst as <- <- <-. assert (Hd : ring_part cap xs (queue_of c) hs CIdle)
      by by eapply ring_consumer_idle.
    unfold ChannelInner_track_pop, ChannelInner_track_pop_empty.
    destruct r; eapply (chan_ok_consumer _ (mkState xs n cons)); try done; try (intros []);
      by rewrite ?tracked_count, ?tracked_closed, ?tracked_mode, ?tracked_lock, ?tracked_queue.
  - (* [is_disconnected]: the load of [closed] *)
    injection Hst as <- <- <-. apply Hstay; [intros []|destruct (ci_closed c); intros []|].
    destruct (ci_closed c) eqn:Hcd; eapply ring_consumer_idle; try done.
    destruct (co_closed _ _ _ Hok Hcd) as [Hc|He]; [|done]. simpl in Hc. rewrite Hcons in Hc by (intros []). done.
  - (* ... of the head *)
    injection Hst as <- <- <-. apply Hstay; [intros []..|].
    destruct Hr as (r & w & Hi & Hr & Hw & [Hk He]). exists r, w. by do 3 (split; [done|]).
  - (* ... of the tail *)
    assert (Hd : ring_part cap xs (queue_of c) hs CIdle).
    { destruct Hr as (r & w & Hi & Hr & Hw & [[Hk _] _]). exists r, w. by do 3 (split; [done|]). }
    destruct Hr as (r & w & Hi & Hr & Hw & [[Hk Hhd] He]).
    destruct (Z.eqb_spec head (sq_tail (queue_of c))) as [Heq|Hne]; injection Hst as <- <- <-;
      [|by apply Hstay; [intros []..|]].
    exists (mkState xs n cons). split; [|by apply Hstay; [intros []..|]].
    subst head. apply (ring_empty_iff _ _ _ _ _ Hi) in Heq as ->.
    pose proof (co_st_handles _ _ _ Hok) as Hsz. simpl in Hsz. rewrite He, map_size_empty in Hsz.
    simpl. by rewrite Hsz, Hcons by (intros []).
Qed.

Lemma chan_ok_clone `{!EqDecision T} cap st c hs cl k i j c' h' e :
  chan_ok cap st (mkChan c hs cl k) → hs !! i = Some ClCount → hs !! j = None →
  Z.of_nat (size hs) < u64_MOD - 1 → handle_step ClCount c = Some (c', h', e) →
  match e with
  | None => False
  | Some e => ∃ st', chan_spec cap st e = Some st' ∧
      chan_ok cap st' (mkChan c' (<[j := HIdle (inl tt)]> (<[i := h']> hs)) cl k)
  end.
Proof.
  intros [Hr Hh Hc Hsh Hu Hcl Hcd Hg] Hi Hj Hsz [= <- <- <-]. simpl in *.
  assert (Hne : hs ≠ ∅) by (intros ->; by rewrite lookup_empty in Hi).
  assert (Hij : (<[i := HIdle (inl tt)]> hs) !! j = None) by (rewrite lookup_insert_ne; congruence).
  assert (Hsize : size (<[j := HIdle (inl tt)]> (<[i := HIdle (inl tt)]> hs)) = S (size hs)).
  { rewrite map_size_insert_None by done. f_equal. apply map_size_insert_Some. by eexists. }
  destruct (size hs) as [|n] eqn:Hn; [by apply map_size_empty_inv in Hn|]. rewrite Hsh.
  eexists. split; [done|]. split; simpl; rewrite ?Hsize; try done.
  - apply ring_fresh; [|by apply insert_non_empty|done].
    by eapply ring_idle_update; [done..|intros []|intros []].
  - pose proof (ho_mode _ _ _ Hh i _ Hi) as [Hm _]. simpl in Hm.
    change (ChannelInner_mode (set_count _ c)) with (ChannelInner_mode c). rewrite Hm in Hh |- *.
    apply handles_fresh; [|done]. by eapply handles_update.
  - rewrite Hc. unfold u64_add. rewrite wrap_u64_small by (unfold is_u64; lia). lia.
  - apply wrap_u64_range.
  - intros ->. by destruct Hne; apply Hcl.
  - intros Hcd'. destruct (Hcd Hcd') as [?|?]; [by left|done].
Qed.

Lemma chan_ok_drop `{!EqDecision T} cap st c hs cl k i r :
  chan_ok cap st (mkChan c hs cl k) → hs !! i = Some (HIdle r) →
  ∃ st', chan_spec cap st Dropped = Some st' ∧
    chan_ok cap st' (mkChan (set_count (u64_sub (ci_producer_count c) 1) c) (delete i hs)
      (if ci_producer_count c =? 1 then true else cl) k).
Proof.
  intros [Hr Hh Hc Hsh Hu Hcl Hcd Hg] Hi. simpl in *.
  assert (Hne : hs ≠ ∅) by (intros ->; by rewrite lookup_empty in Hi).
  assert (Hsize : size (delete i hs) = Nat.pred (size hs)) by (apply map_size_delete_Some; by eexists).
  destruct (size hs) as [|n] eqn:Hn; [by apply map_size_empty_inv in Hn|]. rewrite Hsh.
  simpl in Hsize.
  assert (Hdec : u64_sub (ci_producer_count c) 1 = Z.of_nat n)
    by (rewrite Hc; unfold u64_sub; rewrite wrap_u64_small; unfold is_u64 in *; lia).
  eexists. split; [done|]. split; simpl; rewrite ?Hsize; try done.
  - by eapply ring_delete.
  - eapply handles_delete; [done..|intros []].
  - apply wrap_u64_range.
  - destruct (Z.eqb_spec (ci_producer_count c) 1) as [H1|H1]; intros Hc'.
    + apply map_size_empty_inv. lia.
    + by destruct Hne; apply Hcl.
  - intros Hcd'. destruct (Hcd Hcd') as [?|?]; [by left|done].
Qed.

Lemma chan_ok_close cap st c hs k : chan_ok cap st (mkChan c hs true k) →
  chan_ok cap st (mkChan (set_closed true c) hs false k).
Proof.
  intros [Hr Hh Hc Hsh Hu Hcl Hcd Hg]. split; simpl in *; try done. intros _. right. by apply Hcl.
Qed.

Lemma chan_simulates `{!EqDecision T} cap : simulates chan_step (chan_spec cap) (chan_ok cap).
Proof.
  intros st s o s' Hok Hst.
  destruct Hst as [c hs cl k i r item Hi|c hs cl k i r Hi|c hs cl k i h c' h' e Hi Hncl Hs
    |c hs cl k i j c' h' e Hi Hj Hsz Hs|c hs cl k i r Hi|c hs k|c hs cl|c hs cl n f Hn|c hs cl
    |c hs cl k c' k' e Hs|c hs cl].
  - destruct st as [xs n cons].
    eapply (chan_ok_handle _ (mkState xs n cons)); try done.
    + eapply ring_idle_update; [apply (co_ring _ _ _ Hok)|done|intros []..].
    + by eapply handles_update; [apply (co_handles _ _ _ Hok)|..].
  - destruct st as [xs n cons].
    eapply (chan_ok_handle _ (mkState xs n cons)); try done.
    + eapply ring_idle_update; [apply (co_ring _ _ _ Hok)|done|intros []..].
    + by eapply handles_update; [apply (co_handles _ _ _ Hok)|..].
  - by eapply handle_step_ok.
  - pose proof (chan_ok_clone _ _ _ _ _ _ _ _ _ _ _ Hok Hi Hj Hsz Hs) as Hcl. by destruct e.
  - by eapply chan_ok_drop.
  - by eapply chan_ok_close.
  - destruct st as [xs n cons]. eapply (chan_ok_consumer _ (mkState xs n cons)); try done; [intros []..|].
    by eapply ring_consumer_idle; [apply (co_ring _ _ _ Hok)|..].
  - destruct st as [xs n' cons]. eapply (chan_ok_consumer _ (mkState xs n' cons)); try done; [intros []..|].
    eapply ring_consumer_enter; [apply (co_ring _ _ _ Hok)|done|]. right. by exists n, f.
  - destruct st as [xs n cons]. eapply (chan_ok_consumer _ (mkState xs n cons)); try done; [intros []..|].
    by eapply ring_consumer_idle; [apply (co_ring _ _ _ Hok)|..].
  - by eapply consumer_step_ok.
  - destruct st as [xs n cons]. pose proof (co_gone _ _ _ Hok) as Hg. simpl in Hg.
    exists (mkState xs n false). split.
    + simpl. destruct cons; [done|]. by destruct (proj1 Hg eq_refl).
    + destruct Hok as [Hr Hh Hc Hsh Hu Hcl Hcd _]. split; simpl in *; try done. intros _. by left.
Qed.

(** *** The whole channel *)

Definition fifo_part (tr : list (chan_event T)) : list (fifo_event T) :=
  omap (λ e, match e with Fifo e => Some e | _ => None end) tr.
Definition sent (tr : list (chan_event T)) : list T := enqs (fifo_part tr).
Definition received (tr : list (chan_event T)) : list T := deqs (fifo_part tr).

Lemma chan_spec_fifo `{!EqDecision T} cap n b tr st :
  spec_run (chan_spec cap) (mkState [] n b) tr = Some st →
  spec_run (fifo_spec cap) [] (fifo_part tr) = Some (st_items st).
Proof.
  revert st. induction tr as [|e tr IH] using rev_ind; intros st; [by intros [= <-]|].
  rewrite spec_run_snoc. destruct (spec_run (chan_spec cap) (mkState [] n b) tr) as [st'|]; [|done].
  specialize (IH st' eq_refl). cbn [mbind option_bind]. unfold fifo_part in *. rewrite omap_app.
  destruct e as [e|x| | | |]; simpl; rewrite ?app_nil_r, ?IH; intros Hs.
  - rewrite spec_run_snoc, IH. cbn [mbind option_bind].
    destruct (match e with Enq _ | Full _ => _ | _ => _ end); [|done].
    destruct (fifo_spec cap (st_items st') e) as [xs|]; [|done]. simpl in Hs. by simplify_eq.
  - destruct (st_consumer st'); by simplify_eq.
  - destruct (st_handles st'); by simplify_eq.
  - destruct (st_handles st'); by simplify_eq.
  - destruct st' as [[|] [|] []]; simpl in *; by simplify_eq.
  - destruct (st_consumer st'); by simplify_eq.
Qed.

Lemma clamp_range n : MIN_BUFFER_SIZE <= clamp MIN_BUFFER_SIZE MAX_BUFFER_SIZE n <= MAX_BUFFER_SIZE.
Proof. unfold clamp, MIN_BUFFER_SIZE, MAX_BUFFER_SIZE. lia. Qed.
Lemma clamp_id n : MIN_BUFFER_SIZE <= n <= MAX_BUFFER_SIZE → clamp MIN_BUFFER_SIZE MAX_BUFFER_SIZE n = n.
Proof. unfold clamp. lia. Qed.

(** The size of a configuration is a power of two between 4 and 2^20, and the
    buffer is made with exactly that many slots. *)
Lemma effective_pow config : ∃ k, 2 <= k <= 20 ∧ ChannelConfig_effective_buffer_size config = 2 ^ k.
Proof.
  unfold ChannelConfig_effective_buffer_size. set (n := clamp _ _ _).
  assert (Hn : 4 <= n <= 2 ^ 20) by apply clamp_range.
  exists (Z.log2_up n). split.
  - split; [change 2 with (Z.log2_up 4); apply Z.log2_up_le_mono; lia|].
    apply Z.log2_up_le_pow2; lia.
  - unfold next_power_of_two. apply wrap_u64_small. split; [by apply Z.pow_nonneg|].
    apply Z.le_lt_trans with (2 ^ 20); [|done].
    apply Z.pow_le_mono_r; [done|]. apply Z.log2_up_le_pow2; lia.
Qed.

Lemma channel_new_ring config k : 2 <= k <= 20 → ChannelConfig_effective_buffer_size config = 2 ^ k →
  channel_with_config (T := T) config =
    Some (mkInner (mkRing (ring_of_capacity (2 ^ k)) 0) 0 1 false config (mkStats 0 0 0 0 0) 0).
Proof.
  intros Hk He. unfold channel_with_config, ChannelInner_new, RingBuffer_new. rewrite He.
  assert (Hp : 2 ^ 2 <= 2 ^ k <= 2 ^ 20) by (split; apply Z.pow_le_mono_r; lia).
  rewrite (proj2 (Z.ltb_lt _ _)) by lia. rewrite clamp_id by done.
  replace (next_power_of_two (2 ^ k)) with (2 ^ k); [done|].
  unfold next_power_of_two. rewrite Z.log2_up_pow2 by lia. symmetry. apply wrap_u64_small.
  unfold is_u64. assert (2 ^ 20 < u64_MOD) by done. lia.
Qed.

Lemma chan_start_ok config k : 2 <= k <= 20 →
  chan_ok (2 ^ k) (mkState [] 1 true) (chan_start
    (mkInner (mkRing (ring_of_capacity (2 ^ k)) 0) 0 1 false config (mkStats 0 0 0 0 0) 0)).
Proof.
  intros Hk. unfold chan_start. split; simpl; try done.
  - exists 0%nat, None. split; [apply ring_new_holds; lia|]. split; [|split; [done|]].
    + by apply map_Forall_singleton.
    + done.
  - split.
    + by apply map_Forall_singleton.
    + intros _ i j [x [<- _]%lookup_singleton_Some] [y [<- _]%lookup_singleton_Some]. done.
    + intros i j h h' [<- <-]%lookup_singleton_Some [<- <-]%lookup_singleton_Some. done.
    + intros i h [<- <-]%lookup_singleton_Some. intros [].
    + done.
Qed.

(** No thread is ever stuck inside a call. *)
Lemma handle_never_stuck `{!EqDecision T} cap st s i h : chan_ok cap st s → sy_handles s !! i = Some h →
  (∃ r, h = HIdle r) ∨ is_Some (handle_step h (sy_inner s)).
Proof.
  intros Hok Hi. destruct s as [c hs cl k]. simpl in *.
  destruct h as [r|item|item|item|l pc|l|r| |]; [left; by eexists|right; simpl..]; try by eexists.
  - case_match; by eexists.
  - case_match; by eexists.
  - case_match; by eexists.
  - destruct (co_ring _ _ _ Hok) as (r & w & Hri & Hr & _ & [Hk _]). simpl in *.
    pose proof (ho_mode _ _ _ (co_handles _ _ _ Hok) i _ Hi) as [[_ Hnr] _].
    destruct (push_step_ok _ _ _ _ _ _ _ Hri (Hr i _ Hi) Hk Hnr) as (q' & pc' & e & -> & _). by eexists.
Qed.

Lemma consumer_never_stuck `{!EqDecision T} cap st s : chan_ok cap st s →
  sy_consumer s = CIdle ∨ sy_consumer s = CGone ∨ is_Some (consumer_step (sy_consumer s) (sy_inner s)).
Proof.
  intros Hok. destruct s as [c hs cl k]. simpl in *.
  destruct k as [| |pc|r| | |head|]; [by left| | | | | | |by right; left]; right; right; simpl; try by eexists.
  - destruct (co_ring _ _ _ Hok) as (r & w & Hi & Hr & Hw & [Hk Hnr]). simpl in *.
    destruct (pusher_of cap _ _ hs w Hr Hw) as (pu & Hpu & _).
    { intros i j h h'. apply (pushing_unique _ _ _ _ _ _ _ (co_handles _ _ _ Hok)). }
    destruct (pop_step_ok _ _ _ _ _ _ _ Hi Hpu Hk Hnr) as (q' & pc' & e & -> & _). by eexists.
  - case_match; by eexists.
Qed.

(** A handle through which another thread clones while its own thread is inside a
    call: a [Producer] may be shared between threads by reference. *)
Inductive shared_step : chan_sys → option (chan_event T) → chan_sys → Prop :=
  | shared_own s e s' : chan_step s e s' → shared_step s e s'
  | shared_clone c hs cl k i h j : hs !! i = Some h → hs !! j = None →
      shared_step (mkChan c hs cl k) (Some Cloned)
        (mkChan (Producer_clone c) (<[j := HIdle (inl tt)]> hs) cl k).

(** Schedules, to evaluate a run. *)
Inductive choice := CallPush (i : Z) (item : T) | RunHandle (i : Z) | CallPoll | RunConsumer
  | CloneShared (i j : Z).

Definition run_choice (shared : bool) (a : choice) (s : chan_sys) : option (option (chan_event T) * chan_sys) :=
  let '(mkChan c hs cl k) := s in
  match a with
  | CallPush i item =>
      match hs !! i with
      | Some (HIdle _) => Some (None, mkChan c (<[i := TpClosed item]> hs) cl k)
      | _ => None
      end
  | RunHandle i =>
      match hs !! i with
      | Some ClCount | None => None
      | Some h =>
          match handle_step h c with
          | Some (c', h', e) => Some (e, mkChan c' (<[i := h']> hs) cl k)
          | None => None
          end
      end
  | CallPoll => match k with CIdle => Some (None, mkChan c hs cl CoMode) | _ => None end
  | RunConsumer =>
      match consumer_step k c with
      | Some (c', k', e) => Some (e, mkChan c' hs cl k')
      | None => None
      end
  | CloneShared i j =>
      match shared, hs !! i, hs !! j with
      | true, Some _, None => Some (Some Cloned, mkChan (Producer_clone c) (<[j := HIdle (inl tt)]> hs) cl k)
      | _, _, _ => None
      end
  end.

Fixpoint run_choices (shared : bool) (l : list choice) (s : chan_sys) : option (list (chan_event T) * chan_sys) :=
  match l with
  | [] => Some ([], s)
  | a :: l =>
      match run_choice shared a s with
      | None => None
      | Some (e, s) => prod_map (app (option_list e)) id <$> run_choices shared l s
      end
  end.

Lemma run_choice_sound shared a s e s' : run_choice shared a s = Some (e, s') →
  if shared then shared_step s e s' else chan_step s e s'.
Proof.
  intros Hr. assert (Hor : chan_step s e s' ∨ shared = true ∧ shared_step s e s').
  { destruct s as [c hs cl k]. destruct a as [i item|i| | |i j]; simpl in Hr.
    - destruct (hs !! i) as [[r| | | | | | | |]|] eqn:Hi; simplify_eq. left. by eapply call_try_push.
    - destruct (hs !! i) as [h|] eqn:Hi; [|done]. left.
      assert (Hn : h ≠ ClCount) by (intros ->; done).
      assert (Hs : ∃ c' h', handle_step h c = Some (c', h', e) ∧ s' = mkChan c' (<[i := h']> hs) cl k).
      { destruct h; try done; destruct (handle_step _ c) as [[[c' h'] e']|]; simplify_eq; by do 2 eexists. }
      destruct Hs as (c' & h' & Hs & ->). by eapply step_handle.
    - destruct k; simplify_eq. left. apply call_poll.
    - destruct (consumer_step k c) as [[[c' k'] e']|] eqn:Hk; simplify_eq. left. by apply step_consumer.
    - destruct shared; [|done]. destruct (hs !! i) as [h|] eqn:Hi; [|done].
      destruct (hs !! j) eqn:Hj; simplify_eq. right. split; [done|]. by eapply shared_clone. }
  destruct shared, Hor as [Hc|[? Hs]]; try done. by apply shared_own.
Qed.

Lemma run_choices_sound shared l s tr s' : run_choices shared l s = Some (tr, s') →
  ltrace (if shared then shared_step else chan_step) s tr s'.
Proof.
  revert s tr s'. induction l as [|a l IH]; intros s tr s'; cbn [run_choices].
  - intros [= <- <-]. apply steps_refl.
  - destruct (run_choice shared a s) as [[e s1]|] eqn:Ha; [|done].
    destruct (run_choices shared l s1) as [[tr1 s2]|] eqn:Hl; [|done]. simpl. intros [= <- <-].
    apply run_choice_sound in Ha. apply IH in Hl.
    destruct e as [e|]; simpl; [eapply ltrace_event_l|eapply ltrace_tau_l]; [|done| |done]; by destruct shared.
Qed.

(** [C19]: let any number of producer handles, each used by one thread at a time (no
    handle is cloned through a shared reference while it pushes), run with the
    consumer under any interleaving of their single atomic accesses (pushes, the
    switch to several producers when a handle is cloned, drops, polls, batch pops and
    disconnection checks). Then a channel is a FIFO queue: everything sent is
    received once and in order, sends fail only when the queue is full or the
    consumer is gone, the consumer sees the end only when every handle is gone and
    every item received; two handles are never inside the ring together, no thread
    gets stuck, and a lock that is taken has a holder. *)
Theorem channel_linearizable `{!EqDecision T} config c0 tr s :
  channel_with_config config = Some c0 → ltrace chan_step (chan_start c0) tr s →
  let cap := ChannelConfig_effective_buffer_size config in
  (∃ st, spec_run (chan_spec cap) (mkState [] 1 true) tr = Some st ∧
     sent tr = received tr ++ st_items st ∧ st_handles st = size (sy_handles s)) ∧
  (∀ i j h h', sy_handles s !! i = Some h → sy_handles s !! j = Some h' → pushing h → pushing h' → i = j) ∧
  (∀ i h, sy_handles s !! i = Some h → (∃ r, h = HIdle r) ∨ is_Some (handle_step h (sy_inner s))) ∧
  (sy_consumer s = CIdle ∨ sy_consumer s = CGone ∨ is_Some (consumer_step (sy_consumer s) (sy_inner s))) ∧
  (ci_mpsc_lock (sy_inner s) ≠ 0 → ∃ i h, sy_handles s !! i = Some h ∧ holds_lock h).
Proof.
  intros Hnew Htr cap. destruct (effective_pow config) as (k & Hk & He).
  rewrite (channel_new_ring config k Hk He) in Hnew. injection Hnew as <-.
  subst cap. rewrite He. clear He.
  destruct (ltrace_refines _ _ _ _ _ _ _ (chan_simulates (2 ^ k)) (chan_start_ok config k Hk) Htr)
    as (st & Hrun & Hok).
  split; [exists st; split; [done|]; split|split; [|split; [|split]]].
  - apply (fifo_conserves (2 ^ k)). by eapply chan_spec_fifo.
  - apply (co_st_handles _ _ _ Hok).
  - intros i j h h'. apply (pushing_unique _ _ _ _ _ _ _ (co_handles _ _ _ Hok)).
  - intros i h. by eapply handle_never_stuck.
  - by eapply consumer_never_stuck.
  - apply (ho_lock _ _ _ (co_handles _ _ _ Hok)).
Qed.
End ChanSteps.
Arguments chan_sys : clear implicits.
Arguments chan_state : clear implicits.

Definition two_sends : list (choice (T := Z)) :=
  CallPush 0 1 :: replicate 7 (RunHandle 0) ++ CallPush 0 2 :: replicate 7 (RunHandle 0) ++
  CallPoll :: replicate 6 RunConsumer.

Lemma channel_linearizable_witness : ∃ c0 s, channel (T := Z) 4 = Some c0 ∧
  ltrace chan_step (chan_start c0) [Fifo (Enq 1); Fifo (Enq 2); Fifo (Deq [1])] s ∧
  ∃ st, spec_run (chan_spec 4) (mkState [] 1 true) [Fifo (Enq 1); Fifo (Enq 2); Fifo (Deq [1])] = Some st ∧
        st_items st = [2].
Proof.
  destruct (channel (T := Z) 4) as [c0|] eqn:Hc; [|discriminate Hc].
  destruct (run_choices false two_sends (chan_start c0)) as [[tr s]|] eqn:Hr;
    [|injection Hc as <-; vm_compute in Hr; discriminate Hr].
  assert (Htr : tr = [Fifo (Enq 1); Fifo (Enq 2); Fifo (Deq [1])])
    by (injection Hc as <-; vm_compute in Hr; injection Hr as <- _; reflexivity).
  exists c0, s. apply (run_choices_sound false) in Hr. rewrite Htr in Hr.
  split; [reflexivity|]. split; [exact Hr|].
  destruct (channel_linearizable (ChannelConfig_with_buffer_size 4) c0 _ s Hc Hr)
    as ((st & Hrun & Hcons & _) & _).
  exists st. split; [exact Hrun|].
  simpl in Hcons. injection Hcons as Hcons. symmetry. exact Hcons.
Defined.

(** The race: handle 0 is about to write its item when another thread clones it and
    sends through the clone. *)
Definition lost_item_schedule : list (choice (T := Z)) :=
  CallPush 0 1 :: replicate 4 (RunHandle 0) ++ CloneShared 0 1 :: CallPush 1 2 ::
  replicate 9 (RunHandle 1) ++ replicate 3 (RunHandle 0) ++
  CallPoll :: replicate 6 RunConsumer ++ CallPoll :: replicate 4 RunConsumer.

(** Cloning a handle while another thread is inside a [try_push] on the same
    handle (safe code can: handles may be shared by reference) breaks the channel.
    Both sends return [Ok], the first writes over the second, and only one of the
    two items is ever received; no FIFO queue behaves so. *)
Theorem channel_shared_clone_loses_item : ∃ c0 s,
  channel (T := Z) 4 = Some c0 ∧
  ltrace shared_step (chan_start c0)
    [Cloned; Fifo (Enq 2); Fifo (Enq 1); Fifo (Deq [1]); Fifo Empty] s ∧
  sy_handles s !! 0 = Some (HIdle (inl tt)) ∧ sy_handles s !! 1 = Some (HIdle (inl tt)) ∧
  RingBuffer_is_empty (ci_buffer (sy_inner s)) = true ∧
  spec_run (chan_spec 4) (mkState [] 1 true)
    [Cloned; Fifo (Enq 2); Fifo (Enq 1); Fifo (Deq [1]); Fifo Empty] = None.
Proof.
  destruct (channel (T := Z) 4) as [c0|] eqn:Hc; [|discriminate Hc].
  destruct (run_choices true lost_item_schedule (chan_start c0)) as [[tr s]|] eqn:Hr;
    [|injection Hc as <-; vm_compute in Hr; discriminate Hr].
  exists c0, s. pose proof (run_choices_sound _ _ _ _ _ Hr) as Hl.
  injection Hc as <-. vm_compute in Hr. injection Hr as <- <-.
  split; [done|]. split; [exact Hl|]. repeat split; reflexivity.
Qed.

(** ** The calls without interference *)

Section SequentialCalls.
Context {T : Type}.
Implicit Types c : ChannelInner T.

Definition chan_holds (cap : Z) (xs : list T) c : Prop :=
  ring_holds cap xs (queue_of c) ∧ ci_mpsc_lock c = 0.

(** What the calls leave alone. *)
Definition same_channel c c' : Prop :=
  ci_mode c' = ci_mode c ∧ ci_producer_count c' = ci_producer_count c ∧ ci_closed c' = ci_closed c ∧
  ci_config c' = ci_config c.

Lemma tracked_config f c : ci_config (tracked f c) = ci_config c.
Proof. unfold tracked. by destruct (cc_track_stats _). Qed.
Lemma tracked_same f c : same_channel c (tracked f c).
Proof.
  split_and!; [apply tracked_mode|apply tracked_count|apply tracked_closed|apply tracked_config].
Qed.
Lemma tracked_holds f cap xs c : chan_holds cap xs c → chan_holds cap xs (tracked f c).
Proof. intros [Hr Hl]. split; [by rewrite tracked_queue|by rewrite tracked_lock]. Qed.
Lemma same_trans c c' c'' : same_channel c c' → same_channel c' c'' → same_channel c c''.
Proof. unfold same_channel. intros; destruct_and!; split_and!; congruence. Qed.

Definition push_answer (cap : Z) (xs : list T) (x : T) : unit + TryPushError T :=
  if zlen xs + 1 =? cap then inr (TryPushError_full x) else inl tt.
Definition push_items (cap : Z) (xs : list T) (x : T) : list T :=
  if zlen xs + 1 =? cap then xs else xs ++ [x].

Lemma ring_push_items cap xs c x : ring_holds cap xs (queue_of c) →
  ∃ b, RingBuffer_push x (ci_buffer c) = Some (b, if zlen xs + 1 =? cap then inr x else inl tt) ∧
       ring_holds cap (push_items cap xs x) (rb_queue b).
Proof.
  intros Hr. destruct (push_spec _ _ _ x Hr) as (q & Hp & Hq). unfold RingBuffer_push, queue_of in *.
  rewrite Hp. eexists. split; [done|]. done.
Qed.

Lemma try_push_open cap xs c x : chan_holds cap xs c → ci_closed c = false →
  ∃ c', Producer_try_push x c = Some (c', push_answer cap xs x) ∧
        chan_holds cap (push_items cap xs x) c' ∧ same_channel c c'.
Proof.
  intros [Hr Hl] Hcl. unfold Producer_try_push. rewrite Hcl.
  destruct (ring_push_items _ _ _ x Hr) as (b & Hp & Hb).
  unfold push_answer. destruct (ChannelInner_is_mpsc c).
  - unfold Producer_try_push_mpsc, ChannelInner_acquire_mpsc_lock. rewrite Hl. simpl. rewrite Hp.
    unfold push_items in *.
    destruct (zlen xs + 1 =? cap); eexists; (split; [done|]); (split; [split; [|done]|]).
    + done.
    + done.
    + unfold ChannelInner_track_push, tracked. by destruct (cc_track_stats _).
    + unfold ChannelInner_track_push, tracked. by destruct (cc_track_stats _).
  - unfold Producer_try_push_spsc. rewrite Hp.
    destruct (zlen xs + 1 =? cap); eexists; (split; [done|]); (split; [|]).
    + done.
    + done.
    + by apply tracked_holds.
    + eapply same_trans; [|apply tracked_same]. done.
Qed.

Lemma poll_open cap xs c : chan_holds cap xs c →
  ∃ c', Consumer_poll c = Some (c', head xs) ∧ chan_holds cap (tail xs) c' ∧ same_channel c c'.
Proof.
  intros [Hr Hl]. assert (Hp : Consumer_poll c = Consumer_poll_any c)
    by (unfold Consumer_poll; by destruct (ChannelInner_is_mpsc c)).
  rewrite Hp. unfold Consumer_poll_any, RingBuffer_pop.
  destruct (pop_spec _ _ _ Hr) as (q & Hq & Hq'). unfold queue_of in Hq. rewrite Hq.
  destruct xs as [|x xs]; simpl; eexists; (split; [done|]); (split; [by apply tracked_holds|]);
    (eapply same_trans; [|apply tracked_same]; done).
Qed.

(** The calls, one at a time. On an open channel [try_push] appends or hands
    the item back when the queue is full; [push] with [Reject] answers [ChannelFull]
    then, and with [DropOldest] answers [Ok] and leaves the queue as it was: the new
    item is dropped, the oldest stays. On a closed channel every push fails and
    [poll] still delivers what is left; [recv] gives the next item at once, and
    [Disconnected] when the channel is closed and drained; otherwise it waits. *)
Theorem channel_calls cap xs c x : chan_holds cap xs c →
  (ci_closed c = true → Producer_try_push x c = Some (c, inr (TryPushError_closed x)) ∧
     ∀ env, Producer_push env x c = Some (c, inr ChannelClosed)) ∧
  (ci_closed c = false →
     (∃ c', Producer_try_push x c = Some (c', push_answer cap xs x) ∧
        chan_holds cap (push_items cap xs x) c' ∧ same_channel c c') ∧
     (zlen xs + 1 = cap →
        (cc_backpressure (ci_config c) = Reject →
           ∃ c', Producer_push [] x c = Some (c', inr ChannelFull) ∧ chan_holds cap xs c') ∧
        (cc_backpressure (ci_config c) = DropOldest →
           ∃ c', Producer_push [] x c = Some (c', inl tt) ∧ chan_holds cap xs c'))) ∧
  (∃ c', Consumer_poll c = Some (c', head xs) ∧ chan_holds cap (tail xs) c' ∧ same_channel c c') ∧
  (∀ env, ∃ c', match head xs with
     | Some y => Consumer_recv (id :: env) false c = Some (c', inl y) ∧ chan_holds cap (tail xs) c'
     | None => Consumer_recv (id :: env) false c =
         if ci_closed c then Some (c', inr RecvDisconnected) else Consumer_recv env true c'
     end).
Proof.
  intros Hok. split; [|split; [|split]].
  - intros Hcl. unfold Producer_try_push, Producer_push. by rewrite Hcl.
  - intros Hcl. destruct (try_push_open cap xs c x Hok Hcl) as (c' & Hp & Hc' & Hs).
    split; [by exists c'|]. intros Hfull. unfold push_answer, push_items in *.
    rewrite (proj2 (Z.eqb_eq _ _) Hfull) in *.
    split; intros Hb; unfold Producer_push; rewrite Hcl, Hb.
    + unfold Producer_push_reject. rewrite Hp. simpl. by exists c'.
    + unfold Producer_push_drop_oldest. rewrite Hp. simpl. eexists. split; [done|]. by apply tracked_holds.
  - by apply poll_open.
  - intros env. destruct (poll_open cap xs c Hok) as (c' & Hp & [Hr Hl] & (_ & _ & Hcl & _)).
    exists c'. destruct xs as [|y xs]; cbn [head hd_error Consumer_recv]; cbv zeta; unfold id; rewrite Hp; cbn [head hd_error].
    + assert (He : RingBuffer_is_empty (ci_buffer c') = true).
      { unfold RingBuffer_is_empty, SpscQueue_is_empty. apply Z.eqb_eq.
        by apply (ring_empty_iff _ _ _ _ _ Hr). }
      unfold Consumer_is_disconnected. rewrite He, Hcl, andb_true_r.
      by destruct (ci_closed c).
    + done.
Qed.
End SequentialCalls.

Lemma channel_calls_witness : ∃ c0, channel (T := Z) 4 = Some c0 ∧ chan_holds 4 [] c0 ∧
  ∃ c1, Producer_try_push 5 c0 = Some (c1, inl tt) ∧ chan_holds 4 [5] c1.
Proof.
  assert (Hq : ring_holds 4 [] (ring_of_capacity (T := Z) 4)) by exact (ring_new_holds 2 ltac:(lia)).
  eexists. split; [reflexivity|]. assert (Hok : chan_holds (T := Z) 4 []
    (mkInner (mkRing (ring_of_capacity 4) 0) 0 1 false (ChannelConfig_with_buffer_size 4) (mkStats 0 0 0 0 0) 0))
    by (split; [exact Hq|reflexivity]).
  split; [exact Hok|]. destruct (channel_calls 4 [] _ 5 Hok) as (_ & Ho & _).
  destruct (Ho eq_refl) as ((c1 & Hp & Hc & _) & _). exists c1. split; [exact Hp|exact Hc].
Defined.
