(* ===== verification/SlidingOp.v ===== *)
(** * The sliding window operator (crates/laminar-core/src/operator/sliding_window.rs)

    An event belongs to several overlapping windows. The operator keeps the same
    tables as the tumbling one (registered windows, accumulators in the state store,
    one final timer per window), updates every window of an event that is still open,
    and in Changelog mode remembers the last row of each window to retract it.

    Timer keys, contexts, outputs and the node loop of the executor are those of
    [TumblingOp]; the proofs reuse its lemmas on timers and runs. *)

From stdpp Require Import pretty.
From S2P Require Import Prelude TimeCore WatermarkGen StateStore WindowCore WindowAgg TumblingOp.

(** [b"slw:"] *)
Definition SLIDING_STATE_PREFIX : list Z := [115; 108; 119; 58].
Definition Sliding_state_key (w : WindowId) : list Z := SLIDING_STATE_PREFIX ++ WindowId_to_key_inline w.

Section SlidingOperator.
Context {Agg B A I O S Gen : Type}.
Context `{!Accumulator A I O} `{!Aggregator Agg B A I}.
Context `{!StateStore S} `{!Archive A} `{!WatermarkGenerator Gen}.
Context `{!Archive (list WindowId)} `{!Archive (list WindowId * list WindowId)}.
(** [RecordBatch::try_new(output_schema, [start, end, result])] *)
Context (make_batch : WindowId → O → option B).

Record SlidingWindowOperator := mkSlidingOp {
  sl_assigner : SlidingWindowAssigner;
  sl_aggregator : Agg;
  sl_allowed_lateness_ms : Z;
  sl_registered_windows : gset WindowId;
  sl_periodic_timer_windows : gset WindowId;
  sl_emit_strategy : EmitStrategy;
  sl_late_data_config : LateDataConfig;
  sl_late_data_metrics : LateDataMetrics;
  sl_window_close_metrics : WindowCloseMetrics;
  sl_operator_id : string;
  sl_last_emitted : gmap WindowId (Event B);
}.
Local Abbreviation Op := SlidingWindowOperator (only parsing).
Local Abbreviation Ctx := (OperatorContext S Gen) (only parsing).

(** [None]: the allowed lateness does not fit in [i64]. *)
Definition SlidingWindowOperator_with_id (assigner : SlidingWindowAssigner) (aggregator : Agg)
    (allowed_lateness : Duration) (operator_id : string) : option Op :=
  if as_millis allowed_lateness <=? i64_MAX then
    Some (mkSlidingOp assigner aggregator (as_millis allowed_lateness) ∅ ∅ OnWatermark
            LateDataConfig_drop LateDataMetrics_new WindowCloseMetrics_new operator_id ∅)
  else None.
(** [operator_num] is the value taken from [SLIDING_OPERATOR_COUNTER]. *)
Definition SlidingWindowOperator_new (operator_num : Z) (assigner : SlidingWindowAssigner) (aggregator : Agg)
    (allowed_lateness : Duration) : option Op :=
  SlidingWindowOperator_with_id assigner aggregator allowed_lateness
    ("sliding_window_" ++ pretty operator_num)%string.

(** Field updates. *)
Definition sl_set_windows (r p : gset WindowId) (op : Op) : Op :=
  mkSlidingOp (sl_assigner op) (sl_aggregator op) (sl_allowed_lateness_ms op) r p
    (sl_emit_strategy op) (sl_late_data_config op) (sl_late_data_metrics op)
    (sl_window_close_metrics op) (sl_operator_id op) (sl_last_emitted op).
Definition sl_set_late (m : LateDataMetrics) (op : Op) : Op :=
  mkSlidingOp (sl_assigner op) (sl_aggregator op) (sl_allowed_lateness_ms op)
    (sl_registered_windows op) (sl_periodic_timer_windows op) (sl_emit_strategy op)
    (sl_late_data_config op) m (sl_window_close_metrics op) (sl_operator_id op) (sl_last_emitted op).
Definition sl_set_close (m : WindowCloseMetrics) (op : Op) : Op :=
  mkSlidingOp (sl_assigner op) (sl_aggregator op) (sl_allowed_lateness_ms op)
    (sl_registered_windows op) (sl_periodic_timer_windows op) (sl_emit_strategy op)
    (sl_late_data_config op) (sl_late_data_metrics op) m (sl_operator_id op) (sl_last_emitted op).
Definition sl_set_last (l : gmap WindowId (Event B)) (op : Op) : Op :=
  mkSlidingOp (sl_assigner op) (sl_aggregator op) (sl_allowed_lateness_ms op)
    (sl_registered_windows op) (sl_periodic_timer_windows op) (sl_emit_strategy op)
    (sl_late_data_config op) (sl_late_data_metrics op) (sl_window_close_metrics op) (sl_operator_id op) l.
Definition SlidingWindowOperator_set_emit_strategy (strategy : EmitStrategy) (op : Op) : Op :=
  mkSlidingOp (sl_assigner op) (sl_aggregator op) (sl_allowed_lateness_ms op)
    (sl_registered_windows op) (sl_periodic_timer_windows op) strategy (sl_late_data_config op)
    (sl_late_data_metrics op) (sl_window_close_metrics op) (sl_operator_id op) (sl_last_emitted op).
Definition SlidingWindowOperator_set_late_data_config (config : LateDataConfig) (op : Op) : Op :=
  mkSlidingOp (sl_assigner op) (sl_aggregator op) (sl_allowed_lateness_ms op)
    (sl_registered_windows op) (sl_periodic_timer_windows op) (sl_emit_strategy op) config
    (sl_late_data_metrics op) (sl_window_close_metrics op) (sl_operator_id op) (sl_last_emitted op).
Definition SlidingWindowOperator_reset_late_data_metrics (op : Op) : Op :=
  sl_set_late (LateDataMetrics_reset (sl_late_data_metrics op)) op.
Definition SlidingWindowOperator_reset_window_close_metrics (op : Op) : Op :=
  sl_set_close (WindowCloseMetrics_reset (sl_window_close_metrics op)) op.
Definition SlidingWindowOperator_active_windows_count (op : Op) : nat := size (sl_registered_windows op).

(** ** Accumulator state *)

Definition Sliding_get_accumulator (op : Op) (w : WindowId) (state : S) : A :=
  match get_typed (T:=A) state (Sliding_state_key w) with
  | inl (Some acc) => acc
  | _ => create_accumulator (sl_aggregator op)
  end.
Definition Sliding_put_accumulator (w : WindowId) (acc : A) (state : S) : S * (unit + OperatorError) :=
  let '(state', r) := put_typed state (Sliding_state_key w) acc in
  (state', match r with
           | inl _ => inl tt
           | inr e => inr (StateAccessFailed (StateError_to_string e))
           end).
Definition Sliding_delete_accumulator (w : WindowId) (state : S) : S * (unit + OperatorError) :=
  let '(state', r) := ss_delete state (Sliding_state_key w) in
  (state', match r with
           | inl _ => inl tt
           | inr e => inr (StateAccessFailed (StateError_to_string e))
           end).

Definition window_closed (op : Op) (watermark : Z) (w : WindowId) : bool :=
  i64_add (w_end w) (sl_allowed_lateness_ms op) <=? watermark.

(** [None]: the assigner does not return. *)
Definition Sliding_is_late (op : Op) (event_time watermark : Z) : option bool :=
  windows ← SlidingWindowAssigner_assign_windows (sl_assigner op) event_time;
  Some (forallb (window_closed op watermark) windows).

Definition Sliding_maybe_register_timer (op : Op) (w : WindowId) (ctx : Ctx) : Op * Ctx :=
  if bool_decide (w ∈ sl_registered_windows op) then (op, ctx)
  else
    let trigger_time := i64_add (w_end w) (sl_allowed_lateness_ms op) in
    let '(timers', _) := TimerService_register_timer (cx_timers ctx) trigger_time
                           (Some (WindowId_to_key w)) (Some (cx_operator_index ctx)) in
    (sl_set_windows ({[w]} ∪ sl_registered_windows op) (sl_periodic_timer_windows op) op,
     cx_set_timers timers' ctx).

(** The interval fits in [i64] milliseconds (the code panics otherwise). *)
Definition Sliding_maybe_register_periodic_timer (op : Op) (w : WindowId) (ctx : Ctx) : Op * Ctx :=
  match sl_emit_strategy op with
  | PeriodicEmit interval =>
      if bool_decide (w ∈ sl_periodic_timer_windows op) then (op, ctx)
      else
        let trigger_time := i64_add (cx_processing_time ctx) (as_millis interval) in
        let '(timers', _) := TimerService_register_timer (cx_timers ctx) trigger_time
                               (Some (periodic_timer_key w)) (Some (cx_operator_index ctx)) in
        (sl_set_windows (sl_registered_windows op) ({[w]} ∪ sl_periodic_timer_windows op) op,
         cx_set_timers timers' ctx)
  | _ => (op, ctx)
  end.

Definition Sliding_create_intermediate_result (op : Op) (w : WindowId) (state : S) : option (Event B) :=
  let acc := Sliding_get_accumulator op w state in
  if acc_is_empty acc then None else result_event make_batch w acc.

Definition Sliding_handle_periodic_timer (op : Op) (w : WindowId) (ctx : Ctx)
    : Op * Ctx * list (Output B) :=
  if bool_decide (w ∉ sl_registered_windows op) then
    (sl_set_windows (sl_registered_windows op) (sl_periodic_timer_windows op ∖ {[w]}) op, ctx, [])
  else
    let output := match Sliding_create_intermediate_result op w (cx_state ctx) with
                  | Some event => [OutEvent event]
                  | None => []
                  end in
    let ctx' :=
      match sl_emit_strategy op with
      | PeriodicEmit interval =>
          let next_trigger := i64_add (cx_processing_time ctx) (as_millis interval) in
          let window_close_time := i64_add (w_end w) (sl_allowed_lateness_ms op) in
          if next_trigger <? window_close_time then
            cx_set_timers (TimerService_register_timer (cx_timers ctx) next_trigger
              (Some (periodic_timer_key w)) (Some (cx_operator_index ctx))).1 ctx
          else ctx
      | _ => ctx
      end in
    (op, ctx', output).

(** ** [process] *)

Definition Sliding_process_late (op : Op) (event : Event B) : Op * list (Output B) :=
  if EmitStrategy_drops_late_data (sl_emit_strategy op) then
    (sl_set_late (LateDataMetrics_record_dropped (sl_late_data_metrics op)) op, [])
  else
    match ld_side_output (sl_late_data_config op) with
    | Some name =>
        (sl_set_late (LateDataMetrics_record_side_output (sl_late_data_metrics op)) op,
         [OutSideOutput name event])
    | None =>
        (sl_set_late (LateDataMetrics_record_dropped (sl_late_data_metrics op)) op, [OutLateEvent event])
    end.

(** One round of the loop over the windows of an event; [updated] collects the
    windows whose state was updated. *)
Definition Sliding_update_state (event : Event B) (w : WindowId) (op : Op) (ctx : Ctx)
    (updated : list WindowId) : Ctx * list WindowId :=
  match extract_batch (sl_aggregator op) event with
  | [] => (ctx, updated)
  | values =>
      let acc := foldl acc_add (Sliding_get_accumulator op w (cx_state ctx)) values in
      let '(state', r) := Sliding_put_accumulator w acc (cx_state ctx) in
      (cx_set_state state' ctx, match r with inl _ => updated ++ [w] | inr _ => updated end)
  end.
Definition Sliding_update_window (event : Event B) (w : WindowId) (op : Op) (ctx : Ctx)
    (updated : list WindowId) : Op * Ctx * list WindowId :=
  let '(ctx, updated) := Sliding_update_state event w op ctx updated in
  let '(op, ctx) := Sliding_maybe_register_timer op w ctx in
  let '(op, ctx) :=
    if negb (EmitStrategy_suppresses_intermediate (sl_emit_strategy op))
    then Sliding_maybe_register_periodic_timer op w ctx else (op, ctx) in
  (op, ctx, updated).

Fixpoint Sliding_update_windows (event : Event B) (current_wm : Z) (windows : list WindowId)
    (op : Op) (ctx : Ctx) (updated : list WindowId) : Op * Ctx * list WindowId :=
  match windows with
  | [] => (op, ctx, updated)
  | w :: windows =>
      if (i64_MIN <? current_wm) && window_closed op current_wm w
      then Sliding_update_windows event current_wm windows op ctx updated
      else
        let '(op, ctx, updated) := Sliding_update_window event w op ctx updated in
        Sliding_update_windows event current_wm windows op ctx updated
  end.

(** The emission of Changelog mode for one updated window. *)
Definition Sliding_emit_changelog (ctx : Ctx) (w : WindowId) (op : Op) : Op * list (Output B) :=
  match Sliding_create_intermediate_result op w (cx_state ctx) with
  | Some event =>
      (sl_set_last (<[w := event]> (sl_last_emitted op)) op,
       match sl_last_emitted op !! w with
       | Some old_event => [OutChangelog (ChangelogRecord_delete old_event (cx_processing_time ctx))]
       | None => []
       end ++ [OutChangelog (ChangelogRecord_insert event (cx_processing_time ctx))])
  | None => (op, [])
  end.
Fixpoint Sliding_emit_changelogs (ctx : Ctx) (updated : list WindowId) (op : Op) : Op * list (Output B) :=
  match updated with
  | [] => (op, [])
  | w :: updated =>
      let '(op, out1) := Sliding_emit_changelog ctx w op in
      let '(op, out2) := Sliding_emit_changelogs ctx updated op in
      (op, out1 ++ out2)
  end.

Definition Sliding_emit_updates (ctx : Ctx) (updated : list WindowId) (op : Op) : Op * list (Output B) :=
  match sl_emit_strategy op with
  | OnUpdate =>
      (op, updated ≫= λ w, match Sliding_create_intermediate_result op w (cx_state ctx) with
                           | Some event => [OutEvent event]
                           | None => []
                           end)
  | Changelog => Sliding_emit_changelogs ctx updated op
  | _ => (op, [])
  end.

Definition Sliding_process (clk : Clock) (op : Op) (event : Event B) (ctx : Ctx)
    : option (Op * Ctx * list (Output B)) :=
  let event_time := ev_timestamp event in
  let '(gen', emitted_watermark) := on_event clk (cx_watermark_generator ctx) event_time in
  let ctx := cx_set_gen gen' ctx in
  let current_wm := current_watermark gen' in
  late ← (if i64_MIN <? current_wm then Sliding_is_late op event_time current_wm else Some false);
  if late : bool then
    let '(op, output) := Sliding_process_late op event in Some (op, ctx, output)
  else
    windows ← SlidingWindowAssigner_assign_windows (sl_assigner op) event_time;
    let '(op, ctx, updated) := Sliding_update_windows event current_wm windows op ctx [] in
    let output := match emitted_watermark with Some wm => [OutWatermark (wm_ts wm)] | None => [] end in
    let '(op, emitted) := Sliding_emit_updates ctx updated op in
    Some (op, ctx, output ++ emitted).

(** ** [on_timer] *)

(** The final timer of a window. *)
Definition Sliding_close_window (op : Op) (w : WindowId) (ctx : Ctx) : Op * Ctx * list (Output B) :=
  let acc := Sliding_get_accumulator op w (cx_state ctx) in
  let ctx' := cx_set_state (Sliding_delete_accumulator w (cx_state ctx)).1 ctx in
  let op' := sl_set_windows (sl_registered_windows op ∖ {[w]}) (sl_periodic_timer_windows op ∖ {[w]}) op in
  if acc_is_empty acc then (sl_set_last (delete w (sl_last_emitted op)) op', ctx', [])
  else
    match result_event make_batch w acc with
    | Some event =>
        let op' := sl_set_close (WindowCloseMetrics_record_close (sl_window_close_metrics op) (w_end w)
                                   (cx_processing_time ctx)) op' in
        match sl_emit_strategy op with
        | Changelog =>
            (sl_set_last (delete w (sl_last_emitted op)) op', ctx',
             match sl_last_emitted op !! w with
             | Some old_event => [OutChangelog (ChangelogRecord_delete old_event (cx_processing_time ctx))]
             | None => []
             end ++ [OutChangelog (ChangelogRecord_insert event (cx_processing_time ctx))])
        | _ => (op', ctx', [OutEvent event])
        end
    | None => (op', ctx', [])
    end.

Definition Sliding_on_timer (op : Op) (timer : Timer) (ctx : Ctx) : Op * Ctx * list (Output B) :=
  if is_periodic_timer_key (tm_key timer) then
    if EmitStrategy_suppresses_intermediate (sl_emit_strategy op) then
      (match window_id_from_periodic_key (tm_key timer) with
       | Some w => sl_set_windows (sl_registered_windows op) (sl_periodic_timer_windows op ∖ {[w]}) op
       | None => op
       end, ctx, [])
    else
      match window_id_from_periodic_key (tm_key timer) with
      | Some w => Sliding_handle_periodic_timer op w ctx
      | None => (op, ctx, [])
      end
  else
    match WindowId_from_key (tm_key timer) with
    | None => (op, ctx, [])
    | Some w => Sliding_close_window op w ctx
    end.

(** ** [checkpoint] and [restore]; [witer] is the iteration order of a hash set *)

Definition Sliding_checkpoint (witer : gset WindowId → list WindowId) (op : Op) : OperatorState :=
  mkOperatorState (sl_operator_id op) 1
    (match to_bytes (witer (sl_registered_windows op), witer (sl_periodic_timer_windows op)) with
     | inl v => v
     | inr _ => []
     end).

Definition Sliding_restore (op : Op) (state : OperatorState) : Op * (unit + OperatorError) :=
  if bool_decide (os_operator_id state ≠ sl_operator_id op) then
    (op, inr (StateAccessFailed ("Operator ID mismatch: expected " ++ sl_operator_id op ++
                                 ", got " ++ os_operator_id state)%string))
  else
    match from_bytes (T:=list WindowId * list WindowId) (os_data state) with
    | inl (windows, periodic_windows) =>
        (sl_set_windows (list_to_set windows) (list_to_set periodic_windows) op, inl tt)
    | inr _ =>
        match from_bytes (T:=list WindowId) (os_data state) with
        | inl windows => (sl_set_windows (list_to_set windows) ∅ op, inl tt)
        | inr e => (op, inr (SerializationFailed e))
        end
    end.

(** ** One node of the executor *)

(** The [for reg in fired] loop of [DagExecutor::fire_timers]. *)
Fixpoint Sliding_fire_loop (op : Op) (ctx : Ctx) (current_time : Z) (fired : list TimerRegistration)
    : Op * Ctx * list (Output B) :=
  match fired with
  | [] => (op, ctx, [])
  | reg :: rest =>
      let timer := mkFired (default [] (t_key reg)) (t_timestamp reg) in
      let ctx1 := mkCtx (t_timestamp reg) current_time (cx_timers ctx) (cx_state ctx)
                    (cx_watermark_generator ctx) (cx_operator_index ctx) in
      let '(op1, ctx2, out1) := Sliding_on_timer op timer ctx1 in
      let '(op2, ctx3, out2) := Sliding_fire_loop op1 ctx2 current_time rest in
      (op2, ctx3, out1 ++ out2)
  end.

(** [process_watermark] for one node: advance its generator, then fire. *)
Definition Sliding_node_watermark (clk : Clock) (op : Op) (ctx : Ctx) (watermark : Z)
    : option (Op * Ctx * list (Output B)) :=
  let gen' := (advance_watermark clk (cx_watermark_generator ctx) watermark).1 in
  '(timers', fired) ← TimerService_poll_timers (cx_timers ctx) watermark;
  Some (Sliding_fire_loop op (cx_set_timers timers' (cx_set_gen gen' ctx)) watermark fired).

(** A node driven by events and watermarks, with everything it emits for each. *)
Fixpoint sliding_run (op : Op) (ctx : Ctx) (ops : list (node_op (B:=B)))
    : option (Op * Ctx * list (list (Output B))) :=
  match ops with
  | [] => Some (op, ctx, [])
  | NEvent clk pt e :: rest =>
      let ctx0 := mkCtx (ev_timestamp e) pt (cx_timers ctx) (cx_state ctx)
                    (cx_watermark_generator ctx) (cx_operator_index ctx) in
      '(op1, ctx1, out1) ← Sliding_process clk op e ctx0;
      '(op2, ctx2, outs) ← sliding_run op1 ctx1 rest;
      Some (op2, ctx2, out1 :: outs)
  | NWatermark clk ts :: rest =>
      '(op1, ctx1, out1) ← Sliding_node_watermark clk op ctx ts;
      '(op2, ctx2, outs) ← sliding_run op1 ctx1 rest;
      Some (op2, ctx2, out1 :: outs)
  end.
End SlidingOperator.

Lemma Sliding_state_key_inj w w' : window_ok w → window_ok w' → Sliding_state_key w = Sliding_state_key w' → w = w'.
Proof. intros Hw Hw' H. apply app_inv_head in H. by apply to_key_inj. Qed.

Section SlidingSpec.
Context {Agg B A I O S Gen : Type}.
Context `{!Accumulator A I O} `{!AccumulatorLaws A I O} `{!Aggregator Agg B A I} `{!AggregatorLaws Agg B A I O}.
Context `{!StateStore S} {sok : S → Prop} {sabs : S → gmap (list Z) (list Z)}.
Context `{!StateStoreLaws S sok sabs} `{!Archive A} `{!ArchiveLaws A}.
Context `{!WatermarkGenerator Gen}.
Context (make_batch : WindowId → O → option B).
Local Abbreviation Op := (SlidingWindowOperator (Agg:=Agg) (B:=B)) (only parsing).
Local Abbreviation Ctx := (OperatorContext S Gen) (only parsing).
Abbreviation open_windows := (gmap WindowId (list I)) (only parsing).

(** The tables shared with the tumbling operator, of which the lemmas on timers and
    runs are about. *)
Definition tables (op : Op) : TumblingWindowOperator (Agg:=Agg) (B:=B) :=
  mkTumblingOp (mkTumbling 1 0) (sl_aggregator op) (sl_allowed_lateness_ms op) (sl_registered_windows op)
    (sl_periodic_timer_windows op) (sl_emit_strategy op) (sl_late_data_config op) (sl_late_data_metrics op)
    (sl_window_close_metrics op) (sl_operator_id op) (sl_last_emitted op) None.

Definition sl_conf (op : Op) :=
  (sl_assigner op, sl_aggregator op, sl_allowed_lateness_ms op, sl_emit_strategy op).
Definition sl_not_periodic (op : Op) : Prop := ∀ d, sl_emit_strategy op ≠ PeriodicEmit d.

(** The operator holds the open windows [m]. *)
Record sl_repr (op : Op) (s : S) (m : open_windows) : Prop := {
  slr_store : sok s;
  slr_registered : sl_registered_windows op = dom m;
  slr_acc : ∀ w, window_ok w → Sliding_get_accumulator op w s = acc_of (default [] (m !! w));
  slr_closable : ∀ w, w ∈ dom m → closable (tables op) w }.

Lemma sl_get_abs (op : Op) w s : sok s →
  Sliding_get_accumulator op w s =
    match sabs s !! Sliding_state_key w with
    | Some b => match from_bytes b with inl acc => acc | inr _ => acc_default end
    | None => acc_default
    end.
Proof.
  intros Hs. unfold Sliding_get_accumulator, get_typed. rewrite (law_get s _ Hs), law_create.
  destruct (law_get_ref s (Sliding_state_key w) Hs) as [-> | ->];
    destruct (sabs s !! Sliding_state_key w) as [b|]; try done; by destruct (from_bytes b).
Qed.

Lemma sl_put_spec (op : Op) w acc s : sok s → window_ok w →
  ∃ s', Sliding_put_accumulator w acc s = (s', inl tt) ∧ sok s' ∧
    ∀ w', window_ok w' →
      Sliding_get_accumulator op w' s' = if decide (w' = w) then acc else Sliding_get_accumulator op w' s.
Proof.
  intros Hs Hw. unfold Sliding_put_accumulator, put_typed.
  destruct (archive_roundtrip acc) as (b & Hb & Hrt). rewrite Hb.
  destruct (law_put s (Sliding_state_key w) b Hs) as (Hr & Hok & Habs).
  destruct (ss_put s (Sliding_state_key w) b) as [s' r]; simpl in *. subst r.
  exists s'. split_and!; [done..|]. intros w' Hw'. rewrite !sl_get_abs, Habs by done. case_decide as Hww.
  - subst. by rewrite lookup_insert_eq, Hrt.
  - rewrite lookup_insert_ne; [done|]. intros Hk. by apply Hww, Sliding_state_key_inj.
Qed.

Lemma sl_delete_spec (op : Op) w s : sok s → window_ok w →
  sok (Sliding_delete_accumulator w s).1 ∧
  ∀ w', window_ok w' → Sliding_get_accumulator op w' (Sliding_delete_accumulator w s).1 =
    if decide (w' = w) then acc_default else Sliding_get_accumulator op w' s.
Proof.
  intros Hs Hw. unfold Sliding_delete_accumulator.
  destruct (law_delete s (Sliding_state_key w) Hs) as (Hr & Hok & Habs).
  destruct (ss_delete s (Sliding_state_key w)) as [s' r]; simpl in *.
  split; [done|]. intros w' Hw'. rewrite !sl_get_abs, Habs by done. case_decide as Hww.
  - subst. by rewrite lookup_delete_eq.
  - rewrite lookup_delete_ne; [done|]. intros Hk. by apply Hww, Sliding_state_key_inj.
Qed.

Lemma sl_get_conf (op op' : Op) w s : sl_conf op' = sl_conf op →
  Sliding_get_accumulator op' w s = Sliding_get_accumulator op w s.
Proof. unfold sl_conf, Sliding_get_accumulator. by intros [= _ -> _ _]. Qed.
Lemma sl_conf_lateness (op op' : Op) : sl_conf op' = sl_conf op →
  sl_allowed_lateness_ms op' = sl_allowed_lateness_ms op.
Proof. unfold sl_conf. congruence. Qed.
Lemma sl_timers_conf (op op' : Op) (m : open_windows) ts : sl_conf op' = sl_conf op →
  timers_ok (tables op) m ts → timers_ok (tables op') m ts.
Proof. intros Hc%sl_conf_lateness. unfold timers_ok. simpl. by rewrite Hc. Qed.
Lemma sl_closable_conf (op op' : Op) w : sl_conf op' = sl_conf op →
  closable (tables op) w → closable (tables op') w.
Proof. intros Hc%sl_conf_lateness. unfold closable. simpl. by rewrite Hc. Qed.

Lemma sl_repr_frame op op' s m : sl_conf op' = sl_conf op →
  sl_registered_windows op' = sl_registered_windows op → sl_repr op s m → sl_repr op' s m.
Proof.
  intros Hc Hr [Hs Hd Hg Hcl]. split; [done|congruence| |].
  - intros w Hw. rewrite (sl_get_conf op) by done. auto.
  - intros w Hw. eapply sl_closable_conf; [done|auto].
Qed.

(** ** The loop over the windows of an event *)

Definition add_values (vs : list I) (m : open_windows) (ws : list WindowId) : open_windows :=
  foldl (λ m w, <[w := default [] (m !! w) ++ vs]> m) m ws.

Lemma no_periodic_registration_sl (op : Op) w (ctx : Ctx) : sl_not_periodic op →
  (if negb (EmitStrategy_suppresses_intermediate (sl_emit_strategy op))
   then Sliding_maybe_register_periodic_timer op w ctx else (op, ctx)) = (op, ctx).
Proof.
  intros Hnp. unfold Sliding_maybe_register_periodic_timer.
  destruct (sl_emit_strategy op) eqn:Es; try done. by destruct (Hnp interval).
Qed.

Lemma sl_register_spec (op : Op) w (ctx : Ctx) (m : open_windows) xs :
  sl_registered_windows op = dom m → closable (tables op) w →
  timers_ok (tables op) m (timers (cx_timers ctx)) →
  ∃ r T, Sliding_maybe_register_timer op w ctx = (sl_set_windows r (sl_periodic_timer_windows op) op, cx_set_timers T ctx) ∧
    r = dom (<[w := xs]> m) ∧ timers_ok (tables op) (<[w := xs]> m) (timers T).
Proof.
  intros Hd (_ & _ & Hend) Ht. unfold Sliding_maybe_register_timer. rewrite Hd. simpl in Hend.
  case_bool_decide as Hw.
  - exists (dom m), (cx_timers ctx). split; [rewrite <- Hd; by destruct op, ctx|].
    split; [rewrite dom_insert_L; set_solver|]. by apply timers_ok_insert_old.
  - eexists _, _. split; [done|]. split; [by rewrite dom_insert_L|].
    apply timers_ok_insert_new; try done. simpl. apply i64_add_exact. int_lia.
Qed.

Lemma sl_update_state_spec e w (op : Op) (ctx : Ctx) upd (m : open_windows) :
  sl_repr op (cx_state ctx) m → closable (tables op) w →
  let vs := extract_batch (sl_aggregator op) e in
  let m' := <[w := default [] (m !! w) ++ vs]> m in
  ∃ s', Sliding_update_state e w op ctx upd =
      (cx_set_state s' ctx, upd ++ match vs with [] => [] | _ => [w] end) ∧ sok s' ∧
    ∀ w', window_ok w' → Sliding_get_accumulator op w' s' = acc_of (default [] (m' !! w')).
Proof.
  intros [Hs Hd Hg Hall] Hcl vs m'. unfold Sliding_update_state. fold vs.
  assert (Hins : ∀ w', default ([] : list I) (m' !! w') =
    if decide (w' = w) then default [] (m !! w) ++ vs else default [] (m !! w')).
  { intros w'. unfold m'. rewrite lookup_insert. destruct (decide (w = w')), (decide (w' = w)); by subst. }
  destruct vs as [|v l] eqn:Hvs.
  - exists (cx_state ctx). split; [rewrite app_nil_r; by destruct ctx|]. split; [done|].
    intros w' Hw'. rewrite Hins, Hg by done. case_decide; [|done]. subst. by rewrite app_nil_r.
  - destruct (sl_put_spec op w (foldl acc_add (Sliding_get_accumulator op w (cx_state ctx)) (v :: l))
      (cx_state ctx) Hs (proj1 Hcl)) as (s' & Hput & Hok & Hget).
    exists s'. cbv zeta. rewrite Hput. split; [done|]. split; [done|].
    intros w' Hw'. rewrite Hget, Hins by done. case_decide; [|by apply Hg].
    rewrite (Hg w) by apply Hcl. unfold acc_of. by rewrite foldl_app.
Qed.

Lemma sl_update_window_spec e w (op : Op) (ctx : Ctx) upd (m : open_windows) :
  sl_repr op (cx_state ctx) m → timers_ok (tables op) m (timers (cx_timers ctx)) →
  sl_not_periodic op → closable (tables op) w →
  let vs := extract_batch (sl_aggregator op) e in
  let m' := <[w := default [] (m !! w) ++ vs]> m in
  ∃ r s' T, Sliding_update_window e w op ctx upd =
      (sl_set_windows r (sl_periodic_timer_windows op) op, cx_set_timers T (cx_set_state s' ctx),
       upd ++ match vs with [] => [] | _ => [w] end) ∧
    sl_repr (sl_set_windows r (sl_periodic_timer_windows op) op) s' m' ∧ timers_ok (tables op) m' (timers T).
Proof.
  intros Hr Ht Hnp Hcl vs m'. unfold Sliding_update_window.
  destruct (sl_update_state_spec e w op ctx upd m Hr Hcl) as (s' & -> & Hok & Hget).
  destruct Hr as [Hs Hd Hg Hall].
  destruct (sl_register_spec op w (cx_set_state s' ctx) m (default [] (m !! w) ++ vs) Hd Hcl Ht)
    as (r & T & -> & Hreg & Ht'). rewrite no_periodic_registration_sl by done.
  exists r, s', T. split; [done|]. split; [|done]. split; try done.
  intros w' Hw'. unfold m' in Hw'. rewrite dom_insert_L in Hw'.
  apply elem_of_union in Hw' as [->%elem_of_singleton|Hw']; [done|]. by apply Hall.
Qed.

(** The windows of an event that are still open. *)
Definition open_of (op : Op) (wm : Z) (ws : list WindowId) : list WindowId :=
  filter (λ w, wm < cleanup_time (tables op) w) ws.

(** The test of [process] for a closed window. *)
Lemma window_closed_test (op : Op) wm w : closable (tables op) w →
  (i64_MIN <? wm) && window_closed op wm w = (cleanup_time (tables op) w <=? wm).
Proof.
  intros (_ & _ & Hend). unfold window_closed, cleanup_time in *. simpl in *.
  rewrite i64_add_exact by int_lia.
  destruct (Z.leb_spec (w_end w + sl_allowed_lateness_ms op) wm); [|apply andb_false_r].
  apply andb_true_intro. split; [|done]. apply Z.ltb_lt. lia.
Qed.

Lemma sl_update_windows_spec e wm ws : ∀ (op : Op) (ctx : Ctx) upd (m : open_windows),
  sl_repr op (cx_state ctx) m → timers_ok (tables op) m (timers (cx_timers ctx)) →
  sl_not_periodic op → Forall (closable (tables op)) ws →
  let vs := extract_batch (sl_aggregator op) e in
  let m' := add_values vs m (open_of op wm ws) in
  ∃ r s' T, Sliding_update_windows e wm ws op ctx upd =
      (sl_set_windows r (sl_periodic_timer_windows op) op, cx_set_timers T (cx_set_state s' ctx),
       upd ++ match vs with [] => [] | _ => open_of op wm ws end) ∧
    sl_repr (sl_set_windows r (sl_periodic_timer_windows op) op) s' m' ∧ timers_ok (tables op) m' (timers T).
Proof.
  induction ws as [|w ws IH]; intros op ctx upd m Hr Ht Hnp Hall vs m'; cbn [Sliding_update_windows].
  { exists (sl_registered_windows op), (cx_state ctx), (cx_timers ctx). split; [|split].
    - unfold open_of. simpl. destruct vs; rewrite app_nil_r; by destruct op, ctx.
    - by destruct op.
    - done. }
  apply Forall_cons in Hall as [Hw Hall]. unfold m', open_of. rewrite filter_cons.
  rewrite (window_closed_test op wm w Hw).
  destruct (Z.leb_spec (cleanup_time (tables op) w) wm) as [Hc|Hc];
    [rewrite decide_False by lia; by apply IH|rewrite decide_True by lia].
  destruct (sl_update_window_spec e w op ctx upd m Hr Ht Hnp Hw) as (r1 & s1 & T1 & -> & Hr1 & Ht1).
  destruct (IH (sl_set_windows r1 (sl_periodic_timer_windows op) op) (cx_set_timers T1 (cx_set_state s1 ctx))
    (upd ++ match vs with [] => [] | _ => [w] end) _ Hr1 Ht1 Hnp Hall) as (r2 & s2 & T2 & Heq & Hr2 & Ht2).
  exists r2, s2, T2. split; [|split; [exact Hr2|exact Ht2]]. etrans; [exact Heq|]. cbn [sl_aggregator sl_set_windows].
  fold vs. rewrite <- app_assoc. f_equal. by destruct vs.
Qed.

(** ** Rows *)

(** The row of a window with the values [xs]. *)
Definition sl_row (w : WindowId) (xs : list I) : option (Event B) :=
  if acc_is_empty (acc_of xs) then None else result_event make_batch w (acc_of xs).

Lemma sl_intermediate (op : Op) w s m : sl_repr op s m → window_ok w →
  Sliding_create_intermediate_result make_batch op w s = sl_row w (default [] (m !! w)).
Proof. intros Hr Hw. unfold Sliding_create_intermediate_result. by rewrite (slr_acc _ _ _ Hr w Hw). Qed.

Lemma sl_emit_quiet (op : Op) (ctx : Ctx) upd : sl_emit_strategy op ≠ Changelog →
  ∃ out, Sliding_emit_updates make_batch ctx upd op = (op, out) ∧
    (sl_emit_strategy op ≠ OnUpdate → out = []).
Proof.
  intros Hne. unfold Sliding_emit_updates. destruct (sl_emit_strategy op); try done; try (by exists []).
  by eexists.
Qed.

(** ** Changelog mode

    The inserts and the deletes among the outputs. *)
Definition records (weight : Z) (out : list (Output B)) : list (Event B) :=
  omap (λ o, match o with
             | OutChangelog r => if cl_weight r =? weight then Some (cl_event r) else None
             | _ => None
             end) out.
Definition inserted := records 1.
Definition deleted := records (-1).

Lemma records_app weight o1 o2 : records weight (o1 ++ o2) = records weight o1 ++ records weight o2.
Proof. unfold records. by rewrite omap_app. Qed.

(** Replacing the rows of the updated windows: the old ones are deleted, the new ones
    inserted. *)
Lemma sl_emit_changelogs_spec (ctx : Ctx) (new : WindowId → option (Event B)) upd : ∀ op : Op, NoDup upd →
  (∀ w, w ∈ upd → ∀ op' : Op, sl_aggregator op' = sl_aggregator op →
     Sliding_create_intermediate_result make_batch op' w (cx_state ctx) = new w ∧ is_Some (new w)) →
  ∃ l out, Sliding_emit_changelogs make_batch ctx upd op = (sl_set_last l op, out) ∧
    (∀ w, l !! w = if decide (w ∈ upd) then new w else sl_last_emitted op !! w) ∧
    inserted out = (upd ≫= λ w, option_list (new w)) ∧
    deleted out = upd ≫= λ w, option_list (sl_last_emitted op !! w).
Proof.
  induction upd as [|w upd IH]; intros op Hnd Hnew; cbn [Sliding_emit_changelogs].
  { exists (sl_last_emitted op), []. split; [by destruct op|]. split; [|done].
    intros w. by rewrite decide_False by apply not_elem_of_nil. }
  apply NoDup_cons in Hnd as [Hw Hnd]. unfold Sliding_emit_changelog.
  destruct (Hnew w ltac:(left) op eq_refl) as [-> [ev Hev]]. rewrite Hev.
  destruct (IH (sl_set_last (<[w := ev]> (sl_last_emitted op)) op) Hnd) as (l & out & -> & Hl & Hins & Hdel).
  { intros w' Hw' op' Hop'. apply Hnew; [by right|done]. }
  eexists l, _. split; [done|]. split; [|split].
  - intros w'. rewrite Hl. simpl. destruct (decide (w' ∈ upd)) as [Hin|Hn].
    + by rewrite decide_True by (by right).
    + destruct (decide (w' = w)) as [->|Hne].
      * rewrite lookup_insert_eq. by rewrite decide_True by left.
      * rewrite lookup_insert_ne by done. by rewrite decide_False by (by intros [?|?]%elem_of_cons).
  - unfold inserted in *. rewrite !records_app, Hins, bind_cons, Hev. by destruct (sl_last_emitted op !! w).
  - unfold deleted in *. rewrite !records_app, Hdel. cbn [sl_last_emitted sl_set_last].
    assert (Hrest : (upd ≫= λ w0, option_list (<[w := ev]> (sl_last_emitted op) !! w0)) =
                    upd ≫= λ w0, option_list (sl_last_emitted op !! w0)).
    { clear -Hw. induction upd as [|x upd IH]; [done|]. cbn [mbind list_bind]. rewrite lookup_insert_ne by set_solver.
      f_equal. apply IH. set_solver. }
    rewrite Hrest. rewrite bind_cons. by destruct (sl_last_emitted op !! w).
Qed.

(** The rows of the open windows. *)
Definition open_rows (m : open_windows) : list (Event B) :=
  map_to_list m ≫= λ p, option_list (sl_row p.1 p.2).

Lemma open_rows_delete m w xs : m !! w = Some xs →
  open_rows m ≡ₚ option_list (sl_row w xs) ++ open_rows (delete w m).
Proof. intros Hw. unfold open_rows. by rewrite <- (map_to_list_delete _ _ _ Hw). Qed.
Lemma open_rows_insert m w xs :
  open_rows (<[w := xs]> m) ++ option_list (m !! w ≫= sl_row w) ≡ₚ option_list (sl_row w xs) ++ open_rows m.
Proof.
  rewrite (open_rows_delete (<[w := xs]> m) w xs) by apply lookup_insert_eq. rewrite delete_insert_eq.
  rewrite <- app_assoc. f_equiv. destruct (m !! w) as [ys|] eqn:Hw; simpl.
  - rewrite (open_rows_delete m w ys Hw). apply Permutation_app_comm.
  - rewrite delete_id by done. by rewrite app_nil_r.
Qed.

Lemma add_values_lookup vs us : ∀ (m : open_windows) w, NoDup us →
  add_values vs m us !! w = if decide (w ∈ us) then Some (default [] (m !! w) ++ vs) else m !! w.
Proof.
  induction us as [|u us IH]; intros m w Hnd; [done|]. apply NoDup_cons in Hnd as [Hu Hnd].
  unfold add_values in *. cbn [foldl]. rewrite IH by done. destruct (decide (w = u)) as [->|Hne].
  - rewrite lookup_insert_eq. rewrite decide_False by done. by rewrite decide_True by left.
  - rewrite lookup_insert_ne by done.
    destruct (decide (w ∈ us)), (decide (w ∈ u :: us)); set_solver.
Qed.

Lemma open_rows_add vs us : ∀ m : open_windows, NoDup us →
  open_rows (add_values vs m us) ++ (us ≫= λ w, option_list (m !! w ≫= sl_row w)) ≡ₚ
  (us ≫= λ w, option_list (sl_row w (default [] (m !! w) ++ vs))) ++ open_rows m.
Proof.
  induction us as [|u us IH]; intros m Hnd; [by rewrite app_nil_r|]. apply NoDup_cons in Hnd as [Hu Hnd].
  set (m1 := <[u := default [] (m !! u) ++ vs]> m).
  assert (Hlook : ∀ w, w ∈ us → m1 !! w = m !! w) by (intros w Hw; unfold m1; rewrite lookup_insert_ne; set_solver).
  assert (Heq : ∀ f : WindowId → option (list I) → list (Event B),
    (us ≫= λ w, f w (m1 !! w)) = us ≫= λ w, f w (m !! w)).
  { intros f. clear -Hlook. induction us as [|x us IH]; [done|]. rewrite !bind_cons, Hlook by left.
    f_equal. apply IH. intros w Hw. apply Hlook. by right. }
  change (add_values vs m (u :: us)) with (add_values vs m1 us). rewrite !bind_cons.
  rewrite (Permutation_app_comm (option_list (m !! u ≫= sl_row u))), app_assoc.
  rewrite <- (Heq (λ w o, option_list (o ≫= sl_row w))), (IH m1 Hnd).
  rewrite (Heq (λ w o, option_list (sl_row w (default [] o ++ vs)))).
  pose proof (open_rows_insert m u (default [] (m !! u) ++ vs)) as Hi. fold m1 in Hi.
  rewrite <- !app_assoc, Hi. rewrite !app_assoc. f_equiv. apply Permutation_app_comm.
Qed.

Definition last_ok (op : Op) (m : open_windows) : Prop :=
  ∀ w, sl_last_emitted op !! w = m !! w ≫= sl_row w.
Definition sized (K : Z) (m : open_windows) : Prop := ∀ w xs, m !! w = Some xs → zlen xs <= K.

Context (batch_total : ∀ w r, is_Some (make_batch w r)).

Lemma sl_row_nil w : sl_row w [] = None.
Proof. unfold sl_row. rewrite law_empty by done. done. Qed.
Lemma sl_row_some w xs : xs ≠ [] → zlen xs < u64_MOD → is_Some (sl_row w xs).
Proof.
  intros Hne Hlen. unfold sl_row. rewrite law_empty by done. rewrite bool_decide_false by done.
  unfold result_event. destruct (batch_total w (acc_result (acc_of xs))) as [b ->]. by eexists.
Qed.

Lemma sized_add K vs us m : NoDup us → sized K m → sized (Z.max K 0 + zlen vs) (add_values vs m us).
Proof.
  intros Hnd Hm w xs. rewrite add_values_lookup by done. case_decide.
  - intros [= <-]. rewrite length_app. destruct (m !! w) as [ys|] eqn:Hw; simpl; [|lia].
    specialize (Hm w ys Hw). lia.
  - intros Hw. specialize (Hm w xs Hw). lia.
Qed.

(** The emissions of an update in Changelog mode. *)
Lemma sl_changelog_update (op op' : Op) (ctx : Ctx) m us vs K :
  sl_emit_strategy op' = Changelog → sl_aggregator op' = sl_aggregator op →
  sl_last_emitted op' = sl_last_emitted op → last_ok op m → sized K m → Z.max K 0 + zlen vs < u64_MOD →
  NoDup us → Forall (λ w, window_ok w) us → sl_repr op' (cx_state ctx) (add_values vs m us) →
  ∃ l out, Sliding_emit_updates make_batch ctx (match vs with [] => [] | _ => us end) op' = (sl_set_last l op', out) ∧
    last_ok (sl_set_last l op') (add_values vs m us) ∧
    inserted out ++ open_rows m ≡ₚ deleted out ++ open_rows (add_values vs m us).
Proof.
  intros Hem Hag Hlast Hl Hsz HK Hnd Hok Hr. unfold Sliding_emit_updates. rewrite Hem.
  pose proof (open_rows_add vs us m Hnd) as Hperm. rewrite Forall_forall in Hok.
  destruct vs as [|v vs'].
  - exists (sl_last_emitted op'), []. split; [by destruct op'|]. split.
    + intros w. cbn [sl_last_emitted sl_set_last]. rewrite Hlast, Hl, add_values_lookup by done. case_decide; [|done].
      destruct (m !! w) as [xs|]; simpl; [by rewrite app_nil_r|by rewrite sl_row_nil].
    + simpl. apply (Permutation_app_inv_r (us ≫= λ w, option_list (m !! w ≫= sl_row w))).
      rewrite Hperm. assert (Heq : (us ≫= λ w, option_list (m !! w ≫= sl_row w)) =
        us ≫= λ w, option_list (sl_row w (default [] (m !! w) ++ []))).
      { clear -AccumulatorLaws0. induction us as [|u us IH]; [done|]. rewrite !bind_cons. f_equal; [|apply IH].
        destruct (m !! u); simpl; [by rewrite app_nil_r|by rewrite sl_row_nil]. }
      rewrite Heq. apply Permutation_app_comm.
  - set (vs := v :: vs') in *. set (new := λ w, sl_row w (default [] (m !! w) ++ vs)).
    destruct (sl_emit_changelogs_spec ctx new us op' Hnd) as (l & out & -> & Hl' & Hins & Hdel).
    { intros w Hw op1 Hag1. unfold new. split.
      - unfold Sliding_create_intermediate_result, sl_row.
        replace (Sliding_get_accumulator op1 w (cx_state ctx)) with (Sliding_get_accumulator op' w (cx_state ctx))
          by (unfold Sliding_get_accumulator; by rewrite Hag1).
        rewrite (slr_acc _ _ _ Hr) by auto. rewrite add_values_lookup by done. by rewrite decide_True by done.
      - apply sl_row_some; [by destruct (default [] (m !! w))|].
        clearbody vs. rewrite length_app. destruct (m !! w) as [ys|] eqn:Hw'; simpl; [specialize (Hsz w ys Hw')|]; lia. }
    exists l, out. split; [done|]. split.
    + intros w. cbn [sl_last_emitted sl_set_last]. rewrite Hl', add_values_lookup by done.
      case_decide; [done|]. by rewrite Hlast.
    + rewrite Hins, Hdel. unfold new. rewrite <- Hperm. rewrite Permutation_app_comm. f_equiv.
      clear -Hlast Hl. induction us as [|u us IH]; [done|]. rewrite !bind_cons, IH, Hlast. by rewrite Hl.
Qed.

(** What was emitted accounts for the change of the open rows and the rows [R] of the
    closed windows. *)
Definition balance (out : list (Output B)) (R : list (Event B)) (m m' : open_windows) : Prop :=
  inserted out ++ open_rows m ≡ₚ deleted out ++ R ++ open_rows m'.

Lemma balance_app o1 o2 R1 R2 m m1 m2 :
  balance o1 R1 m m1 → balance o2 R2 m1 m2 → balance (o1 ++ o2) (R1 ++ R2) m m2.
Proof.
  unfold balance, inserted, deleted. intros H1 H2. rewrite !records_app.
  rewrite (Permutation_app_comm (records 1 o1)), <- app_assoc, H1.
  rewrite (app_assoc (records (-1) o1)), (Permutation_app_swap_app (records 1 o2)), H2.
  rewrite <- !app_assoc. f_equiv. by rewrite (Permutation_app_swap_app R1).
Qed.
Lemma balance_quiet out m : inserted out = [] → deleted out = [] → balance out [] m m.
Proof. unfold balance. by intros -> ->. Qed.

(** ** Closing windows *)

Lemma sl_close_spec (op : Op) w (ctx : Ctx) m xs : sl_repr op (cx_state ctx) m → m !! w = Some xs →
  ∃ op' s' out, Sliding_close_window make_batch op w ctx = (op', cx_set_state s' ctx, out) ∧
    sl_repr op' s' (delete w m) ∧ sl_conf op' = sl_conf op ∧
    (sl_emit_strategy op ≠ Changelog →
       out = final_output make_batch (sl_emit_strategy op) (cx_processing_time ctx) w xs) ∧
    (sl_emit_strategy op = Changelog → last_ok op m →
       last_ok op' (delete w m) ∧ balance out (option_list (sl_row w xs)) m (delete w m)).
Proof.
  intros Hr Hw. assert (Hdom : w ∈ dom m) by (by eapply elem_of_dom_2).
  destruct (slr_closable _ _ _ Hr w Hdom) as (Hwok & _). unfold Sliding_close_window.
  destruct Hr as [Hs Hd Hg Hcl]. rewrite (Hg w Hwok), Hw. cbn [default from_option id].
  destruct (sl_delete_spec op w (cx_state ctx) Hs Hwok) as [Hs' Hget].
  set (s' := (Sliding_delete_accumulator w (cx_state ctx)).1) in *.
  assert (Hrep : ∀ op' : Op, sl_conf op' = sl_conf op →
            sl_registered_windows op' = sl_registered_windows op ∖ {[w]} → sl_repr op' s' (delete w m)).
  { intros op' Hc Hreg. split; [done|by rewrite Hreg, Hd, dom_delete_L| |].
    - intros w' Hw'. rewrite (sl_get_conf op) by done. rewrite Hget by done.
      case_decide as Hww; [subst; by rewrite lookup_delete_eq|].
      rewrite lookup_delete_ne by done. by apply Hg.
    - intros w' Hw'. rewrite dom_delete_L in Hw'. eapply sl_closable_conf; [exact Hc|apply Hcl; set_solver]. }
  assert (Hlast : ∀ l : gmap WindowId (Event B), (∀ x, l !! x = delete w (sl_last_emitted op) !! x) → last_ok op m →
            ∀ x, l !! x = delete w m !! x ≫= sl_row x).
  { intros l Hl Hok x. rewrite Hl. destruct (decide (x = w)) as [->|Hne]; [by rewrite !lookup_delete_eq|].
    rewrite !lookup_delete_ne by done. apply Hok. }
  pose proof (open_rows_delete m w xs Hw) as Hperm. unfold final_output. fold (acc_of (A:=A) (O:=O) xs).
  unfold sl_row in Hperm at 1. destruct (acc_is_empty (acc_of xs)) eqn:He.
  - eexists _, s', []. split; [done|]. split; [by apply Hrep|]. split; [done|]. split; [done|].
    intros _ Hok. split; [exact (Hlast (delete w (sl_last_emitted op)) (λ x, eq_refl) Hok)|]. unfold balance, sl_row. rewrite He. simpl. by rewrite Hperm.
  - destruct (batch_total w (acc_result (acc_of xs))) as [b Hb].
    assert (Hrow : result_event make_batch w (acc_of xs) = Some (mkEvent (w_end w) b))
      by (unfold result_event; by rewrite Hb). rewrite Hrow in Hperm |- *.
    destruct (decide (sl_emit_strategy op = Changelog)) as [Hem|Hem].
    + rewrite Hem. eexists _, s', _. split; [done|]. split; [by apply Hrep|]. split; [done|]. split; [done|].
      intros _ Hok. split; [exact (Hlast (delete w (sl_last_emitted op)) (λ x, eq_refl) Hok)|]. pose proof (Hok w) as Hlw. rewrite Hw in Hlw. cbn [mbind option_bind] in Hlw.
      unfold sl_row in Hlw |- *. rewrite He, Hrow in Hlw |- *. rewrite Hlw.
      unfold balance. simpl. by rewrite Hperm.
    + eexists _, s', [OutEvent _]. split; [by destruct (sl_emit_strategy op)|].
      split; [by apply Hrep|]. split; [done|]. split; [|done]. intros _. by destruct (sl_emit_strategy op).
Qed.

(** The rows of the windows closed by a list of timers. *)
Definition rows_of (m : open_windows) (ws : list WindowId) : list (Event B) :=
  ws ≫= λ w, option_list (m !! w ≫= sl_row w).

Lemma rows_of_delete m w ws : w ∉ ws → rows_of (delete w m) ws = rows_of m ws.
Proof.
  intros Hw. unfold rows_of. induction ws as [|x ws IH]; [done|]. rewrite !bind_cons.
  rewrite lookup_delete_ne by set_solver. f_equal. apply IH. set_solver.
Qed.

Lemma sl_fire_loop_spec now fired : ∀ (op : Op) (ctx : Ctx) (m : open_windows),
  sl_repr op (cx_state ctx) m → timers_ok (tables op) m (fired ++ timers (cx_timers ctx)) →
  let ws := windows_of fired in
  let r := spec_close make_batch (sl_emit_strategy op) now m ws in
  ∃ op' ctx' out, Sliding_fire_loop make_batch op ctx now fired = (op', ctx', out) ∧
    sl_repr op' (cx_state ctx') r.1 ∧ timers_ok (tables op') r.1 (timers (cx_timers ctx')) ∧
    sl_conf op' = sl_conf op ∧ cx_watermark_generator ctx' = cx_watermark_generator ctx ∧
    NoDup ws ∧ (∀ w, w ∈ ws → w ∈ dom m) ∧
    (sl_emit_strategy op ≠ Changelog → out = r.2) ∧
    (sl_emit_strategy op = Changelog → last_ok op m →
       last_ok op' r.1 ∧ balance out (rows_of m ws) m r.1).
Proof.
  induction fired as [|t fired IH]; intros op ctx m Hr Ht ws r; cbn [Sliding_fire_loop].
  { exists op, ctx, []. unfold r, ws. simpl. split_and!; try done; [apply NoDup_nil_2|by intros w ?%not_elem_of_nil|]. intros _ Hok. split; [done|by apply balance_quiet]. }
  pose proof (slr_closable _ _ _ Hr) as Hcl.
  destruct (timer_window (tables op) m t _ Hcl Ht) as (w & Hw & Hk). pose proof (Hcl w Hw) as Hclw.
  destruct (final_timer_key (tables op) w Hclw) as [Hnp Hfk].
  destruct (timers_ok_delete make_batch (tables op) m w t _ Hw (λ w' Hw', proj1 (Hcl w' Hw')) Hk Ht) as [Hts Ht'].
  destruct (proj1 (elem_of_dom m w) Hw) as [xs Hxs].
  assert (Hws : ws = w :: windows_of fired).
  { unfold ws, windows_of. cbn [omap list_omap]. by rewrite Hk; cbn [mbind option_bind]; rewrite Hfk. }
  assert (Hon : Sliding_on_timer make_batch op (mkFired (default [] (t_key t)) (t_timestamp t))
      (mkCtx (t_timestamp t) now (cx_timers ctx) (cx_state ctx) (cx_watermark_generator ctx) (cx_operator_index ctx)) =
    Sliding_close_window make_batch op w
      (mkCtx (t_timestamp t) now (cx_timers ctx) (cx_state ctx) (cx_watermark_generator ctx) (cx_operator_index ctx))).
  { unfold Sliding_on_timer. cbn [tm_key]. rewrite Hk. cbn [default from_option id]. by rewrite Hnp, Hfk. }
  rewrite Hon. set (ctx1 := mkCtx _ _ _ _ _ _).
  destruct (sl_close_spec op w ctx1 m xs Hr Hxs) as (op1 & s1 & out1 & -> & Hr1 & Hc1 & Hout1 & Hch1).
  assert (He1 : sl_emit_strategy op1 = sl_emit_strategy op) by (unfold sl_conf in Hc1; congruence).
  destruct (IH op1 (cx_set_state s1 ctx1) (delete w m) Hr1) as
    (op2 & ctx2 & out2 & -> & Hr2 & Ht2 & Hc2 & Hg2 & Hnd & Hsub & Hout2 & Hch2); [by eapply sl_timers_conf|].
  rewrite He1 in *. assert (Hnot : w ∉ windows_of fired) by (intros Hin%Hsub; rewrite dom_delete_L in Hin; set_solver).
  exists op2, ctx2, (out1 ++ out2). unfold r. rewrite Hws. cbn [spec_close fst snd]. rewrite Hxs.
  split_and!; try done.
  - by rewrite Hc2.
  - by constructor.
  - intros w' [->|Hw']%elem_of_cons; [done|]. apply Hsub in Hw'. rewrite dom_delete_L in Hw'. set_solver.
  - intros Hne. by rewrite Hout1, Hout2 by done.
  - intros Hem Hok. destruct (Hch1 Hem Hok) as [Hok1 Hb1]. destruct (Hch2 Hem Hok1) as [Hok2 Hb2].
    split; [done|]. unfold rows_of. rewrite bind_cons, Hxs. cbn [mbind option_bind].
    eapply balance_app; [exact Hb1|]. by rewrite rows_of_delete in Hb2.
Qed.

(** ** A node *)

Context {ginv : Gen → Prop} `{!GeneratorLaws Gen ginv}.
Context (advance_reaches : ∀ c g ts, ginv g → ts <= current_watermark (advance_watermark c g ts).1).

Record sl_node (op : Op) (ctx : Ctx) (m : open_windows) (D : gset WindowId) : Prop := {
  sln_repr : sl_repr op (cx_state ctx) m;
  sln_timers : timers_ok (tables op) m (timers (cx_timers ctx));
  sln_periodic : sl_not_periodic op;
  sln_gen : ginv (cx_watermark_generator ctx);
  sln_disjoint : D ## dom m;
  sln_closed : ∀ w, w ∈ D → cleanup_time (tables op) w <= current_watermark (cx_watermark_generator ctx) }.

Definition sl_event_ok (op : Op) (e : Event B) : Prop :=
  ∃ ws, SlidingWindowAssigner_assign_windows (sl_assigner op) (ev_timestamp e) = Some ws ∧ NoDup ws ∧
    Forall (closable (tables op)) ws.

(** The windows of an event that accept it, with its values. *)
Definition sl_accepting (op : Op) (e : Event B) (wm : Z) : list WindowId :=
  open_of op wm (default [] (SlidingWindowAssigner_assign_windows (sl_assigner op) (ev_timestamp e))).
Definition sl_accepted_event (op : Op) (e : Event B) (wm : Z) : list (WindowId * list I) :=
  (λ w, (w, extract_batch (sl_aggregator op) e)) <$> sl_accepting op e wm.

Lemma open_of_late (op : Op) wm ws : Forall (closable (tables op)) ws →
  i64_MIN <? wm = true → forallb (window_closed op wm) ws = true → open_of op wm ws = [].
Proof.
  intros Hcl Hwm Hall. unfold open_of. induction ws as [|w ws IH]; [done|].
  apply Forall_cons in Hcl as [Hw Hcl].
  cbn [forallb] in Hall. apply andb_prop in Hall as [Hcw Hall]. rewrite filter_cons_False; [by apply IH|].
  pose proof (window_closed_test op wm w Hw) as Ht. rewrite Hwm, Hcw in Ht. symmetry in Ht.
  apply Z.leb_le in Ht. lia.
Qed.

Lemma open_not_closed (op : Op) wm w ws : w ∈ open_of op wm ws → wm < cleanup_time (tables op) w.
Proof. by intros [Hop _]%list_elem_of_filter. Qed.

Lemma rows_watermark (o : option Watermark) :
  rows (B:=B) (match o with Some wm => [OutWatermark (wm_ts wm)] | None => [] end) = [].
Proof. by destruct o. Qed.

Lemma sl_late_spec (op : Op) (e : Event B) : ∃ l out, Sliding_process_late op e = (sl_set_late l op, out) ∧
  rows out = [] ∧ inserted out = [] ∧ deleted out = [].
Proof. unfold Sliding_process_late. repeat case_match; by eexists _, _. Qed.

(** The emissions of [process] change only the remembered rows. *)
Lemma sl_emit_frame (ctx : Ctx) upd : ∀ op : Op,
  ∃ l out, Sliding_emit_updates make_batch ctx upd op = (sl_set_last l op, out).
Proof.
  assert (Hch : ∀ op : Op, ∃ l out, Sliding_emit_changelogs make_batch ctx upd op = (sl_set_last l op, out)).
  { induction upd as [|w upd IH]; intros op; cbn [Sliding_emit_changelogs].
    - exists (sl_last_emitted op), []. by destruct op.
    - unfold Sliding_emit_changelog. destruct (Sliding_create_intermediate_result make_batch op w (cx_state ctx)).
      + destruct (IH (sl_set_last (<[w := e]> (sl_last_emitted op)) op)) as (l & out & ->). by eexists l, _.
      + destruct (IH op) as (l & out & ->). by eexists l, _. }
  intros op. unfold Sliding_emit_updates.
  destruct (sl_emit_strategy op); try apply Hch; eexists (sl_last_emitted op), _; by destruct op.
Qed.

Lemma sl_process_spec clk (op : Op) (e : Event B) (ctx : Ctx) m D :
  sl_node op ctx m D → sl_event_ok op e →
  let gen' := (on_event clk (cx_watermark_generator ctx) (ev_timestamp e)).1 in
  let wm := current_watermark gen' in
  let vs := extract_batch (sl_aggregator op) e in
  ∃ op' ctx' out us, Sliding_process make_batch clk op e ctx = Some (op', ctx', out) ∧
    sl_node op' ctx' (add_values vs m us) D ∧ sl_conf op' = sl_conf op ∧ cx_watermark_generator ctx' = gen' ∧
    NoDup us ∧ (∀ w, w ∈ us → w ∉ D) ∧ us = sl_accepting op e wm ∧
    (sl_emit_strategy op ≠ Changelog → sl_emit_strategy op ≠ OnUpdate → rows out = []) ∧
    (sl_emit_strategy op = Changelog → last_ok op m → ∀ K, sized K m → Z.max K 0 + zlen vs < u64_MOD →
       last_ok op' (add_values vs m us) ∧ balance out [] m (add_values vs m us)).
Proof.
  intros [Hr Ht Hnp Hg Hdis HD] (ws & Has & Hnd & Hall) gen' wm vs. unfold Sliding_process, sl_accepting, Sliding_is_late.
  assert (Hg' : ginv gen') by (by apply law_event_inv).
  assert (Hmono : current_watermark (cx_watermark_generator ctx) <= wm) by (by apply on_event_mono).
  destruct (on_event clk (cx_watermark_generator ctx) (ev_timestamp e)) as [gen1 em]. cbn [fst] in gen'. subst gen'.
  rewrite Has. cbn [mbind option_bind default from_option id].
  set (us := open_of op wm ws). assert (HusD : ∀ w, w ∈ us → w ∉ D).
  { intros w Hw Hin. specialize (HD w Hin). pose proof (open_not_closed op wm w ws Hw). lia. }
  assert (Hndus : NoDup us) by (by apply NoDup_filter).
  set (ctx0 := cx_set_gen gen1 ctx).
  assert (∃ late, (if i64_MIN <? wm then Some (forallb (window_closed op wm) ws) else Some false) = Some late)
    as [late Hlate] by (destruct (i64_MIN <? wm); eauto).
  fold wm. rewrite Hlate. cbn [mbind option_bind]. destruct late.
  - destruct (i64_MIN <? wm) eqn:Hwm; [|done]. injection Hlate as Hlate.
    assert (Hus : us = []) by (by apply open_of_late).
    destruct (sl_late_spec op e) as (l & out & -> & Hro & Hin & Hde).
    exists (sl_set_late l op), ctx0, out, []. split; [done|]. split; [|split_and!; try done; [apply NoDup_nil_2|by intros w ?%not_elem_of_nil|]].
    + split; try done; [by apply (sl_repr_frame op)|]. intros w Hw. specialize (HD w Hw).
      change (cleanup_time (tables op) w <= wm). lia.
    + intros Hem Hok K HK HKv. split; [done|]. by apply balance_quiet.
  - destruct (sl_update_windows_spec e wm ws op ctx0 [] m Hr Ht Hnp Hall) as (r & s' & T & -> & Hr' & Ht').
    fold us vs in Hr', Ht' |- *. cbn [app]. set (op1 := sl_set_windows r (sl_periodic_timer_windows op) op) in *.
    set (ctx1 := cx_set_timers T (cx_set_state s' ctx0)).
    assert (Hnode : ∀ op2 : Op, sl_conf op2 = sl_conf op → sl_registered_windows op2 = sl_registered_windows op1 →
      sl_node op2 ctx1 (add_values vs m us) D).
    { intros op2 Hc Hreg. split.
      - by apply (sl_repr_frame op1).
      - by eapply sl_timers_conf.
      - unfold sl_not_periodic. by replace (sl_emit_strategy op2) with (sl_emit_strategy op) by (unfold sl_conf in Hc; congruence).
      - done.
      - intros w Hw [xs Hx]%elem_of_dom. rewrite add_values_lookup in Hx by done. case_decide as Hin; [by eapply HusD|].
        eapply Hdis; [done|by eapply elem_of_dom_2].
      - intros w Hw. specialize (HD w Hw). unfold cleanup_time in *.
        change (w_end w + sl_allowed_lateness_ms op2 <= wm). rewrite (sl_conf_lateness op op2 Hc). simpl in HD. lia. }
    destruct (decide (sl_emit_strategy op = Changelog)) as [Hem|Hem].
    + destruct (sl_emit_frame ctx1 (match vs with [] => [] | _ => us end) op1) as (l & out & Hemit). rewrite Hemit.
      eexists (sl_set_last l op1), ctx1, _, us. split; [done|]. split; [by apply Hnode|]. split_and!; try done.
      intros _ Hok K HK HKv.
      destruct (sl_changelog_update op op1 ctx1 m us vs K) as (l' & out' & Hemit' & Hok' & Hbal); try done.
      { apply Forall_forall. intros w [_ Hw]%list_elem_of_filter. rewrite Forall_forall in Hall. apply (Hall w Hw). }
      rewrite Hemit in Hemit'. injection Hemit' as -> ->. split; [done|].
      unfold balance, inserted, deleted in *. rewrite !records_app. by destruct em.
    + destruct (sl_emit_quiet op1 ctx1 (match vs with [] => [] | _ => us end) Hem) as (out & -> & Hout).
      eexists op1, ctx1, _, us. split; [done|]. split; [by apply Hnode|]. split_and!; try done.
      intros _ Hou. unfold rows in *. rewrite filter_app, (Hout Hou). by destruct em.
Qed.

Lemma sl_watermark_spec clk (op : Op) (ctx : Ctx) m D ts : sl_node op ctx m D →
  let gen' := (advance_watermark clk (cx_watermark_generator ctx) ts).1 in
  let m' := still_open (tables op) ts m in
  ∃ op' ctx' out ws, Sliding_node_watermark make_batch clk op ctx ts = Some (op', ctx', out) ∧
    sl_node op' ctx' m' (D ∪ list_to_set ws) ∧ sl_conf op' = sl_conf op ∧ cx_watermark_generator ctx' = gen' ∧
    NoDup ws ∧ (∀ w, w ∈ ws ↔ w ∈ dom m ∧ cleanup_time (tables op) w <= ts) ∧
    StronglySorted (λ w w', cleanup_time (tables op) w <= cleanup_time (tables op) w') ws ∧
    (sl_emit_strategy op ≠ Changelog →
       out = mjoin (map (λ w, final_output make_batch (sl_emit_strategy op) ts w (default [] (m !! w))) ws)) ∧
    (sl_emit_strategy op = Changelog → last_ok op m → last_ok op' m' ∧ balance out (rows_of m ws) m m').
Proof.
  intros [Hr Ht Hnp Hg Hdis HD] gen' m'. unfold Sliding_node_watermark, TimerService_poll_timers.
  destruct (poll_loop_total (Datatypes.S (length (timers (cx_timers ctx)))) (timers (cx_timers ctx)) [] ts)
    as (rest & fired & -> & Hp & Hf & Hrest & Hsort); [lia|]. cbn [mbind option_bind app]. fold gen'.
  set (ctx1 := cx_set_timers _ _).
  assert (Ht1 : timers_ok (tables op) m (fired ++ timers (cx_timers ctx1))).
  { unfold timers_ok in *. unfold ctx1. simpl. by rewrite Hp. }
  destruct (sl_fire_loop_spec ts fired op ctx1 m Hr Ht1)
    as (op' & ctx' & out & -> & Hr' & Ht' & Hc' & Hg' & Hnd & _ & Hout & Hch).
  pose proof (λ w, elem_of_windows_of (tables op) m fired rest ts w (slr_closable _ _ _ Hr) Ht1 Hf Hrest) as Hws.
  set (ws := windows_of fired) in *.
  rewrite (spec_close_still_open make_batch (tables op)) in Hr', Ht', Hch by done.
  exists op', ctx', out, ws. split; [done|]. split; [|split_and!; try done].
  - split; try done.
    + unfold sl_not_periodic. by replace (sl_emit_strategy op') with (sl_emit_strategy op) by (unfold sl_conf in Hc'; congruence).
    + rewrite Hg'. by apply law_advance_inv.
    + intros w Hw [xs Hx]%elem_of_dom. unfold still_open in Hx. apply map_lookup_filter_Some in Hx as [Hx Hlt].
      simpl in Hlt. apply elem_of_dom_2 in Hx. apply elem_of_union in Hw as [Hw|[_ Hw]%elem_of_list_to_set%Hws]; [by eapply Hdis|lia].
    + intros w Hw. rewrite Hg'. assert (Hcu : cleanup_time (tables op') w = cleanup_time (tables op) w)
        by (unfold cleanup_time; simpl; by rewrite (sl_conf_lateness op op')).
      rewrite Hcu. change (cleanup_time (tables op) w <= current_watermark gen').
      apply elem_of_union in Hw as [Hw|[_ Hw]%elem_of_list_to_set%Hws].
      * specialize (HD w Hw). pose proof (advance_mono clk _ ts Hg) as Hm. fold gen' in Hm. lia.
      * pose proof (advance_reaches clk _ ts Hg) as Hm. fold gen' in Hm. lia.
  - by eapply (windows_of_sorted (tables op) m); [apply (slr_closable _ _ _ Hr)|exact Ht1|].
  - intros Hne. rewrite Hout by done.
    by destruct (spec_close_result make_batch (sl_emit_strategy op) ts ws m Hnd) as [_ ->].
Qed.

(** ** Runs *)

Fixpoint sl_accepted (op : Op) (gen : Gen) (ops : list (node_op (B:=B))) : list (WindowId * list I) :=
  match ops with
  | [] => []
  | NEvent clk _ e :: rest =>
      let gen' := (on_event clk gen (ev_timestamp e)).1 in
      sl_accepted_event op e (current_watermark gen') ++ sl_accepted op gen' rest
  | NWatermark clk ts :: rest => sl_accepted op (advance_watermark clk gen ts).1 rest
  end.

Definition sl_op_ok (op : Op) (o : node_op (B:=B)) : Prop :=
  match o with NEvent _ _ e => sl_event_ok op e | NWatermark _ _ => True end.

(** The number of values of a run. *)
Fixpoint total_values (op : Op) (ops : list (node_op (B:=B))) : Z :=
  match ops with
  | [] => 0
  | NEvent _ _ e :: rest => zlen (extract_batch (A:=A) (I:=I) (sl_aggregator op) e) + total_values op rest
  | NWatermark _ _ :: rest => total_values op rest
  end.

Definition closed_rows (closes : list (WindowId * (Z * list I))) : list (Event B) :=
  closes ≫= λ c, option_list (sl_row c.1 c.2.2).

Lemma sl_accepted_conf (op op' : Op) gen ops : sl_conf op' = sl_conf op →
  sl_accepted op' gen ops = sl_accepted op gen ops.
Proof.
  unfold sl_conf. intros Hc. assert (sl_assigner op' = sl_assigner op ∧ sl_aggregator op' = sl_aggregator op ∧
    sl_allowed_lateness_ms op' = sl_allowed_lateness_ms op) as (Ha & Hg & Hl) by (split_and!; congruence).
  revert gen. induction ops as [|[clk pt e|clk ts] ops IH]; intros gen; simpl; [done| |by rewrite IH].
  rewrite IH. f_equal. unfold sl_accepted_event, sl_accepting, open_of, cleanup_time. simpl. by rewrite Ha, Hg, Hl.
Qed.
Lemma sl_op_ok_conf (op op' : Op) o : sl_conf op' = sl_conf op → sl_op_ok op o → sl_op_ok op' o.
Proof.
  destruct o; simpl; [|done]. intros Hc (ws & Has & Hnd & Hall). exists ws.
  replace (sl_assigner op') with (sl_assigner op) by (unfold sl_conf in Hc; congruence).
  split_and!; try done. eapply Forall_impl; [done|]. intros w. by apply sl_closable_conf.
Qed.
Lemma total_values_conf (op op' : Op) ops : sl_conf op' = sl_conf op → total_values op' ops = total_values op ops.
Proof.
  intros Hc. induction ops as [|[clk pt e|clk ts] ops IH]; simpl; [done| |done]. rewrite IH.
  by replace (sl_aggregator op') with (sl_aggregator op) by (unfold sl_conf in Hc; congruence).
Qed.
Lemma total_values_nonneg (op : Op) ops : 0 <= total_values op ops.
Proof. induction ops as [|[clk pt e|clk ts] ops IH]; simpl; lia. Qed.

Lemma run_ok_events (op : Op) vs us acc m' D closes : ∀ m : open_windows,
  (∀ w, w ∈ us → w ∉ D) → run_ok (tables op) (add_values vs m us) m' D acc closes →
  run_ok (tables op) m m' D (((λ w, (w, vs)) <$> us) ++ acc) closes.
Proof.
  induction us as [|u us IH]; intros m Hus Hrun; [done|]. cbn [fmap list_fmap app].
  apply (run_ok_event (sok:=sok) (sabs:=sabs) make_batch advance_reaches); [apply Hus; left|]. apply IH; [|done]. intros w Hw. apply Hus. by right.
Qed.

Lemma closed_rows_due m ts ws : (∀ w, w ∈ ws → w ∈ dom m) →
  closed_rows (map (λ w, (w, (ts, default [] (m !! w)))) ws) = rows_of m ws.
Proof.
  intros Hdom. unfold closed_rows, rows_of. induction ws as [|w ws IH]; [done|]. cbn [map]. rewrite !bind_cons, IH.
  - f_equal. cbn [fst snd]. destruct (proj1 (elem_of_dom m w) (Hdom w ltac:(left))) as [xs ->]. done.
  - intros x Hx. apply Hdom. by right.
Qed.

Lemma final_output_rows strategy pt w xs :
  Forall (λ o, is_row o = true) (final_output make_batch strategy pt w xs).
Proof. unfold final_output. cbv zeta. repeat case_match; by repeat constructor. Qed.

(** The reference of a run under the strategies that emit on close: an event adds
    its values to those of its windows that are open and shows no row; a watermark
    closes exactly the open windows that are due, in that order, each with its
    final result. *)
Fixpoint sl_ref_run (op : Op) (gen : Gen) (m : open_windows) (ops : list (node_op (B:=B)))
    (outs : list (list (Output B))) (closes : list (WindowId * (Z * list I))) (m' : open_windows) : Prop :=
  match ops, outs with
  | [], [] => closes = [] ∧ m' = m
  | NEvent clk _ e :: ops, out :: outs =>
      let gen' := (on_event clk gen (ev_timestamp e)).1 in
      let us := sl_accepting op e (current_watermark gen') in
      rows out = [] ∧
      sl_ref_run op gen' (add_values (extract_batch (sl_aggregator op) e) m us) ops outs closes m'
  | NWatermark clk ts :: ops, out :: outs =>
      ∃ ws rest, NoDup ws ∧ (∀ w, w ∈ ws ↔ w ∈ dom m ∧ cleanup_time (tables op) w <= ts) ∧
        StronglySorted (λ w w', cleanup_time (tables op) w <= cleanup_time (tables op) w') ws ∧
        closes = map (λ w, (w, (ts, default [] (m !! w)))) ws ++ rest ∧
        out = mjoin (map (λ w, final_output make_batch (sl_emit_strategy op) ts w (default [] (m !! w))) ws) ∧
        sl_ref_run op (advance_watermark clk gen ts).1 (still_open (tables op) ts m) ops outs rest m'
  | _, _ => False
  end.

Lemma sl_ref_run_conf (op op1 : Op) ops m' : ∀ gen m outs closes, sl_conf op1 = sl_conf op →
  sl_ref_run op1 gen m ops outs closes m' → sl_ref_run op gen m ops outs closes m'.
Proof.
  intros gen m outs closes Hc. assert (sl_assigner op1 = sl_assigner op ∧ sl_aggregator op1 = sl_aggregator op ∧
    sl_allowed_lateness_ms op1 = sl_allowed_lateness_ms op ∧ sl_emit_strategy op1 = sl_emit_strategy op)
    as (Ha & Hg & Hl & He) by (unfold sl_conf in Hc; split_and!; congruence).
  revert gen m outs closes.
  induction ops as [|[clk pt e|clk ts] ops IH]; intros gen m [|out outs] closes; cbn [sl_ref_run]; [done..| |done|].
  - unfold sl_accepting, open_of, cleanup_time. cbn [op_allowed_lateness_ms tables]. rewrite Ha, Hg, Hl.
    intros [Hro Hrun]. split; [done|]. by apply IH.
  - unfold still_open, cleanup_time. cbn [op_allowed_lateness_ms tables]. rewrite Hl, He.
    intros (ws & rest & H1 & H2 & H3 & H4 & H5 & H6). exists ws, rest. split_and!; try done. by apply IH.
Qed.

(** All its result rows are those of the closings. *)
Lemma sl_ref_run_rows (op : Op) ops m' : ∀ gen m outs closes,
  sl_ref_run op gen m ops outs closes m' →
  rows (mjoin outs) = mjoin (map (closing_output make_batch (sl_emit_strategy op)) closes).
Proof.
  induction ops as [|[clk pt e|clk ts] ops IH]; intros gen m [|out outs] closes; cbn [sl_ref_run];
    [by intros [-> _]|done|done| |done|].
  - intros [Hro Hrun%IH]. by rewrite join_cons, rows_app, Hro, Hrun.
  - intros (ws & rest & _ & _ & _ & -> & -> & Hrun%IH).
    rewrite join_cons, rows_app, Hrun, map_app, join_app. f_equal.
    pose proof (closing_output_rows make_batch (sl_emit_strategy op)
      (map (λ w, (w, (ts, default [] (m !! w)))) ws)) as Hr. by rewrite map_map in Hr |- *.
Qed.

Lemma sliding_run_spec ops : ∀ (op : Op) (ctx : Ctx) m D,
  sl_node op ctx m D → Forall (sl_op_ok op) ops →
  ∃ op' ctx' outs m' D' closes,
    sliding_run make_batch op ctx ops = Some (op', ctx', outs) ∧
    sl_node op' ctx' m' D' ∧ sl_conf op' = sl_conf op ∧
    run_ok (tables op) m m' D (sl_accepted op (cx_watermark_generator ctx) ops) closes ∧
    (sl_emit_strategy op ≠ Changelog → sl_emit_strategy op ≠ OnUpdate →
       sl_ref_run op (cx_watermark_generator ctx) m ops outs closes m') ∧
    (sl_emit_strategy op = Changelog → last_ok op m → ∀ K, sized K m →
       Z.max K 0 + total_values op ops < u64_MOD →
       last_ok op' m' ∧ balance (mjoin outs) (closed_rows closes) m m').
Proof.
  induction ops as [|o ops IH]; intros op ctx m D Hn Hops.
  { exists op, ctx, [], m, D, []. split_and!; try done.
    - apply (run_ok_nil (sok:=sok) (sabs:=sabs) make_batch advance_reaches). apply (sln_disjoint _ _ _ _ Hn).
    - intros _ Hok K _ _. split; [done|by apply balance_quiet]. }
  apply Forall_cons in Hops as [Ho Hops]. destruct o as [clk pt e|clk ts]; cbn [sliding_run sl_accepted].
  - set (ctx0 := mkCtx _ _ _ _ _ _). assert (Hn0 : sl_node op ctx0 m D) by (by destruct Hn).
    destruct (sl_process_spec clk op e ctx0 m D Hn0 Ho)
      as (op1 & ctx1 & out1 & us & -> & Hn1 & Hc1 & Hg1 & Hnd & Hus & Hacc & Hrow1 & Hch1). cbn [mbind option_bind].
    set (vs := extract_batch (sl_aggregator op) e) in *.
    destruct (IH op1 ctx1 _ D Hn1) as (op' & ctx' & out & m' & D' & closes & -> & Hn' & Hc' & Hrun & Hrow & Hch).
    { eapply Forall_impl; [done|]. intros o. by apply sl_op_ok_conf. }
    assert (He1 : sl_emit_strategy op1 = sl_emit_strategy op) by (unfold sl_conf in Hc1; congruence).
    exists op', ctx', (out1 :: out), m', D', closes. split_and!; try done.
    + congruence.
    + change (cx_watermark_generator ctx0) with (cx_watermark_generator ctx) in Hacc, Hg1.
      unfold sl_accepted_event. rewrite <- Hacc. apply run_ok_events; [done|]. rewrite Hg1, (sl_accepted_conf op op1) in Hrun by done.
      eapply run_ok_conf; [|exact Hrun]. intros w. unfold cleanup_time. simpl. by rewrite (sl_conf_lateness op op1).
    + intros Hne1 Hne2. cbn [sl_ref_run]. split; [by apply Hrow1|].
      rewrite <- He1 in Hne1, Hne2. pose proof (Hrow Hne1 Hne2) as Href. rewrite Hg1 in Href.
      change (cx_watermark_generator ctx0) with (cx_watermark_generator ctx) in Href.
      rewrite Hacc in Href. by eapply sl_ref_run_conf.
    + intros Hem Hok K HK Htot. cbn [total_values] in Htot. fold vs in Htot.
      pose proof (total_values_nonneg op ops). destruct (Hch1 Hem Hok K HK ltac:(lia)) as [Hok1 Hb1].
      destruct (Hch ltac:(congruence) Hok1 _ (sized_add K vs us m Hnd HK)) as [Hok' Hb].
      { rewrite (total_values_conf op op1) by done. lia. }
      split; [done|]. exact (balance_app _ _ [] _ _ _ _ Hb1 Hb).
  - destruct (sl_watermark_spec clk op ctx m D ts Hn)
      as (op1 & ctx1 & out1 & ws & -> & Hn1 & Hc1 & Hg1 & Hnd & Hws & Hso & Hout1 & Hch1). cbn [mbind option_bind].
    destruct (IH op1 ctx1 _ _ Hn1) as (op' & ctx' & out & m' & D' & closes & -> & Hn' & Hc' & Hrun & Hrow & Hch).
    { eapply Forall_impl; [done|]. intros o. by apply sl_op_ok_conf. }
    assert (He1 : sl_emit_strategy op1 = sl_emit_strategy op) by (unfold sl_conf in Hc1; congruence).
    exists op', ctx', (out1 :: out), m', D', (map (λ w, (w, (ts, default [] (m !! w)))) ws ++ closes).
    split_and!; try done.
    + congruence.
    + apply (run_ok_watermark (sok:=sok) (sabs:=sabs) make_batch advance_reaches); [done..|apply (sln_disjoint _ _ _ _ Hn)|].
      rewrite Hg1, (sl_accepted_conf op op1) in Hrun by done.
      eapply run_ok_conf; [|exact Hrun]. intros w. unfold cleanup_time. simpl. by rewrite (sl_conf_lateness op op1).
    + intros Hne1 Hne2. cbn [sl_ref_run]. exists ws, closes.
      pose proof Hne1 as Hne1'. rewrite <- He1 in Hne1', Hne2. pose proof (Hrow Hne1' Hne2) as Href. rewrite Hg1 in Href.
      split_and!; try done; [by apply Hout1|by eapply sl_ref_run_conf].
    + intros Hem Hok K HK Htot. destruct (Hch1 Hem Hok) as [Hok1 Hb1].
      destruct (Hch ltac:(congruence) Hok1 K) as [Hok' Hb].
      { intros w xs Hw. unfold still_open in Hw. apply map_lookup_filter_Some in Hw as [Hw _]. by eapply HK. }
      { by rewrite (total_values_conf op op1). }
      split; [done|]. unfold closed_rows. rewrite bind_app. fold (closed_rows closes).
      fold (closed_rows (map (λ w, (w, (ts, default [] (m !! w)))) ws)).
      rewrite closed_rows_due by (intros w Hw; by apply Hws in Hw as [? _]).
      exact (balance_app _ _ _ _ _ _ _ Hb1 Hb).
Qed.
End SlidingSpec.

(** ** Events of a run *)

(** The assigner of an operator, and a timestamp all of whose windows are
    representable and start at or after the epoch. *)
Definition sliding_assigner_ok {Agg B} (op : SlidingWindowOperator (Agg:=Agg) (B:=B)) (size slide off : Z) : Prop :=
  ∃ a0, SlidingWindowAssigner_from_millis size slide = Some a0 ∧ size + slide <= i64_MAX ∧
    sl_assigner op = SlidingWindowAssigner_with_offset_ms a0 off ∧ 0 <= sl_allowed_lateness_ms op.
Definition sliding_time_ok (size slide off lateness t : Z) : Prop :=
  assign_safe size slide off t ∧ size <= t ∧ t + size + lateness <= i64_MAX.
Definition sliding_op_ok {B} (size slide off lateness : Z) (o : node_op (B:=B)) : Prop :=
  match o with NEvent _ _ e => sliding_time_ok size slide off lateness (ev_timestamp e) | NWatermark _ _ => True end.

Lemma sliding_op_ok_spec {Agg B} (op : SlidingWindowOperator (Agg:=Agg) (B:=B)) size slide off o :
  sliding_assigner_ok op size slide off → sliding_op_ok size slide off (sl_allowed_lateness_ms op) o →
  sl_op_ok op o.
Proof.
  intros (a0 & Ha & Hov & Has & Hl). destruct o as [clk pt e|clk ts]; [|done]. intros (Hsafe & Hlo & Hhi).
  destruct (sliding_assigns_spec size slide off (ev_timestamp e) a0 Ha Hov Hsafe) as (ws & Hws & Hin & Hsort & _).
  exists ws. rewrite Has. split; [done|]. split.
  - pose proof (nodup_of_sorted _ id ws Hsort) as Hnd. rewrite list_fmap_id in Hnd. apply Hnd.
    intros x y _ _ Hlt Heq. simpl in *. subst. lia.
  - apply Forall_forall. intros w Hw. apply Hin in Hw as (_ & He & Hs & Hte).
    destruct Hsafe as (Hd & _). unfold closable, window_ok, is_i64. simpl. lia.
Qed.

Definition fresh_sliding_node {Agg B S Gen : Type} `{!StateStore S} `{!WatermarkGenerator Gen}
    {sok : S → Prop} {sabs : S → gmap (list Z) (list Z)} {ginv : Gen → Prop}
    (op : SlidingWindowOperator (Agg:=Agg) (B:=B)) (ctx : OperatorContext S Gen) : Prop :=
  sl_registered_windows op = ∅ ∧ sl_last_emitted op = ∅ ∧ timers (cx_timers ctx) = [] ∧
  sok (cx_state ctx) ∧ sabs (cx_state ctx) = ∅ ∧ ginv (cx_watermark_generator ctx).

(** ** A concrete node for the witnesses *)

#[local] Instance sliding_count_archive : Archive CountAccumulator := {
  to_bytes a := inl [ca_count a];
  from_bytes b := match b with [n] => inl (mkCount n) | _ => inr "bad archive"%string end;
}.
#[local] Instance sliding_count_archive_laws : ArchiveLaws CountAccumulator.
Proof. split. intros [n]. by eexists. Qed.
#[local] Existing Instance Count_aggregator.
#[local] Instance sliding_count_aggregator_laws :
  AggregatorLaws CountAggregator Z CountAccumulator unit Z.
Proof. by split. Qed.

(** COUNT over windows of 10 that slide by 5. *)
Definition sliding_op (strategy : EmitStrategy) : SlidingWindowOperator (Agg:=CountAggregator) (B:=Z) :=
  mkSlidingOp (mkSliding 10 5 2 0) mkCountAgg 0 ∅ ∅ strategy LateDataConfig_drop
    LateDataMetrics_new WindowCloseMetrics_new "slide" ∅.
Definition sliding_ops : list (node_op (B:=Z)) :=
  [NEvent clock0 0 (mkEvent 12 7); NEvent clock0 0 (mkEvent 16 7); NWatermark clock0 15;
   NEvent clock0 0 (mkEvent 13 7); NWatermark clock0 25].

(** At watermark 15 the window from 5 closes with one event; 13 is then accepted by
    the window from 10 only. *)
Example sliding_run_output :
  (λ r, map rows r.2) <$> sliding_run count_batch (sliding_op OnWatermark) count_ctx sliding_ops =
    Some [[]; []; [OutEvent (mkEvent 15 1)]; []; [OutEvent (mkEvent 20 3); OutEvent (mkEvent 25 1)]].
Proof. vm_compute. reflexivity. Qed.

(** ** Properties *)

Section SlidingProperties.
Context {Agg B A I O S Gen : Type}.
Context `{!Accumulator A I O} `{!AccumulatorLaws A I O} `{!Aggregator Agg B A I} `{!AggregatorLaws Agg B A I O}.
Context `{!StateStore S} {sok : S → Prop} {sabs : S → gmap (list Z) (list Z)}.
Context `{!StateStoreLaws S sok sabs} `{!Archive A} `{!ArchiveLaws A}.
Context `{!WatermarkGenerator Gen} {ginv : Gen → Prop} `{!GeneratorLaws Gen ginv}.
Context (make_batch : WindowId → O → option B).
Local Abbreviation Op := (SlidingWindowOperator (Agg:=Agg) (B:=B)) (only parsing).
Local Abbreviation Ctx := (OperatorContext S Gen) (only parsing).

Lemma fresh_sliding_inv (op : Op) (ctx : Ctx) :
  fresh_sliding_node (sok:=sok) (sabs:=sabs) (ginv:=ginv) op ctx → sl_not_periodic op →
  sl_node (I:=I) (sok:=sok) (ginv:=ginv) op ctx ∅ ∅ ∧ last_ok make_batch op (∅ : gmap WindowId (list I)).
Proof.
  intros (Hr & Hl & Ht & Hs & Habs & Hg) Hnp. split.
  - split; try done.
    + split; try done.
      intros w _. by rewrite (sl_get_abs (sok:=sok) (sabs:=sabs)), Habs, !lookup_empty.
    + unfold timers_ok. by rewrite Ht, dom_empty_L.
  - intros w. by rewrite Hl, !lookup_empty.
Qed.

(** [C28]: sliding windows, end to end. Drive a fresh sliding-window node (any lawful
    aggregator, state store and watermark generator, a strategy that emits on close)
    with any interleaving of events, whose windows start at or after the epoch, and
    watermarks. Input by input: an event is
    accepted by exactly those of its windows whose end plus lateness is after the
    watermark, and shows no row; a watermark closes exactly the open windows it makes
    due, in that order, and shows their final results and nothing else, so that none
    of them stays registered. Every window is closed at most once, with the aggregate
    of exactly the values it accepted in arrival order, and a window that accepted
    something is closed or still registered with those values. *)
Theorem sliding_run_exactly_once
    (advance_reaches : ∀ c g ts, ginv g → ts <= current_watermark (advance_watermark c g ts).1)
    (batch_total : ∀ w r, is_Some (make_batch w r))
    (op : Op) (ctx : Ctx) size slide off ops :
  fresh_sliding_node (sok:=sok) (sabs:=sabs) (ginv:=ginv) op ctx → sl_not_periodic op →
  sl_emit_strategy op ≠ Changelog → sl_emit_strategy op ≠ OnUpdate →
  sliding_assigner_ok op size slide off →
  Forall (sliding_op_ok size slide off (sl_allowed_lateness_ms op)) ops →
  let acc := sl_accepted op (cx_watermark_generator ctx) ops in
  ∃ op' ctx' outs closes m',
    sliding_run make_batch op ctx ops = Some (op', ctx', outs) ∧
    sl_ref_run make_batch op (cx_watermark_generator ctx) ∅ ops outs closes m' ∧
    sl_registered_windows op' = dom m' ∧
    rows (mjoin outs) = mjoin (map (closing_output make_batch (sl_emit_strategy op)) closes) ∧
    NoDup closes.*1 ∧
    (∀ w t xs, (w, (t, xs)) ∈ closes → xs = values_of w acc ∧ w_end w + sl_allowed_lateness_ms op <= t) ∧
    (∀ w, w ∈ acc.*1 → w ∈ closes.*1 ∨ w ∈ sl_registered_windows op') ∧
    (∀ w, w ∈ sl_registered_windows op' →
       w ∉ closes.*1 ∧ Sliding_get_accumulator op' w (cx_state ctx') = acc_of (values_of w acc)).
Proof.
  intros Hfresh Hnp Hne1 Hne2 Hasg Hops acc. destruct (fresh_sliding_inv op ctx Hfresh Hnp) as [Hn0 _].
  destruct (sliding_run_spec make_batch batch_total advance_reaches ops op ctx ∅ ∅ Hn0)
    as (op' & ctx' & out & m' & D' & closes & Hrun & [Hr _ _ _ _ _] & _ & (Hnd & Hcl & Hopen & Hall & _) & Hrows & _).
  { eapply Forall_impl; [done|]. intros o. by apply sliding_op_ok_spec. }
  fold acc in Hcl, Hopen, Hall.
  exists op', ctx', out, closes, m'. specialize (Hrows Hne1 Hne2).
  split_and!; try done; [apply (slr_registered _ _ _ Hr)|by eapply sl_ref_run_rows| | |].
  - intros w t xs Hin. destruct (Hcl _ Hin) as (_ & _ & Hxs & Hle). simpl in *. by rewrite lookup_empty in Hxs.
  - intros w Hw. rewrite (slr_registered _ _ _ Hr). destruct (Hall w); [by right|by right|by left].
  - intros w Hw. rewrite (slr_registered _ _ _ Hr) in Hw. destruct (proj1 (elem_of_dom m' w) Hw) as [xs Hxs].
    destruct (Hopen _ _ Hxs) as [_ Heq]. rewrite lookup_empty in Heq. simpl in Heq. split.
    + intros (c & -> & Hc)%list_elem_of_fmap. by destruct (Hcl _ Hc) as (_ & ? & _).
    + rewrite (slr_acc _ _ _ Hr) by (by apply (slr_closable _ _ _ Hr)). rewrite Hxs. simpl. by rewrite Heq.
Qed.

(** [C29]: the changelog of a sliding-window node is balanced. In Changelog mode, at the
    end of any run, the rows inserted are exactly the rows deleted, one final row per
    closed window that had values and one current row per open window that has values:
    downstream, the Z-set holds exactly one row per window, and a delete always
    retracts a row that was inserted. *)
Theorem sliding_changelog_balanced
    (advance_reaches : ∀ c g ts, ginv g → ts <= current_watermark (advance_watermark c g ts).1)
    (batch_total : ∀ w r, is_Some (make_batch w r))
    (op : Op) (ctx : Ctx) size slide off ops :
  fresh_sliding_node (sok:=sok) (sabs:=sabs) (ginv:=ginv) op ctx → sl_emit_strategy op = Changelog →
  sliding_assigner_ok op size slide off →
  Forall (sliding_op_ok size slide off (sl_allowed_lateness_ms op)) ops → total_values op ops < u64_MOD →
  let acc := sl_accepted op (cx_watermark_generator ctx) ops in
  ∃ op' ctx' outs closes (m : gmap WindowId (list I)),
    let out := mjoin outs in
    sliding_run make_batch op ctx ops = Some (op', ctx', outs) ∧
    inserted out ≡ₚ deleted out ++ closed_rows make_batch closes ++ open_rows make_batch m ∧
    NoDup closes.*1 ∧ (∀ w t xs, (w, (t, xs)) ∈ closes → xs = values_of w acc) ∧
    sl_registered_windows op' = dom m ∧ (∀ w xs, m !! w = Some xs → w ∉ closes.*1 ∧ xs = values_of w acc).
Proof.
  intros Hfresh Hem Hasg Hops Htot acc.
  assert (Hnp : sl_not_periodic op) by (intros d; by rewrite Hem).
  destruct (fresh_sliding_inv op ctx Hfresh Hnp) as [Hn0 Hl0].
  destruct (sliding_run_spec make_batch batch_total advance_reaches ops op ctx ∅ ∅ Hn0)
    as (op' & ctx' & out & m' & D' & closes & Hrun & [Hr _ _ _ _ _] & _ & (Hnd & Hcl & Hopen & _ & _) & _ & Hch).
  { eapply Forall_impl; [done|]. intros o. by apply sliding_op_ok_spec. }
  fold acc in Hcl, Hopen.
  destruct (Hch Hem Hl0 0) as [_ Hbal]; [by intros w xs; rewrite lookup_empty|lia|].
  exists op', ctx', out, closes, m'. split_and!; try done.
  - unfold balance, open_rows in Hbal. rewrite map_to_list_empty in Hbal. simpl in Hbal. by rewrite app_nil_r in Hbal.
  - intros w t xs Hin. destruct (Hcl _ Hin) as (_ & _ & Hxs & _). simpl in *. by rewrite lookup_empty in Hxs.
  - apply (slr_registered _ _ _ Hr).
  - intros w xs Hw. destruct (Hopen _ _ Hw) as [_ Heq]. rewrite lookup_empty in Heq. split; [|done].
    intros (c & -> & Hc)%list_elem_of_fmap. destruct (Hcl _ Hc) as (_ & Hn & _). apply Hn. by eapply elem_of_dom_2.
Qed.
End SlidingProperties.

Lemma sliding_run_exactly_once_witness :
  ∃ op' ctx' outs (closes : list (WindowId * (Z * list unit))),
    sliding_run count_batch (sliding_op OnWatermark) count_ctx sliding_ops = Some (op', ctx', outs) ∧
    rows (mjoin outs) = mjoin (map (closing_output count_batch OnWatermark) closes) ∧ NoDup closes.*1.
Proof.
  destruct (sliding_run_exactly_once (S:=InMemoryStore) (ginv:=λ _, True) count_batch bounded_advance_reaches (λ w r, ltac:(by eexists))
    (sliding_op OnWatermark) count_ctx 10 5 0 sliding_ops) as (op' & ctx' & outs & closes & m' & H1 & _ & _ & H2 & H3 & _).
  - repeat split; reflexivity || exact I.
  - intros d. discriminate.
  - discriminate.
  - discriminate.
  - exists (mkSliding 10 5 2 0). split; [reflexivity|]. split; [lia|]. split; [reflexivity|]. simpl. lia.
  - repeat constructor; vm_compute; discriminate.
  - exists op', ctx', outs, closes. split; [exact H1|]. split; [exact H2|exact H3].
Defined.

Lemma sliding_changelog_balanced_witness :
  ∃ op' ctx' out (closes : list (WindowId * (Z * list unit))) (m : gmap WindowId (list unit)),
    sliding_run count_batch (sliding_op Changelog) count_ctx sliding_ops = Some (op', ctx', out) ∧
    inserted (mjoin out) ≡ₚ deleted (mjoin out) ++ closed_rows count_batch closes ++ open_rows count_batch m.
Proof.
  destruct (sliding_changelog_balanced (S:=InMemoryStore) (ginv:=λ _, True) count_batch bounded_advance_reaches (λ w r, ltac:(by eexists))
    (sliding_op Changelog) count_ctx 10 5 0 sliding_ops) as (op' & ctx' & out & closes & m & H1 & H2 & _).
  - repeat split; reflexivity || exact I.
  - reflexivity.
  - exists (mkSliding 10 5 2 0). split; [reflexivity|]. split; [lia|]. split; [reflexivity|]. simpl. lia.
  - repeat constructor; vm_compute; discriminate.
  - reflexivity.
  - exists op', ctx', out, closes, m. split; [exact H1|exact H2].
Defined.
