(* ===== verification/SessionOp.v ===== *)
(** * The session window operator (crates/laminar-core/src/operator/session_window.rs)

    Sessions of a key are the intervals of activity that are separated by gaps: an
    event at [t] occupies [[t, t + gap)], and a session is a connected union of such
    intervals. The operator keeps, per key, an index of the open sessions in the
    state store (with a bounded cache in memory), an accumulator per session, and a
    timer per session that closes it.

    Parameters: rkyv (class [Archive]), [RecordBatch::try_new] ([make_batch]),
    reading the first value of an Arrow column ([int64_at], [string_at]), the 64-bit
    hash of rustc-hash ([fx_hash]) and the iteration order of the map of pending
    timers ([titer]). *)

From stdpp Require Import pretty.
From S2P Require Import Prelude TimeCore WatermarkGen StateStore WindowCore WindowAgg TumblingOp.

Definition SESSION_INDEX_PREFIX : list Z := [115; 105; 120; 58].   (* "six:" *)
Definition SESSION_ACC_PREFIX : list Z := [115; 97; 99; 58].       (* "sac:" *)
Definition SESSION_TIMER_PREFIX : Z := 1.
Definition DEFAULT_MAX_CACHED_INDICES : Z := 16384.

(** A [SessionId] is its [u64]. *)
Abbreviation SessionId := Z (only parsing).
Definition SessionId_to_bytes (id : SessionId) : list Z := to_be 8 id.
Definition SessionId_from_bytes (b : list Z) : option SessionId :=
  if decide (length b = 8%nat) then Some (from_be b) else None.

Record SessionMetadata := mkSession {
  sm_id : SessionId;
  sm_start : Z;
  sm_end : Z;
  sm_emitted : bool }.

Definition SessionMetadata_new (id : SessionId) (timestamp gap_ms : Z) : SessionMetadata :=
  mkSession id timestamp (i64_add timestamp gap_ms) false.
Definition SessionMetadata_window_id (s : SessionMetadata) : WindowId :=
  mkWindowId (sm_start s) (sm_end s).
Definition SessionMetadata_overlaps (s : SessionMetadata) (timestamp gap_ms : Z) : bool :=
  let event_end := i64_add timestamp gap_ms in
  (timestamp <? sm_end s) && (sm_start s <? event_end).
Definition SessionMetadata_extend (timestamp gap_ms : Z) (s : SessionMetadata) : SessionMetadata :=
  mkSession (sm_id s) (Z.min (sm_start s) timestamp) (Z.max (sm_end s) (i64_add timestamp gap_ms))
    (sm_emitted s).
Definition SessionMetadata_merge (other s : SessionMetadata) : SessionMetadata :=
  mkSession (sm_id s) (Z.min (sm_start s) (sm_start other)) (Z.max (sm_end s) (sm_end other))
    (sm_emitted s).
Definition set_emitted (s : SessionMetadata) : SessionMetadata :=
  mkSession (sm_id s) (sm_start s) (sm_end s) true.

(** The index of a key: its open sessions, ordered by start. *)
Abbreviation SessionIndex := (list SessionMetadata).

(** [binary_search_by_key] by start: the place of the first session that does not
    start before (when several sessions had that start, the library could return
    the place of any of them). *)
Fixpoint SessionIndex_insert (session : SessionMetadata) (index : SessionIndex) : SessionIndex :=
  match index with
  | [] => [session]
  | s :: rest =>
      if sm_start s <? sm_start session then s :: SessionIndex_insert session rest
      else session :: index
  end.

Fixpoint SessionIndex_remove (id : SessionId) (index : SessionIndex) : SessionIndex :=
  match index with
  | [] => []
  | s :: rest => if sm_id s =? id then rest else s :: SessionIndex_remove id rest
  end.

Definition SessionIndex_find_overlapping (timestamp gap_ms : Z) (index : SessionIndex) : list SessionId :=
  sm_id <$> filter (λ s, SessionMetadata_overlaps s timestamp gap_ms = true) index.

Definition SessionIndex_get (id : SessionId) (index : SessionIndex) : option SessionMetadata :=
  head (filter (λ s, sm_id s = id) index).

(** A change through [get_mut]: the first session with the id. *)
Fixpoint SessionIndex_alter (id : SessionId) (f : SessionMetadata → SessionMetadata)
    (index : SessionIndex) : SessionIndex :=
  match index with
  | [] => []
  | s :: rest => if sm_id s =? id then f s :: rest else s :: SessionIndex_alter id f rest
  end.

Section SessionOperator.
Context {Agg B A I O S Gen : Type}.
Context `{!Accumulator A I O} `{!Aggregator Agg B A I}.
Context `{!StateStore S} `{!Archive A} `{!WatermarkGenerator Gen}.
Context `{!Archive SessionIndex} `{!Archive (list (Z * Z * Z) * Z)}.
Context (make_batch : WindowId → O → option B).
(** The first value of a column, when the batch has the column, with that type, and
    its first value is there and not null. *)
Context (int64_at : B → nat → option Z) (string_at : B → nat → option (list Z)).
Context (fx_hash : list Z → Z).
Context (titer : gmap Z (Z * Z) → list (Z * (Z * Z))).

Record SessionWindowOperator := mkSessionOp {
  so_gap_ms : Z;
  so_aggregator : Agg;
  so_allowed_lateness_ms : Z;
  so_session_id_counter : Z;
  so_session_indices : gmap Z SessionIndex;
  so_max_cached_indices : Z;
  so_pending_timers : gmap Z (Z * Z);
  so_emit_strategy : EmitStrategy;
  so_late_data_config : LateDataConfig;
  so_late_data_metrics : LateDataMetrics;
  so_window_close_metrics : WindowCloseMetrics;
  so_operator_id : string;
  so_key_column : option nat;
  so_needs_timer_reregistration : bool }.
Local Abbreviation Op := SessionWindowOperator (only parsing).
Local Abbreviation Ctx := (OperatorContext S Gen) (only parsing).

(** [None]: the gap or the lateness does not fit in [i64]. *)
Definition SessionWindowOperator_with_id (gap : Duration) (aggregator : Agg) (allowed_lateness : Duration)
    (operator_id : string) : option Op :=
  if (as_millis gap <=? i64_MAX) && (as_millis allowed_lateness <=? i64_MAX) then
    Some (mkSessionOp (as_millis gap) aggregator (as_millis allowed_lateness) 0 ∅
            DEFAULT_MAX_CACHED_INDICES ∅ OnWatermark LateDataConfig_drop LateDataMetrics_new
            WindowCloseMetrics_new operator_id None false)
  else None.

(** [new]: [operator_num] is the value taken from [SESSION_OPERATOR_COUNTER]. *)
Definition SessionWindowOperator_new (operator_num : Z) (gap : Duration) (aggregator : Agg)
    (allowed_lateness : Duration) : option Op :=
  SessionWindowOperator_with_id gap aggregator allowed_lateness ("session_window_" ++ pretty operator_num)%string.

(** Field updates. *)
Definition so_set_counter (n : Z) (op : Op) : Op :=
  mkSessionOp (so_gap_ms op) (so_aggregator op) (so_allowed_lateness_ms op) n (so_session_indices op)
    (so_max_cached_indices op) (so_pending_timers op) (so_emit_strategy op) (so_late_data_config op)
    (so_late_data_metrics op) (so_window_close_metrics op) (so_operator_id op) (so_key_column op)
    (so_needs_timer_reregistration op).
Definition so_set_cache (c : gmap Z SessionIndex) (op : Op) : Op :=
  mkSessionOp (so_gap_ms op) (so_aggregator op) (so_allowed_lateness_ms op) (so_session_id_counter op) c
    (so_max_cached_indices op) (so_pending_timers op) (so_emit_strategy op) (so_late_data_config op)
    (so_late_data_metrics op) (so_window_close_metrics op) (so_operator_id op) (so_key_column op)
    (so_needs_timer_reregistration op).
Definition so_set_pending (p : gmap Z (Z * Z)) (op : Op) : Op :=
  mkSessionOp (so_gap_ms op) (so_aggregator op) (so_allowed_lateness_ms op) (so_session_id_counter op)
    (so_session_indices op) (so_max_cached_indices op) p (so_emit_strategy op) (so_late_data_config op)
    (so_late_data_metrics op) (so_window_close_metrics op) (so_operator_id op) (so_key_column op)
    (so_needs_timer_reregistration op).
Definition so_set_metrics (l : LateDataMetrics) (c : WindowCloseMetrics) (op : Op) : Op :=
  mkSessionOp (so_gap_ms op) (so_aggregator op) (so_allowed_lateness_ms op) (so_session_id_counter op)
    (so_session_indices op) (so_max_cached_indices op) (so_pending_timers op) (so_emit_strategy op)
    (so_late_data_config op) l c (so_operator_id op) (so_key_column op) (so_needs_timer_reregistration op).
Definition so_set_reregistration (b : bool) (op : Op) : Op :=
  mkSessionOp (so_gap_ms op) (so_aggregator op) (so_allowed_lateness_ms op) (so_session_id_counter op)
    (so_session_indices op) (so_max_cached_indices op) (so_pending_timers op) (so_emit_strategy op)
    (so_late_data_config op) (so_late_data_metrics op) (so_window_close_metrics op) (so_operator_id op)
    (so_key_column op) b.

Definition SessionWindowOperator_set_max_cached_indices (max : Z) (op : Op) : Op :=
  mkSessionOp (so_gap_ms op) (so_aggregator op) (so_allowed_lateness_ms op) (so_session_id_counter op)
    (so_session_indices op) max (so_pending_timers op) (so_emit_strategy op) (so_late_data_config op)
    (so_late_data_metrics op) (so_window_close_metrics op) (so_operator_id op) (so_key_column op)
    (so_needs_timer_reregistration op).
Definition SessionWindowOperator_set_key_column (column_index : nat) (op : Op) : Op :=
  mkSessionOp (so_gap_ms op) (so_aggregator op) (so_allowed_lateness_ms op) (so_session_id_counter op)
    (so_session_indices op) (so_max_cached_indices op) (so_pending_timers op) (so_emit_strategy op)
    (so_late_data_config op) (so_late_data_metrics op) (so_window_close_metrics op) (so_operator_id op)
    (Some column_index) (so_needs_timer_reregistration op).
Definition SessionWindowOperator_set_emit_strategy (strategy : EmitStrategy) (op : Op) : Op :=
  mkSessionOp (so_gap_ms op) (so_aggregator op) (so_allowed_lateness_ms op) (so_session_id_counter op)
    (so_session_indices op) (so_max_cached_indices op) (so_pending_timers op) strategy
    (so_late_data_config op) (so_late_data_metrics op) (so_window_close_metrics op) (so_operator_id op)
    (so_key_column op) (so_needs_timer_reregistration op).
Definition SessionWindowOperator_set_late_data_config (config : LateDataConfig) (op : Op) : Op :=
  mkSessionOp (so_gap_ms op) (so_aggregator op) (so_allowed_lateness_ms op) (so_session_id_counter op)
    (so_session_indices op) (so_max_cached_indices op) (so_pending_timers op) (so_emit_strategy op)
    config (so_late_data_metrics op) (so_window_close_metrics op) (so_operator_id op) (so_key_column op)
    (so_needs_timer_reregistration op).
Definition SessionWindowOperator_reset_late_data_metrics (op : Op) : Op :=
  so_set_metrics (LateDataMetrics_reset (so_late_data_metrics op)) (so_window_close_metrics op) op.
Definition SessionWindowOperator_reset_window_close_metrics (op : Op) : Op :=
  so_set_metrics (so_late_data_metrics op) (WindowCloseMetrics_reset (so_window_close_metrics op)) op.
Definition SessionWindowOperator_active_session_count (op : Op) : Z :=
  sum_list ((λ kv, zlen kv.2) <$> map_to_list (so_session_indices op)).

(** ** Keys *)

Definition extract_key (op : Op) (event : Event B) : list Z :=
  match so_key_column op with
  | None => []
  | Some col =>
      match int64_at (ev_data event) col with
      | Some v => i64_to_be_bytes v
      | None => default [] (string_at (ev_data event) col)
      end
  end.
Definition key_hash (key : list Z) : Z := fx_hash key.
Definition session_index_key (key_hash : Z) : list Z := SESSION_INDEX_PREFIX ++ to_be 8 key_hash.
Definition session_acc_key (session_id : SessionId) : list Z :=
  SESSION_ACC_PREFIX ++ SessionId_to_bytes session_id.
Definition timer_key (session_id : SessionId) : list Z :=
  SESSION_TIMER_PREFIX :: SessionId_to_bytes session_id.
Definition session_id_from_timer (key : list Z) : option SessionId :=
  match key with
  | b :: rest =>
      if decide (length key = 9%nat) then
        if b =? SESSION_TIMER_PREFIX then SessionId_from_bytes rest else None
      else None
  | [] => None
  end.

Definition SessionId_generate (op : Op) : Op * SessionId :=
  let op_hash := fx_hash (string_bytes (so_operator_id op)) in
  let seq := so_session_id_counter op in
  (so_set_counter (u64_add seq 1) op, Z.lxor op_hash seq).

(** ** State *)

Definition load_session_index (kh : Z) (state : S) (op : Op) : Op * SessionIndex :=
  match so_session_indices op !! kh with
  | Some index => (op, index)
  | None =>
      let op := if so_max_cached_indices op <=? Z.of_nat (size (so_session_indices op))
                then so_set_cache ∅ op else op in
      match get_typed (T:=SessionIndex) state (session_index_key kh) with
      | inl (Some index) => (so_set_cache (<[kh := index]> (so_session_indices op)) op, index)
      | _ => (op, [])
      end
  end.

Definition store_session_index (kh : Z) (index : SessionIndex) (op : Op) (state : S)
    : Op * S * (unit + OperatorError) :=
  match index with
  | [] =>
      let '(state, r) := ss_delete state (session_index_key kh) in
      match r with
      | inr e => (op, state, inr (StateAccessFailed (StateError_to_string e)))
      | inl _ => (so_set_cache (delete kh (so_session_indices op)) op, state, inl tt)
      end
  | _ =>
      let '(state, r) := put_typed state (session_index_key kh) index in
      match r with
      | inr e => (op, state, inr (StateAccessFailed (StateError_to_string e)))
      | inl _ => (so_set_cache (<[kh := index]> (so_session_indices op)) op, state, inl tt)
      end
  end.

Definition load_accumulator (op : Op) (session_id : SessionId) (state : S) : A :=
  match get_typed (T:=A) state (session_acc_key session_id) with
  | inl (Some acc) => acc
  | _ => create_accumulator (so_aggregator op)
  end.
Definition store_accumulator (session_id : SessionId) (acc : A) (state : S) : S * (unit + OperatorError) :=
  let '(state, r) := put_typed state (session_acc_key session_id) acc in
  (state, match r with inl _ => inl tt | inr e => inr (StateAccessFailed (StateError_to_string e)) end).
Definition SessionOp_delete_accumulator (session_id : SessionId) (state : S) : S * (unit + OperatorError) :=
  let '(state, r) := ss_delete state (session_acc_key session_id) in
  (state, match r with inl _ => inl tt | inr e => inr (StateAccessFailed (StateError_to_string e)) end).

Definition register_timer (session_id : SessionId) (kh : Z) (session : SessionMetadata) (op : Op) (ctx : Ctx)
    : Op * Ctx :=
  let trigger_time := i64_add (sm_end session) (so_allowed_lateness_ms op) in
  let register :=
    (so_set_pending (<[session_id := (trigger_time, kh)]> (so_pending_timers op)) op,
     cx_set_timers (TimerService_register_timer (cx_timers ctx) trigger_time
       (Some (timer_key session_id)) (Some (cx_operator_index ctx))).1 ctx) in
  match so_pending_timers op !! session_id with
  | Some (old_time, _) => if old_time =? trigger_time then (op, ctx) else register
  | None => register
  end.

Definition SessionOp_is_late (op : Op) (timestamp watermark : Z) : bool :=
  let potential_cleanup := i64_add (i64_add timestamp (so_gap_ms op)) (so_allowed_lateness_ms op) in
  potential_cleanup <=? watermark.

Definition create_output (session : SessionMetadata) (acc : A) : option (Event B) :=
  if acc_is_empty acc then None
  else mkEvent (sm_end session) <$> make_batch (SessionMetadata_window_id session) (acc_result acc).

(** The retraction of a session that was emitted and is now merged. *)
Definition merge_retraction (op : Op) (index : SessionIndex) (id : SessionId) (acc : A) (ctx : Ctx)
    : list (Output B) :=
  match so_emit_strategy op, SessionIndex_get id index with
  | Changelog, Some meta =>
      if sm_emitted meta then
        match create_output meta acc with
        | Some old_evt => [OutChangelog (ChangelogRecord_delete old_evt (cx_processing_time ctx))]
        | None => []
        end
      else []
  | _, _ => []
  end.

(** The loop over the losers of a merge. *)
Fixpoint merge_losers (winner_id : SessionId) (losers : list SessionId) (op : Op) (ctx : Ctx)
    (index : SessionIndex) (winner_acc : A) (output : list (Output B))
    : Op * Ctx * SessionIndex * A * list (Output B) :=
  match losers with
  | [] => (op, ctx, index, winner_acc, output)
  | loser_id :: losers =>
      let loser_acc := load_accumulator op loser_id (cx_state ctx) in
      let output := output ++ merge_retraction op index loser_id loser_acc ctx in
      let winner_acc := acc_merge winner_acc loser_acc in
      let index := match SessionIndex_get loser_id index with
                   | Some loser_meta =>
                       SessionIndex_alter winner_id (SessionMetadata_merge loser_meta) index
                   | None => index
                   end in
      let ctx := cx_set_state (SessionOp_delete_accumulator loser_id (cx_state ctx)).1 ctx in
      let op := so_set_pending (delete loser_id (so_pending_timers op)) op in
      merge_losers winner_id losers op ctx (SessionIndex_remove loser_id index) winner_acc output
  end.

(** [winner_id] is [overlapping[0]]. *)
Definition merge_sessions (winner_id : SessionId) (losers : list SessionId) (op : Op) (ctx : Ctx)
    (index : SessionIndex) : Op * Ctx * SessionIndex * list (Output B) :=
  let winner_acc := load_accumulator op winner_id (cx_state ctx) in
  let output := merge_retraction op index winner_id winner_acc ctx in
  let '(op, ctx, index, winner_acc, output) := merge_losers winner_id losers op ctx index winner_acc output in
  (op, cx_set_state (store_accumulator winner_id winner_acc (cx_state ctx)).1 ctx, index, output).

(** ** [process] *)

Definition reregister_timers (op : Op) (ctx : Ctx) : Op * Ctx :=
  if so_needs_timer_reregistration op then
    (so_set_reregistration false op,
     foldl (λ ctx '(sid, (trigger_time, _)),
              cx_set_timers (TimerService_register_timer (cx_timers ctx) trigger_time
                (Some (timer_key sid)) (Some (cx_operator_index ctx))).1 ctx)
       ctx (titer (so_pending_timers op)))
  else (op, ctx).

Definition SessionOp_process_late (event : Event B) (op : Op) : Op * list (Output B) :=
  if EmitStrategy_drops_late_data (so_emit_strategy op) then
    (so_set_metrics (LateDataMetrics_record_dropped (so_late_data_metrics op))
       (so_window_close_metrics op) op, [])
  else
    match ld_side_output (so_late_data_config op) with
    | Some name =>
        (so_set_metrics (LateDataMetrics_record_side_output (so_late_data_metrics op))
           (so_window_close_metrics op) op, [OutSideOutput name event])
    | None =>
        (so_set_metrics (LateDataMetrics_record_dropped (so_late_data_metrics op))
           (so_window_close_metrics op) op, [OutLateEvent event])
    end.

(** The session of the event: a new one, the one it extends, or the merged one. *)
Definition assign_session (event_time : Z) (op : Op) (ctx : Ctx) (index : SessionIndex)
    : Op * Ctx * SessionIndex * list (Output B) * SessionId :=
  match SessionIndex_find_overlapping event_time (so_gap_ms op) index with
  | [] =>
      let '(op, id) := SessionId_generate op in
      (op, ctx, SessionIndex_insert (SessionMetadata_new id event_time (so_gap_ms op)) index, [], id)
  | [id] =>
      (op, ctx, SessionIndex_alter id (SessionMetadata_extend event_time (so_gap_ms op)) index, [], id)
  | id :: losers =>
      let '(op, ctx, index, output) := merge_sessions id losers op ctx index in
      (op, ctx, SessionIndex_alter id (SessionMetadata_extend event_time (so_gap_ms op)) index, output, id)
  end.

(** The emissions of [process]. *)
Definition emit_session (op : Op) (ctx : Ctx) (session : SessionMetadata) (acc : A) (index : SessionIndex)
    : SessionIndex * list (Output B) :=
  match so_emit_strategy op with
  | OnUpdate =>
      (SessionIndex_alter (sm_id session) set_emitted index,
       match create_output session acc with Some evt => [OutEvent evt] | None => [] end)
  | Changelog =>
      (SessionIndex_alter (sm_id session) set_emitted index,
       match create_output session acc with
       | Some evt => [OutChangelog (ChangelogRecord_insert evt (cx_processing_time ctx))]
       | None => []
       end)
  | _ => (index, [])
  end.

(** An event that is not late: everything but the watermark. *)
Definition accept_event (event : Event B) (op : Op) (ctx : Ctx) : Op * Ctx * list (Output B) :=
  let event_time := ev_timestamp event in
  let kh := key_hash (extract_key op event) in
  let '(op, index) := load_session_index kh (cx_state ctx) op in
  let '(op, ctx, index, output, session_id) := assign_session event_time op ctx index in
  let acc := foldl acc_add (load_accumulator op session_id (cx_state ctx))
               (extract_batch (so_aggregator op) event) in
  let ctx := cx_set_state (store_accumulator session_id acc (cx_state ctx)).1 ctx in
  let '(op, ctx, index, output) :=
    match SessionIndex_get session_id index with
    | Some session =>
        let '(op, ctx) := register_timer session_id kh session op ctx in
        let '(index, emitted) := emit_session op ctx session acc index in
        (op, ctx, index, output ++ emitted)
    | None => (op, ctx, index, output)
    end in
  let '(op, state, _) := store_session_index kh index op (cx_state ctx) in
  (op, cx_set_state state ctx, output).

Definition SessionOp_process (clk : Clock) (op : Op) (event : Event B) (ctx : Ctx)
    : Op * Ctx * list (Output B) :=
  let '(op, ctx) := reregister_timers op ctx in
  let event_time := ev_timestamp event in
  let '(gen', emitted_watermark) := on_event clk (cx_watermark_generator ctx) event_time in
  let ctx := cx_set_gen gen' ctx in
  let current_wm := current_watermark gen' in
  if (i64_MIN <? current_wm) && SessionOp_is_late op event_time current_wm then
    let '(op, output) := SessionOp_process_late event op in (op, ctx, output)
  else
    let '(op, ctx, output) := accept_event event op ctx in
    (op, ctx,
     output ++ match emitted_watermark with Some wm => [OutWatermark (wm_ts wm)] | None => [] end).

(** ** [on_timer] *)

Definition SessionOp_on_timer (op : Op) (timer : Timer) (ctx : Ctx) : Op * Ctx * list (Output B) :=
  match session_id_from_timer (tm_key timer) with
  | None => (op, ctx, [])
  | Some session_id =>
      match so_pending_timers op !! session_id with
      | None => (op, ctx, [])
      | Some (expected_time, kh) =>
          if negb (expected_time =? tm_timestamp timer) then (op, ctx, [])
          else
            let '(op, index) := load_session_index kh (cx_state ctx) op in
            match SessionIndex_get session_id index with
            | None => (so_set_pending (delete session_id (so_pending_timers op)) op, ctx, [])
            | Some session =>
                let acc := load_accumulator op session_id (cx_state ctx) in
                let '(op, output) :=
                  match create_output session acc with
                  | None => (op, [])
                  | Some event =>
                      (so_set_metrics (so_late_data_metrics op)
                         (WindowCloseMetrics_record_close (so_window_close_metrics op) (sm_end session)
                            (cx_processing_time ctx)) op,
                       match so_emit_strategy op with
                       | Changelog => [OutChangelog (ChangelogRecord_insert event (cx_processing_time ctx))]
                       | _ => [OutEvent event]
                       end)
                  end in
                let index := SessionIndex_remove session_id index in
                let ctx := cx_set_state (SessionOp_delete_accumulator session_id (cx_state ctx)).1 ctx in
                let '(op, state, _) := store_session_index kh index op (cx_state ctx) in
                (so_set_pending (delete session_id (so_pending_timers op)) op, cx_set_state state ctx, output)
            end
      end
  end.

(** ** One node of the executor *)

(** The [for reg in fired] loop of [DagExecutor::fire_timers]. *)
Fixpoint SessionOp_fire_loop (op : Op) (ctx : Ctx) (current_time : Z) (fired : list TimerRegistration)
    : Op * Ctx * list (Output B) :=
  match fired with
  | [] => (op, ctx, [])
  | reg :: rest =>
      let timer := mkFired (default [] (t_key reg)) (t_timestamp reg) in
      let ctx1 := mkCtx (t_timestamp reg) current_time (cx_timers ctx) (cx_state ctx)
                    (cx_watermark_generator ctx) (cx_operator_index ctx) in
      let '(op1, ctx2, out1) := SessionOp_on_timer op timer ctx1 in
      let '(op2, ctx3, out2) := SessionOp_fire_loop op1 ctx2 current_time rest in
      (op2, ctx3, out1 ++ out2)
  end.

(** [process_watermark] for one node: advance its generator, then fire. *)
Definition SessionOp_node_watermark (clk : Clock) (op : Op) (ctx : Ctx) (watermark : Z)
    : option (Op * Ctx * list (Output B)) :=
  let gen' := (advance_watermark clk (cx_watermark_generator ctx) watermark).1 in
  '(timers', fired) ← TimerService_poll_timers (cx_timers ctx) watermark;
  Some (SessionOp_fire_loop op (cx_set_timers timers' (cx_set_gen gen' ctx)) watermark fired).

(** A node driven by events and watermarks, with everything it emits for each. *)
Fixpoint session_run (op : Op) (ctx : Ctx) (ops : list (node_op (B:=B)))
    : option (Op * Ctx * list (list (Output B))) :=
  match ops with
  | [] => Some (op, ctx, [])
  | NEvent clk pt e :: rest =>
      let ctx0 := mkCtx (ev_timestamp e) pt (cx_timers ctx) (cx_state ctx)
                    (cx_watermark_generator ctx) (cx_operator_index ctx) in
      let '(op1, ctx1, out1) := SessionOp_process clk op e ctx0 in
      '(op2, ctx2, outs) ← session_run op1 ctx1 rest;
      Some (op2, ctx2, out1 :: outs)
  | NWatermark clk ts :: rest =>
      '(op1, ctx1, out1) ← SessionOp_node_watermark clk op ctx ts;
      '(op2, ctx2, outs) ← session_run op1 ctx1 rest;
      Some (op2, ctx2, out1 :: outs)
  end.

(** ** [checkpoint] and [restore] *)

Definition SessionOp_checkpoint (op : Op) : OperatorState :=
  let timer_entries := (λ '(sid, (time, kh)), (sid, time, kh)) <$> titer (so_pending_timers op) in
  mkOperatorState (so_operator_id op) 1
    (match to_bytes (timer_entries, so_session_id_counter op) with inl v => v | inr _ => [] end).

Definition unsupported_version (v : Z) : string :=
  ("unsupported state version " ++ pretty v ++ ", expected 1")%string.

Definition SessionOp_restore (op : Op) (state : OperatorState) : Op * (unit + OperatorError) :=
  if bool_decide (os_operator_id state ≠ so_operator_id op) then
    (op, inr (StateAccessFailed ("Operator ID mismatch: expected " ++ so_operator_id op ++
                                 ", got " ++ os_operator_id state)%string))
  else if negb (os_version state =? 1) then (op, inr (ConfigError (unsupported_version (os_version state))))
  else match os_data state with
  | [] => (op, inl tt)
  | _ =>
      match from_bytes (T:=list (Z * Z * Z) * Z) (os_data state) with
      | inr e => (op, inr (SerializationFailed e))
      | inl (timers, counter_val) =>
          let pending : gmap Z (Z * Z) :=
            foldl (λ m '(sid, time, kh), <[sid := (time, kh)]> m) ∅ timers in
          (so_set_reregistration (negb (bool_decide (pending = ∅)))
             (so_set_counter counter_val (so_set_pending pending op)), inl tt)
      end
  end.
End SessionOperator.

(** ** Joining sessions *)

(** A session with the bounds of several. *)
Definition spans (m : SessionMetadata) (ms : list SessionMetadata) : Prop :=
  Forall (λ x, sm_start m <= sm_start x ∧ sm_end x <= sm_end m) ms ∧
  (∃ x, x ∈ ms ∧ sm_start m = sm_start x) ∧ (∃ x, x ∈ ms ∧ sm_end m = sm_end x).

Definition absorb (w : SessionMetadata) (losers : list SessionMetadata) : SessionMetadata :=
  foldl (λ w l, SessionMetadata_merge l w) w losers.

Lemma spans_self m : spans m [m].
Proof.
  split; [constructor; [lia|constructor]|]. split; exists m; (split; [left|done]).
Qed.
Lemma spans_merge m ms l : spans m ms → spans (SessionMetadata_merge l m) (ms ++ [l]).
Proof.
  intros (Hall & (a & Ha & Hsa) & (b & Hb & Heb)). split; [|split]; simpl.
  - rewrite Forall_app, Forall_singleton. split; [|lia]. eapply Forall_impl; [done|]. simpl. lia.
  - destruct (Z.min_spec (sm_start m) (sm_start l)) as [[_ ->]|[_ ->]];
      [exists a|exists l]; (split; [set_solver|lia]).
  - destruct (Z.max_spec (sm_end m) (sm_end l)) as [[_ ->]|[_ ->]];
      [exists l|exists b]; (split; [set_solver|lia]).
Qed.
Lemma spans_absorb w losers : spans (absorb w losers) (w :: losers).
Proof.
  unfold absorb. induction losers as [|l losers IH] using rev_ind; [apply spans_self|].
  rewrite foldl_app. simpl. change (w :: losers ++ [l]) with ((w :: losers) ++ [l]). by apply spans_merge.
Qed.
Lemma absorb_id w losers : sm_id (absorb w losers) = sm_id w.
Proof. unfold absorb. induction losers as [|l losers IH] using rev_ind; [done|]. by rewrite foldl_app. Qed.

(** ** Sessions as unions of event intervals *)

Section Index.
Context {V : Type}.
Context (gap : Z) (gap_pos : 0 < gap).

(** The instants occupied by events (timestamps with their values). *)
Definition covered (evs : list (Z * V)) (t : Z) : Prop := ∃ e, e ∈ evs ∧ e.1 <= t < e.1 + gap.

(** The bounds of a session are exactly the union of its events' intervals. *)
Definition session_ok (s : SessionMetadata) (evs : list (Z * V)) : Prop :=
  evs ≠ [] ∧ ∀ t, sm_start s <= t < sm_end s ↔ covered evs t.

(** Sessions of an index: in order and disjoint. *)
Definition index_sorted (idx : SessionIndex) : Prop :=
  StronglySorted (λ a b, sm_end a <= sm_start b) idx ∧ Forall (λ s, sm_start s < sm_end s) idx.

Lemma covered_app e1 e2 t : covered (e1 ++ e2) t ↔ covered e1 t ∨ covered e2 t.
Proof. unfold covered. setoid_rewrite elem_of_app. naive_solver. Qed.
Lemma covered_singleton e t : covered [e] t ↔ e.1 <= t < e.1 + gap.
Proof. unfold covered. setoid_rewrite list_elem_of_singleton. naive_solver. Qed.

Lemma session_ok_nonempty s evs : session_ok s evs → sm_start s < sm_end s.
Proof.
  intros [Hne Hc]. destruct evs as [|e evs]; [done|].
  assert (sm_start s <= e.1 < sm_end s); [|lia]. apply Hc. exists e. split; [left|lia].
Qed.

(** The event that ends a session last. *)
Lemma session_ok_end s evs : session_ok s evs → ∃ e, e ∈ evs ∧ sm_end s <= e.1 + gap.
Proof.
  intros Hs. pose proof (session_ok_nonempty _ _ Hs) as Hlt. destruct Hs as [_ Hc].
  destruct (proj1 (Hc (sm_end s - 1)) ltac:(lia)) as (e & He & ?). exists e. split; [done|lia].
Qed.
Lemma session_ok_start s evs e : session_ok s evs → e ∈ evs → sm_start s <= e.1 ∧ e.1 + gap <= sm_end s.
Proof.
  intros [_ Hc] He. assert (sm_start s <= e.1 < sm_end s) by (apply Hc; exists e; split; [done|lia]).
  assert (sm_start s <= e.1 + gap - 1 < sm_end s); [|lia]. apply Hc. exists e. split; [done|lia].
Qed.

(** The sessions that an event touches are consecutive. *)
Lemma index_split idx ts : index_sorted idx → ∃ before ov after,
  idx = before ++ ov ++ after ∧
  Forall (λ s, sm_end s <= ts) before ∧ Forall (λ s, ts < sm_end s ∧ sm_start s < ts + gap) ov ∧
  Forall (λ s, ts + gap <= sm_start s) after.
Proof.
  intros [Hs Hp]. induction Hs as [|m idx Hs IH Hm]; [by exists [], [], []|].
  apply Forall_cons in Hp as [Hpm Hp]. destruct (IH Hp) as (b & o & a & -> & Hb & Ho & Ha).
  destruct (Z.le_gt_cases (sm_end m) ts) as [Hle|Hgt].
  { exists (m :: b), o, a. split; [done|]. by split; [constructor|]. }
  assert (b = []) as ->.
  { destruct b as [|x b]; [done|]. exfalso. apply Forall_cons in Hb as [Hx _].
    apply Forall_cons in Hp as [Hpx _]. apply Forall_cons in Hm as [Hmx _]. lia. }
  destruct (Z.lt_ge_cases (sm_start m) (ts + gap)) as [Hlt|Hge].
  - exists [], (m :: o), a. split; [done|]. split; [done|]. split; [constructor; [lia|done]|done].
  - exists [], [], (m :: o ++ a). split; [done|]. do 2 (split; [constructor|]).
    constructor; [done|]. rewrite Forall_forall in *. intros x Hx. specialize (Hm x Hx). lia.
Qed.

(** An event joined with all the sessions it touches is a session again, and fits
    between the others. *)
Lemma join_session_ok ts (v : V) ov evss m : is_i64 (ts + gap) →
  spans m ov → Forall (λ s, ts < sm_end s ∧ sm_start s < ts + gap) ov → Forall2 session_ok ov evss →
  session_ok (SessionMetadata_extend ts gap m) (mjoin evss ++ [(ts, v)]).
Proof.
  intros Hi (Hall & (a & Ha & Hsa) & (b & Hb & Heb)) Hov Hok. split; [by destruct (mjoin evss)|].
  intros t. rewrite covered_app, covered_singleton. simpl. rewrite i64_add_exact by done.
  rewrite Forall_forall in Hall, Hov. split.
  - intros Ht. destruct (Z.lt_ge_cases t ts) as [Hlt|Hge]; [left|].
    + assert (Hin : sm_start a <= t < sm_end a) by (specialize (Hov a Ha); lia).
      destruct (list_elem_of_lookup_1 _ _ Ha) as [i Hi']. destruct (Forall2_lookup_l _ _ _ _ _ Hok Hi') as (evs & He & Hs).
      destruct (proj1 (proj2 Hs t) Hin) as (e & Hee & ?). exists e. split; [|done].
      apply list_elem_of_join. exists evs. split; [done|by eapply list_elem_of_lookup_2].
    + destruct (Z.lt_ge_cases t (ts + gap)) as [?|Hge']; [right; lia|left].
      assert (Hin : sm_start b <= t < sm_end b) by (specialize (Hov b Hb); lia).
      destruct (list_elem_of_lookup_1 _ _ Hb) as [i Hi']. destruct (Forall2_lookup_l _ _ _ _ _ Hok Hi') as (evs & He & Hs).
      destruct (proj1 (proj2 Hs t) Hin) as (e & Hee & ?). exists e. split; [|done].
      apply list_elem_of_join. exists evs. split; [done|by eapply list_elem_of_lookup_2].
  - intros [(e & Hee & Ht)|Ht]; [|lia].
    apply list_elem_of_join in Hee as (evs & He & Hevs).
    destruct (list_elem_of_lookup_1 _ _ Hevs) as [i Hi']. destruct (Forall2_lookup_r _ _ _ _ _ Hok Hi') as (s & Hs & Hsok).
    assert (sm_start s <= t < sm_end s) by (apply Hsok; by exists e).
    specialize (Hall s (list_elem_of_lookup_2 _ _ _ Hs)). lia.
Qed.
End Index.

(** ** The index operations at a known place *)

Lemma index_alter_mid before m after f : sm_id m ∉ sm_id <$> before →
  SessionIndex_alter (sm_id m) f (before ++ m :: after) = before ++ f m :: after.
Proof.
  induction before as [|x before IH]; intros Hn; simpl; [by rewrite Z.eqb_refl|].
  rewrite fmap_cons, not_elem_of_cons in Hn. destruct Hn as [Hx Hn].
  rewrite (proj2 (Z.eqb_neq _ _)) by done. by rewrite IH.
Qed.
Lemma index_remove_mid before m after : sm_id m ∉ sm_id <$> before →
  SessionIndex_remove (sm_id m) (before ++ m :: after) = before ++ after.
Proof.
  induction before as [|x before IH]; intros Hn; simpl; [by rewrite Z.eqb_refl|].
  rewrite fmap_cons, not_elem_of_cons in Hn. destruct Hn as [Hx Hn].
  rewrite (proj2 (Z.eqb_neq _ _)) by done. by rewrite IH.
Qed.
Lemma index_get_mid before m after : sm_id m ∉ sm_id <$> before →
  SessionIndex_get (sm_id m) (before ++ m :: after) = Some m.
Proof.
  intros Hn. unfold SessionIndex_get. rewrite filter_app, filter_none.
  - simpl. by rewrite filter_cons_True.
  - rewrite Forall_forall. intros x Hx He. apply Hn. rewrite <- He. by apply list_elem_of_fmap_2.
Qed.
Lemma index_get_Some id idx m : SessionIndex_get id idx = Some m → m ∈ idx ∧ sm_id m = id.
Proof.
  unfold SessionIndex_get. intros Hh. assert (Hin : m ∈ filter (λ s, sm_id s = id) idx).
  { destruct (filter _ idx); simplify_eq/=. left. }
  apply list_elem_of_filter in Hin. tauto.
Qed.
Lemma index_get_None id idx m : SessionIndex_get id idx = None → m ∈ idx → sm_id m ≠ id.
Proof.
  unfold SessionIndex_get. intros Hh Hm He.
  assert (Hin : m ∈ filter (λ s, sm_id s = id) idx) by by apply list_elem_of_filter.
  destruct (filter _ idx); [by apply elem_of_nil in Hin|done].
Qed.

Section Joining.
Context (gap ts : Z) (gap_pos : 0 < gap) (ts_ok : is_i64 (ts + gap)).

Lemma overlaps_spec s : SessionMetadata_overlaps s ts gap = true ↔ ts < sm_end s ∧ sm_start s < ts + gap.
Proof.
  unfold SessionMetadata_overlaps. rewrite i64_add_exact by done.
  by rewrite andb_true_iff, !Z.ltb_lt.
Qed.

Lemma find_overlapping_split before ov after :
  Forall (λ s, sm_end s <= ts) before → Forall (λ s, ts < sm_end s ∧ sm_start s < ts + gap) ov →
  Forall (λ s, ts + gap <= sm_start s) after →
  SessionIndex_find_overlapping ts gap (before ++ ov ++ after) = sm_id <$> ov.
Proof.
  intros Hb Ho Ha. unfold SessionIndex_find_overlapping. rewrite !filter_app.
  rewrite (filter_none _ before), (filter_all _ ov), (filter_none _ after); [by rewrite app_nil_r|..].
  - eapply Forall_impl; [done|]. intros s Hs. rewrite overlaps_spec. simpl in Hs. lia.
  - eapply Forall_impl; [done|]. intros s Hs. by rewrite overlaps_spec.
  - eapply Forall_impl; [done|]. intros s Hs. rewrite overlaps_spec. simpl in Hs. lia.
Qed.

Lemma index_insert_split before after new :
  Forall (λ s, sm_start s < sm_start new) before → Forall (λ s, sm_start new <= sm_start s) after →
  SessionIndex_insert new (before ++ after) = before ++ new :: after.
Proof.
  induction 1 as [|x before Hx Hb IH]; intros Ha; simpl.
  - destruct Ha as [|y after Hy _]; [done|]. simpl. by rewrite (proj2 (Z.ltb_ge _ _)).
  - rewrite (proj2 (Z.ltb_lt _ _)) by done. by rewrite IH.
Qed.

(** The index stays ordered when the touched sessions are replaced by their join. *)
Lemma index_sorted_join before ov after m :
  index_sorted (before ++ ov ++ after) →
  Forall (λ s, sm_end s <= ts) before → Forall (λ s, ts + gap <= sm_start s) after →
  sm_start m < sm_end m →
  (sm_start m = ts ∨ ∃ x, x ∈ ov ∧ sm_start m = sm_start x) →
  (sm_end m = ts + gap ∨ ∃ x, x ∈ ov ∧ sm_end m = sm_end x) →
  index_sorted (before ++ m :: after).
Proof.
  intros [Hs Hp] Hb Ha Hm Hst Hen. apply StronglySorted_app in Hs as (Hbo & Hsb & Hs).
  apply StronglySorted_app in Hs as (Hoa & _ & Hsa).
  rewrite !Forall_app in Hp. destruct Hp as (Hpb & _ & Hpa). rewrite Forall_forall in Hb, Ha.
  split; [|rewrite Forall_app; split; [done|by constructor]].
  apply StronglySorted_app. split; [|split; [done|constructor; [done|]]].
  - intros x y Hx Hy. apply elem_of_cons in Hy as [->|Hy].
    + destruct Hst as [->|(z & Hz & ->)]; [by apply Hb|]. apply Hbo; [done|]. set_solver.
    + apply Hbo; [done|]. set_solver.
  - rewrite Forall_forall. intros y Hy.
    destruct Hen as [->|(z & Hz & ->)]; [by apply Ha|by apply Hoa].
Qed.
End Joining.

(** ** Keys *)

Lemma u64_be_inj a b : is_u64 a → is_u64 b → to_be 8 a = to_be 8 b → a = b.
Proof.
  intros Ha Hb H. apply (f_equal from_be) in H. rewrite !from_to_be in H.
  change (256 ^ Z.of_nat 8) with u64_MOD in H. unfold is_u64 in *. rewrite !Z.mod_small in H; done.
Qed.
Lemma session_index_key_inj a b : is_u64 a → is_u64 b → session_index_key a = session_index_key b → a = b.
Proof. intros Ha Hb H%(inj (app SESSION_INDEX_PREFIX)). by apply u64_be_inj. Qed.
Lemma session_acc_key_inj a b : is_u64 a → is_u64 b → session_acc_key a = session_acc_key b → a = b.
Proof. intros Ha Hb H%(inj (app SESSION_ACC_PREFIX)). by apply u64_be_inj. Qed.
Lemma session_keys_differ a b : session_index_key a ≠ session_acc_key b.
Proof. unfold session_index_key, session_acc_key. intros [= H]. Qed.

Lemma timer_key_roundtrip id : is_u64 id → session_id_from_timer (timer_key id) = Some id.
Proof.
  intros Hid. unfold session_id_from_timer, timer_key, SessionId_to_bytes, SessionId_from_bytes.
  cbn [length]. rewrite to_be_length. rewrite decide_True by done. rewrite Z.eqb_refl.
  rewrite decide_True by done. rewrite from_to_be. change (256 ^ Z.of_nat 8) with u64_MOD.
  f_equal. apply Z.mod_small, Hid.
Qed.

Section SessionState.
Context {Agg B A I O S Gen : Type}.
Context `{!Accumulator A I O} `{!AccumulatorLaws A I O} `{!Aggregator Agg B A I} `{!AggregatorLaws Agg B A I O}.
Context `{!StateStore S} {sok : S → Prop} {sabs : S → gmap (list Z) (list Z)}.
Context `{!StateStoreLaws S sok sabs} `{!Archive A} `{!ArchiveLaws A}.
Context `{!WatermarkGenerator Gen} `{!Archive SessionIndex} `{!ArchiveLaws SessionIndex}.
Local Abbreviation Op := (SessionWindowOperator (Agg:=Agg)) (only parsing).
Local Abbreviation Ctx := (OperatorContext S Gen) (only parsing).

(** What the store holds for a key and for a session. *)
Definition index_of (s : S) (kh : Z) : SessionIndex :=
  match get_typed (T:=SessionIndex) s (session_index_key kh) with inl (Some i) => i | _ => [] end.
Definition acc_at (s : S) (sid : Z) : A :=
  match get_typed (T:=A) s (session_acc_key sid) with inl (Some a) => a | _ => acc_default end.

Definition decode {T} `{!Archive T} (d : T) (o : option (list Z)) : T :=
  match o with Some b => match from_bytes b with inl x => x | inr _ => d end | None => d end.

Lemma get_typed_decode {T} `{!Archive T} (s : S) k (d : T) : sok s →
  match get_typed (T:=T) s k with inl (Some x) => x | _ => d end = decode d (sabs s !! k).
Proof.
  intros Hs. unfold get_typed, decode. rewrite (law_get s k Hs).
  destruct (law_get_ref s k Hs) as [-> | ->]; destruct (sabs s !! k) as [b|]; try done;
    by destruct (from_bytes b).
Qed.
Lemma index_of_abs s kh : sok s → index_of s kh = decode [] (sabs s !! session_index_key kh).
Proof. apply get_typed_decode. Qed.
Lemma acc_at_abs s sid : sok s → acc_at s sid = decode acc_default (sabs s !! session_acc_key sid).
Proof. apply get_typed_decode. Qed.

Lemma load_accumulator_at (op : Op) sid s : load_accumulator op sid s = acc_at s sid.
Proof. unfold load_accumulator, acc_at. by rewrite law_create. Qed.

(** The four changes of the store. *)
Definition store_step (s s' : S) (ki : Z → option SessionIndex) (ka : Z → option A) : Prop :=
  sok s' ∧ (∀ kh, is_u64 kh → index_of s' kh = default (index_of s kh) (ki kh)) ∧
  (∀ sid, is_u64 sid → acc_at s' sid = default (acc_at s sid) (ka sid)).

Lemma put_acc_step s sid a : sok s → is_u64 sid →
  store_step s (store_accumulator sid a s).1 (λ _, None) (λ x, if decide (x = sid) then Some a else None).
Proof.
  intros Hs Hu. unfold store_accumulator, put_typed.
  destruct (archive_roundtrip a) as (b & -> & Hrt). destruct (law_put s (session_acc_key sid) b Hs) as (_ & Hok & Habs).
  destruct (ss_put s (session_acc_key sid) b) as [s' r]. simpl in *. split; [done|]. split.
  - intros kh _. rewrite !index_of_abs, Habs by done. simpl.
    by rewrite lookup_insert_ne by (intros He; by apply (session_keys_differ kh sid)).
  - intros x Hx. rewrite !acc_at_abs, Habs by done. destruct (decide (x = sid)) as [->|Hne]; simpl.
    + by rewrite lookup_insert_eq; simpl; rewrite Hrt.
    + rewrite lookup_insert_ne; [done|]. intros He. by apply Hne, session_acc_key_inj.
Qed.

Lemma delete_acc_step s sid : sok s → is_u64 sid →
  store_step s (SessionOp_delete_accumulator sid s).1 (λ _, None)
    (λ x, if decide (x = sid) then Some acc_default else None).
Proof.
  intros Hs Hu. unfold SessionOp_delete_accumulator.
  destruct (law_delete s (session_acc_key sid) Hs) as (_ & Hok & Habs).
  destruct (ss_delete s (session_acc_key sid)) as [s' r]. simpl in *. split; [done|]. split.
  - intros kh _. rewrite !index_of_abs, Habs by done. simpl.
    by rewrite lookup_delete_ne by (intros He; by apply (session_keys_differ kh sid)).
  - intros x Hx. rewrite !acc_at_abs, Habs by done. destruct (decide (x = sid)) as [->|Hne]; simpl.
    + by rewrite lookup_delete_eq.
    + rewrite lookup_delete_ne; [done|]. intros He. by apply Hne, session_acc_key_inj.
Qed.

(** The cache agrees with the store. *)
Definition cache_ok (op : Op) (s : S) : Prop :=
  ∀ kh i, so_session_indices op !! kh = Some i → is_u64 kh ∧ index_of s kh = i.

Lemma load_session_index_spec (op : Op) s kh : cache_ok op s → is_u64 kh →
  ∃ c, load_session_index kh s op = (so_set_cache c op, index_of s kh) ∧ cache_ok (so_set_cache c op) s.
Proof.
  intros Hc Hkh. unfold load_session_index. destruct (so_session_indices op !! kh) as [i|] eqn:Hl.
  { exists (so_session_indices op). destruct (Hc _ _ Hl) as [_ ->]. by destruct op. }
  set (op1 := if _ <=? _ then _ else _).
  assert (H1 : ∃ c1, op1 = so_set_cache c1 op ∧ cache_ok op1 s).
  { subst op1. destruct (_ <=? _); [exists ∅; by split|]. exists (so_session_indices op). by destruct op. }
  clearbody op1. destruct H1 as (c1 & -> & Hc1). unfold index_of.
  destruct (get_typed s (session_index_key kh)) as [[i|]|e] eqn:Hg; simpl.
  - eexists. split; [done|]. intros kh' i'. simpl. rewrite lookup_insert_Some.
    intros [[<- <-]|[_ Hl']]; [|by apply Hc1]. unfold index_of. by rewrite Hg.
  - by exists c1.
  - by exists c1.
Qed.

Lemma store_session_index_spec (op : Op) s kh idx : sok s → cache_ok op s → is_u64 kh →
  ∃ c s' r, store_session_index kh idx op s = (so_set_cache c op, s', r) ∧
    cache_ok (so_set_cache c op) s' ∧
    store_step s s' (λ x, if decide (x = kh) then Some idx else None) (λ _, None).
Proof.
  intros Hs Hc Hkh. unfold store_session_index.
  assert (Hcache : ∀ s' (v : option SessionIndex),
    (∀ x, is_u64 x → index_of s' x = if decide (x = kh) then default [] v else index_of s x) →
    cache_ok (so_set_cache (partial_alter (λ _, v) kh (so_session_indices op)) op) s').
  { intros s' v Hi x i. simpl. destruct (decide (x = kh)) as [->|Hne].
    - rewrite lookup_partial_alter_eq. intros ->. split; [done|]. rewrite Hi by done.
      by rewrite decide_True.
    - rewrite lookup_partial_alter_ne by done. intros Hl. destruct (Hc _ _ Hl) as [Hu <-].
      split; [done|]. rewrite Hi by done. by rewrite decide_False. }
  destruct idx as [|m idx].
  - destruct (law_delete s (session_index_key kh) Hs) as (Hr & Hok & Habs).
    destruct (ss_delete s (session_index_key kh)) as [s' r]. simpl in *. subst r.
    assert (Hi : ∀ x, is_u64 x → index_of s' x = if decide (x = kh) then [] else index_of s x).
    { intros x Hx. rewrite !index_of_abs, Habs by done. destruct (decide (x = kh)) as [->|Hne].
      - by rewrite lookup_delete_eq.
      - rewrite lookup_delete_ne; [done|]. intros He. by apply Hne, session_index_key_inj. }
    do 3 eexists. split; [done|]. split; [exact (Hcache s' None Hi)|]. split; [done|]. split.
    + intros x Hx. rewrite Hi by done. by destruct (decide (x = kh)).
    + intros sid _. rewrite !acc_at_abs, Habs by done. simpl.
      by rewrite lookup_delete_ne by (apply session_keys_differ).
  - unfold put_typed. destruct (archive_roundtrip (m :: idx)) as (b & -> & Hrt).
    destruct (law_put s (session_index_key kh) b Hs) as (Hr & Hok & Habs).
    destruct (ss_put s (session_index_key kh) b) as [s' r]. simpl in *. subst r.
    assert (Hi : ∀ x, is_u64 x → index_of s' x = if decide (x = kh) then m :: idx else index_of s x).
    { intros x Hx. rewrite !index_of_abs, Habs by done. destruct (decide (x = kh)) as [->|Hne].
      - by rewrite lookup_insert_eq; simpl; rewrite Hrt.
      - rewrite lookup_insert_ne; [done|]. intros He. by apply Hne, session_index_key_inj. }
    do 3 eexists. split; [done|]. split; [exact (Hcache s' (Some (m :: idx)) Hi)|]. split; [done|]. split.
    + intros x Hx. rewrite Hi by done. by destruct (decide (x = kh)).
    + intros sid _. rewrite !acc_at_abs, Habs by done. simpl.
      by rewrite lookup_insert_ne by (apply session_keys_differ).
Qed.
End SessionState.

Lemma lookup_foldr_delete {X} (m : gmap Z X) l k :
  foldr delete m l !! k = if decide (k ∈ l) then None else m !! k.
Proof.
  induction l as [|x l IH]; simpl; [by destruct (decide (k ∈ []))|].
  destruct (decide (k = x)) as [->|Hne].
  - rewrite lookup_delete_eq. by rewrite decide_True by left.
  - rewrite lookup_delete_ne, IH by done.
    destruct (decide (k ∈ l)), (decide (k ∈ x :: l)); set_solver.
Qed.

Section SessionSpec.
Context {Agg B A I O S Gen : Type}.
Context `{!Accumulator A I O} `{!AccumulatorLaws A I O} `{!Aggregator Agg B A I} `{!AggregatorLaws Agg B A I O}.
Context `{!StateStore S} {sok : S → Prop} {sabs : S → gmap (list Z) (list Z)}.
Context `{!StateStoreLaws S sok sabs} `{!Archive A} `{!ArchiveLaws A}.
Context `{!WatermarkGenerator Gen} `{!Archive SessionIndex} `{!ArchiveLaws SessionIndex}.
Context (make_batch : WindowId → O → option B).
Context (int64_at : B → nat → option Z) (string_at : B → nat → option (list Z)).
Context (fx_hash : list Z → Z) (fx_hash_u64 : ∀ b, is_u64 (fx_hash b)).
Context (titer : gmap Z (Z * Z) → list (Z * (Z * Z))).
Local Abbreviation Op := (SessionWindowOperator (Agg:=Agg)) (only parsing).
Local Abbreviation Ctx := (OperatorContext S Gen) (only parsing).

(** The events of a session: timestamps with the values they contribute. *)
Abbreviation group := (list (Z * list I)) (only parsing).
Definition group_values (evs : group) : list I := mjoin evs.*2.

Definition ts_ok (op : Op) (ts : Z) : Prop :=
  i64_MIN <= ts ∧ ts + so_gap_ms op + so_allowed_lateness_ms op <= i64_MAX.
Definition config_ok (op : Op) : Prop := 0 < so_gap_ms op ∧ 0 <= so_allowed_lateness_ms op.

(** ** The invariant

    [G] are the open sessions: the key hash and the events of each. *)
Record sess_inv (op : Op) (s : S) (G : gmap Z (Z * group)) : Prop := {
  iv_store : sok s;
  iv_cache : cache_ok op s;
  iv_sorted : ∀ kh, is_u64 kh → index_sorted (index_of s kh);
  iv_index : ∀ kh m, is_u64 kh → m ∈ index_of s kh →
    ∃ evs, G !! sm_id m = Some (kh, evs) ∧ session_ok (so_gap_ms op) m evs ∧
      so_pending_timers op !! sm_id m = Some (sm_end m + so_allowed_lateness_ms op, kh);
  iv_live : ∀ sid kh evs, G !! sid = Some (kh, evs) →
    is_u64 sid ∧ is_u64 kh ∧ Forall (λ e, ts_ok op e.1) evs ∧
    acc_at s sid = acc_of (group_values evs) ∧ ∃ m, m ∈ index_of s kh ∧ sm_id m = sid;
  iv_dead : ∀ sid, is_u64 sid → G !! sid = None → acc_at s sid = acc_of [];
  iv_pending : ∀ sid, G !! sid = None → so_pending_timers op !! sid = None;
  iv_ids : ∀ sid, is_Some (G !! sid) → ∃ n, 0 <= n < so_session_id_counter op ∧
    sid = Z.lxor (fx_hash (string_bytes (so_operator_id op))) n }.

Lemma session_ok_bounds gap s1 s2 (evs : group) : 0 < gap → session_ok gap s1 evs → session_ok gap s2 evs →
  sm_start s1 = sm_start s2 ∧ sm_end s1 = sm_end s2.
Proof.
  intros Hg H1 H2. pose proof (session_ok_nonempty _ Hg _ _ H1). pose proof (session_ok_nonempty _ Hg _ _ H2).
  assert (Hiff : ∀ t, sm_start s1 <= t < sm_end s1 ↔ sm_start s2 <= t < sm_end s2).
  { intros t. rewrite (proj2 H1 t). by rewrite (proj2 H2 t). }
  pose proof (proj1 (Hiff (sm_start s1)) ltac:(lia)). pose proof (proj2 (Hiff (sm_start s2)) ltac:(lia)).
  pose proof (proj1 (Hiff (sm_end s1 - 1)) ltac:(lia)). pose proof (proj2 (Hiff (sm_end s2 - 1)) ltac:(lia)).
  lia.
Qed.

Lemma index_ids_nodup op s G kh : config_ok op → sess_inv op s G → is_u64 kh →
  NoDup (sm_id <$> index_of s kh).
Proof.
  intros [Hg _] Hi Hkh. pose proof (iv_sorted _ _ _ Hi kh Hkh) as [Hs Hp].
  eapply nodup_of_sorted; [done|]. intros a b Ha Hb Hab Heq.
  destruct (iv_index _ _ _ Hi kh a Hkh Ha) as (ea & Hea & Hoa & _).
  destruct (iv_index _ _ _ Hi kh b Hkh Hb) as (eb & Heb & Hob & _).
  rewrite Heq in Hea. rewrite Hea in Heb. injection Heb as <-.
  destruct (session_ok_bounds _ _ _ _ Hg Hoa Hob).
  pose proof (session_ok_nonempty _ Hg _ _ Hoa). simpl in Hab. lia.
Qed.

(** ** Merging *)

Lemma store_step_trans s s1 s2 ka1 ka2 :
  store_step (sok:=sok) s s1 (λ _, None) ka1 → store_step (sok:=sok) s1 s2 (λ _, None) ka2 →
  store_step (sok:=sok) s s2 (λ _, None) (λ x, match ka2 x with Some a => Some a | None => ka1 x end).
Proof.
  intros (_ & Hi1 & Ha1) (Hs2 & Hi2 & Ha2). split; [done|]. split.
  - intros kh Hk. rewrite Hi2 by done. simpl. by apply Hi1.
  - intros x Hx. rewrite Ha2 by done. destruct (ka2 x); [done|]. simpl. by apply Ha1.
Qed.

Lemma store_step_ext s s' ki ka ka' : (∀ x, ka' x = ka x) → store_step (sok:=sok) s s' ki ka →
  store_step (sok:=sok) s s' ki ka'.
Proof. intros He (H1 & H2 & H3). split; [done|]. split; [done|]. intros x Hx. rewrite He. auto. Qed.

Lemma foldl_ext_in {X Y} (f g : X → Y → X) (l : list Y) a :
  (∀ a x, x ∈ l → f a x = g a x) → foldl f a l = foldl g a l.
Proof.
  revert a. induction l as [|x l IH]; intros a Hfg; [done|]. simpl. rewrite Hfg by left.
  apply IH. intros a' y Hy. apply Hfg. by right.
Qed.

Lemma merge_losers_spec metas : ∀ (op : Op) (ctx : Ctx) before w after acc out,
  sok (cx_state ctx) → NoDup (sm_id <$> (before ++ w :: metas ++ after)) →
  Forall (λ m, is_u64 (sm_id m)) metas →
  ∃ p' s' out',
    merge_losers make_batch (sm_id w) (sm_id <$> metas) op ctx (before ++ w :: metas ++ after) acc out =
      (so_set_pending p' op, cx_set_state s' ctx, before ++ absorb w metas :: after,
       foldl (λ a m, acc_merge a (acc_at (cx_state ctx) (sm_id m))) acc metas, out ++ out') ∧
    (∀ sid, p' !! sid = if decide (sid ∈ sm_id <$> metas) then None else so_pending_timers op !! sid) ∧
    store_step (sok:=sok) (cx_state ctx) s' (λ _, None)
      (λ sid, if decide (sid ∈ sm_id <$> metas) then Some acc_default else None) ∧
    (so_emit_strategy op ≠ Changelog → out' = []).
Proof.
  induction metas as [|m metas IH]; intros op ctx before w after acc out Hs Hnd Hu.
  { exists (so_pending_timers op), (cx_state ctx), []. split; [|split; [|split]].
    - simpl. rewrite app_nil_r. by destruct op, ctx.
    - intros sid. by rewrite decide_False by set_solver.
    - split; [done|]. split; [done|]. intros sid _. by rewrite decide_False by set_solver.
    - done. }
  apply Forall_cons in Hu as [Hum Hu]. cbn [fmap list_fmap merge_losers].
  assert (Hnd' := Hnd). change (before ++ w :: (m :: metas) ++ after)
    with (before ++ [w] ++ m :: metas ++ after) in Hnd'.
  rewrite app_assoc, fmap_app, fmap_cons, <- Permutation_middle in Hnd'.
  apply NoDup_cons in Hnd' as [Hm Hnd']. rewrite <- fmap_app, <- app_assoc in Hnd'. simpl in Hnd'.
  rewrite elem_of_app in Hm.
  assert (Hmb : sm_id m ∉ sm_id <$> (before ++ [w])) by (intros Hin; apply Hm; by left).
  assert (Hmm : sm_id m ∉ sm_id <$> metas)
    by (intros Hin; apply Hm; right; rewrite fmap_app; apply elem_of_app; by left).
  assert (Hwb : sm_id w ∉ sm_id <$> before).
  { rewrite fmap_app, fmap_cons in Hnd'. apply NoDup_app in Hnd' as (_ & Hd & _).
    intros Hin. eapply Hd; [done|left]. }
  assert (Hget : SessionIndex_get (sm_id m) (before ++ w :: (m :: metas) ++ after) = Some m).
  { change (before ++ w :: (m :: metas) ++ after) with (before ++ [w] ++ m :: metas ++ after).
    rewrite app_assoc. by apply index_get_mid. }
  rewrite Hget, index_alter_mid by done. rewrite (load_accumulator_at op (sm_id m)).
  assert (Hrem : SessionIndex_remove (sm_id m) (before ++ SessionMetadata_merge m w :: (m :: metas) ++ after) =
                 before ++ SessionMetadata_merge m w :: metas ++ after).
  { change (before ++ SessionMetadata_merge m w :: (m :: metas) ++ after)
      with (before ++ [SessionMetadata_merge m w] ++ m :: metas ++ after).
    rewrite app_assoc, index_remove_mid; [by rewrite <- app_assoc|]. by rewrite fmap_app in Hmb |- *. }
  rewrite Hrem. destruct (delete_acc_step (cx_state ctx) (sm_id m) Hs Hum) as (Hs1 & Hi1 & Ha1).
  set (s1 := (SessionOp_delete_accumulator (sm_id m) (cx_state ctx)).1) in *.
  set (out1 := merge_retraction _ _ _ _ _ _).
  destruct (IH (so_set_pending (delete (sm_id m) (so_pending_timers op)) op) (cx_set_state s1 ctx)
    before (SessionMetadata_merge m w) after (acc_merge acc (acc_at (cx_state ctx) (sm_id m))) (out ++ out1))
    as (p' & s' & out' & Hml & Hp & Hst & Hout); [done| |done|].
  { rewrite fmap_app, fmap_cons in Hnd' |- *. done. }
  exists p', s', (out1 ++ out'). split; [|split; [|split]].
  - assert (Hf : ∀ a0, foldl (λ a x, acc_merge a (acc_at s1 (sm_id x))) a0 metas =
                       foldl (λ a x, acc_merge a (acc_at (cx_state ctx) (sm_id x))) a0 metas).
    { intros a0. apply foldl_ext_in. intros a x Hx. f_equal. rewrite Ha1.
      - rewrite decide_False; [done|]. intros He. apply Hmm. rewrite <- He. by apply list_elem_of_fmap_2.
      - rewrite Forall_forall in Hu. by apply Hu. }
    etrans; [exact Hml|]. cbn [cx_state cx_set_state]. rewrite Hf, <- app_assoc. done.
  - intros sid. rewrite Hp. simpl. destruct (decide (sid ∈ sm_id <$> metas)) as [Hin|Hnin].
    + by rewrite decide_True by (by right).
    + destruct (decide (sid = sm_id m)) as [->|Hne].
      * rewrite lookup_delete_eq. by rewrite decide_True by left.
      * rewrite lookup_delete_ne by done. by rewrite decide_False by (by intros [?|?]%elem_of_cons).
  - eapply store_step_ext; [|exact (store_step_trans _ _ _ _ _ (conj Hs1 (conj Hi1 Ha1)) Hst)].
    intros x. simpl. destruct (decide (x ∈ sm_id <$> metas)) as [Hin|Hnin].
    + by rewrite decide_True by (by right).
    + destruct (decide (x = sm_id m)) as [->|Hne]; [by rewrite decide_True by left|].
      by rewrite decide_False by (by intros [?|?]%elem_of_cons).
  - intros Hne. rewrite Hout by done. subst out1. unfold merge_retraction.
    by destruct (so_emit_strategy op).
Qed.

(** ** Assigning an event *)

Definition group_of (G : gmap Z (Z * group)) (sid : Z) : group := default [] (snd <$> G !! sid).
Definition joined (G : gmap Z (Z * group)) (ov : list SessionMetadata) : group :=
  mjoin (group_of G ∘ sm_id <$> ov).

Lemma group_values_app (e1 e2 : group) : group_values (e1 ++ e2) = group_values e1 ++ group_values e2.
Proof. unfold group_values. by rewrite fmap_app, join_app. Qed.

Lemma joined_cons G m ov : joined G (m :: ov) = group_of G (sm_id m) ++ joined G ov.
Proof. done. Qed.

Lemma merged_acc s G ov (xs : list I) :
  Forall (λ m, acc_at s (sm_id m) = acc_of (group_values (group_of G (sm_id m)))) ov →
  foldl (λ a m, acc_merge a (acc_at s (sm_id m))) (acc_of xs) ov = acc_of (xs ++ group_values (joined G ov)).
Proof.
  intros Hall. revert xs. induction Hall as [|m ov Hm Hall IH]; intros xs; simpl.
  { by rewrite app_nil_r. }
  rewrite Hm, law_merge, IH. unfold joined. rewrite fmap_cons. simpl. rewrite group_values_app.
  by rewrite <- app_assoc.
Qed.

Lemma u64_lxor a b : is_u64 a → is_u64 b → is_u64 (Z.lxor a b).
Proof.
  unfold is_u64. intros [Ha Ha'] [Hb Hb']. change u64_MOD with (2 ^ 64) in *.
  split; [by apply Z.lxor_nonneg|].
  destruct (Z.eq_dec (Z.lxor a b) 0) as [->|Hne]; [lia|].
  assert (0 < Z.lxor a b) by (pose proof (proj2 (Z.lxor_nonneg a b)); lia).
  apply Z.log2_lt_pow2; [done|]. eapply Z.le_lt_trans; [by apply Z.log2_lxor|].
  apply Z.max_lub_lt.
  - destruct (Z.eq_dec a 0) as [->|]; [done|]. apply Z.log2_lt_pow2; lia.
  - destruct (Z.eq_dec b 0) as [->|]; [done|]. apply Z.log2_lt_pow2; lia.
Qed.

Lemma index_ids_u64 op s G kh : sess_inv op s G → is_u64 kh →
  Forall (λ m, is_u64 (sm_id m)) (index_of s kh).
Proof.
  intros Hi Hkh. rewrite Forall_forall. intros m Hm.
  destruct (iv_index _ _ _ Hi kh m Hkh Hm) as (evs & HG & _).
  by destruct (iv_live _ _ _ Hi _ _ _ HG).
Qed.

Record assigned (op : Op) (s : S) (G : gmap Z (Z * group)) (kh ts : Z)
    (before ov after : list SessionMetadata) (m' : SessionMetadata) (p' : gmap Z (Z * Z)) (c' : Z) (s' : S) : Prop := {
  as_index : index_of s kh = before ++ ov ++ after;
  as_u64 : is_u64 (sm_id m');
  as_ok : ∀ v, session_ok (so_gap_ms op) m' (joined G ov ++ [(ts, v)]);
  as_sorted : index_sorted (before ++ m' :: after);
  as_acc : acc_at s' (sm_id m') = acc_of (group_values (joined G ov));
  as_pending : ∀ sid, p' !! sid = if decide (sid ∈ tail (sm_id <$> ov)) then None else so_pending_timers op !! sid;
  as_store : sok s' ∧ (∀ x, is_u64 x → index_of s' x = index_of s x) ∧
    ∀ x, is_u64 x → x ≠ sm_id m' →
      acc_at s' x = if decide (x ∈ tail (sm_id <$> ov)) then acc_of [] else acc_at s x;
  as_id : head (sm_id <$> ov) = Some (sm_id m') ∧ c' = so_session_id_counter op ∨
    ov = [] ∧ G !! sm_id m' = None ∧ c' = so_session_id_counter op + 1 ∧
    sm_id m' = Z.lxor (fx_hash (string_bytes (so_operator_id op))) (so_session_id_counter op) }.

Lemma not_before before w rest : NoDup (sm_id <$> (before ++ w :: rest)) → sm_id w ∉ sm_id <$> before.
Proof.
  rewrite fmap_app, fmap_cons. intros (_ & Hd & _)%NoDup_app Hin. eapply Hd; [done|left].
Qed.

Lemma lxor_cancel h a b : Z.lxor h a = Z.lxor h b → a = b.
Proof.
  intros H%(f_equal (Z.lxor h)). by rewrite <- !Z.lxor_assoc, Z.lxor_nilpotent, !Z.lxor_0_l in H.
Qed.

Lemma fresh_id op s G : sess_inv op s G →
  G !! Z.lxor (fx_hash (string_bytes (so_operator_id op))) (so_session_id_counter op) = None.
Proof.
  intros Hi. apply eq_None_not_Some. intros Hs. destruct (iv_ids _ _ _ Hi _ Hs) as (n & Hn & He).
  apply lxor_cancel in He. lia.
Qed.

Lemma joined_sorted gap ts before ov after m : 0 < gap → is_i64 (ts + gap) →
  index_sorted (before ++ ov ++ after) →
  Forall (λ s, sm_end s <= ts) before → Forall (λ s, ts + gap <= sm_start s) after →
  spans m ov → index_sorted (before ++ SessionMetadata_extend ts gap m :: after).
Proof.
  intros Hg Hi Hs Hb Ha (Hall & (a & Ha1 & Ha2) & (b & Hb1 & Hb2)).
  eapply index_sorted_join; [done..| | |]; simpl; rewrite ?i64_add_exact by done.
  - lia.
  - destruct (Z.min_spec (sm_start m) ts) as [[_ ->]|[_ ->]]; [right; by exists a|by left].
  - destruct (Z.max_spec (sm_end m) (ts + gap)) as [[_ ->]|[_ ->]]; [by left|right; by exists b].
Qed.

Lemma assign_session_spec op (ctx : Ctx) G kh ts :
  config_ok op → sess_inv op (cx_state ctx) G → is_u64 kh → ts_ok op ts →
  0 <= so_session_id_counter op < u64_MOD - 1 →
  ∃ before ov after m' p' c' s' out,
    assign_session make_batch fx_hash ts op ctx (index_of (cx_state ctx) kh) =
      (so_set_counter c' (so_set_pending p' op), cx_set_state s' ctx, before ++ m' :: after, out, sm_id m') ∧
    assigned op (cx_state ctx) G kh ts before ov after m' p' c' s' ∧
    (so_emit_strategy op ≠ Changelog → out = []).
Proof.
  intros [Hg Hl] Hi Hkh [Hts Hts'] Hcnt. set (s := cx_state ctx) in *. set (gap := so_gap_ms op) in *.
  assert (Hi64 : is_i64 (ts + gap)) by (unfold is_i64; lia).
  pose proof (iv_sorted _ _ _ Hi kh Hkh) as Hsorted.
  destruct (index_split gap _ ts Hsorted) as (before & ov & after & Hidx & Hb & Ho & Ha).
  pose proof (index_ids_nodup _ _ _ _ (conj Hg Hl) Hi Hkh) as Hnd.
  pose proof (index_ids_u64 _ _ _ _ Hi Hkh) as Hu64.
  assert (Hall : ∀ m, m ∈ ov → G !! sm_id m = Some (kh, group_of G (sm_id m)) ∧
    session_ok gap m (group_of G (sm_id m)) ∧ acc_at s (sm_id m) = acc_of (group_values (group_of G (sm_id m)))).
  { intros m Hm. destruct (iv_index _ _ _ Hi kh m Hkh) as (evs & HG & Hok & _); [rewrite Hidx; set_solver|].
    unfold group_of. rewrite HG. simpl. destruct (iv_live _ _ _ Hi _ _ _ HG) as (_ & _ & _ & ? & _). done. }
  assert (Hoks : Forall2 (session_ok gap) ov (group_of G ∘ sm_id <$> ov)).
  { apply Forall2_fmap_r, Forall_Forall2_diag. rewrite Forall_forall. intros m Hm. by apply Hall. }
  unfold assign_session. fold gap. rewrite Hidx, find_overlapping_split by done.
  rewrite Hidx in Hsorted, Hnd, Hu64.
  destruct ov as [|w [|l ov]].
  - (* a new session *)
    set (h := fx_hash (string_bytes (so_operator_id op))). set (n := so_session_id_counter op) in *.
    set (m' := SessionMetadata_new (Z.lxor h n) ts gap).
    exists before, [], after, m', (so_pending_timers op), (n + 1), s, []. split; [|split; [|done]].
    { unfold SessionId_generate. fold h n. cbn [app fmap list_fmap].
      assert (Hpb : Forall (λ s, sm_start s < sm_end s) before)
        by (destruct Hsorted as [_ Hp]; rewrite Forall_app in Hp; by destruct Hp).
      rewrite index_insert_split.
      - unfold u64_add. rewrite wrap_u64_small by (unfold is_u64; lia). by destruct op, ctx.
      - rewrite Forall_forall in Hb, Hpb |- *. intros x Hx. specialize (Hb x Hx). specialize (Hpb x Hx).
        simpl in *. lia.
      - eapply Forall_impl; [done|]. intros x Hx. simpl in *. lia. }
    assert (Hm' : sm_end m' = ts + gap) by (simpl; by apply i64_add_exact).
    split; try done.
    + apply u64_lxor; [apply fx_hash_u64|unfold is_u64; lia].
    + intros v. split; [done|]. intros t. unfold joined. simpl. rewrite covered_singleton.
      rewrite i64_add_exact by done. done.
    + eapply index_sorted_join; [done..| | |]; rewrite ?Hm'; [simpl; lia|by left|by left].
    + apply (iv_dead _ _ _ Hi).
      * apply u64_lxor; [apply fx_hash_u64|unfold is_u64; lia].
      * by apply (fresh_id op s G).
    + split; [apply (iv_store _ _ _ Hi)|]. done.
    + right. split_and!; try done. by apply (fresh_id op s G).
  - (* one session *)
    set (m' := SessionMetadata_extend ts gap w).
    exists before, [w], after, m', (so_pending_timers op), (so_session_id_counter op), s, []. split; [|split; [|done]].
    { cbn [fmap list_fmap app]. rewrite index_alter_mid; [by destruct op, ctx|].
      by eapply not_before. }
    split; try done.
    + rewrite !Forall_app, Forall_singleton in Hu64. tauto.
    + intros v. apply (join_session_ok gap ts v [w] _ w); try done. apply spans_self.
    + apply (joined_sorted gap ts before [w] after); try done. apply spans_self.
    + simpl. unfold joined. simpl. rewrite app_nil_r. apply Hall. left.
    + split; [apply (iv_store _ _ _ Hi)|]. done.
    + by left.
  - (* several sessions *)
    cbn [fmap list_fmap]. fold (sm_id <$> ov). change (sm_id l :: (sm_id <$> ov)) with (sm_id <$> (l :: ov)).
    unfold merge_sessions.
    destruct (merge_losers_spec (l :: ov) op ctx before w after (load_accumulator op (sm_id w) (cx_state ctx))
      (merge_retraction make_batch op (before ++ (w :: l :: ov) ++ after) (sm_id w)
         (load_accumulator op (sm_id w) (cx_state ctx)) ctx))
      as (p' & s1 & out' & Hml & Hp & (Hs1 & Hi1 & Ha1) & Hout).
    { apply (iv_store _ _ _ Hi). } { done. }
    { rewrite !Forall_app, Forall_cons in Hu64. tauto. }
    change (before ++ (w :: l :: ov) ++ after) with (before ++ w :: (l :: ov) ++ after) in *.
    fold s in Hml, Hi1, Ha1 |- *. rewrite Hml. cbn [cx_state cx_set_state].
    set (acc' := foldl _ _ _). assert (Huw : is_u64 (sm_id w)) by (rewrite !Forall_app, !Forall_cons in Hu64; tauto).
    destruct (put_acc_step s1 (sm_id w) acc' Hs1 Huw) as (Hs2 & Hi2 & Ha2).
    set (s2 := (store_accumulator (sm_id w) acc' s1).1) in *.
    set (m' := SessionMetadata_extend ts gap (absorb w (l :: ov))).
    assert (Hid : sm_id m' = sm_id w) by apply absorb_id.
    exists before, (w :: l :: ov), after, m', p', (so_session_id_counter op), s2,
      (merge_retraction make_batch op (before ++ w :: (l :: ov) ++ after) (sm_id w)
         (load_accumulator op (sm_id w) s) ctx ++ out').
    split; [|split].
    { rewrite <- (absorb_id w (l :: ov)), index_alter_mid; [by destruct op, ctx|]. rewrite absorb_id.
      by eapply not_before. }
    2:{ intros Hne. rewrite Hout by done. unfold merge_retraction. by destruct (so_emit_strategy op). }
    split; rewrite ?Hid; try done.
    + intros v. apply (join_session_ok gap ts v (w :: l :: ov) _ (absorb w (l :: ov))); try done. apply spans_absorb.
    + apply (joined_sorted gap ts before (w :: l :: ov) after); try done. apply spans_absorb.
    + rewrite Ha2, decide_True by done. transitivity acc'; [done|]. subst acc'. rewrite load_accumulator_at.
      rewrite (proj2 (proj2 (Hall w ltac:(left)))), (merged_acc s G (l :: ov)).
      * by rewrite (joined_cons G w), group_values_app.
      * rewrite Forall_forall. intros x Hx. apply Hall. by right.
    + split; [done|]. split.
      * intros x Hx. rewrite Hi2, Hi1 by done. done.
      * intros x Hx Hne. rewrite Ha2, decide_False by done. simpl. rewrite Ha1 by done.
        change (sm_id l :: list_fmap _ _ sm_id ov) with (sm_id <$> (l :: ov)).
        by destruct (decide (x ∈ sm_id <$> (l :: ov))).
    + by left.
Qed.

(** ** Accepting an event *)

(** All open events with their keys. *)
Definition tagged (kh : Z) (evs : group) : list (Z * (Z * list I)) := pair kh <$> evs.
Definition open_events (G : gmap Z (Z * group)) : list (Z * (Z * list I)) :=
  map_to_list G ≫= λ kv, tagged kv.2.1 kv.2.2.

Lemma open_events_insert G sid kh evs : G !! sid = None →
  open_events (<[sid := (kh, evs)]> G) ≡ₚ tagged kh evs ++ open_events G.
Proof. intros Hn. unfold open_events. by rewrite map_to_list_insert. Qed.
Lemma open_events_delete G sid kh evs : G !! sid = Some (kh, evs) →
  open_events G ≡ₚ tagged kh evs ++ open_events (delete sid G).
Proof. intros Hs. unfold open_events. by rewrite <- (map_to_list_delete _ _ _ Hs). Qed.

Lemma open_events_joined G kh ov : NoDup (sm_id <$> ov) →
  Forall (λ m, G !! sm_id m = Some (kh, group_of G (sm_id m))) ov →
  open_events G ≡ₚ tagged kh (joined G ov) ++ open_events (foldr delete G (sm_id <$> ov)).
Proof.
  induction ov as [|m ov IH]; intros Hnd Hall; [done|].
  rewrite fmap_cons in Hnd. apply NoDup_cons in Hnd as [Hm Hnd]. apply Forall_cons in Hall as [HGm Hall].
  rewrite (IH Hnd Hall), joined_cons. cbn [fmap list_fmap foldr]. fold (sm_id <$> ov).
  rewrite (open_events_delete (foldr delete G (sm_id <$> ov)) (sm_id m) kh (group_of G (sm_id m))).
  - unfold tagged. rewrite fmap_app. rewrite !app_assoc. f_equiv. apply Permutation_app_comm.
  - rewrite lookup_foldr_delete. by rewrite decide_False.
Qed.

Definition same_config (op op' : Op) : Prop :=
  so_gap_ms op' = so_gap_ms op ∧ so_aggregator op' = so_aggregator op ∧
  so_allowed_lateness_ms op' = so_allowed_lateness_ms op ∧ so_emit_strategy op' = so_emit_strategy op ∧
  so_operator_id op' = so_operator_id op ∧ so_key_column op' = so_key_column op ∧
  so_late_data_config op' = so_late_data_config op ∧
  so_needs_timer_reregistration op' = so_needs_timer_reregistration op.

(** Every pending timer is registered. *)
Definition pool_ok (op : Op) (pool : list TimerRegistration) : Prop :=
  ∀ sid t kh, so_pending_timers op !! sid = Some (t, kh) →
    ∃ reg, reg ∈ pool ∧ t_key reg = Some (timer_key sid) ∧ t_timestamp reg = t.

Lemma session_end_ok op m (evs : group) : config_ok op → session_ok (so_gap_ms op) m evs →
  Forall (λ e, ts_ok op e.1) evs → is_i64 (sm_end m + so_allowed_lateness_ms op).
Proof.
  intros [Hg Hl] Hok Hall. destruct (session_ok_end _ Hg _ _ Hok) as (e & He & Hle).
  destruct (session_ok_start _ Hg _ _ _ Hok He) as [Hs He'].
  rewrite Forall_forall in Hall. destruct (Hall e He) as [H1 H2]. unfold is_i64. lia.
Qed.

Lemma register_timer_spec (op : Op) (ctx : Ctx) sid kh m pool :
  is_i64 (sm_end m + so_allowed_lateness_ms op) →
  (∀ t kh', so_pending_timers op !! sid = Some (t, kh') → kh' = kh) →
  ∃ p' T', register_timer sid kh m op ctx = (so_set_pending p' op, cx_set_timers T' ctx) ∧
    p' = <[sid := (sm_end m + so_allowed_lateness_ms op, kh)]> (so_pending_timers op) ∧
    (pool_ok op (timers (cx_timers ctx) ++ pool) → pool_ok (so_set_pending p' op) (timers T' ++ pool)).
Proof.
  intros Hi Hkh. unfold register_timer. rewrite i64_add_exact by done.
  set (t := sm_end m + so_allowed_lateness_ms op).
  assert (Hreg : pool_ok op (timers (cx_timers ctx) ++ pool) →
    pool_ok (so_set_pending (<[sid := (t, kh)]> (so_pending_timers op)) op)
      (timers (TimerService_register_timer (cx_timers ctx) t (Some (timer_key sid)) (Some (cx_operator_index ctx))).1 ++ pool)).
  { intros Hp x t' kh'. simpl. rewrite lookup_insert_Some. intros [[<- [= <- <-]]|[Hne Hx]].
    - eexists. split; [left|done].
    - destruct (Hp _ _ _ Hx) as (reg & Hr & ?). exists reg. split; [by right|done]. }
  destruct (so_pending_timers op !! sid) as [[old kh']|] eqn:Hold.
  - rewrite (Hkh old kh' eq_refl) in *. destruct (Z.eqb_spec old t) as [->|Hne].
    + exists (so_pending_timers op), (cx_timers ctx). split; [by destruct op, ctx|].
      split; [by rewrite insert_id|]. by destruct op.
    + eexists _, _. split; [done|]. split; [done|]. done.
  - eexists _, _. split; [done|]. split; [done|]. done.
Qed.

Lemma index_sorted_swap before m m2 after : index_sorted (before ++ m :: after) →
  sm_start m2 = sm_start m → sm_end m2 = sm_end m → index_sorted (before ++ m2 :: after).
Proof.
  intros [Hs Hp] Hst Hen. apply StronglySorted_app in Hs as (Hba & Hb & Hs).
  apply StronglySorted_cons in Hs as [Hma Hs]. rewrite Forall_app, Forall_cons in Hp.
  split; [|rewrite Forall_app, Forall_cons; rewrite Hst, Hen; tauto].
  apply StronglySorted_app. split; [|split; [done|]].
  - intros x y Hx [->|Hy]%elem_of_cons; [rewrite Hst; apply Hba; [done|left]|apply Hba; [done|by right]].
  - apply StronglySorted_cons. split; [|done]. by rewrite Hen.
Qed.

Lemma session_ok_same gap m m2 (evs : group) : sm_start m2 = sm_start m → sm_end m2 = sm_end m →
  session_ok gap m evs → session_ok gap m2 evs.
Proof. intros Hs He [Hn Hc]. split; [done|]. by rewrite Hs, He. Qed.

Lemma nodup_fmap_inj {X Y} (f : X → Y) (l : list X) a b : NoDup (f <$> l) → a ∈ l → b ∈ l →
  f a = f b → a = b.
Proof.
  intros Hnd [i Ha]%list_elem_of_lookup [j Hb]%list_elem_of_lookup Heq.
  assert (i = j) as ->; [|congruence].
  apply (NoDup_lookup _ i j (f a) Hnd); rewrite list_lookup_fmap; [by rewrite Ha|by rewrite Hb, Heq].
Qed.

Section Accept.
Context (op : Op) (s : S) (G : gmap Z (Z * group)) (kh ts : Z) (v : list I).
Context (before ov after : list SessionMetadata) (m' m2 : SessionMetadata) (p' : gmap Z (Z * Z)) (c' : Z) (s1 s' : S).
Context (Hconf : config_ok op) (Hi : sess_inv op s G) (Hkh : is_u64 kh) (Hts : ts_ok op ts).
Context (Has : assigned op s G kh ts before ov after m' p' c' s1).

Lemma ov_live x : x ∈ sm_id <$> ov → G !! x = Some (kh, group_of G x).
Proof.
  intros (m & -> & Hm)%list_elem_of_fmap. destruct (iv_index _ _ _ Hi kh m Hkh) as (evs & HG & _).
  - rewrite (as_index _ _ _ _ _ _ _ _ _ _ _ _ Has). set_solver.
  - unfold group_of. by rewrite HG.
Qed.
Lemma ov_head x : x ∈ sm_id <$> ov → x = sm_id m' ∨ x ∈ tail (sm_id <$> ov).
Proof.
  intros Hx. destruct (as_id _ _ _ _ _ _ _ _ _ _ _ _ Has) as [[Hh _]|(-> & _)]; [|by apply elem_of_nil in Hx].
  destruct (sm_id <$> ov) as [|y l]; [done|]. injection Hh as ->. apply elem_of_cons in Hx as [?|?]; auto.
Qed.
Lemma sid_cases : sm_id m' ∈ sm_id <$> ov ∨ G !! sm_id m' = None.
Proof.
  destruct (as_id _ _ _ _ _ _ _ _ _ _ _ _ Has) as [[Hh _]|(_ & HG & _)]; [left|by right].
  destruct (sm_id <$> ov); [done|]. injection Hh as ->. left.
Qed.
Lemma tail_subset x : x ∈ tail (sm_id <$> ov) → x ∈ sm_id <$> ov.
Proof. destruct (sm_id <$> ov); [done|]. by right. Qed.

(** A session that stays. *)
Lemma others_stay m kh0 : m ∈ index_of s kh0 → is_u64 kh0 → (kh0 = kh → m ∉ ov) →
  sm_id m ≠ sm_id m' ∧ sm_id m ∉ sm_id <$> ov.
Proof.
  intros Hm Hk0 Hov. destruct (iv_index _ _ _ Hi kh0 m Hk0 Hm) as (evs & HG & Hok & _).
  assert (Hn : sm_id m ∉ sm_id <$> ov).
  { intros Hin. pose proof (ov_live _ Hin) as HG'. rewrite HG in HG'. injection HG' as -> _.
    apply list_elem_of_fmap in Hin as (m0 & Heq & Hm0).
    pose proof (index_ids_nodup _ _ _ _ Hconf Hi Hkh) as Hnd.
    assert (m = m0) as ->; [|by apply (Hov eq_refl)].
    eapply nodup_fmap_inj; [done|done| |done].
    rewrite (as_index _ _ _ _ _ _ _ _ _ _ _ _ Has). set_solver. }
  split; [|done]. intros Heq. destruct sid_cases as [Hin|Hnone]; [by rewrite <- Heq in Hin|].
  by rewrite <- Heq, HG in Hnone.
Qed.

Lemma kept_not_ov m : m ∈ before ++ after → m ∉ ov.
Proof.
  intros Hm Hov. pose proof (index_ids_nodup _ _ _ _ Hconf Hi Hkh) as Hnd%NoDup_fmap_1.
  rewrite (as_index _ _ _ _ _ _ _ _ _ _ _ _ Has), !NoDup_app in Hnd.
  destruct Hnd as (_ & Hb & _ & Ho & _). apply elem_of_app in Hm as [Hm|Hm].
  - apply (Hb m Hm). set_solver.
  - by apply (Ho m Hov).
Qed.

Context (Hid : sm_id m2 = sm_id m') (Hstart : sm_start m2 = sm_start m') (Hend : sm_end m2 = sm_end m').
Context (Hsok : sok s') (opf : Op) (Hcache : cache_ok opf s').
Context (Hidx : ∀ x, is_u64 x → index_of s' x = if decide (x = kh) then before ++ m2 :: after else index_of s x).
Context (Hacc : ∀ x, is_u64 x → acc_at s' x =
  if decide (x = sm_id m') then acc_of (group_values (joined G ov ++ [(ts, v)])) else acc_at s1 x).
Context (Hsame : same_config op opf) (Hcnt : so_session_id_counter opf = c').
Context (Hpend : so_pending_timers opf =
  <[sm_id m' := (sm_end m' + so_allowed_lateness_ms op, kh)]> p').
Context (Hc0 : 0 <= so_session_id_counter op).

Definition G_accept : gmap Z (Z * group) :=
  <[sm_id m' := (kh, joined G ov ++ [(ts, v)])]> (foldr delete G (sm_id <$> ov)).

Lemma G_accept_other x : x ≠ sm_id m' → x ∉ sm_id <$> ov → G_accept !! x = G !! x.
Proof.
  intros Hne Hn. unfold G_accept. rewrite lookup_insert_ne, lookup_foldr_delete by done.
  by rewrite decide_False.
Qed.
Lemma pending_other x : x ≠ sm_id m' → x ∉ sm_id <$> ov →
  so_pending_timers opf !! x = so_pending_timers op !! x.
Proof.
  intros Hne Hn. rewrite Hpend, lookup_insert_ne by done.
  rewrite (as_pending _ _ _ _ _ _ _ _ _ _ _ _ Has), decide_False; [done|].
  intros Hin. by apply Hn, tail_subset.
Qed.

Lemma sess_inv_accept : sess_inv opf s' G_accept.
Proof.
  destruct Hsame as (Hgap & _ & Hlat & _ & Hop & _).
  assert (Hk : ∀ m kh0, is_u64 kh0 → m ∈ index_of s' kh0 → m = m2 ∧ kh0 = kh ∨
    m ∈ index_of s kh0 ∧ sm_id m ≠ sm_id m' ∧ sm_id m ∉ sm_id <$> ov).
  { intros m kh0 Hk0 Hm. rewrite Hidx in Hm by done. destruct (decide (kh0 = kh)) as [->|Hne].
    - assert (Hm' : m = m2 ∨ m ∈ before ++ after) by set_solver. destruct Hm' as [->|Hm']; [by left|].
      right. assert (Hin : m ∈ index_of s kh) by (rewrite (as_index _ _ _ _ _ _ _ _ _ _ _ _ Has); set_solver).
      split; [done|]. apply (others_stay m kh); [done..|]. intros _. by apply kept_not_ov.
    - right. split; [done|]. by apply (others_stay m kh0). }
  split.
  - done.
  - done.
  - intros kh0 Hk0. rewrite Hidx by done. destruct (decide (kh0 = kh)) as [->|]; [|by apply (iv_sorted _ _ _ Hi)].
    eapply index_sorted_swap; [apply (as_sorted _ _ _ _ _ _ _ _ _ _ _ _ Has)|done..].
  - intros kh0 m Hk0 Hm. rewrite Hgap, Hlat. destruct (Hk m kh0 Hk0 Hm) as [[-> ->]|(Hm' & Hne & Hn)].
    + exists (joined G ov ++ [(ts, v)]). rewrite Hid. split; [by unfold G_accept; rewrite lookup_insert_eq|].
      split; [eapply session_ok_same; [done..|apply (as_ok _ _ _ _ _ _ _ _ _ _ _ _ Has)]|].
      rewrite Hpend, lookup_insert_eq. by rewrite Hend.
    + destruct (iv_index _ _ _ Hi kh0 m Hk0 Hm') as (evs & HG & Hok & Hp). exists evs.
      by rewrite G_accept_other, pending_other.
  - intros sid kh0 evs. destruct (decide (sid = sm_id m')) as [->|Hne].
    + unfold G_accept. rewrite lookup_insert_eq. intros [= <- <-].
      split; [apply (as_u64 _ _ _ _ _ _ _ _ _ _ _ _ Has)|]. split; [done|]. split; [|split].
      * apply Forall_app. split; [|by apply Forall_singleton; unfold ts_ok; rewrite Hgap, Hlat].
        unfold joined. apply Forall_join, Forall_fmap, Forall_forall. intros m Hm. simpl.
        pose proof (ov_live (sm_id m) ltac:(by apply list_elem_of_fmap_2)) as HG.
        destruct (iv_live _ _ _ Hi _ _ _ HG) as (_ & _ & Hall & _). unfold ts_ok. by rewrite Hgap, Hlat.
      * rewrite Hacc, decide_True; [done..|]. apply (as_u64 _ _ _ _ _ _ _ _ _ _ _ _ Has).
      * exists m2. rewrite Hidx, decide_True by done. split; [set_solver|done].
    + unfold G_accept. rewrite lookup_insert_ne, lookup_foldr_delete by done.
      destruct (decide (sid ∈ sm_id <$> ov)) as [|Hn]; [done|]. intros HG.
      destruct (iv_live _ _ _ Hi _ _ _ HG) as (Hu & Hk0 & Hall & Ha & m & Hm & Hmid).
      split; [done|]. split; [done|]. split; [unfold ts_ok; by rewrite Hgap, Hlat|]. split.
      * rewrite Hacc, decide_False by done.
        destruct (as_store _ _ _ _ _ _ _ _ _ _ _ _ Has) as (_ & _ & Hst). rewrite Hst by done.
        rewrite decide_False; [done|]. intros Hin. by apply Hn, tail_subset.
      * exists m. split; [|done]. rewrite Hidx by done. destruct (decide (kh0 = kh)) as [->|]; [|done].
        rewrite (as_index _ _ _ _ _ _ _ _ _ _ _ _ Has) in Hm.
        assert (m ∉ ov) by (intros Hmo; apply Hn; rewrite <- Hmid; by apply list_elem_of_fmap_2). set_solver.
  - intros sid Hu HG. assert (Hne : sid ≠ sm_id m') by (intros ->; unfold G_accept in HG; by rewrite lookup_insert_eq in HG).
    unfold G_accept in HG. rewrite lookup_insert_ne, lookup_foldr_delete in HG by done.
    rewrite Hacc, decide_False by done.
    destruct (as_store _ _ _ _ _ _ _ _ _ _ _ _ Has) as (_ & _ & Hst). rewrite Hst by done.
    destruct (decide (sid ∈ tail (sm_id <$> ov))) as [|Hnt]; [done|].
    destruct (decide (sid ∈ sm_id <$> ov)) as [Hin|]; [by destruct (ov_head _ Hin)|]. by apply (iv_dead _ _ _ Hi).
  - intros sid HG. assert (Hne : sid ≠ sm_id m') by (intros ->; unfold G_accept in HG; by rewrite lookup_insert_eq in HG).
    unfold G_accept in HG. rewrite lookup_insert_ne, lookup_foldr_delete in HG by done.
    rewrite Hpend, lookup_insert_ne by done. rewrite (as_pending _ _ _ _ _ _ _ _ _ _ _ _ Has).
    destruct (decide (sid ∈ tail (sm_id <$> ov))) as [|Hnt]; [done|].
    destruct (decide (sid ∈ sm_id <$> ov)) as [Hin|]; [by destruct (ov_head _ Hin)|]. by apply (iv_pending _ _ _ Hi).
  - intros sid HG. rewrite Hcnt, Hop.
    assert (Hcc : so_session_id_counter op <= c').
    { destruct (as_id _ _ _ _ _ _ _ _ _ _ _ _ Has) as [[_ Hc']|(_ & _ & Hc' & _)]; lia. }
    destruct (decide (sid = sm_id m')) as [->|Hne].
    + destruct (as_id _ _ _ _ _ _ _ _ _ _ _ _ Has) as [[Hh Hc']|(_ & _ & Hc' & He)];
        [|eexists; split; [|done]; lia]. rewrite Hc'.
      destruct sid_cases as [Hin|Hnone].
      * by apply (iv_ids _ _ _ Hi); rewrite (ov_live _ Hin).
      * destruct (sm_id <$> ov) as [|y l] eqn:Hov; [done|]. injection Hh as Hh.
        pose proof (ov_live y) as Hy. rewrite Hov, Hh in Hy. rewrite Hy in Hnone by left. done.
    + unfold G_accept in HG. rewrite lookup_insert_ne, lookup_foldr_delete in HG by done.
      destruct (decide (sid ∈ sm_id <$> ov)) as [|Hnin]; [by destruct HG|].
      destruct (iv_ids _ _ _ Hi _ HG) as (n & Hn & ->). exists n. split; [lia|done].
Qed.
End Accept.

(** Strategies that emit a session only when it closes. *)
Definition closes_only (op : Op) : Prop := so_emit_strategy op ≠ OnUpdate ∧ so_emit_strategy op ≠ Changelog.

Lemma sess_inv_cache op s G c : sess_inv op s G → cache_ok (so_set_cache c op) s →
  sess_inv (so_set_cache c op) s G.
Proof. intros [] Hc. by split. Qed.

Lemma emit_session_spec (op : Op) (ctx : Ctx) before m after acc : sm_id m ∉ sm_id <$> before →
  ∃ m2 out, emit_session make_batch op ctx m acc (before ++ m :: after) = (before ++ m2 :: after, out) ∧
    sm_id m2 = sm_id m ∧ sm_start m2 = sm_start m ∧ sm_end m2 = sm_end m ∧ (closes_only op → out = []).
Proof.
  intros Hn. unfold emit_session, closes_only.
  destruct (so_emit_strategy op); rewrite ?index_alter_mid by done; eexists _, _; (split; [done|]);
    repeat split; try done; intros [? ?]; done.
Qed.

Lemma accept_event_spec op (ctx : Ctx) G event pool :
  config_ok op → sess_inv op (cx_state ctx) G → ts_ok op (ev_timestamp event) →
  0 <= so_session_id_counter op < u64_MOD - 1 → pool_ok op (timers (cx_timers ctx) ++ pool) →
  ∃ op' ctx' out G', accept_event make_batch int64_at string_at fx_hash event op ctx = (op', ctx', out) ∧
    sess_inv op' (cx_state ctx') G' ∧ same_config op op' ∧
    open_events G' ≡ₚ (fx_hash (extract_key int64_at string_at op event),
                       (ev_timestamp event, extract_batch (so_aggregator op) event)) :: open_events G ∧
    pool_ok op' (timers (cx_timers ctx') ++ pool) ∧
    cx_watermark_generator ctx' = cx_watermark_generator ctx ∧
    so_session_id_counter op <= so_session_id_counter op' <= so_session_id_counter op + 1 ∧
    (∀ sid k evs, G' !! sid = Some (k, evs) → G !! sid = Some (k, evs) ∨
       (ev_timestamp event, extract_batch (so_aggregator op) event) ∈ evs) ∧
    (closes_only op → out = []).
Proof.
  intros Hconf Hi Hts Hcnt Hpool. unfold accept_event, key_hash.
  set (kh := fx_hash (extract_key int64_at string_at op event)). set (ts := ev_timestamp event).
  set (v := extract_batch (so_aggregator op) event).
  assert (Hkh : is_u64 kh) by apply fx_hash_u64.
  destruct (load_session_index_spec op (cx_state ctx) kh (iv_cache _ _ _ Hi) Hkh) as (c & -> & Hc).
  assert (Hi1 := sess_inv_cache op _ _ _ Hi Hc). set (op1 := so_set_cache c op) in *.
  destruct (assign_session_spec op1 ctx G kh ts) as (before & ov & after & m' & p' & c' & s1 & out & -> & Has & Hout);
    [done..|].
  set (op2 := so_set_counter c' (so_set_pending p' op1)). cbn [cx_state cx_set_state].
  rewrite load_accumulator_at, (as_acc _ _ _ _ _ _ _ _ _ _ _ _ Has).
  set (acc := foldl acc_add _ _).
  assert (Hacc : acc = acc_of (group_values (joined G ov ++ [(ts, v)]))).
  { subst acc. rewrite group_values_app. unfold acc_of. rewrite foldl_app. unfold group_values. simpl. by rewrite app_nil_r. }
  destruct (as_store _ _ _ _ _ _ _ _ _ _ _ _ Has) as (Hs1 & Hx1 & Ha1).
  pose proof (as_u64 _ _ _ _ _ _ _ _ _ _ _ _ Has) as Hu.
  destruct (put_acc_step s1 (sm_id m') acc Hs1 Hu) as (Hs2 & Hx2 & Ha2).
  set (s2 := (store_accumulator (sm_id m') acc s1).1) in *.
  assert (Hnb : sm_id m' ∉ sm_id <$> before).
  { intros (x & Hx & Hxb)%list_elem_of_fmap.
    destruct (others_stay op1 (cx_state ctx) G kh ts before ov after m' p' c' s1 Hconf Hi1 Hkh Hts Has x kh); try done.
    - rewrite (as_index _ _ _ _ _ _ _ _ _ _ _ _ Has). set_solver.
    - intros _. eapply (kept_not_ov op1 (cx_state ctx) G kh ts before ov after m' p' c' s1 Hconf Hi1 Hkh Hts Has). set_solver. }
  rewrite index_get_mid by done.
  destruct (register_timer_spec op2 (cx_set_state s2 (cx_set_state s1 ctx)) (sm_id m') kh m' pool)
    as (p2 & T' & -> & Hp2 & Hpool2).
  { eapply (session_end_ok op1); [done|apply (as_ok _ _ _ _ _ _ _ _ _ _ _ _ Has v)|].
    apply Forall_app. split; [|by apply Forall_singleton].
    unfold joined. apply Forall_join, Forall_fmap, Forall_forall. intros m Hm. simpl.
    pose proof (ov_live op1 _ G kh ts before ov after m' p' c' s1 Hconf Hi1 Hkh Hts Has (sm_id m)
      ltac:(by apply list_elem_of_fmap_2)) as HG.
    by destruct (iv_live _ _ _ Hi1 _ _ _ HG) as (_ & _ & Hall & _). }
  { intros t kh'. unfold op2. cbn [so_pending_timers so_set_counter so_set_pending].
    rewrite (as_pending _ _ _ _ _ _ _ _ _ _ _ _ Has). case_decide; [done|]. intros Hp.
    destruct (G !! sm_id m') as [[kh0 evs]|] eqn:HG; [|by rewrite (iv_pending _ _ _ Hi1) in Hp].
    destruct (sid_cases op1 _ G kh ts before ov after m' p' c' s1 Has) as [Hin|Hnone]; [|congruence].
    apply list_elem_of_fmap in Hin as (m & Heq & Hm).
    destruct (iv_index _ _ _ Hi1 kh m Hkh) as (evs' & _ & _ & Hpm).
    { rewrite (as_index _ _ _ _ _ _ _ _ _ _ _ _ Has). set_solver. }
    rewrite <- Heq, Hp in Hpm. by injection Hpm. }
  destruct (emit_session_spec (so_set_pending p2 op2) (cx_set_timers T' (cx_set_state s2 (cx_set_state s1 ctx)))
    before m' after acc Hnb) as (m2 & out2 & -> & Hid & Hst & Hen & Hout2).
  destruct (store_session_index_spec (so_set_pending p2 op2) s2 kh (before ++ m2 :: after) Hs2)
    as (c2 & s3 & r & Hstore & Hc2 & (Hs3 & Hx3 & Ha3)); [|done|].
  { intros x i Hx. destruct (Hc x i Hx) as [Hux <-]. split; [done|]. rewrite Hx2, Hx1 by done. done. }
  cbn [cx_state cx_set_timers cx_set_state]. rewrite Hstore.
  set (opf := so_set_cache c2 (so_set_pending p2 op2)).
  set (ctxf := cx_set_state s3 (cx_set_timers T' (cx_set_state s2 (cx_set_state s1 ctx)))).
  exists opf, ctxf, (out ++ out2), (G_accept G kh ts v ov m').
  split; [done|]. split; [|split; [done|split; [|split; [|split; [done|split; [|split]]]]]].
  - eapply (sess_inv_accept op1 (cx_state ctx) G kh ts v before ov after m' m2 p' c' s1 s3); try done.
    + intros x Hx. rewrite Hx3 by done. destruct (decide (x = kh)); [done|]. simpl.
      rewrite Hx2, Hx1 by done. done.
    + intros x Hx. rewrite Ha3, Ha2 by done. simpl. rewrite Hacc. by destruct (decide (x = sm_id m')).
    + simpl. lia.
  - unfold G_accept. rewrite open_events_insert.
    + unfold tagged. rewrite fmap_app. rewrite (open_events_joined G kh ov).
      * unfold tagged. simpl. rewrite <- app_assoc. simpl. by rewrite <- Permutation_middle.
      * pose proof (index_ids_nodup op1 _ _ _ Hconf Hi1 Hkh) as Hnd.
        rewrite (as_index _ _ _ _ _ _ _ _ _ _ _ _ Has), !fmap_app, !NoDup_app in Hnd. tauto.
      * rewrite Forall_forall. intros m Hm. eapply (ov_live op1); [done..|]. by apply list_elem_of_fmap_2.
    + rewrite lookup_foldr_delete. case_decide; [done|].
      destruct (sid_cases op1 _ G kh ts before ov after m' p' c' s1 Has) as [Hin|Hnone]; done.
  - intros sid t kh0 Hp. refine (Hpool2 _ sid t kh0 Hp).
    intros sid0 t0 kh1 Hp0. apply (Hpool sid0 t0 kh1). revert Hp0. simpl.
    rewrite (as_pending _ _ _ _ _ _ _ _ _ _ _ _ Has). by case_decide.
  - simpl. destruct (as_id _ _ _ _ _ _ _ _ _ _ _ _ Has) as [[_ ->]|(_ & _ & -> & _)]; simpl; lia.
  - intros sid k evs. unfold G_accept. destruct (decide (sid = sm_id m')) as [->|Hne].
    + rewrite lookup_insert_eq. intros [= _ <-]. right. apply elem_of_app. right. left.
    + rewrite lookup_insert_ne, lookup_foldr_delete by done. case_decide; [done|]. by left.
  - intros Hco. rewrite Hout, Hout2; [done|done|]. by destruct Hco.
Qed.

(** ** Late events *)

Lemma sess_inv_metrics op s G l c : sess_inv op s G → sess_inv (so_set_metrics l c op) s G.
Proof. intros []. by split. Qed.

(** A late event changes nothing but the counters, and is not a row. *)
Lemma process_late_spec (event : Event B) (op : Op) : ∃ l c out,
  SessionOp_process_late event op = (so_set_metrics l c op, out) ∧ rows out = [].
Proof.
  unfold SessionOp_process_late. destruct (EmitStrategy_drops_late_data _); [by eexists _, _, _|].
  destruct (ld_side_output _); by eexists _, _, _.
Qed.

(** ** Closing a session *)

(** What the closing of a session with the events [evs] emits. *)
Definition closing_row (strategy : EmitStrategy) (pt : Z) (m : SessionMetadata) (evs : group)
    : list (Output B) :=
  match create_output make_batch m (acc_of (group_values evs)) with
  | None => []
  | Some event =>
      match strategy with
      | Changelog => [OutChangelog (ChangelogRecord_insert event pt)]
      | _ => [OutEvent event]
      end
  end.

Lemma sess_inv_close op s G kh m evs before after opf s' :
  config_ok op → sess_inv op s G → is_u64 kh → index_of s kh = before ++ m :: after →
  G !! sm_id m = Some (kh, evs) →
  sok s' → cache_ok opf s' → same_config op opf →
  so_session_id_counter opf = so_session_id_counter op →
  so_pending_timers opf = delete (sm_id m) (so_pending_timers op) →
  (∀ x, is_u64 x → index_of s' x = if decide (x = kh) then before ++ after else index_of s x) →
  (∀ x, is_u64 x → acc_at s' x = if decide (x = sm_id m) then acc_of [] else acc_at s x) →
  sess_inv opf s' (delete (sm_id m) G).
Proof.
  intros Hconf Hi Hkh Hidx HG Hs Hc (Hgap & _ & Hlat & _ & Hop & _) Hcnt Hpend Hix Hac.
  pose proof (index_ids_nodup op s G kh Hconf Hi Hkh) as Hnd. rewrite Hidx in Hnd.
  assert (Hother : ∀ x k, is_u64 k → x ∈ index_of s' k → x ∈ index_of s k ∧ sm_id x ≠ sm_id m).
  { intros x k Hk Hx. rewrite Hix in Hx by done. destruct (decide (k = kh)) as [->|Hne].
    - rewrite Hidx. split; [set_solver|]. rewrite fmap_app, fmap_cons, <- Permutation_middle in Hnd.
      apply NoDup_cons in Hnd as [Hn _]. rewrite <- fmap_app in Hn. intros Heq. apply Hn.
      rewrite <- Heq. by apply list_elem_of_fmap_2.
    - split; [done|]. intros Heq. destruct (iv_index _ _ _ Hi k x Hk Hx) as (e & He & _). congruence. }
  split; try done.
  - intros k Hk. rewrite Hix by done. destruct (decide (k = kh)) as [->|]; [|by apply (iv_sorted _ _ _ Hi)].
    pose proof (iv_sorted _ _ _ Hi kh Hkh) as [Hss Hp]. rewrite Hidx in Hss, Hp. split.
    + apply StronglySorted_app in Hss as (H1 & H2 & H3). apply StronglySorted_cons in H3 as [_ H3].
      apply StronglySorted_app. split; [|done]. intros a b Ha Hb. apply H1; [done|by right].
    + rewrite Forall_app, Forall_cons in Hp. apply Forall_app. tauto.
  - intros k x Hk Hx. destruct (Hother x k Hk Hx) as [Hx' Hne].
    destruct (iv_index _ _ _ Hi k x Hk Hx') as (e & He & Hok & Hp). exists e.
    rewrite lookup_delete_ne, Hgap, Hlat, Hpend, lookup_delete_ne by done. done.
  - intros sid k e. rewrite lookup_delete_Some. intros [Hne HGs].
    destruct (iv_live _ _ _ Hi sid k e HGs) as (Hu & Hk & Hall & Ha & x & Hx & Hxid).
    split; [done|]. split; [done|]. split; [unfold ts_ok; by rewrite Hgap, Hlat|].
    split; [by rewrite Hac, decide_False by done|]. exists x. split; [|done]. rewrite Hix by done.
    destruct (decide (k = kh)) as [->|]; [|done]. rewrite Hidx in Hx. set_solver.
  - intros sid Hu HGs. rewrite Hac by done. destruct (decide (sid = sm_id m)) as [->|Hne]; [done|].
    apply (iv_dead _ _ _ Hi); [done|]. by rewrite lookup_delete_ne in HGs.
  - intros sid HGs. rewrite Hpend. destruct (decide (sid = sm_id m)) as [->|Hne]; [apply lookup_delete_eq|].
    rewrite lookup_delete_ne in HGs by done. rewrite lookup_delete_ne by done. by apply (iv_pending _ _ _ Hi).
  - intros sid HGs. rewrite Hcnt, Hop. apply (iv_ids _ _ _ Hi). rewrite lookup_delete_is_Some in HGs. by destruct HGs.
Qed.

(** A timer that is not the pending timer of a session is ignored; the pending timer
    of a session closes it. *)
Definition stale (op : Op) (timer : Timer) : Prop :=
  ∀ sid kh, so_pending_timers op !! sid = Some (tm_timestamp timer, kh) → tm_key timer ≠ timer_key sid.

Lemma pending_live op s G sid t kh : sess_inv op s G → so_pending_timers op !! sid = Some (t, kh) →
  is_u64 sid ∧ is_u64 kh ∧ ∃ m evs, G !! sid = Some (kh, evs) ∧ m ∈ index_of s kh ∧ sm_id m = sid ∧
    session_ok (so_gap_ms op) m evs ∧ t = sm_end m + so_allowed_lateness_ms op ∧
    acc_at s sid = acc_of (group_values evs).
Proof.
  intros Hi Hp. destruct (G !! sid) as [[k evs]|] eqn:HG; [|by rewrite (iv_pending _ _ _ Hi) in Hp].
  destruct (iv_live _ _ _ Hi _ _ _ HG) as (Hu & Hk & _ & Ha & m & Hm & Hid).
  destruct (iv_index _ _ _ Hi k m Hk Hm) as (e & HGe & Hok & Hpm). rewrite Hid in HGe, Hpm.
  rewrite HG in HGe. injection HGe as <-. rewrite Hp in Hpm. injection Hpm as -> ->.
  split; [done|]. split; [done|]. by exists m, evs.
Qed.

Lemma on_timer_spec op (ctx : Ctx) G timer : config_ok op → sess_inv op (cx_state ctx) G →
  (SessionOp_on_timer make_batch op timer ctx = (op, ctx, []) ∧ stale op timer) ∨
  ∃ sid kh m evs op' s',
    so_pending_timers op !! sid = Some (tm_timestamp timer, kh) ∧
    G !! sid = Some (kh, evs) ∧ session_ok (so_gap_ms op) m evs ∧
    tm_timestamp timer = sm_end m + so_allowed_lateness_ms op ∧
    (∀ x, is_u64 x → tm_key timer = timer_key x → x = sid) ∧
    SessionOp_on_timer make_batch op timer ctx =
      (op', cx_set_state s' ctx, closing_row (so_emit_strategy op) (cx_processing_time ctx) m evs) ∧
    sess_inv op' s' (delete sid G) ∧ same_config op op' ∧
    so_session_id_counter op' = so_session_id_counter op ∧
    so_pending_timers op' = delete sid (so_pending_timers op).
Proof.
  intros Hconf Hi. unfold SessionOp_on_timer.
  destruct (session_id_from_timer (tm_key timer)) as [sid|] eqn:Hsid.
  2:{ left. split; [done|]. intros x k Hp Hk. destruct (pending_live _ _ _ _ _ _ Hi Hp) as [Hu _].
      by rewrite Hk, timer_key_roundtrip in Hsid. }
  assert (Hkey : ∀ x, is_u64 x → tm_key timer = timer_key x → x = sid).
  { intros x Hx Hk. rewrite Hk, timer_key_roundtrip in Hsid by done. congruence. }
  assert (Hstale : ∀ x k, so_pending_timers op !! x = Some (tm_timestamp timer, k) →
    tm_key timer = timer_key x → so_pending_timers op !! sid = Some (tm_timestamp timer, k)).
  { intros x k Hp Hk. destruct (pending_live _ _ _ _ _ _ Hi Hp) as [Hu _].
    by rewrite <- (Hkey x Hu Hk). }
  destruct (so_pending_timers op !! sid) as [[t kh]|] eqn:Hp.
  2:{ left. split; [done|]. intros x k Hpx Hk. by specialize (Hstale x k Hpx Hk). }
  destruct (Z.eqb_spec t (tm_timestamp timer)) as [->|Hne]; simpl.
  2:{ left. split; [done|]. intros x k Hpx Hk. specialize (Hstale x k Hpx Hk). congruence. }
  right. destruct (pending_live _ _ _ _ _ _ Hi Hp) as (Hu & Hkh & m & evs & HG & Hm & Hid & Hok & Ht & Hacc).
  destruct (load_session_index_spec op (cx_state ctx) kh (iv_cache _ _ _ Hi) Hkh) as (c & -> & Hc).
  pose proof (index_ids_nodup op _ _ _ Hconf Hi Hkh) as Hnd.
  apply list_elem_of_split in Hm as (before & after & Hidx). rewrite Hidx in Hnd |- *.
  pose proof (not_before _ _ _ Hnd) as Hnb. rewrite <- Hid in *.
  rewrite index_get_mid by done. rewrite index_remove_mid by done.
  rewrite load_accumulator_at, Hacc. unfold closing_row.
  set (res := match create_output make_batch m _ with Some _ => _ | None => _ end).
  assert (Hres : ∃ l c1, res = (so_set_metrics l c1 (so_set_cache c op), closing_row (so_emit_strategy op) (cx_processing_time ctx) m evs)).
  { subst res. unfold closing_row. destruct (create_output _ _ _); [by eexists _, _|].
    eexists (so_late_data_metrics op), (so_window_close_metrics op). by destruct op. }
  destruct Hres as (l & c1 & ->). set (op1 := so_set_metrics l c1 (so_set_cache c op)).
  destruct (delete_acc_step (cx_state ctx) (sm_id m) (iv_store _ _ _ Hi) Hu) as (Hs1 & Hx1 & Ha1).
  set (s1 := (SessionOp_delete_accumulator (sm_id m) (cx_state ctx)).1) in *. cbn [cx_state cx_set_state].
  destruct (store_session_index_spec op1 s1 kh (before ++ after) Hs1)
    as (c2 & s2 & r & -> & Hc2 & (Hs2 & Hx2 & Ha2)); [|done|].
  { intros x i Hx. destruct (Hc x i Hx) as [Hux <-]. split; [done|]. by rewrite Hx1. }
  exists (sm_id m), kh, m, evs, (so_set_pending (delete (sm_id m) (so_pending_timers op)) (so_set_cache c2 op1)), s2.
  split_and!; try done.
  eapply (sess_inv_close op (cx_state ctx) G kh m evs before after); try done.
  - intros x Hx. rewrite Hx2 by done. destruct (decide (x = kh)); [done|]. simpl. by rewrite Hx1.
  - intros x Hx. rewrite Ha2 by done. simpl. rewrite Ha1 by done. by destruct (decide (x = sm_id m)).
Qed.

(** ** Firing timers *)

(** A closed session: its key, its final bounds and its events. *)
Abbreviation closed := (Z * (SessionMetadata * group))%type (only parsing).
Definition closed_events (cs : list closed) : list (Z * (Z * list I)) := cs ≫= λ c, tagged c.1 c.2.2.
Definition closed_row (strategy : EmitStrategy) (pt : Z) (c : closed) : list (Output B) :=
  closing_row strategy pt c.2.1 c.2.2.
Definition closed_ok (op : Op) (now : Z) (c : closed) : Prop :=
  session_ok (so_gap_ms op) c.2.1 c.2.2 ∧ sm_end c.2.1 + so_allowed_lateness_ms op <= now.

Lemma same_config_refl op : same_config op op.
Proof. done. Qed.
Lemma same_config_trans op op1 op2 : same_config op op1 → same_config op1 op2 → same_config op op2.
Proof. unfold same_config. intros (?&?&?&?&?&?&?&?) (?&?&?&?&?&?&?&?). repeat split; congruence. Qed.
Lemma config_ok_same op op1 : same_config op op1 → config_ok op → config_ok op1.
Proof. unfold config_ok. by intros (-> & _ & -> & _). Qed.
Lemma closed_ok_same op op1 now c : same_config op op1 → closed_ok op1 now c → closed_ok op now c.
Proof. unfold closed_ok. by intros (-> & _ & -> & _). Qed.

(** A fired registration is used up. *)
Lemma pool_drop op pool reg fired : pool_ok op (pool ++ reg :: fired) →
  stale op (mkFired (default [] (t_key reg)) (t_timestamp reg)) → pool_ok op (pool ++ fired).
Proof.
  intros Hp Hst sid t kh Hs. destruct (Hp sid t kh Hs) as (r & Hr & Hk & Ht).
  exists r. split; [|done]. assert (Hr' : r = reg ∨ r ∈ pool ++ fired) by set_solver.
  destruct Hr' as [->|]; [|done]. exfalso. subst t. apply (Hst sid kh Hs). simpl. by rewrite Hk.
Qed.

Lemma fire_loop_spec now fired : ∀ op (ctx : Ctx) G,
  config_ok op → sess_inv op (cx_state ctx) G → pool_ok op (timers (cx_timers ctx) ++ fired) →
  Forall (λ r, t_timestamp r <= now) fired →
  ∃ op' ctx' cs G',
    SessionOp_fire_loop make_batch op ctx now fired = (op', ctx', cs ≫= closed_row (so_emit_strategy op) now) ∧
    sess_inv op' (cx_state ctx') G' ∧ same_config op op' ∧
    so_session_id_counter op' = so_session_id_counter op ∧
    cx_timers ctx' = cx_timers ctx ∧ cx_watermark_generator ctx' = cx_watermark_generator ctx ∧
    pool_ok op' (timers (cx_timers ctx)) ∧
    open_events G ≡ₚ closed_events cs ++ open_events G' ∧ Forall (closed_ok op now) cs ∧ G' ⊆ G.
Proof.
  induction fired as [|reg fired IH]; intros op ctx G Hconf Hi Hpool Hle; cbn [SessionOp_fire_loop].
  { exists op, ctx, [], G. rewrite app_nil_r in Hpool. split_and!; done. }
  apply Forall_cons in Hle as [Hle Hall].
  set (timer := mkFired _ _). set (ctx1 := mkCtx _ _ _ _ _ _).
  destruct (on_timer_spec op ctx1 G timer Hconf Hi)
    as [[-> Hst]|(sid & kh & m & evs & op1 & s1 & Hp & HG & Hok & Ht & Hkey & -> & Hi1 & Hsame & Hcnt & Hpend)].
  - destruct (IH op ctx1 G Hconf Hi) as (op' & ctx' & cs & G' & -> & ?); [|done|].
    + by eapply pool_drop.
    + by exists op', ctx', cs, G'.
  - destruct (IH op1 (cx_set_state s1 ctx1) (delete sid G))
      as (op' & ctx' & cs & G' & -> & Hi2 & Hsame2 & Hcnt2 & Htm & Hgen & Hpool2 & Hperm & Hcs & Hsub); try done.
    + by eapply config_ok_same.
    + apply (pool_drop _ _ reg).
      * intros x t k. rewrite Hpend, lookup_delete_Some. intros [_ Hx]. by apply (Hpool x t k).
      * intros x k. rewrite Hpend, lookup_delete_Some. intros [Hne Hx] Hk. apply Hne. symmetry.
        apply Hkey; [|done]. by apply (pending_live _ _ _ _ _ _ Hi Hx).
    + exists op', ctx', ((kh, (m, evs)) :: cs), G'. destruct Hsame as (Hgap & Hag & Hlat & Hem & Hrest).
      split_and!; try done.
      * rewrite Hem. done.
      * eapply same_config_trans; [|done]. done.
      * congruence.
      * rewrite (open_events_delete G sid kh evs HG), Hperm. unfold closed_events. simpl. by rewrite app_assoc.
      * constructor; [|eapply Forall_impl; [done|]; intros x; by apply closed_ok_same].
        split; [done|]. simpl. unfold timer in Ht. simpl in Ht. lia.
      * etrans; [done|]. apply delete_subseteq.
Qed.

(** ** A node *)

Context {ginv : Gen → Prop} `{!GeneratorLaws Gen ginv}.
Context (advance_reaches : ∀ c g ts, ginv g → ts <= current_watermark (advance_watermark c g ts).1).

(** No open session is overdue: its end plus lateness is past every watermark [W]
    that was processed. *)
Definition none_due (op : Op) (G : gmap Z (Z * group)) (W : Z) : Prop :=
  ∀ sid kh evs m, G !! sid = Some (kh, evs) → session_ok (so_gap_ms op) m evs →
    W < sm_end m + so_allowed_lateness_ms op.

Record sess_node (op : Op) (ctx : Ctx) (G : gmap Z (Z * group)) (W : Z) : Prop := {
  sn_inv : sess_inv op (cx_state ctx) G;
  sn_conf : config_ok op;
  sn_pool : pool_ok op (timers (cx_timers ctx));
  sn_rereg : so_needs_timer_reregistration op = false;
  sn_gen : ginv (cx_watermark_generator ctx);
  sn_wm : W <= current_watermark (cx_watermark_generator ctx);
  sn_due : none_due op G W }.

(** What is accepted of an event under a watermark: all of it, unless the session it
    would open alone is already due. *)
Definition accepted_event (op : Op) (e : Event B) (wm : Z) : list (Z * (Z * list I)) :=
  if ev_timestamp e + so_gap_ms op + so_allowed_lateness_ms op <=? wm then []
  else [(fx_hash (extract_key int64_at string_at op e), (ev_timestamp e, extract_batch (so_aggregator op) e))].

(** The lateness test of [process]. *)
Lemma late_test_session op ts wm : ts_ok op ts → config_ok op →
  (i64_MIN <? wm) && SessionOp_is_late op ts wm = (ts + so_gap_ms op + so_allowed_lateness_ms op <=? wm).
Proof.
  unfold ts_ok, config_ok, SessionOp_is_late. intros [H1 H2] [Hg Hl].
  rewrite !i64_add_exact by (rewrite ?i64_add_exact; unfold is_i64; lia).
  destruct (Z.leb_spec (ts + so_gap_ms op + so_allowed_lateness_ms op) wm); [|apply andb_false_r].
  apply andb_true_intro. split; [|done]. apply Z.ltb_lt. lia.
Qed.

(** Every open session is connected: its events' gap intervals make one interval;
    and the sessions of a key are apart. *)
Definition sessions_ok (gap : Z) (G : gmap Z (Z * group)) : Prop :=
  (∀ sid kh evs, G !! sid = Some (kh, evs) → ∃ m, session_ok gap m evs) ∧
  (∀ sid sid' kh evs evs' m m', sid ≠ sid' →
     G !! sid = Some (kh, evs) → G !! sid' = Some (kh, evs') →
     session_ok gap m evs → session_ok gap m' evs' →
     sm_end m <= sm_start m' ∨ sm_end m' <= sm_start m).

Lemma sorted_apart {X} (R : X → X → Prop) (l : list X) a b :
  StronglySorted R l → a ∈ l → b ∈ l → a ≠ b → R a b ∨ R b a.
Proof.
  induction 1 as [|x l _ IH Hall]; [by intros ?%elem_of_nil|]. rewrite Forall_forall in Hall.
  rewrite !elem_of_cons. intros [->|Ha] [->|Hb] Hne; try done; eauto.
Qed.

Lemma sess_inv_sessions op s G : config_ok op → sess_inv op s G → sessions_ok (so_gap_ms op) G.
Proof.
  intros [Hgp _] Hi.
  assert (Hm : ∀ sid kh evs, G !! sid = Some (kh, evs) →
    ∃ m, is_u64 kh ∧ m ∈ index_of s kh ∧ sm_id m = sid ∧ session_ok (so_gap_ms op) m evs).
  { intros sid kh evs HG. destruct (iv_live _ _ _ Hi _ _ _ HG) as (_ & Hk & _ & _ & m & Hm & Hid).
    destruct (iv_index _ _ _ Hi kh m Hk Hm) as (e & HGe & Hok & _). rewrite Hid, HG in HGe.
    injection HGe as <-. by exists m. }
  split; [intros sid kh evs HG; destruct (Hm _ _ _ HG) as (m & _ & _ & _ & Hok); by exists m|].
  intros sid sid' kh evs evs' m m' Hne HG HG' Hok Hok'.
  destruct (Hm _ _ _ HG) as (a & Hk & Ha & Hia & Hoa). destruct (Hm _ _ _ HG') as (b & _ & Hb & Hib & Hob).
  destruct (session_ok_bounds _ _ _ _ Hgp Hok Hoa) as [-> ->].
  destruct (session_ok_bounds _ _ _ _ Hgp Hok' Hob) as [-> ->].
  destruct (iv_sorted _ _ _ Hi kh Hk) as [Hs _].
  apply (sorted_apart _ _ a b Hs Ha Hb). intros ->. congruence.
Qed.

Lemma session_process_spec clk op (ctx : Ctx) G W event :
  sess_node op ctx G W → ts_ok op (ev_timestamp event) →
  0 <= so_session_id_counter op < u64_MOD - 1 →
  let gen' := (on_event clk (cx_watermark_generator ctx) (ev_timestamp event)).1 in
  ∃ op' ctx' out G',
    SessionOp_process make_batch int64_at string_at fx_hash titer clk op event ctx = (op', ctx', out) ∧
    sess_node op' ctx' G' W ∧ same_config op op' ∧
    cx_watermark_generator ctx' = gen' ∧
    open_events G' ≡ₚ accepted_event op event (current_watermark gen') ++ open_events G ∧
    so_session_id_counter op <= so_session_id_counter op' <= so_session_id_counter op + 1 ∧
    (closes_only op → rows out = []).
Proof.
  intros [Hi Hconf Hpool Hre Hg HW Hdue] Hts Hcnt gen'. unfold SessionOp_process, reregister_timers.
  rewrite Hre. set (ts := ev_timestamp event) in *.
  assert (Hg' : ginv gen') by (by apply law_event_inv).
  assert (HW' : W <= current_watermark gen') by (etrans; [done|]; by apply on_event_mono).
  destruct (on_event clk (cx_watermark_generator ctx) ts) as [gen1 emitted]. cbn [fst] in gen'. subst gen'.
  unfold accepted_event. fold ts. cbn [cx_set_gen cx_watermark_generator].
  rewrite (late_test_session op ts (current_watermark gen1) Hts Hconf).
  destruct (Z.leb_spec (ts + so_gap_ms op + so_allowed_lateness_ms op) (current_watermark gen1)) as [Hlate|Hnl].
  - destruct (process_late_spec event op) as (l & c & out & -> & Hout).
    exists (so_set_metrics l c op), (cx_set_gen gen1 ctx), out, G. split_and!; try done; [|simpl; lia..].
    split; try done. by apply sess_inv_metrics.
  - destruct (accept_event_spec op (cx_set_gen gen1 ctx) G event [] Hconf Hi Hts Hcnt)
      as (op' & ctx' & out & G' & -> & Hi' & Hsame & Hperm & Hpool' & Hgen' & Hc' & HG' & Hout).
    { by rewrite app_nil_r. }
    rewrite app_nil_r in Hpool'. eexists op', ctx', _, G'. split; [done|].
    pose proof Hsame as (Hgap & _ & Hlat & _ & _ & _ & _ & Hre').
    split; [|split_and!; try done; try (simpl; lia)].
    + split; rewrite ?Hgen'; try done; [by eapply config_ok_same|congruence|].
      intros sid kh evs m HGs Hok. rewrite Hgap in Hok. rewrite Hlat.
      destruct (HG' _ _ _ HGs) as [Hold|Hin]; [by eapply Hdue|].
      destruct Hconf as [Hgp _]. destruct (session_ok_start _ Hgp _ _ _ Hok Hin) as [_ He]. simpl in He.
      fold ts in He. lia.
    + intros Hco. unfold rows. rewrite filter_app, (Hout Hco). by destruct emitted.
Qed.

Lemma node_watermark_spec clk op (ctx : Ctx) G W ts :
  sess_node op ctx G W →
  let gen' := (advance_watermark clk (cx_watermark_generator ctx) ts).1 in
  ∃ op' ctx' cs G',
    SessionOp_node_watermark make_batch clk op ctx ts =
      Some (op', ctx', cs ≫= closed_row (so_emit_strategy op) ts) ∧
    sess_node op' ctx' G' (Z.max W ts) ∧ same_config op op' ∧
    so_session_id_counter op' = so_session_id_counter op ∧ cx_watermark_generator ctx' = gen' ∧
    open_events G ≡ₚ closed_events cs ++ open_events G' ∧ Forall (closed_ok op ts) cs ∧ G' ⊆ G.
Proof.
  intros [Hi Hconf Hpool Hre Hg HW Hdue] gen'. unfold SessionOp_node_watermark, TimerService_poll_timers.
  destruct (poll_loop_total (Datatypes.S (length (timers (cx_timers ctx)))) (timers (cx_timers ctx)) [] ts)
    as (rest & fired & -> & Hperm & Hle & Hrest & _); [lia|]. cbn [mbind option_bind app].
  fold gen'. set (ctx1 := cx_set_timers _ _).
  destruct (fire_loop_spec ts fired op ctx1 G Hconf Hi) as
    (op' & ctx' & cs & G' & -> & Hi' & Hsame & Hcnt & Htm & Hgen & Hpool' & Hopen & Hcs & Hsub); [|done|].
  { intros sid t kh Hp. destruct (Hpool sid t kh Hp) as (reg & Hr & ?). exists reg. split; [|done].
    simpl. rewrite <- Hperm in Hr. set_solver. }
  exists op', ctx', cs, G'. pose proof Hsame as (Hgap & _ & Hlat & _ & _ & _ & _ & Hre').
  split; [done|]. split; [|by split_and!].
  split; rewrite ?Htm, ?Hgen; try done; [by eapply config_ok_same|congruence|by apply law_advance_inv| |].
  - simpl. unfold gen'. pose proof (advance_reaches clk (cx_watermark_generator ctx) ts Hg).
    pose proof (advance_mono clk (cx_watermark_generator ctx) ts Hg). lia.
  - intros sid kh evs m HGs Hok. rewrite Hlat. rewrite Hgap in Hok.
    pose proof (Hdue sid kh evs m (lookup_weaken _ _ _ _ HGs Hsub) Hok).
    destruct (iv_live _ _ _ Hi' _ _ _ HGs) as (Hu & Hk & _ & _ & m1 & Hm1 & <-).
    destruct (iv_index _ _ _ Hi' kh m1 Hk Hm1) as (e1 & He1 & Hok1 & Hp1). rewrite HGs in He1.
    injection He1 as <-. rewrite Hgap in Hok1. destruct Hconf as [Hgp _].
    destruct (session_ok_bounds _ _ _ _ Hgp Hok Hok1) as [_ Hme].
    destruct (Hpool' _ _ _ Hp1) as (reg & Hreg & _ & Ht). simpl in Hreg.
    rewrite Forall_forall in Hrest. specialize (Hrest reg Hreg). simpl in Hrest. rewrite Hlat in Ht. lia.
Qed.

(** ** Runs *)

(** The events accepted over a run, with the hash of their keys. *)
Fixpoint session_accepted (op : Op) (gen : Gen) (ops : list (node_op (B:=B))) : list (Z * (Z * list I)) :=
  match ops with
  | [] => []
  | NEvent clk _ e :: rest =>
      let gen' := (on_event clk gen (ev_timestamp e)).1 in
      accepted_event op e (current_watermark gen') ++ session_accepted op gen' rest
  | NWatermark clk ts :: rest => session_accepted op (advance_watermark clk gen ts).1 rest
  end.

Definition session_op_ok (op : Op) (o : node_op (B:=B)) : Prop :=
  match o with NEvent _ _ e => ts_ok op (ev_timestamp e) | NWatermark _ _ => True end.

(** A session closed at a watermark. *)
Abbreviation closing := (Z * closed)%type (only parsing).
Definition closing_rows (strategy : EmitStrategy) (cs : list closing) : list (Output B) :=
  cs ≫= λ c, closed_row strategy c.1 c.2.

Lemma session_accepted_same op op1 gen ops : same_config op op1 →
  session_accepted op1 gen ops = session_accepted op gen ops.
Proof.
  intros (Hgap & Hag & Hlat & _ & _ & Hkey & _). revert gen.
  induction ops as [|[clk pt e|clk ts] ops IH]; intros gen; simpl; [done| |by rewrite IH].
  rewrite IH. f_equal. unfold accepted_event, extract_key. by rewrite Hgap, Hag, Hlat, Hkey.
Qed.
Lemma session_op_ok_same op op1 o : same_config op op1 → session_op_ok op o → session_op_ok op1 o.
Proof. destruct o; simpl; [|done]. unfold ts_ok. by intros (-> & _ & -> & _). Qed.

Lemma rows_closing strategy cs : rows (closing_rows strategy cs) = closing_rows strategy cs.
Proof.
  apply filter_all, Forall_forall. unfold closing_rows. intros o (c & Ho & _)%list_elem_of_bind.
  unfold closed_row, closing_row in Ho. revert Ho. destruct (create_output _ _ _); [|by intros ?%elem_of_nil].
  destruct strategy; intros ->%list_elem_of_singleton; done.
Qed.

Lemma closes_only_same op op1 : same_config op op1 → closes_only op → closes_only op1.
Proof. unfold closes_only. by intros (_ & _ & _ & -> & _). Qed.

(** The reference of a run under the strategies that emit on close. An event that is
    accepted joins the open sessions, which stay connected and apart, and shows no
    row; a watermark closes some of the open sessions, all of them due by then, shows
    their final results and nothing else, and leaves no session that is due. *)
Fixpoint session_ref (op : Op) (gen : Gen) (G : gmap Z (Z * group)) (ops : list (node_op (B:=B)))
    (outs : list (list (Output B))) (cs : list closing) (G' : gmap Z (Z * group)) : Prop :=
  match ops, outs with
  | [], [] => cs = [] ∧ G' = G
  | NEvent clk _ e :: ops, out :: outs =>
      let gen1 := (on_event clk gen (ev_timestamp e)).1 in
      ∃ G1, rows out = [] ∧
        open_events G1 ≡ₚ accepted_event op e (current_watermark gen1) ++ open_events G ∧
        sessions_ok (so_gap_ms op) G1 ∧ session_ref op gen1 G1 ops outs cs G'
  | NWatermark clk ts :: ops, out :: outs =>
      ∃ due rest G1, cs = (pair ts <$> due) ++ rest ∧
        out = due ≫= closed_row (so_emit_strategy op) ts ∧
        Forall (closed_ok op ts) due ∧ G1 ⊆ G ∧
        open_events G ≡ₚ closed_events due ++ open_events G1 ∧ none_due op G1 ts ∧
        session_ref op (advance_watermark clk gen ts).1 G1 ops outs rest G'
  | _, _ => False
  end.

Lemma session_ref_same op op1 ops G' : same_config op op1 → ∀ gen G outs cs,
  session_ref op1 gen G ops outs cs G' → session_ref op gen G ops outs cs G'.
Proof.
  intros (Hgap & Hag & Hlat & Hem & _ & Hkey & _).
  induction ops as [|[clk pt e|clk ts] ops IH]; intros gen G [|out outs] cs; cbn [session_ref]; [done..| |done|].
  - intros (G1 & H1 & H2 & H3 & H4). exists G1. split_and!; [done| |by rewrite <- Hgap|by apply IH].
    revert H2. unfold accepted_event, extract_key. by rewrite Hgap, Hag, Hlat, Hkey.
  - intros (due & rest & G1 & H1 & H2 & H3 & H4 & H5 & H6 & H7). exists due, rest, G1.
    unfold closed_ok, none_due in *. rewrite Hgap, Hlat in H3, H6. rewrite Hem in H2.
    split_and!; try done. by apply IH.
Qed.

Lemma closing_rows_at strategy ts (due : list closed) :
  closing_rows strategy (pair ts <$> due) = due ≫= closed_row strategy ts.
Proof. unfold closing_rows. induction due as [|c due IH]; [done|]. simpl. f_equal. apply IH. Qed.

Lemma session_ref_rows op ops G' : ∀ gen G outs cs,
  session_ref op gen G ops outs cs G' → rows (mjoin outs) = closing_rows (so_emit_strategy op) cs.
Proof.
  induction ops as [|[clk pt e|clk ts] ops IH]; intros gen G [|out outs] cs; cbn [session_ref];
    [by intros [-> _]|done|done| |done|].
  - intros (G1 & Hro & _ & _ & Hrun%IH). by rewrite join_cons, rows_app, Hro, Hrun.
  - intros (due & rest & G1 & -> & -> & _ & _ & _ & _ & Hrun%IH).
    rewrite join_cons, rows_app, Hrun, <- closing_rows_at, rows_closing. unfold closing_rows.
    by rewrite bind_app.
Qed.

(** The store holds the open sessions [G]: those of a key in order and disjoint, each
    with its exact bounds and the aggregate of its events. *)
Definition sessions_stored (op : Op) (s : S) (G : gmap Z (Z * group)) : Prop :=
  (∀ kh, is_u64 kh → index_sorted (index_of s kh) ∧
     ∀ m, m ∈ index_of s kh → ∃ evs, G !! sm_id m = Some (kh, evs)) ∧
  (∀ sid kh evs, G !! sid = Some (kh, evs) →
     acc_at s sid = acc_of (group_values evs) ∧
     ∃ m, m ∈ index_of s kh ∧ sm_id m = sid ∧ session_ok (so_gap_ms op) m evs).

Lemma sess_inv_stored op s G : sess_inv op s G → sessions_stored op s G.
Proof.
  intros Hi. split.
  - intros kh Hkh. split; [by apply (iv_sorted _ _ _ Hi)|]. intros m Hm.
    destruct (iv_index _ _ _ Hi kh m Hkh Hm) as (evs & HG & _). by exists evs.
  - intros sid kh evs HG. destruct (iv_live _ _ _ Hi _ _ _ HG) as (_ & Hk & _ & Ha & m & Hm & Hid).
    split; [done|]. exists m. destruct (iv_index _ _ _ Hi kh m Hk Hm) as (e & HGe & Hok & _).
    rewrite Hid, HG in HGe. by injection HGe as <-.
Qed.

Lemma sessions_stored_same op op1 s G : same_config op op1 →
  sessions_stored op1 s G → sessions_stored op s G.
Proof. unfold sessions_stored. by intros (-> & _). Qed.
Lemma none_due_same op op1 G W t : same_config op op1 → none_due op1 G W → t <= W → none_due op G t.
Proof.
  unfold none_due. intros (Hgap & _ & Hlat & _) Hd Ht sid kh evs m HG Hok.
  rewrite Hgap, Hlat in Hd. specialize (Hd sid kh evs m HG Hok). lia.
Qed.

Lemma session_run_spec ops : ∀ op (ctx : Ctx) G W,
  sess_node op ctx G W → Forall (session_op_ok op) ops →
  0 <= so_session_id_counter op → so_session_id_counter op + zlen ops < u64_MOD →
  ∃ op' ctx' outs cs G' W',
    session_run make_batch int64_at string_at fx_hash titer op ctx ops = Some (op', ctx', outs) ∧
    sess_node op' ctx' G' W' ∧ same_config op op' ∧
    W <= W' ∧ (∀ clk t, NWatermark clk t ∈ ops → t <= W') ∧
    session_accepted op (cx_watermark_generator ctx) ops ++ open_events G ≡ₚ
      closed_events cs.*2 ++ open_events G' ∧
    Forall (λ c, closed_ok op c.1 c.2) cs ∧
    (closes_only op → session_ref op (cx_watermark_generator ctx) G ops outs cs G') ∧
    so_session_id_counter op <= so_session_id_counter op' ∧
    so_session_id_counter op' <= so_session_id_counter op + zlen ops.
Proof.
  induction ops as [|o ops IH]; intros op ctx G W Hn Hops Hc0 Hc.
  { exists op, ctx, [], [], G, W. split_and!; try done; [by intros ? ? ?%not_elem_of_nil|simpl; lia]. }
  apply Forall_cons in Hops as [Ho Hops]. cbn [length] in Hc.
  destruct o as [clk pt e|clk ts]; cbn [session_run session_accepted].
  - set (ctx0 := mkCtx _ _ _ _ _ _).
    assert (Hn0 : sess_node op ctx0 G W) by (by destruct Hn).
    destruct (session_process_spec clk op ctx0 G W e Hn0 Ho ltac:(lia))
      as (op1 & ctx1 & out1 & G1 & -> & Hn1 & Hsame & Hgen & Hperm & Hcnt & Hout).
    destruct (IH op1 ctx1 G1 W Hn1) as (op' & ctx' & out & cs & G' & W' & -> & Hn' & Hsame' & HW & Hall & Hp & Hcs & Hrows & Hlo & Hhi).
    { eapply Forall_impl; [done|]. intros x. by apply session_op_ok_same. } { lia. } { lia. }
    pose proof Hsame as (_ & _ & _ & Hem & _). rewrite Hgen, (session_accepted_same op op1) in Hp by done.
    exists op', ctx', (out1 :: out), cs, G', W'. split_and!; try done; try (cbn [length]; lia).
    + by eapply same_config_trans.
    + intros c t [?|?]%elem_of_cons; [done|]. by eapply Hall.
    + rewrite <- Hp, Hperm. rewrite !app_assoc. f_equiv. apply Permutation_app_comm.
    + eapply Forall_impl; [done|]. intros c. by apply closed_ok_same.
    + intros Hco. cbn [session_ref]. exists G1. split_and!; [by apply Hout|done| |].
      * pose proof Hsame as (Hgap & _). rewrite <- Hgap. destruct Hn1 as [Hi1 Hcf1 _ _ _ _ _].
        by eapply sess_inv_sessions.
      * eapply session_ref_same; [exact Hsame|].
        change (cx_watermark_generator ctx) with (cx_watermark_generator ctx0). rewrite <- Hgen.
        apply Hrows. by eapply closes_only_same.
  - destruct (node_watermark_spec clk op ctx G W ts Hn)
      as (op1 & ctx1 & cs1 & G1 & -> & Hn1 & Hsame & Hcnt & Hgen & Hperm & Hcs1 & Hsub). cbn [mbind option_bind].
    destruct (IH op1 ctx1 G1 (Z.max W ts) Hn1) as (op' & ctx' & out & cs & G' & W' & -> & Hn' & Hsame' & HW & Hall & Hp & Hcs & Hrows & Hlo & Hhi).
    { eapply Forall_impl; [done|]. intros x. by apply session_op_ok_same. } { lia. } { lia. }
    pose proof Hsame as (_ & _ & _ & Hem & _). rewrite Hgen, (session_accepted_same op op1) in Hp by done.
    exists op', ctx', ((cs1 ≫= closed_row (so_emit_strategy op) ts) :: out), ((pair ts <$> cs1) ++ cs), G', W'.
    split_and!; try done; try (cbn [length]; lia).
    + by eapply same_config_trans.
    + intros c t [[= -> ->]|?]%elem_of_cons; [lia|]. by eapply Hall.
    + rewrite fmap_app, <- list_fmap_compose. unfold compose. simpl. rewrite list_fmap_id.
      unfold closed_events in *. rewrite bind_app, <- app_assoc, <- Hp, Hperm.
      rewrite !app_assoc. f_equiv. apply Permutation_app_comm.
    + apply Forall_app. split; [by apply Forall_fmap|].
      eapply Forall_impl; [done|]. intros c. by apply closed_ok_same.
    + intros Hco. cbn [session_ref]. exists cs1, cs, G1. split_and!; try done.
      * pose proof Hsame as (Hgap & _ & Hlat & _). destruct Hn1 as [_ _ _ _ _ _ Hd1].
        intros sid kh evs m HG Hok. rewrite <- Hlat. rewrite <- Hgap in Hok.
        specialize (Hd1 sid kh evs m HG Hok). lia.
      * eapply session_ref_same; [exact Hsame|]. rewrite <- Hgen. apply Hrows. by eapply closes_only_same.
Qed.

Definition fresh_session_node (op : Op) (ctx : Ctx) : Prop :=
  so_session_id_counter op = 0 ∧ so_session_indices op = ∅ ∧ so_pending_timers op = ∅ ∧
  so_needs_timer_reregistration op = false ∧ timers (cx_timers ctx) = [] ∧
  sok (cx_state ctx) ∧ sabs (cx_state ctx) = ∅ ∧ ginv (cx_watermark_generator ctx).

Lemma fresh_session_inv op ctx : fresh_session_node op ctx → config_ok op →
  sess_node op ctx ∅ (current_watermark (cx_watermark_generator ctx)).
Proof.
  intros (Hcnt & Hca & Hp & Hre & Ht & Hs & Habs & Hg) Hconf.
  assert (Hidx : ∀ kh, index_of (cx_state ctx) kh = []).
  { intros kh. rewrite (index_of_abs (sok:=sok) (sabs:=sabs)), Habs by done. by rewrite lookup_empty. }
  split; try done.
  - split; try done.
    + intros kh i. by rewrite Hca, lookup_empty.
    + intros kh _. rewrite Hidx. split; constructor.
    + intros kh m _. rewrite Hidx. by intros ?%elem_of_nil.
    + intros sid _ _. by rewrite (acc_at_abs (sok:=sok) (sabs:=sabs)), Habs, lookup_empty.
    + intros sid _. by rewrite Hp.
    + intros sid [? Hx]. by rewrite lookup_empty in Hx.
  - intros sid t kh. by rewrite Hp, lookup_empty.
Qed.

(** ** Recovery *)

Context `{!Archive (list (Z * Z * Z) * Z)} `{!ArchiveLaws (list (Z * Z * Z) * Z)}.
Context (titer_perm : ∀ m, titer m ≡ₚ map_to_list m).
Context (archive_nonempty : ∀ x : list (Z * Z * Z) * Z, to_bytes x ≠ inl []).

Lemma foldl_insert_lookup (l : list (Z * (Z * Z))) (m0 : gmap Z (Z * Z)) k : NoDup l.*1 →
  foldl (λ m '(sid, time, kh), <[sid := (time, kh)]> m) m0 ((λ '(sid, (time, kh)), (sid, time, kh)) <$> l) !! k =
  match (list_to_map l : gmap Z (Z * Z)) !! k with Some x => Some x | None => m0 !! k end.
Proof.
  revert m0. induction l as [|[sid [t kh]] l IH]; intros m0 Hnd; [done|].
  apply NoDup_cons in Hnd as [Hn Hnd]. cbn [fmap list_fmap foldl list_to_map foldr]. rewrite IH by done.
  cbn [fst snd]. destruct (decide (k = sid)) as [->|Hne].
  - rewrite !lookup_insert_eq. by rewrite not_elem_of_list_to_map_1.
  - by rewrite !lookup_insert_ne by done.
Qed.

Lemma restored_pending (p : gmap Z (Z * Z)) :
  foldl (λ m '(sid, time, kh), <[sid := (time, kh)]> m) ∅
    ((λ '(sid, (time, kh)), (sid, time, kh)) <$> titer p) = p.
Proof.
  assert (Hnd : NoDup (titer p).*1) by (rewrite titer_perm; apply NoDup_fst_map_to_list).
  apply map_eq. intros k. rewrite foldl_insert_lookup by done.
  rewrite (list_to_map_proper (titer p) (map_to_list p)), list_to_map_to_list; [|done|apply titer_perm].
  by destruct (p !! k).
Qed.

Lemma restore_checkpoint (op0 op : Op) : so_operator_id op0 = so_operator_id op →
  SessionOp_restore op0 (SessionOp_checkpoint titer op) =
    (so_set_reregistration (negb (bool_decide (so_pending_timers op = ∅)))
       (so_set_counter (so_session_id_counter op) (so_set_pending (so_pending_timers op) op0)), inl tt).
Proof.
  intros Hid. unfold SessionOp_restore, SessionOp_checkpoint. cbn [os_operator_id os_version os_data].
  rewrite bool_decide_false by (by intros H).  simpl negb. cbn match.
  set (entries := _ <$> titer _).
  destruct (archive_roundtrip (entries, so_session_id_counter op)) as (b & Hb & Hrt). rewrite Hb.
  destruct b as [|z b]; [by destruct (archive_nonempty (entries, so_session_id_counter op))|].
  rewrite Hrt. subst entries. by rewrite restored_pending.
Qed.

(** Registering all pending timers. *)
Lemma reregister_loop (l : list (Z * (Z * Z))) : ∀ ctx : Ctx,
  ∃ T, foldl (λ ctx '(sid, (trigger_time, _)),
          cx_set_timers (TimerService_register_timer (cx_timers ctx) trigger_time
            (Some (timer_key sid)) (Some (cx_operator_index ctx))).1 ctx) ctx l = cx_set_timers T ctx ∧
    (∀ reg, reg ∈ timers (cx_timers ctx) → reg ∈ timers T) ∧
    (∀ sid t kh, (sid, (t, kh)) ∈ l → ∃ reg, reg ∈ timers T ∧ t_key reg = Some (timer_key sid) ∧ t_timestamp reg = t).
Proof.
  induction l as [|[sid [t kh]] l IH]; intros ctx; cbn [foldl].
  { exists (cx_timers ctx). split; [by destruct ctx|]. split; [done|]. by intros ? ? ? ?%not_elem_of_nil. }
  set (T1 := (TimerService_register_timer _ _ _ _).1).
  destruct (IH (cx_set_timers T1 ctx)) as (T & -> & Hold & Hnew). exists T. split; [by destruct ctx|]. split.
  - intros reg Hr. apply Hold. simpl. by right.
  - intros x t' k [[= -> -> ->]|Hin]%elem_of_cons; [|by eapply Hnew].
    eexists. split; [apply Hold; simpl; left|done].
Qed.

(** A node started again from the checkpointed timers and the stored sessions: with
    a new timer service and any generator. *)
Definition restarted (ctx : Ctx) (g : Gen) : Ctx :=
  mkCtx 0 0 TimerService_new (cx_state ctx) g (cx_operator_index ctx).

Lemma restart_node (op0 op : Op) (ctx : Ctx) G W g et pt :
  sess_node op ctx G W → same_config op0 op → so_session_indices op0 = ∅ → ginv g →
  let opr := (SessionOp_restore op0 (SessionOp_checkpoint titer op)).1 in
  let ctxr := mkCtx et pt TimerService_new (cx_state ctx) g (cx_operator_index ctx) in
  ∃ op1 T, reregister_timers titer opr ctxr = (op1, cx_set_timers T ctxr) ∧
    so_session_id_counter op1 = so_session_id_counter op ∧ same_config op0 op1 ∧
    sess_node op1 (cx_set_timers T ctxr) G (Z.min W (current_watermark g)).
Proof.
  intros [Hi Hconf Hpool Hre Hg HW Hdue] Hsame Hca Hgg opr ctxr.
  pose proof Hsame as (Hgap & Hag & Hlat & Hem & Hop & Hkey & Hld & Hre0). rewrite Hre in Hre0. symmetry in Hre0.
  assert (Hopr : opr = so_set_reregistration (negb (bool_decide (so_pending_timers op = ∅)))
     (so_set_counter (so_session_id_counter op) (so_set_pending (so_pending_timers op) op0)))
    by (unfold opr; by rewrite restore_checkpoint by done).
  set (op1 := so_set_counter (so_session_id_counter op) (so_set_pending (so_pending_timers op) op0)) in *.
  assert (Hinv : ∀ T et' pt', (∀ sid t kh, so_pending_timers op !! sid = Some (t, kh) →
        ∃ reg, reg ∈ timers T ∧ t_key reg = Some (timer_key sid) ∧ t_timestamp reg = t) →
      sess_node op1 (mkCtx et' pt' T (cx_state ctx) g (cx_operator_index ctx)) G (Z.min W (current_watermark g))).
  { intros T et' pt' HT. split; try done.
    - destruct Hi as [H1 H2 H3 H4 H5 H6 H7 H8]. split; try done.
      + intros kh i. simpl. by rewrite Hca, lookup_empty.
      + intros kh m Hk Hm. simpl. rewrite <- Hgap, <- Hlat. by apply H4.
      + intros sid kh evs HG. unfold ts_ok. simpl. rewrite <- Hgap, <- Hlat. by apply H5.
      + intros sid HG. simpl. rewrite <- Hop. by apply H8.
    - unfold config_ok. simpl. rewrite <- Hgap, <- Hlat. apply Hconf.
    - simpl. lia.
    - intros sid kh evs m HG Hok. simpl in *. rewrite <- Hgap in Hok. rewrite <- Hlat.
      specialize (Hdue _ _ _ _ HG Hok). lia. }
  unfold reregister_timers. rewrite Hopr. cbn [so_needs_timer_reregistration so_set_reregistration].
  destruct (bool_decide_reflect (so_pending_timers op = ∅)) as [He|Hne]; cbn [negb].
  - exists op1, TimerService_new. split; [by rewrite <- Hre0; destruct op0|]. split_and!; try done.
    apply Hinv. intros sid t kh. by rewrite He, lookup_empty.
  - cbn [so_pending_timers so_set_reregistration].
    destruct (reregister_loop (titer (so_pending_timers op1)) ctxr) as (T & -> & _ & HT).
    exists op1, T. split; [by rewrite <- Hre0 at 1; destruct op0|]. split_and!; try done.
    apply Hinv. intros sid t kh Hp. apply (HT sid t kh). rewrite titer_perm. by apply elem_of_map_to_list.
Qed.

Lemma restarted_run (op0 op : Op) (ctx : Ctx) G W g clk pt e ops :
  sess_node op ctx G W → same_config op0 op → so_session_indices op0 = ∅ → ginv g →
  let opr := (SessionOp_restore op0 (SessionOp_checkpoint titer op)).1 in
  ∃ op1 ctx1,
    session_run make_batch int64_at string_at fx_hash titer opr (restarted ctx g) (NEvent clk pt e :: ops) =
      session_run make_batch int64_at string_at fx_hash titer op1 ctx1 (NEvent clk pt e :: ops) ∧
    cx_watermark_generator ctx1 = g ∧ so_session_id_counter op1 = so_session_id_counter op ∧
    same_config op0 op1 ∧ sess_node op1 ctx1 G (Z.min W (current_watermark g)).
Proof.
  intros Hn Hsame Hca Hg opr.
  destruct (restart_node op0 op ctx G W g (ev_timestamp e) pt Hn Hsame Hca Hg)
    as (op1 & T & Hrr & Hcnt & Hsame1 & Hn1). fold opr in Hrr.
  eexists op1, _. split; [|split; [|done]]; [|done]. unfold restarted. cbn [session_run].
  cbn [cx_timers cx_state cx_watermark_generator cx_operator_index cx_set_timers].
  set (ctxr := mkCtx _ _ TimerService_new _ _ _) in *. change (mkCtx _ _ T _ _ _) with (cx_set_timers T ctxr).
  assert (Hsnd : reregister_timers titer op1 (cx_set_timers T ctxr) = (op1, cx_set_timers T ctxr))
    by (unfold reregister_timers; by rewrite (sn_rereg _ _ _ _ Hn1)).
  unfold SessionOp_process. by rewrite Hrr, Hsnd.
Qed.
End SessionSpec.

(** ** A concrete node for the witnesses

    COUNT with a gap of 10 over an in-memory store; events carry their key. *)

Definition session_tuple (m : SessionMetadata) := (sm_id m, sm_start m, sm_end m, sm_emitted m).
Definition session_of_tuple (t : Z * Z * Z * bool) : SessionMetadata :=
  let '(i, s, e, b) := t in mkSession i s e b.
#[local] Instance session_eq_dec : EqDecision SessionMetadata.
Proof. solve_decision. Defined.
#[local] Instance session_countable : Countable SessionMetadata.
Proof. refine (inj_countable' session_tuple session_of_tuple _). by intros []. Defined.
#[local] Instance index_archive : Archive SessionIndex := countable_archive.
#[local] Instance index_archive_laws : ArchiveLaws SessionIndex := countable_archive_laws.
#[local] Instance timers_archive : Archive (list (Z * Z * Z) * Z) := countable_archive.
#[local] Instance timers_archive_laws : ArchiveLaws (list (Z * Z * Z) * Z) := countable_archive_laws.
#[local] Instance session_count_archive : Archive CountAccumulator := {
  to_bytes a := inl [ca_count a];
  from_bytes b := match b with [n] => inl (mkCount n) | _ => inr "bad archive"%string end;
}.
#[local] Instance session_count_archive_laws : ArchiveLaws CountAccumulator.
Proof. split. intros [n]. by eexists. Qed.
#[local] Existing Instance Count_aggregator.
#[local] Instance session_count_aggregator_laws :
  AggregatorLaws CountAggregator Z CountAccumulator unit Z.
Proof. by split. Qed.

Lemma timers_archive_nonempty (x : list (Z * Z * Z) * Z) : to_bytes x ≠ inl [].
Proof.
  intros [= H]. by apply code_bytes_nonempty in H.
Qed.

(** A hash for the examples: the bytes of the key as a number, cut to 64 bits. *)
Definition toy_hash (b : list Z) : Z := from_be b mod u64_MOD.
Lemma toy_hash_u64 b : is_u64 (toy_hash b).
Proof. unfold is_u64, toy_hash. apply Z.mod_pos_bound. done. Qed.

Definition key_of (b : Z) (_ : nat) : option Z := Some b.
Definition no_string (_ : Z) (_ : nat) : option (list Z) := None.
Definition session_op (strategy : EmitStrategy) : SessionWindowOperator (Agg:=CountAggregator) :=
  mkSessionOp 10 mkCountAgg 0 0 ∅ DEFAULT_MAX_CACHED_INDICES ∅ strategy LateDataConfig_drop
    LateDataMetrics_new WindowCloseMetrics_new "s" (Some 0%nat) false.
(** A result batch is the aggregate of the session. *)
Definition session_batch (w : WindowId) (r : Z) : option Z := Some r.
Definition session_ctx : OperatorContext InMemoryStore BoundedOutOfOrdernessGenerator :=
  mkCtx 0 0 TimerService_new InMemoryStore_new (Bounded_new 100) 0.
(** Key 1 at 0 and 15, then at 8, which joins the two sessions; key 2 at 5. *)
Definition session_ops : list (node_op (B:=Z)) :=
  [NEvent clock0 0 (mkEvent 0 1); NEvent clock0 0 (mkEvent 15 1); NEvent clock0 0 (mkEvent 5 2);
   NEvent clock0 0 (mkEvent 8 1); NWatermark clock0 15; NWatermark clock0 30].

Example session_run_output :
  (λ r, map rows r.2) <$> session_run session_batch key_of no_string toy_hash map_to_list
    (session_op OnWatermark) session_ctx session_ops =
    Some [[]; []; []; []; [OutEvent (mkEvent 15 1)]; [OutEvent (mkEvent 25 3)]].
Proof. vm_compute. reflexivity. Qed.

(** ** Properties *)

Section SessionProperties.
Context {Agg B A I O S Gen : Type}.
Context `{!Accumulator A I O} `{!AccumulatorLaws A I O} `{!Aggregator Agg B A I} `{!AggregatorLaws Agg B A I O}.
Context `{!StateStore S} {sok : S → Prop} {sabs : S → gmap (list Z) (list Z)}.
Context `{!StateStoreLaws S sok sabs} `{!Archive A} `{!ArchiveLaws A}.
Context `{!WatermarkGenerator Gen} {ginv : Gen → Prop} `{!GeneratorLaws Gen ginv}.
Context `{!Archive SessionIndex} `{!ArchiveLaws SessionIndex}.
Context `{!Archive (list (Z * Z * Z) * Z)} `{!ArchiveLaws (list (Z * Z * Z) * Z)}.
Context (make_batch : WindowId → O → option B).
Context (int64_at : B → nat → option Z) (string_at : B → nat → option (list Z)).
Context (fx_hash : list Z → Z).
Context (titer : gmap Z (Z * Z) → list (Z * (Z * Z))).
Local Abbreviation Op := (SessionWindowOperator (Agg:=Agg)) (only parsing).
Local Abbreviation Ctx := (OperatorContext S Gen) (only parsing).
Local Abbreviation run := (session_run make_batch int64_at string_at fx_hash titer) (only parsing).

(** [C2]: session windows, end to end. Drive a fresh session-window node (any lawful
    aggregator, state store and watermark generator, a strategy that emits on close:
    every one but [OnUpdate] and [Changelog]) with any interleaving of events and
    watermarks. The run returns, and input by input it does what the reference does:
    an event is accepted unless the session it would open alone is due, joins the
    open sessions, which stay connected (the bounds of each are exactly the union of
    its events' gap intervals) and apart, and shows no row; a watermark closes only
    open sessions whose end plus lateness it reached, shows the aggregate of exactly
    the events of each and nothing else, and leaves no due session open. So the
    accepted events are split, none lost and none counted twice, between the closed
    and the open sessions; and the store holds the open ones, those of a key in order
    and disjoint, each with its bounds and the aggregate of its events. *)
Theorem session_run_exactly_once
    (fx_hash_u64 : ∀ b, is_u64 (fx_hash b))
    (advance_reaches : ∀ c g ts, ginv g → ts <= current_watermark (advance_watermark c g ts).1)
    (op : Op) (ctx : Ctx) ops :
  fresh_session_node (sok:=sok) (sabs:=sabs) (ginv:=ginv) op ctx → config_ok op → closes_only op →
  Forall (session_op_ok op) ops → zlen ops < u64_MOD →
  ∃ op' ctx' outs cs (G : gmap Z (Z * list (Z * list I))),
    run op ctx ops = Some (op', ctx', outs) ∧
    session_ref make_batch int64_at string_at fx_hash op (cx_watermark_generator ctx) ∅ ops outs cs G ∧
    rows (mjoin outs) = closing_rows make_batch (so_emit_strategy op) cs ∧
    session_accepted int64_at string_at fx_hash op (cx_watermark_generator ctx) ops ≡ₚ
      closed_events cs.*2 ++ open_events G ∧
    Forall (λ c, closed_ok op c.1 c.2) cs ∧ sessions_stored op (cx_state ctx') G ∧
    (∀ clk t, NWatermark clk t ∈ ops → none_due op G t).
Proof.
  intros Hfresh Hconf Hco Hops Hlen. pose proof Hfresh as (Hc0 & _).
  destruct (session_run_spec make_batch int64_at string_at fx_hash fx_hash_u64 titer advance_reaches ops op ctx ∅ _
    (fresh_session_inv fx_hash op ctx Hfresh Hconf) Hops ltac:(lia) ltac:(lia))
    as (op' & ctx' & outs & cs & G & W & Hrun & [Hi _ _ _ _ _ Hdue] & Hsame & _ & HW & Hperm & Hcs & Href & _).
  specialize (Href Hco). exists op', ctx', outs, cs, G. split_and!; try done.
  - by eapply session_ref_rows.
  - by rewrite <- Hperm, app_nil_r.
  - eapply sessions_stored_same; [exact Hsame|]. by eapply sess_inv_stored.
  - intros clk t Ht. eapply none_due_same; [exact Hsame|exact Hdue|by eapply HW].
Qed.

(** [C32]: crash recovery of session windows. Stop a node (of a strategy that emits
    on close) after any run, keep its state store and its checkpoint, and start a new
    one from them, with an empty timer service and any watermark generator: the
    restore succeeds, and whatever runs next from an event on continues the reference
    where the first run left it. The sessions opened before the crash are extended
    and merged after it, and every watermark closes all of them that it makes due:
    none is left without its timer. The events accepted before and after the crash
    together are split, none lost and none twice, between the sessions closed before
    the crash, those closed after it and the ones still open, which the store holds
    with their bounds and aggregates. *)
Theorem session_recovery_exactly_once
    (fx_hash_u64 : ∀ b, is_u64 (fx_hash b))
    (advance_reaches : ∀ c g ts, ginv g → ts <= current_watermark (advance_watermark c g ts).1)
    (titer_perm : ∀ m, titer m ≡ₚ map_to_list m)
    (archive_nonempty : ∀ x : list (Z * Z * Z) * Z, to_bytes x ≠ inl [])
    (op : Op) (ctx : Ctx) ops1 g clk pt e ops2 :
  fresh_session_node (sok:=sok) (sabs:=sabs) (ginv:=ginv) op ctx → config_ok op → closes_only op →
  ginv g → Forall (session_op_ok op) ops1 → Forall (session_op_ok op) (NEvent clk pt e :: ops2) →
  zlen ops1 + zlen ops2 + 1 < u64_MOD →
  ∃ op1 ctx1 outs1 opr op2 ctx2 outs2 cs1 cs2 (G1 G : gmap Z (Z * list (Z * list I))),
    run op ctx ops1 = Some (op1, ctx1, outs1) ∧
    SessionOp_restore op (SessionOp_checkpoint titer op1) = (opr, inl tt) ∧
    run opr (restarted ctx1 g) (NEvent clk pt e :: ops2) = Some (op2, ctx2, outs2) ∧
    session_ref make_batch int64_at string_at fx_hash op (cx_watermark_generator ctx) ∅ ops1 outs1 cs1 G1 ∧
    session_ref make_batch int64_at string_at fx_hash op g G1 (NEvent clk pt e :: ops2) outs2 cs2 G ∧
    rows (mjoin outs1) = closing_rows make_batch (so_emit_strategy op) cs1 ∧
    rows (mjoin outs2) = closing_rows make_batch (so_emit_strategy op) cs2 ∧
    session_accepted int64_at string_at fx_hash op (cx_watermark_generator ctx) ops1 ++
    session_accepted int64_at string_at fx_hash op g (NEvent clk pt e :: ops2) ≡ₚ
      closed_events cs1.*2 ++ closed_events cs2.*2 ++ open_events G ∧
    Forall (λ c, closed_ok op c.1 c.2) (cs1 ++ cs2) ∧ sessions_stored op (cx_state ctx2) G ∧
    (∀ clk t, NWatermark clk t ∈ ops2 → none_due op G t).
Proof.
  intros Hfresh Hconf Hco Hg Hops1 Hops2 Hlen. pose proof Hfresh as (Hc0 & Hca & _).
  destruct (session_run_spec make_batch int64_at string_at fx_hash fx_hash_u64 titer advance_reaches ops1 op ctx ∅ _
    (fresh_session_inv fx_hash op ctx Hfresh Hconf) Hops1 ltac:(lia) ltac:(lia))
    as (op1 & ctx1 & outs1 & cs1 & G1 & W1 & Hrun1 & Hn1 & Hsame & _ & _ & Hperm1 & Hcs1 & Href1 & Hlo1 & Hhi1).
  destruct (restarted_run make_batch int64_at string_at fx_hash titer titer_perm archive_nonempty
    op op1 ctx1 G1 W1 g clk pt e ops2 Hn1 Hsame Hca Hg) as (opa & ctxa & Heq & Hga & Hcnt & Hsamea & Hna).
  destruct (session_run_spec make_batch int64_at string_at fx_hash fx_hash_u64 titer advance_reaches
    (NEvent clk pt e :: ops2) opa ctxa G1 _ Hna) as
    (op2 & ctx2 & outs2 & cs2 & G2 & W2 & Hrun2 & [Hi2 _ _ _ _ _ Hdue2] & Hsame2 & _ & HW2 & Hperm2 & Hcs2 & Href2 & _).
  { eapply Forall_impl; [done|]. intros o. by apply session_op_ok_same. } { lia. } { cbn [length]. lia. }
  rewrite Hga, (session_accepted_same int64_at string_at fx_hash op opa) in Hperm2 by done.
  pose proof Hsame as (_ & _ & _ & _ & Hid & _). specialize (Href1 Hco).
  pose proof (Href2 (closes_only_same op opa Hsamea Hco)) as Href. rewrite Hga in Href.
  apply (session_ref_same make_batch int64_at string_at fx_hash op opa _ _ Hsamea) in Href.
  pose proof (same_config_trans _ _ _ Hsamea Hsame2) as Hsame3.
  eexists op1, ctx1, outs1, _, op2, ctx2, outs2, cs1, cs2, G1, G2. split_and!; try done.
  - by apply restore_checkpoint.
  - by rewrite restore_checkpoint in Heq by done; rewrite <- Hrun2, <- Heq.
  - by eapply session_ref_rows.
  - by eapply session_ref_rows.
  - rewrite app_nil_r in Hperm1. rewrite Hperm1, <- Hperm2, <- app_assoc. f_equiv. apply Permutation_app_comm.
  - apply Forall_app. split; [done|]. eapply Forall_impl; [done|]. intros c. by apply closed_ok_same.
  - eapply sessions_stored_same; [exact Hsame3|]. by eapply sess_inv_stored.
  - intros clk' t Ht. eapply none_due_same; [exact Hsame3|exact Hdue2|]. apply (HW2 clk'). by right.
Qed.

(** The Changelog strategy does not retract. An event that extends one session
    emits the session's new row as an insert and no delete of the row emitted for it
    before, and closing a session inserts its final row again: every record the
    operator emits then has weight 1, where the strategy is documented to emit the old
    row with weight -1 first. Only merges retract. *)
Theorem session_changelog_extension_keeps_old_row (op : Op) (ctx : Ctx) event id timer :
  so_emit_strategy op = Changelog →
  let kh := key_hash fx_hash (extract_key int64_at string_at op event) in
  SessionIndex_find_overlapping (ev_timestamp event) (so_gap_ms op)
    (load_session_index kh (cx_state ctx) op).2 = [id] →
  (∀ r, OutChangelog r ∈ (accept_event make_batch int64_at string_at fx_hash event op ctx).2 → cl_weight r = 1) ∧
  (∀ r, OutChangelog r ∈ (SessionOp_on_timer make_batch op timer ctx).2 → cl_weight r = 1).
Proof.
  intros Hem kh Hov. split.
  - intros r. unfold accept_event. fold kh. destruct (load_session_index kh (cx_state ctx) op) as [op1 index] eqn:Hl.
    cbn [snd] in Hov. assert (Hconf : so_gap_ms op1 = so_gap_ms op ∧ so_emit_strategy op1 = so_emit_strategy op).
    { revert Hl. unfold load_session_index. repeat case_match; by intros [= <- _]. }
    destruct Hconf as [Hgap Hem1]. unfold assign_session. rewrite Hgap, Hov.
    destruct (SessionIndex_get id _) as [m|]; [|by destruct (store_session_index _ _ _ _) as [[??]?]; intros ?%elem_of_nil].
    destruct (register_timer id kh m op1 _) as [op2 ctx2] eqn:Hreg.
    assert (Hem2 : so_emit_strategy op2 = Changelog).
    { revert Hreg. unfold register_timer. repeat case_match; intros [= <- _]; by rewrite <- Hem. }
    unfold emit_session. rewrite Hem2. cbn [app].
    destruct (store_session_index _ _ _ _) as [[op3 s3] r3]. cbn [snd].
    destruct (create_output _ _ _); [|by intros ?%elem_of_nil].
    intros [= ->]%list_elem_of_singleton. done.
  - intros r. unfold SessionOp_on_timer. repeat case_match; simpl; try by intros ?%elem_of_nil.
    all: try (injection H as <- <-); simplify_eq; try by intros ?%elem_of_nil.
    all: try by intros [= ->]%list_elem_of_singleton.
Qed.
End SessionProperties.

Lemma session_run_exactly_once_witness :
  ∃ op' ctx' out cs (G : gmap Z (Z * list (Z * list unit))),
    session_run session_batch key_of no_string toy_hash map_to_list (session_op OnWatermark) session_ctx session_ops =
      Some (op', ctx', out) ∧
    rows (mjoin out) = closing_rows session_batch OnWatermark cs ∧
    [(1, (0, [tt])); (1, (15, [tt])); (2, (5, [tt])); (1, (8, [tt]))] ≡ₚ closed_events cs.*2 ++ open_events G.
Proof.
  destruct (session_run_exactly_once (ginv:=λ _, True) session_batch key_of no_string toy_hash map_to_list
    toy_hash_u64 bounded_advance_reaches (session_op OnWatermark) session_ctx session_ops)
    as (op' & ctx' & out & cs & G & H1 & _ & H2 & H3 & _).
  - repeat split; reflexivity || exact I.
  - split; reflexivity || (vm_compute; discriminate).
  - split; discriminate.
  - repeat constructor; vm_compute; discriminate.
  - reflexivity.
  - exists op', ctx', out, cs, G. split; [exact H1|]. split; [exact H2|]. rewrite <- H3. vm_compute. reflexivity.
Defined.

(** The node is restarted after the first two events. *)
Lemma session_recovery_exactly_once_witness :
  ∃ op1 ctx1 out1 opr op2 ctx2 out2 (cs1 cs2 : list (Z * (Z * (SessionMetadata * list (Z * list unit)))))
    (G : gmap Z (Z * list (Z * list unit))),
    session_run session_batch key_of no_string toy_hash map_to_list (session_op OnWatermark) session_ctx
      (take 3 session_ops) = Some (op1, ctx1, out1) ∧
    SessionOp_restore (session_op OnWatermark) (SessionOp_checkpoint map_to_list op1) = (opr, inl tt) ∧
    session_run session_batch key_of no_string toy_hash map_to_list opr (restarted ctx1 (Bounded_new 100))
      (drop 3 session_ops) = Some (op2, ctx2, out2) ∧
    [(1, (0, [tt])); (1, (15, [tt])); (2, (5, [tt])); (1, (8, [tt]))] ≡ₚ
      closed_events cs1.*2 ++ closed_events cs2.*2 ++ open_events G.
Proof.
  destruct (session_recovery_exactly_once (ginv:=λ _, True) session_batch key_of no_string toy_hash map_to_list
    toy_hash_u64 bounded_advance_reaches (λ m, Permutation_refl _) timers_archive_nonempty
    (session_op OnWatermark) session_ctx (take 3 session_ops) (Bounded_new 100) clock0 0 (mkEvent 8 1)
    [NWatermark clock0 15; NWatermark clock0 30])
    as (op1 & ctx1 & out1 & opr & op2 & ctx2 & out2 & cs1 & cs2 & G1 & G & H1 & H2 & H3 & _ & _ & _ & _ & H4 & _).
  - repeat split; reflexivity || exact I.
  - split; reflexivity || (vm_compute; discriminate).
  - split; discriminate.
  - exact I.
  - repeat constructor; vm_compute; discriminate.
  - repeat constructor; vm_compute; discriminate.
  - reflexivity.
  - exists op1, ctx1, out1, opr, op2, ctx2, out2, cs1, cs2, G. split; [exact H1|]. split; [exact H2|].
    split; [exact H3|]. rewrite <- H4. vm_compute. reflexivity.
Defined.

(** A session of key 1 that was emitted once, and the event that extends it. *)
Definition changelog_session :=
  accept_event session_batch key_of no_string toy_hash (mkEvent 0 1) (session_op Changelog) session_ctx.

Lemma session_changelog_extension_keeps_old_row_witness :
  changelog_session.2 = [OutChangelog (ChangelogRecord_insert (mkEvent 10 1) 0)] ∧
  let op := changelog_session.1.1 in
  let ctx := changelog_session.1.2 in
  (accept_event session_batch key_of no_string toy_hash (mkEvent 5 1) op ctx).2 =
    [OutChangelog (ChangelogRecord_insert (mkEvent 15 2) 0)] ∧
  (∀ r, OutChangelog r ∈ (accept_event session_batch key_of no_string toy_hash (mkEvent 5 1) op ctx).2 →
     cl_weight r = 1).
Proof.
  split; [vm_compute; reflexivity|]. cbv zeta. split; [vm_compute; reflexivity|].
  eapply (session_changelog_extension_keeps_old_row session_batch key_of no_string toy_hash
    changelog_session.1.1 changelog_session.1.2 (mkEvent 5 1) _ (mkFired [] 0)); vm_compute; reflexivity.
Defined.
