(* ===== verification/RustStr.v ===== *)
(** * Rust strings

    What the connectors use of Rust's [str] and [String]: a string is the list of its
    [char]s (Unicode scalar values), [as_bytes] its UTF-8 encoding and
    [std::str::from_utf8] the decoder that accepts exactly the well-formed encodings;
    the hexadecimal formats [{:X}], [{:02X}] and [{:04x}], [u32::from_str_radix] with
    radix 16, [split_once] and [char::is_control]. *)

From stdpp Require Import pretty.
From S2P Require Import Prelude.

Abbreviation Str := (list Z) (only parsing).
Abbreviation u32_MAX := 4294967295%Z (only parsing).

(** ** UTF-8 *)

(** A [char]: a code point that is not a surrogate. *)
Definition is_scalar (c : Z) : Prop := 0 <= c < 55296 ∨ 57344 <= c < 1114112.
#[export] Instance is_scalar_dec c : Decision (is_scalar c) := _.

Definition char_utf8 (c : Z) : list Z :=
  if c <? 128 then [c]
  else if c <? 2048 then [192 + c / 64; 128 + c mod 64]
  else if c <? 65536 then [224 + c / 4096; 128 + c / 64 mod 64; 128 + c mod 64]
  else [240 + c / 262144; 128 + c / 4096 mod 64; 128 + c / 64 mod 64; 128 + c mod 64].

(** [str::as_bytes] *)
Definition str_utf8 (s : Str) : list Z := s ≫= char_utf8.

(** A continuation byte. *)
Definition is_cont (b : Z) : bool := (128 <=? b) && (b <? 192).

(** [std::str::from_utf8] *)
Fixpoint from_utf8 (l : list Z) : option Str :=
  match l with
  | [] => Some []
  | b0 :: l1 =>
    if (0 <=? b0) && (b0 <? 128) then cons b0 <$> from_utf8 l1
    else match l1 with
    | [] => None
    | b1 :: l2 =>
      if (194 <=? b0) && (b0 <? 224) then
        if is_cont b1 then cons ((b0 - 192) * 64 + (b1 - 128)) <$> from_utf8 l2 else None
      else match l2 with
      | [] => None
      | b2 :: l3 =>
        if (224 <=? b0) && (b0 <? 240) then
          let c := (b0 - 224) * 4096 + (b1 - 128) * 64 + (b2 - 128) in
          if is_cont b1 && is_cont b2 && (2048 <=? c) && ((c <? 55296) || (57344 <=? c))
          then cons c <$> from_utf8 l3 else None
        else match l3 with
        | [] => None
        | b3 :: l4 =>
          let c := (b0 - 240) * 262144 + (b1 - 128) * 4096 + (b2 - 128) * 64 + (b3 - 128) in
          if (240 <=? b0) && (b0 <? 245) && is_cont b1 && is_cont b2 && is_cont b3 &&
             (65536 <=? c) && (c <? 1114112)
          then cons c <$> from_utf8 l4 else None
        end
      end
    end
  end.

(** A string literal of the source. *)
Definition lit (s : string) : Str := default [] (from_utf8 (string_bytes s)).

(** [char::is_control]: the general category Cc. *)
Definition is_control (c : Z) : bool := (c <? 32) || ((127 <=? c) && (c <? 160)).

(** [split_once] at a character. *)
Fixpoint split_once (d : Z) (s : Str) : option (Str * Str) :=
  match s with
  | [] => None
  | c :: s' =>
    if c =? d then Some ([], s')
    else '(a, b) ← split_once d s'; Some (c :: a, b)
  end.

(** [[T]::join] on strings. *)
Fixpoint join (sep : Str) (l : list Str) : Str :=
  match l with
  | [] => []
  | [s] => s
  | s :: l' => s ++ sep ++ join sep l'
  end.

(** ** Numbers *)

(** A digit in base 16, in upper ([a = 65]) or lower case ([a = 97]). *)
Definition hex_digit (a d : Z) : Z := if d <? 10 then 48 + d else a + (d - 10).

Fixpoint hex_loop (a : Z) (fuel : nat) (z : Z) (acc : Str) : Str :=
  match fuel with
  | O => acc
  | S f => if z <? 16 then hex_digit a z :: acc
           else hex_loop a f (z / 16) (hex_digit a (z mod 16) :: acc)
  end.

(** [{:X}] of an unsigned integer of at most 64 bits. *)
Definition fmt_X (z : Z) : Str := hex_loop 65 16 z [].
(** [{:02X}] and [{:04x}]: padded with zeros on the left. *)
Definition pad0 (w : nat) (s : Str) : Str := replicate (w - length s) 48 ++ s.
Definition fmt_02X (z : Z) : Str := pad0 2 (fmt_X z).
Definition fmt_04x (z : Z) : Str := pad0 4 (hex_loop 97 16 z []).
(** [{}] of an integer. *)
Definition fmt_int (z : Z) : Str := lit (pretty z).

(** [char::to_digit] with radix 16. *)
Definition to_digit16 (c : Z) : option Z :=
  if (48 <=? c) && (c <? 58) then Some (c - 48)
  else if (65 <=? c) && (c <? 71) then Some (c - 55)
  else if (97 <=? c) && (c <? 103) then Some (c - 87)
  else None.

Fixpoint radix16_loop (s : Str) (acc : Z) : option Z :=
  match s with
  | [] => Some acc
  | c :: s' =>
    d ← to_digit16 c;
    if acc * 16 + d <=? u32_MAX then radix16_loop s' (acc * 16 + d) else None
  end.

(** [u32::from_str_radix] with radix 16: one leading [+] is allowed, and neither the
    empty string nor a sign alone is a number. *)
Definition u32_from_str_radix16 (s : Str) : option Z :=
  match s with
  | [] => None
  | c :: s' =>
    if c =? 43 then match s' with [] => None | _ => radix16_loop s' 0 end
    else radix16_loop s 0
  end.

(** ** Lemmas *)

Lemma char_utf8_u8 c : is_scalar c → Forall is_u8 (char_utf8 c).
Proof.
  intros H. unfold char_utf8, is_scalar, is_u8 in *.
  repeat case_match; repeat constructor; Z.to_euclidean_division_equations; lia.
Qed.

Lemma from_utf8_char c l : is_scalar c → from_utf8 (char_utf8 c ++ l) = cons c <$> from_utf8 l.
Proof.
  intros H. unfold is_scalar in H. unfold char_utf8.
  assert (Hc : ∀ x, is_cont (128 + x mod 64) = true).
  { intros x. unfold is_cont. pose proof (Z.mod_pos_bound x 64). lia. }
  destruct (Z.ltb_spec c 128).
  { simpl. rewrite (proj2 (Z.leb_le 0 c)), (proj2 (Z.ltb_lt c 128)) by lia. done. }
  destruct (Z.ltb_spec c 2048).
  - assert (2 <= c / 64 < 32) by (Z.to_euclidean_division_equations; lia).
    cbn [app from_utf8]. rewrite Hc.
    replace (_ && _) with false by lia. replace (_ && _) with true by lia.
    f_equal. f_equal. Z.to_euclidean_division_equations; lia.
  - destruct (Z.ltb_spec c 65536).
    + assert (0 <= c / 4096 < 16) by (Z.to_euclidean_division_equations; lia).
      cbn [app from_utf8]. rewrite !Hc. cbn [andb].
      replace (_ && _) with false by lia. replace (_ && _) with false by lia.
      replace (_ && _) with true by lia.
      replace ((224 + c / 4096 - 224) * 4096 + _ * 64 + _) with c
        by (Z.to_euclidean_division_equations; lia).
      replace (_ && _) with true by lia. done.
    + assert (0 <= c / 262144 < 5) by (Z.to_euclidean_division_equations; lia).
      cbn [app from_utf8]. rewrite !Hc.
      replace (_ && _) with false by lia. replace (_ && _) with false by lia.
      replace (_ && _) with false by lia.
      replace ((240 + c / 262144 - 240) * 262144 + _ * 4096 + _ * 64 + _) with c
        by (Z.to_euclidean_division_equations; lia).
      replace (_ && _) with true by lia. done.
Qed.

(** Encoding and decoding are inverse. *)
Lemma from_utf8_str s l :
  Forall is_scalar s → from_utf8 (str_utf8 s ++ l) = app s <$> from_utf8 l.
Proof.
  unfold str_utf8. induction 1 as [|c s Hc Hs IH]; cbn.
  - by destruct (from_utf8 l).
  - rewrite <- app_assoc, from_utf8_char by done. rewrite IH. by destruct (from_utf8 l).
Qed.

Lemma from_utf8_encode s : Forall is_scalar s → from_utf8 (str_utf8 s) = Some s.
Proof. intros H. rewrite <- (app_nil_r (str_utf8 s)), from_utf8_str by done. cbn. by rewrite app_nil_r. Qed.

Lemma char_utf8_2 b0 b1 :
  194 <= b0 < 224 → is_cont b1 = true →
  let c := (b0 - 192) * 64 + (b1 - 128) in is_scalar c ∧ char_utf8 c = [b0; b1].
Proof.
  unfold is_cont. intros ? Hb. assert (128 <= b1 < 192) by lia. cbn zeta.
  split; [unfold is_scalar; lia|]. unfold char_utf8.
  repeat (case_match; [lia|]). repeat case_match; try lia.
  repeat f_equal; Z.to_euclidean_division_equations; lia.
Qed.

Lemma char_utf8_3 b0 b1 b2 :
  224 <= b0 < 240 → is_cont b1 = true → is_cont b2 = true →
  let c := (b0 - 224) * 4096 + (b1 - 128) * 64 + (b2 - 128) in
  2048 <= c → c < 55296 ∨ 57344 <= c → is_scalar c ∧ char_utf8 c = [b0; b1; b2].
Proof.
  unfold is_cont. intros ? Hb1 Hb2. assert (128 <= b1 < 192) by lia. assert (128 <= b2 < 192) by lia.
  cbn zeta. intros Hlo Hs. split; [unfold is_scalar; lia|]. unfold char_utf8.
  repeat case_match; try lia.
  repeat f_equal; Z.to_euclidean_division_equations; lia.
Qed.

Lemma char_utf8_4 b0 b1 b2 b3 :
  240 <= b0 < 245 → is_cont b1 = true → is_cont b2 = true → is_cont b3 = true →
  let c := (b0 - 240) * 262144 + (b1 - 128) * 4096 + (b2 - 128) * 64 + (b3 - 128) in
  65536 <= c < 1114112 → is_scalar c ∧ char_utf8 c = [b0; b1; b2; b3].
Proof.
  unfold is_cont. intros ? Hb1 Hb2 Hb3. assert (128 <= b1 < 192) by lia.
  assert (128 <= b2 < 192) by lia. assert (128 <= b3 < 192) by lia.
  cbn zeta. intros Hs. split; [unfold is_scalar; lia|]. unfold char_utf8.
  repeat case_match; try lia.
  repeat f_equal; Z.to_euclidean_division_equations; lia.
Qed.

(** What [from_utf8] accepts is the encoding of the string it returns. *)
Lemma from_utf8_sound l s : from_utf8 l = Some s → Forall is_scalar s ∧ str_utf8 s = l.
Proof.
  revert s. induction l as [l IH] using (induction_ltof1 _ (@length Z)). unfold ltof in IH. intros s Hs.
  assert (Hrec : ∀ l' s' c enc, (length l' < length l)%nat → is_scalar c ∧ char_utf8 c = enc →
    cons c <$> from_utf8 l' = Some s' → Forall is_scalar s' ∧ str_utf8 s' = enc ++ l').
  { intros l' s' c enc Hlt [Hc He] Hf. apply fmap_Some in Hf as (t & Ht & ->).
    destruct (IH l' Hlt _ Ht) as [Hall Henc]. split; [by constructor|].
    unfold str_utf8 in *. by rewrite bind_cons, He, Henc. }
  destruct l as [|b0 l1]; cbn in Hs; [by simplify_eq|].
  destruct ((0 <=? b0) && (b0 <? 128)) eqn:H0.
  { apply (Hrec l1 _ b0 [b0]); [cbn; lia| |done].
    unfold is_scalar, char_utf8. rewrite (proj2 (Z.ltb_lt b0 128)) by lia. split; [lia|done]. }
  clear H0. destruct l1 as [|b1 l2]; [done|].
  destruct ((194 <=? b0) && (b0 <? 224)) eqn:H0.
  { case_match; [|done]. eapply (Hrec l2 _ _ [b0; b1]); [cbn; lia| |exact Hs].
    apply char_utf8_2; [lia|done]. }
  clear H0. destruct l2 as [|b2 l3]; [done|].
  destruct ((224 <=? b0) && (b0 <? 240)) eqn:H0.
  { case_match eqn:E; [|done]. rewrite !andb_true_iff, orb_true_iff in E.
    eapply (Hrec l3 _ _ [b0; b1; b2]); [cbn; lia| |exact Hs].
    apply char_utf8_3; naive_solver lia. }
  destruct l3 as [|b3 l4]; [done|].
  case_match eqn:E; [|done]. rewrite !andb_true_iff in E.
  eapply (Hrec l4 _ _ [b0; b1; b2; b3]); [cbn; lia| |exact Hs].
  apply char_utf8_4; naive_solver lia.
Qed.

Lemma from_utf8_iff l s : from_utf8 l = Some s ↔ Forall is_scalar s ∧ str_utf8 s = l.
Proof.
  split; [apply from_utf8_sound|]. intros [H <-]. by apply from_utf8_encode.
Qed.

Lemma str_utf8_u8 s : Forall is_scalar s → Forall is_u8 (str_utf8 s).
Proof.
  unfold str_utf8. induction 1; rewrite ?bind_cons; [constructor|].
  apply Forall_app. split; [by apply char_utf8_u8|done].
Qed.

(** Only the character NUL has a zero byte. *)
Lemma str_utf8_nul s : Forall is_scalar s → 0 ∈ str_utf8 s → 0 ∈ s.
Proof.
  unfold str_utf8. intros Hs Hin. apply list_elem_of_bind in Hin as (c & Hc & Hcs).
  rewrite Forall_forall in Hs. specialize (Hs c Hcs).
  enough (c = 0) by by subst.
  unfold char_utf8, is_scalar in *.
  repeat case_match; rewrite ?elem_of_cons, elem_of_nil in Hc;
    destruct_or?; try done; Z.to_euclidean_division_equations; lia.
Qed.

(** Printing in base 16 and reading back. *)
Lemma to_digit16_hex d : 0 <= d < 16 → to_digit16 (hex_digit 65 d) = Some d.
Proof.
  intros H. unfold hex_digit, to_digit16. repeat (case_match; try lia); f_equal; lia.
Qed.

Lemma radix16_hex_loop f z acc :
  0 <= z < 16 ^ Z.of_nat f → z <= u32_MAX →
  radix16_loop (hex_loop 65 f z acc) 0 = radix16_loop acc z.
Proof.
  revert z acc. induction f as [|f IH]; intros z acc Hz Hm.
  { cbn in Hz. cbn. f_equal. lia. }
  cbn [hex_loop]. destruct (Z.ltb_spec z 16).
  - cbn [radix16_loop]. rewrite to_digit16_hex by lia.
    unfold mbind, option_bind. replace (0 * 16 + z) with z by lia. by rewrite (proj2 (Z.leb_le z u32_MAX)).
  - rewrite Nat2Z.inj_succ, Z.pow_succ_r in Hz by lia.
    rewrite IH by (Z.to_euclidean_division_equations; lia).
    cbn [radix16_loop]. rewrite to_digit16_hex by (Z.to_euclidean_division_equations; lia).
    unfold mbind, option_bind. replace (z / 16 * 16 + z mod 16) with z by (Z.to_euclidean_division_equations; lia).
    by rewrite (proj2 (Z.leb_le z u32_MAX)).
Qed.

(** The characters of a printed number: digits and capital letters. *)
Lemma hex_loop_chars f z acc (P : Z → Prop) :
  (∀ d, 0 <= d < 16 → P (hex_digit 65 d)) → 0 <= z →
  Forall P acc → Forall P (hex_loop 65 f z acc).
Proof.
  intros HP. revert z acc. induction f as [|f IH]; intros z acc Hz Hacc; [done|]. cbn.
  destruct (Z.ltb_spec z 16); [constructor; [apply HP; lia|done]|].
  apply IH; [Z.to_euclidean_division_equations; lia|].
  constructor; [apply HP; Z.to_euclidean_division_equations; lia|done].
Qed.

Lemma fmt_X_chars z (P : Z → Prop) :
  (∀ d, 0 <= d < 16 → P (hex_digit 65 d)) → 0 <= z → Forall P (fmt_X z).
Proof. intros. unfold fmt_X. apply hex_loop_chars; [done|done|constructor]. Qed.

Lemma hex_loop_nonempty f z acc : hex_loop 65 (S f) z acc ≠ [].
Proof.
  revert z acc. induction f as [|f IH]; intros z acc; cbn [hex_loop]; [by case_match|].
  case_match; [done|]. apply IH.
Qed.

(** [u32::from_str_radix] reads what [{:X}] prints. *)
Lemma u32_fmt_X z : 0 <= z <= u32_MAX → u32_from_str_radix16 (fmt_X z) = Some z.
Proof.
  intros Hz. unfold u32_from_str_radix16.
  assert (Hc : Forall (λ c, c ≠ 43) (fmt_X z)).
  { apply fmt_X_chars; [|lia]. intros d Hd. unfold hex_digit. case_match; lia. }
  assert (Hr : radix16_loop (fmt_X z) 0 = Some z).
  { unfold fmt_X. rewrite radix16_hex_loop; [done|cbn; lia|lia]. }
  destruct (fmt_X z) as [|c s] eqn:E; [by apply (hex_loop_nonempty 15) in E|].
  apply Forall_cons_1 in Hc as [Hc _]. by rewrite (proj2 (Z.eqb_neq c 43)).
Qed.

Lemma split_once_app d a b : Forall (λ c, c ≠ d) a → split_once d (a ++ d :: b) = Some (a, b).
Proof.
  induction 1 as [|c a Hc _ IH]; cbn; [by rewrite Z.eqb_refl|].
  rewrite (proj2 (Z.eqb_neq c d)) by done. by rewrite IH.
Qed.
