(* ===== verification/PgDecoder.v ===== *)
(** * The pgoutput decoder (crates/laminar-connectors/src/cdc/postgres/)

    [Lsn] of lsn.rs with its textual form, and decoder.rs: the [Cursor] over a
    message's bytes, the decoder of every message of PostgreSQL's logical replication
    protocol, and the errors. A reader is a function of the cursor that returns a
    value with the advanced cursor, an error, or [Panic] where the Rust code would
    index a slice out of bounds. [pgoutput] is the protocol's message format as a
    relation between bytes and messages. *)

From Stdlib Require Import Ascii.
From stdpp Require Import pretty.
From S2P Require Import Prelude RustStr.

(** ** Log sequence numbers (lsn.rs) *)

Abbreviation Lsn := Z (only parsing).
Definition Lsn_ZERO : Lsn := 0.
Definition Lsn_new (value : Z) : Lsn := value.
Definition Lsn_as_u64 (l : Lsn) : Z := l.
Definition Lsn_segment (l : Lsn) : Z := Z.shiftr l 32.
Definition Lsn_offset (l : Lsn) : Z := l mod 4294967296.
Definition Lsn_diff (l other : Lsn) : Z := u64_sat_sub l other.
Definition Lsn_advance (l : Lsn) (n : Z) : Lsn := Z.min (u64_MOD - 1) (l + n).
Definition Lsn_is_zero (l : Lsn) : bool := l =? 0.

Definition Lsn_to_string (l : Lsn) : Str := fmt_X (Lsn_segment l) ++ lit "/" ++ fmt_X (Lsn_offset l).

Inductive LsnParseError := InvalidFormat (s : Str) | InvalidHex (s : Str).

Definition Lsn_from_str (s : Str) : Lsn + LsnParseError :=
  match split_once 47 s with
  | None => inr (InvalidFormat s)
  | Some (high, low) =>
    match u32_from_str_radix16 high with
    | None => inr (InvalidHex high)
    | Some h =>
      match u32_from_str_radix16 low with
      | None => inr (InvalidHex low)
      | Some l => inl (Z.lor (Z.shiftl h 32) l)
      end
    end
  end.

(** ** Messages *)

(** A byte literal [b'x']. *)
Definition ch (c : Ascii.ascii) : Z := Z.of_nat (Ascii.nat_of_ascii c).
Arguments ch c%_char.

Record PgColumn := mkPgColumn {
  pc_name : Str; pc_type_oid : Z; pc_type_modifier : Z; pc_is_key : bool }.

Inductive ColumnValue := Null | Unchanged | Text (s : Str).

Definition ColumnValue_as_text (v : ColumnValue) : option Str :=
  match v with Text s => Some s | _ => None end.
Definition ColumnValue_is_null (v : ColumnValue) : bool :=
  match v with Null => true | _ => false end.

Record TupleData := mkTuple { columns : list ColumnValue }.

Record BeginMessage := mkBegin { bm_final_lsn : Lsn; bm_commit_ts_ms : Z; bm_xid : Z }.
Record CommitMessage := mkCommit {
  cm_flags : Z; cm_commit_lsn : Lsn; cm_end_lsn : Lsn; cm_commit_ts_ms : Z }.
Record RelationMessage := mkRelation {
  rm_relation_id : Z; rm_namespace : Str; rm_name : Str; rm_replica_identity : Z;
  rm_columns : list PgColumn }.
Record InsertMessage := mkInsert { im_relation_id : Z; im_new_tuple : TupleData }.
Record UpdateMessage := mkUpdate {
  um_relation_id : Z; um_old_tuple : option TupleData; um_new_tuple : TupleData }.
Record DeleteMessage := mkDelete { dm_relation_id : Z; dm_old_tuple : TupleData }.
Record TruncateMessage := mkTruncate { tm_relation_ids : list Z; tm_options : Z }.
Record OriginMessage := mkOrigin { om_origin_lsn : Lsn; om_name : Str }.
Record TypeMessage := mkType { ty_type_id : Z; ty_namespace : Str; ty_name : Str }.

Inductive WalMessage :=
  | Begin (m : BeginMessage)
  | Commit (m : CommitMessage)
  | Relation (m : RelationMessage)
  | Insert (m : InsertMessage)
  | Update (m : UpdateMessage)
  | Delete (m : DeleteMessage)
  | Truncate (m : TruncateMessage)
  | Origin (m : OriginMessage)
  | Type_ (m : TypeMessage).

Inductive DecoderError :=
  | UnexpectedEof (offset needed : Z)
  | UnknownMessageType (b : Z)
  | InvalidData (msg : Str)
  | InvalidUtf8 (offset : Z).

(** The text [Display] gives an error. *)
Definition DecoderError_to_string (e : DecoderError) : Str :=
  match e with
  | UnexpectedEof offset needed =>
    lit "unexpected end of data at offset " ++ fmt_int offset ++ lit ", need " ++ fmt_int needed
      ++ lit " bytes"
  | UnknownMessageType b => lit "unknown message type: 0x" ++ fmt_02X b
  | InvalidData msg => lit "invalid data: " ++ msg
  | InvalidUtf8 offset => lit "invalid UTF-8 at offset " ++ fmt_int offset
  end.

(** ** Readers *)

Record Cursor := mkCursor { cur_data : list Z; cur_pos : Z }.

Inductive Outcome (A : Type) :=
  | Done (a : A)
  | Raise (e : DecoderError)
  | Panic.
Arguments Done {A} a.
Arguments Raise {A} e.
Arguments Panic {A}.

Definition Reader (A : Type) : Type := Cursor → Outcome (A * Cursor).

Definition r_ret {A} (a : A) : Reader A := λ c, Done (a, c).
Definition r_fail {A} (e : DecoderError) : Reader A := λ _, Raise e.
(** The operator [?]. *)
Definition r_bind {A B} (r : Reader A) (k : A → Reader B) : Reader B := λ c,
  match r c with
  | Done (a, c') => k a c'
  | Raise e => Raise e
  | Panic => Panic
  end.
Notation "'let?' x ':=' r 'in' k" := (r_bind r (λ x, k))
  (at level 200, x binder, r at level 100, k at level 200,
   format "'[v' 'let?'  x  ':='  r  'in' '/' k ']'") : laminar_scope.
Local Open Scope laminar_scope.

(** [&d[a..b]]; [None] stands for the panic. *)
Definition slice (d : list Z) (a b : Z) : option (list Z) :=
  if (0 <=? a) && (a <=? b) && (b <=? zlen d)
  then Some (take (Z.to_nat (b - a)) (drop (Z.to_nat a) d)) else None.

Definition Cursor_new (data : list Z) : Cursor := mkCursor data 0.
Definition Cursor_remaining (c : Cursor) : Z := u64_sat_sub (zlen (cur_data c)) (cur_pos c).

Definition check_remaining (needed : Z) : Reader () := λ c,
  if Cursor_remaining c <? needed then Raise (UnexpectedEof (cur_pos c) needed) else Done ((), c).

(** Read [data[pos..pos + n]] and advance. *)
Definition take_bytes (n : Z) : Reader (list Z) := λ c,
  match slice (cur_data c) (cur_pos c) (cur_pos c + n) with
  | Some b => Done (b, mkCursor (cur_data c) (cur_pos c + n))
  | None => Panic
  end.

(** The bounds check and the access of the readers of a fixed width. *)
Definition fixed (n : Z) : Reader (list Z) := let? _ := check_remaining n in take_bytes n.

Definition read_u8 : Reader Z := λ c,
  if zlen (cur_data c) <=? cur_pos c then Raise (UnexpectedEof (cur_pos c) 1)
  else match cur_data c !! Z.to_nat (cur_pos c) with
       | Some val => Done (val, mkCursor (cur_data c) (cur_pos c + 1))
       | None => Panic
       end.

(** [uN::from_be_bytes] read at width [w] bits as a signed number. *)
Definition signed (w : Z) (z : Z) : Z := if z <? 2 ^ (w - 1) then z else z - 2 ^ w.

Definition read_i16 : Reader Z :=
  let? b := fixed 2 in r_ret (signed 16 (from_be b)).
Definition read_i32 : Reader Z :=
  let? b := fixed 4 in r_ret (signed 32 (from_be b)).
Definition read_u32 : Reader Z :=
  let? b := fixed 4 in r_ret (from_be b).
Definition read_i64 : Reader Z :=
  let? b := fixed 8 in r_ret (signed 64 (from_be b)).
Definition read_u64 : Reader Z :=
  let? b := fixed 8 in r_ret (from_be b).

Definition read_cstring : Reader Str := λ c,
  match slice (cur_data c) (cur_pos c) (zlen (cur_data c)) with
  | None => Panic
  | Some rest =>
    match list_find (λ b, b = 0) rest with
    | None => Raise (InvalidData (lit "unterminated string"))
    | Some (nul_pos, _) =>
      match slice (cur_data c) (cur_pos c) (cur_pos c + Z.of_nat nul_pos) with
      | None => Panic
      | Some b =>
        match from_utf8 b with
        | None => Raise (InvalidUtf8 (cur_pos c))
        | Some s => Done (s, mkCursor (cur_data c) (cur_pos c + (Z.of_nat nul_pos + 1)))
        end
      end
    end
  end.

Definition read_bytes (len : Z) : Reader (list Z) := fixed len.

(** [for _ in 0..n { v.push(r(cur)?) }] *)
Fixpoint read_n {A} (r : Reader A) (n : nat) (v : list A) : Reader (list A) :=
  match n with
  | O => r_ret v
  | S n' => let? x := r in read_n r n' (v ++ [x])
  end.

(** ** The decoder *)

Definition PG_EPOCH_OFFSET_US : Z := 946684800000000.

Definition pg_timestamp_to_unix_ms (pg_us : Z) : Z :=
  Z.quot (i64_add pg_us PG_EPOCH_OFFSET_US) 1000.

Definition decode_begin : Reader WalMessage :=
  let? final_lsn := read_u64 in
  let? commit_ts_us := read_i64 in
  let? xid := read_u32 in
  r_ret (Begin (mkBegin (Lsn_new final_lsn) (pg_timestamp_to_unix_ms commit_ts_us) xid)).

Definition decode_commit : Reader WalMessage :=
  let? flags := read_u8 in
  let? commit_lsn := read_u64 in
  let? end_lsn := read_u64 in
  let? commit_ts_us := read_i64 in
  r_ret (Commit (mkCommit flags (Lsn_new commit_lsn) (Lsn_new end_lsn)
    (pg_timestamp_to_unix_ms commit_ts_us))).

(** [usize::try_from] of a count or a length. *)
Definition non_negative (what : string) (z : Z) : Reader Z :=
  if z <? 0 then r_fail (InvalidData (lit what ++ fmt_int z)) else r_ret z.

Definition decode_relation_column : Reader PgColumn :=
  let? flags := read_u8 in
  let? col_name := read_cstring in
  let? type_oid := read_u32 in
  let? type_modifier := read_i32 in
  r_ret (mkPgColumn col_name type_oid type_modifier (negb (Z.land flags 1 =? 0))).

Definition decode_relation : Reader WalMessage :=
  let? relation_id := read_u32 in
  let? namespace := read_cstring in
  let? name := read_cstring in
  let? replica_identity := read_u8 in
  let? n_cols_raw := read_i16 in
  let? n_cols := non_negative "negative column count: " n_cols_raw in
  let? columns := read_n decode_relation_column (Z.to_nat n_cols) [] in
  r_ret (Relation (mkRelation relation_id namespace name replica_identity columns)).

Definition decode_column : Reader ColumnValue :=
  let? col_type := read_u8 in
  if col_type =? ch "n" then r_ret Null
  else if col_type =? ch "u" then r_ret Unchanged
  else if col_type =? ch "t" then
    let? len_raw := read_i32 in
    let? len := non_negative "negative text length: " len_raw in
    let? data := read_bytes len in
    λ c, match from_utf8 data with
         | Some text => Done (Text text, c)
         | None => Raise (InvalidUtf8 (cur_pos c - len))
         end
  else r_fail (InvalidData (lit "unknown column type: 0x" ++ fmt_02X col_type)).

Definition decode_tuple_data : Reader TupleData :=
  let? n_cols_raw := read_i16 in
  let? n_cols := non_negative "negative column count: " n_cols_raw in
  let? columns := read_n decode_column (Z.to_nat n_cols) [] in
  r_ret (mkTuple columns).

Definition decode_insert : Reader WalMessage :=
  let? relation_id := read_u32 in
  let? tag := read_u8 in
  if negb (tag =? ch "N")
  then r_fail (InvalidData (lit "expected 'N' tag in INSERT, got 0x" ++ fmt_02X tag))
  else
    let? new_tuple := decode_tuple_data in
    r_ret (Insert (mkInsert relation_id new_tuple)).

Definition decode_update : Reader WalMessage :=
  let? relation_id := read_u32 in
  let? tag := read_u8 in
  if tag =? ch "N" then
    let? new := decode_tuple_data in
    r_ret (Update (mkUpdate relation_id None new))
  else if (tag =? ch "K") || (tag =? ch "O") then
    let? old := decode_tuple_data in
    let? new_tag := read_u8 in
    if negb (new_tag =? ch "N")
    then r_fail (InvalidData
      (lit "expected 'N' tag after old tuple in UPDATE, got 0x" ++ fmt_02X new_tag))
    else
      let? new := decode_tuple_data in
      r_ret (Update (mkUpdate relation_id (Some old) new))
  else r_fail (InvalidData (lit "unexpected tag in UPDATE: 0x" ++ fmt_02X tag)).

Definition decode_delete : Reader WalMessage :=
  let? relation_id := read_u32 in
  let? tag := read_u8 in
  if negb (tag =? ch "K") && negb (tag =? ch "O")
  then r_fail (InvalidData (lit "expected 'K' or 'O' tag in DELETE, got 0x" ++ fmt_02X tag))
  else
    let? old_tuple := decode_tuple_data in
    r_ret (Delete (mkDelete relation_id old_tuple)).

Definition decode_truncate : Reader WalMessage :=
  let? n_relations := read_u32 in
  let? options := read_u8 in
  let? relation_ids := read_n read_u32 (Z.to_nat n_relations) [] in
  r_ret (Truncate (mkTruncate relation_ids options)).

Definition decode_origin : Reader WalMessage :=
  let? origin_lsn := read_u64 in
  let? name := read_cstring in
  r_ret (Origin (mkOrigin (Lsn_new origin_lsn) name)).

Definition decode_type : Reader WalMessage :=
  let? type_id := read_u32 in
  let? namespace := read_cstring in
  let? name := read_cstring in
  r_ret (Type_ (mkType type_id namespace name)).

(** The message after its first byte. *)
Definition decode_body (msg_type : Z) : Reader WalMessage :=
  if msg_type =? ch "B" then decode_begin
  else if msg_type =? ch "C" then decode_commit
  else if msg_type =? ch "R" then decode_relation
  else if msg_type =? ch "I" then decode_insert
  else if msg_type =? ch "U" then decode_update
  else if msg_type =? ch "D" then decode_delete
  else if msg_type =? ch "T" then decode_truncate
  else if msg_type =? ch "O" then decode_origin
  else if msg_type =? ch "Y" then decode_type
  else r_fail (UnknownMessageType msg_type).

Definition decode_message (data : list Z) : Outcome WalMessage :=
  match data with
  | [] => Raise (InvalidData (lit "empty message"))
  | _ =>
    match r_bind read_u8 decode_body (Cursor_new data) with
    | Done (m, _) => Done m
    | Raise e => Raise e
    | Panic => Panic
    end
  end.

(** ** Grammars

    A grammar relates the bytes of a phrase to the value it stands for. A reader
    recognises a grammar when it accepts exactly the phrases of the grammar at its
    position, advances past the phrase, and never panics. *)

Definition Gram (A : Type) : Type := list Z → A → Prop.

Definition g_ret {A} (a : A) : Gram A := λ l b, l = [] ∧ b = a.
Definition g_fail {A} : Gram A := λ _ _, False.
Definition g_bind {A B} (G : Gram A) (K : A → Gram B) : Gram B := λ l b,
  ∃ l1 l2 a, l = l1 ++ l2 ∧ G l1 a ∧ K a l2 b.
(** One phrase: the encoding [enc] of a value in [dom]. *)
Definition g_enc {A} (dom : A → Prop) (enc : A → list Z) : Gram A := λ l a, dom a ∧ l = enc a.
Fixpoint g_n {A} (G : Gram A) (n : nat) : Gram (list A) :=
  match n with
  | O => g_ret []
  | S n' => g_bind G (λ x, g_bind (g_n G n') (λ xs, g_ret (x :: xs)))
  end.

Definition at_pos (pre rest : list Z) : Cursor := mkCursor (pre ++ rest) (zlen pre).

Record Recognises {A} (r : Reader A) (G : Gram A) : Prop := {
  rec_complete pre l suf a : G l a → r (at_pos pre (l ++ suf)) = Done (a, at_pos (pre ++ l) suf);
  rec_sound pre rest : Forall is_u8 rest →
    match r (at_pos pre rest) with
    | Done (a, c) => ∃ l suf, rest = l ++ suf ∧ G l a ∧ c = at_pos (pre ++ l) suf
    | Raise _ => True
    | Panic => False
    end }.

Lemma at_pos_assoc pre l suf : at_pos pre (l ++ suf) = mkCursor ((pre ++ l) ++ suf) (zlen pre).
Proof. unfold at_pos. by rewrite app_assoc. Qed.

Lemma recognises_ret {A} (a : A) : Recognises (r_ret a) (g_ret a).
Proof.
  split.
  - intros pre l suf b [-> ->]. by rewrite app_nil_r.
  - intros pre rest _. exists [], rest. by rewrite app_nil_r.
Qed.

Lemma recognises_fail {A} e : Recognises (r_fail e : Reader A) g_fail.
Proof. split; [done|]. by intros. Qed.

Lemma recognises_bind {A B} (r : Reader A) (k : A → Reader B) G K :
  Recognises r G → (∀ a, Recognises (k a) (K a)) → Recognises (r_bind r k) (g_bind G K).
Proof.
  intros [Hc Hs] Hk. split.
  - intros pre l suf b (l1 & l2 & a & -> & Hg & HK). unfold r_bind.
    rewrite <- app_assoc, (Hc _ _ _ _ Hg), (rec_complete _ _ (Hk a) _ _ _ _ HK).
    by rewrite app_assoc.
  - intros pre rest Hu. specialize (Hs pre rest Hu). unfold r_bind.
    destruct (r (at_pos pre rest)) as [[a c]|e|]; [|done..].
    destruct Hs as (l1 & suf & -> & Hg & ->). apply Forall_app in Hu as [_ Hu].
    pose proof (rec_sound _ _ (Hk a) (pre ++ l1) suf Hu) as Hb.
    destruct (k a _) as [[b c]|e|]; [|done..].
    destruct Hb as (l2 & suf' & -> & HK & ->). exists (l1 ++ l2), suf'.
    rewrite !app_assoc. split_and!; [done| |done]. by exists l1, l2, a.
Qed.

Lemma recognises_if {A} (b : bool) (r1 r2 : Reader A) G1 G2 :
  Recognises r1 G1 → Recognises r2 G2 →
  Recognises (if b then r1 else r2) (if b then G1 else G2).
Proof. by destruct b. Qed.

Lemma recognises_equiv {A} (r : Reader A) G G' :
  Recognises r G → (∀ l a, G l a ↔ G' l a) → Recognises r G'.
Proof.
  intros [Hc Hs] He. split.
  - intros pre l suf a Hg. apply Hc. by apply He.
  - intros pre rest Hu. specialize (Hs pre rest Hu). repeat case_match; try done.
    destruct Hs as (l & suf & ? & Hg & ?). exists l, suf. split_and!; [done|by apply He|done].
Qed.

Lemma recognises_n {A} (r : Reader A) G n v :
  Recognises r G →
  Recognises (read_n r n v) (g_bind (g_n G n) (λ xs, g_ret (v ++ xs))).
Proof.
  intros Hr. revert v. induction n as [|n IH]; intros v.
  - eapply recognises_equiv; [apply recognises_ret|]. intros l a. split.
    + intros [-> ->]. exists [], [], []. split_and!; [done..|]. split; [done|]. by rewrite app_nil_r.
    + intros (l1 & l2 & xs & -> & [-> ->] & [-> ->]). split; [done|by rewrite app_nil_r].
  - eapply recognises_equiv; [apply recognises_bind; [exact Hr|intros x; apply IH]|].
    intros l ys. split.
    + intros (l1 & l' & x & -> & Hx & (l2 & l3 & xs & -> & Hn & [-> ->])).
      exists (l1 ++ l2), [], (x :: xs). split; [by rewrite !app_nil_r|]. split.
      * exists l1, l2, x. split_and!; [done..|]. exists l2, [], xs. by rewrite app_nil_r.
      * split; [done|]. cbn. by rewrite <- app_assoc.
    + intros (l' & l3 & xs' & -> & (l1 & l4 & x & -> & Hx & (l2 & l5 & xs & -> & Hn & [-> ->])) & [-> ->]).
      rewrite !app_nil_r. exists l1, l2, x. split_and!; [done..|].
      exists l2, [], xs. rewrite app_nil_r. split_and!; [done..|].
      split; [done|]. by rewrite <- app_assoc.
Qed.

(** ** The primitive readers *)

Lemma slice_app pre l suf : slice (pre ++ l ++ suf) (zlen pre) (zlen pre + zlen l) = Some l.
Proof.
  unfold slice. rewrite !length_app, !(proj2 (Z.leb_le _ _)) by lia. cbn [andb].
  replace (Z.to_nat (zlen pre + zlen l - zlen pre)) with (length l) by lia.
  rewrite Nat2Z.id, drop_app_length, take_app_length. done.
Qed.

Lemma at_pos_next pre l suf :
  mkCursor (pre ++ l ++ suf) (zlen pre + zlen l) = at_pos (pre ++ l) suf.
Proof. unfold at_pos. rewrite length_app, app_assoc. f_equal. lia. Qed.

Lemma fixed_ok pre l suf :
  fixed (zlen l) (at_pos pre (l ++ suf)) = Done (l, at_pos (pre ++ l) suf).
Proof.
  unfold fixed, r_bind, check_remaining, Cursor_remaining, take_bytes, u64_sat_sub, at_pos at 1. cbn.
  rewrite !length_app. rewrite (proj2 (Z.ltb_ge _ _)) by lia. cbn.
  by rewrite slice_app, at_pos_next.
Qed.

Lemma fixed_short n pre rest :
  zlen rest < n → fixed n (at_pos pre rest) = Raise (UnexpectedEof (zlen pre) n).
Proof.
  intros H. unfold fixed, r_bind, check_remaining, Cursor_remaining, u64_sat_sub, at_pos. cbn.
  rewrite length_app. by rewrite (proj2 (Z.ltb_lt _ _)) by lia.
Qed.

(** A reader of [n] bytes: the phrases are the lists of [n] bytes. *)
Lemma recognises_fixed n :
  0 <= n → Recognises (fixed n) (λ l b, zlen l = n ∧ b = l).
Proof.
  intros Hn. split.
  - intros pre l suf b [<- ->]. apply fixed_ok.
  - intros pre rest Hu. destruct (Z.ltb_spec (zlen rest) n).
    + by rewrite fixed_short.
    + assert (∃ l suf, rest = l ++ suf ∧ zlen l = n) as (l & suf & -> & <-).
      { exists (take (Z.to_nat n) rest), (drop (Z.to_nat n) rest).
        rewrite take_drop, length_take. split; [done|lia]. }
      rewrite fixed_ok. by exists l, suf.
Qed.

Lemma recognises_be (n : nat) (f : Z → Z) (dom : Z → Prop) :
  (∀ z, dom z → f (z mod 256 ^ Z.of_nat n) = z) →
  (∀ z, 0 <= z < 256 ^ Z.of_nat n → dom (f z) ∧ f z mod 256 ^ Z.of_nat n = z) →
  Recognises (let? b := fixed (Z.of_nat n) in r_ret (f (from_be b))) (g_enc dom (to_be n)).
Proof.
  intros H1 H2. split.
  - intros pre l suf z [Hz ->]. unfold r_bind.
    replace (Z.of_nat n) with (zlen (to_be n z)) by (by rewrite to_be_length).
    rewrite fixed_ok. unfold r_ret. by rewrite from_to_be, H1.
  - intros pre rest Hu.
    pose proof (rec_sound _ _ (recognises_fixed (Z.of_nat n) ltac:(lia)) pre rest Hu) as Hf.
    unfold r_bind. destruct (fixed _ _) as [[b c]|e|]; [|done..].
    destruct Hf as (l & suf & -> & [Hl ->] & ->). apply Forall_app in Hu as [Hu _].
    exists l, suf. split_and!; [done| |done].
    apply Nat2Z.inj in Hl. pose proof (from_be_range l Hu) as Hr. rewrite Hl in Hr.
    destruct (H2 _ Hr) as [Hd Hm]. split; [done|].
    rewrite <- to_be_mod, Hm, <- Hl. symmetry. by apply to_from_be.
Qed.

Definition is_i16 (z : Z) : Prop := -32768 <= z < 32768.
Definition is_i32 (z : Z) : Prop := -2147483648 <= z < 2147483648.
Definition is_u32 (z : Z) : Prop := 0 <= z < 4294967296.

Lemma signed_dom w z : 0 < w → 0 <= z < 2 ^ w → - 2 ^ (w - 1) <= signed w z < 2 ^ (w - 1).
Proof.
  intros Hw Hz. unfold signed. assert (2 ^ w = 2 * 2 ^ (w - 1)).
  { rewrite <- Z.pow_succ_r by lia. f_equal. lia. }
  case_match; lia.
Qed.

Lemma signed_mod w z : 0 < w → 0 <= z < 2 ^ w → signed w z mod 2 ^ w = z.
Proof.
  intros Hw Hz. unfold signed. case_match; [by apply Z.mod_small|].
  rewrite <- (Z.mod_add _ 1) by lia. rewrite Z.mod_small; lia.
Qed.

Lemma signed_of_mod w z : 0 < w → - 2 ^ (w - 1) <= z < 2 ^ (w - 1) → signed w (z mod 2 ^ w) = z.
Proof.
  intros Hw Hz. unfold signed. assert (2 ^ w = 2 * 2 ^ (w - 1)).
  { rewrite <- Z.pow_succ_r by lia. f_equal. lia. }
  destruct (decide (0 <= z)).
  - rewrite Z.mod_small by lia. case_match; lia.
  - rewrite <- (Z.mod_add z 1), Z.mod_small by lia. case_match; lia.
Qed.

Lemma read_u8_at pre z suf : read_u8 (at_pos pre (z :: suf)) = Done (z, at_pos (pre ++ [z]) suf).
Proof.
  rewrite <- (at_pos_next pre [z] suf). unfold read_u8, at_pos. cbn [cur_data cur_pos].
  rewrite length_app, (proj2 (Z.leb_gt _ _)) by (cbn; lia).
  by rewrite Nat2Z.id, list_lookup_middle.
Qed.

Lemma recognises_read_u8 : Recognises read_u8 (g_enc is_u8 (λ z, [z])).
Proof.
  split.
  - intros pre l suf z [Hz ->]. apply read_u8_at.
  - intros pre [|z suf] Hu.
    + unfold read_u8, at_pos. cbn [cur_data cur_pos]. by rewrite app_nil_r, Z.leb_refl.
    + rewrite read_u8_at. inversion Hu; subst. by exists [z], suf.
Qed.

Lemma recognises_unsigned (n : nat) (dom : Z → Prop) :
  (∀ z, dom z ↔ 0 <= z < 256 ^ Z.of_nat n) →
  Recognises (let? b := fixed (Z.of_nat n) in r_ret (from_be b)) (g_enc dom (to_be n)).
Proof.
  intros Hd. apply (recognises_be n (λ z, z)); intros z Hz.
  - apply Z.mod_small. by apply Hd.
  - split; [by apply Hd|by apply Z.mod_small].
Qed.

Lemma recognises_signed (n : nat) (dom : Z → Prop) :
  (0 < n)%nat →
  (∀ z, dom z ↔ - 2 ^ (8 * Z.of_nat n - 1) <= z < 2 ^ (8 * Z.of_nat n - 1)) →
  Recognises (let? b := fixed (Z.of_nat n) in r_ret (signed (8 * Z.of_nat n) (from_be b)))
    (g_enc dom (to_be n)).
Proof.
  intros Hn Hd.
  assert (Hp : 256 ^ Z.of_nat n = 2 ^ (8 * Z.of_nat n)) by (rewrite Z.pow_mul_r by lia; done).
  apply recognises_be; intros z Hz; rewrite Hp in *.
  - apply signed_of_mod; [lia|]. by apply Hd.
  - split; [apply Hd; apply signed_dom; lia|apply signed_mod; lia].
Qed.

Lemma recognises_read_i16 : Recognises read_i16 (g_enc is_i16 (to_be 2)).
Proof. by apply (recognises_signed 2); [lia|]. Qed.
Lemma recognises_read_i32 : Recognises read_i32 (g_enc is_i32 (to_be 4)).
Proof. by apply (recognises_signed 4); [lia|]. Qed.
Lemma recognises_read_u32 : Recognises read_u32 (g_enc is_u32 (to_be 4)).
Proof. by apply (recognises_unsigned 4). Qed.
Lemma recognises_read_i64 : Recognises read_i64 (g_enc is_i64 (to_be 8)).
Proof.
  apply (recognises_signed 8); [lia|]. intros z. unfold is_i64.
  change (2 ^ (8 * Z.of_nat 8 - 1)) with 9223372036854775808. lia.
Qed.
Lemma recognises_read_u64 : Recognises read_u64 (g_enc is_u64 (to_be 8)).
Proof. by apply (recognises_unsigned 8). Qed.

(** A string without NUL, and its encoding in a message. *)
Definition cstring_ok (s : Str) : Prop := Forall is_scalar s ∧ 0 ∉ s.
Definition enc_cstring (s : Str) : list Z := str_utf8 s ++ [0].

Lemma list_find_nul l suf : 0 ∉ l → list_find (λ b, b = 0) (l ++ 0 :: suf) = Some (length l, 0).
Proof.
  intros H. apply list_find_Some. split_and!; [by rewrite list_lookup_middle|done|].
  intros j y Hj Hlt ->. rewrite lookup_app_l in Hj by done. apply H. by apply list_elem_of_lookup_2 in Hj.
Qed.

Lemma slice_rest pre rest : slice (pre ++ rest) (zlen pre) (zlen (pre ++ rest)) = Some rest.
Proof.
  pose proof (slice_app pre rest []) as H. rewrite app_nil_r in H.
  rewrite length_app, Nat2Z.inj_add. exact H.
Qed.

(** [read_cstring] where the string's bytes [l] and their NUL are next. *)
Lemma read_cstring_at pre l suf :
  0 ∉ l →
  read_cstring (at_pos pre (l ++ 0 :: suf)) =
    match from_utf8 l with
    | Some s => Done (s, at_pos (pre ++ l ++ [0]) suf)
    | None => Raise (InvalidUtf8 (zlen pre))
    end.
Proof.
  intros Hl. rewrite <- (at_pos_next pre (l ++ [0]) suf), <- app_assoc.
  unfold read_cstring, at_pos. cbn [cur_data cur_pos].
  rewrite slice_rest, list_find_nul, slice_app by done.
  destruct (from_utf8 l) as [s|]; [|done]. do 3 f_equal.
  rewrite length_app. cbn [length]. lia.
Qed.

Lemma recognises_read_cstring : Recognises read_cstring (g_enc cstring_ok enc_cstring).
Proof.
  split.
  - intros pre l suf s [[Hs H0] ->]. unfold enc_cstring. rewrite <- app_assoc.
    change ([0] ++ suf) with (0 :: suf). rewrite (read_cstring_at pre (str_utf8 s) suf), from_utf8_encode; [done..|].
    intros Hin. by apply H0, str_utf8_nul.
  - intros pre rest Hu. destruct (list_find (λ b, b = 0) rest) as [[i b]|] eqn:E.
    + apply list_find_Some in E as (Hi & -> & Hlt).
      rewrite <- (take_drop_middle rest i 0 Hi) in Hu |- *.
      assert (Hn : 0 ∉ take i rest).
      { intros Hin. apply list_elem_of_lookup in Hin as (j & Hj).
        apply lookup_take_Some in Hj as [Hj Hji]. by apply (Hlt j 0). }
      rewrite read_cstring_at by done.
      destruct (from_utf8 (take i rest)) as [s|] eqn:Es; [|done].
      apply from_utf8_sound in Es as [Hs He].
      exists (take i rest ++ [0]), (drop (S i) rest). rewrite <- app_assoc. split_and!; [done| |done].
      split; [split; [done|]|unfold enc_cstring; by rewrite He].
      intros H0. apply Hn. rewrite <- He. unfold str_utf8. apply list_elem_of_bind. by exists 0; split; [left|].
    + unfold read_cstring, at_pos. cbn [cur_data cur_pos]. by rewrite slice_rest, E.
Qed.

(** ** The message formats of the protocol *)

Definition column_ok (v : ColumnValue) : Prop :=
  match v with
  | Text s => Forall is_scalar s ∧ zlen (str_utf8 s) < 2147483648
  | _ => True
  end.
Definition enc_column (v : ColumnValue) : list Z :=
  match v with
  | Null => [ch "n"]
  | Unchanged => [ch "u"]
  | Text s => [ch "t"] ++ to_be 4 (zlen (str_utf8 s)) ++ str_utf8 s
  end.

Definition tuple_ok (t : TupleData) : Prop :=
  zlen (columns t) < 32768 ∧ Forall column_ok (columns t).
Definition enc_tuple (t : TupleData) : list Z :=
  to_be 2 (zlen (columns t)) ++ (columns t ≫= enc_column).

(** A column of a Relation message; bit 0 of the flags marks a key column. *)
Inductive wire_column : list Z → PgColumn → Prop :=
  | wire_column_intro flags name oid modifier :
    is_u8 flags → cstring_ok name → is_u32 oid → is_i32 modifier →
    wire_column ([flags] ++ enc_cstring name ++ to_be 4 oid ++ to_be 4 modifier)
      (mkPgColumn name oid modifier (negb (Z.land flags 1 =? 0))).

Inductive pgoutput : list Z → WalMessage → Prop :=
  | pgo_begin lsn ts xid :
    is_u64 lsn → is_i64 ts → is_u32 xid →
    pgoutput ([ch "B"] ++ to_be 8 lsn ++ to_be 8 ts ++ to_be 4 xid)
      (Begin (mkBegin lsn (pg_timestamp_to_unix_ms ts) xid))
  | pgo_commit flags lsn end_lsn ts :
    is_u8 flags → is_u64 lsn → is_u64 end_lsn → is_i64 ts →
    pgoutput ([ch "C"] ++ [flags] ++ to_be 8 lsn ++ to_be 8 end_lsn ++ to_be 8 ts)
      (Commit (mkCommit flags lsn end_lsn (pg_timestamp_to_unix_ms ts)))
  | pgo_relation id namespace name identity ls cols :
    is_u32 id → cstring_ok namespace → cstring_ok name → is_u8 identity →
    zlen cols < 32768 → Forall2 wire_column ls cols →
    pgoutput ([ch "R"] ++ to_be 4 id ++ enc_cstring namespace ++ enc_cstring name ++ [identity]
        ++ to_be 2 (zlen cols) ++ concat ls)
      (Relation (mkRelation id namespace name identity cols))
  | pgo_insert id t :
    is_u32 id → tuple_ok t →
    pgoutput ([ch "I"] ++ to_be 4 id ++ [ch "N"] ++ enc_tuple t) (Insert (mkInsert id t))
  | pgo_update id t :
    is_u32 id → tuple_ok t →
    pgoutput ([ch "U"] ++ to_be 4 id ++ [ch "N"] ++ enc_tuple t) (Update (mkUpdate id None t))
  | pgo_update_old id tag old t :
    is_u32 id → tag = ch "K" ∨ tag = ch "O" → tuple_ok old → tuple_ok t →
    pgoutput ([ch "U"] ++ to_be 4 id ++ [tag] ++ enc_tuple old ++ [ch "N"] ++ enc_tuple t)
      (Update (mkUpdate id (Some old) t))
  | pgo_delete id tag old :
    is_u32 id → tag = ch "K" ∨ tag = ch "O" → tuple_ok old →
    pgoutput ([ch "D"] ++ to_be 4 id ++ [tag] ++ enc_tuple old) (Delete (mkDelete id old))
  | pgo_truncate ids options :
    zlen ids < 4294967296 → Forall is_u32 ids → is_u8 options →
    pgoutput ([ch "T"] ++ to_be 4 (zlen ids) ++ [options] ++ (ids ≫= to_be 4))
      (Truncate (mkTruncate ids options))
  | pgo_origin lsn name :
    is_u64 lsn → cstring_ok name →
    pgoutput ([ch "O"] ++ to_be 8 lsn ++ enc_cstring name) (Origin (mkOrigin lsn name))
  | pgo_type id namespace name :
    is_u32 id → cstring_ok namespace → cstring_ok name →
    pgoutput ([ch "Y"] ++ to_be 4 id ++ enc_cstring namespace ++ enc_cstring name)
      (Type_ (mkType id namespace name)).

(** ** The decoders recognise the formats *)

Lemma g_bind_intro {A B} (G : Gram A) (K : A → Gram B) l1 l2 a b :
  G l1 a → K a l2 b → g_bind G K (l1 ++ l2) b.
Proof. intros ??. by exists l1, l2, a. Qed.

Lemma g_bind_ret {A B} (G : Gram A) (f : A → B) l b :
  g_bind G (λ a, g_ret (f a)) l b ↔ ∃ a, G l a ∧ b = f a.
Proof.
  split.
  - intros (l1 & l2 & a & -> & Ha & [-> ->]). rewrite app_nil_r. by exists a.
  - intros (a & Ha & ->). exists l, [], a. by rewrite app_nil_r.
Qed.

Lemma g_bind_enc {A B} dom enc (K : A → Gram B) l b :
  g_bind (g_enc dom enc) K l b ↔ ∃ a l2, l = enc a ++ l2 ∧ dom a ∧ K a l2 b.
Proof.
  split.
  - intros (l1 & l2 & a & -> & [Ha ->] & HK). by exists a, l2.
  - intros (a & l2 & -> & Ha & HK). by exists (enc a), l2, a.
Qed.

Lemma g_n_forall2 {A} (G : Gram A) n l xs :
  g_n G n l xs ↔ length xs = n ∧ ∃ ls, l = concat ls ∧ Forall2 G ls xs.
Proof.
  revert l xs. induction n as [|n IH]; intros l xs; cbn.
  - split.
    + intros [-> ->]. split; [done|]. by exists [].
    + intros (Hn & ls & -> & HF). apply nil_length_inv in Hn as ->. by inversion HF; subst.
  - split.
    + intros (l1 & l2 & x & -> & Hx & (xs' & Hxs & ->)%g_bind_ret).
      apply IH in Hxs as (<- & ls & -> & HF). split; [done|]. exists (l1 :: ls). by split; [|constructor].
    + intros (Hn & ls & -> & HF). destruct xs as [|x xs]; [done|].
      inversion HF as [|l1 ? ls' ? Hx HF']; subst. cbn. apply g_bind_intro with x; [done|].
      apply g_bind_ret. exists xs. split; [|done]. apply IH. split; [by injection Hn|]. by exists ls'.
Qed.

Lemma Forall2_enc {A} dom (enc : A → list Z) ls xs :
  Forall2 (g_enc dom enc) ls xs → Forall dom xs ∧ concat ls = xs ≫= enc.
Proof.
  induction 1 as [|l x ls xs [Hx ->] _ [IH1 IH2]]; [done|]. rewrite bind_cons. cbn. rewrite IH2.
  by split; [constructor|].
Qed.

Lemma g_n_enc {A} dom (enc : A → list Z) n l xs :
  g_n (g_enc dom enc) n l xs ↔ length xs = n ∧ Forall dom xs ∧ l = xs ≫= enc.
Proof.
  rewrite g_n_forall2. split.
  - intros (Hn & ls & -> & [Hd He]%Forall2_enc). by split_and!.
  - intros (Hn & Hd & ->). split; [done|]. clear Hn. exists (enc <$> xs).
    split; [by induction xs; cbn; [|inversion Hd; f_equal; auto]|].
    induction Hd; constructor; [by split|done].
Qed.

(** A count or a length that is checked before it is used. *)
Lemma recognises_non_negative {A} what z (k : Z → Reader A) (K : Gram A) :
  (0 <= z → Recognises (k z) K) →
  Recognises (r_bind (non_negative what z) k) (λ l b, 0 <= z ∧ K l b).
Proof.
  intros Hk. unfold non_negative. destruct (Z.ltb_spec z 0).
  - eapply recognises_equiv; [apply recognises_fail|]. intros l a. unfold g_fail. lia.
  - eapply (recognises_equiv _ K); [by apply Hk|]. intros l a. naive_solver.
Qed.

Create HintDb recog.
#[export] Hint Resolve recognises_read_u8 recognises_read_i16
  recognises_read_i32 recognises_read_u32 recognises_read_i64 recognises_read_u64
  recognises_read_cstring recognises_n : recog.

(** Follow the structure of a reader; the grammar is built on the way. *)
Ltac recog :=
  repeat first
    [ apply recognises_ret
    | apply recognises_fail
    | solve [eauto with recog]
    | apply recognises_non_negative; intros ?
    | apply recognises_bind; [|intros ?]
    | apply recognises_if ].

(** Take a phrase of a composed grammar apart. *)
Ltac g_inv :=
  repeat match goal with
  | H : g_fail _ _ |- _ => destruct H
  | H : g_ret _ _ _ |- _ => destruct H as [-> ->]
  | H : g_enc _ _ _ _ |- _ => destruct H as [? ->]
  | H : g_n (g_enc _ _) _ _ _ |- _ => apply g_n_enc in H as (? & ? & ->)
  | H : (_ <= _) ∧ _ |- _ => destruct H as [? H]
  | H : g_bind _ (λ _, g_ret _) _ _ |- _ => apply g_bind_ret in H as (? & ? & ->)
  | H : g_bind _ _ _ _ |- _ => destruct H as (? & ? & ? & -> & ? & H)
  | H : (if ?b then _ else _) _ _ |- _ => let E := fresh "E" in destruct b eqn:E
  end; rewrite ?app_nil_r in *.

(** What the tests of a tag say about it. *)
Ltac g_tags :=
  repeat match goal with
  | H : (_ =? _) = true |- _ => apply Z.eqb_eq in H; subst
  | H : negb _ = true |- _ => apply negb_true_iff in H
  | H : negb _ = false |- _ => apply negb_false_iff in H
  | H : (_ || _) = true |- _ => apply orb_true_iff in H as [H|H]
  | H : (_ && _) = false |- _ => apply andb_false_iff in H as [H|H]
  end.

(** Build a phrase of a composed grammar. *)
Ltac g_build :=
  repeat match goal with
  | |- g_bind (g_enc _ _) (λ _, g_ret _) _ _ =>
    apply g_bind_ret; eexists; split; [split; [|reflexivity]|reflexivity]
  | |- g_bind (g_enc _ _) _ (_ ++ _) _ => eapply g_bind_intro; [split; [|reflexivity]|]
  | |- g_bind (g_enc _ _) _ (_ :: ?l) _ => eapply (g_bind_intro _ _ [_] l); [split; [|reflexivity]|]
  | |- (if ?b then _ else _) _ _ => first [change b with true | change b with false]; cbv iota
  | |- _ => assumption
  end.

Lemma recognises_read_text len :
  0 <= len →
  Recognises (let? data := read_bytes len in
    λ c, match from_utf8 data with
         | Some text => Done (Text text, c)
         | None => Raise (InvalidUtf8 (cur_pos c - len))
         end)
    (λ l v, ∃ s, Forall is_scalar s ∧ zlen (str_utf8 s) = len ∧ l = str_utf8 s ∧ v = Text s).
Proof.
  intros Hlen. unfold read_bytes. split.
  - intros pre l suf v (s & Hs & <- & -> & ->). unfold r_bind.
    by rewrite fixed_ok, from_utf8_encode.
  - intros pre rest Hu.
    pose proof (rec_sound _ _ (recognises_fixed len Hlen) pre rest Hu) as Hf. unfold r_bind.
    destruct (fixed len _) as [[b c]|e|]; [|done..]. destruct Hf as (l & suf & -> & [Hl ->] & ->).
    destruct (from_utf8 l) as [s|] eqn:E; [|done]. apply from_utf8_sound in E as [Hs He].
    exists l, suf. split_and!; [done| |done]. exists s. by rewrite He.
Qed.

Lemma recognises_column : Recognises decode_column (g_enc column_ok enc_column).
Proof.
  eapply recognises_equiv.
  { unfold decode_column. apply recognises_bind; [apply recognises_read_u8|intros t].
    apply recognises_if; [apply recognises_ret|]. apply recognises_if; [apply recognises_ret|].
    apply recognises_if; [|apply recognises_fail].
    apply recognises_bind; [apply recognises_read_i32|intros n].
    apply recognises_non_negative, recognises_read_text. }
  intros l v. split.
  - intros H. g_inv; g_tags; [by split..|]. destruct H as (s & Hs & <- & -> & ->).
    split; [|done]. split; [done|]. unfold is_i32 in *. lia.
  - intros [Hv ->]. destruct v as [| |s]; cbn [enc_column column_ok] in *.
    + by apply g_bind_enc; exists (ch "n"), [].
    + by apply g_bind_enc; exists (ch "u"), [].
    + destruct Hv as [Hs Hl]. apply g_bind_intro with (ch "t"); [by split|].
      apply g_bind_intro with (zlen (str_utf8 s)); [split; [unfold is_i32; lia|done]|].
      split; [lia|]. by exists s.
Qed.

#[export] Hint Resolve recognises_column : recog.

Lemma recognises_tuple : Recognises decode_tuple_data (g_enc tuple_ok enc_tuple).
Proof.
  eapply recognises_equiv.
  { unfold decode_tuple_data. recog. }
  intros l v. split.
  - intros H. g_inv. cbn [app]. unfold is_i16 in *.
    match goal with H : length _ = Z.to_nat ?n |- _ => assert (n = zlen x2) as -> by lia end.
    split; [split; [cbn; lia|done]|done].
  - intros [[Hn Hc] ->]. unfold enc_tuple. apply g_bind_intro with (zlen (columns v)).
    { split; [unfold is_i16; lia|done]. }
    split; [lia|]. apply g_bind_ret. exists (columns v). split; [|by destruct v].
    apply g_bind_ret. exists (columns v). split; [|done]. apply g_n_enc. split_and!; [lia|done|done].
Qed.

Lemma recognises_relation_column : Recognises decode_relation_column wire_column.
Proof.
  eapply recognises_equiv; [unfold decode_relation_column; recog|].
  intros l v. split.
  - intros H. g_inv. by constructor.
  - destruct 1 as [flags name oid modifier]. g_build.
Qed.
#[export] Hint Resolve recognises_tuple recognises_relation_column : recog.

(** The body of a message, without its first byte. *)
Definition body (t : Z) : Gram WalMessage := λ l m, pgoutput ([t] ++ l) m.

(** The formats whose messages start with a given byte. *)
Ltac body_inv :=
  let Hm := fresh in let E := fresh "E" in
  intros Hm; unfold body in Hm;
  match type of Hm with pgoutput ?l0 _ => remember l0 eqn:E in Hm end;
  destruct Hm; try discriminate E;
  apply (f_equal tail) in E; cbn [tail app] in E; subst.

Lemma recognises_begin : Recognises decode_begin (body (ch "B")).
Proof.
  eapply recognises_equiv; [unfold decode_begin; recog|]. intros l m. split.
  - intros H. g_inv. by constructor.
  - body_inv. g_build.
Qed.

Lemma recognises_commit : Recognises decode_commit (body (ch "C")).
Proof.
  eapply recognises_equiv; [unfold decode_commit; recog|]. intros l m. split.
  - intros H. g_inv. by apply pgo_commit.
  - body_inv. g_build.
Qed.

Lemma recognises_relation : Recognises decode_relation (body (ch "R")).
Proof.
  eapply recognises_equiv; [unfold decode_relation; recog|]. intros l m. split.
  - intros H. g_inv. cbn [app].
    match goal with H : g_n _ _ _ _ |- _ => apply g_n_forall2 in H as (Hn & ls & -> & HF) end.
    unfold is_i16 in *. match type of Hn with length ?c = Z.to_nat ?n => assert (n = zlen c) as -> by lia end.
    apply pgo_relation; try done. lia.
  - body_inv. g_build; [unfold is_i16; lia|]. split; [lia|].
    apply g_bind_ret. exists cols. split; [|done]. apply g_bind_ret. exists cols. split; [|done].
    apply g_n_forall2. split; [lia|]. by exists ls.
Qed.

Lemma recognises_insert : Recognises decode_insert (body (ch "I")).
Proof.
  eapply recognises_equiv; [unfold decode_insert; recog|]. intros l m. split.
  - intros H. g_inv; g_tags. by apply pgo_insert.
  - body_inv. g_build. done.
Qed.

Lemma recognises_update : Recognises decode_update (body (ch "U")).
Proof.
  eapply recognises_equiv; [unfold decode_update; recog|]. intros l m. split.
  - intros H. g_inv; g_tags; [by apply pgo_update|apply pgo_update_old; auto..].
  - body_inv.
    + g_build. done.
    + destruct_or!; subst; g_build; done.
Qed.

Lemma recognises_delete : Recognises decode_delete (body (ch "D")).
Proof.
  eapply recognises_equiv; [unfold decode_delete; recog|]. intros l m. split.
  - intros H. g_inv; g_tags; apply pgo_delete; auto.
  - body_inv. destruct_or!; subst; g_build; done.
Qed.

Lemma recognises_truncate : Recognises decode_truncate (body (ch "T")).
Proof.
  eapply recognises_equiv; [unfold decode_truncate; recog|]. intros l m. split.
  - intros H. g_inv. cbn [app]. unfold is_u32 in *.
    match goal with H : length ?c = Z.to_nat ?n |- _ => assert (n = zlen c) as -> by lia end.
    apply pgo_truncate; [lia|done..].
  - body_inv. g_build; [unfold is_u32; lia|].
    apply g_bind_ret. exists ids. split; [|done]. apply g_bind_ret. exists ids. split; [|done].
    apply g_n_enc. split_and!; [lia|done..].
Qed.

Lemma recognises_origin : Recognises decode_origin (body (ch "O")).
Proof.
  eapply recognises_equiv; [unfold decode_origin; recog|]. intros l m. split.
  - intros H. g_inv. by apply pgo_origin.
  - body_inv. g_build.
Qed.

Lemma recognises_type : Recognises decode_type (body (ch "Y")).
Proof.
  eapply recognises_equiv; [unfold decode_type; recog|]. intros l m. split.
  - intros H. g_inv. by apply pgo_type.
  - body_inv. g_build.
Qed.

#[export] Hint Resolve recognises_begin recognises_commit recognises_relation recognises_insert
  recognises_update recognises_delete recognises_truncate recognises_origin recognises_type : recog.

Definition read_message : Reader WalMessage := r_bind read_u8 decode_body.

Lemma recognises_message : Recognises read_message pgoutput.
Proof.
  eapply recognises_equiv; [unfold read_message, decode_body; recog|]. intros l m. split.
  - intros H. g_inv; g_tags; done.
  - intros Hm. destruct Hm; g_build; try done; by constructor.
Qed.

Lemma decode_message_read data :
  data ≠ [] →
  decode_message data =
    match read_message (at_pos [] data) with
    | Done (m, _) => Done m | Raise e => Raise e | Panic => Panic
    end.
Proof. by destruct data. Qed.

Lemma pgoutput_nonempty l m : pgoutput l m → l ≠ [].
Proof. by destruct 1. Qed.

Lemma decode_message_complete l suf m :
  pgoutput l m → read_message (at_pos [] (l ++ suf)) = Done (m, at_pos l suf).
Proof. intros Hm. by rewrite (rec_complete _ _ recognises_message [] l suf m Hm). Qed.

Lemma decode_message_sound data m :
  Forall is_u8 data → decode_message data = Done m → ∃ l suf, data = l ++ suf ∧ pgoutput l m.
Proof.
  intros Hu Hd. assert (data ≠ []) by (by intros ->). rewrite decode_message_read in Hd by done.
  pose proof (rec_sound _ _ recognises_message [] data Hu) as Hs.
  destruct (read_message _) as [[m' c]|e|]; simplify_eq/=. destruct Hs as (l & suf & -> & Hm & _). eauto.
Qed.

(** No message's bytes are the beginning of another's. *)
Lemma pgoutput_prefix_free l l' t m m' :
  pgoutput l m → pgoutput l' m' → l' = l ++ t → t = [] ∧ m = m'.
Proof.
  intros H1 H2 ->. pose proof (decode_message_complete _ t _ H1) as E1.
  pose proof (decode_message_complete _ [] _ H2) as E2. rewrite app_nil_r in E2.
  rewrite E1 in E2. injection E2 as Hm Hc Hp. split; [|done].
  rewrite length_app in Hp. apply nil_length_inv. lia.
Qed.

Lemma enc_cstring_u8 s : cstring_ok s → Forall is_u8 (enc_cstring s).
Proof. intros [Hs _]. apply Forall_app. split; [by apply str_utf8_u8|by repeat constructor]. Qed.

Lemma enc_column_u8 v : column_ok v → Forall is_u8 (enc_column v).
Proof.
  destruct v as [| |s]; cbn [enc_column]; intros Hv; [by repeat constructor..|].
  apply Forall_app. split; [by repeat constructor|].
  apply Forall_app. split; [apply to_be_u8|apply str_utf8_u8, Hv].
Qed.

Lemma enc_tuple_u8 t : tuple_ok t → Forall is_u8 (enc_tuple t).
Proof.
  intros [_ Hc]. apply Forall_app. split; [apply to_be_u8|].
  apply Forall_bind. eapply Forall_impl; [exact Hc|apply enc_column_u8].
Qed.

Lemma wire_columns_u8 ls cols : Forall2 wire_column ls cols → Forall is_u8 (concat ls).
Proof.
  induction 1 as [|l c ls cols Hc _ IH]; cbn; [constructor|]. apply Forall_app. split; [|done].
  destruct Hc. rewrite !Forall_app, Forall_singleton. split_and!; auto using to_be_u8, enc_cstring_u8.
Qed.

Lemma pgoutput_u8 l m : pgoutput l m → Forall is_u8 l.
Proof.
  assert (Hb : ∀ b, is_u8 b → Forall is_u8 [b]) by (intros; by apply Forall_singleton).
  destruct 1; rewrite ?Forall_app; split_and!;
    eauto using to_be_u8, enc_cstring_u8, enc_tuple_u8, wire_columns_u8;
    try (by apply Hb; destruct_or?; subst).
  apply Forall_bind. eapply Forall_impl; [done|]. intros z _. apply to_be_u8.
Qed.

(** ** Theorems *)

(** The upper and the lower half of a position put together again. *)
Lemma lsn_halves l : Z.lor (Z.shiftl (Lsn_segment l) 32) (Lsn_offset l) = l.
Proof.
  unfold Lsn_segment, Lsn_offset. change 4294967296 with (2 ^ 32). rewrite <- Z.land_ones by lia.
  apply Z.bits_inj'. intros n Hn.
  rewrite Z.lor_spec, Z.shiftl_spec, Z.land_spec, Z.testbit_ones_nonneg by lia.
  destruct (Z.ltb_spec n 32).
  - rewrite Z.testbit_neg_r by lia. by rewrite andb_true_r.
  - rewrite Z.shiftr_spec by lia. rewrite andb_false_r, orb_false_r. f_equal. lia.
Qed.

Lemma Lsn_halves_range l : is_u64 l → 0 <= Lsn_segment l <= u32_MAX ∧ 0 <= Lsn_offset l <= u32_MAX.
Proof.
  unfold is_u64, Lsn_segment, Lsn_offset. intros H. rewrite Z.shiftr_div_pow2 by lia.
  change (2 ^ 32) with 4294967296. Z.to_euclidean_division_equations; lia.
Qed.

(** Reading the text of a position gives the position back. *)
Lemma Lsn_roundtrip l : is_u64 l → Lsn_from_str (Lsn_to_string l) = inl l.
Proof.
  intros Hl. apply Lsn_halves_range in Hl as [Hs Ho]. unfold Lsn_from_str, Lsn_to_string.
  change (lit "/") with [47]. cbn [app].
  rewrite split_once_app.
  - rewrite !u32_fmt_X by done. by rewrite lsn_halves.
  - apply fmt_X_chars; [|lia]. intros d Hd. unfold hex_digit. case_match; lia.
Qed.

(** [C9]: the decoder accepts exactly the messages of the protocol: [decode_message]
    returns a message if and only if the bytes begin with an encoding of that message
    in pgoutput's format, for all nine message types, with every count, length,
    terminator, tag and UTF-8 string checked; what follows the message is ignored. *)
Theorem pg_decode_exact data m :
  Forall is_u8 data →
  decode_message data = Done m ↔ ∃ l suf, data = l ++ suf ∧ pgoutput l m.
Proof.
  intros Hu. split; [by apply decode_message_sound|]. intros (l & suf & -> & Hm).
  rewrite decode_message_read.
  - by rewrite decode_message_complete with (m := m).
  - intros [-> _]%app_nil. by apply pgoutput_nonempty in Hm.
Qed.

Lemma pg_decode_exact_witness :
  decode_message ([ch "I"] ++ to_be 4 16384 ++ [ch "N"] ++
    enc_tuple (mkTuple [Text [52; 233]; Null; Unchanged]) ++ [7]) =
  Done (Insert (mkInsert 16384 (mkTuple [Text [52; 233]; Null; Unchanged]))).
Proof.
  apply (pg_decode_exact _ _).
  - vm_compute. repeat constructor; discriminate.
  - exists ([ch "I"] ++ to_be 4 16384 ++ [ch "N"] ++
      enc_tuple (mkTuple [Text [52; 233]; Null; Unchanged])), [7].
    split; [reflexivity|]. apply pgo_insert; [done|]. split; [done|].
    apply Forall_cons. split; [split; [|done]|repeat constructor].
    repeat (apply Forall_cons; split; [left; lia|]). constructor.
Defined.

(** The decoder is total and notices every truncation. No input, whatever its
    bytes, makes it index out of bounds, and when a message is cut anywhere before its
    end (in a number, a string, a tuple or between columns) the result is an error,
    never a shorter message. *)
Theorem pg_decode_total :
  (∀ data, Forall is_u8 data → decode_message data ≠ Panic) ∧
  (∀ l m p t, pgoutput l m → l = p ++ t → t ≠ [] → ∃ e, decode_message p = Raise e).
Proof.
  assert (Hsafe : ∀ data, Forall is_u8 data → decode_message data ≠ Panic).
  { intros data Hu. destruct (decide (data = [])) as [->|]; [done|]. rewrite decode_message_read by done.
    pose proof (rec_sound _ _ recognises_message [] data Hu). by repeat case_match. }
  split; [done|]. intros l m p t Hm -> Ht.
  pose proof (pgoutput_u8 _ _ Hm) as [Hu _]%Forall_app.
  destruct (decode_message p) as [m'|e|] eqn:E; [|by exists e|by apply Hsafe in E].
  apply decode_message_sound in E as (l' & suf & -> & Hm'); [|done].
  rewrite <- app_assoc in Hm.
  destruct (pgoutput_prefix_free _ _ _ _ _ Hm' Hm eq_refl) as [[_ ->]%app_nil _]. done.
Qed.

Lemma pg_decode_total_witness :
  (∃ e, decode_message ([ch "O"] ++ to_be 8 81985529216486895 ++ [112; 103]) = Raise e) ∧
  decode_message [ch "T"; 255; 255; 255; 255; 0; 1] ≠ Panic.
Proof.
  split.
  - apply (proj2 pg_decode_total ([ch "O"] ++ to_be 8 81985529216486895 ++ enc_cstring [112; 103])
      (Origin (mkOrigin 81985529216486895 [112; 103])) _ [0]); [|done..].
    apply pgo_origin; [done|]. split.
    + repeat (apply Forall_cons; split; [left; lia|]). constructor.
    + apply (bool_decide_unpack (0 ∉ [112; 103])). done.
  - apply (proj1 pg_decode_total). by repeat (apply Forall_cons; split; [done|]).
Defined.
