(* ===== verification/PgChangelog.v ===== *)
(** * Change events (crates/laminar-connectors/src/cdc/postgres/)

    schema.rs: [RelationInfo] and the [RelationCache]; types.rs: the type mapping;
    changelog.rs: [ChangeEvent], the JSON form of a row ([tuple_to_json]) and the
    columns of a batch ([events_to_record_batch]). A reader of JSON objects, written
    from RFC 8259, is the specification of the row format. *)

From Stdlib Require Import Ascii.
From S2P Require Import Prelude RustStr PgDecoder.

(** ** Types (types.rs) *)

Inductive DataType :=
  | Boolean | Int16 | Int32 | Int64 | Float32 | Float64 | Utf8 | Binary | Date32
  | Time64Microsecond | TimestampMicrosecond (tz : option string) | UInt64.

(** The arms of the match that do not give [Utf8], which is also the default. *)
Definition pg_type_to_arrow (oid : Z) : DataType :=
  if oid =? 16 then Boolean
  else if oid =? 21 then Int16
  else if (oid =? 23) || (oid =? 26) then Int32
  else if oid =? 20 then Int64
  else if oid =? 700 then Float32
  else if oid =? 701 then Float64
  else if oid =? 17 then Binary
  else if oid =? 1082 then Date32
  else if oid =? 1083 then Time64Microsecond
  else if oid =? 1114 then TimestampMicrosecond None
  else if oid =? 1184 then TimestampMicrosecond (Some "UTC"%string)
  else Utf8.

Definition PgColumn_arrow_type (c : PgColumn) : DataType := pg_type_to_arrow (pc_type_oid c).

(** ** Relations (schema.rs) *)

Record RelationInfo := mkRelInfo {
  ri_relation_id : Z;
  ri_namespace : Str;
  ri_name : Str;
  ri_replica_identity : Z;
  ri_columns : list PgColumn }.

Definition RelationInfo_full_name (r : RelationInfo) : Str :=
  if bool_decide (ri_namespace r = []) || bool_decide (ri_namespace r = lit "public")
  then ri_name r else ri_namespace r ++ lit "." ++ ri_name r.

(** The fields of the Arrow schema: name, type, nullable. *)
Definition RelationInfo_arrow_schema (r : RelationInfo) : list (Str * DataType * bool) :=
  (λ col, (pc_name col, PgColumn_arrow_type col, true)) <$> ri_columns r.

Definition RelationInfo_key_columns (r : RelationInfo) : list Str :=
  pc_name <$> filter (λ c, pc_is_key c = true) (ri_columns r).

Abbreviation RelationCache := (gmap Z RelationInfo) (only parsing).
Definition RelationCache_new : RelationCache := ∅.
Definition RelationCache_insert (info : RelationInfo) (c : RelationCache) : RelationCache :=
  <[ri_relation_id info := info]> c.
Definition RelationCache_get (c : RelationCache) (relation_id : Z) : option RelationInfo :=
  c !! relation_id.
Definition RelationCache_len (c : RelationCache) : nat := size c.
Definition RelationCache_is_empty (c : RelationCache) : bool := (size c =? 0)%nat.
Definition RelationCache_clear (c : RelationCache) : RelationCache := ∅.

Definition cdc_envelope_schema : list (Str * DataType * bool) :=
  [ (lit "_table", Utf8, false); (lit "_op", Utf8, false); (lit "_lsn", UInt64, false);
    (lit "_ts_ms", Int64, false); (lit "_before", Utf8, true); (lit "_after", Utf8, true) ].

(** ** Change events (changelog.rs) *)

Inductive CdcOperation := OpInsert | OpUpdate | OpDelete.

Definition CdcOperation_as_str (o : CdcOperation) : Str :=
  match o with OpInsert => lit "I" | OpUpdate => lit "U" | OpDelete => lit "D" end.

Record ChangeEvent := mkEvent {
  ce_table : Str;
  ce_op : CdcOperation;
  ce_lsn : Lsn;
  ce_ts_ms : Z;
  ce_before : option Str;
  ce_after : option Str }.

Definition dquote : Z := 34.

Definition escape_char (c : Z) : Str :=
  if c =? dquote then [ch "\"; dquote]
  else if c =? ch "\" then [ch "\"; ch "\"]
  else if c =? 10 then [ch "\"; ch "n"]
  else if c =? 13 then [ch "\"; ch "r"]
  else if c =? 9 then [ch "\"; ch "t"]
  else if is_control c then [ch "\"; ch "u"] ++ fmt_04x c
  else [c].

Definition escape_json_str (s : Str) (buf : Str) : Str := buf ++ (s ≫= escape_char).

(** The loop of [tuple_to_json] over the remaining columns of the tuple; [infos] are
    the relation's columns from the same index on. *)
Fixpoint json_loop (cols : list ColumnValue) (infos : list PgColumn) (first : bool) (buf : Str) : Str :=
  match cols with
  | [] => buf
  | col_val :: cols' =>
    match infos with
    | [] => json_loop cols' [] first buf
    | col_info :: infos' =>
      let write val :=
        let buf := if first then buf else buf ++ [ch ","] in
        let buf := escape_json_str (pc_name col_info) (buf ++ [dquote]) ++ [dquote] ++ [ch ":"] in
        let buf := match val with
          | Some s => escape_json_str s (buf ++ [dquote]) ++ [dquote]
          | None => buf ++ lit "null"
          end in
        json_loop cols' infos' false buf in
      match col_val with
      | Text s => write (Some s)
      | Null => write None
      | Unchanged => json_loop cols' infos' first buf
      end
    end
  end.

Definition tuple_to_json (tuple : TupleData) (relation : RelationInfo) : Str :=
  json_loop (columns tuple) (ri_columns relation) true [ch "{"] ++ [ch "}"].

(** The columns of a batch. *)
Record EnvelopeColumns := mkEnvelope {
  ev_table : list Str; ev_op : list Str; ev_lsn : list Z; ev_ts_ms : list Z;
  ev_before : list (option Str); ev_after : list (option Str) }.

Definition events_to_columns (events : list ChangeEvent) : EnvelopeColumns :=
  mkEnvelope (ce_table <$> events) ((λ e, CdcOperation_as_str (ce_op e)) <$> events)
    ((λ e, Lsn_as_u64 (ce_lsn e)) <$> events) (ce_ts_ms <$> events)
    (ce_before <$> events) (ce_after <$> events).

(** ** JSON objects of strings and nulls (RFC 8259) *)

(** Hexadecimal digits of a [\u] escape. *)
Definition hex4 (a b c d : Z) : option Z :=
  x ← to_digit16 a; y ← to_digit16 b; z ← to_digit16 c; w ← to_digit16 d;
  Some (x * 4096 + y * 256 + z * 16 + w).

Definition simple_escape (c : Z) : option Z :=
  if c =? dquote then Some dquote
  else if c =? ch "\" then Some (ch "\")
  else if c =? ch "/" then Some (ch "/")
  else if c =? ch "b" then Some 8
  else if c =? ch "f" then Some 12
  else if c =? ch "n" then Some 10
  else if c =? ch "r" then Some 13
  else if c =? ch "t" then Some 9
  else None.

(** The rest of a string after its opening quote: its characters, and what follows
    the closing quote. Unescaped control characters are not allowed. *)
Fixpoint json_string (s : Str) : option (Str * Str) :=
  match s with
  | [] => None
  | c :: s1 =>
    if c =? dquote then Some ([], s1)
    else if c <? 32 then None
    else if c =? ch "\" then
      match s1 with
      | [] => None
      | e :: s2 =>
        if e =? ch "u" then
          match s2 with
          | h1 :: h2 :: h3 :: h4 :: s3 =>
            x ← hex4 h1 h2 h3 h4; '(t, rest) ← json_string s3; Some (x :: t, rest)
          | _ => None
          end
        else x ← simple_escape e; '(t, rest) ← json_string s2; Some (x :: t, rest)
      end
    else '(t, rest) ← json_string s1; Some (c :: t, rest)
  end.

Definition json_value (s : Str) : option (option Str * Str) :=
  match s with
  | c :: s1 =>
    if c =? dquote then '(v, rest) ← json_string s1; Some (Some v, rest)
    else if bool_decide (take 4 s = lit "null") then Some (None, drop 4 s) else None
  | [] => None
  end.

(** Members of an object up to the closing brace, [fuel] of them at most. *)
Fixpoint json_members (fuel : nat) (s : Str) : option (list (Str * option Str) * Str) :=
  match fuel with
  | O => None
  | S f =>
    match s with
    | q :: s1 =>
      if q =? dquote then
        '(k, s2) ← json_string s1;
        match s2 with
        | c :: s3 =>
          if c =? ch ":" then
            '(v, s4) ← json_value s3;
            match s4 with
            | d :: s5 =>
              if d =? ch "," then '(ms, rest) ← json_members f s5; Some ((k, v) :: ms, rest)
              else if d =? ch "}" then Some ([(k, v)], s5) else None
            | [] => None
            end
          else None
        | [] => None
        end
      else None
    | [] => None
    end
  end.

Definition json_object (s : Str) : option (list (Str * option Str)) :=
  match s with
  | o :: s1 =>
    if o =? ch "{" then
      if bool_decide (s1 = [ch "}"]) then Some []
      else '(ms, rest) ← json_members (length s) s1;
           if bool_decide (rest = []) then Some ms else None
    else None
  | [] => None
  end.

(** The columns of a tuple the row carries: those the relation knows and the server
    sent. *)
Fixpoint visible (cols : list ColumnValue) (infos : list PgColumn) : list (Str * option Str) :=
  match cols, infos with
  | v :: cols', i :: infos' =>
    match v with
    | Text s => [(pc_name i, Some s)]
    | Null => [(pc_name i, None)]
    | Unchanged => []
    end ++ visible cols' infos'
  | _, _ => []
  end.

(** ** The text of a row *)

Lemma hex_small a c :
  0 <= c < 256 → pad0 4 (hex_loop a 16 c []) = [48; 48; hex_digit a (c / 16); hex_digit a (c mod 16)].
Proof.
  intros Hc. cbn [hex_loop]. destruct (Z.ltb_spec c 16).
  - rewrite Z.div_small, Z.mod_small by lia. done.
  - destruct (Z.ltb_spec (c / 16) 16); [done|]. Z.to_euclidean_division_equations; lia.
Qed.

Lemma to_digit16_lower d : 0 <= d < 16 → to_digit16 (hex_digit 97 d) = Some d.
Proof. intros H. unfold hex_digit, to_digit16. repeat (case_match; try lia); f_equal; lia. Qed.

Lemma hex4_small c :
  0 <= c < 256 → hex4 48 48 (hex_digit 97 (c / 16)) (hex_digit 97 (c mod 16)) = Some c.
Proof.
  intros Hc. unfold hex4. rewrite !to_digit16_lower by (Z.to_euclidean_division_equations; lia).
  change (to_digit16 48) with (Some 0). cbn [mbind option_bind].
  f_equal. Z.to_euclidean_division_equations; lia.
Qed.

(** An escaped character reads as the character. *)
Lemma json_string_escape c t :
  0 <= c → json_string (escape_char c ++ t) = '(u, rest) ← json_string t; Some (c :: u, rest).
Proof.
  intros Hc. unfold escape_char. change (ch "\") with 92. change (ch "n") with 110.
  change (ch "r") with 114. change (ch "t") with 116. change (ch "u") with 117. unfold dquote.
  destruct (Z.eqb_spec c 34) as [->|]; [done|]. destruct (Z.eqb_spec c 92) as [->|]; [done|].
  destruct (Z.eqb_spec c 10) as [->|]; [done|]. destruct (Z.eqb_spec c 13) as [->|]; [done|].
  destruct (Z.eqb_spec c 9) as [->|]; [done|].
  destruct (is_control c) eqn:E.
  - assert (c < 256) by (unfold is_control in E; lia).
    unfold fmt_04x. rewrite hex_small by lia. cbn -[hex4 hex_digit]. by rewrite hex4_small by lia.
  - cbn [app json_string]. unfold is_control in E. unfold dquote.
    rewrite (proj2 (Z.eqb_neq c 34)), (proj2 (Z.ltb_ge c 32)) by lia.
    change (ch "\") with 92. by rewrite (proj2 (Z.eqb_neq c 92)).
Qed.

Lemma json_string_text s rest :
  Forall (λ c, 0 <= c) s → json_string ((s ≫= escape_char) ++ dquote :: rest) = Some (s, rest).
Proof.
  induction 1 as [|c s Hc _ IH]; [done|].
  rewrite bind_cons, <- app_assoc, json_string_escape, IH by done. done.
Qed.

Definition value_text (v : option Str) : Str :=
  match v with
  | Some s => dquote :: (s ≫= escape_char) ++ [dquote]
  | None => lit "null"
  end.
Definition member_text (m : Str * option Str) : Str :=
  dquote :: (m.1 ≫= escape_char) ++ dquote :: ch ":" :: value_text m.2.
Fixpoint members_text (first : bool) (ms : list (Str * option Str)) : Str :=
  match ms with
  | [] => []
  | m :: ms' => (if first then [] else [ch ","]) ++ member_text m ++ members_text false ms'
  end.

Lemma json_loop_text cols infos first buf :
  json_loop cols infos first buf = buf ++ members_text first (visible cols infos).
Proof.
  revert infos first buf. induction cols as [|v cols IH]; intros infos first buf.
  { cbn. by rewrite app_nil_r. }
  destruct infos as [|i infos]; [cbn [json_loop]; rewrite IH; by destruct cols|].
  destruct v as [| |s]; cbn [json_loop visible app]; [| |]; rewrite IH; [|done|];
    unfold escape_json_str; cbn [members_text]; unfold member_text, value_text; cbn [fst snd];
    destruct first; do 3 (rewrite <- ?app_assoc; cbn [app]); done.
Qed.

Definition member_ok (m : Str * option Str) : Prop :=
  Forall (λ c, 0 <= c) m.1 ∧ Forall (λ c, 0 <= c) (default [] m.2).

Lemma json_value_text v rest :
  Forall (λ c, 0 <= c) (default [] v) → json_value (value_text v ++ rest) = Some (v, rest).
Proof.
  destruct v as [s|]; intros Hs; [|done]. cbn [value_text json_value app]. rewrite Z.eqb_refl.
  rewrite <- app_assoc. cbn [app]. by rewrite json_string_text.
Qed.

Lemma json_members_text m ms fuel rest :
  Forall member_ok (m :: ms) → (length ms < fuel)%nat →
  json_members fuel (member_text m ++ members_text false ms ++ ch "}" :: rest) = Some (m :: ms, rest).
Proof.
  revert m fuel. induction ms as [|m' ms IH]; intros m fuel Hok Hf; destruct fuel as [|f]; [lia| |lia|];
    apply Forall_cons in Hok as [[Hk Hv] Hok]; destruct m as [k v]; cbn [fst snd] in *;
    unfold member_text; cbn [json_members app fst snd]; rewrite Z.eqb_refl, <- !app_assoc; cbn [app];
    rewrite json_string_text by done; cbn [mbind option_bind]; rewrite Z.eqb_refl, json_value_text by done;
    cbn [mbind option_bind members_text app]; [done|].
  rewrite Z.eqb_refl, <- app_assoc, IH by (done || (cbn in Hf; lia)). done.
Qed.

Lemma members_text_length first ms : (length ms <= length (members_text first ms))%nat.
Proof.
  revert first. induction ms as [|m ms IH]; intros first; cbn [members_text]; [done|].
  rewrite !length_app. specialize (IH false). unfold member_text. cbn [length]. lia.
Qed.

(** [C38]: the JSON text of a row is a JSON object that says exactly what the row
    says: reading it back as RFC 8259 prescribes gives, in order, every column the
    server sent and the relation describes, with its name and its text or null, for
    every name and every text, quotes, backslashes and control characters included.
    Unchanged TOAST columns and columns beyond the relation's are left out. *)
Theorem tuple_json_exact tuple relation :
  Forall member_ok (visible (columns tuple) (ri_columns relation)) →
  json_object (tuple_to_json tuple relation) = Some (visible (columns tuple) (ri_columns relation)).
Proof.
  intros Hok. unfold tuple_to_json. rewrite json_loop_text.
  destruct (visible (columns tuple) (ri_columns relation)) as [|m ms] eqn:E; [done|].
  cbn [app json_object]. rewrite Z.eqb_refl.
  rewrite bool_decide_eq_false_2 by done.
  cbn [members_text app]. rewrite <- app_assoc.
  rewrite json_members_text; [|done|].
  - done.
  - cbn [length]. rewrite !length_app. pose proof (members_text_length false ms). lia.
Qed.

Lemma tuple_json_exact_witness :
  json_object (tuple_to_json (mkTuple [Text [52; dquote; 10; 1]; Null; Unchanged; Text [7]])
    (mkRelInfo 7 [] [116] 100 [mkPgColumn [105] 20 (-1) true; mkPgColumn [92] 25 (-1) false;
      mkPgColumn [99] 25 (-1) false])) =
  Some [([105], Some [52; dquote; 10; 1]); ([92], None)].
Proof.
  apply (tuple_json_exact (mkTuple [Text [52; dquote; 10; 1]; Null; Unchanged; Text [7]])
    (mkRelInfo 7 [] [116] 100 [mkPgColumn [105] 20 (-1) true; mkPgColumn [92] 25 (-1) false;
      mkPgColumn [99] 25 (-1) false])).
  repeat first [apply Forall_cons; split | apply Forall_nil_2 | split | (vm_compute; discriminate)].
Defined.
