(* ===== verification/PgSource.v ===== *)
(** * The PostgreSQL CDC source (crates/laminar-connectors/src/cdc/postgres/)

    source.rs: [PostgresCdcSource] with the payloads its reader task hands it, the
    processing of WAL messages, [poll_batch], [checkpoint], [restore], [open] and
    [close]; metrics.rs, the part of config.rs that the source uses, checkpoint.rs of
    the connectors crate, and the source task's loop of
    laminar-db/src/pipeline/streaming_coordinator.rs, which polls the source and
    publishes its checkpoints.

    The model is the build with the feature [postgres-cdc]. The reader task appears
    as the queue of payloads it has sent and not yet been asked for, and whether it has
    gone; the watch channel to it as the position last sent. Outside the model: the
    connections and the reader task itself, Arrow's [RecordBatch::try_new], which is the
    parameter [try_new], and the wake-up notification. *)

From Stdlib Require Import Ascii.
From stdpp Require Import pretty.
From S2P Require Import Prelude RustStr PgDecoder PgChangelog.

(** ** Metrics (metrics.rs) *)

Record CdcMetrics := mkMetrics {
  m_events_received : Z; m_bytes_received : Z; m_errors : Z; m_batches_produced : Z;
  m_inserts : Z; m_updates : Z; m_deletes : Z; m_transactions : Z;
  m_confirmed_flush_lsn : Z; m_replication_lag_bytes : Z; m_keepalives_sent : Z;
  m_events_dropped : Z }.

Definition CdcMetrics_new : CdcMetrics := mkMetrics 0 0 0 0 0 0 0 0 0 0 0 0.

Definition record_insert (m : CdcMetrics) : CdcMetrics :=
  mkMetrics (u64_add (m_events_received m) 1) (m_bytes_received m) (m_errors m) (m_batches_produced m)
    (u64_add (m_inserts m) 1) (m_updates m) (m_deletes m) (m_transactions m) (m_confirmed_flush_lsn m)
    (m_replication_lag_bytes m) (m_keepalives_sent m) (m_events_dropped m).
Definition record_update (m : CdcMetrics) : CdcMetrics :=
  mkMetrics (u64_add (m_events_received m) 1) (m_bytes_received m) (m_errors m) (m_batches_produced m)
    (m_inserts m) (u64_add (m_updates m) 1) (m_deletes m) (m_transactions m) (m_confirmed_flush_lsn m)
    (m_replication_lag_bytes m) (m_keepalives_sent m) (m_events_dropped m).
Definition record_delete (m : CdcMetrics) : CdcMetrics :=
  mkMetrics (u64_add (m_events_received m) 1) (m_bytes_received m) (m_errors m) (m_batches_produced m)
    (m_inserts m) (m_updates m) (u64_add (m_deletes m) 1) (m_transactions m) (m_confirmed_flush_lsn m)
    (m_replication_lag_bytes m) (m_keepalives_sent m) (m_events_dropped m).
Definition record_transaction (m : CdcMetrics) : CdcMetrics :=
  mkMetrics (m_events_received m) (m_bytes_received m) (m_errors m) (m_batches_produced m) (m_inserts m)
    (m_updates m) (m_deletes m) (u64_add (m_transactions m) 1) (m_confirmed_flush_lsn m)
    (m_replication_lag_bytes m) (m_keepalives_sent m) (m_events_dropped m).
Definition record_bytes (n : Z) (m : CdcMetrics) : CdcMetrics :=
  mkMetrics (m_events_received m) (u64_add (m_bytes_received m) n) (m_errors m) (m_batches_produced m)
    (m_inserts m) (m_updates m) (m_deletes m) (m_transactions m) (m_confirmed_flush_lsn m)
    (m_replication_lag_bytes m) (m_keepalives_sent m) (m_events_dropped m).
Definition record_batch (m : CdcMetrics) : CdcMetrics :=
  mkMetrics (m_events_received m) (m_bytes_received m) (m_errors m) (u64_add (m_batches_produced m) 1)
    (m_inserts m) (m_updates m) (m_deletes m) (m_transactions m) (m_confirmed_flush_lsn m)
    (m_replication_lag_bytes m) (m_keepalives_sent m) (m_events_dropped m).
Definition set_confirmed_flush_lsn (lsn : Z) (m : CdcMetrics) : CdcMetrics :=
  mkMetrics (m_events_received m) (m_bytes_received m) (m_errors m) (m_batches_produced m) (m_inserts m)
    (m_updates m) (m_deletes m) (m_transactions m) lsn
    (m_replication_lag_bytes m) (m_keepalives_sent m) (m_events_dropped m).
Definition set_replication_lag_bytes (lag : Z) (m : CdcMetrics) : CdcMetrics :=
  mkMetrics (m_events_received m) (m_bytes_received m) (m_errors m) (m_batches_produced m) (m_inserts m)
    (m_updates m) (m_deletes m) (m_transactions m) (m_confirmed_flush_lsn m) lag
    (m_keepalives_sent m) (m_events_dropped m).
Definition record_dropped (n : Z) (m : CdcMetrics) : CdcMetrics :=
  mkMetrics (m_events_received m) (m_bytes_received m) (m_errors m) (m_batches_produced m) (m_inserts m)
    (m_updates m) (m_deletes m) (m_transactions m) (m_confirmed_flush_lsn m) (m_replication_lag_bytes m)
    (m_keepalives_sent m) (u64_add (m_events_dropped m) n).

(** ** Configuration (config.rs), errors and checkpoints *)

Inductive SslMode := Disable | Prefer | Require_ | VerifyCa | VerifyFull.

Definition SslMode_to_string (m : SslMode) : Str :=
  match m with
  | Disable => lit "disable" | Prefer => lit "prefer" | Require_ => lit "require"
  | VerifyCa => lit "verify-ca" | VerifyFull => lit "verify-full"
  end.

(** The fields that [validate] and the source read; the others only configure the
    connection. *)
Record PostgresCdcConfig := mkConfig {
  cfg_host : Str;
  cfg_database : Str;
  cfg_slot_name : Str;
  cfg_publication : Str;
  cfg_start_lsn : option Lsn;
  cfg_ssl_mode : SslMode;
  cfg_ca_cert_path : option Str;
  cfg_client_cert_path : option Str;
  cfg_client_key_path : option Str;
  cfg_max_poll_records : Z;
  cfg_table_include : list Str;
  cfg_table_exclude : list Str;
  cfg_max_buffered_events : Z }.

Definition PostgresCdcConfig_new (host database slot_name publication : Str) : PostgresCdcConfig :=
  mkConfig host database slot_name publication None Prefer None None None 1000 [] [] 100000.

(** The errors the source makes. *)
Inductive ConnectorError :=
  | ConnectionFailed (s : Str)
  | ConfigurationError (s : Str)
  | ReadError (s : Str)
  | CheckpointError (s : Str)
  | InvalidState (expected actual : Str)
  | Internal (s : Str).

Definition require_non_empty (value : Str) (field_name : Str) : option ConnectorError :=
  match value with
  | [] => Some (ConfigurationError (field_name ++ lit " must not be empty"))
  | _ => None
  end.

(** [None] is [Ok(())]. *)
Definition PostgresCdcConfig_validate (c : PostgresCdcConfig) : option ConnectorError :=
  match require_non_empty (cfg_host c) (lit "host") with Some e => Some e | None =>
  match require_non_empty (cfg_database c) (lit "database") with Some e => Some e | None =>
  match require_non_empty (cfg_slot_name c) (lit "slot.name") with Some e => Some e | None =>
  match require_non_empty (cfg_publication c) (lit "publication") with Some e => Some e | None =>
  if cfg_max_poll_records c =? 0 then Some (ConfigurationError (lit "max.poll.records must be > 0"))
  else if cfg_max_buffered_events c =? 0
  then Some (ConfigurationError (lit "max.buffered.events must be > 0"))
  else if match cfg_ssl_mode c with VerifyCa | VerifyFull => true | _ => false end
          && bool_decide (cfg_ca_cert_path c = None)
  then Some (ConfigurationError
    (lit "ssl.mode=" ++ SslMode_to_string (cfg_ssl_mode c) ++ lit " requires ssl.ca.cert.path"))
  else if negb (Bool.eqb (bool_decide (is_Some (cfg_client_cert_path c)))
                         (bool_decide (is_Some (cfg_client_key_path c))))
  then Some (ConfigurationError
    (lit "ssl.client.cert.path and ssl.client.key.path must both be set for mTLS"))
  else None
  end end end end.

Definition should_include_table (c : PostgresCdcConfig) (table : Str) : bool :=
  if existsb (λ t, bool_decide (t = table)) (cfg_table_exclude c) then false
  else match cfg_table_include c with
       | [] => true
       | l => existsb (λ t, bool_decide (t = table)) l
       end.

Inductive ConnectorState := Created | Initializing | Running | Paused | Recovering | Closed | Failed.
#[export] Instance ConnectorState_eq_dec : EqDecision ConnectorState.
Proof. solve_decision. Defined.

Definition ConnectorState_to_string (s : ConnectorState) : Str :=
  match s with
  | Created => lit "Created" | Initializing => lit "Initializing" | Running => lit "Running"
  | Paused => lit "Paused" | Recovering => lit "Recovering" | Closed => lit "Closed"
  | Failed => lit "Failed"
  end.

Record SourceCheckpoint := mkCheckpoint {
  cp_offsets : gmap Str Str; cp_epoch : Z; cp_metadata : gmap Str Str }.

Definition SourceCheckpoint_new (epoch : Z) : SourceCheckpoint := mkCheckpoint ∅ epoch ∅.
Definition set_offset (key value : Str) (cp : SourceCheckpoint) : SourceCheckpoint :=
  mkCheckpoint (<[key := value]> (cp_offsets cp)) (cp_epoch cp) (cp_metadata cp).
Definition get_offset (key : Str) (cp : SourceCheckpoint) : option Str := cp_offsets cp !! key.
Definition set_metadata (key value : Str) (cp : SourceCheckpoint) : SourceCheckpoint :=
  mkCheckpoint (cp_offsets cp) (cp_epoch cp) (<[key := value]> (cp_metadata cp)).

Inductive HealthStatus := Healthy | Degraded (s : Str) | Unhealthy (s : Str) | Unknown.

(** ** The source (source.rs) *)

Record TransactionState := mkTxn { tx_final_lsn : Lsn; tx_commit_ts_ms : Z; tx_events : list ChangeEvent }.

Inductive WalPayload :=
  | PBegin (final_lsn commit_ts_us xid : Z)
  | PCommit (end_lsn commit_ts_us lsn : Z)
  | PXLogData (wal_end : Z) (data : list Z)
  | PKeepAlive (wal_end : Z)
  | PError (msg : Str).

(** The receiving end of the channel from the reader task. *)
Record WalRx := mkRx { rx_queue : list WalPayload; rx_disconnected : bool }.

Record PostgresCdcSource := mkSource {
  s_config : PostgresCdcConfig;
  s_state : ConnectorState;
  s_metrics : CdcMetrics;
  s_relation_cache : RelationCache;
  s_event_buffer : list ChangeEvent;
  s_current_txn : option TransactionState;
  s_confirmed_flush_lsn : Lsn;
  s_write_lsn : Lsn;
  s_polled_lsn : Lsn;
  s_pending_messages : list (list Z);
  s_wal_rx : option WalRx;
  s_confirmed_lsn_tx : option Z }.

Definition PostgresCdcSource_new (config : PostgresCdcConfig) : PostgresCdcSource :=
  mkSource config Created CdcMetrics_new RelationCache_new [] None Lsn_ZERO Lsn_ZERO Lsn_ZERO [] None None.

Definition with_state (st : ConnectorState) (s : PostgresCdcSource) : PostgresCdcSource :=
  mkSource (s_config s) st (s_metrics s) (s_relation_cache s) (s_event_buffer s) (s_current_txn s)
    (s_confirmed_flush_lsn s) (s_write_lsn s) (s_polled_lsn s) (s_pending_messages s) (s_wal_rx s)
    (s_confirmed_lsn_tx s).
Definition with_metrics (f : CdcMetrics → CdcMetrics) (s : PostgresCdcSource) : PostgresCdcSource :=
  mkSource (s_config s) (s_state s) (f (s_metrics s)) (s_relation_cache s) (s_event_buffer s)
    (s_current_txn s) (s_confirmed_flush_lsn s) (s_write_lsn s) (s_polled_lsn s) (s_pending_messages s)
    (s_wal_rx s) (s_confirmed_lsn_tx s).
Definition with_relations (r : RelationCache) (s : PostgresCdcSource) : PostgresCdcSource :=
  mkSource (s_config s) (s_state s) (s_metrics s) r (s_event_buffer s) (s_current_txn s)
    (s_confirmed_flush_lsn s) (s_write_lsn s) (s_polled_lsn s) (s_pending_messages s) (s_wal_rx s)
    (s_confirmed_lsn_tx s).
Definition with_buffer (b : list ChangeEvent) (s : PostgresCdcSource) : PostgresCdcSource :=
  mkSource (s_config s) (s_state s) (s_metrics s) (s_relation_cache s) b (s_current_txn s)
    (s_confirmed_flush_lsn s) (s_write_lsn s) (s_polled_lsn s) (s_pending_messages s) (s_wal_rx s)
    (s_confirmed_lsn_tx s).
Definition with_txn (t : option TransactionState) (s : PostgresCdcSource) : PostgresCdcSource :=
  mkSource (s_config s) (s_state s) (s_metrics s) (s_relation_cache s) (s_event_buffer s) t
    (s_confirmed_flush_lsn s) (s_write_lsn s) (s_polled_lsn s) (s_pending_messages s) (s_wal_rx s)
    (s_confirmed_lsn_tx s).
Definition with_lsns (confirmed write polled : Lsn) (s : PostgresCdcSource) : PostgresCdcSource :=
  mkSource (s_config s) (s_state s) (s_metrics s) (s_relation_cache s) (s_event_buffer s)
    (s_current_txn s) confirmed write polled (s_pending_messages s) (s_wal_rx s) (s_confirmed_lsn_tx s).
Definition with_write_lsn (l : Lsn) (s : PostgresCdcSource) : PostgresCdcSource :=
  with_lsns (s_confirmed_flush_lsn s) l (s_polled_lsn s) s.
Definition with_pending (p : list (list Z)) (s : PostgresCdcSource) : PostgresCdcSource :=
  mkSource (s_config s) (s_state s) (s_metrics s) (s_relation_cache s) (s_event_buffer s)
    (s_current_txn s) (s_confirmed_flush_lsn s) (s_write_lsn s) (s_polled_lsn s) p (s_wal_rx s)
    (s_confirmed_lsn_tx s).
Definition with_channels (rx : option WalRx) (tx : option Z) (s : PostgresCdcSource) : PostgresCdcSource :=
  mkSource (s_config s) (s_state s) (s_metrics s) (s_relation_cache s) (s_event_buffer s)
    (s_current_txn s) (s_confirmed_flush_lsn s) (s_write_lsn s) (s_polled_lsn s) (s_pending_messages s)
    rx tx.

Definition replication_lag_bytes (s : PostgresCdcSource) : Z :=
  Lsn_diff (s_write_lsn s) (s_confirmed_flush_lsn s).
Definition buffered_events (s : PostgresCdcSource) : nat := length (s_event_buffer s).
Definition enqueue_wal_data (data : list Z) (s : PostgresCdcSource) : PostgresCdcSource :=
  with_pending (s_pending_messages s ++ [data]) s.

(** How a call ends: a value, an error or a panic. *)
Inductive Exit (A : Type) := Ret (a : A) | Fail_ (e : ConnectorError) | Crash.
Arguments Ret {A} a.
Arguments Fail_ {A} e.
Arguments Crash {A}.

(** A call with [&mut self]: what it changed before an error stays changed. *)
Definition Call (A : Type) : Type := PostgresCdcSource → Exit A * PostgresCdcSource.
Definition c_ret {A} (a : A) : Call A := λ s, (Ret a, s).
Definition c_fail {A} (e : ConnectorError) : Call A := λ s, (Fail_ e, s).
Definition c_modify (f : PostgresCdcSource → PostgresCdcSource) : Call () := λ s, (Ret (), f s).
Definition c_bind {A B} (c : Call A) (k : A → Call B) : Call B := λ s,
  match c s with
  | (Ret a, s') => k a s'
  | (Fail_ e, s') => (Fail_ e, s')
  | (Crash, s') => (Crash, s')
  end.
Notation "'let!' x ':=' c 'in' k" := (c_bind c (λ x, k))
  (at level 200, x binder, c at level 100, k at level 200,
   format "'[v' 'let!'  x  ':='  c  'in' '/' k ']'") : laminar_scope.
Local Open Scope laminar_scope.

(** [decode_message(..).map_err(..)] *)
Definition decode (data : list Z) : Call WalMessage :=
  match decode_message data with
  | Done m => c_ret m
  | Raise e => c_fail (ReadError (lit "pgoutput decode: " ++ DecoderError_to_string e))
  | Panic => λ s, (Crash, s)
  end.

Definition require_relation (relation_id : Z) : Call RelationInfo := λ s,
  match RelationCache_get (s_relation_cache s) relation_id with
  | Some r => (Ret r, s)
  | None => (Fail_ (ReadError (lit "unknown relation ID " ++ fmt_int relation_id
                               ++ lit " (no Relation message received yet)")), s)
  end.

Definition current_txn_context (s : PostgresCdcSource) : Lsn * Z :=
  match s_current_txn s with
  | Some txn => (tx_final_lsn txn, tx_commit_ts_ms txn)
  | None => (s_write_lsn s, 0)
  end.

Definition push_event (event : ChangeEvent) (s : PostgresCdcSource) : PostgresCdcSource :=
  let total := (zlen (s_event_buffer s)
                + match s_current_txn s with Some t => zlen (tx_events t) | None => 0 end) in
  if cfg_max_buffered_events (s_config s) <=? total then with_metrics (record_dropped 1) s
  else match s_current_txn s with
       | Some t => with_txn (Some (mkTxn (tx_final_lsn t) (tx_commit_ts_ms t) (tx_events t ++ [event]))) s
       | None => with_buffer (s_event_buffer s ++ [event]) s
       end.

Definition process_insert (relation_id : Z) (new_tuple : TupleData) : Call () :=
  let! relation := require_relation relation_id in
  let table := RelationInfo_full_name relation in
  λ s, if negb (should_include_table (s_config s) table) then (Ret (), s)
  else
    let after_json := tuple_to_json new_tuple relation in
    let '(lsn, ts_ms) := current_txn_context s in
    (Ret (), with_metrics record_insert
      (push_event (mkEvent table OpInsert lsn ts_ms None (Some after_json)) s)).

Definition process_update (relation_id : Z) (old_tuple : option TupleData) (new_tuple : TupleData) : Call () :=
  let! relation := require_relation relation_id in
  let table := RelationInfo_full_name relation in
  λ s, if negb (should_include_table (s_config s) table) then (Ret (), s)
  else
    let before_json := (λ t, tuple_to_json t relation) <$> old_tuple in
    let after_json := tuple_to_json new_tuple relation in
    let '(lsn, ts_ms) := current_txn_context s in
    (Ret (), with_metrics record_update
      (push_event (mkEvent table OpUpdate lsn ts_ms before_json (Some after_json)) s)).

Definition process_delete (relation_id : Z) (old_tuple : TupleData) : Call () :=
  let! relation := require_relation relation_id in
  let table := RelationInfo_full_name relation in
  λ s, if negb (should_include_table (s_config s) table) then (Ret (), s)
  else
    let before_json := tuple_to_json old_tuple relation in
    let '(lsn, ts_ms) := current_txn_context s in
    (Ret (), with_metrics record_delete
      (push_event (mkEvent table OpDelete lsn ts_ms (Some before_json) None) s)).

Definition process_commit (commit : CommitMessage) (s : PostgresCdcSource) : PostgresCdcSource :=
  match s_current_txn s with
  | None => s
  | Some txn =>
    let s := with_txn None s in
    let s := with_buffer (s_event_buffer s ++ tx_events txn) s in
    let s := with_write_lsn (cm_end_lsn commit) s in
    let s := with_metrics record_transaction s in
    with_metrics (set_replication_lag_bytes (replication_lag_bytes s)) s
  end.

Definition truncate_error (trunc : TruncateMessage) (s : PostgresCdcSource) : ConnectorError :=
  let table_names := (λ id, match RelationCache_get (s_relation_cache s) id with
                            | Some r => RelationInfo_full_name r
                            | None => lit "oid:" ++ fmt_int id
                            end) <$> tm_relation_ids trunc in
  ReadError (lit "TRUNCATE received on table(s): " ++ join (lit ", ") table_names
    ++ lit ". Cannot produce retraction events — restart the pipeline with a fresh snapshot.").

Definition process_wal_message (msg : WalMessage) : Call () :=
  match msg with
  | Begin b => c_modify (with_txn (Some (mkTxn (bm_final_lsn b) (bm_commit_ts_ms b) [])))
  | Commit c => c_modify (process_commit c)
  | Relation rel =>
    c_modify (λ s, with_relations (RelationCache_insert
      (mkRelInfo (rm_relation_id rel) (rm_namespace rel) (rm_name rel) (rm_replica_identity rel)
        (rm_columns rel)) (s_relation_cache s)) s)
  | Insert ins => process_insert (im_relation_id ins) (im_new_tuple ins)
  | Update upd => process_update (um_relation_id upd) (um_old_tuple upd) (um_new_tuple upd)
  | Delete del => process_delete (dm_relation_id del) (dm_old_tuple del)
  | Truncate trunc => λ s, (Fail_ (truncate_error trunc s), s)
  | Origin _ | Type_ _ => c_ret ()
  end.

(** The loop of [process_pending_messages] over the queue [l]. *)
Fixpoint pending_loop (l : list (list Z)) : Call () :=
  match l with
  | [] => c_ret ()
  | data :: l' =>
    let! _ := c_modify (λ s, with_metrics (record_bytes (zlen data)) (with_pending l' s)) in
    let! msg := decode data in
    let! _ := process_wal_message msg in
    pending_loop l'
  end.
Definition process_pending_messages : Call () := λ s, pending_loop (s_pending_messages s) s.

Definition process_wal_payload (payload : WalPayload) : Call () :=
  match payload with
  | PBegin final_lsn commit_ts_us xid =>
    process_wal_message (Begin (mkBegin (Lsn_new final_lsn) (pg_timestamp_to_unix_ms commit_ts_us) xid))
  | PCommit end_lsn commit_ts_us lsn =>
    process_wal_message (Commit (mkCommit 0 (Lsn_new lsn) (Lsn_new end_lsn)
      (pg_timestamp_to_unix_ms commit_ts_us)))
  | PXLogData wal_end data =>
    if match data with b :: _ => (b =? ch "B") || (b =? ch "C") | [] => false end
    then c_modify (with_write_lsn (Lsn_new wal_end))
    else
      let! msg := decode data in
      let! _ := process_wal_message msg in
      c_modify (with_write_lsn (Lsn_new wal_end))
  | PKeepAlive wal_end => c_modify (with_write_lsn (Lsn_new wal_end))
  | PError msg => c_fail (ReadError msg)
  end.

Fixpoint process_payloads (ps : list WalPayload) : Call () :=
  match ps with
  | [] => c_ret ()
  | p :: ps' => let! _ := process_wal_payload p in process_payloads ps'
  end.

(** The [try_recv] loop with [room] payloads still wanted: what was received, what is
    left in the channel, and whether the channel reported that the reader is gone. *)
Fixpoint recv_loop (room : nat) (queue : list WalPayload) (disconnected : bool)
    : list WalPayload * list WalPayload * bool :=
  match room with
  | O => ([], queue, false)
  | S r =>
    match queue with
    | [] => ([], [], disconnected)
    | p :: q => let '(ps, rest, closed) := recv_loop r q disconnected in (p :: ps, rest, closed)
    end
  end.

Section Source.
Context {RB : Type} (try_new : EnvelopeColumns → option RB).

Definition events_to_record_batch (events : list ChangeEvent) : option RB :=
  try_new (events_to_columns events).

Definition drain_events (max : nat) : Call (option RB) := λ s,
  match s_event_buffer s with
  | [] => (Ret None, s)
  | _ =>
    let count := Nat.min max (length (s_event_buffer s)) in
    let events := take count (s_event_buffer s) in
    let s := with_buffer (drop count (s_event_buffer s)) s in
    match events_to_record_batch events with
    | None => (Fail_ (Internal (lit "Arrow batch build")), s)
    | Some batch => (Ret (Some batch), with_metrics record_batch s)
    end
  end.

(** The payloads of the reader task. *)
Definition poll_wal (max_records : nat) : Call () := λ s,
  let '(payloads, rest, reader_closed) :=
    match s_wal_rx s with
    | Some rx => recv_loop (max_records - length (s_event_buffer s)) (rx_queue rx) (rx_disconnected rx)
    | None => ([], [], false)
    end in
  let s := with_channels ((λ rx, mkRx rest (rx_disconnected rx)) <$> s_wal_rx s) (s_confirmed_lsn_tx s) s in
  c_bind (process_payloads payloads) (λ _ s,
    if reader_closed && bool_decide (s_event_buffer s = [])
    then (Fail_ (ReadError (lit "WAL reader task terminated unexpectedly — replication stream lost")),
          with_state Failed s)
    else (Ret (), s)) s.

(** The cap on the buffer. *)
Definition drop_oldest (s : PostgresCdcSource) : PostgresCdcSource :=
  if cfg_max_buffered_events (s_config s) <? zlen (s_event_buffer s) then
    let excess := zlen (s_event_buffer s) - cfg_max_buffered_events (s_config s) in
    with_metrics (record_dropped excess) (with_buffer (drop (Z.to_nat excess) (s_event_buffer s)) s)
  else s.

(** A batch with its partition: the slot's name and a position. *)
Definition SourceBatch : Type := RB * (Str * Str).

Definition poll_batch (max_records : nat) : Call (option SourceBatch) := λ s,
  if negb (bool_decide (s_state s = Running))
  then (Fail_ (InvalidState (lit "Running") (ConnectorState_to_string (s_state s))), s)
  else
    (let! _ := poll_wal max_records in
     let! _ := process_pending_messages in
     let! _ := c_modify drop_oldest in
     let! drained := drain_events max_records in
     λ s, match drained with
     | None => (Ret None, s)
     | Some batch =>
       let s := if bool_decide (s_event_buffer s = [])
                then with_lsns (s_confirmed_flush_lsn s) (s_write_lsn s) (s_write_lsn s) s else s in
       let s := with_metrics (set_confirmed_flush_lsn (Lsn_as_u64 (s_confirmed_flush_lsn s))) s in
       let s := with_metrics (set_replication_lag_bytes (replication_lag_bytes s)) s in
       (Ret (Some (batch, (cfg_slot_name (s_config s), Lsn_to_string (s_write_lsn s)))), s)
     end) s.

(** The checkpoint, and the source after the send on the watch channel. *)
Definition checkpoint (s : PostgresCdcSource) : SourceCheckpoint * PostgresCdcSource :=
  let cp := SourceCheckpoint_new 0 in
  let cp := set_offset (lit "lsn") (Lsn_to_string (s_polled_lsn s)) cp in
  let cp := set_offset (lit "write_lsn") (Lsn_to_string (s_write_lsn s)) cp in
  let cp := set_metadata (lit "slot_name") (cfg_slot_name (s_config s)) cp in
  let cp := set_metadata (lit "publication") (cfg_publication (s_config s)) cp in
  (cp, with_channels (s_wal_rx s)
         ((λ _, Lsn_as_u64 (s_polled_lsn s)) <$> s_confirmed_lsn_tx s) s).

Definition restore (cp : SourceCheckpoint) : Call () :=
  let! _ := match get_offset (lit "lsn") cp with
    | Some lsn_str =>
      match Lsn_from_str lsn_str with
      | inr e => c_fail (CheckpointError (lit "invalid LSN in checkpoint: " ++
          match e with
          | InvalidFormat s => lit "invalid LSN format (expected X/Y): " ++ s
          | InvalidHex s => lit "invalid hex in LSN: " ++ s
          end))
      | inl lsn => c_modify (λ s, with_metrics (set_confirmed_flush_lsn (Lsn_as_u64 lsn))
                                    (with_lsns lsn (s_write_lsn s) lsn s))
      end
    | None => c_ret ()
    end in
  match get_offset (lit "write_lsn") cp with
  | Some write_lsn_str =>
    match Lsn_from_str write_lsn_str with
    | inl lsn => c_modify (with_write_lsn lsn)
    | inr _ => c_ret ()
    end
  | None => c_ret ()
  end.

(** [open]: [reparsed] is the configuration parsed from the properties when there are
    any; [slot] and [connected] are what the control connection says about the slot
    and how connecting for replication ends. The value is the start position given to
    that connection, when it is not the configured one. *)
Definition open (reparsed : option (PostgresCdcConfig + ConnectorError))
    (slot : option Lsn + ConnectorError) (connected : option ConnectorError) : Call (option Lsn) := λ s,
  let s := with_state Initializing s in
  match match reparsed with Some (inr e) => inr e | Some (inl c) => inl c | None => inl (s_config s) end with
  | inr e => (Fail_ e, s)
  | inl config =>
    let s := mkSource config (s_state s) (s_metrics s) (s_relation_cache s) (s_event_buffer s)
      (s_current_txn s) (s_confirmed_flush_lsn s) (s_write_lsn s) (s_polled_lsn s) (s_pending_messages s)
      (s_wal_rx s) (s_confirmed_lsn_tx s) in
    let s := match cfg_start_lsn config with Some lsn => with_lsns lsn lsn lsn s | None => s end in
    match slot with
    | inr e => (Fail_ e, s)
    | inl slot_lsn =>
      let s := match cfg_start_lsn config, slot_lsn with
               | None, Some lsn => with_lsns lsn lsn lsn s
               | _, _ => s
               end in
      let start := if Lsn_is_zero (s_confirmed_flush_lsn s) then None
                   else Some (s_confirmed_flush_lsn s) in
      match connected with
      | Some e => (Fail_ e, s)
      | None =>
        (Ret start, with_state Running
          (with_channels (Some (mkRx [] false)) (Some (Lsn_as_u64 (s_confirmed_flush_lsn s))) s))
      end
    end
  end.

Definition health_check (s : PostgresCdcSource) : HealthStatus :=
  match s_state s with
  | Running =>
    let lag := replication_lag_bytes s in
    if 100000000 <? lag then Degraded (lit "replication lag: " ++ fmt_int lag ++ lit " bytes") else Healthy
  | Failed => Unhealthy (lit "connector failed")
  | _ => Unknown
  end.

Definition close (s : PostgresCdcSource) : PostgresCdcSource :=
  with_pending [] (with_buffer [] (with_state Closed (with_channels None None s))).

(** ** The source task (streaming_coordinator.rs)

    One turn of the loop: the batch, if the poll gave one, and the barrier, if the
    coordinator has injected one. The effects are what leaves the task, in order: an
    offset on the watch channel to the coordinator, a batch or a barrier on its
    queue. The coordinator is there. *)

Inductive TaskEffect :=
  | PublishOffset (cp : SourceCheckpoint)
  | SendBatch (batch : RB)
  | SendBarrier (epoch : Z).

Definition task_turn (max_poll : nat) (barrier : option Z) (s : PostgresCdcSource)
    : list TaskEffect * PostgresCdcSource :=
  let '(effects, s) :=
    match poll_batch max_poll s with
    | (Ret (Some (batch, _)), s) => let '(cp, s) := checkpoint s in ([PublishOffset cp; SendBatch batch], s)
    | (_, s) => ([], s)
    end in
  match barrier with
  | Some epoch => let '(cp, s) := checkpoint s in (effects ++ [PublishOffset cp; SendBarrier epoch], s)
  | None => (effects, s)
  end.

(** ** Runs *)

(** Payloads arrive from the reader task. *)
Definition arrive (ps : list WalPayload) (s : PostgresCdcSource) : PostgresCdcSource :=
  with_channels ((λ rx, mkRx (rx_queue rx ++ ps) (rx_disconnected rx)) <$> s_wal_rx s)
    (s_confirmed_lsn_tx s) s.

(** A sequence of polls, each with the payloads that arrive before it. *)
Fixpoint polls (ins : list (list WalPayload * nat)) (s : PostgresCdcSource)
    : list (Exit (option SourceBatch)) * PostgresCdcSource :=
  match ins with
  | [] => ([], s)
  | (ps, max) :: ins' =>
    let '(r, s) := poll_batch max (arrive ps s) in
    let '(rs, s) := polls ins' s in (r :: rs, s)
  end.

End Source.

(** ** What a stream of payloads says

    The row of a message under the relations known so far; the rows of the committed
    transactions of a stream, in commit order, each with its transaction's position
    and commit time. [w] is the last position seen; a row outside any transaction is
    visible at once, at that position. *)

(** A relation that is known and not filtered out. *)
Definition replicated (cfg : PostgresCdcConfig) (rels : RelationCache) (id : Z) : option RelationInfo :=
  r ← rels !! id; if should_include_table cfg (RelationInfo_full_name r) then Some r else None.

Definition row_of (cfg : PostgresCdcConfig) (rels : RelationCache) (m : WalMessage)
    : option (Str * CdcOperation * option Str * option Str) :=
  match m with
  | Insert i =>
    r ← replicated cfg rels (im_relation_id i);
    Some (RelationInfo_full_name r, OpInsert, None, Some (tuple_to_json (im_new_tuple i) r))
  | Update u =>
    r ← replicated cfg rels (um_relation_id u);
    Some (RelationInfo_full_name r, OpUpdate, (λ o, tuple_to_json o r) <$> um_old_tuple u,
          Some (tuple_to_json (um_new_tuple u) r))
  | Delete d =>
    r ← replicated cfg rels (dm_relation_id d);
    Some (RelationInfo_full_name r, OpDelete, Some (tuple_to_json (dm_old_tuple d) r), None)
  | _ => None
  end.

Definition relations_after (rels : RelationCache) (m : WalMessage) : RelationCache :=
  match m with
  | Relation r => <[rm_relation_id r := mkRelInfo (rm_relation_id r) (rm_namespace r) (rm_name r)
                      (rm_replica_identity r) (rm_columns r)]> rels
  | _ => rels
  end.

Definition event_of (lsn ts : Z) (row : Str * CdcOperation * option Str * option Str) : ChangeEvent :=
  let '(t, o, b, a) := row in mkEvent t o lsn ts b a.

(** The message a payload of data carries; the raw Begin and Commit are skipped. *)
Definition payload_message (data : list Z) : option WalMessage :=
  match data with
  | b :: _ => if (b =? ch "B") || (b =? ch "C") then None
              else match decode_message data with Done m => Some m | _ => None end
  | [] => None
  end.

(** An open transaction: position, commit time and rows so far. *)
Abbreviation OpenTxn := (option (Z * Z * list ChangeEvent)) (only parsing).

Fixpoint committed (cfg : PostgresCdcConfig) (rels : RelationCache) (open : OpenTxn) (w : Z)
    (ps : list WalPayload) : list ChangeEvent :=
  match ps with
  | [] => []
  | PBegin f ts _ :: ps' => committed cfg rels (Some (f, pg_timestamp_to_unix_ms ts, [])) w ps'
  | PCommit e _ _ :: ps' =>
    match open with
    | Some (_, _, evs) => evs ++ committed cfg rels None e ps'
    | None => committed cfg rels None w ps'
    end
  | PXLogData w' data :: ps' =>
    match payload_message data with
    | None => committed cfg rels open w' ps'
    | Some m =>
      let rels' := relations_after rels m in
      match row_of cfg rels m, open with
      | Some row, Some (f, ts, evs) => committed cfg rels' (Some (f, ts, evs ++ [event_of f ts row])) w' ps'
      | Some row, None => event_of w 0 row :: committed cfg rels' None w' ps'
      | None, _ => committed cfg rels' open w' ps'
      end
    end
  | PKeepAlive w' :: ps' => committed cfg rels open w' ps'
  | PError _ :: ps' => committed cfg rels open w ps'
  end.

(** The order of a replication stream. [h] is the last position seen, [open] the
    position of the open transaction: transactions come one after the other, each at or
    past everything seen, and while one is open the server reports no position past its
    own. *)
Fixpoint wal_ordered (h : Z) (open : option Z) (ps : list WalPayload) : bool :=
  match ps with
  | [] => true
  | p :: ps' =>
    match p, open with
    | PBegin f _ _, None => (h <=? f) && wal_ordered h (Some f) ps'
    | PCommit e _ _, Some _ => wal_ordered (Z.max h e) None ps'
    | PXLogData w _, Some f | PKeepAlive w, Some f => (w <=? f) && wal_ordered (Z.max h w) open ps'
    | PKeepAlive w, None => wal_ordered (Z.max h w) None ps'
    | PError _, _ => wal_ordered h open ps'
    | _, _ => false
    end
  end.

(** ** Lemmas *)

(** The messages a reader may return. *)
Definition Returns {A} (P : A → Prop) (r : Reader A) : Prop := ∀ c a c', r c = Done (a, c') → P a.

Lemma returns_bind {A B} (P : B → Prop) (r : Reader A) k : (∀ a, Returns P (k a)) → Returns P (r_bind r k).
Proof.
  intros Hk c b c'. unfold r_bind. destruct (r c) as [[a c1]| |]; [|done..]. apply Hk.
Qed.
Lemma returns_ret {A} (P : A → Prop) a : P a → Returns P (r_ret a).
Proof. intros ? c b c' [= <- <-]. done. Qed.
Lemma returns_fail {A} (P : A → Prop) e : Returns P (r_fail e).
Proof. done. Qed.
Lemma returns_if {A} (P : A → Prop) (b : bool) r1 r2 :
  (b = true → Returns P r1) → (b = false → Returns P r2) → Returns P (if b then r1 else r2).
Proof. destruct b; auto. Qed.

Definition not_boundary (m : WalMessage) : Prop :=
  match m with Begin _ | Commit _ => False | _ => True end.

Lemma decode_body_not_boundary t :
  (t =? ch "B") = false → (t =? ch "C") = false → Returns not_boundary (decode_body t).
Proof.
  intros HB HC. unfold decode_body. rewrite HB, HC.
  repeat first [apply returns_if; intros _ | apply returns_fail];
    repeat first [apply returns_if; intros _ | apply returns_bind; intros ? | by apply returns_ret
                 | apply returns_fail].
Qed.

Lemma payload_message_not_boundary data m : payload_message data = Some m → not_boundary m.
Proof.
  unfold payload_message. destruct data as [|b data]; [done|].
  destruct ((b =? ch "B") || (b =? ch "C")) eqn:E; [done|]. apply orb_false_iff in E as [HB HC].
  rewrite decode_message_read by done. unfold read_message, r_bind. rewrite read_u8_at. intros Hm.
  destruct (decode_body b _) as [[m' c]| |] eqn:Ed; simplify_eq/=.
  by eapply decode_body_not_boundary in Ed.
Qed.

Lemma payload_message_decode data m s :
  match data with b :: _ => (b =? ch "B") || (b =? ch "C") | [] => false end = false →
  decode data s = (Ret m, s) → payload_message data = Some m.
Proof.
  unfold decode, payload_message. destruct data as [|b data]; [intros _; discriminate|]. intros ->.
  destruct (decode_message _); unfold c_ret, c_fail; by intros [= ->].
Qed.

Lemma decode_state data s m s1 : decode data s = (Ret m, s1) → s1 = s.
Proof.
  unfold decode, c_ret, c_fail. destruct (decode_message data); [by intros [= _ <-]|intros [=]|intros [=]].
Qed.

Definition open_of (s : PostgresCdcSource) : OpenTxn :=
  (λ t, (tx_final_lsn t, tx_commit_ts_ms t, tx_events t)) <$> s_current_txn s.
Definition drops (s : PostgresCdcSource) : Z := m_events_dropped (s_metrics s).

(** What processing messages leaves alone. *)
Definition frame (s s' : PostgresCdcSource) : Prop :=
  s_config s' = s_config s ∧ s_state s' = s_state s ∧ s_polled_lsn s' = s_polled_lsn s ∧
  s_confirmed_flush_lsn s' = s_confirmed_flush_lsn s ∧ s_pending_messages s' = s_pending_messages s ∧
  s_wal_rx s' = s_wal_rx s ∧ s_confirmed_lsn_tx s' = s_confirmed_lsn_tx s.

#[export] Instance frame_preorder : PreOrder frame.
Proof. split; [by repeat split|]. unfold frame. intros s1 s2 s3 H1 H2. naive_solver congruence. Qed.

(** The rows a source holds back or has not been sent yet, in order, when the payloads
    [ps] are still to come. *)
Definition future (s : PostgresCdcSource) (ps : list WalPayload) : list ChangeEvent :=
  s_event_buffer s ++ committed (s_config s) (s_relation_cache s) (open_of s) (s_write_lsn s) ps.

(** One step of the processing: [d] rows are dropped, and if none is, the rows to
    come are the same as before. *)
Definition advances (s : PostgresCdcSource) (ps : list WalPayload) (s' : PostgresCdcSource)
    (ps' : list WalPayload) : Prop :=
  frame s s' ∧ ∃ d : nat, (d + length ps' <= length ps)%nat ∧
    wrap_u64 (drops s') = wrap_u64 (drops s + Z.of_nat d) ∧
    (d = 0%nat → future s ps = future s' ps').

(** Pushing the event of a row of the open transaction, or of none. *)
Lemma push_event_spec e s :
  let s' := push_event e s in
  frame s s' ∧ s_relation_cache s' = s_relation_cache s ∧ s_write_lsn s' = s_write_lsn s ∧
  (drops s' = u64_add (drops s) 1 ∧ s_event_buffer s' = s_event_buffer s ∧ open_of s' = open_of s ∨
   drops s' = drops s ∧
   match s_current_txn s with
   | Some t => s_event_buffer s' = s_event_buffer s ∧
       open_of s' = Some (tx_final_lsn t, tx_commit_ts_ms t, tx_events t ++ [e])
   | None => s_event_buffer s' = s_event_buffer s ++ [e] ∧ open_of s' = None
   end).
Proof.
  unfold push_event. case_match; cbn zeta.
  - split_and!; [by repeat split|done..|]. by left.
  - destruct (s_current_txn s) as [t|] eqn:Et; (split_and!; [by repeat split|done..|]; right; split; [done|]).
    + by split.
    + split; [done|]. unfold open_of. cbn. by rewrite Et.
Qed.

(** What a message other than Begin and Commit does, when it is processed without an
    error: the relations, and the row if it has one. *)
Definition row_step (m : WalMessage) (s s' : PostgresCdcSource) : Prop :=
  match row_of (s_config s) (s_relation_cache s) m with
  | None => s' = with_relations (relations_after (s_relation_cache s) m) s
  | Some row => ∃ f : CdcMetrics → CdcMetrics, (∀ x, m_events_dropped (f x) = m_events_dropped x) ∧
      s' = with_metrics f (push_event
        (event_of (current_txn_context s).1 (current_txn_context s).2 row) s)
  end.

Lemma with_relations_id s : with_relations (s_relation_cache s) s = s.
Proof. by destruct s. Qed.

Lemma process_wal_message_row m s s' :
  not_boundary m → process_wal_message m s = (Ret (), s') → row_step m s s'.
Proof.
  intros Hm. unfold row_step.
  assert (Hrow : ∀ id (k : RelationInfo → Call ()) g f,
    (∀ x, m_events_dropped (f x) = m_events_dropped x) →
    (∀ r, k r s = if negb (should_include_table (s_config s) (RelationInfo_full_name r)) then (Ret (), s)
       else (Ret (), with_metrics f (push_event (event_of (current_txn_context s).1
                       (current_txn_context s).2 (g r)) s))) →
    c_bind (require_relation id) k s = (Ret (), s') →
    match r ← replicated (s_config s) (s_relation_cache s) id; Some (g r) with
    | None => s' = s
    | Some row => ∃ f : CdcMetrics → CdcMetrics, (∀ x, m_events_dropped (f x) = m_events_dropped x) ∧
      s' = with_metrics f (push_event
        (event_of (current_txn_context s).1 (current_txn_context s).2 row) s)
    end).
  { intros id k g f Hf Hk. unfold c_bind, require_relation, RelationCache_get, replicated.
    destruct (s_relation_cache s !! id) as [rel|]; [|done]. cbn [mbind option_bind]. rewrite Hk.
    destruct (should_include_table _ _); cbn [negb mbind option_bind]; intros [= <-]; [|done].
    by exists f. }
  destruct m as [b|c|r|i|u|d|t|o|ty]; try done; cbn [row_of relations_after]; rewrite ?with_relations_id;
    try (by intros [= <-]); cbn [process_wal_message].
  - apply Hrow with (f := record_insert); [done|]. intros rel. cbv beta zeta.
    by destruct (current_txn_context s), (should_include_table _ _).
  - apply Hrow with (f := record_update); [done|]. intros rel. cbv beta zeta.
    by destruct (current_txn_context s), (should_include_table _ _).
  - apply Hrow with (f := record_delete); [done|]. intros rel. cbv beta zeta.
    by destruct (current_txn_context s), (should_include_table _ _).
Qed.

Lemma wrap_u64_idem z : wrap_u64 (wrap_u64 z) = wrap_u64 z.
Proof. unfold wrap_u64. apply Z.mod_mod. lia. Qed.

Lemma wrap_u64_add_cong a b c : wrap_u64 a = wrap_u64 b → wrap_u64 (a + c) = wrap_u64 (b + c).
Proof. unfold wrap_u64. intros H. by rewrite <- Z.add_mod_idemp_l, H, Z.add_mod_idemp_l. Qed.

Lemma advances_refl s ps : advances s ps s ps.
Proof. split; [reflexivity|]. exists 0%nat. rewrite Z.add_0_r. by split_and!. Qed.

Lemma advances_trans s1 l1 s2 l2 s3 l3 :
  advances s1 l1 s2 l2 → advances s2 l2 s3 l3 → advances s1 l1 s3 l3.
Proof.
  intros (F1 & d1 & L1 & D1 & E1) (F2 & d2 & L2 & D2 & E2). split; [by etrans|].
  exists (d1 + d2)%nat. split_and!; [lia| |].
  - rewrite D2, (wrap_u64_add_cong _ _ _ D1). f_equal. lia.
  - intros H. rewrite E1, E2 by lia. done.
Qed.

(** No row dropped. *)
Lemma advances_same s s' p ps :
  frame s s' → drops s' = drops s → future s (p :: ps) = future s' ps → advances s (p :: ps) s' ps.
Proof.
  intros F D E. split; [done|]. exists 0%nat. rewrite Z.add_0_r, D. split_and!; [cbn; lia|done..].
Qed.

Lemma row_step_advances m w data s s' ps :
  payload_message data = Some m → row_step m s s' →
  advances s (PXLogData w data :: ps) (with_write_lsn w s') ps.
Proof.
  intros Hp. unfold row_step.
  destruct (row_of (s_config s) (s_relation_cache s) m) as [row|] eqn:Er.
  - intros (f & Hf & ->).
    assert (Hm : relations_after (s_relation_cache s) m = s_relation_cache s) by (by destruct m).
    destruct (push_event_spec (event_of (current_txn_context s).1 (current_txn_context s).2 row) s)
      as (Hfr & Hrel & Hw & Hd).
    destruct Hd as [[Hd _]|[Hd He]].
    + split; [exact Hfr|]. exists 1%nat. split_and!; [cbn; lia| |done].
      unfold drops in *. cbn [s_metrics with_write_lsn with_lsns with_metrics].
      rewrite Hf, Hd. apply wrap_u64_idem.
    + apply advances_same; [exact Hfr| |].
      { unfold drops in *. cbn [s_metrics with_write_lsn with_lsns with_metrics]. by rewrite Hf. }
      unfold future. cbn [committed]. rewrite Hp, Er, Hm.
      change (s_config (with_write_lsn w _)) with (s_config (push_event
        (event_of (current_txn_context s).1 (current_txn_context s).2 row) s)).
      destruct Hfr as (-> & _). cbn [s_event_buffer with_write_lsn with_lsns with_metrics s_relation_cache s_write_lsn].
      rewrite Hrel. unfold open_of, current_txn_context in *. cbn [s_current_txn with_write_lsn with_lsns with_metrics].
      destruct (s_current_txn s) as [t|]; destruct He as [-> ->]; cbn; [done|]. by rewrite <- app_assoc.
  - intros ->. apply advances_same; [by repeat split|done|].
    unfold future. cbn [committed]. rewrite Hp, Er. done.
Qed.

Lemma process_wal_payload_advances p s s' ps :
  process_wal_payload p s = (Ret (), s') → advances s (p :: ps) s' ps.
Proof.
  destruct p as [f ts xid|e ts lsn|w data|w|msg]; cbn [process_wal_payload process_wal_message].
  - intros [= <-]. apply advances_same; [by repeat split|done..].
  - intros [= <-]. unfold process_commit. destruct (s_current_txn s) as [t|] eqn:Et.
    + apply advances_same; [by repeat split|done|]. unfold future, open_of. cbn. rewrite Et. cbn.
      by rewrite <- app_assoc.
    + apply advances_same; [reflexivity|done|]. unfold future, open_of. cbn. by rewrite Et.
  - destruct (match data with b :: _ => _ | [] => false end) eqn:Eb.
    + intros [= <-]. apply advances_same; [by repeat split|done|].
      unfold future. cbn [committed]. destruct data as [|b data]; [done|]. cbn [payload_message].
      by rewrite Eb.
    + unfold c_bind at 1. destruct (decode data s) as [[m| |] s1] eqn:Ed; [|done..].
      apply decode_state in Ed as Hst. subst s1.
      pose proof (payload_message_decode _ _ _ Eb Ed) as Hp.
      unfold c_bind. destruct (process_wal_message m s) as [[[]| |] s2] eqn:Em; [|done..]. intros [= <-].
      apply row_step_advances with (m := m); [done|].
      apply process_wal_message_row; [by eapply payload_message_not_boundary|done].
  - intros [= <-]. apply advances_same; [by repeat split|done..].
  - done.
Qed.

Lemma process_payloads_advances l s s' ps :
  process_payloads l s = (Ret (), s') → advances s (l ++ ps) s' ps.
Proof.
  revert s. induction l as [|p l IH]; intros s; cbn [process_payloads].
  - intros [= <-]. apply advances_refl.
  - unfold c_bind. destruct (process_wal_payload p s) as [[[]| |] s1] eqn:E; [|done..]. intros H.
    eapply advances_trans; [by apply process_wal_payload_advances|by apply IH].
Qed.

(** ** The cap *)

(** Events held: in the buffer and in the open transaction. *)
Definition held (s : PostgresCdcSource) : Z :=
  zlen (s_event_buffer s) + match s_current_txn s with Some t => zlen (tx_events t) | None => 0 end.
Definition cap_ok (s : PostgresCdcSource) : Prop := held s <= cfg_max_buffered_events (s_config s).

(** A call keeps a property of the source, however it ends. *)
Definition Keeps {A} (P : PostgresCdcSource → Prop) (c : Call A) : Prop := ∀ s, P s → P (c s).2.

Lemma keeps_bind {A B} P (c : Call A) (k : A → Call B) :
  Keeps P c → (∀ a, Keeps P (k a)) → Keeps P (c_bind c k).
Proof.
  intros Hc Hk s Hs. specialize (Hc s Hs). unfold c_bind.
  destruct (c s) as [[a| |] s1]; [by apply Hk|done..].
Qed.
Lemma keeps_ret {A} P (a : A) : Keeps P (c_ret a).
Proof. by intros s. Qed.
Lemma keeps_fail {A} P e : Keeps P (c_fail e : Call A).
Proof. by intros s. Qed.
Lemma keeps_modify P f : (∀ s, P s → P (f s)) → Keeps P (c_modify f).
Proof. intros Hf s Hs. by apply Hf. Qed.
Create HintDb keeps.
#[export] Hint Resolve keeps_bind keeps_ret keeps_fail keeps_modify : keeps.

Lemma cap_push e s : cap_ok s → cap_ok (push_event e s).
Proof.
  intros H. unfold push_event. case_match eqn:E; [exact H|]. unfold cap_ok, held in *.
  apply Z.leb_gt in E.
  destruct (s_current_txn s) as [t|] eqn:Et; cbn; rewrite ?Et; rewrite length_app; cbn; lia.
Qed.

Lemma keeps_decode data : Keeps cap_ok (decode data).
Proof. intros s Hs. unfold decode. destruct (decode_message data); exact Hs. Qed.

Lemma keeps_message m : Keeps cap_ok (process_wal_message m).
Proof.
  assert (Hrow : ∀ id (k : RelationInfo → Call ()), (∀ r, Keeps cap_ok (k r)) →
    Keeps cap_ok (c_bind (require_relation id) k)).
  { intros id k Hk. apply keeps_bind; [|done]. intros s Hs. unfold require_relation. case_match; exact Hs. }
  destruct m; cbn [process_wal_message].
  - intros s Hs. unfold c_modify, cap_ok, held in *. cbn in *. case_match; lia.
  - intros s Hs. unfold c_modify, process_commit, cap_ok, held in *. cbn in *.
    destruct (s_current_txn s) as [t|] eqn:Et; cbn; [|by rewrite Et]. rewrite length_app. lia.
  - by intros s.
  - apply Hrow. intros r s Hs. cbv beta zeta. case_match; [exact Hs|].
    destruct (current_txn_context s) as [l t]. exact (cap_push _ s Hs).
  - apply Hrow. intros r s Hs. cbv beta zeta. case_match; [exact Hs|].
    destruct (current_txn_context s) as [l t]. exact (cap_push _ s Hs).
  - apply Hrow. intros r s Hs. cbv beta zeta. case_match; [exact Hs|].
    destruct (current_txn_context s) as [l t]. exact (cap_push _ s Hs).
  - by intros s.
  - apply keeps_ret.
  - apply keeps_ret.
Qed.
#[export] Hint Resolve keeps_decode keeps_message : keeps.

Lemma keeps_payload p : Keeps cap_ok (process_wal_payload p).
Proof. destruct p; cbn [process_wal_payload]; eauto with keeps. case_match; eauto 10 with keeps. Qed.

Lemma keeps_payloads ps : Keeps cap_ok (process_payloads ps).
Proof. induction ps; cbn [process_payloads]; eauto using keeps_payload with keeps. Qed.

Lemma keeps_pending : Keeps cap_ok process_pending_messages.
Proof.
  intros s Hs. unfold process_pending_messages. generalize (s_pending_messages s).
  intros l. revert s Hs. change (Keeps cap_ok (pending_loop l)).
  induction l; cbn [pending_loop]; eauto 10 with keeps.
Qed.

(** Within the cap there is nothing to drop at the old end of the buffer. *)
Lemma drop_oldest_id s : cap_ok s → drop_oldest s = s.
Proof.
  unfold cap_ok, held, drop_oldest. intros H.
  rewrite (proj2 (Z.ltb_ge _ _)) by (case_match; lia). done.
Qed.

Section SourceRuns.
Context {RB : Type} (try_new : EnvelopeColumns → option RB).

Lemma keeps_wal max : Keeps cap_ok (poll_wal max).
Proof.
  intros s Hs. unfold poll_wal. destruct (match s_wal_rx s with Some _ => _ | None => _ end) as [[ps rest] closed].
  apply (keeps_bind cap_ok (process_payloads ps)); [apply keeps_payloads| |exact Hs].
  intros [] s1 H1. case_match; exact H1.
Qed.

Lemma keeps_drain max : Keeps cap_ok (drain_events try_new max).
Proof.
  intros s Hs. unfold drain_events. destruct (s_event_buffer s) eqn:E; [done|]. rewrite <- E.
  assert (cap_ok (with_buffer (drop (Nat.min max (length (s_event_buffer s))) (s_event_buffer s)) s)).
  { unfold cap_ok, held in *. cbn. rewrite length_drop. lia. }
  by case_match.
Qed.

(** [poll_batch] without the statement that drops the oldest events. *)
Definition poll_batch_uncapped (max_records : nat) : Call (option (SourceBatch (RB:=RB))) := λ s,
  if negb (bool_decide (s_state s = Running))
  then (Fail_ (InvalidState (lit "Running") (ConnectorState_to_string (s_state s))), s)
  else
    (let! _ := poll_wal max_records in
     let! _ := process_pending_messages in
     let! drained := drain_events try_new max_records in
     λ s, match drained with
     | None => (Ret None, s)
     | Some batch =>
       let s := if bool_decide (s_event_buffer s = [])
                then with_lsns (s_confirmed_flush_lsn s) (s_write_lsn s) (s_write_lsn s) s else s in
       let s := with_metrics (set_confirmed_flush_lsn (Lsn_as_u64 (s_confirmed_flush_lsn s))) s in
       let s := with_metrics (set_replication_lag_bytes (replication_lag_bytes s)) s in
       (Ret (Some (batch, (cfg_slot_name (s_config s), Lsn_to_string (s_write_lsn s)))), s)
     end) s.

Lemma poll_batch_drops_none max s : cap_ok s → poll_batch try_new max s = poll_batch_uncapped max s.
Proof.
  intros Hs. unfold poll_batch, poll_batch_uncapped. case_match; [done|].
  unfold c_bind at 1 5. pose proof (keeps_wal max s Hs) as H1.
  destruct (poll_wal max s) as [[[]| |] s1]; [|done..].
  unfold c_bind at 1 4. pose proof (keeps_pending s1 H1) as H2.
  destruct (process_pending_messages s1) as [[[]| |] s2]; [|done..].
  unfold c_bind at 1. unfold c_modify. by rewrite drop_oldest_id.
Qed.

Lemma keeps_poll max : Keeps cap_ok (poll_batch try_new max).
Proof.
  intros s Hs. rewrite poll_batch_drops_none by done. unfold poll_batch_uncapped.
  case_match; [done|]. revert s Hs H.
  match goal with |- ∀ s, cap_ok s → _ → cap_ok (?c s).2 => enough (HK : Keeps cap_ok c) by (intros; by apply HK) end.
  apply keeps_bind; [apply keeps_wal|intros _]. apply keeps_bind; [apply keeps_pending|intros _].
  apply keeps_bind; [apply keeps_drain|]. intros [b|] s Hs; [|done].
  by case_match.
Qed.
End SourceRuns.

(** ** Delivery *)

Section Delivery.
Context {RB : Type} (try_new : EnvelopeColumns → option RB).

(** The rows of a poll's result. *)
Definition delivers (r : Exit (option (SourceBatch (RB:=RB)))) (evs : list ChangeEvent) : Prop :=
  match r with
  | Ret (Some (b, _)) => try_new (events_to_columns evs) = Some b
  | _ => evs = []
  end.

Definition queue_of (s : PostgresCdcSource) : list WalPayload :=
  match s_wal_rx s with Some rx => rx_queue rx | None => [] end.

(** A source that is being polled: running, connected, within its cap, and fed by
    the reader only. *)
Definition polling (s : PostgresCdcSource) : Prop :=
  cap_ok s ∧ s_state s = Running ∧ s_pending_messages s = [] ∧ is_Some (s_wal_rx s).

Lemma recv_loop_split room q b ps rest c : recv_loop room q b = (ps, rest, c) → q = ps ++ rest.
Proof.
  revert q ps rest c. induction room as [|r IH]; intros q ps rest c; cbn; [by intros [= <- <- _]|].
  destruct q as [|p q]; [by intros [= <- <- _]|].
  destruct (recv_loop r q b) as [[ps' rest'] c'] eqn:E. intros [= <- <- _]. cbn. f_equal. by eapply IH.
Qed.

Lemma recv_loop_none room q b rest c : (0 < room)%nat → recv_loop room q b = ([], rest, c) → q = [].
Proof.
  destruct room as [|r]; [lia|]. intros _. destruct q as [|p q]; [done|]. cbn. by destruct (recv_loop r q b) as [[??]?].
Qed.

(** The source after the payloads of a poll. *)
Lemma poll_wal_split max s s1 :
  polling s → poll_wal max s = (Ret (), s1) →
  ∃ ps rest, queue_of s = ps ++ rest ∧ queue_of s1 = rest ∧ is_Some (s_wal_rx s1) ∧
    ((length (s_event_buffer s) < max)%nat → ps = [] → queue_of s = []) ∧
    ∃ s0, process_payloads ps s0 = (Ret (), s1) ∧ frame s0 s1 ∧
      (∀ more, future s0 more = future s more) ∧ drops s0 = drops s ∧
      s_config s0 = s_config s ∧ s_state s0 = s_state s ∧ s_polled_lsn s0 = s_polled_lsn s ∧
      s_pending_messages s0 = s_pending_messages s ∧ s_write_lsn s0 = s_write_lsn s ∧
      s_event_buffer s0 = s_event_buffer s ∧ open_of s0 = open_of s ∧ held s0 = held s ∧
      s_confirmed_lsn_tx s0 = s_confirmed_lsn_tx s.
Proof.
  intros (_ & _ & _ & [rx Hrx]). unfold poll_wal. rewrite Hrx. cbn [fmap option_fmap option_map].
  destruct (recv_loop _ _ _) as [[ps rest] c] eqn:Er.
  assert (Hnone : (length (s_event_buffer s) < max)%nat → ps = [] → rx_queue rx = []).
  { intros Hl ->. eapply recv_loop_none; [|exact Er]. lia. }
  apply recv_loop_split in Er.
  set (s0 := with_channels _ _ s). unfold c_bind.
  destruct (process_payloads ps s0) as [[[]| |] s2] eqn:Ep; [|done..].
  case_match; [done|]. intros [= <-]. exists ps, rest. unfold queue_of. rewrite Hrx.
  pose proof (process_payloads_advances ps s0 s2 [] Ep) as [F _].
  assert (s_wal_rx s2 = Some (mkRx rest (rx_disconnected rx))) as ->
    by (destruct F as (_ & _ & _ & _ & _ & -> & _); done).
  split_and!; [done..|]. exists s0. by split_and!.
Qed.

(** What a poll without error does: it takes the payloads [ps] off the queue and
    processes them ([s0] to [s1]), delivers the rows [evs] at the head of the buffer, and
    when that empties the buffer the polled position becomes the position last
    written. *)
Record poll_ok (max : nat) (s : PostgresCdcSource) (r : option (SourceBatch (RB:=RB))) (s' : PostgresCdcSource)
    (ps : list WalPayload) (evs : list ChangeEvent) (s0 s1 : PostgresCdcSource) : Prop := {
  po_queue : queue_of s = ps ++ queue_of s';
  po_received : (length (s_event_buffer s) < max)%nat → ps = [] → queue_of s = [];
  po_drained : (0 < max)%nat → evs = [] → s_event_buffer s1 = [];
  po_polling : polling s';
  po_delivers : delivers (Ret r) evs;
  po_process : process_payloads ps s0 = (Ret (), s1);
  po_start : drops s0 = drops s ∧ s_polled_lsn s0 = s_polled_lsn s ∧ s_write_lsn s0 = s_write_lsn s ∧
             s_event_buffer s0 = s_event_buffer s ∧ open_of s0 = open_of s ∧ held s0 = held s;
  po_future0 more : future s0 more = future s more;
  po_future1 more : future s1 more = evs ++ future s' more;
  po_end : drops s' = drops s1 ∧ s_config s' = s_config s ∧ s_write_lsn s' = s_write_lsn s1 ∧
           open_of s' = open_of s1 ∧ s_event_buffer s1 = evs ++ s_event_buffer s' ∧
           held s1 = zlen evs + held s';
  po_channel : s_confirmed_lsn_tx s' = s_confirmed_lsn_tx s;
  po_emptied : r ≠ None → s_event_buffer s' = [] → s_polled_lsn s' = s_write_lsn s';
  po_polled : s_polled_lsn s' = s_polled_lsn s1 ∨
              s_event_buffer s' = [] ∧ s_polled_lsn s' = s_write_lsn s1 }.

Lemma poll_spec max s r s' :
  polling s → poll_batch try_new max s = (Ret r, s') → ∃ ps evs s0 s1, poll_ok max s r s' ps evs s0 s1.
Proof.
  intros Hp Hpoll. pose proof Hp as (Hcap & Hrun & Hpend & Hrx).
  pose proof (keeps_poll try_new max s Hcap) as Hcap'. rewrite Hpoll in Hcap'. cbn in Hcap'.
  rewrite poll_batch_drops_none in Hpoll by done. unfold poll_batch_uncapped in Hpoll.
  rewrite bool_decide_eq_true_2 in Hpoll by done. cbn [negb] in Hpoll.
  unfold c_bind at 1 in Hpoll. destruct (poll_wal max s) as [[[]| |] s1] eqn:Ew; [|done..].
  destruct (poll_wal_split _ _ _ Hp Ew) as (ps & rest & Hq & Hq1 & Hrx1 & Hrecv & s0 & Hps & F & Hfut & Hd & Hc0 &
    Hst & Hpl & Hpe & Hwr & Hbuf & Hop & Hheld & Htx).
  destruct F as (Fc & Fs & Fp & Fcf & Fpe & Frx & Ftx).
  unfold c_bind at 1 in Hpoll.
  assert (process_pending_messages s1 = (Ret (), s1)) as E1.
  { unfold process_pending_messages. by rewrite Fpe, Hpe, Hpend. }
  assert (s_state s1 = Running ∧ s_pending_messages s1 = []) as [Hrun1 Hpend1]
    by (by rewrite Fs, Fpe, Hst, Hpe).
  rewrite E1 in Hpoll. unfold c_bind, drain_events in Hpoll.
  destruct (s_event_buffer s1) as [|e0 b0] eqn:Eb.
  - injection Hpoll as <- <-. exists ps, [], s0, s1.
    assert (Hrest : queue_of s = ps ++ queue_of s1) by (by rewrite Hq, Hq1).
    assert (Hcfg : s_config s1 = s_config s) by (by rewrite Fc).
    assert (Htx1 : s_confirmed_lsn_tx s1 = s_confirmed_lsn_tx s) by (by rewrite Ftx).
    split; try (by split_and!); try done. by left.
  - rewrite <- Eb in Hpoll. set (n := Nat.min max (length (s_event_buffer s1))) in *.
    unfold events_to_record_batch in Hpoll.
    destruct (try_new (events_to_columns (take n (s_event_buffer s1)))) as [b|] eqn:Et; [|done].
    cbn [with_metrics with_buffer s_event_buffer] in Hpoll.
    exists ps, (take n (s_event_buffer s1)), s0, s1.
    assert (Hbd : s_event_buffer s1 = take n (s_event_buffer s1) ++ drop n (s_event_buffer s1))
      by (by rewrite take_drop).
    assert (Hrest : queue_of s = ps ++ queue_of s1) by (by rewrite Hq, Hq1).
    assert (Hcfg : s_config s1 = s_config s) by (by rewrite Fc).
    assert (Htx1 : s_confirmed_lsn_tx s1 = s_confirmed_lsn_tx s) by (by rewrite Ftx).
    assert (Hdr : (0 < max)%nat → take n (s_event_buffer s1) = [] → s_event_buffer s1 = []).
    { intros Hm Ht. apply (f_equal length) in Ht. rewrite length_take in Ht. apply nil_length_inv.
      cbn in Ht. lia. }
    assert (Hhl : held s1 = zlen (take n (s_event_buffer s1)) + (zlen (drop n (s_event_buffer s1)) +
      match s_current_txn s1 with Some t => zlen (tx_events t) | None => 0 end)).
    { unfold held. rewrite Hbd at 1. rewrite length_app. lia. }
    case_bool_decide as Ed; injection Hpoll as <- <-.
    all: split; try (by split_and!); try done;
      try (intros more; unfold future; cbn; rewrite app_assoc, take_drop; done).
    + right. by split.
    + by left.
Qed.
End Delivery.

(** ** Positions *)

(** The stream [ps] to come is ordered after what the source has seen, and the open
    transaction's rows carry its position. *)
Definition lsn_inv (s : PostgresCdcSource) (ps : list WalPayload) : Prop :=
  ∃ h, s_write_lsn s <= h ∧ s_polled_lsn s <= h ∧ wal_ordered h ((λ t, t.1.1) <$> open_of s) ps = true ∧
    match open_of s with Some (f, _, evs) => h <= f ∧ Forall (λ e, ce_lsn e = f) evs | None => True end.

(** No buffered row is before the polled position. *)
Definition safe (s : PostgresCdcSource) : Prop :=
  Forall (λ e, s_polled_lsn s <= ce_lsn e) (s_event_buffer s).

Lemma event_of_lsn f ts row : ce_lsn (event_of f ts row) = f.
Proof. by destruct row as [[[t o] b] a]. Qed.

(** The rows of an ordered stream are not before the positions seen. *)
Lemma committed_after cfg q ps : ∀ rels (open : OpenTxn) w h,
  q <= h → wal_ordered h ((λ t, t.1.1) <$> open) ps = true →
  match open with Some (f, _, evs) => h <= f ∧ Forall (λ e, ce_lsn e = f) evs | None => True end →
  Forall (λ e, q <= ce_lsn e) (committed cfg rels open w ps).
Proof.
  induction ps as [|p ps IH]; intros rels open w h Hq Ho Hop; [constructor|].
  destruct p as [f ts x|e ts l|w' data|w'|msg]; cbn [wal_ordered committed] in *.
  - destruct open as [[[f0 ts0] evs]|]; [done|]. cbn in Ho. apply andb_true_iff in Ho as [Hf Ho].
    apply (IH _ _ _ h); [lia|done|]. split; [lia|constructor].
  - destruct open as [[[f0 ts0] evs]|]; [|done]. cbn in Ho. destruct Hop as [Hf Hev].
    apply Forall_app. split; [eapply Forall_impl; [exact Hev|]; cbn; lia|].
    apply (IH _ _ _ (Z.max h e)); [lia|done..].
  - destruct open as [[[f0 ts0] evs]|]; [|done]. cbn in Ho. destruct Hop as [Hf Hev].
    apply andb_true_iff in Ho as [Hw Ho].
    assert (Hnext : ∀ rels' evs', Forall (λ e, ce_lsn e = f0) evs' →
      Forall (λ e, q <= ce_lsn e) (committed cfg rels' (Some (f0, ts0, evs')) w' ps)).
    { intros rels' evs' He. apply (IH _ _ _ (Z.max h w')); [lia|done|]. split; [lia|done]. }
    destruct (payload_message data) as [m|]; [|by apply Hnext].
    destruct (row_of cfg rels m) as [row|]; [|by apply Hnext].
    apply Hnext. apply Forall_app. split; [done|]. apply Forall_singleton. apply event_of_lsn.
  - destruct open as [[[f0 ts0] evs]|]; cbn in Ho.
    + apply andb_true_iff in Ho as [Hw Ho]. destruct Hop as [Hf Hev].
      apply (IH _ _ _ (Z.max h w')); [lia|done|]. split; [lia|done].
    + apply (IH _ _ _ (Z.max h w')); [lia|done..].
  - destruct open as [[[f0 ts0] evs]|]; cbn in Ho; by apply (IH _ _ _ h).
Qed.

Lemma future_after s ps :
  lsn_inv s ps → safe s → Forall (λ e, s_polled_lsn s <= ce_lsn e) (future s ps).
Proof.
  intros (h & Hw & Hq & Ho & Hop) Hs. apply Forall_app. split; [done|]. by apply (committed_after _ _ _ _ _ _ h).
Qed.

Lemma row_step_lsn m w data s s' ps :
  row_step m s s' → lsn_inv s (PXLogData w data :: ps) → safe s →
  lsn_inv (with_write_lsn w s') ps ∧ safe (with_write_lsn w s').
Proof.
  intros Hr (h & Hw & Hq & Ho & Hop) Hs. cbn [wal_ordered] in Ho.
  destruct (open_of s) as [[[f ts] evs]|] eqn:Eo; [|done]. cbn in Ho.
  apply andb_true_iff in Ho as [Hwf Ho]. destruct Hop as [Hf Hev].
  assert (Hin : ∀ s2, s_polled_lsn s2 = s_polled_lsn s → s_event_buffer s2 = s_event_buffer s →
    s_write_lsn s2 = w → (∃ evs', open_of s2 = Some (f, ts, evs') ∧ Forall (λ e, ce_lsn e = f) evs') →
    lsn_inv s2 ps ∧ safe s2).
  { intros s2 Hp2 Hb2 Hw2 (evs' & Ho2 & He2). unfold lsn_inv, safe. rewrite Hp2, Hb2, Hw2, Ho2.
    split; [|done]. exists (Z.max h w). split_and!; [lia|lia|done|lia|done]. }
  unfold row_step in Hr. destruct (row_of _ _ m) as [row|].
  - destruct Hr as (fm & _ & ->).
    assert (Hctx : (current_txn_context s).1 = f).
    { unfold open_of in Eo. unfold current_txn_context. destruct (s_current_txn s); [|done].
      by injection Eo as <- _ _. }
    destruct (push_event_spec (event_of (current_txn_context s).1 (current_txn_context s).2 row) s)
      as (Hfr & _ & _ & Hd).
    apply Hin; [apply Hfr| |done|].
    + destruct Hd as [(_ & Hb & _)|(_ & Hd)]; [exact Hb|].
      unfold open_of in Eo. destruct (s_current_txn s); [|done]. apply Hd.
    + change (open_of (with_write_lsn w _)) with (open_of (push_event
        (event_of (current_txn_context s).1 (current_txn_context s).2 row) s)).
      destruct Hd as [(_ & _ & ->)|(_ & Hd)]; [by exists evs|].
      unfold open_of in Eo. destruct (s_current_txn s) as [t|] eqn:Et; [|done].
      destruct Hd as [_ ->]. injection Eo as <- <- <-. eexists. split; [reflexivity|].
      apply Forall_app. split; [done|]. apply Forall_singleton. rewrite event_of_lsn. done.
  - subst s'. apply Hin; [done..|]. exists evs. split; [exact Eo|done].
Qed.

Lemma process_wal_payload_lsn p s s' ps :
  process_wal_payload p s = (Ret (), s') → lsn_inv s (p :: ps) → safe s → lsn_inv s' ps ∧ safe s'.
Proof.
  destruct p as [f ts xid|e ts lsn|w data|w|msg]; cbn [process_wal_payload process_wal_message].
  - intros [= <-] (h & Hw & Hq & Ho & Hop) Hs. cbn [wal_ordered] in Ho. split; [|exact Hs].
    destruct (open_of s); [done|]. cbn in Ho. apply andb_true_iff in Ho as [Hf Ho].
    exists h. split_and!; [exact Hw|exact Hq|exact Ho|]. cbn. split; [by apply Z.leb_le|constructor].
  - intros [= <-] (h & Hw & Hq & Ho & Hop) Hs. cbn [wal_ordered] in Ho.
    unfold open_of in *. unfold process_commit. destruct (s_current_txn s) as [t|] eqn:Et; [|done].
    cbn in Ho, Hop. destruct Hop as [Hf Hev]. split.
    + exists (Z.max h e). unfold open_of, Lsn_new. cbn -[Z.max]. split_and!; [lia|lia|done|done].
    + unfold safe. cbn. apply Forall_app. split; [exact Hs|]. eapply Forall_impl; [exact Hev|]. cbn. lia.
  - destruct (match data with b :: _ => _ | [] => false end) eqn:Eb.
    + intros [= <-] Hi Hs. apply (row_step_lsn (Origin (mkOrigin 0 [])) w data s s); [|done|done].
      symmetry. apply with_relations_id.
    + unfold c_bind at 1. destruct (decode data s) as [[m| |] s1] eqn:Ed; [|done..].
      apply decode_state in Ed as Hst. subst s1.
      pose proof (payload_message_decode _ _ _ Eb Ed) as Hp.
      unfold c_bind. destruct (process_wal_message m s) as [[[]| |] s2] eqn:Em; [|done..]. intros [= <-].
      apply row_step_lsn with (m := m).
      apply process_wal_message_row; [by eapply payload_message_not_boundary|done].
  - intros [= <-] (h & Hw & Hq & Ho & Hop) Hs. cbn [wal_ordered] in Ho. split; [|exact Hs].
    exists (Z.max h w). unfold open_of, Lsn_new in *. cbn -[Z.max]. split_and!; [lia|lia| |].
    + destruct (s_current_txn s); cbn in *; [by apply andb_true_iff in Ho as [_ Ho]|done].
    + destruct (s_current_txn s); cbn in *; [|done]. apply andb_true_iff in Ho as [Ho _].
      split; [lia|apply Hop].
  - done.
Qed.

Lemma process_payloads_lsn l s s' ps :
  process_payloads l s = (Ret (), s') → lsn_inv s (l ++ ps) → safe s → lsn_inv s' ps ∧ safe s'.
Proof.
  revert s. induction l as [|p l IH]; intros s; cbn [process_payloads app]; [by intros [= <-]|].
  unfold c_bind. destruct (process_wal_payload p s) as [[[]| |] s1] eqn:E; [|done..]. intros H Hi Hs.
  destruct (process_wal_payload_lsn _ _ _ _ E Hi Hs). by apply (IH s1).
Qed.

(** ** Progress *)

(** A call adds at most one row to those held. *)
Lemma push_held e s : held (push_event e s) <= held s + 1.
Proof.
  unfold push_event, held. case_match; [cbn; lia|].
  destruct (s_current_txn s) as [t|] eqn:Et; cbn; rewrite ?Et; rewrite length_app; cbn; lia.
Qed.

Lemma process_wal_payload_held p s s' : process_wal_payload p s = (Ret (), s') → held s' <= held s + 1.
Proof.
  destruct p as [f ts xid|e ts lsn|w data|w|msg]; cbn [process_wal_payload process_wal_message].
  - intros [= <-]. unfold held. cbn. case_match; lia.
  - intros [= <-]. unfold process_commit. destruct (s_current_txn s) as [t|] eqn:Et; [|lia].
    unfold held. cbn. rewrite Et, length_app. lia.
  - case_match eqn:Eb; [intros [= <-]; unfold held; cbn; lia|].
    unfold c_bind at 1. destruct (decode data s) as [[m| |] s1] eqn:Ed; [|done..].
    apply decode_state in Ed as Hst. subst s1. pose proof (payload_message_decode _ _ _ Eb Ed) as Hp.
    unfold c_bind. destruct (process_wal_message m s) as [[[]| |] s2] eqn:Em; [|done..]. intros [= <-].
    apply process_wal_message_row in Em; [|by eapply payload_message_not_boundary]. unfold row_step in Em.
    destruct (row_of _ _ m) as [row|].
    + destruct Em as (f & _ & ->). exact (push_held _ s).
    + subst s2. unfold held. cbn. lia.
  - intros [= <-]. unfold held. cbn. lia.
  - done.
Qed.

Lemma process_payloads_held l s s' : process_payloads l s = (Ret (), s') → held s' <= held s + zlen l.
Proof.
  revert s. induction l as [|p l IH]; intros s; cbn [process_payloads]; [intros [= <-]; cbn; lia|].
  unfold c_bind. destruct (process_wal_payload p s) as [[[]| |] s1] eqn:E; [|done..]. intros H.
  apply process_wal_payload_held in E. apply IH in H. cbn [length]. lia.
Qed.

(** ** Theorems *)

Section Theorems.
Context {RB : Type} (try_new : EnvelopeColumns → option RB).

Definition is_ret {A} (r : Exit A) : Prop := match r with Ret _ => True | _ => False end.

Lemma arrive_polling ps s :
  polling s → polling (arrive ps s) ∧ queue_of (arrive ps s) = queue_of s ++ ps.
Proof.
  intros (Hc & Hs & Hp & [rx Hrx]). unfold polling, queue_of, arrive, with_channels, cap_ok, held in *.
  cbn. rewrite Hrx. cbn. split; [|done]. by split_and!; [done..|eexists].
Qed.

(** A run of polls without error. *)
Lemma polls_spec ins s rs s' :
  polling s → polls try_new ins s = (rs, s') → Forall is_ret rs →
  polling s' ∧ s_config s' = s_config s ∧
  ∃ evss d, Forall2 (delivers try_new) rs evss ∧
    (d + length (queue_of s') <= length (queue_of s ++ concat ins.*1))%nat ∧
    wrap_u64 (drops s') = wrap_u64 (drops s + Z.of_nat d) ∧
    (d = 0%nat → future s (queue_of s ++ concat ins.*1) = concat evss ++ future s' (queue_of s')).
Proof.
  revert s rs s'. induction ins as [|[ps max] ins IH]; intros s rs s' Hp; cbn [polls].
  - intros [= <- <-] _. split_and!; [done..|]. exists [], 0%nat. rewrite Z.add_0_r, app_nil_r. by split_and!.
  - destruct (arrive_polling ps s Hp) as [Hp' Hq']. set (sa := arrive ps s) in *.
    destruct (poll_batch try_new max sa) as [r s1] eqn:Er. destruct (polls try_new ins s1) as [rs1 s2] eqn:Ers.
    intros [= <- <-] [Hr Hrs]%Forall_cons_1. destruct r as [r| |]; [|done..].
    destruct (poll_spec _ _ _ _ _ Hp' Er) as (cs & evs & s0 & s3 & Hok).
    destruct Hok as [Hq _ _ Hp1 Hdel Hproc Hst Hf0 Hf1 Hend _ _ _].
    destruct Hst as (Hd0 & _). destruct Hend as (Hd1 & Hcfg & _).
    destruct (IH _ _ _ Hp1 Ers Hrs) as (Hp2 & Hc2 & evss & d & HF & Hd & Hdr & Heq).
    destruct (process_payloads_advances cs s0 s3 (queue_of s1 ++ concat ins.*1) Hproc)
      as (_ & d1 & Hl1 & Hdr1 & Heq1).
    split_and!; [done|by rewrite Hc2, Hcfg|]. exists (evs :: evss), (d1 + d)%nat.
    assert (Hall : queue_of s ++ concat ((ps, max) :: ins).*1 = cs ++ queue_of s1 ++ concat ins.*1).
    { cbn. rewrite app_assoc, <- Hq', Hq. by rewrite <- app_assoc. }
    rewrite Hall. split_and!; [by constructor| | |].
    + rewrite !length_app in *. lia.
    + rewrite Hdr, Hd1, (wrap_u64_add_cong _ _ _ Hdr1), Hd0. f_equal. change (drops sa) with (drops s). lia.
    + intros H0. change (future s) with (future sa). rewrite <- Hf0, Heq1, Hf1, Heq by lia. cbn.
      by rewrite app_assoc.
Qed.

(** A source opened for replication, on a slot whose confirmed position is [slot]. *)
Definition opened (cfg : PostgresCdcConfig) (slot : option Lsn) : PostgresCdcSource :=
  (open None (inl slot) None (PostgresCdcSource_new cfg)).2.

Lemma opened_polling cfg slot : 0 <= cfg_max_buffered_events cfg → polling (opened cfg slot).
Proof.
  intros H. unfold opened, open. cbn. destruct (cfg_start_lsn cfg), slot; unfold polling, cap_ok, held; cbn;
    split_and!; try done; eauto.
Qed.

Lemma opened_facts cfg slot :
  let s := opened cfg slot in
  s_config s = cfg ∧ drops s = 0 ∧ queue_of s = [] ∧ s_event_buffer s = [] ∧ open_of s = None ∧
  s_relation_cache s = ∅ ∧ s_polled_lsn s = s_write_lsn s ∧ is_Some (s_confirmed_lsn_tx s).
Proof.
  unfold opened, open. cbn. destruct (cfg_start_lsn cfg), slot; cbn; split_and!; done || eauto.
Qed.

(** No row lost: what a run of polls delivers and what is still to come are the
    stream's committed rows. *)
Lemma polls_committed cfg slot ins rs s' :
  0 <= cfg_max_buffered_events cfg → zlen (concat ins.*1) < u64_MOD →
  polls try_new ins (opened cfg slot) = (rs, s') → Forall is_ret rs → drops s' = 0 →
  ∃ evss, Forall2 (delivers try_new) rs evss ∧
    concat evss ++ future s' (queue_of s') =
    committed cfg ∅ None (s_write_lsn (opened cfg slot)) (concat ins.*1).
Proof.
  intros Hm Hlen Hrun Hret Hd.
  destruct (polls_spec _ _ _ _ (opened_polling _ slot Hm) Hrun Hret)
    as (_ & _ & evss & d & HF & Hl & Hdr & Heq).
  destruct (opened_facts cfg slot) as (Hc & Hd0 & Hq & Hb & Ho & Hr & _).
  rewrite Hq, Hd0, Hd in *. cbn [app] in *.
  assert (d = 0%nat) as Hz.
  { rewrite Z.add_0_l, (wrap_u64_small (Z.of_nat d)) in Hdr by (unfold is_u64; lia).
    change (wrap_u64 0) with 0 in Hdr. lia. }
  exists evss. split; [done|]. rewrite <- Heq by done. unfold future. by rewrite Hc, Hb, Ho, Hr.
Qed.

(** *** Polling until nothing is left *)

Definition work (s : PostgresCdcSource) : Z := 2 * zlen (queue_of s) + held s.
Definition idle (s : PostgresCdcSource) : Prop := queue_of s = [] ∧ s_event_buffer s = [].

Lemma held_nonneg s : 0 <= held s.
Proof. unfold held. case_match; lia. Qed.

Lemma poll_progress max s r s' :
  (0 < max)%nat → polling s → poll_batch try_new max s = (Ret r, s') →
  polling s' ∧ work s' <= work s ∧ (idle s' ∨ work s' < work s) ∧ (idle s → idle s').
Proof.
  intros Hmax Hp Hpoll. destruct (poll_spec _ _ _ _ _ Hp Hpoll) as (ps & evs & s0 & s1 & Hok).
  destruct Hok as [Hq Hrecv Hdr Hp' _ Hproc Hst _ _ Hend _ _ _].
  destruct Hst as (_ & _ & _ & Hb0 & _ & Hh0). destruct Hend as (_ & _ & _ & _ & Hb1 & Hh1).
  pose proof (process_payloads_held _ _ _ Hproc) as Hh.
  assert (Hw : work s' <= work s - zlen ps - zlen evs).
  { unfold work. rewrite Hq, length_app. lia. }
  assert (Hstep : ps = [] → evs = [] → s_event_buffer s = [] ∧ s_event_buffer s' = []).
  { intros -> ->. injection Hproc as <-. specialize (Hdr Hmax eq_refl). rewrite Hb0 in Hdr.
    split; [done|]. by rewrite <- Hb0, Hb1 in Hdr. }
  split_and!; [done|lia| |].
  - destruct ps as [|p ps]; [|right; cbn in Hw; lia]. destruct evs as [|e evs]; [|right; cbn in Hw; lia].
    left. destruct (Hstep eq_refl eq_refl) as [Hbs Hbs']. split; [|done].
    specialize (Hrecv ltac:(rewrite Hbs; cbn; lia) eq_refl). by rewrite Hq in Hrecv.
  - intros [Hqs Hbs]. rewrite Hqs in Hq. symmetry in Hq. apply app_nil in Hq as [-> Hq'].
    split; [done|]. injection Hproc as <-. rewrite Hb0, Hbs in Hb1. symmetry in Hb1.
    by apply app_nil in Hb1 as [_ ?].
Qed.

Lemma arrive_nil s : is_Some (s_wal_rx s) → arrive [] s = s.
Proof.
  intros [[q b] Hrx]. unfold arrive, with_channels. rewrite Hrx. cbn. rewrite app_nil_r. destruct s.
  cbn in *. by rewrite Hrx.
Qed.

Lemma polls_drain n max s rs s' :
  (0 < max)%nat → polling s → polls try_new (replicate n ([], max)) s = (rs, s') → Forall is_ret rs →
  work s <= Z.of_nat n ∨ idle s → idle s'.
Proof.
  intros Hmax. revert s rs. induction n as [|n IH]; intros s rs Hp; cbn [replicate polls].
  - intros [= <- <-] _ [Hw|]; [|done]. pose proof (held_nonneg s). unfold work in Hw.
    assert (Hq : queue_of s = []) by (apply nil_length_inv; lia). split; [done|].
    apply nil_length_inv. unfold held in *. case_match; lia.
  - rewrite arrive_nil by apply Hp. destruct (poll_batch try_new max s) as [r s1] eqn:Er.
    destruct (polls try_new _ s1) as [rs1 s2] eqn:Ers. intros [= <- <-] [Hr Hrs]%Forall_cons_1 Hw.
    destruct r as [r| |]; [|done..].
    destruct (poll_progress _ _ _ _ Hmax Hp Er) as (Hp1 & _ & Hprog & Hidle).
    apply (IH _ _ Hp1 Ers Hrs). destruct Hw as [Hw|Hi]; [|right; auto]. destruct Hprog; [by right|left; lia].
Qed.

Lemma polls_app ins1 ins2 s :
  polls try_new (ins1 ++ ins2) s =
  (let '(rs1, s1) := polls try_new ins1 s in let '(rs2, s2) := polls try_new ins2 s1 in (rs1 ++ rs2, s2)).
Proof.
  revert s. induction ins1 as [|[ps max] ins IH]; intros s; cbn [app polls].
  - by destruct (polls try_new ins2 s).
  - destruct (poll_batch try_new max (arrive ps s)) as [r s1]. rewrite IH.
    destruct (polls try_new ins s1) as [rs1 s2]. by destruct (polls try_new ins2 s2).
Qed.

(** The work left is at most twice the payloads that arrived. *)
Lemma polls_work ins s rs s' :
  polling s → polls try_new ins s = (rs, s') → Forall is_ret rs →
  polling s' ∧ work s' <= work s + 2 * zlen (concat ins.*1).
Proof.
  revert s rs. induction ins as [|[ps max] ins IH]; intros s rs Hp; cbn [polls].
  - intros [= <- <-] _. split; [done|]. cbn. lia.
  - destruct (arrive_polling ps s Hp) as [Hp' Hq']. destruct (poll_batch try_new max (arrive ps s)) as [r s1] eqn:Er.
    destruct (polls try_new ins s1) as [rs1 s2] eqn:Ers. intros [= <- <-] [Hr Hrs]%Forall_cons_1.
    destruct r as [r| |]; [|done..].
    destruct (poll_spec _ _ _ _ _ Hp' Er) as (cs & evs & s0 & s3 & Hok).
    destruct Hok as [Hq _ _ Hp1 _ Hproc Hst _ _ Hend _ _ _].
    destruct Hst as (_ & _ & _ & _ & _ & Hh0). destruct Hend as (_ & _ & _ & _ & _ & Hh1).
    pose proof (process_payloads_held _ _ _ Hproc) as Hh.
    destruct (IH _ _ Hp1 Ers Hrs) as [Hp2 Hw]. split; [done|]. unfold work in *.
    change (held (arrive ps s)) with (held s) in *. rewrite Hq' in Hq.
    apply (f_equal length) in Hq. rewrite !length_app in Hq. cbn [fmap list_fmap fst concat].
    rewrite length_app. lia.
Qed.

(** [C3]: the source delivers exactly the committed rows, once each and in commit
    order. However the payloads of the replication stream (transactions, relations, raw
    messages, keep-alives) are cut into polls of any sizes, once the source has been
    polled often enough afterwards (twice the number of payloads is enough) the rows of
    the batches are the rows of the committed transactions, every row with the position
    and the commit time of its transaction and the table and JSON of its relation; rows
    of a transaction that has not committed, or that another Begin replaces, are not
    among them. This holds for polls that return without error while no row is dropped
    at the buffer's cap. *)
Theorem pg_polls_deliver_committed cfg slot ins n max rs s' :
  0 <= cfg_max_buffered_events cfg → (0 < max)%nat →
  2 * zlen (concat ins.*1) <= Z.of_nat n → zlen (concat ins.*1) < u64_MOD →
  polls try_new (ins ++ replicate n ([], max)) (opened cfg slot) = (rs, s') →
  Forall is_ret rs → drops s' = 0 →
  ∃ evss, Forall2 (delivers try_new) rs evss ∧
    concat evss = committed cfg ∅ None (s_write_lsn (opened cfg slot)) (concat ins.*1).
Proof.
  intros Hm Hmax Hn Hlen Hrun Hret Hd.
  assert (Harr : concat (ins ++ replicate n ([], max)).*1 = concat ins.*1).
  { rewrite fmap_app, concat_app. enough (concat (replicate n (([] : list WalPayload), max)).*1 = []) as ->
      by apply app_nil_r. clear. by induction n. }
  destruct (polls_committed _ _ _ _ _ Hm ltac:(by rewrite Harr) Hrun Hret Hd) as (evss & HF & Heq).
  exists evss. split; [done|]. rewrite Harr in Heq. rewrite <- Heq.
  rewrite polls_app in Hrun. destruct (polls try_new ins (opened cfg slot)) as [rs1 s1] eqn:E1.
  destruct (polls try_new (replicate n ([], max)) s1) as [rs2 s2] eqn:E2. injection Hrun as <- <-.
  apply Forall_app in Hret as [Hr1 Hr2].
  destruct (polls_work _ _ _ _ (opened_polling _ slot Hm) E1 Hr1) as [Hp1 Hw1].
  destruct (polls_drain _ _ _ _ _ Hmax Hp1 E2 Hr2) as [Hq Hb].
  { left. destruct (opened_facts cfg slot) as (_ & _ & Hq & Hb & Ho & _).
    assert (work (opened cfg slot) = 0) as H0; [|lia].
    unfold work, held. rewrite Hq, Hb. unfold open_of in Ho. by destruct (s_current_txn _). }
  unfold future. rewrite Hq, Hb. cbn. by rewrite app_nil_r.
Qed.
End Theorems.

Section Checkpoints.
Context {RB : Type} (try_new : EnvelopeColumns → option RB).

Lemma lsn_inv_ext s s' ps :
  s_write_lsn s' = s_write_lsn s → s_polled_lsn s' = s_polled_lsn s → open_of s' = open_of s →
  lsn_inv s ps → lsn_inv s' ps.
Proof. unfold lsn_inv. by intros -> -> ->. Qed.

Lemma polls_lsn ins s rs s' :
  polling s → polls try_new ins s = (rs, s') → Forall is_ret rs →
  lsn_inv s (queue_of s ++ concat ins.*1) → safe s → lsn_inv s' (queue_of s') ∧ safe s'.
Proof.
  revert s rs. induction ins as [|[ps max] ins IH]; intros s rs Hp; cbn [polls].
  - intros [= <- <-] _ Hi Hs. cbn in Hi. rewrite app_nil_r in Hi. done.
  - destruct (arrive_polling ps s Hp) as [Hp' Hq']. set (sa := arrive ps s) in *.
    destruct (poll_batch try_new max sa) as [r s1] eqn:Er. destruct (polls try_new ins s1) as [rs1 s2] eqn:Ers.
    intros [= <- <-] [Hr Hrs]%Forall_cons_1 Hi Hs. destruct r as [r| |]; [|done..].
    destruct (poll_spec _ _ _ _ _ Hp' Er) as (cs & evs & s0 & s3 & [Hq _ _ Hp1 _ Hproc Hst _ _ Hend _ _ Hpol]).
    destruct Hst as (_ & Hpl0 & Hw0 & Hb0 & Ho0 & _). destruct Hend as (_ & _ & Hw1 & Ho1 & Hb1 & _).
    apply (IH _ _ Hp1 Ers Hrs).
    all: destruct (process_payloads_lsn cs s0 s3 (queue_of s1 ++ concat ins.*1) Hproc) as [Hi3 Hs3];
      [apply (lsn_inv_ext s); [done..|]; cbn in Hi; by rewrite app_assoc, <- Hq', Hq, <- app_assoc in Hi
      |unfold safe; by rewrite Hpl0, Hb0|].
    + destruct Hpol as [Hpol|[_ Hpol]]; [by apply (lsn_inv_ext s3)|].
      destruct Hi3 as (h & Hw & _ & Ho & Hop). exists h. rewrite Ho1, Hw1, Hpol. by split_and!.
    + unfold safe in *. destruct Hpol as [->|[-> _]]; [|constructor].
      rewrite Hb1 in Hs3. by apply Forall_app in Hs3 as [_ ?].
Qed.

(** Restoring a checkpoint resumes where it was taken. *)
Lemma pg_restore_checkpoint s s2 :
  is_u64 (s_polled_lsn s) → is_u64 (s_write_lsn s) →
  ∃ s2', restore (checkpoint s).1 s2 = (Ret (), s2') ∧
    s_confirmed_flush_lsn s2' = s_polled_lsn s ∧ s_polled_lsn s2' = s_polled_lsn s ∧
    s_write_lsn s2' = s_write_lsn s.
Proof.
  intros Hp Hw. unfold restore, checkpoint, get_offset. cbn [fst set_metadata set_offset cp_offsets].
  rewrite lookup_insert_ne by done. rewrite !lookup_insert_eq.
  rewrite !Lsn_roundtrip by done. by eexists.
Qed.

(** [C24]: a checkpoint never confirms a row that has not been delivered, as long as
    the polls return without error, no row is dropped at the buffer's cap, and the
    stream comes in the order of a replication slot with no keep-alive inside an open
    transaction (without these it may, as shown below). Then after any run of polls every
    committed row that is not in a batch yet, buffered, in the open transaction or
    still in the reader's channel, belongs to a transaction at or past the position the
    checkpoint stores and sends to the server, so the server sends it again after a
    restart; and a source restored from the checkpoint resumes at that position. *)
Theorem pg_checkpoint_at_least_once cfg slot ins rs s' s2 :
  0 <= cfg_max_buffered_events cfg → zlen (concat ins.*1) < u64_MOD →
  wal_ordered (s_write_lsn (opened cfg slot)) None (concat ins.*1) = true →
  polls try_new ins (opened cfg slot) = (rs, s') → Forall is_ret rs → drops s' = 0 →
  is_u64 (s_polled_lsn s') → is_u64 (s_write_lsn s') →
  ∃ evss undelivered, Forall2 (delivers try_new) rs evss ∧
    concat evss ++ undelivered =
      committed cfg ∅ None (s_write_lsn (opened cfg slot)) (concat ins.*1) ∧
    Forall (λ e, s_polled_lsn s' <= ce_lsn e) undelivered ∧
    match s_current_txn s' with Some t => s_polled_lsn s' <= tx_final_lsn t | None => True end ∧
    (∃ s2', restore (checkpoint s').1 s2 = (Ret (), s2') ∧
      s_confirmed_flush_lsn s2' = s_polled_lsn s' ∧ s_polled_lsn s2' = s_polled_lsn s') ∧
    (is_Some (s_confirmed_lsn_tx s') → s_confirmed_lsn_tx (checkpoint s').2 = Some (s_polled_lsn s')).
Proof.
  intros Hm Hlen Hord Hrun Hret Hd Hup Huw.
  destruct (polls_committed _ _ _ _ _ _ Hm Hlen Hrun Hret Hd) as (evss & HF & Heq).
  destruct (opened_facts cfg slot) as (Hc & _ & Hq & Hb & Ho & _ & Hpw & _).
  destruct (polls_lsn _ _ _ _ (opened_polling _ slot Hm) Hrun Hret) as [Hi Hs].
  - exists (s_write_lsn (opened cfg slot)). rewrite Hq, Ho, Hpw. by split_and!.
  - unfold safe. rewrite Hb. constructor.
  - exists evss, (future s' (queue_of s')). split_and!; [done|done|by apply future_after| | |].
    + destruct Hi as (h & _ & Hph & _ & Hop). unfold open_of in Hop.
      destruct (s_current_txn s') as [t|]; [|done]. cbn in Hop. lia.
    + destruct (pg_restore_checkpoint s' s2 Hup Huw) as (s2' & ? & ? & ? & _). eauto.
    + intros [x Hx]. unfold checkpoint. cbn. by rewrite Hx.
Qed.

(** *** The cap and the oldest events *)

(** What is done to a source between [open] and [close]. *)
Inductive source_step : PostgresCdcSource → PostgresCdcSource → Prop :=
  | step_arrive ps s : source_step s (arrive ps s)
  | step_enqueue data s : source_step s (enqueue_wal_data data s)
  | step_poll max s : source_step s (poll_batch try_new max s).2
  | step_checkpoint s : source_step s (checkpoint s).2
  | step_restore cp s : source_step s (restore cp s).2
  | step_close s : source_step s (close s).

Lemma step_cap s s' : cap_ok s → source_step s s' → cap_ok s'.
Proof.
  intros Hc Hst. destruct Hst as [| |max s| |cp s|]; try exact Hc.
  - by apply keeps_poll.
  - unfold restore. revert s Hc.
    match goal with |- ∀ s, cap_ok s → cap_ok (?c s).2 => enough (Keeps cap_ok c) by done end.
    repeat case_match; eauto with keeps.
  - unfold cap_ok, held in *. cbn. case_match; lia.
Qed.

(** The events a full buffer loses are the newest, not the oldest. Whatever is
    done to an opened source (payloads and messages arriving, polls, failed or not,
    checkpoints, restores, closing), it never holds more than [max_buffered_events], so the
    statement of [poll_batch] that drops the oldest events drops nothing: [poll_batch] is
    [poll_batch] without it. The cap is enforced by [push_event], which discards the event
    that arrives. *)
Theorem pg_drop_oldest_is_dead cfg slot s max :
  0 <= cfg_max_buffered_events cfg → rtc source_step (opened cfg slot) s →
  held s <= cfg_max_buffered_events (s_config s) ∧
  poll_batch try_new max s = poll_batch_uncapped try_new max s ∧
  (∀ e, held s = cfg_max_buffered_events (s_config s) →
     s_event_buffer (push_event e s) = s_event_buffer s ∧ s_current_txn (push_event e s) = s_current_txn s).
Proof.
  intros Hm Hr. assert (Hc : cap_ok s).
  { assert (H0 : cap_ok (opened cfg slot)) by apply opened_polling, Hm. revert H0.
    induction Hr as [|s1 s2 s3 Hs _ IH]; [done|]. intros. by eapply IH, step_cap. }
  split_and!; [exact Hc|by apply poll_batch_drops_none|].
  intros e He. unfold push_event. fold (held s). rewrite He, Z.leb_refl. done.
Qed.

(** *** The source task *)

(** The replication slot is advanced with every batch, not with checkpoints. In a
    turn of the source task without any checkpoint barrier, a poll that gives a batch
    makes the task call [checkpoint] before it hands the batch over, and that call sends
    the polled position to the server; when the batch empties the buffer this is the
    end of the last commit, past every row of the batch. *)
Theorem pg_turn_confirms_batch max s effects s' b :
  is_Some (s_confirmed_lsn_tx s) → polling s →
  task_turn try_new max None s = (effects, s') → SendBatch b ∈ effects →
  s_confirmed_lsn_tx s' = Some (s_polled_lsn s') ∧
  (∃ cp, effects = [PublishOffset cp; SendBatch b] ∧
     get_offset (lit "lsn") cp = Some (Lsn_to_string (s_polled_lsn s'))) ∧
  (s_event_buffer s' = [] → s_polled_lsn s' = s_write_lsn s').
Proof.
  intros [x Hx] Hp. unfold task_turn. destruct (poll_batch try_new max s) as [r s1] eqn:Er.
  destruct r as [[[b' part]|]| |]; [|by intros [= <- <-] ?%elem_of_nil..].
  destruct (poll_spec _ _ _ _ _ Hp Er) as (ps & evs & s0 & s3 & Hok).
  pose proof (po_channel _ _ _ _ _ _ _ _ _ Hok) as Htx. pose proof (po_emptied _ _ _ _ _ _ _ _ _ Hok) as Hem.
  cbn [checkpoint fst snd]. intros [= <- <-] Hb.
  apply elem_of_cons in Hb as [|Hb]; [done|]. apply list_elem_of_singleton in Hb as [= <-].
  cbn. rewrite Htx, Hx. split_and!; [done| |by apply Hem].
  eexists. split; [reflexivity|]. unfold get_offset. cbn. by rewrite lookup_insert_ne, lookup_insert_eq.
Qed.
End Checkpoints.

(** ** Concrete streams *)

Definition demo_cfg : PostgresCdcConfig := PostgresCdcConfig_new [104] [100] [115] [112].
Definition demo_relation : list Z :=
  [ch "R"] ++ to_be 4 7 ++ enc_cstring [] ++ enc_cstring [116] ++ [100] ++ to_be 2 1
    ++ [1] ++ enc_cstring [105] ++ to_be 4 20 ++ to_be 4 (-1).
Definition demo_insert (x : Z) : list Z :=
  [ch "I"] ++ to_be 4 7 ++ [ch "N"] ++ enc_tuple (mkTuple [Text [x]]).
Definition demo_truncate : list Z := [ch "T"] ++ to_be 4 1 ++ [0] ++ to_be 4 7.
(** A committed row, a keep-alive, and a transaction that is still open. *)
Definition demo_stream : list WalPayload :=
  [PBegin 100 0 1; PXLogData 90 demo_relation; PXLogData 95 (demo_insert 65); PCommit 110 0 100;
   PKeepAlive 115; PBegin 120 0 2; PXLogData 119 (demo_insert 66)].

Lemma pg_polls_deliver_committed_witness :
  (∃ evss, Forall2 (delivers Some)
     (polls Some ([(demo_stream, 3%nat); ([], 2%nat)] ++ replicate 14 ([], 2%nat)) (opened demo_cfg (Some 50))).1
     evss ∧ concat evss = committed demo_cfg ∅ None 50 demo_stream) ∧
  ce_lsn <$> committed demo_cfg ∅ None 50 demo_stream = [100].
Proof.
  split; [|vm_compute; reflexivity].
  apply (pg_polls_deliver_committed Some demo_cfg (Some 50) [(demo_stream, 3%nat); ([], 2%nat)] 14 2
    (polls Some ([(demo_stream, 3%nat); ([], 2%nat)] ++ replicate 14 ([], 2%nat)) (opened demo_cfg (Some 50))).1
    (polls Some ([(demo_stream, 3%nat); ([], 2%nat)] ++ replicate 14 ([], 2%nat)) (opened demo_cfg (Some 50))).2).
  - discriminate.
  - lia.
  - vm_compute. discriminate.
  - reflexivity.
  - apply surjective_pairing.
  - vm_compute. repeat constructor.
  - vm_compute. reflexivity.
Defined.

Lemma pg_checkpoint_at_least_once_witness :
  ∃ evss undelivered,
    Forall2 (delivers Some) (polls Some [(demo_stream, 9%nat)] (opened demo_cfg (Some 50))).1 evss ∧
    concat evss ++ undelivered = committed demo_cfg ∅ None 50 demo_stream ∧
    s_polled_lsn (polls Some [(demo_stream, 9%nat)] (opened demo_cfg (Some 50))).2 = 119.
Proof.
  destruct (pg_checkpoint_at_least_once Some demo_cfg (Some 50) [(demo_stream, 9%nat)]
    (polls Some [(demo_stream, 9%nat)] (opened demo_cfg (Some 50))).1
    (polls Some [(demo_stream, 9%nat)] (opened demo_cfg (Some 50))).2 (PostgresCdcSource_new demo_cfg))
    as (evss & und & HF & Heq & _).
  - discriminate.
  - reflexivity.
  - vm_compute. reflexivity.
  - apply surjective_pairing.
  - vm_compute. repeat constructor.
  - vm_compute. reflexivity.
  - vm_compute. split; [discriminate|reflexivity].
  - vm_compute. split; [discriminate|reflexivity].
  - exists evss, und. split; [exact HF|]. split; [exact Heq|]. vm_compute. reflexivity.
Defined.

Lemma pg_drop_oldest_is_dead_witness :
  poll_batch Some 5 (arrive demo_stream (opened demo_cfg None)) =
  poll_batch_uncapped Some 5 (arrive demo_stream (opened demo_cfg None)).
Proof.
  apply (pg_drop_oldest_is_dead Some demo_cfg None (arrive demo_stream (opened demo_cfg None)) 5).
  - discriminate.
  - apply rtc_once. constructor.
Defined.

(** The batch of the committed row of [demo_stream]. *)
Definition demo_batch : EnvelopeColumns :=
  mkEnvelope [[116]] [[73]] [100] [946684800000] [None] [Some [123; 34; 105; 34; 58; 34; 65; 34; 125]].

Lemma pg_turn_confirms_batch_witness :
  SendBatch demo_batch ∈ (task_turn Some 4 None (arrive demo_stream (opened demo_cfg (Some 50)))).1 ∧
  s_confirmed_lsn_tx (task_turn Some 4 None (arrive demo_stream (opened demo_cfg (Some 50)))).2 = Some 110.
Proof.
  assert (Hb : SendBatch demo_batch ∈
    (task_turn Some 4 None (arrive demo_stream (opened demo_cfg (Some 50)))).1)
    by (vm_compute; right; left).
  split; [exact Hb|].
  assert (Hp : polling (opened demo_cfg (Some 50))) by (apply opened_polling; discriminate).
  rewrite (proj1 (pg_turn_confirms_batch Some 4 (arrive demo_stream (opened demo_cfg (Some 50)))
    _ _ demo_batch ltac:(eexists; reflexivity) (proj1 (arrive_polling _ _ Hp)) (surjective_pairing _) Hb)).
  vm_compute. reflexivity.
Defined.

(** An error in one payload loses the payloads received with it. A TRUNCATE makes
    the poll fail; the committed transaction behind it, already taken off the channel,
    is thrown away; the source stays Running, the next poll succeeds with the
    transaction after it, and the polled position moves past the lost row, which no
    batch ever carries. *)
Theorem pg_poll_error_loses_transaction :
  let ins := [ ([PBegin 60 0 1; PXLogData 55 demo_relation; PCommit 61 0 60], 10%nat);
               ([PXLogData 70 demo_truncate; PBegin 100 0 2; PXLogData 95 (demo_insert 65);
                 PCommit 110 0 100], 10%nat);
               ([PBegin 200 0 3; PXLogData 195 (demo_insert 66); PCommit 210 0 200], 10%nat) ] in
  let '(rs, s) := polls Some ins (opened demo_cfg (Some 50)) in
  match rs with
  | [Ret None; Fail_ (ReadError _); Ret (Some (batch, _))] => ev_lsn batch = [200]
  | _ => False
  end ∧
  s_state s = Running ∧ s_polled_lsn s = 210 ∧ s_event_buffer s = [] ∧ queue_of s = [] ∧
  ce_lsn <$> committed demo_cfg ∅ None 50 (concat ins.*1) = [100; 200].
Proof. vm_compute. repeat split. Qed.

(** A position the server reports while a transaction is open is taken for a polled
    one: a keep-alive past the open transaction moves the polled position, and with it
    the position a checkpoint confirms, past rows that have not been delivered. The
    order required by [pg_checkpoint_at_least_once] is what excludes this. *)
Lemma pg_keepalive_confirms_open_transaction :
  let '(rs, s) := polls Some [(demo_stream ++ [PKeepAlive 300], 9%nat)] (opened demo_cfg (Some 50)) in
  s_confirmed_lsn_tx (checkpoint s).2 = Some 300 ∧
  match s_current_txn s with
  | Some t => tx_final_lsn t = 120 ∧ ce_lsn <$> tx_events t = [120]
  | None => False
  end ∧
  wal_ordered 50 None (demo_stream ++ [PKeepAlive 300]) = false.
Proof. vm_compute. repeat split. Qed.
